(* ===== verification/_CoqProject ===== *)
-Q . S2P
Prelude.v
Std.v
Order.v
Text.v
Intervals.v
IpRange.v
Subtract.v
IpSet.v
Numbering.v
Positions.v
PortSet.v
PortSpec.v
Mac.v
Ordering.v
Time.v
Version.v
Utf8.v
JournalFormat.v
Finished.v
Written.v
Lock.v
Target.v
Exclusion.v
Scoped.v
AddrText.v
Expression.v
TargetText.v
Cursor.v
Checkpoint.v
Settle.v
Locking.v
Retention.v
Finding.v
BTree.v
Advisories.v
Backport.v
Catalogue.v
Correlate.v
Guard.v
Template.v
Flow.v
Ledger.v
Deadline.v
Congestion.v
Packet.v
Ethernet.v
Lldp.v
Cdp.v
Crc.v
Sctp.v
Dns.v
Netbios.v
Tls.v
Path.v
Status.v
Hardware.v
Telemetry.v
Os.v
TlsSupport.v
Endpoint.v
Identity.v
HostPorts.v
Host.v
Pairing.v
Flood.v
Suites.v
Posture.v
DiffPort.v
Report.v
Scope.v
DiffHost.v
Diff.v
