(* ===== verification/Prelude.v ===== *)
(** * A verification library for the Zond engine

    The engine scans networks.  A caller names addresses and ports; the engine turns
    them into a _plan_, a numbered sequence of targets, takes out of it what the
    caller's policy excludes, walks it in an order that a key shuffles, and writes down
    as it goes what is settled, so that a scan stopped at any point is resumed where it
    stopped.  While it probes, a ledger keeps what is in flight and decides what is
    asked again, and a window how much may be; what answers is put to _flows_, small
    written programs that talk to a service and report findings.

    This library models the deterministic core of that: the text a caller writes and
    the sets and plans it becomes, the order and the exclusions, the journal a scan can
    be resumed from with its files and its lock, the ledger, the deadlines and the
    window that pace it, the flows with their guards, templates, validator and
    interpreter, the findings they leave on hosts and ports, the vulnerabilities a
    catalogue and the distributors' advisories say a service has, the readers and
    writers of packets that the engine has of its own, the record of a host with the
    folding of records, and the report of a scan with the comparison of two.  Everything is translated
    from [src/src]; the names of the source are kept where the language allows it.

    ** How code becomes definitions

    A Rust function is a Rocq function on the values it reads and returns; [&mut self]
    is a state passed in and out; [Option] is [option] and [Result] is [Result] of
    [Std]; a struct is a record and an enum an inductive type.  Unsigned integers are
    [Z] with their width written at each operation that can wrap or saturate (this file).
    A [loop] is a step function run with a binary bound ([loop] below), or a [Fixpoint]
    with fuel; in every case the bound is shown to be enough, so the theorems say what
    the code returns and not what it would return.  The bounds: [turns] of [Cursor] is
    [2^66], past any count of 64-bit positions; [file_turns] of [JournalFormat] is
    [2^64 + 1], past any file length; the drain of [Ledger] is bounded by the deadlines
    the heap holds; the parsers of [Expression], [Guard] and [Template] by the length of
    what they read, and a guard by the 64 levels the code itself enforces; the
    walks over the records of a packet by the 128 the code itself allows, or by its
    bytes; a path up the union-find of [Pairing] and the turns of the fill of [Flood] by
    the number of records, none of which is met twice; the others are lengths of the
    lists consumed.
    Strings are lists of code points, or of bytes where the code works on bytes.

    ** Files and what they model

    - [Prelude], [Std], [Text], [Utf8], [Ordering]: machine integers, loops, [Result],
      binary search, sorting, strings, UTF-8, comparisons that sort ([CmpOrder]): what
      the code uses of the language and its library.
    - [Order]: [model/order.rs], the keyed permutation that shuffles a plan.
    - [Intervals], [Subtract], [IpRange], [IpSet]: [model/ip/range.rs] and
      [model/ip/set.rs], ranges of addresses and sets of them.
    - [Numbering], [Positions]: the table of [model/ip/set.rs] that numbers a set's
      addresses.
    - [PortSet], [PortSpec]: [model/port.rs] and [model/port/set.rs], port sets and
      their expressions.
    - [Mac]: [model/mac.rs].
    - [Target]: [model/target.rs], units, plans and the index of a plan.
    - [Exclusion]: [model/exclusion.rs], what may not be scanned.
    - [Scoped]: [model/ip/scoped.rs] and [TargetMap::take_unprobeable].
    - [AddrText], [Expression], [TargetText]: the text of addresses as the standard
      library reads and writes it, [model/parse/ip.rs] and [model/parse/target.rs]:
      what a caller writes, as far as the plan.
    - [Cursor], [Checkpoint]: [journal/cursor.rs], what is settled, written down and read
      back, and what a resumed sitting still has to ask.
    - [Settle], [Locking]: [journal/settle.rs], the tasks that settle positions at once,
      and the mutex they wait for.
    - [JournalFormat]: [journal/format.rs] and the mending of [journal/store.rs], the
      files of one record a line.
    - [Finished], [Written], [Retention]: of [journal/store.rs], the record of finished
      hosts, the findings file with its deltas and compaction, and which journals are
      kept.
    - [Lock]: [journal/lock.rs], as a machine on which processes interleave.
    - [Time]: [format/time.rs].
    - [Version]: [version.rs].
    - [Finding]: [model/finding.rs], with what ports and hosts do with findings.
    - [BTree], [Advisories], [Backport]: [BTreeMap] as the code uses it,
      [cve/advisories.rs], and [model/port/build.rs], [cve/packages.rs] and
      [cve/backport.rs]: what distributors say of their packages, and what that says of
      a build.
    - [Catalogue], [Correlate]: [cve.rs], [cve/applicability.rs] and [cve/exploited.rs]:
      names of products, the entries of a catalogue and when they apply, and the
      findings they come to on a host.
    - [Guard], [Template], [Flow]: [detect/flow] ([expr.rs] and [eval.rs]; interpolation
      and escapes; schema, conversion, validator and interpreter).
    - [Ledger], [Deadline], [Congestion]: [scanner/pacing], the probes in flight and
      their timers, the time a sitting and a host may take, the congestion window.
    - [Packet], [Ethernet], [Lldp], [Cdp], [Crc], [Sctp], [Dns], [Netbios], [Tls]: of
      [protocols], the readers and writers that are the engine's own: errors and text
      ([error.rs], [text.rs]), frames and VLAN tags ([ethernet.rs]), what switches
      announce ([lldp.rs], [cdp.rs]), SCTP packets with their checksum ([sctp.rs], and
      the part of [craft.rs] it uses), reverse names and queries ([dns.rs]), name tables
      ([netbios.rs]) and hellos ([tls.rs]).
    - [Path], [Status], [Hardware], [Telemetry], [Os]: of [model/host], the route to a
      host, its reachability and the names it gives itself, its hardware addresses, its
      round trips and its operating system.
    - [TlsSupport], [Endpoint]: of [model/tls.rs] what an enumeration found, and a port
      with its service and its security ([model/port.rs], [model/port]).
    - [Identity], [HostPorts], [Host]: [model/host.rs]: the addresses and names of a
      host, its table of ports, and the host: every operation on it as a step
      ([host_step]), and the fold of two records.
    - [Pairing], [Flood]: [diff/pairing.rs], which records are of one host.
    - [Suites], [Posture]: the registry of cipher suites and what is reported of the ones
      an endpoint accepts ([model/tls.rs]), and of its certificate
      ([model/port/security.rs]).
    - [Report]: [report.rs], the ground and the phases of a scan, the hosts of a report,
      the assembly of one and the fold of two.
    - [DiffPort], [Scope], [DiffHost], [Diff]: [diff.rs] and the rest of [diff]: what
      changed at an endpoint, what a report says it covered, what changed about a host,
      and the comparison of two reports with its counts and its grades.

    ** What is shown

    - Sets: whatever was inserted, merged and subtracted, membership, counts,
      enumeration and equality are those of the mathematical set, interface by
      interface ([IpSet.contains_refines_set], [IpSet.subtract_exact]).
    - Plans: the position of a target and the target at a position are inverse; the
      index computes by arithmetic what walking the plan finds ([Target]); the shuffled
      order visits every position once ([Order.iter_is_a_permutation]).
    - Policy: nothing withheld is left and nothing else is taken out, and where no range
      of the policy reaches past the block both spellings share, an address is refused in
      both spellings or in neither ([Exclusion.withhold_is_excludes]); layers of a policy add up where their ranges
      stay clear of the block both spellings share ([Exclusion.layers_add_up]), and
      need not elsewhere ([Exclusion.layer_readmits]).
    - Resumption: a cursor remembers exactly the positions settled
      ([Cursor.cursor_remembers]), through a checkpoint and back, in any interleaving of
      tasks ([Settle.interleaved_records]); tasks that wait for the cursor's mutex never
      wait for ever ([Locking.locked_sittings_end]); and a resumed sitting asks exactly
      the rest of a plan that its index holds whole ([Checkpoint.resume_asks_the_rest]).
    - Files: a journal killed at any byte of a write reads as its whole records where
      the cut falls between characters, is mended to them, and continues
      ([JournalFormat]); what a sitting recorded in records of ASCII survives any sequence
      of kills, in the mending of a file too ([Finished.finished_survives_kills]), save in
      a header cut short, which is refused ([Finished.cut_header_is_refused]); the deltas
      of the findings file lose nothing of a host whose digests do not collide with those
      it had ([Written.record_hosts_remembers]).
    - The lock: at most one process holds it as long as no lock is let go while a process
      has the guard and no process that has the guard finds the name gone
      ([Lock.one_holder]), and two can hold it otherwise ([Lock.release_lets_two_hold],
      [Lock.release_within_inspect_lets_two_hold]).
    - Pacing: every probe in flight has a timer and is asked at most as often as its
      policy allows ([Ledger]); a sitting's and a host's time run out when they should
      ([Deadline]); the window stays between its limits and is cut once for each
      window of losses ([Congestion]).
    - Flows: a guard is read by its grammar and reads only the variables it names
      ([Guard]); a flow the validator accepts is closed, exchanges no more than its
      steps allow, and reports only the findings it declares ([Flow]); the validator
      and the interpreter agree on what a template refers to ([Template]).
    - Findings: a second report of a claim strengthens the first and never weakens
      it; a verdict that follows from a version goes when the version does ([Finding]).
    - Vulnerabilities: a feed is reduced to one verdict per channel of a release and
      reads back from its file ([Advisories]); a build is ruled fixed or affected only
      where the feed says so, by its own distributor and release ([Backport]); every
      vulnerability a catalogue knows of a service is reported or withdrawn with its
      reason, and correlating again changes nothing ([Correlate]).
    - Packets: a frame is its layout and nothing else is read ([Ethernet]); what a
      device says in an announcement is read back, the first of each kind, and a frame
      cut short never says anything else ([Lldp], [Cdp]); the checksum of SCTP is the
      division it stands for and notices damage to four neighbouring bytes ([Crc]); the
      packets, queries, tables and hellos that are written read back, in bounds and
      lengths that are right, and refusals say what is wrong ([Sctp], [Dns], [Netbios],
      [Tls]); an address has one reverse name ([Dns.one_address_one_name]).
    - Hosts: whatever operations a record goes through, however the clock is set, it stays within its ceilings,
      leads with an address it has and counts its ports right
      ([Host.reachable_hosts_are_sound]); two records fold to the same verdicts whichever
      is folded into which, and to the same addresses where their ceiling has room
      ([Host.fold_is_order_free]); the ports marked as touched are
      the ones that changed ([HostPorts.touched_ports_suffice]); a sighting, a reading or
      an enumeration is kept whole or not at all and a repeated one adds nothing
      ([Hardware.sightings_order_free], [Os.repeated_reading_adds_nothing],
      [TlsSupport.enumerations_fold_whole]); a name folded in is still known
      ([Identity.folded_names_are_known]).
    - Pairing: the union-find groups records just as chains of shared tokens do
      ([Pairing.groups_are_hosts]), and the flood fill finds the connected components of
      the graph between two scans ([Flood.components_are_hosts]), both ending, in one
      order, however the sets they read are walked.
    - Suites and certificates: no two suites have a number in common and a suite is as
      strong as its faults leave it ([Suites.registry_is_unambiguous],
      [Suites.strength_is_its_faults]); an enumeration folded in takes no claim away
      ([Suites.fold_keeps_claims]); each thing wrong with a certificate is claimed once
      ([Posture.posture_is_claimed_apart]).
    - Reports: however a report is put together its hosts are sound, under their own
      addresses, and none is an address found silent
      ([Report.assembled_reports_are_sound]); what was heard survives a fold
      ([Report.fold_keeps_what_was_heard]); what is undecided is what some phase left and
      none settled ([Report.undecided_exact]); the counts are those of what is held
      ([Report.summary_counts]), and the targets of the next phase are the hosts alive
      ([Report.alive_targets_exact]).
    - Comparison: it returns, in order, and lists only what differs
      ([Diff.comparison_returns]); a report held against itself shows only the
      certificates that time brought closer to their end ([Diff.comparison_with_itself]),
      and two records of a port or a host have
      nothing between them exactly where they tell the same
      ([DiffPort.ports_are_compared], [DiffHost.no_host_change]); coverage is what the
      phases recorded of an address ([Scope.coverage_of_address]), and goes further for a
      host that was never decided and for the port of another phase
      ([Scope.undecided_host_reads_as_asked],
      [Scope.ground_of_two_phases_reads_as_covered]); nothing is urgent without a cause
      ([Diff.urgent_has_a_cause]) and every host is counted once
      ([Diff.summary_accounts_for_hosts]).
    - Text: target expressions denote the addresses they spell ([Expression]) and
      become the plan a caller asked for ([TargetText]); port expressions, hardware addresses and timestamps read back as they were
      written; timestamps sort as moments; version comparisons are orders.

    ** Interfaces and parameters

    [JournalFormat.Serde] is [serde_json] at one type, and [SerdeLaws] what the journal
    relies on: a record is a line of text that reads back, of which no part cut short is
    a value.  [Written] takes the hasher as a parameter, of which it keeps 64
    bits, and where a theorem needs that no two of the records compared collide, it says
    so of those.  [Time.local] takes the zone of the
    machine, [Scoped] the table of interfaces, [Exclusion] the neighbour table,
    [TargetText] the resolver and the zones it asks, with their laws.  The arithmetic of
    floating point is a parameter with the laws the code relies on ([Ledger], [Congestion]), the timer
    heap of [Ledger] one with the laws of a priority queue; [Flow] takes the engine of
    regular expressions ([PatternEngine]) and the connection it talks over ([Probe]).
    [Advisories] takes the binary encoding of its file ([Bincode], [BincodeLaws]) and the
    digest in it ([Sha256]); [Backport] and [Catalogue] take the documents of packages,
    overlays and exploited vulnerabilities as they are read.  What is drawn at random
    for a packet is an argument of the function that draws it, and so is the time a
    clock is read at.  [Suites] and [Posture] take the version and the digest that stamp
    their findings.  [Hardware] takes the registry of vendors, [Pairing] and [Flood]
    the order a [HashSet] is walked in: some permutation of its elements.
    Each theorem with a parameter has a witness at a concrete one.

    ** Not modelled

    The scan itself: sockets, packet capture and the asynchronous tasks around them
    ([scanner]'s engine and strategies, [transport], [resolve], [system]).  Of
    [protocols], what goes through third-party packet types: the headers of IP, TCP,
    UDP, ICMP and ARP in [craft.rs] and the readers of [ip.rs], [icmp.rs], [arp.rs],
    [ndp.rs], [tcp.rs] and [dhcp.rs]; and the responses of DNS, which [dns_parser] reads.
    Fingerprints, which match corpora of data with third-party engines; the stages that
    schedule detections and the compute modules of flows, which run foreign code;
    vulnerability feeds ([import]) as their publishers serialise them; the records,
    exports and imports of reports, which are serialised documents, and the merging of
    several of those ([merge.rs]); of a phase its settings, counters and attachments,
    which are carried and not read; the
    directories of journals, their manifests and ownership, which are calls to the file
    system.  Of the modelled files, error texts and [Display] forms that nothing parses
    are left out, and so are failures of the device. *)

From Stdlib Require Import ZArith Lia.
From stdpp Require Import base numbers list.

Local Open Scope Z_scope.

(** ** Machine integers

    An unsigned [w]-bit integer is a [Z] in [[0, 2^w)].  The operators with a
    width in brackets are Rust's plain operators of a release build, which
    wrap; [sat_*] and [checked_*] are the methods of the same name. *)

Declare Scope word_scope.
Delimit Scope word_scope with word.

Definition umax (w : Z) : Z := 2 ^ w - 1.

Definition fits (w x : Z) : Prop := 0 <= x <= umax w.

Definition fitsb (w x : Z) : bool := (0 <=? x) && (x <=? umax w).

Definition wrap (w x : Z) : Z := x mod 2 ^ w.

Notation "a +[ w ] b" := (wrap w (a + b))
  (at level 50, w at level 9, left associativity) : word_scope.
Notation "a -[ w ] b" := (wrap w (a - b))
  (at level 50, w at level 9, left associativity) : word_scope.
Notation "a *[ w ] b" := (wrap w (a * b))
  (at level 40, w at level 9, left associativity) : word_scope.
Notation "a <<[ w ] b" := (wrap w (Z.shiftl a b))
  (at level 40, w at level 9, left associativity) : word_scope.

Open Scope word_scope.

Definition sat_add (w a b : Z) : Z := Z.min (a + b) (umax w).

Definition sat_sub (a b : Z) : Z := Z.max 0 (a - b).

Definition sat_mul (w a b : Z) : Z := Z.min (a * b) (umax w).

Definition checked_add (w a b : Z) : option Z :=
  if a + b <=? umax w then Some (a + b) else None.

Definition checked_sub (a b : Z) : option Z :=
  if b <=? a then Some (a - b) else None.

Definition checked_mul (w a b : Z) : option Z :=
  if a * b <=? umax w then Some (a * b) else None.

(** [uN::try_from] on a non-negative value. *)
Definition try_into (w x : Z) : option Z := if x <=? umax w then Some x else None.

(** [mlia] is [lia] with the integer predicates of this file unfolded. *)
Ltac mlia := unfold fits, sat_add, sat_sub, sat_mul in *; unfold umax in *; lia.

Lemma wrap_small w x : 0 <= x < 2 ^ w -> wrap w x = x.
Proof. apply Z.mod_small. Qed.

Lemma wrap_fits w x : 0 <= w -> fits w (wrap w x).
Proof.
  intros Hw. unfold wrap, fits, umax.
  pose proof (Z.mod_pos_bound x (2 ^ w) ltac:(apply Z.pow_pos_nonneg; lia)). lia.
Qed.

(** Removes every wrap-around whose argument is in range. *)
Ltac wsimp :=
  repeat match goal with
  | |- context [wrap ?w ?x] => rewrite (wrap_small w x) by mlia
  end.

Ltac wsimp_in H :=
  repeat match type of H with
  | context [wrap ?w ?x] => rewrite (wrap_small w x) in H by mlia
  end.

Lemma fitsb_spec w x : fitsb w x = true <-> fits w x.
Proof. unfold fitsb, fits. rewrite andb_true_iff, !Z.leb_le. tauto. Qed.

#[export] Instance fits_dec w x : Decision (fits w x).
Proof. unfold fits. apply _. Defined.

(** ** Bits of small integers *)

Lemma fits_testbit w x :
  0 <= w -> fits w x <-> 0 <= x /\ forall i, w <= i -> Z.testbit x i = false.
Proof.
  intros Hw. unfold fits, umax. split.
  - intros Hx. split; [lia|]. intros i Hi.
    rewrite <- (Z.mod_small x (2 ^ w)) by lia. apply Z.mod_pow2_bits_high; lia.
  - intros [Hx Hb]. split; [done|].
    assert (x = x mod 2 ^ w) as ->.
    { apply Z.bits_inj'. intros i Hi. destruct (Z.lt_ge_cases i w) as [Hlt|Hge].
      - by rewrite Z.mod_pow2_bits_low.
      - rewrite Z.mod_pow2_bits_high by lia. auto. }
    pose proof (Z.mod_pos_bound x (2 ^ w) ltac:(apply Z.pow_pos_nonneg; lia)). lia.
Qed.

Lemma lxor_fits w a b : 0 <= w -> fits w a -> fits w b -> fits w (Z.lxor a b).
Proof.
  intros Hw. rewrite !fits_testbit by done. intros [Ha Ha'] [Hb Hb'].
  split; [apply Z.lxor_nonneg; tauto|].
  intros i Hi. by rewrite Z.lxor_spec, Ha', Hb'.
Qed.

Lemma lor_fits w a b : 0 <= w -> fits w a -> fits w b -> fits w (Z.lor a b).
Proof.
  intros Hw. rewrite !fits_testbit by done. intros [Ha Ha'] [Hb Hb'].
  split; [apply Z.lor_nonneg; tauto|].
  intros i Hi. by rewrite Z.lor_spec, Ha', Hb'.
Qed.

Lemma shiftr_fits w a n : 0 <= w -> 0 <= n -> fits w a -> fits w (Z.shiftr a n).
Proof.
  intros Hw Hn. rewrite !fits_testbit by done. intros [Ha Ha'].
  split; [by apply Z.shiftr_nonneg|].
  intros i Hi. rewrite Z.shiftr_spec by lia. apply Ha'. lia.
Qed.

Lemma land_ones_fits w a n : 0 <= n <= w -> fits w (Z.land a (Z.ones n)).
Proof.
  intros Hn. rewrite Z.land_ones by lia. unfold fits, umax.
  pose proof (Z.mod_pos_bound a (2 ^ n) ltac:(apply Z.pow_pos_nonneg; lia)).
  pose proof (Z.pow_le_mono_r 2 n w). lia.
Qed.

Lemma land_1 x : Z.land x 1 = x mod 2.
Proof. change 1 with (Z.ones 1) at 1. by rewrite Z.land_ones. Qed.

Create HintDb word.
#[export] Hint Resolve wrap_fits lxor_fits lor_fits shiftr_fits : word.
#[export] Hint Extern 2 (_ <= _) => lia : word.

(** ** Loops

    A Rust [loop] is a step function that either continues with a new state or
    leaves with a result.  [run p step s] makes at most [p] turns; [p] is binary,
    so a bound such as [2^64] costs nothing to write and a loop that leaves early
    costs only the turns it makes. *)

Section Loops.
Context {S R : Type}.

Fixpoint run (p : positive) (step : S -> S + R) (s : S) : S + R :=
  match p with
  | xH => step s
  | xO q =>
      match run q step s with
      | inl s' => run q step s'
      | inr r => inr r
      end
  | xI q =>
      match step s with
      | inl s' =>
          match run q step s' with
          | inl s'' => run q step s''
          | inr r => inr r
          end
      | inr r => inr r
      end
  end.

(** The result of a loop, [d] when the bound was too small; the components
    prove that it never is. *)
Definition loop (p : positive) (d : S -> R) (step : S -> S + R) (s : S) : R :=
  match run p step s with inl s' => d s' | inr r => r end.

Fixpoint run_nat (n : nat) (step : S -> S + R) (s : S) : S + R :=
  match n with
  | O => inl s
  | Datatypes.S m =>
      match step s with
      | inl s' => run_nat m step s'
      | inr r => inr r
      end
  end.

Lemma run_nat_add n m step s :
  run_nat (n + m) step s =
  match run_nat n step s with inl s' => run_nat m step s' | inr r => inr r end.
Proof.
  revert s. induction n as [|n IH]; intros s; simpl; [done|].
  destruct (step s); [apply IH|done].
Qed.

Lemma run_run_nat p step s : run p step s = run_nat (Pos.to_nat p) step s.
Proof.
  revert s. induction p as [p IH|p IH|]; intros s; cbn [run].
  - replace (Pos.to_nat p~1) with (Datatypes.S (Pos.to_nat p + Pos.to_nat p))%nat by lia.
    cbn [run_nat]. destruct (step s) as [s'|]; [|done].
    rewrite run_nat_add, <- IH. destruct (run p step s'); auto.
  - replace (Pos.to_nat p~0) with (Pos.to_nat p + Pos.to_nat p)%nat by lia.
    rewrite run_nat_add, <- IH. destruct (run p step s); auto.
  - replace (Pos.to_nat 1) with 1%nat by lia. cbn. by destruct (step s).
Qed.

(** Total correctness: an invariant, a measure that each turn decreases, and a
    bound above the measure. *)
Lemma run_total (I : S -> Prop) (Q : R -> Prop) (mu : S -> Z) step p s :
  (forall s, I s -> match step s with
                    | inl s' => I s' /\ 0 <= mu s' < mu s
                    | inr r => Q r
                    end) ->
  I s -> mu s < Zpos p ->
  exists r, run p step s = inr r /\ Q r.
Proof.
  intros Hstep HI Hmu. rewrite run_run_nat.
  assert (mu s < Z.of_nat (Pos.to_nat p)) as Hn by lia.
  assert (0 < Pos.to_nat p)%nat as Hp by lia.
  clear Hmu. revert s HI Hn Hp. induction (Pos.to_nat p) as [|n IH];
    intros s HI Hn Hp; [lia|].
  simpl. specialize (Hstep s HI). destruct (step s) as [s'|r]; [|eauto].
  destruct Hstep as [HI' Hmu]. apply IH; [done|lia|lia].
Qed.

Lemma loop_total (I : S -> Prop) (Q : R -> Prop) (mu : S -> Z) step p d s :
  (forall s, I s -> match step s with
                    | inl s' => I s' /\ 0 <= mu s' < mu s
                    | inr r => Q r
                    end) ->
  I s -> mu s < Zpos p -> Q (loop p d step s).
Proof.
  intros Hstep HI Hmu. unfold loop.
  by destruct (run_total I Q mu step p s) as (r & -> & HQ).
Qed.
End Loops.

(** ** Options *)

Definition then_some {A} (b : bool) (x : A) : option A := if b then Some x else None.

Definition option_filter {A} (f : A -> bool) (o : option A) : option A :=
  match o with Some x => if f x then Some x else None | None => None end.

Definition is_some_and {A} (o : option A) (f : A -> bool) : bool :=
  match o with Some x => f x | None => false end.

Lemma is_some_and_true {A} (o : option A) f :
  is_some_and o f = true <-> exists x, o = Some x /\ f x = true.
Proof. destruct o; simpl; naive_solver. Qed.
