(* ===== verification/Std.v ===== *)
(** * The parts of Rust's standard library the engine leans on

    Slices are lists.  [binary_search_by] is the branchless search of the
    toolchain the crate requires (1.93): which of several matching elements it
    lands on matters to one client, so the loop is written out.  Sorting is a
    stable sort, which determines its result. *)

From Stdlib Require Import ZArith Lia.
From stdpp Require Import base numbers list sorting.
From S2P Require Import Prelude.

Local Open Scope Z_scope.

(** ** Result *)

Inductive Result (T E : Type) : Type :=
  | Ok (value : T)
  | Err (error : E).
Arguments Ok {T E} value.
Arguments Err {T E} error.

#[export] Instance result_eq_dec {T E} `{EqDecision T, EqDecision E} : EqDecision (Result T E).
Proof. solve_decision. Defined.

Definition is_ok {T E} (r : Result T E) : bool :=
  match r with Ok _ => true | Err _ => false end.

Definition ok {T E} (r : Result T E) : option T :=
  match r with Ok x => Some x | Err _ => None end.

Definition map_ok {T U E} (f : T -> U) (r : Result T E) : Result U E :=
  match r with Ok x => Ok (f x) | Err e => Err e end.

Definition map_err {T E F} (f : E -> F) (r : Result T E) : Result T F :=
  match r with Ok x => Ok x | Err e => Err (f e) end.

(** The [?] operator. *)
Definition try_ {T U E} (r : Result T E) (k : T -> Result U E) : Result U E :=
  match r with Ok x => k x | Err e => Err e end.

Notation "'let?' x := r 'in' k" := (try_ r (fun x => k))
  (at level 10, x pattern, r at level 100, k at level 200).

(** ** Binary search *)

Section Search.
Context {A : Type} (f : A -> comparison).

(** [while size > 1 { ... }], and the [base] it leaves.  [mid] is in bounds on
    every turn, so the default is never read. *)
Fixpoint search_base (fuel : nat) (l : list A) (base size : nat) : nat :=
  match fuel with
  | O => base
  | S fuel =>
      if (1 <? size)%nat then
        let half := Nat.div2 size in
        let mid := (base + half)%nat in
        let cmp := match l !! mid with Some x => f x | None => Gt end in
        let base := match cmp with Gt => base | _ => mid end in
        search_base fuel l base (size - half)
      else base
  end.

Definition binary_search_by (l : list A) : Result nat nat :=
  if (length l =? 0)%nat then Err 0%nat
  else
    let base := search_base (length l) l 0 (length l) in
    match l !! base with
    | Some x =>
        match f x with
        | Eq => Ok base
        | Lt => Err (base + 1)%nat
        | Gt => Err base
        end
    | None => Err base
    end.
End Search.

Definition partition_point {A} (pred : A -> bool) (l : list A) : nat :=
  match binary_search_by (fun x => if pred x then Lt else Gt) l with
  | Ok i => i
  | Err i => i
  end.

(** What a search needs: the answers come in the order less, equal, greater. *)
Definition rank (c : comparison) : Z := match c with Lt => 0 | Eq => 1 | Gt => 2 end.

Definition searchable {A} (f : A -> comparison) (l : list A) : Prop :=
  StronglySorted (fun x y => rank (f x) <= rank (f y)) l.

Lemma StronglySorted_lookup {A} (P : relation A) l i j x y :
  StronglySorted P l -> (i < j)%nat -> l !! i = Some x -> l !! j = Some y -> P x y.
Proof.
  intros Hs. revert i j. induction Hs as [|a l Hs IH Hall]; intros i j Hij Hi Hj; [done|].
  destruct j as [|j]; [lia|]. destruct i as [|i]; simpl in *; simplify_eq.
  - by eapply Forall_lookup_1.
  - apply (IH i j); [lia|done..].
Qed.

Lemma sorted_weaken {A} (P Q : relation A) l :
  (forall x y, x ∈ l -> y ∈ l -> P x y -> Q x y) -> StronglySorted P l -> StronglySorted Q l.
Proof.
  intros HPQ Hs. induction Hs as [|a l _ IH Hall]; constructor.
  - apply IH. intros x y Hx Hy. apply HPQ; by right.
  - rewrite Forall_forall in Hall |- *. intros y Hy. apply HPQ; [left|by right|by apply Hall].
Qed.

Section SearchSpec.
Context {A : Type} (f : A -> comparison) (l : list A) (Hs : searchable f l).

Lemma searchable_le i j x y :
  (i <= j)%nat -> l !! i = Some x -> l !! j = Some y -> rank (f x) <= rank (f y).
Proof.
  intros Hij Hi Hj. destruct (decide (i = j)) as [->|]; [simplify_eq; lia|].
  apply (StronglySorted_lookup _ l i j x y Hs); [lia|done..].
Qed.

Lemma searchable_gt i j x y :
  (i <= j)%nat -> l !! i = Some x -> f x = Gt -> l !! j = Some y -> f y = Gt.
Proof.
  intros Hij Hi Hx Hj. pose proof (searchable_le i j x y Hij Hi Hj) as Hle.
  rewrite Hx in Hle. by destruct (f y); simpl in Hle; [lia|lia|].
Qed.

Lemma searchable_lt i j x y :
  (i <= j)%nat -> l !! i = Some x -> l !! j = Some y -> f y = Lt -> f x = Lt.
Proof.
  intros Hij Hi Hj Hy. pose proof (searchable_le i j x y Hij Hi Hj) as Hle.
  rewrite Hy in Hle. by destruct (f x); simpl in Hle; [lia| |lia].
Qed.

(** The loop's invariant, carried to its exit. *)
Lemma search_base_spec fuel base size :
  (1 <= size)%nat -> (size <= fuel)%nat -> (base + size <= length l)%nat ->
  (base = 0%nat \/ exists x, l !! base = Some x /\ f x <> Gt) ->
  (forall j y, (base + size <= j)%nat -> l !! j = Some y -> f y = Gt) ->
  let b := search_base f fuel l base size in
  (b < length l)%nat /\ (b = 0%nat \/ exists x, l !! b = Some x /\ f x <> Gt) /\
  (forall j y, (b < j)%nat -> l !! j = Some y -> f y = Gt).
Proof.
  revert base size. induction fuel as [|fuel IH]; intros base size H1 Hf Hlen Hbase Hgt; [lia|].
  cbn [search_base]. destruct (Nat.ltb_spec 1 size) as [Hsz|Hsz].
  - pose proof (Nat.div2_decr size (size - 1)). pose proof (Nat.div2_double (Nat.div2 size)).
    assert (1 <= Nat.div2 size /\ 2 * Nat.div2 size <= size)%nat as [Hh1 Hh2].
    { rewrite Nat.div2_div. pose proof (Nat.div_mod_eq size 2).
      pose proof (Nat.mod_upper_bound size 2). lia. }
    destruct (lookup_lt_is_Some_2 l (base + Nat.div2 size)) as [x Hx]; [lia|].
    cbv zeta. rewrite Hx. destruct (f x) eqn:Efx.
    + apply IH; [lia|lia|lia|right; exists x; split; [done|by rewrite Efx]|].
      intros j y Hj. apply Hgt. lia.
    + apply IH; [lia|lia|lia|right; exists x; split; [done|by rewrite Efx]|].
      intros j y Hj. apply Hgt. lia.
    + apply IH; [lia|lia|lia|done|]. intros j y Hj.
      eapply searchable_gt; [|exact Hx|done]. lia.
  - assert (size = 1)%nat as -> by lia. split; [lia|]. split; [done|].
    intros j y Hj. apply Hgt. lia.
Qed.

Lemma binary_search_by_spec :
  match binary_search_by f l with
  | Ok i => exists x, l !! i = Some x /\ f x = Eq /\
              forall j y, (i < j)%nat -> l !! j = Some y -> f y = Gt
  | Err i => (i <= length l)%nat /\
             (forall j y, (j < i)%nat -> l !! j = Some y -> f y = Lt) /\
             (forall j y, (i <= j)%nat -> l !! j = Some y -> f y = Gt)
  end.
Proof.
  unfold binary_search_by. destruct (Nat.eqb_spec (length l) 0) as [E|E].
  { apply nil_length_inv in E. rewrite E. repeat split; [done|lia|done]. }
  destruct (search_base_spec (length l) 0 (length l)) as (Hb & Hb0 & Hbgt); [lia..|by left| |].
  { intros j y Hj Hy. apply lookup_lt_Some in Hy. lia. }
  set (b := search_base f (length l) l 0 (length l)) in *.
  destruct (lookup_lt_is_Some_2 l b Hb) as [x Hx]. rewrite Hx. destruct (f x) eqn:Efx.
  - exists x. auto.
  - split; [lia|]. split.
    + intros j y Hj Hy. eapply searchable_lt; [|exact Hy|exact Hx|done]. lia.
    + intros j y Hj. apply Hbgt. lia.
  - split; [lia|]. split.
    + destruct Hb0 as [->|(z & Hz & Hne)]; [lia|]. congruence.
    + intros j y Hj Hy. eapply searchable_gt; [|exact Hx|done|exact Hy]. lia.
Qed.

Lemma binary_search_is_ok :
  is_ok (binary_search_by f l) = true <-> exists x, x ∈ l /\ f x = Eq.
Proof.
  pose proof binary_search_by_spec as Hspec. split.
  - destruct (binary_search_by f l) as [i|i]; [|done]. intros _.
    destruct Hspec as (x & Hx & E & _). exists x. split; [by eapply list_elem_of_lookup_2|done].
  - intros (x & (k & Hk)%list_elem_of_lookup & E).
    destruct (binary_search_by f l) as [i|i]; [done|]. destruct Hspec as (_ & Hlt & Hgt).
    destruct (Nat.lt_ge_cases k i); [specialize (Hlt k x)|specialize (Hgt k x)]; naive_solver congruence.
Qed.
End SearchSpec.

(** A partition point splits the slice into what satisfies the predicate and
    what does not, where the predicate holds on a prefix. *)
Lemma partition_point_spec {A} (pred : A -> bool) l :
  StronglySorted (fun x y => pred y = true -> pred x = true) l ->
  (partition_point pred l <= length l)%nat /\
  (forall j y, (j < partition_point pred l)%nat -> l !! j = Some y -> pred y = true) /\
  (forall j y, (partition_point pred l <= j)%nat -> l !! j = Some y -> pred y = false).
Proof.
  intros Hs. unfold partition_point.
  assert (searchable (fun x => if pred x then Lt else Gt) l) as Hs'.
  { eapply sorted_weaken; [|exact Hs]. intros x y _ _ Hxy. simpl in Hxy.
    destruct (pred x), (pred y); simpl; lia. }
  pose proof (binary_search_by_spec _ l Hs') as H.
  destruct (binary_search_by _ l) as [i|i].
  - destruct H as (x & _ & E & _). by destruct (pred x).
  - destruct H as (H1 & H2 & H3). split; [done|]. split; intros j y Hj Hy.
    + specialize (H2 j y Hj Hy). by destruct (pred y).
    + specialize (H3 j y Hj Hy). by destruct (pred y).
Qed.

Lemma sorted_fmap {A B} (f : A -> B) (P : relation B) l :
  StronglySorted P (f <$> l) <-> StronglySorted (fun x y => P (f x) (f y)) l.
Proof.
  induction l as [|a l IH]; [by split; constructor|].
  rewrite fmap_cons, !StronglySorted_cons, Forall_fmap, IH. done.
Qed.

Lemma exists_cons {A} (P : A -> Prop) a l : (exists x, x ∈ a :: l /\ P x) <-> P a \/ exists x, x ∈ l /\ P x.
Proof.
  split.
  - intros (x & [->|Hx]%elem_of_cons & H); [by left|right; by exists x].
  - intros [H|(x & Hx & H)]; [exists a|exists x]; (split; [|done]); apply elem_of_cons; auto.
Qed.

(** *** Filters that keep nothing, or one element *)

Lemma filter_none {A} (P : A -> Prop) `{forall x, Decision (P x)} l :
  (forall x, x ∈ l -> ~ P x) -> filter P l = [].
Proof.
  induction l as [|a l IH]; intros Hn; [done|]. rewrite filter_cons_False by (apply Hn; by left).
  apply IH. intros x Hx. apply Hn. by right.
Qed.

Lemma filter_same {A} (P Q : A -> Prop) `{forall x, Decision (P x)} `{forall x, Decision (Q x)} (l : list A) :
  (forall x, x ∈ l -> P x <-> Q x) -> filter P l = filter Q l.
Proof.
  induction l as [|a l IH]; intros E; [done|].
  assert (filter P l = filter Q l) as IH' by (apply IH; intros x Hx; apply E; by right).
  assert (P a <-> Q a) as Ea by (apply E; by left). destruct (decide (P a)) as [Ha|Ha].
  - rewrite !filter_cons_True by tauto. by rewrite IH'.
  - rewrite !filter_cons_False by tauto. done.
Qed.

Lemma filter_unique {A} (P : A -> Prop) `{forall x, Decision (P x)} l i x :
  l !! i = Some x -> P x -> (forall j y, l !! j = Some y -> P y -> j = i) -> filter P l = [x].
Proof.
  revert i. induction l as [|a l IH]; intros [|i] Hi HP Hu; try done; simplify_eq/=.
  - rewrite filter_cons_True by done. f_equal. apply filter_none. intros y [j Hj]%list_elem_of_lookup Hy.
    by specialize (Hu (S j) y Hj Hy).
  - rewrite filter_cons_False.
    + apply (IH i); [done|done|]. intros j y Hj Hy. specialize (Hu (S j) y Hj Hy). lia.
    + intros Ha. by specialize (Hu 0%nat a eq_refl Ha).
Qed.

Lemma elem_of_concat {A} (x : A) ls : x ∈ concat ls <-> exists l, l ∈ ls /\ x ∈ l.
Proof.
  induction ls as [|l ls IH]; simpl.
  - split; [by intros ?%elem_of_nil|]. by intros (l & ?%elem_of_nil & _).
  - rewrite elem_of_app, IH. setoid_rewrite elem_of_cons. naive_solver.
Qed.

Lemma existsb_elem {A} (f : A -> bool) l :
  existsb f l = true <-> exists x, x ∈ l /\ f x = true.
Proof. rewrite existsb_exists. by setoid_rewrite list_elem_of_In. Qed.

(** ** Sorting *)

Section Sort.
Context {A : Type} (le : A -> A -> bool).

Fixpoint insert_by (x : A) (l : list A) : list A :=
  match l with
  | [] => [x]
  | y :: t => if le x y then x :: l else y :: insert_by x t
  end.

(** The stable sort: an element goes in front of its equals already placed,
    which came after it. *)
Definition sort_by (l : list A) : list A := foldr insert_by [] l.

Lemma insert_by_perm x l : insert_by x l ≡ₚ x :: l.
Proof.
  induction l as [|y t IH]; simpl; [done|]. destruct (le x y); [done|].
  rewrite IH. constructor.
Qed.

Lemma sort_by_perm l : sort_by l ≡ₚ l.
Proof. induction l as [|x l IH]; simpl; [done|]. by rewrite insert_by_perm, IH. Qed.

Lemma elem_of_sort_by x l : x ∈ sort_by l <-> x ∈ l.
Proof. by rewrite sort_by_perm. Qed.

Context (Htotal : forall x y, le x y = true \/ le y x = true).
Context (Htrans : forall x y z, le x y = true -> le y z = true -> le x z = true).

Lemma insert_by_sorted x l :
  StronglySorted (fun a b => le a b = true) l ->
  StronglySorted (fun a b => le a b = true) (insert_by x l).
Proof.
  induction 1 as [|y t Ht IH Hall]; simpl; [repeat constructor|].
  destruct (le x y) eqn:E.
  - repeat constructor; [done|done|done|]. eapply Forall_impl; [exact Hall|]. eauto.
  - constructor; [done|]. apply Forall_forall. intros z Hz.
    rewrite insert_by_perm in Hz. apply elem_of_cons in Hz as [->|Hz].
    + destruct (Htotal x y); congruence.
    + by apply (proj1 (Forall_forall _ _) Hall).
Qed.

Lemma sort_by_sorted l : StronglySorted (fun a b => le a b = true) (sort_by l).
Proof. induction l; simpl; [constructor|by apply insert_by_sorted]. Qed.
End Sort.

(** [sort_unstable] on integers. *)
Definition sort_z (l : list Z) : list Z := sort_by Z.leb l.

(** [Vec::dedup]: drops an element equal to the one kept before it. *)
Fixpoint dedup_from {A} (eqb : A -> A -> bool) (last : A) (l : list A) : list A :=
  match l with
  | [] => []
  | x :: t => if eqb x last then dedup_from eqb last t else x :: dedup_from eqb x t
  end.

Definition dedup {A} (eqb : A -> A -> bool) (l : list A) : list A :=
  match l with [] => [] | x :: t => x :: dedup_from eqb x t end.

Lemma sort_z_sorted l : StronglySorted Z.le (sort_z l).
Proof.
  assert (StronglySorted (fun a b => (a <=? b) = true) (sort_z l)) as H.
  { apply sort_by_sorted; intros *; rewrite ?Z.leb_le; lia. }
  eapply sorted_weaken; [|exact H]. intros x y _ _. apply Z.leb_le.
Qed.

Lemma elem_of_dedup_from last l x :
  x = last \/ x ∈ dedup_from Z.eqb last l <-> x = last \/ x ∈ l.
Proof.
  revert last. induction l as [|y t IH]; intros last; simpl; [done|].
  rewrite elem_of_cons. destruct (Z.eqb_spec y last) as [->|Hne].
  - rewrite IH. tauto.
  - rewrite elem_of_cons, IH. tauto.
Qed.

Lemma elem_of_dedup l x : x ∈ dedup Z.eqb l <-> x ∈ l.
Proof. destruct l as [|y t]; [done|]. simpl. rewrite !elem_of_cons. apply elem_of_dedup_from. Qed.

Lemma dedup_from_sorted last l :
  StronglySorted Z.le (last :: l) -> StronglySorted Z.lt (last :: dedup_from Z.eqb last l).
Proof.
  revert last. induction l as [|y t IH]; intros last Hs; simpl; [repeat constructor|].
  apply StronglySorted_inv in Hs as [Hs Hall]. inversion Hall as [|? ? Hle Hall']; subst.
  destruct (Z.eqb_spec y last) as [->|Hne]; [by apply IH|].
  pose proof (IH y Hs) as Hy. constructor; [done|]. constructor; [lia|].
  apply StronglySorted_inv in Hy as [_ Hy]. eapply Forall_impl; [exact Hy|]. simpl. lia.
Qed.

Lemma dedup_sorted l : StronglySorted Z.le l -> StronglySorted Z.lt (dedup Z.eqb l).
Proof. destruct l; [constructor|]. apply dedup_from_sorted. Qed.

(** [slice.binary_search(&key)] on integers. *)
Definition binary_search_z (key : Z) (l : list Z) : Result nat nat :=
  binary_search_by (fun x => x ?= key) l.

Lemma searchable_z key l : StronglySorted Z.le l -> searchable (fun x => x ?= key) l.
Proof.
  intros Hs. eapply sorted_weaken; [|exact Hs]. intros a b _ _ Hab.
  destruct (Z.compare_spec a key), (Z.compare_spec b key); simpl; lia.
Qed.

Lemma binary_search_z_ok key l :
  StronglySorted Z.le l -> is_ok (binary_search_z key l) = true <-> key ∈ l.
Proof.
  intros Hs. unfold binary_search_z. rewrite binary_search_is_ok by by apply searchable_z.
  split.
  - intros (x & Hx & E%Z.compare_eq). by subst.
  - intros Hk. exists key. split; [done|apply Z.compare_refl].
Qed.
