(* ===== verification/Order.v ===== *)
(** * The order a plan's targets are asked in

    [src/src/model/order.rs]: a keyed rearrangement of [0..len], computed as a
    four-round Feistel network over the smallest even-width power of two that
    holds [len], cut down to [len] by cycle walking.  The theorems show that the
    walk always ends, that [index_of] inverts [at], and so that a scan asks every
    position once and no position twice. *)

From Stdlib Require Import ZArith Lia.
From stdpp Require Import base numbers list.
From S2P Require Import Prelude.

Local Open Scope Z_scope.

(** ** Definitions *)

Definition ROUNDS : Z := 4.

Definition GOLDEN : Z := 0x9E3779B97F4A7C15.

Record Permutation := mkPermutation {
  perm_seed : Z;
  perm_len : Z;
  perm_half : Z;
}.

(** [u64::leading_zeros]. *)
Definition leading_zeros64 (x : Z) : Z := if x =? 0 then 64 else 63 - Z.log2 x.

Definition half_width (len : Z) : Z :=
  if len <=? 1 then 0
  else
    let width := 64 - leading_zeros64 (len - 1) in
    (width + Z.land width 1) / 2.

Definition mix (seed round value : Z) : Z :=
  let mixed := (value +[64] seed) +[64] (round *[64] GOLDEN) in
  let mixed := Z.lxor mixed (Z.shiftr mixed 30) in
  let mixed := mixed *[64] 0xBF58476D1CE4E5B9 in
  let mixed := Z.lxor mixed (Z.shiftr mixed 27) in
  let mixed := mixed *[64] 0x94D049BB133111EB in
  Z.lxor mixed (Z.shiftr mixed 31).

Definition perm_new (seed len : Z) : Permutation :=
  mkPermutation seed len (half_width len).

(** The body of the forward loop: [(l, r) -> (r, l ^ f(r))]. *)
Definition round_forth (seed mask : Z) (halves : Z * Z) (round : Z) : Z * Z :=
  let '(l, r) := halves in
  let mixed := Z.lxor l (Z.land (mix seed round r) mask) in
  (r, mixed).

(** The body of the backward loop: [(l, r) -> (r ^ f(l), l)]. *)
Definition round_back (seed mask : Z) (halves : Z * Z) (round : Z) : Z * Z :=
  let '(l, r) := halves in
  let earlier_right := l in
  (Z.lxor r (Z.land (mix seed round earlier_right) mask), earlier_right).

Definition mask_of (p : Permutation) : Z := (1 <<[64] perm_half p) -[64] 1.

Definition round_trip (p : Permutation) (value : Z) : Z :=
  let mask := mask_of p in
  let l := Z.land (Z.shiftr value (perm_half p)) mask in
  let r := Z.land value mask in
  let '(l, r) :=
    fold_left (round_forth (perm_seed p) mask) (seqZ 0 ROUNDS) (l, r) in
  Z.lor (l <<[64] perm_half p) r.

Definition round_trip_back (p : Permutation) (value : Z) : Z :=
  let mask := mask_of p in
  let l := Z.land (Z.shiftr value (perm_half p)) mask in
  let r := Z.land value mask in
  let '(l, r) :=
    fold_left (round_back (perm_seed p) mask) (rev (seqZ 0 ROUNDS)) (l, r) in
  Z.lor (l <<[64] perm_half p) r.

(** One turn of the cycle-walking loop over [net], kept while outside [0..len]. *)
Definition walk_step (net : Z -> Z) (len : Z) (position : Z) : Z + Z :=
  let position := net position in
  if position <? len then inr position else inl position.

(** The loop is bounded by the size of the network's domain; [walk_spec] below
    shows the bound is never met. *)
Definition domain (p : Permutation) : Z := 2 ^ (2 * perm_half p).

Definition walk (p : Permutation) (index : Z) : Z :=
  if perm_half p =? 0 then index
  else loop (Z.to_pos (domain p)) id (walk_step (round_trip p) (perm_len p)) index.

Definition unwalk (p : Permutation) (position : Z) : Z :=
  if perm_half p =? 0 then position
  else loop (Z.to_pos (domain p)) id (walk_step (round_trip_back p) (perm_len p)) position.

(** [Permutation::at]. *)
Definition at_ (p : Permutation) (index : Z) : option Z :=
  then_some (index <? perm_len p) (walk p index).

Definition index_of (p : Permutation) (position : Z) : option Z :=
  then_some (position <? perm_len p) (unwalk p position).

Definition perm_iter_from (p : Permutation) (start : Z) : list Z :=
  let from := Z.min start (perm_len p) in
  walk p <$> seqZ from (perm_len p - from).

(** [Permutation::iter]. *)
Definition perm_iter (p : Permutation) : list Z := perm_iter_from p 0.

(** A value some caller built: through [new], from two [u64]s. *)
Definition perm_wf (p : Permutation) : Prop :=
  fits 64 (perm_seed p) /\ fits 64 (perm_len p) /\ perm_half p = half_width (perm_len p).

(** ** Cycle walking, for any bijection of a finite domain *)

Section CycleWalk.
Context (f g : Z -> Z) (N : Z) (len : Z).
Hypothesis f_dom : forall x, 0 <= x < N -> 0 <= f x < N.
Hypothesis g_dom : forall x, 0 <= x < N -> 0 <= g x < N.
Hypothesis gf : forall x, 0 <= x < N -> g (f x) = x.

Lemma iter_dom k x : 0 <= x < N -> 0 <= Nat.iter k f x < N.
Proof. intros Hx. induction k as [|k IH]; simpl; auto. Qed.

Lemma iter_back j k x :
  (j <= k)%nat -> 0 <= x < N ->
  Nat.iter j g (Nat.iter k f x) = Nat.iter (k - j) f x.
Proof.
  revert k. induction j as [|j IH]; intros k Hjk Hx.
  - by rewrite Nat.sub_0_r.
  - rewrite Nat.iter_succ, IH by lia.
    replace (k - j)%nat with (S (k - S j)) by lia.
    simpl. by apply gf, iter_dom.
Qed.

Lemma iter_inj i j x :
  (i <= j)%nat -> 0 <= x < N -> Nat.iter i f x = Nat.iter j f x ->
  Nat.iter (j - i) f x = x.
Proof.
  intros Hij Hx E. rewrite <- iter_back, <- E, iter_back by done.
  by rewrite Nat.sub_diag.
Qed.

(** The cycle through [x] closes within [N] steps. *)
Lemma cycle_closes x :
  0 <= x < N -> exists k, (1 <= k)%nat /\ Z.of_nat k <= N /\ Nat.iter k f x = x.
Proof.
  intros Hx.
  destruct (decide (Exists (fun k => Nat.iter k f x = x) (seq 1 (Z.to_nat N)))) as [H|H].
  { apply Exists_exists in H as (k & Hk & E). apply elem_of_seq in Hk.
    exists k. repeat split; [lia|lia|done]. }
  exfalso.
  assert (NoDup ((fun k => Nat.iter k f x) <$> seq 0 (S (Z.to_nat N)))) as Hnd.
  { apply NoDup_fmap_2_strong; [|apply NoDup_seq].
    assert (forall i j, (i < j < S (Z.to_nat N))%nat -> Nat.iter i f x <> Nat.iter j f x) as Hne.
    { intros i j Hij E. apply H, Exists_exists. exists (j - i)%nat.
      split; [apply elem_of_seq; lia|]. apply iter_inj; [lia|done|done]. }
    intros i j Hi%elem_of_seq Hj%elem_of_seq E.
    destruct (Nat.lt_trichotomy i j) as [?|[?|?]]; [|done|].
    - exfalso. by apply (Hne i j); [lia|].
    - exfalso. by apply (Hne j i); [lia|]. }
  assert (((fun k => Nat.iter k f x) <$> seq 0 (S (Z.to_nat N))) ⊆+ seqZ 0 N) as Hsub.
  { apply NoDup_submseteq; [done|].
    intros y (k & -> & _)%list_elem_of_fmap. apply elem_of_seqZ.
    pose proof (iter_dom k x Hx). lia. }
  apply submseteq_length in Hsub.
  rewrite length_fmap, length_seq, length_seqZ in Hsub. lia.
Qed.

(** Where the loop stops: at the first value inside [0..len]. *)
Lemma run_first k n x :
  (1 <= k <= n)%nat -> Nat.iter k f x < len ->
  (forall j, (1 <= j < k)%nat -> len <= Nat.iter j f x) ->
  run_nat n (walk_step f len) x = inr (Nat.iter k f x).
Proof.
  revert n x. induction k as [|k IH]; intros n x Hk Hin Hout; [lia|].
  destruct n as [|n]; [lia|]. cbn [run_nat]. unfold walk_step at 1.
  destruct (Z.ltb_spec (f x) len) as [Hlt|Hge].
  - destruct k as [|k]; [done|]. specialize (Hout 1%nat ltac:(lia)). simpl in Hout. lia.
  - destruct k as [|k]; [simpl in Hin; lia|].
    rewrite IH; [by rewrite <- Nat.iter_succ_r|lia| |].
    + by rewrite <- Nat.iter_succ_r.
    + intros j Hj. rewrite <- Nat.iter_succ_r. apply Hout. lia.
Qed.

Lemma first_exists n x :
  (1 <= n)%nat -> Nat.iter n f x < len ->
  exists k, (1 <= k <= n)%nat /\ Nat.iter k f x < len /\
            forall j, (1 <= j < k)%nat -> len <= Nat.iter j f x.
Proof.
  induction n as [n IH] using lt_wf_ind. intros Hn Hin.
  destruct (decide (Exists (fun k => Nat.iter k f x < len) (seq 1 (n - 1)))) as [H|H].
  - apply Exists_exists in H as (m & Hm%elem_of_seq & Hlt).
    destruct (IH m) as (k & ? & ? & ?); [lia|lia|done|]. exists k. split; [lia|done].
  - exists n. split; [lia|]. split; [done|]. intros j Hj.
    destruct (Z.lt_ge_cases (Nat.iter j f x) len); [|lia].
    exfalso. apply H, Exists_exists. exists j. split; [apply elem_of_seq; lia|done].
Qed.

Lemma walk_hits x :
  0 < N -> 0 <= x < N -> x < len ->
  exists k, (1 <= k)%nat /\ Z.of_nat k <= N /\ Nat.iter k f x < len /\
    (forall j, (1 <= j < k)%nat -> len <= Nat.iter j f x) /\
    loop (Z.to_pos N) id (walk_step f len) x = Nat.iter k f x.
Proof.
  intros HN Hx Hin. destruct (cycle_closes x Hx) as (c & Hc & HcN & E).
  destruct (first_exists c x) as (k & Hk & Hkin & Hkout); [lia|by rewrite E|].
  exists k. do 4 (split; [try done; lia|]). unfold loop.
  by rewrite run_run_nat, (run_first k) by (try done; lia).
Qed.

Lemma walk_unwalk x :
  0 < N -> 0 <= x < N -> 0 <= x < len ->
  loop (Z.to_pos N) id (walk_step g len) (loop (Z.to_pos N) id (walk_step f len) x) = x.
Proof.
  intros HN Hx Hin.
  destruct (walk_hits x) as (k & Hk & HkN & Hkin & Hkout & ->); [done..|lia|].
  assert (forall m y z, (1 <= m <= Pos.to_nat (Z.to_pos N))%nat ->
    (forall j, (j <= m)%nat -> Nat.iter j g y = Nat.iter (m - j) f z) ->
    z < len -> (forall j, (1 <= j < m)%nat -> len <= Nat.iter j f z) ->
    run_nat (Pos.to_nat (Z.to_pos N)) (walk_step g len) y = inr z) as Hrun.
  { intros m y z. generalize (Pos.to_nat (Z.to_pos N)). revert y z.
    induction m as [|m IH]; intros y z n Hm Hg Hz Hout; [lia|].
    destruct n as [|n]; [lia|]. cbn [run_nat]. unfold walk_step at 1.
    pose proof (Hg 1%nat ltac:(lia)) as H1. simpl in H1. rewrite Nat.sub_0_r in H1.
    rewrite H1. destruct m as [|m].
    - simpl. destruct (Z.ltb_spec z len); [done|lia].
    - destruct (Z.ltb_spec (Nat.iter (S m) f z) len) as [Hlt|Hge].
      { specialize (Hout (S m) ltac:(lia)). lia. }
      apply IH; [lia| |done|intros j Hj; apply Hout; lia].
      intros j Hj. specialize (Hg (S j) ltac:(lia)).
      rewrite Nat.iter_succ_r, H1 in Hg. exact Hg. }
  unfold loop. rewrite run_run_nat, (Hrun k _ x); [done|lia| |lia|done].
  intros j Hj. by apply iter_back.
Qed.
End CycleWalk.

(** ** The network *)

Lemma half_width_bounds len : fits 64 len -> 0 <= half_width len <= 32.
Proof.
  intros Hl. unfold half_width, leading_zeros64.
  destruct (Z.leb_spec len 1); [lia|].
  destruct (Z.eqb_spec (len - 1) 0); [lia|].
  assert (0 <= Z.log2 (len - 1) < 64).
  { split; [apply Z.log2_nonneg|]. apply Z.log2_lt_pow2; mlia. }
  rewrite land_1. replace (64 - (63 - Z.log2 (len - 1))) with (Z.log2 (len - 1) + 1) by lia.
  set (k := Z.log2 (len - 1)) in *.
  Z.to_euclidean_division_equations. lia.
Qed.

(** The domain holds every position. *)
Lemma half_width_holds len : 1 < len -> len <= 2 ^ (2 * half_width len).
Proof.
  intros Hl. unfold half_width, leading_zeros64.
  destruct (Z.leb_spec len 1); [lia|].
  destruct (Z.eqb_spec (len - 1) 0); [lia|].
  pose proof (Z.log2_spec (len - 1) ltac:(lia)) as [_ Hs].
  pose proof (Z.log2_nonneg (len - 1)).
  replace (64 - (63 - Z.log2 (len - 1))) with (Z.log2 (len - 1) + 1) by lia.
  set (k := Z.log2 (len - 1)) in *.
  assert (Z.succ k <= 2 * ((k + 1 + Z.land (k + 1) 1) / 2)) as Hk.
  { rewrite land_1. Z.to_euclidean_division_equations. lia. }
  pose proof (Z.pow_le_mono_r 2 _ _ ltac:(lia) Hk). lia.
Qed.

Lemma mix_fits seed round value : fits 64 (mix seed round value).
Proof. unfold mix. auto 10 with word. Qed.

Section Network.
Context (p : Permutation) (Hhalf : 0 <= perm_half p <= 32).
Let h := perm_half p.

Lemma mask_is_ones : mask_of p = Z.ones h.
Proof.
  unfold mask_of, h. rewrite Z.shiftl_1_l, Z.ones_equiv.
  pose proof (Z.pow_le_mono_r 2 (perm_half p) 32 ltac:(lia) ltac:(lia)).
  pose proof (Z.pow_pos_nonneg 2 (perm_half p) ltac:(lia) ltac:(lia)).
  wsimp. lia.
Qed.

Definition halves_ok (lr : Z * Z) : Prop := fits h lr.1 /\ fits h lr.2.

Definition halves_of (v : Z) : Z * Z :=
  (Z.land (Z.shiftr v h) (mask_of p), Z.land v (mask_of p)).

Definition halves_join (lr : Z * Z) : Z := Z.lor (lr.1 <<[64] h) lr.2.

Lemma halves_join_arith l r : fits h l -> fits h r -> halves_join (l, r) = l * 2 ^ h + r.
Proof.
  intros Hl Hr. unfold halves_join. cbn [fst snd].
  pose proof (Z.pow_le_mono_r 2 h 32 ltac:(lia) ltac:(lia)).
  pose proof (Z.pow_pos_nonneg 2 h ltac:(lia) ltac:(lia)).
  rewrite Z.shiftl_mul_pow2 by lia.
  unfold fits, umax in Hl, Hr. rewrite wrap_small by nia.
  rewrite <- Z.add_nocarry_lor; [done|].
  apply Z.bits_inj'. intros i Hi. rewrite Z.land_spec, Z.bits_0.
  destruct (Z.lt_ge_cases i h).
  - by rewrite Z.mul_pow2_bits_low.
  - rewrite (proj2 (proj1 (fits_testbit h r ltac:(lia)) ltac:(unfold fits, umax; lia)) i) by lia.
    apply andb_false_r.
Qed.

Lemma halves_of_ok v : 0 <= v < domain p -> halves_ok (halves_of v) /\ halves_join (halves_of v) = v.
Proof.
  intros Hv. unfold domain in Hv. fold h in Hv.
  assert (0 < 2 ^ h) by (apply Z.pow_pos_nonneg; lia).
  replace (2 ^ (2 * h)) with (2 ^ h * 2 ^ h) in Hv
    by (rewrite <- Z.pow_add_r by lia; f_equal; lia).
  assert (halves_ok (halves_of v)) as Hok.
  { unfold halves_ok, halves_of. rewrite mask_is_ones.
    split; apply land_ones_fits; lia. }
  split; [done|]. destruct Hok as [H1 H2]. unfold halves_of in *.
  rewrite halves_join_arith by done. rewrite mask_is_ones, !Z.land_ones by lia.
  rewrite Z.shiftr_div_pow2 by lia.
  assert (v / 2 ^ h < 2 ^ h) by (apply Z.div_lt_upper_bound; lia).
  rewrite (Z.mod_small (v / 2 ^ h)) by (split; [apply Z.div_pos|]; lia).
  pose proof (Z.div_mod v (2 ^ h)). lia.
Qed.

Lemma halves_join_ok lr : halves_ok lr -> 0 <= halves_join lr < domain p /\ halves_of (halves_join lr) = lr.
Proof.
  destruct lr as [l r]. intros [Hl Hr]. cbn [fst snd] in *.
  assert (0 < 2 ^ h) by (apply Z.pow_pos_nonneg; lia).
  rewrite halves_join_arith by done. unfold fits, umax in *. split.
  - unfold domain. fold h.
    replace (2 ^ (2 * h)) with (2 ^ h * 2 ^ h)
      by (rewrite <- Z.pow_add_r by lia; f_equal; lia). nia.
  - unfold halves_of. rewrite mask_is_ones, !Z.land_ones, Z.shiftr_div_pow2 by lia.
    rewrite Z.div_add_l, (Z.div_small r), Z.add_0_r, (Z.mod_small l) by lia.
    rewrite Z.add_comm, Z.mod_add, (Z.mod_small r) by lia. done.
Qed.

Lemma masked_fits k x : fits h (Z.land (mix (perm_seed p) k x) (mask_of p)).
Proof. rewrite mask_is_ones. apply land_ones_fits. lia. Qed.

Lemma round_forth_ok lr k :
  halves_ok lr -> halves_ok (round_forth (perm_seed p) (mask_of p) lr k).
Proof.
  destruct lr as [l r]. intros [Hl Hr]. split; [done|]. cbn [fst snd round_forth].
  apply lxor_fits; [lia|done|apply masked_fits].
Qed.

Lemma round_back_ok lr k :
  halves_ok lr -> halves_ok (round_back (perm_seed p) (mask_of p) lr k).
Proof.
  destruct lr as [l r]. intros [Hl Hr]. split; [|done]. cbn [fst snd round_back].
  apply lxor_fits; [lia|done|apply masked_fits].
Qed.

Lemma round_back_forth lr k seed mask :
  round_back seed mask (round_forth seed mask lr k) k = lr.
Proof.
  destruct lr as [l r]. cbn. f_equal.
  by rewrite Z.lxor_assoc, Z.lxor_nilpotent, Z.lxor_0_r.
Qed.

Lemma round_forth_back lr k seed mask :
  round_forth seed mask (round_back seed mask lr k) k = lr.
Proof.
  destruct lr as [l r]. cbn. f_equal.
  by rewrite Z.lxor_assoc, Z.lxor_nilpotent, Z.lxor_0_r.
Qed.

Lemma fold_forth_ok ks lr :
  halves_ok lr -> halves_ok (fold_left (round_forth (perm_seed p) (mask_of p)) ks lr).
Proof. revert lr. induction ks; simpl; auto using round_forth_ok. Qed.

Lemma fold_back_ok ks lr :
  halves_ok lr -> halves_ok (fold_left (round_back (perm_seed p) (mask_of p)) ks lr).
Proof. revert lr. induction ks; simpl; auto using round_back_ok. Qed.

Lemma fold_back_forth seed mask ks lr :
  fold_left (round_back seed mask) (rev ks) (fold_left (round_forth seed mask) ks lr) = lr.
Proof.
  revert lr. induction ks as [|k ks IH]; intros lr; [done|].
  simpl. by rewrite fold_left_app, IH; simpl; rewrite round_back_forth.
Qed.

Lemma fold_forth_back seed mask ks lr :
  fold_left (round_forth seed mask) ks (fold_left (round_back seed mask) (rev ks) lr) = lr.
Proof.
  revert lr. induction ks as [|k ks IH]; intros lr; [done|].
  simpl. rewrite fold_left_app. simpl. by rewrite round_forth_back, IH.
Qed.

Lemma round_trip_halves v :
  round_trip p v =
  halves_join (fold_left (round_forth (perm_seed p) (mask_of p)) (seqZ 0 ROUNDS) (halves_of v)).
Proof. unfold round_trip, halves_of, halves_join. by destruct (fold_left _ _ _). Qed.

Lemma round_trip_back_halves v :
  round_trip_back p v =
  halves_join (fold_left (round_back (perm_seed p) (mask_of p)) (rev (seqZ 0 ROUNDS)) (halves_of v)).
Proof. unfold round_trip_back, halves_of, halves_join. by destruct (fold_left _ _ _). Qed.

Lemma round_trip_dom v : 0 <= v < domain p -> 0 <= round_trip p v < domain p.
Proof.
  intros Hv. rewrite round_trip_halves. apply halves_join_ok, fold_forth_ok, halves_of_ok, Hv.
Qed.

Lemma round_trip_back_dom v : 0 <= v < domain p -> 0 <= round_trip_back p v < domain p.
Proof.
  intros Hv. rewrite round_trip_back_halves. apply halves_join_ok, fold_back_ok, halves_of_ok, Hv.
Qed.

Lemma round_trip_back_forth v :
  0 <= v < domain p -> round_trip_back p (round_trip p v) = v.
Proof.
  intros Hv. rewrite round_trip_back_halves, round_trip_halves.
  destruct (halves_of_ok v Hv) as [Hok E].
  rewrite (proj2 (halves_join_ok _ (fold_forth_ok _ _ Hok))), fold_back_forth. done.
Qed.

Lemma round_trip_forth_back v :
  0 <= v < domain p -> round_trip p (round_trip_back p v) = v.
Proof.
  intros Hv. rewrite round_trip_halves, round_trip_back_halves.
  destruct (halves_of_ok v Hv) as [Hok E].
  rewrite (proj2 (halves_join_ok _ (fold_back_ok _ _ Hok))), fold_forth_back. done.
Qed.
End Network.

(** ** The rearrangement *)

Lemma new_wf seed len : fits 64 seed -> fits 64 len -> perm_wf (perm_new seed len).
Proof. by unfold perm_wf. Qed.

Section Rearrangement.
Context (p : Permutation) (Hwf : perm_wf p).

Lemma wf_half : 0 <= perm_half p <= 32.
Proof. destruct Hwf as (_ & Hl & ->). by apply half_width_bounds. Qed.

Lemma wf_domain : perm_half p <> 0 -> 1 < perm_len p <= domain p.
Proof.
  destruct Hwf as (_ & Hl & E). unfold domain. rewrite E. intros Hne.
  assert (1 < perm_len p) as Hlt.
  { destruct (Z.leb_spec (perm_len p) 1) as [Hle|]; [|done].
    contradict Hne. unfold half_width. by rewrite (proj2 (Z.leb_le _ _) Hle). }
  split; [done|]. by apply half_width_holds.
Qed.

Lemma walk_range i : 0 <= i < perm_len p -> 0 <= walk p i < perm_len p.
Proof.
  intros Hi. unfold walk. destruct (Z.eqb_spec (perm_half p) 0) as [|Hne]; [done|].
  pose proof (wf_domain Hne) as Hd.
  destruct (walk_hits (round_trip p) (round_trip_back p) (domain p) (perm_len p)
    (round_trip_dom p wf_half) (round_trip_back_forth p wf_half) i)
    as (k & _ & _ & Hin & _ & ->); [lia..|].
  split; [|done]. apply (iter_dom (round_trip p) (domain p)); [apply round_trip_dom, wf_half|lia].
Qed.

Lemma unwalk_range i : 0 <= i < perm_len p -> 0 <= unwalk p i < perm_len p.
Proof.
  intros Hi. unfold unwalk. destruct (Z.eqb_spec (perm_half p) 0) as [|Hne]; [done|].
  pose proof (wf_domain Hne) as Hd.
  destruct (walk_hits (round_trip_back p) (round_trip p) (domain p) (perm_len p)
    (round_trip_back_dom p wf_half) (round_trip_forth_back p wf_half) i)
    as (k & _ & _ & Hin & _ & ->); [lia..|].
  split; [|done]. apply (iter_dom (round_trip_back p) (domain p)); [apply round_trip_back_dom, wf_half|lia].
Qed.

Lemma unwalk_walk i : 0 <= i < perm_len p -> unwalk p (walk p i) = i.
Proof.
  intros Hi. unfold walk, unwalk. destruct (Z.eqb_spec (perm_half p) 0) as [|Hne]; [done|].
  pose proof (wf_domain Hne) as Hd.
  apply walk_unwalk; [apply round_trip_dom, wf_half| |lia..].
  apply round_trip_back_forth, wf_half.
Qed.

Lemma walk_unwalk_pos q : 0 <= q < perm_len p -> walk p (unwalk p q) = q.
Proof.
  intros Hi. unfold walk, unwalk. destruct (Z.eqb_spec (perm_half p) 0) as [|Hne]; [done|].
  pose proof (wf_domain Hne) as Hd.
  apply walk_unwalk; [apply round_trip_back_dom, wf_half| |lia..].
  apply round_trip_forth_back, wf_half.
Qed.

Lemma at_Some i q :
  0 <= i -> at_ p i = Some q -> i < perm_len p /\ q = walk p i /\ 0 <= q < perm_len p.
Proof.
  intros Hi. unfold at_, then_some. destruct (Z.ltb_spec i (perm_len p)); [|done].
  intros [= <-]. split; [done|]. split; [done|]. apply walk_range. lia.
Qed.

Lemma index_of_Some q i :
  0 <= q -> index_of p q = Some i -> q < perm_len p /\ i = unwalk p q /\ 0 <= i < perm_len p.
Proof.
  intros Hi. unfold index_of, then_some. destruct (Z.ltb_spec q (perm_len p)); [|done].
  intros [= <-]. split; [done|]. split; [done|]. apply unwalk_range. lia.
Qed.

(** [index_of] and [at_] name the same pairs. *)
Lemma index_of_at i q :
  0 <= i -> 0 <= q -> index_of p q = Some i <-> at_ p i = Some q.
Proof.
  intros Hi Hq. split.
  - intros H. destruct (index_of_Some q i Hq H) as (Hlt & -> & Hr).
    unfold at_, then_some. rewrite (proj2 (Z.ltb_lt _ _) (proj2 Hr)).
    by rewrite walk_unwalk_pos.
  - intros H. destruct (at_Some i q Hi H) as (Hlt & -> & Hr).
    unfold index_of, then_some. rewrite (proj2 (Z.ltb_lt _ _) (proj2 Hr)).
    by rewrite unwalk_walk.
Qed.

Lemma iter_from_drop start :
  0 <= start -> perm_iter_from p start = drop (Z.to_nat start) (perm_iter p).
Proof.
  intros Hs. unfold perm_iter, perm_iter_from.
  pose proof (proj1 (proj1 (proj2 Hwf))).
  rewrite (Z.min_l 0 (perm_len p)) by lia.
  rewrite Z.sub_0_r, <- fmap_drop. f_equal.
  destruct (Z.le_gt_cases start (perm_len p)).
  - rewrite Z.min_l by lia.
    replace (perm_len p) with (start + (perm_len p - start)) at 2 by lia.
    rewrite seqZ_app by lia. rewrite drop_app_length' by (rewrite length_seqZ; lia).
    done.
  - rewrite Z.min_r by lia. rewrite seqZ_nil by lia.
    symmetry. apply drop_ge. rewrite length_seqZ. lia.
Qed.

Lemma elem_of_iter_from start q :
  0 <= start ->
  q ∈ perm_iter_from p start <-> exists i, start <= i /\ at_ p i = Some q.
Proof.
  intros Hs. unfold perm_iter_from. rewrite list_elem_of_fmap.
  setoid_rewrite elem_of_seqZ. split.
  - intros (i & -> & Hi). exists i. split; [lia|].
    unfold at_, then_some. by rewrite (proj2 (Z.ltb_lt i (perm_len p))) by lia.
  - intros (i & Hi & Hat). apply at_Some in Hat as (Hlt & -> & _); [|lia].
    exists i. split; [done|lia].
Qed.

Lemma NoDup_iter : NoDup (perm_iter p).
Proof.
  unfold perm_iter, perm_iter_from. apply NoDup_fmap_2_strong; [|apply NoDup_seqZ].
  pose proof (proj1 (proj1 (proj2 Hwf))).
  intros x y Hx%elem_of_seqZ Hy%elem_of_seqZ E.
  rewrite <- (unwalk_walk x), <- (unwalk_walk y) by lia. by f_equal.
Qed.

Lemma length_iter : length (perm_iter p) = Z.to_nat (perm_len p).
Proof.
  unfold perm_iter, perm_iter_from. rewrite length_fmap, length_seqZ.
  pose proof (proj1 (proj1 (proj2 Hwf))). lia.
Qed.
End Rearrangement.

(** ** Properties *)

(** C23: for every seed and every length a [u64] holds, the walk of the plan is a
    rearrangement of [0..len]: every position is asked about, none twice. *)
Theorem iter_is_a_permutation seed len :
  fits 64 seed -> fits 64 len -> perm_iter (perm_new seed len) ≡ₚ seqZ 0 len.
Proof.
  intros Hs Hl. pose proof (new_wf seed len Hs Hl) as Hwf.
  apply submseteq_length_Permutation.
  - apply NoDup_submseteq; [by apply NoDup_iter|].
    intros q (i & Hi & Hat)%elem_of_iter_from; [|done|lia].
    apply at_Some in Hat as (_ & _ & Hq); [|done|lia]. apply elem_of_seqZ. simpl in *. lia.
  - rewrite length_iter, length_seqZ by done. done.
Qed.

Lemma iter_is_a_permutation_witness : perm_iter (perm_new 0x5EED 10) ≡ₚ seqZ 0 10.
Proof. apply iter_is_a_permutation; apply fitsb_spec; vm_compute; reflexivity. Defined.

(** [at] answers exactly inside the range, [index_of] inverts it in both
    directions, and past the end both answer [None].  In particular both cycle
    walks stop within their domain's size. *)
Theorem at_index_of_inverse seed len i :
  fits 64 seed -> fits 64 len -> fits 64 i ->
  if i <? len
  then exists q j, at_ (perm_new seed len) i = Some q /\ 0 <= q < len /\
         index_of (perm_new seed len) q = Some i /\
         index_of (perm_new seed len) i = Some j /\ 0 <= j < len /\
         at_ (perm_new seed len) j = Some i
  else at_ (perm_new seed len) i = None /\ index_of (perm_new seed len) i = None.
Proof.
  intros Hs Hl Hi. pose proof (new_wf seed len Hs Hl) as Hwf.
  set (p := perm_new seed len) in *. assert (perm_len p = len) as Elen by done.
  destruct (Z.ltb_spec i len) as [Hlt|Hge].
  - exists (walk p i), (unwalk p i).
    pose proof (walk_range p Hwf i ltac:(mlia)). pose proof (unwalk_range p Hwf i ltac:(mlia)).
    unfold at_, index_of, then_some. rewrite Elen in *.
    rewrite !(proj2 (Z.ltb_lt _ _)) by lia.
    rewrite unwalk_walk, walk_unwalk_pos by (try done; mlia). auto 10.
  - unfold at_, index_of, then_some. rewrite Elen.
    by rewrite (proj2 (Z.ltb_ge _ _)) by lia.
Qed.

Lemma at_index_of_inverse_witness :
  (exists q j, at_ (perm_new 0x5EED 1000) 417 = Some q /\ 0 <= q < 1000 /\
     index_of (perm_new 0x5EED 1000) q = Some 417 /\
     index_of (perm_new 0x5EED 1000) 417 = Some j /\ 0 <= j < 1000 /\
     at_ (perm_new 0x5EED 1000) j = Some 417) /\
  at_ (perm_new 0x5EED 1000) 417 = Some (walk (perm_new 0x5EED 1000) 417).
Proof.
  split; [|vm_compute; reflexivity].
  apply (at_index_of_inverse 0x5EED 1000 417); apply fitsb_spec; vm_compute; reflexivity.
Defined.
