(* ===== verification/Text.v ===== *)
(** * Text

    What the parsers and printers use of Rust's strings.  A [&str] is the list
    of its code points; where the source slices by byte, the UTF-8 length of each
    code point is what decides.  Written decimals round-trip through
    [FromStr for uN]. *)

From Stdlib Require Import ZArith Lia Ascii String.
From stdpp Require Import base numbers sets option list.
From S2P Require Import Prelude Std.

Local Open Scope Z_scope.

(** ** Definitions *)

Definition text : Type := list Z.

(** A literal of the source. *)
Definition lit (s : string) : text := (fun c => Z.of_nat (nat_of_ascii c)) <$> list_ascii_of_string s.

(** *** Characters *)

Definition in_range (a b c : Z) : bool := (a <=? c) && (c <=? b).

Definition is_ascii_digit (c : Z) : bool := in_range 48 57 c.

Definition is_ascii_alphabetic (c : Z) : bool := in_range 65 90 c || in_range 97 122 c.

Definition is_ascii_alphanumeric (c : Z) : bool := is_ascii_alphabetic c || is_ascii_digit c.

Definition to_ascii_lowercase (c : Z) : Z := if in_range 65 90 c then c + 32 else c.

(** [char::is_whitespace]: the [White_Space] code points. *)
Definition is_whitespace (c : Z) : bool :=
  in_range 9 13 c || (c =? 32) || (c =? 0x85) || (c =? 0xA0) || (c =? 0x1680) ||
  in_range 0x2000 0x200A c || (c =? 0x2028) || (c =? 0x2029) || (c =? 0x202F) ||
  (c =? 0x205F) || (c =? 0x3000).

(** Bytes of a code point in UTF-8. *)
Definition len_utf8 (c : Z) : nat :=
  if c <? 0x80 then 1 else if c <? 0x800 then 2 else if c <? 0x10000 then 3 else 4.

(** *** Slices *)

(** [s.get(..n)] with the rest: [None] past the end or inside a code point. *)
Fixpoint split_at_byte (n : nat) (s : text) : option (text * text) :=
  match n, s with
  | O, _ => Some ([], s)
  | _, [] => None
  | _, c :: t =>
      if (len_utf8 c <=? n)%nat
      then (fun '(head, rest) => (c :: head, rest)) <$> split_at_byte (n - len_utf8 c) t
      else None
  end.

Definition eq_ignore_ascii_case (a b : text) : bool :=
  bool_decide (to_ascii_lowercase <$> a = to_ascii_lowercase <$> b).

Definition starts_with (pred : Z -> bool) (s : text) : bool :=
  match s with c :: _ => pred c | [] => false end.

Definition ends_with (pred : Z -> bool) (s : text) : bool :=
  match last s with Some c => pred c | None => false end.

(** [str::split]: one more piece than separators. *)
Fixpoint split_by (pred : Z -> bool) (s : text) : list text :=
  match s with
  | [] => [[]]
  | c :: t =>
      if pred c then [] :: split_by pred t
      else match split_by pred t with w :: ws => (c :: w) :: ws | [] => [[c]] end
  end.

Definition split_whitespace (s : text) : list text :=
  filter (fun w => w <> []) (split_by is_whitespace s).

Fixpoint join (sep : text) (words : list text) : text :=
  match words with
  | [] => []
  | [w] => w
  | w :: ws => w ++ sep ++ join sep ws
  end.

(** [str::split_once] on the first character [pred] holds of; a [find] and the
    two slices around it are the same. *)
Fixpoint split_once (pred : Z -> bool) (s : text) : option (text * text) :=
  match s with
  | [] => None
  | c :: t => if pred c then Some ([], t) else (fun '(a, b) => (c :: a, b)) <$> split_once pred t
  end.

(** [rsplit_once]. *)
Fixpoint split_last (c : Z) (s : text) : option (text * text) :=
  match s with
  | [] => None
  | x :: t =>
      match split_last c t with
      | Some (a, b) => Some (x :: a, b)
      | None => if x =? c then Some ([], t) else None
      end
  end.

Definition strip_suffix (c : Z) (s : text) : option text :=
  if ends_with (Z.eqb c) s then Some (removelast s) else None.

(** [str::len]. *)
Definition byte_len (s : text) : nat := foldr (fun c n => (len_utf8 c + n)%nat) 0%nat s.

(** [str::trim]. *)
Fixpoint trim_start (s : text) : text :=
  match s with c :: t => if is_whitespace c then trim_start t else s | [] => [] end.

Definition trim (s : text) : text := rev (trim_start (rev (trim_start s))).

(** *** Numbers *)

Inductive IntErrorKind := IntEmpty | IntInvalidDigit | IntPosOverflow.

#[export] Instance IntErrorKind_eq_dec : EqDecision IntErrorKind.
Proof. solve_decision. Defined.

(** The checked loop of [from_str_radix(_, 10)] on an unsigned type.  Inputs too
    short to overflow take an unchecked loop there, with the same result. *)
Fixpoint parse_digits (w acc : Z) (s : text) : Result Z IntErrorKind :=
  match s with
  | [] => Ok acc
  | c :: t =>
      if is_ascii_digit c then
        match checked_mul w acc 10 with
        | None => Err IntPosOverflow
        | Some mul =>
            match checked_add w mul (c - 48) with
            | None => Err IntPosOverflow
            | Some next => parse_digits w next t
            end
        end
      else Err IntInvalidDigit
  end.

(** [s.parse::<uW>()]: a leading [+] is allowed, alone it is not a number. *)
Definition parse_uint (w : Z) (s : text) : Result Z IntErrorKind :=
  match s with
  | [] => Err IntEmpty
  | c :: t =>
      if c =? 43 then (match t with [] => Err IntInvalidDigit | _ => parse_digits w 0 t end)
      else parse_digits w 0 s
  end.

(** [Display] of an unsigned integer. *)
Fixpoint push_digits (fuel : nat) (n : Z) (tail : text) : text :=
  match fuel with
  | O => tail
  | S fuel =>
      if n <? 10 then (48 + n) :: tail
      else push_digits fuel (n / 10) ((48 + n mod 10) :: tail)
  end.

(** The longest integer, a [u128], has 39 digits. *)
Definition show_uint (n : Z) : text := push_digits 39 n [].

(** ** Splitting what was joined *)

Lemma split_by_none pred s : Forall (fun c => pred c = false) s -> split_by pred s = [s].
Proof. induction 1 as [|c s Hc _ IH]; simpl; [done|]. by rewrite Hc, IH. Qed.

Lemma split_by_sep pred w sep rest :
  pred sep = true -> Forall (fun c => pred c = false) w ->
  split_by pred (w ++ sep :: rest) = w :: split_by pred rest.
Proof.
  intros Hsep. induction 1 as [|c w Hc _ IH]; cbn [app split_by]; [by rewrite Hsep|].
  by rewrite Hc, IH.
Qed.

Lemma split_by_join pred sep words :
  pred sep = true -> words <> [] -> Forall (Forall (fun c => pred c = false)) words ->
  split_by pred (join [sep] words) = words.
Proof.
  intros Hsep Hne Hall. induction Hall as [|w ws Hw Hws IH]; [done|].
  destruct ws as [|v ws]; [by apply split_by_none|].
  change (join [sep] (w :: v :: ws)) with (w ++ sep :: join [sep] (v :: ws)).
  by rewrite split_by_sep, IH.
Qed.

Lemma split_once_at pred a c b : Forall (fun x => pred x = false) a -> pred c = true -> split_once pred (a ++ c :: b) = Some (a, b).
Proof. intros Ha Hc. induction Ha as [|x a Hx _ IH]; cbn; [by rewrite Hc|]. by rewrite Hx, IH. Qed.

(** Text with nothing to trim. *)
Lemma trim_id s : starts_with is_whitespace s = false -> ends_with is_whitespace s = false -> trim s = s.
Proof.
  intros Hs He. unfold trim. assert (trim_start s = s) as ->.
  { destruct s; [done|]. cbn in *. by rewrite Hs. }
  assert (trim_start (rev s) = rev s) as ->; [|apply rev_involutive].
  destruct s as [|c s' _] using rev_ind; [done|]. rewrite rev_unit. cbn.
  unfold ends_with in He. rewrite last_snoc in He. by rewrite He.
Qed.

Lemma trim_start_suffix s : exists p, s = p ++ trim_start s.
Proof.
  induction s as [|c s [p IH]]; [by exists []|]. cbn. destruct (is_whitespace c); [|by exists []].
  exists (c :: p). by rewrite IH at 1.
Qed.

Lemma trim_start_clean s : starts_with is_whitespace (trim_start s) = false.
Proof. induction s as [|c s IH]; [done|]. cbn. destruct (is_whitespace c) eqn:E; [done|]. cbn. by rewrite E. Qed.

Lemma ends_with_rev pred s : ends_with pred (rev s) = starts_with pred s.
Proof. unfold ends_with. destruct s as [|c s]; [done|]. cbn [rev]. by rewrite last_snoc. Qed.

Lemma trim_clean s : starts_with is_whitespace (trim s) = false /\ ends_with is_whitespace (trim s) = false.
Proof.
  unfold trim. split; [|rewrite ends_with_rev; apply trim_start_clean].
  pose proof (trim_start_clean s) as Hc. destruct (trim_start_suffix (rev (trim_start s))) as [p Hp].
  apply (f_equal (@rev Z)) in Hp. rewrite rev_involutive, rev_app_distr in Hp. rewrite Hp in Hc.
  by destruct (rev (trim_start (rev (trim_start s)))).
Qed.

Lemma trim_trim s : trim (trim s) = trim s.
Proof. apply trim_id; apply trim_clean. Qed.

(** ** Numbers round-trip *)

Definition is_digit_text (s : text) : Prop := Forall (fun c => is_ascii_digit c = true) s.

Fixpoint digits_value (acc : Z) (s : text) : Z :=
  match s with [] => acc | c :: t => digits_value (acc * 10 + (c - 48)) t end.

Lemma is_ascii_digit_spec c : is_ascii_digit c = true <-> 48 <= c <= 57.
Proof. unfold is_ascii_digit, in_range. lia. Qed.

Lemma digits_value_ge acc s : 0 <= acc -> is_digit_text s -> acc <= digits_value acc s.
Proof.
  intros Ha Hs. revert acc Ha. induction Hs as [|c s Hc _ IH]; intros acc Ha; simpl; [lia|].
  apply is_ascii_digit_spec in Hc. etrans; [|apply IH; lia]. lia.
Qed.

Lemma parse_digits_value w acc s :
  0 <= acc -> is_digit_text s -> digits_value acc s <= umax w ->
  parse_digits w acc s = Ok (digits_value acc s).
Proof.
  intros Ha Hs. revert acc Ha. induction Hs as [|c s Hc Hs IH]; intros acc Ha Hle; simpl in *; [done|].
  rewrite Hc. apply is_ascii_digit_spec in Hc.
  assert (acc * 10 + (c - 48) <= digits_value (acc * 10 + (c - 48)) s) by (apply digits_value_ge; [lia|done]).
  unfold checked_mul, checked_add. rewrite (proj2 (Z.leb_le _ _)) by lia.
  rewrite (proj2 (Z.leb_le _ _)) by lia. apply IH; lia.
Qed.

Lemma push_digits_value fuel n tail :
  0 <= n < 10 ^ Z.of_nat fuel -> (0 < fuel)%nat ->
  digits_value 0 (push_digits fuel n tail) = digits_value n tail.
Proof.
  revert n tail. induction fuel as [|fuel IH]; intros n tail Hn Hf; [lia|]. cbn [push_digits].
  destruct (Z.ltb_spec n 10); [simpl; f_equal; lia|].
  rewrite IH.
  - cbn [digits_value]. f_equal. pose proof (Z.div_mod n 10). lia.
  - split; [apply Z.div_pos; lia|]. apply Z.div_lt_upper_bound; [lia|].
    rewrite <- Z.pow_succ_r by lia. replace (Z.succ (Z.of_nat fuel)) with (Z.of_nat (S fuel)) by lia. lia.
  - destruct fuel; [|lia]. simpl in Hn. lia.
Qed.

Lemma push_digits_digits fuel n tail : 0 <= n -> is_digit_text tail -> is_digit_text (push_digits fuel n tail).
Proof.
  revert n tail. induction fuel as [|fuel IH]; intros n tail Hn Ht; cbn [push_digits]; [done|].
  destruct (Z.ltb_spec n 10).
  - apply Forall_cons_2; [apply is_ascii_digit_spec; lia|done].
  - apply IH; [apply Z.div_pos; lia|]. pose proof (Z.mod_pos_bound n 10).
    apply Forall_cons_2; [apply is_ascii_digit_spec; lia|done].
Qed.

Lemma push_digits_nonempty fuel n tail : (0 < fuel)%nat -> push_digits fuel n tail <> [].
Proof.
  revert n tail. induction fuel as [|fuel IH]; intros n tail Hf; cbn [push_digits]; [lia|].
  destruct (n <? 10); [done|]. destruct fuel; [done|]. apply IH. lia.
Qed.

Lemma show_uint_digits n : 0 <= n -> is_digit_text (show_uint n).
Proof. intros. apply push_digits_digits; [done|constructor]. Qed.

Lemma show_uint_nonempty n : show_uint n <> [].
Proof. apply push_digits_nonempty. lia. Qed.

(** What [Display] writes, [FromStr] reads back. *)
Lemma parse_show_uint w n : 0 <= w <= 128 -> fits w n -> parse_uint w (show_uint n) = Ok n.
Proof.
  intros Hw Hn.
  assert (0 <= n < 10 ^ Z.of_nat 39) as Hb.
  { assert (2 ^ w <= 2 ^ 128) by (apply Z.pow_le_mono_r; lia).
    assert (2 ^ 128 < 10 ^ Z.of_nat 39) by (vm_compute; done). unfold fits, umax in Hn. lia. }
  assert (is_digit_text (show_uint n)) as Hd by (apply show_uint_digits; lia).
  assert (digits_value 0 (show_uint n) = n) as Hv by (by apply push_digits_value; [|lia]).
  pose proof (show_uint_nonempty n) as Hne. unfold parse_uint.
  destruct (show_uint n) as [|c t] eqn:E; [done|].
  assert (c =? 43 = false) as ->.
  { apply Forall_inv in Hd. apply is_ascii_digit_spec in Hd. lia. }
  rewrite parse_digits_value; [by f_equal|lia|done|]. rewrite Hv. unfold fits in Hn. lia.
Qed.

Lemma parse_digits_fits w acc s n : fits w acc -> parse_digits w acc s = Ok n -> fits w n.
Proof.
  revert acc. induction s as [|c s IH]; intros acc Ha; simpl; [by intros [= <-]|].
  destruct (is_ascii_digit c) eqn:Ec; [|done]. apply is_ascii_digit_spec in Ec.
  unfold checked_mul, checked_add. destruct (Z.leb_spec (acc * 10) (umax w)); [|done].
  destruct (Z.leb_spec (acc * 10 + (c - 48)) (umax w)); [|done].
  apply IH. unfold fits in *. lia.
Qed.

Lemma parse_uint_fits w s n : 0 <= w -> parse_uint w s = Ok n -> fits w n.
Proof.
  intros Hw. assert (fits w 0) as H0.
  { unfold fits, umax. assert (0 < 2 ^ w) by (apply Z.pow_pos_nonneg; lia). lia. }
  unfold parse_uint. destruct s as [|c s]; [done|]. destruct (c =? 43).
  - destruct s; [done|]. by apply parse_digits_fits.
  - by apply parse_digits_fits.
Qed.

(** A number is read exactly when it is digits whose value the width holds. *)
Lemma parse_digits_iff w acc s n :
  0 <= acc <= umax w -> parse_digits w acc s = Ok n <-> is_digit_text s /\ digits_value acc s = n /\ n <= umax w.
Proof.
  intros Ha. split.
  - revert acc Ha. induction s as [|c s IH]; intros acc Ha; simpl; [intros [= <-]; split_and!; [constructor|done|lia]|].
    destruct (is_ascii_digit c) eqn:Ec; [|done]. unfold checked_mul, checked_add.
    destruct (Z.leb_spec (acc * 10) (umax w)); [|done]. destruct (Z.leb_spec (acc * 10 + (c - 48)) (umax w)); [|done].
    pose proof (proj1 (is_ascii_digit_spec c) Ec). intros (Hd & Hv & Hn)%IH; [|lia]. split_and!; [by constructor|done|done].
  - intros (Hd & <- & Hn). apply parse_digits_value; [lia|done|done].
Qed.

(** A wider type reads what a narrower one does, and refuses it only for its width. *)
Lemma parse_uint_widen v w s n :
  0 <= v <= w -> parse_uint v s = Ok n <-> parse_uint w s = Ok n /\ n <= umax v.
Proof.
  intros Hw. assert (0 <= umax v <= umax w) as Hm.
  { unfold umax. assert (0 < 2 ^ v <= 2 ^ w) by (split; [lia|apply Z.pow_le_mono_r; lia]). lia. }
  unfold parse_uint. destruct s as [|c s]; [split; [done|by intros [? _]]|]. destruct (c =? 43).
  - destruct s as [|d s]; [split; [done|by intros [? _]]|]. rewrite !parse_digits_iff by lia. naive_solver lia.
  - rewrite !parse_digits_iff by lia. naive_solver lia.
Qed.
