(* ===== verification/Intervals.v ===== *)
(** * Lists of inclusive intervals

    The theory shared by the engine's interval vectors: IPv4 ranges, IPv6 ranges
    (one group of intervals per interface), port ranges and the cut lists of set
    subtraction.  A type of intervals is an instance of [Interval]; a vector
    denotes the set of (group, value) pairs its members hold; a vector is
    canonical when it is sorted and no two members of a group meet or touch.
    Canonical vectors are unique for what they denote. *)

From Stdlib Require Import ZArith Lia.
From stdpp Require Import base numbers sets list sorting.
From S2P Require Import Prelude Std.

Local Open Scope Z_scope.

Class Interval (R : Type) := {
  lo : R -> Z;
  hi : R -> Z;
  grp : R -> Z;
}.

(** A plain pair of bounds, as the cut lists and the port ranges are. *)
#[export] Instance pair_interval : Interval (Z * Z) :=
  {| lo := fst; hi := snd; grp := fun _ => 0 |}.

(** The merge loop of every canonicalisation: [current] takes in each [next] it
    joins and is pushed when one stands apart. *)
Fixpoint coalesce {R} (joins : R -> R -> bool) (absorb : R -> R -> R)
    (current : R) (rest : list R) : list R :=
  match rest with
  | [] => [current]
  | next :: rest =>
      if joins current next
      then coalesce joins absorb (absorb current next) rest
      else current :: coalesce joins absorb next rest
  end.

Section Theory.
Context {R : Type} `{Interval R}.

Definition iv_valid (r : R) : Prop := lo r <= hi r.

Definition iv_in (g x : Z) (r : R) : Prop := grp r = g /\ lo r <= x <= hi r.

Definition den (l : list R) (g x : Z) : Prop := exists r, r ∈ l /\ iv_in g x r.

Definition apart (a b : R) : Prop := grp a < grp b \/ (grp a = grp b /\ hi a + 1 < lo b).

Definition key_le (a b : R) : Prop := grp a < grp b \/ (grp a = grp b /\ lo a <= lo b).

Definition canon (l : list R) : Prop := StronglySorted apart l /\ Forall iv_valid l.

(** How many values an interval holds, and the pairs a vector holds in order. *)
Definition width (r : R) : Z := hi r - lo r + 1.

Definition enum (l : list R) : list (Z * Z) :=
  l ≫= (fun r => (fun x => (grp r, x)) <$> seqZ (lo r) (width r)).

Fixpoint total_width (l : list R) : Z :=
  match l with [] => 0 | r :: l => width r + total_width l end.

Lemma den_nil g x : den [] g x <-> False.
Proof. unfold den. set_solver. Qed.

Lemma den_cons r l g x : den (r :: l) g x <-> iv_in g x r \/ den l g x.
Proof. unfold den. set_solver. Qed.

Lemma den_app l k g x : den (l ++ k) g x <-> den l g x \/ den k g x.
Proof. unfold den. set_solver. Qed.

Lemma den_perm l k g x : l ≡ₚ k -> den l g x <-> den k g x.
Proof. intros E. unfold den. by setoid_rewrite E. Qed.

Lemma canon_nil : canon [].
Proof. split; constructor. Qed.

Lemma canon_cons r l :
  canon (r :: l) <-> Forall (apart r) l /\ iv_valid r /\ canon l.
Proof. unfold canon. rewrite StronglySorted_cons, Forall_cons. tauto. Qed.

Lemma canon_app l k :
  canon (l ++ k) <->
  canon l /\ canon k /\ (forall a b, a ∈ l -> b ∈ k -> apart a b).
Proof. unfold canon. rewrite StronglySorted_app, Forall_app. naive_solver. Qed.

(** *** Merging *)

Section Merge.
Context (joins : R -> R -> bool) (absorb : R -> R -> R) (good : R -> Prop).
Hypothesis joins_spec : forall c n, good c -> good n ->
  joins c n = true <-> grp n = grp c /\ lo n <= hi c + 1.
Hypothesis absorb_spec : forall c n, good c -> good n -> joins c n = true ->
  good (absorb c n) /\ grp (absorb c n) = grp c /\ lo (absorb c n) = lo c /\
  hi (absorb c n) = Z.max (hi c) (hi n).

Lemma coalesce_spec c rest :
  good c -> iv_valid c -> Forall good rest -> Forall iv_valid rest ->
  StronglySorted key_le (c :: rest) ->
  let m := coalesce joins absorb c rest in
  canon m /\ Forall good m /\ Forall (key_le c) m /\
  forall g x, den m g x <-> den (c :: rest) g x.
Proof.
  revert c. induction rest as [|n rest IH]; intros c Hc Hvc Hg Hv Hs; cbn [coalesce].
  { split; [split; repeat constructor; done|]. split; [by repeat constructor|].
    split; [|done]. constructor; [unfold key_le; lia|constructor]. }
  inversion Hg as [|? ? Hn Hg']; inversion Hv as [|? ? Hvn Hv']; subst.
  apply StronglySorted_inv in Hs as [Hs Hall].
  pose proof (StronglySorted_inv Hs) as [Hs' Hall'].
  inversion Hall as [|? ? Hcn Hcr]; subst.
  destruct (joins c n) eqn:Ej.
  - destruct (absorb_spec c n Hc Hn Ej) as (Ha & Eg & El & Eh).
    apply joins_spec in Ej as [Egn Hadj]; [|done..].
    destruct (IH (absorb c n)) as (Hcan & Hgood & Hkey & Hden); [done| |done|done| |].
    { unfold iv_valid in *. lia. }
    { constructor; [done|]. eapply Forall_impl; [exact Hcr|].
      intros r. unfold key_le. rewrite Eg, El. done. }
    split; [done|]. split; [done|]. split.
    + eapply Forall_impl; [exact Hkey|]. intros r. unfold key_le. by rewrite Eg, El.
    + intros g x. rewrite Hden, !den_cons. unfold iv_in. rewrite Eg, El, Eh.
      unfold iv_valid, key_le in *. split.
      * intros [?|?]; [|tauto]. destruct (Z.le_gt_cases x (hi c)); [left; lia|].
        right; left. lia.
      * intros [?|[?|?]]; [left; lia|left; lia|by right].
  - destruct (IH n) as (Hcan & Hgood & Hkey & Hden); [done..|].
    assert (forall r, key_le n r -> apart c r) as Hap.
    { intros r Hr. unfold apart, key_le in *.
      destruct (Z.eq_dec (grp n) (grp c)) as [E|E]; [|lia].
      destruct (Z.le_gt_cases (lo n) (hi c + 1)); [|lia].
      rewrite (proj2 (joins_spec c n Hc Hn)) in Ej; [done|lia]. }
    split.
    { apply canon_cons. split; [eapply Forall_impl; [exact Hkey|]; auto|auto]. }
    split; [by constructor|]. split.
    { constructor; [unfold key_le; lia|]. eapply Forall_impl; [exact Hkey|].
      intros r Hr. unfold key_le in *. lia. }
    intros g x. by rewrite (den_cons c (n :: rest)), den_cons, Hden.
Qed.
End Merge.

(** *** Uniqueness *)

Lemma apart_den r l g x :
  Forall (apart r) l -> den l g x -> grp r < g \/ (grp r = g /\ hi r + 1 < x).
Proof.
  intros Hall (s & Hs & <- & Hx). rewrite Forall_forall in Hall.
  specialize (Hall s Hs). unfold apart in Hall. lia.
Qed.

Lemma canon_head_le a l b m :
  canon (a :: l) -> canon (b :: m) ->
  (forall g x, den (a :: l) g x <-> den (b :: m) g x) ->
  grp b < grp a \/ (grp b = grp a /\ lo b <= lo a).
Proof.
  intros (Ha & Hva & _)%canon_cons (Hb & Hvb & _)%canon_cons E.
  unfold iv_valid in *.
  assert (den (b :: m) (grp a) (lo a)) as Hd
    by (apply E, den_cons; left; unfold iv_in; lia).
  apply den_cons in Hd as [Hd|Hd]; [unfold iv_in in Hd; lia|].
  apply (apart_den b) in Hd; [lia|done].
Qed.

Lemma canon_head_hi a l b m :
  canon (a :: l) -> canon (b :: m) ->
  (forall g x, den (a :: l) g x <-> den (b :: m) g x) ->
  grp a = grp b -> lo a = lo b -> hi b <= hi a.
Proof.
  intros (Ha & Hva & _)%canon_cons (Hb & Hvb & _)%canon_cons E Eg El.
  unfold iv_valid in *. destruct (Z.le_gt_cases (hi b) (hi a)) as [|Hlt]; [done|].
  assert (den (a :: l) (grp a) (hi a + 1)) as Hd
    by (apply E, den_cons; left; unfold iv_in; lia).
  apply den_cons in Hd as [Hd|Hd]; [unfold iv_in in Hd; lia|].
  apply (apart_den a) in Hd; [lia|done].
Qed.

Lemma canon_unique (good : R -> Prop) l m :
  (forall a b, good a -> good b -> grp a = grp b -> lo a = lo b -> hi a = hi b -> a = b) ->
  Forall good l -> Forall good m -> canon l -> canon m ->
  (forall g x, den l g x <-> den m g x) -> l = m.
Proof.
  intros Hext. revert m. induction l as [|a l IH]; intros [|b m] Hgl Hgm Hl Hm E; [done|..].
  - exfalso. apply canon_cons in Hm as (_ & Hv & _). unfold iv_valid in Hv.
    apply (den_nil (grp b) (lo b)), E, den_cons. left. unfold iv_in. lia.
  - exfalso. apply canon_cons in Hl as (_ & Hv & _). unfold iv_valid in Hv.
    apply (den_nil (grp a) (lo a)), E, den_cons. left. unfold iv_in. lia.
  - assert (forall g x, den (b :: m) g x <-> den (a :: l) g x) as E' by (intros; symmetry; apply E).
    pose proof (canon_head_le a l b m Hl Hm E). pose proof (canon_head_le b m a l Hm Hl E').
    assert (grp a = grp b) as Eg by lia. assert (lo a = lo b) as El by lia.
    pose proof (canon_head_hi a l b m Hl Hm E Eg El).
    pose proof (canon_head_hi b m a l Hm Hl E' (eq_sym Eg) (eq_sym El)).
    inversion Hgl; inversion Hgm; subst.
    assert (a = b) as -> by (apply Hext; auto; lia).
    f_equal. apply canon_cons in Hl as (Ha & _ & Hl). apply canon_cons in Hm as (Hb & _ & Hm).
    apply IH; [done..|]. intros g x. specialize (E g x). rewrite !den_cons in E.
    assert (forall k, Forall (apart b) k -> den k g x -> ~ iv_in g x b) as Hout.
    { intros k Hk Hd Hin. apply (apart_den b) in Hd; [|done]. unfold iv_in in Hin. lia. }
    split; intros Hd.
    + pose proof (Hout l Ha Hd). tauto.
    + pose proof (Hout m Hb Hd). tauto.
Qed.

(** *** Counting *)

Lemma elem_of_enum l g x : (g, x) ∈ enum l <-> den l g x.
Proof.
  unfold enum, den, iv_in, width. rewrite list_elem_of_bind. split.
  - intros (r & (y & [= -> ->] & Hy%elem_of_seqZ)%list_elem_of_fmap & Hr).
    exists r. split; [done|]. split; [done|lia].
  - intros (r & Hr & <- & Hx). exists r. split; [|done].
    apply list_elem_of_fmap. exists x. split; [done|]. apply elem_of_seqZ. lia.
Qed.

Lemma enum_cons r l :
  enum (r :: l) = ((fun x => (grp r, x)) <$> seqZ (lo r) (width r)) ++ enum l.
Proof. done. Qed.

Lemma NoDup_enum l : canon l -> NoDup (enum l).
Proof.
  induction l as [|r l IH]; [constructor|]. intros (Hr & Hv & Hl)%canon_cons.
  rewrite enum_cons. apply NoDup_app. split; [|split].
  - apply NoDup_fmap_2_strong; [|apply NoDup_seqZ]. by intros x y _ _ [= ->].
  - intros [g x] (y & [= -> ->] & Hy%elem_of_seqZ)%list_elem_of_fmap Hx.
    apply elem_of_enum, (apart_den r) in Hx; [|done]. unfold width in Hy. lia.
  - by apply IH.
Qed.

Lemma length_enum l : Forall iv_valid l -> Z.of_nat (length (enum l)) = total_width l.
Proof.
  induction 1 as [|r l Hv _ IH]; [done|]. rewrite enum_cons, length_app, length_fmap, length_seqZ.
  cbn [total_width]. unfold iv_valid, width in *. lia.
Qed.

Lemma total_width_nonneg l : Forall iv_valid l -> 0 <= total_width l.
Proof. intros Hv. rewrite <- length_enum by done. lia. Qed.

(** *** Searching one group *)

Definition place (target : Z) (r : R) : comparison :=
  if target <? lo r then Gt else if hi r <? target then Lt else Eq.

Lemma place_Eq target r : place target r = Eq <-> lo r <= target <= hi r.
Proof.
  unfold place. destruct (Z.ltb_spec target (lo r)), (Z.ltb_spec (hi r) target);
    (split; [|]); intros; try done; lia.
Qed.

Lemma canon_searchable target l g :
  canon l -> Forall (fun r => grp r = g) l -> searchable (place target) l.
Proof.
  intros [Hs Hv] Hg. eapply sorted_weaken; [|exact Hs]. intros a b Ha Hb Hab.
  rewrite Forall_forall in Hg, Hv. pose proof (Hg a Ha). pose proof (Hg b Hb).
  pose proof (Hv a Ha) as Hva. pose proof (Hv b Hb) as Hvb.
  unfold apart, iv_valid, place in *.
  destruct (Z.ltb_spec target (lo a)), (Z.ltb_spec (hi a) target),
    (Z.ltb_spec target (lo b)), (Z.ltb_spec (hi b) target); simpl; lia.
Qed.

Lemma search_den target l g :
  canon l -> Forall (fun r => grp r = g) l ->
  is_ok (binary_search_by (place target) l) = true <-> den l g target.
Proof.
  intros Hc Hg. rewrite binary_search_is_ok by (eapply canon_searchable; done).
  setoid_rewrite place_Eq. unfold den, iv_in. rewrite Forall_forall in Hg. naive_solver.
Qed.
End Theory.

#[export] Hint Resolve canon_nil : core.
