(* ===== verification/IpRange.v ===== *)
(** * Contiguous runs of addresses

    [src/src/model/ip/range.rs].  An address is its numeric value: a [u32] for
    IPv4, a [u128] for IPv6.  A range is two addresses and everything between
    them; an IPv6 range also carries the interface it is valid on. *)

From Stdlib Require Import ZArith Lia.
From stdpp Require Import base countable numbers option list.
From S2P Require Import Prelude Std Text Intervals.

Local Open Scope Z_scope.

(** ** Addresses *)

Inductive IpAddr :=
  | V4 (a : Z)
  | V6 (a : Z).

#[export] Instance IpAddr_eq_dec : EqDecision IpAddr.
Proof. solve_decision. Defined.

#[export] Instance IpAddr_countable : Countable IpAddr.
Proof.
  refine (inj_countable' (fun ip => match ip with V4 a => inl a | V6 a => inr a end)
    (fun x => match x with inl a => V4 a | inr a => V6 a end) _). by intros [].
Defined.

Definition ip_fits (ip : IpAddr) : Prop :=
  match ip with V4 a => fits 32 a | V6 a => fits 128 a end.

(** [Ipv4Addr::to_ipv6_mapped] and [Ipv6Addr::to_ipv4_mapped]: the block
    [::ffff:0:0/96]. *)
Definition to_ipv6_mapped (a : Z) : Z := Z.lor (Z.shiftl 0xffff 32) a.

Definition to_ipv4_mapped (a : Z) : option Z :=
  if Z.shiftr a 32 =? 0xffff then Some (Z.land a (Z.ones 32)) else None.

(** ** Errors *)

(** [std::net::AddrParseError]: what was being read. *)
Inductive AddrKind := AddrIp | AddrIpv4 | AddrIpv6.

#[export] Instance AddrKind_eq_dec : EqDecision AddrKind.
Proof. solve_decision. Defined.

Inductive IpError :=
  | InvalidRange (start stop : IpAddr)
  | InvalidPrefix (prefix : Z)
  | AddrParse (source : AddrKind)
  | InvalidFormat (s : text)
  | PrefixParse (source : IntErrorKind).

#[export] Instance IpError_eq_dec : EqDecision IpError.
Proof. solve_decision. Defined.

(** ** IPv4 *)

Record Ipv4Range := mkIpv4Range {
  v4_start : Z;
  v4_end : Z;
}.

#[export] Instance Ipv4Range_eq_dec : EqDecision Ipv4Range.
Proof. solve_decision. Defined.

Definition v4_new (start stop : Z) : Result Ipv4Range IpError :=
  if start <=? stop then Ok (mkIpv4Range start stop)
  else Err (InvalidRange (V4 start) (V4 stop)).

Definition v4_single (addr : Z) : Ipv4Range := mkIpv4Range addr addr.

Definition v4_extend_end_to (r : Ipv4Range) (stop : Z) : Ipv4Range :=
  if v4_end r <? stop then mkIpv4Range (v4_start r) stop else r.

Definition v4_contains (r : Ipv4Range) (ip : Z) : bool :=
  (v4_start r <=? ip) && (ip <=? v4_end r).

(** [u64] arithmetic on two widened [u32]s. *)
Definition v4_range_len (r : Ipv4Range) : Z := (v4_end r -[64] v4_start r) +[64] 1.

(** [start..=end] as a list of addresses. *)
Definition v4_range_iter (r : Ipv4Range) : list IpAddr :=
  V4 <$> seqZ (v4_start r) (v4_end r - v4_start r + 1).

Definition v4_ok (r : Ipv4Range) : Prop :=
  0 <= v4_start r /\ v4_start r <= v4_end r /\ v4_end r <= umax 32.

#[export] Instance v4_interval : Interval Ipv4Range :=
  {| lo := v4_start; hi := v4_end; grp := fun _ => 0 |}.

(** ** IPv6 *)

Record Ipv6Range := mkIpv6Range {
  v6_start : Z;
  v6_end : Z;
  v6_zone : option Z;
}.

#[export] Instance Ipv6Range_eq_dec : EqDecision Ipv6Range.
Proof. solve_decision. Defined.

Definition v6_scoped (start stop : Z) (zone : option Z) : Result Ipv6Range IpError :=
  if start <=? stop
  then Ok (mkIpv6Range start stop (option_filter (fun index => negb (index =? 0)) zone))
  else Err (InvalidRange (V6 start) (V6 stop)).

Definition v6_new (start stop : Z) : Result Ipv6Range IpError := v6_scoped start stop None.

Definition v6_single (addr : Z) : Ipv6Range := mkIpv6Range addr addr None.

Definition v6_extend_end_to (r : Ipv6Range) (stop : Z) : Ipv6Range :=
  if v6_end r <? stop then mkIpv6Range (v6_start r) stop (v6_zone r) else r.

Definition LINK_LOCAL_FIRST : Z := Z.shiftl 0xfe80 112.

Definition LINK_LOCAL_LAST : Z := Z.lor (Z.shiftl 0xfebf 112) (Z.shiftl 1 112 - 1).

Definition covers_link_local (r : Ipv6Range) : bool :=
  (v6_start r <=? LINK_LOCAL_LAST) && (LINK_LOCAL_FIRST <=? v6_end r).

Definition is_link_local (r : Ipv6Range) : bool :=
  (LINK_LOCAL_FIRST <=? v6_start r) && (v6_end r <=? LINK_LOCAL_LAST).

Definition is_ambiguous (r : Ipv6Range) : bool :=
  match v6_zone r with None => covers_link_local r | Some _ => false end.

Definition spelled_ipv4 (r : Ipv6Range) : option Ipv4Range :=
  start ← to_ipv4_mapped (v6_start r);
  stop ← to_ipv4_mapped (v6_end r);
  ok (v4_new start stop).

Definition v6_range_iter (r : Ipv6Range) : list IpAddr :=
  V6 <$> seqZ (v6_start r) (v6_end r - v6_start r + 1).

Definition v6_contains (r : Ipv6Range) (ip : Z) : bool :=
  (v6_start r <=? ip) && (ip <=? v6_end r).

Definition v6_overlaps (r other : Ipv6Range) : bool :=
  (v6_start r <=? v6_end other) && (v6_start other <=? v6_end r).

Definition v6_range_len (r : Ipv6Range) : Z := sat_add 128 (v6_end r -[128] v6_start r) 1.

(** A zone is an interface index, and never the failed lookup's zero. *)
Definition zone_ok (zone : option Z) : Prop :=
  match zone with None => True | Some index => 0 < index <= umax 32 end.

Definition v6_ok (r : Ipv6Range) : Prop :=
  0 <= v6_start r /\ v6_start r <= v6_end r /\ v6_end r <= umax 128 /\ zone_ok (v6_zone r).

(** [Option<u32>]'s order, as an integer: [None] before every index. *)
Definition zone_rank (zone : option Z) : Z :=
  match zone with None => -1 | Some index => index end.

#[export] Instance v6_interval : Interval Ipv6Range :=
  {| lo := v6_start; hi := v6_end; grp := fun r => zone_rank (v6_zone r) |}.

(** ** Either family *)

Inductive IpRange :=
  | RV4 (r : Ipv4Range)
  | RV6 (r : Ipv6Range).

#[export] Instance IpRange_eq_dec : EqDecision IpRange.
Proof. solve_decision. Defined.

Definition range_iter (r : IpRange) : list IpAddr :=
  match r with RV4 r => v4_range_iter r | RV6 r => v6_range_iter r end.

Definition range_start (r : IpRange) : IpAddr :=
  match r with RV4 r => V4 (v4_start r) | RV6 r => V6 (v6_start r) end.

Definition range_end (r : IpRange) : IpAddr :=
  match r with RV4 r => V4 (v4_end r) | RV6 r => V6 (v6_end r) end.

Definition range_contains (r : IpRange) (ip : IpAddr) : bool :=
  match r, ip with
  | RV4 r, V4 ip => v4_contains r ip
  | RV6 r, V6 ip => v6_contains r ip
  | _, _ => false
  end.

Definition range_len (r : IpRange) : Z :=
  match r with RV4 r => v4_range_len r | RV6 r => v6_range_len r end.

Definition range_ok (r : IpRange) : Prop :=
  match r with RV4 r => v4_ok r | RV6 r => v6_ok r end.

(** [uN::MAX.checked_shr(prefix).unwrap_or(0)]: the host bits of a prefix. *)
Definition host_mask (w prefix : Z) : Z :=
  if prefix <? w then Z.shiftr (umax w) prefix else 0.

(** Bitwise complement at width [w]. *)
Definition unot (w x : Z) : Z := Z.lxor (umax w) x.

(** The [unreachable!] arms of the source are the [Err] arms here;
    [cidr_range_spec] shows they are not reached. *)
Definition cidr_range (ip : IpAddr) (prefix : Z) : Result IpRange IpError :=
  match ip with
  | V4 ip =>
      if 32 <? prefix then Err (InvalidPrefix prefix)
      else
        let mask := unot 32 (host_mask 32 prefix) in
        let network := Z.land ip mask in
        let broadcast := Z.lor ip (unot 32 mask) in
        map_ok RV4 (v4_new network broadcast)
  | V6 ip =>
      if 128 <? prefix then Err (InvalidPrefix prefix)
      else
        let mask := unot 128 (host_mask 128 prefix) in
        let network := Z.land ip mask in
        let broadcast := Z.lor ip (unot 128 mask) in
        map_ok RV6 (v6_new network broadcast)
  end.

(** ** Lemmas *)

#[export] Hint Unfold v4_ok v6_ok : word.

Lemma v4_interval_ext a b :
  v4_ok a -> v4_ok b -> grp a = grp b -> lo a = lo b -> hi a = hi b -> a = b.
Proof. destruct a, b; simpl. by intros _ _ _ -> ->. Qed.

Lemma zone_rank_inj a b : zone_ok a -> zone_ok b -> zone_rank a = zone_rank b -> a = b.
Proof. destruct a, b; simpl; intros; try done; try lia. by subst. Qed.

Lemma v6_interval_ext a b :
  v6_ok a -> v6_ok b -> grp a = grp b -> lo a = lo b -> hi a = hi b -> a = b.
Proof.
  destruct a as [s e z], b as [s' e' z']; unfold v6_ok; simpl.
  intros (_ & _ & _ & Hz) (_ & _ & _ & Hz') E -> ->. f_equal. by apply zone_rank_inj.
Qed.

Lemma v4_contains_spec r x : v4_contains r x = true <-> v4_start r <= x <= v4_end r.
Proof. unfold v4_contains. rewrite andb_true_iff, !Z.leb_le. done. Qed.

Lemma v6_contains_spec r x : v6_contains r x = true <-> v6_start r <= x <= v6_end r.
Proof. unfold v6_contains. rewrite andb_true_iff, !Z.leb_le. done. Qed.

Lemma v4_single_ok a : fits 32 a -> v4_ok (v4_single a).
Proof. unfold v4_ok, v4_single. simpl. mlia. Qed.

Lemma v6_single_ok a : fits 128 a -> v6_ok (v6_single a).
Proof. unfold v6_ok, v6_single. simpl. mlia. Qed.

Lemma v4_new_ok s e r : fits 32 s -> fits 32 e -> v4_new s e = Ok r -> v4_ok r.
Proof.
  unfold v4_new. destruct (Z.leb_spec s e); intros ? ? [=]; subst. unfold v4_ok; simpl. mlia.
Qed.

Lemma v6_scoped_ok s e z r :
  fits 128 s -> fits 128 e -> match z with Some i => fits 32 i | None => True end ->
  v6_scoped s e z = Ok r -> v6_ok r.
Proof.
  unfold v6_scoped. destruct (Z.leb_spec s e); intros ? ? Hz [=]; subst.
  unfold v6_ok; simpl. split; [mlia|]. split; [mlia|]. split; [mlia|].
  destruct z as [i|]; simpl; [|done]. destruct (Z.eqb_spec i 0); simpl; [done|]. mlia.
Qed.

Lemma v4_len_width r : v4_ok r -> v4_range_len r = width r.
Proof. unfold v4_ok, v4_range_len, width. simpl. intros H. wsimp. lia. Qed.

Lemma v6_len_width r : v6_ok r -> v6_range_len r = Z.min (width r) (umax 128).
Proof. unfold v6_ok, v6_range_len, width. simpl. intros H. wsimp. mlia. Qed.

(** *** Prefixes, arithmetically *)

Lemma umax_ones w : 0 <= w -> umax w = Z.ones w.
Proof. intros. unfold umax. rewrite Z.ones_equiv. lia. Qed.

Lemma host_mask_ones w p : 0 <= p <= w -> host_mask w p = Z.ones (w - p).
Proof.
  intros Hp. unfold host_mask. rewrite umax_ones by lia.
  destruct (Z.ltb_spec p w).
  - rewrite Z.shiftr_div_pow2, Z.ones_div_pow2 by lia. done.
  - replace (w - p) with 0 by lia. done.
Qed.

Section Prefix.
Context (w a p : Z) (Hp : 0 <= p <= w) (Ha : fits w a).
Let n := w - p.

Lemma network_arith : Z.land a (unot w (host_mask w p)) = a - a mod 2 ^ n.
Proof.
  rewrite host_mask_ones by lia. unfold unot. rewrite umax_ones by lia. fold n.
  assert (a - a mod 2 ^ n = Z.shiftl (Z.shiftr a n) n) as ->.
  { rewrite Z.shiftl_mul_pow2, Z.shiftr_div_pow2 by lia.
    pose proof (Z.div_mod a (2 ^ n)). lia. }
  apply Z.bits_inj'. intros i Hi.
  rewrite Z.land_spec, Z.lxor_spec, Z.shiftl_spec by lia.
  apply fits_testbit in Ha as [_ Hhigh]; [|lia].
  destruct (Z.lt_ge_cases i n).
  - rewrite !Z.ones_spec_low, (Z.testbit_neg_r _ (i - n)) by lia. apply andb_false_r.
  - rewrite Z.shiftr_spec by lia. replace (i - n + n) with i by lia.
    destruct (Z.lt_ge_cases i w).
    + rewrite Z.ones_spec_low, Z.ones_spec_high by lia. apply andb_true_r.
    + rewrite Hhigh by lia. done.
Qed.

Lemma broadcast_arith :
  Z.lor a (unot w (unot w (host_mask w p))) = a - a mod 2 ^ n + (2 ^ n - 1).
Proof.
  assert (unot w (unot w (host_mask w p)) = Z.ones n) as ->.
  { unfold unot. rewrite <- Z.lxor_assoc, Z.lxor_nilpotent, Z.lxor_0_l.
    by apply host_mask_ones. }
  assert (a - a mod 2 ^ n = Z.shiftl (Z.shiftr a n) n) as ->.
  { rewrite Z.shiftl_mul_pow2, Z.shiftr_div_pow2 by lia.
    pose proof (Z.div_mod a (2 ^ n)). lia. }
  replace (2 ^ n - 1) with (Z.ones n) by (rewrite Z.ones_equiv; lia).
  rewrite Z.add_nocarry_lor.
  - apply Z.bits_inj'. intros i Hi. rewrite !Z.lor_spec, Z.shiftl_spec by lia.
    destruct (Z.lt_ge_cases i n).
    + rewrite !Z.ones_spec_low by lia. by rewrite !orb_true_r.
    + rewrite Z.shiftr_spec by lia. by replace (i - n + n) with i by lia.
  - apply Z.bits_inj'. intros i Hi. rewrite Z.land_spec, Z.shiftl_spec, Z.bits_0 by lia.
    destruct (Z.lt_ge_cases i n).
    + by rewrite (Z.testbit_neg_r _ (i - n)) by lia.
    + rewrite Z.ones_spec_high by lia. apply andb_false_r.
Qed.

Lemma prefix_bounds : 0 <= a - a mod 2 ^ n /\ a - a mod 2 ^ n + (2 ^ n - 1) <= umax w.
Proof.
  assert (0 < 2 ^ n) by (apply Z.pow_pos_nonneg; lia).
  assert (umax w = 2 ^ p * 2 ^ n - 1) as E
    by (unfold umax; rewrite <- Z.pow_add_r by lia; do 2 f_equal; lia).
  pose proof (Z.div_mod a (2 ^ n) ltac:(lia)). pose proof (Z.mod_pos_bound a (2 ^ n) ltac:(lia)).
  destruct Ha as [Hlo Hw]. rewrite E in *.
  assert (a / 2 ^ n < 2 ^ p) by (apply Z.div_lt_upper_bound; lia).
  assert (0 <= a / 2 ^ n) by (apply Z.div_pos; lia). nia.
Qed.

(** What a block of a prefix holds. *)
Lemma in_block x :
  a - a mod 2 ^ n <= x <= a - a mod 2 ^ n + (2 ^ n - 1) <-> x / 2 ^ n = a / 2 ^ n.
Proof.
  assert (0 < 2 ^ n) by (apply Z.pow_pos_nonneg; lia).
  pose proof (Z.div_mod a (2 ^ n) ltac:(lia)). pose proof (Z.div_mod x (2 ^ n) ltac:(lia)).
  pose proof (Z.mod_pos_bound a (2 ^ n) ltac:(lia)).
  pose proof (Z.mod_pos_bound x (2 ^ n) ltac:(lia)).
  split; [|intros E; rewrite E in *; lia].
  intros Hx. symmetry. apply Z.div_unique with (x - 2 ^ n * (a / 2 ^ n)); lia.
Qed.
End Prefix.

Lemma mapped_arith a : fits 32 a -> to_ipv6_mapped a = 0xffff * 2 ^ 32 + a.
Proof.
  intros Ha. unfold to_ipv6_mapped. rewrite <- Z.add_nocarry_lor; [by rewrite Z.shiftl_mul_pow2|].
  apply Z.bits_inj'. intros i Hi. rewrite Z.land_spec, Z.bits_0, Z.shiftl_spec by lia.
  apply fits_testbit in Ha as [_ Hhigh]; [|lia].
  destruct (Z.lt_ge_cases i 32).
  - by rewrite Z.testbit_neg_r by lia.
  - rewrite Hhigh by lia. apply andb_false_r.
Qed.

Lemma to_ipv4_mapped_Some a b :
  to_ipv4_mapped a = Some b <-> a = 0xffff * 2 ^ 32 + b /\ fits 32 b.
Proof.
  unfold to_ipv4_mapped. rewrite Z.shiftr_div_pow2, Z.land_ones by lia.
  pose proof (Z.div_mod a (2 ^ 32)). pose proof (Z.mod_pos_bound a (2 ^ 32)).
  destruct (Z.eqb_spec (a / 2 ^ 32) 0xffff) as [E|E]; split.
  - intros [= <-]. rewrite E in *. mlia.
  - intros [-> Hb]. f_equal. rewrite Z.add_comm, Z.mod_add by lia. apply Z.mod_small. mlia.
  - done.
  - intros [-> Hb]. contradict E. rewrite Z.div_add_l by lia. rewrite Z.div_small; mlia.
Qed.

(** ** Properties *)

(** a CIDR block is refused exactly when the prefix is longer than its family
    allows; otherwise it holds exactly the addresses that share the prefix's
    leading bits, the [unreachable!] branch is never taken, and it counts
    [2^(w - prefix)] addresses (saturating for [::/0]). *)
Theorem cidr_range_spec ip prefix :
  ip_fits ip -> fits 8 prefix ->
  match ip with
  | V4 a =>
      if 32 <? prefix then cidr_range ip prefix = Err (InvalidPrefix prefix)
      else exists r, cidr_range ip prefix = Ok r /\ range_ok r /\
             range_len r = 2 ^ (32 - prefix) /\
             forall x, range_contains r (V4 x) = true <->
                       x / 2 ^ (32 - prefix) = a / 2 ^ (32 - prefix)
  | V6 a =>
      if 128 <? prefix then cidr_range ip prefix = Err (InvalidPrefix prefix)
      else exists r, cidr_range ip prefix = Ok r /\ range_ok r /\
             range_len r = Z.min (2 ^ (128 - prefix)) (umax 128) /\
             forall x, range_contains r (V6 x) = true <->
                       x / 2 ^ (128 - prefix) = a / 2 ^ (128 - prefix)
  end.
Proof.
  intros Hip Hp. destruct ip as [a|a]; cbn [cidr_range]; simpl in Hip.
  - destruct (Z.ltb_spec 32 prefix) as [|Hle]; [done|].
    assert (0 <= prefix <= 32) as Hp' by mlia.
    rewrite network_arith, broadcast_arith by done.
    pose proof (prefix_bounds 32 a prefix Hp' Hip) as Hb.
    assert (0 < 2 ^ (32 - prefix)) by (apply Z.pow_pos_nonneg; lia).
    unfold v4_new. rewrite (proj2 (Z.leb_le _ _)) by lia.
    eexists. split; [done|]. split; [unfold range_ok, v4_ok; simpl; lia|]. split.
    + cbn [range_len]. rewrite v4_len_width by (unfold v4_ok; simpl; lia).
      unfold width. simpl. lia.
    + intros x. cbn [range_contains]. rewrite v4_contains_spec. simpl. by apply in_block.
  - destruct (Z.ltb_spec 128 prefix) as [|Hle]; [done|].
    assert (0 <= prefix <= 128) as Hp' by mlia.
    rewrite network_arith, broadcast_arith by done.
    pose proof (prefix_bounds 128 a prefix Hp' Hip) as Hb.
    assert (0 < 2 ^ (128 - prefix)) by (apply Z.pow_pos_nonneg; lia).
    unfold v6_new, v6_scoped. rewrite (proj2 (Z.leb_le _ _)) by lia.
    eexists. split; [done|]. split; [unfold range_ok, v6_ok; simpl; lia|]. split.
    + cbn [range_len]. rewrite v6_len_width by (unfold v6_ok; simpl; lia).
      unfold width. simpl. f_equal. lia.
    + intros x. cbn [range_contains]. rewrite v6_contains_spec. simpl. by apply in_block.
Qed.

Lemma cidr_range_spec_witness :
  exists r, cidr_range (V4 0xC0000205) 24 = Ok r /\ range_ok r /\ range_len r = 2 ^ (32 - 24) /\
    forall x, range_contains r (V4 x) = true <->
              x / 2 ^ (32 - 24) = 0xC0000205 / 2 ^ (32 - 24).
Proof. apply (cidr_range_spec (V4 0xC0000205) 24); apply fitsb_spec; reflexivity. Defined.
