(* ===== verification/Subtract.v ===== *)
(** * Cutting intervals out of intervals

    The two routines under [IpSet::subtract] in [src/src/model/ip/set.rs]:
    [merged_intervals] flattens the subtrahend, [subtract_run] walks one sorted
    run against it.  Slices indexed by a cursor that only moves forward are
    written as the suffix the cursor points at. *)

From Stdlib Require Import ZArith Lia.
From stdpp Require Import base numbers sets list sorting.
From S2P Require Import Prelude Std Intervals.

Local Open Scope Z_scope.

(** ** Definitions *)

(** The derived order of [(u128, u128)]. *)
Definition pair_le (a b : Z * Z) : bool :=
  (a.1 <? b.1) || ((a.1 =? b.1) && (a.2 <=? b.2)).

(** One turn of [merged_intervals]' loop; [merged] is held last first. *)
Definition push_cut (merged : list (Z * Z)) (cut : Z * Z) : list (Z * Z) :=
  match merged with
  | last :: rest =>
      if cut.1 <=? sat_add 128 last.2 1
      then (last.1, Z.max last.2 cut.2) :: rest
      else cut :: merged
  | [] => [cut]
  end.

Definition merged_intervals (intervals : list (Z * Z)) : list (Z * Z) :=
  rev (fold_left push_cut (sort_by pair_le intervals) []).

Section Run.
Context {R : Type} (bounds : R -> Z * Z) (rebuild : R -> Z -> Z -> R).

(** [while first_live < cuts.len() && cuts[first_live].1 < start]. *)
Fixpoint skip_left (start : Z) (cuts : list (Z * Z)) : list (Z * Z) :=
  match cuts with
  | cut :: rest => if cut.2 <? start then skip_left start rest else cuts
  | [] => []
  end.

(** The inner loop over one range, and the push after it. *)
Fixpoint cut_range (range : R) (cursor stop : Z) (cuts : list (Z * Z)) : list R :=
  match cuts with
  | (cut_start, cut_end) :: rest =>
      if cut_start <=? stop then
        (if cursor <? cut_start then [rebuild range cursor (cut_start -[128] 1)] else []) ++
        (if stop <=? cut_end then [] else cut_range range (cut_end +[128] 1) stop rest)
      else [rebuild range cursor stop]
  | [] => [rebuild range cursor stop]
  end.

Fixpoint subtract_run (run : list R) (cuts : list (Z * Z)) : list R :=
  match run with
  | [] => []
  | range :: rest =>
      let '(start, stop) := bounds range in
      let live := skip_left start cuts in
      cut_range range start stop live ++ subtract_run rest live
  end.
End Run.

(** A cut list's bounds are [u128]s. *)
Definition cut_ok (c : Z * Z) : Prop := 0 <= c.1 /\ c.1 <= c.2 /\ c.2 <= umax 128.

(** ** Merging the cuts *)

Definition cut_joins (c n : Z * Z) : bool := n.1 <=? sat_add 128 c.2 1.

Definition cut_absorb (c n : Z * Z) : Z * Z := (c.1, Z.max c.2 n.2).

Lemma fold_push_cut c acc rest :
  rev (fold_left push_cut rest (c :: acc)) = rev acc ++ coalesce cut_joins cut_absorb c rest.
Proof.
  revert c acc. induction rest as [|n rest IH]; intros c acc; simpl; [done|].
  unfold cut_joins, cut_absorb in *. destruct (n.1 <=? sat_add 128 c.2 1); rewrite IH; [done|].
  simpl. by rewrite <- app_assoc.
Qed.

Lemma pair_le_sorted l : StronglySorted key_le (sort_by pair_le l).
Proof.
  assert (StronglySorted (fun a b => pair_le a b = true) (sort_by pair_le l)) as Hs.
  { apply sort_by_sorted; unfold pair_le; intros [] []; [|intros []]; simpl; lia. }
  eapply sorted_weaken; [|exact Hs]. intros a b _ _. unfold pair_le, key_le. simpl. lia.
Qed.

Lemma merged_intervals_spec l :
  Forall cut_ok l ->
  canon (merged_intervals l) /\ Forall cut_ok (merged_intervals l) /\
  forall x, den (merged_intervals l) 0 x <-> den l 0 x.
Proof.
  intros Hl. unfold merged_intervals.
  assert (Forall cut_ok (sort_by pair_le l)) as Hok by (by rewrite sort_by_perm).
  pose proof (pair_le_sorted l) as Hs.
  assert (forall x, den (sort_by pair_le l) 0 x <-> den l 0 x) as Hden
    by (intros; apply den_perm, sort_by_perm).
  destruct (sort_by pair_le l) as [|c rest]; [simpl; auto|].
  cbn [fold_left push_cut]. rewrite fold_push_cut. simpl app.
  inversion Hok as [|? ? Hc Hrest]; subst.
  destruct (coalesce_spec cut_joins cut_absorb cut_ok) with (c := c) (rest := rest)
    as (H1 & H2 & _ & H4); [..|done| |done| |done|].
  - unfold cut_joins, cut_ok. simpl. intros ? ? ? ?. rewrite Z.leb_le. mlia.
  - unfold cut_joins, cut_absorb, cut_ok. simpl. intros. repeat split; simpl; lia.
  - unfold cut_ok, iv_valid in *. simpl. lia.
  - eapply Forall_impl; [exact Hrest|]. unfold cut_ok, iv_valid. simpl. lia.
  - split; [done|]. split; [done|]. intros x. by rewrite H4.
Qed.

(** ** Cutting *)

Section Spec.
Context {R : Type} `{Interval R} (bounds : R -> Z * Z) (rebuild : R -> Z -> Z -> R).
Context (good : R -> Prop).
Hypothesis bounds_spec : forall r, bounds r = (lo r, hi r).
Hypothesis good_ok : forall r, good r -> 0 <= lo r /\ lo r <= hi r /\ hi r <= umax 128.
Hypothesis rebuild_spec : forall r s e, good r -> lo r <= s -> s <= e -> e <= hi r ->
  good (rebuild r s e) /\ grp (rebuild r s e) = grp r /\
  lo (rebuild r s e) = s /\ hi (rebuild r s e) = e.

(** A piece lies inside the part of [r] it was cut from. *)
Definition piece_of (r : R) (from : Z) (p : R) : Prop :=
  good p /\ grp p = grp r /\ from <= lo p /\ lo p <= hi p /\ hi p <= hi r.

Lemma piece_of_weaken r s s' p : s' <= s -> piece_of r s p -> piece_of r s' p.
Proof. intros ? (? & ? & ? & ? & ?). repeat split; [done|done|lia..]. Qed.

Lemma rebuild_piece r s e from :
  good r -> lo r <= s -> s <= e -> e <= hi r -> from <= s -> piece_of r from (rebuild r s e).
Proof.
  intros Hr H1 H2 H3 H4. destruct (rebuild_spec r s e) as (? & ? & E1 & E2); [done..|].
  unfold piece_of. rewrite E1, E2. auto.
Qed.

Lemma den_rebuild r s e g x :
  good r -> lo r <= s -> s <= e -> e <= hi r ->
  den [rebuild r s e] g x <-> grp r = g /\ s <= x <= e.
Proof.
  intros Hr H1 H2 H3. destruct (rebuild_spec r s e) as (_ & E1 & E2 & E3); [done..|].
  rewrite den_cons, den_nil. unfold iv_in. rewrite E1, E2, E3. tauto.
Qed.

Lemma canon_rebuild r s e :
  good r -> lo r <= s -> s <= e -> e <= hi r -> canon [rebuild r s e].
Proof.
  intros Hr H1 H2 H3. apply canon_cons. split; [constructor|]. split; [|done].
  destruct (rebuild_spec r s e) as (_ & _ & E2 & E3); [done..|].
  unfold iv_valid. by rewrite E2, E3.
Qed.

(** The piece kept before a cut that starts inside the range. *)
Lemma gap_spec r cursor cs :
  good r -> lo r <= cursor <= hi r -> 0 <= cs <= hi r ->
  let gap := if cursor <? cs then [rebuild r cursor (cs -[128] 1)] else [] in
  canon gap /\ Forall (piece_of r cursor) gap /\ Forall (fun p => hi p < cs) gap /\
  forall g x, den gap g x <-> grp r = g /\ cursor <= x < cs.
Proof.
  intros Hr Hcur Hin. pose proof (good_ok r Hr). cbv zeta. destruct (Z.ltb_spec cursor cs).
  - wsimp. destruct (rebuild_spec r cursor (cs - 1)) as (_ & _ & _ & E); [done|lia..|].
    split; [apply canon_rebuild; [done|lia..]|]. split; [|split].
    + constructor; [|done]. apply rebuild_piece; [done|lia..].
    + constructor; [lia|done].
    + intros g x. rewrite den_rebuild by (try done; lia). lia.
  - split; [done|]. split; [done|]. split; [done|]. intros g x. rewrite den_nil. lia.
Qed.

(** What a range keeps past its last cut. *)
Lemma tail_spec r cursor (cuts : list (Z * Z)) :
  good r -> lo r <= cursor <= hi r -> (forall x, den cuts 0 x -> hi r < x) ->
  canon [rebuild r cursor (hi r)] /\ Forall (piece_of r cursor) [rebuild r cursor (hi r)] /\
  forall g x, den [rebuild r cursor (hi r)] g x <->
              grp r = g /\ cursor <= x <= hi r /\ ~ den cuts 0 x.
Proof.
  intros Hr Hcur Hcuts. split; [apply canon_rebuild; [done|lia..]|]. split.
  - constructor; [|done]. apply rebuild_piece; [done|lia..].
  - intros g x. rewrite den_rebuild by (try done; lia). specialize (Hcuts x).
    split; [|tauto]. intros [-> Hx]. split; [done|]. split; [done|]. intros Hd%Hcuts. lia.
Qed.

(** What one range keeps from [cursor] on. *)
Lemma cut_range_spec r cursor cuts :
  good r -> lo r <= cursor <= hi r -> canon cuts -> Forall cut_ok cuts ->
  Forall (fun c => cursor <= c.2) cuts ->
  let m := cut_range rebuild r cursor (hi r) cuts in
  canon m /\ Forall (piece_of r cursor) m /\
  forall g x, den m g x <-> grp r = g /\ cursor <= x <= hi r /\ ~ den cuts 0 x.
Proof.
  intros Hr. revert cursor. induction cuts as [|[cs ce] cuts IH];
    intros cursor Hcur Hcan Hok Hlive; cbn [cut_range]; cbv zeta.
  { apply tail_spec; [done|done|]. by intros x Hd%den_nil. }
  apply canon_cons in Hcan as (Hap & _ & Hcan).
  inversion Hok as [|? ? Hc Hok']; inversion Hlive as [|? ? Hl Hlive']; subst.
  unfold cut_ok in Hc. simpl in Hc, Hl.
  destruct (Z.leb_spec cs (hi r)) as [Hin|Hout].
  2: { apply tail_spec; [done|done|]. intros x [Hx|Hd]%den_cons; [unfold iv_in in Hx; simpl in Hx; lia|].
    apply (apart_den (cs, ce)) in Hd; [simpl in Hd; lia|done]. }
  pose proof (good_ok r Hr) as Hgr.
  destruct (gap_spec r cursor cs Hr Hcur) as (G1 & G2 & G3 & G4); [lia|].
  set (gap := if cursor <? cs then [rebuild r cursor (cs -[128] 1)] else []) in *.
  destruct (Z.leb_spec (hi r) ce) as [Hend|Hmore].
  - rewrite app_nil_r. split; [done|]. split; [done|]. intros g x. rewrite G4, den_cons.
    unfold iv_in. simpl. split.
    + intros [-> Hx]. split; [done|]. split; [lia|]. intros [?|Hd]; [lia|].
      apply (apart_den (cs, ce)) in Hd; [simpl in Hd; lia|done].
    + intros (-> & Hx & Hn). split; [done|]. lia.
  - wsimp. destruct (IH (ce + 1)) as (I1 & I2 & I3); [lia|done|done| |].
    { rewrite Forall_forall in Hap, Hok' |- *. intros c Hcin. specialize (Hap c Hcin).
      specialize (Hok' c Hcin). unfold apart, cut_ok in *. simpl in *. lia. }
    split; [|split].
    + apply canon_app. split; [done|]. split; [done|]. intros a b Ha Hb.
      rewrite Forall_forall in G2, G3, I2. destruct (G2 a Ha) as (_ & Ea & _).
      specialize (G3 a Ha). destruct (I2 b Hb) as (_ & Eb & Hb' & _). right. lia.
    + apply Forall_app. split; [done|]. eapply Forall_impl; [exact I2|].
      intros p. apply piece_of_weaken. lia.
    + intros g x. rewrite den_app, G4, I3, den_cons. unfold iv_in. simpl. split.
      * intros [[-> Hx]|(-> & Hx & Hn)].
        -- split; [done|]. split; [lia|]. intros [?|Hd]; [lia|].
           apply (apart_den (cs, ce)) in Hd; [simpl in Hd; lia|done].
        -- split; [done|]. split; [lia|]. intros [?|Hd]; [lia|done].
      * intros (-> & Hx & Hn). destruct (Z.lt_ge_cases x cs); [left; lia|]. right.
        split; [done|]. split; [lia|]. tauto.
Qed.

Lemma skip_left_spec start cuts :
  canon cuts -> Forall cut_ok cuts ->
  canon (skip_left start cuts) /\ Forall cut_ok (skip_left start cuts) /\
  Forall (fun c => start <= c.2) (skip_left start cuts) /\
  forall x, start <= x -> den (skip_left start cuts) 0 x <-> den cuts 0 x.
Proof.
  induction cuts as [|c cuts IH]; intros Hcan Hok; cbn [skip_left]; [by auto|].
  apply canon_cons in Hcan as (Hap & Hv & Hcan). inversion Hok; subst.
  destruct (Z.ltb_spec c.2 start).
  - destruct IH as (I1 & I2 & I3 & I4); [done..|]. split; [done|]. split; [done|].
    split; [done|]. intros x Hx. rewrite I4, den_cons by done. unfold iv_in. simpl.
    split; [tauto|]. intros [?|?]; [lia|done].
  - split; [by apply canon_cons|]. split; [done|]. split; [|done].
    constructor; [done|]. rewrite Forall_forall in Hap |- *. intros d Hd.
    specialize (Hap d Hd). match goal with Hf : Forall cut_ok cuts |- _ => rewrite Forall_forall in Hf; specialize (Hf d Hd) end.
    unfold apart, cut_ok in *. simpl in *. lia.
Qed.

Lemma subtract_run_spec run cuts g :
  canon run -> Forall good run -> Forall (fun r => grp r = g) run ->
  canon cuts -> Forall cut_ok cuts ->
  let m := subtract_run bounds rebuild run cuts in
  canon m /\ Forall good m /\
  (forall p, p ∈ m -> exists r, r ∈ run /\ piece_of r (lo r) p) /\
  forall h x, den m h x <-> den run h x /\ ~ den cuts 0 x.
Proof.
  revert cuts. induction run as [|r run IH]; intros cuts Hcan Hgood Hg Hcc Hco; cbn [subtract_run].
  { split; [done|]. split; [done|]. split; [set_solver|]. intros h x. rewrite den_nil. tauto. }
  apply canon_cons in Hcan as (Hap & Hv & Hcan).
  inversion Hgood as [|? ? Hr Hgood']; inversion Hg as [|? ? Er Hg']; subst.
  rewrite bounds_spec. destruct (skip_left_spec (lo r) cuts Hcc Hco) as (S1 & S2 & S3 & S4).
  destruct (cut_range_spec r (lo r) (skip_left (lo r) cuts)) as (C1 & C2 & C3);
    [done|unfold iv_valid in Hv; lia|done..|].
  destruct (IH (skip_left (lo r) cuts)) as (I1 & I2 & I3 & I4); [done..|].
  assert (forall h x, den run h x -> lo r <= x) as Hright.
  { intros h x (s & Hs & _ & Hx). rewrite Forall_forall in Hap, Hg'.
    specialize (Hap s Hs). specialize (Hg' s Hs). unfold apart, iv_valid in *. lia. }
  rewrite Forall_forall in C2, Hap.
  split; [|split; [|split]].
  - apply canon_app. split; [done|]. split; [done|]. intros a b Ha Hb.
    destruct (C2 a Ha) as (_ & Ea & Ha1 & Ha2 & Ha3).
    destruct (I3 b Hb) as (s & Hs & _ & Eb & Hb1 & Hb2 & Hb3).
    specialize (Hap s Hs). unfold apart in *. lia.
  - apply Forall_app. split; [|done]. apply Forall_forall. intros p Hp. by destruct (C2 p Hp).
  - intros p [Hp|Hp]%elem_of_app.
    + exists r. split; [left|]. by apply C2.
    + destruct (I3 p Hp) as (s & Hs & Hps). exists s. split; [by right|done].
  - intros h x. rewrite den_app, C3, I4, den_cons. unfold iv_in. split.
    + intros [(Eh & Hx & Hn)|(Hd & Hn)].
      * split; [tauto|]. by rewrite S4 in Hn by lia.
      * split; [tauto|]. rewrite S4 in Hn; [done|]. by eapply Hright.
    + intros [[Hin|Hd] Hn].
      * left. split; [tauto|]. split; [tauto|]. by rewrite S4 by lia.
      * right. split; [done|]. rewrite S4; [done|]. by eapply Hright.
Qed.
End Spec.
