(* ===== verification/IpSet.v ===== *)
(** * Address sets

    [src/src/model/ip/set.rs], [IpSet]: two vectors of ranges, one per family,
    merged lazily behind a dirty flag each.  The invariant [ipset_ok] says what a
    clear flag promises; every operation keeps it, and every query is shown to
    answer for the addresses the ranges hold, merged or not.  An abstract set of
    addresses is refined by any sequence of the mutating operations. *)

From Stdlib Require Import ZArith Lia.
From stdpp Require Import base numbers sets sorting option list.
From S2P Require Import Prelude Std Intervals IpRange Subtract.

Local Open Scope Z_scope.

(** ** Definitions *)

Record IpSet := mkIpSet {
  ips_v4 : list Ipv4Range;
  ips_v6 : list Ipv6Range;
  v4_dirty : bool;
  v6_dirty : bool;
}.

Definition ipset_new : IpSet := mkIpSet [] [] false false.

Definition push_v4_range (s : IpSet) (range : Ipv4Range) : IpSet :=
  mkIpSet (ips_v4 s ++ [range]) (ips_v6 s) true (v6_dirty s).

Definition push_v6_range (s : IpSet) (range : Ipv6Range) : IpSet :=
  mkIpSet (ips_v4 s) (ips_v6 s ++ [range]) (v4_dirty s) true.

Definition ipset_insert (s : IpSet) (ip : IpAddr) : IpSet :=
  match ip with
  | V4 v4 => push_v4_range s (v4_single v4)
  | V6 v6 => push_v6_range s (v6_single v6)
  end.

Definition insert_range (s : IpSet) (range : IpRange) : IpSet :=
  match range with
  | RV4 r => push_v4_range s r
  | RV6 r => push_v6_range s r
  end.

(** *** Merging *)

Definition v4_joins (current next : Ipv4Range) : bool :=
  v4_start next <=? sat_add 32 (v4_end current) 1.

Definition v4_absorb (current next : Ipv4Range) : Ipv4Range :=
  v4_extend_end_to current (v4_end next).

Definition v4_key_le (a b : Ipv4Range) : bool := v4_start a <=? v4_start b.

(** Called on a non-empty vector, which [self.v4[0]] relies on. *)
Definition merge_v4 (l : list Ipv4Range) : list Ipv4Range :=
  match sort_by v4_key_le l with
  | [] => []
  | current :: rest => coalesce v4_joins v4_absorb current rest
  end.

Definition v6_joins (current next : Ipv6Range) : bool :=
  bool_decide (v6_zone next = v6_zone current) &&
  (v6_start next <=? sat_add 128 (v6_end current) 1).

Definition v6_absorb (current next : Ipv6Range) : Ipv6Range :=
  v6_extend_end_to current (v6_end next).

(** The order of the key [(zone, start_addr)]. *)
Definition v6_key_le (a b : Ipv6Range) : bool :=
  (zone_rank (v6_zone a) <? zone_rank (v6_zone b)) ||
  ((zone_rank (v6_zone a) =? zone_rank (v6_zone b)) && (v6_start a <=? v6_start b)).

Definition merge_v6 (l : list Ipv6Range) : list Ipv6Range :=
  match sort_by v6_key_le l with
  | [] => []
  | current :: rest => coalesce v6_joins v6_absorb current rest
  end.

Definition is_nil {A} (l : list A) : bool := match l with [] => true | _ => false end.

Definition canonicalize (s : IpSet) : IpSet :=
  let v4 :=
    if v4_dirty s then (if is_nil (ips_v4 s) then ips_v4 s else merge_v4 (ips_v4 s))
    else ips_v4 s in
  let v6 :=
    if v6_dirty s then (if is_nil (ips_v6 s) then ips_v6 s else merge_v6 (ips_v6 s))
    else ips_v6 s in
  mkIpSet v4 v6 false false.

Definition ipset_is_empty (s : IpSet) : bool := is_nil (ips_v4 s) && is_nil (ips_v6 s).

(** *** Runs of one interface *)

Fixpoint v6_runs_from (fuel : nat) (rest : list Ipv6Range) : list (list Ipv6Range) :=
  match fuel, rest with
  | S fuel, first :: _ =>
      let zone := v6_zone first in
      let at_ := partition_point (fun r => bool_decide (v6_zone r = zone)) rest in
      take at_ rest :: v6_runs_from fuel (drop at_ rest)
  | _, _ => []
  end.

(** Each run of a merged vector is non-empty, so its length bounds their number. *)
Definition v6_runs (v6 : list Ipv6Range) : list (list Ipv6Range) :=
  v6_runs_from (length v6) v6.

(** *** Set arithmetic *)

Definition v4_bounds (r : Ipv4Range) : Z * Z := (v4_start r, v4_end r).

Definition v6_bounds (r : Ipv6Range) : Z * Z := (v6_start r, v6_end r).

(** A narrowed range, where the source has [unreachable!] in the other arm. *)
Definition v4_rebuild (r : Ipv4Range) (start stop : Z) : Ipv4Range :=
  match v4_new (wrap 32 start) (wrap 32 stop) with Ok r => r | Err _ => r end.

Definition v6_rebuild (r : Ipv6Range) (start stop : Z) : Ipv6Range :=
  match v6_scoped start stop (v6_zone r) with Ok r => r | Err _ => r end.

Definition subtract (s other : IpSet) : IpSet :=
  if ipset_is_empty other || ipset_is_empty s then s
  else
    let s := canonicalize s in
    let v4 :=
      if is_nil (ips_v4 s) then ips_v4 s
      else
        let cuts := merged_intervals (v4_bounds <$> ips_v4 other) in
        if is_nil cuts then ips_v4 s
        else subtract_run v4_bounds v4_rebuild (ips_v4 s) cuts in
    let v6 :=
      if is_nil (ips_v6 s) then ips_v6 s
      else
        let cuts := merged_intervals (v6_bounds <$> ips_v6 other) in
        if is_nil cuts then ips_v6 s
        else v6_runs (ips_v6 s) ≫= (fun run => subtract_run v6_bounds v6_rebuild run cuts) in
    mkIpSet v4 v6 (v4_dirty s) (v6_dirty s).

(** *** Queries *)

Definition range_cmp {R} (bounds : R -> Z * Z) (target : Z) (range : R) : comparison :=
  let '(start, stop) := bounds range in
  if target <? start then Gt else if stop <? target then Lt else Eq.

Definition holds {R} (ranges : list R) (target : Z) (bounds : R -> Z * Z) : bool :=
  is_ok (binary_search_by (range_cmp bounds target) ranges).

Definition is_merged (s : IpSet) (ip : IpAddr) : bool :=
  match ip with V4 _ => negb (v4_dirty s) | V6 _ => negb (v6_dirty s) end.

Definition contains_canonical (s : IpSet) (ip : IpAddr) : bool :=
  match ip with
  | V4 v4 => holds (ips_v4 s) v4 v4_bounds
  | V6 v6 => existsb (fun run => holds run v6 v6_bounds) (v6_runs (ips_v6 s))
  end.

Definition contains (s : IpSet) (ip : IpAddr) : bool :=
  if is_merged s ip then contains_canonical s ip
  else
    match ip with
    | V4 v4 => existsb (fun range => v4_contains range v4) (ips_v4 s)
    | V6 v6 => existsb (fun range => v6_contains range v6) (ips_v6 s)
    end.

Definition v4_len (s : IpSet) : Z :=
  fold_left (fun total r => sat_add 128 total (v4_range_len r)) (ips_v4 s) 0.

Definition v6_len (s : IpSet) : Z :=
  fold_left (fun total r => sat_add 128 total (v6_range_len r)) (ips_v6 s) 0.

Definition len_gross (s : IpSet) : Z := sat_add 128 (v4_len s) (v6_len s).

Definition len_canonical (s : IpSet) : Z := sat_add 128 (v4_len s) (v6_len s).

(** The merged set a query reads: a merged clone when a flag is up. *)
Definition merged (s : IpSet) : IpSet :=
  if v4_dirty s || v6_dirty s then canonicalize s else s.

Definition ipset_len (s : IpSet) : Z :=
  if negb (v4_dirty s) && negb (v6_dirty s) then len_canonical s
  else len_canonical (canonicalize s).

Definition ipset_into_iter (s : IpSet) : list IpAddr :=
  let s := canonicalize s in
  (ips_v4 s ≫= v4_range_iter) ++ (ips_v6 s ≫= v6_range_iter).

Definition ipset_iter (s : IpSet) : list IpAddr :=
  if v4_dirty s || v6_dirty s then ipset_into_iter (canonicalize s)
  else (ips_v4 s ≫= v4_range_iter) ++ (ips_v6 s ≫= v6_range_iter).

Definition iter_scoped (s : IpSet) : list (IpAddr * option Z) :=
  let s := merged s in
  (ips_v4 s ≫= fun range => (fun ip => (ip, None)) <$> v4_range_iter range) ++
  (ips_v6 s ≫= fun range => (fun ip => (ip, v6_zone range)) <$> v6_range_iter range).

(** [PartialEq::eq]. *)
Definition ipset_eq (a b : IpSet) : bool :=
  let this := merged a in
  let that := merged b in
  bool_decide (ips_v4 this = ips_v4 that) && bool_decide (ips_v6 this = ips_v6 that).

(** *** Conversions *)

Definition ipset_extend (s : IpSet) (ips : list IpAddr) : IpSet := fold_left ipset_insert ips s.

Definition from_addrs (ips : list IpAddr) : IpSet :=
  canonicalize (ipset_extend ipset_new ips).

Definition from_ranges (ranges : list IpRange) : IpSet :=
  canonicalize (fold_left insert_range ranges ipset_new).

Definition absorb_set (master s : IpSet) : IpSet :=
  let master :=
    if is_nil (ips_v4 s) then master
    else mkIpSet (ips_v4 master ++ ips_v4 s) (ips_v6 master) true (v6_dirty master) in
  if is_nil (ips_v6 s) then master
  else mkIpSet (ips_v4 master) (ips_v6 master ++ ips_v6 s) (v4_dirty master) true.

Definition from_sets (sets : list IpSet) : IpSet :=
  canonicalize (fold_left absorb_set sets ipset_new).

(** ** The invariant, and what a set denotes *)

Definition ipset_ok (s : IpSet) : Prop :=
  Forall v4_ok (ips_v4 s) /\ Forall v6_ok (ips_v6 s) /\
  (v4_dirty s = false -> canon (ips_v4 s)) /\
  (v6_dirty s = false -> canon (ips_v6 s)).

(** The address [ip] is held, on interface [zone]. *)
Definition holds_at (s : IpSet) (ip : IpAddr) (zone : option Z) : Prop :=
  match ip with
  | V4 x => zone = None /\ den (ips_v4 s) 0 x
  | V6 x => exists r, r ∈ ips_v6 s /\ v6_zone r = zone /\ v6_start r <= x <= v6_end r
  end.

(** The address [ip] is held, on any interface. *)
Definition member (s : IpSet) (ip : IpAddr) : Prop := exists zone, holds_at s ip zone.

(** ** Merging establishes the canonical form *)

Lemma v4_ok_valid l : Forall v4_ok l -> Forall iv_valid l.
Proof. intros H. eapply Forall_impl; [exact H|]. unfold v4_ok, iv_valid. simpl. lia. Qed.

Lemma v6_ok_valid l : Forall v6_ok l -> Forall iv_valid l.
Proof. intros H. eapply Forall_impl; [exact H|]. unfold v6_ok, iv_valid. simpl. lia. Qed.

#[export] Hint Resolve v4_ok_valid v6_ok_valid : word.

Lemma v4_sort_key_le l : StronglySorted key_le (sort_by v4_key_le l).
Proof.
  assert (StronglySorted (fun a b => v4_key_le a b = true) (sort_by v4_key_le l)) as Hs.
  { apply sort_by_sorted; unfold v4_key_le; lia. }
  eapply sorted_weaken; [|exact Hs]. intros a b _ _. unfold v4_key_le, key_le. simpl. lia.
Qed.

Lemma v6_sort_key_le l : StronglySorted key_le (sort_by v6_key_le l).
Proof.
  assert (StronglySorted (fun a b => v6_key_le a b = true) (sort_by v6_key_le l)) as Hs.
  { apply sort_by_sorted; unfold v6_key_le; lia. }
  eapply sorted_weaken; [|exact Hs]. intros a b _ _. unfold v6_key_le, key_le. simpl. lia.
Qed.

Lemma merge_v4_spec l :
  Forall v4_ok l ->
  canon (merge_v4 l) /\ Forall v4_ok (merge_v4 l) /\
  forall g x, den (merge_v4 l) g x <-> den l g x.
Proof.
  intros Hl. unfold merge_v4.
  assert (Forall v4_ok (sort_by v4_key_le l)) as Hok by (by rewrite sort_by_perm).
  pose proof (v4_sort_key_le l) as Hs.
  assert (forall g x, den (sort_by v4_key_le l) g x <-> den l g x) as Hden
    by (intros; apply den_perm, sort_by_perm).
  destruct (sort_by v4_key_le l) as [|c rest]; [auto|].
  pose proof (v4_ok_valid _ Hok) as Hv. inversion Hok; inversion Hv; subst.
  destruct (coalesce_spec v4_joins v4_absorb v4_ok) with (c := c) (rest := rest)
    as (M1 & M2 & _ & M4); [..|done|done|done|done|done|].
  - unfold v4_joins, v4_ok. simpl. intros. rewrite Z.leb_le. mlia.
  - unfold v4_joins, v4_absorb, v4_extend_end_to, v4_ok. simpl. intros c' n' ? ? _.
    destruct (Z.ltb_spec (v4_end c') (v4_end n')); simpl; repeat split; lia.
  - split; [done|]. split; [done|]. intros g x. by rewrite M4.
Qed.

Lemma v6_zone_grp a b : v6_ok a -> v6_ok b -> v6_zone a = v6_zone b <-> grp a = grp b.
Proof.
  intros (_ & _ & _ & Ha) (_ & _ & _ & Hb). simpl.
  split; [by intros ->|]. by apply zone_rank_inj.
Qed.

Lemma merge_v6_spec l :
  Forall v6_ok l ->
  canon (merge_v6 l) /\ Forall v6_ok (merge_v6 l) /\
  forall g x, den (merge_v6 l) g x <-> den l g x.
Proof.
  intros Hl. unfold merge_v6.
  assert (Forall v6_ok (sort_by v6_key_le l)) as Hok by (by rewrite sort_by_perm).
  pose proof (v6_sort_key_le l) as Hs.
  assert (forall g x, den (sort_by v6_key_le l) g x <-> den l g x) as Hden
    by (intros; apply den_perm, sort_by_perm).
  destruct (sort_by v6_key_le l) as [|c rest]; [auto|].
  pose proof (v6_ok_valid _ Hok) as Hv. inversion Hok; inversion Hv; subst.
  destruct (coalesce_spec v6_joins v6_absorb v6_ok) with (c := c) (rest := rest)
    as (M1 & M2 & _ & M4); [..|done|done|done|done|done|].
  - intros a b Ha Hb. unfold v6_joins.
    rewrite andb_true_iff, bool_decide_eq_true, (v6_zone_grp b a), Z.leb_le by done.
    unfold v6_ok in *. simpl. mlia.
  - unfold v6_absorb, v6_extend_end_to, v6_ok. simpl. intros c' n' ? ? _.
    destruct (Z.ltb_spec (v6_end c') (v6_end n')); simpl; repeat split; try lia; tauto.
  - split; [done|]. split; [done|]. intros g x. by rewrite M4.
Qed.

(** ** Canonicalising *)

Lemma v6_ok_zone r : v6_ok r -> zone_ok (v6_zone r).
Proof. by intros (_ & _ & _ & ?). Qed.

Lemma holds_at_v6 s x zone :
  Forall v6_ok (ips_v6 s) -> zone_ok zone ->
  holds_at s (V6 x) zone <-> den (ips_v6 s) (zone_rank zone) x.
Proof.
  intros Hok Hz. simpl. unfold den, iv_in. simpl. rewrite Forall_forall in Hok.
  split; intros (r & Hr & E & Hx); exists r; (split; [done|]); (split; [|done]).
  - by rewrite E.
  - apply zone_rank_inj; [|done|done]. by apply v6_ok_zone, Hok.
Qed.

Lemma holds_at_zone_ok s ip zone : ipset_ok s -> holds_at s ip zone -> zone_ok zone.
Proof.
  intros (_ & Hok & _). destruct ip; simpl; [by intros [-> _]|].
  intros (r & Hr & <- & _). rewrite Forall_forall in Hok. by apply v6_ok_zone, Hok.
Qed.

Lemma member_den_v6 s x : member s (V6 x) <-> exists g, den (ips_v6 s) g x.
Proof.
  unfold member, den, iv_in. simpl. split.
  - intros (zone & r & Hr & E & Hx). by exists (zone_rank (v6_zone r)), r.
  - intros (g & r & Hr & E & Hx). by exists (v6_zone r), r.
Qed.

Lemma member_den_v4 s x : member s (V4 x) <-> den (ips_v4 s) 0 x.
Proof. unfold member. simpl. naive_solver. Qed.

Lemma canonicalize_v4_spec s :
  ipset_ok s ->
  canon (ips_v4 (canonicalize s)) /\ Forall v4_ok (ips_v4 (canonicalize s)) /\
  forall g x, den (ips_v4 (canonicalize s)) g x <-> den (ips_v4 s) g x.
Proof.
  intros (H4 & _ & Hc & _). cbn [canonicalize ips_v4].
  destruct (v4_dirty s); [|auto]. destruct (ips_v4 s) as [|r l]; [by auto|].
  cbn [is_nil]. by apply merge_v4_spec.
Qed.

Lemma canonicalize_v6_spec s :
  ipset_ok s ->
  canon (ips_v6 (canonicalize s)) /\ Forall v6_ok (ips_v6 (canonicalize s)) /\
  forall g x, den (ips_v6 (canonicalize s)) g x <-> den (ips_v6 s) g x.
Proof.
  intros (_ & H6 & _ & Hc). cbn [canonicalize ips_v6].
  destruct (v6_dirty s); [|auto]. destruct (ips_v6 s) as [|r l]; [by auto|].
  cbn [is_nil]. by apply merge_v6_spec.
Qed.

(** A set both of whose vectors are merged. *)
Definition ipset_canon (s : IpSet) : Prop :=
  ipset_ok s /\ v4_dirty s = false /\ v6_dirty s = false.

Lemma canonicalize_canon s : ipset_ok s -> ipset_canon (canonicalize s).
Proof.
  intros Hs. destruct (canonicalize_v4_spec s Hs) as (? & ? & _).
  destruct (canonicalize_v6_spec s Hs) as (? & ? & _).
  split; [|done]. by split_and!.
Qed.

Lemma canonicalize_holds_at s ip zone :
  ipset_ok s -> holds_at (canonicalize s) ip zone <-> holds_at s ip zone.
Proof.
  intros Hs. destruct ip as [x|x].
  - simpl holds_at. by rewrite (proj2 (proj2 (canonicalize_v4_spec s Hs))).
  - assert (forall t, ipset_ok t -> holds_at t (V6 x) zone <->
      zone_ok zone /\ den (ips_v6 t) (zone_rank zone) x) as E.
    { intros t Ht. split.
      - intros H. pose proof (holds_at_zone_ok t _ _ Ht H) as Hz.
        split; [done|]. apply holds_at_v6 in H; [done|apply Ht|done].
      - intros [Hz H]. apply holds_at_v6; [apply Ht|done|done]. }
    rewrite !E by (try done; by apply canonicalize_canon).
    by rewrite (proj2 (proj2 (canonicalize_v6_spec s Hs))).
Qed.

Lemma canonicalize_member s ip : ipset_ok s -> member (canonicalize s) ip <-> member s ip.
Proof. intros Hs. unfold member. by setoid_rewrite canonicalize_holds_at. Qed.

Lemma merged_canon s : ipset_ok s -> ipset_canon (merged s).
Proof.
  intros Hs. unfold merged. destruct (v4_dirty s) eqn:E4; [by apply canonicalize_canon|].
  destruct (v6_dirty s) eqn:E6; [by apply canonicalize_canon|]. by split.
Qed.

Lemma merged_holds_at s ip zone : ipset_ok s -> holds_at (merged s) ip zone <-> holds_at s ip zone.
Proof.
  intros Hs. unfold merged. destruct (_ || _); [|done]. by apply canonicalize_holds_at.
Qed.

(** ** The runs of a merged IPv6 vector *)

Lemma canon_grp_le (l : list Ipv6Range) i j a b :
  canon l -> (i <= j)%nat -> l !! i = Some a -> l !! j = Some b -> grp a <= grp b.
Proof.
  intros [Hs _] Hij Hi Hj. destruct (decide (i = j)) as [->|]; [simplify_eq; lia|].
  pose proof (StronglySorted_lookup _ _ i j a b Hs ltac:(lia) Hi Hj) as H. unfold apart in H. lia.
Qed.

Lemma first_zone_prefix first l :
  canon (first :: l) -> Forall v6_ok (first :: l) ->
  StronglySorted (fun x y => bool_decide (v6_zone y = v6_zone first) = true ->
                             bool_decide (v6_zone x = v6_zone first) = true) (first :: l).
Proof.
  intros [Hs Hv] Hok. rewrite Forall_forall in Hok.
  assert (forall x, x ∈ first :: l -> grp first <= grp x) as Hmin.
  { intros x (i & Hi)%list_elem_of_lookup. by apply (canon_grp_le (first :: l) 0 i); [|lia|..]. }
  eapply sorted_weaken; [|exact Hs]. intros x y Hx Hy Hap. rewrite !bool_decide_eq_true.
  assert (first ∈ first :: l) as Hf by left.
  rewrite !v6_zone_grp by auto. intros E. specialize (Hmin x Hx). unfold apart in Hap. lia.
Qed.

(** What the runs of a vector are. *)
Definition runs_of (runs : list (list Ipv6Range)) (l : list Ipv6Range) : Prop :=
  concat runs = l /\
  Forall (fun run => run <> [] /\ canon run /\ exists g, Forall (fun r => grp r = g) run) runs.

Lemma v6_runs_from_spec fuel l :
  (length l <= fuel)%nat -> canon l -> Forall v6_ok l -> runs_of (v6_runs_from fuel l) l.
Proof.
  revert l. induction fuel as [|fuel IH]; intros l Hlen Hcan Hok.
  { destruct l; simpl in *; [by split; [|constructor]|lia]. }
  destruct l as [|first l]; [by split; [|constructor]|]. cbn [v6_runs_from].
  destruct (partition_point_spec _ _ (first_zone_prefix first l Hcan Hok)) as (P1 & P2 & P3).
  set (n := partition_point _ _) in *.
  assert (1 <= n)%nat as Hn.
  { destruct (Nat.lt_ge_cases n 1) as [Hlt|]; [|done].
    specialize (P3 0%nat first ltac:(lia) eq_refl). by rewrite bool_decide_eq_false in P3. }
  pose proof (take_drop n (first :: l)) as Etd.
  rewrite <- Etd in Hcan. apply canon_app in Hcan as (Hc1 & Hc2 & _).
  assert (Forall v6_ok (drop n (first :: l))) as Hok2 by by apply Forall_drop.
  destruct (IH (drop n (first :: l))) as [I1 I2]; [|done..|].
  { rewrite length_drop. simpl in *. lia. }
  split; [cbn [concat]; rewrite I1; exact Etd|]. constructor; [|done].
  split; [destruct n; [lia|done]|]. split; [done|]. exists (grp first).
  apply Forall_forall. intros r Hr. pose proof Hr as (i & Hi)%list_elem_of_lookup.
  apply lookup_take_Some in Hi as [Hi Hin]. specialize (P2 i r Hin Hi).
  rewrite bool_decide_eq_true in P2. simpl. by rewrite P2.
Qed.

Lemma v6_runs_spec l : canon l -> Forall v6_ok l -> runs_of (v6_runs l) l.
Proof. intros. by apply v6_runs_from_spec. Qed.

(** ** Membership *)

Lemma range_cmp_place {R} `{Interval R} (bounds : R -> Z * Z) target r :
  bounds r = (lo r, hi r) -> range_cmp bounds target r = place target r.
Proof. intros E. unfold range_cmp. by rewrite E. Qed.

Lemma v4_holds_spec l x : canon l -> holds l x v4_bounds = true <-> den l 0 x.
Proof. intros Hc. apply (search_den x l 0 Hc). by apply Forall_true. Qed.

Lemma v6_holds_spec l x :
  canon l -> Forall v6_ok l ->
  existsb (fun run => holds run x v6_bounds) (v6_runs l) = true <-> exists g, den l g x.
Proof.
  intros Hc Hok. destruct (v6_runs_spec l Hc Hok) as [E Hruns].
  rewrite existsb_elem, Forall_forall in *. split.
  - intros (run & Hin & Hh). destruct (Hruns run Hin) as (_ & Hcr & g & Hg).
    apply (search_den x run g Hcr Hg) in Hh as (r & Hr & Hx).
    exists g, r. split; [|done]. rewrite <- E. apply elem_of_concat. by exists run.
  - intros (g & r & Hr & Hx). rewrite <- E in Hr.
    apply elem_of_concat in Hr as (run & Hin & Hr).
    exists run. split; [done|]. destruct (Hruns run Hin) as (_ & Hcr & g' & Hg).
    apply (search_den x run g' Hcr Hg). exists r. split; [done|].
    rewrite Forall_forall in Hg. destruct Hx. split; [by apply Hg|done].
Qed.

Lemma v4_linear_spec l x :
  existsb (fun range => v4_contains range x) l = true <-> den l 0 x.
Proof.
  rewrite existsb_elem. setoid_rewrite v4_contains_spec.
  unfold den, iv_in. simpl. naive_solver.
Qed.

Lemma v6_linear_spec l x :
  existsb (fun range => v6_contains range x) l = true <-> exists g, den l g x.
Proof.
  rewrite existsb_elem. setoid_rewrite v6_contains_spec.
  unfold den, iv_in. simpl. naive_solver.
Qed.

Lemma contains_member s ip : ipset_ok s -> contains s ip = true <-> member s ip.
Proof.
  intros (H4 & H6 & Hc4 & Hc6). unfold contains. destruct ip as [x|x]; cbn [is_merged].
  - rewrite member_den_v4. destruct (v4_dirty s); cbn [negb].
    + apply v4_linear_spec.
    + by apply v4_holds_spec, Hc4.
  - rewrite member_den_v6. destruct (v6_dirty s); cbn [negb].
    + apply v6_linear_spec.
    + apply v6_holds_spec; [by apply Hc6|done].
Qed.

(** ** Subtraction *)

Lemma cuts_v4_spec l :
  Forall v4_ok l ->
  canon (merged_intervals (v4_bounds <$> l)) /\
  Forall cut_ok (merged_intervals (v4_bounds <$> l)) /\
  forall x, den (merged_intervals (v4_bounds <$> l)) 0 x <-> den l 0 x.
Proof.
  intros Hl. destruct (merged_intervals_spec (v4_bounds <$> l)) as (H1 & H2 & H3).
  { apply Forall_fmap. eapply Forall_impl; [exact Hl|].
    unfold v4_ok, cut_ok. simpl. intros r Hr. mlia. }
  split; [done|]. split; [done|]. intros x. rewrite H3. unfold den, iv_in.
  setoid_rewrite list_elem_of_fmap. naive_solver.
Qed.

Lemma cuts_v6_spec l :
  Forall v6_ok l ->
  canon (merged_intervals (v6_bounds <$> l)) /\
  Forall cut_ok (merged_intervals (v6_bounds <$> l)) /\
  forall x, den (merged_intervals (v6_bounds <$> l)) 0 x <-> exists g, den l g x.
Proof.
  intros Hl. destruct (merged_intervals_spec (v6_bounds <$> l)) as (H1 & H2 & H3).
  { apply Forall_fmap. eapply Forall_impl; [exact Hl|].
    unfold v6_ok, cut_ok. simpl. intros r Hr. lia. }
  split; [done|]. split; [done|]. intros x. rewrite H3. unfold den, iv_in.
  setoid_rewrite list_elem_of_fmap. naive_solver.
Qed.

Lemma v4_rebuild_spec r s e :
  v4_ok r -> lo r <= s -> s <= e -> e <= hi r ->
  v4_ok (v4_rebuild r s e) /\ grp (v4_rebuild r s e) = grp r /\
  lo (v4_rebuild r s e) = s /\ hi (v4_rebuild r s e) = e.
Proof.
  unfold v4_ok. simpl. intros (H1 & H2 & H3) H4 H5 H6. unfold v4_rebuild, v4_new. wsimp.
  rewrite (proj2 (Z.leb_le s e)) by done. simpl. repeat split; lia.
Qed.

Lemma v6_rebuild_spec r s e :
  v6_ok r -> lo r <= s -> s <= e -> e <= hi r ->
  v6_ok (v6_rebuild r s e) /\ grp (v6_rebuild r s e) = grp r /\
  lo (v6_rebuild r s e) = s /\ hi (v6_rebuild r s e) = e.
Proof.
  unfold v6_ok. simpl. intros (H1 & H2 & H3 & Hz) H4 H5 H6. unfold v6_rebuild, v6_scoped.
  rewrite (proj2 (Z.leb_le s e)) by done.
  assert (option_filter (fun i => negb (i =? 0)) (v6_zone r) = v6_zone r) as E.
  { destruct (v6_zone r) as [i|]; simpl in *; [|done].
    by rewrite (proj2 (Z.eqb_neq i 0)) by lia. }
  rewrite E. simpl. repeat split; try lia. done.
Qed.

Definition cut_v6 (cuts : list (Z * Z)) (run : list Ipv6Range) : list Ipv6Range :=
  subtract_run v6_bounds v6_rebuild run cuts.

(** Cutting every run of a merged vector. *)
Lemma subtract_runs_spec runs cuts :
  canon (concat runs) -> Forall v6_ok (concat runs) ->
  Forall (fun run => run <> [] /\ canon run /\ exists g, Forall (fun r => grp r = g) run) runs ->
  canon cuts -> Forall cut_ok cuts ->
  canon (runs ≫= cut_v6 cuts) /\ Forall v6_ok (runs ≫= cut_v6 cuts) /\
  (forall p, p ∈ runs ≫= cut_v6 cuts -> exists r, r ∈ concat runs /\ piece_of v6_ok r (lo r) p) /\
  forall h x, den (runs ≫= cut_v6 cuts) h x <-> den (concat runs) h x /\ ~ den cuts 0 x.
Proof.
  intros Hcan Hok Hruns Hcc Hco. induction runs as [|run runs IH].
  { split; [done|]. split; [done|]. split; [by intros p ?%elem_of_nil|].
    intros h x. simpl. rewrite den_nil. tauto. }
  cbn [concat] in *. apply canon_app in Hcan as (Hc1 & Hc2 & Hap).
  apply Forall_app in Hok as [Hok1 Hok2].
  inversion Hruns as [|? ? (_ & _ & g & Hg) Hruns']; subst.
  destruct IH as (I1 & I2 & I3 & I4); [done..|].
  destruct (subtract_run_spec v6_bounds v6_rebuild v6_ok) with (run := run) (cuts := cuts) (g := g)
    as (S1 & S2 & S3 & S4); [done| |apply v6_rebuild_spec|done..|].
  { unfold v6_ok. simpl. lia. }
  fold (cut_v6 cuts run) in *. rewrite bind_cons.
  split; [|split; [|split]].
  - apply canon_app. split; [done|]. split; [done|]. intros a b Ha Hb.
    destruct (S3 a Ha) as (r & Hr & Hpa). destruct (I3 b Hb) as (t & Ht & Hpb).
    specialize (Hap r t Hr Ht). unfold piece_of, apart in *. lia.
  - by apply Forall_app.
  - intros p [Hp|Hp]%elem_of_app.
    + destruct (S3 p Hp) as (r & Hr & Hpr). exists r. split; [|done]. apply elem_of_app. by left.
    + destruct (I3 p Hp) as (r & Hr & Hpr). exists r. split; [|done]. apply elem_of_app. by right.
  - intros h x. rewrite !den_app, S4, I4. tauto.
Qed.

Lemma is_nil_spec {A} (l : list A) : is_nil l = true <-> l = [].
Proof. by destruct l. Qed.

Lemma empty_no_member s : ipset_is_empty s = true -> forall ip, ~ member s ip.
Proof.
  unfold ipset_is_empty. rewrite andb_true_iff, !is_nil_spec. intros [E4 E6] [x|x].
  - rewrite member_den_v4, E4. intros Hd. by apply den_nil in Hd.
  - rewrite member_den_v6, E6. intros [g Hg]. by apply den_nil in Hg.
Qed.

Lemma subtract_v4_spec s other :
  ipset_ok s -> ipset_ok other -> ipset_is_empty other || ipset_is_empty s = false ->
  canon (ips_v4 (subtract s other)) /\ Forall v4_ok (ips_v4 (subtract s other)) /\
  forall x, den (ips_v4 (subtract s other)) 0 x <->
            den (ips_v4 s) 0 x /\ ~ den (ips_v4 other) 0 x.
Proof.
  intros Hs (Ho & _) E. unfold subtract. rewrite E. cbn [ips_v4].
  destruct (canonicalize_v4_spec s Hs) as (C1 & C2 & C3). setoid_rewrite <- C3.
  set (l := ips_v4 (canonicalize s)) in *. clearbody l.
  destruct (is_nil l) eqn:En.
  { apply is_nil_spec in En as ->. split; [done|]. split; [done|].
    intros x. rewrite den_nil. tauto. }
  destruct (cuts_v4_spec (ips_v4 other) Ho) as (K1 & K2 & K3). setoid_rewrite <- K3.
  destruct (is_nil (merged_intervals _)) eqn:Ec.
  { apply is_nil_spec in Ec as ->. split; [done|]. split; [done|].
    intros x. rewrite den_nil. tauto. }
  destruct (subtract_run_spec v4_bounds v4_rebuild v4_ok) with
    (run := l) (cuts := merged_intervals (v4_bounds <$> ips_v4 other)) (g := 0)
    as (S1 & S2 & _ & S4); [done| |apply v4_rebuild_spec|done|done|by apply Forall_true|done..|].
  { unfold v4_ok. simpl. intros r Hr. mlia. }
  split; [done|]. split; [done|]. intros x. apply S4.
Qed.

Lemma subtract_v6_spec s other :
  ipset_ok s -> ipset_ok other -> ipset_is_empty other || ipset_is_empty s = false ->
  canon (ips_v6 (subtract s other)) /\ Forall v6_ok (ips_v6 (subtract s other)) /\
  forall g x, den (ips_v6 (subtract s other)) g x <->
              den (ips_v6 s) g x /\ ~ exists h, den (ips_v6 other) h x.
Proof.
  intros Hs (_ & Ho & _) E. unfold subtract. rewrite E. cbn [ips_v6].
  destruct (canonicalize_v6_spec s Hs) as (C1 & C2 & C3). setoid_rewrite <- C3.
  set (l := ips_v6 (canonicalize s)) in *. clearbody l.
  destruct (is_nil l) eqn:En.
  { apply is_nil_spec in En as ->. split; [done|]. split; [done|].
    intros g x. rewrite den_nil. tauto. }
  destruct (cuts_v6_spec (ips_v6 other) Ho) as (K1 & K2 & K3). setoid_rewrite <- K3.
  destruct (is_nil (merged_intervals _)) eqn:Ec.
  { apply is_nil_spec in Ec as ->. split; [done|]. split; [done|].
    intros g x. rewrite den_nil. tauto. }
  destruct (v6_runs_spec l C1 C2) as [El Hruns].
  destruct (subtract_runs_spec (v6_runs l) (merged_intervals (v6_bounds <$> ips_v6 other)))
    as (S1 & S2 & _ & S4); [by rewrite El..|done|done|done|].
  split; [done|]. split; [done|]. intros g x. rewrite (S4 g x), El. done.
Qed.

Lemma subtract_ok s other : ipset_ok s -> ipset_ok other -> ipset_ok (subtract s other).
Proof.
  intros Hs Ho. destruct (ipset_is_empty other || ipset_is_empty s) eqn:E.
  { unfold subtract. by rewrite E. }
  destruct (subtract_v4_spec s other Hs Ho E) as (? & ? & _).
  destruct (subtract_v6_spec s other Hs Ho E) as (? & ? & _). by split_and!.
Qed.

Lemma subtract_holds_at s other ip zone :
  ipset_ok s -> ipset_ok other ->
  holds_at (subtract s other) ip zone <-> holds_at s ip zone /\ ~ member other ip.
Proof.
  intros Hs Ho. destruct (ipset_is_empty other || ipset_is_empty s) eqn:E.
  { unfold subtract. rewrite E. apply orb_true_iff in E as [E|E].
    - pose proof (empty_no_member other E ip). tauto.
    - pose proof (empty_no_member s E ip) as Hn. unfold member in Hn. naive_solver. }
  pose proof (subtract_ok s other Hs Ho) as Hok. destruct ip as [x|x].
  - rewrite member_den_v4. simpl. rewrite (proj2 (proj2 (subtract_v4_spec s other Hs Ho E))). tauto.
  - rewrite member_den_v6. split.
    + intros H. pose proof (holds_at_zone_ok _ _ _ Hok H) as Hz.
      apply holds_at_v6 in H; [|apply Hok|done].
      apply subtract_v6_spec in H as [H Hn]; [|done..]. split; [|done].
      apply holds_at_v6; [apply Hs|done|done].
    + intros [H Hn]. pose proof (holds_at_zone_ok _ _ _ Hs H) as Hz.
      apply holds_at_v6 in H; [|apply Hs|done].
      apply holds_at_v6; [apply Hok|done|]. by apply subtract_v6_spec.
Qed.

Lemma subtract_member s other ip :
  ipset_ok s -> ipset_ok other ->
  member (subtract s other) ip <-> member s ip /\ ~ member other ip.
Proof.
  intros Hs Ho. unfold member at 1 2. setoid_rewrite subtract_holds_at; [|done..]. naive_solver.
Qed.

(** ** Growing a set *)

Lemma push_v4_range_spec s r :
  ipset_ok s -> v4_ok r ->
  ipset_ok (push_v4_range s r) /\
  forall ip zone, holds_at (push_v4_range s r) ip zone <->
    holds_at s ip zone \/ (zone = None /\ range_contains (RV4 r) ip = true).
Proof.
  intros (H4 & H6 & Hc4 & Hc6) Hr. split.
  - split_and!; simpl; [apply Forall_app; auto|done|done|done].
  - intros [x|x] zone; cbn [holds_at push_v4_range ips_v4 ips_v6 range_contains].
    + rewrite den_app, den_cons, den_nil, v4_contains_spec. unfold iv_in. simpl. intuition.
    + naive_solver.
Qed.

Lemma push_v6_range_spec s r :
  ipset_ok s -> v6_ok r ->
  ipset_ok (push_v6_range s r) /\
  forall ip zone, holds_at (push_v6_range s r) ip zone <->
    holds_at s ip zone \/ (zone = v6_zone r /\ range_contains (RV6 r) ip = true).
Proof.
  intros (H4 & H6 & Hc4 & Hc6) Hr. split.
  - split_and!; simpl; [done|apply Forall_app; auto|done|done].
  - intros [x|x] zone; cbn [holds_at push_v6_range ips_v4 ips_v6 range_contains].
    + naive_solver.
    + rewrite v6_contains_spec. split.
      * intros (q & [Hq|Hq%list_elem_of_singleton]%elem_of_app & Hz & Hx); [left; by exists q|].
        subst q. by right.
      * intros [(q & Hq & Hz & Hx)|[-> Hx]]; [exists q|exists r]; (split; [|done]); apply elem_of_app;
          [by left|right]. by apply list_elem_of_singleton.
Qed.

Definition range_zone (r : IpRange) : option Z :=
  match r with RV4 _ => None | RV6 r => v6_zone r end.

Lemma insert_range_spec s r :
  ipset_ok s -> range_ok r ->
  ipset_ok (insert_range s r) /\
  forall ip zone, holds_at (insert_range s r) ip zone <->
    holds_at s ip zone \/ (zone = range_zone r /\ range_contains r ip = true).
Proof.
  destruct r; [apply push_v4_range_spec|apply push_v6_range_spec].
Qed.

Lemma ipset_insert_spec s a :
  ipset_ok s -> ip_fits a ->
  ipset_ok (ipset_insert s a) /\
  forall ip zone, holds_at (ipset_insert s a) ip zone <->
    holds_at s ip zone \/ (zone = None /\ ip = a).
Proof.
  intros Hs Ha. destruct a as [a|a]; cbn [ipset_insert].
  - destruct (push_v4_range_spec s (v4_single a)) as [H1 H2]; [done|by apply v4_single_ok|].
    split; [done|]. intros ip zone. rewrite H2. destruct ip as [x|x]; cbn [range_contains].
    + rewrite v4_contains_spec. simpl.
      assert (a <= x <= a <-> V4 x = V4 a) as ->; [|done].
      split; [intros; f_equal; lia|intros [= ->]; lia].
    + naive_solver.
  - destruct (push_v6_range_spec s (v6_single a)) as [H1 H2]; [done|by apply v6_single_ok|].
    split; [done|]. intros ip zone. rewrite H2. destruct ip as [x|x]; cbn [range_contains].
    + naive_solver.
    + rewrite v6_contains_spec. simpl.
      assert (a <= x <= a <-> V6 x = V6 a) as ->; [|done].
      split; [intros; f_equal; lia|intros [= ->]; lia].
Qed.

Lemma insert_ranges_spec ranges s :
  ipset_ok s -> Forall range_ok ranges ->
  ipset_ok (fold_left insert_range ranges s) /\
  forall ip zone, holds_at (fold_left insert_range ranges s) ip zone <->
    holds_at s ip zone \/
    exists r, r ∈ ranges /\ zone = range_zone r /\ range_contains r ip = true.
Proof.
  revert s. induction ranges as [|r ranges IH]; intros s Hs Hr; simpl.
  { split; [done|]. set_solver. }
  inversion Hr as [|? ? Hr1 Hr2]; subst.
  destruct (insert_range_spec s r Hs Hr1) as [H1 H2].
  destruct (IH (insert_range s r) H1 Hr2) as [I1 I2]. split; [done|].
  intros ip zone. rewrite I2, H2. set_solver.
Qed.

Lemma extend_spec ips s :
  ipset_ok s -> Forall ip_fits ips ->
  ipset_ok (ipset_extend s ips) /\
  forall ip zone, holds_at (ipset_extend s ips) ip zone <->
    holds_at s ip zone \/ (zone = None /\ ip ∈ ips).
Proof.
  unfold ipset_extend. revert s. induction ips as [|a ips IH]; intros s Hs Ha; simpl.
  { split; [done|]. set_solver. }
  inversion Ha as [|? ? Ha1 Ha2]; subst.
  destruct (ipset_insert_spec s a Hs Ha1) as [H1 H2].
  destruct (IH (ipset_insert s a) H1 Ha2) as [I1 I2]. split; [done|].
  intros ip zone. rewrite I2, H2. set_solver.
Qed.

Lemma ipset_new_ok : ipset_ok ipset_new.
Proof. split_and!; simpl; auto. Qed.

Lemma new_holds_nothing ip zone : ~ holds_at ipset_new ip zone.
Proof. destruct ip; simpl; [|set_solver]. intros [_ Hd]. by apply den_nil in Hd. Qed.

(** ** Enumerating and counting *)

Definition addr_value (ip : IpAddr) : Z := match ip with V4 x => x | V6 x => x end.

Definition scoped_v4 (l : list Ipv4Range) : list (IpAddr * option Z) :=
  l ≫= fun range => (fun ip => (ip, None)) <$> v4_range_iter range.

Definition scoped_v6 (l : list Ipv6Range) : list (IpAddr * option Z) :=
  l ≫= fun range => (fun ip => (ip, v6_zone range)) <$> v6_range_iter range.

Lemma iter_scoped_parts s :
  iter_scoped s = scoped_v4 (ips_v4 (merged s)) ++ scoped_v6 (ips_v6 (merged s)).
Proof. done. Qed.

(** The pairs of the interval theory, read off an enumeration. *)
Lemma enum_scoped_v4 l : (fun p : IpAddr * option Z => (0, addr_value p.1)) <$> scoped_v4 l = enum l.
Proof.
  induction l as [|r l IH]; [done|]. unfold scoped_v4 in *.
  rewrite bind_cons, fmap_app, IH, enum_cons. f_equal.
  unfold v4_range_iter. rewrite <- !list_fmap_compose. by apply list_fmap_ext.
Qed.

Lemma enum_scoped_v6 l :
  (fun p : IpAddr * option Z => (zone_rank p.2, addr_value p.1)) <$> scoped_v6 l = enum l.
Proof.
  induction l as [|r l IH]; [done|]. unfold scoped_v6 in *.
  rewrite bind_cons, fmap_app, IH, enum_cons. f_equal.
  unfold v6_range_iter. rewrite <- !list_fmap_compose. by apply list_fmap_ext.
Qed.

Lemma elem_of_scoped_v4 l ip zone :
  (ip, zone) ∈ scoped_v4 l <-> exists x, ip = V4 x /\ zone = None /\ den l 0 x.
Proof.
  unfold scoped_v4, v4_range_iter, den, iv_in. rewrite list_elem_of_bind. split.
  - intros (r & (a & [= -> ->] & (x & -> & Hx%elem_of_seqZ)%list_elem_of_fmap)%list_elem_of_fmap & Hr).
    exists x. split; [done|]. split; [done|]. exists r. split; [done|]. simpl. lia.
  - intros (x & -> & -> & r & Hr & _ & Hx). exists r. split; [|done].
    apply list_elem_of_fmap. exists (V4 x). split; [done|]. apply list_elem_of_fmap.
    exists x. split; [done|]. apply elem_of_seqZ. simpl in Hx. lia.
Qed.

Lemma elem_of_scoped_v6 l ip zone :
  (ip, zone) ∈ scoped_v6 l <->
  exists x r, ip = V6 x /\ r ∈ l /\ v6_zone r = zone /\ v6_start r <= x <= v6_end r.
Proof.
  unfold scoped_v6, v6_range_iter. rewrite list_elem_of_bind. split.
  - intros (r & (a & [= -> ->] & (x & -> & Hx%elem_of_seqZ)%list_elem_of_fmap)%list_elem_of_fmap & Hr).
    exists x, r. split; [done|]. split; [done|]. split; [done|]. lia.
  - intros (x & r & -> & Hr & <- & Hx). exists r. split; [|done].
    apply list_elem_of_fmap. exists (V6 x). split; [done|]. apply list_elem_of_fmap.
    exists x. split; [done|]. apply elem_of_seqZ. lia.
Qed.

Lemma elem_of_iter_scoped s ip zone :
  ipset_ok s -> (ip, zone) ∈ iter_scoped s <-> holds_at s ip zone.
Proof.
  intros Hs. rewrite <- merged_holds_at by done.
  rewrite iter_scoped_parts, elem_of_app, elem_of_scoped_v4, elem_of_scoped_v6.
  destruct ip as [x|x]; simpl; naive_solver.
Qed.

Lemma NoDup_iter_scoped s : ipset_ok s -> NoDup (iter_scoped s).
Proof.
  intros Hs. destruct (merged_canon s Hs) as ((_ & _ & Hc4 & Hc6) & E4 & E6).
  rewrite iter_scoped_parts. apply NoDup_app. split; [|split].
  - apply (NoDup_fmap_1 (fun p : IpAddr * option Z => (0, addr_value p.1))).
    rewrite enum_scoped_v4. by apply NoDup_enum, Hc4.
  - intros [ip zone] (x & -> & _)%elem_of_scoped_v4 (y & r & [=] & _)%elem_of_scoped_v6.
  - apply (NoDup_fmap_1 (fun p : IpAddr * option Z => (zone_rank p.2, addr_value p.1))).
    rewrite enum_scoped_v6. by apply NoDup_enum, Hc6.
Qed.

Lemma length_iter_scoped s :
  ipset_ok s ->
  Z.of_nat (length (iter_scoped s)) =
  total_width (ips_v4 (merged s)) + total_width (ips_v6 (merged s)).
Proof.
  intros Hs. destruct (merged_canon s Hs) as ((H4 & H6 & _) & _).
  rewrite iter_scoped_parts, length_app, Nat2Z.inj_add.
  rewrite <- !length_enum by auto with word.
  by rewrite <- enum_scoped_v4, <- enum_scoped_v6, !length_fmap.
Qed.

Lemma v4_len_total s :
  Forall v4_ok (ips_v4 s) -> v4_len s = Z.min (total_width (ips_v4 s)) (umax 128).
Proof.
  intros Hok. unfold v4_len.
  assert (forall l t, Forall v4_ok l -> 0 <= t ->
    fold_left (fun total r => sat_add 128 total (v4_range_len r)) l (Z.min t (umax 128)) =
    Z.min (t + total_width l) (umax 128)) as Hf.
  { induction l as [|r l IH]; intros t Hl Ht; simpl; [f_equal; lia|].
    inversion Hl as [|? ? Hr Hl']; subst. rewrite v4_len_width by done.
    assert (0 <= width r) by (unfold v4_ok, width in *; simpl; lia).
    replace (sat_add 128 (Z.min t (umax 128)) (width r)) with (Z.min (t + width r) (umax 128)) by mlia.
    rewrite IH by (try done; lia). f_equal. lia. }
  apply (Hf (ips_v4 s) 0); [done|lia].
Qed.

Lemma v6_len_total s :
  Forall v6_ok (ips_v6 s) -> v6_len s = Z.min (total_width (ips_v6 s)) (umax 128).
Proof.
  intros Hok. unfold v6_len.
  assert (forall l t, Forall v6_ok l -> 0 <= t ->
    fold_left (fun total r => sat_add 128 total (v6_range_len r)) l (Z.min t (umax 128)) =
    Z.min (t + total_width l) (umax 128)) as Hf.
  { induction l as [|r l IH]; intros t Hl Ht; simpl; [f_equal; lia|].
    inversion Hl as [|? ? Hr Hl']; subst. rewrite v6_len_width by done.
    assert (0 <= width r) by (unfold v6_ok, width in *; simpl; lia).
    replace (sat_add 128 (Z.min t (umax 128)) (Z.min (width r) (umax 128)))
      with (Z.min (t + width r) (umax 128)) by mlia.
    rewrite IH by (try done; lia). f_equal. lia. }
  apply (Hf (ips_v6 s) 0); [done|lia].
Qed.

Lemma ipset_len_merged s : ipset_len s = len_canonical (merged s).
Proof.
  unfold ipset_len, merged. by destruct (v4_dirty s), (v6_dirty s).
Qed.

Lemma ipset_len_spec s :
  ipset_ok s -> ipset_len s = Z.min (Z.of_nat (length (iter_scoped s))) (umax 128).
Proof.
  intros Hs. rewrite ipset_len_merged, length_iter_scoped by done.
  destruct (merged_canon s Hs) as ((H4 & H6 & _) & _). unfold len_canonical.
  rewrite v4_len_total, v6_len_total by done.
  pose proof (total_width_nonneg _ (v4_ok_valid _ H4)).
  pose proof (total_width_nonneg _ (v6_ok_valid _ H6)). mlia.
Qed.

Lemma ipset_iter_scoped s : ipset_iter s = fst <$> iter_scoped s.
Proof.
  assert (forall t, (ips_v4 t ≫= v4_range_iter) ++ (ips_v6 t ≫= v6_range_iter) =
    fst <$> (scoped_v4 (ips_v4 t) ++ scoped_v6 (ips_v6 t))) as E.
  { intros t. rewrite fmap_app. unfold scoped_v4, scoped_v6. f_equal.
    - induction (ips_v4 t) as [|r l IH]; [done|]. rewrite !bind_cons, fmap_app, IH. f_equal.
      rewrite <- list_fmap_compose. symmetry. apply list_fmap_id.
    - induction (ips_v6 t) as [|r l IH]; [done|]. rewrite !bind_cons, fmap_app, IH. f_equal.
      rewrite <- list_fmap_compose. symmetry. apply list_fmap_id. }
  unfold ipset_iter, ipset_into_iter, merged. rewrite iter_scoped_parts. unfold merged.
  destruct (v4_dirty s || v6_dirty s); apply E.
Qed.

(** ** Equality *)

Lemma holds_at_same_den a b :
  ipset_ok a -> ipset_ok b ->
  (forall ip zone, holds_at a ip zone <-> holds_at b ip zone) ->
  (forall g x, den (ips_v4 a) g x <-> den (ips_v4 b) g x) /\
  (forall g x, den (ips_v6 a) g x <-> den (ips_v6 b) g x).
Proof.
  intros Ha Hb E. split.
  - intros g x. specialize (E (V4 x) None). simpl in E.
    assert (forall l : list Ipv4Range, den l g x <-> g = 0 /\ den l 0 x) as Hg.
    { intros l. unfold den, iv_in. simpl. naive_solver. }
    rewrite !Hg. naive_solver.
  - assert (forall s t, ipset_ok s -> ipset_ok t ->
      (forall ip zone, holds_at s ip zone -> holds_at t ip zone) ->
      forall g x, den (ips_v6 s) g x -> den (ips_v6 t) g x) as Hhalf.
    { intros s t Hs Ht Hst g x (r & Hr & <- & Hx).
      assert (holds_at s (V6 x) (v6_zone r)) as Hh by by exists r.
      apply Hst in Hh. pose proof (holds_at_zone_ok _ _ _ Ht Hh).
      by apply holds_at_v6 in Hh; [|apply Ht|]. }
    intros g x. split; apply Hhalf; try done; intros ip zone; apply E.
Qed.

Lemma ipset_eq_holds_at a b :
  ipset_ok a -> ipset_ok b ->
  ipset_eq a b = true <-> forall ip zone, holds_at a ip zone <-> holds_at b ip zone.
Proof.
  intros Ha Hb. unfold ipset_eq. rewrite andb_true_iff, !bool_decide_eq_true.
  destruct (merged_canon a Ha) as (Hma & Ea4 & Ea6).
  destruct (merged_canon b Hb) as (Hmb & Eb4 & Eb6). split.
  - intros [E4 E6] ip zone.
    rewrite <- (merged_holds_at a), <- (merged_holds_at b) by done.
    unfold holds_at. by rewrite E4, E6.
  - intros E. destruct (holds_at_same_den (merged a) (merged b) Hma Hmb) as [D4 D6].
    { intros ip zone. by rewrite !merged_holds_at. }
    destruct Hma as (A4 & A6 & Ac4 & Ac6), Hmb as (B4 & B6 & Bc4 & Bc6). split.
    + apply (canon_unique v4_ok); auto using v4_interval_ext.
    + apply (canon_unique v6_ok); auto using v6_interval_ext.
Qed.

(** ** Collecting *)

Lemma absorb_set_spec master s :
  ipset_ok master -> ipset_ok s ->
  ipset_ok (absorb_set master s) /\
  forall ip zone, holds_at (absorb_set master s) ip zone <->
    holds_at master ip zone \/ holds_at s ip zone.
Proof.
  intros (M4 & M6 & Mc4 & Mc6) (S4 & S6 & _). unfold absorb_set, ipset_ok.
  destruct s as [v4 v6 d4 d6]; cbn [ips_v4 ips_v6] in *.
  destruct v4 as [|a v4], v6 as [|b v6]; cbn [is_nil ips_v4 ips_v6 v4_dirty v6_dirty];
    (split; [rewrite ?Forall_app; done|]);
    intros [x|x] zone; cbn [holds_at ips_v4 ips_v6]; rewrite ?den_app, ?den_nil;
    try (split; [intros (r & [?|?]%elem_of_app & ?); [left|right]; by exists r
                |intros [(r & ? & ?)|(r & ? & ?)]; exists r; rewrite elem_of_app; auto]);
    try (split; [by left|intros [?|(r & Hr & _)]; [done|by apply elem_of_nil in Hr]]);
    tauto.
Qed.

Lemma absorb_sets_spec sets master :
  ipset_ok master -> Forall ipset_ok sets ->
  ipset_ok (fold_left absorb_set sets master) /\
  forall ip zone, holds_at (fold_left absorb_set sets master) ip zone <->
    holds_at master ip zone \/ exists s, s ∈ sets /\ holds_at s ip zone.
Proof.
  revert master. induction sets as [|s sets IH]; intros m Hm Hs; simpl.
  { split; [done|]. intros. split; [by left|]. intros [?|(t & Ht & _)]; [done|]. by apply elem_of_nil in Ht. }
  inversion Hs as [|? ? Hs1 Hs2]; subst.
  destruct (absorb_set_spec m s Hm Hs1) as [H1 H2].
  destruct (IH _ H1 Hs2) as [I1 I2]. split; [done|].
  intros ip zone. rewrite I2, H2. setoid_rewrite elem_of_cons. naive_solver.
Qed.

Lemma from_addrs_spec ips :
  Forall ip_fits ips ->
  ipset_canon (from_addrs ips) /\
  forall ip zone, holds_at (from_addrs ips) ip zone <-> zone = None /\ ip ∈ ips.
Proof.
  intros H. destruct (extend_spec ips ipset_new ipset_new_ok H) as [H1 H2].
  split; [by apply canonicalize_canon|]. intros ip zone.
  unfold from_addrs. rewrite canonicalize_holds_at, H2 by done.
  pose proof (new_holds_nothing ip zone). tauto.
Qed.

Lemma from_ranges_spec ranges :
  Forall range_ok ranges ->
  ipset_canon (from_ranges ranges) /\
  forall ip zone, holds_at (from_ranges ranges) ip zone <->
    exists r, r ∈ ranges /\ zone = range_zone r /\ range_contains r ip = true.
Proof.
  intros H. destruct (insert_ranges_spec ranges ipset_new ipset_new_ok H) as [H1 H2].
  split; [by apply canonicalize_canon|]. intros ip zone.
  unfold from_ranges. rewrite canonicalize_holds_at, H2 by done.
  pose proof (new_holds_nothing ip zone). tauto.
Qed.

Lemma from_sets_spec sets :
  Forall ipset_ok sets ->
  ipset_canon (from_sets sets) /\
  forall ip zone, holds_at (from_sets sets) ip zone <-> exists s, s ∈ sets /\ holds_at s ip zone.
Proof.
  intros H. destruct (absorb_sets_spec sets ipset_new ipset_new_ok H) as [H1 H2].
  split; [by apply canonicalize_canon|]. intros ip zone.
  unfold from_sets. rewrite canonicalize_holds_at, H2 by done.
  pose proof (new_holds_nothing ip zone). tauto.
Qed.

(** ** An abstract set, refined by every history of a set *)

(** The calls that change a set. *)
Inductive set_op :=
  | OpInsert (ip : IpAddr)
  | OpInsertRange (range : IpRange)
  | OpExtend (ips : list IpAddr)
  | OpCanonicalize
  | OpSubtract (other : IpSet)
  | OpAbsorb (other : IpSet).

Definition run_op (s : IpSet) (op : set_op) : IpSet :=
  match op with
  | OpInsert ip => ipset_insert s ip
  | OpInsertRange range => insert_range s range
  | OpExtend ips => ipset_extend s ips
  | OpCanonicalize => canonicalize s
  | OpSubtract other => subtract s other
  | OpAbsorb other => absorb_set s other
  end.

Definition op_ok (op : set_op) : Prop :=
  match op with
  | OpInsert ip => ip_fits ip
  | OpInsertRange range => range_ok range
  | OpExtend ips => Forall ip_fits ips
  | OpCanonicalize => True
  | OpSubtract other | OpAbsorb other => ipset_ok other
  end.

(** What each call does to a set of scoped addresses, in the mathematics. *)
Definition spec_op (P : IpAddr -> option Z -> Prop) (op : set_op) : IpAddr -> option Z -> Prop :=
  fun ip zone =>
  match op with
  | OpInsert a => P ip zone \/ (zone = None /\ ip = a)
  | OpInsertRange r => P ip zone \/ (zone = range_zone r /\ range_contains r ip = true)
  | OpExtend ips => P ip zone \/ (zone = None /\ ip ∈ ips)
  | OpCanonicalize => P ip zone
  | OpSubtract other => P ip zone /\ ~ member other ip
  | OpAbsorb other => P ip zone \/ holds_at other ip zone
  end.

Lemma run_op_spec s op :
  ipset_ok s -> op_ok op ->
  ipset_ok (run_op s op) /\
  forall ip zone, holds_at (run_op s op) ip zone <-> spec_op (holds_at s) op ip zone.
Proof.
  intros Hs Ho. destruct op; simpl in *.
  - by apply ipset_insert_spec.
  - by apply insert_range_spec.
  - by apply extend_spec.
  - split; [apply canonicalize_canon; done|]. intros. by apply canonicalize_holds_at.
  - split; [by apply subtract_ok|]. intros. by apply subtract_holds_at.
  - by apply absorb_set_spec.
Qed.

#[global] Instance spec_op_proper :
  Proper (pointwise_relation _ (pointwise_relation _ iff) ==> eq ==>
          pointwise_relation _ (pointwise_relation _ iff)) spec_op.
Proof. intros P Q E op ? <- ip zone. destruct op; simpl; by rewrite (E ip zone). Qed.

Lemma run_ops_spec ops s P :
  ipset_ok s -> Forall op_ok ops -> (forall ip zone, holds_at s ip zone <-> P ip zone) ->
  ipset_ok (fold_left run_op ops s) /\
  forall ip zone, holds_at (fold_left run_op ops s) ip zone <-> fold_left spec_op ops P ip zone.
Proof.
  revert s P. induction ops as [|op ops IH]; intros s P Hs Ho HP; simpl; [done|].
  inversion Ho as [|? ? Ho1 Ho2]; subst.
  destruct (run_op_spec s op Hs Ho1) as [H1 H2]. apply IH; [done|done|].
  intros ip zone. rewrite H2. apply spec_op_proper; [|done]. intros ? ?. apply HP.
Qed.

(** C21: Refinement.  Whatever sequence of inserts, range inserts, extends,
    merges, subtractions and unions a set goes through from empty, merged or not
    at any point, [contains] answers true for an address exactly when the
    abstract set of scoped addresses built by the same sequence holds it on some
    interface. *)
Theorem contains_refines_set (ops : list set_op) (ip : IpAddr) :
  Forall op_ok ops ->
  contains (fold_left run_op ops ipset_new) ip = true <->
  exists zone, fold_left spec_op ops (fun _ _ => False) ip zone.
Proof.
  intros Ho.
  destruct (run_ops_spec ops ipset_new (fun _ _ => False) ipset_new_ok Ho) as [H1 H2].
  { intros a z. split; [apply new_holds_nothing|done]. }
  rewrite contains_member by done. unfold member. by setoid_rewrite H2.
Qed.

Definition sample_ops : list set_op :=
  [OpInsertRange (RV4 (mkIpv4Range 10 20)); OpInsert (V4 21); OpCanonicalize;
   OpInsertRange (RV6 (mkIpv6Range (2 ^ 127) (2 ^ 127 + 9) (Some 2)));
   OpSubtract (from_addrs [V4 15; V6 (2 ^ 127 + 4)]); OpExtend [V4 30]].

Lemma contains_refines_set_witness :
  Forall op_ok sample_ops /\
  contains (fold_left run_op sample_ops ipset_new) (V4 21) = true /\
  contains (fold_left run_op sample_ops ipset_new) (V4 15) = false /\
  exists zone, fold_left spec_op sample_ops (fun _ _ => False) (V4 21) zone.
Proof.
  assert (Forall op_ok sample_ops) as H.
  { repeat apply Forall_cons_2; try apply Forall_nil_2; cbn [op_ok range_ok];
      [..|apply from_addrs_spec|]; repeat constructor; vm_compute; congruence. }
  split; [exact H|]. split; [vm_compute; reflexivity|]. split; [vm_compute; reflexivity|].
  apply (contains_refines_set sample_ops (V4 21) H). vm_compute. reflexivity.
Defined.

(** Subtraction is exact and ignores zones.  What is left is on each
    interface what was there less every address the other set holds on any
    interface; [contains] answers false for each of those and unchanged for the
    rest; and the result keeps the invariant, with both flags clear unless one of
    the sets was empty. *)
Theorem subtract_exact (s other : IpSet) :
  ipset_ok s -> ipset_ok other ->
  ipset_ok (subtract s other) /\
  (forall ip zone, holds_at (subtract s other) ip zone <->
     holds_at s ip zone /\ contains other ip = false) /\
  (forall ip, contains (subtract s other) ip = contains s ip && negb (contains other ip)) /\
  (ipset_is_empty other || ipset_is_empty s = false -> ipset_canon (subtract s other)).
Proof.
  intros Hs Ho. pose proof (subtract_ok s other Hs Ho) as Hok. split; [done|]. split; [|split].
  - intros ip zone. rewrite subtract_holds_at, <- contains_member by done.
    by rewrite not_true_iff_false.
  - intros ip. apply eq_iff_eq_true. rewrite andb_true_iff, negb_true_iff, <- not_true_iff_false.
    rewrite !contains_member by done. by apply subtract_member.
  - intros E. split; [done|]. unfold subtract. by rewrite E.
Qed.

Lemma subtract_exact_witness :
  let s := from_ranges [RV6 (mkIpv6Range 5 9 None); RV6 (mkIpv6Range (2 ^ 127) (2 ^ 127 + 9) (Some 2))] in
  let other := from_addrs [V6 (2 ^ 127 + 4)] in
  contains s (V6 (2 ^ 127 + 4)) = true /\
  contains (subtract s other) (V6 (2 ^ 127 + 4)) = false /\
  ipset_canon (subtract s other).
Proof.
  intros s other.
  assert (ipset_ok s) as Hs.
  { apply from_ranges_spec. repeat constructor; vm_compute; congruence. }
  assert (ipset_ok other) as Ho.
  { apply from_addrs_spec. repeat constructor; vm_compute; congruence. }
  destruct (subtract_exact s other Hs Ho) as (_ & _ & H3 & H4).
  split; [vm_compute; reflexivity|]. split.
  - rewrite H3. vm_compute. reflexivity.
  - apply H4. vm_compute. reflexivity.
Defined.

(** Equality is of what the sets hold: two sets, merged or not and however
    they were built, compare equal exactly when they hold the same addresses on
    the same interfaces. *)
Theorem ipset_eq_same_addresses (a b : IpSet) :
  ipset_ok a -> ipset_ok b ->
  ipset_eq a b = true <-> forall ip zone, (ip, zone) ∈ iter_scoped a <-> (ip, zone) ∈ iter_scoped b.
Proof.
  intros Ha Hb. rewrite ipset_eq_holds_at by done.
  split; intros E ip zone; specialize (E ip zone); by rewrite !elem_of_iter_scoped in *.
Qed.

Lemma ipset_eq_same_addresses_witness :
  let a := fold_left insert_range [RV4 (mkIpv4Range 7 9); RV4 (mkIpv4Range 1 6)] ipset_new in
  let b := from_ranges [RV4 (mkIpv4Range 1 9)] in
  v4_dirty a = true /\ ipset_eq a b = true /\
  forall ip zone, (ip, zone) ∈ iter_scoped a <-> (ip, zone) ∈ iter_scoped b.
Proof.
  intros a b.
  assert (ipset_ok a) as Ha.
  { apply insert_ranges_spec; [apply ipset_new_ok|]. repeat constructor; vm_compute; congruence. }
  assert (ipset_ok b) as Hb.
  { apply from_ranges_spec. repeat constructor; vm_compute; congruence. }
  split; [reflexivity|]. split; [vm_compute; reflexivity|].
  apply (ipset_eq_same_addresses a b Ha Hb). vm_compute. reflexivity.
Defined.

(** Enumeration and counting.  [iter_scoped] yields each address on each of
    its interfaces exactly once and nothing else, [iter] is the same walk with
    the interfaces dropped, and [len] is the number yielded, saturating at the
    largest [u128]. *)
Theorem iter_scoped_exact (s : IpSet) :
  ipset_ok s ->
  NoDup (iter_scoped s) /\
  (forall ip zone, (ip, zone) ∈ iter_scoped s <-> holds_at s ip zone) /\
  (forall ip, ip ∈ ipset_iter s <-> contains s ip = true) /\
  length (ipset_iter s) = length (iter_scoped s) /\
  ipset_len s = Z.min (Z.of_nat (length (iter_scoped s))) (umax 128).
Proof.
  intros Hs. split_and!.
  - by apply NoDup_iter_scoped.
  - intros. by apply elem_of_iter_scoped.
  - intros ip. rewrite ipset_iter_scoped, list_elem_of_fmap, contains_member by done. split.
    + intros ([? zone] & -> & H). exists zone. by apply elem_of_iter_scoped.
    + intros [zone H]. exists (ip, zone). split; [done|]. by apply elem_of_iter_scoped.
  - by rewrite ipset_iter_scoped, length_fmap.
  - by apply ipset_len_spec.
Qed.

Lemma iter_scoped_exact_witness :
  let s := fold_left insert_range
    [RV6 (mkIpv6Range 7 9 (Some 3)); RV6 (mkIpv6Range 8 8 None); RV4 (mkIpv4Range 1 2); RV4 (mkIpv4Range 2 2)]
    ipset_new in
  ipset_len s = 6 /\ NoDup (iter_scoped s).
Proof.
  intros s.
  assert (ipset_ok s) as Hs.
  { apply insert_ranges_spec; [apply ipset_new_ok|]. repeat constructor; vm_compute; congruence. }
  destruct (iter_scoped_exact s Hs) as (H1 & _ & _ & _ & H5).
  split; [rewrite H5; vm_compute; reflexivity|exact H1].
Defined.

(** Collecting.  Building a set from addresses, from ranges or from other
    sets gives a merged set that holds exactly what they hold. *)
Theorem collected_sets (ips : list IpAddr) (ranges : list IpRange) (sets : list IpSet) :
  Forall ip_fits ips -> Forall range_ok ranges -> Forall ipset_ok sets ->
  (ipset_canon (from_addrs ips) /\
   forall ip, contains (from_addrs ips) ip = true <-> ip ∈ ips) /\
  (ipset_canon (from_ranges ranges) /\
   forall ip, contains (from_ranges ranges) ip = existsb (fun r => range_contains r ip) ranges) /\
  (ipset_canon (from_sets sets) /\
   forall ip, contains (from_sets sets) ip = existsb (fun s => contains s ip) sets).
Proof.
  intros Hi Hr Hs.
  destruct (from_addrs_spec ips Hi) as [A1 A2], (from_ranges_spec ranges Hr) as [R1 R2],
    (from_sets_spec sets Hs) as [S1 S2].
  split; [split; [done|]|split; (split; [done|])]; intros ip.
  - rewrite contains_member by apply A1. unfold member. setoid_rewrite A2. naive_solver.
  - apply eq_iff_eq_true. rewrite contains_member by apply R1.
    unfold member. setoid_rewrite R2. rewrite existsb_elem. naive_solver.
  - apply eq_iff_eq_true. rewrite contains_member by apply S1.
    unfold member. setoid_rewrite S2. rewrite existsb_elem. rewrite Forall_forall in Hs.
    split; [intros (z & s & Hin & H)|intros (s & Hin & H)].
    + exists s. split; [done|]. apply contains_member; [by apply Hs|by exists z].
    + apply contains_member in H as [z H]; [by exists z, s|by apply Hs].
Qed.

Lemma collected_sets_witness :
  contains (from_addrs [V4 3; V4 1]) (V4 3) = true /\
  ipset_canon (from_sets [from_addrs [V4 3; V4 1]; ipset_new]).
Proof.
  destruct (collected_sets [V4 3; V4 1] [] [from_addrs [V4 3; V4 1]; ipset_new])
    as ((_ & H) & _ & (H' & _)).
  - repeat constructor; vm_compute; congruence.
  - constructor.
  - repeat constructor; vm_compute; congruence.
  - split; [vm_compute; reflexivity|exact H'].
Defined.

(** Subtracting the empty set leaves a set as it was, its dirty flags included. *)
Lemma subtract_empty_not_merged :
  let s := insert_range (insert_range ipset_new (RV4 (mkIpv4Range 5 6))) (RV4 (mkIpv4Range 1 2)) in
  v4_dirty (subtract s ipset_new) = true /\ subtract s ipset_new = s.
Proof. done. Qed.
