(* ===== verification/Numbering.v ===== *)
(** * Numbered stretches

    A plan is numbered by laying stretches end to end: the spans of
    [Positions] over addresses, the units of [TargetIndex] over targets and over
    hosts.  This file is the theory the three share: where each stretch starts,
    which one holds a position, and how a slice of the whole is the
    concatenation of the slices of its stretches. *)

From Stdlib Require Import ZArith Lia.
From stdpp Require Import base numbers sets sorting option list.
From S2P Require Import Prelude Std.

Local Open Scope Z_scope.

(** ** Slices by integer bounds, clipped to the list *)

Definition zlen {A} (l : list A) : Z := Z.of_nat (length l).

Definition zslice {A} (a b : Z) (l : list A) : list A :=
  take (Z.to_nat (b - Z.max a 0)) (drop (Z.to_nat a) l).

Definition zlookup {A} (l : list A) (i : Z) : option A :=
  if i <? 0 then None else l !! Z.to_nat i.

Lemma zlen_nonneg {A} (l : list A) : 0 <= zlen l.
Proof. unfold zlen. lia. Qed.

Lemma zlen_app {A} (l k : list A) : zlen (l ++ k) = zlen l + zlen k.
Proof. unfold zlen. rewrite length_app. lia. Qed.

Lemma zslice_app {A} a b (l k : list A) :
  zslice a b (l ++ k) = zslice a b l ++ zslice (a - zlen l) (b - zlen l) k.
Proof.
  unfold zslice, zlen. rewrite drop_app, take_app, length_drop.
  f_equal.
  destruct (decide (length l <= Z.to_nat a)%nat).
  - f_equal; [lia|]. f_equal. lia.
  - f_equal; [lia|]. f_equal. lia.
Qed.

Lemma zslice_nil {A} a b : zslice a b ([] : list A) = [].
Proof. unfold zslice. by rewrite drop_nil, take_nil. Qed.

Lemma zslice_empty {A} a b (l : list A) : b <= Z.max a 0 -> zslice a b l = [].
Proof. intros H. unfold zslice. replace (Z.to_nat _) with 0%nat by lia. done. Qed.

Lemma zslice_past {A} a b (l : list A) : zlen l <= a -> zslice a b l = [].
Proof. intros H. unfold zslice, zlen in *. rewrite drop_ge by lia. apply take_nil. Qed.

Lemma zslice_all {A} a b (l : list A) : a <= 0 -> zlen l <= b -> zslice a b l = l.
Proof.
  intros Ha Hb. unfold zslice, zlen in *. replace (Z.to_nat a) with 0%nat by lia.
  rewrite drop_0. apply take_ge. lia.
Qed.

Lemma zlookup_zslice {A} a b (l : list A) i :
  0 <= a -> zlookup (zslice a b l) i = if (0 <=? i) && (i <? b - a) then zlookup l (a + i) else None.
Proof.
  intros Ha. unfold zlookup, zslice. destruct (Z.ltb_spec i 0) as [Hi|Hi].
  { by rewrite (proj2 (Z.leb_gt 0 i)). }
  rewrite (proj2 (Z.leb_le 0 i)) by done. cbn [andb].
  destruct (Z.ltb_spec i (b - a)).
  - rewrite lookup_take_lt by lia. rewrite lookup_drop.
    rewrite (proj2 (Z.ltb_ge (a + i) 0)) by lia. f_equal. lia.
  - apply lookup_take_ge. lia.
Qed.

Lemma zlookup_app {A} (l k : list A) i :
  zlookup (l ++ k) i = if i <? zlen l then zlookup l i else zlookup k (i - zlen l).
Proof.
  unfold zlookup, zlen. destruct (Z.ltb_spec i 0).
  { destruct (Z.ltb_spec i (Z.of_nat (length l))); [done|lia]. }
  destruct (Z.ltb_spec i (Z.of_nat (length l))).
  - apply lookup_app_l. lia.
  - rewrite lookup_app_r by lia. rewrite (proj2 (Z.ltb_ge (i - _) 0)) by lia. f_equal. lia.
Qed.

Lemma zlookup_Some_lt {A} (l : list A) i x : zlookup l i = Some x -> 0 <= i < zlen l.
Proof.
  unfold zlookup, zlen. destruct (Z.ltb_spec i 0); [done|]. intros H1%lookup_lt_Some. lia.
Qed.

Lemma zlookup_is_Some {A} (l : list A) i : 0 <= i < zlen l -> exists x, zlookup l i = Some x.
Proof.
  unfold zlookup, zlen. intros [H1 H2]. rewrite (proj2 (Z.ltb_ge i 0)) by done.
  apply lookup_lt_is_Some_2. lia.
Qed.

Lemma elem_of_zlookup {A} (l : list A) x : x ∈ l <-> exists i, zlookup l i = Some x.
Proof.
  rewrite list_elem_of_lookup. split.
  - intros [i Hi]. exists (Z.of_nat i). unfold zlookup.
    rewrite (proj2 (Z.ltb_ge _ 0)) by lia. by rewrite Nat2Z.id.
  - intros [i Hi]. unfold zlookup in Hi. destruct (i <? 0); [done|]. eauto.
Qed.

Lemma zlookup_fmap {A B} (f : A -> B) l i : zlookup (f <$> l) i = f <$> zlookup l i.
Proof. unfold zlookup. destruct (i <? 0); [done|]. apply list_lookup_fmap. Qed.

Lemma zlookup_seqZ m n i : 0 <= n -> zlookup (seqZ m n) i = if (0 <=? i) && (i <? n) then Some (m + i) else None.
Proof.
  intros Hn. unfold zlookup. destruct (Z.ltb_spec i 0).
  { by rewrite (proj2 (Z.leb_gt 0 i)). }
  rewrite (proj2 (Z.leb_le 0 i)) by done. cbn [andb]. destruct (Z.ltb_spec i n).
  - rewrite lookup_seqZ_lt by lia. f_equal. lia.
  - apply lookup_seqZ_ge. lia.
Qed.

Lemma fmap_zslice {A B} (f : A -> B) a b l : f <$> zslice a b l = zslice a b (f <$> l).
Proof. unfold zslice. by rewrite fmap_take, fmap_drop. Qed.

Lemma zslice_seqZ a b m n :
  0 <= a -> a <= b -> b <= n -> zslice a b (seqZ m n) = seqZ (m + a) (b - a).
Proof.
  intros Ha Hab Hb. unfold zslice. replace (Z.max a 0) with a by lia.
  apply list_eq. intros i. destruct (decide (i < Z.to_nat (b - a))%nat).
  - rewrite lookup_take_lt, lookup_drop by lia. rewrite !lookup_seqZ_lt by lia. f_equal. lia.
  - rewrite lookup_take_ge by lia. symmetry. apply lookup_seqZ_ge. lia.
Qed.

(** ** Stretches laid end to end *)

Section Numbered.
Context {A : Type} (start len : A -> Z).

Fixpoint numbered (t : Z) (l : list A) : Prop :=
  match l with
  | [] => True
  | x :: rest => start x = t /\ 0 <= len x /\ numbered (t + len x) rest
  end.

Fixpoint sum_len (l : list A) : Z :=
  match l with [] => 0 | x :: rest => len x + sum_len rest end.

Lemma sum_len_app l k : sum_len (l ++ k) = sum_len l + sum_len k.
Proof. induction l as [|x l IH]; simpl; lia. Qed.

Lemma numbered_app t l k : numbered t (l ++ k) <-> numbered t l /\ numbered (t + sum_len l) k.
Proof.
  revert t. induction l as [|x l IH]; intros t; simpl.
  - rewrite Z.add_0_r. tauto.
  - rewrite IH. rewrite Z.add_assoc. tauto.
Qed.

Lemma numbered_sum_nonneg t l : numbered t l -> 0 <= sum_len l.
Proof. revert t. induction l as [|x l IH]; simpl; [lia|]. intros t (_ & H & H2%IH). lia. Qed.

Lemma numbered_bounds t l x :
  numbered t l -> x ∈ l -> t <= start x /\ 0 <= len x /\ start x + len x <= t + sum_len l.
Proof.
  revert t. induction l as [|y l IH]; intros t; simpl; [by intros _ ?%elem_of_nil|].
  intros (H1 & H2 & H3). pose proof (numbered_sum_nonneg _ _ H3). rewrite elem_of_cons.
  intros [->|Hx]; [lia|]. specialize (IH _ H3 Hx). lia.
Qed.

Lemma numbered_sorted t l :
  numbered t l -> StronglySorted (fun x y => start x + len x <= start y) l.
Proof.
  revert t. induction l as [|y l IH]; intros t; simpl; [constructor|].
  intros (H1 & H2 & H3). constructor; [eauto|]. apply Forall_forall. intros x Hx.
  pose proof (numbered_bounds _ _ _ H3 Hx). lia.
Qed.

(** Every position of the whole is in a stretch. *)
Lemma numbered_cover t l pos :
  numbered t l -> t <= pos < t + sum_len l ->
  exists i x, l !! i = Some x /\ start x <= pos < start x + len x.
Proof.
  revert t. induction l as [|y l IH]; intros t; simpl; [lia|].
  intros (H1 & H2 & H3) Hp. destruct (Z.ltb_spec pos (t + len y)).
  - exists 0%nat, y. split; [done|lia].
  - destruct (IH _ H3) as (i & x & Hx & Hb); [lia|]. by exists (S i), x.
Qed.

Lemma numbered_unique t l pos i j x y :
  numbered t l -> l !! i = Some x -> l !! j = Some y ->
  start x <= pos < start x + len x -> start y <= pos < start y + len y -> i = j.
Proof.
  intros Hn Hi Hj Hx Hy. pose proof (numbered_sorted t l Hn) as Hs.
  destruct (Nat.lt_trichotomy i j) as [H|[H|H]]; [|done|].
  - pose proof (StronglySorted_lookup _ _ _ _ _ _ Hs H Hi Hj). simpl in *. lia.
  - pose proof (StronglySorted_lookup _ _ _ _ _ _ Hs H Hj Hi). simpl in *. lia.
Qed.

Section Items.
Context {B : Type} (items : A -> list B).

Definition all_items (l : list A) : list B := l ≫= items.

Definition counted (l : list A) : Prop := Forall (fun x => zlen (items x) = len x) l.

Lemma all_items_len l : counted l -> zlen (all_items l) = sum_len l.
Proof.
  induction 1 as [|x l Hx _ IH]; [done|]. unfold all_items in *.
  rewrite bind_cons, zlen_app, Hx, IH. done.
Qed.

(** An item of the whole, found through its stretch. *)
Lemma all_items_lookup t l i x pos :
  numbered t l -> counted l -> l !! i = Some x -> start x <= pos < start x + len x ->
  zlookup (all_items l) (pos - t) = zlookup (items x) (pos - start x).
Proof.
  revert t i. induction l as [|y l IH]; intros t i; cbn [numbered]; [done|].
  intros (H1 & H2 & H3) Hc Hi Hp. inversion Hc as [|? ? Hy Hc']; subst.
  unfold all_items. rewrite bind_cons, zlookup_app, Hy. destruct i as [|i]; simplify_eq/=.
  - by rewrite (proj2 (Z.ltb_lt _ _)) by lia.
  - assert (x ∈ l) as Hx by by eapply list_elem_of_lookup_2.
    pose proof (numbered_bounds _ _ _ H3 Hx).
    rewrite (proj2 (Z.ltb_ge _ _)) by lia.
    rewrite <- (IH (start y + len y) i H3 Hc' Hi Hp). f_equal. lia.
Qed.

Lemma all_items_inv t l k b :
  numbered t l -> counted l -> zlookup (all_items l) k = Some b ->
  exists i x, l !! i = Some x /\ start x <= t + k < start x + len x /\
              zlookup (items x) (t + k - start x) = Some b.
Proof.
  intros Hn Hc Hk. pose proof (zlookup_Some_lt _ _ _ Hk) as Hb.
  rewrite all_items_len in Hb by done.
  destruct (numbered_cover t l (t + k) Hn) as (i & x & Hx & Hp); [lia|].
  exists i, x. split; [done|]. split; [done|].
  rewrite <- (all_items_lookup t l i x) by done. by replace (t + k - t) with k by lia.
Qed.
End Items.
End Numbered.

(** ** Rows of one length *)

Section Rows.
Context {A B : Type} (f : A -> list B) (n : Z).
Hypothesis row_len : forall a, zlen (f a) = n.

Lemma zlen_rows l : zlen (l ≫= f) = zlen l * n.
Proof.
  induction l as [|a l IH]; [done|]. rewrite bind_cons, zlen_app, IH, row_len.
  unfold zlen. cbn [length]. lia.
Qed.

Lemma zlookup_cons (a : A) l i :
  zlookup (a :: l) i = if i =? 0 then Some a else zlookup l (i - 1).
Proof.
  unfold zlookup. destruct (Z.eqb_spec i 0) as [->|Hne]; [done|].
  destruct (Z.ltb_spec i 0).
  { by rewrite (proj2 (Z.ltb_lt (i - 1) 0)) by lia. }
  rewrite (proj2 (Z.ltb_ge (i - 1) 0)) by lia.
  replace (Z.to_nat i) with (S (Z.to_nat (i - 1))) by lia. done.
Qed.

(** Row by row, an index is a quotient and a remainder. *)
Lemma zlookup_rows l k :
  0 < n -> 0 <= k ->
  zlookup (l ≫= f) k = zlookup l (k / n) ≫= fun a => zlookup (f a) (k mod n).
Proof.
  intros Hn. revert k. induction l as [|a l IH]; intros k Hk.
  { unfold zlookup. cbn. by destruct (k <? 0), (k / n <? 0). }
  rewrite bind_cons, zlookup_app, row_len, zlookup_cons.
  destruct (Z.ltb_spec k n).
  - rewrite Z.div_small, Z.mod_small by lia. done.
  - rewrite IH by lia.
    replace (k / n) with ((k - n) / n + 1) by
      (replace k with ((k - n) + 1 * n) at 2 by lia; rewrite Z.div_add by lia; lia).
    replace (k mod n) with ((k - n) mod n) by
      (replace k with ((k - n) + 1 * n) at 2 by lia; by rewrite Z.mod_add by lia).
    assert (0 <= (k - n) / n) by (apply Z.div_pos; lia).
    rewrite (proj2 (Z.eqb_neq _ 0)) by lia. by rewrite Z.add_simpl_r.
Qed.
End Rows.
