(* ===== verification/Positions.v ===== *)
(** * Numbered addresses

    [src/src/model/ip/set.rs], [Positions]: the addresses of a set in the order
    its iterator yields them, each with a position, held as spans rather than as
    addresses.  A scan names an address by its position, so the two lookups have
    to agree with each other and with the iterator; [Cursor] and [TargetIndex]
    build on that. *)

From Stdlib Require Import ZArith Lia.
From stdpp Require Import base numbers sets sorting option list.
From S2P Require Import Prelude Std Intervals IpRange Subtract IpSet Numbering.

Local Open Scope Z_scope.
Local Open Scope word_scope.

(** ** Definitions *)

(** The ranges one interface contributed: the spans at [run_from..run_to]. *)
Record Run := mkRun {
  run_from : nat;
  run_to : nat;
  run_v6 : bool;
}.

Record Span := mkSpan {
  span_range : IpRange;
  span_start : Z;
  span_len : Z;
}.

Record Positions := mkPositions {
  spans : list Span;
  runs : list Run;
  pos_total : Z;
  unnumbered : list IpRange;
}.

Definition widen (ip : IpAddr) : Z := match ip with V4 v4 => v4 | V6 v6 => v6 end.

Definition bounds (range : IpRange) : Z * Z :=
  match range with
  | RV4 v4 => v4_bounds v4
  | RV6 v6 => (v6_start v6, v6_end v6)
  end.

Definition same_family (range : IpRange) (ip : IpAddr) : bool :=
  match range, ip with
  | RV4 _, V4 _ => true
  | RV6 _, V6 _ => true
  | _, _ => false
  end.

Definition offset_within (range : IpRange) (ip : IpAddr) : option Z :=
  if negb (same_family range ip) then None
  else
    let '(start, stop) := bounds range in
    let key := widen ip in
    if (key <? start) || (stop <? key) then None
    else try_into 64 (key -[128] start).

Definition address_within (range : IpRange) (offset : Z) : option IpAddr :=
  let '(start, stop) := bounds range in
  checked_add 128 start offset ≫= fun at_ =>
  if stop <? at_ then None
  else
    match range with
    | RV4 _ => V4 <$> try_into 32 at_
    | RV6 _ => Some (V6 at_)
    end.

Definition slice_of (range : IpRange) (from to_ : Z) : option IpRange :=
  address_within range from ≫= fun start =>
  address_within range to_ ≫= fun stop =>
  match range, start, stop with
  | RV4 _, V4 start, V4 stop => RV4 <$> ok (v4_new start stop)
  | RV6 v6, V6 start, V6 stop => RV6 <$> ok (v6_scoped start stop (v6_zone v6))
  | _, _, _ => None
  end.

(** *** Building *)

(** The variables of [of_canonical]'s loop. *)
Record Numberer := mkNumberer {
  n_spans : list Span;
  n_runs : list Run;
  n_total : Z;
  n_group : option (bool * option Z);
  n_unnumbered : list IpRange;
}.

Definition range_group (range : IpRange) : bool * option Z :=
  match range with
  | RV4 _ => (false, None)
  | RV6 v6 => (true, v6_zone v6)
  end.

Definition leave_out (n : Numberer) (range : IpRange) : Numberer :=
  mkNumberer (n_spans n) (n_runs n) (n_total n) (n_group n) (n_unnumbered n ++ [range]).

(** [match runs.last_mut()]: grow the last run or open one. *)
Definition place_in_run (runs : list Run) (at_ : nat) (group : option (bool * option Z))
    (here : bool * option Z) : list Run :=
  match last runs with
  | Some run =>
      if bool_decide (group = Some here)
      then removelast runs ++ [mkRun (run_from run) (at_ + 1) (run_v6 run)]
      else runs ++ [mkRun at_ (at_ + 1) (fst here)]
  | None => runs ++ [mkRun at_ (at_ + 1) (fst here)]
  end.

Definition number_range (n : Numberer) (range : IpRange) : Numberer :=
  if negb (is_nil (n_unnumbered n)) then leave_out n range
  else
    match try_into 64 (range_len range) with
    | None => leave_out n range
    | Some len =>
        match checked_add 64 (n_total n) len with
        | None => leave_out n range
        | Some next =>
            let here := range_group range in
            mkNumberer
              (n_spans n ++ [mkSpan range (n_total n) len])
              (place_in_run (n_runs n) (length (n_spans n)) (n_group n) here)
              next (Some here) (n_unnumbered n)
        end
    end.

Definition set_ranges (s : IpSet) : list IpRange := (RV4 <$> ips_v4 s) ++ (RV6 <$> ips_v6 s).

Definition of_canonical (s : IpSet) : Positions :=
  let n := fold_left number_range (set_ranges s) (mkNumberer [] [] 0 None []) in
  mkPositions (n_spans n) (n_runs n) (n_total n) (n_unnumbered n).

Definition positions_of (s : IpSet) : Positions :=
  if v4_dirty s || v6_dirty s then of_canonical (canonicalize s) else of_canonical s.

Definition pos_is_empty (p : Positions) : bool := pos_total p =? 0.

(** *** Lookups *)

Definition span_place (key : Z) (span : Span) : comparison :=
  let '(start, stop) := bounds (span_range span) in
  if stop <? key then Lt else if key <? start then Gt else Eq.

(** The body of [span_holding]'s loop over the runs of the right family. *)
Fixpoint hold_in (p : Positions) (key : Z) (rs : list Run) (found : option Span) : option Span :=
  match rs with
  | [] => found
  | run :: rest =>
      let slice := take (run_to run - run_from run) (drop (run_from run) (spans p)) in
      match binary_search_by (span_place key) slice with
      | Err _ => hold_in p key rest found
      | Ok index =>
          match found with
          | Some _ => None
          | None => hold_in p key rest (slice !! index)
          end
      end
  end.

Definition is_ipv6 (ip : IpAddr) : bool := match ip with V4 _ => false | V6 _ => true end.

Definition span_holding (p : Positions) (ip : IpAddr) : option Span :=
  hold_in p (widen ip) (filter (fun run => run_v6 run = is_ipv6 ip) (runs p)) None.

Definition span_at (p : Positions) (position : Z) : option nat :=
  if pos_total p <=? position then None
  else
    ok (binary_search_by
      (fun span =>
         if span_start span +[64] span_len span <=? position then Lt
         else if position <? span_start span then Gt
         else Eq)
      (spans p)).

Definition pos_find (p : Positions) (ip : IpAddr) : option Z :=
  span_holding p ip ≫= fun span =>
  offset_within (span_range span) ip ≫= fun offset =>
  Some (span_start span +[64] offset).

Definition address_at (p : Positions) (position : Z) : option IpAddr :=
  span_at p position ≫= fun index =>
  spans p !! index ≫= fun span =>
  address_within (span_range span) (position -[64] span_start span).

(** The [while] of [ranges_in], over the spans from [index] on. *)
Fixpoint ranges_from (first stop : Z) (l : list Span) : list IpRange :=
  match l with
  | [] => []
  | span :: rest =>
      if stop <=? span_start span then []
      else
        let from := sat_sub first (span_start span) in
        let to_ := Z.min (stop -[64] span_start span) (span_len span) -[64] 1 in
        match slice_of (span_range span) from to_ with
        | Some part => part :: ranges_from first stop rest
        | None => ranges_from first stop rest
        end
  end.

Definition ranges_in (p : Positions) (first last : Z) : list IpRange :=
  let stop := Z.min last (pos_total p) in
  if stop <=? first then []
  else
    match span_at p first with
    | None => []
    | Some index => ranges_from first stop (drop index (spans p))
    end.

(** ** Ranges of either family, in the order a set holds them *)

#[export] Instance range_interval : Interval IpRange :=
  {| lo := fun r => fst (bounds r); hi := fun r => snd (bounds r);
     grp := fun r => match r with RV4 _ => -2 | RV6 v6 => zone_rank (v6_zone v6) end |}.

Definition group_rank (g : bool * option Z) : Z := if fst g then zone_rank (snd g) else -2.

Definition range_scoped (r : IpRange) : list (IpAddr * option Z) :=
  match r with
  | RV4 v4 => (fun ip => (ip, None)) <$> v4_range_iter v4
  | RV6 v6 => (fun ip => (ip, v6_zone v6)) <$> v6_range_iter v6
  end.

Definition span_items (sp : Span) : list (IpAddr * option Z) := range_scoped (span_range sp).

Lemma range_group_rank r : group_rank (range_group r) = grp r.
Proof. by destruct r. Qed.

Lemma range_group_eq a b : range_ok a -> range_ok b -> range_group a = range_group b <-> grp a = grp b.
Proof.
  assert (forall z, -1 <= zone_rank z \/ zone_rank z < 0 /\ ~ zone_ok z) as Hz.
  { intros [z|]; simpl; mlia. }
  destruct a as [a|a], b as [b|b]; simpl; [done| | |].
  - intros _ (_ & _ & _ & H). destruct (Hz (v6_zone b)); [|tauto]. split; [done|lia].
  - intros (_ & _ & _ & H) _. destruct (Hz (v6_zone a)); [|tauto]. split; [done|lia].
  - intros (_ & _ & _ & Ha) (_ & _ & _ & Hb). split; [by intros [= ->]|].
    intros E. f_equal. by apply zone_rank_inj.
Qed.

Lemma range_ok_valid l : Forall range_ok l -> Forall iv_valid l.
Proof.
  intros H. eapply Forall_impl; [exact H|]. intros [r|r]; unfold iv_valid; simpl;
    unfold v4_ok, v6_ok; lia.
Qed.

Lemma range_ok_bounds r : range_ok r -> 0 <= lo r /\ lo r <= hi r /\ hi r <= umax 128.
Proof. destruct r; simpl; unfold v4_ok, v6_ok; mlia. Qed.

Lemma range_len_width r : range_ok r -> range_len r = Z.min (width r) (umax 128).
Proof.
  destruct r as [r|r]; cbn [range_ok range_len]; intros H.
  - rewrite v4_len_width by done. unfold width, v4_ok in *. simpl. mlia.
  - by rewrite v6_len_width.
Qed.

Lemma range_scoped_len r : range_ok r -> zlen (range_scoped r) = width r.
Proof.
  unfold zlen, width. destruct r as [r|r]; cbn [range_scoped]; unfold v4_range_iter, v6_range_iter;
    rewrite !length_fmap, length_seqZ; simpl; unfold v4_ok, v6_ok; lia.
Qed.

(** The address a range holds [i] places in, on the range's interface. *)
Definition nth_address (r : IpRange) (i : Z) : IpAddr * option Z :=
  match r with
  | RV4 v4 => (V4 (v4_start v4 + i), None)
  | RV6 v6 => (V6 (v6_start v6 + i), v6_zone v6)
  end.

Lemma range_scoped_lookup r i :
  range_ok r ->
  zlookup (range_scoped r) i = if (0 <=? i) && (i <? width r) then Some (nth_address r i) else None.
Proof.
  intros H. assert (0 <= width r) by (apply range_ok_bounds in H; unfold width; lia).
  destruct r as [r|r]; cbn [range_scoped]; unfold v4_range_iter, v6_range_iter;
    rewrite !zlookup_fmap, zlookup_seqZ by done; by destruct (_ && _).
Qed.

Lemma set_ranges_canon s : ipset_canon s -> canon (set_ranges s) /\ Forall range_ok (set_ranges s).
Proof.
  intros ((H4 & H6 & Hc4 & Hc6) & E4 & E6). specialize (Hc4 E4). specialize (Hc6 E6).
  unfold set_ranges. assert (Forall range_ok ((RV4 <$> ips_v4 s) ++ (RV6 <$> ips_v6 s))) as Hok.
  { apply Forall_app. rewrite !Forall_fmap. done. }
  split; [|done]. split; [|by apply range_ok_valid].
  destruct Hc4 as [Hs4 _], Hc6 as [Hs6 _].
  rewrite StronglySorted_app, !sorted_fmap.
  split; [|split; [eapply sorted_weaken; [|exact Hs4]; intros a b _ _ [?|[? ?]]; [done|by right]|exact Hs6]].
  intros a b (r & -> & _)%list_elem_of_fmap (q & -> & Hq)%list_elem_of_fmap. left. simpl.
  rewrite Forall_forall in H6. destruct (H6 q Hq) as (_ & _ & _ & Hz).
  destruct (v6_zone q); simpl in *; lia.
Qed.

(** ** The runs tile the spans *)

(** The spans of one interface, under the key the builder groups by. *)
Definition chunk : Type := (bool * option Z) * list Span.

Fixpoint run_list (at_ : nat) (chunks : list chunk) : list Run :=
  match chunks with
  | [] => []
  | c :: rest =>
      mkRun at_ (at_ + length (snd c)) (fst (fst c)) :: run_list (at_ + length (snd c)) rest
  end.

Definition chunk_spans (chunks : list chunk) : list Span := chunks ≫= snd.

Definition chunk_ok (c : chunk) : Prop :=
  snd c <> [] /\ Forall (fun sp => range_group (span_range sp) = fst c) (snd c).

Definition chunks_ok (chunks : list chunk) : Prop :=
  Forall chunk_ok chunks /\
  StronglySorted (fun a b => group_rank (fst a) < group_rank (fst b)) chunks.

Lemma chunk_spans_app a b : chunk_spans (a ++ b) = chunk_spans a ++ chunk_spans b.
Proof. apply bind_app. Qed.

Lemma chunk_spans_cons c cs : chunk_spans (c :: cs) = snd c ++ chunk_spans cs.
Proof. done. Qed.

Lemma chunk_spans_singleton c : chunk_spans [c] = snd c.
Proof. apply app_nil_r. Qed.

Lemma run_list_app at_ a b :
  run_list at_ (a ++ b) = run_list at_ a ++ run_list (at_ + length (chunk_spans a)) b.
Proof.
  revert at_. induction a as [|c a IH]; intros at_; cbn [run_list app].
  - by rewrite Nat.add_0_r.
  - rewrite chunk_spans_cons, length_app, IH. do 3 f_equal. lia.
Qed.

(** A span joins the last chunk, or opens one. *)
Lemma chunks_grow cs c sp :
  chunks_ok (cs ++ [c]) -> range_group (span_range sp) = fst c ->
  chunks_ok (cs ++ [(fst c, snd c ++ [sp])]).
Proof.
  intros [[Hcs [Hc1 Hc2]%Forall_singleton]%Forall_app (Hsep & Hscs & _)%StronglySorted_app] E.
  split.
  - apply Forall_app. split; [done|]. apply Forall_singleton. split; cbn [fst snd].
    + by destruct (snd c).
    + apply Forall_app. split; [done|]. by apply Forall_singleton.
  - apply StronglySorted_app. split_and!; [|done|by repeat constructor].
    intros a b Ha ->%list_elem_of_singleton. apply (Hsep a c Ha). by apply list_elem_of_singleton.
Qed.

Lemma chunks_open chunks sp :
  chunks_ok chunks -> Forall (fun c => group_rank (fst c) < grp (span_range sp)) chunks ->
  chunks_ok (chunks ++ [(range_group (span_range sp), [sp])]).
Proof.
  intros [Hok Hs] Hlt. rewrite Forall_forall in Hlt. split.
  - apply Forall_app. split; [done|]. apply Forall_singleton. split; [done|]. by apply Forall_singleton.
  - apply StronglySorted_app. split_and!; [|done|by repeat constructor].
    intros a b Ha ->%list_elem_of_singleton. cbn [fst]. rewrite range_group_rank. by apply Hlt.
Qed.

(** A range that sorts after every span and is not of the last chunk's interface
    is of none of the chunks'. *)
Lemma chunks_below cs c range :
  chunks_ok (cs ++ [c]) -> range_ok range -> fst c <> range_group range ->
  (forall q, q ∈ chunk_spans (cs ++ [c]) -> range_ok (span_range q) /\ grp (span_range q) <= grp range) ->
  Forall (fun d => group_rank (fst d) < grp range) (cs ++ [c]).
Proof.
  intros [[_ [Hc1 Hc2]%Forall_singleton]%Forall_app (Hsep & _)%StronglySorted_app] Hr Hne Hq.
  assert (group_rank (fst c) < grp range) as Hlt.
  { destruct (snd c) as [|q l] eqn:Ed; [done|]. apply Forall_cons in Hc2 as [Hc2 _].
    destruct (Hq q) as [Hq1 Hq2].
    { rewrite chunk_spans_app, chunk_spans_singleton, Ed. apply elem_of_app. right. by left. }
    rewrite <- Hc2 in Hne |- *. rewrite range_group_rank. rewrite range_group_eq in Hne by done. lia. }
  apply Forall_app. split; [|by apply Forall_singleton]. apply Forall_forall. intros a Ha.
  etrans; [apply (Hsep a c Ha); by apply list_elem_of_singleton|done].
Qed.

(** Pushing a span keeps the runs a tiling. *)
Lemma place_in_run_spec chunks sp :
  chunks_ok chunks -> range_ok (span_range sp) ->
  (forall q, q ∈ chunk_spans chunks ->
     range_ok (span_range q) /\ grp (span_range q) <= grp (span_range sp)) ->
  exists chunks',
    chunk_spans chunks' = chunk_spans chunks ++ [sp] /\ chunks_ok chunks' /\
    place_in_run (run_list 0 chunks) (length (chunk_spans chunks)) (fst <$> last chunks)
      (range_group (span_range sp)) = run_list 0 chunks' /\
    fst <$> last chunks' = Some (range_group (span_range sp)).
Proof.
  intros Hok Hr Hq. unfold place_in_run. destruct (decide (chunks = [])) as [->|Hne].
  { exists [(range_group (span_range sp), [sp])]. split_and!; [done| |done|done].
    by apply (chunks_open []). }
  destruct (exists_last Hne) as (cs & c & ->). rewrite last_snoc. cbn [fmap option_fmap option_map].
  rewrite run_list_app. cbn [run_list]. rewrite last_snoc. cbn [run_from run_v6].
  destruct (bool_decide_reflect (Some (fst c) = Some (range_group (span_range sp)))) as [Eg|Eg].
  - injection Eg as Eg. exists (cs ++ [(fst c, snd c ++ [sp])]).
    rewrite !chunk_spans_app, !chunk_spans_singleton, last_snoc. cbn [snd fst].
    split_and!; [by rewrite app_assoc|by apply chunks_grow| |by cbn; rewrite Eg].
    rewrite removelast_last, run_list_app. cbn [run_list fst snd].
    rewrite !length_app. simpl. do 2 f_equal. by rewrite Nat.add_assoc.
  - assert (fst c <> range_group (span_range sp)) as Hne' by congruence.
    exists ((cs ++ [c]) ++ [(range_group (span_range sp), [sp])]).
    rewrite chunk_spans_app, chunk_spans_singleton, last_snoc. cbn [snd fst].
    split_and!; [done| | |done].
    + apply chunks_open; [done|]. by apply chunks_below.
    + rewrite !run_list_app. cbn [run_list fst snd]. by rewrite Nat.add_0_l.
Qed.

(** ** What the builder leaves *)

Record numbering_ok (l : list Span) (rs : list Run) (total : Z) (group : option (bool * option Z)) : Prop := {
  num_numbered : numbered span_start span_len 0 l;
  num_widths : Forall (fun sp => span_len sp = width (span_range sp)) l;
  num_total : total = sum_len span_len l;
  num_fits : fits 64 total;
  num_runs : exists chunks, l = chunk_spans chunks /\ rs = run_list 0 chunks /\
    chunks_ok chunks /\ group = fst <$> last chunks;
}.

Lemma number_range_inv n done_ range :
  canon (done_ ++ [range]) -> Forall range_ok (done_ ++ [range]) ->
  done_ = (span_range <$> n_spans n) ++ n_unnumbered n ->
  numbering_ok (n_spans n) (n_runs n) (n_total n) (n_group n) ->
  let n' := number_range n range in
  done_ ++ [range] = (span_range <$> n_spans n') ++ n_unnumbered n' /\
  numbering_ok (n_spans n') (n_runs n') (n_total n') (n_group n').
Proof.
  intros (_ & _ & Hap)%canon_app [Hok Hr]%Forall_app Hd [N1 N2 N3 N4 (cs & C1 & C2 & C3 & C4)].
  apply Forall_inv in Hr.
  assert (done_ ++ [range] = (span_range <$> n_spans n) ++ n_unnumbered n ++ [range]) as Hleft
    by (by rewrite Hd, app_assoc).
  assert (numbering_ok (n_spans n) (n_runs n) (n_total n) (n_group n)) as Hsame by (split; eauto).
  unfold number_range. destruct (is_nil (n_unnumbered n)) eqn:Enil; cbn [negb]; [|by split].
  apply is_nil_spec in Enil. unfold try_into.
  destruct (Z.leb_spec (range_len range) (umax 64)) as [Hlen|]; [|by split].
  unfold checked_add. destruct (Z.leb_spec (n_total n + range_len range) (umax 64)) as [Hnext|]; [|by split].
  cbn [n_spans n_runs n_total n_group n_unnumbered]. rewrite Enil, app_nil_r in *.
  assert (range_len range = width range) as Hw.
  { pose proof (range_len_width range Hr). mlia. }
  assert (0 <= width range) by (apply range_ok_bounds in Hr; unfold width; lia).
  split; [by rewrite fmap_app, Hd|].
  destruct (place_in_run_spec cs (mkSpan range (n_total n) (range_len range)))
    as (cs' & D1 & D2 & D3 & D4); [done|done| |].
  { intros q Hq. rewrite <- C1 in Hq. assert (span_range q ∈ done_) as Hin.
    { rewrite Hd. apply list_elem_of_fmap. by exists q. }
    rewrite Forall_forall in Hok. split; [by apply Hok|].
    destruct (Hap (span_range q) range Hin) as [?|[? _]]; [by apply list_elem_of_singleton|..]; simpl in *; lia. }
  split.
  - apply numbered_app. split; [done|]. cbn. split_and!; [lia|lia|done].
  - apply Forall_app. split; [done|]. by apply Forall_singleton.
  - rewrite sum_len_app. cbn. lia.
  - unfold fits in *. lia.
  - exists cs'. split_and!; [by rewrite D1, C1| |done|done]. by rewrite <- D3, <- C2, <- C4, <- C1.
Qed.

(** A range is left out only when the numbers run out. *)
Definition left_out_ok (done_ left_out : list IpRange) : Prop :=
  left_out = [] \/ umax 64 < total_width done_.

Lemma total_width_app {R} `{Interval R} (l k : list R) :
  total_width (l ++ k) = total_width l + total_width k.
Proof. induction l as [|x l IH]; simpl; lia. Qed.

Lemma sum_len_width l :
  Forall (fun sp => span_len sp = width (span_range sp)) l ->
  sum_len span_len l = total_width (span_range <$> l).
Proof. induction 1 as [|sp l E _ IH]; simpl; [done|]. rewrite E, IH. done. Qed.

Lemma number_range_left n done_ range :
  Forall range_ok (done_ ++ [range]) ->
  done_ = (span_range <$> n_spans n) ++ n_unnumbered n ->
  numbering_ok (n_spans n) (n_runs n) (n_total n) (n_group n) ->
  left_out_ok done_ (n_unnumbered n) ->
  left_out_ok (done_ ++ [range]) (n_unnumbered (number_range n range)).
Proof.
  intros [Hok Hr]%Forall_app Hd [_ N2 N3 N4 _] Hleft. apply Forall_inv in Hr.
  pose proof (range_ok_bounds range Hr). pose proof (range_len_width range Hr) as Hw.
  pose proof (total_width_nonneg done_ (range_ok_valid _ Hok)).
  assert (total_width (done_ ++ [range]) = total_width done_ + width range) as Et
    by (rewrite total_width_app; simpl; lia).
  assert (width range = hi range - lo range + 1) as Hwd by done.
  unfold left_out_ok in *. rewrite Et. unfold number_range.
  destruct (is_nil (n_unnumbered n)) eqn:Enil; cbn [negb].
  2:{ right. destruct Hleft as [E|]; [by rewrite E in Enil|lia]. }
  apply is_nil_spec in Enil. rewrite Enil, app_nil_r in Hd.
  rewrite sum_len_width, <- Hd in N3 by done. unfold try_into, checked_add.
  destruct (Z.leb_spec (range_len range) (umax 64)); [|right; mlia].
  destruct (Z.leb_spec (n_total n + range_len range) (umax 64)); [by left|right; mlia].
Qed.

Lemma numbering_start : numbering_ok [] [] 0 None.
Proof.
  split; [done|constructor|done|mlia|]. exists []. split_and!; try done. split; constructor.
Qed.

Lemma number_ranges_inv rest n done_ :
  canon (done_ ++ rest) -> Forall range_ok (done_ ++ rest) ->
  done_ = (span_range <$> n_spans n) ++ n_unnumbered n ->
  numbering_ok (n_spans n) (n_runs n) (n_total n) (n_group n) ->
  left_out_ok done_ (n_unnumbered n) ->
  let n' := fold_left number_range rest n in
  done_ ++ rest = (span_range <$> n_spans n') ++ n_unnumbered n' /\
  numbering_ok (n_spans n') (n_runs n') (n_total n') (n_group n') /\
  left_out_ok (done_ ++ rest) (n_unnumbered n').
Proof.
  revert n done_. induction rest as [|r rest IH]; intros n done_ Hc Hok Hd Hn Hl; cbn [fold_left].
  { rewrite app_nil_r. by split_and!. }
  rewrite (cons_middle r done_ rest), app_assoc in *.
  assert (Forall range_ok (done_ ++ [r])) as Hok' by (by apply Forall_app in Hok as [? _]).
  destruct (number_range_inv n done_ r) as [H1 H2]; [|done|done|done|].
  - by apply canon_app in Hc as [? _].
  - apply IH; try done. by apply number_range_left.
Qed.

(** [p] numbers a prefix of [ranges], and keeps the rest aside. *)
Record positions_ok (p : Positions) (ranges : list IpRange) : Prop := {
  pok_ranges : ranges = (span_range <$> spans p) ++ unnumbered p;
  pok_canon : canon ranges;
  pok_range_ok : Forall range_ok ranges;
  pok_numbering : exists group, numbering_ok (spans p) (runs p) (pos_total p) group;
  pok_left_out : left_out_ok ranges (unnumbered p);
}.

Lemma of_canonical_ok s : ipset_canon s -> positions_ok (of_canonical s) (set_ranges s).
Proof.
  intros Hs. destruct (set_ranges_canon s Hs) as [Hc Hok].
  destruct (number_ranges_inv (set_ranges s) (mkNumberer [] [] 0 None []) []) as (H1 & H2 & H3);
    [done|done|done|apply numbering_start|by left|].
  split; [exact H1|done|done|by eexists|done].
Qed.

Lemma positions_of_ok s : ipset_ok s -> positions_ok (positions_of s) (set_ranges (merged s)).
Proof.
  intros Hs. pose proof (merged_canon s Hs) as Hm. unfold positions_of, merged in *.
  destruct (_ || _); by apply of_canonical_ok.
Qed.

Section Lookups.
Context (p : Positions) (ranges : list IpRange) (Hp : positions_ok p ranges).

Lemma pok_numbered : numbered span_start span_len 0 (spans p).
Proof. by destruct (pok_numbering _ _ Hp) as [g []]. Qed.

Lemma pok_total : pos_total p = sum_len span_len (spans p) /\ fits 64 (pos_total p).
Proof. by destruct (pok_numbering _ _ Hp) as [g []]. Qed.

Lemma pok_span_ok sp : sp ∈ spans p -> range_ok (span_range sp) /\ span_len sp = width (span_range sp).
Proof.
  intros Hin. destruct (pok_numbering _ _ Hp) as [g [_ Hw _ _ _]]. pose proof (pok_range_ok _ _ Hp) as Hok.
  rewrite (pok_ranges _ _ Hp), Forall_app, Forall_fmap in Hok. destruct Hok as [Hok _].
  rewrite Forall_forall in Hok, Hw. split; [by apply Hok|by apply Hw].
Qed.

Lemma pok_counted : counted span_len span_items (spans p).
Proof.
  apply Forall_forall. intros sp Hin. destruct (pok_span_ok sp Hin) as [H1 ->].
  by apply range_scoped_len.
Qed.

Lemma pok_span_bounds sp :
  sp ∈ spans p -> 0 <= span_start sp /\ 0 < span_len sp /\ span_start sp + span_len sp <= pos_total p <= umax 64.
Proof.
  intros Hin. pose proof (numbered_bounds _ _ _ _ _ pok_numbered Hin).
  destruct pok_total as [E F]. destruct (pok_span_ok sp Hin) as [Hok Hw].
  apply range_ok_bounds in Hok. unfold width, fits in *. lia.
Qed.

(** *** By position *)

Lemma span_at_spec position :
  0 <= position ->
  match span_at p position with
  | None => pos_total p <= position
  | Some i => exists sp, spans p !! i = Some sp /\
                span_start sp <= position < span_start sp + span_len sp
  end.
Proof.
  intros Hpos. unfold span_at. destruct (Z.leb_spec (pos_total p) position) as [|Hlt]; [done|].
  set (f := fun span => if span_start span +[64] span_len span <=? position then Lt
                        else if position <? span_start span then Gt else Eq).
  assert (forall sp, sp ∈ spans p ->
    f sp = if span_start sp + span_len sp <=? position then Lt
           else if position <? span_start sp then Gt else Eq) as Hf.
  { intros sp Hin. pose proof (pok_span_bounds sp Hin). unfold f. by wsimp. }
  assert (searchable f (spans p)) as Hs.
  { eapply sorted_weaken; [|exact (numbered_sorted _ _ _ _ pok_numbered)].
    intros x y Hx Hy Hxy. rewrite !Hf by done. pose proof (pok_span_bounds x Hx).
    pose proof (pok_span_bounds y Hy). simpl in Hxy.
    destruct (Z.leb_spec (span_start x + span_len x) position), (Z.ltb_spec position (span_start x)),
      (Z.leb_spec (span_start y + span_len y) position), (Z.ltb_spec position (span_start y)); simpl; lia. }
  assert (forall sp, sp ∈ spans p -> f sp = Eq <-> span_start sp <= position < span_start sp + span_len sp) as Heq.
  { intros sp Hin. rewrite Hf by done. destruct (Z.leb_spec (span_start sp + span_len sp) position),
      (Z.ltb_spec position (span_start sp)); split; intros; try done; lia. }
  destruct (numbered_cover _ _ _ _ position pok_numbered) as (k & x & Hk & Hx).
  { destruct pok_total. lia. }
  pose proof (binary_search_by_spec f (spans p) Hs) as Hb.
  destruct (binary_search_by f (spans p)) as [i|i] eqn:Eb; cbn [ok].
  - destruct Hb as (sp & Hi & E & _). exists sp. split; [done|].
    apply Heq; [by eapply list_elem_of_lookup_2|done].
  - exfalso. assert (is_ok (binary_search_by f (spans p)) = true) as H; [|by rewrite Eb in H].
    apply binary_search_is_ok; [done|]. exists x. assert (x ∈ spans p) by by eapply list_elem_of_lookup_2.
    split; [done|]. by apply Heq.
Qed.

Lemma address_within_spec r offset :
  range_ok r -> 0 <= offset <= umax 64 ->
  address_within r offset =
  if offset <? width r then Some (fst (nth_address r offset)) else None.
Proof.
  intros Hr Ho. pose proof (range_ok_bounds r Hr) as Hb. unfold address_within, checked_add, width.
  destruct r as [r|r]; simpl in *; unfold v4_ok, v6_ok in Hr.
  - rewrite (proj2 (Z.leb_le _ _)) by mlia. cbn.
    destruct (Z.ltb_spec (v4_end r) (v4_start r + offset)), (Z.ltb_spec offset (v4_end r - v4_start r + 1));
      try lia; [done|]. unfold try_into. by rewrite (proj2 (Z.leb_le _ _)) by lia.
  - destruct (Z.ltb_spec offset (v6_end r - v6_start r + 1)).
    + rewrite (proj2 (Z.leb_le _ _)) by lia. cbn. by rewrite (proj2 (Z.ltb_ge _ _)) by lia.
    + destruct (Z.leb_spec (v6_start r + offset) (umax 128)); [|done]. cbn.
      by rewrite (proj2 (Z.ltb_lt _ _)) by lia.
Qed.

Lemma address_at_spec position :
  0 <= position ->
  address_at p position = fst <$> zlookup (all_items span_items (spans p)) position.
Proof.
  intros Hpos. unfold address_at. pose proof (span_at_spec position Hpos) as Hat.
  destruct (span_at p position) as [i|]; cbn [mbind option_bind].
  - destruct Hat as (sp & Hi & Hb). rewrite Hi. cbn [mbind option_bind].
    assert (sp ∈ spans p) as Hin by by eapply list_elem_of_lookup_2.
    pose proof (pok_span_bounds sp Hin). destruct (pok_span_ok sp Hin) as [Hok Hw].
    rewrite <- (Z.sub_0_r position) at 2.
    rewrite (all_items_lookup _ _ _ _ _ _ _ _ pok_numbered pok_counted Hi Hb).
    wsimp. rewrite address_within_spec by (try done; lia). unfold span_items.
    rewrite range_scoped_lookup by done. rewrite <- Hw.
    rewrite (proj2 (Z.ltb_lt _ _)) by lia. by rewrite (proj2 (Z.leb_le _ _)) by lia.
  - destruct (zlookup _ position) eqn:E; [|done]. apply zlookup_Some_lt in E.
    rewrite (all_items_len _ _ _ pok_counted) in E. destruct pok_total. lia.
Qed.
(** *** By address *)

Definition hits (l : list Span) (ip : IpAddr) : list Span :=
  filter (fun sp => range_contains (span_range sp) ip = true) l.

Lemma hits_app l k ip : hits (l ++ k) ip = hits l ip ++ hits k ip.
Proof. apply filter_app. Qed.

Lemma hits_nil l ip : (forall sp, sp ∈ l -> range_contains (span_range sp) ip <> true) -> hits l ip = [].
Proof. apply filter_none. Qed.

Lemma range_contains_spec r ip :
  range_contains r ip = true <-> fst (range_group r) = is_ipv6 ip /\ lo r <= widen ip <= hi r.
Proof.
  destruct r, ip; cbn; rewrite ?v4_contains_spec, ?v6_contains_spec; try (split; [done|by intros [? _]]);
    (split; [done|by intros [_ ?]]).
Qed.

Lemma span_place_spec key sp :
  range_ok (span_range sp) -> span_place key sp = place key (span_range sp).
Proof.
  intros Hok. apply range_ok_bounds in Hok. unfold span_place, place in *. simpl in *.
  destruct (bounds (span_range sp)) as [start stop]; simpl in *.
  destruct (Z.ltb_spec stop key), (Z.ltb_spec key start); try done. lia.
Qed.

Lemma chunk_search (c : chunk) ip :
  canon (span_range <$> snd c) -> Forall (fun sp => range_ok (span_range sp)) (snd c) ->
  chunk_ok c -> fst (fst c) = is_ipv6 ip ->
  match binary_search_by (span_place (widen ip)) (snd c) with
  | Ok i => exists sp, snd c !! i = Some sp /\ hits (snd c) ip = [sp]
  | Err _ => hits (snd c) ip = []
  end.
Proof.
  destruct c as [g l]; cbn [fst snd]. intros Hc Hok [_ Hg] Hfam. cbn [fst snd] in Hg.
  rewrite Forall_forall in Hok, Hg.
  assert (forall sp, sp ∈ l -> range_contains (span_range sp) ip = true <->
                     span_place (widen ip) sp = Eq) as Heq.
  { intros sp Hin. rewrite range_contains_spec, (Hg sp Hin), Hfam.
    rewrite span_place_spec, place_Eq by by apply Hok. tauto. }
  assert (searchable (span_place (widen ip)) l) as Hs.
  { assert (searchable (place (widen ip)) (span_range <$> l)) as H.
    { apply (canon_searchable _ _ (group_rank g)); [done|]. rewrite Forall_fmap.
      apply Forall_forall. intros sp Hin. unfold compose. by rewrite <- range_group_rank, (Hg sp Hin). }
    unfold searchable in *. rewrite sorted_fmap in H. eapply sorted_weaken; [|exact H].
    intros x y Hx Hy. by rewrite !span_place_spec by by apply Hok. }
  pose proof (binary_search_by_spec _ l Hs) as Hb.
  destruct (binary_search_by _ l) as [i|i].
  - destruct Hb as (sp & Hi & E & Hafter). exists sp. split; [done|].
    assert (sp ∈ l) as Hin by by eapply list_elem_of_lookup_2.
    apply (filter_unique _ _ i); [done|by apply Heq|]. intros j y Hj Hy.
    assert (y ∈ l) as Hin' by by eapply list_elem_of_lookup_2.
    apply Heq in Hy; [|done]. destruct (Nat.lt_trichotomy i j) as [Hij|[->|Hij]]; [|done|].
    + by rewrite (Hafter j y Hij Hj) in Hy.
    + destruct Hc as [Hc _]. rewrite sorted_fmap in Hc.
      pose proof (StronglySorted_lookup _ _ _ _ _ _ Hc Hij Hj Hi) as Hap. cbv beta in Hap.
      rewrite span_place_spec, place_Eq in E, Hy by by apply Hok. unfold apart in Hap.
      rewrite <- !range_group_rank, (Hg sp Hin), (Hg y Hin') in Hap. lia.
  - destruct Hb as (_ & Hlt & Hgt). apply hits_nil. intros sp Hin Hc'.
    apply Heq in Hc'; [|done]. apply list_elem_of_lookup in Hin as [j Hj].
    destruct (Nat.lt_ge_cases j i) as [H|H]; [pose proof (Hlt j sp H Hj)|pose proof (Hgt j sp H Hj)]; congruence.
Qed.
(** The search over the runs, as a filter of the spans they tile. *)
Lemma hold_in_spec chunks pre ip found :
  spans p = pre ++ chunk_spans chunks -> Forall chunk_ok chunks ->
  canon (span_range <$> chunk_spans chunks) ->
  Forall (fun sp => range_ok (span_range sp)) (chunk_spans chunks) ->
  hold_in p (widen ip) (filter (fun run => run_v6 run = is_ipv6 ip) (run_list (length pre) chunks)) found =
  match found, hits (chunk_spans chunks) ip with
  | found, [] => found
  | None, [sp] => Some sp
  | _, _ => None
  end.
Proof.
  revert pre found. induction chunks as [|c cs IH]; intros pre found Hsp Hok Hc Hr.
  { by destruct found. }
  rewrite chunk_spans_cons in *. rewrite hits_app. rewrite fmap_app in Hc.
  apply Forall_cons in Hok as [Hok1 Hok2]. apply canon_app in Hc as (Hc1 & Hc2 & _).
  apply Forall_app in Hr as [Hr1 Hr2].
  assert (forall f, hold_in p (widen ip) (filter (fun run => run_v6 run = is_ipv6 ip)
    (run_list (length pre + length (snd c)) cs)) f = match f, hits (chunk_spans cs) ip with
      | f, [] => f | None, [sp] => Some sp | _, _ => None end) as IH'.
  { intros f. rewrite <- length_app. apply IH; [by rewrite <- app_assoc|done..]. }
  cbn [run_list]. destruct (decide (fst (fst c) = is_ipv6 ip)) as [Hfam|Hfam].
  - rewrite filter_cons_True by done. cbn [hold_in run_from run_to]. cbv zeta.
    replace (length pre + length (snd c) - length pre)%nat with (length (snd c)) by lia.
    rewrite Hsp, drop_app_length, take_app_length.
    pose proof (chunk_search c ip Hc1 Hr1 Hok1 Hfam) as Hs.
    destruct (binary_search_by _ (snd c)) as [i|i].
    + destruct Hs as (sp & Hi & ->). destruct found; [done|]. rewrite Hi, IH'.
      by destruct (hits (chunk_spans cs) ip).
    + by rewrite Hs, IH'.
  - rewrite filter_cons_False by done. rewrite (hits_nil (snd c)), IH'; [done|].
    intros sp Hin H. apply range_contains_spec in H as [H _]. destruct Hok1 as [_ Hg].
    rewrite Forall_forall in Hg. by rewrite (Hg sp Hin) in H.
Qed.

Lemma span_holding_spec ip :
  span_holding p ip = match hits (spans p) ip with [sp] => Some sp | _ => None end.
Proof.
  destruct (pok_numbering _ _ Hp) as [g [_ _ _ _ (cs & E1 & E2 & [Hok _] & _)]].
  unfold span_holding. rewrite E2, E1. pose proof (pok_canon _ _ Hp) as Hc.
  pose proof (pok_range_ok _ _ Hp) as Hr. rewrite (pok_ranges _ _ Hp), E1 in Hc, Hr.
  apply canon_app in Hc as (Hc & _). apply Forall_app in Hr as [Hr _]. rewrite Forall_fmap in Hr.
  etrans; [exact (hold_in_spec cs [] ip None E1 Hok Hc Hr)|]. by destruct (hits _ ip).
Qed.

Lemma nth_address_contains r i : range_ok r ->
  0 <= i < width r -> range_contains r (fst (nth_address r i)) = true /\ widen (fst (nth_address r i)) = lo r + i.
Proof.
  intros Hok Hi. rewrite range_contains_spec. unfold width in Hi. destruct r; simpl in *; repeat split; lia.
Qed.

Lemma contains_nth_address r ip :
  range_contains r ip = true -> fst (nth_address r (widen ip - lo r)) = ip.
Proof.
  rewrite range_contains_spec. destruct r, ip; simpl; intros [? ?]; try done; f_equal; lia.
Qed.

(** Where the address sits in a span that holds it. *)
Definition hit_at (ip : IpAddr) (sp : Span) : Z := span_start sp + (widen ip - lo (span_range sp)).

Lemma hit_at_bounds ip sp :
  sp ∈ hits (spans p) ip ->
  sp ∈ spans p /\ range_contains (span_range sp) ip = true /\
  span_start sp <= hit_at ip sp < span_start sp + span_len sp.
Proof.
  intros [Hc Hin]%list_elem_of_filter. destruct (pok_span_ok sp Hin) as [Hok Hw].
  split; [done|]. split; [done|]. apply range_contains_spec in Hc as [_ Hc].
  unfold hit_at. unfold width in Hw. lia.
Qed.

Lemma offset_within_spec ip sp :
  sp ∈ hits (spans p) ip -> offset_within (span_range sp) ip = Some (widen ip - lo (span_range sp)).
Proof.
  intros (Hin & Hc & Hb)%hit_at_bounds. pose proof (pok_span_bounds sp Hin) as Hsb.
  destruct (pok_span_ok sp Hin) as [Hok _]. unfold hit_at in Hb. apply range_ok_bounds in Hok.
  pose proof Hc as Hc'. apply range_contains_spec in Hc' as [_ Hr].
  unfold offset_within. replace (same_family (span_range sp) ip) with true
    by (destruct (span_range sp), ip; done). cbn [negb].
  destruct (bounds (span_range sp)) as [start stop] eqn:E.
  assert (lo (span_range sp) = start /\ hi (span_range sp) = stop) as [El Eh] by (simpl; by rewrite E).
  rewrite El, Eh in *. rewrite (proj2 (Z.ltb_ge _ start)), (proj2 (Z.ltb_ge stop _)) by lia. cbn [orb].
  unfold try_into. wsimp. by rewrite (proj2 (Z.leb_le _ _)) by lia.
Qed.

Lemma find_hits ip :
  pos_find p ip = match hit_at ip <$> hits (spans p) ip with [i] => Some i | _ => None end.
Proof.
  unfold pos_find. rewrite span_holding_spec.
  assert (forall sp, sp ∈ hits (spans p) ip -> offset_within (span_range sp) ip =
    Some (widen ip - lo (span_range sp)) /\ 0 <= hit_at ip sp <= umax 64) as Hoff.
  { intros sp Hin. split; [by apply offset_within_spec|].
    apply hit_at_bounds in Hin as (Hin & _ & Hb). pose proof (pok_span_bounds sp Hin). lia. }
  destruct (hits (spans p) ip) as [|sp [|sp' l]]; [done| |done].
  destruct (Hoff sp) as [E Hb]; [by left|]. cbn [mbind option_bind fmap list_fmap]. rewrite E.
  cbn [mbind option_bind]. unfold hit_at in *. by wsimp.
Qed.

(** The positions at which the walk yields an address are its hits. *)
Lemma elem_of_hit_at ip j :
  j ∈ hit_at ip <$> hits (spans p) ip <->
  fst <$> zlookup (all_items span_items (spans p)) j = Some ip.
Proof.
  rewrite list_elem_of_fmap. split.
  - intros (sp & -> & (Hin & Hc & Hb)%hit_at_bounds).
    destruct (pok_span_ok sp Hin) as [Hok Hw]. apply list_elem_of_lookup in Hin as [i Hi].
    rewrite <- (Z.sub_0_r (hit_at ip sp)).
    rewrite (all_items_lookup _ _ _ _ _ _ _ _ pok_numbered pok_counted Hi Hb).
    unfold span_items. rewrite range_scoped_lookup by done. unfold hit_at in *.
    rewrite (proj2 (Z.leb_le _ _)), (proj2 (Z.ltb_lt _ _)) by lia. cbn. f_equal.
    rewrite Z.add_simpl_l. by apply contains_nth_address.
  - intros ([a z] & Hj & Ea)%fmap_Some. simplify_eq/=.
    apply (all_items_inv _ _ _ _ _ _ _ pok_numbered pok_counted) in Hj as (i & sp & Hi & Hb & Hj).
    assert (sp ∈ spans p) as Hin by by eapply list_elem_of_lookup_2.
    destruct (pok_span_ok sp Hin) as [Hok Hw]. rewrite Z.add_0_l in *.
    unfold span_items in Hj. rewrite range_scoped_lookup in Hj by done.
    rewrite (proj2 (Z.leb_le _ _)), (proj2 (Z.ltb_lt _ _)) in Hj by lia. cbn in Hj.
    destruct (nth_address_contains (span_range sp) (j - span_start sp) Hok) as [H1 H2]; [lia|].
    injection Hj as Hj. rewrite Hj in *. cbn [fst] in *. exists sp.
    split; [unfold hit_at; lia|]. by apply list_elem_of_filter.
Qed.

Lemma hit_at_NoDup ip : NoDup (hit_at ip <$> hits (spans p) ip).
Proof.
  apply NoDup_fmap_2_strong.
  - intros x y Hx Hy E. apply hit_at_bounds in Hx as (Hx & _ & Bx), Hy as (Hy & _ & By).
    apply list_elem_of_lookup in Hx as [i Hi], Hy as [j Hj]. rewrite <- E in By.
    pose proof (numbered_unique _ _ _ _ _ _ _ _ _ pok_numbered Hi Hj Bx By). congruence.
  - apply NoDup_filter. apply NoDup_alt. intros i j x Hi Hj.
    assert (x ∈ spans p) as Hin by by eapply list_elem_of_lookup_2.
    pose proof (pok_span_bounds x Hin).
    apply (numbered_unique _ _ 0 (spans p) (span_start x) i j x x pok_numbered); try done; lia.
Qed.

(** An address is found exactly when one position holds it, and there. *)
Lemma find_spec ip i :
  pos_find p ip = Some i <->
  forall j, fst <$> zlookup (all_items span_items (spans p)) j = Some ip <-> j = i.
Proof.
  rewrite find_hits. setoid_rewrite <- elem_of_hit_at. pose proof (hit_at_NoDup ip) as Hnd.
  destruct (hit_at ip <$> hits (spans p) ip) as [|a [|b l]].
  - split; [done|]. intros H. by destruct (proj1 (elem_of_nil i) (proj2 (H i) eq_refl)).
  - setoid_rewrite list_elem_of_singleton. split; [by intros [= ->]|]. intros H. f_equal. by apply H.
  - split; [done|]. intros H. exfalso. apply NoDup_cons in Hnd as [Hnd _]. apply Hnd.
    assert (a = i) as -> by (apply H; by left). assert (b = i) as -> by (apply H; right; by left).
    by left.
Qed.
(** *** Ranges of positions *)

Lemma slice_of_spec r from to_ :
  range_ok r -> 0 <= from <= to_ -> to_ < width r -> to_ <= umax 64 ->
  exists part, slice_of r from to_ = Some part /\ range_ok part /\ range_group part = range_group r /\
    range_scoped part = zslice from (to_ + 1) (range_scoped r).
Proof.
  intros Hok Hf Ht Hu. unfold slice_of. rewrite !address_within_spec by (try done; lia).
  rewrite !(proj2 (Z.ltb_lt _ _)) by lia. cbn [mbind option_bind]. unfold width in *.
  destruct r as [r|r]; cbn [nth_address fst range_scoped range_ok] in *; simpl in Ht.
  - unfold v4_new. rewrite (proj2 (Z.leb_le _ _)) by lia. cbn. eexists; split; [done|].
    cbn [range_ok range_scoped]. unfold v4_ok, v4_range_iter in *. simpl. split; [mlia|]. split; [done|].
    rewrite <- !fmap_zslice, zslice_seqZ by lia. do 2 f_equal. f_equal; lia.
  - unfold v6_scoped. rewrite (proj2 (Z.leb_le _ _)) by lia. cbn.
    assert (option_filter (fun index => negb (index =? 0)) (v6_zone r) = v6_zone r) as Hz.
    { destruct Hok as (_ & _ & _ & Hz). destruct (v6_zone r) as [z|]; [|done]. simpl in *.
      by rewrite (proj2 (Z.eqb_neq _ _)) by lia. }
    rewrite Hz. eexists; split; [done|]. cbn [range_ok range_scoped]. unfold v6_ok, v6_range_iter in *. simpl.
    split; [split_and!; [mlia|mlia|mlia|tauto]|]. split; [done|].
    rewrite <- !fmap_zslice, zslice_seqZ by lia. do 2 f_equal. f_equal; lia.
Qed.

Lemma ranges_from_spec l t first stop :
  numbered span_start span_len t l -> (forall sp, sp ∈ l -> sp ∈ spans p) ->
  0 <= first < stop -> stop <= umax 64 -> (forall sp, head l = Some sp -> first < t + span_len sp) ->
  Forall range_ok (ranges_from first stop l) /\
  (ranges_from first stop l ≫= range_scoped) = zslice (first - t) (stop - t) (all_items span_items l).
Proof.
  revert t. induction l as [|sp l IH]; intros t Hn Hin Hb Hu Hh; cbn [ranges_from].
  { split; [constructor|]. symmetry. apply zslice_nil. }
  destruct Hn as (Ht & _ & Hn). assert (sp ∈ spans p) as Hsp by (apply Hin; by left).
  pose proof (pok_span_bounds sp Hsp) as Hsb. destruct (pok_span_ok sp Hsp) as [Hok Hw].
  specialize (Hh sp eq_refl). unfold all_items. rewrite bind_cons, zslice_app.
  assert (zlen (span_items sp) = span_len sp) as Hlen by (rewrite Hw; by apply range_scoped_len).
  destruct (Z.leb_spec stop (span_start sp)) as [Hend|Hend].
  { rewrite !zslice_empty by lia. split; [constructor|done]. }
  destruct (IH (t + span_len sp) Hn) as [I1 I2]; [|done|done| |].
  { intros q Hq. apply Hin. by right. }
  { intros q Hq. assert (q ∈ l) as Hql by (destruct l; [done|]; simplify_eq/=; by left).
    pose proof (pok_span_bounds q). specialize (Hin q). rewrite elem_of_cons in Hin. naive_solver lia. }
  unfold sat_sub. wsimp.
  destruct (slice_of_spec (span_range sp) (Z.max 0 (first - span_start sp))
    (Z.min (stop - span_start sp) (span_len sp) - 1)) as (part & -> & P1 & _ & P2); [done|lia|lia|lia|].
  split; [by constructor|]. rewrite bind_cons, P2, I2. f_equal.
  - unfold zslice. rewrite Ht.
    replace (Z.to_nat (Z.max 0 (first - t))) with (Z.to_nat (first - t)) by lia.
    destruct (Z.le_gt_cases (stop - t) (span_len sp)).
    + f_equal. lia.
    + rewrite !take_ge; [done|..]; rewrite length_drop; unfold zlen, span_items in *; lia.
  - f_equal; lia.
Qed.

Lemma ranges_in_spec first last :
  0 <= first ->
  Forall range_ok (ranges_in p first last) /\
  (ranges_in p first last ≫= range_scoped) =
  zslice first (Z.min last (pos_total p)) (all_items span_items (spans p)).
Proof.
  intros Hf. unfold ranges_in. destruct (Z.leb_spec (Z.min last (pos_total p)) first) as [H|H].
  { rewrite zslice_empty by lia. split; [constructor|done]. }
  pose proof (span_at_spec first Hf) as Hat. destruct (span_at p first) as [i|]; [|lia].
  destruct Hat as (sp & Hi & Hb). pose proof pok_numbered as Hn. pose proof pok_counted as Hcnt.
  destruct pok_total as [_ Hfit].
  rewrite <- (take_drop i (spans p)) in Hn, Hcnt |- *. apply numbered_app in Hn as [_ Hn].
  apply Forall_app in Hcnt as [Hcnt _]. rewrite drop_app_ge, length_take by (rewrite length_take; lia).
  assert (sum_len span_len (take i (spans p)) = span_start sp) as Et.
  { rewrite (drop_S _ _ _ Hi) in Hn. by destruct Hn as [? _]. }
  pose proof (lookup_lt_Some _ _ _ Hi).
  replace (i - i `min` length (spans p))%nat with 0%nat by lia. rewrite drop_0.
  destruct (ranges_from_spec (drop i (spans p)) (span_start sp) first (Z.min last (pos_total p)))
    as [H1 H2]; [by rewrite Z.add_0_l, Et in Hn| |lia|unfold fits in *; lia| |].
  - intros q [j Hj]%list_elem_of_lookup. rewrite lookup_drop in Hj. by eapply list_elem_of_lookup_2.
  - intros q Hq. rewrite (drop_S _ _ _ Hi) in Hq. simplify_eq/=. lia.
  - split; [done|]. rewrite H2. unfold all_items. rewrite bind_app, zslice_app.
    pose proof (all_items_len _ span_items _ Hcnt) as El. unfold all_items in El. rewrite El, Et.
    by rewrite (zslice_past first) by lia.
Qed.
End Lookups.

(** The addresses of a list of ranges, by membership and by enumeration. *)
Lemma contains_range_scoped l ip :
  Forall range_ok l ->
  (exists r, r ∈ l /\ range_contains r ip = true) <-> ip ∈ fst <$> (l ≫= range_scoped).
Proof.
  intros Hok. rewrite Forall_forall in Hok. rewrite list_elem_of_fmap. setoid_rewrite list_elem_of_bind. split.
  - intros (r & Hr & Hc). exists (nth_address r (widen ip - lo r)).
    split; [symmetry; by apply contains_nth_address|]. exists r. split; [|done].
    apply elem_of_zlookup. exists (widen ip - lo r). rewrite range_scoped_lookup by by apply Hok.
    apply range_contains_spec in Hc as [_ Hc]. unfold width.
    rewrite (proj2 (Z.leb_le _ _)), (proj2 (Z.ltb_lt _ _)) by lia. done.
  - intros ([a z] & -> & r & [j Hj]%elem_of_zlookup & Hr). exists r. split; [done|].
    rewrite range_scoped_lookup in Hj by by apply Hok.
    destruct ((0 <=? j) && (j <? width r)) eqn:Ej; [|done]. injection Hj as Hj.
    rewrite <- Hj. apply nth_address_contains; [by apply Hok|lia].
Qed.

(** ** Against the set's iterator *)

Lemma iter_scoped_ranges s : iter_scoped s = set_ranges (merged s) ≫= range_scoped.
Proof.
  unfold set_ranges. rewrite bind_app. unfold iter_scoped. f_equal.
  - induction (ips_v4 (merged s)) as [|r l IH]; [done|]. rewrite fmap_cons, !bind_cons. by rewrite IH.
  - induction (ips_v6 (merged s)) as [|r l IH]; [done|]. rewrite fmap_cons, !bind_cons. by rewrite IH.
Qed.

Section Iterator.
Context (s : IpSet) (Hs : ipset_ok s).

Lemma iter_scoped_split :
  iter_scoped s =
  all_items span_items (spans (positions_of s)) ++ (unnumbered (positions_of s) ≫= range_scoped).
Proof.
  rewrite iter_scoped_ranges, (pok_ranges _ _ (positions_of_ok s Hs)), bind_app. f_equal.
  unfold all_items, span_items. induction (spans (positions_of s)) as [|sp l IH]; [done|].
  rewrite fmap_cons, !bind_cons. by rewrite IH.
Qed.

Lemma numbered_items_len :
  zlen (all_items span_items (spans (positions_of s))) = pos_total (positions_of s).
Proof.
  pose proof (positions_of_ok s Hs) as Hp. rewrite (all_items_len span_len) by by eapply pok_counted.
  by destruct (pok_total _ _ Hp) as [-> _].
Qed.

(** Below the total, the numbered walk is the set's. *)
Lemma numbered_lookup j :
  zlookup (all_items span_items (spans (positions_of s))) j =
  if j <? pos_total (positions_of s) then zlookup (iter_scoped s) j else None.
Proof.
  rewrite iter_scoped_split, zlookup_app, numbered_items_len.
  destruct (Z.ltb_spec j (pos_total (positions_of s))); [done|].
  destruct (zlookup _ j) eqn:E; [|done]. apply zlookup_Some_lt in E.
  rewrite numbered_items_len in E. lia.
Qed.

Lemma positions_total_fits : fits 64 (pos_total (positions_of s)).
Proof. by destruct (pok_total _ _ (positions_of_ok s Hs)). Qed.

Lemma positions_total_le : pos_total (positions_of s) <= zlen (iter_scoped s).
Proof.
  rewrite iter_scoped_split, zlen_app, numbered_items_len.
  pose proof (zlen_nonneg (unnumbered (positions_of s) ≫= range_scoped)). lia.
Qed.

(** Nothing left out: the numbering is of the whole set. *)
Lemma positions_total_all :
  unnumbered (positions_of s) = [] -> pos_total (positions_of s) = zlen (iter_scoped s).
Proof. intros E. rewrite iter_scoped_split, E, zlen_app, numbered_items_len. unfold zlen. simpl. lia. Qed.

(** Ranges are left out of the numbering only when it overflows. *)
Lemma unnumbered_overflow :
  unnumbered (positions_of s) = [] <-> zlen (iter_scoped s) <= umax 64.
Proof.
  pose proof (positions_of_ok s Hs) as Hp. split.
  - intros E. rewrite <- (positions_total_all E). pose proof positions_total_fits. unfold fits in *. lia.
  - intros Hle. destruct (pok_left_out _ _ Hp) as [E|Hgt]; [done|].
    assert (forall l, Forall range_ok l -> zlen (l ≫= range_scoped) = total_width l) as Hlen.
    { induction 1 as [|r l Hr _ IH]; [done|]. rewrite bind_cons, zlen_app, IH, range_scoped_len by done. done. }
    rewrite iter_scoped_ranges, Hlen in Hle by apply Hp. lia.
Qed.

Lemma address_at_iter position :
  0 <= position ->
  address_at (positions_of s) position =
  if position <? pos_total (positions_of s) then zlookup (ipset_iter s) position else None.
Proof.
  intros Hpos. rewrite (address_at_spec _ _ (positions_of_ok s Hs)) by done.
  rewrite numbered_lookup, ipset_iter_scoped, zlookup_fmap. by destruct (_ <? _).
Qed.

Lemma find_iter ip i :
  pos_find (positions_of s) ip = Some i <->
  forall j, j < pos_total (positions_of s) /\ zlookup (ipset_iter s) j = Some ip <-> j = i.
Proof.
  rewrite (find_spec _ _ (positions_of_ok s Hs)). rewrite ipset_iter_scoped.
  assert (forall j, fst <$> zlookup (all_items span_items (spans (positions_of s))) j = Some ip <->
    j < pos_total (positions_of s) /\ zlookup (fst <$> iter_scoped s) j = Some ip) as E.
  { intros j. rewrite numbered_lookup, zlookup_fmap.
    destruct (Z.ltb_spec j (pos_total (positions_of s))); [naive_solver|].
    split; [done|]. intros [? _]. lia. }
  by setoid_rewrite E.
Qed.

Lemma ranges_in_iter first last :
  0 <= first ->
  Forall range_ok (ranges_in (positions_of s) first last) /\
  (ranges_in (positions_of s) first last ≫= range_scoped) =
  zslice first (Z.min last (pos_total (positions_of s))) (iter_scoped s).
Proof.
  intros Hf. destruct (ranges_in_spec _ _ (positions_of_ok s Hs) first last Hf) as [H1 H2].
  split; [done|]. rewrite H2, iter_scoped_split, zslice_app, numbered_items_len.
  rewrite (zslice_empty _ _ (unnumbered _ ≫= _)) by lia. by rewrite app_nil_r.
Qed.
End Iterator.

(** A position names the address the iterator reaches there: [address_at]
    is the iterator's [nth] below the total, and nothing at or past it.  The total
    fits a [u64], and it is the size of the set, with no range left out, whenever
    the set has no more than 2^64 - 1 addresses. *)
Theorem address_at_is_nth (s : IpSet) (position : Z) :
  ipset_ok s -> 0 <= position ->
  address_at (positions_of s) position =
    (if position <? pos_total (positions_of s) then zlookup (ipset_iter s) position else None) /\
  fits 64 (pos_total (positions_of s)) /\
  (unnumbered (positions_of s) = [] <-> ipset_len s <= umax 64) /\
  (ipset_len s <= umax 64 -> pos_total (positions_of s) = ipset_len s).
Proof.
  intros Hs Hpos. split; [by apply address_at_iter|].
  split; [by apply positions_total_fits|]. rewrite ipset_len_spec by done.
  fold (zlen (iter_scoped s)). split.
  - rewrite unnumbered_overflow by done. split; mlia.
  - intros Hle. assert (zlen (iter_scoped s) <= umax 64) as Hz by mlia.
    rewrite (positions_total_all s Hs) by by apply unnumbered_overflow. mlia.
Qed.

Definition sample_set : IpSet :=
  from_ranges [RV4 (mkIpv4Range 10 14); RV6 (mkIpv6Range 7 9 (Some 3)); RV6 (mkIpv6Range 8 8 None);
               RV4 (mkIpv4Range 20 20)].

Lemma sample_set_ok : ipset_ok sample_set.
Proof. apply from_ranges_spec. repeat constructor; vm_compute; congruence. Qed.

Lemma address_at_is_nth_witness :
  address_at (positions_of sample_set) 5 = Some (V4 20) /\ fits 64 (pos_total (positions_of sample_set)).
Proof.
  destruct (address_at_is_nth sample_set 5 sample_set_ok) as (H1 & H2 & _); [lia|].
  split; [rewrite H1; vm_compute; reflexivity|exact H2].
Defined.

(** [find] answers an address's position exactly when the numbered walk
    yields the address once, and answers where; an address held on two
    interfaces, or on none, has no position.  So a found position leads back to
    the address. *)
Theorem find_is_unique_position (s : IpSet) (ip : IpAddr) (i : Z) :
  ipset_ok s ->
  (pos_find (positions_of s) ip = Some i <->
   forall j, j < pos_total (positions_of s) /\ zlookup (ipset_iter s) j = Some ip <-> j = i) /\
  (pos_find (positions_of s) ip = Some i ->
   fits 64 i /\ address_at (positions_of s) i = Some ip).
Proof.
  intros Hs. pose proof (find_iter s Hs ip i) as E. split; [done|]. intros H.
  destruct (proj2 (proj1 E H i) eq_refl) as [Hlt Hi].
  pose proof (zlookup_Some_lt _ _ _ Hi). pose proof (positions_total_fits s Hs).
  split; [unfold fits in *; lia|]. rewrite address_at_iter by (try done; lia).
  by rewrite (proj2 (Z.ltb_lt _ _)).
Qed.

Lemma find_is_unique_position_witness :
  pos_find (positions_of sample_set) (V6 8) = None /\
  pos_find (positions_of sample_set) (V6 9) = Some 9 /\
  address_at (positions_of sample_set) 9 = Some (V6 9).
Proof.
  split; [vm_compute; reflexivity|]. split; [vm_compute; reflexivity|].
  destruct (find_is_unique_position sample_set (V6 9) 9 sample_set_ok) as [_ H].
  apply H. vm_compute. reflexivity.
Defined.

(** A range of positions is the ranges that hold it: the addresses of
    [ranges_in first..last], each on its interface and in order, are the
    iterator's from [first] up to [last] or the total, whichever is less. *)
Theorem ranges_in_is_slice (s : IpSet) (first last : Z) :
  ipset_ok s -> 0 <= first ->
  Forall range_ok (ranges_in (positions_of s) first last) /\
  (ranges_in (positions_of s) first last ≫= range_scoped) =
  zslice first (Z.min last (pos_total (positions_of s))) (iter_scoped s).
Proof. intros Hs. by apply ranges_in_iter. Qed.

Lemma ranges_in_is_slice_witness :
  ranges_in (positions_of sample_set) 3 7 =
    [RV4 (mkIpv4Range 13 14); RV4 (mkIpv4Range 20 20); RV6 (mkIpv6Range 8 8 None)] /\
  Forall range_ok (ranges_in (positions_of sample_set) 3 7).
Proof.
  split; [vm_compute; reflexivity|].
  apply (ranges_in_is_slice sample_set 3 7 sample_set_ok). lia.
Defined.
