(* ===== verification/PortSet.v ===== *)
(** * Port sets

    [src/src/model/port/set.rs], [PortSet]: one vector of disjoint ranges per
    transport, with the set algebra over them.  The written form is in
    [PortSpec]. *)

From Stdlib Require Import ZArith Lia.
From stdpp Require Import base numbers sets sorting option list.
From S2P Require Import Prelude Std Intervals Subtract Numbering IpSet.

Local Open Scope Z_scope.
Local Open Scope word_scope.

(** ** Definitions *)

(** [Protocol], from [src/src/model/port.rs]. *)
Inductive Protocol := Tcp | Udp | Sctp.

#[export] Instance Protocol_eq_dec : EqDecision Protocol.
Proof. solve_decision. Defined.

Definition Protocol_ALL : list Protocol := [Tcp; Udp; Sctp].

(** A [RangeInclusive<u16>] is the pair of its bounds. *)
Definition PortRange : Type := Z * Z.

Record PortSet := mkPortSet {
  ps_tcp : list PortRange;
  ps_udp : list PortRange;
  ps_sctp : list PortRange;
}.

#[export] Instance PortSet_eq_dec : EqDecision PortSet.
Proof. solve_decision. Defined.

Definition portset_new : PortSet := mkPortSet [] [] [].

Definition ranges (s : PortSet) (protocol : Protocol) : list PortRange :=
  match protocol with Tcp => ps_tcp s | Udp => ps_udp s | Sctp => ps_sctp s end.

(** Writing through [lane_mut]. *)
Definition update_lane (s : PortSet) (protocol : Protocol) (f : list PortRange -> list PortRange) : PortSet :=
  match protocol with
  | Tcp => mkPortSet (f (ps_tcp s)) (ps_udp s) (ps_sctp s)
  | Udp => mkPortSet (ps_tcp s) (f (ps_udp s)) (ps_sctp s)
  | Sctp => mkPortSet (ps_tcp s) (ps_udp s) (f (ps_sctp s))
  end.

(** Counts are [usize]s of at most 3 * 65536, so plain sums. *)
Definition len_on (s : PortSet) (protocol : Protocol) : Z :=
  foldr (fun range n => ((snd range -[16] fst range) + 1) + n) 0 (ranges s protocol).

Definition portset_len (s : PortSet) : Z :=
  foldr (fun protocol n => len_on s protocol + n) 0 Protocol_ALL.

Definition portset_is_empty (s : PortSet) : bool :=
  forallb (fun protocol => is_nil (ranges s protocol)) Protocol_ALL.

Definition portset_iter (s : PortSet) : list (Z * Protocol) :=
  Protocol_ALL ≫= fun protocol =>
  ranges s protocol ≫= fun range =>
  (fun port => (port, protocol)) <$> seqZ (fst range) (snd range - fst range + 1).

Definition port_joins (current next : PortRange) : bool := fst next <=? sat_add 16 (snd current) 1.

Definition port_absorb (current next : PortRange) : PortRange :=
  if snd current <? snd next then (fst current, snd next) else current.

Definition port_key_le (a b : PortRange) : bool := fst a <=? fst b.

Definition merge_ranges (l : list PortRange) : list PortRange :=
  if is_nil l then l
  else
    match sort_by port_key_le l with
    | [] => []
    | current :: rest => coalesce port_joins port_absorb current rest
    end.

Definition union (s other : PortSet) : PortSet :=
  fold_left (fun merged protocol =>
    update_lane merged protocol (fun lane =>
      merge_ranges ((lane ++ ranges s protocol) ++ ranges other protocol)))
    Protocol_ALL portset_new.

(** What [difference]'s loop over the cuts pushes for a range that ends at
    [stop], from [rest] on. *)
Fixpoint cut_lane (stop : Z) (rest : option Z) (cuts : list PortRange) : list PortRange :=
  match cuts with
  | [] => match rest with Some start => [(start, stop)] | None => [] end
  | cut :: cuts =>
      match rest with
      | None => []
      | Some start =>
          if snd cut <? start then cut_lane stop rest cuts
          else if stop <? fst cut then [(start, stop)]
          else
            (if start <? fst cut then [(start, fst cut -[16] 1)] else []) ++
            cut_lane stop (option_filter (fun next => next <=? stop) (checked_add 16 (snd cut) 1)) cuts
      end
  end.

Definition difference (s other : PortSet) : PortSet :=
  fold_left (fun kept protocol =>
    update_lane kept protocol (fun lane =>
      lane ++ (ranges s protocol ≫= fun range =>
               cut_lane (snd range) (Some (fst range)) (ranges other protocol))))
    Protocol_ALL portset_new.

Definition port_place (port : Z) (range : PortRange) : comparison :=
  if port <? fst range then Gt else if snd range <? port then Lt else Eq.

Definition portset_contains (s : PortSet) (port : Z) (protocol : Protocol) : bool :=
  is_ok (binary_search_by (port_place port) (ranges s protocol)).

(** [FromIterator<(u16, Protocol)>]. *)
Definition merge_lanes (s : PortSet) : PortSet :=
  fold_left (fun s protocol => update_lane s protocol merge_ranges) Protocol_ALL s.

Definition from_ports (ports : list (Z * Protocol)) : PortSet :=
  merge_lanes
    (fold_left (fun s '(port, protocol) => update_lane s protocol (fun lane => lane ++ [(port, port)]))
       ports portset_new).

Definition COMMON_DISCOVERY_PORTS : list Z := [22; 80; 443; 445; 3389].

Definition common_discovery : PortSet := from_ports ((fun port => (port, Tcp)) <$> COMMON_DISCOVERY_PORTS).

(** ** The invariant *)

Definition port_ok (r : PortRange) : Prop := 0 <= fst r /\ fst r <= snd r /\ snd r <= umax 16.

Definition lane_ok (l : list PortRange) : Prop := canon l /\ Forall port_ok l.

(** Every public constructor keeps this; the lanes are merged before they are
    readable. *)
Definition portset_ok (s : PortSet) : Prop := forall protocol, lane_ok (ranges s protocol).

(** A lane named twice in a fold is written once. *)
Lemma ranges_update_lane s p q f :
  ranges (update_lane s p f) q = if decide (p = q) then f (ranges s q) else ranges s q.
Proof. by destruct p, q. Qed.

Lemma ranges_fold_lanes (f : Protocol -> list PortRange -> list PortRange) s q :
  ranges (fold_left (fun s p => update_lane s p (f p)) Protocol_ALL s) q = f q (ranges s q).
Proof. by destruct q. Qed.

Lemma ranges_new q : ranges portset_new q = [].
Proof. by destruct q. Qed.

Lemma ranges_union s other q :
  ranges (union s other) q = merge_ranges (ranges s q ++ ranges other q).
Proof. unfold union. rewrite (ranges_fold_lanes (fun p lane => _)). by rewrite ranges_new. Qed.

Lemma ranges_merge_lanes s q : ranges (merge_lanes s) q = merge_ranges (ranges s q).
Proof. apply (ranges_fold_lanes (fun _ => merge_ranges)). Qed.

(** The lane [difference] leaves. *)
Definition diff_lane (l cuts : list PortRange) : list PortRange :=
  l ≫= fun range => cut_lane (snd range) (Some (fst range)) cuts.

Lemma ranges_difference s other q :
  ranges (difference s other) q = diff_lane (ranges s q) (ranges other q).
Proof. unfold difference. rewrite (ranges_fold_lanes (fun p lane => _)). by rewrite ranges_new. Qed.

(** ** Merging *)

Lemma port_ok_valid l : Forall port_ok l -> Forall iv_valid l.
Proof. intros H. eapply Forall_impl; [exact H|]. unfold port_ok, iv_valid. simpl. lia. Qed.

Lemma lane_ok_nil : lane_ok [].
Proof. by split. Qed.

Lemma merge_ranges_spec l :
  Forall port_ok l ->
  lane_ok (merge_ranges l) /\ forall x, den (merge_ranges l) 0 x <-> den l 0 x.
Proof.
  intros Hl. unfold merge_ranges. destruct (is_nil l) eqn:Enil.
  { apply is_nil_spec in Enil. subst l. by split. }
  assert (Forall port_ok (sort_by port_key_le l)) as Hok by (by rewrite sort_by_perm).
  assert (StronglySorted key_le (sort_by port_key_le l)) as Hs.
  { assert (StronglySorted (fun a b => port_key_le a b = true) (sort_by port_key_le l)) as Hs.
    { apply sort_by_sorted; unfold port_key_le; lia. }
    eapply sorted_weaken; [|exact Hs]. intros a b _ _. unfold port_key_le, key_le. simpl. lia. }
  assert (forall x, den (sort_by port_key_le l) 0 x <-> den l 0 x) as Hden
    by (intros; apply den_perm, sort_by_perm).
  destruct (sort_by port_key_le l) as [|c rest]; [by split|].
  pose proof (port_ok_valid _ Hok) as Hv. inversion Hok; inversion Hv; subst.
  destruct (coalesce_spec port_joins port_absorb port_ok) with (c := c) (rest := rest)
    as (M1 & M2 & _ & M4); [..|done|done|done|done|done|].
  - unfold port_joins, port_ok. simpl. intros. rewrite Z.leb_le. mlia.
  - unfold port_joins, port_absorb, port_ok. simpl. intros c' n' ? ? _.
    destruct (Z.ltb_spec (snd c') (snd n')); simpl; repeat split; lia.
  - split; [done|]. intros x. by rewrite M4.
Qed.

Lemma pair_den_group (l : list PortRange) g x : den l g x <-> g = 0 /\ den l 0 x.
Proof. unfold den, iv_in. simpl. naive_solver. Qed.

(** Two merged lanes that hold the same ports are the same lane. *)
Lemma lane_unique l k : lane_ok l -> lane_ok k -> (forall x, den l 0 x <-> den k 0 x) -> l = k.
Proof.
  intros [Hl Hl'] [Hk Hk'] E. apply (canon_unique port_ok); try done.
  - intros [] [] _ _; simpl. by intros _ -> ->.
  - intros g x. rewrite (pair_den_group l), (pair_den_group k), E. done.
Qed.

Lemma merge_ranges_id l : lane_ok l -> merge_ranges l = l.
Proof. intros Hl. apply lane_unique; [by apply merge_ranges_spec, Hl|done|]. apply merge_ranges_spec, Hl. Qed.

(** ** Cutting: the same algorithm as over addresses *)

Definition pair_rebuild (_ : PortRange) (s e : Z) : PortRange := (s, e).

Lemma cut_lane_None stop cuts : cut_lane stop None cuts = [].
Proof. by destruct cuts. Qed.

Lemma skip_left_live start cuts : Forall (fun c => start <= snd c) cuts -> skip_left start cuts = cuts.
Proof. destruct 1; simpl; [done|]. by rewrite (proj2 (Z.ltb_ge _ _)). Qed.

Lemma skip_left_skip a b cuts : a <= b -> skip_left b (skip_left a cuts) = skip_left b cuts.
Proof.
  intros Hab. induction cuts as [|c cuts IH]; simpl; [done|].
  destruct (Z.ltb_spec (snd c) a); [|done]. by rewrite (proj2 (Z.ltb_lt _ b)) by lia.
Qed.

Lemma cut_lane_cut_range range start stop cuts :
  lane_ok cuts -> 0 <= start <= stop -> stop <= umax 16 ->
  cut_lane stop (Some start) cuts = cut_range pair_rebuild range start stop (skip_left start cuts).
Proof.
  intros [Hc Hok] Hb Hs. revert start Hb. induction cuts as [|[cs ce] cuts IH]; intros start Hb; [done|].
  apply canon_cons in Hc as (Hap & _ & Hc). inversion Hok as [|? ? Hr Hok']; subst.
  unfold port_ok in Hr. cbn [cut_lane skip_left fst snd] in *.
  destruct (Z.ltb_spec ce start) as [Hlt|Hge]; [by apply IH|]. cbn [cut_range].
  destruct (Z.ltb_spec stop cs) as [Hlt|Hle].
  { by rewrite (proj2 (Z.leb_gt _ _)). }
  rewrite (proj2 (Z.leb_le _ _)) by done. f_equal.
  { destruct (Z.ltb_spec start cs); [|done]. unfold pair_rebuild. by wsimp. }
  unfold checked_add. destruct (Z.leb_spec stop ce).
  { destruct (Z.leb_spec (ce + 1) (umax 16)); [|apply cut_lane_None]. cbn [option_filter].
    rewrite (proj2 (Z.leb_gt _ _)) by lia. apply cut_lane_None. }
  rewrite (proj2 (Z.leb_le _ _)) by lia. cbn [option_filter]. rewrite (proj2 (Z.leb_le _ _)) by lia.
  rewrite IH by (try done; lia). wsimp. f_equal. apply skip_left_live.
  rewrite Forall_forall in Hap, Hok' |- *. intros c Hin. specialize (Hap c Hin). specialize (Hok' c Hin).
  unfold apart, port_ok in *. simpl in *. lia.
Qed.

(** [PortSet::difference] walks its cuts afresh for each range; [IpSet::subtract]
    keeps its place.  They leave the same pieces. *)
Lemma diff_lane_subtract_run l cuts :
  lane_ok l -> lane_ok cuts ->
  diff_lane l cuts = subtract_run id pair_rebuild l cuts.
Proof.
  intros [Hl Hok] Hc.
  assert (forall from, Forall (fun r => from <= fst r) l ->
    diff_lane l cuts = subtract_run id pair_rebuild l (skip_left from cuts)) as H.
  { induction l as [|r l IH]; intros from Hf; [done|]. unfold diff_lane in *.
    apply canon_cons in Hl as (Hap & Hv & Hl). inversion Hok as [|? ? Hr Hok']; inversion Hf; subst.
    rewrite bind_cons. cbn [subtract_run]. destruct r as [a b]. cbn [id fst snd] in *. unfold port_ok in Hr.
    cbn [fst snd] in Hr. rewrite skip_left_skip by done. f_equal.
    - apply cut_lane_cut_range; [done|lia|lia].
    - apply IH; [done|done|]. rewrite Forall_forall in Hap, Hok' |- *. intros q Hq.
      specialize (Hap q Hq). unfold apart in Hap. simpl in *. lia. }
  rewrite (H 0), skip_left_live; [done| |].
  - eapply Forall_impl; [apply Hc|]. unfold port_ok. intros c ?. lia.
  - eapply Forall_impl; [apply Hok|]. unfold port_ok. intros c ?. lia.
Qed.

Lemma diff_lane_spec l cuts :
  lane_ok l -> lane_ok cuts ->
  lane_ok (diff_lane l cuts) /\ forall x, den (diff_lane l cuts) 0 x <-> den l 0 x /\ ~ den cuts 0 x.
Proof.
  intros Hl Hc. rewrite diff_lane_subtract_run by done. destruct Hl as [Hl Hlok], Hc as [Hc Hcok].
  destruct (subtract_run_spec id pair_rebuild port_ok) with (run := l) (cuts := cuts) (g := 0)
    as (S1 & S2 & _ & S4); [| | |done|done| |done| |].
  - by intros [].
  - unfold port_ok. simpl. intros r Hr. mlia.
  - unfold port_ok. simpl. intros r s e Hr ? ? ?. repeat split; lia.
  - by apply Forall_forall.
  - eapply Forall_impl; [exact Hcok|]. unfold port_ok, cut_ok. intros r Hr. mlia.
  - split; [by split|]. intros x. apply S4.
Qed.

(** ** Lookups *)

Lemma portset_contains_spec s port protocol :
  portset_ok s -> portset_contains s port protocol = true <-> den (ranges s protocol) 0 port.
Proof.
  intros Hs. unfold portset_contains. change (port_place port) with (place (R := PortRange) port).
  apply (search_den port _ 0); [apply Hs|]. by apply Forall_forall.
Qed.

Lemma elem_of_portset_iter s port protocol :
  (port, protocol) ∈ portset_iter s <-> den (ranges s protocol) 0 port.
Proof.
  unfold portset_iter. rewrite list_elem_of_bind. split.
  - intros (q & (r & (x & [= -> ->] & Hx%elem_of_seqZ)%list_elem_of_fmap & Hr)%list_elem_of_bind & _).
    exists r. split; [done|]. unfold iv_in. simpl. lia.
  - intros (r & Hr & _ & Hx). simpl in Hx. exists protocol. split; [|destruct protocol; set_solver].
    apply list_elem_of_bind. exists r. split; [|done]. apply list_elem_of_fmap. exists port.
    split; [done|]. apply elem_of_seqZ. lia.
Qed.

Definition lane_iter (l : list PortRange) (protocol : Protocol) : list (Z * Protocol) :=
  l ≫= fun range => (fun port => (port, protocol)) <$> seqZ (fst range) (snd range - fst range + 1).

Lemma lane_iter_enum l protocol : (fun p : Z * Protocol => (0, fst p)) <$> lane_iter l protocol = enum l.
Proof.
  induction l as [|r l IH]; [done|]. unfold lane_iter in *. rewrite bind_cons, fmap_app, IH, enum_cons.
  f_equal. rewrite <- list_fmap_compose. by apply list_fmap_ext.
Qed.

Lemma portset_iter_lanes s :
  portset_iter s = lane_iter (ps_tcp s) Tcp ++ lane_iter (ps_udp s) Udp ++ lane_iter (ps_sctp s) Sctp.
Proof. unfold portset_iter. cbn. by rewrite app_nil_r. Qed.

Lemma lane_iter_protocol l protocol p : p ∈ lane_iter l protocol -> snd p = protocol.
Proof.
  unfold lane_iter. intros (r & (x & -> & _)%list_elem_of_fmap & _)%list_elem_of_bind. done.
Qed.

Lemma NoDup_lane_iter l protocol : canon l -> NoDup (lane_iter l protocol).
Proof.
  intros Hl. apply (NoDup_fmap_1 (fun p : Z * Protocol => (0, fst p))). rewrite lane_iter_enum.
  by apply NoDup_enum.
Qed.

Lemma NoDup_portset_iter s : portset_ok s -> NoDup (portset_iter s).
Proof.
  intros Hs. rewrite portset_iter_lanes.
  rewrite !NoDup_app. split_and!; try (apply NoDup_lane_iter).
  - apply (Hs Tcp).
  - intros p Hp%lane_iter_protocol [Hq%lane_iter_protocol|Hq%lane_iter_protocol]%elem_of_app; congruence.
  - apply (Hs Udp).
  - intros p Hp%lane_iter_protocol Hq%lane_iter_protocol. congruence.
  - apply (Hs Sctp).
Qed.

Lemma zlen_lane_iter l protocol : Forall port_ok l -> zlen (lane_iter l protocol) = total_width l.
Proof.
  intros Hl. unfold zlen. rewrite <- length_enum by by apply port_ok_valid.
  by rewrite <- (lane_iter_enum l protocol), length_fmap.
Qed.

Lemma len_on_width s protocol : portset_ok s -> len_on s protocol = total_width (ranges s protocol).
Proof.
  intros Hs. destruct (Hs protocol) as [_ Hok]. unfold len_on.
  induction Hok as [|r l Hr _ IH]; [done|]. cbn [foldr total_width]. rewrite IH.
  unfold port_ok, width in *. simpl. by wsimp.
Qed.

Lemma portset_len_iter s : portset_ok s -> portset_len s = zlen (portset_iter s).
Proof.
  intros Hs. unfold portset_len. cbn [foldr Protocol_ALL]. rewrite !len_on_width by done.
  rewrite portset_iter_lanes, !zlen_app, !zlen_lane_iter by apply (Hs Tcp) || apply (Hs Udp) || apply (Hs Sctp).
  cbn [ranges]. lia.
Qed.

(** ** Collecting *)

Definition push_port (s : PortSet) (p : Z * Protocol) : PortSet :=
  update_lane s (snd p) (fun lane => lane ++ [(fst p, fst p)]).

Lemma push_ports_spec ports s q :
  Forall (fun p => fits 16 (fst p)) ports -> Forall port_ok (ranges s q) ->
  Forall port_ok (ranges (fold_left push_port ports s) q) /\
  forall x, den (ranges (fold_left push_port ports s) q) 0 x <->
            den (ranges s q) 0 x \/ (x, q) ∈ ports.
Proof.
  revert s. induction ports as [|[a p] ports IH]; intros s Hp Hs; cbn [fold_left].
  { split; [done|]. intros x. rewrite elem_of_nil. tauto. }
  inversion Hp as [|? ? Ha Hp']; subst. cbn [fst] in Ha.
  assert (Forall port_ok (ranges (push_port s (a, p)) q) /\ forall x,
    den (ranges (push_port s (a, p)) q) 0 x <-> den (ranges s q) 0 x \/ (x, q) = (a, p)) as [H1 H2].
  { unfold push_port. cbn [fst snd]. rewrite ranges_update_lane. destruct (decide (p = q)) as [->|Hne].
    - split.
      + apply Forall_app. split; [done|]. apply Forall_singleton. unfold port_ok. simpl. mlia.
      + intros x. rewrite den_app, den_cons, den_nil. unfold iv_in. simpl.
        assert ((x, q) = (a, q) <-> x = a) as -> by (split; congruence). intuition lia.
    - split; [done|]. intros x. naive_solver congruence. }
  destruct (IH (push_port s (a, p)) Hp' H1) as [I1 I2]. split; [done|].
  intros x. rewrite I2, H2, elem_of_cons. tauto.
Qed.

Lemma from_ports_spec ports :
  Forall (fun p => fits 16 (fst p)) ports ->
  portset_ok (from_ports ports) /\
  forall x q, den (ranges (from_ports ports) q) 0 x <-> (x, q) ∈ ports.
Proof.
  intros Hp. assert (forall q, ranges (from_ports ports) q =
    merge_ranges (ranges (fold_left push_port ports portset_new) q)) as E.
  { intros q. unfold from_ports. rewrite ranges_merge_lanes. f_equal.
    assert (forall l s, fold_left (fun s '(port, protocol) =>
      update_lane s protocol (fun lane => lane ++ [(port, port)])) l s = fold_left push_port l s) as F.
    { induction l as [|[] l IH]; intros s; simpl; [done|]. by rewrite IH. }
    by rewrite F. }
  assert (forall q, Forall port_ok (ranges portset_new q)) as Hnew by (by intros []).
  split.
  - intros q. rewrite E. apply merge_ranges_spec, push_ports_spec; [done|apply Hnew].
  - intros x q. rewrite E. destruct (push_ports_spec ports portset_new q Hp (Hnew q)) as [H1 H2].
    rewrite (proj2 (merge_ranges_spec _ H1)), H2, ranges_new, den_nil. tauto.
Qed.

Lemma portset_unique s t :
  portset_ok s -> portset_ok t -> (forall x q, den (ranges s q) 0 x <-> den (ranges t q) 0 x) -> s = t.
Proof.
  intros Hs Ht E. destruct s as [s1 s2 s3], t as [t1 t2 t3].
  assert (forall q, ranges (mkPortSet s1 s2 s3) q = ranges (mkPortSet t1 t2 t3) q) as H.
  { intros q. apply lane_unique; [apply Hs|apply Ht|]. intros x. apply E. }
  f_equal; [apply (H Tcp)|apply (H Udp)|apply (H Sctp)].
Qed.

Lemma lane_width_bound l from :
  canon l -> Forall port_ok l -> Forall (fun r => from <= fst r) l -> from <= umax 16 + 1 ->
  total_width l <= umax 16 + 1 - from.
Proof.
  revert from. induction l as [|r l IH]; intros from Hc Hok Hf Hb; cbn [total_width]; [lia|].
  apply canon_cons in Hc as (Hap & _ & Hc). apply Forall_cons in Hok as [Hr Hok].
  apply Forall_cons in Hf as [Hfr _]. unfold port_ok in Hr. specialize (IH (snd r + 1) Hc Hok).
  assert (total_width l <= umax 16 + 1 - (snd r + 1)); [|unfold width; simpl; lia].
  apply IH; [|lia]. eapply Forall_impl; [exact Hap|]. unfold apart. simpl. lia.
Qed.

(** No port set holds more than three lanes of every port. *)
Lemma portset_len_bound s : portset_ok s -> zlen (portset_iter s) <= 3 * (umax 16 + 1).
Proof.
  intros Hs. rewrite portset_iter_lanes, !zlen_app.
  rewrite !zlen_lane_iter by apply (Hs Tcp) || apply (Hs Udp) || apply (Hs Sctp).
  assert (forall q, total_width (ranges s q) <= umax 16 + 1) as H.
  { intros q. destruct (Hs q) as [Hc Hok]. rewrite <- (Z.sub_0_r (umax 16 + 1)).
    apply lane_width_bound; [done|done| |mlia]. eapply Forall_impl; [exact Hok|].
    unfold port_ok. intros r ?. lia. }
  pose proof (H Tcp). pose proof (H Udp). pose proof (H Sctp). cbn [ranges] in *. lia.
Qed.

Lemma lane_pos l : Forall port_ok l -> is_nil l = negb (0 <? total_width l).
Proof.
  intros Hl. destruct Hl as [|r l Hr Hl]; [done|]. cbn [is_nil total_width].
  pose proof (total_width_nonneg l (port_ok_valid l Hl)). unfold port_ok, width in *. simpl.
  by rewrite (proj2 (Z.ltb_lt _ _)) by lia.
Qed.

Lemma portset_len_pos s : portset_ok s -> 0 < portset_len s <-> portset_is_empty s = false.
Proof.
  intros Hs. unfold portset_len, portset_is_empty, Protocol_ALL. cbn [foldr forallb].
  rewrite !len_on_width by done. rewrite !lane_pos by apply Hs.
  pose proof (fun q => total_width_nonneg _ (port_ok_valid _ (proj2 (Hs q)))) as Hnn.
  pose proof (Hnn Tcp). pose proof (Hnn Udp). pose proof (Hnn Sctp).
  destruct (Z.ltb_spec 0 (total_width (ranges s Tcp))), (Z.ltb_spec 0 (total_width (ranges s Udp))),
    (Z.ltb_spec 0 (total_width (ranges s Sctp))); cbn [negb andb]; split; intros; try done; lia.
Qed.

(** The set algebra of ports.  [union] holds what either set holds and
    [difference] what the first holds and the second does not, transport by
    transport, both in merged form, so two port sets are equal values exactly
    when [contains] tells them apart nowhere. *)
Theorem port_algebra (s t : PortSet) :
  portset_ok s -> portset_ok t ->
  portset_ok (union s t) /\ portset_ok (difference s t) /\
  (forall port protocol,
     portset_contains (union s t) port protocol =
       portset_contains s port protocol || portset_contains t port protocol) /\
  (forall port protocol,
     portset_contains (difference s t) port protocol =
       portset_contains s port protocol && negb (portset_contains t port protocol)) /\
  ((forall port protocol, portset_contains s port protocol = portset_contains t port protocol) -> s = t).
Proof.
  intros Hs Ht.
  assert (portset_ok (union s t)) as Hu.
  { intros q. rewrite ranges_union. apply merge_ranges_spec, Forall_app. split; [apply Hs|apply Ht]. }
  assert (portset_ok (difference s t)) as Hd.
  { intros q. rewrite ranges_difference. by apply diff_lane_spec. }
  split; [done|]. split; [done|]. split; [|split].
  - intros port q. apply eq_iff_eq_true. rewrite orb_true_iff, !portset_contains_spec by done.
    rewrite ranges_union. rewrite (proj2 (merge_ranges_spec _ (proj2 (Forall_app _ _ _) (conj (proj2 (Hs q)) (proj2 (Ht q)))))).
    apply den_app.
  - intros port q. apply eq_iff_eq_true. rewrite andb_true_iff, negb_true_iff, <- not_true_iff_false.
    rewrite !portset_contains_spec by done. rewrite ranges_difference. by apply diff_lane_spec.
  - intros E. apply portset_unique; [done|done|]. intros x q. rewrite <- !portset_contains_spec by done.
    by rewrite E.
Qed.

Definition sample_ports : PortSet := mkPortSet [(1, 1024); (8080, 8080)] [(53, 53)] [].

(** Closes [lane_ok] of a written-out lane. *)
Ltac solve_lane :=
  split; [split|];
  repeat first [apply SSorted_nil | apply SSorted_cons | apply Forall_nil_2 | apply Forall_cons_2];
  try (right; simpl; lia); try (unfold iv_valid; simpl; lia); try (unfold port_ok, umax; simpl; lia).

Lemma sample_ports_ok : portset_ok sample_ports.
Proof. intros []; solve_lane. Qed.

Lemma port_algebra_witness :
  let cut := mkPortSet [(22, 22); (100, 2000)] [(53, 53)] [(1, 1)] in
  difference sample_ports cut = mkPortSet [(1, 21); (23, 99); (8080, 8080)] [] [] /\
  portset_ok (difference sample_ports cut) /\
  portset_contains (difference sample_ports cut) 22 Tcp = false.
Proof.
  intros cut.
  assert (portset_ok cut) as Hc by (intros []; solve_lane).
  destruct (port_algebra sample_ports cut sample_ports_ok Hc) as (_ & H2 & _ & H4 & _).
  split; [vm_compute; reflexivity|]. split; [exact H2|]. rewrite H4. vm_compute. reflexivity.
Defined.

(** Enumerating ports.  The iterator yields exactly the ports [contains]
    reports, each once, [len] counts them, and collecting them again gives the
    same set. *)
Theorem port_iter_exact (s : PortSet) :
  portset_ok s ->
  NoDup (portset_iter s) /\
  (forall port protocol, (port, protocol) ∈ portset_iter s <-> portset_contains s port protocol = true) /\
  portset_len s = zlen (portset_iter s) /\
  (portset_is_empty s = true <-> portset_iter s = []) /\
  from_ports (portset_iter s) = s.
Proof.
  intros Hs. split; [by apply NoDup_portset_iter|]. split; [|split; [by apply portset_len_iter|split]].
  - intros port q. by rewrite elem_of_portset_iter, portset_contains_spec.
  - unfold portset_is_empty, Protocol_ALL. cbn [forallb ranges]. rewrite andb_true_r, !andb_true_iff, !is_nil_spec. split.
    + intros (E1 & E2 & E3). rewrite portset_iter_lanes. by rewrite E1, E2, E3.
    + intros E. assert (forall q, ranges s q = []) as H.
      { intros q. destruct (Hs q) as [_ Hok]. destruct (ranges s q) as [|[a b] l] eqn:El; [done|].
        exfalso. inversion Hok as [|? ? Hr _]; subst. unfold port_ok in Hr. simpl in Hr.
        assert ((a, q) ∈ portset_iter s) as Hin; [|rewrite E in Hin; by apply elem_of_nil in Hin].
        apply elem_of_portset_iter. rewrite El, den_cons. left. unfold iv_in. simpl. lia. }
      split; [apply (H Tcp)|split; [apply (H Udp)|apply (H Sctp)]].
  - destruct (from_ports_spec (portset_iter s)) as [H1 H2].
    { apply Forall_forall. intros [x q] Hin. apply elem_of_portset_iter in Hin as (r & Hr & _ & Hx).
      destruct (Hs q) as [_ Hok]. rewrite Forall_forall in Hok. specialize (Hok r Hr).
      unfold port_ok, fits in *. simpl in *. lia. }
    apply portset_unique; [done|done|]. intros x q. by rewrite H2, elem_of_portset_iter.
Qed.

Lemma port_iter_exact_witness :
  portset_len sample_ports = 1026 /\ from_ports (portset_iter sample_ports) = sample_ports.
Proof.
  destruct (port_iter_exact sample_ports sample_ports_ok) as (_ & _ & H & _ & H').
  split; [vm_compute; reflexivity|exact H'].
Defined.
