(* ===== verification/PortSpec.v ===== *)
(** * Written port specifications

    [src/src/model/port/set.rs]: [TryFrom<&str>] and [Display] for [PortSet],
    with the helpers that name what is wrong with a specification.  What is
    displayed parses back to the set it came from, and nothing that parses breaks
    the set's invariant. *)

From Stdlib Require Import ZArith Lia Ascii String.
From stdpp Require Import base numbers sets sorting option list.
From S2P Require Import Prelude Std Intervals IpSet PortSet Text.

Local Open Scope Z_scope.
Local Open Scope word_scope.

(** ** Definitions *)

Inductive PortSetParseError :=
  | InvalidPort (input : text) (source : IntErrorKind)
  | InvalidPortRange (start stop : Z)
  | MalformedSpec (spec : text)
  | SpacedRange (spec : text)
  | ServiceName (name : text)
  | NoPorts.

Definition COMMA : Z := 44.
Definition DASH : Z := 45.
Definition COLON : Z := 58.

Definition FIRST_PORT : Z := 1.

(** [Protocol::spec_prefix] and [Protocol::qualifier], from
    [src/src/model/port.rs]. *)
Definition spec_prefix (protocol : Protocol) : text :=
  match protocol with Tcp => [] | Udp => lit "u:" | Sctp => lit "s:" end.

Definition qualifier (protocol : Protocol) : text :=
  match protocol with Tcp => lit "t:" | Udp | Sctp => spec_prefix protocol end.

(** *** Printing *)

Definition show_range (protocol : Protocol) (range : PortRange) : text :=
  spec_prefix protocol ++
  (if fst range =? snd range then show_uint (fst range)
   else show_uint (fst range) ++ [DASH] ++ show_uint (snd range)).

(** The state of [fmt]: whether nothing was written yet, and what was. *)
Definition write_range (protocol : Protocol) (f : bool * text) (range : PortRange) : bool * text :=
  let '(first, out) := f in
  (false, (if first then out else out ++ [COMMA]) ++ show_range protocol range).

Definition portset_display (s : PortSet) : text :=
  snd (fold_left (fun f protocol => fold_left (write_range protocol) (ranges s protocol) f)
         Protocol_ALL (true, [])).

(** *** Parsing *)

Definition is_char (a c : Z) : bool := c =? a.

(** The loop of [split_qualifier]. *)
Fixpoint qualified (protocols : list Protocol) (word : text) : option Protocol * text :=
  match protocols with
  | [] => (None, word)
  | protocol :: rest =>
      match split_at_byte (length (qualifier protocol)) word with
      | Some (head, tail) =>
          if eq_ignore_ascii_case head (qualifier protocol) then (Some protocol, tail)
          else qualified rest word
      | None => qualified rest word
      end
  end.

Definition split_qualifier (word : text) : option Protocol * text := qualified Protocol_ALL word.

(** The loop of [refuse_spaced_range], from word [index] on. *)
Fixpoint spaced_from (words : list text) (index : nat) (rest : list text) : Result unit PortSetParseError :=
  match rest with
  | [] => Ok tt
  | word :: rest =>
      let opens_back := starts_with (is_char DASH) word && (0 <? index)%nat in
      let opens_on := ends_with (is_char DASH) word && (index + 1 <? length words)%nat in
      if opens_back || opens_on then
        let first := if opens_back then (index - 1)%nat else index in
        let last := if opens_on then (index + 1)%nat else index in
        Err (SpacedRange (join [32] (take (last + 1 - first) (drop first words))))
      else spaced_from words (index + 1) rest
  end.

Definition refuse_spaced_range (words : list text) : Result unit PortSetParseError :=
  spaced_from words 0 words.

Definition port_number (s whole : text) : Result Z PortSetParseError :=
  match parse_uint 16 s with
  | Ok port => Ok port
  | Err source =>
      let named :=
        starts_with is_ascii_alphabetic s &&
        forallb (fun c => is_ascii_alphanumeric c || (c =? DASH) || (c =? 95)) s in
      if named then Err (ServiceName whole) else Err (InvalidPort whole source)
  end.

Definition parse_range (raw_range word : text) : Result PortRange PortSetParseError :=
  match split_by (is_char DASH) raw_range with
  | [single] => let? port := port_number single word in Ok (port, port)
  | [start; stop] =>
      let? start := (match start with [] => Ok FIRST_PORT | _ => port_number start start end) in
      let? stop := (match stop with [] => Ok (umax 16) | _ => port_number stop stop end) in
      if stop <? start then Err (InvalidPortRange start stop) else Ok (start, stop)
  | _ => Err (MalformedSpec word)
  end.

(** The parser's state: the set so far and the protocol in force. *)
Definition parse_word (st : PortSet * Protocol) (word : text) : Result (PortSet * Protocol) PortSetParseError :=
  let '(set, protocol) := st in
  let '(named, raw_range) := split_qualifier word in
  let protocol := default protocol named in
  let? range := parse_range raw_range word in
  Ok (update_lane set protocol (fun lane => lane ++ [range]), protocol).

(** A [for] loop with [?] in its body. *)
Fixpoint try_fold {A S E} (f : S -> A -> Result S E) (l : list A) (s : S) : Result S E :=
  match l with
  | [] => Ok s
  | x :: rest => let? s := f s x in try_fold f rest s
  end.

Definition parse_part (st : PortSet * Protocol) (part : text) : Result (PortSet * Protocol) PortSetParseError :=
  let words := split_whitespace part in
  let? _ := refuse_spaced_range words in
  try_fold parse_word words st.

Definition portset_try_from (value : text) : Result PortSet PortSetParseError :=
  let? st := try_fold parse_part (split_by (is_char COMMA) value) (portset_new, Tcp) in
  Ok (merge_lanes (fst st)).

Definition parse_scan (spec : text) : Result PortSet PortSetParseError :=
  let? set := portset_try_from spec in
  if portset_is_empty set then Err NoPorts else Ok set.

Example parse_mixed :
  portset_try_from (lit "22, 80-90 U:53,500 t:8080,s:-3") =
  Ok (mkPortSet [(22, 22); (80, 90); (8080, 8080)] [(53, 53); (500, 500)] [(1, 3)]).
Proof. reflexivity. Qed.

Example parse_spaced :
  portset_try_from (lit "1 - 5") = Err (SpacedRange (lit "1 - 5")).
Proof. reflexivity. Qed.

Example parse_service : portset_try_from (lit "u:ssh") = Err (ServiceName (lit "u:ssh")).
Proof. reflexivity. Qed.

Example parse_overflow : portset_try_from (lit "65536") = Err (InvalidPort (lit "65536") IntPosOverflow).
Proof. reflexivity. Qed.

(** ** What parses keeps the invariant *)

(** Ranges in bounds, not yet merged. *)
Definition loose_ok (s : PortSet) : Prop := forall q, Forall port_ok (ranges s q).

Lemma try_Ok {T U E} (r : Result T E) (k : T -> Result U E) u :
  try_ r k = Ok u <-> exists t, r = Ok t /\ k t = Ok u.
Proof. destruct r; simpl; split; [by eauto|naive_solver|done|naive_solver]. Qed.

Lemma try_fold_inv {A S E} (P : S -> Prop) (f : S -> A -> Result S E) l s s' :
  (forall s x s', P s -> f s x = Ok s' -> P s') -> P s -> try_fold f l s = Ok s' -> P s'.
Proof.
  intros Hf. revert s. induction l as [|x l IH]; intros s Hs; simpl; [by intros [= <-]|].
  intros (t & Ht & Hk)%try_Ok. eauto.
Qed.

Lemma try_fold_app {A S E} (f : S -> A -> Result S E) l k s :
  try_fold f (l ++ k) s = let? t := try_fold f l s in try_fold f k t.
Proof.
  revert s. induction l as [|x l IH]; intros s; simpl; [done|]. destruct (f s x); simpl; [apply IH|done].
Qed.

Lemma port_number_fits s whole port : port_number s whole = Ok port -> fits 16 port.
Proof.
  unfold port_number. destruct (parse_uint 16 s) eqn:E.
  - intros [= <-]. eapply parse_uint_fits; [|exact E]. lia.
  - by destruct (_ && _).
Qed.

Lemma parse_range_ok raw word r : parse_range raw word = Ok r -> port_ok r.
Proof.
  assert (forall P s, fits 16 P ->
    forall port, match s with [] => Ok P | _ => port_number s s end = Ok port -> fits 16 port) as Hend.
  { intros P s HP port. destruct s; [by intros [= <-]|]. apply port_number_fits. }
  unfold parse_range. destruct (split_by _ raw) as [|a [|b [|? ?]]]; [done| | |done].
  - intros (port & Hp%port_number_fits & [= <-])%try_Ok. unfold port_ok. simpl. unfold fits in Hp. lia.
  - intros (start & Hs & (stop & He & Hr)%try_Ok)%try_Ok.
    apply (Hend FIRST_PORT) in Hs; [|unfold FIRST_PORT; mlia]. apply (Hend (umax 16)) in He; [|mlia].
    destruct (Z.ltb_spec stop start); [done|]. injection Hr as <-. unfold port_ok. simpl.
    unfold fits in *. lia.
Qed.

Lemma parse_word_ok st word st' : loose_ok (fst st) -> parse_word st word = Ok st' -> loose_ok (fst st').
Proof.
  destruct st as [set protocol]. unfold parse_word. destruct (split_qualifier word) as [named raw].
  intros Hok (r & Hr%parse_range_ok & [= <-])%try_Ok. intros q. cbn [fst] in *.
  rewrite ranges_update_lane. destruct (decide _); [|apply Hok].
  apply Forall_app. split; [apply Hok|by apply Forall_singleton].
Qed.

Lemma parse_part_ok st part st' : loose_ok (fst st) -> parse_part st part = Ok st' -> loose_ok (fst st').
Proof.
  intros Hok. unfold parse_part. intros (_ & _ & H)%try_Ok.
  eapply (try_fold_inv (fun st => loose_ok (fst st))); [|exact Hok|exact H]. apply parse_word_ok.
Qed.

Lemma merge_lanes_ok s : loose_ok s -> portset_ok (merge_lanes s).
Proof. intros Hs q. rewrite ranges_merge_lanes. apply merge_ranges_spec, Hs. Qed.

Lemma try_from_ok value s : portset_try_from value = Ok s -> portset_ok s.
Proof.
  unfold portset_try_from. intros (st & Hst & [= <-])%try_Ok. apply merge_lanes_ok.
  eapply (try_fold_inv (fun st => loose_ok (fst st))); [apply parse_part_ok| |exact Hst].
  intros []; constructor.
Qed.

(** ** What is displayed parses back *)

Definition spec_items (s : PortSet) : list text :=
  (show_range Tcp <$> ps_tcp s) ++ (show_range Udp <$> ps_udp s) ++ (show_range Sctp <$> ps_sctp s).

Definition write_item (f : bool * text) (item : text) : bool * text :=
  (false, (if fst f then snd f else snd f ++ [COMMA]) ++ item).

Lemma write_range_item protocol l f :
  fold_left (write_range protocol) l f = fold_left write_item (show_range protocol <$> l) f.
Proof.
  revert f. induction l as [|r l IH]; intros [first out]; simpl; [done|]. by rewrite IH.
Qed.

Lemma write_items_join items out :
  snd (fold_left write_item items (false, out)) = out ++ (items ≫= fun item => COMMA :: item).
Proof.
  revert out. induction items as [|i items IH]; intros out; simpl; [by rewrite app_nil_r|].
  unfold write_item at 2. cbn [fst snd]. rewrite IH. by rewrite <- !app_assoc.
Qed.

Lemma join_comma item items : join [COMMA] (item :: items) = item ++ (items ≫= fun item => COMMA :: item).
Proof.
  revert item. induction items as [|i items IH]; intros item; [by rewrite app_nil_r|].
  change (join [COMMA] (item :: i :: items)) with (item ++ COMMA :: join [COMMA] (i :: items)).
  by rewrite IH.
Qed.

Lemma display_join s : portset_display s = join [COMMA] (spec_items s).
Proof.
  assert (portset_display s = snd (fold_left write_item (spec_items s) (true, []))) as ->.
  { unfold portset_display, spec_items, Protocol_ALL. rewrite !fold_left_app. cbn [fold_left ranges].
    by rewrite !write_range_item. }
  destruct (spec_items s) as [|i items]; [done|]. rewrite join_comma. cbn [fold_left].
  unfold write_item at 2. cbn [fst snd app]. apply write_items_join.
Qed.

(** The characters a displayed range is made of. *)
Definition plain_char (c : Z) : Prop :=
  is_ascii_digit c = true \/ c = DASH \/ c = COLON \/ c = 117 \/ c = 115.

Lemma digit_text_impl (P : Z -> Prop) s :
  (forall c, 48 <= c <= 57 -> P c) -> is_digit_text s -> Forall P s.
Proof. intros HP Hs. eapply Forall_impl; [exact Hs|]. intros c Hc%is_ascii_digit_spec. auto. Qed.

Lemma show_range_plain protocol r : port_ok r -> Forall plain_char (show_range protocol r).
Proof.
  intros Hr. unfold port_ok in Hr.
  assert (forall n, 0 <= n -> Forall plain_char (show_uint n)) as Hn.
  { intros n H. eapply Forall_impl; [by apply show_uint_digits|]. by left. }
  unfold show_range. apply Forall_app. split.
  - unfold plain_char, COLON. destruct protocol; cbn; repeat apply Forall_cons_2; auto 7 using Forall_nil_2.
  - destruct (_ =? _); [apply Hn; lia|]. rewrite !Forall_app, Forall_singleton.
    split; [apply Hn; lia|]. split; [by right; left|apply Hn; lia].
Qed.

Lemma plain_char_not c : plain_char c -> is_char COMMA c = false /\ is_whitespace c = false.
Proof.
  unfold plain_char, DASH, COLON. rewrite is_ascii_digit_spec. intros H.
  unfold is_char, COMMA, is_whitespace, in_range. split; [lia|].
  destruct H as [H|[->|[->|[->| ->]]]]; [|reflexivity..]. lia.
Qed.

Lemma show_range_nonempty protocol r : show_range protocol r <> [].
Proof.
  unfold show_range. intros [_ E]%app_eq_nil. destruct (_ =? _).
  - by apply show_uint_nonempty in E.
  - by apply app_eq_nil in E as [E%show_uint_nonempty _].
Qed.

Lemma range_text_splits (r : PortRange) :
  port_ok r -> r.1 <> r.2 ->
  split_by (is_char DASH) (show_uint r.1 ++ [DASH] ++ show_uint r.2) = [show_uint r.1; show_uint r.2].
Proof.
  unfold port_ok. intros Hr Hne.
  assert (forall n, 0 <= n -> Forall (fun c => is_char DASH c = false) (show_uint n)) as Hn.
  { intros n H. eapply digit_text_impl; [|by apply show_uint_digits]. unfold is_char, DASH. lia. }
  change ([DASH] ++ show_uint r.2) with (DASH :: show_uint r.2).
  rewrite split_by_sep, split_by_none; [done|apply Hn; lia|done|apply Hn; lia].
Qed.

Lemma port_number_show n whole : fits 16 n -> port_number (show_uint n) whole = Ok n.
Proof. intros Hn. unfold port_number. by rewrite parse_show_uint by (done || lia). Qed.

Lemma match_nonempty {B} (s : text) (a b : B) :
  s <> [] -> match s with [] => a | _ :: _ => b end = b.
Proof. by destruct s. Qed.

Lemma parse_range_show (r : PortRange) word :
  port_ok r ->
  parse_range (if r.1 =? r.2 then show_uint r.1 else show_uint r.1 ++ [DASH] ++ show_uint r.2) word = Ok r.
Proof.
  intros Hr. assert (fits 16 r.1 /\ fits 16 r.2) as [F1 F2] by (unfold port_ok, fits in *; lia).
  unfold parse_range. destruct (Z.eqb_spec r.1 r.2) as [E|E].
  - rewrite split_by_none.
    + rewrite port_number_show by done. simpl. destruct r; simpl in *. by subst.
    + eapply digit_text_impl; [|apply show_uint_digits; unfold port_ok in Hr; lia]. unfold is_char, DASH. lia.
  - rewrite range_text_splits by done.
    rewrite !match_nonempty, !port_number_show by (exact F1 || exact F2 || apply show_uint_nonempty).
    cbn [try_]. unfold port_ok in Hr. rewrite (proj2 (Z.ltb_ge _ _)) by lia. by destruct r.
Qed.

(** A word that opens with a digit names no protocol. *)
Lemma split_qualifier_digit c t : is_ascii_digit c = true -> split_qualifier (c :: t) = (None, c :: t).
Proof.
  intros Hc%is_ascii_digit_spec.
  assert (forall ps, qualified ps (c :: t) = (None, c :: t)) as H; [|apply H].
  assert (forall p, exists q, qualifier p = q :: [COLON] /\ 58 < q) as Hq.
  { intros []; eexists; (split; [reflexivity|vm_compute; reflexivity]). }
  intros ps. induction ps as [|p ps IH]; [done|]. cbn [qualified].
  destruct (Hq p) as (q & Eq & Hgt). rewrite Eq. cbn [length split_at_byte].
  assert (len_utf8 c = 1%nat) as El.
  { unfold len_utf8. by rewrite (proj2 (Z.ltb_lt _ _)) by lia. }
  rewrite El. cbn [Nat.leb Nat.sub]. destruct (split_at_byte 1 t) as [[h rest]|]; [|done].
  cbn [fmap option_fmap option_map]. unfold eq_ignore_ascii_case. rewrite bool_decide_eq_false_2; [done|].
  cbn [fmap list_fmap]. intros [= E _]. unfold to_ascii_lowercase, in_range in E.
  assert (q = 116 \/ q = 117 \/ q = 115) as Hqs by (destruct p; injection Eq; auto).
  destruct Hqs as [->|[->| ->]]; simpl in E; destruct (_ && _) eqn:Ei in E; lia.
Qed.

Lemma split_qualifier_prefix p rest :
  p <> Tcp -> split_qualifier (spec_prefix p ++ rest) = (Some p, rest).
Proof. destruct p; [done|by destruct rest..]. Qed.

Lemma split_qualifier_show protocol r :
  port_ok r ->
  split_qualifier (show_range protocol r) =
    (match protocol with Tcp => None | p => Some p end,
     if r.1 =? r.2 then show_uint r.1 else show_uint r.1 ++ [DASH] ++ show_uint r.2).
Proof.
  intros Hr. unfold show_range. destruct protocol; [|by apply split_qualifier_prefix..].
  cbn [spec_prefix app].
  assert (is_digit_text (show_uint r.1)) as Hd by (apply show_uint_digits; unfold port_ok in Hr; lia).
  pose proof (show_uint_nonempty r.1) as Hne. set (a := show_uint r.1) in *. clearbody a.
  destruct a as [|c t]; [done|]. apply Forall_inv in Hd.
  destruct (_ =? _); by apply split_qualifier_digit.
Qed.

Lemma parse_part_show set cur protocol r :
  port_ok r -> (protocol = Tcp -> cur = Tcp) ->
  parse_part (set, cur) (show_range protocol r) =
  Ok (update_lane set protocol (fun lane => lane ++ [r]), protocol).
Proof.
  intros Hr Hcur. pose proof (show_range_plain protocol r Hr) as Hp.
  pose proof (show_range_nonempty protocol r) as Hne. unfold parse_part.
  assert (split_whitespace (show_range protocol r) = [show_range protocol r]) as ->.
  { unfold split_whitespace. rewrite split_by_none.
    - rewrite filter_cons_True by done. done.
    - eapply Forall_impl; [exact Hp|]. intros c Hc. by apply plain_char_not. }
  assert (refuse_spaced_range [show_range protocol r] = Ok tt) as ->.
  { unfold refuse_spaced_range. cbn [spaced_from length Nat.add Nat.ltb Nat.leb].
    by rewrite !andb_false_r. }
  cbn [try_ try_fold]. unfold parse_word. rewrite split_qualifier_show by done.
  rewrite parse_range_show by done. cbn [try_]. destruct protocol; [by rewrite Hcur|done..].
Qed.

Lemma parse_lane_show l set cur protocol :
  Forall port_ok l -> (protocol = Tcp -> cur = Tcp) ->
  try_fold parse_part (show_range protocol <$> l) (set, cur) =
  Ok (update_lane set protocol (fun lane => lane ++ l), if is_nil l then cur else protocol).
Proof.
  intros Hl. revert set cur. induction Hl as [|r l Hr Hl IH]; intros set cur Hcur.
  { destruct set, protocol; simpl; by rewrite app_nil_r. }
  rewrite fmap_cons. cbn [try_fold is_nil]. rewrite parse_part_show by done. cbn [try_].
  rewrite IH by done. f_equal. f_equal; [|by destruct l].
  destruct set, protocol; simpl; by rewrite <- app_assoc.
Qed.

Lemma try_from_display s : portset_ok s -> portset_try_from (portset_display s) = Ok s.
Proof.
  intros Hs. rewrite display_join. unfold portset_try_from.
  assert (try_fold parse_part (split_by (is_char COMMA) (join [COMMA] (spec_items s))) (portset_new, Tcp) =
    try_fold parse_part (spec_items s) (portset_new, Tcp)) as ->.
  { destruct (decide (spec_items s = [])) as [->|Hne]; [reflexivity|].
    rewrite split_by_join; [done|reflexivity|done|].
    assert (forall p l, Forall port_ok l ->
      Forall (Forall (fun c => is_char COMMA c = false)) (show_range p <$> l)) as Hlane.
    { intros p l Hl. rewrite Forall_fmap. eapply Forall_impl; [exact Hl|]. intros r Hr. simpl.
      eapply Forall_impl; [by apply show_range_plain|]. intros c Hc. by apply plain_char_not. }
    unfold spec_items. rewrite !Forall_app.
    split; [apply Hlane, (Hs Tcp)|split; [apply Hlane, (Hs Udp)|apply Hlane, (Hs Sctp)]]. }
  unfold spec_items. rewrite try_fold_app, parse_lane_show by (done || apply (Hs Tcp)). cbn [try_].
  rewrite try_fold_app, parse_lane_show by (done || apply (Hs Udp)). cbn [try_].
  rewrite parse_lane_show by (done || apply (Hs Sctp)). cbn [try_ fst].
  f_equal. destruct s as [t u v]. cbn. unfold merge_lanes. cbn.
  rewrite !merge_ranges_id; [done|apply (Hs Sctp)|apply (Hs Udp)|apply (Hs Tcp)].
Qed.

(** A port set survives being written down: what [Display] writes parses
    back to the very set, for every set the constructors can build, the empty one
    included. *)
Theorem display_parse_roundtrip (s : PortSet) :
  portset_ok s -> portset_try_from (portset_display s) = Ok s.
Proof. exact (try_from_display s). Qed.

Lemma display_parse_roundtrip_witness :
  portset_display sample_ports = lit "1-1024,8080,u:53" /\
  portset_try_from (lit "1-1024,8080,u:53") = Ok sample_ports.
Proof.
  split; [reflexivity|].
  exact (display_parse_roundtrip sample_ports sample_ports_ok).
Defined.

(** Nothing a user can write breaks a port set: whatever text parses gives
    merged lanes of ports in bounds, and a scan's specification is one that parses
    and names at least one port. *)
Theorem parsed_ports_wellformed (value : text) (s : PortSet) :
  (portset_try_from value = Ok s -> portset_ok s) /\
  (parse_scan value = Ok s <-> portset_try_from value = Ok s /\ 0 < portset_len s).
Proof.
  assert (forall t, portset_try_from value = Ok t -> portset_ok t) as Hok by (intros t; apply try_from_ok).
  split; [apply Hok|]. unfold parse_scan. split.
  - intros (t & Ht & H)%try_Ok. destruct (portset_is_empty t) eqn:E; [done|]. injection H as <-.
    split; [done|]. by apply portset_len_pos; [apply Hok|].
  - intros [Ht Hl]. rewrite Ht. simpl. destruct (portset_is_empty s) eqn:E; [|done].
    apply portset_len_pos in Hl; [congruence|by apply Hok].
Qed.

Lemma parsed_ports_wellformed_witness :
  portset_ok (mkPortSet [(22, 22)] [] []) /\ parse_scan (lit "22") = Ok (mkPortSet [(22, 22)] [] []).
Proof.
  destruct (parsed_ports_wellformed (lit "22") (mkPortSet [(22, 22)] [] [])) as [H1 H2].
  split; [apply H1; reflexivity|]. apply H2. split; vm_compute; reflexivity.
Defined.
