(* ===== verification/Mac.v ===== *)
(** * Hardware addresses

    [src/src/model/mac.rs]: six octets, their flag bits, and the text form.  What
    [Display] writes [FromStr] reads back, in either case and with either
    separator; nothing else than six octets is read. *)

From Stdlib Require Import ZArith Lia String.
From stdpp Require Import base numbers option strings list.
From S2P Require Import Prelude Std Text.

Local Open Scope Z_scope.

(** ** Definitions *)

(** [MacAddr([u8; 6])]. *)
Definition MacAddr : Type := list Z.

Definition mac_ok (m : MacAddr) : Prop := length m = 6%nat /\ Forall (fits 8) m.

Definition BROADCAST : MacAddr := [0xff; 0xff; 0xff; 0xff; 0xff; 0xff].

Definition MAC_ZERO : MacAddr := [0; 0; 0; 0; 0; 0].

Definition first_octet (m : MacAddr) : Z := default 0 (head m).

Definition is_locally_administered (m : MacAddr) : bool := negb (Z.land (first_octet m) 2 =? 0).

Definition is_multicast (m : MacAddr) : bool := negb (Z.land (first_octet m) 1 =? 0).

Definition is_broadcast (m : MacAddr) : bool := bool_decide (m = BROADCAST).

Definition is_zero (m : MacAddr) : bool := bool_decide (m = MAC_ZERO).

(** The error carries the text as it was given. *)
Record MacAddrParseError := mkMacError { mac_input : text }.

#[export] Instance MacAddrParseError_eq_dec : EqDecision MacAddrParseError.
Proof. solve_decision. Defined.

(** [char::to_digit(16)]. *)
Definition hex_digit (c : Z) : option Z :=
  if in_range 48 57 c then Some (c - 48)
  else if in_range 97 102 c then Some (c - 87)
  else if in_range 65 70 c then Some (c - 55)
  else None.

(** The digit loop of [u8::from_str_radix(_, 16)]. *)
Fixpoint hex_digits (acc : Z) (s : text) : option Z :=
  match s with
  | [] => Some acc
  | c :: t =>
      d ← hex_digit c;
      mul ← checked_mul 8 acc 16;
      next ← checked_add 8 mul d;
      hex_digits next t
  end.

(** [u8::from_str_radix(s, 16).ok()]: as for decimals, a leading [+] is read. *)
Definition parse_hex_u8 (s : text) : option Z :=
  match s with
  | [] => None
  | c :: t => if c =? 43 then (match t with [] => None | _ => hex_digits 0 t end) else hex_digits 0 s
  end.

(** [[':', '-']]. *)
Definition mac_separator (c : Z) : bool := (c =? 58) || (c =? 45).

(** [for octet in &mut octets]: [n] octets off the parts, and what is left. *)
Fixpoint read_octets (n : nat) (parts : list text) : option (list Z * list text) :=
  match n with
  | O => Some ([], parts)
  | S n =>
      match parts with
      | [] => None
      | part :: parts =>
          if (byte_len part =? 2)%nat then
            octet ← parse_hex_u8 part;
            '(octets, rest) ← read_octets n parts;
            Some (octet :: octets, rest)
          else None
      end
  end.

(** [MacAddr::from_str]. *)
Definition mac_from_str (s : text) : Result MacAddr MacAddrParseError :=
  match read_octets 6 (split_by mac_separator (trim s)) with
  | Some (octets, []) => Ok octets
  | _ => Err (mkMacError s)
  end.

Definition hex_char (d : Z) : Z := if d <? 10 then 48 + d else 87 + d.

(** [{:02x}] of a [u8]. *)
Definition show_hex (n : Z) : text := [hex_char (n / 16); hex_char (n mod 16)].

(** [Display] and [Debug], which write the same. *)
Definition mac_display (m : MacAddr) : text := join [58] (show_hex <$> m).

(** ** What is written is read back *)

(** The upper-case form Windows writes. *)
Definition to_ascii_uppercase (c : Z) : Z := if in_range 97 122 c then c - 32 else c.

Lemma nibbles n : fits 8 n -> 0 <= n / 16 < 16 /\ 0 <= n mod 16 < 16 /\ n = n / 16 * 16 + n mod 16.
Proof.
  intros Hn. pose proof (Z.div_mod n 16 ltac:(lia)). pose proof (Z.mod_pos_bound n 16 ltac:(lia)).
  split; [|lia]. split; [apply Z.div_pos; mlia|]. apply Z.div_lt_upper_bound; mlia.
Qed.

Lemma hex_char_cases d : 0 <= d < 16 -> 48 <= hex_char d <= 57 /\ d = hex_char d - 48 \/ 97 <= hex_char d <= 102 /\ d = hex_char d - 87.
Proof. unfold hex_char. destruct (Z.ltb_spec d 10); lia. Qed.

Lemma hex_digit_char d : 0 <= d < 16 ->
  hex_digit (hex_char d) = Some d /\ hex_digit (to_ascii_uppercase (hex_char d)) = Some d.
Proof.
  intros Hd. assert (d ∈ seqZ 0 16) as Hin by (apply elem_of_seqZ; lia). revert Hin. change (seqZ 0 16) with [0;1;2;3;4;5;6;7;8;9;10;11;12;13;14;15].
  rewrite !elem_of_cons, elem_of_nil. intros Hin. repeat destruct Hin as [->|Hin]; done.
Qed.

(** Any text of two hexadecimal digits is its octet. *)
Lemma parse_hex_pair a b x y :
  hex_digit a = Some x -> hex_digit b = Some y -> 0 <= x < 16 -> 0 <= y < 16 -> parse_hex_u8 [a; b] = Some (x * 16 + y).
Proof.
  intros Ha Hb Hx Hy. unfold parse_hex_u8. destruct (Z.eqb_spec a 43) as [->|_]; [by vm_compute in Ha|].
  cbn [hex_digits]. rewrite Ha. cbn [mbind option_bind]. unfold checked_mul, checked_add.
  rewrite (proj2 (Z.leb_le (0 * 16) _)) by mlia. cbn [mbind option_bind].
  rewrite (proj2 (Z.leb_le (0 * 16 + x) _)) by mlia. cbn [mbind option_bind]. rewrite Hb. cbn [mbind option_bind].
  rewrite (proj2 (Z.leb_le ((0 * 16 + x) * 16) _)) by mlia. cbn [mbind option_bind].
  rewrite (proj2 (Z.leb_le ((0 * 16 + x) * 16 + y) _)) by mlia. done.
Qed.

Lemma hex_digit_ascii c d : hex_digit c = Some d -> 48 <= c <= 102 /\ 0 <= d < 16.
Proof. unfold hex_digit, in_range. repeat case_match; intros; simplify_eq; lia. Qed.

Definition hex_pair (part : text) (octet : Z) : Prop :=
  exists a b x y, part = [a; b] /\ hex_digit a = Some x /\ hex_digit b = Some y /\ octet = x * 16 + y.

Lemma hex_pair_reads part octet : hex_pair part octet -> byte_len part = 2%nat /\ parse_hex_u8 part = Some octet.
Proof.
  intros (a & b & x & y & -> & Ha & Hb & ->). apply hex_digit_ascii in Ha as Ha', Hb as Hb'. split.
  - unfold byte_len, len_utf8. cbn. rewrite !(proj2 (Z.ltb_lt _ _)) by lia. done.
  - by apply parse_hex_pair; [| |lia..].
Qed.

Lemma read_octets_all parts octets rest :
  Forall2 hex_pair parts octets -> read_octets (length octets) (parts ++ rest) = Some (octets, rest).
Proof.
  induction 1 as [|part octet parts octets Hp _ IH]; [done|]. cbn [length app read_octets].
  destruct (hex_pair_reads part octet Hp) as [E1 E2]. rewrite E1, E2. cbn. by rewrite IH.
Qed.

Lemma hex_pair_plain part octet : hex_pair part octet ->
  Forall (fun c => mac_separator c = false /\ is_whitespace c = false) part /\ part <> [].
Proof.
  intros (a & b & x & y & -> & Ha & Hb & _). split; [|done]. apply hex_digit_ascii in Ha as Ha', Hb as Hb'.
  assert (forall c, is_Some (hex_digit c) -> mac_separator c = false /\ is_whitespace c = false) as H.
  { intros c [d Hd]. unfold hex_digit, in_range in Hd. unfold mac_separator, is_whitespace, in_range. repeat case_match; try done; lia. }
  repeat constructor; naive_solver.
Qed.

Lemma join_ends sep parts octets :
  Forall2 hex_pair parts octets -> is_whitespace sep = false ->
  starts_with is_whitespace (join [sep] parts) = false /\ ends_with is_whitespace (join [sep] parts) = false.
Proof.
  intros Hp Hsep. assert (Forall (fun c => is_whitespace c = false) (join [sep] parts)) as Hall.
  { induction Hp as [|part octet parts octets H _ IH]; [constructor|]. apply hex_pair_plain in H as [H _].
    assert (Forall (fun c => is_whitespace c = false) part) as H' by (eapply Forall_impl; [exact H|]; by intros c []).
    destruct parts; [done|]. change (join [sep] (part :: ?ps)) with (part ++ sep :: join [sep] ps).
    apply Forall_app. split; [done|]. by constructor. }
  split; [destruct (join [sep] parts); [done|]; by apply Forall_inv in Hall|].
  unfold ends_with. destruct (last (join [sep] parts)) as [c|] eqn:E; [|done].
  apply last_Some_elem_of in E. rewrite Forall_forall in Hall. by apply Hall.
Qed.

Lemma mac_from_parts sep parts octets :
  sep = 58 \/ sep = 45 -> Forall2 hex_pair parts octets -> length octets = 6%nat ->
  mac_from_str (join [sep] parts) = Ok octets.
Proof.
  intros Hsep Hp Hlen. unfold mac_from_str.
  assert (is_whitespace sep = false) as Hw by (by destruct Hsep as [-> | ->]).
  destruct (join_ends sep parts octets Hp Hw) as [H1 H2]. rewrite trim_id by done.
  assert (mac_separator sep = true) as Hs by (by destruct Hsep as [-> | ->]). rewrite split_by_join.
  - rewrite <- (app_nil_r parts), <- Hlen, read_octets_all by done. done.
  - done.
  - intros ->. inversion Hp; subst. done.
  - clear -Hp. induction Hp as [|part octet parts octets H _ IH]; constructor; [|done].
    apply hex_pair_plain in H as [H _]. eapply Forall_impl; [exact H|]. by intros c [].
Qed.

Lemma show_hex_pair n : fits 8 n -> hex_pair (show_hex n) n /\ hex_pair (to_ascii_uppercase <$> show_hex n) n.
Proof.
  intros Hn. destruct (nibbles n Hn) as (Hh & Hl & E). destruct (hex_digit_char _ Hh) as [A1 A2], (hex_digit_char _ Hl) as [B1 B2].
  split; [exists (hex_char (n / 16)), (hex_char (n mod 16))|
          exists (to_ascii_uppercase (hex_char (n / 16))), (to_ascii_uppercase (hex_char (n mod 16)))];
    exists (n / 16), (n mod 16); by rewrite <- E.
Qed.

(** What is read is six octets: never fewer, and never a number past a byte. *)
Lemma parse_hex_fits s n : parse_hex_u8 s = Some n -> fits 8 n.
Proof.
  assert (forall s acc, fits 8 acc -> hex_digits acc s = Some n -> fits 8 n) as H.
  { clear s. intros s. induction s as [|c s IH]; intros acc Ha; cbn [hex_digits]; [by intros [= <-]|].
    destruct (hex_digit c) as [d|] eqn:Ed; cbn; [|done]. apply hex_digit_ascii in Ed as [_ Hd].
    unfold checked_mul, checked_add. destruct (Z.leb_spec (acc * 16) (umax 8)); cbn; [|done].
    destruct (Z.leb_spec (acc * 16 + d) (umax 8)); cbn; [|done]. apply IH. mlia. }
  unfold parse_hex_u8. destruct s as [|c t]; [done|]. destruct (c =? 43); [destruct t; [done|]|];
    apply H; split; mlia.
Qed.

Lemma read_octets_ok n parts octets rest : read_octets n parts = Some (octets, rest) -> length octets = n /\ Forall (fits 8) octets.
Proof.
  revert parts octets. induction n as [|n IH]; intros parts octets; cbn [read_octets]; [by intros [= <- <-]|].
  destruct parts as [|part parts]; [done|]. destruct (_ =? _)%nat; [|done].
  destruct (parse_hex_u8 part) as [octet|] eqn:E; [|done]. cbn.
  destruct (read_octets n parts) as [[os r]|] eqn:Er; [|done]. intros [= <- <-].
  destruct (IH parts os Er) as [H1 H2]. split; [by cbn; f_equal|]. constructor; [by eapply parse_hex_fits|done].
Qed.

(** A hardware address survives being written down, as the engine writes it
    and as other tools do: with colons or hyphens, in lower or upper case; and
    whatever text is read gives six octets. *)
Theorem mac_roundtrip (m : MacAddr) :
  mac_ok m ->
  mac_from_str (mac_display m) = Ok m /\
  mac_from_str (join [45] ((fun o => to_ascii_uppercase <$> show_hex o) <$> m)) = Ok m /\
  forall s n, mac_from_str s = Ok n -> mac_ok n.
Proof.
  intros [Hlen Hm].
  assert (forall f, (forall o, fits 8 o -> hex_pair (f o) o) -> Forall2 hex_pair (f <$> m) m) as H2.
  { intros f Hf. clear Hlen. induction Hm; constructor; auto. }
  split; [|split].
  - apply mac_from_parts; [by left|apply H2|done]. intros o Ho. by apply show_hex_pair.
  - apply mac_from_parts; [by right|apply H2|done]. intros o Ho. by apply show_hex_pair.
  - intros s n. unfold mac_from_str. destruct (read_octets 6 _) as [[octets rest]|] eqn:E; [|done].
    destruct rest; [|done]. intros [= <-]. by apply read_octets_ok in E.
Qed.

Lemma mac_roundtrip_witness :
  mac_display [0; 0x1a; 0x2b; 0x3c; 0x4d; 0x5e] = lit "00:1a:2b:3c:4d:5e" /\
  mac_from_str (lit "00:1a:2b:3c:4d:5e") = Ok [0; 0x1a; 0x2b; 0x3c; 0x4d; 0x5e].
Proof.
  split; [vm_compute; reflexivity|]. apply (mac_roundtrip [0; 0x1a; 0x2b; 0x3c; 0x4d; 0x5e]).
  split; [done|]. repeat constructor; done.
Defined.

(** Not only hexadecimal digits are read: the integer parser takes a sign. *)
Lemma mac_reads_signs : mac_from_str (lit "+1:+2:+3:+4:+5:+6") = Ok [1; 2; 3; 4; 5; 6].
Proof. vm_compute. reflexivity. Qed.
