(* ===== verification/Ordering.v ===== *)
(** * Comparisons

    What the engine uses of [std::cmp::Ordering] and [Ord for str], and what makes a
    comparison function an order: the class [CmpOrder], with instances for the ways the
    code composes comparisons. *)

From Stdlib Require Import ZArith Lia.
From stdpp Require Import base numbers option list.
From S2P Require Import Prelude Std Text.

Local Open Scope Z_scope.

(** [Ordering::then] and [Ordering::then_with]. *)
Definition then_cmp (a b : comparison) : comparison := match a with Eq => b | c => c end.

(** The first ordering that is not [Equal], or [Equal]. *)
Definition first_ne (orderings : list comparison) : comparison := foldr then_cmp Eq orderings.

(** [Ord for str]: bytes in turn, a prefix first.  UTF-8 orders texts as their code
    points do, so this is the comparison of either. *)
Fixpoint str_cmp (a b : list Z) : comparison :=
  match a, b with
  | [], [] => Eq
  | [], _ => Lt
  | _, [] => Gt
  | x :: a, y :: b => then_cmp (x ?= y) (str_cmp a b)
  end.

(** A comparison that sorts: it is the same read from either side, what compares equal
    compares alike, and smaller than smaller is smaller. *)
Class CmpOrder {A : Type} (cmp : A -> A -> comparison) : Prop := {
  cmp_opp a b : cmp b a = CompOpp (cmp a b);
  cmp_eq a b c : cmp a b = Eq -> cmp a c = cmp b c;
  cmp_lt a b c : cmp a b = Lt -> cmp b c = Lt -> cmp a c = Lt;
}.

Section Laws.
Context {A : Type} (cmp : A -> A -> comparison) `{!CmpOrder cmp}.

Lemma cmp_refl a : cmp a a = Eq.
Proof. pose proof (cmp_opp a a) as H. by destruct (cmp a a). Qed.

Lemma cmp_eq_r a b c : cmp a b = Eq -> cmp c a = cmp c b.
Proof. intros E. rewrite (cmp_opp a c), (cmp_opp b c). by rewrite (cmp_eq a b c E). Qed.

(** At most is transitive. *)
Lemma cmp_le_trans a b c : cmp a b <> Gt -> cmp b c <> Gt -> cmp a c <> Gt.
Proof.
  intros H1 H2. destruct (cmp a b) eqn:E1; [by rewrite (cmp_eq a b c E1)| |done].
  destruct (cmp b c) eqn:E2; [|by rewrite (cmp_lt a b c E1 E2)|done]. rewrite <- (cmp_eq_r b c a E2). by rewrite E1.
Qed.
End Laws.

#[export] Instance Z_cmp_order : CmpOrder Z.compare.
Proof.
  split.
  - intros a b. apply Z.compare_antisym.
  - intros a b c ->%Z.compare_eq. done.
  - intros a b c. rewrite !Z.compare_lt_iff. lia.
Qed.

(** By a key. *)
Lemma pullback_order {A B} (key : A -> B) (cmp : B -> B -> comparison) (cmp' : A -> A -> comparison) :
  CmpOrder cmp -> (forall a b, cmp' a b = cmp (key a) (key b)) -> CmpOrder cmp'.
Proof.
  intros Hc E. split; intros *; rewrite !E; [apply cmp_opp|apply cmp_eq|apply cmp_lt].
Qed.

(** One comparison, then another. *)
#[export] Instance then_order {A} (f g : A -> A -> comparison) :
  CmpOrder f -> CmpOrder g -> CmpOrder (fun a b => then_cmp (f a b) (g a b)).
Proof.
  intros Hf Hg. split.
  - intros a b. rewrite (cmp_opp (cmp := f) a b), (cmp_opp (cmp := g) a b). by destruct (f a b).
  - intros a b c E. destruct (f a b) eqn:Ef; try done. rewrite (cmp_eq (cmp := f) a b c Ef). cbn in E.
    by rewrite (cmp_eq (cmp := g) a b c E).
  - intros a b c. destruct (f a b) eqn:E1, (f b c) eqn:E2; try done; cbn [then_cmp].
    + rewrite (cmp_eq (cmp := f) a b c E1), E2. cbn. apply cmp_lt.
    + rewrite (cmp_eq (cmp := f) a b c E1), E2. done.
    + rewrite <- (cmp_eq_r f b c a E2), E1. done.
    + by rewrite (cmp_lt (cmp := f) a b c E1 E2).
Qed.

(** Absent first. *)
Definition option_cmp {A} (cmp : A -> A -> comparison) (a b : option A) : comparison :=
  match a, b with
  | None, None => Eq
  | None, Some _ => Lt
  | Some _, None => Gt
  | Some a, Some b => cmp a b
  end.

#[export] Instance option_order {A} (cmp : A -> A -> comparison) : CmpOrder cmp -> CmpOrder (option_cmp cmp).
Proof.
  intros Hc. split.
  - intros [a|] [b|]; cbn; try done. apply cmp_opp.
  - intros [a|] [b|] [c|]; cbn; try done. apply cmp_eq.
  - intros [a|] [b|] [c|]; cbn; try done. apply cmp_lt.
Qed.

(** The other way round. *)
Lemma flip_order {A} (cmp : A -> A -> comparison) : CmpOrder cmp -> CmpOrder (fun a b => cmp b a).
Proof.
  intros Hc. split.
  - intros a b. apply cmp_opp.
  - intros a b c E. apply (cmp_eq_r cmp a b c). rewrite (cmp_opp (cmp := cmp)), E. done.
  - intros a b c H1 H2. by apply (cmp_lt (cmp := cmp) c b a).
Qed.

(** Lists in turn, a missing element standing for [d]. *)
Section Lists.
Context {A : Type} (cmp : A -> A -> comparison) (d : A).

Definition at_or (l : list A) (i : nat) : A := default d (l !! i).

Definition cmp_upto (k n : nat) (f g : nat -> A) : comparison := first_ne ((fun i => cmp (f i) (g i)) <$> seq k n).

Definition lex_pad (a b : list A) : comparison := cmp_upto 0 (Nat.max (length a) (length b)) (at_or a) (at_or b).

Context `{!CmpOrder cmp}.

Lemma cmp_upto_order k n : CmpOrder (cmp_upto k n).
Proof.
  revert k. induction n as [|n IH]; intros k; [by split|].
  refine (then_order (fun f g => cmp (f k) (g k)) (cmp_upto (S k) n) _ (IH (S k))).
  by apply (pullback_order (fun f => f k) cmp).
Qed.

(** Past both ends there is nothing to compare. *)
Lemma lex_pad_upto n a b : (length a <= n)%nat -> (length b <= n)%nat -> lex_pad a b = cmp_upto 0 n (at_or a) (at_or b).
Proof.
  intros Ha Hb. unfold lex_pad, cmp_upto. set (m := Nat.max (length a) (length b)).
  replace n with (m + (n - m))%nat by lia. rewrite seq_app, fmap_app. unfold first_ne. rewrite foldr_app.
  assert (forall k l, (m <= k)%nat -> foldr then_cmp Eq ((fun i => cmp (at_or a i) (at_or b i)) <$> seq k l) = Eq) as H.
  { intros k l. revert k. induction l as [|l IH]; intros k Hk; [done|]. cbn. rewrite IH by lia. unfold at_or.
    rewrite !lookup_ge_None_2 by lia. cbn. by rewrite cmp_refl. }
  by rewrite (H (0 + m)%nat (n - m)%nat) by lia.
Qed.

#[export] Instance lex_pad_order : CmpOrder lex_pad.
Proof.
  assert (forall n a b, (length a <= n)%nat -> (length b <= n)%nat -> lex_pad a b = cmp_upto 0 n (at_or a) (at_or b)) as E by apply lex_pad_upto.
  split.
  - intros a b. set (n := Nat.max (length a) (length b)). rewrite !(E n) by lia. apply (cmp_upto_order 0 n).
  - intros a b c. set (n := Nat.max (length a) (Nat.max (length b) (length c))). rewrite !(E n) by lia. apply (cmp_upto_order 0 n).
  - intros a b c. set (n := Nat.max (length a) (Nat.max (length b) (length c))). rewrite !(E n) by lia. apply (cmp_upto_order 0 n).
Qed.

Lemma lex_pad_step a b : lex_pad a b = then_cmp (cmp (at_or a 0) (at_or b 0)) (lex_pad (tail a) (tail b)).
Proof.
  set (n := Nat.max (length a) (length b)).
  rewrite (lex_pad_upto (S n) a b) by lia. rewrite (lex_pad_upto n (tail a) (tail b)) by (destruct a, b; cbn in *; lia).
  unfold cmp_upto. cbn [seq fmap list_fmap first_ne foldr]. unfold first_ne. cbn [foldr]. f_equal. rewrite <- fmap_S_seq, <- list_fmap_compose.
  f_equal. apply list_fmap_ext. intros i k _. cbn. unfold at_or. destruct a, b; cbn; rewrite ?lookup_nil; done.
Qed.
End Lists.

(** Lists in turn, a prefix first. *)
Fixpoint lex_cmp {A} (cmp : A -> A -> comparison) (a b : list A) : comparison :=
  match a, b with
  | [], [] => Eq
  | [], _ => Lt
  | _, [] => Gt
  | x :: a, y :: b => then_cmp (cmp x y) (lex_cmp cmp a b)
  end.

#[export] Instance lex_cmp_order {A} (cmp : A -> A -> comparison) : CmpOrder cmp -> CmpOrder (lex_cmp cmp).
Proof.
  intros Hc. refine (pullback_order (fun l => Some <$> l) (lex_pad (option_cmp cmp) None) _ _ _).
  induction a as [|x a IH]; intros [|y b]; rewrite (lex_pad_step (option_cmp cmp) None); try done.
  cbn [lex_cmp]. rewrite IH. done.
Qed.

Lemma str_cmp_lex a b : str_cmp a b = lex_cmp Z.compare a b.
Proof. revert b. induction a as [|x a IH]; intros [|y b]; try done. cbn. by rewrite IH. Qed.

#[export] Instance str_cmp_order : CmpOrder str_cmp.
Proof. apply (pullback_order id (lex_cmp Z.compare)); [apply _|apply str_cmp_lex]. Qed.

(** Absent last. *)
Definition option_cmp_last {A} (cmp : A -> A -> comparison) (a b : option A) : comparison :=
  option_cmp (fun x y => cmp y x) b a.

#[export] Instance option_last_order {A} (cmp : A -> A -> comparison) : CmpOrder cmp -> CmpOrder (option_cmp_last cmp).
Proof. intros Hc. apply (flip_order (option_cmp (fun x y => cmp y x))), option_order. by apply flip_order. Qed.

(** ** Digits *)

Lemma digits_value_bounds acc s : is_digit_text s ->
  acc * 10 ^ Z.of_nat (length s) <= digits_value acc s < (acc + 1) * 10 ^ Z.of_nat (length s).
Proof.
  intros Hs. revert acc. induction Hs as [|c s Hc _ IH]; intros acc; cbn [digits_value length]; [lia|].
  apply is_ascii_digit_spec in Hc. specialize (IH (acc * 10 + (c - 48))). rewrite Nat2Z.inj_succ, Z.pow_succ_r by lia.
  assert (0 < 10 ^ Z.of_nat (length s)) by (apply Z.pow_pos_nonneg; lia). nia.
Qed.

(** Digits of one width compare as the numbers they spell. *)
Lemma digits_cmp acc a b x y : is_digit_text a -> is_digit_text b -> length a = length b ->
  str_cmp (a ++ x) (b ++ y) = then_cmp (digits_value acc a ?= digits_value acc b) (str_cmp x y).
Proof.
  intros Ha. revert acc b. induction Ha as [|c a Hc Ha IH]; intros acc [|c' b] Hb Hl; try done; cbn [app str_cmp digits_value].
  { by rewrite Z.compare_refl. }
  apply Forall_cons in Hb as [Hc' Hb]. cbn in Hl. injection Hl as Hl. apply is_ascii_digit_spec in Hc, Hc'.
  pose proof (digits_value_bounds (acc * 10 + (c - 48)) a Ha) as H1. pose proof (digits_value_bounds (acc * 10 + (c' - 48)) b Hb) as H2.
  rewrite Hl in H1. assert (0 < 10 ^ Z.of_nat (length b)) as Hpow by (apply Z.pow_pos_nonneg; lia).
  destruct (Z.compare_spec c c') as [->|H|H]; [by apply IH| |].
  - rewrite (proj2 (Z.compare_lt_iff _ _)); [done|]. nia.
  - rewrite (proj2 (Z.compare_gt_iff _ _)); [done|]. nia.
Qed.
