(* ===== verification/Time.v ===== *)
(** * Times as text

    [src/src/format/time.rs]: a moment as an RFC 3339 timestamp and back, over a
    calendar computed from a count of days.  A [SystemTime] is its distance from the
    epoch in nanoseconds.  The calendar is checked against the Gregorian rules, day by
    day over the 400 years after which they repeat; the machine's zone
    ([local_offset]) is a parameter. *)

From Stdlib Require Import ZArith Lia String.
From stdpp Require Import base numbers option list.
From S2P Require Import Prelude Std Text Ordering.

Local Open Scope Z_scope.

(** ** Definitions *)

Definition SECS_PER_DAY : Z := 86400.
Definition MIN_SECS : Z := -62167219200.
Definition MAX_SECS : Z := 253402300799.

Definition i64_max : Z := 2 ^ 63 - 1.

(** The checked operations on [i64]. *)
Definition checked_i64 (x : Z) : option Z := if (- 2 ^ 63 <=? x) && (x <=? i64_max) then Some x else None.

Definition clamp (x lo hi : Z) : Z := if x <? lo then lo else if hi <? x then hi else x.

(** A [Duration] is its whole seconds and the nanoseconds past them. *)
Definition saturating_secs (secs : Z) : Z := if secs <=? i64_max then secs else i64_max.

Definition epoch_parts (time : Z) : Z * Z :=
  if 0 <=? time then (saturating_secs (time / 10 ^ 9), time mod 10 ^ 9)
  else
    let before := - time in
    let nanos := before mod 10 ^ 9 in
    if nanos =? 0 then (- saturating_secs (before / 10 ^ 9), 0)
    else (- saturating_secs (before / 10 ^ 9) - 1, 10 ^ 9 - nanos).

(** [div_euclid] and [rem_euclid] by a positive number are [Z]'s quotient and
    remainder; the other divisions are of non-negative numbers. *)
Definition civil_from_days (days : Z) : Z * Z * Z :=
  let shifted := days + 719468 in
  let era := shifted / 146097 in
  let day_of_era := shifted mod 146097 in
  let year_of_era := (day_of_era - day_of_era / 1460 + day_of_era / 36524 - day_of_era / 146096) / 365 in
  let day_of_year := day_of_era - (365 * year_of_era + year_of_era / 4 - year_of_era / 100) in
  let month_index := (5 * day_of_year + 2) / 153 in
  let day := day_of_year - (153 * month_index + 2) / 5 + 1 in
  let month := if month_index <? 10 then month_index + 3 else month_index - 9 in
  let year := year_of_era + era * 400 + (if month <=? 2 then 1 else 0) in
  (year, month, day).

Definition days_from_civil (year month day : Z) : option Z :=
  let year := year - (if month <=? 2 then 1 else 0) in
  let era := year / 400 in
  let year_of_era := year mod 400 in
  let day_of_year := (153 * (month + if 2 <? month then -3 else 9) + 2) / 5 + day - 1 in
  let day_of_era := year_of_era * 365 + year_of_era / 4 - year_of_era / 100 + day_of_year in
  checked_i64 (era * 146097) ≫= fun n => checked_i64 (n + day_of_era) ≫= fun n => checked_i64 (n - 719468).

Record Civil := { year : Z; month : Z; day : Z; hour : Z; minute : Z; second : Z }.

Definition civil_parts (secs : Z) : Civil :=
  let days := secs / SECS_PER_DAY in
  let time_of_day := secs mod SECS_PER_DAY in
  let '(year, month, day) := civil_from_days days in
  {| year := year; month := month; day := day;
     hour := time_of_day / 3600; minute := time_of_day mod 3600 / 60; second := time_of_day mod 60 |}.

(** [{n:0width$}]: the sign counts in the width. *)
Definition zero_padded (width : nat) (n : Z) : text :=
  let sign := if n <? 0 then [45] else [] in
  let digits := show_uint (Z.abs n) in
  sign ++ replicate (width - length sign - length digits) 48 ++ digits.

Definition rfc3339 (time : Z) : text :=
  let '(secs, nanos) := epoch_parts time in
  let c := civil_parts (clamp secs MIN_SECS MAX_SECS) in
  zero_padded 4 (year c) ++ lit "-" ++ zero_padded 2 (month c) ++ lit "-" ++ zero_padded 2 (day c) ++ lit "T" ++
  zero_padded 2 (hour c) ++ lit ":" ++ zero_padded 2 (minute c) ++ lit ":" ++ zero_padded 2 (second c) ++ lit "." ++
  zero_padded 6 (nanos / 1000) ++ lit "Z".

Definition rendered (secs offset : Z) : text :=
  let c := civil_parts (Z.max (- 2 ^ 63) (Z.min i64_max (secs + offset))) in
  zero_padded 4 (year c) ++ lit "-" ++ zero_padded 2 (month c) ++ lit "-" ++ zero_padded 2 (day c) ++ lit " " ++
  zero_padded 2 (hour c) ++ lit ":" ++ zero_padded 2 (minute c) ++ lit ":" ++ zero_padded 2 (second c) ++ lit " " ++
  (if offset <? 0 then lit "-" else lit "+") ++ zero_padded 2 (Z.abs offset / 3600) ++ zero_padded 2 (Z.abs offset mod 3600 / 60).

Definition local (local_offset : Z -> option Z) (time : Z) : text :=
  let '(secs, _) := epoch_parts time in
  let secs := clamp secs MIN_SECS MAX_SECS in
  match local_offset secs with
  | None => rfc3339 time
  | Some offset => rendered secs offset
  end.

(** *** Reading *)

(** [str::splitn]: the last piece holds what the count left unsplit. *)
Fixpoint splitn (n : nat) (sep : Z) (s : text) : list text :=
  match n with
  | O => []
  | S O => [s]
  | S n => match split_once (Z.eqb sep) s with Some (a, b) => a :: splitn n sep b | None => [s] end
  end.

Definition field (s : text) (width : nat) : option Z :=
  if negb (byte_len s =? width)%nat || negb (forallb is_ascii_digit s) then None else ok (parse_uint 32 s).

(** The nine digits of the fraction, short ones filled with zeros. *)
Definition scaled (digits : text) : Z :=
  fold_left (fun acc i => acc * 10 + match digits !! i with Some c => c - 48 | None => 0 end) (seq 0 9) 0.

Definition fraction_nanos (fraction : option text) : option Z :=
  match fraction with
  | None => Some 0
  | Some digits =>
      if match digits with [] => true | _ => false end || negb (forallb is_ascii_digit digits) then None
      else Some (scaled digits)
  end.

Definition parse_rfc3339 (s : text) : option Z :=
  let s := trim s in
  body ← match strip_suffix 90 s with Some body => Some body | None => strip_suffix 122 s end;
  '(date, rest) ← split_once (fun c => (c =? 84) || (c =? 116)) body;
  match splitn 3 45 date with
  | [y; m; d] =>
      year ← field y 4;
      month ← field m 2;
      day ← field d 2;
      let '(clock, fraction) :=
        match split_once (Z.eqb 46) rest with Some (clock, fraction) => (clock, Some fraction) | None => (rest, None) end in
      match splitn 3 58 clock with
      | [h; m; s] =>
          hour ← field h 2;
          minute ← field m 2;
          second ← field s 2;
          if (23 <? hour) || (59 <? minute) || (60 <? second) then None
          else
            let second := Z.min second 59 in
            nanos ← fraction_nanos fraction;
            days ← days_from_civil year month day;
            if bool_decide (civil_from_days days <> (year, month, day)) then None
            else
              n ← checked_i64 (days * SECS_PER_DAY);
              secs ← checked_i64 (n + (hour * 3600 + minute * 60 + second));
              if negb ((MIN_SECS <=? secs) && (secs <=? MAX_SECS)) then None
              else Some (secs * 10 ^ 9 + nanos)
      | _ => None
      end
  | _ => None
  end.

(** ** The Gregorian calendar *)

Definition leap (y : Z) : bool := (y mod 4 =? 0) && (negb (y mod 100 =? 0) || (y mod 400 =? 0)).

Definition days_in_month (y m : Z) : Z :=
  if m =? 2 then (if leap y then 29 else 28)
  else if (m =? 4) || (m =? 6) || (m =? 9) || (m =? 11) then 30 else 31.

Definition valid_date (d : Z * Z * Z) : bool :=
  let '(y, m, d) := d in in_range 1 12 m && in_range 1 (days_in_month y m) d.

Definition next_day (d : Z * Z * Z) : Z * Z * Z :=
  let '(y, m, d) := d in
  if d <? days_in_month y m then (y, m, d + 1)
  else if m <? 12 then (y, m + 1, 1)
  else (y + 1, 1, 1).

(** The day of its era a date is, and the era: [days_from_civil] before its checks. *)
Definition era_day (year month day : Z) : Z * Z :=
  let year := year - (if month <=? 2 then 1 else 0) in
  let year_of_era := year mod 400 in
  let day_of_year := (153 * (month + if 2 <? month then -3 else 9) + 2) / 5 + day - 1 in
  (year / 400, year_of_era * 365 + year_of_era / 4 - year_of_era / 100 + day_of_year).

Definition date_eqb (a b : Z * Z * Z) : bool :=
  let '(y, m, d) := a in let '(y', m', d') := b in (y =? y') && (m =? m') && (d =? d').

(** What is checked of one day of an era against its date in the Gregorian calendar. *)
Definition day_ok (i : Z) (date : Z * Z * Z) : bool :=
  date_eqb (civil_from_days (i - 719468)) date && valid_date date &&
  let '(y, m, d) := date in let '(era, day) := era_day y m d in (era =? 0) && (day =? i).

(** The calendar, day by day: the date it ends on, where every day is as checked. *)
Fixpoint walk_days (n : nat) (i : Z) (date : Z * Z * Z) : option (Z * Z * Z) :=
  match n with
  | O => Some date
  | S n => if day_ok i date then walk_days n (i + 1) (next_day date) else None
  end.

(** One era of 400 years, from its first of March. *)
Lemma era_ok : walk_days (Z.to_nat 146097) 0 (0, 3, 1) = Some (400, 3, 1).
Proof. vm_cast_no_check (eq_refl (Some (400, 3, 1))). Qed.

Lemma date_eqb_eq a b : date_eqb a b = true -> a = b.
Proof. destruct a as [[y m] d], b as [[y' m'] d']. cbn. rewrite !andb_true_iff, !Z.eqb_eq. by intros [[-> ->] ->]. Qed.

Lemma walk_days_spec n i date last : walk_days n i date = Some last -> civil_from_days (i + Z.of_nat n - 719468) = last ->
  forall k, i <= k < i + Z.of_nat n -> exists date', day_ok k date' = true /\ civil_from_days (k + 1 - 719468) = next_day date'.
Proof.
  revert i date. induction n as [|n IH]; intros i date Hw Hlast k Hk; [lia|]. cbn [walk_days] in Hw.
  destruct (day_ok i date) eqn:Ei; [|done].
  assert (forall k, i + 1 <= k < i + 1 + Z.of_nat n -> exists date', day_ok k date' = true /\ civil_from_days (k + 1 - 719468) = next_day date') as H.
  { apply (IH _ _ Hw). by replace (i + 1 + Z.of_nat n - 719468) with (i + Z.of_nat (S n) - 719468) by lia. }
  destruct (decide (k = i)) as [->|]; [|apply H; lia]. exists date. split; [done|]. destruct n as [|n].
  - cbn in Hw. injection Hw as <-. by replace (i + 1 - 719468) with (i + Z.of_nat 1 - 719468) by lia.
  - cbn [walk_days] in Hw. destruct (day_ok (i + 1) (next_day date)) eqn:E; [|done].
    unfold day_ok in E. by apply andb_true_iff in E as [[E%date_eqb_eq _]%andb_true_iff _].
Qed.

(** *** Any era *)

Definition eras_later (eras : Z) (date : Z * Z * Z) : Z * Z * Z := let '(y, m, d) := date in (y + eras * 400, m, d).

Lemma civil_later i eras : civil_from_days (i + eras * 146097 - 719468) = eras_later eras (civil_from_days (i - 719468)).
Proof.
  unfold civil_from_days. replace (i + eras * 146097 - 719468 + 719468) with (i + eras * 146097) by lia.
  replace (i - 719468 + 719468) with i by lia. rewrite Z.div_add, Z.mod_add by lia. cbn [eras_later]. f_equal. f_equal. lia.
Qed.

Lemma leap_later y eras : leap (y + eras * 400) = leap y.
Proof.
  unfold leap. replace (y + eras * 400) with (y + eras * 100 * 4) at 1 by lia. rewrite Z.mod_add by lia.
  replace (y + eras * 400) with (y + eras * 4 * 100) at 1 by lia. rewrite !Z.mod_add by lia. done.
Qed.

Lemma days_in_month_later y m eras : days_in_month (y + eras * 400) m = days_in_month y m.
Proof. unfold days_in_month. by rewrite leap_later. Qed.

Lemma next_day_later eras date : next_day (eras_later eras date) = eras_later eras (next_day date).
Proof.
  destruct date as [[y m] d]. cbn. rewrite days_in_month_later. destruct (d <? _); [done|]. destruct (m <? 12); [done|].
  cbn. do 2 f_equal. lia.
Qed.

Lemma era_day_later y m d eras : era_day (y + eras * 400) m d = let '(era, day) := era_day y m d in (era + eras, day).
Proof.
  unfold era_day. replace (y + eras * 400 - (if m <=? 2 then 1 else 0)) with (y - (if m <=? 2 then 1 else 0) + eras * 400) by lia.
  by rewrite Z.div_add, Z.mod_add by lia.
Qed.

(** Every day: its date in the calendar, the next day's, and the way back. *)
Lemma civil_spec days :
  valid_date (civil_from_days days) = true /\ civil_from_days (days + 1) = next_day (civil_from_days days) /\
  let '(y, m, d) := civil_from_days days in era_day y m d = ((days + 719468) / 146097, (days + 719468) mod 146097).
Proof.
  set (i := (days + 719468) mod 146097). set (eras := (days + 719468) / 146097).
  assert (days = i + eras * 146097 - 719468) as Ed by (unfold i, eras; pose proof (Z.div_mod (days + 719468) 146097); lia).
  assert (0 <= i < 146097) as Hi by (apply Z.mod_pos_bound; lia).
  destruct (walk_days_spec _ _ _ _ era_ok eq_refl i) as (date & Hok & Hnext); [lia|].
  unfold day_ok in Hok. apply andb_true_iff in Hok as [[Ec%date_eqb_eq Hv]%andb_true_iff Hday].
  assert (civil_from_days days = eras_later eras date) as E by (rewrite Ed, civil_later; by f_equal).
  rewrite E. split; [|split].
  - destruct date as [[y m] d]. cbn in *. by rewrite days_in_month_later.
  - rewrite Ed. replace (i + eras * 146097 - 719468 + 1) with (i + 1 + eras * 146097 - 719468) by lia.
    by rewrite civil_later, Hnext, next_day_later.
  - destruct date as [[y m] d]. cbn [eras_later]. rewrite era_day_later. destruct (era_day y m d) as [era day].
    apply andb_true_iff in Hday as [->%Z.eqb_eq ->%Z.eqb_eq]. by rewrite Z.add_0_l.
Qed.

Lemma days_from_civil_era y m d : days_from_civil y m d =
  let '(era, day) := era_day y m d in
  checked_i64 (era * 146097) ≫= fun n => checked_i64 (n + day) ≫= fun n => checked_i64 (n - 719468).
Proof. done. Qed.

Lemma checked_i64_ok x : - 2 ^ 63 <= x <= i64_max -> checked_i64 x = Some x.
Proof. intros H. unfold checked_i64. by rewrite !(proj2 (Z.leb_le _ _)) by lia. Qed.

Lemma days_roundtrip days : - 2 ^ 62 <= days <= 2 ^ 62 ->
  let '(y, m, d) := civil_from_days days in days_from_civil y m d = Some days.
Proof.
  intros Hd. pose proof (civil_spec days) as (_ & _ & H). destruct (civil_from_days days) as [[y m] d].
  rewrite days_from_civil_era, H. pose proof (Z.div_mod (days + 719468) 146097). pose proof (Z.mod_pos_bound (days + 719468) 146097).
  unfold i64_max in *. rewrite checked_i64_ok by (unfold i64_max; lia). cbn. rewrite checked_i64_ok by (unfold i64_max; lia). cbn.
  rewrite checked_i64_ok by (unfold i64_max; lia). f_equal. lia.
Qed.

(** The calendar computed from a count of days is the Gregorian one: the first of
    January 1970 is day nought, every day's date is one the calendar has, the next day's
    is the date after it, and every date found leads back to its day. *)
Theorem calendar_is_gregorian days :
  civil_from_days 0 = (1970, 1, 1) /\
  valid_date (civil_from_days days) = true /\
  civil_from_days (days + 1) = next_day (civil_from_days days) /\
  (- 2 ^ 62 <= days <= 2 ^ 62 -> let '(y, m, d) := civil_from_days days in days_from_civil y m d = Some days).
Proof.
  split; [done|]. destruct (civil_spec days) as (H1 & H2 & _). split; [done|]. split; [done|]. apply days_roundtrip.
Qed.

Lemma calendar_is_gregorian_witness : days_from_civil 2000 2 29 = Some 11016.
Proof.
  destruct (calendar_is_gregorian 11016) as (_ & _ & _ & H).
  assert (civil_from_days 11016 = (2000, 2, 29)) as E by (vm_compute; reflexivity).
  rewrite E in H. apply H. lia.
Defined.

(** ** Dates in order *)

Definition code (date : Z * Z * Z) : Z := let '(y, m, d) := date in (y * 100 + m) * 100 + d.

Lemma days_in_month_bounds y m : 28 <= days_in_month y m <= 31.
Proof. unfold days_in_month. repeat case_match; lia. Qed.

Lemma valid_date_bounds y m d : valid_date (y, m, d) = true -> 1 <= m <= 12 /\ 1 <= d <= 31.
Proof.
  cbn. unfold in_range. pose proof (days_in_month_bounds y m). rewrite !andb_true_iff, !Z.leb_le. lia.
Qed.

Lemma next_day_code date : valid_date date = true -> code date < code (next_day date).
Proof.
  destruct date as [[y m] d]. intros Hv. pose proof (valid_date_bounds y m d Hv). cbn. destruct (d <? _); [cbn; lia|].
  destruct (Z.ltb_spec m 12); cbn; lia.
Qed.

Lemma civil_increases n days : 0 < n -> code (civil_from_days days) < code (civil_from_days (days + n)).
Proof.
  intros Hn. replace n with (Z.succ (n - 1)) by lia. assert (0 <= n - 1) as Hn' by lia. revert Hn'.
  generalize (n - 1). clear n Hn. apply natlike_ind.
  - change (Z.succ 0) with 1. destruct (civil_spec days) as (Hv & Hnext & _). rewrite Hnext. by apply next_day_code.
  - intros n Hn IH. etrans; [exact IH|]. destruct (civil_spec (days + Z.succ n)) as (Hv & Hnext & _).
    replace (days + Z.succ (Z.succ n)) with (days + Z.succ n + 1) by lia. rewrite Hnext. by apply next_day_code.
Qed.

Lemma civil_compare a b : (code (civil_from_days a) ?= code (civil_from_days b)) = (a ?= b).
Proof.
  destruct (Z.compare_spec a b) as [->|H|H]; [apply Z.compare_refl| |].
  - apply Z.compare_lt_iff. pose proof (civil_increases (b - a) a). replace (a + (b - a)) with b in * by lia. lia.
  - apply Z.compare_gt_iff. pose proof (civil_increases (a - b) b). replace (b + (a - b)) with a in * by lia. lia.
Qed.

Lemma civil_le a b : a <= b -> code (civil_from_days a) <= code (civil_from_days b).
Proof. rewrite !Z.le_lteq. intros [H| ->]; [left|by right]. pose proof (civil_increases (b - a) a). replace (a + (b - a)) with b in * by lia. lia. Qed.

(** The years a timestamp can name. *)
Lemma civil_in_range days y m d : -719528 <= days <= 2932896 -> civil_from_days days = (y, m, d) -> 0 <= y <= 9999.
Proof.
  intros Hd E. destruct (civil_spec days) as (Hv & _). rewrite E in Hv. pose proof (valid_date_bounds y m d Hv).
  pose proof (civil_le (-719528) days ltac:(lia)) as H1. pose proof (civil_le days 2932896 ltac:(lia)) as H2. rewrite E in H1, H2.
  change (civil_from_days (-719528)) with (0, 1, 1) in H1. change (civil_from_days 2932896) with (9999, 12, 31) in H2.
  unfold code in *. lia.
Qed.

(** ** Fixed widths *)

Lemma push_digits_length fuel n tail k : (1 <= k <= fuel)%nat -> 0 <= n < 10 ^ Z.of_nat k ->
  (length (push_digits fuel n tail) <= k + length tail)%nat.
Proof.
  revert n tail k. induction fuel as [|fuel IH]; intros n tail k Hk Hn; [lia|]. cbn [push_digits].
  destruct (Z.ltb_spec n 10); [cbn; lia|]. destruct k as [|[|k]]; [lia|cbn in Hn; lia|].
  rewrite Nat2Z.inj_succ, Z.pow_succ_r in Hn by lia.
  specialize (IH (n / 10) ((48 + n mod 10) :: tail) (S k) ltac:(lia)). cbn [length] in IH.
  assert (0 <= n / 10 < 10 ^ Z.of_nat (S k)); [|specialize (IH ltac:(lia)); lia].
  split; [apply Z.div_pos; lia|apply Z.div_lt_upper_bound; lia].
Qed.

Lemma digits_value_zeros k s : digits_value 0 (replicate k 48 ++ s) = digits_value 0 s.
Proof. induction k as [|k IH]; [done|]. cbn. apply IH. Qed.

(** What a field is written as: digits, exactly as many as its width, of its value. *)
Lemma zero_padded_spec w n : (1 <= w <= 10)%nat -> 0 <= n < 10 ^ Z.of_nat w ->
  length (zero_padded w n) = w /\ is_digit_text (zero_padded w n) /\ digits_value 0 (zero_padded w n) = n.
Proof.
  intros Hw Hn. unfold zero_padded. rewrite (proj2 (Z.ltb_ge n 0)) by lia. cbn [length app]. rewrite Z.abs_eq by lia.
  assert (n < 10 ^ Z.of_nat 39) as Hbig by (assert (10 ^ Z.of_nat w <= 10 ^ Z.of_nat 39) by (apply Z.pow_le_mono_r; lia); lia).
  pose proof (push_digits_length 39 n [] w ltac:(lia) Hn) as Hlen. cbn [length] in Hlen. fold (show_uint n) in Hlen.
  split; [|split].
  - rewrite length_app, length_replicate. lia.
  - apply Forall_app. split; [|by apply show_uint_digits; lia]. apply Forall_replicate. done.
  - rewrite digits_value_zeros. apply push_digits_value; lia.
Qed.

Lemma digit_text_byte_len s : is_digit_text s -> byte_len s = length s.
Proof.
  induction 1 as [|c s Hc _ IH]; [done|]. apply is_ascii_digit_spec in Hc. cbn. unfold byte_len in IH. rewrite IH.
  unfold len_utf8. by rewrite (proj2 (Z.ltb_lt _ _)) by lia.
Qed.

Lemma digit_text_forallb s : is_digit_text s -> forallb is_ascii_digit s = true.
Proof. induction 1 as [|c s Hc _ IH]; [done|]. cbn. by rewrite Hc. Qed.

Lemma field_reads w n : (1 <= w <= 9)%nat -> 0 <= n < 10 ^ Z.of_nat w -> field (zero_padded w n) w = Some n.
Proof.
  intros Hw Hn. destruct (zero_padded_spec w n ltac:(lia) Hn) as (Hl & Hd & Hv). unfold field.
  rewrite digit_text_byte_len, Hl, Nat.eqb_refl, digit_text_forallb by done. cbn [negb orb].
  unfold parse_uint. destruct (zero_padded w n) as [|c s] eqn:E; [cbn in Hl; lia|].
  assert (c =? 43 = false) as -> by (apply Forall_inv, is_ascii_digit_spec in Hd; lia).
  assert (10 ^ Z.of_nat w <= 10 ^ 9) by (apply Z.pow_le_mono_r; lia).
  rewrite parse_digits_value by (done || lia || (rewrite Hv; unfold umax; lia)). by rewrite Hv.
Qed.

(** ** A timestamp in parts *)

(** The moments a timestamp can name. *)
Definition in_span (time : Z) : Prop := MIN_SECS <= time / 10 ^ 9 <= MAX_SECS.

Lemma epoch_parts_span time : in_span time -> epoch_parts time = (time / 10 ^ 9, time mod 10 ^ 9).
Proof.
  unfold in_span, epoch_parts, MIN_SECS, MAX_SECS, saturating_secs, i64_max. intros H.
  pose proof (Z.div_mod time (10 ^ 9) ltac:(lia)). pose proof (Z.mod_pos_bound time (10 ^ 9) ltac:(lia)).
  destruct (Z.leb_spec 0 time); [by rewrite (proj2 (Z.leb_le _ _)) by lia|].
  pose proof (Z.div_mod (- time) (10 ^ 9) ltac:(lia)). pose proof (Z.mod_pos_bound (- time) (10 ^ 9) ltac:(lia)).
  rewrite (proj2 (Z.leb_le _ _)) by lia. destruct (Z.eqb_spec (- time mod 10 ^ 9) 0); f_equal; lia.
Qed.

(** The parts of a moment: its day, its second of the day and its microsecond. *)
Record Parts (time : Z) (y m d h mi s us : Z) : Prop := {
  parts_date : civil_from_days (time / 10 ^ 9 / SECS_PER_DAY) = (y, m, d);
  parts_year : 0 <= y <= 9999;
  parts_month : 1 <= m <= 12;
  parts_day : 1 <= d <= 31;
  parts_hour : 0 <= h <= 23;
  parts_minute : 0 <= mi <= 59;
  parts_second : 0 <= s <= 59;
  parts_micros : 0 <= us < 10 ^ 6;
  parts_clock : time / 10 ^ 9 mod SECS_PER_DAY = h * 3600 + mi * 60 + s;
  parts_fraction : us = time mod 10 ^ 9 / 1000;
}.

Definition stamp (y m d h mi s us : Z) : text :=
  zero_padded 4 y ++ 45 :: zero_padded 2 m ++ 45 :: zero_padded 2 d ++ 84 ::
  zero_padded 2 h ++ 58 :: zero_padded 2 mi ++ 58 :: zero_padded 2 s ++ 46 :: zero_padded 6 us ++ [90].

Lemma rfc3339_parts time : in_span time -> exists y m d h mi s us,
  rfc3339 time = stamp y m d h mi s us /\ Parts time y m d h mi s us.
Proof.
  intros Ht. unfold rfc3339. rewrite epoch_parts_span by done. unfold in_span, MIN_SECS, MAX_SECS in Ht.
  unfold clamp, MIN_SECS, MAX_SECS. rewrite (proj2 (Z.ltb_ge _ _)) by lia. rewrite (proj2 (Z.ltb_ge _ _)) by lia.
  unfold civil_parts. set (secs := time / 10 ^ 9) in *.
  pose proof (Z.div_mod secs SECS_PER_DAY) as E. pose proof (Z.mod_pos_bound secs SECS_PER_DAY) as Hb. unfold SECS_PER_DAY in E, Hb.
  destruct (civil_from_days (secs / SECS_PER_DAY)) as [[y m] d] eqn:Ec.
  destruct (civil_spec (secs / SECS_PER_DAY)) as (Hv & _). rewrite Ec in Hv. destruct (valid_date_bounds y m d Hv) as [Hm Hd].
  pose proof (civil_in_range (secs / SECS_PER_DAY) y m d ltac:(unfold SECS_PER_DAY; lia) Ec) as Hy.
  set (tod := secs mod SECS_PER_DAY) in *. assert (0 <= tod < 86400) as Htod by (unfold tod, SECS_PER_DAY; lia).
  pose proof (Z.mod_pos_bound time (10 ^ 9) ltac:(lia)).
  exists y, m, d, (tod / 3600), (tod mod 3600 / 60), (tod mod 60), (time mod 10 ^ 9 / 1000).
  split; [done|]. split; try done; fold secs; fold tod; clear -Htod H; clearbody tod; Z.to_euclidean_division_equations; lia.
Qed.

(** *** Read back *)

Lemma splitn_three sep a b c : sep ∉ a -> sep ∉ b -> splitn 3 sep (a ++ sep :: b ++ sep :: c) = [a; b; c].
Proof.
  assert (forall l, sep ∉ l -> Forall (fun x => (sep =? x) = false) l) as H.
  { intros l Hl. apply Forall_forall. intros x Hx. apply Z.eqb_neq. by intros <-. }
  intros Ha Hb. cbn [splitn]. rewrite split_once_at by (auto || apply Z.eqb_refl). by rewrite split_once_at by (auto || apply Z.eqb_refl).
Qed.

Lemma digit_text_not c s : is_digit_text s -> is_ascii_digit c = false -> c ∉ s.
Proof. intros Hs Hc Hin. unfold is_digit_text in Hs. rewrite Forall_forall in Hs. specialize (Hs c Hin). congruence. Qed.

Lemma scaled_six s : length s = 6%nat -> scaled s = digits_value 0 s * 1000.
Proof. intros Hl. do 6 (destruct s as [|? s]; [done|]). destruct s; [|done]. unfold scaled. cbn. lia. Qed.

(** The fields of a stamp are digits. *)
Lemma parts_digits time y m d h mi s us : Parts time y m d h mi s us ->
  is_digit_text (zero_padded 4 y) /\ is_digit_text (zero_padded 2 m) /\ is_digit_text (zero_padded 2 d) /\
  is_digit_text (zero_padded 2 h) /\ is_digit_text (zero_padded 2 mi) /\ is_digit_text (zero_padded 2 s) /\
  is_digit_text (zero_padded 6 us).
Proof. intros []. split_and!; apply zero_padded_spec; lia. Qed.

(** A stamp is taken apart into its fields. *)
Lemma stamp_splits time y m d h mi s us : Parts time y m d h mi s us ->
  exists date rest clock,
    strip_suffix 90 (trim (stamp y m d h mi s us)) = Some (date ++ 84 :: rest) /\
    split_once (fun c => (c =? 84) || (c =? 116)) (date ++ 84 :: rest) = Some (date, rest) /\
    splitn 3 45 date = [zero_padded 4 y; zero_padded 2 m; zero_padded 2 d] /\
    split_once (Z.eqb 46) rest = Some (clock, zero_padded 6 us) /\
    splitn 3 58 clock = [zero_padded 2 h; zero_padded 2 mi; zero_padded 2 s].
Proof.
  intros Hp. destruct (parts_digits _ _ _ _ _ _ _ _ Hp) as (Hy & Hm & Hd & Hh & Hmi & Hs & Hus).
  set (date := zero_padded 4 y ++ 45 :: zero_padded 2 m ++ 45 :: zero_padded 2 d).
  set (clock := zero_padded 2 h ++ 58 :: zero_padded 2 mi ++ 58 :: zero_padded 2 s).
  set (rest := clock ++ 46 :: zero_padded 6 us).
  assert (stamp y m d h mi s us = (date ++ 84 :: rest) ++ [90]) as E.
  { unfold stamp, date, rest, clock. repeat (rewrite <- app_assoc; cbn [app]). done. }
  assert (forall c s, is_digit_text s -> (forall x, is_ascii_digit x = true -> x <> c) -> c ∉ s) as Hnot.
  { intros c l Hl Hc Hin. unfold is_digit_text in Hl. rewrite Forall_forall in Hl. by apply (Hc c (Hl c Hin)). }
  assert (forall (P : Z -> bool) l, is_digit_text l -> (forall x, is_ascii_digit x = true -> P x = false) -> Forall (fun x => P x = false) l) as Hall.
  { intros P l Hl HP. eapply Forall_impl; [exact Hl|]. intros x Hx. by apply HP. }
  assert (forall x, is_ascii_digit x = true -> 48 <= x <= 57) as Hx by (intros x; apply is_ascii_digit_spec).
  exists date, rest, clock. rewrite E. split_and!.
  - rewrite trim_id; [unfold strip_suffix, ends_with; by rewrite last_snoc, removelast_last| |unfold ends_with; by rewrite last_snoc].
    unfold date. destruct (zero_padded 4 y) as [|c l]; [done|]. cbn. apply Forall_inv, Hx in Hy. unfold is_whitespace, in_range. lia.
  - apply split_once_at; [|done]. unfold date.
    repeat (first [apply Hall; [done|intros x ?%Hx; lia]|apply Forall_cons; split; [done|]|apply Forall_app; split]).
  - apply splitn_three; (apply Hnot; [done|intros x ?%Hx; lia]).
  - apply split_once_at; [|done]. unfold clock.
    repeat (first [apply Hall; [done|intros x ?%Hx; lia]|apply Forall_cons; split; [done|]|apply Forall_app; split]).
  - apply splitn_three; (apply Hnot; [done|intros x ?%Hx; lia]).
Qed.

(** A timestamp names its moment.  Every moment between the years 0 and 9999 is
    written as a timestamp that reads back as that moment, to the microsecond. *)
Theorem timestamp_roundtrip time : in_span time -> parse_rfc3339 (rfc3339 time) = Some (time / 1000 * 1000).
Proof.
  intros Ht. destruct (rfc3339_parts time Ht) as (y & m & d & h & mi & s & us & -> & Hp).
  destruct (stamp_splits _ _ _ _ _ _ _ _ Hp) as (date & rest & clock & E1 & E2 & E3 & E4 & E5).
  destruct (parts_digits _ _ _ _ _ _ _ _ Hp) as (_ & _ & _ & _ & _ & _ & Hus). destruct Hp.
  unfold parse_rfc3339. rewrite E1. cbn [mbind option_bind]. rewrite E2. cbn [mbind option_bind]. rewrite E3.
  rewrite !field_reads by lia. cbn [mbind option_bind]. rewrite E4, E5. rewrite !field_reads by lia. cbn [mbind option_bind].
  rewrite !(proj2 (Z.ltb_ge _ _)) by lia. cbn [orb]. rewrite Z.min_l by lia.
  destruct (zero_padded_spec 6 us ltac:(lia) ltac:(lia)) as (Hl & _ & Hv).
  unfold fraction_nanos. rewrite digit_text_forallb by done. destruct (zero_padded 6 us) as [|c l] eqn:Eus; [done|]. cbn [orb negb].
  rewrite <- Eus in *. rewrite scaled_six, Hv by done. cbn [mbind option_bind].
  unfold in_span, MIN_SECS, MAX_SECS in *. unfold SECS_PER_DAY in *. set (secs := time / 10 ^ 9) in *.
  pose proof (Z.div_mod secs 86400 ltac:(lia)) as Es.
  pose proof (days_roundtrip (secs / 86400) ltac:(lia)) as Hdays. rewrite parts_date0 in Hdays. rewrite Hdays. cbn [mbind option_bind].
  rewrite parts_date0, bool_decide_false by (intros []; done).
  rewrite checked_i64_ok by (unfold i64_max; lia). cbn [mbind option_bind]. rewrite checked_i64_ok by (unfold i64_max; lia).
  cbn [mbind option_bind]. rewrite (proj2 (Z.leb_le _ _)) by lia. rewrite (proj2 (Z.leb_le _ _)) by lia. cbn [andb negb]. f_equal.
  pose proof (Z.div_mod time (10 ^ 9) ltac:(lia)) as Et. fold secs in Et.
  pose proof (Z.div_mod (time mod 10 ^ 9) 1000 ltac:(lia)). pose proof (Z.mod_pos_bound (time mod 10 ^ 9) 1000 ltac:(lia)).
  assert (time / 1000 = secs * 10 ^ 6 + us) as ->; [|lia]. symmetry. apply (Z.div_unique_pos _ _ _ (time mod 10 ^ 9 mod 1000)); lia.
Qed.

Lemma timestamp_roundtrip_witness : parse_rfc3339 (rfc3339 1770000000123456789) = Some 1770000000123456000.
Proof. apply (timestamp_roundtrip 1770000000123456789). vm_compute. split; discriminate. Defined.

(** ** In order *)

(** Two numbers written in one mixed radix. *)
Lemma mixed_cmp k a b a' b' : 0 <= b < k -> 0 <= b' < k -> (a * k + b ?= a' * k + b') = then_cmp (a ?= a') (b ?= b').
Proof.
  intros Hb Hb'. destruct (Z.compare_spec a a') as [->|H|H]; cbn [then_cmp].
  - destruct (Z.compare_spec b b'); [apply Z.compare_eq_iff|apply Z.compare_lt_iff|apply Z.compare_gt_iff]; lia.
  - apply Z.compare_lt_iff. nia.
  - apply Z.compare_gt_iff. nia.
Qed.

Lemma padded_cmp w n n' x y : (1 <= w <= 9)%nat -> 0 <= n < 10 ^ Z.of_nat w -> 0 <= n' < 10 ^ Z.of_nat w ->
  str_cmp (zero_padded w n ++ x) (zero_padded w n' ++ y) = then_cmp (n ?= n') (str_cmp x y).
Proof.
  intros Hw Hn Hn'. destruct (zero_padded_spec w n ltac:(lia) Hn) as (Hl & Hd & Hv).
  destruct (zero_padded_spec w n' ltac:(lia) Hn') as (Hl' & Hd' & Hv'). rewrite (digits_cmp 0) by (done || congruence). by rewrite Hv, Hv'.
Qed.

Lemma str_cmp_same c x y : str_cmp (c :: x) (c :: y) = str_cmp x y.
Proof. cbn. by rewrite Z.compare_refl. Qed.

Lemma then_cmp_assoc a b c : then_cmp (then_cmp a b) c = then_cmp a (then_cmp b c).
Proof. by destruct a. Qed.

Lemma micros_cmp a b : (a / 1000 ?= b / 1000) =
  then_cmp (a / 10 ^ 9 / SECS_PER_DAY ?= b / 10 ^ 9 / SECS_PER_DAY)
    (then_cmp (a / 10 ^ 9 mod SECS_PER_DAY ?= b / 10 ^ 9 mod SECS_PER_DAY) (a mod 10 ^ 9 / 1000 ?= b mod 10 ^ 9 / 1000)).
Proof.
  assert (forall x, x / 1000 = (x / 10 ^ 9 / 86400 * 86400 + x / 10 ^ 9 mod 86400) * 10 ^ 6 + x mod 10 ^ 9 / 1000 /\
    0 <= x mod 10 ^ 9 / 1000 < 10 ^ 6 /\ 0 <= x / 10 ^ 9 mod 86400 < 86400) as H.
  { intros x. Z.to_euclidean_division_equations. lia. }
  unfold SECS_PER_DAY. destruct (H a) as (Ea & Ha1 & Ha2), (H b) as (Eb & Hb1 & Hb2). rewrite Ea, Eb.
  by rewrite mixed_cmp, mixed_cmp, then_cmp_assoc.
Qed.

(** Timestamps sort as the moments they name: of any two moments between the years 0 and
    9999 the texts compare as the moments do, to the microsecond. *)
Theorem timestamps_sort a b : in_span a -> in_span b -> str_cmp (rfc3339 a) (rfc3339 b) = (a / 1000 ?= b / 1000).
Proof.
  intros Ha Hb. destruct (rfc3339_parts a Ha) as (y & m & d & h & mi & s & us & -> & []).
  destruct (rfc3339_parts b Hb) as (y' & m' & d' & h' & mi' & s' & us' & -> & []).
  unfold stamp. repeat (rewrite padded_cmp by lia; rewrite ?str_cmp_same). cbn [str_cmp then_cmp].
  rewrite micros_cmp, <- parts_fraction0, <- parts_fraction1, parts_clock0, parts_clock1, <- (civil_compare (a / 10 ^ 9 / SECS_PER_DAY)), parts_date0, parts_date1.
  unfold code. rewrite !mixed_cmp by lia.
  replace (h * 3600 + mi * 60 + s) with ((h * 60 + mi) * 60 + s) by lia. replace (h' * 3600 + mi' * 60 + s') with ((h' * 60 + mi') * 60 + s') by lia.
  rewrite !mixed_cmp by lia. rewrite !then_cmp_assoc. by destruct (us ?= us').
Qed.

Lemma timestamps_sort_witness : str_cmp (rfc3339 (-1000)) (rfc3339 0) = Lt.
Proof. rewrite (timestamps_sort (-1000) 0); [reflexivity| |]; vm_compute; split; discriminate. Defined.
