(* ===== verification/Version.v ===== *)
(** * Versions

    [src/src/version.rs]: two comparisons of version strings, the one the advisory ranges
    use ([version_cmp]) and Debian's ([dpkg_cmp]).  A version is the list of its bytes.
    Each comparison is shown to be the comparison of a key in a total order, which is
    what a search through sorted ranges needs; where [version_cmp] is not, a run of
    digits past 64 bits, is shown too. *)

From Stdlib Require Import ZArith Lia String.
From stdpp Require Import base numbers option list.
From S2P Require Import Prelude Std Text Ordering.

Local Open Scope Z_scope.

(** ** Definitions *)

Definition starts_digit (s : text) : bool := starts_with is_ascii_digit s.

(** The scan over the hyphens: the first one no digit follows ends the release. *)
Fixpoint split_pre_release (version : text) : text * option text :=
  match version with
  | [] => ([], None)
  | c :: rest =>
      if (c =? 45) && negb (starts_digit rest) then ([], Some rest)
      else let '(release, pre) := split_pre_release rest in (c :: release, pre)
  end.

(** The longest start of [s] whose bytes are digits, or are not, and the rest. *)
Fixpoint split_run (s : text) (digits : bool) : text * text :=
  match s with
  | [] => ([], [])
  | c :: t =>
      if Bool.eqb (is_ascii_digit c) digits then let '(run, rest) := split_run t digits in (c :: run, rest)
      else ([], s)
  end.

Definition len_cmp (a b : text) : comparison := Nat.compare (length a) (length b).

(** Two runs of digits: as numbers, or by length and then as text past 64 bits. *)
Definition number_cmp (x y : text) : comparison :=
  match parse_uint 64 x, parse_uint 64 y with
  | Ok x, Ok y => x ?= y
  | _, _ => then_cmp (len_cmp x y) (str_cmp x y)
  end.

(** The loop of [component_cmp]; each turn that goes on takes a run off each side. *)
Fixpoint component_loop (fuel : nat) (a b : text) : comparison :=
  match fuel with
  | O => Eq
  | S fuel =>
      match a, b with
      | [], _ | _, [] => len_cmp a b
      | _, _ =>
          match starts_digit a, starts_digit b with
          | true, true =>
              let '(x, rest_a) := split_run a true in
              let '(y, rest_b) := split_run b true in
              match number_cmp x y with Eq => component_loop fuel rest_a rest_b | c => c end
          | false, false =>
              let '(x, rest_a) := split_run a false in
              let '(y, rest_b) := split_run b false in
              match str_cmp x y with Eq => component_loop fuel rest_a rest_b | c => c end
          | true, false => Gt
          | false, true => Lt
          end
      end
  end.

Definition component_cmp (a b : text) : comparison := component_loop (S (Nat.max (length a) (length b))) a b.

Definition version_separator (c : Z) : bool := (c =? 46) || (c =? 45).

Definition components (a b : text) : comparison :=
  let a := split_by version_separator a in
  let b := split_by version_separator b in
  first_ne ((fun i => component_cmp (default (lit "0") (a !! i)) (default (lit "0") (b !! i)))
    <$> seq 0 (Nat.max (length a) (length b))).

Definition version_cmp (a b : text) : comparison :=
  let '(a_release, a_pre) := split_pre_release a in
  let '(b_release, b_pre) := split_pre_release b in
  let release := components a_release b_release in
  match release with
  | Eq =>
      match a_pre, b_pre with
      | None, None => Eq
      | Some _, None => Lt
      | None, Some _ => Gt
      | Some x, Some y => components x y
      end
  | c => c
  end.

(** *** Debian *)

Fixpoint trim_zeros (s : text) : text :=
  match s with c :: t => if c =? 48 then trim_zeros t else s | [] => [] end.

Definition digit_run_cmp (a b : text) : comparison :=
  let a := trim_zeros a in
  let b := trim_zeros b in
  then_cmp (len_cmp a b) (str_cmp a b).

Definition dpkg_weight (c : option Z) : Z :=
  match c with
  | None => 0
  | Some c => if c =? 126 then -1 else if is_ascii_alphabetic c then c else c + 256
  end.

(** The loop of [dpkg_part_cmp]: a run that is not digits, then one that is. *)
Fixpoint dpkg_loop (fuel : nat) (a b : text) : comparison :=
  match fuel with
  | O => Eq
  | S fuel =>
      match a, b with
      | [], [] => Eq
      | _, _ =>
          let '(a_text, a_rest) := split_run a false in
          let '(b_text, b_rest) := split_run b false in
          let text := first_ne ((fun i => dpkg_weight (a_text !! i) ?= dpkg_weight (b_text !! i))
            <$> seq 0 (Nat.max (length a_text) (length b_text))) in
          match text with
          | Eq =>
              let '(a_digits, a_rest) := split_run a_rest true in
              let '(b_digits, b_rest) := split_run b_rest true in
              match digit_run_cmp a_digits b_digits with Eq => dpkg_loop fuel a_rest b_rest | c => c end
          | c => c
          end
      end
  end.

Definition dpkg_part_cmp (a b : text) : comparison := dpkg_loop (S (Nat.max (length a) (length b))) a b.

Fixpoint split_first (c : Z) (s : text) : option (text * text) :=
  match s with
  | [] => None
  | x :: t => if x =? c then Some ([], t) else (fun '(a, b) => (x :: a, b)) <$> split_first c t
  end.

Definition dpkg_parts (version : text) : text * text * text :=
  let '(epoch, rest) :=
    match split_first 58 version with
    | Some (epoch, rest) =>
        if negb (bool_decide (epoch = [])) && forallb is_ascii_digit epoch then (epoch, rest) else (lit "0", version)
    | None => (lit "0", version)
    end in
  match split_last 45 rest with
  | Some (upstream, revision) => (epoch, upstream, revision)
  | None => (epoch, rest, lit "0")
  end.

Definition dpkg_cmp (a b : text) : comparison :=
  let '(a_epoch, a_upstream, a_revision) := dpkg_parts a in
  let '(b_epoch, b_upstream, b_revision) := dpkg_parts b in
  then_cmp (then_cmp (digit_run_cmp a_epoch b_epoch) (dpkg_part_cmp a_upstream b_upstream)) (dpkg_part_cmp a_revision b_revision).

Definition dpkg_revision (version : text) : text := (dpkg_parts version).2.

(** ** Runs *)

Lemma split_run_app s digits run rest : split_run s digits = (run, rest) ->
  s = run ++ rest /\ Forall (fun c => is_ascii_digit c = digits) run /\
  match rest with [] => True | c :: _ => is_ascii_digit c = negb digits end.
Proof.
  revert run. induction s as [|c s IH]; intros run; cbn; [by intros [= <- <-]|].
  destruct (Bool.eqb_spec (is_ascii_digit c) digits) as [E|E].
  - destruct (split_run s digits) as [r t] eqn:Es. intros [= <- <-]. destruct (IH _ eq_refl) as (-> & H1 & H2).
    split; [done|]. split; [by constructor|done].
  - intros [= <- <-]. split; [done|]. split; [constructor|]. by destruct (is_ascii_digit c), digits.
Qed.

(** *** A run of digits compares as its number *)

Lemma trim_zeros_spec s : is_digit_text s -> is_digit_text (trim_zeros s) /\ digits_value 0 (trim_zeros s) = digits_value 0 s /\
  (trim_zeros s = [] \/ exists c t, trim_zeros s = c :: t /\ 49 <= c <= 57).
Proof.
  induction 1 as [|c s Hc Hs IH]; cbn [trim_zeros]; [split; [constructor|by auto]|].
  destruct (Z.eqb_spec c 48) as [->|Hne]; [done|]. split; [by constructor|]. split; [done|]. right. exists c, s. split; [done|].
  apply is_ascii_digit_spec in Hc. lia.
Qed.

Lemma digits_value_lower s : is_digit_text s -> (s = [] \/ exists c t, s = c :: t /\ 49 <= c <= 57) ->
  s = [] \/ 10 ^ (Z.of_nat (length s) - 1) <= digits_value 0 s.
Proof.
  intros Hs [->|(c & t & -> & Hc)]; [by left|]. right. apply Forall_cons in Hs as [_ Ht]. cbn [digits_value length].
  pose proof (digits_value_bounds (0 * 10 + (c - 48)) t Ht). replace (Z.of_nat (S (length t)) - 1) with (Z.of_nat (length t)) by lia.
  assert (0 < 10 ^ Z.of_nat (length t)) by (apply Z.pow_pos_nonneg; lia). nia.
Qed.

Lemma shorter_smaller a b : is_digit_text a -> is_digit_text b -> (b = [] \/ exists c t, b = c :: t /\ 49 <= c <= 57) ->
  (length a < length b)%nat -> digits_value 0 a < digits_value 0 b.
Proof.
  intros Ha Hb Hlead Hl. destruct (digits_value_lower b Hb Hlead) as [->|Hlow]; [cbn in Hl; lia|].
  pose proof (digits_value_bounds 0 a Ha) as Hup.
  assert (10 ^ Z.of_nat (length a) <= 10 ^ (Z.of_nat (length b) - 1)) by (apply Z.pow_le_mono_r; lia). lia.
Qed.

Lemma digit_run_value a b : is_digit_text a -> is_digit_text b -> digit_run_cmp a b = (digits_value 0 a ?= digits_value 0 b).
Proof.
  intros Ha Hb. destruct (trim_zeros_spec a Ha) as (Ha' & Ea & La), (trim_zeros_spec b Hb) as (Hb' & Eb & Lb).
  unfold digit_run_cmp, len_cmp. rewrite <- Ea, <- Eb. destruct (Nat.compare_spec (length (trim_zeros a)) (length (trim_zeros b))) as [E|H|H]; cbn [then_cmp].
  - pose proof (digits_cmp 0 _ _ [] [] Ha' Hb' E) as H. rewrite !app_nil_r in H. rewrite H. by destruct (_ ?= _).
  - symmetry. apply Z.compare_lt_iff. by apply shorter_smaller.
  - symmetry. apply Z.compare_gt_iff. by apply shorter_smaller.
Qed.

(** ** Debian's order *)

(** The key of a part: the weights of each text run, a zero for its end, and the number
    that follows it. *)
Fixpoint part_key (fuel : nat) (s : text) : list Z :=
  match fuel with
  | O => []
  | S fuel =>
      match s with
      | [] => []
      | _ =>
          let '(run, rest) := split_run s false in
          let '(digits, rest) := split_run rest true in
          ((fun c => dpkg_weight (Some c)) <$> run) ++ 0 :: digits_value 0 digits :: part_key fuel rest
      end
  end.

Definition dpkg_key (s : text) : list Z := part_key (length s) s.

Definition weights_cmp : list Z -> list Z -> comparison := lex_pad Z.compare 0.

Lemma split_run_length s digits run rest : split_run s digits = (run, rest) -> length s = (length run + length rest)%nat.
Proof. intros (-> & _)%split_run_app. apply length_app. Qed.

(** A part that is not over gives up a byte each turn. *)
Lemma two_runs_shorter s run rest digits rest' : s <> [] -> split_run s false = (run, rest) -> split_run rest true = (digits, rest') ->
  (length rest' < length s)%nat.
Proof.
  intros Hs E1 E2. pose proof (split_run_length _ _ _ _ E1). pose proof (split_run_length _ _ _ _ E2).
  destruct (split_run_app _ _ _ _ E1) as (_ & _ & H1). destruct run as [|c run]; [|cbn in *; lia].
  destruct rest as [|c rest]; [cbn in *; destruct s; [done|cbn in *; lia]|].
  cbn in E2. cbn in H1. rewrite H1 in E2. cbn in E2. destruct (split_run rest true). injection E2 as <- <-. cbn in *. lia.
Qed.

Lemma part_key_fuel n m s : (length s <= n)%nat -> (length s <= m)%nat -> part_key n s = part_key m s.
Proof.
  revert m s. induction n as [|n IH]; intros m s Hn Hm; [destruct s; [by destruct m|cbn in Hn; lia]|].
  destruct m as [|m]; [destruct s; [done|cbn in Hm; lia]|]. cbn [part_key]. destruct s as [|c s]; [done|].
  destruct (split_run (c :: s) false) as [run rest] eqn:E1. destruct (split_run rest true) as [digits rest'] eqn:E2.
  pose proof (two_runs_shorter (c :: s) _ _ _ _ ltac:(done) E1 E2). do 3 f_equal. apply IH; cbn in *; lia.
Qed.

Lemma dpkg_weight_nonzero c : 0 <= c -> dpkg_weight (Some c) <> 0.
Proof. intros Hc. cbn. unfold is_ascii_alphabetic, in_range. repeat case_match; lia. Qed.

Lemma weights_step a b : weights_cmp a b = then_cmp (at_or 0 a 0 ?= at_or 0 b 0) (weights_cmp (tail a) (tail b)).
Proof. apply (lex_pad_step Z.compare 0). Qed.

(** The weights of two runs, one after the other, are those of the two. *)
Lemma weights_app wa wb x y : Forall (fun w => w <> 0) wa -> Forall (fun w => w <> 0) wb ->
  weights_cmp (wa ++ 0 :: x) (wb ++ 0 :: y) = then_cmp (weights_cmp wa wb) (weights_cmp x y).
Proof.
  intros Ha. revert wb. induction Ha as [|a wa Ha _ IH]; intros wb Hb.
  - destruct Hb as [|b wb Hb _]; [by rewrite weights_step|]. rewrite weights_step, (weights_step [] (b :: wb)).
    unfold at_or; cbn [app lookup list_lookup from_option id tail]. destruct (Z.compare_spec 0 b); [congruence|done|done].
  - destruct Hb as [|b wb Hb Hwb]; rewrite weights_step, (weights_step (a :: wa)); unfold at_or; cbn [app lookup list_lookup from_option id tail].
    + destruct (Z.compare_spec a 0); [congruence|done|done].
    + rewrite IH by done. by destruct (a ?= b).
Qed.

Lemma run_weights a b :
  first_ne ((fun i => dpkg_weight (a !! i) ?= dpkg_weight (b !! i)) <$> seq 0 (Nat.max (length a) (length b))) =
  weights_cmp ((fun c => dpkg_weight (Some c)) <$> a) ((fun c => dpkg_weight (Some c)) <$> b).
Proof.
  unfold weights_cmp, lex_pad, cmp_upto. rewrite !length_fmap. f_equal. apply list_fmap_ext. intros i k _.
  unfold at_or. rewrite !list_lookup_fmap. by destruct (a !! k), (b !! k).
Qed.

Lemma bytes_run s digits run rest : Forall (fun c => 0 <= c) s -> split_run s digits = (run, rest) ->
  Forall (fun c => 0 <= c) run /\ Forall (fun c => 0 <= c) rest.
Proof. intros Hs (-> & _)%split_run_app. by apply Forall_app. Qed.

(** The key with the two runs a part starts with, empty ones where it is over. *)
Lemma part_key_runs fuel s run rest digits rest' y : (length s <= fuel)%nat ->
  split_run s false = (run, rest) -> split_run rest true = (digits, rest') ->
  let key := ((fun c => dpkg_weight (Some c)) <$> run) ++ 0 :: digits_value 0 digits :: part_key fuel rest' in
  weights_cmp (part_key (S fuel) s) y = weights_cmp key y /\ weights_cmp y (part_key (S fuel) s) = weights_cmp y key.
Proof.
  intros Hl E1 E2 key. assert (weights_cmp (part_key (S fuel) s) key = Eq) as E.
  { unfold key. destruct s as [|c s].
    - cbn in E1. injection E1 as <- <-. cbn in E2. injection E2 as <- <-. by destruct fuel.
    - cbn [part_key]. rewrite E1, E2. apply cmp_refl, _. }
  split; [by apply cmp_eq|by apply cmp_eq_r; [apply _|]].
Qed.

Lemma dpkg_loop_key fuel a b : Forall (fun c => 0 <= c) a -> Forall (fun c => 0 <= c) b ->
  (length a < fuel)%nat -> (length b < fuel)%nat -> dpkg_loop fuel a b = weights_cmp (part_key fuel a) (part_key fuel b).
Proof.
  revert a b. induction fuel as [|fuel IH]; intros a b Ha Hb Hla Hlb; [lia|]. cbn [dpkg_loop].
  destruct (split_run a false) as [ra ta] eqn:Ea1. destruct (split_run ta true) as [da ta'] eqn:Ea2.
  destruct (split_run b false) as [rb tb] eqn:Eb1. destruct (split_run tb true) as [db tb'] eqn:Eb2.
  destruct (part_key_runs fuel a _ _ _ _ (part_key (S fuel) b) ltac:(lia) Ea1 Ea2) as [-> _].
  destruct (part_key_runs fuel b _ _ _ _ (((fun c => dpkg_weight (Some c)) <$> ra) ++ 0 :: digits_value 0 da :: part_key fuel ta') ltac:(lia) Eb1 Eb2) as [_ ->].
  destruct (bytes_run a _ _ _ Ha Ea1) as [Hra Hta], (bytes_run b _ _ _ Hb Eb1) as [Hrb Htb].
  destruct (bytes_run ta _ _ _ Hta Ea2) as [_ Hta'], (bytes_run tb _ _ _ Htb Eb2) as [_ Htb'].
  assert (forall l, Forall (fun c => 0 <= c) l -> Forall (fun w => w <> 0) ((fun c => dpkg_weight (Some c)) <$> l)) as Hw.
  { intros l Hl. apply Forall_fmap. eapply Forall_impl; [exact Hl|]. intros c Hc. by apply dpkg_weight_nonzero. }
  rewrite weights_app by auto. rewrite (weights_step (digits_value 0 da :: _)). cbn [tail].
  rewrite run_weights. assert (is_digit_text da /\ is_digit_text db) as [Hda Hdb].
  { apply split_run_app in Ea2 as (_ & ? & _), Eb2 as (_ & ? & _). done. }
  rewrite digit_run_value by done.
  assert (a <> [] \/ b <> [] -> dpkg_loop fuel ta' tb' = weights_cmp (part_key fuel ta') (part_key fuel tb')) as Hrest.
  { assert (forall s run rest d rest', (length s <= fuel)%nat -> split_run s false = (run, rest) -> split_run rest true = (d, rest') ->
      (0 < fuel)%nat -> (length rest' < fuel)%nat) as Hlen.
    { intros s run rest d rest' Hs E1 E2 Hf. destruct s as [|c s]; [cbn in E1; injection E1 as <- <-; cbn in E2; by injection E2 as <- <-|].
      pose proof (two_runs_shorter (c :: s) _ _ _ _ ltac:(done) E1 E2). lia. }
    intros Hne. assert (0 < fuel)%nat by (destruct Hne, a, b; cbn in *; try done; lia).
    apply IH; [done|done|apply (Hlen a ra ta da); (done || lia)|apply (Hlen b rb tb db); (done || lia)]. }
  unfold at_or. cbn [lookup list_lookup from_option id].
  destruct a as [|ca a]; [destruct b as [|cb b]|].
  - cbn in Ea1, Eb1. injection Ea1 as <- <-. injection Eb1 as <- <-. cbn in Ea2, Eb2. injection Ea2 as <- <-. injection Eb2 as <- <-.
    cbn. by destruct fuel.
  - rewrite Hrest by by right. by destruct (weights_cmp _ _), (digits_value 0 da ?= _).
  - rewrite Hrest by by left. destruct (weights_cmp (_ <$> ra) _), (digits_value 0 da ?= _); done.
Qed.

(** A version's bytes. *)
Definition is_bytes (s : text) : Prop := Forall (fun c => 0 <= c) s.

Lemma dpkg_part_key a b : is_bytes a -> is_bytes b -> dpkg_part_cmp a b = weights_cmp (dpkg_key a) (dpkg_key b).
Proof.
  intros Ha Hb. unfold dpkg_part_cmp, dpkg_key. rewrite dpkg_loop_key by (done || lia).
  by rewrite (part_key_fuel _ (length a) a), (part_key_fuel _ (length b) b) by lia.
Qed.

Lemma split_first_bytes c s a b : split_first c s = Some (a, b) -> is_bytes s -> is_bytes a /\ is_bytes b.
Proof.
  unfold is_bytes. revert a. induction s as [|x s IH]; intros a; cbn; [done|]. destruct (x =? c).
  - intros [= <- <-] [_ H]%Forall_cons. auto.
  - destruct (split_first c s) as [[a' b']|]; [|done]. cbn. intros [= <- <-] [Hx H]%Forall_cons.
    destruct (IH a' eq_refl H). split; [by constructor|done].
Qed.

Lemma split_last_bytes c s a b : split_last c s = Some (a, b) -> is_bytes s -> is_bytes a /\ is_bytes b.
Proof.
  unfold is_bytes. revert a b. induction s as [|x s IH]; intros a b; cbn; [done|]. destruct (split_last c s) as [[a' b']|].
  - intros [= <- <-] [Hx H]%Forall_cons. destruct (IH a' b' eq_refl H). split; [by constructor|done].
  - destruct (x =? c); [|done]. intros [= <- <-] [_ H]%Forall_cons. auto.
Qed.

Lemma dpkg_parts_ok v e u r : is_bytes v -> dpkg_parts v = (e, u, r) -> is_digit_text e /\ is_bytes u /\ is_bytes r.
Proof.
  intros Hv. unfold dpkg_parts.
  assert (is_digit_text (lit "0") /\ is_bytes (lit "0")) as [H0 H0'] by (split; repeat constructor; by vm_compute).
  assert (exists e rest, is_digit_text e /\ is_bytes rest /\
    match split_first 58 v with
    | Some (epoch, rest) => if negb (bool_decide (epoch = [])) && forallb is_ascii_digit epoch then (epoch, rest) else (lit "0", v)
    | None => (lit "0", v)
    end = (e, rest)) as (e' & rest & He & Hr & ->).
  { destruct (split_first 58 v) as [[a b]|] eqn:E; [|by exists (lit "0"), v]. destruct (split_first_bytes _ _ _ _ E Hv) as [_ Hb].
    destruct (negb _ && _) eqn:Ed; [|by exists (lit "0"), v]. apply andb_true_iff in Ed as [_ Hd]. exists a, b.
    split; [|done]. apply Forall_forall. intros c Hc. rewrite forallb_forall in Hd. by apply Hd, list_elem_of_In. }
  destruct (split_last 45 rest) as [[a b]|] eqn:E; intros [= <- <- <-]; [|done].
  destruct (split_last_bytes _ _ _ _ E Hr). done.
Qed.

(** The key of a version: its epoch, and the keys of its two parts. *)
Definition dpkg_version_key (v : text) : Z * list Z * list Z :=
  let '(e, u, r) := dpkg_parts v in (digits_value 0 e, dpkg_key u, dpkg_key r).

Definition dpkg_key_cmp (a b : Z * list Z * list Z) : comparison :=
  then_cmp (then_cmp (a.1.1 ?= b.1.1) (weights_cmp a.1.2 b.1.2)) (weights_cmp a.2 b.2).

#[export] Instance dpkg_key_order : CmpOrder dpkg_key_cmp.
Proof.
  unfold dpkg_key_cmp. repeat apply then_order.
  - apply (pullback_order (fun a => a.1.1) Z.compare); [apply _|done].
  - apply (pullback_order (fun a => a.1.2) weights_cmp); [apply lex_pad_order, _|done].
  - apply (pullback_order (fun a => a.2) weights_cmp); [apply lex_pad_order, _|done].
Qed.

Lemma dpkg_cmp_key a b : is_bytes a -> is_bytes b -> dpkg_cmp a b = dpkg_key_cmp (dpkg_version_key a) (dpkg_version_key b).
Proof.
  intros Ha Hb. unfold dpkg_cmp, dpkg_version_key, dpkg_key_cmp.
  destruct (dpkg_parts a) as [[ea ua] ra] eqn:Ea, (dpkg_parts b) as [[eb ub] rb] eqn:Eb.
  destruct (dpkg_parts_ok _ _ _ _ Ha Ea) as (He & Hu & Hr), (dpkg_parts_ok _ _ _ _ Hb Eb) as (He' & Hu' & Hr').
  cbn [fst snd]. by rewrite digit_run_value, !dpkg_part_key.
Qed.

(** Debian's comparison sorts: on any versions whatever it is the same read from either
    side, what compares equal compares alike with everything, and smaller than smaller is
    smaller, with numbers of any length. *)
Theorem dpkg_cmp_sorts a b c :
  is_bytes a -> is_bytes b -> is_bytes c ->
  dpkg_cmp b a = CompOpp (dpkg_cmp a b) /\
  (dpkg_cmp a b = Eq -> dpkg_cmp a c = dpkg_cmp b c) /\
  (dpkg_cmp a b = Lt -> dpkg_cmp b c = Lt -> dpkg_cmp a c = Lt).
Proof.
  intros Ha Hb Hc. rewrite !dpkg_cmp_key by done. split; [apply cmp_opp|]. split; [apply cmp_eq|apply cmp_lt].
Qed.

Lemma dpkg_cmp_sorts_witness : dpkg_cmp (lit "1.0~rc1-1") (lit "1:0.9") = Lt.
Proof.
  refine (proj2 (proj2 (dpkg_cmp_sorts (lit "1.0~rc1-1") (lit "1.0-1") (lit "1:0.9") _ _ _)) _ _); vm_compute;
    try reflexivity; repeat constructor; discriminate.
Defined.

(** ** The other order, on numbers that fit *)

Inductive VersionToken := Txt (s : text) | Num (n : Z).

Definition token_cmp (a b : VersionToken) : comparison :=
  match a, b with
  | Num x, Num y => x ?= y
  | Txt x, Txt y => str_cmp x y
  | Num _, Txt _ => Gt
  | Txt _, Num _ => Lt
  end.

#[export] Instance token_order : CmpOrder token_cmp.
Proof.
  split.
  - intros [x|x] [y|y]; cbn; try done; [apply cmp_opp|apply cmp_opp].
  - intros [x|x] [y|y] [z|z]; cbn; try done; [apply cmp_eq|apply cmp_eq].
  - intros [x|x] [y|y] [z|z]; cbn; try done; [apply cmp_lt|apply cmp_lt].
Qed.

(** A component's runs. *)
Fixpoint tokens_from (fuel : nat) (s : text) : list VersionToken :=
  match fuel with
  | O => []
  | S fuel =>
      match s with
      | [] => []
      | _ =>
          let digits := starts_digit s in
          let '(run, rest) := split_run s digits in
          (if digits then Num (digits_value 0 run) else Txt run) :: tokens_from fuel rest
      end
  end.

Definition tokens (s : text) : list VersionToken := tokens_from (length s) s.

(** No number past 64 bits. *)
Definition small_token (t : VersionToken) : Prop := match t with Num n => n <= umax 64 | Txt _ => True end.

#[export] Instance small_token_dec t : Decision (small_token t).
Proof. destruct t; cbn; apply _. Defined.

(** The run a component starts with is not empty. *)
Lemma first_run c s run rest : split_run (c :: s) (starts_digit (c :: s)) = (run, rest) -> run <> [] /\ (length rest < S (length s))%nat.
Proof.
  intros E. pose proof (split_run_length _ _ _ _ E) as Hl. cbn in E, Hl. rewrite Bool.eqb_reflx in E.
  destruct (split_run s _) as [r t]. injection E as <- <-. split; [done|]. cbn in Hl. lia.
Qed.

Lemma tokens_fuel n m s : (length s <= n)%nat -> (length s <= m)%nat -> tokens_from n s = tokens_from m s.
Proof.
  revert m s. induction n as [|n IH]; intros m s Hn Hm; [destruct s; [by destruct m|cbn in Hn; lia]|].
  destruct m as [|m]; [destruct s; [done|cbn in Hm; lia]|]. cbn [tokens_from]. destruct s as [|c s]; [done|].
  destruct (split_run (c :: s) (starts_digit (c :: s))) as [run rest] eqn:E. destruct (first_run _ _ _ _ E).
  f_equal. apply IH; cbn in *; lia.
Qed.

(** Numbers that fit compare as numbers. *)
Lemma number_cmp_value x y : is_digit_text x -> is_digit_text y -> x <> [] -> y <> [] ->
  digits_value 0 x <= umax 64 -> digits_value 0 y <= umax 64 -> number_cmp x y = (digits_value 0 x ?= digits_value 0 y).
Proof.
  assert (forall s, is_digit_text s -> s <> [] -> digits_value 0 s <= umax 64 -> parse_uint 64 s = Ok (digits_value 0 s)) as H.
  { intros s Hs Hne Hv. unfold parse_uint. destruct s as [|c s]; [done|].
    assert (c =? 43 = false) as -> by (apply Forall_inv, is_ascii_digit_spec in Hs; lia). by apply parse_digits_value. }
  intros. unfold number_cmp. by rewrite !H.
Qed.

Lemma component_loop_tokens fuel a b : (length a < fuel)%nat -> (length b < fuel)%nat ->
  Forall small_token (tokens_from fuel a) -> Forall small_token (tokens_from fuel b) ->
  component_loop fuel a b = lex_cmp token_cmp (tokens_from fuel a) (tokens_from fuel b).
Proof.
  revert a b. induction fuel as [|fuel IH]; intros a b Ha Hb Hsa Hsb; [lia|]. cbn [component_loop tokens_from] in *.
  destruct a as [|ca a].
  { destruct b as [|cb b]; [done|]. by destruct (split_run _ _). }
  destruct (split_run (ca :: a) (starts_digit (ca :: a))) as [xa ta] eqn:Ea. destruct (first_run _ _ _ _ Ea) as [Hna Hla].
  apply Forall_cons in Hsa as [Hxa Hsa]. destruct b as [|cb b]; [done|].
  destruct (split_run (cb :: b) (starts_digit (cb :: b))) as [xb tb] eqn:Eb. destruct (first_run _ _ _ _ Eb) as [Hnb Hlb].
  apply Forall_cons in Hsb as [Hxb Hsb]. cbn [length] in *.
  pose proof (split_run_app _ _ _ _ Ea) as (_ & Hda & _). pose proof (split_run_app _ _ _ _ Eb) as (_ & Hdb & _).
  cbn [lex_cmp]. rewrite <- IH by (done || lia).
  destruct (starts_digit (ca :: a)), (starts_digit (cb :: b)); cbn [token_cmp then_cmp]; try done; rewrite Ea, Eb; [|by destruct (str_cmp xa xb)].
  cbn in Hxa, Hxb. rewrite number_cmp_value by done. by destruct (_ ?= _).
Qed.

Definition small_component (s : text) : Prop := Forall small_token (tokens s).

Lemma component_cmp_tokens a b : small_component a -> small_component b -> component_cmp a b = lex_cmp token_cmp (tokens a) (tokens b).
Proof.
  unfold small_component, tokens. intros Ha Hb. set (n := S (Nat.max (length a) (length b))).
  rewrite (tokens_fuel _ n a), (tokens_fuel _ n b) in * by lia. by rewrite <- component_loop_tokens by (done || lia).
Qed.

(** *** Whole versions *)

Definition pieces (s : text) : list (list VersionToken) := tokens <$> split_by version_separator s.

Definition pieces_cmp : list (list VersionToken) -> list (list VersionToken) -> comparison := lex_pad (lex_cmp token_cmp) (tokens (lit "0")).

Definition small_pieces (s : text) : Prop := Forall small_component (split_by version_separator s).

Lemma components_pieces a b : small_pieces a -> small_pieces b -> components a b = pieces_cmp (pieces a) (pieces b).
Proof.
  intros Ha Hb. unfold components, pieces_cmp, lex_pad, cmp_upto, pieces. rewrite !length_fmap. f_equal. apply list_fmap_ext.
  intros i k _. unfold at_or. rewrite !list_lookup_fmap.
  assert (forall l, Forall small_component l -> small_component (default (lit "0") (l !! k)) /\
    tokens (default (lit "0") (l !! k)) = default (tokens (lit "0")) (tokens <$> l !! k)) as H.
  { intros l Hl. destruct (l !! k) as [s|] eqn:E; cbn; [split; [by eapply Forall_lookup_1|done]|].
    split; [|done]. repeat constructor. by vm_compute. }
  destruct (H _ Ha) as [H1 <-], (H _ Hb) as [H2 <-]. by apply component_cmp_tokens.
Qed.

(** A version no number of which is past 64 bits. *)
Definition small_version (v : text) : Prop :=
  let '(release, pre) := split_pre_release v in small_pieces release /\ match pre with Some pre => small_pieces pre | None => True end.

#[export] Instance small_version_dec v : Decision (small_version v).
Proof.
  unfold small_version, small_pieces, small_component. destruct (split_pre_release v) as [release [pre|]]; apply _.
Defined.

Definition version_key (v : text) : list (list VersionToken) * option (list (list VersionToken)) :=
  let '(release, pre) := split_pre_release v in (pieces release, pieces <$> pre).

Definition version_key_cmp (a b : list (list VersionToken) * option (list (list VersionToken))) : comparison :=
  then_cmp (pieces_cmp a.1 b.1) (option_cmp_last pieces_cmp a.2 b.2).

#[export] Instance pieces_order : CmpOrder pieces_cmp.
Proof. apply lex_pad_order, _. Qed.

#[export] Instance version_key_order : CmpOrder version_key_cmp.
Proof.
  apply then_order; [apply (pullback_order fst pieces_cmp)|apply (pullback_order snd (option_cmp_last pieces_cmp))]; done || apply _.
Qed.

Lemma version_cmp_key a b : small_version a -> small_version b -> version_cmp a b = version_key_cmp (version_key a) (version_key b).
Proof.
  unfold small_version, version_cmp, version_key, version_key_cmp.
  destruct (split_pre_release a) as [ra pa], (split_pre_release b) as [rb pb]. intros [Hra Hpa] [Hrb Hpb]. cbn [fst snd].
  rewrite components_pieces by done. destruct (pieces_cmp _ _); [|done|done]. cbn [then_cmp].
  destruct pa, pb; try done. cbn. by apply components_pieces.
Qed.

(** The advisory comparison sorts the versions whose numbers fit in 64 bits: it is the
    same read from either side, what compares equal compares alike, and smaller than
    smaller is smaller. *)
Theorem version_cmp_sorts a b c :
  small_version a -> small_version b -> small_version c ->
  version_cmp b a = CompOpp (version_cmp a b) /\
  (version_cmp a b = Eq -> version_cmp a c = version_cmp b c) /\
  (version_cmp a b = Lt -> version_cmp b c = Lt -> version_cmp a c = Lt).
Proof.
  intros Ha Hb Hc. rewrite !version_cmp_key by done. split; [apply cmp_opp|]. split; [apply cmp_eq|apply cmp_lt].
Qed.

Lemma version_cmp_sorts_witness : version_cmp (lit "1.0-rc1") (lit "1.0.2") = Lt.
Proof.
  apply (version_cmp_sorts (lit "1.0-rc1") (lit "1.0") (lit "1.0.2")).
  - apply (bool_decide_unpack _). vm_compute. exact I.
  - apply (bool_decide_unpack _). vm_compute. exact I.
  - apply (bool_decide_unpack _). vm_compute. exact I.
  - vm_compute. reflexivity.
  - vm_compute. reflexivity.
Defined.

(** Past 64 bits it does not: of three versions, one with a number of 20 digits and one
    written with leading zeros, the first compares equal to the second, and they compare
    differently with the third. *)
Theorem version_cmp_breaks :
  let a := lit "0000000000000000000000001" in
  let b := lit "1" in
  let c := lit "99999999999999999999" in
  version_cmp a b = Eq /\ version_cmp a c = Gt /\ version_cmp b c = Lt.
Proof. vm_compute. done. Qed.
