(* ===== verification/Utf8.v ===== *)
(** * UTF-8

    What the journal's reader uses of Rust's strings over bytes: a [String] is read
    from bytes only when they are valid UTF-8, as the standard library checks it.
    A text cut anywhere between two of its bytes is valid exactly when the cut falls
    between two characters. *)

From Stdlib Require Import ZArith Lia.
From stdpp Require Import base numbers option list.
From S2P Require Import Prelude Std Text.

Local Open Scope Z_scope.

(** ** Definitions *)

(** A Unicode scalar value, Rust's [char]. *)
Definition scalar (c : Z) : Prop := 0 <= c < 0xD800 \/ 0xE000 <= c <= 0x10FFFF.

Definition encode_char (c : Z) : list Z :=
  if c <? 0x80 then [c]
  else if c <? 0x800 then [0xC0 + c / 64; 0x80 + c mod 64]
  else if c <? 0x10000 then [0xE0 + c / 4096; 0x80 + c / 64 mod 64; 0x80 + c mod 64]
  else [0xF0 + c / 262144; 0x80 + c / 4096 mod 64; 0x80 + c / 64 mod 64; 0x80 + c mod 64].

Definition utf8_encode (t : text) : list Z := t ≫= encode_char.

Definition is_cont (b : Z) : bool := in_range 0x80 0xBF b.

(** The second byte a lead byte of three or four allows: no overlong form, no
    surrogate, nothing past [0x10FFFF]. *)
Definition second_ok (b0 b1 : Z) : bool :=
  if b0 =? 0xE0 then in_range 0xA0 0xBF b1
  else if b0 =? 0xED then in_range 0x80 0x9F b1
  else if b0 =? 0xF0 then in_range 0x90 0xBF b1
  else if b0 =? 0xF4 then in_range 0x80 0x8F b1
  else is_cont b1.

(** The first character of the bytes, and the rest. *)
Definition decode_char (bytes : list Z) : option (Z * list Z) :=
  match bytes with
  | [] => None
  | b0 :: rest =>
      if b0 <? 0x80 then Some (b0, rest)
      else if in_range 0xC2 0xDF b0 then
        match rest with
        | b1 :: rest => if is_cont b1 then Some ((b0 - 0xC0) * 64 + (b1 - 0x80), rest) else None
        | _ => None
        end
      else if in_range 0xE0 0xEF b0 then
        match rest with
        | b1 :: b2 :: rest =>
            if second_ok b0 b1 && is_cont b2
            then Some ((b0 - 0xE0) * 4096 + (b1 - 0x80) * 64 + (b2 - 0x80), rest) else None
        | _ => None
        end
      else if in_range 0xF0 0xF4 b0 then
        match rest with
        | b1 :: b2 :: b3 :: rest =>
            if second_ok b0 b1 && is_cont b2 && is_cont b3
            then Some ((b0 - 0xF0) * 262144 + (b1 - 0x80) * 4096 + (b2 - 0x80) * 64 + (b3 - 0x80), rest) else None
        | _ => None
        end
      else None
  end.

(** Each character takes at least one byte, so the length is fuel enough. *)
Fixpoint decode_from (fuel : nat) (bytes : list Z) : option text :=
  match bytes, fuel with
  | [], _ => Some []
  | _, O => None
  | _, S fuel => '(c, rest) ← decode_char bytes; t ← decode_from fuel rest; Some (c :: t)
  end.

(** [String::from_utf8]. *)
Definition utf8_decode (bytes : list Z) : option text := decode_from (length bytes) bytes.

(** ** What is encoded is decoded *)

Lemma cont_mod x : is_cont (0x80 + x mod 64) = true.
Proof. pose proof (Z.mod_pos_bound x 64 ltac:(lia)). unfold is_cont, in_range. lia. Qed.

Lemma encode_char_cases c : scalar c ->
  (0 <= c < 0x80 /\ encode_char c = [c]) \/
  (exists b0 b1, encode_char c = [b0; b1] /\ in_range 0xC2 0xDF b0 = true /\ is_cont b1 = true /\
     c = (b0 - 0xC0) * 64 + (b1 - 0x80)) \/
  (exists b0 b1 b2, encode_char c = [b0; b1; b2] /\ in_range 0xE0 0xEF b0 = true /\ second_ok b0 b1 = true /\
     is_cont b2 = true /\ c = (b0 - 0xE0) * 4096 + (b1 - 0x80) * 64 + (b2 - 0x80)) \/
  (exists b0 b1 b2 b3, encode_char c = [b0; b1; b2; b3] /\ in_range 0xF0 0xF4 b0 = true /\ second_ok b0 b1 = true /\
     is_cont b2 = true /\ is_cont b3 = true /\
     c = (b0 - 0xF0) * 262144 + (b1 - 0x80) * 4096 + (b2 - 0x80) * 64 + (b3 - 0x80)).
Proof.
  unfold scalar, encode_char. intros Hc.
  pose proof (Z.div_mod c 64 ltac:(lia)) as E1. pose proof (Z.mod_pos_bound c 64 ltac:(lia)) as B1.
  pose proof (Z.div_mod (c / 64) 64 ltac:(lia)) as E2. pose proof (Z.mod_pos_bound (c / 64) 64 ltac:(lia)) as B2.
  pose proof (Z.div_mod (c / 64 / 64) 64 ltac:(lia)) as E3. pose proof (Z.mod_pos_bound (c / 64 / 64) 64 ltac:(lia)) as B3.
  rewrite !Z.div_div in E2 by lia. rewrite !Z.div_div in E3 by lia. rewrite !Z.div_div in B3 by lia.
  change (64 * 64) with 4096 in *. change (4096 * 64) with 262144 in *.
  destruct (Z.ltb_spec c 0x80); [left; split; [lia|done]|]. right.
  destruct (Z.ltb_spec c 0x800); [left|right; destruct (Z.ltb_spec c 0x10000); [left|right]].
  - exists (0xC0 + c / 64), (0x80 + c mod 64). split; [done|]. unfold in_range. rewrite cont_mod. lia.
  - exists (0xE0 + c / 4096), (0x80 + c / 64 mod 64), (0x80 + c mod 64). split; [done|].
    rewrite cont_mod. unfold second_ok, is_cont, in_range. split; [lia|]. split; [|lia].
    repeat match goal with |- context [?a =? ?b] => destruct (Z.eqb_spec a b) end; lia.
  - exists (0xF0 + c / 262144), (0x80 + c / 4096 mod 64), (0x80 + c / 64 mod 64), (0x80 + c mod 64). split; [done|].
    rewrite !cont_mod. unfold second_ok, is_cont, in_range. split; [lia|]. split; [|lia].
    repeat match goal with |- context [?a =? ?b] => destruct (Z.eqb_spec a b) end; lia.
Qed.

Ltac lead b0 H :=
  unfold decode_char; cbn [app];
  assert (b0 <? 0x80 = false) as -> by (unfold in_range in H; lia);
  repeat (match goal with |- context [in_range ?a ?b b0] =>
    first [rewrite H | assert (in_range a b b0 = false) as -> by (unfold in_range in *; lia)] end).

Lemma decode_char_encode c rest : scalar c -> decode_char (encode_char c ++ rest) = Some (c, rest).
Proof.
  intros Hc. destruct (encode_char_cases c Hc) as [[H ->]|[(b0 & b1 & -> & H & H1 & E)|[(b0 & b1 & b2 & -> & H & H1 & H2 & E)|
    (b0 & b1 & b2 & b3 & -> & H & H1 & H2 & H3 & E)]]].
  - unfold decode_char. cbn [app]. by rewrite (proj2 (Z.ltb_lt _ _)) by lia.
  - lead b0 H. by rewrite H1, E.
  - lead b0 H. by rewrite H1, H2, E.
  - lead b0 H. by rewrite H1, H2, H3, E.
Qed.

(** A character cut short is not valid. *)
Lemma decode_char_torn c p q : scalar c -> encode_char c = p ++ q -> q <> [] -> decode_char p = None.
Proof.
  intros Hc Hpq Hq. destruct p as [|a p]; [done|].
  destruct (encode_char_cases c Hc) as [[H E]|[(b0 & b1 & E & H & _)|[(b0 & b1 & b2 & E & H & _)|(b0 & b1 & b2 & b3 & E & H & _)]]];
    rewrite E in Hpq; cbn [app] in Hpq; injection Hpq as <- Hpq.
  - destruct p; [by destruct q|done].
  - destruct p as [|x p]; [by lead b0 H|]. injection Hpq as <- Hpq. destruct p; [by destruct q|done].
  - destruct p as [|x [|y p]]; [by lead b0 H|by lead b0 H|]. injection Hpq as <- <- Hpq. destruct p; [by destruct q|done].
  - destruct p as [|x [|y [|z p]]]; [by lead b0 H|by lead b0 H|by lead b0 H|].
    injection Hpq as <- <- <- Hpq. destruct p; [by destruct q|done].
Qed.

Lemma encode_char_nonempty c : encode_char c <> [].
Proof. unfold encode_char. by repeat case_match. Qed.

Lemma decode_from_encode fuel t : Forall scalar t -> (length (utf8_encode t) <= fuel)%nat -> decode_from fuel (utf8_encode t) = Some t.
Proof.
  intros Ht. revert fuel. induction Ht as [|c t Hc _ IH]; intros fuel Hf; [by destruct fuel|].
  unfold utf8_encode in *. rewrite bind_cons in *. rewrite length_app in Hf. pose proof (encode_char_nonempty c) as Hne.
  assert (0 < length (encode_char c))%nat by (destruct (encode_char c); [done|cbn; lia]).
  destruct fuel as [|fuel]; [lia|]. destruct (encode_char c ++ (t ≫= encode_char)) as [|b bs] eqn:E.
  { apply app_nil in E as [? _]. done. }
  cbn [decode_from]. rewrite <- E, decode_char_encode by done. cbn. by rewrite IH by lia.
Qed.

Lemma utf8_decode_encode t : Forall scalar t -> utf8_decode (utf8_encode t) = Some t.
Proof. intros Ht. unfold utf8_decode. by apply decode_from_encode. Qed.

Lemma utf8_encode_nil t : utf8_encode t = [] -> t = [].
Proof.
  destruct t as [|c t]; [done|]. unfold utf8_encode. rewrite bind_cons. intros [E _]%app_nil.
  by apply encode_char_nonempty in E.
Qed.

(** A cut text: whole characters, or not valid at all. *)
Lemma utf8_cut t p q :
  Forall scalar t -> utf8_encode t = p ++ q ->
  (exists t1 t2, t = t1 ++ t2 /\ p = utf8_encode t1) \/ utf8_decode p = None.
Proof.
  unfold utf8_decode. intros Ht E.
  assert (forall fuel, (length p <= fuel)%nat -> (exists t1 t2, t = t1 ++ t2 /\ p = utf8_encode t1) \/ decode_from fuel p = None) as H;
    [|by apply H].
  intros fuel. revert p q fuel E. induction Ht as [|c t Hc _ IH]; intros p q fuel E Hf.
  { left. exists [], []. destruct p; [done|done]. }
  unfold utf8_encode in E. rewrite bind_cons in E.
  destruct p as [|b p']; [left; by exists [], (c :: t)|]. destruct fuel as [|fuel]; [cbn in Hf; lia|].
  assert (decode_from (S fuel) (b :: p') = '(x, rest) ← decode_char (b :: p'); s ← decode_from fuel rest; Some (x :: s)) as -> by done.
  set (p := b :: p') in *. apply app_eq_inv in E as [(k & E1 & E2)|(k & E1 & E2)].
  - destruct (decide (k = [])) as [->|Hk].
    + rewrite app_nil_r in E1. cbn in E2. rewrite <- E1. rewrite <- (app_nil_r (encode_char c)), decode_char_encode by done. cbn.
      left. exists [c], t. split; [done|]. unfold utf8_encode. cbn. by rewrite app_nil_r.
    + right. by rewrite (decode_char_torn c p k Hc E1 Hk).
  - rewrite E1, decode_char_encode by done. cbn.
    destruct (IH k q fuel) as [(t1 & t2 & -> & Ek)|En]; [done| | |].
    { pose proof (encode_char_nonempty c). apply (f_equal length) in E1. rewrite length_app in E1. cbn in Hf.
      destruct (encode_char c); [done|]. cbn in E1. unfold p in E1. cbn in E1. lia. }
    + left. exists (c :: t1), t2. split; [done|]. unfold utf8_encode. by rewrite bind_cons, Ek.
    + right. by rewrite En.
Qed.

(** A byte below [0x80] is a character of its own. *)
Lemma ascii_in_encode b t : 0 <= b < 0x80 -> Forall scalar t -> b ∈ utf8_encode t <-> b ∈ t.
Proof.
  intros Hb Ht. unfold utf8_encode. rewrite list_elem_of_bind.
  assert (forall c, scalar c -> b ∈ encode_char c <-> b = c) as H.
  { intros c Hc. unfold scalar in Hc. unfold encode_char.
    destruct (Z.ltb_spec c 0x80); [by rewrite list_elem_of_singleton|].
    assert (forall x, 0 <= x mod 64) by (intros; apply Z.mod_pos_bound; lia).
    assert (0 <= c / 64 /\ 0 <= c / 4096 /\ 0 <= c / 262144) by (split_and!; apply Z.div_pos; lia).
    destruct (Z.ltb_spec c 0x800); [|destruct (Z.ltb_spec c 0x10000)]; rewrite !elem_of_cons, elem_of_nil;
      (split; [|lia]); intros Hor; exfalso; pose proof (H0 c); pose proof (H0 (c / 64)); pose proof (H0 (c / 4096)); lia. }
  rewrite Forall_forall in Ht. split.
  - intros (c & Hin & Hc). apply H in Hin; [by subst|by apply Ht].
  - intros Hin. exists b. split; [|done]. apply H; [by apply Ht|done].
Qed.
