(* ===== verification/JournalFormat.v ===== *)
(** * The journal's files

    [src/src/journal/format.rs]: a file of one JSON record per line, the first of
    which is its header, with its writer and its reader; and, of
    [src/src/journal/store.rs], what makes such a file whole before it is appended
    to: [mend], [last_whole_line] and [open_for_append].

    A file is the list of its bytes.  What [serde_json] does with a record is a
    parameter, the class [Serde], and what the journal relies on is the class
    [SerdeLaws].  The theorems say what a reader and a later sitting make of a file
    whose last record was being written when its process was killed, at whatever
    byte it stopped. *)

From Stdlib Require Import ZArith Lia String.
From stdpp Require Import base numbers option list.
From S2P Require Import Prelude Std Text Utf8.

Local Open Scope Z_scope.

(** ** Errors and bounds *)

(** The kinds of [std::io::Error] that arise or are told apart here. *)
Inductive IoErrorKind := NotFound | InvalidData.

Inductive JournalError :=
  | NotAJournal
  | VersionTooNew (found understood : Z)
  | Malformed (line : Z) (message : text)
  | Io (error : IoErrorKind).

#[export] Instance io_error_eq_dec : EqDecision IoErrorKind.
Proof. solve_decision. Defined.

#[export] Instance journal_error_eq_dec : EqDecision JournalError.
Proof. solve_decision. Defined.

Definition JOURNAL_VERSION : Z := 1.

Definition ENGINE_NAME : text := lit "zond-engine".

Definition MAX_READ_BYTES : Z := 256 * 1024 * 1024.

Definition too_large (what : text) : JournalError :=
  Malformed 0 (what ++ lit " is larger than the " ++ show_uint MAX_READ_BYTES ++
    lit " bytes a journal is read in; this is not a file this engine wrote").

Definition json_error (message : text) : JournalError := Malformed 0 message.

(** ** Records as text

    [serde_json::to_string] and [serde_json::from_str] at one type. *)

Class Serde (T : Type) := {
  to_string : T -> Result text text;
  from_str : text -> Result T text
}.

(** [str::trim_end]. *)
Fixpoint trim_end (s : text) : text :=
  match s with
  | [] => []
  | c :: t =>
      match trim_end t with
      | [] => if is_whitespace c then [] else [c]
      | t' => c :: t'
      end
  end.

(** What the journal relies on: a record is a JSON object on one line, which reads
    back as itself, and of which no part cut short is a value. *)
Class SerdeLaws (T : Type) `{Serde T} := {
  written_scalar x s : to_string x = Ok s -> Forall scalar s;
  written_one_line x s : to_string x = Ok s -> 10 ∉ s;
  written_trimmed x s : to_string x = Ok s -> s <> [] /\ trim_end s = s;
  read_back x s : to_string x = Ok s -> from_str s = Ok x;
  torn_unread x s p q : to_string x = Ok s -> s = p ++ q -> q <> [] -> exists e, from_str (trim_end p) = Err e
}.

(** ** The header *)

Record Header := { journal_version : Z; engine : text; engine_version : text }.

Section Format.
Context `{!Serde Header} (CARGO_PKG_VERSION : text).

Definition header_current : Header :=
  {| journal_version := JOURNAL_VERSION; engine := ENGINE_NAME; engine_version := CARGO_PKG_VERSION |}.

(** ** The writer

    What a [Writer] has written so far is its [inner]; a record that cannot be
    turned into text writes nothing. *)

Definition writeln (inner : list Z) (s : text) : list Z := inner ++ utf8_encode s ++ [10].

Definition writer_create (inner : list Z) : Result (list Z) JournalError :=
  let? s := map_err json_error (to_string header_current) in
  Ok (writeln inner s).

Definition writer_write {T} `{!Serde T} (inner : list Z) (record : T) : Result (list Z) JournalError :=
  let? s := map_err json_error (to_string record) in
  Ok (writeln inner s).

(** ** The reader *)

(** [read_until] a newline through [Read::take]: at most [limit] bytes, the newline
    among them. *)
Fixpoint read_until (limit : Z) (bytes : list Z) : list Z * list Z :=
  match bytes with
  | [] => ([], [])
  | b :: t =>
      if limit <=? 0 then ([], bytes)
      else if b =? 10 then ([b], t)
      else let '(l, rest) := read_until (limit - 1) t in (b :: l, rest)
  end.

(** The count of bytes read, the text and what is left of the input.  [read_line]
    refuses what is not UTF-8. *)
Definition bounded_line (inner : list Z) (what : text) : Result (Z * text * list Z) JournalError :=
  let '(raw, rest) := read_until (MAX_READ_BYTES + 1) inner in
  match utf8_decode raw with
  | None => Err (Io InvalidData)
  | Some buffer =>
      let read := Z.of_nat (length raw) in
      if MAX_READ_BYTES <? read then Err (too_large what) else Ok (read, buffer, rest)
  end.

Record Reader := { inner : list Z; line : Z; truncated : bool }.

Definition reader_open (inner : list Z) : Result Reader JournalError :=
  let? (read, first, inner) := bounded_line inner (lit "a journal header") in
  if read =? 0 then Err NotAJournal
  else
    match from_str (T := Header) (trim_end first) with
    | Err _ => Err NotAJournal
    | Ok header =>
        if bool_decide (engine header <> ENGINE_NAME) then Err NotAJournal
        else if JOURNAL_VERSION <? journal_version header
        then Err (VersionTooNew (journal_version header) JOURNAL_VERSION)
        else Ok {| inner := inner; line := 1; truncated := false |}
    end.

(** One turn of [Reader::read]'s loop: on to the next line after a blank one, or out
    with the record, the end or an error. *)
Definition read_turn {T} `{!Serde T} (r : Reader) : Reader + Reader * Result (option T) JournalError :=
  if truncated r then inr (r, Ok None)
  else
    match bounded_line (inner r) (lit "a journal record") with
    | Err e => inr (r, Err e)
    | Ok (read, buffer, rest) =>
        if read =? 0 then inr (r, Ok None)
        else
          let complete := ends_with (Z.eqb 10) buffer in
          let r := {| inner := rest; line := line r +[64] 1; truncated := negb complete |} in
          let text := trim_end buffer in
          match text with
          | [] => inl r
          | _ =>
              inr (r, match from_str (T := T) text with
                      | Ok record => Ok (Some record)
                      | Err message => if negb complete then Ok None else Err (Malformed (line r) message)
                      end)
          end
    end.

(** Each turn that goes on has read a byte. *)
Fixpoint read_loop {T} `{!Serde T} (fuel : nat) (r : Reader) : Reader * Result (option T) JournalError :=
  match fuel with
  | O => (r, Ok None)
  | S fuel => match read_turn r with inl r => read_loop fuel r | inr out => out end
  end.

Definition reader_read {T} `{!Serde T} (r : Reader) : Reader * Result (option T) JournalError :=
  read_loop (S (length (inner r))) r.

(** [while let Some(record) = reader.read()? { .. }], gathering the records. *)
Fixpoint read_records {T} `{!Serde T} (fuel : nat) (r : Reader) : Result (list T) JournalError :=
  match fuel with
  | O => Ok []
  | S fuel =>
      match reader_read r with
      | (_, Err e) => Err e
      | (_, Ok None) => Ok []
      | (r, Ok (Some record)) => map_ok (cons record) (read_records fuel r)
      end
  end.

(** The records of a file, as [read_detections] and [finished_hosts] read theirs: a
    file that is missing, or has no header, holds none. *)
Definition read_file {T} `{!Serde T} (file : option (list Z)) : Result (list T) JournalError :=
  match file with
  | None => Ok []
  | Some bytes =>
      match reader_open bytes with
      | Ok reader => read_records (S (length (inner reader))) reader
      | Err NotAJournal => Ok []
      | Err e => Err e
      end
  end.

(** ** Making a file whole *)

(** [Iterator::rposition]. *)
Fixpoint rposition (p : Z -> bool) (l : list Z) : option nat :=
  match l with
  | [] => None
  | x :: t => match rposition p t with Some i => Some (S i) | None => if p x then Some O else None end
  end.

Definition WINDOW : Z := 8 * 1024.

(** One turn of the loop: the window that ends at [end_]. *)
Definition window_step (file : list Z) (end_ : Z) : Z + Z :=
  if 0 <? end_ then
    let size := Z.min WINDOW end_ in
    let start := end_ - size in
    let window := take (Z.to_nat size) (drop (Z.to_nat start) file) in
    match rposition (Z.eqb 10) window with
    | Some at_ => inr (start + Z.of_nat at_ + 1)
    | None => inl start
    end
  else inr 0.

(** A file's length is a [u64], and every turn takes a byte off it. *)
Definition file_turns : positive := 2 ^ 64 + 1.

Definition last_whole_line (file : list Z) (length : Z) : Z :=
  loop file_turns (fun _ => 0) (window_step file) length.

(** The file as it is left, and the outcome. *)
Definition mend (file : option (list Z)) : option (list Z) * Result unit JournalError :=
  match file with
  | None => (file, Err (Io NotFound))
  | Some bytes =>
      let length := Z.of_nat (length bytes) in
      if length =? 0 then
        match writer_create bytes with
        | Err e => (file, Err e)
        | Ok bytes => (Some bytes, Ok tt)
        end
      else
        match reader_open bytes with
        | Err e => (file, Err e)
        | Ok _ =>
            if ends_with (Z.eqb 10) bytes then (file, Ok tt)
            else
              let keep := last_whole_line bytes length in
              let bytes := take (Z.to_nat keep) bytes in
              if keep =? 0 then
                match writer_create bytes with
                | Err e => (Some bytes, Err e)
                | Ok bytes => (Some bytes, Ok tt)
                end
              else (Some bytes, Ok tt)
        end
  end.

(** [mend], then a descriptor that appends: the file the writer adds to. *)
Definition open_for_append (file : option (list Z)) : option (list Z) * Result unit JournalError := mend file.

(** Records written through [Writer::append] until one cannot be. *)
Fixpoint write_each {T} `{!Serde T} (bytes : list Z) (records : list T) : list Z * Result unit JournalError :=
  match records with
  | [] => (bytes, Ok tt)
  | record :: records =>
      match writer_write bytes record with
      | Err e => (bytes, Err e)
      | Ok bytes => write_each bytes records
      end
  end.

(** ** What is on the file *)

Definition line_of {T} `{!Serde T} (x : T) : list Z :=
  match to_string x with Ok s => utf8_encode s ++ [10] | Err _ => [] end.

Definition lines {T} `{!Serde T} (xs : list T) : list Z := xs ≫= line_of.

Definition journal {T} `{!Serde T} (xs : list T) : list Z := line_of header_current ++ lines xs.

(** A record that has a text, of a size the reader takes. *)
Definition writable {T} `{!Serde T} (x : T) : Prop :=
  exists s, to_string x = Ok s /\ Z.of_nat (length (utf8_encode s)) < MAX_READ_BYTES.

(** ** Lines *)

Lemma read_until_line limit raw rest :
  10 ∉ raw -> Z.of_nat (length raw) < limit -> read_until limit (raw ++ 10 :: rest) = (raw ++ [10], rest).
Proof.
  revert limit. induction raw as [|b raw IH]; intros limit Hn Hl; cbn [app read_until length] in *.
  - by rewrite (proj2 (Z.leb_gt _ _)) by lia.
  - apply not_elem_of_cons in Hn as [Hb Hn]. rewrite (proj2 (Z.leb_gt _ _)) by lia.
    rewrite (proj2 (Z.eqb_neq _ _)) by done. by rewrite IH by (done || lia).
Qed.

Lemma read_until_end limit raw :
  10 ∉ raw -> Z.of_nat (length raw) <= limit -> read_until limit raw = (raw, []).
Proof.
  revert limit. induction raw as [|b raw IH]; intros limit Hn Hl; cbn [read_until length] in *; [done|].
  apply not_elem_of_cons in Hn as [Hb Hn]. rewrite (proj2 (Z.leb_gt _ _)) by lia.
  rewrite (proj2 (Z.eqb_neq _ _)) by done. by rewrite IH by (done || lia).
Qed.

Lemma trim_end_newline s : trim_end (s ++ [10]) = trim_end s.
Proof. induction s as [|c s IH]; [done|]. cbn [app trim_end]. by rewrite IH. Qed.

Lemma utf8_newline s : utf8_encode s ++ [10] = utf8_encode (s ++ [10]).
Proof. unfold utf8_encode. by rewrite bind_app. Qed.

Lemma newline_in_encode s : Forall scalar s -> 10 ∉ s -> 10 ∉ utf8_encode s.
Proof. intros Hs Hn. by rewrite ascii_in_encode by (done || lia). Qed.

Lemma ends_with_newline (l : list Z) : ends_with (Z.eqb 10) (l ++ [10]) = true.
Proof. unfold ends_with. by rewrite last_snoc. Qed.

Lemma ends_without_newline (l : list Z) : 10 ∉ l -> ends_with (Z.eqb 10) l = false.
Proof.
  intros Hn. unfold ends_with. destruct (last l) as [c|] eqn:E; [|done].
  apply Z.eqb_neq. intros <-. by apply Hn, last_Some_elem_of.
Qed.

(** *** A line read whole *)

Lemma bounded_line_whole s rest what :
  Forall scalar s -> 10 ∉ s -> Z.of_nat (length (utf8_encode s)) < MAX_READ_BYTES ->
  bounded_line (utf8_encode s ++ 10 :: rest) what =
    Ok (Z.of_nat (length (utf8_encode s)) + 1, s ++ [10], rest).
Proof.
  intros Hs Hn Hl. unfold bounded_line. rewrite read_until_line by (lia || by apply newline_in_encode).
  rewrite utf8_newline, utf8_decode_encode, <- utf8_newline.
  - rewrite length_app. cbn [length]. rewrite (proj2 (Z.ltb_ge _ _)) by lia. do 3 f_equal. lia.
  - apply Forall_app. split; [done|]. repeat constructor. lia.
Qed.

(** A line without its newline, at the end of the file. *)
Lemma bounded_line_end s p q what :
  Forall scalar s -> 10 ∉ s -> Z.of_nat (length (utf8_encode s)) < MAX_READ_BYTES -> utf8_encode s = p ++ q ->
  bounded_line p what =
    match utf8_decode p with None => Err (Io InvalidData) | Some t => Ok (Z.of_nat (length p), t, []) end.
Proof.
  intros Hs Hn Hl E. pose proof (newline_in_encode s Hs Hn) as Hn'. rewrite E in Hn', Hl.
  rewrite length_app in Hl. apply not_elem_of_app in Hn' as [Hp _].
  unfold bounded_line. rewrite read_until_end by (done || lia). destruct (utf8_decode p); [|done].
  by rewrite (proj2 (Z.ltb_ge _ _)) by lia.
Qed.

(** ** Records *)

Section Records.
Context {T : Type} `{!Serde T, !SerdeLaws T}.

Lemma line_of_writable (x : T) : writable x -> exists s,
  to_string x = Ok s /\ line_of x = utf8_encode s ++ [10] /\ Forall scalar s /\ 10 ∉ s /\ s <> [] /\ trim_end s = s /\
  Z.of_nat (length (utf8_encode s)) < MAX_READ_BYTES.
Proof.
  intros (s & Hs & Hl). exists s. unfold line_of. rewrite Hs.
  pose proof (written_trimmed x s Hs) as [? ?].
  split_and!; [done|done|by eapply written_scalar|by eapply written_one_line|done|done|done].
Qed.

Lemma read_turn_whole (x : T) rest n : writable x ->
  read_turn {| inner := line_of x ++ rest; line := n; truncated := false |} =
    inr ({| inner := rest; line := n +[64] 1; truncated := false |}, Ok (Some x)).
Proof.
  intros (s & Hs & -> & Hsc & Hn & Hne & Ht & Hl)%line_of_writable. unfold read_turn. cbn [truncated inner line].
  rewrite <- app_assoc. cbn [app]. rewrite bounded_line_whole by done.
  rewrite (proj2 (Z.eqb_neq _ _)) by lia. rewrite ends_with_newline, trim_end_newline, Ht. cbn [negb line].
  rewrite (read_back x s Hs). by destruct s.
Qed.

Lemma reader_read_whole (x : T) rest n : writable x ->
  reader_read {| inner := line_of x ++ rest; line := n; truncated := false |} =
    ({| inner := rest; line := n +[64] 1; truncated := false |}, Ok (Some x)).
Proof. intros Hx. unfold reader_read. cbn [read_loop]. by rewrite read_turn_whole. Qed.

Lemma reader_read_truncated (r : Reader) : truncated r = true -> reader_read (T := T) r = (r, Ok None).
Proof. intros E. unfold reader_read. cbn [read_loop]. unfold read_turn. by rewrite E. Qed.

Lemma reader_read_empty n :
  reader_read (T := T) {| inner := []; line := n; truncated := false |} =
    ({| inner := []; line := n; truncated := false |}, Ok None).
Proof. done. Qed.

(** What is left of a record that was being written: nothing, the whole of it, or a
    byte sequence that is not text. *)
Lemma reader_read_torn (x : T) s p q n : writable x -> to_string x = Ok s -> utf8_encode s = p ++ q -> p <> [] ->
  match utf8_decode p with
  | None => (reader_read (T := T) {| inner := p; line := n; truncated := false |}).2 = Err (Io InvalidData)
  | Some _ => exists r, truncated r = true /\
      reader_read {| inner := p; line := n; truncated := false |} = (r, Ok (if decide (q = []) then Some x else None))
  end.
Proof.
  intros (s' & Hs' & _ & Hsc & Hn & Hne & Ht & Hl)%line_of_writable Hs E Hp. rewrite Hs in Hs'. injection Hs' as <-.
  unfold reader_read. cbn [read_loop inner]. unfold read_turn at 1 2. cbn [truncated inner line].
  rewrite (bounded_line_end s p q _ Hsc Hn Hl E).
  destruct (utf8_cut s p q Hsc E) as [(t1 & t2 & -> & ->)| ->]; [|done].
  apply Forall_app in Hsc as [Hsc1 Hsc2]. rewrite utf8_decode_encode by done.
  assert (utf8_encode t2 = q) as Hq.
  { unfold utf8_encode in E. rewrite bind_app in E. by apply app_inv_head in E. }
  apply not_elem_of_app in Hn as [Hn1 Hn2]. rewrite (proj2 (Z.eqb_neq _ _)) by (destruct (utf8_encode t1); [done|cbn; lia]).
  rewrite ends_without_newline by done. cbn [negb]. destruct (decide (q = [])) as [Hq0|Hq0].
  - assert (t2 = []) as ->. { destruct t2; [done|]. rewrite Hq0 in Hq. by apply utf8_encode_nil in Hq. }
    rewrite app_nil_r in *. rewrite Ht, (read_back x t1 Hs). destruct t1; [done|]. eexists. split; [|reflexivity]. done.
  - destruct (torn_unread x _ t1 t2 Hs eq_refl) as [e He]; [by intros ->|]. rewrite He.
    destruct (trim_end t1) eqn:Et; [destruct (utf8_encode t1); [done|]|];
      (eexists; split; [|reflexivity]; done).
Qed.

(** ** Whole files *)

Lemma line_of_nonempty (x : T) : writable x -> (0 < length (line_of x))%nat.
Proof. intros (s & _ & -> & _)%line_of_writable. rewrite length_app. cbn. lia. Qed.

Lemma read_records_torn xs (x : T) s p q n fuel :
  Forall writable xs -> writable x -> to_string x = Ok s -> utf8_encode s = p ++ q ->
  (length (lines xs ++ p) < fuel)%nat ->
  read_records fuel {| inner := lines xs ++ p; line := n; truncated := false |} =
    match utf8_decode p with
    | None => Err (Io InvalidData)
    | Some _ => Ok (xs ++ if decide (q = []) then [x] else [])
    end.
Proof.
  intros Hxs Hx Hs E. revert n fuel. induction Hxs as [|y ys Hy _ IH]; intros n fuel Hf.
  - cbn [lines mbind list_bind app] in *. destruct fuel as [|fuel]; [lia|]. cbn [read_records].
    destruct (decide (p = [])) as [->|Hp].
    + rewrite reader_read_empty. cbn. rewrite decide_False; [done|]. intros ->.
      cbn in E. apply (utf8_encode_nil s) in E. by apply (written_trimmed x s) in Hs as [? _].
    + pose proof (reader_read_torn x s p q n Hx Hs E Hp) as H. destruct (utf8_decode p) as [t|].
      * destruct H as (r & Hr & ->). case_decide; [|done]. destruct fuel as [|fuel].
        { destruct p; [done|]. cbn in Hf. lia. }
        cbn [read_records]. by rewrite reader_read_truncated.
      * destruct (reader_read _) as [r o]. cbn in H. by rewrite H.
  - unfold lines in *. rewrite bind_cons, <- app_assoc in *. destruct fuel as [|fuel]; [lia|]. cbn [read_records].
    rewrite reader_read_whole by done. rewrite IH; [by destruct (utf8_decode p)|].
    pose proof (line_of_nonempty y Hy). rewrite length_app in Hf. lia.
Qed.
End Records.

(** *** The last newline *)

Lemma rposition_spec f l :
  match rposition f l with
  | Some i => (exists x, l !! i = Some x /\ f x = true) /\ forall j y, (i < j)%nat -> l !! j = Some y -> f y = false
  | None => forall j y, l !! j = Some y -> f y = false
  end.
Proof.
  induction l as [|x l IH]; [done|]. cbn [rposition]. destruct (rposition f l) as [i|].
  - destruct IH as [H1 H2]. split; [done|]. intros [|j] y Hj Hy; [lia|]. apply (H2 j y); [lia|done].
  - destruct (f x) eqn:E.
    + split; [by exists x|]. intros [|j] y Hj Hy; [lia|]. by apply (IH j y).
    + intros [|j] y Hy; cbn in Hy; [by simplify_eq|by apply (IH j y)].
Qed.

(** The offset past the last newline of a file, read from its beginning. *)
Definition past_newline (file : list Z) : Z :=
  match rposition (Z.eqb 10) file with Some i => Z.of_nat i + 1 | None => 0 end.

Lemma past_newline_is file i :
  file !! i = Some 10 -> (forall j y, (i < j)%nat -> file !! j = Some y -> y <> 10) -> past_newline file = Z.of_nat i + 1.
Proof.
  intros Hi Hlater. unfold past_newline. pose proof (rposition_spec (Z.eqb 10) file) as H.
  destruct (rposition _ file) as [k|]; [|by specialize (H i 10 Hi)]. destruct H as [(x & Hk & ->%Z.eqb_eq%eq_sym) Hn].
  destruct (Nat.lt_trichotomy i k) as [Hlt|[->|Hgt]]; [by destruct (Hlater k 10)|done|by specialize (Hn i 10 Hgt Hi)].
Qed.

Lemma past_newline_none file : 10 ∉ file -> past_newline file = 0.
Proof.
  intros Hn. unfold past_newline. pose proof (rposition_spec (Z.eqb 10) file) as H.
  destruct (rposition _ file) as [k|]; [|done]. destruct H as [(x & Hk & ->%Z.eqb_eq%eq_sym) _].
  by apply list_elem_of_lookup_2 in Hk.
Qed.

Lemma past_newline_tail file tail : 10 ∉ tail -> past_newline ((file ++ [10]) ++ tail) = Z.of_nat (length file) + 1.
Proof.
  intros Hn. apply past_newline_is.
  - rewrite lookup_app_l by (rewrite length_app; cbn; lia). by rewrite list_lookup_middle.
  - intros j y Hj Hy. rewrite lookup_app_r in Hy by (rewrite length_app; cbn; lia).
    apply list_elem_of_lookup_2 in Hy. by intros ->.
Qed.

(** What the backward search has passed over holds no newline. *)
Lemma window_step_spec file end_ :
  0 <= end_ <= Z.of_nat (length file) ->
  (forall j y, end_ <= Z.of_nat j -> file !! j = Some y -> y <> 10) ->
  match window_step file end_ with
  | inl start => 0 <= start < end_ /\ forall j y, start <= Z.of_nat j -> file !! j = Some y -> y <> 10
  | inr r => r = past_newline file
  end.
Proof.
  intros Hend Hafter. unfold window_step, WINDOW. destruct (Z.ltb_spec 0 end_) as [Hpos|Hpos].
  2:{ symmetry. apply past_newline_none. intros (j & Hj)%list_elem_of_lookup. apply (Hafter j 10); [lia|done|done]. }
  set (size := Z.min (8 * 1024) end_). set (start := end_ - size).
  assert (0 <= start < end_ /\ start + size = end_) as [Hs He] by lia.
  assert (forall j, take (Z.to_nat size) (drop (Z.to_nat start) file) !! j =
    if decide (Z.of_nat j < size) then file !! (Z.to_nat start + j)%nat else None) as Hw.
  { intros j. case_decide.
    - rewrite lookup_take_lt by lia. by rewrite lookup_drop.
    - by rewrite lookup_take_ge by lia. }
  pose proof (rposition_spec (Z.eqb 10) (take (Z.to_nat size) (drop (Z.to_nat start) file))) as H.
  destruct (rposition _ _) as [i|].
  - destruct H as [(x & Hi & ->%Z.eqb_eq%eq_sym) Hlater]. rewrite Hw in Hi. case_decide; [|done].
    replace (start + Z.of_nat i + 1) with (Z.of_nat (Z.to_nat start + i) + 1) by lia. symmetry.
    apply past_newline_is; [done|]. intros j y Hj Hy. destruct (Z.lt_ge_cases (Z.of_nat j) end_).
    + specialize (Hlater (j - Z.to_nat start)%nat y ltac:(lia)). rewrite Hw, decide_True in Hlater by lia.
      replace (Z.to_nat start + (j - Z.to_nat start))%nat with j in Hlater by lia. specialize (Hlater Hy). lia.
    + by apply (Hafter j).
  - split; [lia|]. intros j y Hj Hy. destruct (Z.lt_ge_cases (Z.of_nat j) end_); [|by apply (Hafter j)].
    specialize (H (j - Z.to_nat start)%nat y). rewrite Hw, decide_True in H by lia.
    replace (Z.to_nat start + (j - Z.to_nat start))%nat with j in H by lia. specialize (H Hy). lia.
Qed.

Lemma last_whole_line_spec file :
  fits 64 (Z.of_nat (length file)) -> last_whole_line file (Z.of_nat (length file)) = past_newline file.
Proof.
  intros Hfits. unfold last_whole_line.
  apply (loop_total (fun end_ => 0 <= end_ <= Z.of_nat (length file) /\
      forall j y, end_ <= Z.of_nat j -> file !! j = Some y -> y <> 10) (fun r => r = past_newline file) (fun end_ => end_)).
  - intros end_ [H1 H2]. pose proof (window_step_spec file end_ H1 H2) as H.
    destruct (window_step file end_); [|done]. split; [|lia]. split; [lia|tauto].
  - split; [lia|]. intros j y Hj Hy. apply lookup_lt_Some in Hy. lia.
  - unfold file_turns. mlia.
Qed.

(** *** Headers *)

Section Headers.
Context `{!SerdeLaws Header} (Hheader : writable header_current).

Lemma reader_open_line rest :
  reader_open (line_of header_current ++ rest) = Ok {| inner := rest; line := 1; truncated := false |}.
Proof.
  destruct (line_of_writable header_current Hheader) as (s & Hs & -> & Hsc & Hn & Hne & Ht & Hl).
  unfold reader_open. rewrite <- app_assoc. cbn [app]. rewrite bounded_line_whole by done. cbn [try_].
  rewrite (proj2 (Z.eqb_neq _ _)) by lia. rewrite trim_end_newline, Ht, (read_back header_current s Hs).
  by rewrite bool_decide_false by (intros []; done).
Qed.

Lemma writer_create_line : writer_create [] = Ok (line_of header_current).
Proof. destruct Hheader as (s & Hs & _). unfold writer_create, line_of. by rewrite Hs. Qed.

(** A header lacking only its newline opens; one cut shorter does not. *)
Lemma reader_open_torn s p q : to_string header_current = Ok s -> utf8_encode s = p ++ q -> p <> [] ->
  reader_open p =
    match utf8_decode p with
    | None => Err (Io InvalidData)
    | Some _ => if decide (q = []) then Ok {| inner := []; line := 1; truncated := false |} else Err NotAJournal
    end.
Proof.
  intros Hs E Hp. destruct (line_of_writable header_current Hheader) as (s' & Hs' & _ & Hsc & Hn & Hne & Ht & Hl).
  rewrite Hs in Hs'. injection Hs' as <-. unfold reader_open. rewrite (bounded_line_end s p q _ Hsc Hn Hl E).
  case_decide as Hq.
  - rewrite Hq, app_nil_r in E. rewrite <- E in *. rewrite utf8_decode_encode by done. cbn [try_].
    rewrite (proj2 (Z.eqb_neq _ _)) by (destruct (utf8_encode s); [done|cbn; lia]).
    by rewrite Ht, (read_back header_current s Hs).
  - destruct (utf8_cut s p q Hsc E) as [(t1 & t2 & -> & ->)| ->]; [|done].
    apply Forall_app in Hsc as [Hsc _]. rewrite utf8_decode_encode by done. cbn [try_]. case_match; [done|].
    destruct (torn_unread header_current _ t1 t2 Hs eq_refl) as [e He]; [|by rewrite He].
    intros ->. unfold utf8_encode in E. rewrite bind_app in E. apply app_inv_head in E. by destruct Hq.
Qed.

(** The header line ends with its newline. *)
Lemma header_line_ends : exists h, line_of header_current = h ++ [10] /\ 10 ∉ h.
Proof.
  destruct (line_of_writable header_current Hheader) as (s & _ & -> & Hsc & Hn & _).
  eexists. split; [done|]. by apply newline_in_encode.
Qed.
End Headers.

(** ** Any file at all *)

Lemma read_until_shape limit bytes raw rest : read_until limit bytes = (raw, rest) ->
  bytes = raw ++ rest /\
  ((exists l, raw = l ++ [10] /\ 10 ∉ l /\ Z.of_nat (length l) < limit) \/
   10 ∉ raw /\ (rest = [] \/ limit <= Z.of_nat (length raw))).
Proof.
  revert limit raw. induction bytes as [|b t IH]; intros limit raw E; cbn [read_until] in E.
  { simplify_eq. split; [done|]. right. split; [apply not_elem_of_nil|by left]. }
  destruct (Z.leb_spec limit 0) as [Hl|Hl]; [simplify_eq; split; [done|]; right; cbn; split; [apply not_elem_of_nil|right; lia]|].
  destruct (Z.eqb_spec b 10) as [->|Hb].
  - simplify_eq. split; [done|]. left. exists []. split_and!; [done|apply not_elem_of_nil|cbn; lia].
  - destruct (read_until (limit - 1) t) as [l r] eqn:Er. simplify_eq. destruct (IH _ _ Er) as [-> H]. split; [done|].
    rewrite !not_elem_of_cons. destruct H as [(l' & -> & Hn & Hl')|[Hn H]]; [left|right].
    + exists (b :: l'). rewrite not_elem_of_cons. cbn [length]. split_and!; [done|done|done|lia].
    + split; [done|]. destruct H; [by left|right]. cbn [length]. lia.
Qed.

(** Only the first line decides whether a file opens. *)
Lemma reader_open_first l tail1 tail2 r : 10 ∉ l -> Z.of_nat (length l) < MAX_READ_BYTES + 1 ->
  reader_open (l ++ 10 :: tail1) = Ok r -> exists r', reader_open (l ++ 10 :: tail2) = Ok r'.
Proof.
  intros Hn Hl. unfold reader_open, bounded_line. rewrite !read_until_line by done.
  destruct (utf8_decode (l ++ [10])); [|done]. case_match; [done|]. cbn [try_]. intros Hopen.
  repeat case_match; naive_solver.
Qed.

Lemma past_newline_cut bytes : past_newline bytes <> 0 ->
  exists m, take (Z.to_nat (past_newline bytes)) bytes = m ++ [10] /\
    forall i, bytes !! i = Some 10 -> (i <= length m)%nat.
Proof.
  unfold past_newline. pose proof (rposition_spec (Z.eqb 10) bytes) as H. destruct (rposition _ bytes) as [i|]; [|done].
  destruct H as [(x & Hi & ->%Z.eqb_eq%eq_sym) Hlater]. intros _. exists (take i bytes).
  replace (Z.to_nat (Z.of_nat i + 1)) with (S i) by lia. split; [by apply take_S_r|].
  intros k Hk. rewrite length_take_le by (apply lookup_lt_Some in Hi; lia).
  destruct (Nat.le_gt_cases k i) as [|Hgt]; [done|]. by specialize (Hlater k 10 Hgt Hk).
Qed.

(** A file that opens keeps doing so when it is cut after its last newline. *)
Lemma reader_open_cut bytes r : reader_open bytes = Ok r -> past_newline bytes <> 0 ->
  exists m r', take (Z.to_nat (past_newline bytes)) bytes = m ++ [10] /\ reader_open (m ++ [10]) = Ok r'.
Proof.
  intros Hopen Hkeep. destruct (past_newline_cut bytes Hkeep) as (m & Em & Hall). exists m.
  destruct (read_until (MAX_READ_BYTES + 1) bytes) as [raw rest] eqn:Er.
  destruct (read_until_shape _ _ _ _ Er) as [-> [(l & -> & Hn & Hl)|[Hn Hend]]].
  - rewrite <- app_assoc in *. cbn [app] in *. specialize (Hall (length l) (list_lookup_middle _ _ _ _ eq_refl)).
    assert (l ++ [10] `prefix_of` m ++ [10]) as [tail Et].
    { rewrite <- Em. exists (take (Z.to_nat (past_newline (l ++ 10 :: rest)) - length (l ++ [10])) rest).
      assert (l ++ 10 :: rest = (l ++ [10]) ++ rest) as El by by rewrite <- app_assoc.
      apply (f_equal length) in Em. rewrite length_take, !length_app in Em. cbn [length] in Em.
      rewrite El at 2. apply take_app_ge. rewrite length_app. cbn [length]. lia. }
    rewrite Em, Et, <- app_assoc. cbn [app].
    destruct (reader_open_first l rest tail r Hn Hl Hopen) as [r' ->]. by exists r'.
  - exfalso. unfold reader_open, bounded_line in Hopen. rewrite Er in Hopen. destruct (utf8_decode raw); [|done].
    destruct (Z.ltb_spec MAX_READ_BYTES (Z.of_nat (length raw))); [done|].
    destruct Hend as [->|?]; [|lia]. by rewrite app_nil_r, past_newline_none in Hkeep.
Qed.

(** ** Theorems on the files of one type of record *)

Section Files.
Context {T : Type} `{!Serde T, !SerdeLaws T, !SerdeLaws Header} (Hheader : writable header_current).

Lemma lines_end (xs : list T) : Forall writable xs -> lines xs = [] \/ exists l, lines xs = l ++ [10].
Proof.
  induction 1 as [|x xs Hx _ IH]; [by left|]. right. unfold lines in *. rewrite bind_cons.
  destruct IH as [->|[l ->]].
  - destruct (line_of_writable x Hx) as (s & _ & -> & _). rewrite app_nil_r. by eexists.
  - rewrite app_assoc. by eexists.
Qed.

Lemma journal_ends (xs : list T) : Forall writable xs -> exists l, journal xs = l ++ [10].
Proof.
  intros Hxs. unfold journal. destruct (lines_end xs Hxs) as [->|[l ->]].
  - destruct (header_line_ends Hheader) as (h & -> & _). rewrite app_nil_r. by eexists.
  - rewrite app_assoc. by eexists.
Qed.

Lemma write_each_lines (xs : list T) bytes : Forall writable xs -> write_each bytes xs = (bytes ++ lines xs, Ok tt).
Proof.
  intros Hxs. revert bytes. induction Hxs as [|x xs (s & Hs & _) _ IH]; intros bytes; [by rewrite app_nil_r|].
  cbn [write_each]. unfold writer_write. rewrite Hs. cbn [map_err try_]. rewrite IH. unfold lines.
  rewrite bind_cons. unfold writeln, line_of at 2. by rewrite Hs, <- !app_assoc.
Qed.

Lemma read_file_torn xs (x : T) s p q :
  Forall writable xs -> writable x -> to_string x = Ok s -> utf8_encode s = p ++ q ->
  read_file (Some (journal xs ++ p)) =
    match utf8_decode p with
    | None => Err (Io InvalidData)
    | Some _ => Ok (xs ++ if decide (q = []) then [x] else [])
    end.
Proof.
  intros Hxs Hx Hs E. unfold read_file, journal. rewrite <- app_assoc, (reader_open_line Hheader). cbn [inner].
  eapply read_records_torn; [done|done|exact Hs|exact E|lia].
Qed.

Lemma read_file_whole xs : Forall writable xs -> read_file (Some (journal xs)) = Ok xs.
Proof.
  destruct xs as [|y ys]; intros Hxs.
  - unfold read_file, journal. rewrite (reader_open_line Hheader). done.
  - inversion Hxs as [|? ? Hy _]; subst. destruct Hy as (s & Hs & Hl).
    pose proof (read_file_torn (y :: ys) y s [] (utf8_encode s) Hxs (ex_intro _ s (conj Hs Hl)) Hs eq_refl) as H.
    rewrite app_nil_r in H. rewrite H. cbn. rewrite decide_False, app_nil_r; [done|].
    intros E%utf8_encode_nil. by apply (written_trimmed y s) in Hs as [? _].
Qed.

Lemma mend_tail (xs : list T) tail :
  Forall writable xs -> 10 ∉ tail -> fits 64 (Z.of_nat (length (journal xs ++ tail))) ->
  mend (Some (journal xs ++ tail)) = (Some (journal xs), Ok tt).
Proof.
  intros Hxs Hn Hfits. unfold mend. rewrite last_whole_line_spec by done.
  destruct (journal_ends xs Hxs) as [l El].
  assert (reader_open (journal xs ++ tail) = Ok {| inner := lines xs ++ tail; line := 1; truncated := false |}) as ->.
  { unfold journal. rewrite <- app_assoc. by rewrite (reader_open_line Hheader). }
  rewrite El. rewrite past_newline_tail by done. rewrite (proj2 (Z.eqb_neq _ _)) by (rewrite !length_app; cbn; lia).
  destruct tail as [|b tail].
  - rewrite app_nil_r, ends_with_newline. done.
  - assert (ends_with (Z.eqb 10) ((l ++ [10]) ++ b :: tail) = false) as ->.
    { unfold ends_with. rewrite last_app. pose proof (ends_without_newline (b :: tail) Hn) as H. unfold ends_with in H.
      destruct (last (b :: tail)) eqn:E; [done|]. by apply last_None in E. }
    rewrite (proj2 (Z.eqb_neq _ 0)) by lia. rewrite take_app_length'; [done|]. rewrite length_app. cbn. lia.
Qed.

(** A file just created: empty, or holding the header and not its newline. *)
Lemma mend_created s : to_string header_current = Ok s -> mend (Some []) = (Some (journal (T := T) []), Ok tt) /\
  mend (Some (utf8_encode s)) = (Some (journal (T := T) []), Ok tt).
Proof.
  intros Hs. unfold journal. cbn [lines mbind list_bind]. rewrite app_nil_r. split.
  { unfold mend. cbn [length Z.of_nat Z.eqb]. by rewrite (writer_create_line Hheader). }
  destruct (line_of_writable header_current Hheader) as (s' & Hs' & _ & Hsc & Hn & Hne & _ & Hl).
  rewrite Hs in Hs'. injection Hs' as <-. pose proof (newline_in_encode s Hsc Hn) as Hn'.
  unfold mend. assert (utf8_encode s <> []) as Hne' by by intros ?%utf8_encode_nil.
  rewrite (proj2 (Z.eqb_neq _ _)) by (destruct (utf8_encode s); [done|cbn; lia]).
  pose proof (reader_open_torn Hheader s (utf8_encode s) [] Hs (eq_sym (app_nil_r _)) Hne') as H.
  rewrite utf8_decode_encode, decide_True in H by done. rewrite H, ends_without_newline by done.
  rewrite last_whole_line_spec by (unfold MAX_READ_BYTES in Hl; mlia). rewrite past_newline_none by done.
  change (take (Z.to_nat 0) _) with (@nil Z). cbn [Z.eqb]. by rewrite (writer_create_line Hheader).
Qed.

(** A journal whose last record was being written when its process was killed: the
    file holds whole records [xs] and, of the record [x], the bytes [p] of its line that
    were written, and not its newline.  When the cut falls between two characters, the
    reader returns exactly the whole records, and [x] too where only its newline is
    missing; when it falls inside a character, the whole file is refused as invalid
    data, the records before the tear with it. *)
Theorem torn_tail_read xs (x : T) s p q :
  Forall writable xs -> writable x -> to_string x = Ok s -> utf8_encode s = p ++ q ->
  read_file (Some (journal xs ++ p)) =
    match utf8_decode p with
    | None => Err (Io InvalidData)
    | Some _ => Ok (xs ++ if decide (q = []) then [x] else [])
    end.
Proof. apply read_file_torn. Qed.

(** C19: A sitting that continues a journal after such a kill: whatever byte the tear fell
    on, opening the file to append cuts it back to its whole records, what is appended
    follows them, and the file then reads as the whole records and the new ones.  A
    file killed while it was created, empty or without its header's newline, is given
    its header. *)
Theorem torn_journal_continues xs ys (x : T) s p q :
  Forall writable xs -> Forall writable ys -> writable x -> to_string x = Ok s -> utf8_encode s = p ++ q ->
  fits 64 (Z.of_nat (length (journal xs ++ p))) ->
  open_for_append (Some (journal xs ++ p)) = (Some (journal xs), Ok tt) /\
  write_each (journal xs) ys = (journal (xs ++ ys), Ok tt) /\
  read_file (Some (journal (xs ++ ys))) = Ok (xs ++ ys) /\
  open_for_append (Some []) = (Some (journal (T := T) []), Ok tt) /\
  (forall h, to_string header_current = Ok h -> open_for_append (Some (utf8_encode h)) = (Some (journal (T := T) []), Ok tt)).
Proof.
  intros Hxs Hys Hx Hs E Hfits. unfold open_for_append. split_and!.
  - apply mend_tail; [done| |done].
    destruct (line_of_writable x Hx) as (s' & Hs' & _ & Hsc & Hn & _). rewrite Hs in Hs'. injection Hs' as <-.
    apply newline_in_encode in Hn; [|done]. rewrite E in Hn. by apply not_elem_of_app in Hn as [? _].
  - rewrite write_each_lines by done. f_equal. unfold journal, lines. by rewrite bind_app, app_assoc.
  - apply read_file_whole. by apply Forall_app.
  - destruct Hheader as (h & Hh & _). by apply (mend_created h).
  - intros h Hh. by apply (mend_created h).
Qed.

(** A record that was written whole but for its newline is read by every reader, and
    is taken off the file by the next append: the reader and [mend] do not discard the
    same bytes. *)
Theorem mend_drops_a_read_record xs (x : T) s :
  Forall writable xs -> writable x -> to_string x = Ok s -> fits 64 (Z.of_nat (length (journal xs ++ utf8_encode s))) ->
  read_file (Some (journal xs ++ utf8_encode s)) = Ok (xs ++ [x]) /\
  read_file (open_for_append (Some (journal xs ++ utf8_encode s))).1 = Ok xs.
Proof.
  intros Hxs Hx Hs Hfits. destruct (line_of_writable x Hx) as (s' & Hs' & _ & Hsc & Hn & _).
  rewrite Hs in Hs'. injection Hs' as <-. split.
  - rewrite (read_file_torn xs x s (utf8_encode s) []), utf8_decode_encode by (done || by rewrite app_nil_r). done.
  - unfold open_for_append. rewrite mend_tail by (done || by apply newline_in_encode). by apply read_file_whole.
Qed.
End Files.

(** Whatever bytes are at a findings file's name: [mend] either refuses them, for the
    reason the reader gives, and leaves every byte in place, or leaves a file that opens
    and ends with a newline: the one that was there, cut after its last newline, or a
    header alone where there was no whole line. *)
Theorem mend_any_file bytes :
  SerdeLaws Header -> writable header_current -> fits 64 (Z.of_nat (length bytes)) ->
  exists bytes' outcome, mend (Some bytes) = (Some bytes', outcome) /\
  match outcome with
  | Err e => bytes' = bytes /\ bytes <> [] /\ reader_open bytes = Err e
  | Ok _ =>
      (exists l r, bytes' = l ++ [10] /\ reader_open bytes' = Ok r) /\
      (bytes' = if decide (10 ∈ bytes) then take (Z.to_nat (past_newline bytes)) bytes else line_of header_current)
  end.
Proof.
  intros Hlaws Hheader Hfits. unfold mend. rewrite last_whole_line_spec by done.
  destruct (header_line_ends Hheader) as (h & Eh & Hh). pose proof (reader_open_line Hheader []) as Hopen.
  rewrite app_nil_r in Hopen.
  assert (past_newline bytes = 0 <-> 10 ∉ bytes) as Hkeep.
  { split; [|apply past_newline_none]. intros E (i & Hi)%list_elem_of_lookup. unfold past_newline in E.
    pose proof (rposition_spec (Z.eqb 10) bytes) as H. destruct (rposition _ bytes); [lia|]. by specialize (H i 10 Hi). }
  destruct (Z.eqb_spec (Z.of_nat (length bytes)) 0) as [E0|E0].
  { assert (bytes = []) as -> by (by apply nil_length_inv; lia). rewrite (writer_create_line Hheader).
    eexists _, (Ok tt). split; [done|]. split; [by eexists _, _|]. by rewrite decide_False by apply not_elem_of_nil. }
  destruct (reader_open bytes) as [r|e] eqn:Eo.
  2:{ eexists _, (Err e). split; [done|]. split_and!; [done|by intros ->|done]. }
  destruct (ends_with (Z.eqb 10) bytes) eqn:El.
  - eexists _, (Ok tt). split; [done|]. unfold ends_with in El. destruct (last bytes) as [c|] eqn:Elast; [|done].
    apply Z.eqb_eq in El as <-. apply last_Some in Elast as [l ->].
    split; [by exists l, r|]. rewrite decide_True by (rewrite elem_of_app, list_elem_of_singleton; auto). pose proof (past_newline_tail l [] (not_elem_of_nil _)) as Hp.
    rewrite app_nil_r in Hp. rewrite Hp, take_ge; [done|]. rewrite length_app. cbn. lia.
  - destruct (Z.eqb_spec (past_newline bytes) 0) as [E|E].
    + rewrite E. change (take (Z.to_nat 0) _) with (@nil Z). rewrite (writer_create_line Hheader).
      eexists _, (Ok tt). split; [done|]. split; [by eexists _, _|]. by rewrite decide_False by tauto.
    + destruct (reader_open_cut bytes r Eo E) as (m & r' & Em & Hm). rewrite Em.
      eexists _, (Ok tt). split; [done|]. split; [by exists m, r'|].
      rewrite decide_True; [done|]. destruct (decide (10 ∈ bytes)); [done|]. tauto.
Qed.
End Format.

(** ** Records with known texts

    A table of records and their texts, as an instance of [Serde]: what the laws ask
    can be computed for it. *)

Section Table.
Context {T : Type} `{!EqDecision T} (table : list (T * text)).

Definition table_to_string (x : T) : Result text text :=
  match list_find (fun e => e.1 = x) table with Some (_, e) => Ok e.2 | None => Err [] end.

Definition table_from_str (s : text) : Result T text :=
  match list_find (fun e => e.2 = s) table with Some (_, e) => Ok e.1 | None => Err [] end.

Definition table_serde : Serde T := {| to_string := table_to_string; from_str := table_from_str |}.

Definition entry_ok (e : T * text) : Prop :=
  Forall scalar e.2 /\ 10 ∉ e.2 /\ (e.2 <> [] /\ trim_end e.2 = e.2) /\ table_from_str e.2 = Ok e.1 /\
  Forall (fun n => table_from_str (trim_end (take n e.2)) = Err []) (seq 0 (length e.2)).

#[export] Instance scalar_dec c : Decision (scalar c).
Proof. unfold scalar. apply _. Defined.

#[export] Instance entry_ok_dec e : Decision (entry_ok e).
Proof. unfold entry_ok. apply _. Defined.

Lemma table_laws : Forall entry_ok table -> @SerdeLaws T table_serde.
Proof.
  intros Hall. rewrite Forall_forall in Hall.
  assert (forall x s, table_to_string x = Ok s -> entry_ok (x, s)) as H.
  { intros x s. unfold table_to_string. destruct (list_find _ table) as [[i [y t]]|] eqn:E; [|done].
    intros [= <-]. apply list_find_Some in E as (Hi & <- & _). apply Hall. by eapply list_elem_of_lookup_2. }
  constructor; unfold to_string, from_str, table_serde; intros x s; try (intros Hs; by apply H in Hs as (?&?&?&?&?)).
  intros p q Hs Eq Hq. apply H in Hs as (_&_&_&_&Hp). cbn [snd] in Hp. exists []. rewrite Forall_forall in Hp.
  specialize (Hp (length p)). rewrite Eq, take_app_length in Hp. apply Hp, elem_of_seq. rewrite length_app.
  destruct q; [done|]. cbn. lia.
Qed.
End Table.

(** ** A journal of two records, torn *)

#[export] Instance header_eq_dec : EqDecision Header.
Proof. solve_decision. Defined.

Module Torn.

Definition header_serde : Serde Header := table_serde [(header_current (lit "1"), lit "{h}")].

(** Two records, the text of the second with a two-byte character. *)
Definition record_serde : Serde bool := table_serde [(true, lit "{a}"); (false, [123; 0xE9; 125])].

Lemma header_laws : @SerdeLaws Header header_serde.
Proof. apply table_laws. apply (bool_decide_unpack _). vm_compute. exact I. Qed.

Lemma record_laws : @SerdeLaws bool record_serde.
Proof. apply table_laws. apply (bool_decide_unpack _). vm_compute. exact I. Qed.

Lemma header_writable : @writable Header header_serde (header_current (lit "1")).
Proof. exists (lit "{h}"). split; [by vm_compute|]. vm_compute. done. Qed.

Lemma record_writable b : @writable bool record_serde b.
Proof. destruct b; (eexists; split; [by vm_compute|]; vm_compute; done). Qed.

Lemma records_writable bs : Forall (@writable bool record_serde) bs.
Proof. apply Forall_forall. intros b _. apply record_writable. Qed.

End Torn.

(** The cut inside the two bytes of a character. *)
Lemma torn_tail_read_witness :
  @read_file Torn.header_serde bool Torn.record_serde
    (Some (@journal Torn.header_serde (lit "1") bool Torn.record_serde [true] ++ [123; 0xC3])) = Err (Io InvalidData).
Proof.
  pose proof (@torn_tail_read Torn.header_serde (lit "1") bool Torn.record_serde Torn.record_laws Torn.header_laws
    Torn.header_writable [true] false [123; 0xE9; 125] [123; 0xC3] [0xA9; 125]
    (Torn.records_writable _) (Torn.record_writable _) ltac:(by vm_compute) ltac:(by vm_compute)) as H.
  rewrite H. by vm_compute.
Defined.

Lemma torn_journal_continues_witness :
  @open_for_append Torn.header_serde (lit "1")
    (Some (@journal Torn.header_serde (lit "1") bool Torn.record_serde [true] ++ [123; 0xC3])) =
    (Some (@journal Torn.header_serde (lit "1") bool Torn.record_serde [true]), Ok tt).
Proof.
  apply (@torn_journal_continues Torn.header_serde (lit "1") bool Torn.record_serde Torn.record_laws Torn.header_laws
    Torn.header_writable [true] [true; false] false [123; 0xE9; 125] [123; 0xC3] [0xA9; 125]
    (Torn.records_writable _) (Torn.records_writable _) (Torn.record_writable _) ltac:(by vm_compute) ltac:(by vm_compute)).
  by vm_compute.
Defined.

Lemma mend_drops_a_read_record_witness :
  @read_file Torn.header_serde bool Torn.record_serde
    (Some (@journal Torn.header_serde (lit "1") bool Torn.record_serde [true] ++ utf8_encode [123; 0xE9; 125])) = Ok [true; false].
Proof.
  apply (@mend_drops_a_read_record Torn.header_serde (lit "1") bool Torn.record_serde Torn.record_laws Torn.header_laws
    Torn.header_writable [true] false [123; 0xE9; 125]
    (Torn.records_writable _) (Torn.record_writable _) ltac:(by vm_compute)).
  by vm_compute.
Defined.

Lemma mend_any_file_witness :
  exists bytes' outcome, @mend Torn.header_serde (lit "1") (Some (lit "somebody else's")) = (Some bytes', outcome) /\
  match outcome with Err e => bytes' = lit "somebody else's" /\ e = NotAJournal | Ok _ => False end.
Proof.
  destruct (@mend_any_file Torn.header_serde (lit "1") (lit "somebody else's") Torn.header_laws Torn.header_writable
    ltac:(by vm_compute)) as (bytes' & outcome & E & H).
  exists bytes', outcome. split; [exact E|]. destruct outcome as [u|e].
  - destruct H as [(l & r & _ & Hopen) Eb]. exfalso. subst bytes'. vm_compute in E. discriminate.
  - destruct H as (E1 & _ & E2). split; [exact E1|]. vm_compute in E2. congruence.
Defined.
