(* ===== verification/Finished.v ===== *)
(** * The record of finished hosts

    [src/src/journal/store.rs]: [Journal::record_finished] appends the hosts a sitting
    has finished with to a file of the journal, and [Journal::finished_hosts] reads
    them back as a set.  The theorem follows one such file through any number of
    sittings, each of which may be killed while it writes. *)

From Stdlib Require Import ZArith Lia String.
From stdpp Require Import base numbers option sets gmap list.
From S2P Require Import Prelude Std Text Utf8 JournalFormat.

Local Open Scope Z_scope.

Record FinishedRecord := { hosts : list text }.

#[export] Instance finished_record_eq_dec : EqDecision FinishedRecord.
Proof. solve_decision. Defined.

Section Finished.
Context `{!Serde Header, !Serde FinishedRecord} (CARGO_PKG_VERSION : text).

(** The file as it is left, and the outcome.  What a [BufWriter] holds is written out
    when it is dropped, a record that has no text apart. *)
Definition record_finished (file : option (list Z)) (names : list text) : option (list Z) * Result unit JournalError :=
  let record := {| hosts := names |} in
  match hosts record with
  | [] => (file, Ok tt)
  | _ =>
      match
        match open_for_append CARGO_PKG_VERSION file with
        | (file, Ok _) => (file, Ok (default [] file))
        | (_, Err (Io NotFound)) =>
            match writer_create CARGO_PKG_VERSION [] with
            | Ok bytes => (Some bytes, Ok bytes)
            | Err e => (Some [], Err e)
            end
        | (file, Err e) => (file, Err e)
        end
      with
      | (file, Err e) => (file, Err e)
      | (file, Ok bytes) =>
          match writer_write bytes record with
          | Ok bytes => (Some bytes, Ok tt)
          | Err e => (file, Err e)
          end
      end
  end.

Definition finished_hosts (file : option (list Z)) : Result (gset text) JournalError :=
  map_ok (fun records => fold_left (fun found record => found ∪ list_to_set (hosts record)) records ∅) (read_file file).

(** ** A file's history *)

(** A call that returned, one whose process was killed when [n] bytes of what it appends
    were in the file, or one killed in [mend], when the file was cut back and [n] bytes of
    the header it may write there were in it. *)
Inductive Act :=
  | Finish (names : list text)
  | Killed (names : list text) (n : nat)
  | KilledMending (names : list text) (n : nat).

Definition act_names (a : Act) : list text := match a with Finish names | Killed names _ | KilledMending names _ => names end.

Definition killed (file : option (list Z)) (names : list text) (n : nat) : option (list Z) :=
  match names with
  | [] => file
  | _ =>
      match open_for_append CARGO_PKG_VERSION file with
      | (Some bytes, Ok _) => Some (bytes ++ take n (line_of {| hosts := names |}))
      | (_, Err (Io NotFound)) =>
          Some (take n (line_of (header_current CARGO_PKG_VERSION) ++ line_of {| hosts := names |}))
      | (file, _) => file
      end
  end.

(** [mend], killed once it has cut the file back. *)
Definition killed_mending (file : option (list Z)) (names : list text) (n : nat) : option (list Z) :=
  match names, file with
  | [], _ | _, None => file
  | _, Some bytes =>
      let header := Some (take n (line_of (header_current CARGO_PKG_VERSION))) in
      let length := Z.of_nat (length bytes) in
      if length =? 0 then header
      else
        match reader_open bytes with
        | Err _ => file
        | Ok _ =>
            if ends_with (Z.eqb 10) bytes then file
            else
              let keep := last_whole_line bytes length in
              if keep =? 0 then header else Some (take (Z.to_nat keep) bytes)
        end
  end.

Record History := { file : option (list Z); recorded : gset text; begun : gset text }.

(** [recorded]: the hosts of the calls that returned [Ok]; [begun]: of every call. *)
Definition perform (h : History) (a : Act) : History :=
  match a with
  | Finish names =>
      let '(file', outcome) := record_finished (file h) names in
      {| file := file';
         recorded := if is_ok outcome then recorded h ∪ list_to_set names else recorded h;
         begun := begun h ∪ list_to_set names |}
  | Killed names n =>
      {| file := killed (file h) names n; recorded := recorded h; begun := begun h ∪ list_to_set names |}
  | KilledMending names n =>
      {| file := killed_mending (file h) names n; recorded := recorded h; begun := begun h ∪ list_to_set names |}
  end.

Definition history (acts : list Act) : History := fold_left perform acts {| file := None; recorded := ∅; begun := ∅ |}.

(** ** What such a file can hold *)

Definition hosts_of (records : list FinishedRecord) : gset text := list_to_set (records ≫= hosts).

(** A record whose text is ASCII, as one that lists addresses is. *)
Definition plain (record : FinishedRecord) : Prop :=
  writable record /\ forall s, to_string record = Ok s -> Forall (fun c => 0 <= c < 0x80) s.

(** The part of a record's line that is on the file, and what it is read as. *)
Definition tail_of (tail : list Z) (read : list FinishedRecord) : Prop :=
  tail = [] /\ read = [] \/
  exists r s q, plain r /\ to_string r = Ok s /\ utf8_encode s = tail ++ q /\ read = if decide (q = []) then [r] else [].

(** A file as its history can have left it: never created, created and not given its
    header, or a journal with a tear at its end. *)
Inductive Held : option (list Z) -> list FinishedRecord -> list FinishedRecord -> Prop :=
  | held_missing : Held None [] []
  | held_empty : Held (Some []) [] []
  | held_header s : to_string (header_current CARGO_PKG_VERSION) = Ok s -> Held (Some (utf8_encode s)) [] []
  | held_part s p q : to_string (header_current CARGO_PKG_VERSION) = Ok s -> utf8_encode s = p ++ q ->
      p <> [] -> q <> [] -> Held (Some p) [] []
  | held_journal records tail read : Forall plain records -> tail_of tail read ->
      Held (Some (journal CARGO_PKG_VERSION records ++ tail)) records read.

Section Laws.
Context `{!SerdeLaws Header, !SerdeLaws FinishedRecord} (Hheader : writable (header_current CARGO_PKG_VERSION)).
Context (Hplain : forall s, to_string (header_current CARGO_PKG_VERSION) = Ok s -> Forall (fun c => 0 <= c < 0x80) s).

Lemma ascii_prefix_decodes s p q :
  Forall (fun c => 0 <= c < 0x80) s -> utf8_encode s = p ++ q -> utf8_decode p = Some p.
Proof.
  intros Hs E. assert (forall t, Forall (fun c => 0 <= c < 0x80) t -> utf8_encode t = t) as Henc.
  { induction 1 as [|c t Hc _ IH]; [done|]. unfold utf8_encode in *. rewrite bind_cons, IH. unfold encode_char.
    by rewrite (proj2 (Z.ltb_lt _ _)) by lia. }
  rewrite Henc in E by done. subst s. apply Forall_app in Hs as [Hp _].
  rewrite <- (Henc p Hp) at 1. apply utf8_decode_encode. eapply Forall_impl; [exact Hp|]. intros c Hc. left. cbn in Hc. lia.
Qed.

Lemma fold_hosts records found :
  fold_left (fun found record => found ∪ list_to_set (hosts record)) records found = found ∪ hosts_of records.
Proof.
  revert found. induction records as [|r records IH]; intros found; cbn [fold_left]; unfold hosts_of in *; [set_solver|].
  rewrite IH, bind_cons, list_to_set_app_L. set_solver.
Qed.

Lemma plain_writable records : Forall plain records -> Forall writable records.
Proof. intros H. eapply Forall_impl; [exact H|]. by intros r [? _]. Qed.

(** Whatever was killed, the file reads. *)
Lemma finished_hosts_held f records read : Held f records read -> finished_hosts f = Ok (hosts_of (records ++ read)).
Proof.
  intros Hf. unfold finished_hosts. assert (read_file f = Ok (records ++ read)) as ->; [|by cbn; rewrite fold_hosts, (left_id_L ∅ (∪))].
  destruct Hf as [| |s Hs|s p q Hs E Hp Hq|records tail read Hr Ht].
  - done.
  - done.
  - destruct (decide (utf8_encode s = [])) as [E0|Hne].
    { exfalso. apply utf8_encode_nil in E0. by apply (written_trimmed _ _) in Hs as [? _]. }
    pose proof (reader_open_torn CARGO_PKG_VERSION Hheader s (utf8_encode s) [] Hs (eq_sym (app_nil_r _)) Hne) as H.
    rewrite utf8_decode_encode, decide_True in H by (done || exact (written_scalar _ s Hs)). unfold read_file. by rewrite H.
  - pose proof (reader_open_torn CARGO_PKG_VERSION Hheader s p q Hs E Hp) as H.
    rewrite (ascii_prefix_decodes s p q (Hplain s Hs) E), decide_False in H by done. unfold read_file. by rewrite H.
  - destruct Ht as [[-> ->]|(r & s & q & [Hw Ha] & Hs & E & ->)].
    + rewrite !app_nil_r. apply read_file_whole; [apply _|apply _|done|by apply plain_writable].
    + rewrite (read_file_torn CARGO_PKG_VERSION Hheader records r s tail q (plain_writable _ Hr) Hw Hs E).
      by rewrite (ascii_prefix_decodes s tail q (Ha s Hs) E).
Qed.

(** *** One call *)

Definition size (f : option (list Z)) : Z := Z.of_nat (length (default [] f)).

Lemma line_size {T} `{!Serde T, !SerdeLaws T} (x : T) : writable x -> Z.of_nat (length (line_of x)) <= MAX_READ_BYTES.
Proof. intros (s & _ & -> & _ & _ & _ & _ & Hl)%line_of_writable. rewrite length_app. cbn [length]. lia. Qed.

Lemma tail_no_newline tail read : tail_of tail read -> 10 ∉ tail.
Proof.
  intros [[-> _]|(r & s & q & [Hw _] & Hs & E & _)]; [apply not_elem_of_nil|].
  destruct (line_of_writable r Hw) as (s' & Hs' & _ & Hsc & Hn & _). rewrite Hs in Hs'. injection Hs' as <-.
  apply newline_in_encode in Hn; [|done]. rewrite E in Hn. by apply not_elem_of_app in Hn as [? _].
Qed.

(** Opening such a file to append: cut back to its whole records, or refused as it is. *)
Lemma open_held f records read : Held f records read -> fits 64 (size f) ->
  match f with
  | None => open_for_append CARGO_PKG_VERSION f = (None, Err (Io NotFound)) /\ records = []
  | Some _ =>
      (open_for_append CARGO_PKG_VERSION f = (Some (journal CARGO_PKG_VERSION records), Ok tt) /\
        Z.of_nat (length (journal CARGO_PKG_VERSION records)) <= size f + MAX_READ_BYTES) \/
      open_for_append CARGO_PKG_VERSION f = (f, Err NotAJournal)
  end.
Proof.
  intros Hf Hfits. pose proof (line_size _ Hheader) as Hh.
  assert (forall n, 0 <= n -> Z.of_nat (length (journal (T := FinishedRecord) CARGO_PKG_VERSION [])) <= n + MAX_READ_BYTES) as Hj.
  { intros n Hn. unfold journal. cbn [lines mbind list_bind]. rewrite app_nil_r. lia. }
  unfold open_for_append. destruct Hf as [| |s Hs|s p q Hs E Hp Hq|records tail read Hr Ht].
  - done.
  - left. destruct Hheader as (s & Hs & _). split; [by apply (mend_created CARGO_PKG_VERSION Hheader s)|]. by apply Hj.
  - left. split; [by apply (mend_created CARGO_PKG_VERSION Hheader s)|]. apply Hj. unfold size. lia.
  - right. unfold mend. rewrite (proj2 (Z.eqb_neq _ _)) by (destruct p; [done|cbn; lia]).
    rewrite (reader_open_torn CARGO_PKG_VERSION Hheader s p q Hs E Hp).
    by rewrite (ascii_prefix_decodes s p q (Hplain s Hs) E), decide_False.
  - left. split.
    + apply mend_tail; [apply _|apply _|done|by apply plain_writable|by eapply tail_no_newline|done].
    + unfold size. cbn [from_option id]. rewrite (length_app (journal _ _)). unfold MAX_READ_BYTES. lia.
Qed.

(** What [n] bytes of a line are. *)
Lemma take_line r n : plain r -> take n (line_of r) = line_of r \/ exists read, tail_of (take n (line_of r)) read /\ hosts_of read ⊆ hosts_of [r].
Proof.
  intros Hr. destruct (line_of_writable r (proj1 Hr)) as (s & Hs & -> & _).
  destruct (Nat.le_gt_cases n (length (utf8_encode s))) as [Hle|Hgt].
  - right. rewrite take_app_le by done. exists (if decide (drop n (utf8_encode s) = []) then [r] else []).
    split; [|case_decide; [done|]; unfold hosts_of; set_solver].
    right. exists r, s, (drop n (utf8_encode s)). split_and!; [done|done|by rewrite take_drop|done].
  - left. apply take_ge. rewrite length_app. cbn. lia.
Qed.

Lemma journal_snoc records r : journal CARGO_PKG_VERSION records ++ line_of r = journal (T := FinishedRecord) CARGO_PKG_VERSION (records ++ [r]).
Proof. unfold journal, lines. rewrite bind_app, <- app_assoc. cbn. by rewrite app_nil_r. Qed.

Lemma hosts_of_app a b : hosts_of (a ++ b) = hosts_of a ∪ hosts_of b.
Proof. unfold hosts_of. by rewrite bind_app, list_to_set_app_L. Qed.

(** A journal with [n] bytes of a line after it. *)
Lemma held_take records r n : Forall plain records -> plain r -> exists records' read,
  Held (Some (journal CARGO_PKG_VERSION records ++ take n (line_of r))) records' read /\
  hosts_of records ⊆ hosts_of records' /\ hosts_of (records' ++ read) ⊆ hosts_of records ∪ hosts_of [r].
Proof.
  intros Hrs Hr. destruct (take_line r n Hr) as [->|(read & Ht & Hsub)].
  - exists (records ++ [r]), []. rewrite journal_snoc, app_nil_r, hosts_of_app. split; [|set_solver].
    rewrite <- (app_nil_r (journal _ _)). constructor; [|by left]. apply Forall_app. auto.
  - exists records, read. rewrite hosts_of_app. split; [by constructor|set_solver].
Qed.

(** A header cut off at [n] bytes. *)
Lemma held_header_take n : Held (Some (take n (line_of (header_current CARGO_PKG_VERSION)))) [] [].
Proof.
  pose proof (line_of_writable _ Hheader) as (s & Hs & El & _). rewrite El.
  destruct (Nat.le_gt_cases (length (utf8_encode s ++ [10])) n) as [Hge|Hlt].
  - rewrite take_ge by done. rewrite <- El. assert (line_of (header_current CARGO_PKG_VERSION) = journal CARGO_PKG_VERSION [] ++ []) as ->.
    { unfold journal. cbn. by rewrite !app_nil_r. }
    constructor; [constructor|by left].
  - rewrite length_app in Hlt. cbn in Hlt. rewrite take_app_le by lia. destruct (decide (n = 0%nat)) as [->|Hn]; [constructor|].
    destruct (decide (n = length (utf8_encode s))) as [->|Hn'].
    + rewrite firstn_all. by constructor.
    + apply (held_part s _ (drop n (utf8_encode s))); [done|by rewrite take_drop| |].
      * intros E%(f_equal length). rewrite length_take_le in E by lia. cbn in E. lia.
      * intros E%(f_equal length). rewrite length_drop in E. cbn in E. lia.
Qed.

(** A file created and cut off at [n] bytes. *)
Lemma held_create r n : plain r -> exists records read,
  Held (Some (take n (line_of (header_current CARGO_PKG_VERSION) ++ line_of r))) records read /\
  hosts_of (records ++ read) ⊆ hosts_of [r].
Proof.
  intros Hr. destruct (Nat.le_gt_cases (length (line_of (header_current CARGO_PKG_VERSION))) n) as [Hge|Hlt].
  - rewrite take_app_ge by done. destruct (held_take [] r (n - length (line_of (header_current CARGO_PKG_VERSION))) (Forall_nil_2 _) Hr)
      as (records & read & H & _ & Hsub). exists records, read. split; [|set_solver].
    unfold journal in H. cbn [lines mbind list_bind] in H. by rewrite app_nil_r in H.
  - exists [], []. split; [|by unfold hosts_of]. rewrite take_app_le by lia. apply held_header_take.
Qed.

(** A file cut back to its header has no records. *)
Lemma journal_header records : Forall plain records ->
  journal CARGO_PKG_VERSION records = line_of (header_current CARGO_PKG_VERSION) -> records = [].
Proof.
  intros Hp E. unfold journal in E. rewrite <- (app_nil_r (line_of _)) in E at 2. apply app_inv_head in E.
  destruct Hp as [|r records [Hr _] _]; [done|]. unfold lines in E. rewrite bind_cons in E. apply app_eq_nil in E as [E _].
  apply line_of_writable in Hr as (s & _ & Er & _). rewrite Er in E. by apply app_eq_nil in E as [_ ?].
Qed.

(** ** Histories *)

Definition act_plain (a : Act) : Prop := plain {| hosts := act_names a |}.

(** What each call leaves: a file of the kind above, which holds what was recorded and
    nothing that was not begun, [k] calls long at most. *)
Definition Inv (k : Z) (h : History) : Prop :=
  exists records read, Held (file h) records read /\ Forall plain records /\
    recorded h ⊆ hosts_of records /\ hosts_of (records ++ read) ⊆ begun h /\ size (file h) <= k * (2 * MAX_READ_BYTES).

Lemma hosts_of_one names : hosts_of [{| hosts := names |}] = list_to_set names.
Proof. unfold hosts_of. cbn. by rewrite app_nil_r. Qed.

Lemma held_plain f records read : Held f records read -> Forall plain records.
Proof. by destruct 1. Qed.

Lemma writer_write_line {T} `{!Serde T} bytes (x : T) : writable x -> writer_write bytes x = Ok (bytes ++ line_of x).
Proof. intros (s & Hs & _). unfold writer_write, line_of. by rewrite Hs. Qed.

Lemma Inv_intro k h f rec beg records read :
  Held f records read -> rec ⊆ hosts_of records -> hosts_of (records ++ read) ⊆ beg ->
  size f <= k * (2 * MAX_READ_BYTES) -> h = {| file := f; recorded := rec; begun := beg |} -> Inv k h.
Proof. intros Hf H1 H2 H3 ->. exists records, read. split_and!; [done|by eapply held_plain|done..]. Qed.

Lemma finish_inv k h names : 0 <= k <= 2 ^ 34 - 1 -> act_plain (Finish names) -> Inv k h -> Inv (k + 1) (perform h (Finish names)).
Proof.
  intros Hk Hok (records & read & Hf & Hp & Hrec & Hbeg & Hsize).
  assert (fits 64 (size (file h))) as Hfits by (unfold MAX_READ_BYTES in Hsize; unfold size in *; mlia).
  pose proof (line_size _ (proj1 Hok)) as Hl. pose proof (line_size _ Hheader) as Hh.
  rewrite hosts_of_app in Hbeg. cbn [perform]. unfold record_finished. cbn [hosts]. destruct names as [|name names].
  { cbn [is_ok list_to_set]. eapply Inv_intro; [exact Hf| | | |reflexivity]; [set_solver|rewrite hosts_of_app; set_solver|unfold MAX_READ_BYTES in *; lia]. }
  set (r := {| hosts := name :: names |}) in *. pose proof (open_held (file h) records read Hf Hfits) as H.
  assert (plain r) as Hr by done. pose proof (hosts_of_one (name :: names)) as Er. fold r in Er.
  cbn [act_names] in Hl. fold r in Hl.
  assert (Held (Some (journal CARGO_PKG_VERSION (records ++ [r]))) (records ++ [r]) []) as Hnew.
  { rewrite <- (app_nil_r (journal _ _)). constructor; [|by left]. apply Forall_app. auto. }
  destruct (file h) as [b|]; [destruct H as [[-> Hj]|E]; [|rewrite E]|destruct H as [-> ->]].
  - cbn [from_option id]. rewrite writer_write_line by apply Hr. rewrite journal_snoc. cbn [is_ok].
    eapply Inv_intro; [exact Hnew| | | |reflexivity]; [rewrite hosts_of_app; set_solver|rewrite app_nil_r, hosts_of_app; set_solver|].
    rewrite <- journal_snoc. unfold size in *. cbn [from_option id] in *. rewrite length_app. lia.
  - eapply Inv_intro; [exact Hf| | | |reflexivity]; [done|rewrite hosts_of_app; set_solver|unfold MAX_READ_BYTES in *; lia].
  - rewrite (writer_create_line CARGO_PKG_VERSION Hheader). rewrite writer_write_line by apply Hr. cbn [is_ok].
    eapply Inv_intro; [exact Hnew| | | |]; [..|unfold journal, lines; cbn; by rewrite app_nil_r].
    + rewrite hosts_of_app. set_solver.
    + rewrite app_nil_r, hosts_of_app. set_solver.
    + unfold size, journal, lines. cbn [app mbind list_bind from_option id]. rewrite app_nil_r, length_app.
      unfold size in Hsize. cbn in Hsize. lia.
Qed.

Lemma killed_inv k h names n : 0 <= k <= 2 ^ 34 - 1 -> act_plain (Killed names n) -> Inv k h -> Inv (k + 1) (perform h (Killed names n)).
Proof.
  intros Hk Hok (records & read & Hf & Hp & Hrec & Hbeg & Hsize).
  assert (fits 64 (size (file h))) as Hfits by (unfold MAX_READ_BYTES in Hsize; unfold size in *; mlia).
  pose proof (line_size _ (proj1 Hok)) as Hl. pose proof (line_size _ Hheader) as Hh. rewrite hosts_of_app in Hbeg.
  assert (Inv (k + 1) {| file := file h; recorded := recorded h; begun := begun h ∪ list_to_set names |}) as Hsame.
  { eapply Inv_intro; [exact Hf|exact Hrec| | |reflexivity]; [rewrite hosts_of_app; set_solver|unfold MAX_READ_BYTES in *; lia]. }
  cbn [perform]. unfold killed. destruct names as [|name names]; [done|].
  set (r := {| hosts := name :: names |}) in *. pose proof (open_held (file h) records read Hf Hfits) as H.
  assert (plain r) as Hr by done. pose proof (hosts_of_one (name :: names)) as Er. fold r in Er.
  pose proof (length_take (line_of r) n) as Ht. cbn [act_names] in Hl. fold r in Hl.
  destruct (file h) as [b|] eqn:Eb; [destruct H as [[-> Hj]| ->]|destruct H as [-> ->]].
  - destruct (held_take records r n Hp Hr) as (records' & read' & Hf' & Hsub & Hsub').
    eapply Inv_intro; [exact Hf'| | | |reflexivity]; [set_solver|set_solver|].
    unfold size in *. cbn [from_option id] in *. rewrite length_app. lia.
  - done.
  - destruct (held_create r n Hr) as (records' & read' & Hf' & Hsub).
    eapply Inv_intro; [exact Hf'| | | |reflexivity]; [set_solver|set_solver|].
    unfold size in *. cbn [from_option id] in *. rewrite length_take, length_app. cbn in Hsize. lia.
Qed.

(** What a killed [mend] leaves: the file as it was, cut back to its records, or a part of
    its header where it had none. *)
Lemma held_mending b names n records read : Held (Some b) records read -> fits 64 (size (Some b)) ->
  let left := killed_mending (Some b) names n in
  left = Some b \/ (records = [] /\ left = Some (take n (line_of (header_current CARGO_PKG_VERSION)))) \/
  (left = Some (journal CARGO_PKG_VERSION records) /\ Z.of_nat (length (journal CARGO_PKG_VERSION records)) <= size (Some b) + MAX_READ_BYTES).
Proof.
  intros Hf Hfits. pose proof (held_plain _ _ _ Hf) as Hp. pose proof (open_held _ _ _ Hf Hfits) as H. cbn in H.
  pose proof (writer_create_line CARGO_PKG_VERSION Hheader) as Hc.
  unfold killed_mending. destruct names as [|name names]; [by left|]. unfold open_for_append, mend in H.
  revert H. destruct (Z.eqb_spec (Z.of_nat (length b)) 0) as [E0|E0]; intros H.
  { destruct b; [|done]. rewrite Hc in H. destruct H as [[[= E] _]|[=]]. right. left. split; [|done]. by apply journal_header. }
  destruct (reader_open b) as [x|e]; [|by left]. destruct (ends_with (Z.eqb 10) b); [by left|].
  revert H. destruct (Z.eqb_spec (last_whole_line b (Z.of_nat (length b))) 0) as [E1|E1]; intros H.
  - rewrite E1 in H. change (take (Z.to_nat 0) b) with (@nil Z) in H. rewrite Hc in H. destruct H as [[[= E] _]|[=]]. right. left. split; [|done]. by apply journal_header.
  - destruct H as [[[= E] Hl]|[=]]. right. right. rewrite E in *. done.
Qed.

Lemma mending_inv k h names n : 0 <= k <= 2 ^ 34 - 1 -> Inv k h -> Inv (k + 1) (perform h (KilledMending names n)).
Proof.
  intros Hk (records & read & Hf & Hp & Hrec & Hbeg & Hsize). rewrite hosts_of_app in Hbeg. pose proof (line_size _ Hheader) as Hh. cbn [perform].
  assert (fits 64 (size (file h))) as Hfits by (unfold MAX_READ_BYTES in Hsize; unfold size in *; mlia).
  assert (Inv (k + 1) {| file := file h; recorded := recorded h; begun := begun h ∪ list_to_set names |}) as Hsame.
  { eapply Inv_intro; [exact Hf|exact Hrec| | |reflexivity]; [rewrite hosts_of_app; set_solver|unfold MAX_READ_BYTES in *; lia]. }
  destruct (file h) as [b|]; [|by destruct names].
  destruct (held_mending b names n records read Hf Hfits) as [->|[[-> ->]|[-> Hl]]]; [done| |].
  - eapply Inv_intro; [apply (held_header_take n)|exact Hrec| | |reflexivity]; [set_solver|].
    unfold size in *. cbn [from_option id] in *. rewrite length_take. unfold MAX_READ_BYTES in *. lia.
  - assert (Held (Some (journal CARGO_PKG_VERSION records)) records []) as Hj.
    { rewrite <- (app_nil_r (journal _ _)). constructor; [exact Hp|by left]. }
    eapply Inv_intro; [exact Hj|exact Hrec| | |reflexivity]; [rewrite app_nil_r; set_solver|].
    unfold size in *. cbn [from_option id] in *. unfold MAX_READ_BYTES in *. lia.
Qed.

Lemma history_inv acts : Forall act_plain acts -> Z.of_nat (length acts) <= 2 ^ 34 -> Inv (Z.of_nat (length acts)) (history acts).
Proof.
  induction acts as [|a acts IH] using rev_ind; intros Hok Hlen.
  - eapply Inv_intro; [constructor|done|done| |reflexivity]. done.
  - rewrite length_app in *. cbn [length] in *. apply Forall_app in Hok as [Hacts [Ha _]%Forall_cons].
    unfold history. rewrite fold_left_app. cbn [fold_left]. fold (history acts).
    replace (Z.of_nat (length acts + 1)) with (Z.of_nat (length acts) + 1) by lia.
    specialize (IH Hacts ltac:(lia)). destruct a as [names|names n|names n]; [apply finish_inv|apply killed_inv|apply mending_inv]; done || lia.
Qed.

(** C30: The hosts finished by a scan, through any calls (2^34 at most) and any kills, each at
    any byte of what the call was writing, the header a mend writes again included, or just
    after the file was cut back.  Where the records and the header are ASCII, as records of
    addresses are, the file always reads, the set read holds every host of a call that
    returned success, and it holds nothing that no call was given.  A record with other
    characters, cut within one of them, would make the file unreadable, and a file cut
    within its header reads as empty but refuses every later call. *)
Theorem finished_survives_kills acts :
  Forall act_plain acts -> Z.of_nat (length acts) <= 2 ^ 34 ->
  exists found, finished_hosts (file (history acts)) = Ok found /\
    recorded (history acts) ⊆ found /\ found ⊆ begun (history acts).
Proof.
  intros Hok Hlen. destruct (history_inv acts Hok Hlen) as (records & read & Hf & _ & Hrec & Hbeg & _).
  exists (hosts_of (records ++ read)). split; [by apply finished_hosts_held|]. split; [|done].
  rewrite hosts_of_app. set_solver.
Qed.

(** A file cut within its header is taken to be somebody else's, and left. *)
Theorem cut_header_is_refused s p q name names : to_string (header_current CARGO_PKG_VERSION) = Ok s -> utf8_encode s = p ++ q -> p <> [] -> q <> [] ->
  record_finished (Some p) (name :: names) = (Some p, Err NotAJournal).
Proof.
  intros Hs E Hp Hq. unfold record_finished. cbn [hosts]. unfold open_for_append, mend.
  rewrite (proj2 (Z.eqb_neq _ _)) by (destruct p; [done|cbn; lia]).
  rewrite (reader_open_torn CARGO_PKG_VERSION Hheader s p q Hs E Hp).
  by rewrite (ascii_prefix_decodes s p q (Hplain s Hs) E), decide_False.
Qed.
End Laws.
End Finished.

(** ** A sitting killed, and the next *)

Module Killing.

Definition finished_serde : Serde FinishedRecord :=
  table_serde [({| hosts := [lit "::1"] |}, lit "{1}"); ({| hosts := [lit "::2"] |}, lit "{2}")].

Lemma finished_laws : @SerdeLaws FinishedRecord finished_serde.
Proof. apply table_laws. apply (bool_decide_unpack _). vm_compute. exact I. Qed.

Definition acts : list Act := [Finish [lit "::1"]; Killed [lit "::2"] 2; KilledMending [lit "::2"] 5; Finish [lit "::2"]].

Lemma acts_ok : Forall (@act_plain finished_serde) acts.
Proof.
  repeat constructor; try (eexists; split; [by vm_compute|]; vm_compute; done);
    intros s Hs; vm_compute in Hs; injection Hs as <-; repeat constructor; by vm_compute.
Qed.

Lemma header_plain s : @to_string _ Torn.header_serde (header_current (lit "1")) = Ok s -> Forall (fun c => 0 <= c < 0x80) s.
Proof. intros Hs. vm_compute in Hs. injection Hs as <-. repeat constructor; by vm_compute. Qed.

End Killing.

Lemma finished_survives_kills_witness :
  exists found, @finished_hosts Torn.header_serde Killing.finished_serde
      (file (@history Torn.header_serde Killing.finished_serde (lit "1") Killing.acts)) = Ok found /\
    {[lit "::1"; lit "::2"]} ⊆ found.
Proof.
  destruct (@finished_survives_kills Torn.header_serde Killing.finished_serde (lit "1") Torn.header_laws Killing.finished_laws
    Torn.header_writable Killing.header_plain Killing.acts Killing.acts_ok ltac:(by vm_compute)) as (found & E & Hsub & _).
  exists found. split; [exact E|]. etrans; [|exact Hsub]. apply (bool_decide_unpack _). vm_compute. exact I.
Defined.
