(* ===== verification/Written.v ===== *)
(** * The findings file

    [src/src/journal/store.rs]: [Written] remembers what a journal's findings file holds
    of each host, so that [Journal::record_hosts] appends only what changed, and counts
    what later records superseded, so that [Journal::compact] rewrites the file when it
    is worth it.

    A host is the record of it, split as the code splits it: a part without its ports,
    with the key the journal holds the host under, and the ports, each with its key.
    The hasher of [mark] is a parameter, of which only the 64 bits it finishes with are
    used. *)

From Stdlib Require Import ZArith Lia String.
From stdpp Require Import base numbers option sets gmap list.
From S2P Require Import Prelude Std Text Utf8 JournalFormat.

Local Open Scope Z_scope.

(** ** Definitions *)

(** A record as written: a digest of it, and how long it was. *)
Record Mark := { digest : Z; m_length : Z }.

(** A host's record: the rest of it, and its ports. *)
Record HostRecord {R P : Type} := mkHostRecord { hr_rest : R; hr_ports : list P }.
Arguments HostRecord : clear implicits.
Arguments mkHostRecord {R P} hr_rest hr_ports.

Definition COMPACT_FLOOR : Z := 4 * 1024 * 1024.

Definition outgrown (length superseded : Z) : bool :=
  Z.max COMPACT_FLOOR (sat_sub length superseded) <? superseded.

Section Written.
Context {K PK R P : Type} `{Countable K, Countable PK}.
Context (scoped_ip : R -> K) (port_key : P -> PK).
Context `{!Serde Header, !Serde (HostRecord R P), !Serde P} (CARGO_PKG_VERSION : text) (hash : list Z -> Z).

(** What the findings file holds of one host. *)
Record HeldHost := { hh_rest : option Mark; hh_ports : gmap PK Mark }.

Record Written := { w_hosts : gmap K HeldHost; superseded : Z }.

(** What one record wrote of one host, to remember once the write succeeds. *)
Record Delta := { d_key : K; d_rest : Mark; d_ports : list (PK * Mark) }.

Definition heldhost_default : HeldHost := {| hh_rest := None; hh_ports := ∅ |}.

Definition written_default : Written := {| w_hosts := ∅; superseded := 0 |}.

Definition mark {T} `{!Serde T} (record : T) : Result Mark JournalError :=
  let? s := map_err json_error (to_string record) in
  let bytes := utf8_encode s in
  Ok {| digest := wrap 64 (hash bytes);
        m_length := match try_into 32 (Z.of_nat (length bytes) + 1) with Some n => n | None => umax 32 end |}.

Definition delta_length (d : Delta) : Z :=
  m_length (d_rest d) +[64] foldl (fun acc port => acc +[64] m_length port.2) 0 (d_ports d).

(** The loop of [delta] over the ports: what differs from what was last written. *)
Fixpoint changed_ports (held : option HeldHost) (ports : list P) : Result (list (PK * Mark) * list P) JournalError :=
  match ports with
  | [] => Ok ([], [])
  | written :: ports =>
      let key := port_key written in
      let? m := mark written in
      let unchanged := is_some_and (held ≫= fun held => hh_ports held !! key) (fun was => digest was =? digest m) in
      let? (changed, kept) := changed_ports held ports in
      if negb unchanged then Ok ((key, m) :: changed, written :: kept) else Ok (changed, kept)
  end.

Definition delta (w : Written) (host : HostRecord R P) : Result (option (HostRecord R P * Delta)) JournalError :=
  let key := scoped_ip (hr_rest host) in
  let held := w_hosts w !! key in
  let ports := hr_ports host in
  let? rest := mark (mkHostRecord (hr_rest host) []) in
  let? (changed, kept) := changed_ports held ports in
  let unchanged :=
    match changed with [] => true | _ => false end &&
    bool_decide (digest <$> (held ≫= hh_rest) = Some (digest rest)) in
  if unchanged then Ok None
  else Ok (Some (mkHostRecord (hr_rest host) kept, {| d_key := key; d_rest := rest; d_ports := changed |})).

(** The loop of [update] over the ports a record carries. *)
Definition update_port (acc : gmap PK Mark * Z) (port : PK * Mark) : gmap PK Mark * Z :=
  let '(ports, superseded) := acc in
  (<[port.1 := port.2]> ports,
   match ports !! port.1 with Some was => superseded +[64] m_length was | None => superseded end).

Definition update (w : Written) (d : Delta) : Written :=
  let '(held, superseded) :=
    match w_hosts w !! d_key d with
    | Some held => (held, superseded w +[64] match hh_rest held with Some was => m_length was | None => 0 end)
    | None => (heldhost_default, superseded w)
    end in
  let '(ports, superseded) := foldl update_port (hh_ports held, superseded) (d_ports d) in
  {| w_hosts := <[d_key d := {| hh_rest := Some (d_rest d); hh_ports := ports |}]> (w_hosts w);
     superseded := superseded |}.

(** The loop of [holding]: what it remembers, and the bytes of it. *)
Fixpoint hold_each (hosts : list (HostRecord R P)) (written : Written) (live : Z) : Result (Written * Z) JournalError :=
  match hosts with
  | [] => Ok (written, live)
  | host :: hosts =>
      let? found := delta written_default host in
      match found with
      | Some (_, d) => hold_each hosts (update written d) (live +[64] delta_length d)
      | None => hold_each hosts written live
      end
  end.

Definition holding (hosts : list (HostRecord R P)) (length : Z) : Result Written JournalError :=
  let? (written, live) := hold_each hosts written_default 0 in
  Ok {| w_hosts := w_hosts written; superseded := sat_sub length live |}.

(** ** The journal's part *)

(** Of a [Journal], its findings file and what it keeps of it. *)
Record Journal := { j_file : option (list Z); j_written : Written; j_length : Z; compact_after : Z }.

(** The loop of [record_hosts] over the hosts. *)
Fixpoint deltas_of (w : Written) (hosts : list (HostRecord R P)) : Result (list (HostRecord R P * Delta)) JournalError :=
  match hosts with
  | [] => Ok []
  | host :: hosts =>
      let? found := delta w host in
      let? records := deltas_of w hosts in
      Ok (match found with Some record => record :: records | None => records end)
  end.

Definition record_hosts (j : Journal) (hosts : list (HostRecord R P)) : Journal * Result unit JournalError :=
  match deltas_of (j_written j) hosts with
  | Err e => (j, Err e)
  | Ok [] => (j, Ok tt)
  | Ok records =>
      match open_for_append CARGO_PKG_VERSION (j_file j) with
      | (file, Err e) =>
          ({| j_file := file; j_written := j_written j; j_length := j_length j; compact_after := compact_after j |}, Err e)
      | (file, Ok _) =>
          match write_each (default [] file) (records.*1) with
          | (bytes, Err e) =>
              ({| j_file := Some bytes; j_written := j_written j; j_length := j_length j; compact_after := compact_after j |}, Err e)
          | (bytes, Ok _) =>
              ({| j_file := Some bytes; j_written := foldl update (j_written j) (records.*2);
                  j_length := Z.of_nat (length bytes); compact_after := compact_after j |}, Ok tt)
          end
      end
  end.

Definition should_compact (j : Journal) : bool :=
  outgrown (j_length j) (superseded (j_written j)) && (compact_after j <=? superseded (j_written j)).

(** The loop of [write_whole] over the hosts, into a new file. *)
Fixpoint write_hosts (bytes : list Z) (written : Written) (hosts : list (HostRecord R P)) : Result (list Z * Written) JournalError :=
  match hosts with
  | [] => Ok (bytes, written)
  | host :: hosts =>
      let? found := delta written_default host in
      match found with
      | Some (record, d) =>
          let? bytes := writer_write bytes record in
          write_hosts bytes (update written d) hosts
      | None => write_hosts bytes written hosts
      end
  end.

(** The new file takes the old one's place once it is whole; an error leaves the old
    one there. *)
Definition write_whole (j : Journal) (all : list (HostRecord R P)) : Journal * Result unit JournalError :=
  match
    let? bytes := writer_create CARGO_PKG_VERSION [] in
    write_hosts bytes written_default all
  with
  | Err e => (j, Err e)
  | Ok (bytes, written) =>
      ({| j_file := Some bytes; j_written := written; j_length := Z.of_nat (length bytes); compact_after := 0 |}, Ok tt)
  end.

Definition compact (j : Journal) (all : list (HostRecord R P)) : Journal * Result unit JournalError :=
  let '(j, compacted) := write_whole j all in
  if is_ok compacted then (j, compacted)
  else
    let s := superseded (j_written j) in
    let live := sat_sub (j_length j) s in
    ({| j_file := j_file j; j_written := j_written j; j_length := j_length j;
        compact_after := sat_add 64 s (Z.max COMPACT_FLOOR live) |}, compacted).

(** ** What is superseded, and what is live *)

Definition msum {I A} `{Countable I} (f : A -> Z) (m : gmap I A) : Z := map_fold (fun _ x acc => f x + acc) 0 m.

Definition live_host (held : HeldHost) : Z :=
  match hh_rest held with Some was => m_length was | None => 0 end + msum m_length (hh_ports held).

Definition live (w : Written) : Z := msum live_host (w_hosts w).

(** The bytes of a delta, with no wrap-around. *)
Definition delta_bytes (d : Delta) : Z := m_length (d_rest d) + foldr (fun port acc => m_length port.2 + acc) 0 (d_ports d).

Lemma msum_insert_new {I A} `{Countable I} (f : A -> Z) (m : gmap I A) i x :
  m !! i = None -> msum f (<[i := x]> m) = f x + msum f m.
Proof. intros Hi. unfold msum. rewrite map_fold_insert_L; [done| |done]. intros. lia. Qed.

Lemma msum_insert {I A} `{Countable I} (f : A -> Z) (m : gmap I A) i x :
  msum f (<[i := x]> m) = f x + msum f m - match m !! i with Some y => f y | None => 0 end.
Proof.
  destruct (m !! i) as [y|] eqn:E; [|rewrite msum_insert_new by done; lia].
  rewrite <- (insert_delete_id m i y E) at 2. rewrite <- insert_delete_eq.
  rewrite !msum_insert_new by apply lookup_delete_eq. lia.
Qed.

Lemma msum_nonneg {I A} `{Countable I} (f : A -> Z) (m : gmap I A) :
  (forall i x, m !! i = Some x -> 0 <= f x) -> 0 <= msum f m.
Proof.
  induction m as [|i x m Hi IH] using map_ind; intros Hf; [done|]. rewrite msum_insert_new by done.
  pose proof (Hf i x (lookup_insert_eq _ _ _)). assert (0 <= msum f m); [|lia]. apply IH. intros j y Hj.
  apply (Hf j). rewrite lookup_insert_ne; [done|]. by intros ->; simplify_eq.
Qed.

Lemma foldr_sum_nonneg {A} (f : A -> Z) l : Forall (fun x => 0 <= f x) l -> 0 <= foldr (fun x acc => f x + acc) 0 l.
Proof. induction 1; cbn [foldr]; lia. Qed.

(** Every length is one a mark can have. *)
Definition marks_ok (w : Written) : Prop :=
  0 <= superseded w /\ forall k held, w_hosts w !! k = Some held ->
    (forall m, hh_rest held = Some m -> 0 <= m_length m) /\ forall pk m, hh_ports held !! pk = Some m -> 0 <= m_length m.

Definition delta_ok (d : Delta) : Prop := 0 <= m_length (d_rest d) /\ Forall (fun port => 0 <= m_length port.2) (d_ports d).

Lemma live_host_nonneg held :
  (forall m, hh_rest held = Some m -> 0 <= m_length m) -> (forall pk m, hh_ports held !! pk = Some m -> 0 <= m_length m) -> 0 <= live_host held.
Proof.
  intros Hr Hp. unfold live_host. pose proof (msum_nonneg m_length (hh_ports held) Hp).
  destruct (hh_rest held) as [m|]; [specialize (Hr m eq_refl); lia|lia].
Qed.

Lemma foldl_update_port l ports s :
  Forall (fun port : PK * Mark => 0 <= m_length port.2) l -> (forall pk m, ports !! pk = Some m -> 0 <= m_length m) -> 0 <= s ->
  s + msum m_length ports + foldr (fun port acc => m_length port.2 + acc) 0 l <= umax 64 ->
  let '(ports', s') := foldl update_port (ports, s) l in
  s' + msum m_length ports' = s + msum m_length ports + foldr (fun port acc => m_length port.2 + acc) 0 l /\
  0 <= s' /\ forall pk m, ports' !! pk = Some m -> 0 <= m_length m.
Proof.
  intros Hl. revert ports s. induction Hl as [|[key m] l Hm Hl IH]; intros ports s Hp Hs Hle; cbn [foldl foldr] in *; [split; [lia|done]|].
  cbn [snd] in Hm. pose proof (foldr_sum_nonneg (fun port : PK * Mark => m_length port.2) l Hl) as Hrest.
  unfold update_port at 2. cbn [fst snd] in *.
  pose proof (msum_insert m_length ports key m) as Hsum. pose proof (msum_nonneg m_length (<[key := m]> ports)) as Hnn.
  assert (forall pk m', <[key := m]> ports !! pk = Some m' -> 0 <= m_length m') as Hp'.
  { intros pk m' [[_ <-]|[_ H']]%lookup_insert_Some; [done|by eapply Hp]. }
  specialize (Hnn Hp'). destruct (ports !! key) as [was|] eqn:E.
  - pose proof (Hp key was E). pose proof (msum_nonneg m_length ports Hp). rewrite wrap_small by mlia.
    specialize (IH (<[key := m]> ports) (s + m_length was) Hp' ltac:(lia) ltac:(lia)).
    destruct (foldl _ _ l) as [ports' s']. split; [lia|]. split; [lia|]. apply IH.
  - specialize (IH (<[key := m]> ports) s Hp' ltac:(lia) ltac:(lia)).
    destruct (foldl _ _ l) as [ports' s']. split; [lia|]. split; [lia|]. apply IH.
Qed.

(** What is held of a host, nothing where it is not. *)
Definition held_of (w : Written) (k : K) : HeldHost := default heldhost_default (w_hosts w !! k).

Definition rest_bytes (held : HeldHost) : Z := match hh_rest held with Some was => m_length was | None => 0 end.

Lemma update_held w d : 0 <= superseded w <= umax 64 ->
  update w d =
    let held := held_of w (d_key d) in
    let '(ports, s) := foldl update_port (hh_ports held, superseded w +[64] rest_bytes held) (d_ports d) in
    {| w_hosts := <[d_key d := {| hh_rest := Some (d_rest d); hh_ports := ports |}]> (w_hosts w); superseded := s |}.
Proof.
  intros Hs. unfold update, held_of, rest_bytes. destruct (w_hosts w !! d_key d); [done|]. cbn [from_option heldhost_default hh_rest].
  by rewrite Z.add_0_r, wrap_small by mlia.
Qed.

Lemma live_split w k : live w = live_host (held_of w k) + msum live_host (delete k (w_hosts w)).
Proof.
  unfold live, held_of. destruct (w_hosts w !! k) as [held|] eqn:E.
  - by rewrite <- (insert_delete_id _ _ _ E) at 1; rewrite msum_insert_new by apply lookup_delete_eq.
  - rewrite delete_id by done. by change (live_host _) with 0.
Qed.

(** One record's bytes are live, and what they replace is superseded. *)
Lemma update_accounts w d : marks_ok w -> delta_ok d -> superseded w + live w + delta_bytes d <= umax 64 ->
  superseded (update w d) + live (update w d) = superseded w + live w + delta_bytes d /\ marks_ok (update w d).
Proof.
  intros [Hs Hw] [Hr Hp] Hle. unfold delta_bytes in *. set (extra := foldr _ 0 (d_ports d)) in *. set (k := d_key d).
  assert (0 <= extra) as Hextra by by apply (foldr_sum_nonneg (fun port : PK * Mark => m_length port.2)).
  pose proof (live_split w k) as Hlive.
  assert (0 <= msum live_host (delete k (w_hosts w))) as Hothers.
  { apply msum_nonneg. intros i h [_ Hi]%lookup_delete_Some. destruct (Hw i h Hi). by apply live_host_nonneg. }
  assert ((forall m, hh_rest (held_of w k) = Some m -> 0 <= m_length m) /\
          forall pk m, hh_ports (held_of w k) !! pk = Some m -> 0 <= m_length m) as [Hrest Hports].
  { unfold held_of. destruct (w_hosts w !! k) as [held|] eqn:E; [by apply (Hw k)|done]. }
  assert (0 <= rest_bytes (held_of w k)) as Hold by (unfold rest_bytes; destruct (hh_rest _) as [m|]; [by apply Hrest|done]).
  pose proof (msum_nonneg m_length _ Hports) as Hsum.
  assert (live_host (held_of w k) = rest_bytes (held_of w k) + msum m_length (hh_ports (held_of w k))) as Elh by done.
  rewrite update_held by mlia. fold k. cbv zeta. rewrite wrap_small by mlia.
  pose proof (foldl_update_port (d_ports d) (hh_ports (held_of w k)) (superseded w + rest_bytes (held_of w k)) Hp Hports
    ltac:(lia) ltac:(fold extra; lia)) as H'. fold extra in H'.
  destruct (foldl update_port _ (d_ports d)) as [ports s']. destruct H' as (H1 & H2 & H3). split.
  - unfold live at 1. cbn [superseded w_hosts]. rewrite <- insert_delete_eq, msum_insert_new by apply lookup_delete_eq.
    unfold live_host at 1. cbn [hh_rest hh_ports]. lia.
  - split; [done|]. cbn [w_hosts]. intros i h [[_ <-]|[_ Hi]]%lookup_insert_Some; [|by apply (Hw i)].
    cbn [hh_rest hh_ports]. split; [by intros m [= <-]|done].
Qed.

(** ** What the file says of each host

    The records of a file taken one after the other: the last one's word on the rest
    of a host, and on each port. *)

Definition overlay (ports : gmap PK P) (written : list P) : gmap PK P :=
  foldl (fun ports p => <[port_key p := p]> ports) ports written.

Definition said_ports (said : gmap K (R * gmap PK P)) (k : K) : gmap PK P :=
  match said !! k with Some (_, ports) => ports | None => ∅ end.

Definition replay_record (said : gmap K (R * gmap PK P)) (record : HostRecord R P) : gmap K (R * gmap PK P) :=
  let k := scoped_ip (hr_rest record) in
  <[k := (hr_rest record, overlay (said_ports said k) (hr_ports record))]> said.

Definition replay (records : list (HostRecord R P)) : gmap K (R * gmap PK P) := foldl replay_record ∅ records.

(** A mark is of what the file says. *)
Definition agree_ports (marks : gmap PK Mark) (ports : gmap PK P) : Prop :=
  forall pk, match marks !! pk, ports !! pk with
             | Some m, Some p => mark p = Ok m
             | None, None => True
             | _, _ => False
             end.

Definition Agree (w : Written) (said : gmap K (R * gmap PK P)) : Prop :=
  forall k, match w_hosts w !! k, said !! k with
            | Some held, Some (rest, ports) =>
                (exists m, hh_rest held = Some m /\ mark (mkHostRecord (P := P) rest []) = Ok m) /\ agree_ports (hh_ports held) ports
            | None, None => True
            | _, _ => False
            end.

(** What a file says of a host is all of it, and of the ports it does not have what was
    said before. *)
Definition covers_host (before said : gmap K (R * gmap PK P)) (host : HostRecord R P) : Prop :=
  exists ports, said !! scoped_ip (hr_rest host) = Some (hr_rest host, ports) /\
    (forall p, p ∈ hr_ports host -> ports !! port_key p = Some p) /\
    forall pk, pk ∉ port_key <$> hr_ports host -> ports !! pk = said_ports before (scoped_ip (hr_rest host)) !! pk.

(** No part of the host has the digest of another part that the file has in its place. *)
Definition no_collision (said : gmap K (R * gmap PK P)) (host : HostRecord R P) : Prop :=
  forall rest ports, said !! scoped_ip (hr_rest host) = Some (rest, ports) ->
    (forall m m', mark (mkHostRecord (P := P) rest []) = Ok m -> mark (mkHostRecord (P := P) (hr_rest host) []) = Ok m' ->
      digest m = digest m' -> rest = hr_rest host) /\
    (forall p p' m m', p ∈ hr_ports host -> ports !! port_key p = Some p' -> mark p = Ok m -> mark p' = Ok m' -> digest m = digest m' -> p = p').

(** Every part of the host has a text of its own and a mark, and its ports have keys of
    their own. *)
Definition host_ok (host : HostRecord R P) : Prop :=
  (forall ports, sublist ports (hr_ports host) -> writable (mkHostRecord (hr_rest host) ports)) /\
  Forall writable (hr_ports host) /\ NoDup (port_key <$> hr_ports host).

Lemma mark_ok {T} `{!Serde T} (x : T) : writable x -> exists m, mark x = Ok m.
Proof. intros (s & Hs & _). unfold mark. rewrite Hs. by eexists. Qed.

(** What a record carries, and what it leaves out because the file says it. *)
Lemma changed_ports_spec held ports said : Forall writable ports ->
  (forall p p' m m', p ∈ ports -> said !! port_key p = Some p' -> mark p = Ok m -> mark p' = Ok m' -> digest m = digest m' -> p = p') ->
  agree_ports (match held with Some held => hh_ports held | None => ∅ end) said ->
  exists changed kept, changed_ports held ports = Ok (changed, kept) /\ sublist kept ports /\
    Forall2 (fun c p => c.1 = port_key p /\ mark p = Ok c.2) changed kept /\
    forall p, p ∈ ports -> p ∈ kept \/ said !! port_key p = Some p.
Proof.
  intros Hw Hclear Hagree. induction Hw as [|p ports Hp _ IH]; cbn [changed_ports].
  { exists [], []. split_and!; [done|done|constructor|]. by intros p ?%elem_of_nil. }
  destruct (mark_ok p Hp) as [m Hm]. rewrite Hm. cbn [try_]. destruct IH as (changed & kept & -> & Hsub & H2 & Hcov).
  { intros q q' ? ? Hq. apply Hclear. by right. }
  cbn [try_]. set (unchanged := is_some_and _ _). destruct unchanged eqn:Eu; cbn [negb].
  - exists changed, kept. split_and!; [done|by constructor|done|]. intros p' [->|Hp']%elem_of_cons; [|by apply Hcov].
    right. unfold unchanged in Eu. apply is_some_and_true in Eu as (was & Hwas & Ed%Z.eqb_eq).
    specialize (Hagree (port_key p)). destruct held as [held|]; [|done]. cbn in Hwas. rewrite Hwas in Hagree.
    destruct (said !! port_key p) as [p'|] eqn:Es; [|done]. f_equal. symmetry. eapply Hclear; [by left|exact Es|exact Hm|exact Hagree|by symmetry].
  - exists ((port_key p, m) :: changed), (p :: kept). split_and!; [done|by constructor|by constructor|].
    intros p' [->|Hp']%elem_of_cons; [left; by left|]. destruct (Hcov p' Hp'); [left; by right|by right].
Qed.

Lemma overlay_lookup ports written k :
  overlay ports written !! k =
    match last (filter (fun p => port_key p = k) written) with Some p => Some p | None => ports !! k end.
Proof.
  unfold overlay. induction written as [|p written IH] using rev_ind; [done|].
  rewrite foldl_app, filter_app. cbn [foldl]. destruct (decide (port_key p = k)) as [Ek|Ek].
  - rewrite <- Ek, lookup_insert_eq. rewrite (filter_cons_True _ p []) by done. by rewrite filter_nil, last_snoc.
  - rewrite lookup_insert_ne by done. rewrite (filter_cons_False _ p []) by done. by rewrite filter_nil, app_nil_r.
Qed.

Lemma overlay_in ports written p : NoDup (port_key <$> written) -> p ∈ written -> overlay ports written !! port_key p = Some p.
Proof.
  intros Hnd (i & Hi)%list_elem_of_lookup. rewrite overlay_lookup.
  rewrite (filter_unique (fun q => port_key q = port_key p) written i p Hi eq_refl); [done|]. intros j y Hj Ey.
  eapply (NoDup_lookup (port_key <$> written)); [done| |]; rewrite list_lookup_fmap; [by rewrite Hj; cbn; rewrite Ey|by rewrite Hi].
Qed.

Lemma overlay_notin ports written k : k ∉ port_key <$> written -> overlay ports written !! k = ports !! k.
Proof.
  intros Hk. rewrite overlay_lookup, filter_none; [done|]. intros p Hp Ek. apply Hk. rewrite <- Ek. by apply list_elem_of_fmap_2.
Qed.

(** Marks follow what the file says through a record. *)
Lemma agree_overlay changed kept marks ports s :
  Forall2 (fun c p => c.1 = port_key p /\ mark p = Ok c.2) changed kept -> agree_ports marks ports ->
  agree_ports (foldl update_port (marks, s) changed).1 (overlay ports kept).
Proof.
  intros H2. revert marks ports s. induction H2 as [|[key m] p changed kept [Ek Hm] _ IH]; intros marks ports s Ha; [done|].
  cbn [foldl overlay]. apply IH. cbn [fst snd] in *. subst key. intros pk. cbn [update_port fst]. 
  destruct (decide (port_key p = pk)) as [<-|Hne]; [by rewrite !lookup_insert_eq|]. rewrite !lookup_insert_ne by done. apply Ha.
Qed.

Lemma inj_on_keys (l : list P) p q : NoDup (port_key <$> l) -> p ∈ l -> q ∈ l -> port_key p = port_key q -> p = q.
Proof.
  intros Hnd (i & Hi)%list_elem_of_lookup (j & Hj)%list_elem_of_lookup Ek.
  assert (i = j) as ->; [|congruence]. eapply (NoDup_lookup (port_key <$> l)); [done| |]; rewrite list_lookup_fmap;
    [rewrite Hi|rewrite Hj; cbn; rewrite <- Ek]; done.
Qed.

Lemma keys_sublist (l1 l2 : list P) : sublist l1 l2 -> NoDup (port_key <$> l2) -> NoDup (port_key <$> l1).
Proof.
  intros Hs Hnd. eapply sublist_NoDup; [exact Hnd|]. induction Hs as [|p l1 l2 _ IH|p l1 l2 _ IH]; cbn; [constructor| |].
  - constructor. apply IH. by apply NoDup_cons in Hnd as [_ ?].
  - apply sublist_cons, IH. by apply NoDup_cons in Hnd as [_ ?].
Qed.

(** A delta that is of a record: the same host, with marks of what the record carries. *)
Definition delta_of (record : HostRecord R P) (d : Delta) : Prop :=
  d_key d = scoped_ip (hr_rest record) /\ mark (mkHostRecord (P := P) (hr_rest record) []) = Ok (d_rest d) /\
  Forall2 (fun c p => c.1 = port_key p /\ mark p = Ok c.2) (d_ports d) (hr_ports record).

Lemma agree_at w said k : Agree w said ->
  agree_ports (match w_hosts w !! k with Some held => hh_ports held | None => ∅ end) (said_ports said k).
Proof.
  intros Ha. specialize (Ha k). unfold said_ports. destruct (w_hosts w !! k) as [held|], (said !! k) as [[rest ports]|]; try done.
  by destruct Ha.
Qed.

Lemma delta_spec w said host : Agree w said -> host_ok host -> no_collision said host ->
  (delta w host = Ok None /\ covers_host said said host) \/
  exists kept d, delta w host = Ok (Some (mkHostRecord (hr_rest host) kept, d)) /\ sublist kept (hr_ports host) /\
    delta_of (mkHostRecord (hr_rest host) kept) d /\ covers_host said (replay_record said (mkHostRecord (hr_rest host) kept)) host.
Proof.
  intros Ha (Hsub & Hw & Hnd) Hclear. unfold delta. set (k := scoped_ip (hr_rest host)).
  destruct (mark_ok _ (Hsub [] (sublist_nil_l _))) as [m Hm]. rewrite Hm. cbn [try_].
  destruct (changed_ports_spec (w_hosts w !! k) (hr_ports host) (said_ports said k) Hw) as (changed & kept & -> & Hkept & H2 & Hcov).
  { unfold said_ports. destruct (said !! k) as [[rest ports]|] eqn:Es; [|intros ? ? ? ? _ E; by rewrite lookup_empty in E].
    apply (Hclear rest ports Es). }
  { by apply agree_at. }
  cbn [try_].
  destruct (match changed with [] => true | _ => false end && _) eqn:Eu.
  - left. split; [done|]. apply andb_true_iff in Eu as [Ec Er%bool_decide_eq_true]. destruct changed; [|done].
    apply Forall2_nil_inv_l in H2 as ->. pose proof (Ha k) as Hk. unfold covers_host, said_ports in *. fold k.
    destruct (w_hosts w !! k) as [held|]; [|done]. destruct (said !! k) as [[rest ports]|] eqn:Es; [|done].
    destruct Hk as ((mr & Hheld & Hmr) & _). cbn in Er. rewrite Hheld in Er. injection Er as Er.
    assert (rest = hr_rest host) as -> by (destruct (Hclear rest ports Es) as [Hrest _]; eapply Hrest; [exact Hmr|exact Hm|exact Er]).
    exists ports. split; [done|]. split; [|done]. intros p Hp. by destruct (Hcov p Hp) as [?%elem_of_nil|].
  - right. eexists kept, _. split; [done|]. split; [done|]. split; [done|].
    eexists. unfold replay_record. cbn [hr_rest hr_ports]. fold k. rewrite lookup_insert_eq. split; [done|].
    assert (NoDup (port_key <$> kept)) as Hnd' by by eapply keys_sublist. split.
    2:{ intros pk Hpk. apply overlay_notin. intros (q & -> & Hq)%list_elem_of_fmap. apply Hpk, list_elem_of_fmap_2. by eapply elem_of_sublist. }
    intros p Hp.
    destruct (decide (port_key p ∈ port_key <$> kept)) as [(q & Eq & Hq)%list_elem_of_fmap|Hn].
    + rewrite Eq. rewrite overlay_in by done. f_equal. apply (inj_on_keys (hr_ports host)); [done|by eapply elem_of_sublist|done|by symmetry].
    + rewrite overlay_notin by done. destruct (Hcov p Hp) as [Hin|]; [|done]. destruct Hn. by apply list_elem_of_fmap_2.
Qed.

Lemma update_agree w said record d : Agree w said -> delta_of record d -> Agree (update w d) (replay_record said record).
Proof.
  intros Ha (Ek & Hm & H2) k. unfold replay_record. rewrite <- Ek.
  assert (w_hosts (update w d) !! k = if decide (d_key d = k) then
      Some {| hh_rest := Some (d_rest d);
              hh_ports := (foldl update_port (match w_hosts w !! k with Some held => hh_ports held | None => ∅ end,
                match w_hosts w !! k with Some held => superseded w +[64] rest_bytes held | None => superseded w end) (d_ports d)).1 |}
      else w_hosts w !! k) as ->.
  { unfold update, rest_bytes. case_decide as Hk.
    - subst k. destruct (w_hosts w !! d_key d); cbn [heldhost_default hh_ports];
        destruct (foldl update_port _ (d_ports d)) as [ports s]; apply lookup_insert_eq.
    - destruct (w_hosts w !! d_key d); destruct (foldl update_port _ (d_ports d)) as [ports s]; by apply lookup_insert_ne. }
  case_decide as Hk; [subst k; rewrite lookup_insert_eq|rewrite lookup_insert_ne by done; apply Ha].
  split; [by eexists|]. apply agree_overlay; [done|by apply agree_at].
Qed.

(** *** A batch of hosts *)

Definition key_of (host : HostRecord R P) : K := scoped_ip (hr_rest host).

Lemma delta_local w w0 host : w_hosts w !! key_of host = w_hosts w0 !! key_of host -> delta w host = delta w0 host.
Proof. intros E. unfold delta. unfold key_of in E. by rewrite E. Qed.

Lemma update_elsewhere w d k : k <> d_key d -> w_hosts (update w d) !! k = w_hosts w !! k.
Proof.
  intros Hk. unfold update. destruct (match w_hosts w !! d_key d with Some _ => _ | None => _ end) as [held s].
  destruct (foldl update_port _ (d_ports d)) as [ports s']. by apply lookup_insert_ne.
Qed.

Lemma covers_local before before' said said' host : before !! key_of host = before' !! key_of host -> said !! key_of host = said' !! key_of host ->
  covers_host before said host -> covers_host before' said' host.
Proof. unfold covers_host, key_of, said_ports. by intros -> ->. Qed.

Lemma no_collision_local said said' host : said !! key_of host = said' !! key_of host -> no_collision said host -> no_collision said' host.
Proof. unfold no_collision, key_of. by intros ->. Qed.

Lemma no_collision_nothing host : no_collision ∅ host.
Proof. intros rest ports E. by rewrite lookup_empty in E. Qed.

Lemma batch_spec w0 hosts w said :
  Agree w said -> Forall host_ok hosts -> NoDup (key_of <$> hosts) -> (forall h, h ∈ hosts -> no_collision said h) ->
  (forall h, h ∈ hosts -> w_hosts w !! key_of h = w_hosts w0 !! key_of h) ->
  exists recs, deltas_of w0 hosts = Ok recs /\ Forall writable recs.*1 /\
    Agree (foldl update w recs.*2) (foldl replay_record said recs.*1) /\
    (forall h, h ∈ hosts -> covers_host said (foldl replay_record said recs.*1) h) /\
    forall k, k ∉ key_of <$> hosts -> foldl replay_record said recs.*1 !! k = said !! k.
Proof.
  intros Ha Hok. revert w said Ha. induction Hok as [|host hosts Hh _ IH]; intros w said Ha Hnd Hclear Hw; cbn [deltas_of].
  { exists []. split_and!; [done|constructor|done|by intros ? ?%elem_of_nil|done]. }
  rewrite fmap_cons in Hnd. apply NoDup_cons in Hnd as [Hn Hnd].
  rewrite <- (delta_local w w0 host) by (apply Hw; by left).
  assert (forall k, k ∉ key_of <$> host :: hosts -> k <> key_of host /\ k ∉ key_of <$> hosts) as Hsplit.
  { intros k. rewrite fmap_cons, not_elem_of_cons. tauto. }
  destruct (delta_spec w said host Ha Hh (Hclear host ltac:(by left))) as [[-> Hc]|(kept & d & -> & Hkept & Hd & Hc)]; cbn [try_].
  - destruct (IH w said Ha Hnd) as (recs & -> & Hwr & Ha' & Hcov & Helse); [intros h Hin; apply Hclear; by right|intros h Hin; apply Hw; by right|].
    exists recs. split; [done|]. split; [done|]. split; [done|]. split.
    + intros h [->|Hin]%elem_of_cons; [|by apply Hcov]. eapply covers_local; [done| |exact Hc]. symmetry. by apply Helse.
    + intros k [_ Hk]%Hsplit. by apply Helse.
  - set (record := mkHostRecord (hr_rest host) kept) in *. pose proof (update_agree w said record d Ha Hd) as Ha1.
    assert (d_key d = key_of host) as Ek by (destruct Hd as [-> _]; done).
    assert (forall h, h ∈ hosts -> said !! key_of h = replay_record said record !! key_of h) as Hout.
    { intros h Hin. unfold replay_record. rewrite lookup_insert_ne; [done|]. intros E. apply Hn. cbn in E. unfold key_of at 1. rewrite E. by apply (list_elem_of_fmap_2 key_of). }
    destruct (IH (update w d) (replay_record said record) Ha1 Hnd) as (recs & -> & Hwr & Ha' & Hcov & Helse).
    { intros h Hin. eapply no_collision_local; [by apply Hout|]. apply Hclear. by right. }
    { intros h Hin. rewrite update_elsewhere; [apply Hw; by right|]. rewrite Ek. intros E. apply Hn. rewrite <- E.
      by apply list_elem_of_fmap_2. }
    exists ((record, d) :: recs). cbn [try_ fmap list_fmap fst snd foldl]. split; [done|]. split.
    { constructor; [|done]. destruct Hh as [Hall _]. by apply Hall. }
    split; [done|]. split.
    + intros h [->|Hin]%elem_of_cons.
      * eapply covers_local; [done| |exact Hc]. symmetry. by apply Helse.
      * eapply covers_local; [|done|by apply Hcov]. symmetry. by apply Hout.
    + intros k [Hk1 Hk2]%Hsplit. rewrite Helse by done. unfold replay_record. by apply lookup_insert_ne.
Qed.

Context `{!SerdeLaws Header, !SerdeLaws (HostRecord R P)} (Hheader : writable (header_current CARGO_PKG_VERSION)).

(** C6: The findings file is a faithful delta encoding, unless digests collide.  Where the
    file is whole, the marks in memory are of what its records say, and no part of a host
    given has the 64-bit digest of a different part that the file holds in its place,
    recording a batch of distinct hosts that serialise, each port of one once, appends records after which the file still reads and the marks still agree with
    it.  What it then says of each host given is the host's rest, each of the host's ports,
    and, of a port the host does not have, what it said before; what it says of any other
    host has not changed.  So leaving out what was not changed loses nothing. *)
Theorem record_hosts_remembers j records hosts :
  j_file j = Some (journal CARGO_PKG_VERSION records) -> Forall writable records ->
  fits 64 (Z.of_nat (length (journal CARGO_PKG_VERSION records))) ->
  Agree (j_written j) (replay records) -> Forall host_ok hosts -> NoDup (key_of <$> hosts) ->
  (forall host, host ∈ hosts -> no_collision (replay records) host) ->
  exists j' added, record_hosts j hosts = (j', Ok tt) /\
    read_file (j_file j') = Ok (records ++ added) /\
    Agree (j_written j') (replay (records ++ added)) /\
    (forall host, host ∈ hosts -> covers_host (replay records) (replay (records ++ added)) host) /\
    (forall k, k ∉ key_of <$> hosts -> replay (records ++ added) !! k = replay records !! k).
Proof.
  intros Hfile Hwr Hfits Ha Hok Hnd Hclear.
  destruct (batch_spec (j_written j) hosts (j_written j) (replay records) Ha Hok Hnd Hclear) as (recs & Hds & Hws & Ha' & Hcov & Helse); [done|].
  assert (replay (records ++ recs.*1) = foldl replay_record (replay records) recs.*1) as Er by apply foldl_app.
  unfold record_hosts. rewrite Hds. destruct recs as [|rec recs].
  { exists j, []. rewrite app_nil_r. split; [done|]. rewrite Hfile. split; [by apply (read_file_whole CARGO_PKG_VERSION Hheader)|done]. }
  set (all := rec :: recs) in *. rewrite Hfile. unfold open_for_append.
  pose proof (mend_tail CARGO_PKG_VERSION Hheader records [] Hwr (not_elem_of_nil _)) as Hm. rewrite app_nil_r in Hm.
  rewrite Hm by done. cbn [from_option id]. rewrite write_each_lines by done.
  eexists _, all.*1. split; [done|]. cbn [j_file j_written]. rewrite Er. split; [|done].
  unfold journal. rewrite <- app_assoc. change (lines records ++ lines all.*1) with ((records ≫= line_of) ++ (all.*1 ≫= line_of)).
  rewrite <- bind_app. apply (read_file_whole CARGO_PKG_VERSION Hheader). by apply Forall_app.
Qed.

(** *** Compaction *)

Lemma changed_ports_fresh ports : Forall writable ports -> exists changed,
  changed_ports None ports = Ok (changed, ports) /\ changed.*1 = port_key <$> ports.
Proof.
  induction 1 as [|p ports Hp _ (changed & E & Ek)]; cbn [changed_ports]; [by exists []|].
  destruct (mark_ok p Hp) as [m ->]. cbn [try_]. rewrite E. cbn. eexists. split; [done|]. cbn. by rewrite Ek.
Qed.

(** Against nothing written, the record is the whole host. *)
Lemma delta_fresh host : host_ok host -> exists d,
  delta written_default host = Ok (Some (host, d)) /\ d_key d = key_of host /\ (d_ports d).*1 = port_key <$> hr_ports host.
Proof.
  intros (Hsub & Hw & _). unfold delta. destruct (mark_ok _ (Hsub [] (sublist_nil_l _))) as [m ->]. cbn [try_ written_default w_hosts].
  rewrite lookup_empty. destruct (changed_ports_fresh (hr_ports host) Hw) as (changed & -> & Ek). cbn [try_].
  rewrite bool_decide_false by done. rewrite andb_false_r. destruct host. by eexists.
Qed.

Lemma deltas_fresh hosts : Forall host_ok hosts -> exists recs, deltas_of written_default hosts = Ok recs /\ recs.*1 = hosts /\
  Forall2 (fun h d => d_key d = key_of h /\ (d_ports d).*1 = port_key <$> hr_ports h) hosts recs.*2.
Proof.
  induction 1 as [|host hosts Hh _ (recs & E & E1 & H2)]; cbn [deltas_of]; [exists []; split_and!; [done|done|constructor]|].
  destruct (delta_fresh host Hh) as (d & -> & Hd). cbn [try_]. rewrite E. cbn [try_]. eexists. split; [done|]. cbn. rewrite E1.
  split; [done|by constructor].
Qed.

Lemma write_hosts_deltas hosts recs bytes w :
  deltas_of written_default hosts = Ok recs -> Forall writable recs.*1 ->
  write_hosts bytes w hosts = Ok (bytes ++ lines recs.*1, foldl update w recs.*2).
Proof.
  revert recs bytes w. induction hosts as [|host hosts IH]; intros recs bytes w E Hw; cbn [deltas_of write_hosts] in *.
  { simplify_eq. cbn. by rewrite app_nil_r. }
  destruct (delta written_default host) as [found|]; [|done]. cbn [try_] in *.
  destruct (deltas_of written_default hosts) as [recs'|]; [|done]. cbn [try_] in E. injection E as <-.
  destruct found as [[record d]|]; [|by apply IH]. cbn [fmap list_fmap fst snd foldl] in *. apply Forall_cons in Hw as [(s & Hs & _) Hw].
  unfold writer_write. rewrite Hs. cbn [map_err try_]. erewrite IH by done. do 2 f_equal.
  unfold lines. rewrite bind_cons. unfold writeln, line_of at 2. by rewrite Hs, <- !app_assoc.
Qed.

Lemma update_port_fresh l marks s : NoDup l.*1 -> (forall k, k ∈ l.*1 -> marks !! k = None) ->
  (foldl update_port (marks, s) l).2 = s.
Proof.
  revert marks s. induction l as [|[k m] l IH]; intros marks s Hnd Hm; [done|]. cbn [fmap list_fmap fst] in *.
  apply NoDup_cons in Hnd as [Hn Hnd]. cbn [foldl]. unfold update_port at 2. cbn [fst snd]. rewrite Hm by by left.
  apply IH; [done|]. intros k' Hk'. rewrite lookup_insert_ne by (intros ->; done). apply Hm. by right.
Qed.

Lemma update_fresh w d : w_hosts w !! d_key d = None -> NoDup (d_ports d).*1 -> superseded (update w d) = superseded w.
Proof.
  intros E Hnd. unfold update. rewrite E. cbn [heldhost_default hh_ports].
  pose proof (update_port_fresh (d_ports d) ∅ (superseded w) Hnd) as Hs.
  destruct (foldl update_port _ (d_ports d)) as [ports s]. cbn in *. apply Hs. intros. apply lookup_empty.
Qed.

Lemma updates_fresh hosts ds w :
  Forall2 (fun h d => d_key d = key_of h /\ (d_ports d).*1 = port_key <$> hr_ports h) hosts ds ->
  Forall host_ok hosts -> NoDup (key_of <$> hosts) -> (forall h, h ∈ hosts -> w_hosts w !! key_of h = None) ->
  superseded (foldl update w ds) = superseded w.
Proof.
  intros H2. revert w. induction H2 as [|h d hosts ds [Ek Ep] _ IH]; intros w Hok Hnd Hw; [done|].
  apply Forall_cons in Hok as [(_ & _ & Hnp) Hok]. rewrite fmap_cons in Hnd. apply NoDup_cons in Hnd as [Hn Hnd]. cbn [foldl].
  rewrite IH; [|done|done|].
  - apply update_fresh; [rewrite Ek; apply Hw; by left|by rewrite Ep].
  - intros h' Hin. rewrite update_elsewhere; [apply Hw; by right|]. rewrite Ek. intros E. apply Hn. rewrite <- E. by apply list_elem_of_fmap_2.
Qed.

Lemma agree_empty : Agree written_default ∅.
Proof. intros k. by rewrite !lookup_empty. Qed.

(** Compaction rewrites the findings file as one record a host: the new file reads as
    exactly the hosts given, the marks agree with it, nothing in it is superseded and no
    further compaction is due. *)
Theorem compact_rewrites j all :
  Forall host_ok all -> NoDup (key_of <$> all) ->
  exists j', compact j all = (j', Ok tt) /\ read_file (j_file j') = Ok all /\
    Agree (j_written j') (replay all) /\ (forall host, host ∈ all -> covers_host ∅ (replay all) host) /\
    superseded (j_written j') = 0 /\ should_compact j' = false.
Proof.
  intros Hok Hnd. destruct (batch_spec written_default all written_default ∅ agree_empty Hok Hnd (fun h _ => no_collision_nothing h)) as (recs & Hds & Hws & Ha & Hcov & _); [done|].
  destruct (deltas_fresh all Hok) as (recs' & Hds' & E1 & H2). rewrite Hds in Hds'. injection Hds' as <-.
  unfold compact, write_whole. rewrite (writer_create_line CARGO_PKG_VERSION Hheader). cbn [try_].
  erewrite write_hosts_deltas by done. cbn [is_ok]. eexists. split; [done|]. cbn [j_file j_written]. rewrite E1 in *.
  split; [by apply (read_file_whole CARGO_PKG_VERSION Hheader)|]. split; [done|]. split; [done|].
  assert (superseded (foldl update written_default recs.*2) = 0) as Hs by (eapply updates_fresh; try done; intros; apply lookup_empty).
  split; [done|]. unfold should_compact, outgrown. cbn [j_written]. rewrite Hs.
  by rewrite (proj2 (Z.ltb_ge _ _)) by (unfold COMPACT_FLOOR; lia).
Qed.

(** *** A record the marks hold and the file does not *)

Lemma changed_ports_none held ports said : Forall writable ports -> agree_ports (hh_ports held) said ->
  (forall p, p ∈ ports -> said !! port_key p = Some p) -> changed_ports (Some held) ports = Ok ([], []).
Proof.
  intros Hw Ha Hs. induction Hw as [|p ports Hp _ IH]; [done|]. cbn [changed_ports]. destruct (mark_ok p Hp) as [m Hm]. rewrite Hm.
  cbn [try_]. rewrite IH by (intros q Hq; apply Hs; by right). cbn [try_ mbind option_bind]. specialize (Ha (port_key p)).
  rewrite Hs in Ha by by left. destruct (hh_ports held !! port_key p) as [was|]; [|done]. rewrite Hm in Ha. injection Ha as <-.
  cbn [is_some_and]. by rewrite Z.eqb_refl.
Qed.

(** What the file says whole is not written again. *)
Lemma delta_covered w before said host : Agree w said -> host_ok host -> covers_host before said host -> delta w host = Ok None.
Proof.
  intros Ha (Hsub & Hw & _) (ports & Hsaid & Hports & _). unfold delta. pose proof (Ha (scoped_ip (hr_rest host))) as Hk. rewrite Hsaid in Hk.
  destruct (w_hosts w !! scoped_ip (hr_rest host)) as [held|]; [|done]. destruct Hk as ((m & Em & Hm) & Hp). rewrite Hm. cbn [try_].
  rewrite (changed_ports_none held (hr_ports host) ports) by done. cbn [try_ mbind option_bind]. rewrite Em. cbn.
  by rewrite bool_decide_true.
Qed.

Lemma hold_each_deltas hosts recs w n : deltas_of written_default hosts = Ok recs ->
  exists n', hold_each hosts w n = Ok (foldl update w recs.*2, n').
Proof.
  revert recs w n. induction hosts as [|host hosts IH]; intros recs w n E; cbn [deltas_of hold_each] in *; [simplify_eq; by exists n|].
  destruct (delta written_default host) as [found|]; [|done]. cbn [try_] in *.
  destruct (deltas_of written_default hosts) as [recs'|]; [|done]. cbn [try_] in E. injection E as <-.
  destruct found as [[record d]|]; [|by apply IH]. cbn [fmap list_fmap snd foldl]. by apply IH.
Qed.

(** The marks a resumed sitting starts from are of the hosts it restored. *)
Lemma holding_agree hosts n : Forall host_ok hosts -> NoDup (key_of <$> hosts) ->
  exists w, holding hosts n = Ok w /\ Agree w (replay hosts) /\ forall host, host ∈ hosts -> covers_host ∅ (replay hosts) host.
Proof.
  intros Hok Hnd. destruct (batch_spec written_default hosts written_default ∅ agree_empty Hok Hnd (fun h _ => no_collision_nothing h)) as (recs & Hds & _ & Ha & Hcov & _); [done|].
  destruct (deltas_fresh hosts Hok) as (recs' & Hds' & E1 & _). rewrite Hds in Hds'. injection Hds' as <-. rewrite E1 in *.
  unfold holding. destruct (hold_each_deltas hosts recs written_default 0 Hds) as [n' ->]. by eexists.
Qed.

Lemma replay_elsewhere records k : k ∉ key_of <$> records -> replay records !! k = None.
Proof.
  unfold replay. induction records as [|r records IH] using rev_ind; intros Hk; [done|].
  rewrite fmap_app, not_elem_of_app in Hk. destruct Hk as [Hk1 Hk2]. cbn in Hk2. apply not_elem_of_cons in Hk2 as [Hk2 _].
  rewrite foldl_app. cbn [foldl]. unfold replay_record. rewrite lookup_insert_ne; [by apply IH|]. by intros <-.
Qed.

(** Marks of the hosts of [records ++ [x]]: of [y] and [x] only [y] is written. *)
Lemma deltas_held records x y w : Agree w (replay (records ++ [x])) -> covers_host ∅ (replay (records ++ [x])) x ->
  host_ok x -> host_ok y -> key_of y ∉ key_of <$> records ++ [x] -> exists d, deltas_of w [y; x] = Ok [(y, d)].
Proof.
  intros Ha Hcov Hx Hy Hk. destruct (delta_fresh y Hy) as (d & Hd & _). exists d. cbn [deltas_of].
  rewrite (delta_local w written_default y), Hd.
  - cbn [try_]. by rewrite (delta_covered w _ _ x Ha Hx Hcov).
  - cbn [w_hosts written_default]. rewrite lookup_empty. specialize (Ha (key_of y)). rewrite replay_elsewhere in Ha by done.
    by destruct (w_hosts w !! key_of y).
Qed.

(** A host lost to a resume.  A sitting killed between its last record's text and its
    newline leaves a file that reads with that record [x]; the next sitting restores [x],
    and its marks say the file holds it.  Recording another host [y] then cuts [x] off the
    file, and [x], recorded again as it is, is taken to be there: the call succeeds and
    the file says nothing of [x] any more. *)
Theorem resumed_record_is_lost records x y s :
  Forall host_ok (records ++ [x]) -> NoDup (key_of <$> records ++ [x]) -> key_of y ∉ key_of <$> records ++ [x] -> host_ok y ->
  to_string x = Ok s -> fits 64 (Z.of_nat (length (journal CARGO_PKG_VERSION records ++ utf8_encode s))) ->
  let file := Some (journal CARGO_PKG_VERSION records ++ utf8_encode s) in
  let n := Z.of_nat (length (default [] file)) in
  exists w j', read_file file = Ok (records ++ [x]) /\ holding (records ++ [x]) n = Ok w /\
    record_hosts {| j_file := file; j_written := w; j_length := n; compact_after := 0 |} [y; x] = (j', Ok tt) /\
    read_file (j_file j') = Ok (records ++ [y]) /\ replay (records ++ [y]) !! key_of x = None.
Proof.
  intros Hok Hnd Hk Hy Hs Hfits file n. assert (forall h, host_ok h -> writable h) as Hwr.
  { intros [rest ports] [Hsub _]. by apply Hsub. }
  assert (Forall writable (records ++ [x])) as [Hws Hx]%Forall_app by (eapply Forall_impl; [exact Hok|exact Hwr]).
  apply Forall_cons in Hx as [Hx _]. destruct (line_of_writable x Hx) as (s' & Hs' & _ & Hsc & Hn & _).
  rewrite Hs in Hs'. injection Hs' as <-. pose proof (newline_in_encode s Hsc Hn) as Htail.
  destruct (holding_agree (records ++ [x]) n Hok Hnd) as (w & Hhold & Ha & Hcov).
  apply Forall_app in Hok as [_ [Hokx _]%Forall_cons].
  destruct (deltas_held records x y w Ha (Hcov x ltac:(apply elem_of_app; right; by left)) Hokx Hy Hk) as [d Hd].
  exists w. unfold record_hosts. cbn [j_written j_file]. rewrite Hd. unfold open_for_append, file.
  rewrite (mend_tail CARGO_PKG_VERSION Hheader records (utf8_encode s) Hws Htail Hfits). cbn [from_option id fmap list_fmap fst snd].
  assert (Forall writable [y]) as Hwy by (constructor; [by apply Hwr|constructor]).
  rewrite write_each_lines by done. eexists. split_and!; [|done|done| |].
  - rewrite (read_file_torn CARGO_PKG_VERSION Hheader records x s (utf8_encode s) [] Hws Hx Hs (eq_sym (app_nil_r _))).
    by rewrite utf8_decode_encode.
  - cbn [j_file]. assert (journal CARGO_PKG_VERSION records ++ lines [y] = journal CARGO_PKG_VERSION (records ++ [y])) as ->.
    { unfold journal, lines. by rewrite bind_app, app_assoc. }
    apply (read_file_whole CARGO_PKG_VERSION Hheader). by apply Forall_app.
  - apply replay_elsewhere. rewrite fmap_app in *. apply NoDup_app in Hnd as (_ & Hdis & _). rewrite not_elem_of_app in *.
    split; [intros Hin; apply (Hdis _ Hin); by left|]. cbn in *. rewrite list_elem_of_singleton in *. intros E. apply (proj2 Hk). by symmetry.
Qed.
(** A compaction that fails leaves the findings file and the marks as they were, and is
    not tried again until as much again as the floor, or as what the file holds live, has
    been superseded. *)
Theorem failed_compaction_waits j all e j' j2 :
  0 <= superseded (j_written j) < umax 64 - Z.max COMPACT_FLOOR (sat_sub (j_length j) (superseded (j_written j))) ->
  compact j all = (j', Err e) ->
  (j_file j' = j_file j /\ j_written j' = j_written j /\ j_length j' = j_length j) /\
  should_compact j' = false /\
  (compact_after j2 = compact_after j' -> should_compact j2 = true ->
    Z.max COMPACT_FLOOR (sat_sub (j_length j) (superseded (j_written j))) <= superseded (j_written j2) - superseded (j_written j)).
Proof.
  intros Hs. unfold compact. destruct (write_whole j all) as [jw r] eqn:Ew. unfold write_whole in Ew.
  destruct (let? bytes := writer_create CARGO_PKG_VERSION [] in write_hosts bytes written_default all) as [[bytes w]|e'];
    injection Ew as <- <-; cbn [is_ok]; intros [= <- <-]. cbn [j_file j_written j_length].
  set (gap := Z.max COMPACT_FLOOR _) in *. assert (0 < gap) by (unfold gap, COMPACT_FLOOR; lia).
  split; [done|]. split.
  - unfold should_compact. cbn [j_length j_written compact_after]. apply andb_false_intro2, Z.leb_gt. unfold sat_add. lia.
  - unfold should_compact. cbn [compact_after]. intros -> [_ Hle%Z.leb_le]%andb_true_iff. unfold sat_add in Hle. lia.
Qed.

(** The count that decides when to compact: through any sequence of records remembered,
    every byte counted as written is either live, in the last record of its host or port,
    or superseded, and never both. *)
Theorem superseded_accounts ds :
  Forall delta_ok ds -> foldr (fun d acc => delta_bytes d + acc) 0 ds <= umax 64 ->
  superseded (foldl update written_default ds) + live (foldl update written_default ds) =
    foldr (fun d acc => delta_bytes d + acc) 0 ds.
Proof.
  intros Hds. assert (forall d, delta_ok d -> 0 <= delta_bytes d) as Hnn.
  { intros d [Hr Hp]. unfold delta_bytes. pose proof (foldr_sum_nonneg (fun port : PK * Mark => m_length port.2) _ Hp). lia. }
  assert (forall w, marks_ok w -> superseded w + live w + foldr (fun d acc => delta_bytes d + acc) 0 ds <= umax 64 ->
    superseded (foldl update w ds) + live (foldl update w ds) = superseded w + live w + foldr (fun d acc => delta_bytes d + acc) 0 ds) as H1.
  { induction Hds as [|d ds Hd Hds IH]; intros w Hw Hle; cbn [foldl foldr] in *; [lia|].
    assert (0 <= foldr (fun d acc => delta_bytes d + acc) 0 ds).
    { apply foldr_sum_nonneg. eapply Forall_impl; [exact Hds|exact Hnn]. }
    destruct (update_accounts w d Hw Hd ltac:(lia)) as [E Hw']. rewrite IH by (done || lia). lia. }
  intros Hle. apply (H1 written_default); [|done]. done.
Qed.
End Written.

(** ** Two hosts, one with a port *)

Module Findings.

#[export] Instance record_eq_dec : EqDecision (HostRecord bool bool).
Proof. solve_decision. Defined.

Definition host_serde : Serde (HostRecord bool bool) :=
  table_serde [(mkHostRecord true [], lit "{t}"); (mkHostRecord true [true], lit "{tp}"); (mkHostRecord false [], lit "{f}")].

Definition port_serde : Serde bool := table_serde [(true, lit "{p}"); (false, lit "{q}")].

Definition hash (bytes : list Z) : Z := foldl (fun acc b => acc * 256 + b) 0 bytes.

Lemma host_laws : @SerdeLaws (HostRecord bool bool) host_serde.
Proof. apply table_laws. apply (bool_decide_unpack _). vm_compute. exact I. Qed.

Lemma rest_digests r r' m m' :
  @mark hash _ host_serde (mkHostRecord (P := bool) r []) = Ok m -> @mark hash _ host_serde (mkHostRecord (P := bool) r' []) = Ok m' ->
  digest m = digest m' -> r = r'.
Proof. destruct r, r'; intros E1 E2; vm_compute in E1, E2; simplify_eq; cbn; done. Qed.

Lemma port_digests (p p' : bool) m m' :
  @mark hash _ port_serde p = Ok m -> @mark hash _ port_serde p' = Ok m' -> digest m = digest m' -> p = p'.
Proof. destruct p, p'; intros E1 E2; vm_compute in E1, E2; simplify_eq; cbn; done. Qed.

Definition host_true : HostRecord bool bool := mkHostRecord true [true].
Definition host_false : HostRecord bool bool := mkHostRecord false [].

Lemma host_true_ok : @host_ok unit bool bool (fun _ => tt) host_serde port_serde host_true.
Proof.
  split; [|split].
  - intros ports Hs. cbn in Hs. apply sublist_cons_r in Hs as [->%sublist_nil_r|(l & -> & ->%sublist_nil_r)];
      (eexists; split; [by vm_compute|by vm_compute]).
  - constructor; [|constructor]. exists (lit "{p}"). split; by vm_compute.
  - apply (bool_decide_unpack _). vm_compute. exact I.
Qed.

Lemma host_false_ok : @host_ok unit bool bool (fun _ => tt) host_serde port_serde host_false.
Proof.
  split; [|split; constructor]. intros ports ->%sublist_nil_r. exists (lit "{f}"). split; by vm_compute.
Qed.

Definition fresh : Journal (K := bool) (PK := unit) :=
  {| j_file := Some (@journal Torn.header_serde (lit "1") _ host_serde []); j_written := written_default; j_length := 0; compact_after := 0 |}.

Definition host_bare : HostRecord bool bool := mkHostRecord true [].

Lemma host_bare_ok : @host_ok unit bool bool (fun _ => tt) host_serde port_serde host_bare.
Proof.
  split; [|split; constructor]. intros ports ->%sublist_nil_r. exists (lit "{t}"). split; by vm_compute.
Qed.

(** The host without its port is on the file. *)
Definition after (w : Written) : Journal (K := bool) (PK := unit) :=
  {| j_file := Some (@journal Torn.header_serde (lit "1") _ host_serde [host_bare]); j_written := w; j_length := 8; compact_after := 0 |}.

End Findings.

Lemma record_hosts_remembers_witness : exists w j' added,
  @holding bool unit bool bool _ _ _ _ id (fun _ => tt) Findings.host_serde Findings.port_serde Findings.hash [Findings.host_bare] 8 = Ok w /\
  @record_hosts bool unit bool bool _ _ _ _ id (fun _ => tt) Torn.header_serde Findings.host_serde Findings.port_serde (lit "1") Findings.hash
    (Findings.after w) [Findings.host_true; Findings.host_false] = (j', Ok tt) /\
  @read_file Torn.header_serde _ Findings.host_serde (j_file j') = Ok ([Findings.host_bare] ++ added) /\
  @covers_host bool unit bool bool _ _ _ _ id (fun _ => tt) (@replay bool unit bool bool _ _ _ _ id (fun _ => tt) [Findings.host_bare])
    (@replay bool unit bool bool _ _ _ _ id (fun _ => tt) ([Findings.host_bare] ++ added)) Findings.host_true.
Proof.
  destruct (@holding_agree bool unit bool bool _ _ _ _ id (fun _ => tt) Findings.host_serde Findings.port_serde Findings.hash
    [Findings.host_bare] 8) as (w & Hw & Ha & _).
  { constructor; [apply Findings.host_bare_ok|constructor]. }
  { apply (bool_decide_unpack _). vm_compute. exact I. }
  destruct (@record_hosts_remembers bool unit bool bool _ _ _ _ id (fun _ => tt) Torn.header_serde Findings.host_serde Findings.port_serde
    (lit "1") Findings.hash Torn.header_laws Findings.host_laws Torn.header_writable
    (Findings.after w) [Findings.host_bare] [Findings.host_true; Findings.host_false]) as (j' & added & H1 & H2 & _ & H3 & _).
  - reflexivity.
  - constructor; [|constructor]. exists (lit "{t}"). split; by vm_compute.
  - by vm_compute.
  - exact Ha.
  - constructor; [apply Findings.host_true_ok|constructor; [apply Findings.host_false_ok|constructor]].
  - apply (bool_decide_unpack _). vm_compute. exact I.
  - intros host _ rest ports _. split; [intros m m'; apply Findings.rest_digests|intros q q' m m' _ _; apply Findings.port_digests].
  - exists w, j', added. split; [exact Hw|]. split; [exact H1|]. split; [exact H2|]. apply H3. by left.
Defined.

Lemma compact_rewrites_witness : exists j',
  @compact bool unit bool bool _ _ _ _ id (fun _ => tt) Torn.header_serde Findings.host_serde Findings.port_serde (lit "1") Findings.hash
    Findings.fresh [Findings.host_true; Findings.host_false] = (j', Ok tt) /\ should_compact j' = false.
Proof.
  destruct (@compact_rewrites bool unit bool bool _ _ _ _ id (fun _ => tt) Torn.header_serde Findings.host_serde Findings.port_serde
    (lit "1") Findings.hash Torn.header_laws Findings.host_laws Torn.header_writable
    Findings.fresh [Findings.host_true; Findings.host_false]) as (j' & H1 & _ & _ & _ & _ & H2).
  - constructor; [apply Findings.host_true_ok|constructor; [apply Findings.host_false_ok|constructor]].
  - apply (bool_decide_unpack _). vm_compute. exact I.
  - exists j'. split; [exact H1|exact H2].
Defined.

(** A host whose record has no text. *)
Lemma failed_compaction_waits_witness : exists j',
  @compact bool unit bool bool _ _ _ _ id (fun _ => tt) Torn.header_serde Findings.host_serde Findings.port_serde (lit "1") Findings.hash
    Findings.fresh [mkHostRecord true [false; false; true]] = (j', Err (Malformed 0 [])) /\ should_compact j' = false.
Proof.
  eexists. split; [vm_compute; reflexivity|].
  refine (proj1 (proj2 (@failed_compaction_waits bool unit bool bool _ _ _ _ id (fun _ => tt) Torn.header_serde Findings.host_serde
    Findings.port_serde (lit "1") Findings.hash Findings.fresh [mkHostRecord true [false; false; true]] (Malformed 0 []) _ Findings.fresh _ _))).
  - split; by vm_compute.
  - vm_compute. reflexivity.
Defined.

Lemma superseded_accounts_witness :
  let d := {| d_key := true; d_rest := {| digest := 1; m_length := 10 |}; d_ports := [(tt, {| digest := 2; m_length := 5 |})] |} in
  superseded (foldl update written_default [d; d]) + live (foldl update written_default [d; d]) = 30.
Proof.
  intros d. rewrite (superseded_accounts [d; d]); [reflexivity| |by vm_compute].
  repeat (constructor; try (by vm_compute)).
Defined.

Lemma resumed_record_is_lost_witness :
  exists w j', @record_hosts bool unit bool bool _ _ _ _ id (fun _ => tt) Torn.header_serde Findings.host_serde Findings.port_serde (lit "1") Findings.hash
    {| j_file := Some (@journal Torn.header_serde (lit "1") _ Findings.host_serde [] ++ utf8_encode (lit "{tp}"));
       j_written := w; j_length := 8; compact_after := 0 |} [Findings.host_false; Findings.host_true] = (j', Ok tt) /\
    @read_file Torn.header_serde _ Findings.host_serde (j_file j') = Ok [Findings.host_false].
Proof.
  destruct (@resumed_record_is_lost bool unit bool bool _ _ _ _ id (fun _ => tt) Torn.header_serde Findings.host_serde Findings.port_serde
    (lit "1") Findings.hash Torn.header_laws Findings.host_laws Torn.header_writable
    [] Findings.host_true Findings.host_false (lit "{tp}")) as (w & j' & _ & _ & H1 & H2 & _).
  - constructor; [apply Findings.host_true_ok|constructor].
  - apply (bool_decide_unpack _). vm_compute. exact I.
  - apply (bool_decide_unpack _). vm_compute. exact I.
  - apply Findings.host_false_ok.
  - by vm_compute.
  - by vm_compute.
  - exists w, j'. split; [exact H1|exact H2].
Defined.
