(* ===== verification/Lock.v ===== *)
(** * The journal's lock

    [src/src/journal/lock.rs]: what a lock file means ([classify], [LockState]), which
    locks may be broken ([Breaks]), and how a process takes, beats and gives up the lock
    ([acquire_inner], [beat], [release]).

    Several processes take one journal's lock at once, so the acquisition is a state
    machine: a process is in a [Phase], one per point of [acquire_inner] at which another
    process can act, and an [Event] is one process passing one of them.  The file system
    gives each event its atomicity: linking a whole file to a name that must be free,
    renaming over a name, removing a name, and an advisory lock on a sibling file that
    the kernel drops with its holder. *)

From Stdlib Require Import ZArith Lia String.
From stdpp Require Import base numbers option gmap list.
From S2P Require Import Prelude Std Text.

Local Open Scope Z_scope.

(** ** What a lock means *)

(** Times are in nanoseconds from the epoch. *)
Record LockRecord := { pid : Z; boot : text; started_at : Z; heartbeat : Z }.

Definition HEARTBEAT_STALE_AFTER : Z := 60 * 10 ^ 9.

(** [LockRecord::current], in the process [p] at the time [now]. *)
Definition record_current (p : Z) (boot_identity : text) (now : Z) : LockRecord :=
  {| pid := p; boot := boot_identity; started_at := now; heartbeat := now |}.

Definition beating_at (r : LockRecord) (now : Z) : LockRecord :=
  {| pid := pid r; boot := boot r; started_at := started_at r; heartbeat := now |}.

Inductive LockState :=
  | Free
  | Held (pid last_beat : Z)
  | Crashed (pid : Z)
  | RebootedUnder (pid : Z)
  | Stale (pid last_beat : Z).

Definition is_resumable (s : LockState) : bool :=
  match s with Free | Crashed _ | RebootedUnder _ => true | _ => false end.

Definition may_have_lost_the_tail (s : LockState) : bool :=
  match s with RebootedUnder _ => true | _ => false end.

(** [SystemTime::duration_since], zero where the clock went back. *)
Definition duration_since (now earlier : Z) : Z := sat_sub now earlier.

Definition classify (record : LockRecord) (current_boot : text) (pid_is_alive : bool) (now stale_after : Z) : LockState :=
  if bool_decide (boot record <> current_boot) then RebootedUnder (pid record)
  else if negb pid_is_alive then Crashed (pid record)
  else
    let last_beat := duration_since now (heartbeat record) in
    if stale_after <? last_beat then Stale (pid record) last_beat else Held (pid record) last_beat.

(** What is at the lock's name: nothing, a file that is not a record, or a record. *)
Definition lock_file : Type := option (option LockRecord).

(** [inspect], where nothing happens between its reading of the file, its question of the
    process and its reading of the clock.  [acquire_inner] asks the three one after the
    other while other processes run, so the machine below takes them apart. *)
Definition inspect (file : lock_file) (boot_identity : text) (pid_is_alive : Z -> bool) (now : Z) : LockState :=
  match file with
  | None => Free
  | Some None => Free
  | Some (Some record) => classify record boot_identity (pid_is_alive (pid record)) now HEARTBEAT_STALE_AFTER
  end.

Inductive Breaks := Dead | StaleToo | Anything.

Definition permits (b : Breaks) (state : LockState) : bool :=
  match b with
  | Dead => is_resumable state
  | StaleToo => is_resumable state || match state with Stale _ _ => true | _ => false end
  | Anything => true
  end.

Inductive LockRefused :=
  | RefusedHeld (state : LockState)
  | RefusedIo (message : text).

(** ** Taking it *)

Definition BREAK_ATTEMPTS : nat := 3.

(** Where a process is in [acquire_inner], with the rounds it has left, this one among
    them, and the refusal it has seen.  [Inspecting], [Asking] and [Dating] are within
    [inspect]: the file is to be read, the process it names to be asked after, and the
    clock to be read. *)
Inductive Phase :=
  | Creating (breaks : Breaks) (rounds : nat) (refusal : option LockState)
  | Guarding (breaks : Breaks) (rounds : nat) (refusal : option LockState)
  | Inspecting (breaks : Breaks) (rounds : nat)
  | Asking (breaks : Breaks) (rounds : nat) (record : LockRecord)
  | Dating (breaks : Breaks) (rounds : nat) (record : LockRecord) (alive : bool)
  | Removing (breaks : Breaks) (rounds : nat) (state : LockState)
  | Recreating (breaks : Breaks) (rounds : nat) (state : LockState)
  | Holding (record : LockRecord)
  | Refused (why : LockRefused)
  | Released
  | Gone.

(** A machine since it booted: the lock's name, the holder of the guard, and the processes. *)
Record Machine := { name : lock_file; guard : option Z; procs : gmap Z Phase; now : Z }.

Inductive Event :=
  | Start (p : Z) (breaks : Breaks)
  | Step (p : Z)
  | Beat (p : Z)
  | Release (p : Z)
  | Kill (p : Z)
  | Tick (now' : Z).

Section Machine.
Context (boot_identity : text).

(** A process that was killed is dead; one that never ran is, too. *)
Definition pid_is_alive (m : Machine) (p : Z) : bool :=
  match procs m !! p with Some Gone | None => false | Some _ => true end.

Definition set_phase (m : Machine) (p : Z) (phase : Phase) : Machine :=
  {| name := name m; guard := guard m; procs := <[p := phase]> (procs m); now := now m |}.

Definition set_name (m : Machine) (file : lock_file) : Machine :=
  {| name := file; guard := guard m; procs := procs m; now := now m |}.

Definition set_guard (m : Machine) (g : option Z) : Machine :=
  {| name := name m; guard := g; procs := procs m; now := now m |}.

(** [create_exclusively]: the name appears holding the record, or is taken. *)
Definition create_exclusively (m : Machine) (record : LockRecord) : option Machine :=
  match name m with None => Some (set_name m (Some (Some record))) | Some _ => None end.

(** The end of the loop over the rounds. *)
Definition next_round (breaks : Breaks) (rounds : nat) (refusal : option LockState) : Phase :=
  match rounds with
  | S (S _ as left) => Creating breaks left refusal
  | _ => Refused (match refusal with
                  | Some state => RefusedHeld state
                  | None => RefusedIo (lit "the lock could not be taken")
                  end)
  end.

(** What [inspect] came to, judged: the lock is refused and the guard given up, or it is
    to be removed. *)
Definition decide_state (m : Machine) (p : Z) (breaks : Breaks) (rounds : nat) (state : LockState) : Machine :=
  if negb (permits breaks state)
  then set_phase (set_guard m None) p (Refused (RefusedHeld state))
  else set_phase m p (Removing breaks rounds state).

(** One process goes on to the next point of [acquire_inner]; one that waits for the guard
    does not while another holds it. *)
Definition advance (m : Machine) (p : Z) (phase : Phase) : option Machine :=
  match phase with
  | Creating breaks rounds refusal =>
      let record := record_current p boot_identity (now m) in
      match create_exclusively m record with
      | Some m => Some (set_phase m p (Holding record))
      | None => Some (set_phase m p (Guarding breaks rounds refusal))
      end
  | Guarding breaks rounds refusal =>
      match guard m with
      | None => Some (set_phase (set_guard m (Some p)) p (Inspecting breaks rounds))
      | Some _ => None
      end
  | Inspecting breaks rounds =>
      match name m with
      | None | Some None => Some (decide_state m p breaks rounds Free)
      | Some (Some record) => Some (set_phase m p (Asking breaks rounds record))
      end
  | Asking breaks rounds record => Some (set_phase m p (Dating breaks rounds record (pid_is_alive m (pid record))))
  | Dating breaks rounds record alive =>
      Some (decide_state m p breaks rounds (classify record boot_identity alive (now m) HEARTBEAT_STALE_AFTER))
  | Removing breaks rounds state => Some (set_phase (set_name m None) p (Recreating breaks rounds state))
  | Recreating breaks rounds state =>
      let record := record_current p boot_identity (now m) in
      match create_exclusively m record with
      | Some m => Some (set_phase (set_guard m None) p (Holding record))
      | None => Some (set_phase (set_guard m None) p (next_round breaks rounds (Some state)))
      end
  | Holding _ | Refused _ | Released | Gone => None
  end.

(** A number is free for a process where none has it, a dead one's included, and a process
    that was refused or gave the lock up may try again. *)
Definition may_start (phase : option Phase) : bool :=
  match phase with None | Some (Gone | Refused _ | Released) => true | Some _ => false end.

Definition occur (m : Machine) (e : Event) : option Machine :=
  match e with
  | Start p breaks =>
      if may_start (procs m !! p) then Some (set_phase m p (Creating breaks BREAK_ATTEMPTS None)) else None
  | Step p => procs m !! p ≫= advance m p
  | Beat p =>
      match procs m !! p with
      | Some (Holding record) =>
          let record := beating_at record (now m) in
          Some (set_phase (set_name m (Some (Some record))) p (Holding record))
      | _ => None
      end
  | Release p =>
      match procs m !! p with
      | Some (Holding _) => Some (set_phase (set_name m None) p Released)
      | _ => None
      end
  | Kill p =>
      match procs m !! p with
      | Some Gone | None => None
      | Some _ =>
          let m := if bool_decide (guard m = Some p) then set_guard m None else m in
          Some (set_phase m p Gone)
      end
  | Tick now' => Some {| name := name m; guard := guard m; procs := procs m; now := now' |}
  end.

Fixpoint run_events (m : Machine) (events : list Event) : option Machine :=
  match events with [] => Some m | e :: events => occur m e ≫= fun m => run_events m events end.

(** A machine with what an earlier boot or an earlier process left at the name. *)
Definition booted (file : lock_file) (at_ : Z) : Machine := {| name := file; guard := None; procs := ∅; now := at_ |}.

Definition holds_lock (m : Machine) (p : Z) : Prop := exists record, procs m !! p = Some (Holding record).

(** ** Mutual exclusion *)

(** Every attempt breaks only what nothing holds. *)
Definition dead_only (e : Event) : Prop := match e with Start _ breaks => breaks = Dead | _ => True end.

Definition inspecting (phase : Phase) : bool := match phase with Inspecting _ _ => true | _ => false end.

(** No lock is given up while a process has the guard, and no process that has the guard
    finds the name gone. *)
Definition undisturbed_event (m : Machine) (e : Event) : bool :=
  match e with
  | Step p => negb (is_some_and (procs m !! p) inspecting && bool_decide (name m = None))
  | Release _ => bool_decide (guard m = None)
  | _ => true
  end.

Fixpoint undisturbed (m : Machine) (events : list Event) : bool :=
  match events with
  | [] => true
  | e :: events => undisturbed_event m e && match occur m e with Some m => undisturbed m events | None => true end
  end.

(** The phases in which a process has the guard. *)
Definition guarded (phase : Phase) : bool :=
  match phase with Inspecting _ _ | Asking _ _ _ | Dating _ _ _ _ | Removing _ _ _ | Recreating _ _ _ => true | _ => false end.

Definition breaks_of (phase : Phase) : Breaks :=
  match phase with
  | Creating b _ _ | Guarding b _ _ | Inspecting b _ | Asking b _ _ | Dating b _ _ _ | Removing b _ _ | Recreating b _ _ => b
  | _ => Dead
  end.

Definition unheld (m : Machine) : Prop := forall q record, procs m !! q <> Some (Holding record).

(** The record that was read is still at the name, but for its heartbeat. *)
Definition standing (m : Machine) (record : LockRecord) : Prop :=
  exists record', name m = Some (Some record') /\ pid record' = pid record /\ boot record' = boot record.

(** What a process that has the guard may rely on. *)
Definition judged (m : Machine) (phase : Phase) : Prop :=
  match phase with
  | Asking _ _ record => standing m record
  | Dating _ _ record alive => standing m record /\ (alive = false -> unheld m)
  | Removing _ _ _ => name m <> None /\ unheld m
  | _ => True
  end.

Record Safe (m : Machine) : Prop := {
  safe_dead p phase : procs m !! p = Some phase -> breaks_of phase = Dead;
  (** A holder's record is at the name. *)
  safe_name p record : procs m !! p = Some (Holding record) ->
    pid record = p /\ boot record = boot_identity /\ name m = Some (Some record);
  safe_guard p phase : procs m !! p = Some phase -> guarded phase = true -> guard m = Some p;
  safe_judged p phase : procs m !! p = Some phase -> judged m phase
}.

Lemma safe_booted file t : Safe (booted file t).
Proof. constructor; intros *; cbn; by rewrite lookup_empty. Qed.

Lemma judged_unguarded m phase : guarded phase = false -> judged m phase.
Proof. by destruct phase. Qed.

(** Nobody but the process with the guard relies on anything. *)
Lemma judged_other m m' p q phase : Safe m -> guard m = Some p -> q <> p -> procs m !! q = Some phase -> judged m' phase.
Proof.
  intros Hm Hg Hne Hq. apply judged_unguarded, not_true_iff_false. intros E.
  pose proof (safe_guard m Hm q phase Hq E). congruence.
Qed.

(** Nothing is relied on where the name is gone. *)
Lemma judged_gone m m' phase : name m = None -> judged m phase -> judged m' phase.
Proof.
  intros Hn. destruct phase; cbn; unfold standing; try done.
  - intros (r & E & _). congruence.
  - intros [(r & E & _) _]. congruence.
  - intros [E _]. done.
Qed.

Lemma judged_same m m' phase : name m' = name m -> (unheld m -> unheld m') -> judged m phase -> judged m' phase.
Proof. intros En Hu. destruct phase; cbn; unfold standing; rewrite ?En; try done; [|by intros [? ?]; auto]. intros [? H]. split; [done|]. intros E. auto. Qed.

Lemma unheld_insert m p phase : (forall record, phase <> Holding record) -> unheld m -> unheld (set_phase m p phase).
Proof. intros Hh Hu q rec Hq. cbn in Hq. apply lookup_insert_Some in Hq as [[_ E]|[_ Hq]]; [by apply Hh in E|by apply Hu in Hq]. Qed.

(** A holder's lock is standing, so a lock that stands and is not its own, or is of another
    boot, or whose process is dead, is nobody's. *)
Lemma standing_unheld m record : Safe m -> standing m record ->
  boot record <> boot_identity \/ pid_is_alive m (pid record) = false -> unheld m.
Proof.
  intros Hm (r & En & Ep & Eb) H q rec Hq. destruct (safe_name m Hm q rec Hq) as (Hp & Hb & E).
  rewrite En in E. injection E as <-. destruct H as [H|H]; [congruence|]. unfold pid_is_alive in H.
  rewrite <- Ep, Hp, Hq in H. done.
Qed.

(** *** Each event *)

(** A process goes on, with the guard as it was or given up by it. *)
Lemma safe_phase m p phase g : Safe m -> breaks_of phase = Dead -> (forall record, phase <> Holding record) ->
  g = guard m \/ guard m = Some p \/ guard m = None -> (guarded phase = true -> g = Some p) -> judged m phase ->
  Safe (set_phase (set_guard m g) p phase).
Proof.
  intros Hm Hd Hh Hg Hgp Hj.
  assert (forall f, judged m f -> judged (set_phase (set_guard m g) p phase) f) as Hkeep.
  { intros f. apply judged_same; [done|]. intros Hu. apply unheld_insert; [done|exact Hu]. }
  constructor; cbn [procs set_phase set_guard name guard].
  - intros q f [[_ <-]|[_ Hq]]%lookup_insert_Some; [done|by eapply safe_dead].
  - intros q rec [[_ E]|[_ Hq]]%lookup_insert_Some; [by apply Hh in E|by apply (safe_name m Hm)].
  - intros q f [[<- <-]|[Hne Hq]]%lookup_insert_Some Hf; [by apply Hgp|]. pose proof (safe_guard m Hm q f Hq Hf).
    destruct Hg as [->|[Hg|Hg]]; congruence.
  - intros q f [[_ <-]|[_ Hq]]%lookup_insert_Some; apply Hkeep; [done|by eapply safe_judged].
Qed.

Lemma safe_phase' m p phase : Safe m -> breaks_of phase = Dead -> (forall record, phase <> Holding record) ->
  (guarded phase = true -> guard m = Some p) -> judged m phase -> Safe (set_phase m p phase).
Proof.
  intros Hm Hd Hh Hg Hj. assert (set_phase m p phase = set_phase (set_guard m (guard m)) p phase) as -> by done.
  apply safe_phase; auto.
Qed.

(** Taking the free name, and giving the guard up where it was had. *)
Lemma safe_create m p record g : Safe m -> name m = None -> pid record = p -> boot record = boot_identity ->
  g = guard m \/ guard m = Some p ->
  Safe (set_phase (set_guard (set_name m (Some (Some record))) g) p (Holding record)).
Proof.
  intros Hm Hn Hp Hb Hg. constructor; cbn [procs set_phase set_name set_guard name guard].
  - intros q f [[_ <-]|[_ Hq]]%lookup_insert_Some; [done|by eapply safe_dead].
  - intros q rec [[<- [= <-]]|[_ Hq]]%lookup_insert_Some; [done|]. destruct (safe_name m Hm q rec Hq) as (_ & _ & E). congruence.
  - intros q f [[_ <-]|[Hne Hq]]%lookup_insert_Some Hf; [done|]. pose proof (safe_guard m Hm q f Hq Hf). destruct Hg; congruence.
  - intros q f [[_ <-]|[_ Hq]]%lookup_insert_Some; [done|]. eapply judged_gone; [exact Hn|by eapply safe_judged].
Qed.

(** There is one holder at most, since there is one name. *)
Lemma safe_one m p q rp rq : Safe m -> procs m !! p = Some (Holding rp) -> procs m !! q = Some (Holding rq) -> p = q.
Proof.
  intros Hm Hp Hq. destruct (safe_name m Hm p rp Hp) as (<- & _ & Ep). destruct (safe_name m Hm q rq Hq) as (<- & _ & Eq). congruence.
Qed.

(** A holder beats: its lock stands. *)
Lemma safe_beat m p record : Safe m -> procs m !! p = Some (Holding record) ->
  let record := beating_at record (now m) in Safe (set_phase (set_name m (Some (Some record))) p (Holding record)).
Proof.
  intros Hm Hp record'. destruct (safe_name m Hm p record Hp) as (Ep & Eb & En).
  constructor; cbn [procs set_phase set_name name guard].
  - intros q f [[_ <-]|[_ Hq]]%lookup_insert_Some; [done|by eapply safe_dead].
  - intros q rec [[<- [= <-]]|[Hne Hq]]%lookup_insert_Some; [done|]. destruct Hne. by eapply safe_one.
  - intros q f [[_ <-]|[_ Hq]]%lookup_insert_Some Hf; [done|by apply (safe_guard m Hm q f)].
  - assert (~ unheld m) as Hheld by (intros Hu; by apply Hu in Hp).
    assert (forall r, standing m r -> standing (set_phase (set_name m (Some (Some record'))) p (Holding record')) r) as Hst.
    { intros r (r' & E & ? & ?). rewrite En in E. injection E as <-. by exists record'. }
    intros q f [[_ <-]|[_ Hq]]%lookup_insert_Some; [done|]. pose proof (safe_judged m Hm q f Hq) as Hj.
    destruct f; cbn in Hj |- *; try done; [by apply Hst| |by destruct Hj].
    destruct Hj as [Hs Hd]. split; [by apply Hst|]. intros E. by apply Hd in E.
Qed.

(** A holder gives the lock up while nobody has the guard. *)
Lemma safe_release m p record : Safe m -> procs m !! p = Some (Holding record) -> guard m = None ->
  Safe (set_phase (set_name m None) p Released).
Proof.
  intros Hm Hp Hg. constructor; cbn [procs set_phase set_name name guard].
  - intros q f [[_ <-]|[_ Hq]]%lookup_insert_Some; [done|by eapply safe_dead].
  - intros q rec [[_ E]|[Hne Hq]]%lookup_insert_Some; [done|]. destruct Hne. by eapply safe_one.
  - intros q f [[_ <-]|[_ Hq]]%lookup_insert_Some Hf; [done|by apply (safe_guard m Hm q f)].
  - intros q f [[_ <-]|[_ Hq]]%lookup_insert_Some; [done|]. apply judged_unguarded, not_true_iff_false. intros Hf.
    pose proof (safe_guard m Hm q f Hq Hf). congruence.
Qed.

Lemma safe_remove m p breaks rounds state : Safe m -> procs m !! p = Some (Removing breaks rounds state) ->
  Safe (set_phase (set_name m None) p (Recreating breaks rounds state)).
Proof.
  intros Hm Hp. destruct (safe_judged m Hm p _ Hp) as [_ Hno]. pose proof (safe_guard m Hm p _ Hp eq_refl) as Hg.
  constructor; cbn [procs set_phase set_name name guard].
  - intros q f [[_ <-]|[_ Hq]]%lookup_insert_Some; [by apply (safe_dead m Hm p _ Hp)|by eapply safe_dead].
  - intros q rec [[_ E]|[_ Hq]]%lookup_insert_Some; [done|by apply Hno in Hq].
  - intros q f [[<- _]|[_ Hq]]%lookup_insert_Some Hf; [done|by apply (safe_guard m Hm q f)].
  - intros q f [[_ <-]|[Hne Hq]]%lookup_insert_Some; [done|]. by eapply judged_other.
Qed.

(** What was judged dead, and may go. *)
Lemma safe_decide m p rounds state : Safe m -> guard m = Some p ->
  (is_resumable state = true -> name m <> None /\ unheld m) -> Safe (decide_state m p Dead rounds state).
Proof.
  intros Hm Hg Hr. unfold decide_state. cbn [permits]. destruct (is_resumable state) eqn:E; cbn [negb].
  - apply safe_phase'; [done..|by apply Hr].
  - apply safe_phase; [done|done|done|auto|done|done].
Qed.

Lemma safe_dating m rounds record alive p : Safe m -> guard m = Some p -> judged m (Dating Dead rounds record alive) ->
  Safe (decide_state m p Dead rounds (classify record boot_identity alive (now m) HEARTBEAT_STALE_AFTER)).
Proof.
  intros Hm Hg [Hs Hd]. apply safe_decide; [done|done|]. intros Hr. split; [destruct Hs as (r & -> & _); done|].
  unfold classify in Hr. case_bool_decide as Eb; [by eapply standing_unheld; [|exact Hs|left]|].
  destruct alive; [|by apply Hd]. cbn in Hr. by case_match.
Qed.

Lemma safe_advance m p phase m' : Safe m -> procs m !! p = Some phase -> (inspecting phase = true -> name m <> None) ->
  advance m p phase = Some m' -> Safe m'.
Proof.
  intros Hm Hp Hfound. pose proof (safe_dead m Hm p phase Hp) as Hd. pose proof (safe_guard m Hm p phase Hp) as Hg.
  pose proof (safe_judged m Hm p phase Hp) as Hj. unfold advance, create_exclusively.
  destruct phase as [b r f|b r f|b r|b r rec|b r rec alive|b r s|b r s|rec|why| |]; cbn in Hd; subst; try done.
  - destruct (name m) eqn:En; intros [= <-]; [by apply safe_phase'|].
    assert (set_name m (Some (Some (record_current p boot_identity (now m)))) = set_guard (set_name m (Some (Some (record_current p boot_identity (now m))))) (guard m)) as -> by done.
    apply safe_create; auto.
  - destruct (guard m) eqn:Eg; [done|]. intros [= <-]. apply safe_phase; auto; done.
  - destruct (name m) as [[rec|]|] eqn:En; intros [= <-]; [| |by specialize (Hfound eq_refl)].
    + apply safe_phase'; [done|done|done|auto|]. exists rec. by rewrite En.
    + apply safe_decide; [done|auto|]. intros _. split; [by rewrite En|]. intros q rec Hq.
      destruct (safe_name m Hm q rec Hq) as (_ & _ & E). congruence.
  - intros [= <-]. apply safe_phase'; [done|done|done|auto|]. split; [done|]. intros Ha.
    apply (standing_unheld m rec); auto.
  - intros [= <-]. apply safe_dating; auto.
  - intros [= <-]. by apply safe_remove.
  - specialize (Hg eq_refl). destruct (name m) eqn:En; intros [= <-].
    + apply safe_phase; auto; destruct r as [|[|r]]; done.
    + apply safe_create; auto.
Qed.

Lemma safe_act m e m' : Safe m -> dead_only e -> undisturbed_event m e = true -> occur m e = Some m' -> Safe m'.
Proof.
  intros Hm Hd Hf. destruct e as [p b|p|p|p|p|t]; cbn [occur].
  - cbn in Hd. subst b. destruct (may_start _); [|done]. intros [= <-]. by apply safe_phase'.
  - destruct (procs m !! p) as [phase|] eqn:Ep; [|done]. cbn. apply safe_advance; [done|done|].
    cbn in Hf. rewrite Ep in Hf. cbn in Hf. intros Ei En. rewrite Ei, bool_decide_true in Hf; done.
  - destruct (procs m !! p) as [[]|] eqn:Ep; try done. intros [= <-]. by apply safe_beat.
  - destruct (procs m !! p) as [[]|] eqn:Ep; try done. intros [= <-]. apply bool_decide_eq_true in Hf. by eapply safe_release.
  - destruct (procs m !! p) as [phase|] eqn:Ep; [|done].
    assert (Safe (set_phase (if bool_decide (guard m = Some p) then set_guard m None else m) p Gone)) as H.
    { case_bool_decide; [apply safe_phase; auto; done|by apply safe_phase']. }
    destruct phase; try done; by intros [= <-].
  - intros [= <-]. destruct Hm. by constructor.
Qed.

Lemma safe_run events m m' : Safe m -> Forall dead_only events -> undisturbed m events = true ->
  run_events m events = Some m' -> Safe m'.
Proof.
  intros Hm Hall. revert m Hm. induction Hall as [|e events He _ IH]; intros m Hm Hf Hr; cbn [run_events undisturbed] in *; [by simplify_eq|].
  apply andb_true_iff in Hf as [Hf Hfs]. destruct (occur m e) as [m1|] eqn:Ea; [|done]. cbn in Hr. apply (IH m1); [|done|done].
  by eapply (safe_act m e).
Qed.

(** C5: Mutual exclusion.  Processes that break only dead locks start, interleave at every
    point of [acquire_inner] and of the [inspect] within it, beat, release, die and come
    again, under numbers that may be reissued and a clock that may be set, whatever file
    was at the name.  As long as no lock is released while a process has the guard, and no
    process that has the guard finds the name gone, at most one of them holds the lock.
    Each process makes one attempt at a time.  Without either condition two can hold it. *)
Theorem one_holder file t events m p q :
  run_events (booted file t) events = Some m -> Forall dead_only events ->
  undisturbed (booted file t) events = true ->
  holds_lock m p -> holds_lock m q -> p = q.
Proof.
  intros Hr Hd Hf [rp Hp] [rq Hq]. eapply safe_one; [|exact Hp|exact Hq].
  eapply safe_run; [apply safe_booted|exact Hd|exact Hf|exact Hr].
Qed.

(** *** A process alone *)

Lemma step_advance m p phase : procs m !! p = Some phase -> occur m (Step p) = advance m p phase.
Proof. intros E. cbn [occur]. by rewrite E. Qed.

(** One step more of what one process does alone. *)
Lemma alone_steps m p phase m1 n m' : procs m !! p = Some phase -> advance m p phase = Some m1 ->
  run_events m1 (repeat (Step p) n) = Some m' -> run_events m (repeat (Step p) (S n)) = Some m'.
Proof. intros Hp Ha E. cbn [repeat run_events]. by rewrite (step_advance m p phase), Ha. Qed.

(** What a process comes to once it has judged: the lock, or a refusal. *)
Lemma alone_decided m p breaks rounds state :
  exists n m', (n <= 2)%nat /\ run_events (decide_state m p breaks rounds state) (repeat (Step p) n) = Some m' /\
    if permits breaks state then holds_lock m' p else procs m' !! p = Some (Refused (RefusedHeld state)).
Proof.
  unfold decide_state. destruct (permits breaks state); cbn [negb].
  - exists 2%nat. eexists. split; [done|]. split.
    + eapply alone_steps; [apply lookup_insert_eq|done|]. eapply alone_steps; [apply lookup_insert_eq|done|done].
    + eexists. apply lookup_insert_eq.
  - exists 0%nat. eexists. split; [lia|]. split; [done|]. apply lookup_insert_eq.
Qed.

Lemma alive_phase m m' p phase q : procs m !! p = Some phase -> phase <> Gone -> (exists phase', phase' <> Gone /\ procs m' = <[p := phase']> (procs m)) ->
  pid_is_alive m' q = pid_is_alive m q.
Proof.
  intros Hp Hne (phase' & Hne' & E). unfold pid_is_alive. rewrite E. destruct (decide (p = q)) as [<-|]; [|by rewrite lookup_insert_ne].
  rewrite lookup_insert_eq, Hp. by destruct phase, phase'.
Qed.

(** What a process that has the guard comes to, while no other moves. *)
Lemma alone_inspects m p breaks rounds : procs m !! p = Some (Inspecting breaks rounds) ->
  let state := inspect (name m) boot_identity (pid_is_alive m) (now m) in
  exists n m', (n <= 5)%nat /\ run_events m (repeat (Step p) n) = Some m' /\
    if permits breaks state then holds_lock m' p else procs m' !! p = Some (Refused (RefusedHeld state)).
Proof.
  intros Hp state. destruct (name m) as [[record|]|] eqn:En.
  - destruct (alone_decided (set_phase (set_phase m p (Asking breaks rounds record)) p (Dating breaks rounds record (pid_is_alive m (pid record))))
      p breaks rounds state) as (n & m' & Hn & Hr & Hd).
    exists (S (S (S n))), m'. split; [lia|]. split; [|done].
    eapply alone_steps; [exact Hp|unfold advance; by rewrite En|]. eapply alone_steps; [apply lookup_insert_eq|done|].
    eapply alone_steps; [apply lookup_insert_eq|done|].
    rewrite (alive_phase m (set_phase m p (Asking breaks rounds record)) p (Inspecting breaks rounds) _ Hp); [exact Hr|done|]. by eexists (Asking _ _ _).
  - destruct (alone_decided m p breaks rounds Free) as (n & m' & Hn & Hr & Hd). exists (S n), m'. split; [lia|]. split; [|done].
    eapply alone_steps; [exact Hp|unfold advance; by rewrite En|done].
  - destruct (alone_decided m p breaks rounds Free) as (n & m' & Hn & Hr & Hd). exists (S n), m'. split; [lia|]. split; [|done].
    eapply alone_steps; [exact Hp|unfold advance; by rewrite En|done].
Qed.

(** A process that tries for the lock while no other moves gets an answer in a bounded
    number of steps, and the right one: the lock, where the name is free or what is at it
    may be broken, and otherwise a refusal that says what [inspect] says of the lock. *)
Theorem alone_is_answered m p breaks :
  guard m = None -> may_start (procs m !! p) = true ->
  let started := set_phase m p (Creating breaks BREAK_ATTEMPTS None) in
  let state := inspect (name m) boot_identity (pid_is_alive started) (now m) in
  exists n m', (n <= 7)%nat /\ run_events m (Start p breaks :: repeat (Step p) n) = Some m' /\
    if permits breaks state || bool_decide (name m = None)
    then holds_lock m' p else procs m' !! p = Some (Refused (RefusedHeld state)).
Proof.
  intros Hg Hp started state. cbn [run_events occur]. rewrite Hp. cbn [mbind option_bind]. fold started.
  assert (procs started !! p = Some (Creating breaks BREAK_ATTEMPTS None)) as H1 by apply lookup_insert_eq.
  destruct (name m) as [file|] eqn:En.
  2:{ exists 1%nat. eexists. split; [lia|]. split.
      - eapply alone_steps; [exact H1|unfold advance, create_exclusively; cbn; by rewrite En|done].
      - rewrite bool_decide_true, orb_true_r by done. eexists. apply lookup_insert_eq. }
  rewrite bool_decide_false, orb_false_r by done.
  set (m3 := set_phase (set_guard (set_phase started p (Guarding breaks BREAK_ATTEMPTS None)) (Some p)) p (Inspecting breaks BREAK_ATTEMPTS)).
  destruct (alone_inspects m3 p breaks BREAK_ATTEMPTS) as (n & m' & Hn & Hr & Hd); [apply lookup_insert_eq|].
  assert (inspect (name m3) boot_identity (pid_is_alive m3) (now m3) = state) as Es.
  { unfold state. cbn [name m3 started set_phase set_guard now]. rewrite En. destruct file as [record|]; [|done]. cbn.
    rewrite (alive_phase started m3 p (Creating breaks BREAK_ATTEMPTS None)); [done|done|done|].
    eexists. split; [|cbn; rewrite insert_insert_eq; reflexivity]. done. }
  rewrite Es in Hd. exists (S (S n)), m'. split; [lia|]. split; [|done].
  eapply alone_steps; [exact H1|unfold advance, create_exclusively; cbn; by rewrite En|].
  eapply alone_steps; [apply lookup_insert_eq|unfold advance; cbn; by rewrite Hg|exact Hr].
Qed.
End Machine.

(** *** Exclusion can be lost *)

(** One process holds the lock and a second waits for the guard when the first releases;
    the second finds the name gone and takes it to be free; a third takes the free name;
    the second removes what is at the name, which is the third's lock, and takes it too.
    Both hold, and every attempt broke only dead locks. *)
Theorem release_lets_two_hold boot :
  exists events m, Forall dead_only events /\ run_events boot (booted None 0) events = Some m /\
    holds_lock m 2 /\ holds_lock m 3.
Proof.
  exists [Start 1 Dead; Step 1; Start 2 Dead; Step 2; Release 1; Step 2; Step 2; Start 3 Dead; Step 3; Step 2; Step 2].
  eexists. split; [by repeat constructor|]. split; [reflexivity|]. split; eexists; reflexivity.
Qed.

(** So can it where the lock is released within [inspect].  A second process has the guard
    and has read the first's record when the first releases the lock and exits; a third
    takes the free name; the second finds the process of the record it read dead, removes
    the third's lock and takes it too. *)
Theorem release_within_inspect_lets_two_hold :
  exists boot events m, Forall dead_only events /\ run_events boot (booted None 0) events = Some m /\
    holds_lock m 2 /\ holds_lock m 3.
Proof.
  exists [], [Start 1 Dead; Step 1; Start 2 Dead; Step 2; Step 2; Step 2; Release 1; Kill 1; Start 3 Dead; Step 3; Step 2; Step 2; Step 2; Step 2].
  eexists. split; [by repeat constructor|]. split; [vm_compute; reflexivity|]. split; eexists; vm_compute; reflexivity.
Qed.

Lemma one_holder_witness :
  match run_events [] (booted (Some (Some (record_current 7 [] 0))) 5)
    [Start 1 Dead; Start 2 Dead; Step 1; Step 2; Step 1; Step 1; Step 1; Tick 3; Step 1; Step 1; Step 1; Beat 1; Step 2; Step 2; Step 2; Step 2] with
  | Some m => holds_lock m 1 /\ (exists state, procs m !! 2 = Some (Refused (RefusedHeld state))) /\ forall q, holds_lock m q -> 1 = q
  | None => False
  end.
Proof.
  destruct (run_events [] _ _) as [m|] eqn:E; [|vm_compute in E; discriminate].
  assert (holds_lock m 1 /\ exists state, procs m !! 2 = Some (Refused (RefusedHeld state))) as [H1 H2].
  { vm_compute in E. injection E as <-. split; eexists; reflexivity. }
  split; [exact H1|]. split; [exact H2|]. intros q Hq.
  refine (one_holder [] _ _ _ m 1 q E _ _ H1 Hq); [repeat constructor|vm_compute; reflexivity].
Defined.

Lemma alone_is_answered_witness :
  exists n m', (n <= 7)%nat /\ run_events [] (booted (Some (Some (record_current 7 [] 0))) 5) (Start 1 Dead :: repeat (Step 1) n) = Some m' /\ holds_lock m' 1.
Proof.
  destruct (alone_is_answered [] (booted (Some (Some (record_current 7 [] 0))) 5) 1 Dead) as (n & m' & H1 & H2 & H3); [reflexivity|reflexivity|].
  exists n, m'. split; [exact H1|]. split; [exact H2|]. vm_compute in H3. exact H3.
Defined.
