(* ===== verification/Target.v ===== *)
(** * Targets

    [src/src/model/target.rs]: address sets paired with port sets, and the index
    that gives every (address, port, transport) of a plan a position.  The
    position is what a scan journals, so the index has to agree with the iterator
    the scan walks. *)

From Stdlib Require Import ZArith Lia.
From stdpp Require Import base numbers sets sorting option list.
From S2P Require Import Prelude Std Intervals IpRange IpSet Numbering Positions PortSet.

Local Open Scope Z_scope.
Local Open Scope word_scope.

(** ** Definitions *)

Inductive TargetError := CapacityOverflow.

Record Target := mkTarget {
  t_ip : IpAddr;
  t_port : Z;
  t_protocol : Protocol;
}.

#[export] Instance Target_eq_dec : EqDecision Target.
Proof. solve_decision. Defined.

Record PlannedTarget := mkPlanned {
  pt_position : Z;
  pt_target : Target;
}.

Record TargetSet := mkTargetSet {
  ts_ips : IpSet;
  ts_ports : PortSet;
}.

Definition targetset_new (ips : IpSet) (ports : PortSet) : TargetSet :=
  mkTargetSet (canonicalize ips) ports.

Definition ip_count (s : TargetSet) : Z := ipset_len (ts_ips s).

Definition port_count (s : TargetSet) : Z := portset_len (ts_ports s).

Definition total_targets (s : TargetSet) : Result Z TargetError :=
  let port_len := portset_len (ts_ports s) in
  match checked_mul 128 (ipset_len (ts_ips s)) port_len with
  | Some n => Ok n
  | None => Err CapacityOverflow
  end.

Definition targetset_iter (s : TargetSet) : list Target :=
  let ports := portset_iter (ts_ports s) in
  ipset_iter (ts_ips s) ≫= fun ip => (fun '(port, protocol) => mkTarget ip port protocol) <$> ports.

Definition targetset_is_empty (s : TargetSet) : bool :=
  ipset_is_empty (ts_ips s) || portset_is_empty (ts_ports s).

(** A [TargetMap] is its vector of units. *)
Record TargetMap := mkTargetMap { units : list TargetSet }.

Definition add_unit (m : TargetMap) (unit : TargetSet) : TargetMap := mkTargetMap (units m ++ [unit]).

Definition names (m : TargetMap) (protocol : Protocol) : bool :=
  existsb (fun unit => negb (is_nil (ranges (ts_ports unit) protocol))) (units m).

(** The loop of [gross_targets] and [gross_ips]. *)
Fixpoint gross_from (count : TargetSet -> Result Z TargetError) (total : Z) (l : list TargetSet)
    : Result Z TargetError :=
  match l with
  | [] => Ok total
  | unit :: rest =>
      let? unit_total := count unit in
      match checked_add 128 total unit_total with
      | Some total => gross_from count total rest
      | None => Err CapacityOverflow
      end
  end.

Definition gross_targets (m : TargetMap) : Result Z TargetError := gross_from total_targets 0 (units m).

Definition gross_ips (m : TargetMap) : Result Z TargetError :=
  gross_from (fun unit => Ok (ip_count unit)) 0 (units m).

Definition targetmap_is_empty (m : TargetMap) : bool :=
  is_nil (units m) || forallb targetset_is_empty (units m).

Definition targetmap_iter (m : TargetMap) : list Target := units m ≫= targetset_iter.

Definition withhold_ports (m : TargetMap) (excluded : PortSet) : TargetMap :=
  if portset_is_empty excluded then m
  else
    mkTargetMap (omap (fun unit =>
      let kept := difference (ts_ports unit) excluded in
      then_some (negb (portset_is_empty kept)) (targetset_new (ts_ips unit) kept)) (units m)).

(** The unit [keep_v6] rebuilds, with the IPv6 ranges [keep] refuses left out. *)
Definition kept_ips (keep : Ipv6Range -> bool) (ips : IpSet) : IpSet :=
  canonicalize
    (fold_left (fun left range => if keep range then push_v6_range left range else left) (ips_v6 ips)
       (fold_left push_v4_range (ips_v4 ips) ipset_new)).

Definition keep_v6 (m : TargetMap) (keep : Ipv6Range -> bool) : TargetMap :=
  mkTargetMap (omap (fun unit =>
    let left := kept_ips keep (ts_ips unit) in
    then_some (negb (ipset_is_empty left)) (targetset_new left (ts_ports unit))) (units m)).

(** *** The index *)

Record UnitIndex := mkUnitIndex {
  u_addresses : Positions;
  u_ports : list (Z * Protocol);
  u_start : Z;
  u_len : Z;
  u_first_host : Z;
}.

Record TargetIndex := mkTargetIndex {
  ti_units : list UnitIndex;
  ti_total : Z;
  ti_hosts : Z;
  ti_complete : bool;
  ti_unnumbered : list IpRange;
}.

(** What the units from [rest] on contribute once one of them cannot be counted. *)
Definition left_out_of (rest : list TargetSet) : list IpRange :=
  filter (fun unit => portset_is_empty (ts_ports unit) = false) rest ≫= fun unit => set_ranges (ts_ips unit).

Fixpoint index_units (i : TargetIndex) (rest : list TargetSet) : TargetIndex :=
  match rest with
  | [] => i
  | unit :: after =>
      let addresses := positions_of (ts_ips unit) in
      let ports := portset_iter (ts_ports unit) in
      if is_nil ports then index_units i after
      else
        let counted :=
          option_filter (fun _ => is_nil (unnumbered addresses))
            (try_into 64 (zlen ports) ≫= fun ports => checked_mul 64 (pos_total addresses) ports) in
        match option_filter (fun len => bool_decide (is_Some (checked_add 64 (ti_total i) len))) counted with
        | None =>
            mkTargetIndex (ti_units i) (ti_total i) (ti_hosts i) false
              (ti_unnumbered i ++ left_out_of rest)
        | Some len =>
            index_units
              (mkTargetIndex
                 (ti_units i ++ [mkUnitIndex addresses ports (ti_total i) len (ti_hosts i)])
                 (ti_total i +[64] len) (ti_hosts i +[64] pos_total addresses)
                 (ti_complete i) (ti_unnumbered i))
              after
        end
  end.

Definition index_of_map (m : TargetMap) : TargetIndex :=
  index_units (mkTargetIndex [] 0 0 true []) (units m).

Definition unit_at (i : TargetIndex) (position : Z) : option UnitIndex :=
  if ti_total i <=? position then None
  else
    match (match binary_search_by (fun unit => u_start unit ?= position) (ti_units i) with
           | Ok index => Some index
           | Err O => None
           | Err (S index) => Some index
           end) with
    | None => None
    | Some index =>
        option_filter (fun unit => position <? u_start unit +[64] u_len unit) (ti_units i !! index)
    end.

Definition target_at (i : TargetIndex) (position : Z) : option Target :=
  unit_at i position ≫= fun unit =>
  let local := position -[64] u_start unit in
  let ports := zlen (u_ports unit) in
  zlookup (u_ports unit) (local mod ports) ≫= fun '(port, protocol) =>
  address_at (u_addresses unit) (local / ports) ≫= fun ip =>
  Some (mkTarget ip port protocol).

(** The loop of [addresses_in] over the units from the first one reached. *)
Fixpoint addresses_from (first stop : Z) (l : list UnitIndex) : list IpRange :=
  match l with
  | [] => []
  | unit :: rest =>
      if stop <=? u_start unit then []
      else
        let from := Z.max first (u_start unit) -[64] u_start unit in
        let to_ := Z.min stop (u_start unit +[64] u_len unit) -[64] u_start unit in
        if to_ <=? from then addresses_from first stop rest
        else
          let ports := zlen (u_ports unit) in
          ranges_in (u_addresses unit) (from / ports) ((to_ -[64] 1) / ports +[64] 1) ++
          addresses_from first stop rest
  end.

Definition addresses_in (i : TargetIndex) (first last : Z) : list IpRange :=
  let stop := Z.min last (ti_total i) in
  let at_ := partition_point (fun unit => u_start unit +[64] u_len unit <=? first) (ti_units i) in
  addresses_from first stop (drop at_ (ti_units i)).

Definition runs_at (i : TargetIndex) (ip : IpAddr) : list (Z * Z) :=
  omap (fun unit =>
    let ports := zlen (u_ports unit) in
    pos_find (u_addresses unit) ip ≫= fun at_ =>
    let start := u_start unit +[64] (at_ *[64] ports) in
    Some (start, start +[64] ports)) (ti_units i).

Definition host_run (i : TargetIndex) (host : Z) : Z * Z :=
  let at_ := partition_point
    (fun unit => u_first_host unit +[64] pos_total (u_addresses unit) <=? host) (ti_units i) in
  match ti_units i !! at_ with
  | None => (ti_total i, ti_total i)
  | Some unit =>
      let ports := zlen (u_ports unit) in
      let start := u_start unit +[64] ((host -[64] u_first_host unit) *[64] ports) in
      (start, start +[64] ports)
  end.

Definition host_of (i : TargetIndex) (position : Z) : Z :=
  match unit_at i position with
  | Some unit => u_first_host unit +[64] ((position -[64] u_start unit) / zlen (u_ports unit))
  | None => ti_hosts i
  end.

(** ** Well-formed plans *)

Definition targetset_ok (s : TargetSet) : Prop := ipset_ok (ts_ips s) /\ portset_ok (ts_ports s).

Definition targetmap_ok (m : TargetMap) : Prop := Forall targetset_ok (units m).

Definition on_ports (ports : list (Z * Protocol)) (ip : IpAddr) : list Target :=
  (fun '(port, protocol) => mkTarget ip port protocol) <$> ports.

Lemma on_ports_len ports ip : zlen (on_ports ports ip) = zlen ports.
Proof. unfold zlen, on_ports. by rewrite length_fmap. Qed.

Lemma on_ports_lookup ports ip k :
  zlookup (on_ports ports ip) k = (fun '(port, protocol) => mkTarget ip port protocol) <$> zlookup ports k.
Proof. apply zlookup_fmap. Qed.

Lemma targetset_iter_rows s : targetset_iter s = ipset_iter (ts_ips s) ≫= on_ports (portset_iter (ts_ports s)).
Proof. done. Qed.

Lemma targetset_iter_len s :
  zlen (targetset_iter s) = zlen (ipset_iter (ts_ips s)) * zlen (portset_iter (ts_ports s)).
Proof. rewrite targetset_iter_rows. apply zlen_rows, on_ports_len. Qed.

Lemma zlen_pos {A} (l : list A) : l <> [] -> 0 < zlen l.
Proof. unfold zlen. destruct l; [done|]. simpl. lia. Qed.

Lemma zlen_iter_scoped s : zlen (ipset_iter s) = zlen (iter_scoped s).
Proof. unfold zlen. by rewrite ipset_iter_scoped, length_fmap. Qed.

(** ** The index *)

Definition unit_hosts (u : UnitIndex) : Z := pos_total (u_addresses u).

Definition unit_ports (u : UnitIndex) : Z := zlen (u_ports u).

(** [u] is what the builder makes of the unit [ts]. *)
Record unit_of (u : UnitIndex) (ts : TargetSet) : Prop := {
  unit_set_ok : targetset_ok ts;
  unit_addresses : u_addresses u = positions_of (ts_ips ts);
  unit_port_list : u_ports u = portset_iter (ts_ports ts);
  unit_numbered : unnumbered (u_addresses u) = [];
  unit_some_port : u_ports u <> [];
  unit_len : u_len u = unit_hosts u * unit_ports u;
}.

(** The targets of a unit, in the index's own terms. *)
Definition unit_targets (u : UnitIndex) : list Target :=
  (fst <$> all_items span_items (spans (u_addresses u))) ≫= on_ports (u_ports u).

Definition unit_addrs (u : UnitIndex) : list (IpAddr * option Z) := all_items span_items (spans (u_addresses u)).

Lemma unit_addrs_iter u ts : unit_of u ts -> unit_addrs u = iter_scoped (ts_ips ts).
Proof.
  intros [[Hs _] Ea _ En _ _]. unfold unit_addrs. rewrite (iter_scoped_split _ Hs), <- Ea, En. cbn.
  by rewrite app_nil_r.
Qed.

Lemma unit_targets_iter u ts : unit_of u ts -> unit_targets u = targetset_iter ts.
Proof.
  intros Hu. unfold unit_targets. fold (unit_addrs u). rewrite (unit_addrs_iter u ts Hu).
  by rewrite targetset_iter_rows, (unit_port_list u ts Hu), ipset_iter_scoped.
Qed.

Lemma unit_addrs_len u ts : unit_of u ts -> zlen (unit_addrs u) = unit_hosts u.
Proof.
  intros Hu. pose proof (unit_set_ok u ts Hu) as [Hs _]. unfold unit_addrs, unit_hosts.
  rewrite (unit_addresses u ts Hu). by apply numbered_items_len.
Qed.

Lemma unit_targets_len u ts : unit_of u ts -> zlen (unit_targets u) = u_len u.
Proof.
  intros Hu. unfold unit_targets. rewrite (zlen_rows _ (unit_ports u)) by apply on_ports_len.
  rewrite (unit_len u ts Hu). f_equal. rewrite <- (unit_addrs_len u ts Hu). unfold zlen.
  by rewrite length_fmap.
Qed.

Definition unit_ok (u : UnitIndex) : Prop := exists ts, unit_of u ts.

Lemma unit_ok_bounds u :
  unit_ok u -> fits 64 (unit_hosts u) /\ 0 < unit_ports u /\ u_len u = unit_hosts u * unit_ports u.
Proof.
  intros [ts Hu]. pose proof (unit_set_ok u ts Hu) as [Hs _]. unfold unit_hosts.
  split; [rewrite (unit_addresses u ts Hu); by apply positions_total_fits|].
  split; [apply zlen_pos, (unit_some_port u ts Hu)|apply (unit_len u ts Hu)].
Qed.

Record index_ok (i : TargetIndex) : Prop := {
  idx_units : Forall unit_ok (ti_units i);
  idx_numbered : numbered u_start u_len 0 (ti_units i);
  idx_hosts_numbered : numbered u_first_host unit_hosts 0 (ti_units i);
  idx_total : ti_total i = sum_len u_len (ti_units i);
  idx_hosts : ti_hosts i = sum_len unit_hosts (ti_units i);
  idx_fits : fits 64 (ti_total i);
  idx_hosts_le : 0 <= ti_hosts i <= ti_total i;
}.

Definition counted_unit (i : TargetIndex) (ts : TargetSet) : option Z :=
  let addresses := positions_of (ts_ips ts) in
  option_filter (fun len => bool_decide (is_Some (checked_add 64 (ti_total i) len)))
    (option_filter (fun _ => is_nil (unnumbered addresses))
      (try_into 64 (zlen (portset_iter (ts_ports ts))) ≫= fun ports => checked_mul 64 (pos_total addresses) ports)).

(** Counting succeeds with the unit's size, or the size does not fit. *)
Lemma counted_unit_spec i ts :
  targetset_ok ts -> fits 64 (ti_total i) -> portset_iter (ts_ports ts) <> [] ->
  match counted_unit i ts with
  | Some len =>
      len = pos_total (positions_of (ts_ips ts)) * zlen (portset_iter (ts_ports ts)) /\
      unnumbered (positions_of (ts_ips ts)) = [] /\ ti_total i + len <= umax 64
  | None => umax 64 < ti_total i + zlen (targetset_iter ts)
  end.
Proof.
  intros [Hs Hp] Hf Hne. unfold counted_unit. cbv zeta.
  pose proof (positions_total_fits _ Hs) as Ht. pose proof (unnumbered_overflow _ Hs) as Hun.
  pose proof (zlen_pos _ Hne) as Hpos. rewrite targetset_iter_len, zlen_iter_scoped.
  pose proof (positions_total_le _ Hs) as Hle.
  set (n := zlen (portset_iter (ts_ports ts))) in *. set (t := pos_total _) in *.
  set (a := zlen (iter_scoped (ts_ips ts))) in *. unfold fits in *.
  unfold try_into. destruct (Z.leb_spec n (umax 64)) as [Hn|Hn]; cbn [mbind option_bind option_filter].
  2:{ pose proof (portset_len_bound _ Hp). mlia. }
  unfold checked_mul. destruct (Z.leb_spec (t * n) (umax 64)); cbn [option_filter]; [|nia].
  destruct (is_nil (unnumbered _)) eqn:En; cbn [option_filter].
  - apply is_nil_spec in En. rewrite (positions_total_all _ Hs En : t = a) in *.
    unfold checked_add. destruct (Z.leb_spec (ti_total i + a * n) (umax 64)).
    + rewrite bool_decide_eq_true_2 by eauto. done.
    + rewrite bool_decide_eq_false_2 by (intros [? ?]; done). lia.
  - assert (umax 64 < a); [|nia]. apply Z.lt_nge. intros Ha. apply Hun in Ha.
    by rewrite Ha in En.
Qed.

Lemma portset_iter_nil s : is_nil (portset_iter s) = true -> portset_iter s = [].
Proof. apply is_nil_spec. Qed.

Lemma targetset_iter_no_ports ts : portset_iter (ts_ports ts) = [] -> targetset_iter ts = [].
Proof. intros E. apply nil_length_inv. pose proof (targetset_iter_len ts) as H. rewrite E in H. unfold zlen in H. simpl in H. lia. Qed.

Definition push_unit (i : TargetIndex) (ts : TargetSet) (len : Z) : TargetIndex :=
  mkTargetIndex
    (ti_units i ++ [mkUnitIndex (positions_of (ts_ips ts)) (portset_iter (ts_ports ts)) (ti_total i) len (ti_hosts i)])
    (ti_total i +[64] len) (ti_hosts i +[64] pos_total (positions_of (ts_ips ts)))
    (ti_complete i) (ti_unnumbered i).

Lemma index_units_cons i ts rest :
  index_units i (ts :: rest) =
  if is_nil (portset_iter (ts_ports ts)) then index_units i rest
  else match counted_unit i ts with
       | None => mkTargetIndex (ti_units i) (ti_total i) (ti_hosts i) false (ti_unnumbered i ++ left_out_of (ts :: rest))
       | Some len => index_units (push_unit i ts len) rest
       end.
Proof. done. Qed.

Lemma push_unit_ok i ts len :
  index_ok i -> targetset_ok ts -> portset_iter (ts_ports ts) <> [] -> counted_unit i ts = Some len ->
  index_ok (push_unit i ts len) /\ ti_total (push_unit i ts len) = ti_total i + len /\
  all_items unit_targets (ti_units (push_unit i ts len)) =
    all_items unit_targets (ti_units i) ++ targetset_iter ts.
Proof.
  intros [I1 I2 I3 I4 I5 I6 I7] Hts Hne Hc. pose proof (counted_unit_spec i ts Hts I6 Hne) as Hs.
  rewrite Hc in Hs. destruct Hs as (El & En & Hle). pose proof (zlen_pos _ Hne) as Hpos.
  pose proof (positions_total_fits _ (proj1 Hts)) as Ht.
  set (u := mkUnitIndex (positions_of (ts_ips ts)) (portset_iter (ts_ports ts)) (ti_total i) len (ti_hosts i)).
  assert (unit_of u ts) as Hu by by split.
  assert (u_start u = ti_total i /\ u_len u = len /\ u_first_host u = ti_hosts i /\
    unit_hosts u = pos_total (positions_of (ts_ips ts))) as (Eus & Eul & Euf & Euh) by done.
  unfold fits in *. assert (pos_total (positions_of (ts_ips ts)) <= len) by nia.
  assert (ti_total i +[64] len = ti_total i + len) as Et by by wsimp.
  assert (ti_hosts i +[64] pos_total (positions_of (ts_ips ts)) =
    ti_hosts i + pos_total (positions_of (ts_ips ts))) as Eh by by wsimp.
  split; [|split].
  - split; cbn [push_unit ti_units ti_total ti_hosts]; fold u; rewrite ?Et, ?Eh, ?sum_len_app.
    + apply Forall_app. split; [done|]. apply Forall_singleton. by exists ts.
    + apply numbered_app. split; [done|]. cbn [numbered]. rewrite Eus, Eul. split; [lia|]. split; [lia|done].
    + apply numbered_app. split; [done|]. cbn [numbered]. rewrite Euf, Euh. split; [lia|]. split; [lia|done].
    + cbn [sum_len]. lia.
    + cbn [sum_len]. lia.
    + unfold fits. lia.
    + lia.
  - done.
  - cbn [push_unit ti_units]. fold u. unfold all_items. rewrite bind_app. f_equal.
    rewrite <- (unit_targets_iter u ts Hu). cbn. apply app_nil_r.
Qed.

(** The builder numbers a prefix of the units, and stops only at one whose
    targets do not fit the numbers that are left. *)
Lemma index_units_spec rest i :
  index_ok i -> Forall targetset_ok rest ->
  let i' := index_units i rest in
  index_ok i' /\
  exists taken left_, rest = taken ++ left_ /\
    all_items unit_targets (ti_units i') = all_items unit_targets (ti_units i) ++ (taken ≫= targetset_iter) /\
    ti_complete i' = ti_complete i && is_nil left_ /\
    ti_unnumbered i' = ti_unnumbered i ++ left_out_of left_ /\
    (left_ <> [] -> umax 64 < ti_total i + zlen (rest ≫= targetset_iter)).
Proof.
  revert i. induction rest as [|ts rest IH]; intros i Hi Hr.
  { split; [done|]. exists [], []. cbn. by rewrite !app_nil_r, andb_true_r. }
  inversion Hr as [|? ? Hts Hr']; subst. rewrite index_units_cons, bind_cons, zlen_app.
  destruct (is_nil (portset_iter (ts_ports ts))) eqn:En.
  { apply is_nil_spec in En. destruct (IH i Hi Hr') as (H1 & taken & left_ & H2 & H3 & H4 & H5 & H6).
    split; [done|]. exists (ts :: taken), left_. rewrite bind_cons, (targetset_iter_no_ports ts En).
    split_and!; [by rewrite H2|done..]. }
  assert (portset_iter (ts_ports ts) <> []) as Hne by (intros E; by rewrite E in En).
  pose proof (counted_unit_spec i ts Hts (idx_fits i Hi) Hne) as Hs.
  destruct (counted_unit i ts) as [len|] eqn:Ec.
  - destruct (push_unit_ok i ts len Hi Hts Hne Ec) as (P1 & P2 & P3).
    destruct (IH _ P1 Hr') as (H1 & taken & left_ & H2 & H3 & H4 & H5 & H6).
    split; [done|]. exists (ts :: taken), left_. rewrite bind_cons.
    split_and!; [by rewrite H2|by rewrite H3, P3, app_assoc|done|done|].
    intros Hl. specialize (H6 Hl). rewrite P2 in H6. destruct Hs as (-> & En' & _).
    rewrite (positions_total_all _ (proj1 Hts) En') in H6. rewrite targetset_iter_len, zlen_iter_scoped. lia.
  - split; [by destruct Hi|]. exists [], (ts :: rest). cbn [ti_units ti_complete ti_unnumbered is_nil].
    rewrite andb_false_r, app_nil_r. split_and!; try done. intros _.
    pose proof (zlen_nonneg (rest ≫= targetset_iter)). lia.
Qed.

Lemma index_of_map_spec m :
  targetmap_ok m ->
  index_ok (index_of_map m) /\
  exists taken left_, units m = taken ++ left_ /\
    all_items unit_targets (ti_units (index_of_map m)) = taken ≫= targetset_iter /\
    ti_complete (index_of_map m) = is_nil left_ /\
    ti_unnumbered (index_of_map m) = left_out_of left_ /\
    (left_ <> [] -> umax 64 < zlen (targetmap_iter m)).
Proof.
  intros Hm. destruct (index_units_spec (units m) (mkTargetIndex [] 0 0 true [])) as (H1 & t & l & H); [|done|].
  { by split. }
  split; [done|]. by exists t, l.
Qed.

Section Lookups.
Context (i : TargetIndex) (Hi : index_ok i).

Lemma idx_unit_ok u : u ∈ ti_units i -> unit_ok u.
Proof. pose proof (idx_units i Hi) as H. rewrite Forall_forall in H. apply H. Qed.

Lemma idx_bounds u :
  u ∈ ti_units i ->
  0 <= u_start u /\ 0 <= u_len u /\ u_start u + u_len u <= ti_total i <= umax 64 /\
  0 <= u_first_host u /\ 0 <= unit_hosts u /\ u_first_host u + unit_hosts u <= ti_hosts i <= ti_total i /\
  0 < unit_ports u /\ u_len u = unit_hosts u * unit_ports u.
Proof.
  intros Hin. destruct (unit_ok_bounds u (idx_unit_ok u Hin)) as (_ & Hp & Hl).
  pose proof (numbered_bounds _ _ _ _ _ (idx_numbered i Hi) Hin).
  pose proof (numbered_bounds _ _ _ _ _ (idx_hosts_numbered i Hi) Hin).
  rewrite <- (idx_total i Hi), <- (idx_hosts i Hi) in *.
  pose proof (idx_fits i Hi) as [? ?]. pose proof (idx_hosts_le i Hi). lia.
Qed.

Lemma idx_counted : counted u_len unit_targets (ti_units i).
Proof.
  apply Forall_forall. intros u Hin. destruct (idx_unit_ok u Hin) as [ts Hu].
  by apply (unit_targets_len u ts).
Qed.

Lemma idx_items_len : zlen (all_items unit_targets (ti_units i)) = ti_total i.
Proof. rewrite (all_items_len u_len) by apply idx_counted. symmetry. apply (idx_total i Hi). Qed.

(** *** The unit of a position *)

Lemma unit_at_holds position k u :
  ti_units i !! k = Some u -> u_start u <= position < u_start u + u_len u -> unit_at i position = Some u.
Proof.
  intros Hk Hp. assert (u ∈ ti_units i) as Hin by by eapply list_elem_of_lookup_2.
  pose proof (idx_bounds u Hin) as Hb. unfold unit_at. rewrite (proj2 (Z.leb_gt _ _)) by lia.
  set (f := fun unit => u_start unit ?= position).
  pose proof (numbered_sorted _ _ _ _ (idx_numbered i Hi)) as Hsort.
  assert (forall j v, ti_units i !! j = Some v -> (j < k)%nat -> u_start v + u_len v <= u_start u /\ 0 <= u_len v) as Hbefore.
  { intros j v Hj Hlt. split; [exact (StronglySorted_lookup _ _ _ _ _ _ Hsort Hlt Hj Hk)|].
    assert (v ∈ ti_units i) as Hv by by eapply list_elem_of_lookup_2. pose proof (idx_bounds v Hv). lia. }
  assert (forall j v, ti_units i !! j = Some v -> (k < j)%nat -> position < u_start v) as Hafter.
  { intros j v Hj Hlt. pose proof (StronglySorted_lookup _ _ _ _ _ _ Hsort Hlt Hk Hj) as H. simpl in H. lia. }
  assert (searchable f (ti_units i)) as Hs.
  { eapply sorted_weaken; [|exact Hsort]. intros x y Hx _ Hxy. simpl in Hxy. pose proof (idx_bounds x Hx).
    unfold f. destruct (Z.compare_spec (u_start x) position), (Z.compare_spec (u_start y) position); simpl; lia. }
  pose proof (binary_search_by_spec f (ti_units i) Hs) as Hbs.
  destruct (binary_search_by f (ti_units i)) as [n|n].
  - destruct Hbs as (x & Hn & Ex & Hgt). apply Z.compare_eq in Ex.
    assert (n = k) as ->.
    { destruct (Nat.lt_trichotomy n k) as [H|[H|H]]; [|done|].
      - specialize (Hgt k u H Hk). apply Z.compare_gt_iff in Hgt. lia.
      - specialize (Hafter n x Hn H). lia. }
    rewrite Hk. cbn [option_filter]. wsimp. by rewrite (proj2 (Z.ltb_lt _ _)) by lia.
  - destruct Hbs as (Hlen & Hlt & Hgt).
    assert (k < n)%nat as Hkn.
    { apply Nat.lt_nge. intros H. specialize (Hgt k u H Hk). apply Z.compare_gt_iff in Hgt. lia. }
    destruct n as [|m]; [lia|]. assert (m = k) as ->.
    { destruct (decide (m = k)) as [|Hne]; [done|]. exfalso.
      destruct (lookup_lt_is_Some_2 (ti_units i) m) as [v Hm]; [lia|].
      specialize (Hlt m v (Nat.lt_succ_diag_r m) Hm). unfold f in Hlt. rewrite Z.compare_lt_iff in Hlt.
      specialize (Hafter m v Hm ltac:(lia)). lia. }
    rewrite Hk. cbn [option_filter]. wsimp. by rewrite (proj2 (Z.ltb_lt _ _)) by lia.
Qed.
Lemma unit_at_spec position :
  0 <= position ->
  match unit_at i position with
  | None => ti_total i <= position
  | Some u => exists k, ti_units i !! k = Some u /\ u_start u <= position < u_start u + u_len u
  end.
Proof.
  intros Hp. destruct (Z.le_gt_cases (ti_total i) position) as [Hge|Hlt].
  { unfold unit_at. by rewrite (proj2 (Z.leb_le _ _)). }
  destruct (numbered_cover _ _ _ _ position (idx_numbered i Hi)) as (k & u & Hk & Hb).
  { rewrite <- (idx_total i Hi). lia. }
  rewrite (unit_at_holds position k u Hk Hb). by exists k.
Qed.

Lemma target_at_spec position :
  0 <= position -> target_at i position = zlookup (all_items unit_targets (ti_units i)) position.
Proof.
  intros Hp. unfold target_at. pose proof (unit_at_spec position Hp) as Hat.
  destruct (unit_at i position) as [u|]; cbn [mbind option_bind].
  - destruct Hat as (k & Hk & Hb). assert (u ∈ ti_units i) as Hin by by eapply list_elem_of_lookup_2.
    pose proof (idx_bounds u Hin) as Hub. destruct (idx_unit_ok u Hin) as [ts Hu].
    pose proof (all_items_lookup _ _ _ _ _ _ _ _ (idx_numbered i Hi) idx_counted Hk Hb) as El.
    rewrite Z.sub_0_r in El. rewrite El.
    wsimp. fold (unit_ports u). unfold unit_targets.
    rewrite (zlookup_rows _ (unit_ports u)) by (try lia; apply on_ports_len).
    pose proof (unit_set_ok u ts Hu) as [Hs _].
    rewrite (unit_addresses u ts Hu), (address_at_spec _ _ (positions_of_ok _ Hs)) by (apply Z.div_pos; lia).
    rewrite zlookup_fmap.
    destruct (fst <$> zlookup (all_items span_items _) _) as [ip|]; cbn [mbind option_bind].
    + rewrite on_ports_lookup. by destruct (zlookup (u_ports u) _) as [[]|].
    + by destruct (zlookup (u_ports u) _) as [[]|].
  - destruct (zlookup _ position) eqn:E; [|done]. apply zlookup_Some_lt in E.
    rewrite idx_items_len in E. lia.
Qed.

(** *** Hosts: one run of positions each *)

Lemma host_unit h k u :
  ti_units i !! k = Some u -> u_first_host u <= h < u_first_host u + unit_hosts u ->
  host_run i h = (u_start u + (h - u_first_host u) * unit_ports u,
                  u_start u + (h - u_first_host u + 1) * unit_ports u).
Proof.
  intros Hk Hh. assert (u ∈ ti_units i) as Hin by by eapply list_elem_of_lookup_2.
  pose proof (idx_bounds u Hin) as Hb. unfold host_run.
  set (pred := fun unit => u_first_host unit +[64] pos_total (u_addresses unit) <=? h).
  assert (forall v, v ∈ ti_units i -> pred v = (u_first_host v + unit_hosts v <=? h)) as Hpred.
  { intros v Hv. pose proof (idx_bounds v Hv). unfold pred. fold (unit_hosts v). by wsimp. }
  pose proof (numbered_sorted _ _ _ _ (idx_hosts_numbered i Hi)) as Hsort.
  destruct (partition_point_spec pred (ti_units i)) as (P1 & P2 & P3).
  { eapply sorted_weaken; [|exact Hsort]. intros x y Hx Hy Hxy. simpl in Hxy.
    rewrite !Hpred, !Z.leb_le by done. pose proof (idx_bounds y Hy). lia. }
  assert (partition_point pred (ti_units i) = k) as ->.
  { destruct (Nat.lt_trichotomy (partition_point pred (ti_units i)) k) as [H|[H|H]]; [|done|].
    - destruct (lookup_lt_is_Some_2 (ti_units i) (partition_point pred (ti_units i))) as [v Hv].
      { apply lookup_lt_Some in Hk. lia. }
      pose proof (P3 _ v (Nat.le_refl _) Hv) as Hf.
      rewrite Hpred in Hf by by eapply list_elem_of_lookup_2.
      pose proof (StronglySorted_lookup _ _ _ _ _ _ Hsort H Hv Hk) as Hs. simpl in Hs. lia.
    - pose proof (P2 k u H Hk) as Hf. rewrite Hpred in Hf by done. lia. }
  rewrite Hk. fold (unit_ports u). rewrite (wrap_small 64 (h - u_first_host u)) by mlia.
  assert (0 <= (h - u_first_host u) * unit_ports u /\
    (h - u_first_host u) * unit_ports u + unit_ports u <= u_len u) by nia.
  replace ((h - u_first_host u + 1) * unit_ports u) with ((h - u_first_host u) * unit_ports u + unit_ports u) by lia.
  generalize dependent ((h - u_first_host u) * unit_ports u). intros m Hm.
  rewrite (wrap_small 64 m), (wrap_small 64 (u_start u + m)), wrap_small by mlia. f_equal. lia.
Qed.

Lemma host_cover h :
  0 <= h < ti_hosts i ->
  exists k u, ti_units i !! k = Some u /\ u_first_host u <= h < u_first_host u + unit_hosts u.
Proof.
  intros Hh. destruct (numbered_cover _ _ _ _ h (idx_hosts_numbered i Hi)) as (k & u & Hk & Hb); [|by exists k, u].
  rewrite <- (idx_hosts i Hi). lia.
Qed.

Lemma host_of_unit position k u :
  ti_units i !! k = Some u -> u_start u <= position < u_start u + u_len u ->
  host_of i position = u_first_host u + (position - u_start u) / unit_ports u /\
  (position - u_start u) / unit_ports u < unit_hosts u.
Proof.
  intros Hk Hp. assert (u ∈ ti_units i) as Hin by by eapply list_elem_of_lookup_2.
  pose proof (idx_bounds u Hin) as Hb. unfold host_of. rewrite (unit_at_holds position k u Hk Hp).
  fold (unit_ports u).
  assert (0 <= (position - u_start u) / unit_ports u) by (apply Z.div_pos; lia).
  assert ((position - u_start u) / unit_ports u < unit_hosts u) by (apply Z.div_lt_upper_bound; lia).
  split; [by wsimp|done].
Qed.

Lemma host_run_bounds h :
  0 <= h < ti_hosts i -> 0 <= (host_run i h).1 /\ (host_run i h).1 < (host_run i h).2 <= ti_total i.
Proof.
  intros Hh. destruct (host_cover h Hh) as (k & u & Hk & Hb). rewrite (host_unit h k u Hk Hb). cbn [fst snd].
  assert (u ∈ ti_units i) as Hin by by eapply list_elem_of_lookup_2. pose proof (idx_bounds u Hin).
  assert ((h - u_first_host u + 1) * unit_ports u <= u_len u) by nia. nia.
Qed.

Lemma host_of_run position :
  0 <= position < ti_total i ->
  0 <= host_of i position < ti_hosts i /\
  (host_run i (host_of i position)).1 <= position < (host_run i (host_of i position)).2.
Proof.
  intros Hp. pose proof (unit_at_spec position (proj1 Hp)) as Hat.
  destruct (unit_at i position) as [u|]; [|lia]. destruct Hat as (k & Hk & Hb).
  assert (u ∈ ti_units i) as Hin by by eapply list_elem_of_lookup_2. pose proof (idx_bounds u Hin) as Hub.
  destruct (host_of_unit position k u Hk Hb) as [-> Hq].
  assert (0 <= (position - u_start u) / unit_ports u) by (apply Z.div_pos; lia).
  split; [lia|]. rewrite (host_unit _ k u Hk) by lia. cbn [fst snd].
  pose proof (Z.div_mod (position - u_start u) (unit_ports u) ltac:(lia)).
  pose proof (Z.mod_pos_bound (position - u_start u) (unit_ports u) ltac:(lia)). nia.
Qed.

Lemma host_run_of h position :
  0 <= h < ti_hosts i -> (host_run i h).1 <= position < (host_run i h).2 -> host_of i position = h.
Proof.
  intros Hh. destruct (host_cover h Hh) as (k & u & Hk & Hb). rewrite (host_unit h k u Hk Hb). cbn [fst snd].
  assert (u ∈ ti_units i) as Hin by by eapply list_elem_of_lookup_2. pose proof (idx_bounds u Hin) as Hub.
  intros Hp. assert ((h - u_first_host u + 1) * unit_ports u <= u_len u) by nia.
  destruct (host_of_unit position k u Hk) as [-> _]; [nia|].
  rewrite <- (Z.div_unique_pos (position - u_start u) (unit_ports u) (h - u_first_host u)
    (position - u_start u - unit_ports u * (h - u_first_host u))); [lia|nia|lia].
Qed.

Lemma host_of_mono p q : 0 <= p <= q -> q < ti_total i -> host_of i p <= host_of i q.
Proof.
  intros Hpq Hq. destruct (Z.le_gt_cases (host_of i p) (host_of i q)) as [|Hgt]; [done|]. exfalso.
  pose proof (unit_at_spec p (proj1 Hpq)) as Hp. pose proof (unit_at_spec q ltac:(lia)) as Hq'.
  destruct (unit_at i p) as [u|]; [|lia]. destruct (unit_at i q) as [v|]; [|lia].
  destruct Hp as (k & Hk & Bu), Hq' as (j & Hj & Bv).
  destruct (host_of_unit p k u Hk Bu) as [Eu Lu], (host_of_unit q j v Hj Bv) as [Ev Lv].
  assert (u ∈ ti_units i) as Hu by by eapply list_elem_of_lookup_2.
  assert (v ∈ ti_units i) as Hv by by eapply list_elem_of_lookup_2.
  pose proof (idx_bounds u Hu). pose proof (idx_bounds v Hv).
  destruct (Nat.lt_trichotomy k j) as [H1|[->|H1]].
  - pose proof (StronglySorted_lookup _ _ _ _ _ _ (numbered_sorted _ _ _ _ (idx_hosts_numbered i Hi)) H1 Hk Hj) as Hs.
    simpl in Hs. assert (0 <= (q - u_start v) / unit_ports v) by (apply Z.div_pos; lia). lia.
  - assert (u = v) as -> by congruence.
    assert ((p - u_start v) / unit_ports v <= (q - u_start v) / unit_ports v)
      by (apply Z.div_le_mono; lia). lia.
  - pose proof (StronglySorted_lookup _ _ _ _ _ _ (numbered_sorted _ _ _ _ (idx_numbered i Hi)) H1 Hj Hk) as Hs.
    simpl in Hs. lia.
Qed.

(** Every position of a host's run aims at one address. *)
Lemma target_at_unit position k u :
  ti_units i !! k = Some u -> u_start u <= position < u_start u + u_len u ->
  exists target, target_at i position = Some target /\
    fst <$> zlookup (unit_addrs u) ((position - u_start u) / unit_ports u) = Some (t_ip target).
Proof.
  intros Hk Hb. assert (u ∈ ti_units i) as Hin by by eapply list_elem_of_lookup_2.
  pose proof (idx_bounds u Hin) as Hub. destruct (idx_unit_ok u Hin) as [ts Hu].
  rewrite target_at_spec by lia.
  pose proof (all_items_lookup _ _ _ _ _ _ _ _ (idx_numbered i Hi) idx_counted Hk Hb) as El.
  rewrite Z.sub_0_r in El. rewrite El.
  unfold unit_targets. rewrite (zlookup_rows _ (unit_ports u)) by (try lia; apply on_ports_len).
  rewrite zlookup_fmap. fold (unit_addrs u).
  destruct (zlookup_is_Some (unit_addrs u) ((position - u_start u) / unit_ports u)) as [[ip zone] E].
  { rewrite (unit_addrs_len u ts Hu). destruct (host_of_unit position k u Hk Hb).
    split; [apply Z.div_pos; lia|lia]. }
  rewrite E. cbn [fmap option_fmap option_map mbind option_bind fst]. rewrite on_ports_lookup.
  destruct (zlookup_is_Some (u_ports u) ((position - u_start u) mod unit_ports u)) as [[port protocol] Ep].
  { fold (unit_ports u). apply Z.mod_pos_bound. lia. }
  rewrite Ep. cbn. by eexists.
Qed.
Lemma same_host_same_address p q :
  0 <= p < ti_total i -> 0 <= q < ti_total i -> host_of i p = host_of i q ->
  exists t t', target_at i p = Some t /\ target_at i q = Some t' /\ t_ip t = t_ip t'.
Proof.
  intros Hp Hq E.
  pose proof (unit_at_spec p (proj1 Hp)) as Up. pose proof (unit_at_spec q (proj1 Hq)) as Uq.
  destruct (unit_at i p) as [u|]; [|lia]. destruct (unit_at i q) as [v|]; [|lia].
  destruct Up as (k & Hk & Bu), Uq as (j & Hj & Bv).
  destruct (target_at_unit p k u Hk Bu) as (t & Ht & Et), (target_at_unit q j v Hj Bv) as (t' & Ht' & Et').
  destruct (host_of_unit p k u Hk Bu) as [Eu Lu], (host_of_unit q j v Hj Bv) as [Ev Lv].
  assert (0 <= (p - u_start u) / unit_ports u /\ 0 <= (q - u_start v) / unit_ports v) as [? ?].
  { pose proof (idx_bounds u (list_elem_of_lookup_2 _ _ _ Hk)).
    pose proof (idx_bounds v (list_elem_of_lookup_2 _ _ _ Hj)). split; apply Z.div_pos; lia. }
  assert (k = j) as ->.
  { apply (numbered_unique u_first_host unit_hosts 0 (ti_units i) (host_of i p) k j u v); try done; [|lia|lia].
    apply (idx_hosts_numbered i Hi). }
  assert (v = u) as -> by congruence. exists t, t'. split; [done|]. split; [done|].
  assert ((p - u_start u) / unit_ports u = (q - u_start u) / unit_ports u) as Ed by lia.
  rewrite Ed in Et. congruence.
Qed.

(** *** The addresses behind a stretch of positions *)

Definition addr_of (u : UnitIndex) (position : Z) : option IpAddr :=
  fst <$> zlookup (unit_addrs u) ((position - u_start u) / unit_ports u).

(** One unit's share of [addresses_in]. *)
Lemma unit_ranges_spec u from to_ ip :
  u ∈ ti_units i -> 0 <= from < to_ -> to_ <= u_len u ->
  Forall range_ok (ranges_in (u_addresses u) (from / unit_ports u) ((to_ -[64] 1) / unit_ports u +[64] 1)) /\
  (ip ∈ fst <$> (ranges_in (u_addresses u) (from / unit_ports u) ((to_ -[64] 1) / unit_ports u +[64] 1)
                   ≫= range_scoped) <->
   exists position, u_start u + from <= position < u_start u + to_ /\ addr_of u position = Some ip).
Proof.
  intros Hin Hft Hto. pose proof (idx_bounds u Hin) as Hb. destruct (idx_unit_ok u Hin) as [ts Hu].
  pose proof (unit_set_ok u ts Hu) as [Hs _]. set (n := unit_ports u) in *.
  rewrite (wrap_small 64 (to_ - 1)) by mlia.
  assert (0 <= from / n) as Hf0 by (apply Z.div_pos; lia).
  assert (from / n <= (to_ - 1) / n) by (apply Z.div_le_mono; lia).
  assert ((to_ - 1) / n < unit_hosts u) by (apply Z.div_lt_upper_bound; lia).
  rewrite wrap_small by mlia. rewrite (unit_addresses u ts Hu).
  destruct (ranges_in_iter _ Hs (from / n) ((to_ - 1) / n + 1) Hf0) as [R1 R2]. split; [done|].
  rewrite R2, <- (unit_addresses u ts Hu). fold (unit_hosts u).
  rewrite Z.min_l, fmap_zslice, elem_of_zlookup by lia. unfold addr_of. rewrite (unit_addrs_iter u ts Hu).
  fold n. split.
  - intros [j Hj]. rewrite zlookup_zslice, zlookup_fmap in Hj by lia.
    destruct ((0 <=? j) && (j <? (to_ - 1) / n + 1 - from / n)) eqn:Ej; [|done].
    assert (from / n <= from / n + j <= (to_ - 1) / n) as Hk by lia.
    set (k := from / n + j) in *. exists (u_start u + Z.max from (k * n)).
    pose proof (Z.mul_div_le (to_ - 1) n ltac:(lia)). pose proof (Z.mul_succ_div_gt from n ltac:(lia)).
    split; [nia|]. replace (u_start u + Z.max from (k * n) - u_start u) with (Z.max from (k * n)) by lia.
    rewrite <- (Z.div_unique_pos (Z.max from (k * n)) n k (Z.max from (k * n) - n * k)); [done|nia|lia].
  - intros (position & Hp & Ea). exists ((position - u_start u) / n - from / n).
    assert (from / n <= (position - u_start u) / n <= (to_ - 1) / n)
      by (split; apply Z.div_le_mono; lia).
    rewrite zlookup_zslice, zlookup_fmap by lia. rewrite (proj2 (Z.leb_le _ _)), (proj2 (Z.ltb_lt _ _)) by lia.
    cbn [andb]. by replace (from / n + ((position - u_start u) / n - from / n)) with ((position - u_start u) / n) by lia.
Qed.

Lemma addresses_from_spec l t first stop ip :
  numbered u_start u_len t l -> (forall u, u ∈ l -> u ∈ ti_units i) -> fits 64 first -> stop <= ti_total i ->
  Forall range_ok (addresses_from first stop l) /\
  (ip ∈ fst <$> (addresses_from first stop l ≫= range_scoped) <->
   exists u position, u ∈ l /\ u_start u <= position < u_start u + u_len u /\
     first <= position < stop /\ addr_of u position = Some ip).
Proof.
  revert t. induction l as [|u l IH]; intros t Hn Hin Hf Hs; cbn [addresses_from].
  { split; [constructor|]. cbn. rewrite elem_of_nil. split; [done|]. intros (u & p & Hu & _). by apply elem_of_nil in Hu. }
  destruct Hn as (Ht & Hl & Hn). destruct (IH _ Hn) as [I1 I2]; [|done|done|].
  { intros v Hv. apply Hin. by right. }
  assert (u ∈ ti_units i) as Hu by (apply Hin; by left). pose proof (idx_bounds u Hu) as Hb.
  assert (forall P : UnitIndex -> Z -> Prop, (exists v p, v ∈ u :: l /\ P v p) <->
    (exists p, P u p) \/ exists v p, v ∈ l /\ P v p) as Hsplit.
  { intros P. setoid_rewrite elem_of_cons. naive_solver. }
  rewrite Hsplit. destruct (Z.leb_spec stop (u_start u)) as [Hend|Hend].
  { split; [constructor|]. cbn. rewrite elem_of_nil. split; [done|]. intros [(p & ? & ? & _)|(v & p & Hv & ? & ? & _)]; [lia|].
    pose proof (numbered_bounds _ _ _ _ _ Hn Hv). lia. }
  cbv zeta. rewrite (wrap_small 64 (u_start u + u_len u)), (wrap_small 64 (Z.max first (u_start u) - u_start u)),
    (wrap_small 64 (Z.min stop (u_start u + u_len u) - u_start u)) by mlia.
  destruct (Z.leb_spec (Z.min stop (u_start u + u_len u) - u_start u) (Z.max first (u_start u) - u_start u)).
  { split; [done|]. rewrite I2. split; [by right|]. intros [(p & ? & ? & _)|H']; [lia|done]. }
  destruct (unit_ranges_spec u (Z.max first (u_start u) - u_start u)
    (Z.min stop (u_start u + u_len u) - u_start u) ip Hu) as [U1 U2]; [lia|lia|].
  fold (unit_ports u). split; [by apply Forall_app|].
  rewrite bind_app, fmap_app, elem_of_app, U2, I2. apply or_iff_compat_r.
  split; intros (p & Hp); exists p; (split; [lia|]); try (split; [lia|]); tauto.
Qed.

Lemma addresses_in_spec first last ip :
  fits 64 first ->
  Forall range_ok (addresses_in i first last) /\
  ((exists r, r ∈ addresses_in i first last /\ range_contains r ip = true) <->
   exists position target, first <= position < last /\ target_at i position = Some target /\ t_ip target = ip).
Proof.
  intros Hf. unfold addresses_in.
  set (pred := fun unit => u_start unit +[64] u_len unit <=? first).
  set (k := partition_point pred (ti_units i)).
  assert (forall v, v ∈ ti_units i -> pred v = (u_start v + u_len v <=? first)) as Hpred.
  { intros v Hv. pose proof (idx_bounds v Hv). unfold pred. by rewrite wrap_small by mlia. }
  destruct (partition_point_spec pred (ti_units i)) as (P1 & P2 & _).
  { eapply sorted_weaken; [|exact (numbered_sorted _ _ _ _ (idx_numbered i Hi))].
    intros x y Hx Hy Hxy. simpl in Hxy. rewrite !Hpred, !Z.leb_le by done. pose proof (idx_bounds y Hy). lia. }
  pose proof (idx_numbered i Hi) as Hn. rewrite <- (take_drop k (ti_units i)) in Hn.
  apply numbered_app in Hn as [_ Hn].
  assert (forall u, u ∈ drop k (ti_units i) -> u ∈ ti_units i) as Hsub.
  { intros u [j Hj]%list_elem_of_lookup. rewrite lookup_drop in Hj. by eapply list_elem_of_lookup_2. }
  destruct (addresses_from_spec (drop k (ti_units i)) _ first (Z.min last (ti_total i)) ip Hn Hsub Hf) as [A1 A2]; [lia|].
  split; [done|]. transitivity (ip ∈ fst <$> (addresses_from first (Z.min last (ti_total i)) (drop k (ti_units i)) ≫= range_scoped)).
  { by apply contains_range_scoped. }
  rewrite A2. split.
  - intros (u & p & [m Hm]%list_elem_of_lookup & Hb & Hp & Ea). rewrite lookup_drop in Hm.
    destruct (target_at_unit p _ u Hm Hb) as (target & Et & Ei). exists p, target.
    split; [lia|]. split; [done|]. unfold addr_of in Ea. congruence.
  - intros (p & target & Hp & Et & <-). unfold fits in Hf. pose proof (unit_at_spec p ltac:(lia)) as Hat.
    unfold target_at in Et. destruct (unit_at i p) as [u|] eqn:Eu; [|done]. destruct Hat as (m & Hm & Hb).
    destruct (target_at_unit p m u Hm Hb) as (target' & Et' & Ei). exists u, p.
    assert (u ∈ ti_units i) as Hin by by eapply list_elem_of_lookup_2. pose proof (idx_bounds u Hin).
    split.
    { apply list_elem_of_lookup. exists (m - k)%nat. rewrite lookup_drop.
      destruct (Nat.lt_ge_cases m k) as [H1|H1].
      - pose proof (P2 m u H1 Hm) as Hf'. rewrite Hpred in Hf' by done. lia.
      - by replace (k + (m - k))%nat with m by lia. }
    split; [done|]. split; [lia|]. unfold addr_of. unfold target_at in Et'. rewrite Eu in Et'. congruence.
Qed.
End Lookups.

(** ** Counting *)

Lemma gross_from_spec count size l total :
  0 <= total -> (forall u, u ∈ l -> 0 <= size u /\
    match count u with Ok n => n = Z.min (size u) (umax 128) | Err _ => umax 128 < size u end) ->
  match gross_from count (Z.min total (umax 128)) l with
  | Ok n => n = Z.min (total + foldr (fun u n => size u + n) 0 l) (umax 128)
  | Err _ => umax 128 < total + foldr (fun u n => size u + n) 0 l
  end.
Proof.
  revert total. induction l as [|u l IH]; intros total Ht Hc; cbn [gross_from foldr]; [f_equal; lia|].
  destruct (Hc u) as [Hs Hu]; [by left|].
  assert (0 <= foldr (fun u n => size u + n) 0 l) as Hnn.
  { assert (forall v, v ∈ l -> 0 <= size v) as Hv by (intros v Hv; apply Hc; by right).
    clear -Hv. induction l as [|v l IH]; cbn [foldr]; [lia|].
    assert (0 <= size v) by (apply Hv; by left). assert (0 <= foldr (fun u n => size u + n) 0 l); [|lia].
    apply IH. intros w Hw. apply Hv. by right. }
  destruct (count u) as [n|e]; cbn [try_]; [|lia]. subst n. unfold checked_add.
  destruct (Z.leb_spec (Z.min total (umax 128) + Z.min (size u) (umax 128)) (umax 128)) as [Hle|Hgt].
  - specialize (IH (total + size u) ltac:(lia) (fun v Hv => Hc v (proj2 (elem_of_cons _ _ _) (or_intror Hv)))).
    replace (Z.min total (umax 128) + Z.min (size u) (umax 128)) with (Z.min (total + size u) (umax 128)) by mlia.
    rewrite Z.add_assoc. exact IH.
  - mlia.
Qed.

Lemma zlen_bind {A B} (f : A -> list B) l : zlen (l ≫= f) = foldr (fun a n => zlen (f a) + n) 0 l.
Proof. induction l as [|a l IH]; [done|]. rewrite bind_cons, zlen_app, IH. done. Qed.

Lemma total_targets_spec s :
  targetset_ok s ->
  match total_targets s with
  | Ok n => n = Z.min (zlen (targetset_iter s)) (umax 128)
  | Err _ => umax 128 < zlen (targetset_iter s)
  end.
Proof.
  intros [Hi Hp]. unfold total_targets. rewrite targetset_iter_len, zlen_iter_scoped, portset_len_iter by done.
  rewrite ipset_len_spec by done. fold (zlen (iter_scoped (ts_ips s))).
  pose proof (zlen_nonneg (iter_scoped (ts_ips s))) as Ha. pose proof (zlen_nonneg (portset_iter (ts_ports s))) as Hn.
  set (a := zlen (iter_scoped (ts_ips s))) in *. set (n := zlen (portset_iter (ts_ports s))) in *.
  unfold checked_mul. assert (0 < umax 128) by mlia. generalize dependent (umax 128). intros U HU.
  destruct (Z.leb_spec (Z.min a U * n) U).
  - destruct (Z.le_gt_cases a U); [nia|]. assert (n = 0 \/ n = 1) as [->| ->] by nia; nia.
  - nia.
Qed.

(** ** Withholding *)

Lemma elem_of_targetset_iter s t :
  targetset_ok s ->
  t ∈ targetset_iter s <->
  contains (ts_ips s) (t_ip t) = true /\ portset_contains (ts_ports s) (t_port t) (t_protocol t) = true.
Proof.
  intros [Hi Hp]. rewrite targetset_iter_rows, list_elem_of_bind.
  assert (forall ip, ip ∈ ipset_iter (ts_ips s) <-> contains (ts_ips s) ip = true) as Hip.
  { intros ip. rewrite ipset_iter_scoped, list_elem_of_fmap, contains_member by done. split.
    - intros ([? z] & -> & H). exists z. by apply elem_of_iter_scoped.
    - intros [z H]. exists (ip, z). split; [done|]. by apply elem_of_iter_scoped. }
  setoid_rewrite Hip. rewrite portset_contains_spec, <- elem_of_portset_iter by done.
  unfold on_ports. setoid_rewrite list_elem_of_fmap. split.
  - intros (ip & ([port protocol] & -> & H) & Hc). done.
  - intros [H1 H2]. exists (t_ip t). split; [|done]. exists (t_port t, t_protocol t). by destruct t.
Qed.

Lemma elem_of_targetmap_iter m t : t ∈ targetmap_iter m <-> exists s, s ∈ units m /\ t ∈ targetset_iter s.
Proof. unfold targetmap_iter. rewrite list_elem_of_bind. naive_solver. Qed.

Lemma portset_empty_contains s port protocol :
  portset_is_empty s = true -> portset_contains s port protocol = false.
Proof.
  unfold portset_is_empty, Protocol_ALL. cbn [forallb]. rewrite andb_true_r, !andb_true_iff, !is_nil_spec.
  intros (E1 & E2 & E3). unfold portset_contains. by destruct protocol; rewrite ?E1, ?E2, ?E3.
Qed.

Lemma difference_spec s t :
  portset_ok s -> portset_ok t ->
  portset_ok (difference s t) /\ forall port protocol,
    portset_contains (difference s t) port protocol = true <->
    portset_contains s port protocol = true /\ portset_contains t port protocol = false.
Proof.
  intros Hs Ht. assert (portset_ok (difference s t)) as Hd.
  { intros q. rewrite ranges_difference. by apply diff_lane_spec. }
  split; [done|]. intros port q. rewrite <- not_true_iff_false, !portset_contains_spec by done.
  rewrite ranges_difference. by apply diff_lane_spec.
Qed.

Lemma targetset_new_ok ips ports : ipset_ok ips -> portset_ok ports -> targetset_ok (targetset_new ips ports).
Proof. intros Hi Hp. split; [|done]. by apply canonicalize_canon. Qed.

Lemma elem_of_targetset_new ips ports t :
  ipset_ok ips -> portset_ok ports ->
  t ∈ targetset_iter (targetset_new ips ports) <->
  contains ips (t_ip t) = true /\ portset_contains ports (t_port t) (t_protocol t) = true.
Proof.
  intros Hi Hp. rewrite elem_of_targetset_iter by by apply targetset_new_ok. cbn [targetset_new ts_ips ts_ports].
  rewrite !contains_member by (done || by apply canonicalize_canon). by rewrite canonicalize_member.
Qed.

Lemma withheld_ports m excluded :
  targetmap_ok m -> portset_ok excluded ->
  targetmap_ok (withhold_ports m excluded) /\
  forall t, t ∈ targetmap_iter (withhold_ports m excluded) <->
    t ∈ targetmap_iter m /\ portset_contains excluded (t_port t) (t_protocol t) = false.
Proof.
  intros Hm He. unfold withhold_ports. destruct (portset_is_empty excluded) eqn:E.
  { split; [done|]. intros t. rewrite (portset_empty_contains _ _ _ E). tauto. }
  unfold targetmap_ok in *. rewrite Forall_forall in Hm.
  assert (forall u s, u ∈ units m -> then_some (negb (portset_is_empty (difference (ts_ports u) excluded)))
    (targetset_new (ts_ips u) (difference (ts_ports u) excluded)) = Some s ->
    s = targetset_new (ts_ips u) (difference (ts_ports u) excluded)) as Hinv.
  { intros u s _. unfold then_some. destruct (negb _); [by intros [= <-]|done]. }
  split.
  - apply Forall_forall. intros s (u & Hu & Hs%(Hinv u s Hu))%list_elem_of_omap. subst s.
    destruct (Hm u Hu) as [Hi Hp]. apply targetset_new_ok; [done|]. by apply difference_spec.
  - intros t. rewrite !elem_of_targetmap_iter. cbn [units]. split.
    + intros (s & (u & Hu & Hs%(Hinv u s Hu))%list_elem_of_omap & Ht). subst s.
      destruct (Hm u Hu) as [Hi Hp]. destruct (difference_spec _ _ Hp He) as [Hd Hc].
      apply elem_of_targetset_new in Ht as [H1 H2]; [|done|done]. apply Hc in H2 as [H2 H3].
      split; [|done]. exists u. split; [done|]. by apply elem_of_targetset_iter.
    + intros [(u & Hu & Ht) Hx]. destruct (Hm u Hu) as [Hi Hp].
      apply elem_of_targetset_iter in Ht as [H1 H2]; [|done].
      destruct (difference_spec _ _ Hp He) as [Hd Hc].
      exists (targetset_new (ts_ips u) (difference (ts_ports u) excluded)). split.
      * apply list_elem_of_omap. exists u. split; [done|]. unfold then_some.
        destruct (portset_is_empty (difference (ts_ports u) excluded)) eqn:En; [|done].
        pose proof (proj2 (Hc _ _) (conj H2 Hx)) as H3. by rewrite (portset_empty_contains _ _ _ En) in H3.
      * apply elem_of_targetset_new; [done|done|]. by split; [|apply Hc].
Qed.

Lemma push_v4_ranges_spec l s :
  ipset_ok s -> Forall v4_ok l ->
  ipset_ok (fold_left push_v4_range l s) /\
  forall ip zone, holds_at (fold_left push_v4_range l s) ip zone <->
    holds_at s ip zone \/ (zone = None /\ exists r, r ∈ l /\ range_contains (RV4 r) ip = true).
Proof.
  revert s. induction l as [|r l IH]; intros s Hs Hl; cbn [fold_left].
  { split; [done|]. intros ip zone. split; [by left|]. intros [?|[_ (r & Hr & _)]]; [done|by apply elem_of_nil in Hr]. }
  inversion Hl as [|? ? Hr Hl']; subst. destruct (push_v4_range_spec s r Hs Hr) as [P1 P2].
  destruct (IH _ P1 Hl') as [I1 I2]. split; [done|]. intros ip zone. rewrite I2, P2, exists_cons. tauto.
Qed.

Lemma push_v4_lists l s :
  ips_v4 (fold_left push_v4_range l s) = ips_v4 s ++ l /\ ips_v6 (fold_left push_v4_range l s) = ips_v6 s.
Proof.
  revert s. induction l as [|r l IH]; intros s; cbn [fold_left]; [by rewrite app_nil_r|].
  destruct (IH (push_v4_range s r)) as [-> ->]. cbn. by rewrite <- app_assoc.
Qed.

Lemma push_kept_v6_spec (keep : Ipv6Range -> bool) l (s : IpSet) :
  ipset_ok s -> Forall v6_ok l ->
  let s' := fold_left (fun (left : IpSet) range => if keep range then push_v6_range left range else left) l s in
  ipset_ok s' /\
  forall ip zone, holds_at s' ip zone <->
    holds_at s ip zone \/
    exists r, r ∈ l /\ keep r = true /\ zone = v6_zone r /\ range_contains (RV6 r) ip = true.
Proof.
  revert s. induction l as [|r l IH]; intros s Hs Hl; cbn [fold_left].
  { split; [done|]. intros ip zone. split; [by left|]. intros [?|(r & Hr & _)]; [done|by apply elem_of_nil in Hr]. }
  inversion Hl as [|? ? Hr Hl']; subst. destruct (keep r) eqn:Ek.
  - destruct (push_v6_range_spec s r Hs Hr) as [P1 P2]. destruct (IH _ P1 Hl') as [I1 I2].
    split; [done|]. intros ip zone. rewrite I2, P2, exists_cons. tauto.
  - destruct (IH s Hs Hl') as [I1 I2]. split; [done|]. intros ip zone. rewrite I2.
    rewrite exists_cons, Ek. intuition congruence.
Qed.

(** What a unit keeps: every IPv4 range, and the IPv6 ranges [keep] accepts. *)
Lemma kept_ips_spec keep ips :
  ipset_ok ips ->
  ipset_canon (kept_ips keep ips) /\
  forall ip, contains (kept_ips keep ips) ip = true <->
    exists r, r ∈ set_ranges ips /\ range_contains r ip = true /\
      match r with RV4 _ => True | RV6 v6 => keep v6 = true end.
Proof.
  intros (H4 & H6 & _). unfold kept_ips.
  destruct (push_v4_ranges_spec (ips_v4 ips) ipset_new ipset_new_ok H4) as [A1 A2].
  destruct (push_kept_v6_spec keep (ips_v6 ips) _ A1 H6) as [B1 B2]. cbv zeta in B1, B2.
  split; [by apply canonicalize_canon|]. intros ip.
  rewrite contains_member, canonicalize_member by (try done; by apply canonicalize_canon).
  unfold member, set_ranges. setoid_rewrite B2. setoid_rewrite A2. split.
  - intros (zone & [[H|[-> (r & Hr & Hc)]]|(r & Hr & Hk & -> & Hc)]).
    + by apply new_holds_nothing in H.
    + exists (RV4 r). split; [|done]. apply elem_of_app. left. apply list_elem_of_fmap. by exists r.
    + exists (RV6 r). split; [|done]. apply elem_of_app. right. apply list_elem_of_fmap. by exists r.
  - intros (r & [(q & -> & Hq)%list_elem_of_fmap|(q & -> & Hq)%list_elem_of_fmap]%elem_of_app & Hc & Hk).
    + exists None. left. right. split; [done|]. by exists q.
    + exists (v6_zone q). right. by exists q.
Qed.

(** ** Claims *)

(** C24: A position names one target: [target_at] is the plan's iterator's [nth]
    below the total and nothing past it.  The index is complete exactly when the
    plan has no more than 2^64 - 1 targets, and then its total is how many the
    iterator yields. *)
Theorem target_at_is_nth (m : TargetMap) (position : Z) :
  targetmap_ok m -> 0 <= position ->
  target_at (index_of_map m) position =
    (if position <? ti_total (index_of_map m) then zlookup (targetmap_iter m) position else None) /\
  fits 64 (ti_total (index_of_map m)) /\
  (ti_complete (index_of_map m) = true <-> zlen (targetmap_iter m) <= umax 64) /\
  (ti_complete (index_of_map m) = true -> ti_total (index_of_map m) = zlen (targetmap_iter m)).
Proof.
  intros Hm Hp. destruct (index_of_map_spec m Hm) as (Hi & taken & left_ & E1 & E2 & E3 & _ & E5).
  pose proof (idx_items_len _ Hi) as Hlen. rewrite E2 in Hlen. pose proof (idx_fits _ Hi) as Hf.
  assert (targetmap_iter m = (taken ≫= targetset_iter) ++ (left_ ≫= targetset_iter)) as Eit.
  { unfold targetmap_iter. by rewrite E1, bind_app. }
  assert (ti_complete (index_of_map m) = true -> ti_total (index_of_map m) = zlen (targetmap_iter m)) as Hc.
  { rewrite E3. intros ->%is_nil_spec. rewrite Eit, zlen_app, Hlen. unfold zlen. cbn. lia. }
  split; [|split; [done|split; [|done]]].
  - rewrite target_at_spec, E2, Eit, zlookup_app, Hlen by done.
    destruct (Z.ltb_spec position (ti_total (index_of_map m))); [done|].
    destruct (zlookup _ position) eqn:E; [|done]. apply zlookup_Some_lt in E. lia.
  - split; [intros H; rewrite <- (Hc H); apply Hf|]. intros Hle. rewrite E3. apply is_nil_spec.
    destruct left_; [done|]. specialize (E5 ltac:(done)). lia.
Qed.

Definition sample_map : TargetMap :=
  mkTargetMap [targetset_new sample_set (mkPortSet [] [] []);
               targetset_new (from_addrs [V4 7]) (mkPortSet [(80, 81)] [(53, 53)] []);
               targetset_new ipset_new (mkPortSet [(1, 9)] [] []);
               targetset_new sample_set (mkPortSet [(22, 22)] [] [(9, 9)])].

Lemma sample_map_ok : targetmap_ok sample_map.
Proof.
  repeat apply Forall_cons_2; try apply Forall_nil_2; (apply targetset_new_ok;
    [first [apply sample_set_ok | apply ipset_new_ok |
       apply from_addrs_spec; repeat constructor; vm_compute; congruence]
    |intros []; solve_lane]).
Qed.

Lemma target_at_is_nth_witness :
  target_at (index_of_map sample_map) 4 = Some (mkTarget (V4 10) 9 Sctp) /\
  ti_total (index_of_map sample_map) = zlen (targetmap_iter sample_map).
Proof.
  destruct (target_at_is_nth sample_map 4 sample_map_ok) as (H1 & _ & _ & H4); [lia|].
  split; [rewrite H1; vm_compute; reflexivity|apply H4; vm_compute; reflexivity].
Defined.

(** Hosts tile the plan.  Each host number below the count has a non-empty
    run of positions within the total, [host_of] answers exactly the host whose
    run holds a position, hosts come in the order of their positions, and every
    position of a run aims at one address. *)
Theorem host_runs_tile (m : TargetMap) :
  targetmap_ok m ->
  let i := index_of_map m in
  (forall h, 0 <= h < ti_hosts i -> 0 <= (host_run i h).1 < (host_run i h).2 /\ (host_run i h).2 <= ti_total i) /\
  (forall p h, 0 <= p < ti_total i ->
     host_of i p = h <-> 0 <= h < ti_hosts i /\ (host_run i h).1 <= p < (host_run i h).2) /\
  (forall p q, 0 <= p <= q -> q < ti_total i -> host_of i p <= host_of i q) /\
  (forall p q, 0 <= p < ti_total i -> 0 <= q < ti_total i -> host_of i p = host_of i q ->
     t_ip <$> target_at i p = t_ip <$> target_at i q).
Proof.
  intros Hm i. destruct (index_of_map_spec m Hm) as [Hi _]. fold i in Hi. split; [|split; [|split]].
  - intros h Hh. pose proof (host_run_bounds i Hi h Hh). lia.
  - intros p h Hp. split; [intros <-; by apply host_of_run|]. intros [Hh Hr]. by apply host_run_of.
  - intros p q. by apply host_of_mono.
  - intros p q Hp Hq E. destruct (same_host_same_address i Hi p q Hp Hq E) as (t & t' & -> & -> & Et).
    cbn. by f_equal.
Qed.

Lemma host_runs_tile_witness :
  host_run (index_of_map sample_map) 1 = (3, 5) /\ host_of (index_of_map sample_map) 4 = 1 /\
  t_ip <$> target_at (index_of_map sample_map) 3 = t_ip <$> target_at (index_of_map sample_map) 4.
Proof.
  destruct (host_runs_tile sample_map sample_map_ok) as (_ & _ & _ & H4).
  split; [vm_compute; reflexivity|]. split; [vm_compute; reflexivity|].
  apply H4; [vm_compute; split; congruence|vm_compute; split; congruence|vm_compute; reflexivity].
Defined.

(** The addresses behind a stretch of positions are exactly the addresses
    its targets aim at. *)
Theorem addresses_in_exact (m : TargetMap) (first last : Z) (ip : IpAddr) :
  targetmap_ok m -> fits 64 first ->
  Forall range_ok (addresses_in (index_of_map m) first last) /\
  ((exists r, r ∈ addresses_in (index_of_map m) first last /\ range_contains r ip = true) <->
   exists position target, first <= position < last /\
     target_at (index_of_map m) position = Some target /\ t_ip target = ip).
Proof. intros Hm. destruct (index_of_map_spec m Hm) as [Hi _]. by apply addresses_in_spec. Qed.

Lemma addresses_in_exact_witness :
  addresses_in (index_of_map sample_map) 2 6 =
    [RV4 (mkIpv4Range 7 7); RV4 (mkIpv4Range 10 11)] /\
  Forall range_ok (addresses_in (index_of_map sample_map) 2 6).
Proof.
  split; [vm_compute; reflexivity|].
  apply (addresses_in_exact sample_map 2 6 (V4 7) sample_map_ok). apply fitsb_spec. reflexivity.
Defined.

(** Withheld ports.  A plan less a port set keeps exactly the targets whose
    port the set does not hold, and stays well formed. *)
Theorem withhold_ports_exact (m : TargetMap) (excluded : PortSet) :
  targetmap_ok m -> portset_ok excluded ->
  targetmap_ok (withhold_ports m excluded) /\
  forall t, t ∈ targetmap_iter (withhold_ports m excluded) <->
    t ∈ targetmap_iter m /\ portset_contains excluded (t_port t) (t_protocol t) = false.
Proof. apply withheld_ports. Qed.

Lemma withhold_ports_exact_witness :
  let excluded := mkPortSet [(22, 22); (80, 80)] [] [(1, 20)] in
  targetmap_iter (withhold_ports sample_map excluded) = [mkTarget (V4 7) 81 Tcp; mkTarget (V4 7) 53 Udp] /\
  targetmap_ok (withhold_ports sample_map excluded).
Proof.
  intros excluded. split; [vm_compute; reflexivity|].
  apply (withhold_ports_exact sample_map excluded sample_map_ok). intros []; solve_lane.
Defined.

(** Gross counts are exact or refused: [gross_targets] is how many targets
    the iterator yields, capped at the largest [u128] it can name, and an error
    only when there are more than that; [gross_ips] likewise for addresses. *)
Theorem gross_counts (m : TargetMap) :
  targetmap_ok m ->
  match gross_targets m with
  | Ok n => n = Z.min (zlen (targetmap_iter m)) (umax 128)
  | Err _ => umax 128 < zlen (targetmap_iter m)
  end /\
  match gross_ips m with
  | Ok n => n = Z.min (zlen (units m ≫= fun unit => ipset_iter (ts_ips unit))) (umax 128)
  | Err _ => umax 128 < zlen (units m ≫= fun unit => ipset_iter (ts_ips unit))
  end.
Proof.
  unfold targetmap_ok. rewrite Forall_forall. intros Hm. unfold targetmap_iter. rewrite !zlen_bind. split.
  - apply (gross_from_spec total_targets (fun u => zlen (targetset_iter u)) (units m) 0); [lia|].
    intros u Hu. split; [apply zlen_nonneg|]. by apply total_targets_spec, Hm.
  - apply (gross_from_spec _ (fun u => zlen (ipset_iter (ts_ips u))) (units m) 0); [lia|].
    intros u Hu. split; [apply zlen_nonneg|]. unfold ip_count. rewrite ipset_len_spec by by apply Hm.
    by rewrite zlen_iter_scoped.
Qed.

Lemma gross_counts_witness : gross_targets sample_map = Ok 23 /\ gross_ips sample_map = Ok 21.
Proof.
  destruct (gross_counts sample_map sample_map_ok) as [H1 H2].
  split; [vm_compute; reflexivity|]. revert H2. vm_compute. congruence.
Defined.
