(* ===== verification/Exclusion.v ===== *)
(** * Addresses a scan may not touch

    [src/src/model/exclusion.rs]: a policy is a merged address set and its twins,
    the same machines in the other spelling (an IPv4 address and the IPv4-mapped
    IPv6 address that names it).  It is enforced when a plan is made ([withhold],
    [withhold_targets]) and again at every probe and finding ([excludes]); the
    theorems say the two agree, exactly what a policy refuses, and how layers and
    the neighbour table add to it. *)

From Stdlib Require Import ZArith Lia.
From stdpp Require Import base numbers sets gmap fin_sets countable option list.
From S2P Require Import Prelude Std Intervals IpRange IpSet Numbering PortSet Mac Target.

Local Open Scope Z_scope.

(** ** Definitions *)

Record Exclusions := mkExclusions {
  ex_set : IpSet;
  ex_twins : IpSet;
}.

(** [twins_of]. *)
Definition push_mapped (twins : IpSet) (range : Ipv4Range) : IpSet :=
  match v6_new (to_ipv6_mapped (v4_start range)) (to_ipv6_mapped (v4_end range)) with
  | Ok mapped => push_v6_range twins mapped
  | Err _ => twins
  end.

Definition push_spelled (twins : IpSet) (range : Ipv6Range) : IpSet :=
  match spelled_ipv4 range with
  | Some spelled => push_v4_range twins spelled
  | None => twins
  end.

Definition twins_of (set : IpSet) : IpSet :=
  let twins := fold_left push_mapped (ips_v4 set) ipset_new in
  let twins := fold_left push_spelled (ips_v6 set) twins in
  canonicalize twins.

Definition exclusions_none : Exclusions := mkExclusions ipset_new ipset_new.

Definition exclusions_new (ips : IpSet) : Exclusions :=
  let ips := canonicalize ips in
  mkExclusions ips (twins_of ips).

Definition exclusions_is_empty (e : Exclusions) : bool := ipset_is_empty (ex_set e).

Definition excludes (e : Exclusions) (ip : IpAddr) : bool :=
  if ipset_is_empty (ex_set e) then false
  else contains (ex_set e) ip || contains (ex_twins e) ip.

Definition exclusions_ranges (e : Exclusions) : list IpRange :=
  (RV4 <$> ips_v4 (ex_set e)) ++ (RV6 <$> ips_v6 (ex_set e)).

Definition exclusions_extend (e other : Exclusions) : Exclusions :=
  if exclusions_is_empty other then e
  else
    let set := fold_left push_v4_range (ips_v4 (ex_set other)) (ex_set e) in
    let set := fold_left push_v6_range (ips_v6 (ex_set other)) set in
    let set := canonicalize set in
    mkExclusions set (twins_of set).

(** A neighbour table: addresses, and the hardware each resolved to. *)
Definition neighbours : Type := list (IpAddr * option MacAddr).

(** [BTreeSet]s are finite sets. *)
Definition hardware_in (e : Exclusions) (table : neighbours) : gset MacAddr :=
  if exclusions_is_empty e then ∅
  else
    list_to_set (filter (fun mac => is_multicast mac = false /\ mac <> MAC_ZERO)
      (omap snd (filter (fun entry => excludes e (fst entry) = true) table))).

Definition tied_to (e : Exclusions) (machines : gset MacAddr) (table : neighbours) : gset IpAddr :=
  if bool_decide (machines = ∅) then ∅
  else
    list_to_set (filter (fun ip => excludes e ip = false)
      (fst <$> filter (fun entry => is_some_and (snd entry) (fun mac => bool_decide (mac ∈ machines)) = true) table)).

(** The iterator is peeked at: an empty one leaves the policy as it is.  The order
    of the addresses is of no consequence to the merged set. *)
Definition widened (e : Exclusions) (addresses : list IpAddr) : Exclusions :=
  if is_nil addresses then e
  else exclusions_new (fold_left ipset_insert addresses (ex_set e)).

Definition tied_in (e : Exclusions) (table : neighbours) : Exclusions :=
  let machines := hardware_in e table in
  widened e (elements (tied_to e machines table)).

(** The set as it is left, and how many addresses it lost. *)
Definition withhold (e : Exclusions) (ips : IpSet) : IpSet * Z :=
  if exclusions_is_empty e then (ips, 0)
  else
    let before := ipset_len ips in
    let ips := subtract ips (ex_set e) in
    let ips := subtract ips (ex_twins e) in
    (ips, sat_sub before (ipset_len ips)).

(** One unit of [withhold_targets]' loop. *)
Definition withhold_unit (e : Exclusions) (acc : Z * list TargetSet) (unit : TargetSet) : Z * list TargetSet :=
  let '(withheld, kept) := acc in
  let '(ips, lost) := withhold e (ts_ips unit) in
  let withheld := sat_add 128 withheld lost in
  if negb (ipset_is_empty ips) then (withheld, kept ++ [targetset_new ips (ts_ports unit)])
  else (withheld, kept).

Definition withhold_targets (e : Exclusions) (m : TargetMap) : TargetMap * Z :=
  if exclusions_is_empty e then (m, 0)
  else
    let '(withheld, kept) := fold_left (withhold_unit e) (units m) (0, []) in
    (mkTargetMap kept, withheld).

(** ** Twins *)

(** The block [::ffff:0:0/96]. *)
Definition MAPPED_FIRST : Z := 0xffff * 2 ^ 32.

Definition MAPPED_LAST : Z := 0xffff * 2 ^ 32 + umax 32.

Definition in_mapped_block (r : Ipv6Range) : Prop := MAPPED_FIRST <= v6_start r /\ v6_end r <= MAPPED_LAST.

(** What a merged set says in the other spelling: an IPv4 address of the set speaks
    for its mapped form, and a mapped address speaks for the IPv4 one when the
    range that holds it lies in the block. *)
Definition speaks (s : IpSet) (ip : IpAddr) : Prop :=
  match ip with
  | V6 y => exists a, fits 32 a /\ y = MAPPED_FIRST + a /\ member s (V4 a)
  | V4 x => exists r, r ∈ ips_v6 s /\ in_mapped_block r /\ v6_start r <= MAPPED_FIRST + x <= v6_end r
  end.

(** What a policy over a merged set refuses. *)
Definition refused (s : IpSet) (ip : IpAddr) : Prop := member s ip \/ speaks s ip.

Record excl_ok (e : Exclusions) : Prop := {
  eo_set : ipset_canon (ex_set e);
  eo_twins : ex_twins e = twins_of (ex_set e);
}.

Lemma push_mapped_spec twins r :
  ipset_ok twins -> v4_ok r ->
  ipset_ok (push_mapped twins r) /\
  forall ip zone, holds_at (push_mapped twins r) ip zone <->
    holds_at twins ip zone \/
    (zone = None /\ exists a, ip = V6 (MAPPED_FIRST + a) /\ v4_start r <= a <= v4_end r).
Proof.
  intros Ht Hr. unfold push_mapped, v6_new, v6_scoped. unfold v4_ok in Hr.
  rewrite !mapped_arith by mlia. rewrite (proj2 (Z.leb_le _ _)) by lia. cbn [option_filter].
  destruct (push_v6_range_spec twins (mkIpv6Range (0xffff * 2 ^ 32 + v4_start r) (0xffff * 2 ^ 32 + v4_end r) None) Ht)
    as [P1 P2].
  { unfold v6_ok. cbn. mlia. }
  split; [done|]. intros ip zone. rewrite P2. cbn [v6_zone].
  assert (range_contains (RV6 (mkIpv6Range (0xffff * 2 ^ 32 + v4_start r) (0xffff * 2 ^ 32 + v4_end r) None)) ip = true <->
    exists a, ip = V6 (MAPPED_FIRST + a) /\ v4_start r <= a <= v4_end r) as ->; [|done].
  unfold MAPPED_FIRST. destruct ip as [x|y]; cbn [range_contains]; [naive_solver|].
  rewrite v6_contains_spec. cbn [v6_start v6_end]. split.
  - intros H. exists (y - 0xffff * 2 ^ 32). split; [f_equal; lia|lia].
  - intros (a & [= ->] & H). lia.
Qed.

Lemma spelled_ipv4_spec r :
  v6_ok r ->
  match spelled_ipv4 r with
  | Some s => in_mapped_block r /\ v4_ok s /\ v4_start s = v6_start r - MAPPED_FIRST /\ v4_end s = v6_end r - MAPPED_FIRST
  | None => ~ in_mapped_block r
  end.
Proof.
  intros (H1 & H2 & H3 & _). unfold spelled_ipv4, in_mapped_block, MAPPED_FIRST, MAPPED_LAST.
  assert (forall x, to_ipv4_mapped x = None -> ~ 0xffff * 2 ^ 32 <= x <= 0xffff * 2 ^ 32 + umax 32) as Hnone.
  { intros x Hx Hin. rewrite (proj2 (to_ipv4_mapped_Some x (x - 0xffff * 2 ^ 32))) in Hx; [done|]. split; mlia. }
  destruct (to_ipv4_mapped (v6_start r)) as [s|] eqn:Es; cbn; [|apply Hnone in Es; mlia].
  destruct (to_ipv4_mapped (v6_end r)) as [e|] eqn:Ee; cbn; [|apply Hnone in Ee; mlia].
  apply to_ipv4_mapped_Some in Es as [Es Hs], Ee as [Ee He]. unfold v4_new.
  rewrite (proj2 (Z.leb_le _ _)) by lia. cbn. unfold v4_ok. cbn. mlia.
Qed.

Lemma push_spelled_spec twins r :
  ipset_ok twins -> v6_ok r ->
  ipset_ok (push_spelled twins r) /\
  forall ip zone, holds_at (push_spelled twins r) ip zone <->
    holds_at twins ip zone \/
    (zone = None /\ exists x, ip = V4 x /\ in_mapped_block r /\ v6_start r <= MAPPED_FIRST + x <= v6_end r).
Proof.
  intros Ht Hr. unfold push_spelled. pose proof (spelled_ipv4_spec r Hr) as Hs.
  destruct (spelled_ipv4 r) as [s|].
  - destruct Hs as (Hin & Hok & E1 & E2). destruct (push_v4_range_spec twins s Ht Hok) as [P1 P2].
    split; [done|]. intros ip zone. rewrite P2. destruct ip as [x|y]; cbn [range_contains].
    + rewrite v4_contains_spec, E1, E2. split; (intros [?|[-> ?]]; [by left|right; split; [done|]]).
      * exists x. split; [done|]. split; [done|lia].
      * destruct H as (x' & [= <-] & _ & ?). lia.
    + naive_solver.
  - split; [done|]. intros ip zone. naive_solver.
Qed.

Lemma push_mapped_all l s :
  ipset_ok s -> Forall v4_ok l ->
  ipset_ok (fold_left push_mapped l s) /\
  forall ip zone, holds_at (fold_left push_mapped l s) ip zone <->
    holds_at s ip zone \/
    (zone = None /\ exists r, r ∈ l /\ exists a, ip = V6 (MAPPED_FIRST + a) /\ v4_start r <= a <= v4_end r).
Proof.
  revert s. induction l as [|r l IH]; intros s Hs Hl; cbn [fold_left].
  { split; [done|]. intros ip zone. split; [by left|]. intros [?|[_ (r & Hr & _)]]; [done|by apply elem_of_nil in Hr]. }
  inversion Hl as [|? ? Hr Hl']; subst. destruct (push_mapped_spec s r Hs Hr) as [P1 P2].
  destruct (IH _ P1 Hl') as [I1 I2]. split; [done|]. intros ip zone. rewrite I2, P2, exists_cons. tauto.
Qed.

Lemma push_spelled_all l s :
  ipset_ok s -> Forall v6_ok l ->
  ipset_ok (fold_left push_spelled l s) /\
  forall ip zone, holds_at (fold_left push_spelled l s) ip zone <->
    holds_at s ip zone \/
    (zone = None /\ exists r, r ∈ l /\ exists x, ip = V4 x /\ in_mapped_block r /\ v6_start r <= MAPPED_FIRST + x <= v6_end r).
Proof.
  revert s. induction l as [|r l IH]; intros s Hs Hl; cbn [fold_left].
  { split; [done|]. intros ip zone. split; [by left|]. intros [?|[_ (r & Hr & _)]]; [done|by apply elem_of_nil in Hr]. }
  inversion Hl as [|? ? Hr Hl']; subst. destruct (push_spelled_spec s r Hs Hr) as [P1 P2].
  destruct (IH _ P1 Hl') as [I1 I2]. split; [done|]. intros ip zone. rewrite I2, P2, exists_cons. tauto.
Qed.

Lemma twins_spec s :
  ipset_ok s -> ipset_canon (twins_of s) /\ forall ip, member (twins_of s) ip <-> speaks s ip.
Proof.
  intros (H4 & H6 & _). destruct (push_mapped_all _ _ ipset_new_ok H4) as [A1 A2].
  destruct (push_spelled_all _ _ A1 H6) as [B1 B2]. unfold twins_of.
  split; [by apply canonicalize_canon|]. intros ip. rewrite canonicalize_member by done.
  unfold member. setoid_rewrite B2. setoid_rewrite A2. rewrite Forall_forall in H4.
  assert (forall zone, ~ holds_at ipset_new ip zone) as Hnew by (intros zone; apply new_holds_nothing).
  destruct ip as [x|y]; cbn [speaks].
  - split.
    + intros (zone & [[H|(_ & r & _ & a & [=] & _)]|(_ & r & Hr & x' & [= <-] & H1 & H2)]); [by apply Hnew in H|]. by exists r.
    + intros (r & Hr & H1 & H2). exists None. right. split; [done|]. exists r. split; [done|]. by exists x.
  - split.
    + intros (zone & [[H|(_ & r & Hr & a & [= ->] & H)]|(_ & r & _ & x & [=] & _)]); [by apply Hnew in H|].
      exists a. specialize (H4 r Hr). unfold v4_ok in H4. split; [mlia|]. split; [done|].
      exists None. cbn. split; [done|]. exists r. split; [done|]. by split.
    + intros (a & Ha & -> & (zone & _ & (r & Hr & _ & Hin))). exists None. left. right. split; [done|].
      exists r. split; [done|]. by exists a.
Qed.

(** ** What a policy refuses *)

Lemma exclusions_new_ok s : ipset_ok s -> excl_ok (exclusions_new s).
Proof. intros Hs. split; [by apply canonicalize_canon|done]. Qed.

Lemma exclusions_none_ok : excl_ok exclusions_none.
Proof. split; [|done]. split; [apply ipset_new_ok|done]. Qed.

Lemma empty_speaks_not s ip : ipset_is_empty s = true -> ~ speaks s ip.
Proof.
  intros E. pose proof (empty_no_member s E) as Hm. destruct ip as [x|y]; cbn [speaks].
  - unfold ipset_is_empty in E. apply andb_true_iff in E as [_ E%is_nil_spec].
    rewrite E. intros (r & Hr & _). by apply elem_of_nil in Hr.
  - intros (a & _ & _ & H). by apply Hm in H.
Qed.

Lemma excludes_spec e ip : excl_ok e -> excludes e ip = true <-> refused (ex_set e) ip.
Proof.
  intros [[Hs _] Ht]. unfold excludes, refused. destruct (ipset_is_empty (ex_set e)) eqn:E.
  - pose proof (empty_no_member _ E ip). pose proof (empty_speaks_not _ ip E). split; [done|tauto].
  - destruct (twins_spec _ Hs) as [[Hok _] Hm]. rewrite <- Ht in Hok, Hm.
    rewrite orb_true_iff, !contains_member by done. by rewrite Hm.
Qed.

(** ** Withholding *)

Lemma withhold_spec e ips :
  excl_ok e -> ipset_ok ips ->
  ipset_ok (fst (withhold e ips)) /\
  (forall ip zone, holds_at (fst (withhold e ips)) ip zone <-> holds_at ips ip zone /\ excludes e ip = false) /\
  snd (withhold e ips) = ipset_len ips - ipset_len (fst (withhold e ips)).
Proof.
  intros He Hi. pose proof (eo_set e He) as [Hs _]. destruct (twins_spec _ Hs) as [[Ht _] Hm].
  rewrite <- (eo_twins e He) in Ht, Hm. unfold withhold.
  destruct (exclusions_is_empty e) eqn:E; cbn [fst snd].
  { split; [done|]. split; [|lia]. intros ip zone. unfold excludes. unfold exclusions_is_empty in E. rewrite E. tauto. }
  pose proof (subtract_ok ips _ Hi Hs) as H1. pose proof (subtract_ok _ _ H1 Ht) as H2. split; [done|].
  assert (forall ip zone, holds_at (subtract (subtract ips (ex_set e)) (ex_twins e)) ip zone <->
    holds_at ips ip zone /\ excludes e ip = false) as Hh.
  { intros ip zone. rewrite !subtract_holds_at by done. rewrite Hm.
    rewrite <- not_true_iff_false, excludes_spec by done. unfold refused. tauto. }
  split; [done|]. unfold sat_sub.
  assert (ipset_len (subtract (subtract ips (ex_set e)) (ex_twins e)) <= ipset_len ips) as Hle; [|lia].
  rewrite !ipset_len_spec by done.
  assert (length (iter_scoped (subtract (subtract ips (ex_set e)) (ex_twins e))) <= length (iter_scoped ips))%nat; [|lia].
  apply submseteq_length, NoDup_submseteq; [by apply NoDup_iter_scoped|].
  intros [ip zone] Hin%elem_of_iter_scoped; [|done]. apply elem_of_iter_scoped; [done|]. by apply Hh in Hin as [Hin _].
Qed.

(** The policy names neither address beside the mapped block, so no range of it crosses
    into the block or touches one that lies there. *)
Definition clear_of_block (ips : IpSet) : bool :=
  negb (contains ips (V6 (MAPPED_FIRST - 1))) && negb (contains ips (V6 (MAPPED_LAST + 1))).

(** A range that meets the block and holds neither address beside it lies in it. *)
Lemma range_in_block r x : 0 <= x <= umax 32 -> v6_start r <= MAPPED_FIRST + x <= v6_end r ->
  ~ v6_start r <= MAPPED_FIRST - 1 <= v6_end r -> ~ v6_start r <= MAPPED_LAST + 1 <= v6_end r -> in_mapped_block r.
Proof. unfold in_mapped_block, MAPPED_FIRST, MAPPED_LAST. lia. Qed.

(** Where the policy is clear of the block, merging its ranges changes nothing they say. *)
Lemma clear_speaks ips ip : ipset_ok ips -> ip_fits ip -> clear_of_block ips = true -> speaks (canonicalize ips) ip <-> speaks ips ip.
Proof.
  intros Hi Hip [H1 H2]%andb_true_iff. rewrite negb_true_iff, <- not_true_iff_false, contains_member in H1, H2 by done.
  assert (forall s r x, (forall ip, member s ip <-> member ips ip) -> r ∈ ips_v6 s -> 0 <= x <= umax 32 ->
    v6_start r <= MAPPED_FIRST + x <= v6_end r -> in_mapped_block r) as Hblock.
  { intros s r x Hs Hr Hx Hin. apply (range_in_block r x Hx Hin); intros Hb; [apply H1|apply H2];
      apply Hs; exists (v6_zone r), r; done. }
  pose proof (canonicalize_holds_at ips) as Hc.
  destruct ip as [x|y]; cbn [speaks]; [|setoid_rewrite canonicalize_member; done].
  assert (0 <= x <= umax 32) as Hx by (cbn in Hip; mlia). split; intros (r & Hr & _ & Hin).
  - assert (holds_at ips (V6 (MAPPED_FIRST + x)) (v6_zone r)) as (r' & Hr' & _ & Hin') by (apply Hc; [done|by exists r]).
    exists r'. split; [done|]. split; [|done]. by apply (Hblock ips r' x).
  - assert (holds_at (canonicalize ips) (V6 (MAPPED_FIRST + x)) (v6_zone r)) as (r' & Hr' & _ & Hin') by (apply Hc; [done|by exists r]).
    exists r'. split; [done|]. split; [|done]. apply (Hblock (canonicalize ips) r' x); [|done..]. intros ip'. by apply canonicalize_member.
Qed.

(** C22: The plan and the gate agree.  [withhold] takes from a target set exactly the
    addresses [excludes] refuses, on every interface, and returns how many that was; so
    nothing the gate refuses is planned, and nothing it allows is lost.  Both refuse the
    addresses the policy names and their other spelling: the mapped form of an IPv4 address
    named and, where the policy does not name an address beside the mapped block, the IPv4
    address of each range written in it.  Where it does, ranges are first merged, so that a
    range written in the block beside one that crosses or touches its edge (::/0, say) no
    longer speaks for IPv4, against the documentation ([layer_readmits]). *)
Theorem withhold_is_excludes (ips targets : IpSet) (ip : IpAddr) (zone : option Z) :
  ipset_ok ips -> ipset_ok targets -> ip_fits ip ->
  let e := exclusions_new ips in
  let '(left_, lost) := withhold e targets in
  (holds_at left_ ip zone <-> holds_at targets ip zone /\ excludes e ip = false) /\
  (excludes e ip = true <-> contains ips ip = true \/ speaks (canonicalize ips) ip) /\
  (clear_of_block ips = true -> excludes e ip = true <-> contains ips ip = true \/ speaks ips ip) /\
  ipset_ok left_ /\ lost = ipset_len targets - ipset_len left_.
Proof.
  intros Hi Ht Hip e. pose proof (exclusions_new_ok ips Hi) as He. fold e in He.
  destruct (withhold_spec e targets He Ht) as (W1 & W2 & W3). destruct (withhold e targets) as [left_ lost]. cbn [fst snd] in *.
  assert (excludes e ip = true <-> contains ips ip = true \/ speaks (canonicalize ips) ip) as Hx.
  { rewrite excludes_spec, contains_member by done. unfold refused, e. cbn [exclusions_new ex_set]. by rewrite canonicalize_member. }
  split; [apply W2|]. split; [done|]. split; [|done]. intros Hc. by rewrite Hx, clear_speaks.
Qed.

Lemma withhold_is_excludes_witness :
  let policy := from_ranges [RV4 (mkIpv4Range 3232235776 3232235791); RV6 (v6_single (MAPPED_FIRST + 3221225985))] in
  let targets := from_ranges [RV4 (mkIpv4Range 3232235780 3232235800); RV6 (v6_single (MAPPED_FIRST + 3232235777)); RV4 (mkIpv4Range 3221225985 3221225985)] in
  snd (withhold (exclusions_new policy) targets) = 14 /\
  excludes (exclusions_new policy) (V6 (MAPPED_FIRST + 3232235777)) = true /\
  (holds_at (fst (withhold (exclusions_new policy) targets)) (V4 3221225985) None <->
   holds_at targets (V4 3221225985) None /\ excludes (exclusions_new policy) (V4 3221225985) = false) /\
  (excludes (exclusions_new policy) (V4 3221225985) = true <-> contains policy (V4 3221225985) = true \/ speaks policy (V4 3221225985)).
Proof.
  intros policy targets. split; [vm_compute; reflexivity|]. split; [vm_compute; reflexivity|].
  pose proof (withhold_is_excludes policy targets (V4 3221225985) None) as H.
  assert (ipset_ok policy) as Hp.
  { apply from_ranges_spec. unfold MAPPED_FIRST. repeat constructor; cbn; try unfold v4_ok; try unfold v6_ok; cbn; mlia. }
  assert (ipset_ok targets) as Ht.
  { apply from_ranges_spec. unfold MAPPED_FIRST. repeat constructor; cbn; try unfold v4_ok; try unfold v6_ok; cbn; mlia. }
  specialize (H Hp Ht ltac:(cbn; mlia)). cbv zeta in H. destruct (withhold (exclusions_new policy) targets) as [left_ lost].
  destruct H as (H1 & _ & H2 & _). split; [exact H1|]. apply H2. vm_compute. reflexivity.
Defined.

(** ** Plans *)

(** The unit a unit becomes, when any of it is left. *)
Definition kept_unit (e : Exclusions) (unit : TargetSet) : option TargetSet :=
  let ips := fst (withhold e (ts_ips unit)) in
  then_some (negb (ipset_is_empty ips)) (targetset_new ips (ts_ports unit)).

Definition lost_unit (e : Exclusions) (unit : TargetSet) : Z := snd (withhold e (ts_ips unit)).

Lemma withhold_units_spec e l withheld kept :
  fold_left (withhold_unit e) l (withheld, kept) =
  (fold_left (fun n unit => sat_add 128 n (lost_unit e unit)) l withheld, kept ++ omap (kept_unit e) l).
Proof.
  revert withheld kept. induction l as [|u l IH]; intros withheld kept; cbn [fold_left omap list_omap]; [by rewrite app_nil_r|].
  unfold withhold_unit at 2, kept_unit, lost_unit at 2. destruct (withhold e (ts_ips u)) as [ips lost]. cbn [fst snd].
  unfold then_some. destruct (ipset_is_empty ips); cbn [negb]; rewrite IH; [done|]. by rewrite <- app_assoc.
Qed.

Lemma ipset_len_same a b :
  ipset_ok a -> ipset_ok b -> (forall ip zone, holds_at a ip zone <-> holds_at b ip zone) -> ipset_len a = ipset_len b.
Proof.
  intros Ha Hb E. rewrite !ipset_len_spec by done.
  assert (iter_scoped a ≡ₚ iter_scoped b) as Hp; [|by rewrite Hp].
  apply NoDup_Permutation; [by apply NoDup_iter_scoped|by apply NoDup_iter_scoped|].
  intros [ip zone]. rewrite !elem_of_iter_scoped by done. apply E.
Qed.

Lemma ipset_len_bounds s : ipset_ok s -> 0 <= ipset_len s <= umax 128.
Proof. intros Hs. rewrite ipset_len_spec by done. mlia. Qed.

Lemma ipset_len_empty s : ipset_ok s -> ipset_is_empty s = true -> ipset_len s = 0.
Proof.
  intros Hs E. rewrite ipset_len_spec by done. destruct (iter_scoped s) as [|[ip zone] l] eqn:El; [done|].
  exfalso. apply (empty_no_member s E ip). exists zone. apply elem_of_iter_scoped; [done|]. rewrite El. by left.
Qed.

(** What a unit loses is what its count falls by. *)
Lemma kept_unit_count e unit :
  excl_ok e -> targetset_ok unit ->
  0 <= lost_unit e unit /\
  lost_unit e unit = ip_count unit - match kept_unit e unit with Some u => ip_count u | None => 0 end.
Proof.
  intros He [Hi Hp]. destruct (withhold_spec e (ts_ips unit) He Hi) as (W1 & W2 & W3).
  unfold lost_unit, kept_unit, ip_count, then_some in *.
  assert (ipset_len (fst (withhold e (ts_ips unit))) <= ipset_len (ts_ips unit)) as Hle.
  { rewrite !ipset_len_spec by done.
    assert (length (iter_scoped (fst (withhold e (ts_ips unit)))) <= length (iter_scoped (ts_ips unit)))%nat; [|lia].
    apply submseteq_length, NoDup_submseteq; [by apply NoDup_iter_scoped|].
    intros [ip zone] Hin%elem_of_iter_scoped; [|done]. apply elem_of_iter_scoped; [done|]. by apply W2 in Hin as [Hin _]. }
  rewrite W3. split; [lia|]. destruct (ipset_is_empty _) eqn:E; cbn [negb].
  - by rewrite (ipset_len_empty _ W1 E).
  - cbn [targetset_new ts_ips]. rewrite (ipset_len_same (canonicalize (fst (withhold e (ts_ips unit)))) (fst (withhold e (ts_ips unit)))); [done| |done|].
    + by apply canonicalize_canon.
    + intros. by apply canonicalize_holds_at.
Qed.

Definition ip_total (l : list TargetSet) : Z := foldr (fun u n => ip_count u + n) 0 l.

Lemma ip_total_nonneg l : Forall targetset_ok l -> 0 <= ip_total l.
Proof.
  induction 1 as [|u l [Hu _] _ IH]; [done|].
  change (ip_total (u :: l)) with (ipset_len (ts_ips u) + ip_total l). pose proof (ipset_len_bounds _ Hu). lia.
Qed.

Lemma gross_ips_total l total :
  Forall targetset_ok l -> 0 <= total ->
  gross_from (fun unit => Ok (ip_count unit)) total l =
  if total + ip_total l <=? umax 128 then Ok (total + ip_total l)
  else if is_nil l then Ok total else Err CapacityOverflow.
Proof.
  intros Hl. revert total. induction Hl as [|u l Hu Hl IH]; intros total Ht; cbn [gross_from ip_total foldr is_nil].
  { rewrite Z.add_0_r. by destruct (_ <=? _). }
  pose proof (ipset_len_bounds _ (proj1 Hu)) as Hb. pose proof (ip_total_nonneg l Hl) as Hn. fold (ip_total l).
  unfold ip_count in *. cbn [try_]. unfold checked_add.
  destruct (Z.leb_spec (total + ipset_len (ts_ips u)) (umax 128)).
  - rewrite IH by lia. rewrite Z.add_assoc. destruct (Z.leb_spec (total + ipset_len (ts_ips u) + ip_total l) (umax 128)); [done|].
    destruct l; [change (ip_total []) with 0 in *; lia|done].
  - rewrite (proj2 (Z.leb_gt _ _)) by lia. done.
Qed.

Lemma lost_total e l n :
  excl_ok e -> Forall targetset_ok l -> 0 <= n -> n + ip_total l <= umax 128 ->
  fold_left (fun n unit => sat_add 128 n (lost_unit e unit)) l n = n + ip_total l - ip_total (omap (kept_unit e) l).
Proof.
  intros He Hl. revert n. induction Hl as [|u l Hu Hl IH]; intros n Hn Hle; [cbn; lia|].
  destruct (kept_unit_count e u He Hu) as [K1 K2]. pose proof (ip_total_nonneg l Hl) as Hnn.
  pose proof (ipset_len_bounds _ (proj1 Hu)) as Hb. cbn [fold_left omap list_omap] in *.
  change (ip_total (u :: l)) with (ip_count u + ip_total l) in *.
  assert (lost_unit e u <= ip_count u) as Hlost.
  { rewrite K2. unfold kept_unit, then_some. destruct (negb _); [|lia]. cbn [targetset_new].
    assert (0 <= ip_count (targetset_new (fst (withhold e (ts_ips u))) (ts_ports u))); [|lia].
    unfold ip_count. apply ipset_len_bounds. cbn. apply canonicalize_canon. by apply withhold_spec, Hu. }
  unfold sat_add at 2. rewrite Z.min_l by lia. rewrite IH by lia.
  destruct (kept_unit e u) as [v|]; [change (ip_total (v :: ?k)) with (ip_count v + ip_total k)|]; lia.
Qed.

Lemma kept_total_le e l : excl_ok e -> Forall targetset_ok l -> ip_total (omap (kept_unit e) l) <= ip_total l.
Proof.
  intros He. induction 1 as [|u l Hu _ IH]; [done|]. destruct (kept_unit_count e u He Hu) as [K1 K2].
  change (ip_total (u :: l)) with (ip_count u + ip_total l). cbn [omap list_omap] in *.
  destruct (kept_unit e u) as [v|]; [change (ip_total (v :: ?k)) with (ip_count v + ip_total k)|]; lia.
Qed.

Lemma kept_units_ok e l : excl_ok e -> Forall targetset_ok l -> Forall targetset_ok (omap (kept_unit e) l).
Proof.
  intros He Hl. rewrite Forall_forall in Hl |- *. intros s (u & Hu & Hs)%list_elem_of_omap. destruct (Hl u Hu) as [Hi Hp].
  unfold kept_unit, then_some in Hs. destruct (negb _); [|done]. injection Hs as <-. apply targetset_new_ok; [|done].
  by apply withhold_spec.
Qed.

Lemma elem_of_kept_unit e u t :
  excl_ok e -> targetset_ok u ->
  (exists s, kept_unit e u = Some s /\ t ∈ targetset_iter s) <-> t ∈ targetset_iter u /\ excludes e (t_ip t) = false.
Proof.
  intros He Hu. destruct (withhold_spec e (ts_ips u) He (proj1 Hu)) as (W1 & W2 & _).
  assert (forall ip, contains (fst (withhold e (ts_ips u))) ip = true <-> contains (ts_ips u) ip = true /\ excludes e ip = false) as Hc.
  { intros ip. rewrite !contains_member by (done || apply Hu). unfold member. setoid_rewrite W2. naive_solver. }
  rewrite elem_of_targetset_iter by done. unfold kept_unit, then_some. destruct (ipset_is_empty _) eqn:E; cbn [negb].
  - split; [by intros (s & [=] & _)|]. intros [[H1 _] H2]. pose proof (proj2 (Hc _) (conj H1 H2)) as H3.
    apply contains_member in H3; [|done]. by apply (empty_no_member _ E) in H3.
  - split.
    + intros (s & [= <-] & Ht). apply elem_of_targetset_new in Ht as [H1 H2]; [|done|apply Hu]. apply Hc in H1. tauto.
    + intros [[H1 H2] H3]. eexists. split; [done|]. apply elem_of_targetset_new; [done|apply Hu|]. split; [|done]. by apply Hc.
Qed.

(** A policy taken from a plan.  The plan left has exactly the targets whose
    address the gate allows, and stays well formed; and where the plan's gross
    count of addresses can be named at all, the number withheld is what the count
    falls by. *)
Theorem withhold_targets_exact (e : Exclusions) (m : TargetMap) :
  excl_ok e -> targetmap_ok m ->
  let '(m', withheld) := withhold_targets e m in
  targetmap_ok m' /\
  (forall t, t ∈ targetmap_iter m' <-> t ∈ targetmap_iter m /\ excludes e (t_ip t) = false) /\
  forall n, gross_ips m = Ok n -> gross_ips m' = Ok (n - withheld).
Proof.
  intros He Hm. unfold withhold_targets. destruct (exclusions_is_empty e) eqn:E.
  { split; [done|]. split; [|intros n ->; f_equal; lia]. intros t. unfold excludes. unfold exclusions_is_empty in E.
    rewrite E. tauto. }
  rewrite withhold_units_spec. cbn [app]. split; [by apply kept_units_ok|]. split.
  - intros t. rewrite !elem_of_targetmap_iter. cbn [units]. unfold targetmap_ok in Hm. rewrite Forall_forall in Hm. split.
    + intros (s & (u & Hu & Hs)%list_elem_of_omap & Ht).
      destruct (proj1 (elem_of_kept_unit e u t He (Hm u Hu))) as [H1 H2]; [by exists s|]. split; [by exists u|done].
    + intros [(u & Hu & Ht) Hx]. destruct (proj2 (elem_of_kept_unit e u t He (Hm u Hu)) (conj Ht Hx)) as (s & Hs & Hin).
      exists s. split; [|done]. apply list_elem_of_omap. by exists u.
  - intros n. unfold gross_ips. cbn [units]. pose proof (kept_units_ok e _ He Hm) as Hk.
    rewrite !gross_ips_total by done. rewrite !Z.add_0_l.
    destruct (Z.leb_spec (ip_total (units m)) (umax 128)) as [Hle|Hgt].
    + intros [= <-]. pose proof (lost_total e (units m) 0 He Hm ltac:(lia) ltac:(lia)) as HL. rewrite HL.
      pose proof (kept_total_le e _ He Hm).
      rewrite (proj2 (Z.leb_le _ _)) by lia. f_equal. lia.
    + destruct (units m); [cbn in Hgt; unfold umax in Hgt; lia|done].
Qed.

Definition sample_policy : Exclusions := exclusions_new (from_ranges [RV4 (mkIpv4Range 8 20)]).

Lemma sample_policy_ok : excl_ok sample_policy.
Proof.
  apply exclusions_new_ok. apply from_ranges_spec. repeat constructor; unfold v4_ok; cbn; mlia.
Qed.

Lemma withhold_targets_exact_witness :
  let '(m', withheld) := withhold_targets sample_policy sample_map in
  gross_ips sample_map = Ok 21 /\ withheld = 12 /\ gross_ips m' = Ok (21 - withheld).
Proof.
  pose proof (withhold_targets_exact sample_policy sample_map sample_policy_ok sample_map_ok) as H.
  assert (snd (withhold_targets sample_policy sample_map) = 12) as E by (vm_compute; reflexivity).
  destruct (withhold_targets sample_policy sample_map) as [m' withheld]. cbn [snd] in E. destruct H as (_ & _ & H).
  split; [vm_compute; reflexivity|]. split; [done|]. apply H. vm_compute. reflexivity.
Defined.

(** ** Layers *)

Lemma push_v6_ranges_spec l s :
  ipset_ok s -> Forall v6_ok l ->
  ipset_ok (fold_left push_v6_range l s) /\
  ips_v4 (fold_left push_v6_range l s) = ips_v4 s /\ ips_v6 (fold_left push_v6_range l s) = ips_v6 s ++ l.
Proof.
  revert s. induction l as [|r l IH]; intros s Hs Hl; cbn [fold_left]; [by rewrite app_nil_r|].
  inversion Hl as [|? ? Hr Hl']; subst. destruct (push_v6_range_spec s r Hs Hr) as [P1 _].
  destruct (IH _ P1 Hl') as (I1 & I2 & I3). split; [done|]. rewrite I2, I3. cbn. split; [done|]. by rewrite <- app_assoc.
Qed.

(** The extended policy's set is the union of the two. *)
Lemma extend_set a b :
  excl_ok a -> excl_ok b ->
  excl_ok (exclusions_extend a b) /\
  (forall g x, den (ips_v4 (ex_set (exclusions_extend a b))) g x <-> den (ips_v4 (ex_set a)) g x \/ den (ips_v4 (ex_set b)) g x) /\
  (forall g x, den (ips_v6 (ex_set (exclusions_extend a b))) g x <-> den (ips_v6 (ex_set a)) g x \/ den (ips_v6 (ex_set b)) g x).
Proof.
  intros Ha Hb. unfold exclusions_extend. destruct (exclusions_is_empty b) eqn:E.
  { unfold exclusions_is_empty, ipset_is_empty in E. apply andb_true_iff in E as [E4%is_nil_spec E6%is_nil_spec].
    split; [done|]. rewrite E4, E6. setoid_rewrite den_nil. split; tauto. }
  destruct (eo_set a Ha) as [Sa _], (eo_set b Hb) as [(B4 & B6 & _) _].
  destruct (push_v4_ranges_spec _ _ Sa B4) as [P1 _]. destruct (push_v4_lists (ips_v4 (ex_set b)) (ex_set a)) as [L1 L2].
  destruct (push_v6_ranges_spec _ _ P1 B6) as (Q1 & Q2 & Q3). cbn [ex_set]. split.
  { split; [by apply canonicalize_canon|done]. }
  destruct (canonicalize_v4_spec _ Q1) as (_ & _ & C4), (canonicalize_v6_spec _ Q1) as (_ & _ & C6).
  setoid_rewrite C4. setoid_rewrite C6. rewrite Q2, Q3, L1, L2. setoid_rewrite den_app. done.
Qed.

Lemma extend_member a b ip :
  excl_ok a -> excl_ok b ->
  member (ex_set (exclusions_extend a b)) ip <-> member (ex_set a) ip \/ member (ex_set b) ip.
Proof.
  intros Ha Hb. destruct (extend_set a b Ha Hb) as (_ & E4 & E6). destruct ip as [x|y].
  - by rewrite !member_den_v4, E4.
  - rewrite !member_den_v6. setoid_rewrite E6. naive_solver.
Qed.

(** An interval that meets a member of a merged vector and is held by the vector
    lies within that member. *)
Lemma canon_within {R} `{Interval R} (l : list R) r g a b :
  canon l -> r ∈ l -> grp r = g -> (forall x, a <= x <= b -> den l g x) ->
  (exists x, a <= x <= b /\ lo r <= x <= hi r) -> lo r <= a /\ b <= hi r.
Proof.
  intros [Hs Hv] Hr Hg Hden (x & Hx & Hxr).
  assert (forall y, a <= y <= b -> y = lo r - 1 \/ y = hi r + 1 -> False) as Hgap.
  { intros y Hy Hedge. destruct (Hden y Hy) as (q & Hq & Hgq & Hin). rewrite Forall_forall in Hv.
    pose proof (Hv r Hr) as Vr. pose proof (Hv q Hq) as Vq. unfold iv_valid in *.
    apply list_elem_of_lookup in Hr as [i Hi], Hq as [j Hj].
    destruct (Nat.lt_trichotomy i j) as [Hij|[->|Hij]].
    - pose proof (StronglySorted_lookup _ l i j r q Hs Hij Hi Hj) as Hap. unfold apart in Hap. lia.
    - simplify_eq. lia.
    - pose proof (StronglySorted_lookup _ l j i q r Hs Hij Hj Hi) as Hap. unfold apart in Hap. lia. }
  split; apply Z.nlt_ge; intros Hlt.
  - apply (Hgap (lo r - 1)); [lia|by left].
  - apply (Hgap (hi r + 1)); [lia|by right].
Qed.

(** A range that meets a merged range of the block is in the block, when the merged
    set holds it. *)
Lemma block_part s r q y :
  ipset_canon s -> r ∈ ips_v6 s -> in_mapped_block r -> grp q = grp r ->
  (forall x, v6_start q <= x <= v6_end q -> den (ips_v6 s) (grp q) x) ->
  v6_start q <= y <= v6_end q -> v6_start r <= y <= v6_end r -> in_mapped_block q.
Proof.
  intros [(_ & _ & _ & Hc) (_ & Hd)] Hr [B1 B2] Hg Hden Hq Hy. specialize (Hc Hd).
  destruct (canon_within (ips_v6 s) r (grp q) (v6_start q) (v6_end q) Hc Hr) as [W1 W2]; [done|done|by exists y|].
  unfold in_mapped_block. cbn in W1, W2. lia.
Qed.

(** A range that stands clear of the block's edges: inside it, or not next to it. *)
Definition clear (r : Ipv6Range) : Prop :=
  in_mapped_block r \/ v6_end r + 1 < MAPPED_FIRST \/ MAPPED_LAST + 1 < v6_start r.

(** In a merged set of clear ranges, every range that meets the block is in it. *)
Lemma clear_in_block (l : list Ipv6Range) s r y :
  ipset_canon s -> Forall clear l -> (forall g x, den (ips_v6 s) g x <-> den l g x) ->
  r ∈ ips_v6 s -> v6_start r <= y <= v6_end r -> MAPPED_FIRST <= y <= MAPPED_LAST -> in_mapped_block r.
Proof.
  intros [Hok _] Hl E Hr Hy Hb. rewrite Forall_forall in Hl.
  assert (forall x, v6_start r <= x <= v6_end r -> x = MAPPED_FIRST - 1 \/ x = MAPPED_LAST + 1 -> False) as Hedge.
  { intros x Hx Hx'. destruct (proj1 (E (grp r) x)) as (q & Hq & _ & Hin); [by exists r|]. cbn in Hin.
    destruct (Hl q Hq) as [[? ?]|?]; unfold MAPPED_LAST, MAPPED_FIRST in *; mlia. }
  unfold in_mapped_block. split; apply Z.nlt_ge; intros Hlt.
  - apply (Hedge (MAPPED_FIRST - 1)); [lia|by left].
  - apply (Hedge (MAPPED_LAST + 1)); [lia|by right].
Qed.

(** Layers add up.  Extending a policy by another names the union of what the
    two name, refuses nothing that neither refused, and refuses every IPv6 address
    and every IPv4 address named as such that either did.  An IPv4 address refused
    only through its mapped spelling stays refused too, as long as no layer has an
    IPv6 range that crosses or touches an edge of the mapped block from outside. *)
Theorem layers_add_up (a b : Exclusions) (ip : IpAddr) :
  excl_ok a -> excl_ok b ->
  let e := exclusions_extend a b in
  excl_ok e /\
  (contains (ex_set e) ip = contains (ex_set a) ip || contains (ex_set b) ip) /\
  (excludes e ip = true -> excludes a ip = true \/ excludes b ip = true) /\
  (match ip with
   | V6 _ => True
   | V4 _ => contains (ex_set a) ip || contains (ex_set b) ip = true \/
             Forall clear (ips_v6 (ex_set a)) /\ Forall clear (ips_v6 (ex_set b))
   end -> excludes a ip = true \/ excludes b ip = true -> excludes e ip = true).
Proof.
  intros Ha Hb e. destruct (extend_set a b Ha Hb) as (He & E4 & E6). fold e in He, E4, E6.
  pose proof (extend_member a b ip Ha Hb) as Hm. fold e in Hm.
  pose proof (proj1 (eo_set a Ha)) as Sa. pose proof (proj1 (eo_set b Hb)) as Sb. pose proof (eo_set e He) as Ce.
  assert (contains (ex_set e) ip = contains (ex_set a) ip || contains (ex_set b) ip) as Hcont.
  { apply eq_iff_eq_true. rewrite orb_true_iff, !contains_member by (done || apply Ce). done. }
  split; [done|]. split; [done|]. rewrite !excludes_spec by done. unfold refused. rewrite Hm. split.
  - intros [H|H]; [tauto|]. destruct ip as [x|y]; cbn [speaks] in H |- *.
    + destruct H as (r & Hr & Hin & Hx). destruct (proj1 (E6 (grp r) (MAPPED_FIRST + x))) as [(q & Hq & Hg & Hy)|(q & Hq & Hg & Hy)];
        [by exists r|left; right|right; right]; exists q; (split; [done|]); (split; [|done]);
        apply (block_part (ex_set e) r q (MAPPED_FIRST + x) Ce Hr Hin Hg); try done; intros z Hz; apply E6; [left|right]; by exists q.
    + destruct H as (v & Hv & -> & H). apply extend_member in H; [|done|done]. destruct H; [left|right]; right; by exists v.
  - intros Hcase Hor.
    assert (forall s, s = ex_set a \/ s = ex_set b -> forall z, member s z -> member (ex_set a) z \/ member (ex_set b) z) as Hpart
      by (intros s [-> | ->]; tauto).
    assert (forall s, s = ex_set a \/ s = ex_set b -> speaks s ip -> (member (ex_set a) ip \/ member (ex_set b) ip) \/ speaks (ex_set e) ip) as Hsp;
      [|destruct Hor as [[?|?]|[?|?]]; eauto].
    intros s Hs Hspeak. destruct ip as [x|y]; cbn [speaks] in Hspeak |- *.
    + destruct Hcase as [Hc|[Ca Cb]].
      { left. apply orb_true_iff in Hc. by rewrite !contains_member in Hc by done. }
      right. destruct Hspeak as (q & Hq & [B1 B2] & Hx).
      assert (den (ips_v6 (ex_set e)) (grp q) (MAPPED_FIRST + x)) as (r & Hr & Hg & Hy).
      { apply E6. destruct Hs as [-> | ->]; [left|right]; by exists q. }
      exists r. split; [done|]. split; [|done].
      apply (clear_in_block (ips_v6 (ex_set a) ++ ips_v6 (ex_set b)) (ex_set e) r (MAPPED_FIRST + x)); try done.
      * by apply Forall_app.
      * intros g z. by rewrite E6, den_app.
      * lia.
    + right. destruct Hspeak as (v & Hv & -> & H). exists v. split; [done|]. split; [done|].
      apply extend_member; [done|done|]. by eapply Hpart.
Qed.

Lemma single_policy_ok a : fits 32 a -> excl_ok (exclusions_new (from_addrs [V4 a])).
Proof. intros Ha. apply exclusions_new_ok, from_addrs_spec. constructor; [done|constructor]. Qed.

Lemma layers_add_up_witness :
  excludes (exclusions_extend (exclusions_new (from_addrs [V4 7])) (exclusions_new (from_addrs [V4 9]))) (V4 7) = true.
Proof.
  apply (layers_add_up (exclusions_new (from_addrs [V4 7])) (exclusions_new (from_addrs [V4 9])) (V4 7)).
  - apply single_policy_ok. mlia.
  - apply single_policy_ok. mlia.
  - left. vm_compute. reflexivity.
  - left. vm_compute. reflexivity.
Defined.

(** A layer can let an address back in.  The administrator's policy names the
    mapped address [::ffff:192.0.2.1] and so refuses [192.0.2.1]; extended by a
    layer that names [::/0], it refuses [192.0.2.1] no longer, since the twins are
    derived after the ranges merge. *)
Theorem layer_readmits :
  let admin := exclusions_new (from_addrs [V6 (MAPPED_FIRST + 0xC0000201)]) in
  let user := exclusions_new (from_ranges [RV6 (mkIpv6Range 0 (umax 128) None)]) in
  excludes admin (V4 0xC0000201) = true /\ excludes (exclusions_extend admin user) (V4 0xC0000201) = false.
Proof. vm_compute. done. Qed.

(** ** A machine's other addresses *)

(** A hardware address that names one machine: neither a group nor all zeroes. *)
Definition station (mac : MacAddr) : Prop := is_multicast mac = false /\ mac <> MAC_ZERO.

(** [ip] answers, by [table], from hardware an excluded address answers from. *)
Definition tied (e : Exclusions) (table : neighbours) (ip : IpAddr) : Prop :=
  exists mac named, station mac /\ (ip, Some mac) ∈ table /\ (named, Some mac) ∈ table /\ excludes e named = true.

Lemma elem_of_hardware_in e table mac :
  mac ∈ hardware_in e table <-> station mac /\ exists named, (named, Some mac) ∈ table /\ excludes e named = true.
Proof.
  unfold hardware_in. destruct (exclusions_is_empty e) eqn:E.
  { split; [set_solver|]. intros (_ & named & _ & H). unfold excludes, exclusions_is_empty in *. by rewrite E in H. }
  rewrite elem_of_list_to_set, list_elem_of_filter, list_elem_of_omap. unfold station. split.
  - intros (H1 & [named m] & [H2 H3]%list_elem_of_filter & H4). cbn in *. subst m. split; [done|]. by exists named.
  - intros (H1 & named & H2 & H3). split; [done|]. exists (named, Some mac). split; [|done].
    apply list_elem_of_filter. by cbn.
Qed.

Lemma elem_of_tied_to e table ip :
  ip ∈ tied_to e (hardware_in e table) table <-> excludes e ip = false /\ tied e table ip.
Proof.
  unfold tied_to, tied. case_bool_decide as E.
  - split; [set_solver|]. intros (_ & mac & named & Hs & _ & H1 & H2). exfalso.
    assert (mac ∈ hardware_in e table) as Hin by (apply elem_of_hardware_in; eauto). rewrite E in Hin. set_solver.
  - rewrite elem_of_list_to_set, list_elem_of_filter, list_elem_of_fmap. split.
    + intros (H1 & [ip' m] & -> & [H2 H3]%list_elem_of_filter). split; [done|]. cbn [fst snd] in *.
      apply is_some_and_true in H2 as (mac & -> & H2). apply bool_decide_eq_true, elem_of_hardware_in in H2 as (H4 & named & H5 & H6).
      by exists mac, named.
    + intros (H1 & mac & named & H2 & H3 & H4 & H5). split; [done|]. exists (ip, Some mac). split; [done|].
      apply list_elem_of_filter. split; [|done]. cbn [fst snd]. apply is_some_and_true. exists mac. split; [done|].
      apply bool_decide_eq_true, elem_of_hardware_in. eauto.
Qed.

(** An address names a machine.  Read against a neighbour table, a policy
    comes to name exactly what it named and every address the table lists at
    hardware that answers for an excluded address, group addresses and the all-zero
    address apart; and all of these are refused. *)
Theorem tied_in_exact (e : Exclusions) (table : neighbours) (ip : IpAddr) :
  excl_ok e -> Forall (fun entry => ip_fits (fst entry)) table ->
  let e' := tied_in e table in
  excl_ok e' /\
  (contains (ex_set e') ip = true <-> contains (ex_set e) ip = true \/ (excludes e ip = false /\ tied e table ip)) /\
  (contains (ex_set e') ip = true -> excludes e' ip = true).
Proof.
  intros He Ht. unfold tied_in, widened. set (X := tied_to e (hardware_in e table) table).
  assert (forall ip, ip ∈ elements X <-> excludes e ip = false /\ tied e table ip) as HX.
  { intros i. unfold X. by rewrite elem_of_elements, elem_of_tied_to. }
  pose proof (proj1 (eo_set e He)) as Hs.
  assert (excl_ok (if is_nil (elements X) then e else exclusions_new (fold_left ipset_insert (elements X) (ex_set e))) /\
    (contains (ex_set (if is_nil (elements X) then e else exclusions_new (fold_left ipset_insert (elements X) (ex_set e)))) ip = true <->
     contains (ex_set e) ip = true \/ ip ∈ elements X)) as [H1 H2].
  { destruct (is_nil (elements X)) eqn:E.
    - apply is_nil_spec in E. rewrite E. split; [done|]. rewrite elem_of_nil. tauto.
    - assert (Forall ip_fits (elements X)) as Hf.
      { apply Forall_forall. intros i (_ & mac & named & _ & Hin & _)%HX. rewrite Forall_forall in Ht. by apply (Ht (i, Some mac)). }
      destruct (extend_spec (elements X) (ex_set e) Hs Hf) as [X1 X2]. unfold ipset_extend in X1, X2.
      split; [by apply exclusions_new_ok|]. cbn [exclusions_new ex_set].
      rewrite !contains_member, canonicalize_member by (try done; by apply canonicalize_canon).
      unfold member. setoid_rewrite X2. naive_solver. }
  split; [done|]. split; [by rewrite H2, HX|]. intros H. apply excludes_spec; [done|]. left.
  apply contains_member; [|done]. apply (eo_set _ H1).
Qed.

Lemma tied_in_exact_witness :
  let e := exclusions_new (from_addrs [V4 7]) in
  let table := [(V4 7, Some [2; 0; 0; 0; 0; 5]); (V6 900, Some [2; 0; 0; 0; 0; 5]); (V4 8, Some [2; 0; 0; 0; 0; 6]); (V6 901, None)] in
  excludes (tied_in e table) (V6 900) = true /\ excludes (tied_in e table) (V4 8) = false.
Proof.
  intros e table. split; [|vm_compute; reflexivity].
  apply (tied_in_exact e table (V6 900)); [apply single_policy_ok; mlia|unfold table; repeat constructor; cbn; mlia|].
  vm_compute. reflexivity.
Defined.
