(* ===== verification/Scoped.v ===== *)
(** * Interfaces of link-local targets

    [src/src/model/ip/scoped.rs] ([Zone], [ScopedIp], [ZoneMap]) and
    [TargetMap::take_unprobeable] of [src/src/model/target.rs], which takes out of
    a plan what a port phase cannot probe before anything numbers it: the
    link-local ranges on no interface, those whose address another range names on
    another interface, and the ranges the host finds too wide to walk.  The text
    forms of [ScopedIp] are not modelled. *)

From Stdlib Require Import ZArith Lia.
From stdpp Require Import base numbers sets option list.
From S2P Require Import Prelude Std Intervals IpRange IpSet Numbering Positions PortSet Text Target.

Local Open Scope Z_scope.

(** ** Definitions *)

Record Zone := mkZone {
  z_index : option Z;
  z_name : text;
}.

(** [Zone::unresolved]. *)
Definition zone_unresolved (name : text) : Zone := mkZone None name.

(** [Zone::new]. *)
Definition zone_new (index : Z) (name : text) : Zone :=
  if index =? 0 then zone_unresolved name else mkZone (Some index) name.

(** [Zone::identity]. *)
Definition zone_identity (z : Zone) : option Z * option text :=
  match z_index z with
  | Some index => (Some index, None)
  | None => (None, Some (z_name z))
  end.

(** [PartialEq for Zone]. *)
Definition zone_eq (a b : Zone) : bool := bool_decide (zone_identity a = zone_identity b).

Record ScopedIp := mkScopedIp {
  si_addr : IpAddr;
  si_zone : option Zone;
}.

(** [Ipv6Addr::is_unicast_link_local]: the first ten bits are [1111111010]. *)
Definition is_unicast_link_local (a : Z) : bool := Z.land (Z.shiftr a 112) 0xffc0 =? 0xfe80.

(** [ScopedIp::needs_zone]. *)
Definition needs_zone (addr : IpAddr) : bool :=
  match addr with V6 v6 => is_unicast_link_local v6 | V4 _ => false end.

(** [ScopedIp::unscoped]. *)
Definition scoped_unscoped (addr : IpAddr) : ScopedIp := mkScopedIp addr None.

(** [ScopedIp::scoped]. *)
Definition scoped_scoped (addr : IpAddr) (zone : Zone) : ScopedIp :=
  mkScopedIp addr (then_some (needs_zone addr) zone).

Definition is_unusable (s : ScopedIp) : bool :=
  needs_zone (si_addr s) && match si_zone s ≫= z_index with Some _ => false | None => true end.

(** [SocketAddr]: an address, a port and, for IPv6, a scope. *)
Inductive SocketAddr :=
  | SocketV4 (addr port : Z)
  | SocketV6 (addr port scope_id : Z).

#[export] Instance SocketAddr_eq_dec : EqDecision SocketAddr.
Proof. solve_decision. Defined.

(** [SocketAddr::new]. *)
Definition socket_addr (ip : IpAddr) (port : Z) : SocketAddr :=
  match ip with V4 a => SocketV4 a port | V6 a => SocketV6 a port 0 end.

Definition to_socket_addr (s : ScopedIp) (port : Z) : option SocketAddr :=
  if is_unusable s then None
  else
    match si_addr s, si_zone s ≫= z_index with
    | V6 v6, Some scope_id => Some (SocketV6 v6 port scope_id)
    | addr, _ => Some (socket_addr addr port)
    end.

(** *** The zone map *)

Record ZoneMap := mkZoneMap { zm_ranges : list (Ipv6Range * Zone) }.

Definition zonemap_new : ZoneMap := mkZoneMap [].

(** The host's interface table, as index and name. *)
Definition interface_table : Type := list (Z * text).

Definition zone_insert (m : ZoneMap) (range : Ipv6Range) (interfaces : interface_table) : ZoneMap :=
  match v6_zone range with
  | None => m
  | Some index =>
      let name := match find (fun held => fst held =? index) interfaces with
                  | Some (_, name) => name
                  | None => show_uint index
                  end in
      mkZoneMap (zm_ranges m ++ [(range, zone_new index name)])
  end.

(** The loop of [zone_for] over the ranges that hold the address. *)
Fixpoint zone_among (found : option Zone) (l : list (Ipv6Range * Zone)) : option Zone :=
  match l with
  | [] => found
  | (_, zone) :: rest =>
      match found with
      | None => zone_among (Some zone) rest
      | Some held => if zone_eq held zone then zone_among found rest else None
      end
  end.

Definition zone_for (m : ZoneMap) (ip : IpAddr) : option Zone :=
  match ip with
  | V4 _ => None
  | V6 v6 => zone_among None (filter (fun entry => v6_contains (fst entry) v6 = true) (zm_ranges m))
  end.

Definition zone_of (m : ZoneMap) (ip : IpAddr) : option Z := zone_for m ip ≫= z_index.

(** [ZoneMap::key]. *)
Definition zone_key (m : ZoneMap) (ip : IpAddr) : ScopedIp :=
  match zone_for m ip with
  | Some zone => scoped_scoped ip zone
  | None => scoped_unscoped ip
  end.

Definition contests (m : ZoneMap) (range : Ipv6Range) : bool :=
  existsb (fun entry => negb (bool_decide (v6_zone (fst entry) = v6_zone range)) && v6_overlaps (fst entry) range)
    (zm_ranges m).

(** [ZoneMap::endpoint]. *)
Definition zone_endpoint (m : ZoneMap) (ip : IpAddr) (port : Z) : SocketAddr :=
  match ip, zone_of m ip with
  | V6 v6, Some zone => SocketV6 v6 port zone
  | _, _ => socket_addr ip port
  end.

(** *** [TargetMap::take_unprobeable] *)

Record Unprobeable := mkUnprobeable {
  up_zones : ZoneMap;
  up_unscoped : list Ipv6Range;
  up_contested : list Ipv6Range;
  up_unwalkable : list Ipv6Range;
}.

Definition map_v6 (m : TargetMap) : list Ipv6Range := units m ≫= (fun unit => ips_v6 (ts_ips unit)).

(** One range of the first loop. *)
Definition classify_range (interfaces : interface_table)
    (acc : list Ipv6Range * list Ipv6Range * ZoneMap) (range : Ipv6Range) : list Ipv6Range * list Ipv6Range * ZoneMap :=
  let '(unscoped, contested, zones) := acc in
  if is_ambiguous range then (unscoped ++ [range], contested, zones)
  else if contests zones range then (unscoped, contested ++ [range], zones)
  else (unscoped, contested, zone_insert zones range interfaces).

Definition classified (interfaces : interface_table) (l : list Ipv6Range) : list Ipv6Range * list Ipv6Range * ZoneMap :=
  fold_left (classify_range interfaces) l ([], [], zonemap_new).

(** [Vec::dedup]. *)
Fixpoint dedup_ranges (l : list Ipv6Range) : list Ipv6Range :=
  match l with
  | [] => []
  | r :: rest =>
      match dedup_ranges rest with
      | s :: out => if decide (r = s) then s :: out else r :: s :: out
      | [] => [r]
      end
  end.

(** [sort_unstable_by_key(start_addr)] then [dedup]; of ranges with one start the
    order is not specified, and a stable sort is one of those it may leave. *)
Definition ascending (l : list Ipv6Range) : list Ipv6Range :=
  dedup_ranges (sort_by (fun a b => v6_start a <=? v6_start b) l).

Definition take_unprobeable (m : TargetMap) (interfaces : interface_table) (walkable : Ipv6Range -> bool)
    : TargetMap * Unprobeable :=
  let '(unscoped, contested, zones) := classified interfaces (map_v6 m) in
  let m := keep_v6 m (fun range => negb (bool_decide (range ∈ unscoped)) && negb (bool_decide (range ∈ contested))) in
  let unscoped := ascending unscoped in
  let unwalkable := filter (fun range => walkable range = false) (map_v6 m) in
  if is_nil unwalkable then (m, mkUnprobeable zones unscoped contested unwalkable)
  else (keep_v6 m walkable, mkUnprobeable zones unscoped contested (ascending unwalkable)).

(** ** Keeping ranges of a merged plan *)

(** What [TargetSet::new] establishes of every unit. *)
Definition unit_canon (u : TargetSet) : Prop := ipset_canon (ts_ips u) /\ portset_ok (ts_ports u).

Definition map_canon (m : TargetMap) : Prop := Forall unit_canon (units m).

Lemma canon_filter {R} `{Interval R} (P : R -> Prop) `{forall r, Decision (P r)} l : canon l -> canon (filter P l).
Proof.
  induction l as [|r l IH]; [done|]. intros (Ha & Hv & Hl)%canon_cons. rewrite filter_cons.
  destruct (decide (P r)); [|auto]. apply canon_cons. split; [|auto]. rewrite Forall_forall in Ha |- *.
  intros q [_ Hq]%list_elem_of_filter. by apply Ha.
Qed.

Lemma push_kept_lists (keep : Ipv6Range -> bool) l (s : IpSet) :
  let s' := fold_left (fun (left : IpSet) range => if keep range then push_v6_range left range else left) l s in
  ips_v4 s' = ips_v4 s /\ ips_v6 s' = ips_v6 s ++ filter (fun r => keep r = true) l.
Proof.
  revert s. induction l as [|r l IH]; intros s; cbn [fold_left]; [by rewrite app_nil_r|].
  rewrite filter_cons. destruct (keep r) eqn:E; [rewrite decide_True by done|rewrite decide_False by done].
  - destruct (IH (push_v6_range s r)) as [I1 I2]. cbv zeta in I1, I2. rewrite I1, I2. cbn. by rewrite <- app_assoc.
  - apply IH.
Qed.

(** A unit's ranges are kept or dropped whole: rebuilding merges nothing. *)
Lemma kept_ips_lists keep ips :
  ipset_canon ips ->
  ipset_canon (kept_ips keep ips) /\
  ips_v4 (kept_ips keep ips) = ips_v4 ips /\ ips_v6 (kept_ips keep ips) = filter (fun r => keep r = true) (ips_v6 ips).
Proof.
  intros [Hok [D4 D6]]. destruct (kept_ips_spec keep ips Hok) as [Hc _]. split; [done|].
  destruct Hok as (H4 & H6 & C4 & C6). specialize (C4 D4). specialize (C6 D6). unfold kept_ips.
  destruct (push_v4_ranges_spec (ips_v4 ips) ipset_new ipset_new_ok H4) as [A1 _].
  destruct (push_kept_v6_spec keep (ips_v6 ips) _ A1 H6) as [B1 _]. cbv zeta in B1.
  destruct (push_v4_lists (ips_v4 ips) ipset_new) as [E4 E6].
  destruct (push_kept_lists keep (ips_v6 ips) (fold_left push_v4_range (ips_v4 ips) ipset_new)) as [F4 F6].
  cbv zeta in F4, F6. rewrite E4 in F4. rewrite E6 in F6. cbn [app ips_v4 ips_v6 ipset_new] in F4, F6. split.
  - destruct (canonicalize_v4_spec _ B1) as (G1 & G2 & G3).
    apply (canon_unique v4_ok); auto using v4_interval_ext. intros g x. by rewrite G3, F4.
  - destruct (canonicalize_v6_spec _ B1) as (G1 & G2 & G3).
    apply (canon_unique v6_ok); auto using v6_interval_ext, canon_filter.
    + apply Forall_forall. intros r [_ Hr]%list_elem_of_filter. rewrite Forall_forall in H6. by apply H6.
    + intros g x. by rewrite G3, F6.
Qed.

Lemma canonicalize_id s :
  ipset_canon s -> ips_v4 (canonicalize s) = ips_v4 s /\ ips_v6 (canonicalize s) = ips_v6 s.
Proof. intros [_ [D4 D6]]. unfold canonicalize. cbn. by rewrite D4, D6. Qed.

(** The unit [keep_v6] leaves of a unit. *)
Lemma kept_unit_lists keep u :
  unit_canon u ->
  let left := targetset_new (kept_ips keep (ts_ips u)) (ts_ports u) in
  unit_canon left /\ ts_ports left = ts_ports u /\
  ips_v4 (ts_ips left) = ips_v4 (ts_ips u) /\ ips_v6 (ts_ips left) = filter (fun r => keep r = true) (ips_v6 (ts_ips u)).
Proof.
  intros [Hi Hp] left. destruct (kept_ips_lists keep _ Hi) as (K1 & K2 & K3).
  destruct (canonicalize_id _ K1) as [C1 C2]. split; [split; [apply canonicalize_canon, K1|done]|].
  split; [done|]. unfold left. cbn [targetset_new ts_ips]. by rewrite C1, C2, K2, K3.
Qed.

Lemma keep_v6_canon m keep : map_canon m -> map_canon (keep_v6 m keep).
Proof.
  unfold map_canon. intros Hm. cbn [keep_v6 units]. rewrite Forall_forall in Hm |- *.
  intros s (u & Hu & Hs)%list_elem_of_omap. unfold then_some in Hs. destruct (negb _); [|done]. injection Hs as <-.
  by apply kept_unit_lists, Hm.
Qed.

Lemma keep_v6_ranges m keep : map_canon m -> map_v6 (keep_v6 m keep) = filter (fun r => keep r = true) (map_v6 m).
Proof.
  unfold map_canon, map_v6. cbn [keep_v6 units]. induction 1 as [|u l Hu _ IH]; [done|].
  rewrite bind_cons, filter_app, <- IH. cbn [omap list_omap]. destruct (kept_unit_lists keep u Hu) as (_ & _ & K4 & K6).
  destruct (kept_ips_lists keep _ (proj1 Hu)) as (_ & L4 & L6).
  unfold then_some. destruct (ipset_is_empty _) eqn:E; cbn [negb].
  - unfold ipset_is_empty in E. apply andb_true_iff in E as [_ E%is_nil_spec]. rewrite L6 in E. by rewrite E.
  - rewrite bind_cons, K6. done.
Qed.

(** The target is at an address of the range, in some unit. *)
Definition at_range (m : TargetMap) (r : IpRange) (t : Target) : Prop :=
  exists u, u ∈ units m /\ r ∈ set_ranges (ts_ips u) /\ range_contains r (t_ip t) = true /\
    portset_contains (ts_ports u) (t_port t) (t_protocol t) = true.

Lemma at_range_v6 m v t : at_range m (RV6 v) t -> v ∈ map_v6 m.
Proof.
  intros (u & Hu & Hr & _). unfold map_v6. apply list_elem_of_bind. exists u. split; [|done].
  by apply elem_of_app in Hr as [(q & [=] & _)%list_elem_of_fmap|(q & [= <-] & Hq)%list_elem_of_fmap].
Qed.

Lemma member_set_ranges s ip : member s ip <-> exists r, r ∈ set_ranges s /\ range_contains r ip = true.
Proof.
  unfold member, set_ranges. destruct ip as [x|x].
  - split.
    + intros (zone & _ & r & Hr & _ & Hx). exists (RV4 r). rewrite elem_of_app. split; [left; by apply list_elem_of_fmap_2|].
      by apply v4_contains_spec.
    + intros (r & [(q & -> & Hq)%list_elem_of_fmap|(q & -> & Hq)%list_elem_of_fmap]%elem_of_app & Hc); [|done].
      apply v4_contains_spec in Hc. exists None. split; [done|]. by exists q.
  - split.
    + intros (zone & r & Hr & _ & Hx). exists (RV6 r). rewrite elem_of_app. split; [right; by apply list_elem_of_fmap_2|].
      by apply v6_contains_spec.
    + intros (r & [(q & -> & Hq)%list_elem_of_fmap|(q & -> & Hq)%list_elem_of_fmap]%elem_of_app & Hc); [done|].
      apply v6_contains_spec in Hc. exists (v6_zone q). by exists q.
Qed.

Lemma map_canon_ok m : map_canon m -> targetmap_ok m.
Proof. intros Hm. eapply Forall_impl; [exact Hm|]. by intros u [[H _] Hp]. Qed.

Lemma iter_at_range m t : map_canon m -> t ∈ targetmap_iter m <-> exists r, at_range m r t.
Proof.
  intros Hm%map_canon_ok. rewrite elem_of_targetmap_iter. unfold at_range, targetmap_ok in *. rewrite Forall_forall in Hm. split.
  - intros (u & Hu & Ht). apply elem_of_targetset_iter in Ht as [H1 H2]; [|by apply Hm].
    apply contains_member, member_set_ranges in H1 as (r & Hr & Hc); [|by apply Hm]. by exists r, u.
  - intros (r & u & Hu & Hr & Hc & Hp). exists u. split; [done|]. apply elem_of_targetset_iter; [by apply Hm|]. split; [|done].
    apply contains_member; [by apply Hm|]. apply member_set_ranges. by exists r.
Qed.

Lemma keep_v6_at_range m keep r t :
  map_canon m ->
  at_range (keep_v6 m keep) r t <-> at_range m r t /\ match r with RV4 _ => True | RV6 v => keep v = true end.
Proof.
  unfold map_canon, at_range. cbn [keep_v6 units]. intros Hm. rewrite Forall_forall in Hm.
  assert (forall u, u ∈ units m -> r ∈ set_ranges (ts_ips (targetset_new (kept_ips keep (ts_ips u)) (ts_ports u))) <->
    r ∈ set_ranges (ts_ips u) /\ match r with RV4 _ => True | RV6 v => keep v = true end) as Hr.
  { intros u Hu. destruct (kept_unit_lists keep u (Hm u Hu)) as (_ & _ & K4 & K6). unfold set_ranges. rewrite K4, K6.
    rewrite !elem_of_app, !list_elem_of_fmap. setoid_rewrite list_elem_of_filter. destruct r; naive_solver. }
  split.
  - intros (s & (u & Hu & Hs)%list_elem_of_omap & H1 & H2 & H3). unfold then_some in Hs. destruct (negb _); [|done].
    injection Hs as <-. apply (Hr u Hu) in H1 as [H1 H4]. split; [|done]. by exists u.
  - intros [(u & Hu & H1 & H2 & H3) H4]. exists (targetset_new (kept_ips keep (ts_ips u)) (ts_ports u)).
    split; [|by rewrite Hr by done]. apply list_elem_of_omap. exists u. split; [done|]. unfold then_some.
    destruct (ipset_is_empty _) eqn:E; [|done]. exfalso. destruct (kept_ips_lists keep _ (proj1 (Hm u Hu))) as (_ & L4 & L6).
    unfold ipset_is_empty in E. rewrite L4, L6 in E. apply andb_true_iff in E as [E4%is_nil_spec E6%is_nil_spec].
    unfold set_ranges in H1. rewrite E4 in H1. cbn in H1. apply list_elem_of_fmap in H1 as (v & -> & Hv).
    assert (v ∈ filter (fun q => keep q = true) (ips_v6 (ts_ips u))) as Hin by (by apply list_elem_of_filter).
    rewrite E6 in Hin. by apply elem_of_nil in Hin.
Qed.

(** ** Classifying the ranges *)

(** What the map holds: zoned ranges under their own index, none of which meet on
    different interfaces. *)
Record zones_ok (z : ZoneMap) : Prop := {
  zo_own : forall r zone, (r, zone) ∈ zm_ranges z -> is_Some (v6_zone r) /\ z_index zone = v6_zone r;
  zo_agree : forall r zr q zq, (r, zr) ∈ zm_ranges z -> (q, zq) ∈ zm_ranges z ->
    v6_overlaps r q = true -> v6_zone r = v6_zone q;
}.

Lemma v6_overlaps_sym a b : v6_overlaps a b = v6_overlaps b a.
Proof. unfold v6_overlaps. apply andb_comm. Qed.

Lemma contests_spec z r :
  contests z r = true <-> exists q zone, (q, zone) ∈ zm_ranges z /\ v6_zone q <> v6_zone r /\ v6_overlaps q r = true.
Proof.
  unfold contests. rewrite existsb_exists. split.
  - intros ([q zone] & Hin & [H1 H2]%andb_true_iff). apply list_elem_of_In in Hin. apply negb_true_iff, bool_decide_eq_false in H1.
    by exists q, zone.
  - intros (q & zone & Hin & H1 & H2). exists (q, zone). split; [by apply list_elem_of_In|]. cbn [fst].
    apply andb_true_iff. split; [|done]. by apply negb_true_iff, bool_decide_eq_false.
Qed.

Lemma zone_insert_spec z r interfaces :
  v6_ok r ->
  match v6_zone r with
  | None => zone_insert z r interfaces = z
  | Some _ => exists zone, zone_insert z r interfaces = mkZoneMap (zm_ranges z ++ [(r, zone)]) /\ z_index zone = v6_zone r
  end.
Proof.
  intros (_ & _ & _ & Hz). unfold zone_insert. destruct (v6_zone r) as [index|]; [|done]. cbn in Hz.
  eexists. split; [done|]. unfold zone_new. by rewrite (proj2 (Z.eqb_neq _ _)) by lia.
Qed.

(** The state of the loop after the ranges [l]. *)
Record classes (l : list Ipv6Range) (unscoped contested : list Ipv6Range) (z : ZoneMap) : Prop := {
  cl_zones : zones_ok z;
  cl_from : forall r zone, (r, zone) ∈ zm_ranges z -> r ∈ l;
  cl_unscoped : forall r, r ∈ unscoped <-> r ∈ l /\ is_ambiguous r = true;
  cl_contested : forall r, r ∈ contested -> r ∈ l /\ is_ambiguous r = false /\ contests z r = true;
  cl_kept : forall r, r ∈ l -> is_ambiguous r = true \/ r ∈ contested \/
    (v6_zone r = None \/ exists zone, (r, zone) ∈ zm_ranges z);
}.

Lemma zones_insert_ok z r zone :
  zones_ok z -> is_Some (v6_zone r) -> z_index zone = v6_zone r -> contests z r = false ->
  zones_ok (mkZoneMap (zm_ranges z ++ [(r, zone)])).
Proof.
  intros [Ho Ha] Hr Hz Hc.
  assert (forall q zq, (q, zq) ∈ zm_ranges z -> v6_overlaps q r = true -> v6_zone q = v6_zone r) as Hnew.
  { intros q zq Hq Hov. destruct (decide (v6_zone q = v6_zone r)) as [|Hne]; [done|].
    assert (contests z r = true) as Hct by (apply contests_spec; eauto). by rewrite Hct in Hc. }
  split; cbn [zm_ranges].
  - intros q zq [Hq|Hq%list_elem_of_singleton]%elem_of_app; [by eapply Ho|by simplify_eq].
  - intros a za b zb [Hin|Hin%list_elem_of_singleton]%elem_of_app [Hin'|Hin'%list_elem_of_singleton]%elem_of_app Hov;
      simplify_eq; [by eapply Ha|by eapply Hnew| |done]. symmetry. eapply Hnew; [done|]. by rewrite v6_overlaps_sym.
Qed.

Lemma contests_more z entry r : contests z r = true -> contests (mkZoneMap (zm_ranges z ++ [entry])) r = true.
Proof.
  rewrite !contests_spec. intros (q & zone & Hq & H). exists q, zone. split; [|done]. cbn. apply elem_of_app. by left.
Qed.

Lemma classify_spec interfaces l unscoped contested z r :
  classes l unscoped contested z -> v6_ok r ->
  let '(unscoped', contested', z') := classify_range interfaces (unscoped, contested, z) r in
  classes (l ++ [r]) unscoped' contested' z'.
Proof.
  intros [H1 H2 H3 H4 H5] Hr. cbn [classify_range].
  assert (forall q (P : Prop), q ∈ l ++ [r] -> (q ∈ l -> P) -> (q = r -> P) -> P) as Hsnoc.
  { intros q P [Hq|Hq%list_elem_of_singleton]%elem_of_app; auto. }
  assert (forall q, q ∈ l -> q ∈ l ++ [r]) as Hl by (intros; apply elem_of_app; by left).
  assert (r ∈ l ++ [r]) as Hin by (apply elem_of_app; right; by apply list_elem_of_singleton).
  destruct (is_ambiguous r) eqn:Ea; [|destruct (contests z r) eqn:Ec].
  - split; [done|by eauto| | |].
    + intros q. rewrite elem_of_app, H3, list_elem_of_singleton, elem_of_app, list_elem_of_singleton. clear -Ea. naive_solver.
    + intros q Hq. destruct (H4 q Hq). auto.
    + intros q Hq. eapply Hsnoc; [exact Hq|auto|intros ->; by left].
  - split; [done|by eauto| | |].
    + intros q. rewrite H3, elem_of_app, list_elem_of_singleton. clear -Ea. naive_solver congruence.
    + intros q [Hq|Hq%list_elem_of_singleton]%elem_of_app; [destruct (H4 q Hq); auto|subst q; auto].
    + intros q Hq. rewrite elem_of_app, list_elem_of_singleton. eapply Hsnoc; [exact Hq|intros Hq'|auto].
      destruct (H5 q Hq') as [?|[?|?]]; auto.
  - pose proof (zone_insert_spec z r interfaces Hr) as Hins. destruct (v6_zone r) as [index|] eqn:Ez.
    + destruct Hins as (zone & -> & Hz). split; cbn [zm_ranges].
      * apply zones_insert_ok; [done|by rewrite Ez|by rewrite Ez|done].
      * intros q zq [Hq|Hq%list_elem_of_singleton]%elem_of_app; [eauto|by simplify_eq].
      * intros q. rewrite H3, elem_of_app, list_elem_of_singleton. clear -Ea. naive_solver congruence.
      * intros q Hq. destruct (H4 q Hq) as (? & ? & ?). split_and!; auto using contests_more.
      * intros q Hq. eapply Hsnoc; [exact Hq|intros Hq'|intros ->].
        -- destruct (H5 q Hq') as [?|[?|[?|(zq & ?)]]]; auto. right; right; right. exists zq. apply elem_of_app. by left.
        -- right; right; right. exists zone. apply elem_of_app. right. by apply list_elem_of_singleton.
    + rewrite Hins. split; [done|by eauto| | |].
      * intros q. rewrite H3, elem_of_app, list_elem_of_singleton. clear -Ea. naive_solver congruence.
      * intros q Hq. destruct (H4 q Hq). auto.
      * intros q Hq. eapply Hsnoc; [exact Hq|auto|intros ->; auto].
Qed.

Lemma classified_spec interfaces l :
  Forall v6_ok l -> let '(unscoped, contested, z) := classified interfaces l in classes l unscoped contested z.
Proof.
  unfold classified. intros Hl.
  assert (forall k unscoped contested z, classes k unscoped contested z ->
    let '(u, c, z) := fold_left (classify_range interfaces) l (unscoped, contested, z) in classes (k ++ l) u c z) as H.
  { induction Hl as [|r l Hr _ IH]; intros k unscoped contested z Hk; cbn [fold_left]; [by rewrite app_nil_r|].
    pose proof (classify_spec interfaces k unscoped contested z r Hk Hr) as Hstep.
    destruct (classify_range interfaces (unscoped, contested, z) r) as [[u c] z']. specialize (IH _ _ _ _ Hstep).
    by rewrite <- app_assoc in IH. }
  apply (H []). split; cbn; try (intros; set_solver). split; cbn; intros; set_solver.
Qed.

(** A range kept is on no other interface than its own. *)
Lemma contested_not_held l unscoped contested z r zone :
  classes l unscoped contested z -> Forall v6_ok l -> (r, zone) ∈ zm_ranges z -> r ∉ contested.
Proof.
  intros Hc Hl Hin (_ & _ & Hct)%(cl_contested _ _ _ _ Hc). apply contests_spec in Hct as (q & zq & Hq & Hne & Hov).
  destruct Hne. by eapply (zo_agree z (cl_zones _ _ _ _ Hc)).
Qed.

Lemma zone_among_one i found l :
  (forall z, found = Some z -> z_index z = Some i) -> Forall (fun e => z_index (snd e) = Some i) l ->
  zone_among found l ≫= z_index = match found, l with None, [] => None | _, _ => Some i end.
Proof.
  intros Hf Hl. revert found Hf. induction Hl as [|[r zone] l Hz _ IH]; intros found Hf; cbn [zone_among].
  - destruct found as [z|]; [|done]. by apply Hf.
  - cbn in Hz. destruct found as [held|].
    + assert (zone_eq held zone = true) as ->.
      { unfold zone_eq, zone_identity. rewrite (Hf held), Hz by done. by apply bool_decide_eq_true. }
      by rewrite IH.
    + rewrite IH; [done|]. by intros z [= <-].
Qed.

Lemma zone_of_held z r zone x :
  zones_ok z -> (r, zone) ∈ zm_ranges z -> v6_contains r x = true -> zone_of z (V6 x) = v6_zone r.
Proof.
  intros Hz Hin Hx. destruct (zo_own z Hz r zone Hin) as [[i Ei] _]. unfold zone_of, zone_for.
  rewrite (zone_among_one i None).
  - destruct (filter _ _) as [|e l] eqn:E; [|done].
    assert ((r, zone) ∈ filter (fun e => v6_contains (fst e) x = true) (zm_ranges z)) as H by (by apply list_elem_of_filter).
    rewrite E in H. by apply elem_of_nil in H.
  - done.
  - apply Forall_forall. intros [q zq] [Hq Hqin]%list_elem_of_filter. cbn [fst snd] in *.
    destruct (zo_own z Hz q zq Hqin) as [_ ->]. rewrite <- Ei. symmetry. eapply (zo_agree z Hz); [done|done|].
    apply v6_contains_spec in Hx, Hq. unfold v6_overlaps. rewrite andb_true_iff, !Z.leb_le. lia.
Qed.

(** Zones are written on link-local ranges only. *)
Definition zoned_link_local (r : Ipv6Range) : Prop := is_Some (v6_zone r) -> is_link_local r = true.

Lemma zone_for_plain z r x :
  zones_ok z -> (forall q zq, (q, zq) ∈ zm_ranges z -> zoned_link_local q) ->
  v6_zone r = None -> is_ambiguous r = false -> v6_contains r x = true -> zone_for z (V6 x) = None.
Proof.
  intros Hz Hll Hr Ha Hx. unfold zone_for.
  assert (filter (fun e => v6_contains (fst e) x = true) (zm_ranges z) = []) as ->; [|done].
  apply filter_none. intros [q zq] Hin Hc. cbn [fst] in Hc.
  destruct (zo_own z Hz q zq Hin) as [Hs _]. specialize (Hll q zq Hin Hs).
  unfold is_ambiguous, covers_link_local in Ha. rewrite Hr in Ha. unfold is_link_local in Hll.
  apply v6_contains_spec in Hx, Hc. lia.
Qed.

Lemma link_local_range a : fits 128 a -> is_unicast_link_local a = true <-> LINK_LOCAL_FIRST <= a <= LINK_LOCAL_LAST.
Proof.
  intros Ha. unfold is_unicast_link_local.
  assert (Z.land (Z.shiftr a 112) 0xffc0 = Z.shiftr a 118 * 64) as ->.
  { assert (0 <= Z.shiftr a 112 < 2 ^ 16) as Hs.
    { rewrite Z.shiftr_div_pow2 by lia. split; [apply Z.div_pos; mlia|]. apply Z.div_lt_upper_bound; mlia. }
    change 118 with (112 + 6). rewrite <- Z.shiftr_shiftr by lia. generalize dependent (Z.shiftr a 112). clear. intros h Hh.
    change 64 with (2 ^ 6). rewrite <- Z.shiftl_mul_pow2 by lia. apply Z.bits_inj'. intros i Hi.
    rewrite Z.land_spec, Z.shiftl_spec by lia. change 0xffc0 with (Z.shiftl (Z.ones 10) 6). rewrite Z.shiftl_spec by lia.
    destruct (Z.lt_ge_cases i 6).
    - rewrite !(Z.testbit_neg_r _ (i - 6)) by lia. apply andb_false_r.
    - rewrite Z.shiftr_spec, Z.sub_add, Z.testbit_ones_nonneg by lia. destruct (Z.ltb_spec (i - 6) 10); [apply andb_true_r|].
      rewrite andb_false_r. symmetry. apply (proj1 (fits_testbit 16 h ltac:(lia))); [mlia|lia]. }
  rewrite Z.eqb_eq, Z.shiftr_div_pow2 by lia.
  assert (a / 2 ^ 118 * 64 = 0xfe80 <-> a / 2 ^ 118 = 0x3fa) as -> by lia.
  change LINK_LOCAL_FIRST with (0x3fa * 2 ^ 118). change LINK_LOCAL_LAST with (0x3fa * 2 ^ 118 + (2 ^ 118 - 1)).
  pose proof (Z.div_mod a (2 ^ 118) ltac:(lia)) as E. pose proof (Z.mod_pos_bound a (2 ^ 118) ltac:(lia)) as Hb.
  generalize dependent (a / 2 ^ 118). generalize dependent (a mod 2 ^ 118). intros m Hm q E. split; [intros ->; lia|].
  intros H. assert (q < 0x3fb) by nia. assert (0x3f9 < q) by nia. lia.
Qed.

(** ** Claims *)

Lemma elem_of_dedup_ranges l r : r ∈ dedup_ranges l <-> r ∈ l.
Proof.
  induction l as [|a l IH]; [done|]. cbn [dedup_ranges]. destruct (dedup_ranges l) as [|b out] eqn:E.
  - assert (l = []) as ->; [|done]. destruct l as [|c l]; [done|]. exfalso. cbn [dedup_ranges] in E. destruct (dedup_ranges l); [done|].
    by destruct (decide _).
  - destruct (decide (a = b)) as [->|]; rewrite !elem_of_cons in *; rewrite <- IH; tauto.
Qed.

Lemma elem_of_ascending l r : r ∈ ascending l <-> r ∈ l.
Proof. unfold ascending. by rewrite elem_of_dedup_ranges, sort_by_perm. Qed.

Lemma map_v6_ok m : map_canon m -> Forall v6_ok (map_v6 m).
Proof.
  unfold map_canon, map_v6. intros Hm. apply Forall_forall. intros r (u & Hr & Hu)%list_elem_of_bind.
  rewrite Forall_forall in Hm. destruct (Hm u Hu) as [[(_ & H6 & _) _] _]. rewrite Forall_forall in H6. by apply H6.
Qed.

(** The plan left: what the first pass keeps, and of that what can be walked. *)
Lemma take_unprobeable_parts m interfaces walkable :
  map_canon m ->
  let '(m', taken) := take_unprobeable m interfaces walkable in
  classes (map_v6 m) (up_unscoped taken) (up_contested taken) (up_zones taken) /\
  let kept r := r ∉ up_unscoped taken /\ r ∉ up_contested taken in
  (forall r, r ∈ up_unwalkable taken <-> r ∈ map_v6 m /\ kept r /\ walkable r = false) /\
  map_canon m' /\
  (forall r, r ∈ map_v6 m' <-> r ∈ map_v6 m /\ kept r /\ walkable r = true) /\
  (forall r t, at_range m' r t <-> at_range m r t /\ match r with RV4 _ => True | RV6 v => kept v /\ walkable v = true end).
Proof.
  intros Hm. unfold take_unprobeable. pose proof (classified_spec interfaces _ (map_v6_ok m Hm)) as Hc.
  destruct (classified interfaces (map_v6 m)) as [[unscoped contested] z].
  set (keep := fun range => negb (bool_decide (range ∈ unscoped)) && negb (bool_decide (range ∈ contested))).
  assert (forall r, keep r = true <-> r ∉ unscoped /\ r ∉ contested) as Hkeep.
  { intros r. unfold keep. by rewrite andb_true_iff, !negb_true_iff, !bool_decide_eq_false. }
  assert (classes (map_v6 m) (ascending unscoped) contested z) as Hc'.
  { destruct Hc as [H1 H2 H3 H4 H5]. split; auto. intros r. by rewrite elem_of_ascending. }
  pose proof (keep_v6_canon m keep Hm) as Hk. pose proof (keep_v6_ranges m keep Hm) as Er.
  assert (forall r, r ∈ map_v6 (keep_v6 m keep) <-> r ∈ map_v6 m /\ r ∉ ascending unscoped /\ r ∉ contested) as Hin.
  { intros r. rewrite Er, list_elem_of_filter, Hkeep, elem_of_ascending. tauto. }
  assert (forall r t, at_range (keep_v6 m keep) r t <-> at_range m r t /\
    match r with RV4 _ => True | RV6 v => v ∉ ascending unscoped /\ v ∉ contested end) as Hat.
  { intros [r|r] t; rewrite keep_v6_at_range by done; [done|]. by rewrite Hkeep, elem_of_ascending. }
  destruct (is_nil (filter (fun range => walkable range = false) (map_v6 (keep_v6 m keep)))) eqn:En;
    cbn [up_unscoped up_contested up_zones up_unwalkable]; (split; [done|]).
  1: assert (forall r, r ∈ map_v6 (keep_v6 m keep) -> walkable r = true) as Hwalk.
  1: { intros r Hr. apply is_nil_spec in En. destruct (walkable r) eqn:Ew; [done|]. exfalso.
       apply (elem_of_nil r). rewrite <- En. by apply list_elem_of_filter. }
  all: split_and!.
  - intros r. rewrite list_elem_of_filter, Hin. tauto.
  - done.
  - intros r. split; [|rewrite Hin; tauto]. intros Hr. specialize (Hwalk r Hr). rewrite Hin in Hr. tauto.
  - intros [r|r] t; [apply Hat|]. split; [|rewrite Hat; tauto]. intros Ht.
    pose proof (Hwalk r (at_range_v6 _ _ _ Ht)). rewrite Hat in Ht. tauto.
  - intros r. rewrite elem_of_ascending, list_elem_of_filter, Hin. tauto.
  - by apply keep_v6_canon.
  - intros r. rewrite keep_v6_ranges, list_elem_of_filter, Hin by done. tauto.
  - intros [r|r] t; rewrite keep_v6_at_range, Hat by done; tauto.
Qed.

(** Two units name [fe80::1] on two interfaces, a third on none, beside an
    ordinary address and a block too wide to walk. *)
Definition sample_zoned : TargetMap :=
  let fe80_1 := LINK_LOCAL_FIRST + 1 in
  let unit ranges := targetset_new (from_ranges ranges) (mkPortSet [(80, 80)] [] []) in
  mkTargetMap [unit [RV6 (mkIpv6Range fe80_1 fe80_1 (Some 15)); RV6 (v6_single 77)];
               unit [RV6 (mkIpv6Range fe80_1 fe80_1 (Some 16)); RV6 (mkIpv6Range fe80_1 fe80_1 None)];
               unit [RV6 (mkIpv6Range 1000 1000000 None)]].

Definition sample_walkable (r : Ipv6Range) : bool := v6_range_len r <=? 65536.

Lemma sample_zoned_canon : map_canon sample_zoned.
Proof.
  unfold sample_zoned, map_canon. cbn [units].
  assert (forall ranges, Forall range_ok ranges -> unit_canon (targetset_new (from_ranges ranges) (mkPortSet [(80, 80)] [] []))) as H.
  { intros ranges Hr. split; [|intros []; solve_lane]. apply canonicalize_canon. by apply from_ranges_spec. }
  repeat apply Forall_cons_2; try apply Forall_nil_2; apply H; repeat constructor; cbn; try unfold v6_ok; vm_compute; intuition congruence.
Qed.

(** What a port phase cannot probe is accounted for.  The plan left has
    exactly the targets of the ranges not handed back; those handed back are the
    link-local ranges on no interface, ranges that meet a range kept on another
    interface, and ranges the host will not walk. *)
Theorem take_unprobeable_exact (m : TargetMap) (interfaces : interface_table) (walkable : Ipv6Range -> bool) :
  map_canon m ->
  let '(m', taken) := take_unprobeable m interfaces walkable in
  map_canon m' /\
  (forall t, t ∈ targetmap_iter m' <-> exists r, at_range m r t /\
     match r with
     | RV4 _ => True
     | RV6 v => v ∉ up_unscoped taken /\ v ∉ up_contested taken /\ v ∉ up_unwalkable taken
     end) /\
  (forall r, r ∈ up_unscoped taken <-> r ∈ map_v6 m /\ is_ambiguous r = true) /\
  (forall r, r ∈ up_contested taken -> r ∈ map_v6 m /\
     exists q, q ∈ map_v6 m /\ q ∉ up_contested taken /\ v6_zone q <> v6_zone r /\ v6_overlaps q r = true) /\
  (forall r, r ∈ up_unwalkable taken -> r ∈ map_v6 m /\ walkable r = false).
Proof.
  intros Hm. pose proof (take_unprobeable_parts m interfaces walkable Hm) as H.
  destruct (take_unprobeable m interfaces walkable) as [m' taken]. destruct H as (Hc & Hu & Hm' & Hin & Hat).
  split; [done|]. split; [|split; [apply Hc|split]].
  - intros t. rewrite iter_at_range by done. setoid_rewrite Hat. split; intros (r & H1 & H2); exists r; (split; [done|]);
      destruct r as [r|r]; try done.
    + destruct H2 as [[H2 H3] H4]. split_and!; [done|done|]. intros (_ & _ & H5)%Hu. by rewrite H4 in H5.
    + destruct H2 as (H2 & H3 & H4). split; [done|]. destruct (walkable r) eqn:Ew; [done|]. destruct H4. apply Hu.
      split; [|done]. by eapply at_range_v6.
  - intros r Hr. destruct (cl_contested _ _ _ _ Hc r Hr) as (H1 & _ & H2). split; [done|].
    apply contests_spec in H2 as (q & zq & H3 & H4 & H5). exists q.
    split; [by eapply (cl_from _ _ _ _ Hc)|]. split; [|done].
    by eapply contested_not_held; [done|apply map_v6_ok|].
  - intros r Hr. by apply Hu in Hr as (? & _ & ?).
Qed.

Lemma take_unprobeable_exact_witness :
  let '(m', taken) := take_unprobeable sample_zoned [] sample_walkable in
  map_canon m' /\ targetmap_iter m' = [mkTarget (V6 77) 80 Tcp; mkTarget (V6 (LINK_LOCAL_FIRST + 1)) 80 Tcp].
Proof.
  pose proof (take_unprobeable_exact sample_zoned [] sample_walkable sample_zoned_canon) as H.
  assert (targetmap_iter (fst (take_unprobeable sample_zoned [] sample_walkable)) =
    [mkTarget (V6 77) 80 Tcp; mkTarget (V6 (LINK_LOCAL_FIRST + 1)) 80 Tcp]) as E by (vm_compute; reflexivity).
  destruct (take_unprobeable sample_zoned [] sample_walkable) as [m' taken]. split; [apply H|done].
Defined.

(** Of two ranges naming one address on two interfaces the first is kept and
    probed, and the later one is the one handed back. *)
Lemma contested_keeps_first :
  let first := mkIpv6Range (LINK_LOCAL_FIRST + 1) (LINK_LOCAL_FIRST + 1) (Some 15) in
  let second := mkIpv6Range (LINK_LOCAL_FIRST + 1) (LINK_LOCAL_FIRST + 1) (Some 16) in
  let unit range := targetset_new (from_ranges [RV6 range]) (mkPortSet [(80, 80)] [] []) in
  let '(m', taken) := take_unprobeable (mkTargetMap [unit first; unit second]) [] (fun _ => true) in
  map_v6 m' = [first] /\ up_contested taken = [second].
Proof. vm_compute. done. Qed.

(** Every IPv6 target a port phase keeps can be opened a socket to, on the
    right interface.  The zone map answers for each kept address with the zone of
    the range it was written in, and the endpoint it makes is the one the scoped
    address itself resolves to, never refused for want of an interface. *)
Theorem kept_targets_have_endpoints (m : TargetMap) (interfaces : interface_table) (walkable : Ipv6Range -> bool)
    (r : Ipv6Range) (x port : Z) :
  map_canon m -> Forall zoned_link_local (map_v6 m) ->
  let '(m', taken) := take_unprobeable m interfaces walkable in
  r ∈ map_v6 m' -> v6_start r <= x <= v6_end r ->
  zone_of (up_zones taken) (V6 x) = v6_zone r /\
  to_socket_addr (zone_key (up_zones taken) (V6 x)) port = Some (zone_endpoint (up_zones taken) (V6 x) port).
Proof.
  intros Hm Hll. pose proof (take_unprobeable_parts m interfaces walkable Hm) as H.
  destruct (take_unprobeable m interfaces walkable) as [m' taken]. destruct H as (Hc & _ & _ & Hin & _).
  intros [Hr [[Hnu Hnc] _]]%Hin Hx. pose proof (cl_zones _ _ _ _ Hc) as Hz.
  pose proof (map_v6_ok m Hm) as Hok. rewrite Forall_forall in Hok, Hll. destruct (Hok r Hr) as (R1 & _ & R2 & _).
  apply v6_contains_spec in Hx as Hx'. pose proof (link_local_range x ltac:(mlia)) as Hlink.
  assert (is_ambiguous r = false) as Ha.
  { destruct (is_ambiguous r) eqn:E; [|done]. destruct Hnu. by apply (cl_unscoped _ _ _ _ Hc). }
  destruct (v6_zone r) as [i|] eqn:Ei.
  - destruct (cl_kept _ _ _ _ Hc r Hr) as [?|[?|[?|(zone & Hzone)]]]; [congruence|done|congruence|].
    pose proof (zone_of_held _ r zone x Hz Hzone Hx') as Hof. rewrite Ei in Hof. split; [done|].
    unfold zone_endpoint, zone_key. rewrite Hof. unfold zone_of in Hof.
    destruct (zone_for (up_zones taken) (V6 x)) as [z|]; [|done]. cbn in Hof.
    assert (is_unicast_link_local x = true) as Hneeds.
    { apply Hlink. specialize (Hll r Hr). unfold zoned_link_local, is_link_local in Hll. rewrite Ei in Hll.
      specialize (Hll ltac:(by eexists)). lia. }
    unfold to_socket_addr, is_unusable, scoped_scoped. cbn [si_addr si_zone needs_zone]. rewrite Hneeds. cbn. by rewrite Hof.
  - assert (zone_for (up_zones taken) (V6 x) = None) as Hfor.
    { apply (zone_for_plain _ r x Hz); [|done..]. intros q zq Hq. by eapply Hll, (cl_from _ _ _ _ Hc). }
    unfold zone_of, zone_endpoint, zone_key, zone_of. rewrite Hfor. split; [done|].
    assert (is_unicast_link_local x = false) as Hneeds.
    { apply not_true_is_false. intros Hl%Hlink. unfold is_ambiguous, covers_link_local in Ha. rewrite Ei in Ha. lia. }
    unfold to_socket_addr, is_unusable, scoped_unscoped. cbn [si_addr si_zone needs_zone]. by rewrite Hneeds.
Qed.

Lemma kept_targets_have_endpoints_witness :
  let '(m', taken) := take_unprobeable sample_zoned [] sample_walkable in
  to_socket_addr (zone_key (up_zones taken) (V6 (LINK_LOCAL_FIRST + 1))) 80 =
    Some (zone_endpoint (up_zones taken) (V6 (LINK_LOCAL_FIRST + 1)) 80) /\
  zone_of (up_zones taken) (V6 (LINK_LOCAL_FIRST + 1)) = Some 15.
Proof.
  pose proof (kept_targets_have_endpoints sample_zoned [] sample_walkable
    (mkIpv6Range (LINK_LOCAL_FIRST + 1) (LINK_LOCAL_FIRST + 1) (Some 15)) (LINK_LOCAL_FIRST + 1) 80 sample_zoned_canon) as H.
  assert (Forall zoned_link_local (map_v6 sample_zoned)) as Hll.
  { replace (map_v6 sample_zoned) with
      [mkIpv6Range 77 77 None; mkIpv6Range (LINK_LOCAL_FIRST + 1) (LINK_LOCAL_FIRST + 1) (Some 15);
       mkIpv6Range (LINK_LOCAL_FIRST + 1) (LINK_LOCAL_FIRST + 1) None;
       mkIpv6Range (LINK_LOCAL_FIRST + 1) (LINK_LOCAL_FIRST + 1) (Some 16); mkIpv6Range 1000 1000000 None]
      by (vm_compute; reflexivity).
    repeat apply Forall_cons_2; try apply Forall_nil_2; intros Hz; (vm_compute in Hz; by destruct Hz) || (vm_compute; reflexivity). }
  specialize (H Hll).
  assert (mkIpv6Range (LINK_LOCAL_FIRST + 1) (LINK_LOCAL_FIRST + 1) (Some 15) ∈ map_v6 (fst (take_unprobeable sample_zoned [] sample_walkable))) as Hin.
  { apply (bool_decide_unpack _). vm_compute. exact I. }
  destruct (take_unprobeable sample_zoned [] sample_walkable) as [m' taken].
  destruct H as [H1 H2]; [done|cbn; lia|]. by split.
Defined.

(** *** The interface table only names *)

Lemma contests_ranges z z' r : (zm_ranges z).*1 = (zm_ranges z').*1 -> contests z r = contests z' r.
Proof.
  intros E. apply eq_iff_eq_true. rewrite !contests_spec.
  assert (forall z q, (exists zone, (q, zone) ∈ zm_ranges z) <-> q ∈ (zm_ranges z).*1) as H.
  { intros y q. rewrite list_elem_of_fmap. split; [intros (zone & ?); by exists (q, zone)|].
    intros ([q' zone] & -> & ?). by exists zone. }
  split; intros (q & zone & Hq & H1); [assert (q ∈ (zm_ranges z').*1) as Hin by (rewrite <- E; apply H; eauto)|
    assert (q ∈ (zm_ranges z).*1) as Hin by (rewrite E; apply H; eauto)];
    apply H in Hin as [zone' ?]; by exists q, zone'.
Qed.

Lemma zone_insert_ranges z z' r i j : (zm_ranges z).*1 = (zm_ranges z').*1 -> (zm_ranges (zone_insert z r i)).*1 = (zm_ranges (zone_insert z' r j)).*1.
Proof. intros E. unfold zone_insert. destruct (v6_zone r); [|done]. cbn. by rewrite !fmap_app, E. Qed.

Lemma classified_ranges i j l u c z z' :
  (zm_ranges z).*1 = (zm_ranges z').*1 ->
  let '(u1, c1, z1) := fold_left (classify_range i) l (u, c, z) in
  let '(u2, c2, z2) := fold_left (classify_range j) l (u, c, z') in
  u1 = u2 /\ c1 = c2 /\ (zm_ranges z1).*1 = (zm_ranges z2).*1.
Proof.
  revert u c z z'. induction l as [|r l IH]; intros u c z z' E; cbn [fold_left]; [done|].
  cbn [classify_range]. destruct (is_ambiguous r); [by apply IH|]. rewrite (contests_ranges z z' r E).
  destruct (contests z' r); [by apply IH|]. by apply IH, zone_insert_ranges.
Qed.

(** A map's answers are its ranges'. *)
Lemma zone_of_ranges z x :
  zones_ok z -> zone_of z (V6 x) = find (fun r => v6_contains r x) ((zm_ranges z).*1) ≫= v6_zone.
Proof.
  intros Hz. destruct (find _ _) as [r|] eqn:E; cbn [mbind option_bind].
  - apply find_some in E as [Hin%list_elem_of_In Hx]. apply list_elem_of_fmap in Hin as ([q zone] & -> & Hin).
    by apply (zone_of_held z q zone x).
  - unfold zone_of, zone_for. assert (filter (fun e => v6_contains (fst e) x = true) (zm_ranges z) = []) as ->; [|done].
    apply filter_none. intros [q zq] Hin Hc. eapply find_none in E; [by rewrite E in Hc|].
    apply list_elem_of_In, list_elem_of_fmap. by exists (q, zq).
Qed.

(** What is taken out depends on the targets alone.  Whatever the interface
    table (a journal counts a job with none), the plan left, the ranges handed
    back and the scope of every address are the same; the table supplies names. *)
Theorem interfaces_only_name (m : TargetMap) (i j : interface_table) (walkable : Ipv6Range -> bool) :
  map_canon m ->
  let '(m1, t1) := take_unprobeable m i walkable in
  let '(m2, t2) := take_unprobeable m j walkable in
  m1 = m2 /\ up_unscoped t1 = up_unscoped t2 /\ up_contested t1 = up_contested t2 /\ up_unwalkable t1 = up_unwalkable t2 /\
  forall ip, zone_of (up_zones t1) ip = zone_of (up_zones t2) ip.
Proof.
  intros Hm. pose proof (classified_spec i _ (map_v6_ok m Hm)) as H1. pose proof (classified_spec j _ (map_v6_ok m Hm)) as H2.
  pose proof (classified_ranges i j (map_v6 m) [] [] zonemap_new zonemap_new eq_refl) as E.
  unfold take_unprobeable, classified in *.
  destruct (fold_left (classify_range i) _ _) as [[u1 c1] z1]. destruct (fold_left (classify_range j) _ _) as [[u2 c2] z2].
  destruct E as (<- & <- & Ez).
  assert (forall ip, zone_of z1 ip = zone_of z2 ip) as Hzone.
  { intros [x|x]; [done|]. rewrite !zone_of_ranges by (eapply cl_zones; done). by rewrite Ez. }
  destruct (is_nil _); cbn [up_unscoped up_contested up_unwalkable up_zones]; by split_and!.
Qed.

Lemma interfaces_only_name_witness :
  fst (take_unprobeable sample_zoned [] sample_walkable) =
  fst (take_unprobeable sample_zoned [(15, [101; 110; 48])] sample_walkable).
Proof.
  pose proof (interfaces_only_name sample_zoned [] [(15, [101; 110; 48])] sample_walkable sample_zoned_canon) as H.
  destruct (take_unprobeable sample_zoned [] sample_walkable), (take_unprobeable sample_zoned [(15, [101; 110; 48])] sample_walkable).
  apply H.
Defined.
