(* ===== verification/AddrText.v ===== *)
(** * Addresses as text

    The parser and the printer of [std::net] that every written address goes
    through, and what the engine builds on them: [FromStr for IpRange]
    ([src/src/model/ip/range.rs]), [TryFrom<&str> for IpSet]
    ([src/src/model/ip/set.rs]) and the text of a [ScopedIp]
    ([src/src/model/ip/scoped.rs]).  Every address printed is read back, and a
    host key that names an interface is read back with the name. *)

From Stdlib Require Import ZArith Lia String.
From stdpp Require Import base numbers sets option list.
From S2P Require Import Prelude Std Text Intervals IpRange IpSet Target Scoped.

Local Open Scope Z_scope.

(** ** Definitions *)

Definition DOT : Z := 46.
Definition SLASH : Z := 47.
Definition HYPHEN : Z := 45.
Definition PERCENT : Z := 37.
Definition CO : Z := 58.

(** *** Big-endian groups

    The octets of a [u32] and the segments of a [u128], most significant first. *)

Fixpoint to_be (w : Z) (n : nat) (x : Z) : list Z :=
  match n with O => [] | S n => to_be w n (x / 2 ^ w) ++ [x mod 2 ^ w] end.

Definition from_be (w : Z) (groups : list Z) : Z := fold_left (fun x g => x * 2 ^ w + g) groups 0.

(** *** The parser of [std::net]

    A reader takes the text that is left, and gives the value and what is left
    after it.  [None] is a failure, which leaves the text as it was: the
    [read_atomically] of every reader. *)

Definition reader (T : Type) : Type := text -> option (T * text).

(** [char::to_digit]. *)
Definition to_digit (radix c : Z) : option Z :=
  let digit :=
    if is_ascii_digit c then c - 48
    else if in_range 97 122 c then c - 87
    else if in_range 65 90 c then c - 55
    else radix in
  then_some (digit <? radix) digit.

(** The loop of [read_number]: [None] past the digits allowed. *)
Fixpoint digit_run (radix : Z) (max_digits : nat) (result : Z) (count : nat) (s : text) : option (Z * nat * text) :=
  match s with
  | [] => Some (result, count, [])
  | c :: t =>
      match to_digit radix c with
      | None => Some (result, count, s)
      | Some digit =>
          if (max_digits <? S count)%nat then None
          else digit_run radix max_digits (result * radix + digit) (S count) t
      end
  end.

(** [read_number] into a [uW]. *)
Definition read_number (radix : Z) (max_digits : nat) (allow_zero_prefix : bool) (w : Z) : reader Z :=
  fun s =>
    let has_leading_zero := starts_with (Z.eqb 48) s in
    '(result, count, rest) ← digit_run radix max_digits 0 0 s;
    if (count =? 0)%nat then None
    else if negb allow_zero_prefix && has_leading_zero && (1 <? count)%nat then None
    else then_some (result <=? umax w) (result, rest).

Definition read_given_char (ch : Z) (s : text) : option text :=
  match s with c :: t => then_some (c =? ch) t | [] => None end.

Definition read_separator {T} (sep : Z) (index : nat) (inner : reader T) : reader T :=
  fun s => if (0 <? index)%nat then rest ← read_given_char sep s; inner rest else inner s.

(** The loop over the four groups, [more] of them to read. *)
Fixpoint read_dotted (more index : nat) (s : text) : option (list Z * text) :=
  match more with
  | O => Some ([], s)
  | S more =>
      '(octet, rest) ← read_separator DOT index (read_number 10 3 false 8) s;
      '(octets, rest) ← read_dotted more (S index) rest;
      Some (octet :: octets, rest)
  end.

Definition read_ipv4_addr : reader Z :=
  fun s => '(octets, rest) ← read_dotted 4 0 s; Some (from_be 8 octets, rest).

(** [read_groups]: the groups read, whether they end in an embedded IPv4 address,
    and the text left.  [more] groups of the limit are still to be read. *)
Fixpoint read_groups (more index : nat) (s : text) : list Z * bool * text :=
  match more with
  | O => ([], false, s)
  | S more =>
      let ipv4 := if (0 <? more)%nat then read_separator CO index read_ipv4_addr s else None in
      match ipv4 with
      | Some (v4_addr, rest) => (to_be 16 2 v4_addr, true, rest)
      | None =>
          match read_separator CO index (read_number 16 4 true 16) s with
          | Some (group, rest) =>
              let '(groups, ends_in_v4, rest) := read_groups more (S index) rest in
              (group :: groups, ends_in_v4, rest)
          | None => ([], false, s)
          end
      end
  end.

Definition read_ipv6_addr : reader Z :=
  fun s =>
    let '(head, head_ipv4, rest) := read_groups 8 0 s in
    if (length head =? 8)%nat then Some (from_be 16 head, rest)
    else if head_ipv4 then None
    else
      rest ← read_given_char CO rest;
      rest ← read_given_char CO rest;
      let '(tail, _, rest) := read_groups (8 - (length head + 1)) 0 rest in
      Some (from_be 16 (head ++ replicate (8 - length head - length tail) 0 ++ tail), rest).

Definition read_ip_addr : reader IpAddr :=
  fun s =>
    match read_ipv4_addr s with
    | Some (a, rest) => Some (V4 a, rest)
    | None => '(a, rest) ← read_ipv6_addr s; Some (V6 a, rest)
    end.

Definition parse_with {T} (inner : reader T) (kind : AddrKind) (s : text) : Result T AddrKind :=
  match inner s with Some (x, []) => Ok x | _ => Err kind end.

(** [FromStr] of [Ipv4Addr], [Ipv6Addr] and [IpAddr]. *)
Definition parse_ipv4 (s : text) : Result Z AddrKind :=
  if (15 <? byte_len s)%nat then Err AddrIpv4 else parse_with read_ipv4_addr AddrIpv4 s.

Definition parse_ipv6 : text -> Result Z AddrKind := parse_with read_ipv6_addr AddrIpv6.

Definition parse_ip : text -> Result IpAddr AddrKind := parse_with read_ip_addr AddrIp.

(** [IpAddr::to_canonical]. *)
Definition to_canonical (ip : IpAddr) : IpAddr :=
  match ip with
  | V4 _ => ip
  | V6 a => match to_ipv4_mapped a with Some b => V4 b | None => ip end
  end.

(** *** The printer of [std::net] *)

Definition ipv4_display (a : Z) : text := join [DOT] (show_uint <$> to_be 8 4 a).

(** [{:x}] of a [u16]. *)
Fixpoint push_hex (fuel : nat) (n : Z) (tail : text) : text :=
  match fuel with
  | O => tail
  | S fuel =>
      let digit := n mod 16 in
      let tail := (if digit <? 10 then 48 + digit else 87 + digit) :: tail in
      if n <? 16 then tail else push_hex fuel (n / 16) tail
  end.

Definition show_lower_hex (n : Z) : text := push_hex 4 n [].

(** [fmt_subslice], from group [index] on. *)
Fixpoint fmt_subslice (index : nat) (groups : list Z) : text :=
  match groups with
  | [] => []
  | g :: rest => (if (0 <? index)%nat then [CO] else []) ++ show_lower_hex g ++ fmt_subslice (S index) rest
  end.

(** The loop that finds the first longest run of zero segments, as a start and a
    length. *)
Fixpoint zero_span (index : nat) (current longest : nat * nat) (segments : list Z) : nat * nat :=
  match segments with
  | [] => longest
  | segment :: rest =>
      if segment =? 0 then
        let current := if (snd current =? 0)%nat then (index, 1%nat) else (fst current, S (snd current)) in
        zero_span (S index) current (if (snd longest <? snd current)%nat then current else longest) rest
      else zero_span (S index) (0%nat, 0%nat) longest rest
  end.

Definition ipv6_display (a : Z) : text :=
  match to_ipv4_mapped a with
  | Some ipv4 => lit "::ffff:" ++ ipv4_display ipv4
  | None =>
      let segments := to_be 16 8 a in
      let '(start, len) := zero_span 0 (0, 0)%nat (0, 0)%nat segments in
      if (1 <? len)%nat
      then fmt_subslice 0 (take start segments) ++ [CO; CO] ++ fmt_subslice 0 (drop (start + len) segments)
      else fmt_subslice 0 segments
  end.

Definition ip_display (ip : IpAddr) : text :=
  match ip with V4 a => ipv4_display a | V6 a => ipv6_display a end.

(** *** Ranges *)

Definition octet (part : text) : option Z :=
  if (1 <? byte_len part)%nat && starts_with (Z.eqb 48) part then None
  else if negb (forallb is_ascii_digit part) then None
  else ok (parse_uint 8 part).

Definition expand_v4_end (start : Z) (end_str : text) : option Z :=
  match parse_ipv4 end_str with
  | Ok full => Some full
  | Err _ =>
      suffix ← mapM octet (split_by (Z.eqb DOT) end_str);
      if (length suffix =? 0)%nat || (4 <? length suffix)%nat then None
      else Some (from_be 8 (take (4 - length suffix) (to_be 8 4 start) ++ suffix))
  end.

(** [FromStr for IpRange]. *)
Definition range_from_str (s : text) : Result IpRange IpError :=
  let s := trim s in
  match split_once (Z.eqb SLASH) s with
  | Some (ip_str, prefix_str) =>
      let? ip := map_err AddrParse (parse_ip ip_str) in
      let? prefix := map_err PrefixParse (parse_uint 8 prefix_str) in
      cidr_range ip prefix
  | None =>
      match split_once (Z.eqb HYPHEN) s with
      | Some (start_str, end_str) =>
          match parse_ipv4 start_str with
          | Ok start =>
              match expand_v4_end start end_str with
              | None => Err (InvalidFormat s)
              | Some stop => map_ok RV4 (v4_new start stop)
              end
          | Err _ =>
              match parse_ipv6 start_str with
              | Ok start =>
                  let? stop := map_err AddrParse (parse_ipv6 end_str) in
                  map_ok RV6 (v6_new start stop)
              | Err _ => Err (InvalidFormat s)
              end
          end
      | None =>
          let? ip := map_err AddrParse (parse_ip s) in
          Ok (match ip with V4 a => RV4 (v4_single a) | V6 a => RV6 (v6_single a) end)
      end
  end.

Inductive IpSetError := InvalidTarget (source : IpError).

(** The loop of [TryFrom<&str> for IpSet]. *)
Fixpoint insert_parts (set : IpSet) (parts : list text) : Result IpSet IpSetError :=
  match parts with
  | [] => Ok set
  | part :: rest => let? range := map_err InvalidTarget (range_from_str part) in insert_parts (insert_range set range) rest
  end.

Definition ipset_try_from (value : text) : Result IpSet IpSetError :=
  let parts := filter (fun part => trim part <> []) (split_by (fun c => (c =? 44) || (c =? 32)) value) in
  map_ok canonicalize (insert_parts ipset_new parts).

(** *** Host keys *)

Inductive ScopedIpError :=
  | NotAnAddress (s : text)
  | ZoneOnUnscopedAddress (addr : IpAddr) (zone : text)
  | EmptyZone.

(** [Display for ScopedIp]; a [Zone] prints its name. *)
Definition scoped_display (s : ScopedIp) : text :=
  match si_zone s with
  | Some zone => ip_display (si_addr s) ++ [PERCENT] ++ z_name zone
  | None => ip_display (si_addr s)
  end.

(** [FromStr for ScopedIp]. *)
Definition scoped_from_str (s : text) : Result ScopedIp ScopedIpError :=
  match split_once (Z.eqb PERCENT) s with
  | None => map_err (fun _ => NotAnAddress s) (map_ok scoped_unscoped (parse_ip s))
  | Some (addr, zone) =>
      match zone with
      | [] => Err EmptyZone
      | _ =>
          let? addr := map_err (fun _ => NotAnAddress s) (parse_ip addr) in
          if needs_zone addr then Ok (mkScopedIp addr (Some (zone_unresolved zone)))
          else Err (ZoneOnUnscopedAddress addr zone)
      end
  end.

Example parse_mapped : parse_ip (lit "::ffff:192.0.2.1") = Ok (V6 0xffffc0000201).
Proof. reflexivity. Qed.

Example display_v6 : ip_display (V6 0x20010db8000000000000000000000001) = lit "2001:db8::1".
Proof. vm_compute. reflexivity. Qed.

Example no_octal : parse_ip (lit "192.0.2.010") = Err AddrIp.
Proof. reflexivity. Qed.

Example short_end : range_from_str (lit " 192.168.1.1-2.254 ") = Ok (RV4 (mkIpv4Range 0xc0a80101 0xc0a802fe)).
Proof. vm_compute. reflexivity. Qed.

(** ** Big-endian groups round-trip *)

Lemma from_be_snoc w l g : from_be w (l ++ [g]) = from_be w l * 2 ^ w + g.
Proof. unfold from_be. by rewrite fold_left_app. Qed.

Lemma length_to_be w n x : length (to_be w n x) = n.
Proof. revert x. induction n as [|n IH]; intros x; [done|]. cbn [to_be]. rewrite length_app, IH. simpl. lia. Qed.

Lemma to_be_fits w n x : 0 <= w -> Forall (fits w) (to_be w n x).
Proof.
  intros Hw. revert x. induction n as [|n IH]; intros x; cbn [to_be]; [constructor|].
  apply Forall_app. split; [apply IH|]. constructor; [|constructor].
  pose proof (Z.mod_pos_bound x (2 ^ w) ltac:(lia)). unfold fits, umax. lia.
Qed.

Lemma from_to_be w n x : 0 <= w -> 0 <= x < 2 ^ (w * Z.of_nat n) -> from_be w (to_be w n x) = x.
Proof.
  intros Hw. revert x. induction n as [|n IH]; intros x Hx; cbn [to_be].
  - rewrite Z.mul_0_r in Hx. cbn. lia.
  - assert (0 < 2 ^ w) by lia. rewrite from_be_snoc, IH; [pose proof (Z.div_mod x (2 ^ w)); lia|].
    split; [apply Z.div_pos; lia|]. apply Z.div_lt_upper_bound; [lia|].
    rewrite <- Z.pow_add_r by lia. replace (w + w * Z.of_nat n) with (w * Z.of_nat (S n)) by lia. lia.
Qed.

Lemma from_be_bounds w l : 0 <= w -> Forall (fits w) l -> 0 <= from_be w l < 2 ^ (w * Z.of_nat (length l)).
Proof.
  intros Hw Hl. induction l as [|g l IH] using rev_ind; [rewrite Z.mul_0_r; cbn; lia|].
  apply Forall_app in Hl as [Hl Hg%Forall_inv]. rewrite from_be_snoc.
  specialize (IH Hl). rewrite length_app. cbn [length].
  replace (w * Z.of_nat (length l + 1)) with (w * Z.of_nat (length l) + w) by lia.
  rewrite Z.pow_add_r by lia. unfold fits, umax in Hg. nia.
Qed.

(** ** Readers take what was printed *)

Definition is_digit (radix c : Z) : bool := match to_digit radix c with Some _ => true | None => false end.

Lemma digit_run_app radix k r c s v n rest :
  digit_run radix k r c s = Some (v, n, []) -> starts_with (is_digit radix) rest = false ->
  digit_run radix k r c (s ++ rest) = Some (v, n, rest).
Proof.
  intros Hs Hr. revert r c Hs. induction s as [|x s IH]; intros r c; cbn [app digit_run].
  - intros [= -> ->]. destruct rest as [|y rest]; [done|]. cbn in *. unfold is_digit in Hr.
    by destruct (to_digit radix y).
  - destruct (to_digit radix x); [|done]. destruct (k <? S c)%nat; [done|]. apply IH.
Qed.

Lemma read_number_app radix k zero w s v rest :
  s <> [] -> read_number radix k zero w s = Some (v, []) -> starts_with (is_digit radix) rest = false ->
  read_number radix k zero w (s ++ rest) = Some (v, rest).
Proof.
  intros Hne Hs Hr. unfold read_number in *.
  replace (starts_with (Z.eqb 48) (s ++ rest)) with (starts_with (Z.eqb 48) s) by (by destruct s).
  destruct (digit_run radix k 0 0 s) as [[[v' n] rest']|] eqn:E; [|done]. cbn [mbind option_bind] in *.
  destruct (n =? 0)%nat eqn:En; [done|].
  destruct (negb zero && starts_with (Z.eqb 48) s && (1 <? n)%nat) eqn:Ez; [done|].
  destruct (v' <=? umax w) eqn:Ev; [|done]. cbn in Hs. injection Hs as -> ->.
  rewrite (digit_run_app _ _ _ _ _ _ _ rest E Hr). cbn [mbind option_bind]. by rewrite En, Ez, Ev.
Qed.

(** A reader on everything one group can hold, in [pages] of 256. *)
Definition reads_all (pages : Z) (show : Z -> text) (read : reader Z) : bool :=
  let reads n := match read (show n) with Some (m, []) => (m =? n) && negb (is_nil (show n)) | _ => false end in
  forallb (fun page => forallb (fun low => reads (page * 256 + low)) (seqZ 0 256)) (seqZ 0 pages).

Lemma forallb_seqZ (f : Z -> bool) bound n : forallb f (seqZ 0 bound) = true -> 0 <= n < bound -> f n = true.
Proof. intros H Hn. rewrite forallb_forall in H. apply H, list_elem_of_In, elem_of_seqZ. lia. Qed.

Lemma reads_all_spec pages show read n :
  reads_all pages show read = true -> 0 <= n < pages * 256 -> read (show n) = Some (n, []) /\ show n <> [].
Proof.
  intros H Hn. unfold reads_all in H. pose proof (Z.div_mod n 256 ltac:(lia)). pose proof (Z.mod_pos_bound n 256 ltac:(lia)).
  apply forallb_seqZ with (n := n / 256) in H; [|split; [apply Z.div_pos; lia|apply Z.div_lt_upper_bound; lia]].
  apply forallb_seqZ with (n := n mod 256) in H; [|done].
  replace (n / 256 * 256 + n mod 256) with n in H by lia.
  destruct (read (show n)) as [[m [|]]|]; [|done|done].
  apply andb_true_iff in H as [->%Z.eqb_eq H2]. split; [done|]. by destruct (show n).
Qed.

Lemma octets_read : reads_all 1 show_uint (read_number 10 3 false 8) = true.
Proof. vm_compute. reflexivity. Qed.

Lemma groups_read : reads_all 256 show_lower_hex (read_number 16 4 true 16) = true.
Proof. vm_compute. reflexivity. Qed.

Lemma read_octet n rest :
  fits 8 n -> starts_with (is_digit 10) rest = false ->
  read_number 10 3 false 8 (show_uint n ++ rest) = Some (n, rest).
Proof.
  intros Hn Hr. destruct (reads_all_spec _ _ _ n octets_read) as [H1 H2]; [unfold fits, umax in Hn; lia|].
  by apply read_number_app.
Qed.

Lemma read_group n rest :
  fits 16 n -> starts_with (is_digit 16) rest = false ->
  read_number 16 4 true 16 (show_lower_hex n ++ rest) = Some (n, rest).
Proof.
  intros Hn Hr. destruct (reads_all_spec _ _ _ n groups_read) as [H1 H2]; [unfold fits, umax in Hn; lia|].
  by apply read_number_app.
Qed.

(** The octets from [index] on, each but the first after a dot. *)
Fixpoint dotted (index : nat) (octets : list Z) : text :=
  match octets with
  | [] => []
  | n :: rest => (if (0 <? index)%nat then [DOT] else []) ++ show_uint n ++ dotted (S index) rest
  end.

Lemma dotted_join octets : join [DOT] (show_uint <$> octets) = dotted 0 octets.
Proof.
  destruct octets as [|n octets]; [done|]. cbn [fmap list_fmap dotted Nat.ltb Nat.leb app].
  generalize 0%nat. revert n. induction octets as [|m octets IH]; intros n i.
  - cbn. by rewrite app_nil_r.
  - change (join [DOT] (show_uint n :: (show_uint <$> m :: octets)))
      with (show_uint n ++ DOT :: join [DOT] (show_uint m :: (show_uint <$> octets))).
    by rewrite (IH m (S i)).
Qed.

Lemma dotted_not_digit index octets rest :
  starts_with (is_digit 10) rest = false -> starts_with (is_digit 10) (dotted (S index) octets ++ rest) = false.
Proof. by destruct octets. Qed.

Lemma read_dotted_dotted octets index rest :
  Forall (fits 8) octets -> starts_with (is_digit 10) rest = false ->
  read_dotted (length octets) index (dotted index octets ++ rest) = Some (octets, rest).
Proof.
  intros Ho Hr. revert index. induction Ho as [|n octets Hn _ IH]; intros index; [done|].
  cbn [length read_dotted dotted]. rewrite <- !app_assoc.
  pose proof (dotted_not_digit index octets rest Hr) as Hnd. unfold read_separator.
  destruct (0 <? index)%nat; cbn [app read_given_char].
  - rewrite Z.eqb_refl. cbn [then_some mbind option_bind]. rewrite read_octet by done. cbn [mbind option_bind].
    by rewrite IH.
  - rewrite read_octet by done. cbn [mbind option_bind]. by rewrite IH.
Qed.

Lemma read_ipv4_display a rest :
  fits 32 a -> starts_with (is_digit 10) rest = false ->
  read_ipv4_addr (ipv4_display a ++ rest) = Some (a, rest).
Proof.
  intros Ha Hr. unfold read_ipv4_addr, ipv4_display. rewrite dotted_join.
  pose proof (read_dotted_dotted (to_be 8 4 a) 0 rest) as H. rewrite length_to_be in H.
  rewrite H by (done || by apply to_be_fits). cbn [mbind option_bind].
  rewrite from_to_be; [done|lia|]. unfold fits, umax in Ha. lia.
Qed.

(** ** Segments *)

(** Nothing after the groups printed would be read as another group. *)
Definition stops (rest : text) : Prop :=
  match rest with
  | [] => True
  | c :: t => is_digit 16 c = false /\ c <> DOT /\ (c = CO -> exists u, t = CO :: u)
  end.

Lemma digit_10_16 c : is_digit 10 c = true -> is_digit 16 c = true.
Proof.
  unfold is_digit, to_digit, then_some, is_ascii_digit, in_range. intros H.
  repeat case_match; try done; lia.
Qed.

Lemma digit_run_all radix k r c s v n :
  digit_run radix k r c s = Some (v, n, []) -> Forall (fun c => is_digit radix c = true) s.
Proof.
  revert r c. induction s as [|x s IH]; intros r c; cbn [digit_run]; [constructor|].
  destruct (to_digit radix x) eqn:E; [|done]. destruct (k <? S c)%nat; [done|]. intros H.
  constructor; [unfold is_digit; by rewrite E|]. eauto.
Qed.

Lemma read_number_digits radix k zero w s v :
  read_number radix k zero w s = Some (v, []) -> Forall (fun c => is_digit radix c = true) s.
Proof.
  unfold read_number. destruct (digit_run radix k 0 0 s) as [[[v' n] rest]|] eqn:E; [|done].
  cbn [mbind option_bind]. destruct (n =? 0)%nat; [done|]. destruct (negb zero && _ && _); [done|].
  destruct (v' <=? umax w); [|done]. intros [= -> ->]. by eapply digit_run_all.
Qed.

Lemma show_lower_hex_spec g :
  fits 16 g -> Forall (fun c => is_digit 16 c = true) (show_lower_hex g) /\ show_lower_hex g <> [].
Proof.
  intros Hg. destruct (reads_all_spec _ _ _ g groups_read) as [H1 H2]; [unfold fits, umax in Hg; lia|].
  split; [|done]. by eapply read_number_digits.
Qed.

Lemma show_uint_octet n :
  fits 8 n -> Forall (fun c => is_digit 10 c = true) (show_uint n).
Proof.
  intros Hn. destruct (reads_all_spec _ _ _ n octets_read) as [H1 H2]; [unfold fits, umax in Hn; lia|].
  by eapply read_number_digits.
Qed.

(** A group followed by no dot does not open an IPv4 address. *)
Lemma no_dot_rest k r c s rest v n left :
  Forall (fun c => is_digit 16 c = true) s -> starts_with (is_digit 10) rest = false ->
  starts_with (Z.eqb DOT) rest = false ->
  digit_run 10 k r c (s ++ rest) = Some (v, n, left) -> starts_with (Z.eqb DOT) left = false.
Proof.
  intros Hs Hr Hd. revert r c. induction Hs as [|x s Hx _ IH]; intros r c; cbn [app digit_run].
  - destruct rest as [|y rest]; cbn [digit_run]; [by intros [= _ _ <-]|].
    cbn in Hr. unfold is_digit in Hr. destruct (to_digit 10 y); [done|]. by intros [= _ _ <-].
  - destruct (to_digit 10 x) eqn:E.
    + destruct (k <? S c)%nat; [done|]. apply IH.
    + intros [= _ _ <-]. change ((DOT =? x) = false). apply Z.eqb_neq. by intros <-.
Qed.

(** A number read leaves text that opens with no dot. *)
Lemma read_number_no_dot k z w s rest v left :
  Forall (fun c => is_digit 16 c = true) s -> starts_with (is_digit 10) rest = false ->
  starts_with (Z.eqb DOT) rest = false ->
  read_number 10 k z w (s ++ rest) = Some (v, left) -> starts_with (Z.eqb DOT) left = false.
Proof.
  intros Hs Hr Hd. unfold read_number.
  destruct (digit_run 10 k 0 0 (s ++ rest)) as [[[v' n] left']|] eqn:E; [|done].
  cbn [mbind option_bind]. destruct (n =? 0)%nat; [done|]. destruct (negb z && _ && _); [done|].
  destruct (v' <=? umax w); [|done]. intros [= -> ->]. by eapply no_dot_rest.
Qed.

Lemma read_dotted_no_dot k index s :
  starts_with (Z.eqb DOT) s = false -> read_dotted (S k) (S index) s = None.
Proof.
  destruct s as [|c s]; [done|]. intros H. change ((DOT =? c) = false) in H.
  cbn [read_dotted]. unfold read_separator. change (0 <? S index)%nat with true. cbn [read_given_char].
  by rewrite Z.eqb_sym, H.
Qed.

Lemma read_dotted_first k s :
  read_dotted (S k) 0 s =
  ('(octet, rest) ← read_number 10 3 false 8 s;
   '(octets, rest) ← read_dotted k 1 rest; Some (octet :: octets, rest)).
Proof. done. Qed.

Lemma not_ipv4 s rest :
  Forall (fun c => is_digit 16 c = true) s -> starts_with (is_digit 10) rest = false ->
  starts_with (Z.eqb DOT) rest = false -> read_ipv4_addr (s ++ rest) = None.
Proof.
  intros Hs Hr Hd. unfold read_ipv4_addr. rewrite read_dotted_first.
  destruct (read_number 10 3 false 8 (s ++ rest)) as [[v left]|] eqn:E; [|done]. cbn [mbind option_bind].
  rewrite read_dotted_no_dot; [done|]. by eapply read_number_no_dot.
Qed.

Lemma stops_heads rest :
  stops rest -> starts_with (is_digit 16) rest = false /\ starts_with (is_digit 10) rest = false /\
    starts_with (Z.eqb DOT) rest = false.
Proof.
  destruct rest as [|c rest]; [done|]. intros (H1 & H2 & _). split_and!; [done| |].
  - change (is_digit 10 c = false). destruct (is_digit 10 c) eqn:E; [|done]. apply digit_10_16 in E. congruence.
  - change ((DOT =? c) = false). by apply Z.eqb_neq.
Qed.

Lemma subslice_stops_next index groups rest :
  stops rest ->
  starts_with (is_digit 16) (fmt_subslice (S index) groups ++ rest) = false /\
  starts_with (is_digit 10) (fmt_subslice (S index) groups ++ rest) = false /\
  starts_with (Z.eqb DOT) (fmt_subslice (S index) groups ++ rest) = false.
Proof. intros Hr. destruct groups; [by apply stops_heads|]. done. Qed.

(** Where the groups end, no further one is read. *)
Lemma read_groups_stop more index rest :
  stops rest -> read_groups more index rest = ([], false, rest).
Proof.
  intros Hr. destruct more as [|more]; [done|]. cbn [read_groups].
  assert (forall T (inner : reader T) , (forall u, starts_with (is_digit 16) u = false -> inner u = None) ->
    read_separator CO index inner rest = None) as Hsep.
  { intros T inner Hinner. unfold read_separator. destruct (0 <? index)%nat.
    - destruct rest as [|c u]; [done|]. cbn [read_given_char]. destruct (c =? CO) eqn:Ec; [|done].
      apply Z.eqb_eq in Ec as ->. destruct Hr as (_ & _ & [v ->]); [done|]. cbn [then_some mbind option_bind].
      by apply Hinner.
    - apply Hinner. by apply stops_heads in Hr as [? _]. }
  assert (forall k z w u, starts_with (is_digit 16) u = false -> read_number 16 k z w u = None) as H16.
  { intros k z w u Hu. unfold read_number. destruct u as [|c u]; [done|]. cbn [digit_run].
    change (is_digit 16 c = false) in Hu. unfold is_digit in Hu. by destruct (to_digit 16 c). }
  assert (forall u, starts_with (is_digit 16) u = false -> read_ipv4_addr u = None) as H4.
  { intros u Hu. unfold read_ipv4_addr. rewrite read_dotted_first. unfold read_number.
    destruct u as [|c u]; [done|]. cbn [digit_run].
    change (is_digit 16 c = false) in Hu. destruct (to_digit 10 c) eqn:E; [|done].
    rewrite digit_10_16 in Hu; [done|]. unfold is_digit. by rewrite E. }
  rewrite (Hsep _ (read_number 16 4 true 16)) by auto. destruct (0 <? more)%nat; [|done]. by rewrite Hsep.
Qed.

Lemma read_groups_subslice groups more index rest :
  Forall (fits 16) groups -> (length groups <= more)%nat -> stops rest ->
  read_groups more index (fmt_subslice index groups ++ rest) = (groups, false, rest).
Proof.
  intros Hg. revert more index. induction Hg as [|g groups Hg _ IH]; intros more index Hlen Hr;
    [by apply read_groups_stop|].
  cbn [length] in Hlen. destruct more as [|more]; [lia|]. cbn [read_groups fmt_subslice].
  rewrite <- !app_assoc. destruct (subslice_stops_next index groups rest Hr) as (H16 & H10 & Hdot).
  destruct (show_lower_hex_spec g Hg) as [Hhex _].
  assert (forall T (inner : reader T), read_separator CO index inner
      ((if (0 <? index)%nat then [CO] else []) ++ show_lower_hex g ++ fmt_subslice (S index) groups ++ rest) =
      inner (show_lower_hex g ++ fmt_subslice (S index) groups ++ rest)) as Hsep.
  { intros T inner. unfold read_separator. destruct (0 <? index)%nat; [|done]. cbn [app read_given_char].
    by rewrite Z.eqb_refl. }
  rewrite !Hsep, not_ipv4, read_group by done. rewrite IH by (done || lia). by destruct (0 <? more)%nat.
Qed.

(** ** The printer's run of zeros *)

Definition zeros (l : list Z) (span : nat * nat) : Prop :=
  forall j, (fst span <= j < fst span + snd span)%nat -> l !! j = Some 0.

Lemma zero_span_zeros rest l index current longest :
  drop index l = rest -> zeros l current -> zeros l longest ->
  (snd current = 0%nat \/ fst current + snd current = index)%nat ->
  zeros l (zero_span index current longest rest).
Proof.
  revert index current longest. induction rest as [|g rest IH]; intros index current longest Hd Hc Hl Hi; [done|].
  assert (l !! index = Some g) as Hg.
  { replace index with (index + 0)%nat by lia. by rewrite <- lookup_drop, Hd. }
  assert (drop (S index) l = rest) as Hd'.
  { replace (S index) with (index + 1)%nat by lia. by rewrite <- drop_drop, Hd. }
  cbn [zero_span]. destruct (Z.eqb_spec g 0) as [->|Hg0].
  - set (next := if (snd current =? 0)%nat then _ else _).
    assert (zeros l next /\ fst next + snd next = S index)%nat as [Hn Hni].
    { subst next. destruct (Nat.eqb_spec (snd current) 0) as [E|E]; cbn.
      - split; [|lia]. intros j Hj. cbn in Hj. by replace j with index by lia.
      - split; [|lia]. intros j Hj. cbn in Hj. destruct (decide (j = index)) as [->|]; [done|]. apply Hc. lia. }
    apply IH; auto. by destruct (snd longest <? snd next)%nat.
  - apply IH; auto. intros j Hj. cbn in Hj. lia.
Qed.

Lemma zeros_cut l start len :
  zeros l (start, len) -> (0 < len)%nat ->
  l = take start l ++ replicate len 0 ++ drop (start + len) l /\ (start + len <= length l)%nat.
Proof.
  intros Hz Hlen. assert (start + len <= length l)%nat as Hle.
  { assert (l !! (start + len - 1)%nat = Some 0) as H%lookup_lt_Some by (apply Hz; cbn; lia). lia. }
  split; [|done]. rewrite <- (take_drop start l) at 1. f_equal.
  rewrite <- (take_drop len (drop start l)) at 1. rewrite drop_drop. f_equal.
  apply list_eq. intros j. destruct (decide (j < len)%nat) as [Hj|Hj].
  - rewrite lookup_take_lt, lookup_drop, lookup_replicate_2 by lia. apply Hz. cbn. lia.
  - rewrite lookup_take_ge, lookup_ge_None_2 by (rewrite ?length_replicate; lia). done.
Qed.

(** ** Every address printed is read back *)

Lemma read_two_colons {T} (k : text -> option T) s :
  (rest ← read_given_char CO ([CO; CO] ++ s); rest ← read_given_char CO rest; k rest) = k s.
Proof. done. Qed.

Lemma read_compressed head tail :
  Forall (fits 16) head -> Forall (fits 16) tail -> (length head + length tail < 8)%nat ->
  read_ipv6_addr (fmt_subslice 0 head ++ [CO; CO] ++ fmt_subslice 0 tail) =
  Some (from_be 16 (head ++ replicate (8 - length head - length tail) 0 ++ tail), []).
Proof.
  intros Hh Ht Hlen. unfold read_ipv6_addr.
  rewrite read_groups_subslice by (done || lia || (cbn; eauto)).
  destruct (Nat.eqb_spec (length head) 8); [lia|]. rewrite read_two_colons.
  pose proof (read_groups_subslice tail (8 - (length head + 1)) 0 [] Ht ltac:(lia) I) as H.
  rewrite app_nil_r in H. by rewrite H.
Qed.

Lemma read_full groups :
  Forall (fits 16) groups -> length groups = 8%nat ->
  read_ipv6_addr (fmt_subslice 0 groups) = Some (from_be 16 groups, []).
Proof.
  intros Hg Hl. unfold read_ipv6_addr.
  pose proof (read_groups_subslice groups 8 0 [] Hg ltac:(lia) I) as H.
  rewrite app_nil_r in H. by rewrite H, Hl.
Qed.

Lemma subslice_not_ipv4 groups rest :
  Forall (fits 16) groups -> stops rest -> rest <> [] \/ groups <> [] ->
  read_ipv4_addr (fmt_subslice 0 groups ++ rest) = None.
Proof.
  intros Hg Hr Hne. destruct Hg as [|g groups Hg Hgs].
  - apply stops_heads in Hr as (_ & H10 & Hdot). by apply (not_ipv4 []).
  - cbn [fmt_subslice Nat.ltb Nat.leb app]. rewrite <- app_assoc.
    destruct (subslice_stops_next 0 groups rest Hr) as (_ & H10 & Hdot). apply not_ipv4; [|done|done].
    by apply show_lower_hex_spec.
Qed.

Lemma read_mapped ipv4 :
  fits 32 ipv4 -> read_ipv6_addr (lit "::ffff:" ++ ipv4_display ipv4) = Some (to_ipv6_mapped ipv4, []).
Proof.
  intros Ha. unfold read_ipv6_addr.
  change (lit "::ffff:" ++ ipv4_display ipv4)
    with (fmt_subslice 0 [] ++ [CO; CO] ++ lit "ffff:" ++ ipv4_display ipv4).
  rewrite read_groups_subslice by (done || (cbn; lia) || (cbn; eauto)).

  cbn [length Nat.eqb]. rewrite read_two_colons. change (8 - (0 + 1))%nat with 7%nat. cbn [read_groups].
  assert (read_separator CO 0 read_ipv4_addr (lit "ffff:" ++ ipv4_display ipv4) = None) as ->.
  { unfold read_separator. cbn [Nat.ltb Nat.leb]. apply (not_ipv4 (lit "ffff") (CO :: ipv4_display ipv4)); [|done|done].
    repeat constructor. }
  assert (read_separator CO 0 (read_number 16 4 true 16) (lit "ffff:" ++ ipv4_display ipv4) =
    Some (0xffff, CO :: ipv4_display ipv4)) as ->.
  { unfold read_separator. cbn [Nat.ltb Nat.leb]. by apply (read_group 0xffff (CO :: ipv4_display ipv4)). }
  pose proof (read_ipv4_display ipv4 [] Ha eq_refl) as H4. rewrite app_nil_r in H4.
  assert (read_separator CO 1 read_ipv4_addr (CO :: ipv4_display ipv4) = Some (ipv4, [])) as ->.
  { unfold read_separator. cbn. done. }
  cbn [Nat.ltb Nat.leb]. cbn [length app to_be]. rewrite mapped_arith by done. unfold fits, umax in Ha.
  unfold from_be. cbn. f_equal. f_equal. clear H4. Z.to_euclidean_division_equations. lia.
Qed.

Lemma parse_ipv6_display a : fits 128 a -> read_ipv6_addr (ipv6_display a) = Some (a, []) /\ read_ipv4_addr (ipv6_display a) = None.
Proof.
  intros Ha. unfold ipv6_display. destruct (to_ipv4_mapped a) as [ipv4|] eqn:Em.
  - apply to_ipv4_mapped_Some in Em as [-> Hb]. rewrite <- mapped_arith by done. split; [by apply read_mapped|].
    apply (subslice_not_ipv4 [] (lit "::ffff:" ++ ipv4_display ipv4)); [done|cbn; eauto|by left].
  - assert (from_be 16 (to_be 16 8 a) = a) as Hbe by (apply from_to_be; [lia|]; unfold fits, umax in Ha; lia).
    pose proof (length_to_be 16 8 a) as Hlen. pose proof (to_be_fits 16 8 a ltac:(lia)) as Hf.
    set (segments := to_be 16 8 a) in *. destruct (zero_span 0 (0, 0)%nat (0, 0)%nat segments) as [start len] eqn:Ez.
    destruct (Nat.ltb_spec 1 len) as [H1|_].
    + assert (zeros segments (start, len)) as Hz.
      { rewrite <- Ez. apply zero_span_zeros; auto; intros j Hj; cbn in Hj; lia. }
      apply zeros_cut in Hz as [Hcut Hle]; [|lia].
      assert (length (take start segments) = start) by (rewrite length_take; lia).
      assert (length (drop (start + len) segments) = 8 - (start + len))%nat by (rewrite length_drop; lia).
      split.
      * rewrite read_compressed; [|by apply Forall_take|by apply Forall_drop|lia].
        replace (8 - length (take start segments) - length (drop (start + len) segments))%nat with len by lia.
        by rewrite <- Hcut, Hbe.
      * apply subslice_not_ipv4; [by apply Forall_take|cbn; eauto|by left].
    + split; [by rewrite read_full, Hbe|]. rewrite <- (app_nil_r (fmt_subslice 0 segments)).
      apply subslice_not_ipv4; [done|done|]. right. by intros Hn; rewrite Hn in Hlen.
Qed.

Lemma parse_ip_display ip : ip_fits ip -> parse_ip (ip_display ip) = Ok ip.
Proof.
  unfold parse_ip, parse_with, read_ip_addr. destruct ip as [a|a]; cbn [ip_fits ip_display]; intros Ha.
  - pose proof (read_ipv4_display a [] Ha eq_refl) as H. rewrite app_nil_r in H. by rewrite H.
  - destruct (parse_ipv6_display a Ha) as [H6 H4]. by rewrite H4, H6.
Qed.

(** What an address is printed with: no separator of the expressions is among them. *)
Definition addr_char (c : Z) : bool := is_digit 16 c || (c =? CO) || (c =? DOT).

Lemma join_chars (P : Z -> Prop) sep words :
  P sep -> Forall (Forall P) words -> Forall P (join [sep] words).
Proof.
  intros Hs. induction 1 as [|w words Hw Hws IH]; [constructor|]. destruct words as [|v words]; [done|].
  change (join [sep] (w :: v :: words)) with (w ++ sep :: join [sep] (v :: words)).
  apply Forall_app. by split; [|constructor].
Qed.

Lemma ipv4_display_chars a : Forall (fun c => is_digit 10 c || (c =? DOT) = true) (ipv4_display a).
Proof.
  apply join_chars; [done|]. apply Forall_fmap. eapply Forall_impl; [by apply (to_be_fits 8 4 a)|].
  intros n Hn. cbn. eapply Forall_impl; [by apply show_uint_octet|]. intros c Hc. cbn in *. by rewrite Hc.
Qed.

Lemma subslice_chars index groups :
  Forall (fits 16) groups -> Forall (fun c => addr_char c = true) (fmt_subslice index groups).
Proof.
  intros Hg. revert index. induction Hg as [|g groups Hg _ IH]; intros index; cbn [fmt_subslice]; [constructor|].
  apply Forall_app. split; [destruct (0 <? index)%nat; repeat constructor|]. apply Forall_app. split; [|done].
  eapply Forall_impl; [by apply show_lower_hex_spec|]. intros c Hc. cbn in Hc. unfold addr_char. by rewrite Hc.
Qed.

Lemma ip_display_chars ip : Forall (fun c => addr_char c = true) (ip_display ip).
Proof.
  assert (forall a, Forall (fun c => addr_char c = true) (ipv4_display a)) as H4.
  { intros a. eapply Forall_impl; [apply ipv4_display_chars|]. intros c Hc. cbn in Hc. unfold addr_char.
    apply orb_true_iff in Hc as [Hc| ->]; [|by rewrite orb_true_r]. by rewrite digit_10_16. }
  destruct ip as [a|a]; cbn [ip_display]; [apply H4|]. unfold ipv6_display.
  destruct (to_ipv4_mapped a); [apply Forall_app; split; [repeat constructor|apply H4]|].
  pose proof (to_be_fits 16 8 a ltac:(lia)) as Hf.
  destruct (zero_span _ _ _ _) as [start len]. destruct (1 <? len)%nat; [|by apply subslice_chars].
  rewrite !Forall_app. split_and!; [by apply subslice_chars, Forall_take|repeat constructor|by apply subslice_chars, Forall_drop].
Qed.

(** ** What is read is an address *)

Lemma digit_run_nonneg radix k r c s v n rest :
  0 < radix -> 0 <= r -> digit_run radix k r c s = Some (v, n, rest) -> 0 <= v.
Proof.
  intros Hx. revert r c. induction s as [|x s IH]; intros r c Hr; cbn [digit_run]; [by intros [= <- _ _]|].
  destruct (to_digit radix x) as [d|] eqn:E; [|by intros [= <- _ _]]. destruct (k <? S c)%nat; [done|]. apply IH.
  assert (0 <= d); [|nia]. unfold to_digit, then_some, is_ascii_digit, in_range in E. repeat case_match; simplify_eq; lia.
Qed.

Lemma read_number_fits radix k zero w s v rest :
  0 < radix -> read_number radix k zero w s = Some (v, rest) -> fits w v.
Proof.
  intros Hx. unfold read_number. destruct (digit_run radix k 0 0 s) as [[[v' n] rest']|] eqn:E; [|done].
  cbn [mbind option_bind]. destruct (n =? 0)%nat; [done|]. destruct (negb zero && _ && _); [done|].
  destruct (Z.leb_spec v' (umax w)); [|done]. intros [= -> ->]. split; [|done]. by eapply digit_run_nonneg in E.
Qed.

Lemma read_separator_Some {T} sep index (inner : reader T) s x :
  read_separator sep index inner s = Some x -> exists u, inner u = Some x.
Proof. unfold read_separator. destruct (0 <? index)%nat; [|eauto]. destruct (read_given_char sep s); [cbn; eauto|done]. Qed.

Lemma read_dotted_fits more index s octets rest :
  read_dotted more index s = Some (octets, rest) -> Forall (fits 8) octets /\ length octets = more.
Proof.
  revert index s octets. induction more as [|more IH]; intros index s octets; cbn [read_dotted].
  { by intros [= <- _]. }
  destruct (read_separator _ _ _ s) as [[o r]|] eqn:E; [|done]. cbn [mbind option_bind].
  destruct (read_dotted more (S index) r) as [[os r']|] eqn:E2; [|done]. cbn. intros [= <- ->].
  apply read_separator_Some in E as [u E]. apply read_number_fits in E; [|lia].
  apply IH in E2 as [H1 H2]. split; [by constructor|]. cbn. lia.
Qed.

Lemma read_ipv4_fits s a rest : read_ipv4_addr s = Some (a, rest) -> fits 32 a.
Proof.
  unfold read_ipv4_addr. destruct (read_dotted 4 0 s) as [[os r]|] eqn:E; [|done]. cbn. intros [= <- _].
  apply read_dotted_fits in E as [H1 H2]. apply from_be_bounds in H1; [|lia]. rewrite H2 in H1. unfold fits, umax. lia.
Qed.

Lemma read_groups_fits more index s groups v4 rest :
  read_groups more index s = (groups, v4, rest) -> Forall (fits 16) groups /\ (length groups <= more)%nat.
Proof.
  revert index s groups v4 rest. induction more as [|more IH]; intros index s groups v4 rest; cbn [read_groups].
  { by intros [= <- _ _]. }
  destruct (if (0 <? more)%nat then _ else _) as [[a r]|] eqn:E4.
  { intros [= <- _ _]. split; [by apply (to_be_fits 16 2)|]. destruct (Nat.ltb_spec 0 more); [|done]. cbn. lia. }
  destruct (read_separator CO index (read_number 16 4 true 16) s) as [[g r]|] eqn:E; [|intros [= <- _ _]; cbn; split; [done|lia]].
  destruct (read_groups more (S index) r) as [[gs v] r'] eqn:E2. intros [= <- _ _].
  apply read_separator_Some in E as [u E]. apply read_number_fits in E; [|lia].
  apply IH in E2 as [H1 H2]. split; [by constructor|]. cbn. lia.
Qed.

Lemma from_be_eight l : Forall (fits 16) l -> length l = 8%nat -> fits 128 (from_be 16 l).
Proof. intros Hl Hn. apply from_be_bounds in Hl; [|lia]. rewrite Hn in Hl. unfold fits, umax. lia. Qed.

Lemma read_ipv6_fits s a rest : read_ipv6_addr s = Some (a, rest) -> fits 128 a.
Proof.
  unfold read_ipv6_addr. destruct (read_groups 8 0 s) as [[head hv] r] eqn:Eh.
  apply read_groups_fits in Eh as [Hh Hhl]. destruct (Nat.eqb_spec (length head) 8).
  { intros [= <- _]. by apply from_be_eight. }
  destruct hv; [done|]. destruct (read_given_char CO r) as [r1|]; [|done]. cbn [mbind option_bind].
  destruct (read_given_char CO r1) as [r2|]; [|done]. cbn [mbind option_bind].
  destruct (read_groups (8 - (length head + 1)) 0 r2) as [[tail tv] r3] eqn:Et.
  apply read_groups_fits in Et as [Ht Htl]. intros [= <- _]. apply from_be_eight.
  - rewrite !Forall_app. split_and!; [done| |done]. apply Forall_replicate. unfold fits, umax. lia.
  - rewrite !length_app, length_replicate. lia.
Qed.

Lemma parse_with_Ok {T} (inner : reader T) kind s x : parse_with inner kind s = Ok x -> inner s = Some (x, []).
Proof. unfold parse_with. destruct (inner s) as [[y [|]]|]; [|done|done]. by intros [= ->]. Qed.

Lemma parse_ipv4_fits s a : parse_ipv4 s = Ok a -> fits 32 a.
Proof. unfold parse_ipv4. destruct (15 <? byte_len s)%nat; [done|]. intros H%parse_with_Ok. by eapply read_ipv4_fits. Qed.

Lemma parse_ipv6_fits s a : parse_ipv6 s = Ok a -> fits 128 a.
Proof. intros H%parse_with_Ok. by eapply read_ipv6_fits. Qed.

Lemma parse_ip_fits s ip : parse_ip s = Ok ip -> ip_fits ip.
Proof.
  intros H%parse_with_Ok. unfold read_ip_addr in H. destruct (read_ipv4_addr s) as [[a r]|] eqn:E4.
  - injection H as <- ->. by eapply read_ipv4_fits.
  - destruct (read_ipv6_addr s) as [[a r]|] eqn:E6; [|done]. cbn in H. injection H as <- ->. by eapply read_ipv6_fits.
Qed.

Lemma mapM_octet_fits parts octets : mapM octet parts = Some octets -> Forall (fits 8) octets.
Proof.
  intros H%mapM_Some. induction H as [|p o parts octets Hp _ IH]; constructor; [|done].
  unfold octet in Hp. repeat case_match; try done. unfold ok in Hp. case_match; [|done]. injection Hp as ->.
  by eapply parse_uint_fits; [|done].
Qed.

Lemma expand_v4_end_fits start end_str stop : expand_v4_end start end_str = Some stop -> fits 32 stop.
Proof.
  unfold expand_v4_end. destruct (parse_ipv4 end_str) as [full|] eqn:E.
  { intros [= <-]. by eapply parse_ipv4_fits. }
  destruct (mapM octet _) as [suffix|] eqn:Em; [|done]. cbn [mbind option_bind].
  destruct (Nat.eqb_spec (length suffix) 0), (Nat.ltb_spec 4 (length suffix)); try done. cbn [orb]. intros [= <-].
  apply mapM_octet_fits in Em.
  assert (Forall (fits 8) (take (4 - length suffix) (to_be 8 4 start) ++ suffix)) as Hf.
  { apply Forall_app. split; [|done]. by apply Forall_take, to_be_fits. }
  apply from_be_bounds in Hf; [|lia]. rewrite length_app, length_take, length_to_be in Hf.
  replace (Nat.min (4 - length suffix) 4 + length suffix)%nat with 4%nat in Hf by lia.
  split; [apply Hf|]. apply Z.lt_le_pred. apply Hf.
Qed.

Lemma cidr_range_ok ip prefix r : ip_fits ip -> fits 8 prefix -> cidr_range ip prefix = Ok r -> range_ok r.
Proof.
  intros Hip Hp H. pose proof (cidr_range_spec ip prefix Hip Hp) as Hs.
  destruct ip as [a|a]; [destruct (32 <? prefix)|destruct (128 <? prefix)]; try congruence;
    destruct Hs as (r' & E & Hr & _); congruence.
Qed.

Lemma map_err_Ok {T E F} (f : E -> F) (r : Result T E) x : map_err f r = Ok x <-> r = Ok x.
Proof. destruct r; cbn; naive_solver. Qed.

Lemma range_from_str_ok s r : range_from_str s = Ok r -> range_ok r.
Proof.
  unfold range_from_str. destruct (split_once _ _) as [[ip_str prefix_str]|].
  - destruct (parse_ip ip_str) as [ip|] eqn:Ei; [|done]. cbn [map_err try_].
    destruct (parse_uint 8 prefix_str) as [prefix|] eqn:Ep; [|done]. cbn [map_err try_].
    apply cidr_range_ok; [by eapply parse_ip_fits|by eapply parse_uint_fits; [|done]].
  - destruct (split_once _ _) as [[start_str end_str]|].
    + destruct (parse_ipv4 start_str) as [start|] eqn:E4.
      * destruct (expand_v4_end start end_str) as [stop|] eqn:Ee; [|done].
        destruct (v4_new start stop) as [v|] eqn:Ev; [|done]. intros [= <-].
        eapply v4_new_ok; [by eapply parse_ipv4_fits|by eapply expand_v4_end_fits|done].
      * destruct (parse_ipv6 start_str) as [start|] eqn:E6; [|done].
        destruct (parse_ipv6 end_str) as [stop|] eqn:Ee; [|done]. cbn [map_err try_].
        destruct (v6_new start stop) as [v|] eqn:Ev; [|done]. intros [= <-].
        apply (v6_scoped_ok start stop None); [by eapply parse_ipv6_fits|by eapply (parse_ipv6_fits end_str)|done|done].
    + destruct (parse_ip _) as [ip|] eqn:Ei; [|done]. cbn. intros [= <-]. apply parse_ip_fits in Ei.
      destruct ip; [by apply v4_single_ok|by apply v6_single_ok].
Qed.

(** ** Spellings of ranges *)

Lemma split_once_none pred s : Forall (fun c => pred c = false) s -> split_once pred s = None.
Proof. induction 1 as [|c s Hc _ IH]; [done|]. cbn. by rewrite Hc, IH. Qed.

Lemma trim_none s : Forall (fun c => is_whitespace c = false) s -> trim s = s.
Proof.
  intros H. apply trim_id.
  - by destruct H.
  - unfold ends_with. destruct (last s) as [c|] eqn:E; [|done]. apply last_Some_elem_of in E.
    rewrite Forall_forall in H. by apply H.
Qed.

Lemma is_digit_16 c : is_digit 16 c = true -> 48 <= c <= 57 \/ 65 <= c <= 70 \/ 97 <= c <= 102.
Proof.
  unfold is_digit, to_digit, then_some, is_ascii_digit, in_range. intros H.
  destruct ((48 <=? c) && (c <=? 57)) eqn:E1; [lia|]. destruct ((97 <=? c) && (c <=? 122)) eqn:E2.
  { destruct (Z.ltb_spec (c - 87) 16); [lia|done]. }
  destruct ((65 <=? c) && (c <=? 90)) eqn:E3; [|done]. destruct (Z.ltb_spec (c - 55) 16); [lia|done].
Qed.

Lemma addr_char_plain c : addr_char c = true ->
  is_whitespace c = false /\ (SLASH =? c) = false /\ (HYPHEN =? c) = false /\ (PERCENT =? c) = false /\ (44 =? c) = false.
Proof.
  intros H. assert (48 <= c <= 57 \/ 65 <= c <= 70 \/ 97 <= c <= 102 \/ c = 58 \/ c = 46) as Hc.
  { unfold addr_char, CO, DOT in H. rewrite !orb_true_iff in H. destruct H as [[H%is_digit_16|H]|H]; lia. }
  unfold is_whitespace, in_range, SLASH, HYPHEN, PERCENT. lia.
Qed.

(** An address as printed holds no separator of the grammar and no blank. *)
Lemma ip_display_plain ip (P : Z -> Prop) :
  (forall c, addr_char c = true -> P c) -> Forall P (ip_display ip).
Proof. intros H. eapply Forall_impl; [apply ip_display_chars|]. done. Qed.

Lemma byte_len_app s t : byte_len (s ++ t) = (byte_len s + byte_len t)%nat.
Proof. induction s as [|c s IH]; [done|]. cbn [app byte_len foldr] in *. fold (byte_len (s ++ t)). rewrite IH. unfold byte_len. lia. Qed.

Lemma octet_width : forallb (fun n => (byte_len (show_uint n) <=? 3)%nat && bool_decide (octet (show_uint n) = Some n)) (seqZ 0 256) = true.
Proof. vm_compute. reflexivity. Qed.

Lemma octet_show n : fits 8 n -> (byte_len (show_uint n) <= 3)%nat /\ octet (show_uint n) = Some n.
Proof.
  intros Hn. pose proof (forallb_seqZ _ 256 n octet_width ltac:(unfold fits, umax in Hn; lia)) as H.
  apply andb_true_iff in H as [H1%Nat.leb_le H2%bool_decide_eq_true]. done.
Qed.

Lemma ipv4_display_short a : (byte_len (ipv4_display a) <= 15)%nat.
Proof.
  unfold ipv4_display. pose proof (to_be_fits 8 4 a ltac:(lia)) as Hf. pose proof (length_to_be 8 4 a) as Hl.
  rewrite dotted_join. destruct (to_be 8 4 a) as [|x [|y [|z [|u [|]]]]]; try done.
  rewrite !Forall_cons in Hf. destruct Hf as (Hx & Hy & Hz & Hu & _). cbn [dotted Nat.ltb Nat.leb]. rewrite !byte_len_app.
  apply octet_show in Hx as [Hx _], Hy as [Hy _], Hz as [Hz _], Hu as [Hu _].
  change (byte_len [DOT]) with 1%nat. change (byte_len []) with 0%nat. lia.
Qed.

Lemma parse_ipv4_show a : fits 32 a -> parse_ipv4 (ipv4_display a) = Ok a.
Proof.
  intros Ha. unfold parse_ipv4. rewrite (proj2 (Nat.ltb_ge _ _)) by apply ipv4_display_short.
  unfold parse_with. pose proof (read_ipv4_display a [] Ha eq_refl) as H. rewrite app_nil_r in H. by rewrite H.
Qed.

Lemma parse_ipv6_show a : fits 128 a -> parse_ipv6 (ipv6_display a) = Ok a /\ is_ok (parse_ipv4 (ipv6_display a)) = false.
Proof.
  intros Ha. destruct (parse_ipv6_display a Ha) as [H6 H4]. unfold parse_ipv6, parse_ipv4, parse_with.
  rewrite H6, H4. split; [done|]. by destruct (15 <? _)%nat.
Qed.

(** Fewer than four octets are no address. *)
Lemma read_dotted_short l k index :
  Forall (fits 8) l -> read_dotted (length l + S k) index (dotted index l) = None \/ index = 0%nat /\ l = [].
Proof.
  intros Hl. revert index. induction Hl as [|n l Hn Hl IH]; intros index.
  - destruct index as [|index]; [by right|left]. done.
  - left. cbn [length Nat.add read_dotted dotted].
    pose proof (dotted_not_digit index l [] eq_refl) as Hnd. rewrite app_nil_r in Hnd. unfold read_separator.
    destruct (IH (S index)) as [E|[? _]]; [|done].
    destruct (0 <? index)%nat; cbn [app read_given_char]; [rewrite Z.eqb_refl; cbn [then_some mbind option_bind]|];
      rewrite read_octet by done; cbn [mbind option_bind]; by rewrite E.
Qed.

Lemma expand_short start suffix :
  Forall (fits 8) suffix -> (1 <= length suffix <= 3)%nat ->
  expand_v4_end start (join [DOT] (show_uint <$> suffix)) =
  Some (from_be 8 (take (4 - length suffix) (to_be 8 4 start) ++ suffix)).
Proof.
  intros Hs Hlen. unfold expand_v4_end.
  assert (is_ok (parse_ipv4 (join [DOT] (show_uint <$> suffix))) = false) as Hno.
  { unfold parse_ipv4, parse_with, read_ipv4_addr. rewrite dotted_join.
    destruct (read_dotted_short suffix (3 - length suffix) 0 Hs) as [E|[_ ->]]; [|cbn in Hlen; lia].
    replace (length suffix + S (3 - length suffix))%nat with 4%nat in E by lia. rewrite E.
    by destruct (15 <? _)%nat. }
  destruct (parse_ipv4 _); [done|].
  rewrite split_by_join; [|done|destruct suffix; [cbn in Hlen; lia|done]|].
  - replace (mapM octet (show_uint <$> suffix)) with (Some suffix).
    + cbn [mbind option_bind]. destruct (Nat.eqb_spec (length suffix) 0); [lia|].
      by destruct (Nat.ltb_spec 4 (length suffix)); [lia|].
    + symmetry. apply mapM_Some. apply Forall2_fmap_l. apply Forall_Forall2_diag.
      eapply Forall_impl; [exact Hs|]. intros n Hn. by apply octet_show.
  - apply Forall_fmap. eapply Forall_impl; [exact Hs|]. intros n Hn. cbn.
    eapply Forall_impl; [by apply show_uint_octet|]. intros c Hc.
    change ((DOT =? c) = false). apply Z.eqb_neq. by intros <-.
Qed.

Lemma show_uint_plain n (P : Z -> Prop) : 0 <= n -> (forall c, 48 <= c <= 57 -> P c) -> Forall P (show_uint n).
Proof. intros Hn H. eapply Forall_impl; [by apply show_uint_digits|]. intros c Hc%is_ascii_digit_spec. auto. Qed.

Lemma spelled_not_blank ip sep rest :
  is_whitespace sep = false -> Forall (fun c => is_whitespace c = false) rest ->
  trim (ip_display ip ++ sep :: rest) = ip_display ip ++ sep :: rest.
Proof.
  intros Hs Hr. apply trim_none, Forall_app. split; [|by constructor].
  apply ip_display_plain. intros c Hc. apply (addr_char_plain c Hc).
Qed.

Lemma split_at_display pred ip sep rest :
  (forall c, addr_char c = true -> pred c = false) -> pred sep = true ->
  split_once pred (ip_display ip ++ sep :: rest) = Some (ip_display ip, rest).
Proof. intros H Hs. apply split_once_at; [|done]. by apply ip_display_plain. Qed.

(** A range written with a hyphen, once what follows the hyphen has no slash. *)
Lemma range_from_hyphen ip rest :
  Forall (fun c => is_whitespace c = false) rest -> Forall (fun c => (SLASH =? c) = false) rest ->
  let s := ip_display ip ++ HYPHEN :: rest in
  trim s = s /\ split_once (Z.eqb SLASH) s = None /\ split_once (Z.eqb HYPHEN) s = Some (ip_display ip, rest).
Proof.
  intros Hw Hs. split_and!.
  - by apply spelled_not_blank.
  - apply split_once_none, Forall_app. split; [|by constructor]. apply ip_display_plain. intros c Hc. apply (addr_char_plain c Hc).
  - apply split_at_display; [|done]. intros c Hc. apply (addr_char_plain c Hc).
Qed.

Lemma display_rest ip :
  Forall (fun c => is_whitespace c = false) (ip_display ip) /\ Forall (fun c => (SLASH =? c) = false) (ip_display ip).
Proof. split; apply ip_display_plain; intros c Hc; apply (addr_char_plain c Hc). Qed.

Lemma suffix_rest suffix :
  Forall (fits 8) suffix ->
  Forall (fun c => is_whitespace c = false) (join [DOT] (show_uint <$> suffix)) /\
  Forall (fun c => (SLASH =? c) = false) (join [DOT] (show_uint <$> suffix)).
Proof.
  intros Hs. split; (apply join_chars; [done|]); apply Forall_fmap; (eapply Forall_impl; [exact Hs|]); intros n [Hn _];
    apply show_uint_plain; auto; unfold is_whitespace, in_range, SLASH; lia.
Qed.

Lemma range_from_single ip :
  ip_fits ip ->
  range_from_str (ip_display ip) = Ok (match ip with V4 a => RV4 (v4_single a) | V6 a => RV6 (v6_single a) end).
Proof.
  intros Hip. unfold range_from_str. rewrite trim_none by (by apply display_rest).
  rewrite !split_once_none by (apply ip_display_plain; intros c Hc; apply (addr_char_plain c Hc)).
  by rewrite parse_ip_display.
Qed.

Lemma range_from_cidr ip prefix :
  ip_fits ip -> fits 8 prefix -> range_from_str (ip_display ip ++ SLASH :: show_uint prefix) = cidr_range ip prefix.
Proof.
  intros Hip Hp. unfold range_from_str.
  rewrite spelled_not_blank; [|done|apply show_uint_plain; [apply Hp|unfold is_whitespace, in_range; lia]].
  rewrite split_at_display by (done || (intros c Hc; apply (addr_char_plain c Hc))).
  rewrite parse_ip_display, parse_show_uint by (done || lia). done.
Qed.

(** Every spelling of a range is read as the range it spells: an address alone,
    an address and a prefix, two addresses of one family, and a start whose end
    gives only its last octets.  An end below its start is refused with both
    ends, and a prefix too long for its family with the prefix. *)
Theorem range_spellings (a b prefix : Z) (suffix : list Z) :
  fits 32 a -> fits 32 b -> fits 8 prefix -> Forall (fits 8) suffix -> (1 <= length suffix <= 3)%nat ->
  range_from_str (ip_display (V4 a)) = Ok (RV4 (v4_single a)) /\
  range_from_str (ip_display (V4 a) ++ SLASH :: show_uint prefix) = cidr_range (V4 a) prefix /\
  range_from_str (ip_display (V4 a) ++ HYPHEN :: ip_display (V4 b)) =
    (if a <=? b then Ok (RV4 (mkIpv4Range a b)) else Err (InvalidRange (V4 a) (V4 b))) /\
  range_from_str (ip_display (V4 a) ++ HYPHEN :: join [DOT] (show_uint <$> suffix)) =
    (let stop := from_be 8 (take (4 - length suffix) (to_be 8 4 a) ++ suffix) in
     if a <=? stop then Ok (RV4 (mkIpv4Range a stop)) else Err (InvalidRange (V4 a) (V4 stop))) /\
  forall c d, fits 128 c -> fits 128 d ->
    range_from_str (ip_display (V6 c)) = Ok (RV6 (v6_single c)) /\
    range_from_str (ip_display (V6 c) ++ SLASH :: show_uint prefix) = cidr_range (V6 c) prefix /\
    range_from_str (ip_display (V6 c) ++ HYPHEN :: ip_display (V6 d)) =
      (if c <=? d then Ok (RV6 (mkIpv6Range c d None)) else Err (InvalidRange (V6 c) (V6 d))).
Proof.
  intros Ha Hb Hp Hs Hlen.
  split_and!.
  - by apply (range_from_single (V4 a)).
  - by apply range_from_cidr.
  - destruct (display_rest (V4 b)) as [Hw Hsl].
    destruct (range_from_hyphen (V4 a) _ Hw Hsl) as (E1 & E2 & E3). unfold range_from_str. rewrite E1, E2, E3. cbn [ip_display].
    rewrite parse_ipv4_show by done. unfold expand_v4_end. rewrite parse_ipv4_show by done. unfold v4_new. by destruct (a <=? b).
  - destruct (suffix_rest suffix Hs) as [Hw Hsl].
    destruct (range_from_hyphen (V4 a) _ Hw Hsl) as (E1 & E2 & E3). unfold range_from_str. rewrite E1, E2, E3. cbn [ip_display].
    rewrite parse_ipv4_show, expand_short by done. unfold v4_new. cbn zeta. by destruct (a <=? _).
  - intros c d Hc Hd. split_and!; [by apply (range_from_single (V6 c))|by apply range_from_cidr|].
    destruct (display_rest (V6 d)) as [Hw Hsl].
    destruct (range_from_hyphen (V6 c) _ Hw Hsl) as (E1 & E2 & E3). unfold range_from_str. rewrite E1, E2, E3. cbn [ip_display].
    destruct (parse_ipv6_show c Hc) as [E6 E4]. destruct (parse_ipv4 (ipv6_display c)); [done|].
    rewrite E6. destruct (parse_ipv6_show d Hd) as [-> _]. cbn [map_err try_]. unfold v6_new, v6_scoped. by destruct (c <=? d).
Qed.

Lemma range_spellings_witness :
  range_from_str (lit "192.168.1.1-2.254") = Ok (RV4 (mkIpv4Range 0xc0a80101 0xc0a802fe)) /\
  range_from_str (lit "fe80::1-fe80::9") = Ok (RV6 (mkIpv6Range (0xfe80 * 2 ^ 112 + 1) (0xfe80 * 2 ^ 112 + 9) None)).
Proof.
  destruct (range_spellings 0xc0a80101 0xc0a80109 24 [2; 254]) as (_ & _ & _ & H & H6);
    [unfold fits, umax; lia|unfold fits, umax; lia|unfold fits, umax; lia
    |repeat constructor; unfold fits, umax; lia|cbn; lia|].
  destruct (H6 (0xfe80 * 2 ^ 112 + 1) (0xfe80 * 2 ^ 112 + 9)) as (_ & _ & H'); [unfold fits, umax; lia|unfold fits, umax; lia|].
  split; [exact H|exact H'].
Defined.

(** A host key printed is read back.  An address alone reads back as itself.  An
    address on an interface reads back as the address on an interface of that name,
    whatever characters the name holds, with the index to be found again; a name
    that is empty is refused. *)
Theorem scoped_text_roundtrip (s : ScopedIp) :
  ip_fits (si_addr s) -> (si_zone s <> None -> needs_zone (si_addr s) = true) ->
  scoped_from_str (scoped_display s) =
    match si_zone s with
    | None => Ok s
    | Some zone =>
        if bool_decide (z_name zone = []) then Err EmptyZone
        else Ok (mkScopedIp (si_addr s) (Some (zone_unresolved (z_name zone))))
    end.
Proof.
  destruct s as [addr zone]. cbn [si_addr si_zone]. intros Ha Hz. unfold scoped_from_str, scoped_display. cbn [si_addr si_zone].
  destruct zone as [zone|].
  - cbn [app]. rewrite split_at_display by (done || (intros c Hc; apply (addr_char_plain c Hc))).
    destruct (z_name zone); [done|]. rewrite parse_ip_display by done. cbn [map_err try_]. by rewrite Hz.
  - rewrite split_once_none by (apply ip_display_plain; intros c Hc; apply (addr_char_plain c Hc)).
    by rewrite parse_ip_display.
Qed.

Lemma scoped_text_roundtrip_witness :
  scoped_from_str (lit "fe80::1%en0") = Ok (mkScopedIp (V6 (0xfe80 * 2 ^ 112 + 1)) (Some (zone_unresolved (lit "en0")))).
Proof.
  exact (scoped_text_roundtrip (mkScopedIp (V6 (0xfe80 * 2 ^ 112 + 1)) (Some (zone_new 7 (lit "en0"))))
    ltac:(cbn; unfold fits, umax; lia) ltac:(intros _; vm_compute; reflexivity)).
Defined.
