(* ===== verification/Expression.v ===== *)
(** * Address expressions

    [src/src/model/parse/ip.rs]: the expressions a target or an exclusion is
    written with.  A keyword and an interface name are resolved by functions the
    host supplies, so both are parameters; everything else is the grammar of
    [range_from_str], read here with the IPv4 hosts that IPv4-mapped addresses
    spell.  An expression that is refused leaves the set as it was. *)

From Stdlib Require Import ZArith Lia String.
From stdpp Require Import base numbers sets option list.
From S2P Require Import Prelude Std Text Intervals IpRange IpSet Target Scoped AddrText.

Local Open Scope Z_scope.

(** ** Definitions *)

Inductive Keyword := Lan.

#[export] Instance Keyword_eq_dec : EqDecision Keyword.
Proof. solve_decision. Defined.

Definition Keyword_ALL : list Keyword := [Lan].

Definition keyword_as_str (k : Keyword) : text := match k with Lan => lit "lan" end.

Definition from_token (token : text) : option Keyword :=
  let token := trim token in
  find (fun keyword => eq_ignore_ascii_case token (keyword_as_str keyword)) Keyword_ALL.

Definition COMMA_CHAR : Z := 44.

Definition names_keyword (targets : list text) (keyword : Keyword) : bool :=
  existsb (fun target =>
    existsb (fun part => bool_decide (from_token part = Some keyword)) (split_by (Z.eqb COMMA_CHAR) target)) targets.

Inductive IpParseError :=
  | ExprInvalidPrefix (prefix : Z)
  | ExprInvalidRange (start stop : IpAddr)
  | Malformed (s : text)
  | KeywordUnresolved (keyword reason : text)
  | EmptySet
  | ZoneOnUnscopedTarget (s : text)
  | UnknownInterface (zone : text).

#[export] Instance IpParseError_eq_dec : EqDecision IpParseError.
Proof. solve_decision. Defined.

(** A resolver is handed the set and may leave anything in it, also when it
    fails. *)
Definition ResolverFn : Type := Keyword -> IpSet -> IpSet * Result unit IpParseError.

Definition ZoneResolverFn : Type := text -> option Z.

Definition map_range_error (original : text) (e : IpError) : IpParseError :=
  match e with
  | InvalidRange s e => ExprInvalidRange s e
  | InvalidPrefix p => ExprInvalidPrefix p
  | _ => Malformed original
  end.

Definition as_hosts (range : IpRange) : IpRange :=
  match range with
  | RV6 v6 => match spelled_ipv4 v6 with Some v4 => RV4 v4 | None => range end
  | RV4 _ => range
  end.

Definition parse_range_expr (s : text) : Result IpRange IpParseError :=
  map_err (fun error =>
    match error with
    | InvalidFormat _ | AddrParse _ | PrefixParse _ => Malformed s
    | other => map_range_error s other
    end) (range_from_str s).

Definition parse_cidr (s : text) : Result IpRange IpParseError :=
  match split_once (Z.eqb SLASH) s with
  | None => Err (Malformed s)
  | Some (ip_str, prefix_str) =>
      let? ip := map_err (fun _ => Malformed s) (parse_ip ip_str) in
      let? prefix := map_err (fun _ => Malformed s) (parse_uint 32 prefix_str) in
      if prefix <=? umax 8 then map_err (map_range_error s) (cidr_range ip prefix)
      else Err (ExprInvalidPrefix prefix)
  end.

(** A range goes into the set, an error leaves it alone: what a function that takes
    [&mut IpSet] leaves there, and what it returns. *)
Definition inserting (set : IpSet) (r : Result IpRange IpParseError) : IpSet * Result unit IpParseError :=
  match r with
  | Ok range => (insert_range set range, Ok tt)
  | Err e => (set, Err e)
  end.

Definition parse_scoped (original address zone : text) (set : IpSet) (zones : option ZoneResolverFn)
    : IpSet * Result unit IpParseError :=
  inserting set (
    if bool_decide (zone = []) then Err (Malformed original)
    else
      let? range := map_err (fun _ => Malformed original) (range_from_str address) in
      match range with
      | RV4 _ => Err (ZoneOnUnscopedTarget original)
      | RV6 v6 =>
          if negb (is_link_local v6) then Err (ZoneOnUnscopedTarget original)
          else
            match zones with
            | None => Err (UnknownInterface zone)
            | Some lookup =>
                match option_filter (fun index => negb (index =? 0)) (lookup zone) with
                | None => Err (UnknownInterface zone)
                | Some index =>
                    map_err (map_range_error original) (map_ok RV6 (v6_scoped (v6_start v6) (v6_end v6) (Some index)))
                end
            end
      end).

Definition has_char (c : Z) (s : text) : bool := existsb (Z.eqb c) s.

Definition insert_expression (s : text) (set : IpSet) (resolver : option ResolverFn) (zones : option ZoneResolverFn)
    : IpSet * Result unit IpParseError :=
  let s := trim s in
  match split_once (Z.eqb PERCENT) s with
  | Some (address, zone) => parse_scoped s address zone set zones
  | None =>
      if has_char SLASH s then inserting set (map_ok as_hosts (parse_cidr s))
      else if has_char HYPHEN s then inserting set (map_ok as_hosts (parse_range_expr s))
      else
        match from_token s with
        | Some keyword =>
            match resolver with
            | None => (set, Err (KeywordUnresolved (keyword_as_str keyword) (lit "no resolver was supplied to expand it")))
            | Some resolve => resolve keyword set
            end
        | None =>
            match parse_ip s with
            | Ok ip => (ipset_insert set (to_canonical ip), Ok tt)
            | Err _ => (set, Err (Malformed s))
            end
        end
  end.

(** [str::split] on commas, trimmed, the empty pieces left out. *)
Definition parts_of (s : text) : list text :=
  filter (fun part => part <> []) (trim <$> split_by (Z.eqb COMMA_CHAR) s).

(** The inner loop of [to_set]. *)
Fixpoint insert_all (parts : list text) (set : IpSet) (resolver : option ResolverFn) (zones : option ZoneResolverFn)
    : Result IpSet IpParseError :=
  match parts with
  | [] => Ok set
  | part :: rest =>
      match insert_expression part set resolver zones with
      | (set, Ok _) => insert_all rest set resolver zones
      | (_, Err e) => Err e
      end
  end.

(** The outer loop of [to_set]. *)
Fixpoint insert_lines (ips : list text) (set : IpSet) (resolver : option ResolverFn) (zones : option ZoneResolverFn)
    : Result IpSet IpParseError :=
  match ips with
  | [] => Ok set
  | ip :: rest =>
      let s := trim ip in
      if bool_decide (s = []) then insert_lines rest set resolver zones
      else let? set := insert_all (parts_of s) set resolver zones in insert_lines rest set resolver zones
  end.

Definition to_set (ips : list text) (resolver : option ResolverFn) (zones : option ZoneResolverFn)
    : Result IpSet IpParseError :=
  let? set := insert_lines ips ipset_new resolver zones in
  if ipset_is_empty set then Err EmptySet else Ok set.

Example to_set_forms :
  match to_set [lit "192.0.2.0/30, 198.51.100.1-3"; lit " "; lit "::ffff:203.0.113.9"] None None with
  | Ok set => v4_bounds <$> ips_v4 (canonicalize set)
  | Err _ => []
  end = [(0xc0000200, 0xc0000203); (0xc6336401, 0xc6336403); (0xcb007109, 0xcb007109)].
Proof. vm_compute. reflexivity. Qed.

Example keyword_unresolved :
  to_set [lit "LAN"] None None =
  Err (KeywordUnresolved (lit "lan") (lit "no resolver was supplied to expand it")).
Proof. vm_compute. reflexivity. Qed.

Example zone_on_global :
  to_set [lit "2001:db8::1%en0"] None (Some (fun _ => Some 3)) = Err (ZoneOnUnscopedTarget (lit "2001:db8::1%en0")).
Proof. vm_compute. reflexivity. Qed.

(** ** One grammar *)

Lemma has_char_split c s : has_char c s = match split_once (Z.eqb c) s with Some _ => true | None => false end.
Proof.
  induction s as [|x s IH]; [done|]. cbn [has_char existsb split_once]. destruct (c =? x); [done|].
  cbn [orb]. unfold has_char in IH. rewrite IH. by destruct (split_once (Z.eqb c) s) as [[]|].
Qed.

Definition single_range (ip : IpAddr) : IpRange :=
  match ip with V4 a => RV4 (v4_single a) | V6 a => RV6 (v6_single a) end.

Lemma insert_single set ip : ipset_insert set ip = insert_range set (single_range ip).
Proof. by destruct ip. Qed.

Lemma spelled_single a : spelled_ipv4 (v6_single a) = v4_single <$> to_ipv4_mapped a.
Proof.
  unfold spelled_ipv4. cbn [v6_single v6_start v6_end]. destruct (to_ipv4_mapped a) as [b|]; [|done].
  cbn. unfold v4_new. by rewrite Z.leb_refl.
Qed.

(** The host an address names is the host its one-address range names. *)
Lemma as_hosts_single ip : as_hosts (single_range ip) = single_range (to_canonical ip).
Proof.
  destruct ip as [a|a]; [done|]. cbn [single_range as_hosts to_canonical]. rewrite spelled_single.
  by destruct (to_ipv4_mapped a).
Qed.

(** Where every address of the range is an IPv4-mapped one. *)
Definition spells_ipv4 (r : IpRange) : bool :=
  match r with
  | RV4 _ => false
  | RV6 v6 => (to_ipv6_mapped 0 <=? v6_start v6) && (v6_end v6 <=? to_ipv6_mapped (umax 32))
  end.

Definition host_named (r : IpRange) (ip : IpAddr) : IpAddr := if spells_ipv4 r then to_canonical ip else ip.

Lemma to_ipv4_mapped_in a : (exists b, to_ipv4_mapped a = Some b) <-> to_ipv6_mapped 0 <= a <= to_ipv6_mapped (umax 32).
Proof.
  rewrite !mapped_arith by (unfold fits, umax; lia). split.
  - intros [b [-> Hb]%to_ipv4_mapped_Some]. unfold fits, umax in *. lia.
  - intros Ha. exists (a - 0xffff * 2 ^ 32). apply to_ipv4_mapped_Some. unfold fits, umax in *. lia.
Qed.

Lemma spelled_ipv4_cases v6 :
  v6_ok v6 ->
  if spells_ipv4 (RV6 v6)
  then exists s e, v6_start v6 = 0xffff * 2 ^ 32 + s /\ v6_end v6 = 0xffff * 2 ^ 32 + e /\ fits 32 s /\ fits 32 e /\
         spelled_ipv4 v6 = Some (mkIpv4Range s e)
  else spelled_ipv4 v6 = None.
Proof.
  intros (H0 & Hle & H1 & _). cbn [spells_ipv4]. unfold spelled_ipv4.
  pose proof (to_ipv4_mapped_in (v6_start v6)) as Hs. pose proof (to_ipv4_mapped_in (v6_end v6)) as He.
  destruct (Z.leb_spec (to_ipv6_mapped 0) (v6_start v6)), (Z.leb_spec (v6_end v6) (to_ipv6_mapped (umax 32))); cbn [andb].
  - destruct (proj2 Hs ltac:(lia)) as [s Es], (proj2 He ltac:(lia)) as [e Ee]. rewrite Es, Ee. cbn [mbind option_bind].
    apply to_ipv4_mapped_Some in Es as [Es Fs], Ee as [Ee Fe]. exists s, e. unfold v4_new.
    rewrite (proj2 (Z.leb_le s e)) by lia. done.
  - destruct (to_ipv4_mapped (v6_end v6)); [destruct (proj1 He ltac:(eauto)); lia|]. by destruct (to_ipv4_mapped (v6_start v6)).
  - destruct (to_ipv4_mapped (v6_start v6)); [destruct (proj1 Hs ltac:(eauto)); lia|done].
  - destruct (to_ipv4_mapped (v6_start v6)); [destruct (proj1 Hs ltac:(eauto)); lia|done].
Qed.

Lemma as_hosts_ok r : range_ok r -> range_ok (as_hosts r).
Proof.
  destruct r as [|v6]; [done|]. intros H. pose proof (spelled_ipv4_cases v6 H) as Hc. cbn [as_hosts].
  destruct (spells_ipv4 (RV6 v6)); [|by rewrite Hc].
  destruct Hc as (s & e & Hs & He & Fs & Fe & ->). destruct H as (_ & Hle & _). unfold fits in *. unfold range_ok, v4_ok. cbn. lia.
Qed.

(** The hosts of a range are the addresses of it, as the hosts they name. *)
Lemma as_hosts_contains r ip :
  range_ok r ->
  range_contains (as_hosts r) ip = true <-> exists x, range_contains r x = true /\ ip = host_named r x.
Proof.
  intros H. unfold host_named. destruct r as [v4|v6]; [cbn; naive_solver|].
  pose proof (spelled_ipv4_cases v6 H) as Hc. cbn [as_hosts].
  destruct (spells_ipv4 (RV6 v6)) eqn:E; [|rewrite Hc; naive_solver].
  destruct Hc as (s & e & Hs & He & Fs & Fe & ->). split.
  - destruct ip as [x|x]; cbn [range_contains]; [|done]. rewrite v4_contains_spec. cbn. intros Hx.
    exists (V6 (0xffff * 2 ^ 32 + x)). cbn [range_contains to_canonical]. rewrite v6_contains_spec.
    split; [lia|]. replace (to_ipv4_mapped (0xffff * 2 ^ 32 + x)) with (Some x); [done|].
    symmetry. apply to_ipv4_mapped_Some. split; [done|]. unfold fits in *. lia.
  - intros ([x|x] & Hx & ->); cbn [range_contains to_canonical] in *; [done|]. rewrite v6_contains_spec in Hx.
    replace (to_ipv4_mapped x) with (Some (x - 0xffff * 2 ^ 32)).
    + cbn [range_contains]. rewrite v4_contains_spec. cbn. lia.
    + symmetry. apply to_ipv4_mapped_Some. unfold fits in *. lia.
Qed.

Lemma cidr_range_err ip prefix e :
  ip_fits ip -> fits 8 prefix -> cidr_range ip prefix = Err e -> e = InvalidPrefix prefix /\ 32 < prefix.
Proof.
  intros Hip Hp H. pose proof (cidr_range_spec ip prefix Hip Hp) as Hs.
  destruct ip as [a|a]; [destruct (Z.ltb_spec 32 prefix)|destruct (Z.ltb_spec 128 prefix)];
    try (destruct Hs as (r & E & _); congruence); rewrite Hs in H; injection H as <-; split; [done|lia|done|lia].
Qed.

(** How an expression the range grammar refuses is refused. *)
Definition refused_as (s : text) (e : IpError) (e' : IpParseError) : Prop :=
  e' = Malformed (trim s) \/
  (exists p, e' = ExprInvalidPrefix p /\ 32 < p) \/
  (exists a b, e = InvalidRange a b /\ e' = ExprInvalidRange a b).

Lemma cidr_expression s ip_str prefix_str :
  split_once (Z.eqb SLASH) (trim s) = Some (ip_str, prefix_str) ->
  match range_from_str s with
  | Ok r => parse_cidr (trim s) = Ok r
  | Err e => exists e', parse_cidr (trim s) = Err e' /\ refused_as s e e'
  end.
Proof.
  intros E. unfold range_from_str, parse_cidr, refused_as. rewrite E.
  destruct (parse_ip ip_str) as [ip|] eqn:Ei; cbn [map_err try_]; [|eauto].
  pose proof (parse_ip_fits _ _ Ei) as Hip. pose proof (fun n => parse_uint_widen 8 32 prefix_str n ltac:(lia)) as Hw.
  destruct (parse_uint 8 prefix_str) as [prefix|e8] eqn:E8; cbn [map_err try_].
  - pose proof (parse_uint_fits 8 prefix_str prefix ltac:(lia) E8) as Hp.
    destruct (proj1 (Hw prefix) eq_refl) as [-> Hle]. cbn [map_err try_]. rewrite (proj2 (Z.leb_le _ _) Hle).
    destruct (cidr_range ip prefix) as [r|e] eqn:Ec; [done|]. apply cidr_range_err in Ec as [-> H32]; [|done|done].
    eexists. split; [done|]. right. left. eauto.
  - destruct (parse_uint 32 prefix_str) as [prefix|] eqn:E32; cbn [map_err try_]; [|eauto].
    destruct (Z.leb_spec prefix (umax 8)) as [Hle|Hgt].
    + exfalso. specialize (Hw prefix). naive_solver.
    + eexists. split; [done|]. right. left. exists prefix. split; [done|]. unfold umax in Hgt. lia.
Qed.

Lemma range_from_trim s : range_from_str (trim s) = range_from_str s.
Proof. unfold range_from_str. by rewrite trim_trim. Qed.

Lemma from_token_trim s : from_token (trim s) = from_token s.
Proof. unfold from_token. by rewrite trim_trim. Qed.

Lemma hyphen_expression s :
  has_char SLASH (trim s) = false ->
  match range_from_str s with
  | Ok r => parse_range_expr (trim s) = Ok r
  | Err e => exists e', parse_range_expr (trim s) = Err e' /\ refused_as s e e'
  end.
Proof.
  intros Hs. unfold parse_range_expr, refused_as. rewrite range_from_trim.
  destruct (range_from_str s) as [r|e] eqn:E; [done|]. cbn [map_err]. eexists. split; [done|].
  destruct e as [a b|p|k|f|k]; cbn [map_range_error]; [right; right; eauto| |by left|by left|by left].
  exfalso. unfold range_from_str in E. rewrite has_char_split in Hs. destruct (split_once (Z.eqb SLASH) _); [done|].
  destruct (split_once (Z.eqb HYPHEN) _) as [[u v]|]; [|by destruct (parse_ip _)].
  destruct (parse_ipv4 u) as [start|].
  - destruct (expand_v4_end start v) as [stop|]; [|done]. unfold v4_new in E. by destruct (start <=? stop).
  - destruct (parse_ipv6 u) as [start|]; [|done]. destruct (parse_ipv6 v) as [stop|]; [|done]. cbn in E.
    unfold v6_new, v6_scoped in E. by destruct (start <=? stop).
Qed.

(** What the grammar of ranges reads, an expression inserts; what it refuses, the
    expression refuses and inserts nothing. *)
Lemma plain_expression s set resolver zones :
  has_char PERCENT (trim s) = false -> from_token s = None ->
  match range_from_str s with
  | Ok r => insert_expression s set resolver zones = (insert_range set (as_hosts r), Ok tt)
  | Err e => exists e', insert_expression s set resolver zones = (set, Err e') /\ refused_as s e e'
  end.
Proof.
  intros Hz Hk. unfold insert_expression. rewrite has_char_split in Hz. destruct (split_once (Z.eqb PERCENT) _); [done|].
  destruct (has_char SLASH (trim s)) eqn:Hs.
  { rewrite has_char_split in Hs. destruct (split_once (Z.eqb SLASH) (trim s)) as [[i p]|] eqn:E; [|done].
    apply cidr_expression in E. destruct (range_from_str s); [by rewrite E|]. destruct E as (e' & -> & He). by exists e'. }
  destruct (has_char HYPHEN (trim s)) eqn:Hh.
  { apply hyphen_expression in Hs. destruct (range_from_str s); [by rewrite Hs|]. destruct Hs as (e' & -> & He). by exists e'. }
  rewrite from_token_trim, Hk. unfold range_from_str. rewrite has_char_split in Hs, Hh.
  destruct (split_once (Z.eqb SLASH) _); [done|]. destruct (split_once (Z.eqb HYPHEN) _); [done|].
  destruct (parse_ip (trim s)) as [ip|]; cbn [map_err try_].
  - rewrite insert_single, <- as_hosts_single. by destruct ip.
  - eexists. split; [done|]. by left.
Qed.

(** C29: the two ways into the grammar read one language.  On an expression that is
    no keyword and names no interface, [insert_expression] inserts exactly when
    [FromStr for IpRange] reads a range, and what it inserts is that range, an
    IPv4-mapped one as the IPv4 hosts it spells.  What it refuses leaves the set
    alone, as malformed, as a prefix too long or as a range upside down. *)
Theorem one_grammar (s : text) (set : IpSet) (resolver : option ResolverFn) (zones : option ZoneResolverFn) :
  has_char PERCENT (trim s) = false -> from_token s = None ->
  match range_from_str s with
  | Ok r =>
      insert_expression s set resolver zones = (insert_range set (as_hosts r), Ok tt) /\ range_ok (as_hosts r) /\
      forall ip, range_contains (as_hosts r) ip = true <-> exists x, range_contains r x = true /\ ip = host_named r x
  | Err e => exists e', insert_expression s set resolver zones = (set, Err e') /\ refused_as s e e'
  end.
Proof.
  intros Hz Hk. pose proof (plain_expression s set resolver zones Hz Hk) as H.
  destruct (range_from_str s) as [r|e] eqn:E; [|done]. apply range_from_str_ok in E.
  split_and!; [done|by apply as_hosts_ok|]. intros ip. by apply as_hosts_contains.
Qed.

Lemma one_grammar_witness :
  insert_expression (lit " ::ffff:192.0.2.0/120") ipset_new None None =
    (insert_range ipset_new (RV4 (mkIpv4Range 0xc0000200 0xc00002ff)), Ok tt) /\
  exists e', insert_expression (lit "192.0.2.9-1") ipset_new None None = (ipset_new, Err e') /\
    refused_as (lit "192.0.2.9-1") (InvalidRange (V4 0xc0000209) (V4 0xc0000201)) e'.
Proof.
  split.
  - destruct (one_grammar (lit " ::ffff:192.0.2.0/120") ipset_new None None eq_refl eq_refl) as [H _]. exact H.
  - exact (one_grammar (lit "192.0.2.9-1") ipset_new None None eq_refl eq_refl).
Defined.

(** ** Expressions add up *)

(** What a host's keyword resolver promises: it adds the keyword's addresses to the
    set it is handed, and whether it can does not depend on the set. *)
Class ResolverLaws (resolver : option ResolverFn) : Prop := {
  resolver_adds : forall resolve keyword set,
    resolver = Some resolve -> ipset_ok set ->
    ipset_ok (fst (resolve keyword set)) /\
    snd (resolve keyword set) = snd (resolve keyword ipset_new) /\
    forall ip zone, holds_at (fst (resolve keyword set)) ip zone <->
      holds_at set ip zone \/ holds_at (fst (resolve keyword ipset_new)) ip zone;
}.

(** An interface index is a [u32]. *)
Class ZoneLaws (zones : option ZoneResolverFn) : Prop := {
  zones_fit : forall lookup name index, zones = Some lookup -> lookup name = Some index -> fits 32 index;
}.

#[export] Instance no_resolver : ResolverLaws None.
Proof. by constructor. Qed.

#[export] Instance no_zones : ZoneLaws None.
Proof. by constructor. Qed.

Section Adding.
Context (resolver : option ResolverFn) (zones : option ZoneResolverFn).
Context `{!ResolverLaws resolver, !ZoneLaws zones}.

(** [f] adds to any set what it adds to the empty one, and answers the same. *)
Definition adds (f : IpSet -> IpSet * Result unit IpParseError) : Prop :=
  forall set, ipset_ok set ->
    ipset_ok (fst (f set)) /\ snd (f set) = snd (f ipset_new) /\
    forall ip zone, holds_at (fst (f set)) ip zone <-> holds_at set ip zone \/ holds_at (fst (f ipset_new)) ip zone.

Lemma adds_inserting r : (forall range, r = Ok range -> range_ok range) -> adds (fun set => inserting set r).
Proof.
  intros Hr set Hset. destruct r as [range|e]; cbn [inserting fst snd].
  - pose proof (insert_range_spec set range Hset (Hr _ eq_refl)) as [H1 H2].
    pose proof (insert_range_spec ipset_new range ipset_new_ok (Hr _ eq_refl)) as [_ H3].
    split_and!; [done|done|]. intros ip zone. rewrite H2, H3. pose proof (new_holds_nothing ip zone). tauto.
  - split_and!; [done|done|]. intros ip zone. pose proof (new_holds_nothing ip zone). tauto.
Qed.

Lemma adds_ext f g : (forall set, f set = g set) -> adds g -> adds f.
Proof. intros H Hg set Hset. rewrite !H. by apply Hg. Qed.

Lemma parse_scoped_adds original address zone : adds (fun set => parse_scoped original address zone set zones).
Proof using Type*.
  apply adds_inserting. intros range. destruct (bool_decide (zone = [])); [done|].
  destruct (range_from_str address) as [[|v6]|] eqn:E; cbn [map_err try_]; [done| |done].
  apply range_from_str_ok in E. destruct (negb _); [done|]. destruct zones as [lookup|] eqn:Ez; [|done].
  destruct (lookup zone) as [index|] eqn:El; cbn [option_filter]; [|done]. destruct (negb _); [|done].
  destruct (v6_scoped _ _ _) as [r|] eqn:Er; cbn; [|done]. intros [= <-]. destruct E as (H0 & Hle & H1 & _).
  eapply v6_scoped_ok; [| | |exact Er]; [unfold fits; lia|unfold fits; lia|]. cbn. by eapply zones_fit.
Qed.

Lemma insert_expression_adds s : adds (fun set => insert_expression s set resolver zones).
Proof using Type*.
  unfold insert_expression. destruct (split_once (Z.eqb PERCENT) _) as [[address zone]|]; [apply parse_scoped_adds|].
  destruct (has_char SLASH (trim s)) eqn:Hs.
  { apply adds_inserting. intros range. rewrite has_char_split in Hs.
    destruct (split_once (Z.eqb SLASH) (trim s)) as [[i p]|] eqn:E; [|done]. apply cidr_expression in E.
    destruct (range_from_str s) as [r|] eqn:Er; [|by destruct E as (e' & -> & _)]. rewrite E. intros [= <-].
    by eapply as_hosts_ok, range_from_str_ok. }
  destruct (has_char HYPHEN (trim s)) eqn:Hh.
  { apply adds_inserting. intros range. apply hyphen_expression in Hs.
    destruct (range_from_str s) as [r|] eqn:Er; [|by destruct Hs as (e' & -> & _)]. rewrite Hs. intros [= <-].
    by eapply as_hosts_ok, range_from_str_ok. }
  destruct (from_token _) as [keyword|].
  { destruct resolver as [resolve|] eqn:E; [intros set Hset; by apply resolver_adds|].
    by apply (adds_inserting (Err _)). }
  destruct (parse_ip (trim s)) as [ip|] eqn:E; [|by apply (adds_inserting (Err _))].
  apply (adds_ext _ (fun set => inserting set (Ok (as_hosts (single_range ip))))).
  - intros set. by rewrite insert_single, <- as_hosts_single.
  - apply adds_inserting. intros range [= <-]. apply as_hosts_ok. apply parse_ip_fits in E.
    destruct ip; [by apply v4_single_ok|by apply v6_single_ok].
Qed.

(** What one expression names by itself, and how it answers. *)
Definition expression_holds (part : text) : IpAddr -> option Z -> Prop :=
  holds_at (fst (insert_expression part ipset_new resolver zones)).

Definition expression_answer (part : text) : Result unit IpParseError :=
  snd (insert_expression part ipset_new resolver zones).

Lemma insert_all_app l k set :
  insert_all (l ++ k) set resolver zones =
  (let? set := insert_all l set resolver zones in insert_all k set resolver zones).
Proof using Type.
  revert set. induction l as [|part l IH]; intros set; [done|]. cbn [app insert_all].
  destruct (insert_expression part set resolver zones) as [set' [|]]; [apply IH|done].
Qed.

Lemma insert_lines_all ips set :
  insert_lines ips set resolver zones = insert_all (ips ≫= fun ip => parts_of (trim ip)) set resolver zones.
Proof using Type.
  revert set. induction ips as [|ip ips IH]; intros set; [done|]. cbn [insert_lines mbind list_bind].
  rewrite insert_all_app. case_bool_decide as E.
  - rewrite E. cbn. apply IH.
  - destruct (insert_all (parts_of (trim ip)) set resolver zones); cbn; [apply IH|done].
Qed.

Lemma insert_all_ok parts set :
  ipset_ok set -> Forall (fun part => expression_answer part = Ok tt) parts ->
  exists set', insert_all parts set resolver zones = Ok set' /\ ipset_ok set' /\
    forall ip zone, holds_at set' ip zone <-> holds_at set ip zone \/ exists part, part ∈ parts /\ expression_holds part ip zone.
Proof using Type*.
  intros Hset Hp. revert set Hset. induction Hp as [|part parts Hpart _ IH]; intros set Hset; cbn [insert_all].
  { exists set. split_and!; [done|done|]. set_solver. }
  destruct (insert_expression_adds part set Hset) as (H1 & H2 & H3).
  unfold expression_answer in Hpart. rewrite Hpart in H2.
  destruct (insert_expression part set resolver zones) as [set' r]. cbn [fst snd] in *. subst r.
  destruct (IH set' H1) as (set'' & -> & H4 & H5). exists set''. split_and!; [done|done|].
  intros ip zone. rewrite H5, H3. unfold expression_holds. set_solver.
Qed.

Lemma insert_all_err l part k set e :
  ipset_ok set -> Forall (fun part => expression_answer part = Ok tt) l -> expression_answer part = Err e ->
  insert_all (l ++ part :: k) set resolver zones = Err e.
Proof using Type*.
  intros Hset Hl He. rewrite insert_all_app. destruct (insert_all_ok l set Hset Hl) as (set' & -> & Hset' & _).
  cbn [try_ insert_all]. destruct (insert_expression_adds part set' Hset') as (_ & H2 & _).
  unfold expression_answer in He. rewrite He in H2. destruct (insert_expression part set' resolver zones) as [? r].
  cbn in H2. by subst r.
Qed.
End Adding.

Lemma nonempty_holds s : ipset_ok s -> ipset_is_empty s = false -> exists ip zone, holds_at s ip zone.
Proof.
  intros (H4 & H6 & _) He. unfold ipset_is_empty in He. destruct (ips_v4 s) as [|r l] eqn:E4.
  - destruct (ips_v6 s) as [|r l] eqn:E6; [done|]. apply Forall_inv in H6 as (H0 & Hle & _).
    exists (V6 (v6_start r)), (v6_zone r), r. rewrite E6. split; [set_solver|]. split; [done|lia].
  - apply Forall_inv in H4 as (H0 & Hle & _). exists (V4 (v4_start r)), None. split; [done|].
    rewrite E4, den_cons. left. unfold iv_in. cbn. lia.
Qed.

(** A list of expressions reads as the union of what each names by itself,
    however they are split over lines and commas.  When every expression is
    accepted the set holds exactly what they name, or is refused as empty when they
    name nothing; otherwise the answer is the error of the first expression that
    is refused. *)
Theorem to_set_union (resolver : option ResolverFn) (zones : option ZoneResolverFn) (ips : list text) :
  ResolverLaws resolver -> ZoneLaws zones ->
  let parts := ips ≫= fun ip => parts_of (trim ip) in
  let named ip zone := exists part, part ∈ parts /\ expression_holds resolver zones part ip zone in
  (Forall (fun part => expression_answer resolver zones part = Ok tt) parts ->
     match to_set ips resolver zones with
     | Ok set => ipset_ok set /\ (exists ip zone, named ip zone) /\ forall ip zone, holds_at set ip zone <-> named ip zone
     | Err e => e = EmptySet /\ forall ip zone, ~ named ip zone
     end) /\
  (forall l part k e,
     parts = l ++ part :: k -> Forall (fun part => expression_answer resolver zones part = Ok tt) l ->
     expression_answer resolver zones part = Err e -> to_set ips resolver zones = Err e).
Proof.
  intros Hr Hz parts named. unfold to_set. rewrite insert_lines_all. fold parts. split.
  - intros Hall. destruct (insert_all_ok resolver zones parts ipset_new ipset_new_ok Hall) as (set & -> & Hok & Hset).
    assert (forall ip zone, holds_at set ip zone <-> named ip zone) as Hset'.
    { intros ip zone. rewrite Hset. pose proof (new_holds_nothing ip zone). unfold named. tauto. }
    cbn [try_]. destruct (ipset_is_empty set) eqn:E.
    + split; [done|]. intros ip zone. rewrite <- Hset'. intros H. apply (empty_no_member set E ip). by exists zone.
    + split_and!; [done| |done]. destruct (nonempty_holds set Hok E) as (ip & zone & H). exists ip, zone. by apply Hset'.
  - intros l part k e -> Hl He. by rewrite (insert_all_err resolver zones l part k ipset_new e ipset_new_ok Hl He).
Qed.

(** A resolver that expands a keyword to one block, and the interfaces of a host. *)
Definition sample_resolver : option ResolverFn :=
  Some (fun _ set => (insert_range set (RV4 (mkIpv4Range 0xc0a80000 0xc0a800ff)), Ok tt)).

Definition sample_zones : option ZoneResolverFn :=
  Some (fun name => if bool_decide (name = lit "en0") then Some 7 else None).

#[export] Instance sample_resolver_laws : ResolverLaws sample_resolver.
Proof.
  constructor. intros resolve keyword set [= <-] Hset. apply (adds_inserting (Ok (RV4 (mkIpv4Range 0xc0a80000 0xc0a800ff)))); [|done].
  intros range [= <-]. unfold range_ok, v4_ok, umax. cbn. lia.
Qed.

#[export] Instance sample_zones_laws : ZoneLaws sample_zones.
Proof. constructor. intros lookup name index [= <-]. case_bool_decide; [|done]. intros [= <-]. unfold fits, umax. lia. Qed.

Lemma to_set_union_witness :
  (match to_set [lit "lan, fe80::9%en0"; lit " 192.0.2.1"] sample_resolver sample_zones with
   | Ok set => holds_at set (V6 (0xfe80 * 2 ^ 112 + 9)) (Some 7)
   | Err _ => False
   end) /\
  to_set [lit "192.0.2.1, nowhere"; lit "2001:db8::1%en0"] sample_resolver sample_zones = Err (Malformed (lit "nowhere")).
Proof.
  split.
  - destruct (to_set_union sample_resolver sample_zones [lit "lan, fe80::9%en0"; lit " 192.0.2.1"] _ _) as [H _].
    specialize (H ltac:(repeat constructor)).
    destruct (to_set [lit "lan, fe80::9%en0"; lit " 192.0.2.1"] sample_resolver sample_zones) as [set|e] eqn:E;
      [|vm_compute in E; discriminate].
    destruct H as (_ & _ & H). apply H. exists (lit "fe80::9%en0"). split; [vm_compute; right; left|].
    eexists. split; [vm_compute; left|]. split; [reflexivity|cbn; lia].
  - destruct (to_set_union sample_resolver sample_zones [lit "192.0.2.1, nowhere"; lit "2001:db8::1%en0"] _ _) as [_ H].
    apply (H [lit "192.0.2.1"] (lit "nowhere") [lit "2001:db8::1%en0"]); [reflexivity|repeat constructor|reflexivity].
Defined.
