(* ===== verification/TargetText.v ===== *)
(** * Target expressions

    [src/src/model/parse/target.rs]: a token names addresses and, after a colon,
    the ports to scan on them; a builder groups the tokens of a list by their port
    set and makes them a plan.  How it groups depends on how well grouping has paid
    so far, so what a plan covers must not depend on it.  Hostnames are looked up
    by a function the host supplies.  Two Unicode classes of the standard library
    are parameters too. *)

From Stdlib Require Import ZArith Lia String.
From stdpp Require Import base numbers sets option list.
From S2P Require Import Prelude Std Text Intervals IpRange IpSet Numbering Positions PortSet PortSpec Target Scoped AddrText Expression.

Local Open Scope Z_scope.
Local Open Scope word_scope.

(** ** Definitions *)

Definition HostLookup : Type := text -> option (list IpAddr).

Record TargetContext := mkTargetContext {
  ctx_keywords : option ResolverFn;
  ctx_zones : option ZoneResolverFn;
  ctx_hosts : option HostLookup;
}.

Inductive TargetParseError :=
  | EmptyExpression
  | Blank (spaces : Z) (plural : text)
  | UnbalancedBracket (token : text)
  | TrailingText (token : text)
  | EmptyPorts (token : text)
  | AddressError (expression : text) (source : IpParseError)
  | PortsError (expression : text) (source : PortSetParseError)
  | NoHostLookup (name : text)
  | MistypedAddress (name : text)
  | UnbracketedAddress (name : text)
  | UnknownHost (name : text)
  | ResolvedToNothing (token : text).

Definition blank_or_empty (token : text) : TargetParseError :=
  match length token with
  | O => EmptyExpression
  | S O => Blank 1 []
  | spaces => Blank (Z.of_nat spaces) (lit "s")
  end.

(** *** Splitting a token *)

Record TargetExpr := mkTargetExpr {
  te_address : text;
  te_ports : option text;
}.

(** [str::find], counting code points: only the order of two finds is used. *)
Fixpoint find_char (c : Z) (s : text) : option nat :=
  match s with
  | [] => None
  | x :: t => if c =? x then Some O else S <$> find_char c t
  end.

(** [str::matches(c).count()]. *)
Fixpoint count_char (c : Z) (s : text) : nat :=
  match s with
  | [] => 0
  | x :: t => if c =? x then S (count_char c t) else count_char c t
  end.

Definition OPEN_BRACKET : Z := 91.
Definition CLOSE_BRACKET : Z := 93.

(** What follows the opening bracket of [token]. *)
Definition parse_bracketed (token rest : text) : Result TargetExpr TargetParseError :=
  match split_once (Z.eqb CLOSE_BRACKET) rest with
  | None => Err (UnbalancedBracket token)
  | Some (address, tail) =>
      if bool_decide (address = []) then Err EmptyExpression
      else
        match tail with
        | [] => Ok (mkTargetExpr address None)
        | c :: ports =>
            if c =? COLON then
              (if bool_decide (ports = []) then Err (EmptyPorts token) else Ok (mkTargetExpr address (Some ports)))
            else Err (TrailingText token)
        end
  end.

Definition dotted_first (token : text) : bool :=
  match find_char DOT token, find_char COLON token with
  | Some dot, Some colon => (dot <? colon)%nat
  | _, _ => false
  end.

(** [TargetExpr::parse]. *)
Definition expr_parse (token : text) : Result TargetExpr TargetParseError :=
  let trimmed := trim token in
  match trimmed with
  | [] => Err (blank_or_empty token)
  | c :: rest =>
      let token := trimmed in
      if c =? OPEN_BRACKET then parse_bracketed token rest
      else
        let colons := count_char COLON token in
        if (1 <=? colons)%nat && (dotted_first token || (colons =? 1)%nat) then
          match split_once (Z.eqb COLON) token with
          | Some (address, ports) =>
              if bool_decide (address = []) then Err EmptyExpression
              else if bool_decide (ports = []) then Err (EmptyPorts token)
              else Ok (mkTargetExpr address (Some ports))
          | None => Ok (mkTargetExpr token None)
          end
        else Ok (mkTargetExpr token None)
  end.

(** [TargetExpr::addresses]. *)
Definition addresses (e : TargetExpr) : list text := parts_of (te_address e).

(** *** Hostnames *)

Inductive HostName := HostYes | HostUnbracketed | HostMistyped.

Definition numeric_label (label : text) : bool :=
  forallb (fun part => negb (bool_decide (part = [])) && forallb is_ascii_digit part) (split_by (Z.eqb DASH) label).

Section Unicode.
(** [char::is_alphanumeric] and [char::is_alphabetic]. *)
Context (is_alphanumeric is_alphabetic : Z -> bool).

Definition name_character (c : Z) : bool := is_alphanumeric c || (c =? DASH) || (c =? 95) || (c =? DOT).

Definition host_name (token : text) : HostName :=
  match split_last COLON token with
  | Some (_, tail) => if is_ok (portset_try_from tail) then HostUnbracketed else HostMistyped
  | None =>
      let labels := split_by (Z.eqb DOT) (default token (strip_suffix DOT token)) in
      let last_label := default [] (last labels) in
      let leading := removelast labels in
      let address_shaped := (3 <=? length leading)%nat && forallb numeric_label leading in
      if forallb name_character token && existsb is_alphabetic last_label && negb address_shaped
      then HostYes else HostMistyped
  end.

(** [TargetMapBuilder::resolve_host], into the set it is handed. *)
Definition resolve_host (name : text) (into : IpSet) (ctx : TargetContext) : Result IpSet TargetParseError :=
  match host_name name with
  | HostUnbracketed => Err (UnbracketedAddress name)
  | HostMistyped => Err (MistypedAddress name)
  | HostYes =>
      match ctx_hosts ctx with
      | None => Err (NoHostLookup name)
      | Some lookup =>
          match default [] (lookup name) with
          | [] => Err (UnknownHost name)
          | found => Ok (fold_left ipset_insert found into)
          end
      end
  end.

(** *** The builder *)

Definition GROUPING_SAMPLE : Z := 1024.

Definition MIN_REGROUPED_SHARE : Z := 16.

(** The index is a map from a port set to its slot, or none once grouping is given
    up. *)
Record TargetMapBuilder := mkBuilder {
  b_default_ports : PortSet;
  b_groups : list (PortSet * IpSet);
  b_index : option (list (PortSet * nat));
  b_accepted : Z;
  b_gross_addresses : Z;
}.

Definition builder_new (default_ports : PortSet) : TargetMapBuilder := mkBuilder default_ports [] (Some []) 0 0.

Fixpoint index_get (ports : PortSet) (index : list (PortSet * nat)) : option nat :=
  match index with
  | [] => None
  | (key, slot) :: rest => if bool_decide (key = ports) then Some slot else index_get ports rest
  end.

Definition reconsider_grouping (b : TargetMapBuilder) : TargetMapBuilder :=
  match b_index b with
  | None => b
  | Some _ =>
      if b_accepted b <? GROUPING_SAMPLE then b
      else
        let regrouped := b_accepted b -[64] zlen (b_groups b) in
        if regrouped *[64] MIN_REGROUPED_SHARE <? b_accepted b
        then mkBuilder (b_default_ports b) (b_groups b) None (b_accepted b) (b_gross_addresses b)
        else b
  end.

(** The loop of [push] over the addresses of a token. *)
Fixpoint resolve_addresses (token : text) (ctx : TargetContext) (l : list text) (resolved : IpSet)
    : Result IpSet TargetParseError :=
  match l with
  | [] => Ok resolved
  | address :: rest =>
      match insert_expression address resolved (ctx_keywords ctx) (ctx_zones ctx) with
      | (resolved, Ok _) => resolve_addresses token ctx rest resolved
      | (resolved, Err (Malformed _)) =>
          let? resolved := resolve_host address resolved ctx in
          resolve_addresses token ctx rest resolved
      | (_, Err source) => Err (AddressError (trim token) source)
      end
  end.

(** The part of [push] that reads the token and changes nothing. *)
Definition resolve_token (default_ports : PortSet) (ctx : TargetContext) (token : text)
    : Result (PortSet * IpSet) TargetParseError :=
  let? expr := expr_parse token in
  let? ports := (match te_ports expr with
                 | Some spec => map_err (PortsError (trim token)) (parse_scan spec)
                 | None => Ok default_ports
                 end) in
  let? resolved := resolve_addresses token ctx (addresses expr) ipset_new in
  if ipset_is_empty resolved then Err (ResolvedToNothing (trim token)) else Ok (ports, resolved).

(** The ranges of [resolved] pushed into a group. *)
Definition push_ranges (target resolved : IpSet) : IpSet :=
  fold_left push_v6_range (ips_v6 resolved) (fold_left push_v4_range (ips_v4 resolved) target).

(** The part of [push] that places what was read. *)
Definition place_token (b : TargetMapBuilder) (ports : PortSet) (resolved : IpSet) : TargetMapBuilder :=
  let gross := sat_add 128 (b_gross_addresses b) (len_gross resolved) in
  let accepted := b_accepted b +[64] 1 in
  let '(groups, index) :=
    match b_index b ≫= index_get ports with
    | Some slot =>
        (alter (fun group => (fst group, push_ranges (snd group) resolved)) slot (b_groups b), b_index b)
    | None =>
        (b_groups b ++ [(ports, resolved)], cons (ports, length (b_groups b)) <$> b_index b)
    end in
  reconsider_grouping (mkBuilder (b_default_ports b) groups index accepted gross).

(** [TargetMapBuilder::push]: a token refused leaves the builder as it was. *)
Definition push (ctx : TargetContext) (b : TargetMapBuilder) (token : text) : Result TargetMapBuilder TargetParseError :=
  let? placed := resolve_token (b_default_ports b) ctx token in
  Ok (place_token b (fst placed) (snd placed)).

Definition group_count (b : TargetMapBuilder) : Z := zlen (b_groups b).

Definition builder_is_empty (b : TargetMapBuilder) : bool := is_nil (b_groups b).

Definition gross_address_count (b : TargetMapBuilder) : Z := b_gross_addresses b.

(** [address_count] merges every group as it counts it. *)
Definition address_count (b : TargetMapBuilder) : TargetMapBuilder * Z :=
  let groups := (fun group => (fst group, canonicalize (snd group))) <$> b_groups b in
  (mkBuilder (b_default_ports b) groups (b_index b) (b_accepted b) (b_gross_addresses b),
   fold_left (fun total group => sat_add 128 total (ipset_len (snd group))) groups 0).

Definition build (b : TargetMapBuilder) : TargetMap :=
  fold_left (fun map group => add_unit map (targetset_new (snd group) (fst group))) (b_groups b) (mkTargetMap []).

Definition to_target_map (targets : list text) (default_ports : PortSet) (ctx : TargetContext)
    : Result TargetMap TargetParseError :=
  map_ok build (try_fold (push ctx) targets (builder_new default_ports)).
End Unicode.

(** ** The ASCII part of the two classes *)

Definition ascii_host_name : text -> HostName := host_name is_ascii_alphanumeric is_ascii_alphabetic.

Example host_names :
  ascii_host_name <$> [lit "printer"; lit "db-1.example.org."; lit "192.168.1"; lit "192.0.2.300"; lit "2001:db8::1:443";
    lit "10.0.0.1-5.lan"; lit "2001:db8::zz"] =
  [HostYes; HostYes; HostMistyped; HostMistyped; HostUnbracketed; HostMistyped; HostMistyped].
Proof. vm_compute. reflexivity. Qed.

Example expr_forms :
  (fun s => expr_parse (lit s)) <$> ["10.0.0.1:80,u:53"; "[2001:db8::1]:443"; "2001:db8::1"; "printer:631"; "[::1]x"; "[::1]:"; "  "]%string =
  [Ok (mkTargetExpr (lit "10.0.0.1") (Some (lit "80,u:53"))); Ok (mkTargetExpr (lit "2001:db8::1") (Some (lit "443")));
   Ok (mkTargetExpr (lit "2001:db8::1") None); Ok (mkTargetExpr (lit "printer") (Some (lit "631")));
   Err (TrailingText (lit "[::1]x")); Err (EmptyPorts (lit "[::1]:")); Err (Blank 2 (lit "s"))].
Proof. vm_compute. reflexivity. Qed.

(** ** What a token names *)

Lemma push_v4_ranges l s :
  fold_left push_v4_range l s = if is_nil l then s else mkIpSet (ips_v4 s ++ l) (ips_v6 s) true (v6_dirty s).
Proof.
  revert s. induction l as [|r l IH]; intros s; [done|]. cbn [fold_left is_nil]. rewrite IH.
  unfold push_v4_range. cbn. rewrite <- app_assoc. by destruct l.
Qed.

Lemma push_v6_ranges l s :
  fold_left push_v6_range l s = if is_nil l then s else mkIpSet (ips_v4 s) (ips_v6 s ++ l) (v4_dirty s) true.
Proof.
  revert s. induction l as [|r l IH]; intros s; [done|]. cbn [fold_left is_nil]. rewrite IH.
  unfold push_v6_range. cbn. rewrite <- app_assoc. by destruct l.
Qed.

Lemma push_ranges_absorb target resolved : push_ranges target resolved = absorb_set target resolved.
Proof. unfold push_ranges, absorb_set. rewrite push_v6_ranges, push_v4_ranges. done. Qed.

(** A lookup answers with addresses. *)
Class HostLaws (hosts : option HostLookup) : Prop := {
  hosts_fit : forall lookup name found, hosts = Some lookup -> lookup name = Some found -> Forall ip_fits found;
}.

#[export] Instance no_hosts : HostLaws None.
Proof. by constructor. Qed.

Section Naming.
Context (is_alphanumeric is_alphabetic : Z -> bool).
Context (ctx : TargetContext).
Context `{!ResolverLaws (ctx_keywords ctx), !ZoneLaws (ctx_zones ctx), !HostLaws (ctx_hosts ctx)}.

Notation resolve_host := (resolve_host is_alphanumeric is_alphabetic).
Notation resolve_addresses := (resolve_addresses is_alphanumeric is_alphabetic).
Notation resolve_token := (resolve_token is_alphanumeric is_alphabetic).

(** One address of a token, by itself. *)
Definition address_alone (token address : text) : Result IpSet TargetParseError :=
  resolve_addresses token ctx [address] ipset_new.

(** A host's addresses go in beside what is there. *)
Lemma resolve_host_adds name set :
  ipset_ok set ->
  match resolve_host name ipset_new ctx with
  | Ok alone => exists set', resolve_host name set ctx = Ok set' /\ ipset_ok set' /\
      forall ip zone, holds_at set' ip zone <-> holds_at set ip zone \/ holds_at alone ip zone
  | Err e => resolve_host name set ctx = Err e
  end.
Proof using Type*.
  intros Hset. unfold TargetText.resolve_host. destruct (host_name _ _ name); [|done|done].
  destruct (ctx_hosts ctx) as [lookup|] eqn:El; [|done].
  destruct (lookup name) as [found|] eqn:Ef; cbn [default]; [|done].
  assert (Forall ip_fits found) as Hf by (by eapply hosts_fit). unfold id. destruct found as [|a found]; [done|].
  destruct (extend_spec (a :: found) set Hset Hf) as [H1 H2].
  destruct (extend_spec (a :: found) ipset_new ipset_new_ok Hf) as [_ H3].
  eexists. split; [done|]. split; [exact H1|]. intros ip zone. unfold ipset_extend in *. rewrite H2, H3.
  pose proof (new_holds_nothing ip zone). tauto.
Qed.

Lemma resolve_addresses_cons token address rest set :
  resolve_addresses token ctx (address :: rest) set =
  (let? set := resolve_addresses token ctx [address] set in resolve_addresses token ctx rest set).
Proof using Type.
  cbn [TargetText.resolve_addresses]. destruct (insert_expression _ _ _ _) as [s [|[]]]; try done.
  by destruct (resolve_host address s ctx).
Qed.

(** An address adds to any set what it names by itself, and is refused alike. *)
Lemma address_adds token address set :
  ipset_ok set ->
  match address_alone token address with
  | Ok alone => exists set', resolve_addresses token ctx [address] set = Ok set' /\ ipset_ok set' /\
      forall ip zone, holds_at set' ip zone <-> holds_at set ip zone \/ holds_at alone ip zone
  | Err e => resolve_addresses token ctx [address] set = Err e
  end.
Proof using Type*.
  intros Hset. unfold address_alone. cbn [TargetText.resolve_addresses].
  destruct (insert_expression_adds (ctx_keywords ctx) (ctx_zones ctx) address set Hset) as (H1 & H2 & H3).
  destruct (insert_expression_adds (ctx_keywords ctx) (ctx_zones ctx) address ipset_new ipset_new_ok) as (N1 & _ & _).
  destruct (insert_expression address set _ _) as [set1 r1], (insert_expression address ipset_new _ _) as [new1 r].
  cbn [fst snd] in *. subst r1. destruct r as [|[]]; try done; [by exists set1|].
  pose proof (resolve_host_adds address set1 H1) as Hs. pose proof (resolve_host_adds address new1 N1) as Hn.
  destruct (resolve_host address ipset_new ctx) as [alone|e]; [|by rewrite Hs, Hn].
  destruct Hs as (set' & -> & Hok & Hs), Hn as (new' & -> & _ & Hn). cbn [try_]. exists set'. split_and!; [done|done|].
  intros ip zone. rewrite Hs, Hn, H3. tauto.
Qed.

Lemma resolve_addresses_spec token l set :
  ipset_ok set ->
  match resolve_addresses token ctx l set with
  | Ok set' => ipset_ok set' /\ Forall (fun a => is_ok (address_alone token a) = true) l /\
      forall ip zone, holds_at set' ip zone <-> holds_at set ip zone \/
        exists a alone, a ∈ l /\ address_alone token a = Ok alone /\ holds_at alone ip zone
  | Err e => exists k a m, l = k ++ a :: m /\ Forall (fun a => is_ok (address_alone token a) = true) k /\
      address_alone token a = Err e
  end.
Proof using Type*.
  revert set. induction l as [|a l IH]; intros set Hset.
  { cbn. split_and!; [done|constructor|]. set_solver. }
  rewrite resolve_addresses_cons. pose proof (address_adds token a set Hset) as Ha.
  destruct (address_alone token a) as [alone|e] eqn:Ea; [|rewrite Ha; by exists [], a, l].
  destruct Ha as (set1 & -> & Hok1 & H1). cbn [try_]. specialize (IH set1 Hok1).
  destruct (resolve_addresses token ctx l set1) as [set'|e].
  - destruct IH as (Hok & Hall & H). split_and!; [done|constructor; [by rewrite Ea|done]|].
    intros ip zone. rewrite H, H1. split.
    + intros [[?|?]|(b & s & Hb & E & Hs)]; [by left|right; exists a, alone; set_solver|right; exists b, s; set_solver].
    + intros [?|(b & s & [->|Hb]%elem_of_cons & E & Hs)]; [by left; left| |right; by exists b, s].
      left. right. congruence.
  - destruct IH as (k & b & m & -> & Hk & Hb). exists (a :: k), b, m. split_and!; [done|constructor; [by rewrite Ea|done]|done].
Qed.

(** What a token read holds, and what its ports are. *)
Lemma resolve_token_ok default_ports token ports ips :
  resolve_token default_ports ctx token = Ok (ports, ips) ->
  exists expr, expr_parse token = Ok expr /\ ipset_ok ips /\ ipset_is_empty ips = false /\
    match te_ports expr with Some spec => parse_scan spec = Ok ports | None => ports = default_ports end /\
    forall ip zone, holds_at ips ip zone <->
      exists a alone, a ∈ addresses expr /\ address_alone token a = Ok alone /\ holds_at alone ip zone.
Proof using Type*.
  unfold TargetText.resolve_token. destruct (expr_parse token) as [expr|] eqn:Ee; [|done]. cbn [try_].
  assert (forall r : Result PortSet TargetParseError, forall k, try_ r k = Ok (ports, ips) ->
    exists p, r = Ok p /\ k p = Ok (ports, ips)) as Htry by (intros [] k H; [eauto|done]).
  intros (p & Hp & H)%Htry.
  pose proof (resolve_addresses_spec token (addresses expr) ipset_new ipset_new_ok) as Ha.
  destruct (resolve_addresses token ctx (addresses expr) ipset_new) as [set|]; [|done]. cbn [try_] in H.
  destruct (ipset_is_empty set) eqn:Eemp; [done|]. injection H as -> ->. destruct Ha as (Hok & _ & Ha).
  exists expr. split_and!; [done|done|done| |].
  - destruct (te_ports expr) as [spec|]; [by apply map_err_Ok in Hp|by injection Hp].
  - intros ip zone. rewrite Ha. pose proof (new_holds_nothing ip zone). tauto.
Qed.
End Naming.

(** ** However it groups, a builder covers what was pushed *)

Definition builder_ok (b : TargetMapBuilder) : Prop :=
  Forall (fun group => ipset_ok (snd group)) (b_groups b) /\
  forall index ports slot, b_index b = Some index -> index_get ports index = Some slot ->
    exists ips, b_groups b !! slot = Some (ports, ips).

(** Some group scans [ip] on these ports. *)
Definition group_covers (groups : list (PortSet * IpSet)) (ports : PortSet) (ip : IpAddr) (zone : option Z) : Prop :=
  exists ips, (ports, ips) ∈ groups /\ holds_at ips ip zone.

Lemma reconsider_groups b : b_groups (reconsider_grouping b) = b_groups b /\
  b_default_ports (reconsider_grouping b) = b_default_ports b /\
  (b_index (reconsider_grouping b) = b_index b \/ b_index (reconsider_grouping b) = None).
Proof.
  unfold reconsider_grouping. destruct (b_index b) eqn:E; [|by rewrite E; auto].
  destruct (_ <? GROUPING_SAMPLE); [by auto|]. destruct (_ <? b_accepted b); cbn; auto.
Qed.

Lemma reconsider_ok b : builder_ok b -> builder_ok (reconsider_grouping b).
Proof.
  intros [H1 H2]. destruct (reconsider_groups b) as (Hg & _ & Hi). split; [by rewrite Hg|].
  intros index ports slot. rewrite Hg. destruct Hi as [-> | ->]; [apply H2|done].
Qed.

Lemma alter_group (groups : list (PortSet * IpSet)) slot ports old new :
  groups !! slot = Some (ports, old) ->
  alter (fun group => (fst group, push_ranges (snd group) new)) slot groups =
  <[slot := (ports, push_ranges old new)]> groups.
Proof.
  intros H. apply list_eq. intros i. destruct (decide (i = slot)) as [->|].
  - rewrite list_lookup_insert_eq by (by eapply lookup_lt_Some). by rewrite list_lookup_alter, decide_True, H.
  - by rewrite list_lookup_alter, decide_False, list_lookup_insert_ne by done.
Qed.

Lemma covers_insert groups slot ports old new p ip zone :
  groups !! slot = Some (ports, old) -> ipset_ok old -> ipset_ok new ->
  group_covers (<[slot := (ports, push_ranges old new)]> groups) p ip zone <->
  group_covers groups p ip zone \/ (p = ports /\ holds_at new ip zone).
Proof.
  intros Hs Hold Hnew. destruct (absorb_set_spec old new Hold Hnew) as [_ Habs]. rewrite <- push_ranges_absorb in Habs.
  pose proof (lookup_lt_Some _ _ _ Hs) as Hlt. unfold group_covers. split.
  - intros (ips & [i Hi]%list_elem_of_lookup & Hh). destruct (decide (i = slot)) as [->|Hne].
    + rewrite list_lookup_insert_eq in Hi by done. injection Hi as -> <-. apply Habs in Hh as [Hh|Hh]; [left|by right].
      exists old. split; [by eapply list_elem_of_lookup_2|done].
    + rewrite list_lookup_insert_ne in Hi by done. left. exists ips. split; [by eapply list_elem_of_lookup_2|done].
  - intros [(ips & [i Hi]%list_elem_of_lookup & Hh)|[-> Hh]].
    + destruct (decide (i = slot)) as [->|Hne].
      * rewrite Hs in Hi. injection Hi as <- <-. exists (push_ranges old new).
        split; [apply (list_elem_of_lookup_2 _ slot); by apply list_lookup_insert_eq|]. apply Habs. by left.
      * exists ips. split; [|done]. apply (list_elem_of_lookup_2 _ i). by rewrite list_lookup_insert_ne.
    + exists (push_ranges old new). split; [apply (list_elem_of_lookup_2 _ slot); by apply list_lookup_insert_eq|].
      apply Habs. by right.
Qed.

Lemma index_get_cons ports slot index p s :
  index_get p ((ports, slot) :: index) = Some s -> p = ports /\ s = slot \/ index_get p index = Some s.
Proof. cbn. case_bool_decide; [|by right]. intros [= <-]. by left. Qed.

(** Placing what a token named adds exactly that, whichever way it goes. *)
Lemma place_token_spec b ports resolved :
  builder_ok b -> ipset_ok resolved ->
  builder_ok (place_token b ports resolved) /\
  b_default_ports (place_token b ports resolved) = b_default_ports b /\
  forall p ip zone, group_covers (b_groups (place_token b ports resolved)) p ip zone <->
    group_covers (b_groups b) p ip zone \/ (p = ports /\ holds_at resolved ip zone).
Proof.
  intros [Hok Hidx] Hr. unfold place_token.
  destruct (b_index b ≫= index_get ports) as [slot|] eqn:Eg.
  - apply bind_Some in Eg as (index & Ei & Eg). destruct (Hidx index ports slot Ei Eg) as [old Hslot].
    rewrite (alter_group _ _ _ _ _ Hslot). set (groups := <[slot := _]> (b_groups b)).
    pose proof (proj1 (Forall_lookup _ _) Hok _ _ Hslot) as Hold. cbn in Hold.
    match goal with |- builder_ok (reconsider_grouping ?x) /\ _ => set (b' := x) end.
    destruct (reconsider_groups b') as (Hg & Hd & _). split_and!.
    + apply reconsider_ok. split.
      * apply Forall_insert; [done|]. rewrite push_ranges_absorb. by apply absorb_set_spec.
      * intros index' p s Ei' Eg'. cbn in *. destruct (Hidx _ _ _ Ei' Eg') as [ips Hips]. subst groups.
        destruct (decide (s = slot)) as [->|]; [|rewrite list_lookup_insert_ne by done; eauto].
        rewrite list_lookup_insert_eq by (by eapply lookup_lt_Some). rewrite Hslot in Hips. injection Hips as ->. eauto.
    + by rewrite Hd.
    + intros p ip zone. rewrite Hg. by apply covers_insert.
  - match goal with |- builder_ok (reconsider_grouping ?x) /\ _ => set (b' := x) end.
    destruct (reconsider_groups b') as (Hg & Hd & _). split_and!.
    + apply reconsider_ok. split; [cbn; apply Forall_app; split; [done|by apply Forall_singleton]|].
      intros index p s Ei Es. cbn in *. destruct (b_index b) as [index0|] eqn:Eb; [|done]. injection Ei as <-.
      apply index_get_cons in Es as [[-> ->]|Es].
      * exists resolved. by rewrite lookup_app_r, Nat.sub_diag by lia.
      * destruct (Hidx _ _ _ eq_refl Es) as [ips Hips]. exists ips. by apply lookup_app_l_Some.
    + by rewrite Hd.
    + intros p ip zone. rewrite Hg. cbn. unfold group_covers. set_solver.
Qed.

Lemma build_units b : units (build b) = (fun group => targetset_new (snd group) (fst group)) <$> b_groups b.
Proof.
  unfold build. assert (forall l m, units (fold_left (fun map group => add_unit map (targetset_new (snd group) (fst group))) l m) =
    units m ++ ((fun group : PortSet * IpSet => targetset_new (snd group) (fst group)) <$> l)) as H; [|by rewrite H].
  induction l as [|g l IH]; intros m; [by rewrite app_nil_r|]. cbn [fold_left]. rewrite IH. cbn. by rewrite <- app_assoc.
Qed.

Section Building.
Context (is_alphanumeric is_alphabetic : Z -> bool).
Context (ctx : TargetContext) (default_ports : PortSet).
Context `{!ResolverLaws (ctx_keywords ctx), !ZoneLaws (ctx_zones ctx), !HostLaws (ctx_hosts ctx)}.

Notation resolve_token := (resolve_token is_alphanumeric is_alphabetic default_ports ctx).
Notation push := (push is_alphanumeric is_alphabetic ctx).

(** What a list of tokens asks for: an address on a set of ports. *)
Definition asked (tokens : list text) (ports : PortSet) (ip : IpAddr) (zone : option Z) : Prop :=
  exists token ips, token ∈ tokens /\ resolve_token token = Ok (ports, ips) /\ holds_at ips ip zone.

Lemma pushes_cover tokens b :
  builder_ok b -> b_default_ports b = default_ports ->
  match try_fold push tokens b with
  | Ok b' => Forall (fun token => is_ok (resolve_token token) = true) tokens /\ builder_ok b' /\
      forall ports ip zone, group_covers (b_groups b') ports ip zone <->
        group_covers (b_groups b) ports ip zone \/ asked tokens ports ip zone
  | Err e => exists l token k, tokens = l ++ token :: k /\
      Forall (fun token => is_ok (resolve_token token) = true) l /\ resolve_token token = Err e
  end.
Proof using Type*.
  revert b. induction tokens as [|token tokens IH]; intros b Hb Hd; cbn [try_fold].
  { split_and!; [constructor|done|]. intros. unfold asked. set_solver. }
  unfold TargetText.push. rewrite Hd. destruct (resolve_token token) as [[ports ips]|e] eqn:Et; cbn [try_ fst snd].
  2: { by exists [], token, tokens. }
  destruct (resolve_token_ok is_alphanumeric is_alphabetic ctx default_ports token ports ips Et) as (expr & _ & Hips & _).
  destruct (place_token_spec b ports ips Hb Hips) as (Hok & Hd' & Hc).
  specialize (IH (place_token b ports ips) Hok ltac:(congruence)). fold push.
  destruct (try_fold push tokens (place_token b ports ips)) as [b'|e].
  - destruct IH as (Hall & Hok' & IH). split_and!; [constructor; [by rewrite Et|done]|done|].
    intros p ip zone. rewrite IH, Hc. unfold asked. split.
    + intros [[?|[-> ?]]|(t & s & Ht & E & Hs)]; [by left|right; exists token, ips; set_solver|right; exists t, s; set_solver].
    + intros [?|(t & s & [->|Ht]%elem_of_cons & E & Hs)]; [by left; left| |right; by exists t, s].
      left. right. rewrite Et in E. injection E as -> ->. done.
  - destruct IH as (l & t & k & -> & Hl & E). exists (token :: l), t, k. split_and!; [done|constructor; [by rewrite Et|done]|done].
Qed.

Lemma targetset_new_holds ips ports ip zone :
  ipset_ok ips -> holds_at (ts_ips (targetset_new ips ports)) ip zone <-> holds_at ips ip zone.
Proof using Type. intros H. cbn. by apply canonicalize_holds_at. Qed.
End Building.

(** C4: a list of target tokens becomes a plan that covers exactly what its tokens
    ask for.  An address is in the plan on some interface and port when a token
    names it there and asks for that port, however the tokens were grouped and
    whether or not grouping was given up on the way.  A list with a token that is
    refused is refused with the error of the first such token. *)
Theorem target_map_covers (is_alphanumeric is_alphabetic : Z -> bool) (ctx : TargetContext)
    (default_ports : PortSet) (targets : list text) :
  ResolverLaws (ctx_keywords ctx) -> ZoneLaws (ctx_zones ctx) -> HostLaws (ctx_hosts ctx) ->
  let read := resolve_token is_alphanumeric is_alphabetic default_ports ctx in
  match to_target_map is_alphanumeric is_alphabetic targets default_ports ctx with
  | Ok map =>
      Forall (fun token => is_ok (read token) = true) targets /\
      forall ip zone port protocol,
        (exists unit, unit ∈ units map /\ holds_at (ts_ips unit) ip zone /\ (port, protocol) ∈ portset_iter (ts_ports unit)) <->
        (exists token ports ips, token ∈ targets /\ read token = Ok (ports, ips) /\
           holds_at ips ip zone /\ (port, protocol) ∈ portset_iter ports)
  | Err e =>
      exists l token k, targets = l ++ token :: k /\ Forall (fun token => is_ok (read token) = true) l /\ read token = Err e
  end.
Proof.
  intros Hr Hz Hh read. unfold to_target_map.
  pose proof (pushes_cover is_alphanumeric is_alphabetic ctx default_ports targets (builder_new default_ports)) as H.
  specialize (H ltac:(split; [constructor|by intros ? ? ? [= <-]]) eq_refl).
  destruct (try_fold _ targets _) as [b|e]; cbn [map_ok]; [|exact H].
  destruct H as (Hall & [Hok _] & H). split; [done|]. intros ip zone port protocol. rewrite build_units.
  rewrite Forall_forall in Hok. split.
  - intros (u & [[p ips] [-> Hg]]%list_elem_of_fmap & Hip & Hport).
    cbn [fst snd] in *. rewrite targetset_new_holds in Hip by (by apply (Hok (p, ips))).
    destruct (proj1 (H p ip zone)) as [(? & []%elem_of_nil & _)|(token & s & Ht & E & Hs)]; [by exists ips|].
    by exists token, p, s.
  - intros (token & p & ips & Ht & E & Hip & Hport).
    destruct (proj2 (H p ip zone)) as (s & Hg & Hs); [right; by exists token, ips|].
    exists (targetset_new s p). split_and!; [|by apply targetset_new_holds; [apply (Hok (p, s))|]|done].
    apply list_elem_of_fmap. by exists (p, s).
Qed.

(** ** Splitting what was joined *)

Lemma find_char_none c s : c ∉ s -> find_char c s = None.
Proof.
  induction s as [|x s IH]; [done|]. rewrite not_elem_of_cons. intros [Hx Hs]. cbn.
  destruct (Z.eqb_spec c x); [done|]. by rewrite IH.
Qed.

Lemma find_char_first c a b : c ∉ a -> find_char c (a ++ c :: b) = Some (length a).
Proof.
  induction a as [|x a IH]; [intros _; cbn; by rewrite Z.eqb_refl|]. rewrite not_elem_of_cons. intros [Hx Ha]. cbn.
  destruct (Z.eqb_spec c x); [done|]. by rewrite IH.
Qed.

Lemma find_char_within c a b : c ∈ a -> exists i, find_char c (a ++ b) = Some i /\ (i < length a)%nat.
Proof.
  induction a as [|x a IH]; [by intros ?%elem_of_nil|]. cbn. destruct (Z.eqb_spec c x); [intros _; exists 0%nat; split; [done|lia]|].
  intros [->|Ha]%elem_of_cons; [done|]. destruct (IH Ha) as (i & -> & Hi). exists (S i). split; [done|lia].
Qed.

Lemma count_char_app c a b : count_char c (a ++ b) = (count_char c a + count_char c b)%nat.
Proof. induction a as [|x a IH]; [done|]. cbn. rewrite IH. by destruct (c =? x). Qed.

Lemma count_char_none c s : c ∉ s -> count_char c s = 0%nat.
Proof.
  induction s as [|x s IH]; [done|]. rewrite not_elem_of_cons. intros [Hx Hs]. cbn.
  destruct (Z.eqb_spec c x); [done|auto].
Qed.

Lemma count_char_one c : count_char c [c] = 1%nat.
Proof. cbn. by rewrite Z.eqb_refl. Qed.

Lemma not_elem_eqb c (s : text) : c ∉ s -> Forall (fun x => (c =? x) = false) s.
Proof. intros H. apply Forall_forall. intros x Hx. apply Z.eqb_neq. by intros <-. Qed.

(** A bracketed token, with whatever its address holds. *)
Lemma expr_parse_bracketed address tail :
  address <> [] -> CLOSE_BRACKET ∉ address -> trim (OPEN_BRACKET :: address ++ CLOSE_BRACKET :: tail) = OPEN_BRACKET :: address ++ CLOSE_BRACKET :: tail ->
  expr_parse (OPEN_BRACKET :: address ++ CLOSE_BRACKET :: tail) =
  match tail with
  | [] => Ok (mkTargetExpr address None)
  | c :: ports =>
      if c =? COLON then
        (if bool_decide (ports = []) then Err (EmptyPorts (OPEN_BRACKET :: address ++ CLOSE_BRACKET :: tail))
         else Ok (mkTargetExpr address (Some ports)))
      else Err (TrailingText (OPEN_BRACKET :: address ++ CLOSE_BRACKET :: tail))
  end.
Proof.
  intros Hne Hc Ht. unfold expr_parse. rewrite Ht, Z.eqb_refl. unfold parse_bracketed.
  rewrite split_once_at by (by apply not_elem_eqb || apply Z.eqb_refl). by rewrite bool_decide_false.
Qed.

(** A dotted address and its ports, which may hold colons of their own. *)
Lemma expr_parse_dotted address ports :
  DOT ∈ address -> COLON ∉ address -> starts_with (Z.eqb OPEN_BRACKET) address = false -> ports <> [] ->
  trim (address ++ COLON :: ports) = address ++ COLON :: ports ->
  expr_parse (address ++ COLON :: ports) = Ok (mkTargetExpr address (Some ports)).
Proof.
  intros Hd Hc Hb Hp Ht. unfold expr_parse. rewrite Ht.
  assert (dotted_first (address ++ COLON :: ports) = true) as Hf.
  { unfold dotted_first. destruct (find_char_within DOT address (COLON :: ports) Hd) as (i & -> & Hi).
    rewrite find_char_first by done. by apply Nat.ltb_lt. }
  assert (1 <=? count_char COLON (address ++ COLON :: ports))%nat as Hcount.
  { rewrite count_char_app. change (COLON :: ports) with ([COLON] ++ ports). rewrite count_char_app, count_char_one. apply Is_true_true, Nat.leb_le. lia. }
  destruct address as [|c address]; [by apply elem_of_nil in Hd|]. cbn [app]. change ((OPEN_BRACKET =? c) = false) in Hb.
  rewrite Z.eqb_sym, Hb. cbn [app] in *. rewrite Hf. apply Is_true_true in Hcount. rewrite Hcount. cbn [andb orb].
  change (c :: address ++ COLON :: ports) with ((c :: address) ++ COLON :: ports).
  rewrite split_once_at by (by apply not_elem_eqb || apply Z.eqb_refl). by rewrite !bool_decide_false.
Qed.

(** A token with no colon, or with several and no dot before them, is an address. *)
Lemma expr_parse_bare token :
  token <> [] -> starts_with (Z.eqb OPEN_BRACKET) token = false -> trim token = token ->
  count_char COLON token <> 1%nat -> (COLON ∈ token -> dotted_first token = false) ->
  expr_parse token = Ok (mkTargetExpr token None).
Proof.
  intros Hne Hb Ht Hc Hd. unfold expr_parse. rewrite Ht. destruct token as [|c token]; [done|].
  change ((OPEN_BRACKET =? c) = false) in Hb. rewrite Z.eqb_sym, Hb.
  destruct (decide (COLON ∈ c :: token)) as [Hin|Hnot]; [|by rewrite count_char_none].
  rewrite Hd by done. rewrite (proj2 (Nat.eqb_neq _ _) Hc). by rewrite andb_false_r.
Qed.

(** ** Tokens written out *)

Lemma display_not_in ip c : addr_char c = false -> c ∉ ip_display ip.
Proof.
  intros Hc Hin. pose proof (proj1 (Forall_forall _ _) (ip_display_chars ip) c Hin) as H. cbn in H. congruence.
Qed.

Lemma display_nonempty ip : ip_fits ip -> ip_display ip <> [].
Proof. intros Hip E. pose proof (parse_ip_display ip Hip) as H. by rewrite E in H. Qed.

Lemma display_parts ip : ip_fits ip -> parts_of (ip_display ip) = [ip_display ip].
Proof.
  intros Hip. unfold parts_of. rewrite split_by_none by (apply ip_display_plain; intros c Hc; apply (addr_char_plain c Hc)).
  cbn [fmap list_fmap]. rewrite trim_none by (by apply display_rest). rewrite filter_cons_True by (by apply display_nonempty).
  by rewrite filter_nil.
Qed.

Lemma display_no_keyword ip : ip_fits ip -> from_token (ip_display ip) = None.
Proof.
  intros Hip. unfold from_token. rewrite trim_none by (by apply display_rest). cbn [find Keyword_ALL keyword_as_str].
  pose proof (ip_display_chars ip) as Hc. pose proof (display_nonempty ip Hip) as Hne.
  destruct (ip_display ip) as [|c rest]; [done|]. apply Forall_inv in Hc. unfold eq_ignore_ascii_case.
  assert (to_ascii_lowercase c <> 108) as Hl.
  { unfold addr_char, CO, DOT in Hc. rewrite !orb_true_iff in Hc. unfold to_ascii_lowercase, in_range.
    destruct Hc as [[Hc%is_digit_16|Hc]|Hc]; destruct ((65 <=? c) && (c <=? 90)) eqn:E; lia. }
  rewrite bool_decide_false; [done|]. intros H. apply Hl. by injection H.
Qed.

(** An address printed inserts the host it names. *)
Lemma insert_display ip set resolver zones :
  ip_fits ip -> insert_expression (ip_display ip) set resolver zones = (ipset_insert set (to_canonical ip), Ok tt).
Proof.
  intros Hip. pose proof (plain_expression (ip_display ip) set resolver zones) as H.
  rewrite trim_none, has_char_split, split_once_none in H
    by (apply ip_display_plain; intros c Hc; apply (addr_char_plain c Hc)).
  specialize (H eq_refl (display_no_keyword ip Hip)). rewrite range_from_single in H by done.
  change (match ip with V4 a => RV4 (v4_single a) | V6 a => RV6 (v6_single a) end) with (single_range ip) in H.
  by rewrite as_hosts_single, <- insert_single in H.
Qed.

Lemma portset_display_chars s : portset_ok s -> Forall (fun c => is_whitespace c = false) (portset_display s).
Proof.
  intros Hs. rewrite display_join. apply join_chars; [done|].
  assert (forall p l, Forall port_ok l -> Forall (Forall (fun c => is_whitespace c = false)) (show_range p <$> l)) as Hlane.
  { intros p l Hl. rewrite Forall_fmap. eapply Forall_impl; [exact Hl|]. intros r Hr. cbn.
    eapply Forall_impl; [by apply show_range_plain|]. intros c Hc. by apply plain_char_not. }
  unfold spec_items. rewrite !Forall_app. split_and!; [apply Hlane, (Hs Tcp)|apply Hlane, (Hs Udp)|apply Hlane, (Hs Sctp)].
Qed.

Lemma parse_scan_display s :
  portset_ok s -> portset_is_empty s = false -> parse_scan (portset_display s) = Ok s /\ portset_display s <> [].
Proof.
  intros Hs He. pose proof (try_from_display s Hs) as H. unfold parse_scan. rewrite H. cbn [try_]. rewrite He.
  split; [done|]. intros E. rewrite E in H. injection H as <-. done.
Qed.

Lemma ipset_insert_nonempty set ip : ipset_is_empty (ipset_insert set ip) = false.
Proof.
  destruct ip; cbn [ipset_insert]; unfold push_v4_range, push_v6_range, ipset_is_empty; cbn.
  - by destruct (ips_v4 set).
  - apply andb_false_iff. right. by destruct (ips_v6 set).
Qed.

(** What a token reads as, once it splits into an address printed and its ports. *)
Lemma resolve_token_display alnum alpha default_ports ctx token ip ports spec :
  ip_fits ip -> expr_parse token = Ok (mkTargetExpr (ip_display ip) spec) ->
  match spec with Some spec => parse_scan spec = Ok ports | None => ports = default_ports end ->
  resolve_token alnum alpha default_ports ctx token = Ok (ports, ipset_insert ipset_new (to_canonical ip)).
Proof.
  intros Hip He Hp. unfold resolve_token. rewrite He. cbn [try_ te_ports].
  assert ((match spec with Some spec => map_err (PortsError (trim token)) (parse_scan spec) | None => Ok default_ports end) = Ok ports) as ->.
  { destruct spec; [by rewrite Hp|by subst]. }
  cbn [try_]. unfold addresses. cbn [te_address]. rewrite display_parts by done. cbn [resolve_addresses].
  rewrite insert_display by done. cbn [try_]. by rewrite ipset_insert_nonempty.
Qed.

Lemma ipv4_display_dot a : DOT ∈ ipv4_display a.
Proof.
  unfold ipv4_display. pose proof (length_to_be 8 4 a) as Hl. destruct (to_be 8 4 a) as [|x [|y l]]; [done|done|].
  change (join [DOT] (show_uint <$> x :: y :: l)) with (show_uint x ++ DOT :: join [DOT] (show_uint <$> y :: l)).
  rewrite elem_of_app, elem_of_cons. auto.
Qed.

Lemma subslice_colons index groups :
  Forall (fits 16) groups -> count_char COLON (fmt_subslice (S index) groups) = length groups.
Proof.
  intros Hg. revert index. induction Hg as [|g groups Hg _ IH]; intros index; [done|]. cbn [fmt_subslice].
  change (0 <? S index)%nat with true. rewrite !count_char_app, IH. cbn [length].
  rewrite count_char_one, (count_char_none COLON (show_lower_hex g)); [lia|]. intros Hin.
  by pose proof (proj1 (Forall_forall _ _) (proj1 (show_lower_hex_spec g Hg)) COLON Hin).
Qed.

Lemma ipv6_display_bare a :
  fits 128 a -> (2 <= count_char COLON (ipv6_display a))%nat /\ dotted_first (ipv6_display a) = false.
Proof.
  intros Ha. unfold ipv6_display. destruct (to_ipv4_mapped a) as [b|].
  { rewrite count_char_app. change (count_char COLON (lit "::ffff:")) with 3%nat. split; [lia|].
    unfold dotted_first. change (find_char COLON (lit "::ffff:" ++ ipv4_display b)) with (Some 0%nat).
    by destruct (find_char DOT _). }
  pose proof (to_be_fits 16 8 a ltac:(lia)) as Hf. pose proof (length_to_be 16 8 a) as Hl.
  assert (forall index l, Forall (fits 16) l -> DOT ∉ fmt_subslice index l) as Hdot.
  { intros index l Hg. revert index. induction Hg as [|g l Hg _ IH]; intros index; cbn [fmt_subslice]; [apply not_elem_of_nil|].
    rewrite !not_elem_of_app. split_and!; [by destruct (0 <? index)%nat; set_solver| |apply IH]. intros Hin.
    by pose proof (proj1 (Forall_forall _ _) (proj1 (show_lower_hex_spec g Hg)) DOT Hin). }
  destruct (zero_span _ _ _ _) as [start len]. destruct (1 <? len)%nat; split.
  - rewrite !count_char_app. change (count_char COLON [CO; CO]) with 2%nat. lia.
  - unfold dotted_first. rewrite find_char_none; [done|]. rewrite !not_elem_of_app.
    split_and!; [by apply Hdot, Forall_take|set_solver|by apply Hdot, Forall_drop].
  - destruct (to_be 16 8 a) as [|g groups]; [done|]. apply Forall_cons in Hf as [_ Hf]. cbn [fmt_subslice].
    rewrite !count_char_app, subslice_colons by done. cbn in Hl. lia.
  - unfold dotted_first. rewrite find_char_none; [done|]. by apply Hdot.
Qed.

(** a target written down is read back as that target: an address and its ports
    in brackets, an IPv4 address and its ports, and an address alone, which takes
    the default ports.  An IPv4-mapped address is read as the IPv4 host it spells.
    Ports may hold qualifiers, whose colons are not taken for the one that ends the
    address. *)
Theorem written_target_reads_back (is_alphanumeric is_alphabetic : Z -> bool) (ctx : TargetContext)
    (default_ports ports : PortSet) (ip : IpAddr) :
  ip_fits ip -> portset_ok ports -> portset_is_empty ports = false ->
  let read := resolve_token is_alphanumeric is_alphabetic default_ports ctx in
  let named := ipset_insert ipset_new (to_canonical ip) in
  read (OPEN_BRACKET :: ip_display ip ++ CLOSE_BRACKET :: COLON :: portset_display ports) = Ok (ports, named) /\
  read (OPEN_BRACKET :: ip_display ip ++ [CLOSE_BRACKET]) = Ok (default_ports, named) /\
  read (ip_display ip) = Ok (default_ports, named) /\
  match ip with
  | V4 _ => read (ip_display ip ++ COLON :: portset_display ports) = Ok (ports, named)
  | V6 _ => True
  end.
Proof.
  intros Hip Hp He read named. destruct (parse_scan_display ports Hp He) as [Hscan Hne].
  destruct (display_rest ip) as [Hw _]. pose proof (portset_display_chars ports Hp) as Hpw.
  assert (starts_with (Z.eqb OPEN_BRACKET) (ip_display ip) = false) as Hopen.
  { pose proof (ip_display_chars ip) as Hc. destruct Hc as [|c l Hc _]; [done|].
    change ((OPEN_BRACKET =? c) = false). apply Z.eqb_neq. by intros <-. }
  assert (forall tail, Forall (fun c => is_whitespace c = false) tail ->
    trim (OPEN_BRACKET :: ip_display ip ++ CLOSE_BRACKET :: tail) = OPEN_BRACKET :: ip_display ip ++ CLOSE_BRACKET :: tail) as Htrim.
  { intros tail Ht. apply trim_none. constructor; [done|]. apply Forall_app. split; [done|]. by constructor. }
  split_and!.
  - apply (resolve_token_display _ _ _ _ _ ip ports (Some (portset_display ports))); [done| |done].
    rewrite expr_parse_bracketed; [by rewrite Z.eqb_refl, bool_decide_false|by apply display_nonempty|by apply display_not_in|].
    apply Htrim. by constructor.
  - apply (resolve_token_display _ _ _ _ _ ip default_ports None); [done| |done].
    rewrite expr_parse_bracketed; [done|by apply display_nonempty|by apply display_not_in|]. by apply Htrim.
  - apply (resolve_token_display _ _ _ _ _ ip default_ports None); [done| |done].
    apply expr_parse_bare; [by apply display_nonempty|done|by apply trim_none| |].
    + destruct ip as [a|a]; [|by pose proof (ipv6_display_bare a Hip); cbn [ip_display]; lia].
      rewrite count_char_none; [done|]. intros Hin.
      by pose proof (proj1 (Forall_forall _ _) (ipv4_display_chars a) COLON Hin).
    + destruct ip as [a|a]; [|intros _; by apply ipv6_display_bare]. intros Hin.
      by pose proof (proj1 (Forall_forall _ _) (ipv4_display_chars a) COLON Hin).
  - destruct ip as [a|a]; [|done].
    apply (resolve_token_display _ _ _ _ _ (V4 a) ports (Some (portset_display ports))); [done| |done].
    apply expr_parse_dotted; [| |done|done|].
    + by apply ipv4_display_dot.
    + intros Hin. by pose proof (proj1 (Forall_forall _ _) (ipv4_display_chars a) COLON Hin).
    + apply trim_none, Forall_app. split; [done|]. by constructor.
Qed.

Lemma written_target_reads_back_witness :
  resolve_token is_ascii_alphanumeric is_ascii_alphabetic common_discovery (mkTargetContext None None None)
    (lit "[::ffff:c000:201]:1-1024,8080,u:53") = Ok (sample_ports, ipset_insert ipset_new (V4 0xc0000201)) /\
  resolve_token is_ascii_alphanumeric is_ascii_alphabetic common_discovery (mkTargetContext None None None)
    (lit "192.0.2.1:1-1024,8080,u:53") = Ok (sample_ports, ipset_insert ipset_new (V4 0xc0000201)).
Proof.
  split; [vm_compute; reflexivity|].
  exact (proj2 (proj2 (proj2 (written_target_reads_back is_ascii_alphanumeric is_ascii_alphabetic
    (mkTargetContext None None None) common_discovery sample_ports (V4 0xc0000201)
    ltac:(cbn; unfold fits, umax; lia) sample_ports_ok eq_refl)))).
Defined.

(** A name server of one name. *)
Definition sample_hosts : option HostLookup :=
  Some (fun name => if bool_decide (name = lit "printer") then Some [V4 0xc0a80009] else None).

#[export] Instance sample_hosts_laws : HostLaws sample_hosts.
Proof.
  constructor. intros lookup name found [= <-]. case_bool_decide; [|done]. intros [= <-].
  repeat constructor; unfold ip_fits, fits, umax; lia.
Qed.

Definition sample_context : TargetContext := mkTargetContext sample_resolver sample_zones sample_hosts.

Lemma target_map_covers_witness :
  (match to_target_map is_ascii_alphanumeric is_ascii_alphabetic
     [lit "lan,printer:22"; lit "fe80::9%en0"; lit "192.0.2.1:22"] common_discovery sample_context with
   | Ok map =>
       length (units map) = 2%nat /\
       exists unit, unit ∈ units map /\ holds_at (ts_ips unit) (V4 0xc0000201) None /\ (22, Tcp) ∈ portset_iter (ts_ports unit)
   | Err _ => False
   end) /\
  exists l token k, [lit "10.0.0.1"; lit "10.0.0.300:80"; lit "x"] = l ++ token :: k /\
    Forall (fun token => is_ok (resolve_token is_ascii_alphanumeric is_ascii_alphabetic common_discovery sample_context token) = true) l /\
    resolve_token is_ascii_alphanumeric is_ascii_alphabetic common_discovery sample_context token =
      Err (MistypedAddress (lit "10.0.0.300")).
Proof.
  split.
  - pose proof (target_map_covers is_ascii_alphanumeric is_ascii_alphabetic sample_context common_discovery
      [lit "lan,printer:22"; lit "fe80::9%en0"; lit "192.0.2.1:22"] _ _ _) as H. cbn zeta in H.
    destruct (to_target_map is_ascii_alphanumeric is_ascii_alphabetic
     [lit "lan,printer:22"; lit "fe80::9%en0"; lit "192.0.2.1:22"] common_discovery sample_context) as [map|e] eqn:E;
      [|vm_compute in E; discriminate].
    split; [apply (f_equal (fun r => match r with Ok m => length (units m) | Err _ => 0%nat end)) in E;
      symmetry; vm_compute in E; exact E|]. apply H.
    exists (lit "192.0.2.1:22"), (mkPortSet [(22, 22)] [] []), (ipset_insert ipset_new (V4 0xc0000201)).
    split_and!; [do 2 right; left|vm_compute; reflexivity| |vm_compute; left].
    split; [reflexivity|]. exists (v4_single 0xc0000201). split; [left|]. vm_compute. intuition discriminate.
  - exact (target_map_covers is_ascii_alphanumeric is_ascii_alphabetic sample_context common_discovery
      [lit "10.0.0.1"; lit "10.0.0.300:80"; lit "x"] _ _ _).
Defined.
