(* ===== verification/Cursor.v ===== *)
(** * The scan cursor

    [src/src/journal/cursor.rs], [Cursor] and [Walked]: which positions of a plan
    are settled, as two watermarks (one in plan order, one in the order a seeded
    permutation asks in) and the set of positions neither has reached.  A cursor
    denotes a set of positions; settling adds exactly one, whatever the watermarks
    do to keep the remainder small, and the count is the size of the set. *)

From Stdlib Require Import ZArith Lia.
From stdpp Require Import base numbers sets gmap fin_sets sorting option list.
From S2P Require Import Prelude Std Numbering Order.

Local Open Scope Z_scope.
Local Open Scope word_scope.

(** ** Definitions *)

Record Walked := mkWalked {
  w_seed : Z;
  w_len : Z;
  w_reached : Z;
  w_ahead : Z;
}.

(** [Walked::start]. *)
Definition walked_start (order : Permutation) : Walked :=
  mkWalked (perm_seed order) (perm_len order) 0 0.

(** [Walked::order]. *)
Definition walked_order (w : Walked) : Permutation := perm_new (w_seed w) (w_len w).

Definition covers (w : Walked) (position : Z) : bool :=
  is_some_and (index_of (walked_order w) position) (fun index => index <? w_reached w).

Definition clamped (w : Walked) (watermark : Z) : Walked :=
  let reached := Z.min (w_reached w) (w_len w) in
  mkWalked (w_seed w) (w_len w) reached
    (Z.min (Z.min (w_ahead w) reached) (sat_sub (w_len w) watermark)).

(** The [BTreeSet] is a finite set; its iteration order is the integers'. *)
Record Cursor := mkCursor {
  c_watermark : Z;
  c_above : gset Z;
  c_walk : option Walked;
}.

Definition cursor_new : Cursor := mkCursor 0 ∅ None.

Definition cursor_is_settled (c : Cursor) (position : Z) : bool :=
  (position <? c_watermark c) || bool_decide (position ∈ c_above c) ||
  is_some_and (c_walk c) (fun walk => covers walk position).

(** *** [catch_up] *)

Definition with_walk (w : Walked) (reached ahead : Z) : Walked := mkWalked (w_seed w) (w_len w) reached ahead.

(** One turn of the inner [loop]: raise the plan watermark over a settled
    position. *)
Definition raise_step (c : Cursor) : Cursor + Cursor :=
  let next := sat_add 64 (c_watermark c) 1 in
  if decide (c_watermark c ∈ c_above c) then
    inl (mkCursor next (c_above c ∖ {[c_watermark c]}) (c_walk c))
  else
    match c_walk c with
    | Some walk =>
        if covers walk (c_watermark c)
        then inl (mkCursor next (c_above c) (Some (with_walk walk (w_reached walk) (sat_sub (w_ahead walk) 1))))
        else inr c
    | None => inr c
    end.

(** One turn of the [while let]: raise the walk's watermark over a settled
    position.  The cursor and its walk are held apart while it runs. *)
Definition follow_step (s : Z * gset Z * Walked * bool)
    : (Z * gset Z * Walked * bool) + (Z * gset Z * Walked * bool) :=
  let '(watermark, above, walk, walked) := s in
  match at_ (walked_order walk) (w_reached walk) with
  | None => inr s
  | Some position =>
      if position <? watermark then
        inl (watermark, above, with_walk walk (w_reached walk +[64] 1) (w_ahead walk), true)
      else if decide (position ∈ above) then
        inl (watermark, above ∖ {[position]},
             with_walk walk (w_reached walk +[64] 1) (sat_add 64 (w_ahead walk) 1), true)
      else inr s
  end.

(** A bound on the turns of any of the loops: each turn takes a position from the
    set or moves a watermark, and all are below 2^64. *)
Definition turns : positive := Z.to_pos (2 ^ 66).

Lemma turns_val : Zpos turns = 2 ^ 66.
Proof. reflexivity. Qed.

Definition raise (c : Cursor) : Cursor := loop turns id raise_step c.

#[local] Opaque turns.

Definition catch_up_step (c : Cursor) : Cursor + Cursor :=
  let c := raise c in
  match c_walk c with
  | None => inr c
  | Some walk =>
      let '(watermark, above, walk, walked) :=
        loop turns id follow_step (c_watermark c, c_above c, walk, false) in
      let c := mkCursor watermark above (Some walk) in
      if negb walked then inr c else inl c
  end.

Definition catch_up (c : Cursor) : Cursor := loop turns id catch_up_step c.

Definition settle (c : Cursor) (position : Z) : Cursor :=
  if cursor_is_settled c position then c
  else catch_up (mkCursor (c_watermark c) (c_above c ∪ {[position]}) (c_walk c)).

Definition along (c : Cursor) (order : Permutation) : Cursor :=
  match c_walk c with
  | None => catch_up (mkCursor (c_watermark c) (c_above c) (Some (walked_start order)))
  | Some _ => c
  end.

Definition walking (order : Permutation) : Cursor := along cursor_new order.

Definition settled_count (c : Cursor) : Z :=
  sat_add 64
    (sat_add 64 (c_watermark c) (match c_walk c with Some walk => w_ahead walk | None => 0 end))
    (Z.of_nat (size (c_above c))).

Definition pending_count (c : Cursor) : nat := size (c_above c).

(** ** What a walk covers *)

(** The positions a walk has passed, in the order it passed them. *)
Definition covered (w : Walked) : list Z := walk (walked_order w) <$> seqZ 0 (w_reached w).

Definition walked_ok (w : Walked) : Prop :=
  fits 64 (w_seed w) /\ fits 64 (w_len w) /\ 0 <= w_reached w <= w_len w.

Section Walk.
Context (w : Walked) (Hw : walked_ok w).

Lemma walked_order_wf : perm_wf (walked_order w).
Proof. destruct Hw as (H1 & H2 & _). by apply new_wf. Qed.

Lemma covers_spec position : 0 <= position -> covers w position = true <-> position ∈ covered w.
Proof.
  intros Hp. pose proof walked_order_wf as Hwf. unfold covers, covered.
  rewrite is_some_and_true, list_elem_of_fmap. destruct Hw as (_ & Hl & Hr).
  setoid_rewrite elem_of_seqZ. split.
  - intros (i & Hi & Hlt). destruct (index_of_Some _ Hwf position i Hp Hi) as (H1 & H2 & H3).
    apply index_of_at in Hi; [|done|lia|done]. apply at_Some in Hi as (_ & E & _); [|done|lia].
    exists i. split; [done|]. lia.
  - intros (i & -> & Hi). exists i. split; [|lia].
    assert (0 <= i < perm_len (walked_order w)) as Hlen by (cbn; lia).
    apply index_of_at; [done|lia|done|]. unfold at_, then_some. by rewrite (proj2 (Z.ltb_lt _ _)) by lia.
Qed.

Lemma covered_range position : position ∈ covered w -> 0 <= position < w_len w.
Proof.
  unfold covered. rewrite list_elem_of_fmap. intros (i & -> & Hi%elem_of_seqZ). destruct Hw as (_ & _ & Hr).
  apply (walk_range _ walked_order_wf). cbn. lia.
Qed.

Lemma covered_NoDup : NoDup (covered w).
Proof.
  unfold covered. apply NoDup_fmap_2_strong; [|apply NoDup_seqZ]. destruct Hw as (_ & _ & Hr).
  intros x y Hx%elem_of_seqZ Hy%elem_of_seqZ E.
  rewrite <- (unwalk_walk _ walked_order_wf x), <- (unwalk_walk _ walked_order_wf y) by (cbn; lia). by f_equal.
Qed.

(** The next position the walk would ask about. *)
Lemma at_reached :
  match at_ (walked_order w) (w_reached w) with
  | None => w_reached w = w_len w
  | Some position =>
      w_reached w < w_len w /\ 0 <= position < w_len w /\ position ∉ covered w /\
      forall ahead, walked_ok (with_walk w (w_reached w + 1) ahead) /\
        covered (with_walk w (w_reached w + 1) ahead) = covered w ++ [position]
  end.
Proof.
  pose proof walked_order_wf as Hwf. destruct Hw as (H1 & H2 & H3).
  destruct (at_ (walked_order w) (w_reached w)) as [position|] eqn:E.
  - apply at_Some in E as (Hlt & -> & Hb); [|done|lia]. cbn [walked_order perm_new perm_len] in Hlt.
    split; [done|]. split; [done|]. split.
    + unfold covered. rewrite list_elem_of_fmap. intros (i & Ei & Hi%elem_of_seqZ).
      assert (w_reached w = i); [|lia].
      rewrite <- (unwalk_walk _ Hwf (w_reached w)), <- (unwalk_walk _ Hwf i) by (cbn; lia). by f_equal.
    + intros ahead. split; [split; [done|split; [done|cbn; lia]]|].
      unfold covered, walked_order. cbn [with_walk w_seed w_len w_reached].
      rewrite seqZ_app, fmap_app by lia. by rewrite Z.add_0_l.
  - unfold at_, then_some in E. destruct (Z.ltb_spec (w_reached w) (perm_len (walked_order w))); [done|].
    cbn in *. lia.
Qed.
End Walk.

(** ** The invariant *)

(** How many covered positions the plan watermark has not passed. *)
Definition count_from (m : Z) (l : list Z) : Z := zlen (filter (fun p => m <= p) l).

(** Held at every turn of the loops. *)
Record loose (c : Cursor) : Prop := {
  lo_watermark : fits 64 (c_watermark c);
  lo_above : forall p, p ∈ c_above c -> c_watermark c <= p < umax 64;
  lo_walk : forall w, c_walk c = Some w ->
    walked_ok w /\ w_ahead w = count_from (c_watermark c) (covered w) /\
    forall p, p ∈ c_above c -> p ∉ covered w;
}.

(** Held between calls: neither watermark can rise. *)
Record tight (c : Cursor) : Prop := {
  ti_loose : loose c;
  ti_watermark : c_watermark c ∉ c_above c;
  ti_walk : forall w, c_walk c = Some w ->
    covers w (c_watermark c) = false /\
    forall p, at_ (walked_order w) (w_reached w) = Some p -> c_watermark c <= p /\ p ∉ c_above c;
}.

(** The positions a cursor says are settled. *)
Definition settled_in (c : Cursor) (p : Z) : Prop :=
  p < c_watermark c \/ p ∈ c_above c \/ exists w, c_walk c = Some w /\ p ∈ covered w.

Lemma is_settled_spec c p :
  loose c -> 0 <= p -> cursor_is_settled c p = true <-> settled_in c p.
Proof.
  intros Hc Hp. unfold cursor_is_settled, settled_in.
  rewrite !orb_true_iff, Z.ltb_lt, bool_decide_eq_true, is_some_and_true.
  assert ((exists x, c_walk c = Some x /\ covers x p = true) <-> exists w, c_walk c = Some w /\ p ∈ covered w) as ->; [|tauto].
  split; intros (w & E & H); exists w; (split; [done|]);
    destruct (lo_walk c Hc w E) as (Hw & _); by apply (covers_spec w Hw).
Qed.

Lemma settled_in_range c p : loose c -> 0 <= p -> settled_in c p -> p < umax 64.
Proof.
  intros Hc Hp [H|[H|(w & E & H)]].
  - pose proof (lo_watermark c Hc) as [_ ?]. lia.
  - by apply (lo_above c Hc).
  - destruct (lo_walk c Hc w E) as (Hw & _). apply covered_range in H; [|done].
    destruct Hw as (_ & [_ ?] & _). lia.
Qed.

(** ** Counting what a watermark has passed *)

Lemma count_from_skip m l : m ∉ l -> count_from (m + 1) l = count_from m l.
Proof.
  intros Hm. unfold count_from. f_equal. apply filter_same. intros p Hp.
  assert (p <> m) by (intros ->; done). lia.
Qed.

Lemma count_from_hit m l : NoDup l -> m ∈ l -> count_from m l = count_from (m + 1) l + 1.
Proof.
  unfold count_from. induction l as [|a l IH]; intros Hn Hm; [by apply elem_of_nil in Hm|].
  apply NoDup_cons in Hn as [Ha Hn]. apply elem_of_cons in Hm as [->|Hm].
  - rewrite filter_cons_True, filter_cons_False by lia. pose proof (count_from_skip a l Ha) as E.
    unfold count_from, zlen in *. cbn [length]. lia.
  - specialize (IH Hn Hm). assert (a <> m) by (intros ->; done). unfold zlen in *.
    destruct (decide (m <= a)).
    + rewrite !filter_cons_True by lia. cbn [length]. lia.
    + rewrite !filter_cons_False by lia. lia.
Qed.

Lemma count_from_snoc m l p : count_from m (l ++ [p]) = count_from m l + if m <=? p then 1 else 0.
Proof.
  unfold count_from. rewrite filter_app, zlen_app. f_equal. destruct (Z.leb_spec m p).
  - by rewrite filter_cons_True.
  - by rewrite filter_cons_False by lia.
Qed.

Lemma count_from_bounds m l : 0 <= count_from m l <= zlen l.
Proof.
  unfold count_from. split; [apply zlen_nonneg|]. unfold zlen. pose proof (length_filter (fun p => m <= p) l). lia.
Qed.

(** Distinct integers of an interval are no more than its width. *)
Lemma NoDup_range_len l a b : NoDup l -> (forall p, p ∈ l -> a <= p < b) -> a <= b -> zlen l <= b - a.
Proof.
  intros Hn Hr Hab. unfold zlen. assert (length l <= length (seqZ a (b - a)))%nat.
  { apply submseteq_length, NoDup_submseteq; [done|]. intros p Hp. apply elem_of_seqZ. specialize (Hr p Hp). lia. }
  rewrite length_seqZ in *. lia.
Qed.

Lemma count_from_covered m w : walked_ok w -> 0 <= m -> count_from m (covered w) <= Z.min (w_reached w) (sat_sub (w_len w) m).
Proof.
  intros Hw Hm. pose proof (count_from_bounds m (covered w)) as [_ H].
  assert (zlen (covered w) = w_reached w) as E.
  { unfold covered, zlen. rewrite length_fmap, length_seqZ. destruct Hw as (_ & _ & ?). lia. }
  assert (count_from m (covered w) <= sat_sub (w_len w) m); [|lia].
  assert (count_from m (covered w) <= Z.max m (w_len w) - m); [|mlia].
  apply NoDup_range_len; [apply NoDup_filter, covered_NoDup; done| |lia].
  intros p [H1 H2]%list_elem_of_filter. apply covered_range in H2; [|done]. lia.
Qed.

(** ** The loops *)

Definition same_settled (c c' : Cursor) : Prop := forall p, 0 <= p -> settled_in c p <-> settled_in c' p.

Lemma same_settled_refl c : same_settled c c.
Proof. done. Qed.

Lemma same_settled_trans a b c : same_settled a b -> same_settled b c -> same_settled a c.
Proof. intros H1 H2 p Hp. by rewrite (H1 p Hp), (H2 p Hp). Qed.

(** Walks that differ at most in their count. *)
Definition same_walk (a b : option Walked) : Prop :=
  match a, b with
  | None, None => True
  | Some v, Some w => w_seed v = w_seed w /\ w_len v = w_len w /\ w_reached v = w_reached w
  | _, _ => False
  end.

Lemma same_walk_covered v w : same_walk (Some v) (Some w) -> covered v = covered w.
Proof. intros (E1 & E2 & E3). unfold covered, walked_order. by rewrite E1, E2, E3. Qed.

Lemma raise_step_spec c :
  loose c ->
  match raise_step c with
  | inl c' => loose c' /\ same_settled c c' /\ same_walk (c_walk c) (c_walk c') /\
              c_watermark c' = c_watermark c + 1
  | inr c' => c' = c /\ c_watermark c ∉ c_above c /\
              forall w, c_walk c = Some w -> covers w (c_watermark c) = false
  end.
Proof.
  intros Hc. pose proof (lo_watermark c Hc) as Hwm. unfold raise_step.
  destruct (decide (c_watermark c ∈ c_above c)) as [Hin|Hout].
  - pose proof (lo_above c Hc _ Hin) as Hb.
    assert (sat_add 64 (c_watermark c) 1 = c_watermark c + 1) as E by mlia. rewrite E.
    assert (forall w, c_walk c = Some w -> c_watermark c ∉ covered w) as Hnc.
    { intros w Ew. destruct (lo_walk c Hc w Ew) as (_ & _ & H). by apply H. }
    split; [|split; [|split; [|done]]].
    + split; cbn [c_watermark c_above c_walk].
      * unfold fits in *. lia.
      * intros p Hp. pose proof (lo_above c Hc p). set_solver by lia.
      * intros w Ew. destruct (lo_walk c Hc w Ew) as (Hw & Ha & Hd). split; [done|]. split; [|set_solver].
        rewrite Ha. symmetry. by apply count_from_skip, Hnc.
    + intros p Hp. unfold settled_in. cbn [c_watermark c_above c_walk].
      destruct (decide (p = c_watermark c)) as [->|Hne]; [split; intros; [left; lia|by right; left]|].
      assert (p ∈ c_above c ∖ {[c_watermark c]} <-> p ∈ c_above c) as -> by set_solver.
      assert (p < c_watermark c <-> p < c_watermark c + 1) as -> by lia. done.
    + cbn. by destruct (c_walk c).
  - destruct (c_walk c) as [w|] eqn:Ew; [|done]. destruct (covers w (c_watermark c)) eqn:Ec.
    2:{ split; [done|]. split; [done|]. by intros w' [= <-]. }
    destruct (lo_walk c Hc w Ew) as (Hw & Ha & Hd).
    apply (covers_spec w Hw) in Ec; [|apply Hwm]. pose proof (covered_range w Hw _ Ec) as Hr.
    pose proof (count_from_hit _ _ (covered_NoDup w Hw) Ec) as Hh.
    pose proof (count_from_bounds (c_watermark c + 1) (covered w)).
    assert (w_len w <= umax 64) by apply Hw.
    assert (sat_add 64 (c_watermark c) 1 = c_watermark c + 1) as E by mlia. rewrite E.
    split; [|split; [|split; [done|done]]].
    + split; cbn [c_watermark c_above c_walk].
      * unfold fits in *. lia.
      * intros p Hp. pose proof (lo_above c Hc p Hp). assert (p <> c_watermark c) by (intros ->; done). lia.
      * intros w' [= <-]. split; [done|]. split; [|done]. cbn. unfold sat_sub.
        change (covered (with_walk w _ _)) with (covered w). lia.
    + intros p Hp. unfold settled_in. cbn [c_watermark c_above c_walk]. rewrite Ew.
      assert ((exists v, Some w = Some v /\ p ∈ covered v) <-> p ∈ covered w) as -> by naive_solver.
      assert ((exists v, Some (with_walk w (w_reached w) (sat_sub (w_ahead w) 1)) = Some v /\ p ∈ covered v)
        <-> p ∈ covered w) as ->.
      { split; [by intros (v & [= <-] & H')|]. intros H'. by eexists. }
      destruct (decide (p = c_watermark c)) as [->|Hne]; [tauto|].
      assert (p < c_watermark c <-> p < c_watermark c + 1) as -> by lia. done.
Qed.

Lemma same_walk_refl a : same_walk a a.
Proof. by destruct a. Qed.

Lemma same_walk_trans a b c : same_walk a b -> same_walk b c -> same_walk a c.
Proof. destruct a, b, c; simpl; try done. intros (-> & -> & ->). done. Qed.

Lemma raise_spec c :
  loose c ->
  loose (raise c) /\ same_settled c (raise c) /\ same_walk (c_walk c) (c_walk (raise c)) /\
  c_watermark (raise c) ∉ c_above (raise c) /\
  forall w, c_walk (raise c) = Some w -> covers w (c_watermark (raise c)) = false.
Proof.
  intros Hc. unfold raise.
  apply (loop_total (fun c' => loose c' /\ same_settled c c' /\ same_walk (c_walk c) (c_walk c'))
    (fun c' => loose c' /\ same_settled c c' /\ same_walk (c_walk c) (c_walk c') /\ c_watermark c' ∉ c_above c' /\
      forall w, c_walk c' = Some w -> covers w (c_watermark c') = false)
    (fun c' => umax 64 - c_watermark c')).
  - intros c' (H1 & H2 & H3). pose proof (raise_step_spec c' H1) as Hs.
    destruct (raise_step c') as [d|d].
    + destruct Hs as (S1 & S2 & S3 & S4). pose proof (lo_watermark d S1). pose proof (lo_watermark c' H1).
      split; [|unfold fits in *; lia]. split; [done|].
      split; [by eapply same_settled_trans|by eapply same_walk_trans].
    + destruct Hs as (-> & S2 & S3). done.
  - split; [done|]. split; [apply same_settled_refl|apply same_walk_refl].
  - pose proof (lo_watermark c Hc). rewrite turns_val. mlia.
Qed.

(** The cursor a follow state stands for. *)
Definition followed (s : Z * gset Z * Walked * bool) : Cursor :=
  let '(watermark, above, walk, _) := s in mkCursor watermark above (Some walk).

Definition follow_reached (s : Z * gset Z * Walked * bool) : Z :=
  let '(_, _, walk, _) := s in w_reached walk.

Definition follow_len (s : Z * gset Z * Walked * bool) : Z :=
  let '(_, _, walk, _) := s in w_len walk.

Lemma follow_step_spec s :
  loose (followed s) ->
  match follow_step s with
  | inl s' => loose (followed s') /\ same_settled (followed s) (followed s') /\ s'.2 = true /\
              follow_len s' = follow_len s /\ follow_reached s' = follow_reached s + 1 /\ follow_reached s' <= follow_len s
  | inr s' => s' = s /\ forall p w, c_walk (followed s) = Some w ->
      at_ (walked_order w) (w_reached w) = Some p ->
      c_watermark (followed s) <= p /\ p ∉ c_above (followed s)
  end.
Proof.
  destruct s as [[[m above] w] walked]. intros Hc. cbn [followed follow_reached follow_len snd] in *.
  destruct (lo_walk _ Hc w eq_refl) as (Hw & Ha & Hd). cbn [c_above c_watermark] in Ha, Hd.
  pose proof (lo_watermark _ Hc) as Hm. pose proof (lo_above _ Hc) as Hab. cbn [c_above c_watermark] in Hm, Hab.
  unfold follow_step. pose proof (at_reached w Hw) as Hat.
  destruct (at_ (walked_order w) (w_reached w)) as [p|] eqn:Eat.
  2:{ split; [done|]. intros p w' [= <-] Hp. congruence. }
  destruct Hat as (Hlt & Hp & Hnc & Hnext). assert (w_len w <= umax 64) by apply Hw.
  assert (w_reached w +[64] 1 = w_reached w + 1) as Er.
  { apply wrap_small. destruct Hw as (_ & _ & ?). mlia. }
  rewrite Er. destruct (Z.ltb_spec p m) as [Hbelow|Hge].
  - destruct (Hnext (w_ahead w)) as [Hw' Hcov].
    split; [|split; [|cbn; split; [done|]; split; [done|]; split; [done|lia]]].
    + split; cbn [c_watermark c_above c_walk]; [done|done|]. intros w' [= <-]. split; [done|].
      rewrite Hcov. split.
      * cbn. rewrite count_from_snoc, (proj2 (Z.leb_gt m p)), Z.add_0_r by done. done.
      * intros q Hq [H'|H'%list_elem_of_singleton]%elem_of_app; [by apply (Hd q)|]. subst q. pose proof (Hab p Hq). lia.
    + intros q Hq. unfold settled_in. cbn [c_watermark c_above c_walk].
      split; (intros [?|[?|(v & [= <-] & Hv)]]; [by left|by right; left|]).
      * right; right. eexists; split; [done|]. rewrite Hcov. apply elem_of_app. by left.
      * rewrite Hcov in Hv. apply elem_of_app in Hv as [Hv| ->%list_elem_of_singleton]; [|by left].
        right; right. by exists w.
  - destruct (decide (p ∈ above)) as [Hin|Hout].
    2:{ split; [done|]. intros q w' [= <-] E. rewrite Eat in E. injection E as <-. done. }
    destruct (Hnext (sat_add 64 (w_ahead w) 1)) as [Hw' Hcov].
    pose proof (count_from_covered m _ Hw' (proj1 Hm)) as Hle. rewrite Hcov, count_from_snoc in Hle.
    rewrite (proj2 (Z.leb_le m p)) in Hle by done. cbn [with_walk w_reached w_len] in Hle.
    split; [|split; [|cbn; split; [done|]; split; [done|]; split; [done|lia]]].
    + split; cbn [c_watermark c_above c_walk]; [done|intros q Hq; apply Hab; set_solver|].
      intros w' [= <-]. split; [done|]. rewrite Hcov. split.
      * cbn. rewrite count_from_snoc, (proj2 (Z.leb_le m p)) by done. mlia.
      * intros q [Hq Hne]%elem_of_difference [H'|H'%list_elem_of_singleton]%elem_of_app; [by apply (Hd q)|set_solver].
    + intros q Hq. unfold settled_in. cbn [c_watermark c_above c_walk]. split.
      * intros [?|[Hqa|(v & [= <-] & Hv)]]; [by left| |].
        -- destruct (decide (q = p)) as [->|]; [|right; left; set_solver].
           right; right. eexists; split; [done|]. rewrite Hcov. apply elem_of_app. right. by apply list_elem_of_singleton.
        -- right; right. eexists; split; [done|]. rewrite Hcov. apply elem_of_app. by left.
      * intros [?|[Hqa|(v & [= <-] & Hv)]]; [by left|right; left; set_solver|].
        rewrite Hcov in Hv. apply elem_of_app in Hv as [Hv| ->%list_elem_of_singleton]; [|by right; left].
        right; right. by exists w.
Qed.

Lemma follow_spec m above w :
  loose (mkCursor m above (Some w)) ->
  let s0 := (m, above, w, false) in
  let s := loop turns id follow_step s0 in
  loose (followed s) /\ same_settled (followed s0) (followed s) /\ follow_len s = w_len w /\
  (if s.2 then w_reached w < follow_reached s <= w_len w else s = s0) /\
  (forall p w', c_walk (followed s) = Some w' -> at_ (walked_order w') (w_reached w') = Some p ->
     c_watermark (followed s) <= p /\ p ∉ c_above (followed s)).
Proof.
  intros Hc s0. destruct (lo_walk _ Hc w eq_refl) as (Hw & _). destruct Hw as (_ & [Hl0 Hl1] & Hr).
  set (I := fun s => loose (followed s) /\ same_settled (followed s0) (followed s) /\ follow_len s = w_len w /\
    (if s.2 then w_reached w < follow_reached s <= w_len w else s = s0)).
  apply (loop_total I (fun s => loose (followed s) /\ same_settled (followed s0) (followed s) /\ follow_len s = w_len w /\
    (if s.2 then w_reached w < follow_reached s <= w_len w else s = s0) /\
    (forall p w', c_walk (followed s) = Some w' -> at_ (walked_order w') (w_reached w') = Some p ->
       c_watermark (followed s) <= p /\ p ∉ c_above (followed s)))
    (fun s => follow_len s - follow_reached s)).
  - intros s (H1 & H2 & H3 & H4). pose proof (follow_step_spec s H1) as Hs.
    assert (w_reached w <= follow_reached s) as Hmono by (destruct s.2; [lia|by subst s]).
    destruct (follow_step s) as [s'|s'].
    + destruct Hs as (S1 & S2 & S3 & S4 & S5 & S6). split; [|lia]. split; [done|].
      split; [by eapply same_settled_trans|]. split; [congruence|]. rewrite S3. lia.
    + destruct Hs as [-> Hs]. done.
  - split; [done|]. split; [apply same_settled_refl|]. done.
  - rewrite turns_val. cbn. mlia.
Qed.

Definition left_to_walk (c : Cursor) : Z :=
  match c_walk c with Some w => w_len w - w_reached w | None => 0 end.

Lemma catch_up_step_spec c :
  loose c ->
  match catch_up_step c with
  | inl c' => loose c' /\ same_settled c c' /\ 0 <= left_to_walk c' < left_to_walk c
  | inr c' => tight c' /\ same_settled c c'
  end.
Proof.
  intros Hc. pose proof (raise_spec c Hc) as HR. unfold catch_up_step.
  set (d := raise c) in *. clearbody d. destruct HR as (R1 & R2 & R3 & R4 & R5).
  destruct d as [m above [w|]]; cbn [c_watermark c_above c_walk] in *.
  2:{ split; [|exact R2]. by split. }
  pose proof (follow_spec _ _ _ R1) as Hf. cbv zeta in Hf.
  set (s := loop turns id follow_step _) in *. clearbody s.
  destruct s as [[[m' above'] w'] walked], Hf as (F1 & F2 & F3 & F4 & F5).
  cbn [followed snd follow_len follow_reached] in *.
  assert (same_settled c (mkCursor m' above' (Some w'))) as Hsame by by eapply same_settled_trans.
  destruct walked; cbn [negb].
  - split; [done|]. split; [done|]. unfold left_to_walk. cbn [c_walk].
    destruct (c_walk c) as [v|]; [|done]. destruct R3 as (_ & E2 & E3). lia.
  - split; [|exact Hsame]. injection F4 as -> -> ->. split; [exact F1|exact R4|].
    intros v [= <-]. split; [by apply R5|]. intros p Hp. by apply (F5 p w).
Qed.

Lemma catch_up_spec c : loose c -> tight (catch_up c) /\ same_settled c (catch_up c).
Proof.
  intros Hc. unfold catch_up.
  apply (loop_total (fun c' => loose c' /\ same_settled c c') (fun c' => tight c' /\ same_settled c c') left_to_walk).
  - intros c' [H1 H2]. pose proof (catch_up_step_spec c' H1) as Hs.
    destruct (catch_up_step c') as [d|d].
    + destruct Hs as (S1 & S2 & S3). split; [|done]. split; [done|]. by eapply same_settled_trans.
    + destruct Hs as [S1 S2]. split; [done|]. by eapply same_settled_trans.
  - split; [done|apply same_settled_refl].
  - rewrite turns_val. unfold left_to_walk. destruct (c_walk c) as [w|] eqn:E; [|lia].
    destruct (lo_walk c Hc w E) as ((_ & [_ H] & ?) & _). unfold umax in H. lia.
Qed.

(** A tight cursor has nothing to catch up to. *)
Lemma catch_up_tight c : tight c -> catch_up c = c.
Proof.
  intros [Hc Hw Hk].
  assert (raise_step c = inr c) as Er.
  { unfold raise_step. rewrite decide_False by done. destruct (c_walk c) as [w|]; [|done].
    destruct (Hk w eq_refl) as [-> _]. done. }
  assert (forall S (step : S -> S + S) s, step s = inr s -> loop turns id step s = s) as Hloop.
  { intros S step s E. unfold loop. rewrite run_run_nat. destruct (Pos.to_nat turns) eqn:En; [done|].
    cbn [run_nat]. by rewrite E. }
  apply Hloop. unfold catch_up_step, raise. rewrite (Hloop _ _ _ Er).
  destruct c as [m above [w|]]; [|done]. cbn [c_walk c_watermark c_above] in *.
  rewrite Hloop; [done|]. unfold follow_step.
  destruct (at_ (walked_order w) (w_reached w)) as [p|] eqn:E; [|done].
  destruct (Hk w eq_refl) as [_ Hn]. destruct (Hn p E) as [Hge Hout].
  rewrite (proj2 (Z.ltb_ge _ _)) by done. by rewrite decide_False.
Qed.

(** ** Settling *)

Lemma settle_spec c position :
  tight c -> 0 <= position < umax 64 ->
  tight (settle c position) /\
  forall p, 0 <= p -> settled_in (settle c position) p <-> settled_in c p \/ p = position.
Proof.
  intros Hc Hp. pose proof (ti_loose c Hc) as Hl. unfold settle.
  destruct (cursor_is_settled c position) eqn:E.
  { apply is_settled_spec in E; [|done|lia]. split; [done|]. intros p Hp'. split; [by left|]. by intros [?| ->]. }
  assert (~ settled_in c position) as Hn.
  { intros H. apply is_settled_spec in H; [congruence|done|lia]. }
  assert (loose (mkCursor (c_watermark c) (c_above c ∪ {[position]}) (c_walk c))) as Hl'.
  { split; cbn [c_watermark c_above c_walk].
    - apply (lo_watermark c Hl).
    - intros p [Hin| ->%elem_of_singleton]%elem_of_union; [by apply (lo_above c Hl)|].
      unfold settled_in in Hn. lia.
    - intros w Ew. destruct (lo_walk c Hl w Ew) as (W1 & W2 & W3). split; [done|]. split; [done|].
      intros p [Hin| ->%elem_of_singleton]%elem_of_union; [by apply W3|]. intros Hcov. apply Hn.
      right; right. by exists w. }
  destruct (catch_up_spec _ Hl') as [H1 H2]. split; [done|]. intros p Hp'. rewrite <- (H2 p Hp').
  unfold settled_in. cbn [c_watermark c_above c_walk]. rewrite elem_of_union, elem_of_singleton. tauto.
Qed.

Lemma cursor_new_tight : tight cursor_new.
Proof. split; [split|..]; cbn; try set_solver. unfold fits. mlia. Qed.

Lemma along_spec c order :
  tight c -> perm_wf order -> tight (along c order) /\ same_settled c (along c order).
Proof.
  intros Hc (Hs & Hl & _). pose proof (ti_loose c Hc) as Hlo. unfold along.
  destruct (c_walk c) as [w|] eqn:Ew; [split; [done|apply same_settled_refl]|].
  assert (loose (mkCursor (c_watermark c) (c_above c) (Some (walked_start order)))) as Hlo'.
  { split; cbn [c_watermark c_above c_walk].
    - apply (lo_watermark c Hlo).
    - apply (lo_above c Hlo).
    - intros v [= <-]. split; [|split; [done|]].
      + split; [done|]. split; [done|]. cbn. unfold fits in *. lia.
      + intros p _ Hp. by apply elem_of_nil in Hp. }
  destruct (catch_up_spec _ Hlo') as [H1 H2]. split; [done|]. eapply same_settled_trans; [|exact H2].
  intros p _. unfold settled_in. cbn [c_watermark c_above c_walk]. rewrite Ew. split.
  - intros [?|[?|(v & [=] & _)]]; auto.
  - intros [?|[?|(v & [= <-] & Hv)]]; auto. by apply elem_of_nil in Hv.
Qed.

(** ** Counting *)

(** The settled positions, listed. *)
Definition settled_list (c : Cursor) : list Z :=
  seqZ 0 (c_watermark c) ++
  match c_walk c with Some w => filter (fun p => c_watermark c <= p) (covered w) | None => [] end ++
  elements (c_above c).

Lemma elem_of_settled_list c p : loose c -> p ∈ settled_list c <-> 0 <= p /\ settled_in c p.
Proof.
  intros Hc. unfold settled_list, settled_in. rewrite !elem_of_app, elem_of_seqZ, elem_of_elements.
  pose proof (lo_watermark c Hc) as Hm. pose proof (lo_above c Hc p) as Ha. unfold fits in Hm.
  destruct (c_walk c) as [w|] eqn:Ew.
  - destruct (lo_walk c Hc w Ew) as (Hw & _). rewrite list_elem_of_filter. split.
    + intros [?|[[? H]|H]]; [split; [lia|left; lia]| |].
      * apply covered_range in H as ?; [|done]. split; [lia|]. right; right. by exists w.
      * specialize (Ha H). split; [lia|]. by right; left.
    + intros [Hp [?|[?|(v & [= <-] & Hv)]]]; [left; lia|by right; right|].
      destruct (Z.lt_ge_cases p (c_watermark c)); [left; lia|]. right; left. done.
  - rewrite elem_of_nil. split.
    + intros [?|[[]|H]]; [split; [lia|left; lia]|]. specialize (Ha H). split; [lia|]. by right; left.
    + intros [Hp [?|[?|(v & [=] & _)]]]; [left; lia|by right; right].
Qed.

Lemma NoDup_settled_list c : loose c -> NoDup (settled_list c).
Proof.
  intros Hc. unfold settled_list. pose proof (lo_above c Hc) as Ha.
  apply NoDup_app. split; [apply NoDup_seqZ|]. split.
  - intros p Hp%elem_of_seqZ [H|H%elem_of_elements]%elem_of_app; [|specialize (Ha p H); lia].
    destruct (c_walk c); [|by apply elem_of_nil in H]. apply list_elem_of_filter in H as [H _]. lia.
  - apply NoDup_app. split; [|split; [|apply NoDup_elements]].
    + destruct (c_walk c) as [w|] eqn:Ew; [|constructor]. destruct (lo_walk c Hc w Ew) as (Hw & _).
      by apply NoDup_filter, covered_NoDup.
    + intros p Hp Hq%elem_of_elements. destruct (c_walk c) as [w|] eqn:Ew; [|by apply elem_of_nil in Hp].
      apply list_elem_of_filter in Hp as [_ Hp]. destruct (lo_walk c Hc w Ew) as (_ & _ & Hd). by apply (Hd p).
Qed.

Lemma settled_count_list c : loose c -> settled_count c = zlen (settled_list c).
Proof.
  intros Hc. pose proof (lo_watermark c Hc) as Hm. unfold fits in Hm.
  assert (zlen (settled_list c) = c_watermark c +
    (match c_walk c with Some w => w_ahead w | None => 0 end) + Z.of_nat (size (c_above c))) as E.
  { unfold settled_list. rewrite !zlen_app. unfold zlen at 1 3. rewrite length_seqZ.
    assert (zlen (match c_walk c with Some w => filter (fun p => c_watermark c <= p) (covered w) | None => [] end) =
      match c_walk c with Some w => w_ahead w | None => 0 end) as ->.
    { destruct (c_walk c) as [w|] eqn:Ew; [|done]. by destruct (lo_walk c Hc w Ew) as (_ & -> & _). }
    unfold size, set_size. cbn. lia. }
  assert (zlen (settled_list c) <= umax 64 - 0) as Hle.
  { apply NoDup_range_len; [by apply NoDup_settled_list| |mlia]. intros p Hp.
    apply elem_of_settled_list in Hp as [H0 Hs]; [|done]. split; [done|]. by apply (settled_in_range c). }
  assert (0 <= match c_walk c with Some w => w_ahead w | None => 0 end).
  { destruct (c_walk c) as [w|] eqn:Ew; [|done]. destruct (lo_walk c Hc w Ew) as (_ & -> & _). apply count_from_bounds. }
  unfold settled_count. rewrite E in *. unfold sat_add. lia.
Qed.

(** The count is the size of the set of settled positions. *)
Lemma settled_count_size c (X : gset Z) :
  loose c -> (forall p, p ∈ X <-> 0 <= p /\ settled_in c p) -> settled_count c = Z.of_nat (size X).
Proof.
  intros Hc HX. rewrite settled_count_list by done. unfold zlen. f_equal.
  rewrite <- (size_list_to_set (C := gset Z) (settled_list c)) by by apply NoDup_settled_list.
  f_equal. apply set_eq. intros p. rewrite elem_of_list_to_set, elem_of_settled_list, HX by done. done.
Qed.

(** ** Histories *)

(** A phase's cursor: along a permutation or in plan order, told of each
    position as it settles. *)
Definition cursor_start (order : option Permutation) : Cursor :=
  match order with Some order => walking order | None => cursor_new end.

Definition order_wf (order : option Permutation) : Prop :=
  match order with Some order => perm_wf order | None => True end.

Lemma cursor_start_tight order :
  order_wf order -> tight (cursor_start order) /\ forall p, 0 <= p -> ~ settled_in (cursor_start order) p.
Proof.
  assert (forall p, 0 <= p -> ~ settled_in cursor_new p) as Hnew.
  { intros p Hp. unfold settled_in. cbn. intros [?|[?|(w & [=] & _)]]; [lia|set_solver]. }
  destruct order as [order|]; cbn [cursor_start order_wf].
  - intros Ho. destruct (along_spec cursor_new order cursor_new_tight Ho) as [H1 H2]. split; [done|].
    intros p Hp H. by apply (Hnew p Hp), (H2 p Hp).
  - intros _. split; [apply cursor_new_tight|done].
Qed.

Lemma settle_all_spec positions c :
  tight c -> Forall (fun p => 0 <= p < umax 64) positions ->
  tight (fold_left settle positions c) /\
  forall p, 0 <= p -> settled_in (fold_left settle positions c) p <-> settled_in c p \/ p ∈ positions.
Proof.
  revert c. induction positions as [|q positions IH]; intros c Hc Hp; cbn [fold_left].
  { split; [done|]. intros p _. rewrite elem_of_nil. tauto. }
  inversion Hp as [|? ? Hq Hp']; subst. destruct (settle_spec c q Hc Hq) as [S1 S2].
  destruct (IH _ S1 Hp') as [I1 I2]. split; [done|]. intros p H0. rewrite I2, S2, elem_of_cons by done. tauto.
Qed.

(** C20: A cursor remembers exactly what it was told.  After any sequence of
    settled positions, repeats included, in plan order or along any permutation,
    [is_settled] holds of the positions given and of no other, and
    [settled_count] is how many distinct positions that is.  Positions are below 2^64 - 1,
    which the positions of a plan are. *)
Theorem cursor_remembers (order : option Permutation) (positions : list Z) :
  order_wf order -> Forall (fun p => 0 <= p < umax 64) positions ->
  let c := fold_left settle positions (cursor_start order) in
  (forall p, 0 <= p -> cursor_is_settled c p = true <-> p ∈ positions) /\
  settled_count c = Z.of_nat (size (list_to_set positions : gset Z)).
Proof.
  intros Ho Hp c. destruct (cursor_start_tight order Ho) as [S1 S2].
  destruct (settle_all_spec positions _ S1 Hp) as [H1 H2]. fold c in H1, H2.
  assert (forall p, 0 <= p -> settled_in c p <-> p ∈ positions) as H.
  { intros p H0. rewrite H2 by done. specialize (S2 p H0). tauto. }
  split.
  - intros p H0. rewrite is_settled_spec by (done || apply ti_loose; done). by apply H.
  - apply settled_count_size; [by apply ti_loose|]. intros p. rewrite elem_of_list_to_set.
    rewrite Forall_forall in Hp. split.
    + intros Hin. split; [apply (Hp p Hin)|]. apply H; [apply (Hp p Hin)|done].
    + intros [H0 Hs]. by apply H.
Qed.

Lemma cursor_remembers_witness :
  let c := fold_left settle [2; 0; 7; 2; 1] (cursor_start (Some (perm_new 5 10))) in
  settled_count c = 4 /\ (cursor_is_settled c 7 = true <-> 7 ∈ [2; 0; 7; 2; 1]).
Proof.
  assert (order_wf (Some (perm_new 5 10))) as Ho by (apply new_wf; apply fitsb_spec; reflexivity).
  assert (Forall (fun p => 0 <= p < umax 64) [2; 0; 7; 2; 1]) as Hp by (repeat constructor; vm_compute; congruence).
  destruct (cursor_remembers (Some (perm_new 5 10)) [2; 0; 7; 2; 1] Ho Hp) as [H1 H2].
  split; [rewrite H2; vm_compute; reflexivity|]. apply H1. lia.
Defined.

(** Both watermarks stand as high as they can.  After any sequence of settled
    positions the plan watermark is the least position not settled; the walk's
    next position, when it has one, is not settled; and the set beside them holds
    only positions neither watermark has passed. *)
Theorem cursor_watermarks_maximal (order : option Permutation) (positions : list Z) :
  order_wf order -> Forall (fun p => 0 <= p < umax 64) positions ->
  let c := fold_left settle positions (cursor_start order) in
  (forall p, 0 <= p < c_watermark c -> p ∈ positions) /\ c_watermark c ∉ positions /\
  (forall w p, c_walk c = Some w -> at_ (walked_order w) (w_reached w) = Some p -> p ∉ positions) /\
  (forall p, p ∈ c_above c -> p ∈ positions /\ c_watermark c < p /\
     forall w, c_walk c = Some w -> covers w p = false).
Proof.
  intros Ho Hp c. destruct (cursor_start_tight order Ho) as [S1 S2].
  destruct (settle_all_spec positions _ S1 Hp) as [H1 H2]. fold c in H1, H2.
  assert (forall p, 0 <= p -> settled_in c p <-> p ∈ positions) as H.
  { intros p H0. rewrite H2 by done. specialize (S2 p H0). tauto. }
  pose proof (ti_loose c H1) as Hl. pose proof (lo_watermark c Hl) as [Hm0 _].
  assert (forall p, p ∈ c_above c -> 0 <= p) as Ha by (intros p Hin; pose proof (lo_above c Hl p Hin); lia).
  split; [|split; [|split]].
  - intros p [H0 Hlt]. apply H; [done|]. by left.
  - intros Hin. apply H in Hin; [|done]. destruct Hin as [?|[?|(w & Ew & Hw)]]; [lia|by apply (ti_watermark c H1)|].
    destruct (ti_walk c H1 w Ew) as [Hc _]. apply (covers_spec w) in Hw; [congruence|by apply (lo_walk c Hl w)|done].
  - intros w p Ew Eat Hin. destruct (ti_walk c H1 w Ew) as [_ Hn]. destruct (Hn p Eat) as [Hge Hout].
    destruct (lo_walk c Hl w Ew) as (Hw & _). pose proof (at_reached w Hw) as Hat. rewrite Eat in Hat.
    destruct Hat as (_ & Hr & Hnc & _). apply H in Hin; [|lia].
    destruct Hin as [?|[?|(v & Ev & Hv)]]; [lia|done|]. assert (v = w) as -> by congruence. done.
  - intros p Hin. pose proof (Ha p Hin). pose proof (lo_above c Hl p Hin).
    split; [apply H; [done|by right; left]|]. split.
    + assert (p <> c_watermark c); [|lia]. intros ->. by apply (ti_watermark c H1).
    + intros w Ew. destruct (lo_walk c Hl w Ew) as (Hw & _ & Hd). apply not_true_is_false. intros Hc.
      apply covers_spec in Hc; [|done|done]. by apply (Hd p).
Qed.

Lemma cursor_watermarks_maximal_witness :
  let c := fold_left settle [2; 0; 7; 1] (cursor_start None) in
  c_watermark c = 3 /\ c_watermark c ∉ [2; 0; 7; 1].
Proof.
  assert (Forall (fun p => 0 <= p < umax 64) [2; 0; 7; 1]) as Hp by (repeat constructor; vm_compute; congruence).
  destruct (cursor_watermarks_maximal None [2; 0; 7; 1] I Hp) as (_ & H2 & _).
  split; [vm_compute; reflexivity|exact H2].
Defined.
