(* ===== verification/Checkpoint.v ===== *)
(** * Checkpoints

    [src/src/journal/cursor.rs], [Checkpoint]: what a journal keeps of a cursor,
    and what a later sitting reads from it.  The positions left are grouped into
    host runs through the [HostRuns] interface, by one of two algorithms chosen by
    cost; both are shown to give the same spans, and the sets of addresses they
    lead to are exactly those with something left to ask. *)

From Stdlib Require Import ZArith Lia.
From stdpp Require Import base numbers sets gmap fin_sets sorting option list.
From S2P Require Import Prelude Std Intervals IpRange IpSet Numbering Positions PortSet Target Order Cursor.

Local Open Scope Z_scope.
Local Open Scope word_scope.

(** ** Definitions *)

Record Checkpoint := mkCheckpoint {
  cp_watermark : Z;
  cp_settled_above : list Z;
  cp_walked : option Walked;
}.

Definition checkpoint_new (watermark : Z) (settled_above : list Z) : Checkpoint :=
  mkCheckpoint watermark
    (dedup Z.eqb (sort_z (filter (fun position => watermark <= position) settled_above))) None.

(** [Cursor::checkpoint]; a [BTreeSet] iterates in ascending order. *)
Definition checkpoint (c : Cursor) : Checkpoint :=
  mkCheckpoint (c_watermark c) (sort_z (elements (c_above c))) (c_walk c).

Definition from_checkpoint (cp : Checkpoint) : Cursor :=
  let walk := (fun walked => clamped walked (cp_watermark cp)) <$> cp_walked cp in
  catch_up
    (mkCursor (cp_watermark cp)
       (list_to_set
          (filter (fun position => is_some_and walk (fun walk => covers walk position) = false)
             (filter (fun position => cp_watermark cp <= position) (cp_settled_above cp))))
       walk).

Definition cp_is_settled (cp : Checkpoint) (position : Z) : bool :=
  (position <? cp_watermark cp) || is_ok (binary_search_z position (cp_settled_above cp)) ||
  is_some_and (cp_walked cp) (fun walked => covers walked position).

Definition cp_settled_count (cp : Checkpoint) : Z :=
  let walked := (fun walked => clamped walked (cp_watermark cp)) <$> cp_walked cp in
  let above := length
    (filter (fun position => is_some_and walked (fun walked => covers walked position) = false)
       (filter (fun position => cp_watermark cp <= position) (cp_settled_above cp))) in
  sat_add 64
    (sat_add 64 (cp_watermark cp) (match walked with Some walked => w_ahead walked | None => 0 end))
    (Z.of_nat above).

(** [Checkpoint::remaining]: the targets of a plan, numbered, less the settled. *)
Definition remaining (cp : Checkpoint) (targets : list Target) : list PlannedTarget :=
  filter (fun planned => cp_is_settled cp (pt_position planned) = false)
    (imap (fun position target => mkPlanned (wrap 64 (Z.of_nat position)) target) targets).

(** *** The interface to a numbering of hosts *)

Class HostRuns (R : Type) := {
  hr_total : R -> Z;
  hr_hosts : R -> Z;
  hr_run : R -> Z -> Z * Z;
  hr_host_of : R -> Z -> Z;
}.

(** [Alone]: each position its own host. *)
Record Alone := mkAlone { alone_total : Z }.

#[export] Instance alone_runs : HostRuns Alone := {|
  hr_total := alone_total;
  hr_hosts := alone_total;
  hr_run := fun _ host => (host, host +[64] 1);
  hr_host_of := fun _ position => position;
|}.

#[export] Instance index_runs : HostRuns TargetIndex := {|
  hr_total := ti_total;
  hr_hosts := ti_hosts;
  hr_run := host_run;
  hr_host_of := host_of;
|}.

Definition extend_spans (spans : list (Z * Z)) (run : Z * Z) : list (Z * Z) :=
  match last spans with
  | Some span =>
      if snd span =? fst run then removelast spans ++ [(fst span, snd run)] else spans ++ [run]
  | None => spans ++ [run]
  end.

Definition span_positions (span : Z * Z) : list Z := seqZ (fst span) (snd span - fst span).

(** The loop of [gaps_from]. *)
Fixpoint gaps (from total : Z) (above : list Z) : list (Z * Z) :=
  match above with
  | [] => [(from, total)]
  | settled :: above =>
      if settled <? from then gaps from total above
      else (from, Z.min settled total) :: gaps (sat_add 64 settled 1) total above
  end.

Definition gaps_from (cp : Checkpoint) (from total : Z) : list (Z * Z) :=
  filter (fun span => fst span < snd span) (gaps from total (sort_z (cp_settled_above cp))).

Definition MARKED_AT_MOST : Z := Z.shiftl 1 30.

(** The products are [u128]s of [u64]s, so exact. *)
Definition reads_the_tail (tail hosts past : Z) : bool :=
  (tail * tail <? hosts * past) && (hosts <=? MARKED_AT_MOST).

Fixpoint pos_trailing_zeros (p : positive) : Z :=
  match p with xO q => 1 + pos_trailing_zeros q | _ => 0 end.

Definition trailing_zeros (word : Z) : Z :=
  match word with Zpos p => pos_trailing_zeros p | _ => 64 end.

(** [while word != 0 { .. word &= word - 1 }]: each turn clears one of 64 bits. *)
Fixpoint word_bits (fuel : nat) (word : Z) : list Z :=
  match fuel with
  | O => []
  | S fuel =>
      if word =? 0 then []
      else trailing_zeros word :: word_bits fuel (Z.land word (word -[64] 1))
  end.

(** The hosts of the words from [at_] on, in the order [marked] visits them. *)
Fixpoint marked_hosts (first at_ : Z) (bits : list Z) : list Z :=
  match bits with
  | [] => []
  | word :: bits =>
      ((fun bit => first +[64] (at_ *[64] 64) +[64] bit) <$> word_bits 64 word) ++
      marked_hosts first (at_ + 1) bits
  end.

Definition mark_host (bits : list Z) (host : Z) : list Z :=
  let i := Z.to_nat (host / 64) in
  match bits !! i with
  | Some word => <[i := Z.lor word (1 <<[64] (host mod 64))]> bits
  | None => bits
  end.

Section Runs.
Context {R : Type} `{HostRuns R} (runs : R).

Definition host_by_host (first last : Z) (unsettled : Z -> bool) : list (Z * Z) :=
  fold_left (fun spans host =>
    let run := hr_run runs host in
    if existsb unsettled (span_positions run) then extend_spans spans run else spans)
    (seqZ first (last - first)) [].

Definition marked (first hosts : Z) (positions : list Z) : list (Z * Z) :=
  let bits := fold_left (fun bits position => mark_host bits (hr_host_of runs position -[64] first)) positions
                (replicate (Z.to_nat ((hosts + 63) / 64)) 0) in
  fold_left (fun spans host => extend_spans spans (hr_run runs host)) (marked_hosts first 0 bits) [].

Definition left_along (cp : Checkpoint) (walked : Walked) : list (Z * Z) :=
  let total := hr_total runs in
  if total <=? cp_watermark cp then []
  else
    let first := hr_host_of runs (cp_watermark cp) in
    let hosts := hr_hosts runs -[64] first in
    let past := total -[64] cp_watermark cp in
    let tail := w_len walked -[64] w_reached walked in
    let order := walked_order walked in
    let listed position := is_ok (binary_search_z position (cp_settled_above cp)) in
    if reads_the_tail tail hosts past then
      let reached :=
        filter (fun position => listed position = false)
          (filter (fun position => cp_watermark cp <= position < total)
             (perm_iter_from order (w_reached walked))) in
      let unwalked := gaps_from cp (Z.max (w_len walked) (cp_watermark cp)) total ≫= span_positions in
      marked first hosts (reached ++ unwalked)
    else
      let unsettled position :=
        (cp_watermark cp <=? position) && negb (listed position) &&
        negb (is_some_and (index_of order position) (fun index => index <? w_reached walked)) in
      host_by_host first (hr_hosts runs) unsettled.

Definition left_in (cp : Checkpoint) : list (Z * Z) :=
  match cp_walked cp with
  | Some walked => left_along cp (clamped walked (cp_watermark cp))
  | None => gaps_from cp (cp_watermark cp) (hr_total runs)
  end.
End Runs.

Definition unsettled_spans (cp : Checkpoint) (total : Z) : list (Z * Z) := left_in (mkAlone total) cp.

Definition remaining_addresses (cp : Checkpoint) (positions : Positions) : IpSet :=
  let left_ := unsettled_spans cp (pos_total positions) ≫= fun '(first, last) => ranges_in positions first last in
  canonicalize (fold_left insert_range (left_ ++ unnumbered positions) ipset_new).

Definition remaining_hosts (cp : Checkpoint) (index : TargetIndex) : IpSet :=
  let left_ := left_in index cp ≫= fun '(first, last) => addresses_in index first last in
  canonicalize (fold_left insert_range (left_ ++ ti_unnumbered index) ipset_new).

(** ** Well-formed checkpoints, and the positions they settle *)

(** A checkpoint as a journal reads one: its list sorted, its fields [u64]s, and
    nothing more assumed of the walk. *)
Record checkpoint_ok (cp : Checkpoint) : Prop := {
  cpo_watermark : fits 64 (cp_watermark cp);
  cpo_sorted : StronglySorted Z.lt (cp_settled_above cp);
  cpo_fits : Forall (fits 64) (cp_settled_above cp);
  cpo_walked : forall w, cp_walked cp = Some w ->
    fits 64 (w_seed w) /\ fits 64 (w_len w) /\ 0 <= w_reached w /\ 0 <= w_ahead w;
}.

Lemma sorted_lt_le l : StronglySorted Z.lt l -> StronglySorted Z.le l.
Proof. intros H. eapply sorted_weaken; [|exact H]. intros. lia. Qed.

Lemma clamped_ok w m :
  fits 64 (w_seed w) -> fits 64 (w_len w) -> 0 <= w_reached w -> walked_ok (clamped w m).
Proof. intros Hs Hl Hr. split; [done|]. split; [done|]. cbn. unfold fits in Hl. lia. Qed.

(** Clamping changes no answer: the permutation has no index past its length. *)
Lemma covers_clamped w m p :
  fits 64 (w_seed w) -> fits 64 (w_len w) -> 0 <= p -> covers (clamped w m) p = covers w p.
Proof.
  intros Hs Hl Hp. unfold covers. change (walked_order (clamped w m)) with (walked_order w).
  destruct (index_of (walked_order w) p) as [i|] eqn:E; [|done]. cbn [is_some_and clamped w_reached].
  apply index_of_Some in E as (_ & _ & Hi); [|by apply new_wf|done]. cbn in Hi.
  destruct (Z.ltb_spec i (w_reached w)), (Z.ltb_spec i (Z.min (w_reached w) (w_len w))); try done; lia.
Qed.

(** The positions left to ask. *)
Definition unsettled_at (cp : Checkpoint) (p : Z) : Prop := cp_is_settled cp p = false.

Lemma listed_spec cp p :
  checkpoint_ok cp -> is_ok (binary_search_z p (cp_settled_above cp)) = true <-> p ∈ cp_settled_above cp.
Proof. intros Hcp. apply binary_search_z_ok, sorted_lt_le, (cpo_sorted cp Hcp). Qed.

Lemma unsettled_spec cp p :
  checkpoint_ok cp ->
  unsettled_at cp p <->
  cp_watermark cp <= p /\ p ∉ cp_settled_above cp /\
  forall w, cp_walked cp = Some w -> covers w p = false.
Proof.
  intros Hcp. unfold unsettled_at, cp_is_settled. rewrite !orb_false_iff, Z.ltb_ge.
  rewrite <- (not_true_iff_false (is_ok _)), listed_spec, <- (not_true_iff_false (is_some_and _ _)), is_some_and_true by done.
  split.
  - intros [[H1 H2] H3]. split; [done|]. split; [done|]. intros w Ew. apply not_true_is_false. intros Hc. apply H3. eauto.
  - intros (H1 & H2 & H3). split; [done|]. intros (w & Ew & Hc). by rewrite (H3 w Ew) in Hc.
Qed.

(** ** A cursor survives its checkpoint *)

Lemma sort_z_elements (X : gset Z) : StronglySorted Z.lt (sort_z (elements X)) /\ forall p, p ∈ sort_z (elements X) <-> p ∈ X.
Proof.
  split.
  - assert (NoDup (sort_z (elements X))) as Hnd by (unfold sort_z; rewrite sort_by_perm; apply NoDup_elements).
    pose proof (sort_z_sorted (elements X)) as Hs. revert Hnd Hs. generalize (sort_z (elements X)). intros l.
    induction l as [|a l IH]; intros Hnd Hs; [constructor|]. apply NoDup_cons in Hnd as [Ha Hnd].
    apply StronglySorted_cons in Hs as [Hall Hs]. constructor; [by apply IH|].
    apply Forall_forall. intros b Hb. rewrite Forall_forall in Hall. specialize (Hall b Hb).
    assert (a <> b) by (intros ->; done). lia.
  - intros p. unfold sort_z. by rewrite sort_by_perm, elem_of_elements.
Qed.

Lemma checkpoint_is_ok c : loose c -> checkpoint_ok (checkpoint c).
Proof.
  intros Hc. destruct (sort_z_elements (c_above c)) as [Hs Hin]. split; cbn [checkpoint cp_watermark cp_settled_above cp_walked].
  - apply (lo_watermark c Hc).
  - done.
  - apply Forall_forall. intros p Hp. apply Hin in Hp. pose proof (lo_above c Hc p Hp).
    pose proof (lo_watermark c Hc). unfold fits in *. lia.
  - intros w Ew. destruct (lo_walk c Hc w Ew) as ((H1 & H2 & H3) & H4 & _). split; [done|]. split; [done|].
    split; [lia|]. rewrite H4. apply count_from_bounds.
Qed.

Lemma clamped_id c w : loose c -> c_walk c = Some w -> clamped w (c_watermark c) = w.
Proof.
  intros Hc Ew. destruct (lo_walk c Hc w Ew) as (Hw & Ha & _). pose proof (lo_watermark c Hc) as [Hm _].
  pose proof (count_from_covered (c_watermark c) w Hw Hm) as Hb. rewrite <- Ha in Hb.
  destruct Hw as (_ & _ & Hr). destruct w as [seed len reached ahead]. unfold clamped. cbn in *. f_equal; lia.
Qed.

Lemma checkpoint_above c p :
  loose c -> p ∈ cp_settled_above (checkpoint c) <-> p ∈ c_above c.
Proof. intros _. apply sort_z_elements. Qed.

(** The filters keep a real cursor's whole list. *)
Lemma checkpoint_filters c :
  loose c ->
  filter (fun position => is_some_and (c_walk c) (fun walk => covers walk position) = false)
    (filter (fun position => c_watermark c <= position) (cp_settled_above (checkpoint c))) =
  cp_settled_above (checkpoint c).
Proof.
  intros Hc.
  assert (forall (P : Z -> Prop) `{forall x, Decision (P x)} (l : list Z), (forall x, x ∈ l -> P x) -> filter P l = l) as Hall.
  { intros P HP l. induction l as [|a l IH]; intros H; [done|]. rewrite filter_cons_True by (apply H; by left).
    f_equal. apply IH. intros x Hx. apply H. by right. }
  rewrite (Hall (fun position => c_watermark c <= position)).
  - apply Hall. intros p Hp%checkpoint_above; [|done]. destruct (c_walk c) as [w|] eqn:Ew; [|done].
    destruct (lo_walk c Hc w Ew) as (Hw & _ & Hd). cbn. apply not_true_is_false. intros Hcov.
    apply covers_spec in Hcov; [by apply (Hd p)|done|]. pose proof (lo_above c Hc p Hp).
    pose proof (lo_watermark c Hc). unfold fits in *. lia.
  - intros p Hp%checkpoint_above; [|done]. apply (lo_above c Hc p Hp).
Qed.

Lemma checkpoint_roundtrip c : tight c -> from_checkpoint (checkpoint c) = c.
Proof.
  intros Hc. pose proof (ti_loose c Hc) as Hl. unfold from_checkpoint.
  assert ((fun walked => clamped walked (cp_watermark (checkpoint c))) <$> cp_walked (checkpoint c) = c_walk c) as ->.
  { cbn. destruct (c_walk c) as [w|] eqn:Ew; [|done]. cbn. f_equal. by apply clamped_id. }
  change (cp_watermark (checkpoint c)) with (c_watermark c). rewrite checkpoint_filters by done.
  assert (list_to_set (cp_settled_above (checkpoint c)) = c_above c) as ->.
  { apply set_eq. intros p. rewrite elem_of_list_to_set. by apply checkpoint_above. }
  rewrite <- (catch_up_tight c Hc) at 4. by destruct c.
Qed.

Lemma checkpoint_settled c p : loose c -> 0 <= p -> cp_is_settled (checkpoint c) p = cursor_is_settled c p.
Proof.
  intros Hc Hp. unfold cp_is_settled, cursor_is_settled. f_equal. f_equal. apply eq_iff_eq_true.
  rewrite listed_spec by by apply checkpoint_is_ok. rewrite checkpoint_above by done. by rewrite bool_decide_eq_true.
Qed.

Lemma checkpoint_count c : loose c -> cp_settled_count (checkpoint c) = settled_count c.
Proof.
  intros Hc. unfold cp_settled_count.
  assert ((fun walked => clamped walked (cp_watermark (checkpoint c))) <$> cp_walked (checkpoint c) = c_walk c) as ->.
  { cbn. destruct (c_walk c) as [w|] eqn:Ew; [|done]. cbn. f_equal. by apply clamped_id. }
  change (cp_watermark (checkpoint c)) with (c_watermark c). rewrite checkpoint_filters by done.
  unfold settled_count. f_equal. f_equal. cbn [checkpoint cp_settled_above].
  unfold sort_z. rewrite sort_by_perm. done.
Qed.

(** A checkpoint loses nothing.  A cursor written down and read back is the
    same cursor, and until then the checkpoint itself answers for every position,
    and for the count, as the cursor does. *)
Theorem checkpoint_keeps_cursor (order : option Permutation) (positions : list Z) :
  order_wf order -> Forall (fun p => 0 <= p < umax 64) positions ->
  let c := fold_left settle positions (cursor_start order) in
  from_checkpoint (checkpoint c) = c /\
  (forall p, 0 <= p -> cp_is_settled (checkpoint c) p = cursor_is_settled c p) /\
  cp_settled_count (checkpoint c) = settled_count c.
Proof.
  intros Ho Hp c. destruct (cursor_start_tight order Ho) as [S1 _].
  destruct (settle_all_spec positions _ S1 Hp) as [H1 _]. fold c in H1. pose proof (ti_loose c H1) as Hl.
  split; [by apply checkpoint_roundtrip|]. split; [intros; by apply checkpoint_settled|by apply checkpoint_count].
Qed.

Lemma checkpoint_keeps_cursor_witness :
  let c := fold_left settle [2; 0; 7; 2; 1] (cursor_start (Some (perm_new 5 10))) in
  from_checkpoint (checkpoint c) = c /\ cp_is_settled (checkpoint c) 7 = true.
Proof.
  assert (order_wf (Some (perm_new 5 10))) as Ho by (apply new_wf; apply fitsb_spec; reflexivity).
  assert (Forall (fun p => 0 <= p < umax 64) [2; 0; 7; 2; 1]) as Hp by (repeat constructor; vm_compute; congruence).
  destruct (checkpoint_keeps_cursor (Some (perm_new 5 10)) [2; 0; 7; 2; 1] Ho Hp) as (H1 & _).
  split; [exact H1|vm_compute; reflexivity].
Defined.

(** ** Spans *)

(** The position [p] lies in one of the spans. *)
Definition in_spans (spans : list (Z * Z)) (p : Z) : Prop := exists s, s ∈ spans /\ fst s <= p < snd s.

Lemma in_spans_nil p : ~ in_spans [] p.
Proof. intros (s & Hs & _). by apply elem_of_nil in Hs. Qed.

Lemma in_spans_app l k p : in_spans (l ++ k) p <-> in_spans l p \/ in_spans k p.
Proof. unfold in_spans. setoid_rewrite elem_of_app. naive_solver. Qed.

Lemma in_spans_singleton s p : in_spans [s] p <-> fst s <= p < snd s.
Proof. unfold in_spans. setoid_rewrite list_elem_of_singleton. naive_solver. Qed.

Lemma in_spans_cons s l p : in_spans (s :: l) p <-> fst s <= p < snd s \/ in_spans l p.
Proof. unfold in_spans. apply (exists_cons (fun s => fst s <= p < snd s)). Qed.

Lemma elem_of_span_positions l p : p ∈ l ≫= span_positions <-> in_spans l p.
Proof.
  rewrite list_elem_of_bind. unfold in_spans, span_positions. setoid_rewrite elem_of_seqZ.
  split; intros (s & H1 & H2); exists s; (split; [done|lia]) || (split; [lia|done]).
Qed.

Lemma gaps_spec from total above p :
  StronglySorted Z.le above -> total <= umax 64 ->
  in_spans (gaps from total above) p <-> from <= p < total /\ p ∉ above.
Proof.
  intros Hs Ht. revert from. induction Hs as [|a above Hs IH Hall]; intros from; cbn [gaps].
  { rewrite in_spans_singleton. cbn. split; [|tauto]. intros. split; [done|]. by intros ?%elem_of_nil. }
  rewrite Forall_forall in Hall. rewrite not_elem_of_cons. destruct (Z.ltb_spec a from).
  - rewrite IH. split; [|tauto]. intros [? ?]. split; [done|]. split; [lia|done].
  - rewrite in_spans_cons, IH. cbn [fst snd]. unfold sat_add. split.
    + intros [Hp|[Hp Hn]].
      * split; [lia|]. split; [lia|]. intros Hin. specialize (Hall p Hin). lia.
      * split; [lia|]. split; [|done]. lia.
    + intros [Hp [Hne Hn]]. destruct (Z.lt_ge_cases p a); [left; lia|right]. split; [lia|done].
Qed.

Lemma gaps_from_spec cp from total p :
  total <= umax 64 ->
  in_spans (gaps_from cp from total) p <-> from <= p < total /\ p ∉ cp_settled_above cp.
Proof.
  intros Ht. assert (p ∈ sort_z (cp_settled_above cp) <-> p ∈ cp_settled_above cp) as <-.
  { unfold sort_z. by rewrite sort_by_perm. }
  rewrite <- gaps_spec by (done || apply sort_z_sorted). unfold gaps_from, in_spans.
  setoid_rewrite list_elem_of_filter. split; intros (s & H1 & H2); exists s; [tauto|]. split; [|done]. split; [lia|done].
Qed.

Lemma extend_spans_spec spans run p :
  Forall (fun s => fst s <= snd s) spans -> fst run <= snd run ->
  Forall (fun s => fst s <= snd s) (extend_spans spans run) /\
  (in_spans (extend_spans spans run) p <-> in_spans spans p \/ fst run <= p < snd run).
Proof.
  intros Hv Hr. unfold extend_spans. destruct (decide (spans = [])) as [->|Hne].
  { cbn [last app]. split; [by constructor|]. rewrite in_spans_singleton. split; [by right|]. intros [H|H]; [by apply in_spans_nil in H|done]. }
  destruct (exists_last Hne) as (l & s & ->). rewrite last_snoc.
  apply Forall_app in Hv as [Hv Hs]. apply Forall_inv in Hs.
  destruct (Z.eqb_spec (snd s) (fst run)) as [E|E].
  - rewrite removelast_last. split.
    + apply Forall_app. split; [done|]. constructor; [cbn; lia|constructor].
    + rewrite !in_spans_app, !in_spans_singleton. cbn [fst snd]. split.
      * intros [H|H]; [by left; left|]. destruct (Z.lt_ge_cases p (snd s)); [left; right; lia|right; lia].
      * intros [[H|H]|H]; [by left|right; lia..].
  - split.
    + apply Forall_app. split; [apply Forall_app; split; [done|by constructor]|by constructor].
    + rewrite !in_spans_app, !in_spans_singleton. tauto.
Qed.

Lemma extend_all_spec runs_ spans p :
  Forall (fun s => fst s <= snd s) spans -> Forall (fun s => fst s <= snd s) runs_ ->
  in_spans (fold_left extend_spans runs_ spans) p <-> in_spans spans p \/ in_spans runs_ p.
Proof.
  intros Hs Hr. revert spans Hs. induction Hr as [|r l Hr _ IH]; intros spans Hs; cbn [fold_left].
  { split; [by left|]. intros [H|H]; [done|by apply in_spans_nil in H]. }
  destruct (extend_spans_spec spans r p Hs Hr) as [E1 E2]. rewrite IH by done. rewrite E2, in_spans_cons. tauto.
Qed.

Lemma extend_all_nonempty runs_ spans :
  Forall (fun s => fst s < snd s) spans -> Forall (fun s => fst s < snd s) runs_ ->
  Forall (fun s => fst s < snd s) (fold_left extend_spans runs_ spans).
Proof.
  intros Hs Hr. revert spans Hs. induction Hr as [|r l Hr _ IH]; intros spans Hs; cbn [fold_left]; [done|].
  apply IH. unfold extend_spans. destruct (decide (spans = [])) as [->|Hne]; [by constructor|].
  destruct (exists_last Hne) as (k & s & ->). rewrite last_snoc, removelast_last.
  destruct (Z.eqb_spec (snd s) (fst r)); apply Forall_app; (split; [|constructor; [|constructor]]); try done.
  - by apply Forall_app in Hs as [? _].
  - apply Forall_app in Hs as [_ Hs]. apply Forall_inv in Hs. cbn. lia.
Qed.

(** ** Marking hosts in a bit vector *)

Lemma pos_trailing_zeros_spec q :
  exists o, 0 <= pos_trailing_zeros q /\ 0 <= o /\ Zpos q = 2 ^ pos_trailing_zeros q * (2 * o + 1).
Proof.
  induction q as [q _|q (o & H0 & Ho & E)|]; cbn [pos_trailing_zeros].
  - exists (Zpos q). lia.
  - exists o. rewrite Z.pow_add_r, Z.pow_1_r by lia. split; [lia|]. split; [done|]. rewrite Pos2Z.inj_xO, E. ring.
  - exists 0. lia.
Qed.

(** The lowest set bit, and the word without it. *)
Lemma lowest_bit word :
  0 < word < 2 ^ 64 ->
  let t := trailing_zeros word in
  0 <= t < 64 /\ Z.testbit word t = true /\ (forall j, 0 <= j < t -> Z.testbit word j = false) /\
  0 <= Z.land word (word -[64] 1) < 2 ^ 64 /\
  (forall j, 0 <= j <= t -> Z.testbit (Z.land word (word -[64] 1)) j = false) /\
  (forall j, t < j -> Z.testbit (Z.land word (word -[64] 1)) j = Z.testbit word j).
Proof.
  intros Hw. destruct word as [|q|q]; [lia| |lia]. cbn [trailing_zeros].
  destruct (pos_trailing_zeros_spec q) as (o & H0 & Ho & E). set (t := pos_trailing_zeros q) in *.
  rewrite wrap_small by lia. rewrite E in *.
  assert (0 < 2 ^ t) as Hpow by (apply Z.pow_pos_nonneg; lia).
  assert (t < 64) as Ht by (apply (Z.pow_lt_mono_r_iff 2); nia).
  assert (forall j, 0 <= j -> Z.testbit (2 ^ t * (2 * o + 1)) j = (t <=? j) && Z.testbit (2 * o + 1) (j - t)) as Hbit.
  { intros j Hj. rewrite Z.mul_comm, Z.mul_pow2_bits by lia. destruct (Z.leb_spec t j); [done|].
    by rewrite Z.testbit_neg_r by lia. }
  assert (2 ^ t * (2 * o + 1) - 1 = 2 ^ t * (2 * o) + (2 ^ t - 1)) as E1 by ring.
  assert (forall j, t <= j -> Z.testbit (2 ^ t * (2 * o + 1) - 1) j = Z.testbit (2 * o) (j - t)) as Hbit1.
  { intros j Hj. replace j with ((j - t) + t) at 1 by lia. rewrite <- Z.div_pow2_bits by lia. f_equal.
    rewrite E1, Z.mul_comm, Z.div_add_l by lia. rewrite Z.div_small by lia. lia. }
  assert (forall j, 0 <= j -> Z.testbit (2 ^ t * (2 * o + 1) - 1) j && Z.testbit (2 ^ t * (2 * o + 1)) j =
    (t <? j) && Z.testbit (2 ^ t * (2 * o + 1)) j) as Hland.
  { intros j Hj. rewrite Hbit by done. destruct (Z.leb_spec t j) as [Hle|Hgt].
    - rewrite Hbit1 by done. cbn [andb]. destruct (Z.ltb_spec t j).
      + replace (j - t) with (Z.succ (j - t - 1)) by lia. rewrite Z.testbit_even_succ, Z.testbit_odd_succ by lia.
        cbn. by destruct (Z.testbit o (j - t - 1)).
      + replace (j - t) with 0 by lia. by rewrite Z.testbit_even_0.
    - cbn. by rewrite !andb_false_r. }
  split; [done|]. split.
  { rewrite Hbit by lia. rewrite Z.leb_refl, Z.sub_diag. by rewrite Z.testbit_odd_0. }
  split. { intros j Hj. rewrite Hbit by lia. by rewrite (proj2 (Z.leb_gt _ _)) by lia. }
  split.
  { split; [apply Z.land_nonneg; left; lia|]. eapply Z.le_lt_trans; [|apply Hw].
    apply Z.ldiff_le; [lia|]. apply Z.bits_inj'. intros j Hj. rewrite Z.ldiff_spec, Z.land_spec, Z.bits_0.
    destruct (Z.testbit (2 ^ t * (2 * o + 1)) j); [by rewrite andb_false_r|done]. }
  split; intros j Hj; rewrite Z.land_spec, andb_comm, Hland by lia.
  - by rewrite (proj2 (Z.ltb_ge _ _)) by lia.
  - by rewrite (proj2 (Z.ltb_lt _ _)) by lia.
Qed.

Lemma word_bits_from fuel k word :
  0 <= k <= 64 -> 64 - k <= Z.of_nat fuel -> 0 <= word < 2 ^ 64 ->
  (forall j, 0 <= j < k -> Z.testbit word j = false) ->
  word_bits fuel word = filter (fun j => Z.testbit word j = true) (seqZ k (64 - k)).
Proof.
  revert k word. induction fuel as [|fuel IH]; intros k word Hk Hf Hw Hlow; cbn [word_bits].
  { replace (64 - k) with 0 by lia. done. }
  destruct (Z.eqb_spec word 0) as [->|Hne].
  { symmetry. apply filter_none. intros j _. by rewrite Z.bits_0. }
  destruct (lowest_bit word) as (Ht & Hbit & Hbelow & Hw' & Hclear & Hsame); [lia|].
  set (t := trailing_zeros word) in *.
  assert (k <= t). { destruct (Z.le_gt_cases k t); [done|]. by rewrite (Hlow t) in Hbit by lia. }
  replace (64 - k) with ((t - k) + (1 + (63 - t))) by lia.
  rewrite seqZ_app, filter_app by lia. replace (k + (t - k)) with t by lia.
  rewrite (filter_none _ (seqZ k (t - k))).
  2:{ intros j Hj%elem_of_seqZ. by rewrite Hbelow by lia. }
  rewrite seqZ_app by lia. cbn [app]. rewrite (seqZ_cons t 1) by lia. cbn [app].
  rewrite filter_cons_True by done. f_equal. replace (63 - t) with (64 - (t + 1)) by lia.
  rewrite (IH (t + 1)); [|lia|lia|done|intros j Hj; apply Hclear; lia].
  apply filter_same. intros j Hj%elem_of_seqZ. by rewrite Hsame by lia.
Qed.

Lemma word_bits_spec word :
  0 <= word < 2 ^ 64 -> word_bits 64 word = filter (fun j => Z.testbit word j = true) (seqZ 0 64).
Proof. intros Hw. rewrite (word_bits_from 64 0) by (done || lia). done. Qed.

(** Whether the vector marks host [h]. *)
Definition bit_at (bits : list Z) (h : Z) : bool :=
  match zlookup bits (h / 64) with Some word => Z.testbit word (h mod 64) | None => false end.

Definition words_ok (bits : list Z) : Prop := Forall (fun word => 0 <= word < 2 ^ 64) bits.

Lemma bit_at_cons word bits h :
  0 <= h -> bit_at (word :: bits) h = if h <? 64 then Z.testbit word h else bit_at bits (h - 64).
Proof.
  intros Hh. unfold bit_at. rewrite zlookup_cons. destruct (Z.ltb_spec h 64).
  - by rewrite Z.div_small, Z.mod_small by lia.
  - replace (h / 64) with ((h - 64) / 64 + 1) by (rewrite <- Z.div_add by lia; f_equal; lia).
    assert (0 <= (h - 64) / 64) by (apply Z.div_pos; lia). rewrite (proj2 (Z.eqb_neq _ 0)) by lia.
    rewrite Z.add_simpl_r. replace (h mod 64) with ((h - 64) mod 64); [done|].
    rewrite <- (Z.mod_add (h - 64) 1 64) by lia. f_equal. lia.
Qed.

Lemma filter_fmap_shift (P : Z -> Prop) `{forall x, Decision (P x)} (a : Z) (l : list Z) :
  filter P (Z.add a <$> l) = Z.add a <$> filter (fun h => P (a + h)) l.
Proof.
  induction l as [|x l IH]; [done|]. rewrite fmap_cons. destruct (decide (P (a + x))).
  - rewrite !filter_cons_True by done. by rewrite fmap_cons, IH.
  - rewrite !filter_cons_False by done. done.
Qed.

Lemma marked_hosts_spec bits first at_ :
  words_ok bits -> 0 <= first -> 0 <= at_ ->
  (forall h, 0 <= h -> bit_at bits h = true -> first + at_ * 64 + h <= umax 64) ->
  marked_hosts first at_ bits =
  Z.add (first + at_ * 64) <$> filter (fun h => bit_at bits h = true) (seqZ 0 (64 * zlen bits)).
Proof.
  intros Hok Hf. revert at_. induction Hok as [|word bits Hw _ IH]; intros at_ Ha Hb; cbn [marked_hosts]; [done|].
  assert (zlen (word :: bits) = 1 + zlen bits) as -> by (unfold zlen; cbn [length]; lia).
  pose proof (zlen_nonneg bits). rewrite Z.mul_add_distr_l, seqZ_app, filter_app, fmap_app by lia. f_equal.
  - rewrite word_bits_spec by done.
    assert (filter (fun h => bit_at (word :: bits) h = true) (seqZ 0 (64 * 1)) =
      filter (fun j => Z.testbit word j = true) (seqZ 0 64)) as ->.
    { apply filter_same. intros h Hh%elem_of_seqZ. rewrite bit_at_cons by lia.
      by rewrite (proj2 (Z.ltb_lt _ _)) by lia. }
    apply list_fmap_ext. intros i b Hbi. apply list_elem_of_lookup_2, list_elem_of_filter in Hbi as [Hbit Hr%elem_of_seqZ].
    specialize (Hb b). rewrite bit_at_cons, (proj2 (Z.ltb_lt _ _)) in Hb by lia.
    specialize (Hb ltac:(lia) Hbit). rewrite (wrap_small 64 (at_ * 64)) by mlia.
    rewrite (wrap_small 64 (first + _)) by mlia. by rewrite wrap_small by mlia.
  - rewrite IH; [|lia|].
    + replace (seqZ (0 + 64 * 1) (64 * zlen bits)) with (Z.add 64 <$> seqZ 0 (64 * zlen bits))
        by (rewrite fmap_add_seqZ; f_equal; lia).
      rewrite filter_fmap_shift, <- list_fmap_compose.
      assert (filter (fun h => bit_at (word :: bits) (64 + h) = true) (seqZ 0 (64 * zlen bits)) =
        filter (fun h => bit_at bits h = true) (seqZ 0 (64 * zlen bits))) as ->.
      { apply filter_same. intros h Hh%elem_of_seqZ. rewrite bit_at_cons by lia.
        rewrite (proj2 (Z.ltb_ge _ _)) by lia. by replace (64 + h - 64) with h by lia. }
      apply list_fmap_ext. intros i h _. cbn. lia.
    + intros h Hh Hbit. specialize (Hb (64 + h)). rewrite bit_at_cons, (proj2 (Z.ltb_ge _ _)) in Hb by lia.
      replace (64 + h - 64) with h in Hb by lia. specialize (Hb ltac:(lia) Hbit). lia.
Qed.

Lemma mark_spec bits host :
  words_ok bits -> 0 <= host < 64 * zlen bits ->
  words_ok (mark_host bits host) /\ zlen (mark_host bits host) = zlen bits /\
  forall h, 0 <= h -> bit_at (mark_host bits host) h = bit_at bits h || (h =? host).
Proof.
  intros Hok Hh. assert (0 <= host / 64 < zlen bits) as Hi.
  { split; [apply Z.div_pos; lia|apply Z.div_lt_upper_bound; lia]. }
  pose proof (Z.mod_pos_bound host 64 ltac:(lia)) as Hm. unfold mark_host.
  destruct (zlookup_is_Some bits (host / 64) Hi) as [word Hword]. unfold zlookup in Hword.
  rewrite (proj2 (Z.ltb_ge _ 0)) in Hword by lia. rewrite Hword.
  assert (1 <<[64] (host mod 64) = 2 ^ (host mod 64)) as ->.
  { rewrite Z.shiftl_1_l. apply wrap_small. split; [apply Z.pow_nonneg; lia|apply Z.pow_lt_mono_r; lia]. }
  assert (0 <= word < 2 ^ 64) as Hw by (eapply (Forall_lookup_1 _ _ _ _ Hok Hword)).
  assert (0 <= Z.lor word (2 ^ (host mod 64)) < 2 ^ 64) as Hlor.
  { assert (fits 64 (Z.lor word (2 ^ (host mod 64)))) as [? ?]; [|unfold umax in *; lia].
    apply lor_fits; [lia|mlia|]. assert (2 ^ (host mod 64) < 2 ^ 64) by (apply Z.pow_lt_mono_r; lia).
    assert (0 <= 2 ^ (host mod 64)) by (apply Z.pow_nonneg; lia). mlia. }
  split; [by apply Forall_insert|]. split; [unfold zlen; by rewrite length_insert|].
  intros h H0. assert (0 <= h / 64) by (apply Z.div_pos; lia).
  unfold bit_at, zlookup. rewrite (proj2 (Z.ltb_ge (h / 64) 0)) by lia.
  pose proof (Z.div_mod h 64 ltac:(lia)). pose proof (Z.div_mod host 64 ltac:(lia)).
  pose proof (Z.mod_pos_bound h 64 ltac:(lia)).
  destruct (Z.eq_dec (h / 64) (host / 64)) as [E|E].
  - rewrite E, Hword, list_lookup_insert_eq by (apply lookup_lt_Some in Hword; lia).
    rewrite Z.lor_spec. f_equal. rewrite Z.pow2_bits_eqb by lia.
    destruct (Z.eqb_spec (host mod 64) (h mod 64)), (Z.eqb_spec h host); try done; lia.
  - rewrite list_lookup_insert_ne by lia. destruct (Z.eqb_spec h host) as [->|]; [done|].
    by rewrite orb_false_r.
Qed.

Lemma mark_all_spec hosts bits :
  words_ok bits -> Forall (fun host => 0 <= host < 64 * zlen bits) hosts ->
  words_ok (fold_left mark_host hosts bits) /\ zlen (fold_left mark_host hosts bits) = zlen bits /\
  forall h, 0 <= h -> bit_at (fold_left mark_host hosts bits) h = true <-> bit_at bits h = true \/ h ∈ hosts.
Proof.
  revert bits. induction hosts as [|host hosts IH]; intros bits Hok Hh; cbn [fold_left].
  { split; [done|]. split; [done|]. intros h _. rewrite elem_of_nil. tauto. }
  inversion Hh as [|? ? H1 H2]; subst. destruct (mark_spec bits host Hok H1) as (M1 & M2 & M3).
  destruct (IH (mark_host bits host) M1) as (I1 & I2 & I3); [by rewrite M2|].
  split; [done|]. split; [by rewrite I2|]. intros h H0.
  rewrite I3, M3, orb_true_iff, Z.eqb_eq, elem_of_cons by done. tauto.
Qed.

(** ** What a numbering of hosts promises *)

Class HostRunsLaws (R : Type) `{HostRuns R} (good : R -> Prop) : Prop := {
  hr_total_fits r : good r -> fits 64 (hr_total r);
  hr_hosts_le r : good r -> 0 <= hr_hosts r <= hr_total r;
  hr_run_bounds r h : good r -> 0 <= h < hr_hosts r ->
    0 <= fst (hr_run r h) < snd (hr_run r h) /\ snd (hr_run r h) <= hr_total r;
  hr_host_of_run r p : good r -> 0 <= p < hr_total r ->
    0 <= hr_host_of r p < hr_hosts r /\
    fst (hr_run r (hr_host_of r p)) <= p < snd (hr_run r (hr_host_of r p));
  hr_run_host_of r h p : good r -> 0 <= h < hr_hosts r ->
    fst (hr_run r h) <= p < snd (hr_run r h) -> hr_host_of r p = h;
  hr_host_of_mono r p q : good r -> 0 <= p <= q -> q < hr_total r -> hr_host_of r p <= hr_host_of r q;
}.

#[export] Instance alone_laws : HostRunsLaws Alone (fun a => fits 64 (alone_total a)).
Proof.
  split; cbn; unfold fits; intros.
  - done.
  - lia.
  - rewrite wrap_small by mlia. lia.
  - rewrite wrap_small by mlia. lia.
  - rewrite wrap_small in * by mlia. lia.
  - lia.
Qed.

#[export] Instance index_laws : HostRunsLaws TargetIndex index_ok.
Proof.
  split; cbn; intros.
  - by apply idx_fits.
  - by apply idx_hosts_le.
  - pose proof (host_run_bounds r H h H0). lia.
  - by apply host_of_run.
  - by apply host_run_of.
  - by apply host_of_mono.
Qed.

Section LeftIn.
Context {R : Type} `{HostRunsLaws R good} (runs_ : R) (Hruns : good runs_).

Definition spans_of_hosts (hosts : list Z) : list (Z * Z) :=
  fold_left extend_spans (hr_run runs_ <$> hosts) [].

Lemma in_spans_of_hosts hosts p :
  Forall (fun h => 0 <= h < hr_hosts runs_) hosts -> 0 <= p < hr_total runs_ ->
  in_spans (spans_of_hosts hosts) p <-> hr_host_of runs_ p ∈ hosts.
Proof.
  intros Hh Hp. rewrite Forall_forall in Hh. unfold spans_of_hosts. rewrite extend_all_spec; [|constructor|].
  - split.
    + intros [Hn|(s & (h & -> & Hin)%list_elem_of_fmap & Hb)]; [by apply in_spans_nil in Hn|].
      by rewrite (hr_run_host_of runs_ h p Hruns (Hh h Hin) Hb).
    + intros Hin. right. exists (hr_run runs_ (hr_host_of runs_ p)).
      split; [apply list_elem_of_fmap; by eexists|]. by apply hr_host_of_run.
  - rewrite Forall_fmap. apply Forall_forall. intros h Hin. cbn.
    pose proof (hr_run_bounds runs_ h Hruns (Hh h Hin)). lia.
Qed.

Lemma spans_of_hosts_total hosts p :
  Forall (fun h => 0 <= h < hr_hosts runs_) hosts -> in_spans (spans_of_hosts hosts) p -> 0 <= p < hr_total runs_.
Proof.
  intros Hh. rewrite Forall_forall in Hh. unfold spans_of_hosts. rewrite extend_all_spec; [|constructor|].
  - intros [Hn|(s & (h & -> & Hin)%list_elem_of_fmap & Hb)]; [by apply in_spans_nil in Hn|].
    pose proof (hr_run_bounds runs_ h Hruns (Hh h Hin)). lia.
  - rewrite Forall_fmap. apply Forall_forall. intros h Hin. cbn.
    pose proof (hr_run_bounds runs_ h Hruns (Hh h Hin)). lia.
Qed.

(** The hosts of a range whose run holds a position that passes. *)
Definition hosts_with (unsettled : Z -> bool) (first last : Z) : list Z :=
  filter (fun h => existsb unsettled (span_positions (hr_run runs_ h)) = true) (seqZ first (last - first)).

Lemma host_by_host_spec first last unsettled :
  host_by_host runs_ first last unsettled = spans_of_hosts (hosts_with unsettled first last).
Proof.
  unfold host_by_host, spans_of_hosts, hosts_with. generalize (@nil (Z * Z)).
  induction (seqZ first (last - first)) as [|h l IH]; intros spans; [done|]. cbn [fold_left].
  destruct (existsb unsettled (span_positions (hr_run runs_ h))) eqn:E.
  - rewrite filter_cons_True by done. rewrite fmap_cons. cbn [fold_left]. apply IH.
  - rewrite filter_cons_False by by rewrite E. apply IH.
Qed.

Lemma elem_of_hosts_with unsettled first last h :
  0 <= first -> last <= hr_hosts runs_ ->
  h ∈ hosts_with unsettled first last <->
  first <= h < last /\ exists p, 0 <= p < hr_total runs_ /\ hr_host_of runs_ p = h /\ unsettled p = true.
Proof.
  intros Hf Hl. unfold hosts_with. rewrite list_elem_of_filter, elem_of_seqZ, existsb_elem. unfold span_positions.
  setoid_rewrite elem_of_seqZ. split.
  - intros [(p & Hp & Hu) Hh]. split; [lia|]. exists p.
    assert (0 <= h < hr_hosts runs_) as Hr by lia. pose proof (hr_run_bounds runs_ h Hruns Hr).
    split; [lia|]. split; [|done]. apply (hr_run_host_of runs_ h p Hruns); lia.
  - intros [Hh (p & Hp & <- & Hu)]. split; [|lia]. exists p.
    pose proof (hr_host_of_run runs_ p Hruns Hp) as [_ ?]. split; [lia|done].
Qed.

(** Marking and reading back the bits visits the same hosts in the same order. *)
Lemma marked_spec first hosts positions (unsettled : Z -> bool) :
  0 <= first -> 0 <= hosts -> first + hosts = hr_hosts runs_ ->
  (forall p, p ∈ positions <-> 0 <= p < hr_total runs_ /\ unsettled p = true) ->
  (forall p, p ∈ positions -> first <= hr_host_of runs_ p) ->
  marked runs_ first hosts positions = spans_of_hosts (hosts_with unsettled first (hr_hosts runs_)).
Proof.
  intros Hf Hh Hsum Hpos Hfirst. pose proof (hr_hosts_le runs_ Hruns) as Hle.
  pose proof (hr_total_fits runs_ Hruns) as Htot. unfold fits in Htot.
  assert (forall p, p ∈ positions -> 0 <= hr_host_of runs_ p - first < hosts) as Hrange.
  { intros p Hp. specialize (Hfirst p Hp). apply Hpos in Hp as [Hp _].
    pose proof (hr_host_of_run runs_ p Hruns Hp) as [? _]. lia. }
  set (bits0 := replicate (Z.to_nat ((hosts + 63) / 64)) 0).
  assert (zlen bits0 = (hosts + 63) / 64) as Hlen.
  { unfold zlen, bits0. rewrite length_replicate. assert (0 <= (hosts + 63) / 64) by (apply Z.div_pos; lia). lia. }
  assert (hosts <= 64 * zlen bits0) as Hcap.
  { rewrite Hlen. pose proof (Z.div_mod (hosts + 63) 64 ltac:(lia)). pose proof (Z.mod_pos_bound (hosts + 63) 64 ltac:(lia)). lia. }
  assert (words_ok bits0) as Hok0 by (apply Forall_replicate; lia).
  assert (forall h, bit_at bits0 h = false) as Hzero.
  { intros h. unfold bit_at, zlookup, bits0. destruct (_ <? 0); [done|].
    destruct (_ !! _) eqn:E; [|done]. apply lookup_replicate in E as [-> _]. apply Z.bits_0. }
  set (hs := (fun p => hr_host_of runs_ p - first) <$> positions).
  assert (fold_left (fun bits position => mark_host bits (hr_host_of runs_ position -[64] first)) positions bits0 =
    fold_left mark_host hs bits0) as Efold.
  { unfold hs. clear -Hrange Hle Htot Hsum Hf Hh. revert Hrange. generalize bits0. induction positions as [|p l IH]; intros bits Hr; [done|].
    rewrite fmap_cons. cbn [fold_left]. rewrite wrap_small by (pose proof (Hr p ltac:(by left)); mlia).
    apply IH. intros q Hq. apply Hr. by right. }
  destruct (mark_all_spec hs bits0 Hok0) as (M1 & M2 & M3).
  { unfold hs. rewrite Forall_fmap. apply Forall_forall. intros p Hp. cbn. specialize (Hrange p Hp). lia. }
  unfold marked. fold bits0. rewrite Efold. set (bits := fold_left mark_host hs bits0) in *.
  assert (forall h, 0 <= h -> bit_at bits h = true <-> exists p, p ∈ positions /\ hr_host_of runs_ p = first + h) as Hbits.
  { intros h Hh0. rewrite M3, Hzero by done. unfold hs. rewrite list_elem_of_fmap. split.
    - intros [?|(p & -> & Hp)]; [done|]. exists p. split; [done|lia].
    - intros (p & Hp & E). right. exists p. split; [lia|done]. }
  rewrite marked_hosts_spec; [|done|done|lia|].
  2:{ intros h Hh0 Hb. apply Hbits in Hb as (p & Hp & E); [|done]. specialize (Hrange p Hp). unfold umax in *. lia. }
  rewrite Z.mul_0_l, Z.add_0_r, M2. unfold spans_of_hosts.
  assert (Z.add first <$> filter (fun h => bit_at bits h = true) (seqZ 0 (64 * zlen bits0)) =
    hosts_with unsettled first (hr_hosts runs_)) as ->.
  { replace (64 * zlen bits0) with (hosts + (64 * zlen bits0 - hosts)) by lia.
    rewrite seqZ_app, filter_app by lia. rewrite (filter_none _ (seqZ (0 + hosts) _)), app_nil_r.
    2:{ intros h Hh'%elem_of_seqZ Hb. apply Hbits in Hb as (p & Hp & E); [|lia]. specialize (Hrange p Hp). lia. }
    unfold hosts_with. replace (seqZ first (hr_hosts runs_ - first)) with (Z.add first <$> seqZ 0 hosts)
      by (rewrite fmap_add_seqZ; f_equal; lia).
    rewrite filter_fmap_shift. f_equal. apply filter_same. intros h Hh'%elem_of_seqZ. rewrite Hbits by lia.
    rewrite existsb_elem. unfold span_positions. setoid_rewrite elem_of_seqZ. split.
    - intros (p & Hp & E). exists p. apply Hpos in Hp as [Hp Hu].
      pose proof (hr_host_of_run runs_ p Hruns Hp) as [_ Hr]. rewrite E in Hr. split; [lia|done].
    - intros (p & Hp & Hu). exists p. assert (0 <= first + h < hr_hosts runs_) as Hfh by lia.
      pose proof (hr_run_bounds runs_ (first + h) Hruns Hfh).
      split; [apply Hpos; split; [lia|done]|]. apply (hr_run_host_of runs_ _ p Hruns); lia. }
  clear. generalize (@nil (Z * Z)). induction (hosts_with _ _ _) as [|h l IH]; intros spans; [done|].
  rewrite fmap_cons. cbn [fold_left]. apply IH.
Qed.
(** The test [left_along] makes of a position, whichever way it goes. *)
Definition left_test (cp : Checkpoint) (w : Walked) (p : Z) : bool :=
  (cp_watermark cp <=? p) && negb (is_ok (binary_search_z p (cp_settled_above cp))) &&
  negb (is_some_and (index_of (walked_order w) p) (fun index => index <? w_reached w)).

Lemma left_test_spec cp w p :
  checkpoint_ok cp ->
  left_test cp w p = true <-> cp_watermark cp <= p /\ p ∉ cp_settled_above cp /\ covers w p = false.
Proof.
  intros Hcp. unfold left_test. fold (covers w p).
  rewrite !andb_true_iff, !negb_true_iff, Z.leb_le, <- (not_true_iff_false (is_ok _)), listed_spec by done. tauto.
Qed.

(** The positions the first branch marks are those that pass the test. *)
Lemma tail_positions cp w p :
  checkpoint_ok cp -> walked_ok w ->
  p ∈ filter (fun position => is_ok (binary_search_z position (cp_settled_above cp)) = false)
        (filter (fun position => cp_watermark cp <= position < hr_total runs_)
           (perm_iter_from (walked_order w) (w_reached w))) ++
      (gaps_from cp (Z.max (w_len w) (cp_watermark cp)) (hr_total runs_) ≫= span_positions) <->
  0 <= p < hr_total runs_ /\ left_test cp w p = true.
Proof.
  intros Hcp Hw. pose proof (walked_order_wf w Hw) as Hwf. pose proof (cpo_watermark cp Hcp) as [Hm _].
  pose proof (hr_total_fits runs_ Hruns) as [_ Htot]. destruct Hw as (_ & _ & Hr).
  rewrite elem_of_app, !list_elem_of_filter, elem_of_span_positions, gaps_from_spec by done.
  rewrite left_test_spec by done. rewrite <- (not_true_iff_false (is_ok _)), listed_spec by done.
  rewrite elem_of_iter_from by (done || lia). unfold covers.
  assert (0 <= p -> (exists i, w_reached w <= i /\ at_ (walked_order w) i = Some p) <->
    p < w_len w /\ is_some_and (index_of (walked_order w) p) (fun index => index <? w_reached w) = false) as Hwalk.
  { intros Hp. split.
    - intros (i & Hi & Hat). apply at_Some in Hat as Hb; [|done|lia]. cbn in Hb. split; [lia|].
      apply index_of_at in Hat; [|done|lia|done]. rewrite Hat. cbn. lia.
    - intros [Hlt Hn]. destruct (index_of (walked_order w) p) as [i|] eqn:E.
      + exists i. cbn in Hn. split; [lia|]. apply index_of_Some in E as Hb; [|done|done].
        apply index_of_at in E; [done|done|lia|done].
      + unfold index_of, then_some in E. cbn in E. by rewrite (proj2 (Z.ltb_lt _ _)) in E. }
  assert (w_len w <= p -> is_some_and (index_of (walked_order w) p) (fun index => index <? w_reached w) = false) as Hout.
  { intros Hge. unfold index_of, then_some. cbn. by rewrite (proj2 (Z.ltb_ge _ _)). }
  split.
  - intros [(Hn & Hb & Hi)|(Hb & Hn)].
    + apply Hwalk in Hi as [? ?]; [|lia]. split; [lia|]. split; [lia|done].
    + split; [lia|]. split; [lia|]. split; [done|]. apply Hout. lia.
  - intros (Hp & Hge & Hn & Hc). destruct (Z.lt_ge_cases p (w_len w)).
    + left. split; [done|]. split; [lia|]. by apply Hwalk; [lia|].
    + right. split; [lia|done].
Qed.

Lemma left_along_hosts cp w :
  checkpoint_ok cp -> walked_ok w -> cp_watermark cp < hr_total runs_ ->
  left_along runs_ cp w =
  spans_of_hosts (hosts_with (left_test cp w) (hr_host_of runs_ (cp_watermark cp)) (hr_hosts runs_)).
Proof.
  intros Hcp Hw Hlt. pose proof (cpo_watermark cp Hcp) as [Hm _].
  assert (0 <= cp_watermark cp < hr_total runs_) as Hwm by lia.
  pose proof (hr_host_of_run runs_ _ Hruns Hwm) as [Hfirst _]. pose proof (hr_hosts_le runs_ Hruns).
  pose proof (hr_total_fits runs_ Hruns). unfold left_along. rewrite (proj2 (Z.leb_gt _ _)) by done. cbv zeta.
  destruct (reads_the_tail _ _ _); [|apply host_by_host_spec].
  rewrite (wrap_small 64 (hr_hosts runs_ - _)) by mlia. apply marked_spec; [lia|lia|lia| |].
  - intros p. by apply tail_positions.
  - intros p Hp. apply tail_positions in Hp as [Hp Ht]; [|done|done].
    apply left_test_spec in Ht as [Hge _]; [|done]. apply hr_host_of_mono; [done|lia|lia].
Qed.

(** What is left: alone, the unsettled positions; along a walk, every position
    of a host that has one. *)
Lemma left_in_spec cp p :
  checkpoint_ok cp ->
  in_spans (left_in runs_ cp) p <->
  0 <= p < hr_total runs_ /\
  match cp_walked cp with
  | None => unsettled_at cp p
  | Some _ => exists q, 0 <= q < hr_total runs_ /\ hr_host_of runs_ q = hr_host_of runs_ p /\ unsettled_at cp q
  end.
Proof.
  intros Hcp. pose proof (cpo_watermark cp Hcp) as [Hm _]. pose proof (hr_total_fits runs_ Hruns) as [_ Htot].
  unfold left_in. destruct (cp_walked cp) as [w|] eqn:Ew.
  - destruct (cpo_walked cp Hcp w Ew) as (W1 & W2 & W3 & W4).
    pose proof (clamped_ok w (cp_watermark cp) W1 W2 W3) as Hw.
    destruct (Z.le_gt_cases (hr_total runs_) (cp_watermark cp)) as [Hge|Hlt].
    { unfold left_along. rewrite (proj2 (Z.leb_le _ _)) by done. split; [intros Hn; by apply in_spans_nil in Hn|].
      intros (_ & q & Hq & _ & Hu). apply unsettled_spec in Hu as [? _]; [lia|done]. }
    rewrite left_along_hosts by done.
    assert (0 <= cp_watermark cp < hr_total runs_) as Hwm by lia.
    pose proof (hr_host_of_run runs_ _ Hruns Hwm) as [Hfirst _].
    assert (Forall (fun h => 0 <= h < hr_hosts runs_) (hosts_with (left_test cp (clamped w (cp_watermark cp)))
      (hr_host_of runs_ (cp_watermark cp)) (hr_hosts runs_))) as Hall.
    { apply Forall_forall. intros h Hh. apply elem_of_hosts_with in Hh as [? _]; lia. }
    assert (forall q, 0 <= q -> left_test cp (clamped w (cp_watermark cp)) q = true <-> unsettled_at cp q) as Htest.
    { intros q Hq. rewrite left_test_spec, unsettled_spec by done. rewrite covers_clamped by done.
      split; [|naive_solver]. intros (? & ? & ?). split; [done|]. split; [done|]. intros w'. rewrite Ew. by intros [= <-]. }
    split.
    + intros Hin. pose proof (spans_of_hosts_total _ p Hall Hin) as Hp. split; [done|].
      apply in_spans_of_hosts in Hin; [|done|done].
      apply elem_of_hosts_with in Hin as [_ (q & Hq & E & Ht)]; [|lia|lia].
      exists q. split; [done|]. split; [done|]. apply Htest; [lia|done].
    + intros [Hp (q & Hq & E & Hu)]. apply in_spans_of_hosts; [done|done|].
      apply elem_of_hosts_with; [lia|lia|].
      assert (cp_watermark cp <= q) as Hge by (apply unsettled_spec in Hu as [? _]; done).
      pose proof (hr_host_of_run runs_ p Hruns Hp) as [? _].
      assert (0 <= cp_watermark cp <= q) as Hwq by lia.
      pose proof (hr_host_of_mono runs_ (cp_watermark cp) q Hruns Hwq (proj2 Hq)).
      split; [lia|]. exists q. split; [done|]. split; [done|]. apply Htest; [lia|done].
  - rewrite gaps_from_spec, unsettled_spec by done. rewrite Ew. split.
    + intros [Hp Hn]. split; [lia|]. split; [lia|]. split; [done|]. by intros w.
    + intros (Hp & Hge & Hn & _). split; [lia|done].
Qed.
Lemma left_in_valid cp :
  checkpoint_ok cp -> Forall (fun s => 0 <= fst s < snd s /\ snd s <= hr_total runs_) (left_in runs_ cp).
Proof.
  intros Hcp. assert (Forall (fun s => fst s < snd s) (left_in runs_ cp)) as Hne.
  { unfold left_in. destruct (cp_walked cp) as [w|] eqn:Ew.
    - destruct (cpo_walked cp Hcp w Ew) as (W1 & W2 & W3 & W4).
      destruct (Z.le_gt_cases (hr_total runs_) (cp_watermark cp)) as [Hge|Hlt].
      { unfold left_along. rewrite (proj2 (Z.leb_le _ _)) by done. constructor. }
      pose proof (cpo_watermark cp Hcp) as [Hm _].
      assert (0 <= cp_watermark cp < hr_total runs_) as Hwm by lia.
      pose proof (hr_host_of_run runs_ _ Hruns Hwm) as [Hfirst _].
      rewrite left_along_hosts by (done || by apply clamped_ok).
      apply extend_all_nonempty; [constructor|]. rewrite Forall_fmap. apply Forall_forall. intros h Hh.
      apply elem_of_hosts_with in Hh as [Hh _]; [|lia|lia]. cbn.
      assert (0 <= h < hr_hosts runs_) as Hb by lia. pose proof (hr_run_bounds runs_ h Hruns Hb). lia.
    - unfold gaps_from. apply Forall_forall. by intros s [? _]%list_elem_of_filter. }
  rewrite Forall_forall in Hne |- *. intros s Hs. specialize (Hne s Hs).
  assert (in_spans (left_in runs_ cp) (fst s)) as H1 by (exists s; split; [done|lia]).
  assert (in_spans (left_in runs_ cp) (snd s - 1)) as H2 by (exists s; split; [done|lia]).
  apply left_in_spec in H1 as [H1 _]; [|done]. apply left_in_spec in H2 as [H2 _]; [|done]. lia.
Qed.
End LeftIn.

(** ** Claims *)

(** The two ways of finding what is left agree.  Whether the walk's tail is
    marked in a bit vector or every host is tried in turn, for any lawful
    numbering of hosts, the spans are the same list. *)
Theorem marking_agrees_with_trying {R : Type} `{HostRunsLaws R good} (runs_ : R) (cp : Checkpoint) (w : Walked) :
  good runs_ -> checkpoint_ok cp -> walked_ok w -> cp_watermark cp < hr_total runs_ ->
  left_along runs_ cp w =
  host_by_host runs_ (hr_host_of runs_ (cp_watermark cp)) (hr_hosts runs_) (left_test cp w).
Proof.
  intros Hr Hcp Hw Hlt. rewrite (left_along_hosts runs_ Hr) by done. symmetry. apply host_by_host_spec.
Qed.

Definition sample_checkpoint : Checkpoint := mkCheckpoint 2 [4; 9] (Some (mkWalked 7 20 9 8)).

Lemma sample_checkpoint_ok : checkpoint_ok sample_checkpoint.
Proof.
  split.
  - apply fitsb_spec. reflexivity.
  - repeat constructor.
  - repeat constructor; vm_compute; congruence.
  - intros w [= <-]. repeat split; vm_compute; congruence.
Qed.

Lemma marking_agrees_with_trying_witness :
  let w := mkWalked 7 20 18 8 in
  reads_the_tail 2 20 18 = true /\
  left_along (mkAlone 22) sample_checkpoint w =
    host_by_host (mkAlone 22) (hr_host_of (mkAlone 22) (cp_watermark sample_checkpoint))
      (hr_hosts (mkAlone 22)) (left_test sample_checkpoint w) /\
  left_along (mkAlone 22) sample_checkpoint w <> [].
Proof.
  intros w.
  assert (fits 64 (alone_total (mkAlone 22))) as Hr by (apply fitsb_spec; reflexivity).
  assert (walked_ok w) as Hw by (repeat split; vm_compute; congruence).
  split; [reflexivity|]. split; [|vm_compute; congruence].
  apply (marking_agrees_with_trying (good := fun a => fits 64 (alone_total a))
    (mkAlone 22) sample_checkpoint w Hr sample_checkpoint_ok Hw).
  vm_compute. reflexivity.
Defined.

(** What a canonical set built from ranges holds. *)
Lemma contains_inserted ranges ip :
  Forall range_ok ranges ->
  contains (canonicalize (fold_left insert_range ranges ipset_new)) ip = true <->
  exists r, r ∈ ranges /\ range_contains r ip = true.
Proof.
  intros Hr. destruct (insert_ranges_spec ranges ipset_new ipset_new_ok Hr) as [H1 H2].
  rewrite contains_member, canonicalize_member by (done || by apply canonicalize_canon).
  unfold member. setoid_rewrite H2. split.
  - intros (zone & [Hn|(r & Hin & _ & Hc)]); [by apply new_holds_nothing in Hn|by exists r].
  - intros (r & Hin & Hc). exists (range_zone r). right. by exists r.
Qed.

Lemma unnumbered_ok s : ipset_ok s -> Forall range_ok (unnumbered (positions_of s)).
Proof.
  intros Hs. pose proof (positions_of_ok s Hs) as Hp. pose proof (pok_range_ok _ _ Hp) as H.
  rewrite (pok_ranges _ _ Hp) in H. by apply Forall_app in H as [_ ?].
Qed.

(** Ranges gathered span by span. *)
Lemma ranges_of_spans spans (f : Z * Z -> list IpRange) (at_ : Z -> option IpAddr) :
  (forall s, s ∈ spans -> Forall range_ok (f s) /\ forall ip,
     (exists r, r ∈ f s /\ range_contains r ip = true) <-> exists p, fst s <= p < snd s /\ at_ p = Some ip) ->
  Forall range_ok (spans ≫= f) /\ forall ip,
    (exists r, r ∈ spans ≫= f /\ range_contains r ip = true) <-> exists p, in_spans spans p /\ at_ p = Some ip.
Proof.
  intros Hf. split.
  - apply Forall_forall. intros r (s & Hr & Hs)%list_elem_of_bind. destruct (Hf s Hs) as [Hok _].
    rewrite Forall_forall in Hok. by apply Hok.
  - intros ip. split.
    + intros (r & (s & Hr & Hs)%list_elem_of_bind & Hc). destruct (Hf s Hs) as [_ Hip].
      destruct (proj1 (Hip ip)) as (p & Hp & E); [by exists r|]. exists p. split; [by exists s|done].
    + intros (p & (s & Hs & Hp) & E). destruct (Hf s Hs) as [_ Hip].
      destruct (proj2 (Hip ip)) as (r & Hr & Hc); [by exists p|]. exists r. split; [|done].
      apply list_elem_of_bind. by exists s.
Qed.

Lemma ranges_in_addresses s first last :
  ipset_ok s -> 0 <= first < last -> last <= pos_total (positions_of s) ->
  Forall range_ok (ranges_in (positions_of s) first last) /\ forall ip,
    (exists r, r ∈ ranges_in (positions_of s) first last /\ range_contains r ip = true) <->
    exists p, first <= p < last /\ address_at (positions_of s) p = Some ip.
Proof.
  intros Hs Hf Hl. destruct (ranges_in_iter s Hs first last (proj1 Hf)) as [R1 R2]. split; [done|]. intros ip.
  rewrite contains_range_scoped, R2, Z.min_l, fmap_zslice, <- ipset_iter_scoped, elem_of_zlookup by done.
  split.
  - intros [j Hj]. rewrite zlookup_zslice in Hj by lia.
    destruct ((0 <=? j) && (j <? last - first)) eqn:Ej; [|done]. exists (first + j). split; [lia|].
    rewrite address_at_iter by (done || lia). by rewrite (proj2 (Z.ltb_lt _ _)) by lia.
  - intros (p & Hp & Ea). exists (p - first). rewrite zlookup_zslice by lia.
    rewrite (proj2 (Z.leb_le _ _)), (proj2 (Z.ltb_lt _ _)) by lia. cbn [andb].
    rewrite address_at_iter, (proj2 (Z.ltb_lt _ _)) in Ea by (done || lia).
    by replace (first + (p - first)) with p by lia.
Qed.

(** The addresses a sitting has left are exactly those at an unsettled
    position, with whatever the numbering left out added back. *)
Theorem remaining_addresses_exact (cp : Checkpoint) (s : IpSet) (ip : IpAddr) :
  checkpoint_ok cp -> ipset_ok s ->
  contains (remaining_addresses cp (positions_of s)) ip = true <->
  (exists p, 0 <= p /\ address_at (positions_of s) p = Some ip /\ cp_is_settled cp p = false) \/
  (exists r, r ∈ unnumbered (positions_of s) /\ range_contains r ip = true).
Proof.
  intros Hcp Hs. pose proof (positions_total_fits s Hs) as Hfit. set (total := pos_total (positions_of s)) in *.
  assert (forall p, in_spans (unsettled_spans cp total) p <-> 0 <= p < total /\ cp_is_settled cp p = false) as Hspan.
  { intros p. unfold unsettled_spans. rewrite (left_in_spec (good := fun a => fits 64 (alone_total a))) by done.
    cbn. destruct (cp_walked cp); [|done]. unfold unsettled_at. split; [|naive_solver].
    intros [Hp (q & Hq & <- & Hu)]. done. }
  pose proof (left_in_valid (good := fun a => fits 64 (alone_total a)) (mkAlone total) Hfit cp Hcp) as Hv.
  rewrite Forall_forall in Hv. cbn [hr_total alone_runs alone_total] in Hv.
  destruct (ranges_of_spans (unsettled_spans cp total) (fun '(first, last) => ranges_in (positions_of s) first last)
    (address_at (positions_of s))) as [Hok Hleft].
  { intros [first last] Hin. specialize (Hv _ Hin). cbn [fst snd] in *. apply ranges_in_addresses; [done|lia|lia]. }
  unfold remaining_addresses. fold total. rewrite contains_inserted.
  - setoid_rewrite elem_of_app. transitivity
      ((exists r, r ∈ (unsettled_spans cp total ≫= fun '(first, last) => ranges_in (positions_of s) first last) /\
         range_contains r ip = true) \/ exists r, r ∈ unnumbered (positions_of s) /\ range_contains r ip = true).
    { split; [intros (r & [?|?] & ?); [left|right]; by exists r|intros [(r & ? & ?)|(r & ? & ?)]; exists r; auto]. }
    rewrite Hleft. setoid_rewrite Hspan. apply or_iff_compat_r. split.
    + intros (p & [Hp Hu] & E). exists p. split; [lia|done].
    + intros (p & Hp & E & Hu). exists p. split; [|done]. split; [|done].
      rewrite address_at_iter in E by done. destruct (Z.ltb_spec p (pos_total (positions_of s))); [|done]. subst total. lia.
  - apply Forall_app. split; [done|]. by apply unnumbered_ok.
Qed.

Lemma remaining_addresses_exact_witness :
  cp_is_settled sample_checkpoint 1 = true /\
  contains (remaining_addresses sample_checkpoint (positions_of sample_set)) (V4 10) = false /\
  exists p, cp_is_settled sample_checkpoint p = false /\
    contains (remaining_addresses sample_checkpoint (positions_of sample_set)) (V6 7) = true.
Proof.
  split; [vm_compute; reflexivity|]. split; [vm_compute; reflexivity|]. exists 7.
  split; [vm_compute; reflexivity|].
  apply (remaining_addresses_exact sample_checkpoint sample_set (V6 7) sample_checkpoint_ok sample_set_ok).
  left. exists 7. split; [lia|]. split; vm_compute; reflexivity.
Defined.

Lemma left_out_ok_ranges l : Forall targetset_ok l -> Forall range_ok (left_out_of l).
Proof.
  intros Hl. rewrite Forall_forall in Hl. apply Forall_forall. unfold left_out_of.
  intros r (ts & Hr & [_ Hts]%list_elem_of_filter)%list_elem_of_bind. destruct (Hl ts Hts) as [(H4 & H6 & _) _].
  rewrite Forall_forall in H4. rewrite Forall_forall in H6. unfold set_ranges in Hr.
  apply elem_of_app in Hr as [(q & -> & Hq)%list_elem_of_fmap|(q & -> & Hq)%list_elem_of_fmap]; [by apply H4|by apply H6].
Qed.

(** The hosts a sitting has left.  An address is asked about again exactly
    when one of its targets is at an unsettled position, or it belongs to a unit
    the index could not number. *)
Theorem remaining_hosts_exact (cp : Checkpoint) (m : TargetMap) (ip : IpAddr) :
  checkpoint_ok cp -> targetmap_ok m ->
  contains (remaining_hosts cp (index_of_map m)) ip = true <->
  (exists p t, 0 <= p /\ target_at (index_of_map m) p = Some t /\ t_ip t = ip /\ cp_is_settled cp p = false) \/
  (exists r, r ∈ ti_unnumbered (index_of_map m) /\ range_contains r ip = true).
Proof.
  intros Hcp Hm. destruct (index_of_map_spec m Hm) as (Hi & taken & left_ & E1 & _ & _ & E4 & _).
  set (i := index_of_map m) in *. pose proof (left_in_valid i Hi cp Hcp) as Hv. rewrite Forall_forall in Hv.
  cbn [hr_total index_runs] in Hv. pose proof (idx_fits i Hi) as [_ Hfit].
  destruct (ranges_of_spans (left_in i cp) (fun '(first, last) => addresses_in i first last)
    (fun p => t_ip <$> target_at i p)) as [Hok Hleft].
  { intros [first last] Hin. specialize (Hv _ Hin). cbn [fst snd] in *.
    assert (fits 64 first) as Hf by (unfold fits; lia).
    split; [by apply (addresses_in_spec i Hi first last (V4 0))|]. intros a.
    rewrite (proj2 (addresses_in_spec i Hi first last a Hf)). split.
    - intros (p & t & Hp & Et & <-). exists p. split; [done|]. by rewrite Et.
    - intros (p & Hp & (t & Et & ->)%fmap_Some). by exists p, t. }
  assert (Forall range_ok (ti_unnumbered i)) as Hun.
  { rewrite E4. apply left_out_ok_ranges. unfold targetmap_ok in Hm. rewrite E1 in Hm. by apply Forall_app in Hm as [_ ?]. }
  unfold remaining_hosts. rewrite contains_inserted by by apply Forall_app.
  transitivity ((exists r, r ∈ (left_in i cp ≫= fun '(first, last) => addresses_in i first last) /\
     range_contains r ip = true) \/ exists r, r ∈ ti_unnumbered i /\ range_contains r ip = true).
  { setoid_rewrite elem_of_app.
    split; [intros (r & [?|?] & ?); [left|right]; by exists r|intros [(r & ? & ?)|(r & ? & ?)]; exists r; auto]. }
  rewrite Hleft. apply or_iff_compat_r. split.
  - intros (p & Hin & Ea). apply left_in_spec in Hin as [Hp Hmatch]; [|done|done]. cbn in Hp, Hmatch.
    destruct (cp_walked cp) as [w|].
    + destruct Hmatch as (q & Hq & Eh & Hu). exists q. 
      destruct (same_host_same_address i Hi q p Hq Hp Eh) as (t & t' & Et & Et' & Eip).
      exists t. rewrite Et' in Ea. cbn in Ea. split; [lia|]. split; [done|]. split; [congruence|done].
    + apply fmap_Some in Ea as (t & Et & ->). exists p, t. split; [lia|done].
  - intros (p & t & Hp & Et & <- & Hu). exists p. split; [|by rewrite Et].
    assert (0 <= p < ti_total i) as Hpt.
    { rewrite (target_at_spec i Hi) in Et by done. apply zlookup_Some_lt in Et. rewrite (idx_items_len i Hi) in Et. lia. }
    apply left_in_spec; [done|done|]. cbn. split; [done|]. destruct (cp_walked cp); [by exists p|done].
Qed.

Lemma remaining_hosts_exact_witness :
  cp_is_settled sample_checkpoint 6 = false /\
  contains (remaining_hosts sample_checkpoint (index_of_map sample_map)) (V4 7) = false /\
  contains (remaining_hosts sample_checkpoint (index_of_map sample_map)) (V4 11) = true.
Proof.
  split; [vm_compute; reflexivity|]. split; [vm_compute; reflexivity|].
  apply (remaining_hosts_exact sample_checkpoint sample_map (V4 11) sample_checkpoint_ok sample_map_ok).
  left. exists 6, (mkTarget (V4 11) 9 Sctp). split; [lia|].
  split; [vm_compute; reflexivity|]. split; [reflexivity|vm_compute; reflexivity].
Defined.

Lemma elem_of_remaining cp targets p t :
  zlen targets <= umax 64 ->
  mkPlanned p t ∈ remaining cp targets <-> zlookup targets p = Some t /\ cp_is_settled cp p = false.
Proof.
  intros Hlen. unfold remaining. rewrite list_elem_of_filter, elem_of_lookup_imap. cbn [pt_position]. split.
  - intros [Hu (n & x & E & Hn)]. apply lookup_lt_Some in Hn as Hlt. unfold zlen in Hlen.
    rewrite wrap_small in E by mlia. injection E as -> ->. split; [|done].
    unfold zlookup. rewrite (proj2 (Z.ltb_ge _ _)) by lia. by rewrite Nat2Z.id.
  - intros [Hp Hu]. split; [done|]. pose proof (zlookup_Some_lt _ _ _ Hp) as Hb. exists (Z.to_nat p), t.
    rewrite Z2Nat.id, wrap_small by mlia. split; [done|]. unfold zlookup in Hp.
    by rewrite (proj2 (Z.ltb_ge _ _)) in Hp by lia.
Qed.

(** C1: A resumed scan asks what the first left, and nothing else.  Take a plan that the
    index holds whole, so of at most 2^64 - 1 targets (an IPv6 /64 with one port is one too
    many, and not covered here), any walk of it and any positions settled on the way; the
    targets a later sitting takes from the checkpoint are exactly the plan's targets at the
    other positions, each under the position the index gives it. *)
Theorem resume_asks_the_rest (m : TargetMap) (order : option Permutation) (positions : list Z) (p : Z) (t : Target) :
  targetmap_ok m -> ti_complete (index_of_map m) = true ->
  order_wf order -> Forall (fun q => 0 <= q < umax 64) positions -> 0 <= p ->
  mkPlanned p t ∈ remaining (checkpoint (fold_left settle positions (cursor_start order))) (targetmap_iter m) <->
  target_at (index_of_map m) p = Some t /\ p ∉ positions.
Proof.
  intros Hm Hc Ho Hp H0. destruct (index_of_map_spec m Hm) as (Hi & taken & left_ & E1 & E2 & E3 & _ & _).
  rewrite Hc in E3. symmetry in E3. apply is_nil_spec in E3. subst left_. rewrite app_nil_r in E1. subst taken.
  pose proof (idx_items_len _ Hi) as Hlen. pose proof (idx_fits _ Hi) as [_ Hf].
  fold (targetmap_iter m) in E2. rewrite E2 in Hlen.
  rewrite elem_of_remaining by lia. rewrite (target_at_spec _ Hi p H0), E2.
  destruct (cursor_start_tight order Ho) as [S1 S2].
  destruct (settle_all_spec positions _ S1 Hp) as [H1 H2]. pose proof (ti_loose _ H1) as Hl.
  rewrite checkpoint_settled by done. rewrite <- not_true_iff_false, is_settled_spec, H2 by done.
  specialize (S2 p H0). tauto.
Qed.

Lemma resume_asks_the_rest_witness :
  mkPlanned 4 (mkTarget (V4 10) 9 Sctp) ∈
    remaining (checkpoint (fold_left settle [0; 3; 9] (cursor_start (Some (perm_new 3 23))))) (targetmap_iter sample_map).
Proof.
  apply (resume_asks_the_rest sample_map (Some (perm_new 3 23)) [0; 3; 9] 4 (mkTarget (V4 10) 9 Sctp) sample_map_ok).
  - vm_compute. reflexivity.
  - apply new_wf; apply fitsb_spec; reflexivity.
  - repeat constructor; vm_compute; congruence.
  - lia.
  - split; [vm_compute; reflexivity|]. rewrite !not_elem_of_cons. repeat split; [lia..|apply not_elem_of_nil].
Defined.
