(* ===== verification/Settle.v ===== *)
(** * Settlements

    [src/src/journal/settle.rs]: what became of each target of one sitting, as a
    cursor behind a mutex and one atomic counter per outcome, recorded by many
    tasks at once.  A call is a sequence of atomic actions (a counter's
    [fetch_add], a pass through the mutex); the tasks interleave at actions.  The
    theorems hold of every interleaving.  [Locking] shows that a pass through the mutex,
    taken, used and let go step by step, may be taken for one action. *)

From Stdlib Require Import ZArith Lia.
From stdpp Require Import base numbers sets gmap fin_sets sorting option list relations.
From S2P Require Import Prelude Std Numbering Order Cursor Checkpoint.

Local Open Scope Z_scope.
Local Open Scope word_scope.

(** ** Definitions *)

Inductive Outcome :=
  | Answered (position : Z)
  | Exhausted (position : Z)
  | Skipped (position : Z)
  | Withheld (position : Z)
  | Unreachable (position : Z)
  | Interrupted
  | Unasked
  | Unroutable
  | Undecided.

(** [Settled]: an outcome before its position is known. *)
Inductive Settled := SettledAnswered | SettledExhausted.

(** [Settled::at]. *)
Definition settled_at (s : Settled) (position : Z) : Outcome :=
  match s with SettledAnswered => Answered position | SettledExhausted => Exhausted position end.

Definition settled_position (o : Outcome) : option Z :=
  match o with
  | Answered position | Exhausted position | Skipped position | Withheld position
  | Unreachable position => Some position
  | Interrupted | Unasked | Unroutable | Undecided => None
  end.

Definition outcome_is_settled (o : Outcome) : bool := bool_decide (is_Some (settled_position o)).

(** Which counter an outcome belongs to. *)
Inductive Kind :=
  | KAnswered | KExhausted | KSkipped | KWithheld | KUnreachable
  | KInterrupted | KUnasked | KUnroutable | KUndecided.

#[export] Instance Kind_eq_dec : EqDecision Kind.
Proof. solve_decision. Defined.

Definition counter_of (o : Outcome) : Kind :=
  match o with
  | Answered _ => KAnswered
  | Exhausted _ => KExhausted
  | Skipped _ => KSkipped
  | Withheld _ => KWithheld
  | Unreachable _ => KUnreachable
  | Interrupted => KInterrupted
  | Unasked => KUnasked
  | Unroutable => KUnroutable
  | Undecided => KUndecided
  end.

Record Settlements := mkSettlements {
  s_cursor : Cursor;
  s_counters : Kind -> Z;
}.

Definition settlements_default : Settlements := mkSettlements cursor_new (fun _ => 0).

(** [Settlements::resuming]. *)
Definition resuming (cp : Checkpoint) : Settlements := mkSettlements (from_checkpoint cp) (fun _ => 0).

(** [Settlements::walking]. *)
Definition settlements_walking (cp : Checkpoint) (order : option Permutation) : Settlements :=
  let cursor := from_checkpoint cp in
  mkSettlements (match order with Some order => along cursor order | None => cursor end) (fun _ => 0).

(** [AtomicU64::fetch_add], which wraps. *)
Definition fetch_add (s : Settlements) (o : Outcome) (n : Z) : Settlements :=
  mkSettlements (s_cursor s)
    (fun k => if decide (k = counter_of o) then s_counters s k +[64] n else s_counters s k).

Definition with_cursor (s : Settlements) (f : Cursor -> Cursor) : Settlements :=
  mkSettlements (f (s_cursor s)) (s_counters s).

Definition walk_along (s : Settlements) (order : Permutation) : Settlements :=
  with_cursor s (fun cursor => along cursor order).

Definition record (s : Settlements) (o : Outcome) : Settlements :=
  let s := fetch_add s o 1 in
  match settled_position o with
  | Some position => with_cursor s (fun cursor => settle cursor position)
  | None => s
  end.

Definition record_unsettled (s : Settlements) (o : Outcome) : Settlements :=
  match settled_position o with
  | None => s
  | Some position =>
      let fresh := negb (cursor_is_settled (s_cursor s) position) in
      let s := with_cursor s (fun cursor => settle cursor position) in
      if fresh then fetch_add s o 1 else s
  end.

Definition record_many (s : Settlements) (o : Outcome) (count : Z) : Settlements := fetch_add s o count.

Definition settlements_checkpoint (s : Settlements) : Checkpoint := checkpoint (s_cursor s).

Definition settlements_settled_count (s : Settlements) : Z := settled_count (s_cursor s).

Definition settlements_is_settled (s : Settlements) (position : Z) : bool := cursor_is_settled (s_cursor s) position.

Definition outcome_count (s : Settlements) (o : Outcome) : Z := s_counters s (counter_of o).

(** ** Tasks that interleave *)

(** The calls a task makes. *)
Inductive call :=
  | Record_ (o : Outcome)
  | RecordUnsettled (o : Outcome)
  | RecordMany (o : Outcome) (count : Z)
  | WalkAlong (order : Permutation).

(** The atomic actions they are made of. *)
Inductive act :=
  | FetchAdd (o : Outcome) (n : Z)
  | LockSettle (position : Z)
  | LockSettleFresh (o : Outcome) (position : Z)
  | LockAlong (order : Permutation).

Definition call_acts (c : call) : list act :=
  match c with
  | Record_ o =>
      FetchAdd o 1 :: match settled_position o with Some position => [LockSettle position] | None => [] end
  | RecordUnsettled o =>
      match settled_position o with Some position => [LockSettleFresh o position] | None => [] end
  | RecordMany o count => [FetchAdd o count]
  | WalkAlong order => [LockAlong order]
  end.

(** An action, and what its task does next because of it. *)
Definition run_act (s : Settlements) (a : act) : Settlements * list act :=
  match a with
  | FetchAdd o n => (fetch_add s o n, [])
  | LockSettle position => (with_cursor s (fun cursor => settle cursor position), [])
  | LockSettleFresh o position =>
      let fresh := negb (cursor_is_settled (s_cursor s) position) in
      (with_cursor s (fun cursor => settle cursor position), if fresh then [FetchAdd o 1] else [])
  | LockAlong order => (with_cursor s (fun cursor => along cursor order), [])
  end.

(** A sitting: the shared state, and what each task has left to do. *)
Definition sitting : Type := Settlements * list (list act).

Inductive step : relation sitting :=
  | step_act s ts i a rest :
      ts !! i = Some (a :: rest) ->
      step (s, ts) (fst (run_act s a), <[i := snd (run_act s a) ++ rest]> ts).

Definition start_of (s : Settlements) (tasks : list (list call)) : sitting :=
  (s, (fun calls => calls ≫= call_acts) <$> tasks).

Definition finished (x : sitting) : Prop := Forall (fun t => t = []) (snd x).

(** Alone, a call's actions are the call. *)
Fixpoint run_acts (fuel : nat) (s : Settlements) (acts : list act) : Settlements :=
  match fuel, acts with
  | S fuel, a :: rest => let '(s, more) := run_act s a in run_acts fuel s (more ++ rest)
  | _, _ => s
  end.

Definition run_call (s : Settlements) (c : call) : Settlements :=
  match c with
  | Record_ o => record s o
  | RecordUnsettled o => record_unsettled s o
  | RecordMany o count => record_many s o count
  | WalkAlong order => walk_along s order
  end.

Lemma run_acts_call s c : run_acts 3 s (call_acts c) = run_call s c.
Proof.
  destruct c as [o|o|o n|order]; cbn [call_acts run_call].
  - unfold record. by destruct (settled_position o).
  - unfold record_unsettled. destruct (settled_position o) as [p|]; [|done]. cbn.
    by destruct (cursor_is_settled (s_cursor s) p).
  - done.
  - done.
Qed.

(** ** What the interleavings keep *)

Definition act_ok (a : act) : Prop :=
  match a with
  | FetchAdd _ n => 0 <= n
  | LockSettle position => 0 <= position < umax 64
  | LockSettleFresh o position => 0 <= position < umax 64 /\ settled_position o = Some position
  | LockAlong order => perm_wf order
  end.

Definition call_ok (c : call) : Prop := Forall act_ok (call_acts c).

Record sitting_ok (x : sitting) : Prop := {
  so_tight : tight (s_cursor (fst x));
  so_acts : Forall (Forall act_ok) (snd x);
}.

(** The position an action will settle. *)
Definition act_position (a : act) : option Z :=
  match a with
  | LockSettle position | LockSettleFresh _ position => Some position
  | _ => None
  end.

Definition pending (ts : list (list act)) (p : Z) : Prop :=
  exists t a, t ∈ ts /\ a ∈ t /\ act_position a = Some p.

Lemma pending_insert ts i a rest more p :
  ts !! i = Some (a :: rest) ->
  pending (<[i := more ++ rest]> ts) p \/ act_position a = Some p <->
  pending ts p \/ exists b, b ∈ more /\ act_position b = Some p.
Proof.
  intros Hi. apply lookup_lt_Some in Hi as Hlt. unfold pending. split.
  - intros [(t & b & (j & Hj)%list_elem_of_lookup & Hb & E)|E].
    + destruct (decide (j = i)) as [->|Hne].
      * rewrite list_lookup_insert_eq in Hj by done. injection Hj as <-.
        apply elem_of_app in Hb as [Hb|Hb]; [right; by exists b|]. left. exists (a :: rest), b.
        split; [by eapply list_elem_of_lookup_2|]. split; [by right|done].
      * rewrite list_lookup_insert_ne in Hj by done. left. exists t, b. split; [by eapply list_elem_of_lookup_2|done].
    + left. exists (a :: rest), a. split; [by eapply list_elem_of_lookup_2|]. split; [by left|done].
  - intros [(t & b & (j & Hj)%list_elem_of_lookup & Hb & E)|(b & Hb & E)].
    + destruct (decide (j = i)) as [->|Hne].
      * rewrite Hi in Hj. injection Hj as <-. apply elem_of_cons in Hb as [->|Hb]; [by right|].
        left. exists (more ++ rest), b. split; [|split; [apply elem_of_app; by right|done]].
        apply (list_elem_of_lookup_2 _ i). by apply list_lookup_insert_eq.
      * left. exists t, b. split; [|done]. apply (list_elem_of_lookup_2 _ j). by rewrite list_lookup_insert_ne.
    + left. exists (more ++ rest), b. split; [|split; [apply elem_of_app; by left|done]].
      apply (list_elem_of_lookup_2 _ i). by apply list_lookup_insert_eq.
Qed.

(** One action: it keeps the cursor's invariant and settles its position. *)
Lemma run_act_spec s a :
  tight (s_cursor s) -> act_ok a ->
  tight (s_cursor (fst (run_act s a))) /\ Forall act_ok (snd (run_act s a)) /\
  (forall b, b ∈ snd (run_act s a) -> act_position b = None) /\
  forall p, 0 <= p -> settled_in (s_cursor (fst (run_act s a))) p <->
    settled_in (s_cursor s) p \/ act_position a = Some p.
Proof.
  intros Hs Ha. destruct a as [o n|position|o position|order]; cbn [run_act fst snd act_position s_cursor fetch_add with_cursor].
  - split; [done|]. split; [constructor|]. split; [by intros b ?%elem_of_nil|]. intros p _. naive_solver.
  - destruct (settle_spec _ position Hs Ha) as [H1 H2]. split; [done|]. split; [constructor|].
    split; [by intros b ?%elem_of_nil|]. intros p Hp. rewrite H2 by done. naive_solver.
  - destruct Ha as [Ha Eo]. destruct (settle_spec _ position Hs Ha) as [H1 H2]. split; [done|].
    destruct (negb _).
    + split; [by repeat constructor|]. split; [by intros b ->%list_elem_of_singleton|].
      intros p Hp. rewrite H2 by done. naive_solver.
    + split; [constructor|]. split; [by intros b ?%elem_of_nil|]. intros p Hp. rewrite H2 by done. naive_solver.
  - destruct (along_spec _ order Hs Ha) as [H1 H2]. split; [done|]. split; [constructor|].
    split; [by intros b ?%elem_of_nil|]. intros p Hp. rewrite <- (H2 p Hp). naive_solver.
Qed.

Lemma step_settled x y :
  step x y -> sitting_ok x ->
  sitting_ok y /\ forall p, 0 <= p ->
    settled_in (s_cursor (fst y)) p \/ pending (snd y) p <-> settled_in (s_cursor (fst x)) p \/ pending (snd x) p.
Proof.
  intros [s ts i a rest Hi] [Ht Ha]. cbn [fst snd] in *.
  pose proof (Forall_lookup_1 _ _ _ _ Ha Hi) as Hacts. inversion Hacts as [|? ? Ha1 Ha2]; subst.
  destruct (run_act_spec s a Ht Ha1) as (R1 & R2 & R3 & R4). split.
  - split; cbn [fst snd]; [done|]. apply Forall_insert; [done|]. by apply Forall_app.
  - intros p Hp. rewrite R4 by done. pose proof (pending_insert ts i a rest (snd (run_act s a)) p Hi) as Hpend.
    assert (~ exists b, b ∈ snd (run_act s a) /\ act_position b = Some p) as Hno.
    { intros (b & Hb & E). by rewrite (R3 b Hb) in E. }
    tauto.
Qed.

Lemma steps_settled x y :
  rtc step x y -> sitting_ok x ->
  sitting_ok y /\ forall p, 0 <= p ->
    settled_in (s_cursor (fst y)) p \/ pending (snd y) p <-> settled_in (s_cursor (fst x)) p \/ pending (snd x) p.
Proof.
  induction 1 as [x|x y z Hstep _ IH]; intros Hx; [done|].
  destruct (step_settled x y Hstep Hx) as [Hy E1]. destruct (IH Hy) as [Hz E2]. split; [done|].
  intros p Hp. by rewrite E2, E1.
Qed.

Lemma start_ok s tasks :
  tight (s_cursor s) -> Forall (Forall call_ok) tasks -> sitting_ok (start_of s tasks).
Proof.
  intros Hs Ht. split; [done|]. cbn [start_of snd]. rewrite Forall_fmap. eapply Forall_impl; [exact Ht|].
  intros calls Hc. cbn. apply Forall_forall. intros a (c & Ha & Hin)%list_elem_of_bind.
  rewrite Forall_forall in Hc. specialize (Hc c Hin). unfold call_ok in Hc. rewrite Forall_forall in Hc. by apply Hc.
Qed.

(** The position a call settles. *)
Definition call_position (c : call) : option Z :=
  match c with Record_ o | RecordUnsettled o => settled_position o | _ => None end.

Lemma pending_start s tasks p :
  pending (snd (start_of s tasks)) p <-> exists calls c, calls ∈ tasks /\ c ∈ calls /\ call_position c = Some p.
Proof.
  assert (forall c, (exists a, a ∈ call_acts c /\ act_position a = Some p) <-> call_position c = Some p) as Hc.
  { intros [o|o|o n|order]; cbn [call_acts call_position]; try destruct (settled_position o) as [q|];
      rewrite ?exists_cons; cbn [act_position]; (split; [|]); intros; try done;
      repeat match goal with
      | H : _ \/ _ |- _ => destruct H
      | H : exists b, b ∈ [] /\ _ |- _ => destruct H as (? & ?%elem_of_nil & _)
      | |- _ => progress auto
      end; done. }
  unfold pending, start_of. cbn [snd]. split.
  - intros (t & a & (calls & -> & Hin)%list_elem_of_fmap & (c & Ha & Hc')%list_elem_of_bind & E).
    exists calls, c. split; [done|]. split; [done|]. apply Hc. by exists a.
  - intros (calls & c & Hin & Hc' & E). apply Hc in E as (a & Ha & E). exists (calls ≫= call_acts), a.
    split; [apply list_elem_of_fmap; by exists calls|]. split; [|done]. apply list_elem_of_bind. by exists c.
Qed.

Lemma finished_no_pending x p : finished x -> ~ pending (snd x) p.
Proof.
  unfold finished. rewrite Forall_forall. intros Hf (t & a & Ht & Ha & _). rewrite (Hf t Ht) in Ha. by apply elem_of_nil in Ha.
Qed.

(** ** A schedule, to run a sitting by *)

Definition turn (x : sitting) (i : nat) : sitting :=
  match snd x !! i with
  | Some (a :: rest) => let '(s, more) := run_act (fst x) a in (s, <[i := more ++ rest]> (snd x))
  | _ => x
  end.

Lemma schedule_steps (order : list nat) x : rtc step x (fold_left turn order x).
Proof.
  revert x. induction order as [|i order IH]; intros x; cbn [fold_left]; [done|].
  transitivity (turn x i); [|apply IH]. unfold turn. destruct x as [s ts]. cbn [fst snd].
  destruct (ts !! i) as [[|a rest]|] eqn:Hi; [done| |done]. destruct (run_act s a) as [s' more] eqn:E.
  apply rtc_once. pose proof (step_act s ts i a rest Hi) as H. by rewrite E in H.
Qed.

(** Two tasks reach position 3 at once, one settles 4 and one gives up. *)
Definition sample_tasks : list (list call) :=
  [[RecordUnsettled (Answered 3); RecordMany Interrupted 7]; [RecordUnsettled (Exhausted 3); RecordUnsettled (Skipped 4)]].

Definition sample_start : sitting :=
  start_of (settlements_walking (checkpoint (walking (perm_new 5 10))) (Some (perm_new 5 10))) sample_tasks.

Lemma sample_tasks_ok : Forall (Forall call_ok) sample_tasks.
Proof. unfold sample_tasks, call_ok. repeat constructor; done. Qed.

Lemma sample_tight : tight (walking (perm_new 5 10)).
Proof. apply (along_spec cursor_new (perm_new 5 10) cursor_new_tight). by apply new_wf. Qed.

(** ** Counting what is pending *)

(** A measure of the actions tasks have left: what a measure of single actions
    adds up to. *)
Definition to_do (f : act -> Z) (ts : list (list act)) : Z := sum_len f (concat ts).

Lemma to_do_insert f ts i a rest more :
  ts !! i = Some (a :: rest) -> to_do f (<[i := more ++ rest]> ts) = to_do f ts - f a + sum_len f more.
Proof.
  intros Hi. apply lookup_lt_Some in Hi as Hlt. unfold to_do.
  rewrite insert_take_drop by done. rewrite <- (take_drop_middle ts i _ Hi) at 3.
  rewrite !concat_app. cbn [concat]. rewrite !sum_len_app. cbn [sum_len]. lia.
Qed.

Lemma to_do_nonneg f ts : Forall (Forall (fun a => 0 <= f a)) ts -> 0 <= to_do f ts.
Proof.
  unfold to_do. induction 1 as [|t ts Ht _ IH]; [done|]. cbn [concat]. rewrite sum_len_app.
  assert (0 <= sum_len f t); [|lia]. clear IH. induction Ht as [|a t Ha _ IH]; cbn [sum_len]; lia.
Qed.

Lemma to_do_finished f x : finished x -> to_do f (snd x) = 0.
Proof. unfold finished, to_do. induction 1 as [|t ts -> _ IH]; [done|]. cbn [concat]. by rewrite sum_len_app, IH. Qed.

Lemma to_do_bind f (tasks : list (list call)) :
  to_do f ((fun calls => calls ≫= call_acts) <$> tasks) = sum_len (fun c => sum_len f (call_acts c)) (concat tasks).
Proof.
  unfold to_do. induction tasks as [|calls tasks IH]; [done|]. cbn [fmap list_fmap concat]. rewrite !sum_len_app, IH. f_equal.
  induction calls as [|c calls IHc]; [done|]. cbn [mbind list_bind sum_len]. by rewrite sum_len_app, IHc.
Qed.

(** *** Plain counters *)

Definition adds_to (k : Kind) (a : act) : Z :=
  match a with FetchAdd o n => if decide (counter_of o = k) then n else 0 | _ => 0 end.

(** [record_unsettled] decides as it runs whether to count; a counter no such call
    names has a fixed total. *)
Definition plain_for (k : Kind) (a : act) : Prop :=
  match a with LockSettleFresh o _ => counter_of o <> k | _ => True end.

Lemma counter_fits s a k :
  fits 64 (s_counters s k) -> fits 64 (s_counters (fst (run_act s a)) k).
Proof.
  intros H. destruct a as [o n|position|o position|order]; cbn; try done.
  destruct (decide _); [by apply wrap_fits|done].
Qed.

Lemma step_counter k x y :
  step x y -> Forall (Forall (plain_for k)) (snd x) ->
  Forall (Forall (plain_for k)) (snd y) /\
  wrap 64 (s_counters (fst y) k + to_do (adds_to k) (snd y)) = wrap 64 (s_counters (fst x) k + to_do (adds_to k) (snd x)).
Proof.
  intros [s ts i a rest Hi] Hp. cbn [fst snd] in *. rewrite (to_do_insert _ _ _ _ _ _ Hi).
  pose proof (Forall_lookup_1 _ _ _ _ Hp Hi) as Ha. inversion Ha as [|? ? Ha1 Ha2]; subst.
  destruct a as [o n|position|o position|order]; cbn [run_act fst snd adds_to sum_len s_counters with_cursor fetch_add app].
  - split; [by apply Forall_insert|]. destruct (decide (k = counter_of o)) as [->|Hne].
    + rewrite decide_True by done. unfold wrap. rewrite Zplus_mod_idemp_l. f_equal. lia.
    + rewrite decide_False by done. f_equal. lia.
  - split; [by apply Forall_insert|]. f_equal. lia.
  - cbn in Ha1. split.
    + apply Forall_insert; [done|]. apply Forall_app. split; [|done]. by destruct (negb _); repeat constructor.
    + destruct (negb _); cbn [sum_len adds_to]; rewrite ?decide_False by done; f_equal; lia.
  - split; [by apply Forall_insert|]. f_equal. lia.
Qed.

Lemma steps_counter k x y :
  rtc step x y -> Forall (Forall (plain_for k)) (snd x) -> fits 64 (s_counters (fst x) k) ->
  fits 64 (s_counters (fst y) k) /\
  wrap 64 (s_counters (fst y) k + to_do (adds_to k) (snd y)) = wrap 64 (s_counters (fst x) k + to_do (adds_to k) (snd x)).
Proof.
  induction 1 as [x|x y z Hstep _ IH]; intros Hx Hf; [done|].
  destruct (step_counter k x y Hstep Hx) as [Hy E]. rewrite <- E. apply IH; [done|].
  destruct Hstep as [s ts i a rest Hi]. by apply counter_fits.
Qed.

(** What a call adds to a counter, when that does not depend on the cursor. *)
Definition call_adds (k : Kind) (c : call) : Z :=
  match c with
  | Record_ o => if decide (counter_of o = k) then 1 else 0
  | RecordMany o n => if decide (counter_of o = k) then n else 0
  | RecordUnsettled _ | WalkAlong _ => 0
  end.

Definition call_plain (k : Kind) (c : call) : Prop :=
  match c with RecordUnsettled o => counter_of o <> k \/ settled_position o = None | _ => True end.

Lemma call_adds_acts k c : sum_len (adds_to k) (call_acts c) = call_adds k c.
Proof.
  destruct c as [o|o|o m|order]; cbn [call_acts call_adds]; try destruct (settled_position o);
    cbn [sum_len adds_to]; lia.
Qed.

Lemma plain_start k s tasks :
  Forall (Forall (call_plain k)) tasks -> Forall (Forall (plain_for k)) (snd (start_of s tasks)).
Proof.
  intros Ht. cbn [start_of snd]. rewrite Forall_fmap. eapply Forall_impl; [exact Ht|].
  intros calls Hc. cbn. apply Forall_forall. intros a (c & Ha & Hin)%list_elem_of_bind.
  rewrite Forall_forall in Hc. specialize (Hc c Hin). revert a Ha. apply Forall_forall.
  destruct c as [o|o|o m|order]; cbn [call_acts call_plain] in *; try destruct (settled_position o) as [q|];
    repeat constructor; cbn; naive_solver.
Qed.

(** The phase a sitting resumes: a checkpoint, read back and put along an order. *)
Lemma walking_ok c order :
  tight c -> order_wf order ->
  let s := settlements_walking (checkpoint c) order in
  tight (s_cursor s) /\ forall p, 0 <= p -> settled_in (s_cursor s) p <-> settled_in c p.
Proof.
  intros Hc Ho s. unfold s, settlements_walking. rewrite checkpoint_roundtrip by done.
  destruct order as [order|]; cbn [s_cursor]; [|done].
  destruct (along_spec c order Hc Ho) as [H1 H2]. split; [done|]. intros p Hp. by rewrite <- (H2 p Hp).
Qed.

(** C7: No interleaving loses a settlement.  Resume any checkpoint of a sound
    cursor, let any number of tasks record their outcomes in any interleaving of
    their locks and counter updates, and wait until all are done: the positions
    settled, in memory and in the next checkpoint, are those the checkpoint had
    and those some task recorded, no others; and a counter that only [record] and
    [record_many] reached holds the sum of what they added, modulo its width. *)
Theorem interleaved_records (c : Cursor) (order : option Permutation) (tasks : list (list call)) (y : sitting) :
  tight c -> order_wf order -> Forall (Forall call_ok) tasks ->
  rtc step (start_of (settlements_walking (checkpoint c) order) tasks) y -> finished y ->
  (forall p, 0 <= p ->
     (settlements_is_settled (fst y) p = true <->
        cp_is_settled (checkpoint c) p = true \/ exists calls a, calls ∈ tasks /\ a ∈ calls /\ call_position a = Some p) /\
     cp_is_settled (settlements_checkpoint (fst y)) p = settlements_is_settled (fst y) p) /\
  (forall o, Forall (Forall (call_plain (counter_of o))) tasks ->
     outcome_count (fst y) o = wrap 64 (sum_len (call_adds (counter_of o)) (concat tasks))).
Proof.
  intros Hc Ho Ht Hsteps Hf. destruct (walking_ok c order Hc Ho) as [W1 W2].
  set (s := settlements_walking (checkpoint c) order) in *.
  destruct (steps_settled _ _ Hsteps (start_ok s tasks W1 Ht)) as [[Hy _] E].
  pose proof (ti_loose _ Hy) as Hly. pose proof (ti_loose _ Hc) as Hlc. split.
  - intros p Hp. split; [|by apply checkpoint_settled]. unfold settlements_is_settled.
    rewrite is_settled_spec, checkpoint_settled, is_settled_spec by done.
    specialize (E p Hp). rewrite pending_start in E. cbn [start_of fst] in E. rewrite W2 in E by done.
    pose proof (finished_no_pending y p Hf). tauto.
  - intros o Hk. destruct (steps_counter (counter_of o) _ _ Hsteps) as [F1 F2]; [by apply plain_start|by cbn|].
    rewrite (to_do_finished _ _ Hf), Z.add_0_r, wrap_small in F2 by mlia. unfold outcome_count. rewrite F2.
    cbn [start_of fst snd]. rewrite to_do_bind. f_equal. unfold s, settlements_walking. cbn [s_counters]. rewrite Z.add_0_l.
    induction (concat tasks) as [|a l IH]; [done|]. cbn [sum_len]. by rewrite call_adds_acts, IH.
Qed.

Lemma interleaved_records_witness :
  let y := fold_left turn [0; 1; 1; 0; 1; 0; 1; 0]%nat sample_start in
  (settlements_is_settled (fst y) 4 = true <->
     cp_is_settled (checkpoint (walking (perm_new 5 10))) 4 = true \/
     exists calls a, calls ∈ sample_tasks /\ a ∈ calls /\ call_position a = Some 4) /\
  outcome_count (fst y) Interrupted = 7.
Proof.
  intros y. destruct (interleaved_records (walking (perm_new 5 10)) (Some (perm_new 5 10)) sample_tasks y) as [H1 H2].
  - apply sample_tight.
  - by apply new_wf.
  - apply sample_tasks_ok.
  - apply schedule_steps.
  - unfold finished. assert (snd y = [[]; []]) as -> by (vm_compute; reflexivity). by repeat constructor.
  - split; [by apply H1|]. apply (H2 Interrupted). unfold sample_tasks. by repeat constructor.
Defined.

(** *** Counting each position once *)

Definition settled_kinds : list Kind := [KAnswered; KExhausted; KSkipped; KWithheld; KUnreachable].

(** What the counters of the settled outcomes add up to. *)
Definition total_settled (s : Settlements) : Z := sum_len (s_counters s) settled_kinds.

Definition adds_settled (a : act) : Z :=
  match a with FetchAdd o n => match settled_position o with Some _ => n | None => 0 end | _ => 0 end.

(** Calls that ask the cursor before they count a settled outcome. *)
Definition call_once (c : call) : Prop :=
  match c with Record_ o | RecordMany o _ => settled_position o = None | _ => True end.

Definition act_once (a : act) : Prop :=
  match a with
  | FetchAdd o n => settled_position o = None \/ n = 1
  | LockSettle _ => False
  | LockSettleFresh o _ => is_Some (settled_position o)
  | LockAlong _ => True
  end.

Lemma counter_settled o : is_Some (settled_position o) <-> counter_of o ∈ settled_kinds.
Proof.
  destruct o; cbn; unfold settled_kinds; rewrite !elem_of_cons, elem_of_nil; split; intros H; try done; try naive_solver;
    by destruct H.
Qed.

Lemma total_fetch_add s o n :
  0 <= n -> Forall (fun k => 0 <= s_counters s k) settled_kinds -> total_settled s + n <= umax 64 ->
  Forall (fun k => 0 <= s_counters (fetch_add s o n) k) settled_kinds /\
  total_settled (fetch_add s o n) = total_settled s + match settled_position o with Some _ => n | None => 0 end.
Proof.
  intros Hn H0 Hle. unfold settled_kinds in H0. rewrite !Forall_cons in H0. destruct H0 as (H1 & H2 & H3 & H4 & H5 & _).
  unfold total_settled, settled_kinds in *. cbn [sum_len] in *. unfold fetch_add. rewrite !Forall_cons.
  destruct o; cbn [counter_of s_counters settled_position]; repeat (case_decide; try done); wsimp;
    repeat split; try lia; by apply Forall_nil.
Qed.

(** The count of a cursor depends on what it has settled alone. *)
Lemma settled_count_grows c d (p : option Z) :
  loose c -> loose d -> (forall q, p = Some q -> 0 <= q /\ ~ settled_in c q) ->
  (forall q, 0 <= q -> settled_in d q <-> settled_in c q \/ p = Some q) ->
  settled_count d = settled_count c + match p with Some _ => 1 | None => 0 end.
Proof.
  intros Hc Hd Hp E. set (X := list_to_set (settled_list c) : gset Z).
  assert (forall q, q ∈ X <-> 0 <= q /\ settled_in c q) as HX.
  { intros q. unfold X. by rewrite elem_of_list_to_set, elem_of_settled_list. }
  rewrite (settled_count_size c X Hc HX). destruct p as [q|].
  - destruct (Hp q eq_refl) as [Hq Hnot]. rewrite (settled_count_size d ({[q]} ∪ X) Hd).
    + rewrite size_union by (apply disjoint_singleton_l; rewrite HX; tauto). rewrite size_singleton. lia.
    + intros r. rewrite elem_of_union, elem_of_singleton, HX. split.
      * intros [->|[? ?]]; (split; [done|]); apply E; auto.
      * intros [Hr [H|H]%E]; [|naive_solver|done]. by right.
  - rewrite Z.add_0_r. apply settled_count_size; [done|]. intros r. rewrite HX. split; intros [Hr H]; (split; [done|]).
    + apply E; auto.
    + apply E in H as [H|H]; done.
Qed.

Record counting (base : Z) (x : sitting) : Prop := {
  cn_ok : sitting_ok x;
  cn_once : Forall (Forall act_once) (snd x);
  cn_nonneg : Forall (fun k => 0 <= s_counters (fst x) k) settled_kinds;
  cn_total : total_settled (fst x) + to_do adds_settled (snd x) = settled_count (s_cursor (fst x)) - base;
}.

Lemma settled_count_le c : loose c -> 0 <= settled_count c <= umax 64.
Proof.
  intros Hc. rewrite settled_count_list by done. split; [apply zlen_nonneg|].
  rewrite <- (Z.sub_0_r (umax 64)). apply NoDup_range_len; [by apply NoDup_settled_list| |mlia]. intros p Hp.
  apply elem_of_settled_list in Hp as [H0 Hs]; [|done]. split; [done|]. by apply (settled_in_range c).
Qed.

Lemma settle_count c p :
  tight c -> 0 <= p < umax 64 ->
  settled_count (settle c p) = settled_count c + if cursor_is_settled c p then 0 else 1.
Proof.
  intros Hc Hp. destruct (settle_spec c p Hc Hp) as [S1 S2].
  pose proof (ti_loose _ Hc) as Hl. pose proof (ti_loose _ S1) as Hl'.
  destruct (cursor_is_settled c p) eqn:E.
  - apply is_settled_spec in E; [|done|lia]. apply (settled_count_grows c _ None Hl Hl'); [done|].
    intros q Hq. rewrite S2 by done. naive_solver.
  - apply (settled_count_grows c _ (Some p) Hl Hl').
    + intros q [= <-]. split; [lia|]. intros H. apply is_settled_spec in H; [|done|lia]. by rewrite E in H.
    + intros q Hq. rewrite S2 by done. naive_solver.
Qed.

Lemma along_count c order : tight c -> perm_wf order -> settled_count (along c order) = settled_count c.
Proof.
  intros Hc Ho. destruct (along_spec c order Hc Ho) as [H1 H2].
  rewrite (settled_count_grows c (along c order) None (ti_loose _ Hc) (ti_loose _ H1)); [lia|done|].
  intros q Hq. rewrite <- (H2 q Hq). naive_solver.
Qed.

Lemma adds_once_nonneg ts : Forall (Forall act_ok) ts -> 0 <= to_do adds_settled ts.
Proof.
  intros H. apply to_do_nonneg. eapply Forall_impl; [exact H|]. intros t Ht. eapply Forall_impl; [exact Ht|].
  intros [o n|?|?|?] Ha; cbn in *; try done. by destruct (settled_position o).
Qed.

(** What one action does to the sum: a pass through the mutex that settles a new
    position owes one to a counter, and a counter's update pays what is owed. *)
Lemma run_act_counting base s ts i a rest :
  ts !! i = Some (a :: rest) -> counting base (s, ts) -> 0 <= base ->
  Forall act_once (snd (run_act s a)) /\
  Forall (fun k => 0 <= s_counters (fst (run_act s a)) k) settled_kinds /\
  total_settled (fst (run_act s a)) - adds_settled a + sum_len adds_settled (snd (run_act s a)) =
    total_settled s - settled_count (s_cursor s) + settled_count (s_cursor (fst (run_act s a))).
Proof.
  intros Hi [[Ht Hok] Ho Hn E] Hb. cbn [fst snd] in *.
  pose proof (Forall_lookup_1 _ _ _ _ Hok Hi) as Hact. apply Forall_inv in Hact as Ha.
  pose proof (Forall_inv (Forall_lookup_1 _ _ _ _ Ho Hi)) as Ha1.
  pose proof (settled_count_le _ (ti_loose _ Ht)) as Hc.
  destruct a as [o n|position|o position|order];
    cbn [run_act fst snd adds_settled sum_len s_cursor s_counters with_cursor fetch_add act_ok act_once] in *.
  - assert (0 <= to_do adds_settled (<[i := [] ++ rest]> ts)) as Hrest.
    { apply adds_once_nonneg, Forall_insert; [done|]. by apply Forall_inv_tail in Hact. }
    rewrite (to_do_insert _ _ _ _ _ _ Hi) in Hrest. cbn [adds_settled sum_len] in Hrest.
    split; [constructor|]. destruct (settled_position o) as [p|] eqn:Eo.
    + destruct (total_fetch_add s o n Ha Hn) as [T1 T2]; [lia|]. rewrite Eo in T2. split; [done|]. lia.
    + split; [|].
      * apply Forall_forall. intros k Hk. cbn. rewrite decide_False.
        -- rewrite Forall_forall in Hn. by apply Hn.
        -- intros ->. apply counter_settled in Hk as [? Hk]. by rewrite Eo in Hk.
      * assert (total_settled (fetch_add s o n) = total_settled s) as ->; [|lia].
        unfold total_settled, settled_kinds. cbn [sum_len].
        by destruct o; try done; cbn; repeat (case_decide; try done).
  - done.
  - destruct Ha as [Hp Eo]. rewrite settle_count by done. change (total_settled (with_cursor s _)) with (total_settled s).
    destruct (cursor_is_settled (s_cursor s) position); cbn [negb sum_len adds_settled].
    + split; [constructor|]. split; [done|]. lia.
    + split; [by repeat constructor; right|]. rewrite Eo. split; [done|]. lia.
  - rewrite along_count by done. change (total_settled (with_cursor s _)) with (total_settled s).
    split; [constructor|]. split; [done|]. lia.
Qed.

Lemma step_counting base x y : step x y -> 0 <= base -> counting base x -> counting base y.
Proof.
  intros Hstep Hb Hx. pose proof (cn_ok _ _ Hx) as Hok. destruct (step_settled x y Hstep Hok) as [Hy _].
  destruct Hstep as [s ts i a rest Hi]. destruct (run_act_counting base s ts i a rest Hi Hx Hb) as (R1 & R2 & R3).
  destruct Hx as [_ Ho _ E]. cbn [fst snd] in *. split; cbn [fst snd]; [done| |done|].
  - apply Forall_insert; [done|]. apply Forall_app. split; [done|].
    by apply Forall_lookup_1 with (i := i) (x := a :: rest), Forall_inv_tail in Ho.
  - rewrite (to_do_insert _ _ _ _ _ _ Hi). lia.
Qed.

Lemma counting_start base s tasks :
  tight (s_cursor s) -> Forall (Forall call_ok) tasks -> Forall (Forall call_once) tasks ->
  (forall k, s_counters s k = 0) -> settled_count (s_cursor s) = base -> counting base (start_of s tasks).
Proof.
  intros Hs Hok Ho H0 E. split; cbn [start_of fst snd].
  - by apply start_ok.
  - rewrite Forall_fmap. eapply Forall_impl; [exact Ho|]. intros calls Hc. cbn.
    apply Forall_forall. intros a (c & Ha & Hin)%list_elem_of_bind. rewrite Forall_forall in Hc. specialize (Hc c Hin).
    revert a Ha. apply Forall_forall. destruct c as [o|o|o m|order]; cbn [call_acts call_once] in *.
    + rewrite Hc. constructor; [by left|constructor].
    + destruct (settled_position o) eqn:Eo; repeat constructor. cbn. by rewrite Eo.
    + constructor; [by left|constructor].
    + by repeat constructor.
  - apply Forall_forall. intros k _. by rewrite H0.
  - rewrite to_do_bind. unfold total_settled, settled_kinds. cbn [sum_len]. rewrite !H0, E.
    assert (Forall call_once (concat tasks)) as Hall by by apply Forall_concat.
    clear -Hall. induction Hall as [|c l Hc _ IH]; [cbn; lia|]. cbn [sum_len].
    assert (sum_len adds_settled (call_acts c) = 0); [|lia].
    destruct c as [o|o|o m|order]; cbn [call_acts call_once] in *; [rewrite Hc|destruct (settled_position o)|..];
      cbn [sum_len adds_settled]; rewrite ?Hc; lia.
Qed.

(** Nothing is counted twice.  Tasks that record their settled outcomes with
    [record_unsettled] may reach one position from several sides at once (an
    address and its twin, two addresses of one machine); in every interleaving
    the counters of the settled outcomes together rise by exactly the number of
    positions newly settled. *)
Theorem unsettled_counted_once (c : Cursor) (order : option Permutation) (tasks : list (list call)) (y : sitting) :
  tight c -> order_wf order -> Forall (Forall call_ok) tasks -> Forall (Forall call_once) tasks ->
  rtc step (start_of (settlements_walking (checkpoint c) order) tasks) y -> finished y ->
  total_settled (fst y) = settlements_settled_count (fst y) - cp_settled_count (checkpoint c).
Proof.
  intros Hc Ho Hok Honce Hsteps Hf. destruct (walking_ok c order Hc Ho) as [W1 W2].
  set (s := settlements_walking (checkpoint c) order) in *. pose proof (ti_loose _ Hc) as Hl.
  assert (settled_count (s_cursor s) = settled_count c) as Ec.
  { rewrite (settled_count_grows c (s_cursor s) None Hl (ti_loose _ W1)); [lia|done|].
    intros q Hq. rewrite W2 by done. naive_solver. }
  assert (counting (settled_count c) y) as [_ _ _ E].
  { pose proof (counting_start _ s tasks W1 Hok Honce (fun _ => eq_refl) Ec) as Hstart. revert Hstart.
    clear -Hsteps Hl. induction Hsteps as [x|x y z Hxy _ IH]; [done|]. intros Hx. apply IH.
    apply (step_counting _ x y Hxy); [|done]. by apply settled_count_le. }
  rewrite (to_do_finished _ _ Hf) in E. rewrite checkpoint_count by done. unfold settlements_settled_count. lia.
Qed.

Lemma unsettled_counted_once_witness :
  let y := fold_left turn [0; 1; 1; 0; 1; 0; 1; 0]%nat sample_start in
  total_settled (fst y) = settlements_settled_count (fst y) - 0 /\ settlements_settled_count (fst y) = 2.
Proof.
  intros y. split; [|vm_compute; reflexivity].
  apply (unsettled_counted_once (walking (perm_new 5 10)) (Some (perm_new 5 10)) sample_tasks y).
  - apply sample_tight.
  - by apply new_wf.
  - apply sample_tasks_ok.
  - unfold sample_tasks. by repeat constructor.
  - apply schedule_steps.
  - unfold finished. assert (snd y = [[]; []]) as -> by (vm_compute; reflexivity). by repeat constructor.
Defined.
