(* ===== verification/Locking.v ===== *)
(** * The cursor's mutex

    [src/src/journal/settle.rs]: [Settlements::with_cursor] takes the mutex around the
    cursor, runs a closure and lets the mutex go, and the counters are added to outside it.
    [Settle] takes each closure for one action; here the lock is taken and let go in steps of
    their own, the closures run step by step, and a task that finds the mutex taken, by
    itself too, waits.  The theorem says that tasks never wait for ever, and that whatever
    order their steps take, the sitting ends as [Settle]'s actions end in some order. *)

From Stdlib Require Import ZArith Lia.
From stdpp Require Import base numbers option list relations.
From S2P Require Import Prelude Std Order Cursor Checkpoint Settle.

Local Open Scope Z_scope.

(** ** Steps of a call *)

(** A counter is added to; the mutex is taken; under it a position is asked after, settled,
    or the cursor put on a walk; it is let go; and a counter is added to where the position
    asked after was open. *)
Inductive instr :=
  | Add (o : Outcome) (n : Z)
  | Acquire
  | Ask (position : Z)
  | SettleAt (position : Z)
  | Along (order : Permutation)
  | Unlock
  | AddIfFresh (o : Outcome).

Definition call_instrs (c : call) : list instr :=
  match c with
  | Record_ o =>
      Add o 1 :: match settled_position o with Some position => [Acquire; SettleAt position; Unlock] | None => [] end
  | RecordUnsettled o =>
      match settled_position o with
      | Some position => [Acquire; Ask position; SettleAt position; Unlock; AddIfFresh o]
      | None => []
      end
  | RecordMany o count => [Add o count]
  | WalkAlong order => [Acquire; Along order; Unlock]
  end.

(** A task: its local [fresh], and what it has left to do. *)
Record task := mkTask { fresh : bool; todo : list instr }.

(** The shared state, the task that has the mutex, and the tasks. *)
Record machine := mkMachine { shared : Settlements; holder : option nat; tasks : list task }.

(** What one step does; [None] is a step that waits, or that the lock does not allow. *)
Definition exec (s : Settlements) (h : option nat) (i : nat) (f : bool) (x : instr) : option (Settlements * option nat * bool) :=
  let held := bool_decide (h = Some i) in
  match x with
  | Add o n => Some (fetch_add s o n, h, f)
  | Acquire => match h with None => Some (s, Some i, f) | Some _ => None end
  | Ask position => then_some held (s, h, negb (cursor_is_settled (s_cursor s) position))
  | SettleAt position => then_some held (with_cursor s (fun cursor => settle cursor position), h, f)
  | Along order => then_some held (with_cursor s (fun cursor => along cursor order), h, f)
  | Unlock => then_some held (s, None, f)
  | AddIfFresh o => Some (if f then fetch_add s o 1 else s, h, f)
  end.

Inductive lstep : relation machine :=
  | lstep_instr m i f x rest s' h' f' :
      tasks m !! i = Some (mkTask f (x :: rest)) -> exec (shared m) (holder m) i f x = Some (s', h', f') ->
      lstep m (mkMachine s' h' (<[i := mkTask f' rest]> (tasks m))).

Definition locked_start (s : Settlements) (calls : list (list call)) : machine :=
  mkMachine s None ((fun cs => mkTask false (cs ≫= call_instrs)) <$> calls).

Definition all_done (m : machine) : Prop := Forall (fun t => todo t = []) (tasks m).

(** ** The actions a task has left *)

(** [follows c held f l k]: a task that has the mutex or not, whose local is [f] and that has
    [l] to do over the cursor [c], has the actions [k] to do. *)
Inductive follows (c : Cursor) : bool -> bool -> list instr -> list act -> Prop :=
  | follows_nil f : follows c false f [] []
  | follows_add f o n l k : follows c false f l k -> follows c false f (Add o n :: l) (FetchAdd o n :: k)
  | follows_lock_settle f p l k : follows c false f l k -> follows c false f (Acquire :: SettleAt p :: Unlock :: l) (LockSettle p :: k)
  | follows_lock_along f order l k : follows c false f l k -> follows c false f (Acquire :: Along order :: Unlock :: l) (LockAlong order :: k)
  | follows_settle f p l k : follows c false f l k -> follows c true f (SettleAt p :: Unlock :: l) (LockSettle p :: k)
  | follows_along f order l k : follows c false f l k -> follows c true f (Along order :: Unlock :: l) (LockAlong order :: k)
  | follows_unlock f l k : follows c false f l k -> follows c true f (Unlock :: l) k
  | follows_fresh f o p l k : (forall f, follows c false f l k) ->
      follows c false f (Acquire :: Ask p :: SettleAt p :: Unlock :: AddIfFresh o :: l) (LockSettleFresh o p :: k)
  | follows_asking f o p l k : (forall f, follows c false f l k) ->
      follows c true f (Ask p :: SettleAt p :: Unlock :: AddIfFresh o :: l) (LockSettleFresh o p :: k)
  | follows_asked o p l k : (forall f, follows c false f l k) ->
      follows c true (negb (cursor_is_settled c p)) (SettleAt p :: Unlock :: AddIfFresh o :: l) (LockSettleFresh o p :: k)
  | follows_if_fresh (f : bool) o l k : (forall f, follows c false f l k) ->
      follows c false f (AddIfFresh o :: l) ((if f then [FetchAdd o 1] else []) ++ k).

(** What a task without the mutex has to do does not depend on the cursor. *)
Lemma follows_any c c' f l k : follows c false f l k -> follows c' false f l k.
Proof. remember false as held. induction 1; try done; econstructor; eauto. Qed.

Lemma follows_call c call l k : (forall f, follows c false f l k) -> forall f, follows c false f (call_instrs call ++ l) (call_acts call ++ k).
Proof.
  intros H f. destruct call as [o|o|o n|order]; cbn [call_instrs call_acts]; [..|]; try destruct (settled_position o) as [p|]; cbn [app]; eauto using follows.
Qed.

Lemma follows_calls c calls f : follows c false f (calls ≫= call_instrs) (calls ≫= call_acts).
Proof. revert f. induction calls as [|call calls IH]; intros f; [constructor|]. rewrite !bind_cons. by apply follows_call. Qed.

(** ** The sitting a machine is in *)

Record Sim (m : machine) (x : sitting) : Prop := {
  sim_shared : shared m = fst x;
  sim_length : length (tasks m) = length (snd x);
  sim_holder i : holder m = Some i -> (i < length (tasks m))%nat;
  sim_task i t k : tasks m !! i = Some t -> snd x !! i = Some k ->
    follows (s_cursor (shared m)) (bool_decide (holder m = Some i)) (fresh t) (todo t) k
}.

Lemma sim_start s calls : Sim (locked_start s calls) (start_of s calls).
Proof.
  constructor; cbn.
  - done.
  - by rewrite !length_fmap.
  - done.
  - intros i t k. rewrite !list_lookup_fmap. destruct (calls !! i) as [cs|]; [|done]. intros [= <-] [= <-]. apply follows_calls.
Qed.

(** One task moves on: the others keep the mutex, or its absence, and what they have to do. *)
Lemma sim_move m x i t k s' h' t' k' : Sim m x -> tasks m !! i = Some t -> snd x !! i = Some k ->
  follows (s_cursor s') (bool_decide (h' = Some i)) (fresh t') (todo t') k' ->
  (forall j, j <> i -> h' = Some j <-> holder m = Some j) ->
  (forall j, j <> i -> holder m = Some j -> s_cursor s' = s_cursor (shared m)) ->
  Sim (mkMachine s' h' (<[i := t']> (tasks m))) (s', <[i := k']> (snd x)).
Proof.
  intros Hs Ht Hk Hf Hh Hc. apply lookup_lt_Some in Ht as Hlt. constructor; cbn [shared holder tasks fst snd].
  - done.
  - rewrite !length_insert. apply Hs.
  - intros j Hj. rewrite length_insert. destruct (decide (j = i)) as [->|Hne]; [done|]. apply (sim_holder m x Hs). by apply Hh.
  - intros j u v. destruct (decide (j = i)) as [->|Hne].
    + rewrite !list_lookup_insert_eq by (done || by rewrite <- (sim_length m x Hs)). by intros [= <-] [= <-].
    + rewrite !list_lookup_insert_ne by done. intros Hu Hv. pose proof (sim_task m x Hs j u v Hu Hv) as Hj.
      rewrite (bool_decide_ext _ _ (Hh j Hne)). destruct (decide (holder m = Some j)) as [Ej|Ej].
      * by rewrite (Hc j Hne Ej).
      * rewrite (bool_decide_eq_false_2 _ Ej) in *. by eapply follows_any.
Qed.

(** The same, where the task had nothing to act on. *)
Lemma sim_quiet m x i t k h' t' : Sim m x -> tasks m !! i = Some t -> snd x !! i = Some k ->
  follows (s_cursor (shared m)) (bool_decide (h' = Some i)) (fresh t') (todo t') k ->
  (forall j, j <> i -> h' = Some j <-> holder m = Some j) ->
  Sim (mkMachine (shared m) h' (<[i := t']> (tasks m))) x.
Proof.
  intros Hs Ht Hk Hf Hh. pose proof (sim_move m x i t k (shared m) h' t' k Hs Ht Hk Hf Hh (fun _ _ _ => eq_refl)) as H.
  rewrite (list_insert_id (snd x)) in H by done. rewrite (sim_shared m x Hs) in H at 2. by rewrite <- surjective_pairing in H.
Qed.

(** The same, where it acted. *)
Lemma sim_act m x i t a k h' t' : Sim m x -> tasks m !! i = Some t -> snd x !! i = Some (a :: k) ->
  let s' := fst (run_act (shared m) a) in
  follows (s_cursor s') (bool_decide (h' = Some i)) (fresh t') (todo t') (snd (run_act (shared m) a) ++ k) ->
  (forall j, j <> i -> h' = Some j <-> holder m = Some j) ->
  (forall j, j <> i -> holder m = Some j -> s_cursor s' = s_cursor (shared m)) ->
  exists x', rtc step x x' /\ Sim (mkMachine s' h' (<[i := t']> (tasks m))) x'.
Proof.
  intros Hs Ht Hk s' Hf Hh Hc. eexists. split; [|by eapply (sim_move m x i t); [| |exact Hk|exact Hf| |]].
  apply rtc_once. destruct x as [s ts]. cbn [snd] in *. pose proof (sim_shared m _ Hs) as E. cbn in E. unfold s'. rewrite E in *. by constructor.
Qed.

Lemma sim_step m m' x : Sim m x -> lstep m m' -> exists x', rtc step x x' /\ Sim m' x'.
Proof.
  intros Hs Hstep. revert Hs. destruct Hstep as [n i f y rest s' h' f' Ht He]. intros Hs.
  assert (is_Some (snd x !! i)) as [k Hk] by (apply lookup_lt_is_Some; rewrite <- (sim_length n x Hs); by eapply lookup_lt_Some).
  pose proof (sim_task n x Hs i _ k Ht Hk) as Hf. cbn [fresh todo] in Hf. set (held := bool_decide (holder n = Some i)) in *.
  assert (held = true -> forall j, j <> i -> holder n <> Some j) as Hmine by (unfold held; rewrite bool_decide_eq_true; intros -> j Hj [=]; congruence).
  destruct y as [o c| |p|p|order| |o]; cbn [exec] in He; fold held in He.
  - injection He as <- <- <-. destruct held eqn:Eheld; inversion Hf; subst. apply (sim_act n x i _ _ _ _ _ Hs Ht Hk); [|done|done]. cbn. fold held. by rewrite Eheld.
  - destruct (holder n) eqn:Eh; [done|]. injection He as <- <- <-. exists x. split; [done|].
    assert (forall j, j <> i -> Some i = Some j <-> holder n = Some j) as Hh by (rewrite Eh; split; congruence).
    apply (sim_quiet n x i _ k _ _ Hs Ht Hk); [|done]. rewrite bool_decide_true by done.
    inversion Hf; subst; by constructor.
  - unfold then_some in He. destruct held eqn:Eheld; [|done]. injection He as <- <- <-. exists x. split; [done|].
    apply (sim_quiet n x i _ k _ _ Hs Ht Hk); [|done]. fold held. rewrite Eheld. inversion Hf; subst. by constructor.
  - unfold then_some in He. destruct held eqn:Eheld; [|done]. injection He as <- <- <-.
    inversion Hf; subst; (apply (sim_act n x i _ _ _ _ _ Hs Ht Hk); [|done|by intros j Hj Ej; apply Hmine in Ej]); cbn; fold held; rewrite Eheld.
    + constructor. by eapply follows_any.
    + constructor. constructor. intros g. by eapply follows_any.
  - unfold then_some in He. destruct held eqn:Eheld; [|done]. injection He as <- <- <-.
    inversion Hf; subst. apply (sim_act n x i _ _ _ _ _ Hs Ht Hk); [|done|by intros j Hj Ej; apply Hmine in Ej]. cbn. fold held. rewrite Eheld.
    constructor. by eapply follows_any.
  - unfold then_some in He. destruct held eqn:Eheld; [|done]. injection He as <- <- <-. exists x. split; [done|].
    apply (sim_quiet n x i _ k _ _ Hs Ht Hk).
    + rewrite bool_decide_false by done. by inversion Hf.
    + intros j Hj. split; [done|]. intros Ej. by apply Hmine in Ej.
  - injection He as <- <- <-. destruct held eqn:Eheld; inversion Hf; subst. destruct f.
    + apply (sim_act n x i _ _ _ _ _ Hs Ht Hk); [|done|done]. cbn. fold held. by rewrite Eheld.
    + exists x. split; [done|]. apply (sim_quiet n x i _ _ _ _ Hs Ht Hk); [|done]. cbn. fold held. by rewrite Eheld.
Qed.

Lemma sim_steps m m' x : Sim m x -> rtc lstep m m' -> exists x', rtc step x x' /\ Sim m' x'.
Proof.
  intros Hs Hr. revert x Hs. induction Hr as [m|m m1 m' H1 _ IH]; intros x Hs; [by exists x|].
  destruct (sim_step m m1 x Hs H1) as (x1 & Hx1 & Hs1). destruct (IH x1 Hs1) as (x' & Hx' & Hs'). exists x'. split; [by etrans|done].
Qed.

Lemma sim_done m x : Sim m x -> all_done m -> finished x.
Proof.
  intros Hs Hd. apply Forall_lookup. intros i k Hk.
  assert (is_Some (tasks m !! i)) as [t Ht] by (apply lookup_lt_is_Some; rewrite (sim_length m x Hs); by eapply lookup_lt_Some).
  pose proof (sim_task m x Hs i t k Ht Hk) as Hf. rewrite (Forall_lookup_1 _ _ _ _ Hd Ht) in Hf. by inversion Hf.
Qed.

(** The task that has the mutex can go on, and where none has it every task can. *)
Lemma sim_progress m x : Sim m x -> all_done m \/ exists m', lstep m m'.
Proof.
  intros Hs. destruct (decide (Forall (fun t => todo t = []) (tasks m))) as [Hd|Hd]; [by left|]. right.
  assert (exists i t, tasks m !! i = Some t /\ todo t <> [] /\ (holder m = None \/ holder m = Some i)) as (i & [f l] & Ht & Hne & Hh).
  { destruct (holder m) as [i|] eqn:Eh.
    - destruct (lookup_lt_is_Some_2 (tasks m) i (sim_holder m x Hs i Eh)) as [t Ht]. exists i, t. split; [done|]. split; [|by right]. intros E.
      destruct (lookup_lt_is_Some_2 (snd x) i) as [k Hk]; [rewrite <- (sim_length m x Hs); by eapply lookup_lt_Some|].
      pose proof (sim_task m x Hs i t k Ht Hk) as Hf. rewrite E, bool_decide_true in Hf by done. inversion Hf.
    - apply not_Forall_Exists in Hd; [|apply _]. apply Exists_exists in Hd as (t & (i & Ht)%list_elem_of_lookup & Hne). exists i, t. auto. }
  destruct (lookup_lt_is_Some_2 (snd x) i) as [k Hk]; [rewrite <- (sim_length m x Hs); by eapply lookup_lt_Some|].
  pose proof (sim_task m x Hs i _ k Ht Hk) as Hf. cbn in *. destruct l as [|y rest]; [done|].
  assert (exists r, exec (shared m) (holder m) i f y = Some r) as [[[s' h'] f'] He].
  { unfold exec. destruct Hh as [Eh|Eh]; rewrite Eh in *.
    - rewrite bool_decide_false in Hf by done. inversion Hf; by eexists.
    - rewrite bool_decide_true in * by done. inversion Hf; by eexists. }
  eexists. by econstructor.
Qed.

(** *** The steps left *)

Definition steps_left (m : machine) : nat := length (concat (todo <$> tasks m)).

Lemma concat_insert_length {A} (ls : list (list A)) i y rest : ls !! i = Some (y :: rest) ->
  length (concat ls) = S (length (concat (<[i := rest]> ls))).
Proof.
  intros Hi. apply lookup_lt_Some in Hi as Hlt. rewrite insert_take_drop by done. rewrite <- (take_drop_middle ls i _ Hi) at 1.
  rewrite !concat_app, !length_app. cbn [concat]. rewrite !length_app. cbn. lia.
Qed.

Lemma lstep_left m m' : lstep m m' -> steps_left m = S (steps_left m').
Proof.
  intros [n i f y rest s' h' f' Ht _]. unfold steps_left. cbn [tasks]. rewrite list_fmap_insert. apply (concat_insert_length _ i y).
  by rewrite list_lookup_fmap, Ht.
Qed.

Lemma lsteps_left n m m' : nsteps lstep n m m' -> steps_left m = (n + steps_left m')%nat.
Proof. induction 1 as [m|n m m1 m' H _ IH]; [done|]. apply lstep_left in H. lia. Qed.

Lemma start_left s calls : (steps_left (locked_start s calls) <= 5 * length (concat calls))%nat.
Proof.
  unfold steps_left. cbn. induction calls as [|cs calls IH]; [done|]. cbn [fmap list_fmap concat todo]. rewrite !length_app.
  assert (length (cs ≫= call_instrs) <= 5 * length cs)%nat; [|lia]. clear IH. induction cs as [|c cs IH]; [done|].
  rewrite bind_cons, length_app. cbn [length]. assert (length (call_instrs c) <= 5)%nat; [|lia].
  destruct c as [o|o|o k|order]; cbn [call_instrs]; try destruct (settled_position o); cbn; lia.
Qed.

(** C40: Tasks that share a sitting never wait for ever.  However their steps interleave, each
    closure under the cursor's mutex run step by step and a task that finds the mutex taken
    waiting, by itself too: at any point every task is done or some task can go on, no
    interleaving has more than five steps a call, and when all are done the counters and the
    cursor are as they are after the calls' actions, each closure one of them, in some order
    of the tasks. *)
Theorem locked_sittings_end (s : Settlements) (calls : list (list call)) (n : nat) (m : machine) :
  nsteps lstep n (locked_start s calls) m ->
  (n <= 5 * length (concat calls))%nat /\ (all_done m \/ exists m', lstep m m') /\
  (all_done m -> exists x, rtc step (start_of s calls) x /\ finished x /\ fst x = shared m).
Proof.
  intros Hn. destruct (sim_steps _ m _ (sim_start s calls)) as (x & Hx & Hs); [by eapply rtc_nsteps_2|]. split_and!.
  - pose proof (lsteps_left n _ _ Hn). pose proof (start_left s calls). lia.
  - by eapply sim_progress.
  - intros Hd. exists x. split; [done|]. split; [by eapply sim_done|]. symmetry. apply Hs.
Qed.

(** ** A schedule *)

Definition lturn (m : machine) (i : nat) : machine :=
  match tasks m !! i with
  | Some (mkTask f (y :: rest)) =>
      match exec (shared m) (holder m) i f y with
      | Some (s', h', f') => mkMachine s' h' (<[i := mkTask f' rest]> (tasks m))
      | None => m
      end
  | _ => m
  end.

Lemma schedule_lsteps (order : list nat) m : rtc lstep m (fold_left lturn order m).
Proof.
  revert m. induction order as [|i order IH]; intros m; cbn [fold_left]; [done|]. transitivity (lturn m i); [|apply IH].
  unfold lturn. destruct (tasks m !! i) as [[f [|y rest]]|] eqn:Ht; [done| |done].
  destruct (exec (shared m) (holder m) i f y) as [[[s' h'] f']|] eqn:He; [|done]. apply rtc_once. by econstructor.
Qed.

Definition sample_schedule : list nat := [0; 1; 0; 1; 0; 0; 1; 1; 0; 1; 1; 1; 1; 0; 1; 1; 1; 1]%nat.

(** Two tasks reach position 3 at once; the second waits while the first has the mutex, and
    the position is counted once. *)
Lemma locked_sittings_end_witness :
  let m := fold_left lturn sample_schedule (locked_start (fst sample_start) sample_tasks) in
  all_done m /\ (exists x, rtc step sample_start x /\ finished x /\ fst x = shared m) /\
  outcome_count (shared m) (Answered 3) + outcome_count (shared m) (Exhausted 3) = 1.
Proof.
  intros m. destruct (rtc_nsteps_1 _ _ (schedule_lsteps sample_schedule (locked_start (fst sample_start) sample_tasks))) as [n Hn].
  destruct (locked_sittings_end (fst sample_start) sample_tasks n m Hn) as (_ & _ & H).
  assert (all_done m) as Hd by (apply (bool_decide_unpack _); vm_compute; exact I).
  split; [exact Hd|]. split; [exact (H Hd)|]. vm_compute. reflexivity.
Defined.
