(* ===== verification/Retention.v ===== *)
(** * Which journals are kept

    [src/src/journal/store.rs]: the [Retention] policy and [Retention::expired], which
    chooses the journals a prune removes: by age, then by a cap on their number that
    takes the oldest finished ones first, and never one that something is writing. *)

From Stdlib Require Import ZArith Lia.
From stdpp Require Import base numbers option sets list.
From S2P Require Import Prelude Std Text Cursor Checkpoint Lock.

Local Open Scope Z_scope.

(** ** Definitions *)

Inductive ScanKind := Discovery | PortScan | Listen.

#[export] Instance scan_kind_eq_dec : EqDecision ScanKind.
Proof. solve_decision. Defined.

(** Of an [Entry] and its manifest, what decides whether it is kept. *)
Record Entry := {
  e_kind : ScanKind;
  total_targets : Z;
  created_at : Z;
  e_checkpoint : option Checkpoint;
  e_lock : LockState;
}.

Definition settled (e : Entry) : option Z := cp_settled_count <$> e_checkpoint e.

Definition is_complete (e : Entry) : bool :=
  if decide (e_kind e = Listen) then false
  else is_some_and (settled e) (fun settled => total_targets e <=? settled).

Record Retention := {
  completed_for : option Z;
  incomplete_for : option Z;
  keep_at_most : option nat;
  unreadable : bool;
}.

Definition retention_default : Retention :=
  {| completed_for := Some (30 * 24 * 60 * 60 * 10 ^ 9); incomplete_for := None; keep_at_most := Some 200%nat; unreadable := false |}.

Definition keep_everything : Retention :=
  {| completed_for := None; incomplete_for := None; keep_at_most := None; unreadable := false |}.

(** The age test of [expired]. *)
Definition too_old (self : Retention) (now : Z) (e : Entry) : bool :=
  let limit := if is_complete e then completed_for self else incomplete_for self in
  is_some_and limit (fun limit => limit <? duration_since now (created_at e)).

(** [entries[index]] tested; the indices are all in range. *)
Definition at_index (entries : list Entry) (test : Entry -> bool) (index : nat) : bool :=
  is_some_and (entries !! index) test.

(** The sort key of the survivors: unfinished before finished, newer before older. *)
Definition keep_first (a b : Entry) : bool :=
  match is_complete a, is_complete b with
  | false, true => true
  | true, false => false
  | _, _ => created_at b <=? created_at a
  end.

Definition keep_first_at (entries : list Entry) (i j : nat) : bool :=
  match entries !! i, entries !! j with
  | Some a, Some b => keep_first a b
  | None, _ => true
  | Some _, None => false
  end.

(** [while surviving.len() > cap { surviving.pop() .. }]; every turn takes one off. *)
Fixpoint pop_excess (fuel : nat) (entries : list Entry) (cap : nat) (surviving removing : list nat) : list nat :=
  match fuel with
  | O => removing
  | S fuel =>
      if (cap <? length surviving)%nat then
        match last surviving with
        | None => removing
        | Some index =>
            pop_excess fuel entries cap (removelast surviving)
              (if at_index entries (fun e => is_resumable (e_lock e)) index then removing ++ [index] else removing)
        end
      else removing
  end.

Definition expired (self : Retention) (entries : list Entry) (now : Z) : list nat :=
  let removing :=
    filter (fun index => at_index entries (fun e => too_old self now e) index = true)
      (filter (fun index => at_index entries (fun e => is_resumable (e_lock e)) index = true) (seq 0 (length entries))) in
  match keep_at_most self with
  | None => removing
  | Some cap =>
      let surviving := filter (fun index => index ∉ removing) (seq 0 (length entries)) in
      let surviving := sort_by (keep_first_at entries) surviving in
      sort_by Nat.leb (pop_excess (length surviving) entries cap surviving removing)
  end.

(** ** What is popped *)

Lemma keep_first_total a b : keep_first a b = true \/ keep_first b a = true.
Proof. unfold keep_first. destruct (is_complete a), (is_complete b); auto; rewrite !Z.leb_le; lia. Qed.

Lemma keep_first_trans a b c : keep_first a b = true -> keep_first b c = true -> keep_first a c = true.
Proof. unfold keep_first. destruct (is_complete a), (is_complete b), (is_complete c); rewrite ?Z.leb_le; try done; lia. Qed.

(** The loop takes off what lies past the cap, and removes of it what nothing holds. *)
Lemma pop_excess_spec fuel entries cap surviving removing :
  (length surviving <= fuel)%nat ->
  pop_excess fuel entries cap surviving removing =
    removing ++ rev (filter (fun i => at_index entries (fun e => is_resumable (e_lock e)) i = true) (drop cap surviving)).
Proof.
  revert surviving removing. induction fuel as [|fuel IH]; intros surviving removing Hf; cbn [pop_excess].
  { assert (surviving = []) as -> by (by apply nil_length_inv; lia). rewrite drop_nil. cbn. by rewrite app_nil_r. }
  destruct (Nat.ltb_spec cap (length surviving)) as [Hlt|Hge]; [|rewrite drop_ge by lia; cbn; by rewrite app_nil_r].
  destruct (last surviving) as [index|] eqn:El; [|apply last_None in El; subst; cbn in Hlt; lia].
  apply last_Some in El as [l ->]. rewrite removelast_last. rewrite length_app in *. cbn [length] in *.
  rewrite IH by lia. rewrite drop_app_le by lia. rewrite filter_app, rev_app_distr.
  destruct (at_index entries _ index) eqn:Er.
  - rewrite (filter_cons_True _ index []) by done. rewrite filter_nil. cbn. by rewrite <- app_assoc.
  - rewrite (filter_cons_False _ index []) by by rewrite Er. by rewrite filter_nil.
Qed.

(** ** The policy *)

Section Policy.
Context (self : Retention) (entries : list Entry) (now : Z).

Definition resumable_at (i : nat) : bool := at_index entries (fun e => is_resumable (e_lock e)) i.

Definition aged : list nat :=
  filter (fun i => at_index entries (fun e => too_old self now e) i = true) (filter (fun i => resumable_at i = true) (seq 0 (length entries))).

Definition in_order : list nat := sort_by (keep_first_at entries) (filter (fun i => i ∉ aged) (seq 0 (length entries))).

Lemma at_index_true test i : at_index entries test i = true <-> exists e, entries !! i = Some e /\ test e = true.
Proof. apply is_some_and_true. Qed.

Lemma elem_of_aged i : i ∈ aged <-> exists e, entries !! i = Some e /\ is_resumable (e_lock e) = true /\ too_old self now e = true.
Proof.
  unfold aged. rewrite !list_elem_of_filter, elem_of_seq. unfold resumable_at. rewrite !at_index_true. split.
  - intros ((e & He & Ho) & (e' & He' & Hr) & _). simplify_eq. by exists e.
  - intros (e & He & Hr & Ho). split_and!; [by exists e|by exists e|lia|]. by apply lookup_lt_Some in He.
Qed.

Lemma elem_of_in_order i : i ∈ in_order <-> (i < length entries)%nat /\ i ∉ aged.
Proof. unfold in_order. rewrite elem_of_sort_by, list_elem_of_filter, elem_of_seq. naive_solver lia. Qed.

Lemma NoDup_aged : NoDup aged.
Proof. unfold aged. by do 2 apply NoDup_filter; apply NoDup_seq. Qed.

Lemma NoDup_in_order : NoDup in_order.
Proof. unfold in_order. rewrite sort_by_perm. apply NoDup_filter, NoDup_seq. Qed.

Lemma in_order_sorted i j : (i < j)%nat -> forall a b, in_order !! i = Some a -> in_order !! j = Some b -> keep_first_at entries a b = true.
Proof.
  intros Hij a b Ha Hb. refine (StronglySorted_lookup (fun x y => keep_first_at entries x y = true) in_order i j a b _ Hij Ha Hb).
  apply sort_by_sorted.
  - intros x y. unfold keep_first_at. destruct (entries !! x), (entries !! y); auto. apply keep_first_total.
  - intros x y z. unfold keep_first_at. destruct (entries !! x), (entries !! y), (entries !! z); try done. apply keep_first_trans.
Qed.

Lemma in_order_length : (length aged + length in_order = length entries)%nat.
Proof.
  rewrite <- length_app. transitivity (length (seq 0 (length entries))); [|apply length_seq].
  apply Permutation_length, NoDup_Permutation.
  - apply NoDup_app. split_and!; [apply NoDup_aged| |apply NoDup_in_order]. intros i Hi Hn%elem_of_in_order. tauto.
  - apply NoDup_seq.
  - intros i. rewrite elem_of_app, elem_of_in_order, elem_of_seq. destruct (decide (i ∈ aged)) as [Hi|Hi]; [|naive_solver lia].
    split; [intros _|auto]. apply elem_of_aged in Hi as (e & He & _). apply lookup_lt_Some in He. lia.
Qed.

(** Everything chosen: the aged, and past the cap what nothing holds. *)
Lemma expired_perm : expired self entries now ≡ₚ
  match keep_at_most self with None => aged | Some cap => aged ++ filter (fun i => resumable_at i = true) (drop cap in_order) end.
Proof.
  unfold expired. fold aged. destruct (keep_at_most self) as [cap|]; [|done]. fold in_order.
  rewrite sort_by_perm, pop_excess_spec by done. apply Permutation_app; [done|]. symmetry. apply Permutation_rev.
Qed.

Lemma elem_of_expired i : i ∈ expired self entries now <->
  i ∈ aged \/ exists cap, keep_at_most self = Some cap /\ resumable_at i = true /\ i ∈ drop cap in_order.
Proof.
  rewrite expired_perm. destruct (keep_at_most self) as [cap|].
  - rewrite elem_of_app, list_elem_of_filter. naive_solver.
  - naive_solver.
Qed.

Lemma NoDup_expired : NoDup (expired self entries now).
Proof.
  rewrite expired_perm. destruct (keep_at_most self) as [cap|]; [|apply NoDup_aged].
  apply NoDup_app. split; [apply NoDup_aged|]. split.
  - intros i Hi [_ Hd]%list_elem_of_filter. apply (elem_of_sublist _ in_order) in Hd; [|apply sublist_drop]. apply elem_of_in_order in Hd. tauto.
  - apply NoDup_filter. eapply sublist_NoDup; [apply NoDup_in_order|apply sublist_drop].
Qed.

(** What a prune chooses.  Each journal chosen is one, listed once, that nothing is
    writing; every such journal past its age is chosen; one chosen that is not past its
    age is chosen for the cap, and then as many journals as the cap allows are left, and
    each one left that could have been chosen comes before it: it is unfinished where the
    chosen one is finished, or as new or newer. *)
Theorem expired_policy :
  let gone := expired self entries now in
  NoDup gone /\
  (forall i, i ∈ gone -> exists e, entries !! i = Some e /\ is_resumable (e_lock e) = true) /\
  (forall i e, entries !! i = Some e -> is_resumable (e_lock e) = true -> too_old self now e = true -> i ∈ gone) /\
  (forall i e, entries !! i = Some e -> i ∈ gone -> too_old self now e = false ->
    exists cap, keep_at_most self = Some cap /\ (cap + length gone <= length entries)%nat /\
    forall j f, entries !! j = Some f -> is_resumable (e_lock f) = true -> j ∉ gone -> keep_first f e = true).
Proof.
  intros gone. split; [apply NoDup_expired|]. split; [|split].
  - intros i [(e & He & Hr & _)%elem_of_aged|(cap & _ & Hr & _)]%elem_of_expired; [by exists e|by apply at_index_true].
  - intros i e He Hr Ho. apply elem_of_expired. left. apply elem_of_aged. by exists e.
  - intros i e He Hin Ho. apply elem_of_expired in Hin as [(e' & He' & _ & Ho')%elem_of_aged|(cap & Hcap & Hr & Hd)]; [simplify_eq; congruence|].
    exists cap. split; [done|]. apply list_elem_of_lookup in Hd as [k Hk]. rewrite lookup_drop in Hk. split.
    + unfold gone. rewrite (expired_perm). rewrite Hcap, length_app.
      assert (length aged + length in_order = length entries)%nat as Hall by apply in_order_length.
      pose proof (length_filter (fun i => resumable_at i = true) (drop cap in_order)). rewrite length_drop in *. apply lookup_lt_Some in Hk. lia.
    + intros j f Hf Hrf Hj. assert (j ∈ in_order) as [l Hl]%list_elem_of_lookup.
      { apply elem_of_in_order. split; [by apply lookup_lt_Some in Hf|]. intros Ha. apply Hj, elem_of_expired. by left. }
      assert (l < cap)%nat as Hlt.
      { destruct (Nat.lt_ge_cases l cap) as [|Hge]; [done|]. destruct Hj. apply elem_of_expired. right. exists cap. split; [done|].
        split; [apply at_index_true; by exists f|]. apply list_elem_of_lookup. exists (l - cap)%nat. rewrite lookup_drop.
        by replace (cap + (l - cap))%nat with l by lia. }
      pose proof (in_order_sorted l (cap + k) ltac:(lia) j i Hl Hk) as H. unfold keep_first_at in H. by rewrite Hf, He in H.
Qed.
End Policy.

(** Three finished journals past their age but one, a cap of one, and one being written. *)
Example expired_capped :
  let entry t lock := {| e_kind := PortScan; total_targets := 0; created_at := t; e_checkpoint := Some (mkCheckpoint 0 [] None); e_lock := lock |} in
  expired {| completed_for := Some 50; incomplete_for := None; keep_at_most := Some 1%nat; unreadable := false |}
    [entry 90 Free; entry 80 (Held 7 1); entry 70 (Crashed 8); entry 10 Free] 100 = [2; 3]%nat.
Proof. reflexivity. Qed.
