(* ===== verification/Finding.v ===== *)
(** * Findings

    [src/src/model/finding.rs], and the map of findings a port or a host keeps
    ([Port::add_finding] of [model/port.rs], [Host::add_finding] of [model/host.rs]).
    A finding is a claim by a detection; two accounts of one claim fold into one, and
    the subject that holds them is keyed by claim.

    Texts are code points.  What a build of a package is beyond equality
    ([model/port/build.rs]) is not used here, so its type is a parameter. *)

From Stdlib Require Import ZArith Lia String.
From stdpp Require Import base countable numbers sets gmap option list.
From S2P Require Import Prelude Std Text Ordering.

Local Open Scope Z_scope.

(** ** Definitions *)

Definition MAX_EXCERPT_BYTES : nat := 2048.

Definition MAX_FINDINGS_PER_SUBJECT : nat := 256.

Inductive Severity := Info | Low | Medium | High | Critical.

Inductive Confidence := Heuristic | Weak | Probable | Strong | Certain.

Inductive DetectionClass := ClassPassive | ClassActiveBenign | ClassActiveMutating | ClassExploit | ClassDos.

#[export] Instance Severity_eq_dec : EqDecision Severity.
Proof. solve_decision. Defined.
#[export] Instance Confidence_eq_dec : EqDecision Confidence.
Proof. solve_decision. Defined.
#[export] Instance DetectionClass_eq_dec : EqDecision DetectionClass.
Proof. solve_decision. Defined.

(** The order derived for [Confidence], weakest first. *)
Definition confidence_rank (c : Confidence) : Z :=
  match c with Heuristic => 0 | Weak => 1 | Probable => 2 | Strong => 3 | Certain => 4 end.

(** [Ord::max]: the second of two that compare equal. *)
Definition confidence_max (a b : Confidence) : Confidence := if confidence_rank b <? confidence_rank a then a else b.

(** *** Versions *)

Record DetectionVersion := mkVersion {
  major : Z;
  minor : Z;
  patch : Z;
}.

#[export] Instance DetectionVersion_eq_dec : EqDecision DetectionVersion.
Proof. solve_decision. Defined.

(** [<=] of the derived order. *)
Definition version_leb (a b : DetectionVersion) : bool :=
  (major a <? major b) ||
  ((major a =? major b) && ((minor a <? minor b) || ((minor a =? minor b) && (patch a <=? patch b)))).

Inductive VersionParseError := NotAVersion (input : text).

(** [FromStr for Version]: each [number()] takes the next part. *)
Definition version_from_str (s : text) : Result DetectionVersion VersionParseError :=
  let fail {A} : Result A VersionParseError := Err (NotAVersion s) in
  let number (parts : list text) : Result (Z * list text) VersionParseError :=
    match parts with
    | [] => fail
    | part :: rest => match parse_uint 16 part with Ok n => Ok (n, rest) | Err _ => fail end
    end in
  let? (a, rest) := number (split_by (Z.eqb 46) s) in
  let? (b, rest) := number rest in
  let? (c, rest) := number rest in
  match rest with [] => Ok (mkVersion a b c) | _ => fail end.

(** [Display for Version]. *)
Definition version_display (v : DetectionVersion) : text :=
  show_uint (major v) ++ 46 :: show_uint (minor v) ++ 46 :: show_uint (patch v).

(** *** References *)

Inductive Reference := Cve (id : text) | Cwe (number : Z) | Url (url : text).

#[export] Instance Reference_eq_dec : EqDecision Reference.
Proof. solve_decision. Defined.

(** [str::strip_prefix]. *)
Fixpoint strip_prefix (p s : text) : option text :=
  match p, s with
  | [], _ => Some s
  | x :: p, y :: s => if x =? y then strip_prefix p s else None
  | _ :: _, [] => None
  end.

(** Over bytes in the source; a text of ASCII digits has one byte to a code point. *)
Definition is_cve_shaped (id : text) : bool :=
  match strip_prefix (lit "CVE-") id with
  | None => false
  | Some rest =>
      match split_once (Z.eqb 45) rest with
      | None => false
      | Some (year, seq) =>
          (byte_len year =? 4)%nat && forallb is_ascii_digit year && negb (bool_decide (seq = [])) &&
          forallb is_ascii_digit seq
      end
  end.

(** [Reference::cve]. *)
Definition reference_cve (id : text) : option Reference := if is_cve_shaped id then Some (Cve id) else None.

(** *** The parts of a finding *)

Inductive FindingError := EmptyId | EmptyTitle | EmptyGroup | NoExploitedCve.

Definition blank (s : text) : bool := bool_decide (trim s = []).

Record FindingGroup := mkFindingGroup {
  group_id : text;
  group_summary : text;
}.

#[export] Instance FindingGroup_eq_dec : EqDecision FindingGroup.
Proof. solve_decision. Defined.

Definition group_new (id summary : text) : Result FindingGroup FindingError :=
  if blank id || blank summary then Err EmptyGroup else Ok (mkFindingGroup id summary).

(** The longest prefix of at most [n] bytes that ends between characters. *)
Fixpoint keep_bytes (n : nat) (s : text) : text :=
  match s with
  | [] => []
  | c :: s => if (len_utf8 c <=? n)%nat then c :: keep_bytes (n - len_utf8 c) s else []
  end.

(** [Excerpt::new]. *)
Definition excerpt_new (s : text) : text := if (MAX_EXCERPT_BYTES <? byte_len s)%nat then keep_bytes MAX_EXCERPT_BYTES s else s.

Record DetectionId := mkDetectionId {
  det_id : text;
  det_version : DetectionVersion;
  det_content_hash : text;
}.

#[export] Instance DetectionId_eq_dec : EqDecision DetectionId.
Proof. solve_decision. Defined.

Definition detection_id_new (id : text) (version : DetectionVersion) (content_hash : text) : Result DetectionId FindingError :=
  if blank id then Err EmptyId else Ok (mkDetectionId id version content_hash).

Record Exploitation := mkExploitation {
  exploited_by : DetectionId;
  exploited_cves : list text;
}.

#[export] Instance Exploitation_eq_dec : EqDecision Exploitation.
Proof. solve_decision. Defined.

(** The loop of [Exploitation::new]. *)
Definition keep_cve (kept : list text) (cve : text) : list text :=
  if is_cve_shaped cve && negb (bool_decide (cve ∈ kept)) then kept ++ [cve] else kept.

Definition exploitation_new (by_ : DetectionId) (cves : list text) : Result Exploitation FindingError :=
  match foldl keep_cve [] cves with
  | [] => Err NoExploitedCve
  | kept => Ok (mkExploitation by_ kept)
  end.

Record ClaimId := mkClaimId {
  claim_detection : text;
  claim_subject : text;
}.

#[export] Instance ClaimId_eq_dec : EqDecision ClaimId.
Proof. solve_decision. Defined.
#[export] Instance ClaimId_countable : Countable ClaimId.
Proof. by refine (inj_countable' (fun c => (claim_detection c, claim_subject c)) (fun '(d, s) => mkClaimId d s) _); intros []. Defined.

(** *** Findings *)

Section Findings.
Context {Build : Type} `{EqDecision Build}.

Record Finding := mkFinding {
  detection : DetectionId;
  title : text;
  severity : Severity;
  confidence : Confidence;
  class : DetectionClass;
  excerpt : text;
  references : list Reference;
  remediation : option text;
  cpes : gset text;
  subject : option text;
  build_of : option Build;
  group : option FindingGroup;
  advised_by : option DetectionId;
  exploitation : option Exploitation;
}.

#[export] Instance Finding_eq_dec : EqDecision Finding.
Proof using Type*. solve_decision. Defined.

Definition finding_new (d : DetectionId) (t : text) (s : Severity) (c : Confidence) (k : DetectionClass) : Result Finding FindingError :=
  if blank t then Err EmptyTitle else Ok (mkFinding d t s c k [] [] None ∅ None None None None None).

(** The account of a claim, one field replaced. *)
Definition set_detection (x : DetectionId) (f : Finding) : Finding :=
  mkFinding x (title f) (severity f) (confidence f) (class f) (excerpt f) (references f) (remediation f) (cpes f) (subject f) (build_of f) (group f) (advised_by f) (exploitation f).
Definition set_title (x : text) (f : Finding) : Finding :=
  mkFinding (detection f) x (severity f) (confidence f) (class f) (excerpt f) (references f) (remediation f) (cpes f) (subject f) (build_of f) (group f) (advised_by f) (exploitation f).
Definition set_severity (x : Severity) (f : Finding) : Finding :=
  mkFinding (detection f) (title f) x (confidence f) (class f) (excerpt f) (references f) (remediation f) (cpes f) (subject f) (build_of f) (group f) (advised_by f) (exploitation f).
Definition set_confidence (x : Confidence) (f : Finding) : Finding :=
  mkFinding (detection f) (title f) (severity f) x (class f) (excerpt f) (references f) (remediation f) (cpes f) (subject f) (build_of f) (group f) (advised_by f) (exploitation f).
Definition set_class (x : DetectionClass) (f : Finding) : Finding :=
  mkFinding (detection f) (title f) (severity f) (confidence f) x (excerpt f) (references f) (remediation f) (cpes f) (subject f) (build_of f) (group f) (advised_by f) (exploitation f).
Definition with_excerpt (x : text) (f : Finding) : Finding :=
  mkFinding (detection f) (title f) (severity f) (confidence f) (class f) x (references f) (remediation f) (cpes f) (subject f) (build_of f) (group f) (advised_by f) (exploitation f).
Definition set_references (x : list Reference) (f : Finding) : Finding :=
  mkFinding (detection f) (title f) (severity f) (confidence f) (class f) (excerpt f) x (remediation f) (cpes f) (subject f) (build_of f) (group f) (advised_by f) (exploitation f).
Definition set_remediation (x : option text) (f : Finding) : Finding :=
  mkFinding (detection f) (title f) (severity f) (confidence f) (class f) (excerpt f) (references f) x (cpes f) (subject f) (build_of f) (group f) (advised_by f) (exploitation f).
Definition set_cpes (x : gset text) (f : Finding) : Finding :=
  mkFinding (detection f) (title f) (severity f) (confidence f) (class f) (excerpt f) (references f) (remediation f) x (subject f) (build_of f) (group f) (advised_by f) (exploitation f).
Definition set_subject (x : option text) (f : Finding) : Finding :=
  mkFinding (detection f) (title f) (severity f) (confidence f) (class f) (excerpt f) (references f) (remediation f) (cpes f) x (build_of f) (group f) (advised_by f) (exploitation f).
Definition set_build (x : option Build) (f : Finding) : Finding :=
  mkFinding (detection f) (title f) (severity f) (confidence f) (class f) (excerpt f) (references f) (remediation f) (cpes f) (subject f) x (group f) (advised_by f) (exploitation f).
Definition set_group (x : option FindingGroup) (f : Finding) : Finding :=
  mkFinding (detection f) (title f) (severity f) (confidence f) (class f) (excerpt f) (references f) (remediation f) (cpes f) (subject f) (build_of f) x (advised_by f) (exploitation f).
Definition set_advised_by (x : option DetectionId) (f : Finding) : Finding :=
  mkFinding (detection f) (title f) (severity f) (confidence f) (class f) (excerpt f) (references f) (remediation f) (cpes f) (subject f) (build_of f) (group f) x (exploitation f).
Definition set_exploitation (x : option Exploitation) (f : Finding) : Finding :=
  mkFinding (detection f) (title f) (severity f) (confidence f) (class f) (excerpt f) (references f) (remediation f) (cpes f) (subject f) (build_of f) (group f) (advised_by f) x.

Definition with_cpe (cpe : text) (f : Finding) : Finding := set_cpes ({[ cpe ]} ∪ cpes f) f.

Definition with_reference (r : Reference) (f : Finding) : Finding :=
  if bool_decide (r ∈ references f) then f else set_references (references f ++ [r]) f.

Definition is_correlation (f : Finding) : bool := negb (bool_decide (cpes f = ∅)).

(** The lowest identifier: [Iterator::min]. *)
Fixpoint min_text (l : list text) : option text :=
  match l with
  | [] => None
  | x :: l =>
      match min_text l with
      | None => Some x
      | Some y => Some (match str_cmp y x with Lt => y | _ => x end)
      end
  end.

Definition cve_ids (l : list Reference) : list text := omap (fun r => match r with Cve id => Some id | _ => None end) l.

Definition claim_id (f : Finding) : ClaimId :=
  mkClaimId (det_id (detection f)) (default (default (title f) (min_text (cve_ids (references f)))) (subject f)).

(** One [if] of [corroborate] that, when its condition holds, changes the finding and
    says so. *)
Definition amend (c : Finding -> bool) (change : Finding -> Finding) (p : Finding * bool) : Finding * bool :=
  if c (fst p) then (change (fst p), true) else p.

Definition is_some {A} (x : option A) : bool := match x with Some _ => true | None => false end.

(** A correlation's certainty, references and what rests on them, at the same version
    or a newer one. *)
Definition take_correlation (other : Finding) (p : Finding * bool) : Finding * bool :=
  let p := amend (fun f => negb (bool_decide (confidence other = confidence f))) (set_confidence (confidence other)) p in
  let p := amend (fun f => negb (bool_decide (references other = references f))) (set_references (references other)) p in
  let p := amend (fun f => negb (bool_decide (build_of other = build_of f))) (set_build (build_of other)) p in
  let p := amend (fun f => negb (bool_decide (advised_by other = advised_by f))) (set_advised_by (advised_by other)) p in
  amend (fun f => negb (bool_decide (exploitation other = exploitation f))) (set_exploitation (exploitation other)) p.

Definition union_references (l : list Reference) (p : Finding * bool) : Finding * bool :=
  foldl (fun p r => amend (fun f => negb (bool_decide (r ∈ references f))) (fun f => set_references (references f ++ [r]) f) p) p l.

(** Any other finding's: certainty rises and references add up. *)
Definition add_evidence (other : Finding) (p : Finding * bool) : Finding * bool :=
  let stronger := confidence_max (confidence (fst p)) (confidence other) in
  let p := amend (fun f => negb (bool_decide (stronger = confidence f))) (set_confidence stronger) p in
  let p := union_references (references other) p in
  let p := amend (fun f => negb (is_some (build_of f)) && is_some (build_of other)) (set_build (build_of other)) p in
  let p := amend (fun f => negb (is_some (advised_by f)) && is_some (advised_by other)) (set_advised_by (advised_by other)) p in
  amend (fun f => negb (is_some (exploitation f)) && is_some (exploitation other)) (set_exploitation (exploitation other)) p.

(** The subject, and the group with the verdict. *)
Definition take_subject (at_least_as_new : bool) (other : Finding) (p : Finding * bool) : Finding * bool :=
  let p := amend (fun f => negb (is_some (subject f)) && is_some (subject other)) (set_subject (subject other)) p in
  amend (fun f => at_least_as_new && is_some (group other) && negb (bool_decide (group other = group f))) (set_group (group other)) p.

Definition is_empty_text (s : text) : bool := bool_decide (s = []).

Definition take_verdict (other : Finding) (p : Finding * bool) : Finding * bool :=
  let p := amend (fun f => negb (version_leb (det_version (detection other)) (det_version (detection f)))) (set_detection (detection other)) p in
  let p := amend (fun f => negb (bool_decide (severity other = severity f))) (set_severity (severity other)) p in
  let p := amend (fun f => negb (bool_decide (title other = title f))) (set_title (title other)) p in
  let p := amend (fun f => negb (bool_decide (class other = class f))) (set_class (class other)) p in
  let p := amend (fun f => negb (is_empty_text (excerpt other)) && negb (bool_decide (excerpt other = excerpt f))) (with_excerpt (excerpt other)) p in
  amend (fun f => is_some (remediation other) && negb (bool_decide (remediation other = remediation f))) (set_remediation (remediation other)) p.

Definition fill_gaps (other : Finding) (p : Finding * bool) : Finding * bool :=
  let p := amend (fun f => is_empty_text (excerpt f) && negb (is_empty_text (excerpt other))) (with_excerpt (excerpt other)) p in
  amend (fun f => negb (is_some (remediation f)) && is_some (remediation other)) (set_remediation (remediation other)) p.

Definition union_cpes (l : list text) (p : Finding * bool) : Finding * bool :=
  foldl (fun p cpe => amend (fun f => negb (bool_decide (cpe ∈ cpes f))) (with_cpe cpe) p) p l.

Definition corroborate (self other : Finding) : Finding * bool :=
  let correlation := is_correlation self && is_correlation other in
  let at_least_as_new := version_leb (det_version (detection self)) (det_version (detection other)) in
  let p := (self, false) in
  let p := if correlation then (if at_least_as_new then take_correlation other p else p) else add_evidence other p in
  let p := take_subject at_least_as_new other p in
  let p := if at_least_as_new then take_verdict other p else fill_gaps other p in
  union_cpes (elements (cpes other)) p.

(** *** The subject that holds them *)

(** [Port::add_finding] and [Host::add_finding]. *)
Definition add_finding (findings : gmap ClaimId Finding) (f : Finding) : gmap ClaimId Finding * bool :=
  let claim := claim_id f in
  let full := (MAX_FINDINGS_PER_SUBJECT <=? size findings)%nat in
  match findings !! claim with
  | Some existing => let '(existing, changed) := corroborate existing f in (<[claim := existing]> findings, changed)
  | None => if full then (findings, false) else (<[claim := f]> findings, true)
  end.

Definition drawn_by (d : text) (f : Finding) : bool := is_correlation f && bool_decide (det_id (detection f) = d).

(** The order derived for [ClaimId]. *)
Definition claim_leb (a b : ClaimId) : bool :=
  match then_cmp (str_cmp (claim_detection a) (claim_detection b)) (str_cmp (claim_subject a) (claim_subject b)) with
  | Gt => false
  | _ => true
  end.

(** The values of a [BTreeMap], in the order of their keys. *)
Definition values (findings : gmap ClaimId Finding) : list Finding :=
  (sort_by (fun a b => claim_leb (fst a) (fst b)) (map_to_list findings)).*2.

(** [Port::replace_correlations]. *)
Definition replace_correlations (findings : gmap ClaimId Finding) (d : text) (fresh : list Finding) : gmap ClaimId Finding * bool :=
  let before := filter (fun f => drawn_by d f = true) (values findings) in
  let findings := filter (fun cf => drawn_by d (snd cf) = false) findings in
  let findings := foldl (fun m f => fst (add_finding m f)) findings fresh in
  let after := filter (fun f => drawn_by d f = true) (values findings) in
  (findings, negb (length before =? length after)%nat || existsb (fun '(a, b) => negb (bool_decide (a = b))) (zip before after)).

(** The newest version each detection correlated with. *)
Definition newest_correlations (l : list Finding) : gmap text DetectionVersion :=
  foldl (fun newest f =>
    if is_correlation f then
      let version := det_version (detection f) in
      let id := det_id (detection f) in
      match newest !! id with
      | Some held => <[id := if version_leb version held then held else version]> newest
      | None => <[id := version]> newest
      end
    else newest) ∅ l.

(** [Port::retire_superseded_correlations]. *)
Definition retire_superseded_correlations (findings : gmap ClaimId Finding) : gmap ClaimId Finding * bool :=
  let newest := newest_correlations (values findings) in
  let kept := filter (fun cf =>
    negb (is_correlation (snd cf)) ||
    match newest !! det_id (detection (snd cf)) with
    | None => true
    | Some newest => version_leb newest (det_version (detection (snd cf)))
    end = true) findings in
  (kept, negb (size kept =? size findings)%nat).
End Findings.
Arguments Finding : clear implicits.

(** ** What a corroborated finding holds *)

Section Corroboration.
Context {Build : Type} `{EqDecision Build}.
Local Notation Finding := (Finding Build).
Implicit Types f self other : Finding.
Implicit Types p : Finding * bool.

Definition or_else {A} (x y : option A) : option A := match x with Some _ => x | None => y end.

(** References added one after another, each once. *)
Definition add_references (l more : list Reference) : list Reference :=
  foldl (fun l r => if bool_decide (r ∈ l) then l else l ++ [r]) l more.

Definition newer_of (self other : DetectionId) : DetectionId :=
  if version_leb (det_version other) (det_version self) then self else other.

(** The excerpt of the account preferred, unless it has none. *)
Definition excerpt_of (preferred other : text) : text := if is_empty_text preferred then other else preferred.

(** The two accounts of a claim, field by field. *)
Definition folded self other : Finding :=
  let correlation := is_correlation self && is_correlation other in
  let new := version_leb (det_version (detection self)) (det_version (detection other)) in
  mkFinding
    (newer_of (detection self) (detection other))
    (if new then title other else title self)
    (if new then severity other else severity self)
    (if correlation then (if new then confidence other else confidence self)
     else confidence_max (confidence self) (confidence other))
    (if new then class other else class self)
    (if new then excerpt_of (excerpt other) (excerpt self) else excerpt_of (excerpt self) (excerpt other))
    (if correlation then (if new then references other else references self)
     else add_references (references self) (references other))
    (if new then or_else (remediation other) (remediation self) else or_else (remediation self) (remediation other))
    (cpes self ∪ cpes other)
    (or_else (subject self) (subject other))
    (if correlation then (if new then build_of other else build_of self) else or_else (build_of self) (build_of other))
    (if new then or_else (group other) (group self) else group self)
    (if correlation then (if new then advised_by other else advised_by self) else or_else (advised_by self) (advised_by other))
    (if correlation then (if new then exploitation other else exploitation self) else or_else (exploitation self) (exploitation other)).

Lemma amend_fst c (change : Finding -> Finding) p : (c (fst p) = false -> change (fst p) = fst p) -> fst (amend c change p) = change (fst p).
Proof. unfold amend. intros Hc. destruct (c (fst p)) eqn:E; [done|]. cbn. by rewrite Hc. Qed.

Lemma amend_snd c (change : Finding -> Finding) p : snd (amend c change p) = snd p || c (fst p).
Proof. unfold amend. destruct (c (fst p)); cbn; [by rewrite orb_true_r|by rewrite orb_false_r]. Qed.

Lemma version_leb_total a b : version_leb a b = false -> version_leb b a = true.
Proof. unfold version_leb. lia. Qed.

Lemma add_references_grows l more : exists rest, add_references l more = l ++ rest /\ forall r, r ∈ rest -> r ∈ more.
Proof.
  revert l. induction more as [|r more IH]; intros l; cbn; [exists []; rewrite app_nil_r; set_solver|].
  unfold add_references in IH. case_bool_decide.
  - destruct (IH l) as (rest & -> & Hr). exists rest. split; [done|]. set_solver.
  - destruct (IH (l ++ [r])) as (rest & -> & Hr). exists (r :: rest). rewrite <- app_assoc. split; [done|]. set_solver.
Qed.

Lemma elem_of_add_references r l more : r ∈ add_references l more <-> r ∈ l \/ r ∈ more.
Proof.
  revert l. induction more as [|x more IH]; intros l; cbn; [set_solver|]. unfold add_references in IH. rewrite IH.
  case_bool_decide; set_solver.
Qed.

Lemma add_references_same l more : add_references l more = l <-> forall r, r ∈ more -> r ∈ l.
Proof.
  split; [intros E r Hr; rewrite <- E; apply elem_of_add_references; by right|].
  revert l. induction more as [|r more IH]; intros l Hl; [done|]. cbn. rewrite bool_decide_true by set_solver.
  apply IH. set_solver.
Qed.

Lemma union_references_fst l p : fst (union_references l p) = set_references (add_references (references (fst p)) l) (fst p).
Proof.
  revert p. induction l as [|r l IH]; intros p; cbn; [by destruct p as [[] ?]|]. unfold union_references in IH. rewrite IH.
  unfold amend. destruct (bool_decide (r ∈ references (fst p))) eqn:E; cbn; by destruct p as [[] ?].
Qed.

Lemma union_references_snd l p :
  snd (union_references l p) = snd p || negb (bool_decide (add_references (references (fst p)) l = references (fst p))).
Proof.
  revert p. induction l as [|r l IH]; intros p; cbn; [by rewrite bool_decide_true, orb_false_r by done|].
  unfold union_references in IH. rewrite IH, amend_snd. unfold amend.
  destruct (bool_decide (r ∈ references (fst p))) eqn:E; cbn; [by rewrite orb_false_r|]. rewrite orb_true_r. cbn.
  rewrite bool_decide_false; [by rewrite orb_true_r|]. apply bool_decide_eq_false in E. intros Hs.
  destruct (add_references_grows (references (fst p) ++ [r]) l) as (rest & Hg & _). unfold add_references in *. rewrite Hg in Hs.
  rewrite <- app_assoc in Hs. apply (f_equal length) in Hs. rewrite length_app in Hs. cbn in Hs. lia.
Qed.

Lemma union_cpes_fst l p : fst (union_cpes l p) = set_cpes (cpes (fst p) ∪ list_to_set l) (fst p).
Proof.
  revert p. induction l as [|c l IH]; intros p; cbn [union_cpes foldl list_to_set].
  { rewrite union_empty_r_L. by destruct p as [[] ?]. }
  unfold union_cpes in IH. rewrite IH. unfold amend. destruct (bool_decide (c ∈ cpes (fst p))) eqn:E; cbn - [union].
  - apply bool_decide_eq_true in E. f_equal. set_solver.
  - unfold with_cpe, set_cpes. cbn - [union]. f_equal. set_solver.
Qed.

Lemma union_cpes_snd l p :
  snd (union_cpes l p) = snd p || negb (bool_decide (cpes (fst p) ∪ list_to_set l = cpes (fst p))).
Proof.
  revert p. induction l as [|c l IH]; intros p; cbn [union_cpes foldl list_to_set].
  { by rewrite union_empty_r_L, bool_decide_true, orb_false_r. }
  unfold union_cpes in IH. rewrite IH, amend_snd. unfold amend.
  destruct (bool_decide (c ∈ cpes (fst p))) eqn:E; cbn - [union]; rewrite ?orb_false_r, ?orb_true_r; cbn - [union].
  - apply bool_decide_eq_true in E. do 2 f_equal. apply bool_decide_ext. set_solver.
  - apply bool_decide_eq_false in E. rewrite bool_decide_false; [by rewrite orb_true_r|]. set_solver.
Qed.

(** An amendment that does not apply would change nothing. *)
Ltac same_field :=
  let p := fresh in let E := fresh in
  match goal with |- _ -> _ ?x = ?x => generalize x; intros p E end;
  destruct p; cbn in E |- *;
  repeat match goal with
  | H : negb _ = false |- _ => apply negb_false_iff in H
  | H : bool_decide _ = true |- _ => apply bool_decide_eq_true in H
  end; unfold set_confidence, set_references, set_build, set_advised_by, set_exploitation, set_severity, set_title, set_class; cbn; congruence.

(** An amendment of another field leaves this one. *)
Lemma amend_get {A} (get : Finding -> A) c (change : Finding -> Finding) p :
  (forall f, get (change f) = get f) -> get (fst (amend c change p)) = get (fst p).
Proof. intros Hget. unfold amend. destruct (c _); [apply Hget|done]. Qed.

Lemma take_correlation_fst other p :
  fst (take_correlation other p) =
  set_exploitation (exploitation other) (set_advised_by (advised_by other) (set_build (build_of other)
    (set_references (references other) (set_confidence (confidence other) (fst p))))).
Proof. unfold take_correlation. rewrite !amend_fst by same_field. done. Qed.

Lemma take_correlation_snd other p :
  snd (take_correlation other p) =
  snd p || negb (bool_decide (confidence other = confidence (fst p))) || negb (bool_decide (references other = references (fst p)))
        || negb (bool_decide (build_of other = build_of (fst p))) || negb (bool_decide (advised_by other = advised_by (fst p)))
        || negb (bool_decide (exploitation other = exploitation (fst p))).
Proof. unfold take_correlation. rewrite !amend_snd, !amend_fst by same_field. done. Qed.

(** A field filled where it was missing. *)
Lemma amend_missing {A} (get : Finding -> option A) (set : option A -> Finding -> Finding) (x : option A) p :
  (forall f, set (get f) f = f) ->
  fst (amend (fun f => negb (is_some (get f)) && is_some x) (set x) p) = set (or_else (get (fst p)) x) (fst p).
Proof. intros Hset. unfold amend. destruct (get (fst p)) eqn:E, x; cbn; by rewrite <- ?E, ?Hset. Qed.

Lemma missing_differs {A} `{EqDecision A} (x y : option A) : negb (is_some x) && is_some y = negb (bool_decide (or_else x y = x)).
Proof. destruct x, y; cbn [or_else is_some negb andb]; case_bool_decide; done. Qed.

Lemma add_evidence_fst other p :
  fst (add_evidence other p) =
  set_exploitation (or_else (exploitation (fst p)) (exploitation other)) (set_advised_by (or_else (advised_by (fst p)) (advised_by other))
    (set_build (or_else (build_of (fst p)) (build_of other))
    (set_references (add_references (references (fst p)) (references other))
    (set_confidence (confidence_max (confidence (fst p)) (confidence other)) (fst p))))).
Proof.
  unfold add_evidence.
  rewrite !(amend_missing exploitation), !(amend_missing advised_by), !(amend_missing build_of), !union_references_fst by (by intros []).
  by rewrite !amend_fst by same_field.
Qed.

Lemma add_evidence_snd other p :
  snd (add_evidence other p) =
  snd p || negb (bool_decide (confidence_max (confidence (fst p)) (confidence other) = confidence (fst p)))
        || negb (bool_decide (add_references (references (fst p)) (references other) = references (fst p)))
        || negb (bool_decide (or_else (build_of (fst p)) (build_of other) = build_of (fst p)))
        || negb (bool_decide (or_else (advised_by (fst p)) (advised_by other) = advised_by (fst p)))
        || negb (bool_decide (or_else (exploitation (fst p)) (exploitation other) = exploitation (fst p))).
Proof.
  unfold add_evidence.
  rewrite !amend_snd, !(amend_missing advised_by), !(amend_missing build_of), !union_references_snd, !union_references_fst, !amend_snd by (by intros []).
  rewrite !amend_fst by same_field. by rewrite <- !missing_differs.
Qed.

(** What a newer or equal account sets, where it has it. *)
Definition taken {A} (new : bool) (x y : option A) : option A := if new then or_else y x else x.

Lemma amend_taken {A} `{EqDecision A} (new : bool) (get : Finding -> option A) (set : option A -> Finding -> Finding) (x : option A) p :
  (forall f, set (get f) f = f) ->
  fst (amend (fun f => new && is_some x && negb (bool_decide (x = get f))) (set x) p) = set (taken new (get (fst p)) x) (fst p).
Proof.
  intros Hset. unfold amend. destruct new, x as [x|]; cbn; [|by rewrite Hset..].
  case_bool_decide as E; cbn; [|done]. by rewrite E, Hset.
Qed.

Lemma taken_differs {A} `{EqDecision A} (new : bool) (x y : option A) :
  new && is_some y && negb (bool_decide (y = x)) = negb (bool_decide (taken new x y = x)).
Proof. destruct new, x, y; cbn [or_else taken is_some negb andb]; repeat case_bool_decide; done. Qed.

Lemma take_subject_fst new other p :
  fst (take_subject new other p) = set_group (taken new (group (fst p)) (group other)) (set_subject (or_else (subject (fst p)) (subject other)) (fst p)).
Proof. unfold take_subject. rewrite (amend_taken new group), (amend_missing subject) by (by intros []). done. Qed.

Lemma take_subject_snd new other p :
  snd (take_subject new other p) =
  snd p || negb (bool_decide (or_else (subject (fst p)) (subject other) = subject (fst p)))
        || negb (bool_decide (taken new (group (fst p)) (group other) = group (fst p))).
Proof.
  unfold take_subject. rewrite !amend_snd, (amend_missing subject) by (by intros []). rewrite <- missing_differs, <- taken_differs. done.
Qed.

Lemma take_verdict_fst other p :
  fst (take_verdict other p) =
  set_remediation (or_else (remediation other) (remediation (fst p))) (with_excerpt (excerpt_of (excerpt other) (excerpt (fst p)))
    (set_class (class other) (set_title (title other) (set_severity (severity other)
    (set_detection (newer_of (detection (fst p)) (detection other)) (fst p)))))).
Proof.
  unfold take_verdict.
  assert (forall p, fst (amend (fun f => is_some (remediation other) && negb (bool_decide (remediation other = remediation f)))
    (set_remediation (remediation other)) p) = set_remediation (or_else (remediation other) (remediation (fst p))) (fst p)) as ->.
  { intros q. apply (amend_taken true remediation set_remediation). by intros []. }
  assert (forall p, fst (amend (fun f => negb (is_empty_text (excerpt other)) && negb (bool_decide (excerpt other = excerpt f))) (with_excerpt (excerpt other)) p) =
    with_excerpt (excerpt_of (excerpt other) (excerpt (fst p))) (fst p)) as ->.
  { intros [[] ch]. unfold amend, excerpt_of, with_excerpt. cbn. destruct (is_empty_text _); cbn; [done|]. by case_bool_decide; cbn; subst. }
  rewrite !amend_fst by same_field. unfold amend, newer_of. by destruct p as [[] ch]; cbn; destruct (version_leb _ _).
Qed.

Lemma take_verdict_snd other p :
  snd (take_verdict other p) =
  snd p || negb (version_leb (det_version (detection other)) (det_version (detection (fst p))))
        || negb (bool_decide (severity other = severity (fst p))) || negb (bool_decide (title other = title (fst p)))
        || negb (bool_decide (class other = class (fst p)))
        || negb (bool_decide (excerpt_of (excerpt other) (excerpt (fst p)) = excerpt (fst p)))
        || negb (bool_decide (or_else (remediation other) (remediation (fst p)) = remediation (fst p))).
Proof.
  unfold take_verdict. rewrite !amend_snd.
  rewrite !(amend_get remediation), !(amend_get excerpt), !(amend_get class), !(amend_get title), !(amend_get severity) by done.
  f_equal; [f_equal|].
  - unfold excerpt_of, is_empty_text. rewrite (bool_decide_decide (excerpt other = [])).
    destruct (decide (excerpt other = [])); cbn [andb negb]; [by rewrite bool_decide_true|done].
  - apply (taken_differs true).
Qed.

Lemma fill_gaps_fst other p :
  fst (fill_gaps other p) =
  set_remediation (or_else (remediation (fst p)) (remediation other)) (with_excerpt (excerpt_of (excerpt (fst p)) (excerpt other)) (fst p)).
Proof.
  unfold fill_gaps. rewrite (amend_missing remediation) by (by intros []). unfold amend, excerpt_of, is_empty_text.
  destruct p as [[] ch]; cbn. repeat case_bool_decide; unfold with_excerpt; cbn; congruence.
Qed.

Lemma fill_gaps_snd other p :
  snd (fill_gaps other p) =
  snd p || negb (bool_decide (excerpt_of (excerpt (fst p)) (excerpt other) = excerpt (fst p)))
        || negb (bool_decide (or_else (remediation (fst p)) (remediation other) = remediation (fst p))).
Proof.
  unfold fill_gaps. rewrite !amend_snd, (amend_get remediation), missing_differs by done. f_equal. f_equal.
  unfold excerpt_of, is_empty_text. rewrite (bool_decide_decide (excerpt (fst p) = [])).
  destruct (decide (excerpt (fst p) = [])) as [->|]; cbn [andb]; [f_equal; by apply bool_decide_ext|by rewrite bool_decide_true].
Qed.

Lemma newer_of_old a b : version_leb (det_version a) (det_version b) = false -> newer_of a b = a.
Proof. intros E%version_leb_total. unfold newer_of. by rewrite E. Qed.

Lemma corroborate_fst self other : fst (corroborate self other) = folded self other.
Proof.
  unfold corroborate. rewrite union_cpes_fst, list_to_set_elements_L. unfold folded.
  destruct (is_correlation self && is_correlation other), (version_leb (det_version (detection self)) (det_version (detection other))) eqn:Enew;
    rewrite ?take_verdict_fst, ?fill_gaps_fst, take_subject_fst, ?take_correlation_fst, ?add_evidence_fst; cbn - [union];
    try done.
  all: by rewrite (newer_of_old _ _ Enew).
Qed.

Lemma changed_either (P Q : Prop) `{Decision P, Decision Q} : negb (bool_decide P) || negb (bool_decide Q) = negb (bool_decide (P /\ Q)).
Proof. by repeat case_bool_decide; naive_solver. Qed.

Lemma newer_differs (a b : DetectionId) : negb (version_leb (det_version b) (det_version a)) = negb (bool_decide (newer_of a b = a)).
Proof.
  unfold newer_of. destruct (version_leb (det_version b) (det_version a)) eqn:E; [by rewrite bool_decide_true|].
  rewrite bool_decide_false; [done|]. intros ->. unfold version_leb in E. lia.
Qed.

Lemma finding_eq (x y : Finding) :
  x = y <->
  (((confidence x = confidence y /\ references x = references y) /\ build_of x = build_of y) /\ advised_by x = advised_by y) /\
  exploitation x = exploitation y /\ subject x = subject y /\ group x = group y /\ detection x = detection y /\ severity x = severity y /\
  title x = title y /\ class x = class y /\ excerpt x = excerpt y /\ remediation x = remediation y /\ cpes x = cpes y.
Proof. destruct x, y; cbn. split; [intros E; injection E as ?????? ????????; subst; by split_and!|]. intros. destruct_and!. by subst. Qed.

Lemma corroborate_snd self other : snd (corroborate self other) = negb (bool_decide (folded self other = self)).
Proof.
  rewrite (bool_decide_ext _ _ (finding_eq _ _)).
  unfold corroborate. rewrite union_cpes_snd, list_to_set_elements_L. unfold folded.
  destruct (is_correlation self && is_correlation other), (version_leb (det_version (detection self)) (det_version (detection other))) eqn:Enew;
    rewrite ?take_verdict_snd, ?take_verdict_fst, ?fill_gaps_snd, ?fill_gaps_fst, ?take_subject_snd, ?take_subject_fst,
      ?take_correlation_snd, ?take_correlation_fst, ?add_evidence_snd, ?add_evidence_fst; cbn - [union].
  all: rewrite ?newer_differs, ?changed_either; f_equal; apply bool_decide_ext.
  all: rewrite ?(newer_of_old _ _ Enew); tauto.
Qed.

(** ** The claim a finding makes *)

Lemma str_cmp_eq a b : str_cmp a b = Eq -> a = b.
Proof.
  revert b. induction a as [|x a IH]; intros [|y b]; cbn; try done. unfold then_cmp.
  destruct (Z.compare_spec x y); try done. intros E. subst. f_equal. by apply IH.
Qed.

Lemma min_text_spec l c : min_text l = Some c <-> c ∈ l /\ forall x, x ∈ l -> str_cmp c x <> Gt.
Proof.
  revert c. induction l as [|x l IH]; intros c; cbn; [set_solver|]. setoid_rewrite elem_of_cons.
  destruct (min_text l) as [y|] eqn:E.
  - destruct (proj1 (IH y) eq_refl) as [Hy Hmin]. split.
    + intros [= <-]. destruct (str_cmp y x) eqn:C; (split; [by auto|]); intros z [->|Hz];
        rewrite ?(cmp_refl str_cmp), ?C; try done; try by apply Hmin.
      * rewrite <- (str_cmp_eq _ _ C). by apply Hmin.
      * apply (cmp_le_trans str_cmp x y z); [rewrite (cmp_opp (cmp := str_cmp) y x), C; done|by apply Hmin].
    + intros [Hc Hle]. f_equal. destruct (str_cmp y x) eqn:C.
      * apply str_cmp_eq in C as <-. destruct Hc as [->|Hc]; [done|].
        pose proof (Hle y ltac:(auto)) as H1. pose proof (Hmin c Hc) as H2. rewrite (cmp_opp (cmp := str_cmp) y c) in H1.
        apply str_cmp_eq. by destruct (str_cmp y c).
      * destruct Hc as [->|Hc].
        { specialize (Hle y ltac:(auto)). by rewrite (cmp_opp (cmp := str_cmp) y x), C in Hle. }
        pose proof (Hle y ltac:(auto)) as H1. pose proof (Hmin c Hc) as H2. rewrite (cmp_opp (cmp := str_cmp) y c) in H1.
        apply str_cmp_eq. by destruct (str_cmp y c).
      * destruct Hc as [->|Hc]; [done|]. pose proof (Hle x ltac:(auto)) as H1. pose proof (Hmin c Hc) as H2.
        pose proof (cmp_le_trans str_cmp y c x H2 H1) as H3. by rewrite C in H3.
  - destruct l as [|z l]; [|by cbn in E; destruct (min_text l)]. split.
    + intros [= <-]. split; [by auto|]. intros z [->|Hz]; [by rewrite (cmp_refl str_cmp)|set_solver].
    + intros [[->|Hc] _]; [done|set_solver].
Qed.

Lemma min_text_none l : min_text l = None <-> l = [].
Proof. destruct l as [|x l]; cbn; [done|]. by destruct (min_text l). Qed.

Lemma elem_of_cve_ids id l : id ∈ cve_ids l <-> Cve id ∈ l.
Proof.
  unfold cve_ids. rewrite list_elem_of_omap. split; [intros ([] & Hr & E); by simplify_eq|]. intros Hr. by exists (Cve id).
Qed.

(** The lowest identifier of references added up. *)
Lemma min_added l more c :
  (min_text (cve_ids l) = Some c \/ cve_ids l = []) -> (min_text (cve_ids more) = Some c \/ cve_ids more = []) ->
  min_text (cve_ids l) = Some c \/ min_text (cve_ids more) = Some c ->
  min_text (cve_ids (add_references l more)) = Some c.
Proof.
  intros H1 H2 H3. apply min_text_spec. rewrite elem_of_cve_ids, elem_of_add_references, <- !elem_of_cve_ids.
  setoid_rewrite elem_of_cve_ids. setoid_rewrite elem_of_add_references. setoid_rewrite <- elem_of_cve_ids.
  rewrite !min_text_spec in *. split; [naive_solver|]. intros x [Hx|Hx].
  - destruct H1 as [[_ H1]|H1]; [by apply H1|rewrite H1 in Hx; set_solver].
  - destruct H2 as [[_ H2]|H2]; [by apply H2|rewrite H2 in Hx; set_solver].
Qed.

Lemma folded_claim self other : claim_id self = claim_id other -> claim_id (folded self other) = claim_id self.
Proof.
  unfold claim_id. intros E. injection E as Ed Es. unfold folded. cbn. f_equal.
  { unfold newer_of. by destruct (version_leb _ _). }
  destruct (subject self) as [s|] eqn:E1; cbn; [done|]. destruct (subject other) as [s|] eqn:E2; cbn in *; [done|].
  set (a := title self) in *. set (b := title other) in *.
  assert (forall t, t = a \/ t = b ->
    default t (min_text (cve_ids (add_references (references self) (references other)))) = default a (min_text (cve_ids (references self)))) as Hadd.
  { intros t Ht. destruct (min_text (cve_ids (references self))) as [x|] eqn:Ex, (min_text (cve_ids (references other))) as [y|] eqn:Ey;
      cbn in Es |- *; rewrite ?min_text_none in *.
    - rewrite (min_added _ _ x); [done|auto|left; congruence|auto].
    - rewrite (min_added _ _ x); [done|auto..].
    - rewrite (min_added _ _ y); [done|auto..].
    - destruct (min_text (cve_ids (add_references (references self) (references other)))) as [z|] eqn:Ez; [|naive_solver].
      apply min_text_spec in Ez as [Hz _]. rewrite elem_of_cve_ids, elem_of_add_references, <- !elem_of_cve_ids, Ex, Ey in Hz. set_solver. }
  destruct (is_correlation self && is_correlation other), (version_leb _ _); [done|done|apply Hadd; auto|apply Hadd; auto].
Qed.

(** ** Findings by claim *)

(** Every finding is held under the claim it makes. *)
Definition keyed (m : gmap ClaimId Finding) : Prop := map_Forall (fun c f => claim_id f = c) m.

Lemma add_finding_lookup m f c :
  keyed m ->
  fst (add_finding m f) !! c =
  if decide (c = claim_id f) then
    match m !! c with
    | Some existing => Some (folded existing f)
    | None => if (MAX_FINDINGS_PER_SUBJECT <=? size m)%nat then None else Some f
    end
  else m !! c.
Proof.
  intros Hm. unfold add_finding. destruct (decide (c = claim_id f)) as [->|Hne].
  - destruct (m !! claim_id f) as [existing|] eqn:E.
    + pose proof (corroborate_fst existing f) as Hf. destruct (corroborate existing f) as [x ch]. cbn in *. subst. by rewrite lookup_insert_eq.
    + destruct (_ <=? _)%nat; cbn; [done|by rewrite lookup_insert_eq].
  - destruct (m !! claim_id f) as [existing|] eqn:E.
    + destruct (corroborate existing f) as [x ch]. cbn. by rewrite lookup_insert_ne.
    + destruct (_ <=? _)%nat; cbn; [done|by rewrite lookup_insert_ne].
Qed.

Lemma add_finding_keyed m f : keyed m -> keyed (fst (add_finding m f)).
Proof.
  intros Hm c x. rewrite add_finding_lookup by done. case_decide as Hc; [|apply Hm]. subst.
  destruct (m !! claim_id f) as [existing|] eqn:E.
  - intros [= <-]. rewrite folded_claim; [by apply Hm|by apply Hm].
  - by destruct (_ <=? _)%nat; intros [= <-].
Qed.

Lemma add_finding_size m f : (size m <= MAX_FINDINGS_PER_SUBJECT -> size (fst (add_finding m f)) <= MAX_FINDINGS_PER_SUBJECT)%nat.
Proof.
  intros Hm. unfold add_finding. destruct (m !! claim_id f) as [existing|] eqn:E.
  - destruct (corroborate existing f) as [x ch]. cbn. rewrite map_size_insert_Some; [done|by eexists].
  - destruct (Nat.leb_spec MAX_FINDINGS_PER_SUBJECT (size m)); cbn; [done|]. rewrite map_size_insert_None by done. lia.
Qed.

Definition add_findings (m : gmap ClaimId Finding) (l : list Finding) : gmap ClaimId Finding := foldl (fun m f => fst (add_finding m f)) m l.

Lemma add_finding_dom m f :
  keyed m -> (size (dom m ∪ {[ claim_id f ]}) <= MAX_FINDINGS_PER_SUBJECT)%nat -> dom (fst (add_finding m f)) = dom m ∪ {[ claim_id f ]}.
Proof.
  intros Hm Hroom. apply set_eq. intros c. rewrite elem_of_union, elem_of_singleton, !elem_of_dom. unfold is_Some.
  rewrite add_finding_lookup by done. destruct (decide (c = claim_id f)) as [->|Hne]; [|naive_solver].
  destruct (m !! claim_id f) as [existing|] eqn:E; [naive_solver|].
  rewrite size_union, size_singleton, size_dom in Hroom by (apply not_elem_of_dom in E; set_solver).
  rewrite (proj2 (Nat.leb_gt _ _)) by lia. naive_solver.
Qed.

Lemma add_findings_ok m l :
  keyed m -> (size m <= MAX_FINDINGS_PER_SUBJECT)%nat ->
  keyed (add_findings m l) /\ (size (add_findings m l) <= MAX_FINDINGS_PER_SUBJECT)%nat.
Proof.
  revert m. induction l as [|f l IH]; intros m Hm Hs; [done|]. apply IH; [by apply add_finding_keyed|by apply add_finding_size].
Qed.

Lemma add_findings_dom m l :
  keyed m -> (size (dom m ∪ list_to_set (claim_id <$> l)) <= MAX_FINDINGS_PER_SUBJECT)%nat ->
  dom (add_findings m l) = dom m ∪ list_to_set (claim_id <$> l).
Proof.
  revert m. induction l as [|f l IH]; intros m Hm Hs; cbn - [union] in *; [set_solver|].
  assert (dom (fst (add_finding m f)) = dom m ∪ {[ claim_id f ]}) as Hd.
  { apply add_finding_dom; [done|]. etrans; [|exact Hs]. apply subseteq_size. set_solver. }
  unfold add_findings in IH. rewrite IH; [rewrite Hd; set_solver|by apply add_finding_keyed|]. rewrite Hd. etrans; [|exact Hs].
  apply subseteq_size. set_solver.
Qed.

(** ** One account after another *)

Lemma newer_of_again a b : newer_of (newer_of a b) b = newer_of a b.
Proof. unfold newer_of. destruct (version_leb (det_version b) (det_version a)) eqn:E; [by rewrite E|]. by destruct (version_leb (det_version b) (det_version b)). Qed.

Lemma version_leb_newer a b :
  version_leb (det_version (newer_of a b)) (det_version b) = version_leb (det_version a) (det_version b).
Proof. unfold newer_of. destruct (version_leb (det_version b) (det_version a)) eqn:E; [done|]. unfold version_leb in *. lia. Qed.

Lemma confidence_max_again a b : confidence_max (confidence_max a b) b = confidence_max a b.
Proof. by destruct a, b. Qed.

Lemma or_else_again {A} (x y : option A) : or_else (or_else x y) y = or_else x y.
Proof. by destruct x, y. Qed.

Lemma excerpt_of_again x y : excerpt_of x (excerpt_of x y) = excerpt_of x y /\ excerpt_of (excerpt_of x y) y = excerpt_of x y.
Proof. unfold excerpt_of. destruct (is_empty_text x) eqn:E; rewrite ?E; [|done]. by destruct (is_empty_text y). Qed.

Lemma folded_again self other : is_correlation self = is_correlation other -> folded (folded self other) other = folded self other.
Proof.
  intros Hc. assert (is_correlation (folded self other) = is_correlation self) as Hc'.
  { unfold is_correlation in *. cbn - [union]. repeat case_bool_decide; set_solver. }
  unfold folded at 1. rewrite Hc', Hc, andb_diag. cbn - [union]. rewrite version_leb_newer, newer_of_again.
  rewrite <- Hc, andb_diag. apply finding_eq. cbn - [union]. rewrite <- Hc, andb_diag. destruct (version_leb _ _), (is_correlation self); cbn;
    rewrite ?confidence_max_again, ?or_else_again; split_and!; try done; try set_solver.
  all: try (apply add_references_same; intros r Hr; apply elem_of_add_references; by right).
  all: try apply excerpt_of_again.
  all: by destruct (remediation other), (remediation self), (group other).
Qed.

(** The account that decides: the last of the newest version. *)
Definition newest self (l : list Finding) : Finding :=
  foldl (fun best a => if version_leb (det_version (detection best)) (det_version (detection a)) then a else best) self l.

Definition corroborate_all self (l : list Finding) : Finding := foldl (fun f a => fst (corroborate f a)) self l.

Lemma newer_of_version a b :
  det_version (newer_of a b) = if version_leb (det_version a) (det_version b) then det_version b else det_version a.
Proof.
  unfold newer_of. destruct (version_leb (det_version b) (det_version a)) eqn:E, (version_leb (det_version a) (det_version b)) eqn:E'; try done.
  - destruct (det_version a), (det_version b). unfold version_leb in *. cbn in *. f_equal; lia.
  - apply version_leb_total in E. congruence.
Qed.

Lemma corroborate_all_verdict self x l :
  severity self = severity x -> title self = title x -> class self = class x -> det_version (detection self) = det_version (detection x) ->
  let f := corroborate_all self l in let best := newest x l in
  severity f = severity best /\ title f = title best /\ class f = class best /\ det_version (detection f) = det_version (detection best).
Proof.
  revert self x. induction l as [|a l IH]; intros self x H1 H2 H3 H4; [done|]. cbn. unfold corroborate_all, newest in IH. apply IH;
    rewrite corroborate_fst; cbn; rewrite ?newer_of_version, H4; by destruct (version_leb _ _).
Qed.

Lemma corroborate_all_evidence self l :
  Forall (fun a => is_correlation a = false) (self :: l) ->
  confidence (corroborate_all self l) = foldl confidence_max (confidence self) (confidence <$> l) /\
  forall r, r ∈ references (corroborate_all self l) <-> r ∈ references self \/ exists a, a ∈ l /\ r ∈ references a.
Proof.
  revert self. induction l as [|a l IH]; intros self Hc; [set_solver|]. apply Forall_cons in Hc as [Hs Hl]. apply Forall_cons in Hl as [Ha Hl].
  cbn. rewrite corroborate_fst. destruct (IH (folded self a)) as [Hconf Hrefs].
  { constructor; [|done]. unfold is_correlation in *. cbn - [union]. repeat case_bool_decide; set_solver. }
  unfold corroborate_all in *. rewrite Hconf. split; [cbn; by rewrite Hs|]. intros r. rewrite Hrefs. cbn. rewrite Hs. cbn.
  rewrite elem_of_add_references. set_solver.
Qed.
End Corroboration.

(** ** Properties *)

(** C9: two accounts of a claim fold into one account of that claim: the finding that
    results makes the same claim, so the subject that holds it under that claim still
    finds it.  The fold reports a change exactly when the finding is another one, and
    hearing the same account again changes nothing, where both or neither rest on
    platform identifiers. *)
Theorem corroboration_keeps_claim {Build} `{EqDecision Build} (self other : Finding Build) :
  let '(result, changed) := corroborate self other in
  (changed = true <-> result <> self) /\
  (claim_id self = claim_id other -> claim_id result = claim_id self) /\
  (is_correlation self = is_correlation other -> corroborate result other = (result, false)).
Proof.
  pose proof (corroborate_fst self other) as Hf. pose proof (corroborate_snd self other) as Hs.
  destruct (corroborate self other) as [result changed]. cbn in *. subst. split_and!.
  - rewrite negb_true_iff. apply bool_decide_eq_false.
  - apply folded_claim.
  - intros Hc%folded_again. pose proof (corroborate_fst (folded self other) other) as H1. pose proof (corroborate_snd (folded self other) other) as H2.
    rewrite Hc in *. rewrite bool_decide_true in H2 by done. destruct (corroborate _ _). cbn in *. by subst.
Qed.

Definition sample_finding (version : DetectionVersion) (t : string) (s : Severity) (refs : list Reference) : Finding unit :=
  mkFinding (mkDetectionId (lit "redis-unauth") version (lit "abc")) (lit t) s Strong ClassActiveBenign [] refs None ∅ None None None None None.

Lemma corroboration_keeps_claim_witness :
  let old := sample_finding (mkVersion 1 0 0) "old" Low [Cve (lit "CVE-2022-0543")] in
  let new := sample_finding (mkVersion 2 0 0) "new" Critical [Cwe 306; Cve (lit "CVE-2022-0543")] in
  let '(result, changed) := corroborate old new in
  changed = true /\ claim_id result = mkClaimId (lit "redis-unauth") (lit "CVE-2022-0543") /\ corroborate result new = (result, false).
Proof.
  intros old new. pose proof (corroboration_keeps_claim old new) as H. destruct (corroborate old new) as [result changed] eqn:E.
  destruct H as (H1 & H2 & H3). split_and!.
  - apply H1. vm_compute in E. injection E as <- <-. discriminate.
  - apply H2. vm_compute. reflexivity.
  - apply H3. vm_compute. reflexivity.
Defined.

(** C32: the verdict follows the version.  After any accounts in any order the severity,
    the title and the class are those of the last account at the newest version, under
    which the finding is stamped.  Among accounts that rest on no platform identifier,
    certainty is the highest given and every reference cited is kept. *)
Theorem verdict_follows_version {Build} `{EqDecision Build} (self : Finding Build) (l : list (Finding Build)) :
  let f := corroborate_all self l in
  let best := newest self l in
  severity f = severity best /\ title f = title best /\ class f = class best /\
  det_version (detection f) = det_version (detection best) /\
  (Forall (fun a => is_correlation a = false) (self :: l) ->
   confidence f = foldl confidence_max (confidence self) (confidence <$> l) /\
   forall r, r ∈ references f <-> r ∈ references self \/ exists a, a ∈ l /\ r ∈ references a).
Proof.
  intros f best. destruct (corroborate_all_verdict self self l) as (H1 & H2 & H3 & H4); [done..|]. split_and!; [done..|].
  apply corroborate_all_evidence.
Qed.

Lemma verdict_follows_version_witness :
  let v n := mkVersion n 0 0 in
  let f := corroborate_all (sample_finding (v 2) "first" Low [Cwe 1])
    [sample_finding (v 1) "older" Critical [Cwe 2]; sample_finding (v 2) "again" High [Cwe 3]; sample_finding (v 1) "late" Info []] in
  severity f = High /\ title f = lit "again" /\ det_version (detection f) = v 2 /\ references f = [Cwe 1; Cwe 2; Cwe 3] /\
  confidence f = Strong.
Proof.
  intros v f.
  destruct (verdict_follows_version (sample_finding (v 2) "first" Low [Cwe 1])
    [sample_finding (v 1) "older" Critical [Cwe 2]; sample_finding (v 2) "again" High [Cwe 3]; sample_finding (v 1) "late" Info []])
    as (H1 & H2 & _ & H4 & H5).
  split_and!; [exact H1|exact H2|exact H4|reflexivity|]. apply H5. apply (bool_decide_unpack _). vm_compute. exact I.
Defined.

(** A subject holds each finding under the claim it makes, and at most 256 of them,
    whatever is added in whatever order.  While no more claims than that are made it
    holds every claim made and no other. *)
Theorem findings_by_claim {Build} `{EqDecision Build} (l : list (Finding Build)) :
  let m := add_findings ∅ l in
  keyed m /\ (size m <= MAX_FINDINGS_PER_SUBJECT)%nat /\
  ((size (list_to_set (C := gset ClaimId) (claim_id <$> l)) <= MAX_FINDINGS_PER_SUBJECT)%nat ->
   dom m = list_to_set (claim_id <$> l)).
Proof.
  intros m. destruct (add_findings_ok ∅ l) as [H1 H2]; [done|by rewrite map_size_empty; unfold MAX_FINDINGS_PER_SUBJECT; lia|].
  split_and!; [done|done|]. intros Hroom. unfold m. rewrite add_findings_dom; rewrite ?dom_empty_L, ?union_empty_l_L; done.
Qed.

Lemma findings_by_claim_witness :
  let l := [sample_finding (mkVersion 1 0 0) "a" Low []; sample_finding (mkVersion 1 0 0) "b" Low []; sample_finding (mkVersion 2 0 0) "a" High []] in
  dom (add_findings ∅ l) = list_to_set (C := gset ClaimId) (claim_id <$> l) /\ size (add_findings ∅ l) = 2%nat.
Proof.
  intros l. split; [|vm_compute; reflexivity]. apply (findings_by_claim l). apply Nat.leb_le. vm_compute. reflexivity.
Defined.
