(* ===== verification/BTree.v ===== *)
(** * Ordered maps

    What the engine uses of [std::collections::BTreeMap]: an association list in the
    order of its keys, which is what iterating one gives.  The laws are those of a finite
    map, and two maps with the same lookups are equal, so that a map read back from what
    was written compares with [=]. *)

From Stdlib Require Import ZArith Lia Sorting.Sorted.
From stdpp Require Import base numbers option list.
From S2P Require Import Prelude Std Text Ordering Finding.

(** A type a map can be keyed by: [Ord], where equal means the same. *)
Class OrderedKey (K : Type) := {
  key_cmp : K -> K -> comparison;
  key_cmp_order :: CmpOrder key_cmp;
  key_cmp_eq a b : key_cmp a b = Eq -> a = b;
}.

#[export] Instance text_key : OrderedKey text := { key_cmp := str_cmp; key_cmp_eq := str_cmp_eq }.

(** [#[derive(PartialOrd, Ord)]] on an enum without data: by the place of the variant. *)
Lemma ranked_cmp_order {K} (rank : K -> Z) : CmpOrder (fun a b => Z.compare (rank a) (rank b)).
Proof. apply (pullback_order rank Z.compare); [apply _|done]. Qed.

(** The pairs of a map in the order of its keys. *)
Notation BTreeMap K V := (list (K * V)).

Section Maps.
Context {K : Type} `{OrderedKey K}.

Definition key_lt {V} (a b : K * V) : Prop := key_cmp (fst a) (fst b) = Lt.

(** What holds of every map of the code: its keys ascend. *)
Definition keys_ascend {V} (m : BTreeMap K V) : Prop := StronglySorted key_lt m.

Fixpoint bt_get {V} (k : K) (m : BTreeMap K V) : option V :=
  match m with
  | [] => None
  | (k', v) :: m => match key_cmp k k' with Lt => None | Eq => Some v | Gt => bt_get k m end
  end.

Fixpoint bt_insert {V} (k : K) (v : V) (m : BTreeMap K V) : BTreeMap K V :=
  match m with
  | [] => [(k, v)]
  | (k', v') :: m' =>
    match key_cmp k k' with
    | Lt => (k, v) :: m
    | Eq => (k, v) :: m'
    | Gt => (k', v') :: bt_insert k v m'
    end
  end.

(** [*map.entry(k).or_insert(d) = f(...)]: the value under a key, [d] where there was none,
    changed in place. *)
Definition bt_entry {V} (k : K) (d : V) (f : V -> V) (m : BTreeMap K V) : BTreeMap K V :=
  bt_insert k (f (default d (bt_get k m))) m.

Lemma key_cmp_refl (k : K) : key_cmp k k = Eq.
Proof. apply cmp_refl, _. Qed.

Lemma key_cmp_gt (a b : K) : key_cmp a b = Gt -> key_cmp b a = Lt.
Proof. intros E. by rewrite cmp_opp, E. Qed.

Lemma key_cmp_ne (a b : K) : a <> b -> key_cmp a b <> Eq.
Proof. intros Hne E. by apply key_cmp_eq in E. Qed.

#[local] Instance key_eq_dec : EqDecision K.
Proof.
  intros a b. destruct (key_cmp a b) eqn:E; [left; by apply key_cmp_eq| |]; right; intros ->; by rewrite key_cmp_refl in E.
Defined.

(** A key below all the others is not there. *)
Lemma bt_get_below {V} k (m : BTreeMap K V) : Forall (fun kv => key_cmp k (fst kv) = Lt) m -> bt_get k m = None.
Proof. destruct 1 as [|[k' v] m E _]; [done|]. cbn in *. by rewrite E. Qed.

Lemma ascending_cons {V} k (v : V) m : keys_ascend ((k, v) :: m) <-> keys_ascend m /\ Forall (fun kv => key_cmp k (fst kv) = Lt) m.
Proof. split; [intros [? ?]%StronglySorted_inv; done|intros [? ?]; by constructor]. Qed.

Lemma below_trans {V} j k (m : BTreeMap K V) :
  key_cmp j k = Lt -> Forall (fun kv => key_cmp k (fst kv) = Lt) m -> Forall (fun kv => key_cmp j (fst kv) = Lt) m.
Proof. intros E Hk. eapply Forall_impl; [exact Hk|]. intros kv Hkv. by apply (cmp_lt j k). Qed.

Lemma bt_insert_below {V} j k (v : V) m :
  key_cmp j k = Lt -> Forall (fun kv => key_cmp j (fst kv) = Lt) m -> Forall (fun kv => key_cmp j (fst kv) = Lt) (bt_insert k v m).
Proof.
  intros E. induction 1 as [|[k' v'] m Hk Hm IH]; cbn; [by repeat constructor|].
  destruct (key_cmp k k'); repeat (constructor; try done).
Qed.

Lemma bt_insert_ascending {V} k (v : V) m : keys_ascend m -> keys_ascend (bt_insert k v m).
Proof.
  induction m as [|[k' v'] m IH]; cbn; [repeat constructor|]. intros [Hm Hk]%ascending_cons.
  destruct (key_cmp k k') eqn:E; rewrite ?ascending_cons.
  - apply key_cmp_eq in E as ->. done.
  - split; [done|]. constructor; [done|]. by apply (below_trans k k').
  - split; [by apply IH|]. apply bt_insert_below; [by apply key_cmp_gt|done].
Qed.

Lemma bt_get_insert {V} k (v : V) m : keys_ascend m -> bt_get k (bt_insert k v m) = Some v.
Proof.
  induction m as [|[k' v'] m IH]; cbn; [by rewrite key_cmp_refl|]. intros [Hm Hk]%ascending_cons.
  destruct (key_cmp k k') eqn:E; cbn; rewrite ?key_cmp_refl, ?E; auto.
Qed.

Lemma bt_get_insert_ne {V} j k (v : V) m : keys_ascend m -> j <> k -> bt_get j (bt_insert k v m) = bt_get j m.
Proof.
  intros Hm Hne. induction m as [|[k' v'] m IH]; cbn.
  - destruct (key_cmp j k) eqn:E; [by apply key_cmp_eq in E|done..].
  - apply ascending_cons in Hm as [Hm Hk]. destruct (key_cmp k k') eqn:E; cbn.
    + apply key_cmp_eq in E as ->. destruct (key_cmp j k') eqn:E; [by apply key_cmp_eq in E|done..].
    + destruct (key_cmp j k) eqn:E'; [by apply key_cmp_eq in E'| |done]. by rewrite (cmp_lt j k k').
    + destruct (key_cmp j k') eqn:E'; try done. by apply IH.
Qed.

Lemma bt_get_in {V} k (v : V) m : keys_ascend m -> bt_get k m = Some v <-> (k, v) ∈ m.
Proof.
  induction m as [|[k' v'] m IH]; cbn; [by intros _; rewrite elem_of_nil|]. intros [Hm Hk]%ascending_cons.
  rewrite elem_of_cons. destruct (key_cmp k k') eqn:E.
  - apply key_cmp_eq in E as ->. split; [intros [= ->]; by left|]. intros [[= ->]|Hin]; [done|].
    rewrite Forall_forall in Hk. apply Hk in Hin. cbn in Hin. by rewrite key_cmp_refl in Hin.
  - split; [done|]. intros [[= -> ->]|Hin]; [by rewrite key_cmp_refl in E|].
    rewrite Forall_forall in Hk. apply Hk in Hin. cbn in Hin. rewrite cmp_opp, E in Hin. done.
  - rewrite (IH Hm). split; [by right|]. intros [[= -> ->]|Hin]; [by rewrite key_cmp_refl in E|done].
Qed.

(** A map is what its lookups are. *)
Lemma bt_ext {V} (m m' : BTreeMap K V) : keys_ascend m -> keys_ascend m' -> (forall k, bt_get k m = bt_get k m') -> m = m'.
Proof.
  revert m'. induction m as [|[k v] m IH]; intros [|[k' v'] m'] Hm Hm' E.
  - done.
  - specialize (E k'). cbn in E. by rewrite key_cmp_refl in E.
  - specialize (E k). cbn in E. by rewrite key_cmp_refl in E.
  - apply ascending_cons in Hm as [Hm Hk]. apply ascending_cons in Hm' as [Hm' Hk'].
    pose proof (E k) as Ek. pose proof (E k') as Ek'. cbn in Ek, Ek'. rewrite key_cmp_refl in Ek, Ek'.
    destruct (key_cmp k k') eqn:Ec.
    + apply key_cmp_eq in Ec as <-. injection Ek as <-. f_equal. apply IH; [done..|]. intros j.
      specialize (E j). cbn in E. destruct (key_cmp j k) eqn:Ej; [apply key_cmp_eq in Ej as ->| |done].
      * by rewrite !bt_get_below.
      * rewrite !bt_get_below; [done|by apply (below_trans j k)..].
    + done.
    + apply key_cmp_gt in Ec. by rewrite Ec in Ek'.
Qed.

(** Past keys that are all below. *)
Lemma bt_get_past {V} k (m l : BTreeMap K V) : Forall (fun kv => key_cmp (fst kv) k = Lt) m -> bt_get k (m ++ l) = bt_get k l.
Proof. induction 1 as [|[k' v'] m E Hm IH]; cbn; [done|]. cbn in E. by rewrite (cmp_opp k' k), E. Qed.

Lemma bt_insert_past {V} k (v : V) m l : Forall (fun kv => key_cmp (fst kv) k = Lt) m -> bt_insert k v (m ++ l) = m ++ bt_insert k v l.
Proof. induction 1 as [|[k' v'] m E Hm IH]; cbn; [done|]. cbn in E. rewrite (cmp_opp k' k), E. cbn. by rewrite IH. Qed.

Lemma bt_insert_last {V} k (v : V) m : Forall (fun kv => key_cmp (fst kv) k = Lt) m -> bt_insert k v m = m ++ [(k, v)].
Proof. intros Hm. rewrite <- (app_nil_r m) at 1. by rewrite bt_insert_past. Qed.

Lemma ascending_app_below {V} k (v : V) m l : keys_ascend (m ++ (k, v) :: l) -> Forall (fun kv => key_cmp (fst kv) k = Lt) m.
Proof.
  induction m as [|[k' v'] m IH]; cbn; [constructor|]. intros [Ha Hk]%ascending_cons.
  constructor; [|by apply IH]. apply Forall_app in Hk as [_ Hk]. by inversion Hk.
Qed.

(** Collecting an iterator of pairs into a map. *)
Definition bt_collect {V} (l : list (K * V)) : BTreeMap K V := foldl (fun m kv => bt_insert (fst kv) (snd kv) m) [] l.

Lemma bt_collect_onto {V} (m l : BTreeMap K V) : keys_ascend (m ++ l) -> foldl (fun m kv => bt_insert (fst kv) (snd kv) m) m l = m ++ l.
Proof.
  revert m. induction l as [|[k v] l IH]; intros m Ha; cbn; [by rewrite app_nil_r|].
  rewrite bt_insert_last; [rewrite IH, <- app_assoc; [done|by rewrite <- app_assoc]|].
  by apply ascending_app_below in Ha.
Qed.

(** What was in order already is unchanged. *)
Lemma bt_collect_ascending {V} (m : BTreeMap K V) : keys_ascend m -> bt_collect m = m.
Proof. apply (bt_collect_onto []). Qed.

Lemma bt_entry_get {V} k d f (m : BTreeMap K V) : keys_ascend m -> bt_get k (bt_entry k d f m) = Some (f (default d (bt_get k m))).
Proof. intros Hm. by apply bt_get_insert. Qed.

Lemma bt_entry_get_ne {V} j k d f (m : BTreeMap K V) : keys_ascend m -> j <> k -> bt_get j (bt_entry k d f m) = bt_get j m.
Proof. intros Hm. by apply bt_get_insert_ne. Qed.

Lemma bt_entry_ascending {V} k d f (m : BTreeMap K V) : keys_ascend m -> keys_ascend (bt_entry k d f m).
Proof. apply bt_insert_ascending. Qed.

(** [map.into_iter().map(...).collect()] with the keys as they were. *)
Definition bt_map {V W} (f : V -> W) (m : BTreeMap K V) : BTreeMap K W := (fun kv => (fst kv, f (snd kv))) <$> m.

Lemma bt_map_ascending {V W} (f : V -> W) (m : BTreeMap K V) : keys_ascend m -> keys_ascend (bt_map f m).
Proof.
  unfold bt_map. induction m as [|[k v] m IH]; cbn; [constructor|]. rewrite !ascending_cons. intros [Hm Hk]. split; [by apply IH|].
  by apply Forall_fmap.
Qed.

Lemma bt_get_map {V W} (f : V -> W) (m : BTreeMap K V) k : bt_get k (bt_map f m) = f <$> bt_get k m.
Proof. unfold bt_map. induction m as [|[k' v] m IH]; cbn; [done|]. by destruct (key_cmp k k'). Qed.

Lemma bt_map_values {V W} (f : V -> W) (P : W -> Prop) (m : BTreeMap K V) :
  Forall (fun kv => P (snd kv)) (bt_map f m) <-> Forall (fun kv => P (f (snd kv))) m.
Proof. apply Forall_fmap. Qed.

(** What every value has, an entry changed has if the change keeps it. *)
Lemma bt_insert_values {V} (P : V -> Prop) k v (m : BTreeMap K V) :
  P v -> Forall (fun kv => P (snd kv)) m -> Forall (fun kv => P (snd kv)) (bt_insert k v m).
Proof. intros Hv. induction 1 as [|[k' v'] m Hv' Hm IH]; cbn; [by constructor|]. destruct (key_cmp k k'); by repeat constructor. Qed.

Lemma bt_get_values {V} (P : V -> Prop) k v (m : BTreeMap K V) : bt_get k m = Some v -> Forall (fun kv => P (snd kv)) m -> P v.
Proof. intros Hg. induction 1 as [|[k' v'] m Hv Hm IH]; cbn in *; [done|]. destruct (key_cmp k k'); [by simplify_eq|done|auto]. Qed.

Lemma bt_entry_values {V} (P : V -> Prop) k d f (m : BTreeMap K V) :
  (forall v, P v -> P (f v)) -> P (f d) -> Forall (fun kv => P (snd kv)) m -> Forall (fun kv => P (snd kv)) (bt_entry k d f m).
Proof.
  intros Hf Hd Hm. apply bt_insert_values; [|done]. destruct (bt_get k m) as [v|] eqn:E; [|done].
  apply Hf. by apply (bt_get_values P k v m).
Qed.
End Maps.

Create HintDb btree.
#[export] Hint Resolve bt_insert_ascending bt_entry_ascending : btree.
