(* ===== verification/Advisories.v ===== *)
(** * Distributors' advisories

    [cve/advisories.rs]: what a distributor says of its own builds, release by release and
    package by package, assembled from a feed's records ([Builder]), looked up, and kept in
    a file of interned strings ([Wire]).  The interner is [cve.rs]'s.  The binary encoding
    of a [Wire] is [bincode]'s and the digest [ring]'s, which are parameters. *)

From Stdlib Require Import ZArith Lia String Sorting.Sorted.
From stdpp Require Import base numbers option list gmap.
From S2P Require Import Prelude Std Text Mac Ordering Version Finding BTree.

Local Open Scope Z_scope.

(** ** Data *)

Inductive FeedDistributor := FeedUbuntu | FeedDebian.

Inductive Channel := Archive | Esm.

Inductive OpenKind := Needed | Deferred | Ignored | NeedsTriage.

Inductive Standing :=
  | NotAffected (reason : option text)
  | FixedIn (version : text)
  | StillOpen (kind : OpenKind) (note : option text).

#[export] Instance FeedDistributor_eq_dec : EqDecision FeedDistributor.
Proof. solve_decision. Defined.
#[export] Instance Channel_eq_dec : EqDecision Channel.
Proof. solve_decision. Defined.
#[export] Instance OpenKind_eq_dec : EqDecision OpenKind.
Proof. solve_decision. Defined.
#[export] Instance Standing_eq_dec : EqDecision Standing.
Proof. solve_decision. Defined.

Record AdvisoryStatus := mkAdvisoryStatus {
  channel : Channel;
  standing : Standing;
  advisory : option text;
}.

#[export] Instance AdvisoryStatus_eq_dec : EqDecision AdvisoryStatus.
Proof. solve_decision. Defined.

(** [Package], its [Lineage] the versions themselves. *)
Record Package := mkPackage {
  pkg_lineage : list text;
  pkg_verdicts : BTreeMap text (list AdvisoryStatus);
}.

Record CveFacts := mkCveFacts {
  facts_priority : option text;
  facts_by_release : BTreeMap text text;
}.

Record Advisories := mkAdvisories {
  adv_distributor : FeedDistributor;
  adv_version : DetectionVersion;
  adv_content_hash : text;
  adv_releases : BTreeMap text (BTreeMap text Package);
  adv_cves : BTreeMap text CveFacts;
}.

Inductive AdvisoriesError :=
  | NotAdvisories
  | UnsupportedFormat (found supported : Z)
  | AdvisoriesTooLarge (limit : Z)
  | AdvisoriesMalformed (error : text).

(** ** Lookups *)

Definition distributor_as_str (d : FeedDistributor) : text :=
  match d with FeedUbuntu => lit "ubuntu" | FeedDebian => lit "debian" end.

Definition distributor_id (d : FeedDistributor) : text :=
  match d with FeedUbuntu => lit "ubuntu:security-notices" | FeedDebian => lit "debian:security-tracker" end.

Definition adv_package (a : Advisories) (release source_package : text) : option Package :=
  bt_get release (adv_releases a) ≫= bt_get source_package.

Definition statuses (a : Advisories) (release source_package cve : text) : list AdvisoryStatus :=
  default [] (adv_package a release source_package ≫= fun p => bt_get cve (pkg_verdicts p)).

Definition lineage (a : Advisories) (release source_package : text) : option (list text) :=
  pkg_lineage <$> adv_package a release source_package.

Definition adv_priority (a : Advisories) (release : option text) (cve : text) : option text :=
  facts ← bt_get cve (adv_cves a);
  match release ≫= fun r => bt_get r (facts_by_release facts) with
  | Some p => Some p
  | None => facts_priority facts
  end.

(** [Advisories::releases]. *)
Definition adv_release_names (a : Advisories) : list text := (adv_releases a).*1.

Definition builds_with_revision (a : Advisories) (source_package revision : text) : list (text * text) :=
  concat (omap (fun '(release, packages) =>
    (fun package => (fun version => (release, version)) <$>
      filter (fun version => dpkg_revision version = revision) (pkg_lineage package)) <$> bt_get source_package packages)
    (adv_releases a)).

Definition adv_len (a : Advisories) : nat :=
  foldr Nat.add 0%nat ((fun p : text * Package => length (pkg_verdicts (snd p))) <$> ((adv_releases a).*2 ≫= id)).

(** ** The interner *)

Record Interner := mkInterner {
  pool : list text;
  seen : gmap text Z;
}.

Definition interner_new : Interner := mkInterner [] ∅.

(** The index is [pool.len() as u32]. *)
Definition intern (value : text) (st : Interner) : Z * Interner :=
  match seen st !! value with
  | Some index => (index, st)
  | None =>
    let index := Z.of_nat (length (pool st)) mod 2 ^ 32 in
    (index, mkInterner (pool st ++ [value]) (<[value := index]> (seen st)))
  end.

Definition maybe (value : option text) (st : Interner) : option Z * Interner :=
  match value with
  | None => (None, st)
  | Some value => let '(index, st) := intern value st in (Some index, st)
  end.

(** A map over a list that passes the interner along. *)
Fixpoint map_interning {A B} (f : A -> Interner -> B * Interner) (l : list A) (st : Interner) : list B * Interner :=
  match l with
  | [] => ([], st)
  | a :: l => let '(b, st) := f a st in let '(bs, st) := map_interning f l st in (b :: bs, st)
  end.

(** ** The file *)

Inductive WireStanding :=
  | WNotAffected (reason : option Z)
  | WFixed (version : Z)
  | WOpen (kind : OpenKind) (note : option Z).

Record WireStatus := mkWireStatus {
  ws_channel : Channel;
  ws_standing : WireStanding;
  ws_advisory : option Z;
}.

Record WirePackage := mkWirePackage {
  wp_release : Z;
  wp_package : Z;
  wp_lineage : list Z;
  wp_verdicts : list (Z * list WireStatus);
}.

Record WireCve := mkWireCve {
  wc_cve : Z;
  wc_priority : option Z;
  wc_by_release : list (Z * Z);
}.

Record Wire := mkWire {
  w_distributor : FeedDistributor;
  w_version : Z * Z * Z;
  w_pool : list text;
  w_packages : list WirePackage;
  w_cves : list WireCve;
}.

Definition wire_standing (s : Standing) (st : Interner) : WireStanding * Interner :=
  match s with
  | NotAffected reason => let '(r, st) := maybe reason st in (WNotAffected r, st)
  | FixedIn version => let '(v, st) := intern version st in (WFixed v, st)
  | StillOpen kind note => let '(n, st) := maybe note st in (WOpen kind n, st)
  end.

(** [WireStatus::from]. *)
Definition wire_status (status : AdvisoryStatus) (st : Interner) : WireStatus * Interner :=
  let '(ws, st) := wire_standing (standing status) st in
  let '(a, st) := maybe (advisory status) st in
  (mkWireStatus (channel status) ws a, st).

(** The entry of [to_wire]'s [verdicts] for one vulnerability. *)
Definition wire_verdict (v : text * list AdvisoryStatus) (st : Interner) : (Z * list WireStatus) * Interner :=
  let '(cve, st) := intern (fst v) st in
  let '(l, st) := map_interning wire_status (snd v) st in
  ((cve, l), st).

Definition wire_package (rp : text * (text * Package)) (st : Interner) : WirePackage * Interner :=
  let '(release, (name, package)) := rp in
  let '(r, st) := intern release st in
  let '(n, st) := intern name st in
  let '(versions, st) := map_interning intern (pkg_lineage package) st in
  let '(verdicts, st) := map_interning wire_verdict (pkg_verdicts package) st in
  (mkWirePackage r n versions verdicts, st).

Definition wire_priority (p : text * text) (st : Interner) : (Z * Z) * Interner :=
  let '(r, st) := intern (fst p) st in
  let '(q, st) := intern (snd p) st in
  ((r, q), st).

Definition wire_cve (c : text * CveFacts) (st : Interner) : WireCve * Interner :=
  let '(cve, st) := intern (fst c) st in
  let '(priority, st) := maybe (facts_priority (snd c)) st in
  let '(by_release, st) := map_interning wire_priority (facts_by_release (snd c)) st in
  (mkWireCve cve priority by_release, st).

(** The packages of every release, in the order the two loops of [to_wire] visit them. *)
Definition flat_releases (m : BTreeMap text (BTreeMap text Package)) : list (text * (text * Package)) :=
  m ≫= fun rp => (fun np => (fst rp, np)) <$> snd rp.

Definition to_wire (a : Advisories) : Wire :=
  let '(packages, st) := map_interning wire_package (flat_releases (adv_releases a)) interner_new in
  let '(cves, st) := map_interning wire_cve (adv_cves a) st in
  let v := adv_version a in
  mkWire (adv_distributor a) (major v, minor v, patch v) (pool st) packages cves.

(** [iter.map(f).collect::<Result<_, _>>()]: the first error stops it. *)
Fixpoint collect_results {A B E} (f : A -> Result B E) (l : list A) : Result (list B) E :=
  match l with
  | [] => Ok []
  | a :: l => let? b := f a in let? bs := collect_results f l in Ok (b :: bs)
  end.

(** A [for] loop whose body may return early with [?]. *)
Fixpoint fold_results {A S E} (f : S -> A -> Result S E) (s : S) (l : list A) : Result S E :=
  match l with
  | [] => Ok s
  | a :: l => let? s := f s a in fold_results f s l
  end.

Definition pool_at (pool : list text) (index : Z) : Result text AdvisoriesError :=
  match pool !! Z.to_nat index with
  | Some s => Ok s
  | None => Err (AdvisoriesMalformed (lit "string " ++ show_uint index ++ lit " is past the pool's end"))
  end.

Definition pool_maybe (pool : list text) (index : option Z) : Result (option text) AdvisoriesError :=
  match index with None => Ok None | Some i => let? s := pool_at pool i in Ok (Some s) end.

Definition standing_from_wire (pool : list text) (s : WireStanding) : Result Standing AdvisoriesError :=
  match s with
  | WNotAffected reason => let? r := pool_maybe pool reason in Ok (NotAffected r)
  | WFixed version => let? v := pool_at pool version in Ok (FixedIn v)
  | WOpen kind note => let? n := pool_maybe pool note in Ok (StillOpen kind n)
  end.

Definition status_from_wire (pool : list text) (s : WireStatus) : Result AdvisoryStatus AdvisoriesError :=
  let? standing := standing_from_wire pool (ws_standing s) in
  let? advisory := pool_maybe pool (ws_advisory s) in
  Ok (mkAdvisoryStatus (ws_channel s) standing advisory).

(** One turn of the loop over a package's verdicts. *)
Definition take_verdict_from_wire (pool : list text) (verdicts : BTreeMap text (list AdvisoryStatus)) (v : Z * list WireStatus) :
  Result (BTreeMap text (list AdvisoryStatus)) AdvisoriesError :=
  let? l := collect_results (status_from_wire pool) (snd v) in
  let? cve := pool_at pool (fst v) in
  Ok (bt_insert cve l verdicts).

(** One turn of the loop over the packages. *)
Definition take_package_from_wire (pool : list text) (releases : BTreeMap text (BTreeMap text Package)) (p : WirePackage) :
  Result (BTreeMap text (BTreeMap text Package)) AdvisoriesError :=
  let? verdicts := fold_results (take_verdict_from_wire pool) [] (wp_verdicts p) in
  let? versions := collect_results (pool_at pool) (wp_lineage p) in
  let? release := pool_at pool (wp_release p) in
  let? name := pool_at pool (wp_package p) in
  Ok (bt_entry release [] (bt_insert name (mkPackage versions verdicts)) releases).

Definition priority_from_wire (pool : list text) (p : Z * Z) : Result (text * text) AdvisoriesError :=
  let? release := pool_at pool (fst p) in
  let? priority := pool_at pool (snd p) in
  Ok (release, priority).

(** One turn of the loop over the vulnerabilities. *)
Definition take_cve_from_wire (pool : list text) (cves : BTreeMap text CveFacts) (c : WireCve) : Result (BTreeMap text CveFacts) AdvisoriesError :=
  let? by_release := collect_results (priority_from_wire pool) (wc_by_release c) in
  let? cve := pool_at pool (wc_cve c) in
  let? priority := pool_maybe pool (wc_priority c) in
  Ok (bt_insert cve (mkCveFacts priority (bt_collect by_release)) cves).

Definition from_wire (w : Wire) : Result Advisories AdvisoriesError :=
  let? releases := fold_results (take_package_from_wire (w_pool w)) [] (w_packages w) in
  let? cves := fold_results (take_cve_from_wire (w_pool w)) [] (w_cves w) in
  let '(major, minor, patch) := w_version w in
  Ok (mkAdvisories (w_distributor w) (mkVersion major minor patch) [] releases cves).

Definition MAGIC : list Z := lit "ZONDADV" ++ [0].

Definition FORMAT : Z := 1.

Definition MAX_BYTES : Z := 64 * 1024 * 1024.

Definition u16_to_le_bytes (n : Z) : list Z := [n mod 256; n / 256].

Definition u16_from_le_bytes (a b : Z) : Z := a + 256 * b.

(** [bincode] at [Wire], with the options of the code: an encoding past the limit is
    refused, in both directions. *)
Class Bincode := {
  bincode_serialize : Wire -> option (list Z);
  bincode_deserialize : list Z -> Result Wire text;
}.

(** What is relied on: what was written reads back, and every string of the pool takes a
    byte at least, the one of its length. *)
Class BincodeLaws `{Bincode} : Prop := {
  bincode_reads_back w b : bincode_serialize w = Some b -> bincode_deserialize b = Ok w;
  bincode_pool w b : bincode_serialize w = Some b -> (length (w_pool w) <= length b)%nat;
}.

(** [ring::digest::digest] of SHA-256. *)
Class Sha256 := sha256 : list Z -> list Z.

Section File.
Context `{Bincode, Sha256}.

Definition adv_content_hash_of (bytes : list Z) : text := concat (show_hex <$> sha256 bytes).

(** The [expect] of the serialisation panics, here [None], where the encoding is past the
    limit. *)
Definition to_bytes (a : Advisories) : option (list Z) :=
  body ← bincode_serialize (to_wire a);
  Some (MAGIC ++ u16_to_le_bytes FORMAT ++ body).

Definition from_bytes (bytes : list Z) : Result Advisories AdvisoriesError :=
  if MAX_BYTES <? Z.of_nat (length bytes) then Err (AdvisoriesTooLarge MAX_BYTES)
  else
    match strip_prefix MAGIC bytes with
    | None => Err NotAdvisories
    | Some (a :: b :: body) =>
      let format := u16_from_le_bytes a b in
      if negb (format =? FORMAT) then Err (UnsupportedFormat format FORMAT)
      else
        let? wire := map_err AdvisoriesMalformed (bincode_deserialize body) in
        let? a := from_wire wire in
        Ok (mkAdvisories (adv_distributor a) (adv_version a) (adv_content_hash_of bytes) (adv_releases a) (adv_cves a))
    | Some _ => Err (AdvisoriesMalformed (lit "the format number is cut off"))
    end.
End File.

(** ** The builder *)

(** A [BTreeSet] is a map to nothing. *)
Record Draft := mkDraft {
  draft_lineage : BTreeMap text ();
  draft_verdicts : BTreeMap text (list AdvisoryStatus);
}.

Definition draft_default : Draft := mkDraft [] [].

Record Builder := mkBuilder {
  b_distributor : FeedDistributor;
  b_newest : option DetectionVersion;
  b_releases : BTreeMap text (BTreeMap text Draft);
  b_cves : BTreeMap text CveFacts;
}.

Definition advisories_builder (d : FeedDistributor) : Builder := mkBuilder d None [] [].

(** [Builder::entry], with what is done to the draft. *)
Definition builder_entry (release package : text) (f : Draft -> Draft) (b : Builder) : Builder :=
  mkBuilder (b_distributor b) (b_newest b) (bt_entry release [] (bt_entry package draft_default f) (b_releases b)) (b_cves b).

Definition outranks (new held : AdvisoryStatus) : bool :=
  match standing new, standing held with
  | FixedIn new, FixedIn held => match dpkg_cmp new held with Gt => true | _ => false end
  | FixedIn _, _ => true
  | NotAffected _, StillOpen _ _ => true
  | _, _ => false
  end.

(** The [match] of [Builder::record]: the verdict held in the same channel is replaced if
    outranked, and a channel's first one is appended. *)
Fixpoint hold_status (status : AdvisoryStatus) (l : list AdvisoryStatus) : list AdvisoryStatus :=
  match l with
  | [] => [status]
  | held :: l =>
    if decide (channel held = channel status) then (if outranks status held then status else held) :: l
    else held :: hold_status status l
  end.

Definition draft_record (cve : text) (status : AdvisoryStatus) (d : Draft) : Draft :=
  let lineage := match standing status with FixedIn version => bt_insert version tt (draft_lineage d) | _ => draft_lineage d end in
  mkDraft lineage (bt_entry cve [] (hold_status status) (draft_verdicts d)).

Definition builder_record (release package cve : text) (status : AdvisoryStatus) (b : Builder) : Builder :=
  builder_entry release package (draft_record cve status) b.

Definition builder_versions (release package : text) (versions : list text) (b : Builder) : Builder :=
  builder_entry release package (fun d =>
    mkDraft (foldl (fun l v => bt_insert v tt l) (draft_lineage d) versions) (draft_verdicts d)) b.

Definition state_priority (release : option text) (priority : text) (facts : CveFacts) : CveFacts :=
  match release with
  | None => mkCveFacts (Some (default priority (facts_priority facts))) (facts_by_release facts)
  | Some release => mkCveFacts (facts_priority facts) (bt_entry release priority id (facts_by_release facts))
  end.

Definition builder_priority (release : option text) (cve priority : text) (b : Builder) : Builder :=
  mkBuilder (b_distributor b) (b_newest b) (b_releases b) (bt_entry cve (mkCveFacts None []) (state_priority release priority) (b_cves b)).

Definition builder_dated (timestamp : text) (b : Builder) : Builder :=
  let date := default [] (head (split_by (Z.eqb 84) timestamp)) in
  match parse_uint 16 <$> split_by (Z.eqb 45) date with
  | [Ok year; Ok month; Ok day] =>
    let version := mkVersion year month day in
    let newest := match b_newest b with Some held => if version_leb held version then version else held | None => version end in
    mkBuilder (b_distributor b) (Some newest) (b_releases b) (b_cves b)
  | _ => b
  end.

(** The order of a lineage: dpkg's, and the text where dpkg tells no difference. *)
Definition lineage_cmp (a b : text) : comparison := then_cmp (dpkg_cmp a b) (str_cmp a b).

Definition lineage_leb (a b : text) : bool := match lineage_cmp a b with Gt => false | _ => true end.

Definition draft_finish (d : Draft) : Package := mkPackage (sort_by lineage_leb (draft_lineage d).*1) (draft_verdicts d).

Section Finish.
Context `{Bincode, Sha256}.

Definition builder_finish (b : Builder) : option Advisories :=
  let releases := bt_map (bt_map draft_finish) (b_releases b) in
  let advisories := mkAdvisories (b_distributor b) (default (mkVersion 0 0 0) (b_newest b)) [] releases (b_cves b) in
  bytes ← to_bytes advisories;
  Some (mkAdvisories (adv_distributor advisories) (adv_version advisories) (adv_content_hash_of bytes) releases (b_cves b)).
End Finish.

(** ** What a feed is reduced to *)

(** The calls an importer makes, in any order. *)
Inductive FeedEntry :=
  | RecordVerdict (release package cve : text) (status : AdvisoryStatus)
  | ListVersions (release package : text) (versions : list text)
  | StatePriority (release : option text) (cve priority : text)
  | DateRecord (timestamp : text).

Definition feed_entry (b : Builder) (e : FeedEntry) : Builder :=
  match e with
  | RecordVerdict release package cve status => builder_record release package cve status b
  | ListVersions release package versions => builder_versions release package versions b
  | StatePriority release cve priority => builder_priority release cve priority b
  | DateRecord timestamp => builder_dated timestamp b
  end.

Definition feed_all (d : FeedDistributor) (feed : list FeedEntry) : Builder := foldl feed_entry (advisories_builder d) feed.

(** What the feed says of one package's vulnerability, and of one package's versions. *)
Definition recorded (release package cve : text) (feed : list FeedEntry) : list AdvisoryStatus :=
  omap (fun e => match e with
    | RecordVerdict r p c s => if decide (r = release /\ p = package /\ c = cve) then Some s else None
    | _ => None
    end) feed.

Definition versions_named (release package : text) (e : FeedEntry) : list text :=
  match e with
  | RecordVerdict r p _ (mkAdvisoryStatus _ (FixedIn v) _) => if decide (r = release /\ p = package) then [v] else []
  | ListVersions r p vs => if decide (r = release /\ p = package) then vs else []
  | _ => []
  end.

(** A verdict's weight: an open one, then "not affected", then a fix, the later the more. *)
Definition status_key (s : AdvisoryStatus) : Z * (Z * list Z * list Z) :=
  match standing s with
  | StillOpen _ _ => (0, (0, [], []))
  | NotAffected _ => (1, (0, [], []))
  | FixedIn v => (2, dpkg_version_key v)
  end.

Definition status_key_cmp (a b : Z * (Z * list Z * list Z)) : comparison := then_cmp (fst a ?= fst b) (dpkg_key_cmp (snd a) (snd b)).

#[export] Instance status_key_order : CmpOrder status_key_cmp.
Proof.
  apply then_order; [apply (pullback_order fst Z.compare)|apply (pullback_order snd dpkg_key_cmp)]; done || apply _.
Qed.

Definition status_bytes (s : AdvisoryStatus) : Prop := match standing s with FixedIn v => is_bytes v | _ => True end.

Lemma outranks_key new held : status_bytes new -> status_bytes held ->
  outranks new held = true <-> status_key_cmp (status_key new) (status_key held) = Gt.
Proof.
  unfold outranks, status_bytes, status_key. intros Hn Hh. destruct (standing new), (standing held); cbn; try done.
  rewrite dpkg_cmp_key by done. unfold status_key_cmp. cbn. by destruct (dpkg_key_cmp _ _).
Qed.

(** ** Held verdicts *)

Definition hold_all (l : list AdvisoryStatus) : list AdvisoryStatus := foldl (fun held s => hold_status s held) [] l.

Lemma hold_all_snoc l s : hold_all (l ++ [s]) = hold_status s (hold_all l).
Proof. unfold hold_all. by rewrite foldl_app. Qed.

Lemma hold_status_channels s l :
  channel <$> hold_status s l = (channel <$> l) ++ (if decide (channel s ∈ channel <$> l) then [] else [channel s]).
Proof.
  induction l as [|h l IH]; cbn; [done|]. destruct (decide (channel h = channel s)) as [E|Hne]; cbn.
  - rewrite decide_True by (rewrite E; apply list_elem_of_here). rewrite app_nil_r. destruct (outranks s h); by rewrite ?E.
  - rewrite IH. repeat case_decide; try done; set_solver.
Qed.

Lemma hold_status_elem s l t : t ∈ hold_status s l -> t = s \/ t ∈ l.
Proof.
  induction l as [|h l IH]; cbn; [set_solver|]. destruct (decide _); [destruct (outranks s h)|]; set_solver.
Qed.

Lemma hold_status_none s l : channel s ∉ channel <$> l -> hold_status s l = l ++ [s].
Proof.
  induction l as [|h l IH]; cbn; [done|]. intros Hn. rewrite decide_False by (intros E; apply Hn; rewrite E; left).
  rewrite IH; [done|]. intros Hin. apply Hn. by right.
Qed.

(** Where a channel is held once, a new verdict is weighed against that one. *)
Lemma elem_of_hold_status s l t : NoDup (channel <$> l) ->
  t ∈ hold_status s l <->
  (channel t <> channel s /\ t ∈ l) \/
  (channel t = channel s /\
   ((t ∈ l /\ outranks s t = false) \/ (t = s /\ forall h, h ∈ l -> channel h = channel s -> outranks s h = true))).
Proof.
  induction l as [|h l IH]; cbn; intros Hd.
  - rewrite list_elem_of_singleton. set_solver.
  - apply NoDup_cons in Hd as [Hh Hd]. specialize (IH Hd). destruct (decide (channel h = channel s)) as [E|Hne].
    + assert (forall x, x ∈ l -> channel x <> channel s) as Hl.
      { intros x Hx Ex. apply Hh. rewrite E, <- Ex. by apply list_elem_of_fmap_2. }
      destruct (outranks s h) eqn:Ho; rewrite !elem_of_cons.
      * split; [intros [->|Ht]|intros [[Hc [->|Ht]]|[Hc [[[->|Ht] Hr]|[-> _]]]]]; try done; auto.
        -- right. split; [done|]. right. split; [done|]. intros x [->|Hx]%elem_of_cons Hc; [done|]. by apply Hl in Hx.
        -- congruence.
      * split; [intros [->|Ht]|intros [[Hc [->|Ht]]|[Hc [[[->|Ht] Hr]|[-> Hall]]]]]; try done; auto.
        -- right. auto.
        -- specialize (Hall h). rewrite Hall in Ho; [done|left|done].
    + rewrite !elem_of_cons, IH.
      assert ((forall x, x ∈ h :: l -> channel x = channel s -> outranks s x = true) <-> (forall x, x ∈ l -> channel x = channel s -> outranks s x = true)) as ->.
      { split; intros Hall x Hx Ex; apply Hall; try done; [by right|]. by apply elem_of_cons in Hx as [->|Hx]. }
      assert (t = h -> channel t <> channel s) by (intros ->; done). tauto.
Qed.

(** Of the verdicts recorded in a channel, one that none outranks is held. *)
Definition strongest (l held : list AdvisoryStatus) : Prop :=
  NoDup (channel <$> held) /\
  (forall t, t ∈ l -> exists s, s ∈ held /\ channel s = channel t) /\
  (forall s, s ∈ held -> s ∈ l /\ forall t, t ∈ l -> channel t = channel s -> outranks t s = false).

Lemma outranks_trans a b c : status_bytes a -> status_bytes b -> status_bytes c ->
  outranks b a = true -> outranks c a = false -> outranks c b = false.
Proof.
  intros Ha Hb Hc Hba Hca. destruct (outranks c b) eqn:E; [|done]. apply not_true_iff_false in Hca. exfalso. apply Hca.
  apply outranks_key in Hba, E; [|done..]. apply outranks_key; [done..|].
  rewrite cmp_opp in Hba, E |- *. destruct (status_key_cmp (status_key a) (status_key b)) eqn:E1; try done.
  destruct (status_key_cmp (status_key b) (status_key c)) eqn:E2; try done.
  by rewrite (cmp_lt _ _ _ E1 E2).
Qed.

Lemma outranks_irrefl s : status_bytes s -> outranks s s = false.
Proof. intros Hs. apply not_true_iff_false. rewrite outranks_key by done. by rewrite cmp_refl by apply _. Qed.

Lemma hold_status_strongest s l held : Forall status_bytes (l ++ [s]) -> strongest l held -> strongest (l ++ [s]) (hold_status s held).
Proof.
  intros Hb (Hd & Hex & Hs). rewrite Forall_forall in Hb. split_and!.
  - rewrite hold_status_channels. case_decide as Hin; [by rewrite app_nil_r|]. apply NoDup_app. split_and!; [done| |apply NoDup_singleton].
    intros c Hc ->%list_elem_of_singleton. done.
  - assert (exists t, t ∈ hold_status s held /\ channel t = channel s) as Hnew.
    { assert (channel s ∈ channel <$> hold_status s held) as Hin by (rewrite hold_status_channels, elem_of_app; case_decide; set_solver).
      apply list_elem_of_fmap in Hin as (t & -> & Ht). eauto. }
    intros t [Ht| ->%list_elem_of_singleton]%elem_of_app; [|done]. destruct (decide (channel t = channel s)) as [->|Hne]; [done|].
    destruct (Hex t Ht) as (x & Hx & Ex). exists x. split; [|done]. apply elem_of_hold_status; [done|]. left. split; [congruence|done].
  - intros t Ht. apply elem_of_hold_status in Ht; [|done].
    destruct Ht as [[Hc Ht]|[Hc [[Ht Hr]|[-> Hall]]]]; [destruct (Hs t Ht) as [Hl Hmax]..|].
    1, 2: split; [set_solver|]; intros x [Hx| ->%list_elem_of_singleton]%elem_of_app Ex; [by apply Hmax|done].
    split; [set_solver|]. assert (status_bytes s) as Hsb by (apply Hb; set_solver).
    intros x [Hx| ->%list_elem_of_singleton]%elem_of_app Ex; [|by apply outranks_irrefl].
    destruct (Hex x Hx) as (h & Hh & Eh). destruct (Hs h Hh) as [Hhl Hmax].
    apply (outranks_trans h); [apply Hb; set_solver|done|apply Hb; set_solver|apply Hall; congruence|apply Hmax; congruence].
Qed.

Lemma hold_all_strongest l : Forall status_bytes l -> strongest l (hold_all l).
Proof.
  induction l as [|s l IH] using rev_ind; intros Hb.
  - split_and!; [constructor|set_solver..].
  - rewrite hold_all_snoc. apply hold_status_strongest; [done|]. apply IH. by apply Forall_app in Hb as [Hb _].
Qed.

(** ** The builder's state *)

Definition draft_ok (d : Draft) : Prop := keys_ascend (draft_lineage d) /\ keys_ascend (draft_verdicts d).

Definition packages_ok (m : BTreeMap text Draft) : Prop := keys_ascend m /\ Forall (fun nd => draft_ok (snd nd)) m.

(** Every map of the builder is in order, and no release is without a package. *)
Definition drafts_ok (b : Builder) : Prop :=
  keys_ascend (b_releases b) /\ Forall (fun rp => packages_ok (snd rp) /\ snd rp <> []) (b_releases b) /\
  keys_ascend (b_cves b) /\ Forall (fun cf => keys_ascend (facts_by_release (snd cf))) (b_cves b).

Definition draft_of (b : Builder) (release package : text) : Draft :=
  default draft_default (bt_get release (b_releases b) ≫= bt_get package).

Lemma insert_set_ascending (l : BTreeMap text ()) vs : keys_ascend l -> keys_ascend (foldl (fun l v => bt_insert v tt l) l vs).
Proof. revert l. induction vs as [|v vs IH]; cbn; auto with btree. Qed.

Lemma bt_entry_not_nil {K V} `{OrderedKey K} k d f (m : BTreeMap K V) : bt_entry k d f m <> [].
Proof. unfold bt_entry. destruct m as [|[k' v] m]; cbn; [done|]. by destruct (key_cmp k k'). Qed.

Lemma builder_entry_ok release package f b : (forall d, draft_ok d -> draft_ok (f d)) -> drafts_ok b -> drafts_ok (builder_entry release package f b).
Proof.
  intros Hf (Ha & Hp & Hc & Hcf). split_and!; [by apply bt_entry_ascending| |done..].
  assert (draft_ok draft_default) as Hd by (split; constructor).
  assert (forall m, packages_ok m -> packages_ok (bt_entry package draft_default f m)) as Hm.
  { intros m [Hma Hmp]. split; [by apply bt_entry_ascending|]. apply bt_entry_values; auto. }
  apply bt_entry_values with (P := fun m => packages_ok m /\ m <> []); [|split; [|apply bt_entry_not_nil]|done].
  - intros m [Hmo _]. split; [auto|apply bt_entry_not_nil].
  - apply Hm. split; constructor.
Qed.

Lemma draft_of_entry release package f b r p : drafts_ok b ->
  draft_of (builder_entry release package f b) r p =
  if decide (r = release /\ p = package) then f (draft_of b r p) else draft_of b r p.
Proof.
  intros (Ha & Hp & _). unfold draft_of, builder_entry. cbn. destruct (decide (r = release)) as [->|Hne].
  - rewrite bt_entry_get by done. cbn.
    assert (packages_ok (default [] (bt_get release (b_releases b)))) as [Hma _].
    { destruct (bt_get release (b_releases b)) as [m|] eqn:E; cbn; [|split; constructor].
      by apply (bt_get_values (fun m => packages_ok m /\ m <> []) release m (b_releases b)). }
    destruct (decide (p = package)) as [->|Hne].
    + rewrite bt_entry_get by done. rewrite decide_True by done. by destruct (bt_get release (b_releases b)).
    + rewrite bt_entry_get_ne by done. rewrite decide_False by tauto. by destruct (bt_get release (b_releases b)).
  - rewrite bt_entry_get_ne by done. by rewrite decide_False by tauto.
Qed.

Lemma draft_record_ok cve status d : draft_ok d -> draft_ok (draft_record cve status d).
Proof. intros [Hl Hv]. split; cbn; [destruct (standing status); auto with btree|auto with btree]. Qed.

Lemma feed_entry_ok b e : drafts_ok b -> drafts_ok (feed_entry b e).
Proof.
  intros Hb. destruct e as [r p c s|r p vs|r c q|t]; cbn.
  - apply builder_entry_ok; [|done]. apply draft_record_ok.
  - apply builder_entry_ok; [|done]. intros d [Hl Hv]. split; [by apply insert_set_ascending|done].
  - destruct Hb as (Ha & Hp & Hc & Hf). split_and!; [done..|by apply bt_entry_ascending|].
    apply bt_entry_values with (P := fun f => keys_ascend (facts_by_release f)); [| |done].
    + intros f Hfa. destruct r; cbn; [by apply bt_entry_ascending|done].
    + destruct r; cbn; repeat constructor.
  - unfold builder_dated. repeat case_match; done.
Qed.

Lemma feed_all_snoc d feed e : feed_all d (feed ++ [e]) = feed_entry (feed_all d feed) e.
Proof. unfold feed_all. by rewrite foldl_app. Qed.

Lemma feed_all_ok d feed : drafts_ok (feed_all d feed).
Proof.
  induction feed as [|e feed IH] using rev_ind; [|rewrite feed_all_snoc; by apply feed_entry_ok].
  split_and!; constructor.
Qed.

Definition verdict_of (d : Draft) (cve : text) : list AdvisoryStatus := default [] (bt_get cve (draft_verdicts d)).

Definition names_version (d : Draft) (v : text) : Prop := bt_get v (draft_lineage d) = Some tt.

Lemma verdict_of_record cve status d c : draft_ok d ->
  verdict_of (draft_record cve status d) c = if decide (c = cve) then hold_status status (verdict_of d c) else verdict_of d c.
Proof.
  intros [_ Hv]. unfold verdict_of, draft_record. cbn. destruct (decide (c = cve)) as [->|Hne].
  - by rewrite bt_entry_get.
  - by rewrite bt_entry_get_ne.
Qed.

Lemma insert_unit v w (l : BTreeMap text ()) : keys_ascend l -> bt_get w (bt_insert v tt l) = Some tt <-> w = v \/ bt_get w l = Some tt.
Proof.
  intros Hl. destruct (decide (w = v)) as [->|Hne]; [rewrite bt_get_insert by done; tauto|]. rewrite bt_get_insert_ne by done. tauto.
Qed.

Lemma insert_set_unit vs w (l : BTreeMap text ()) : keys_ascend l ->
  bt_get w (foldl (fun l v => bt_insert v tt l) l vs) = Some tt <-> bt_get w l = Some tt \/ w ∈ vs.
Proof.
  revert l. induction vs as [|v vs IH]; cbn; intros l Hl; [set_solver|]. rewrite IH by auto with btree. rewrite insert_unit by done. set_solver.
Qed.

Lemma draft_of_ok b r p : drafts_ok b -> draft_ok (draft_of b r p).
Proof.
  intros (_ & Hp & _). unfold draft_of. assert (draft_ok draft_default) as Hd by (split; constructor).
  destruct (bt_get r (b_releases b)) as [m|] eqn:Er; cbn; [|done]. destruct (bt_get p m) as [d|] eqn:Ep; cbn; [|done].
  apply (bt_get_values (fun m => packages_ok m /\ m <> [])) in Er as [[_ Hm] _]; [|done]. by apply (bt_get_values draft_ok) in Ep.
Qed.

(** What one entry of a feed does to each draft. *)
Lemma draft_of_feed b e r p : drafts_ok b ->
  (forall c, verdict_of (draft_of (feed_entry b e) r p) c = foldl (fun l s => hold_status s l) (verdict_of (draft_of b r p) c) (recorded r p c [e])) /\
  (forall v, names_version (draft_of (feed_entry b e) r p) v <-> names_version (draft_of b r p) v \/ v ∈ versions_named r p e).
Proof.
  intros Hb. pose proof (draft_of_ok b r p Hb) as Hd. unfold names_version. destruct e as [r' p' c' s|r' p' vs|r' c' q|t]; cbn - [verdict_of draft_of builder_record builder_versions builder_priority builder_dated].
  - unfold builder_record. rewrite draft_of_entry by done. destruct (decide (r = r' /\ p = p')) as [[-> ->]|Hne].
    + split.
      * intros c. rewrite verdict_of_record by done. destruct (decide (c = c')) as [->|Hne]; [by rewrite decide_True|].
        rewrite decide_False; [done|]. intros (_ & _ & ->). done.
      * intros v. unfold draft_record. cbn. destruct s as [ch [reason|w|k n] ad]; cbn; [set_solver| |set_solver].
        rewrite decide_True by done. rewrite insert_unit by apply Hd. rewrite list_elem_of_singleton. tauto.
    + split.
      * intros c. by rewrite decide_False by naive_solver.
      * intros v. destruct s as [ch [reason|w|k n] ad]; cbn; [set_solver| |set_solver]. rewrite decide_False by naive_solver. set_solver.
  - unfold builder_versions. rewrite draft_of_entry by done. destruct (decide (r = r' /\ p = p')) as [[-> ->]|Hne].
    + split; [done|]. intros v. cbn. rewrite decide_True by done. apply insert_set_unit, Hd.
    + split; [done|]. intros v. rewrite decide_False by naive_solver. set_solver.
  - split; [done|set_solver].
  - unfold builder_dated. repeat case_match; (split; [done|set_solver]).
Qed.

Lemma recorded_snoc r p c feed e : recorded r p c (feed ++ [e]) = recorded r p c feed ++ recorded r p c [e].
Proof. apply omap_app. Qed.

Lemma feed_all_spec d feed r p :
  (forall c, verdict_of (draft_of (feed_all d feed) r p) c = hold_all (recorded r p c feed)) /\
  (forall v, names_version (draft_of (feed_all d feed) r p) v <-> v ∈ (feed ≫= versions_named r p)).
Proof.
  induction feed as [|e feed [IHv IHn]] using rev_ind; [split; [done|]; intros v; unfold names_version; cbn; by rewrite elem_of_nil|]. rewrite feed_all_snoc.
  destruct (draft_of_feed _ e r p (feed_all_ok d feed)) as [Hv Hn]. split.
  - intros c. rewrite Hv, recorded_snoc, IHv. unfold hold_all. by rewrite foldl_app.
  - intros v. rewrite Hn, IHn, bind_app, elem_of_app. cbn. by rewrite app_nil_r.
Qed.

(** ** Lineages in order *)

Lemma insert_by_ext {A} (le le' : A -> A -> bool) x l : (forall y, y ∈ l -> le x y = le' x y) -> insert_by le x l = insert_by le' x l.
Proof.
  induction l as [|y l IH]; cbn; [done|]. intros E. rewrite (E y) by left. destruct (le' x y); [done|]. f_equal. apply IH. intros z Hz. apply E. by right.
Qed.

Lemma sort_by_ext {A} (le le' : A -> A -> bool) l : (forall x y, x ∈ l -> y ∈ l -> le x y = le' x y) -> sort_by le l = sort_by le' l.
Proof.
  induction l as [|x l IH]; cbn; [done|]. intros E. change (insert_by le x (sort_by le l) = insert_by le' x (sort_by le' l)).
  rewrite IH by (intros; apply E; by right). apply insert_by_ext. intros y Hy. apply elem_of_sort_by in Hy. apply E; [left|by right].
Qed.

Definition lineage_key_cmp (a b : text) : comparison := then_cmp (dpkg_key_cmp (dpkg_version_key a) (dpkg_version_key b)) (str_cmp a b).

#[export] Instance lineage_key_order : CmpOrder lineage_key_cmp.
Proof. apply then_order; [apply (pullback_order dpkg_version_key dpkg_key_cmp)|]; done || apply _. Qed.

Definition cmp_leb {A} (cmp : A -> A -> comparison) (a b : A) : bool := match cmp a b with Gt => false | _ => true end.

(** Sorting by an order sorts. *)
Lemma sort_by_cmp_sorted {A} (cmp : A -> A -> comparison) l : CmpOrder cmp -> StronglySorted (fun a b => cmp a b <> Gt) (sort_by (cmp_leb cmp) l).
Proof.
  intros Hc. assert (forall a b, cmp_leb cmp a b = true <-> cmp a b <> Gt) as E by (intros a b; unfold cmp_leb; by destruct (cmp a b)).
  eapply sorted_weaken; [|apply (sort_by_sorted (cmp_leb cmp))].
  - intros a b _ _. apply E.
  - intros a b. rewrite !E, (cmp_opp (cmp := cmp) a b). by destruct (cmp a b); cbn; auto.
  - intros a b c. rewrite !E. by apply cmp_le_trans.
Qed.

Lemma lineage_cmp_key a b : is_bytes a -> is_bytes b -> lineage_cmp a b = lineage_key_cmp a b.
Proof. intros Ha Hb. unfold lineage_cmp, lineage_key_cmp. by rewrite dpkg_cmp_key. Qed.

(** The versions of a lineage, oldest first. *)
Lemma draft_finish_lineage d : draft_ok d -> (forall v, names_version d v -> is_bytes v) ->
  (forall v, v ∈ pkg_lineage (draft_finish d) <-> names_version d v) /\
  StronglySorted (fun a b => lineage_cmp a b = Lt) (pkg_lineage (draft_finish d)).
Proof.
  intros [Hl _] Hb. cbn.
  assert (forall v, v ∈ sort_by lineage_leb (draft_lineage d).*1 <-> names_version d v) as Hin.
  { intros v. rewrite elem_of_sort_by, list_elem_of_fmap. unfold names_version. rewrite bt_get_in by done.
    split; [intros ([w []] & -> & Hw); done|intros Hv; by exists (v, tt)]. }
  split; [done|].
  assert (NoDup (sort_by lineage_leb (draft_lineage d).*1)) as Hd.
  { rewrite sort_by_perm. clear - Hl. induction (draft_lineage d) as [|[v u] l IH]; cbn; [constructor|].
    apply ascending_cons in Hl as [Hl Hv]. constructor; [|by apply IH]. intros ([w u'] & -> & Hw)%list_elem_of_fmap.
    rewrite Forall_forall in Hv. apply Hv in Hw. cbn in Hw. by rewrite (cmp_refl str_cmp) in Hw. }
  rewrite (sort_by_ext _ (cmp_leb lineage_key_cmp)) in Hd, Hin |- *; [|intros x y Hx Hy..].
  2-4: unfold lineage_leb, cmp_leb; rewrite lineage_cmp_key; [done|apply Hb, Hin; by apply elem_of_sort_by..].
  revert Hd. assert (forall v, v ∈ sort_by (cmp_leb lineage_key_cmp) (draft_lineage d).*1 -> is_bytes v) as Hs by naive_solver.
  pose proof (sort_by_cmp_sorted lineage_key_cmp (draft_lineage d).*1 _) as Hss. clear - Hs Hss.
  induction Hss as [|v l Hss IH Hv]; [constructor|]. intros [Hn Hd]%NoDup_cons. constructor.
  - apply IH; [|done]. intros w Hw. apply Hs. by right.
  - rewrite Forall_forall in Hv |- *. intros w Hw. specialize (Hv w Hw). rewrite lineage_cmp_key; [|apply Hs; left|apply Hs; by right].
    destruct (lineage_key_cmp v w) eqn:E; [|done..]. exfalso. apply Hn. unfold lineage_key_cmp in E.
    destruct (dpkg_key_cmp _ _); try done. cbn in E. by apply str_cmp_eq in E as ->.
Qed.

(** ** What a finished dataset says *)

Definition entry_bytes (e : FeedEntry) : Prop :=
  match e with RecordVerdict _ _ _ s => status_bytes s | ListVersions _ _ vs => Forall is_bytes vs | _ => True end.

Lemma recorded_bytes feed r p c : Forall entry_bytes feed -> Forall status_bytes (recorded r p c feed).
Proof.
  induction 1 as [|e feed He Hf IH]; cbn; [constructor|]. destruct e; cbn; try done. case_decide; [by constructor|done].
Qed.

Lemma named_bytes feed r p v : Forall entry_bytes feed -> v ∈ (feed ≫= versions_named r p) -> is_bytes v.
Proof.
  intros Hf (e & Hv & He)%list_elem_of_bind. rewrite Forall_forall in Hf. apply Hf in He.
  destruct e as [? ? ? [? [?|?|? ?] ?]|? ? vs|? ? ?|?]; cbn in Hv; try set_solver; case_decide; try set_solver.
  cbn in He. rewrite Forall_forall in He. auto.
Qed.

Section Finished.
Context `{Bincode, Sha256}.

Lemma finish_package b a r p : builder_finish b = Some a -> adv_package a r p = draft_finish <$> (bt_get r (b_releases b) ≫= bt_get p).
Proof.
  unfold builder_finish. intros (bytes & _ & [= <-])%bind_Some. unfold adv_package. cbn. rewrite bt_get_map.
  destruct (bt_get r (b_releases b)); cbn; [apply bt_get_map|done].
Qed.

Lemma finish_statuses d feed a r p c : builder_finish (feed_all d feed) = Some a -> statuses a r p c = hold_all (recorded r p c feed).
Proof.
  intros Ha. destruct (feed_all_spec d feed r p) as [<- _]. unfold statuses. rewrite (finish_package _ _ _ _ Ha). unfold verdict_of, draft_of.
  by destruct (bt_get r _ ≫= bt_get p).
Qed.

(** The versions a package is known to have had, oldest first, and nothing where the feed
    names none. *)
Lemma finish_lineage d feed a r p : Forall entry_bytes feed -> builder_finish (feed_all d feed) = Some a ->
  let l := default [] (lineage a r p) in
  (forall v, v ∈ l <-> v ∈ (feed ≫= versions_named r p)) /\ StronglySorted (fun a b => lineage_cmp a b = Lt) l.
Proof.
  intros Hf Ha. destruct (feed_all_spec d feed r p) as [_ Hn].
  destruct (draft_finish_lineage (draft_of (feed_all d feed) r p)) as [Hin Hs].
  - apply draft_of_ok, feed_all_ok.
  - intros v Hv. apply Hn in Hv. by apply (named_bytes feed r p).
  - unfold lineage. rewrite (finish_package _ _ _ _ Ha). unfold draft_of in *.
    destruct (bt_get r (b_releases (feed_all d feed)) ≫= bt_get p); cbn; (split; [|done]); intros v; by rewrite <- Hn, Hin.
Qed.
End Finished.

Lemma sorted_same l l' : Forall is_bytes l -> Forall is_bytes l' ->
  StronglySorted (fun a b => lineage_cmp a b = Lt) l -> StronglySorted (fun a b => lineage_cmp a b = Lt) l' ->
  (forall v, v ∈ l <-> v ∈ l') -> l = l'.
Proof.
  intros Hb Hb' Hs. revert l' Hb'. induction Hs as [|v l Hs IH Hv]; intros l' Hb' Hs' E.
  - destruct l' as [|w l']; [done|]. exfalso. apply (elem_of_nil w), E. left.
  - destruct Hs' as [|w l' Hs' Hw]; [exfalso; apply (elem_of_nil v), E; left|].
    inversion Hb as [|? ? Hbv Hbl]; inversion Hb' as [|? ? Hbw Hbl']; subst. rewrite Forall_forall in Hv, Hw.
    assert (forall x, is_bytes x -> lineage_cmp x x <> Lt) as Hirr by (intros x Hx; rewrite lineage_cmp_key, cmp_refl by (done || apply _); done).
    assert (v = w) as <-.
    { assert (v ∈ w :: l') as Hvl by (apply E; left). assert (w ∈ v :: l) as Hwl by (apply E; left).
      apply elem_of_cons in Hvl as [?|Hvl]; [done|]. apply elem_of_cons in Hwl as [?|Hwl]; [done|]. apply Hw in Hvl. apply Hv in Hwl. rewrite lineage_cmp_key in Hvl, Hwl by done. rewrite cmp_opp, Hvl in Hwl. done. }
    f_equal. apply IH; [done..|]. intros x. specialize (E x). rewrite !elem_of_cons in E.
    split; intros Hx; [destruct (proj1 E) as [->|]|destruct (proj2 E) as [->|]]; auto; exfalso; apply (Hirr v Hbv); auto.
Qed.

Lemma strongest_same l l' held held' : l ≡ₚ l' -> Forall status_bytes l -> strongest l held -> strongest l' held' ->
  forall s, s ∈ held -> exists s', s' ∈ held' /\ channel s' = channel s /\ status_key_cmp (status_key s) (status_key s') = Eq.
Proof.
  intros Hp Hb (_ & _ & Hs) (_ & Hex & Hs') s Hin. destruct (Hs s Hin) as [Hl Hmax]. rewrite Forall_forall in Hb.
  destruct (Hex s) as (s' & Hin' & E); [by rewrite <- Hp|]. destruct (Hs' s' Hin') as [Hl' Hmax']. rewrite <- Hp in Hl'.
  exists s'. split_and!; [done..|]. specialize (Hmax s' Hl' E). specialize (Hmax' s ltac:(by rewrite <- Hp) (eq_sym E)).
  apply not_true_iff_false in Hmax, Hmax'. rewrite outranks_key in Hmax, Hmax' by auto. rewrite cmp_opp in Hmax.
  by destruct (status_key_cmp (status_key s) (status_key s')).
Qed.

Lemma recorded_perm r p c feed feed' : feed ≡ₚ feed' -> recorded r p c feed ≡ₚ recorded r p c feed'.
Proof. intros Hp. unfold recorded. by rewrite Hp. Qed.

(** A dataset holds, for each vulnerability of a package and each channel of its release,
    one verdict of those the feed records, and none that another outranks: a fix before
    "not affected", that before an open verdict, and of two fixes the later.  Its lineage is
    every version the feed names, in dpkg's order.  The order of the feed decides nothing
    else: a feed in another order gives the same lineage, and verdicts of the same weight
    in the same channels. *)
Theorem feed_is_summarised `{Bincode, Sha256} d feed feed' a a' :
  Forall entry_bytes feed -> feed ≡ₚ feed' ->
  builder_finish (feed_all d feed) = Some a -> builder_finish (feed_all d feed') = Some a' ->
  forall release package cve,
  strongest (recorded release package cve feed) (statuses a release package cve) /\
  (forall s, s ∈ statuses a release package cve -> exists s', s' ∈ statuses a' release package cve /\ channel s' = channel s /\
    outranks s s' = false /\ outranks s' s = false) /\
  default [] (lineage a release package) = default [] (lineage a' release package) /\
  forall v, v ∈ default [] (lineage a release package) <-> v ∈ (feed ≫= versions_named release package).
Proof.
  intros Hb Hp Ha Ha' r p c. assert (Forall entry_bytes feed') as Hb' by by rewrite <- Hp.
  rewrite (finish_statuses _ _ _ _ _ _ Ha), (finish_statuses _ _ _ _ _ _ Ha').
  pose proof (recorded_bytes feed r p c Hb) as Hr. pose proof (recorded_bytes feed' r p c Hb') as Hr'.
  destruct (finish_lineage _ _ _ r p Hb Ha) as [Hl Hs]. destruct (finish_lineage _ _ _ r p Hb' Ha') as [Hl' Hs'].
  split_and!; [by apply hold_all_strongest| | |done].
  - intros s Hin. pose proof (hold_all_strongest _ Hr) as Hst. pose proof (hold_all_strongest _ Hr') as Hst'.
    destruct (strongest_same _ _ _ _ (recorded_perm r p c _ _ Hp) Hr Hst Hst' s Hin) as (s' & Hin' & E & Ek).
    rewrite Forall_forall in Hr, Hr'. assert (status_bytes s) by apply Hr, Hst, Hin. assert (status_bytes s') by apply Hr', Hst', Hin'.
    exists s'. split_and!; [done..| |]; apply not_true_iff_false; rewrite outranks_key by done; [by rewrite Ek|by rewrite cmp_opp, Ek].
  - apply sorted_same; [apply Forall_forall; intros v Hv..|done|done|].
    + apply Hl in Hv. by apply (named_bytes feed r p).
    + apply Hl' in Hv. by apply (named_bytes feed' r p).
    + intros v. by rewrite Hl, Hl', Hp.
Qed.

(** ** The file reads back *)

(** The index of every string seen is where the pool has it. *)
Definition interner_ok (st : Interner) : Prop :=
  forall s i, seen st !! s = Some i -> 0 <= i /\ pool st !! Z.to_nat i = Some s.

Definition pool_fits (p : list text) : Prop := Z.of_nat (length p) <= 2 ^ 32.

Lemma pool_fits_prefix p q : p `prefix_of` q -> pool_fits q -> pool_fits p.
Proof. intros Hp%prefix_length. unfold pool_fits. lia. Qed.

(** [f] writes what [read] reads back out of the pool, now and after any more is interned. *)
Record Interns {A B} (f : A -> Interner -> B * Interner) (read : list text -> B -> Result A AdvisoriesError) : Prop := {
  interns_grows a st : pool st `prefix_of` pool (snd (f a st));
  interns_stable p q b a : p `prefix_of` q -> read p b = Ok a -> read q b = Ok a;
  interns_reads a st : interner_ok st -> pool_fits (pool (snd (f a st))) ->
    interner_ok (snd (f a st)) /\ read (pool (snd (f a st))) (fst (f a st)) = Ok a;
}.

Lemma try_ok {T U E} (r : Result T E) (k : T -> Result U E) u : try_ r k = Ok u <-> exists x, r = Ok x /\ k x = Ok u.
Proof. destruct r; cbn; naive_solver. Qed.

Lemma pool_at_ok p i s : pool_at p i = Ok s <-> p !! Z.to_nat i = Some s.
Proof. unfold pool_at. destruct (p !! Z.to_nat i); naive_solver. Qed.

Lemma intern_interns : Interns intern pool_at.
Proof.
  split.
  - intros s st. unfold intern. destruct (seen st !! s : option Z); cbn; [done|by apply prefix_app_r].
  - intros p q i s Hp. rewrite !pool_at_ok. intros Hi. by eapply prefix_lookup_Some.
  - intros s st Hok. unfold intern. destruct (seen st !! s : option Z) as [i|] eqn:E; cbn; intros Hf.
    + split; [done|]. apply pool_at_ok. by apply Hok.
    + unfold pool_fits in Hf. rewrite length_app in Hf. cbn in Hf. rewrite Z.mod_small by lia.
      assert (pool_at (pool st ++ [s]) (Z.of_nat (length (pool st))) = Ok s) as Hat.
      { apply pool_at_ok. rewrite Nat2Z.id, lookup_app_r by lia. by rewrite Nat.sub_diag. }
      split; [|done]. intros t i. cbn. rewrite lookup_insert_Some. intros [[<- <-]|[_ Ht]]; [split; [lia|by apply pool_at_ok]|].
      destruct (Hok t i Ht) as [Hi Hat']. split; [done|]. by apply lookup_app_l_Some.
Qed.

Lemma maybe_interns : Interns maybe pool_maybe.
Proof.
  destruct intern_interns as [Hg Hs Hr]. split.
  - intros [s|] st; cbn; [|done]. specialize (Hg s st). by destruct (intern s st).
  - intros p q [i|] s Hp; cbn; [|done]. rewrite !try_ok. intros (x & Hx & Ex). exists x. split; [by apply (Hs p q)|done].
  - intros [s|] st Hok; cbn; [|done]. specialize (Hr s st Hok). destruct (intern s st) as [i st']; cbn in *.
    intros Hf. destruct (Hr Hf) as [Hok' ->]. done.
Qed.

Lemma map_interning_interns {A B} (f : A -> Interner -> B * Interner) read :
  Interns f read -> Interns (map_interning f) (fun p => collect_results (read p)).
Proof.
  intros [Hg Hs Hr].
  assert (forall l st, pool st `prefix_of` pool (snd (map_interning f l st))) as Hgl.
  { induction l as [|a l IH]; intros st; cbn; [done|]. specialize (Hg a st). destruct (f a st) as [b st1]; cbn in *.
    specialize (IH st1). destruct (map_interning f l st1); cbn in *. by trans (pool st1). }
  assert (forall p q bs l, p `prefix_of` q -> collect_results (read p) bs = Ok l -> collect_results (read q) bs = Ok l) as Hsl.
  { intros p q bs l Hp. revert l. induction bs as [|b bs IH]; intros l; cbn; [done|]. rewrite !try_ok. intros (a & Ha & E).
    exists a. split; [by apply (Hs p q)|]. apply try_ok in E as (l' & Hl' & E). apply try_ok. eauto. }
  split; [done|done|]. induction a as [|a l IH]; intros st Hok; cbn; [done|].
  specialize (Hr a st Hok). destruct (f a st) as [b st1]; cbn in *. pose proof (Hgl l st1) as Hp. specialize (IH st1).
  destruct (map_interning f l st1) as [bs st2]; cbn in *. intros Hf.
  destruct (Hr (pool_fits_prefix _ _ Hp Hf)) as [Hok1 Hb]. destruct (IH Hok1 Hf) as [Hok2 Hbs]. split; [done|].
  rewrite (Hs _ _ _ _ Hp Hb). cbn. by rewrite Hbs.
Qed.

(** One write after another, read in either order. *)
Lemma interns_pair {A A' B B'} (f : A -> Interner -> B * Interner) (g : A' -> Interner -> B' * Interner) read read' :
  Interns f read -> Interns g read' ->
  Interns (fun '(a, a') st => let '(b, st) := f a st in let '(b', st) := g a' st in ((b, b'), st))
          (fun p '(b, b') => let? a := read p b in let? a' := read' p b' in Ok (a, a')).
Proof.
  intros [Hg Hs Hr] [Hg' Hs' Hr']. split.
  - intros [a a'] st. specialize (Hg a st). destruct (f a st) as [b st1]; cbn in *. specialize (Hg' a' st1).
    destruct (g a' st1); cbn in *. by trans (pool st1).
  - intros p q [b b'] [x x'] Hp. rewrite !try_ok. intros (a & Ha & E). apply try_ok in E as (a' & Ha' & E).
    exists a. split; [by apply (Hs p q)|]. apply try_ok. exists a'. split; [by apply (Hs' p q)|done].
  - intros [a a'] st Hok. specialize (Hr a st Hok). destruct (f a st) as [b st1]; cbn in *. specialize (Hr' a' st1). specialize (Hg' a' st1).
    destruct (g a' st1) as [b' st2]; cbn in *. intros Hf. destruct (Hr (pool_fits_prefix _ _ Hg' Hf)) as [Hok1 Hb].
    destruct (Hr' Hok1 Hf) as [Hok2 Hb']. split; [done|]. rewrite (Hs _ _ _ _ Hg' Hb). cbn. by rewrite Hb'.
Qed.

(** Through another shape of what is written and of what is read. *)
Lemma interns_iso {A A' B B'} (f : A -> Interner -> B * Interner) read (to : A' -> A) (from : A -> A') (wrap : B -> B') (unwrap : B' -> B)
    (f' : A' -> Interner -> B' * Interner) read' :
  Interns f read -> (forall a, from (to a) = a) -> (forall b, unwrap (wrap b) = b) ->
  (forall a st, f' a st = (wrap (fst (f (to a) st)), snd (f (to a) st))) ->
  (forall p b a, read' p b = Ok a <-> exists x, read p (unwrap b) = Ok x /\ from x = a) ->
  Interns f' read'.
Proof.
  intros [Hg Hs Hr] Ha Hb Ef Er. split.
  - intros a st. rewrite Ef. apply Hg.
  - intros p q b a Hp. rewrite !Er. intros (x & Hx & <-). eauto.
  - intros a st Hok. rewrite Ef. cbn. intros Hf. destruct (Hr (to a) st Hok Hf) as [Hok' Hx]. split; [done|].
    apply Er. exists (to a). rewrite Hb. auto.
Qed.

(** Each read in turn, from the hypothesis that is that read. *)
Ltac found x H := exists x; split; [exact H|].

(** What is written as it is. *)
Lemma interns_ret {A} : Interns (fun (a : A) st => (a, st)) (fun _ a => Ok a).
Proof. split; naive_solver. Qed.

Lemma standing_interns : Interns wire_standing standing_from_wire.
Proof.
  destruct intern_interns as [Hg Hs Hr], maybe_interns as [Hg' Hs' Hr']. split.
  - intros [r|v|k n] st; cbn; [specialize (Hg' r st); by destruct (maybe r st)|specialize (Hg v st); by destruct (intern v st)|
      specialize (Hg' n st); by destruct (maybe n st)].
  - intros p q [r|v|k n] s Hp; cbn; rewrite !try_ok; intros (x & Hx & E); exists x; (split; [|done]); eauto.
  - intros [r|v|k n] st Hok; cbn.
    + specialize (Hr' r st Hok). destruct (maybe r st); cbn in *. intros Hf. by destruct (Hr' Hf) as [? ->].
    + specialize (Hr v st Hok). destruct (intern v st); cbn in *. intros Hf. by destruct (Hr Hf) as [? ->].
    + specialize (Hr' n st Hok). destruct (maybe n st); cbn in *. intros Hf. by destruct (Hr' Hf) as [? ->].
Qed.

Lemma status_interns : Interns wire_status status_from_wire.
Proof.
  eapply (interns_iso _ _ (fun s => (channel s, (standing s, advisory s))) (fun x => mkAdvisoryStatus (fst x) (fst (snd x)) (snd (snd x)))
    (fun b => mkWireStatus (fst b) (fst (snd b)) (snd (snd b))) (fun w => (ws_channel w, (ws_standing w, ws_advisory w)))).
  - apply interns_pair; [apply interns_ret|]. apply interns_pair; [apply standing_interns|apply maybe_interns].
  - by intros [].
  - by intros [? []].
  - intros s st. unfold wire_status. cbn. destruct (wire_standing (standing s) st) as [w st1]. by destruct (maybe (advisory s) st1).
  - intros p b a. unfold status_from_wire. cbn. repeat setoid_rewrite try_ok. split.
    + intros (s & Hs & ad & Had & [= <-]). exists (ws_channel b, (s, ad)). split; [|done]. exists (s, ad). split; [|done]. found s Hs. by found ad Had.
    + intros (x & (y & (s & Hs & ad & Had & [= <-]) & [= <-]) & <-). found s Hs. by found ad Had.
Qed.

Definition read_verdict (p : list text) (v : Z * list WireStatus) : Result (text * list AdvisoryStatus) AdvisoriesError :=
  let? l := collect_results (status_from_wire p) (snd v) in
  let? cve := pool_at p (fst v) in
  Ok (cve, l).

Lemma verdict_interns : Interns wire_verdict read_verdict.
Proof.
  eapply (interns_iso _ _ id id id id).
  - apply interns_pair; [apply intern_interns|apply map_interning_interns, status_interns].
  - done.
  - done.
  - intros [c l] st. unfold wire_verdict. cbn. destruct (intern c st) as [i st1]. by destruct (map_interning wire_status l st1).
  - intros p [i l] a. unfold read_verdict. cbn. repeat setoid_rewrite try_ok. split.
    + intros (s & Hs & c & Hc & [= <-]). exists (c, s). split; [|done]. found c Hc. by found s Hs.
    + intros (x & (c & Hc & s & Hs & [= <-]) & <-). found s Hs. by found c Hc.
Qed.

Definition read_package (p : list text) (w : WirePackage) : Result (text * (text * Package)) AdvisoriesError :=
  let? verdicts := collect_results (read_verdict p) (wp_verdicts w) in
  let? versions := collect_results (pool_at p) (wp_lineage w) in
  let? release := pool_at p (wp_release w) in
  let? name := pool_at p (wp_package w) in
  Ok (release, (name, mkPackage versions verdicts)).

Lemma package_interns : Interns wire_package read_package.
Proof.
  eapply (interns_iso _ _ (fun '(r, (n, pk)) => (r, (n, (pkg_lineage pk, pkg_verdicts pk)))) (fun '(r, (n, (l, v))) => (r, (n, mkPackage l v)))
    (fun '(r, (n, (l, v))) => mkWirePackage r n l v) (fun w => (wp_release w, (wp_package w, (wp_lineage w, wp_verdicts w))))).
  - apply interns_pair; [apply intern_interns|]. apply interns_pair; [apply intern_interns|].
    apply interns_pair; apply map_interning_interns; [apply intern_interns|apply verdict_interns].
  - by intros (? & ? & []).
  - by intros (? & ? & ? & ?).
  - intros (r & n & pk) st. cbn. destruct (intern r st) as [i st1]. destruct (intern n st1) as [j st2].
    destruct (map_interning intern _ st2) as [k st3]. by destruct (map_interning wire_verdict _ st3).
  - intros p b a. unfold read_package. cbn. repeat setoid_rewrite try_ok. split.
    + intros (v & Hv & l & Hl & r & Hr & n & Hn & [= <-]). exists (r, (n, (l, v))). split; [|done].
      found r Hr. exists (n, (l, v)). split; [|done]. found n Hn. exists (l, v). split; [|done]. found l Hl. by found v Hv.
    + intros (x & (r & Hr & y & (n & Hn & z & (l & Hl & v & Hv & [= <-]) & [= <-]) & [= <-]) & <-).
      found v Hv. found l Hl. found r Hr. by found n Hn.
Qed.

Lemma priority_interns : Interns wire_priority priority_from_wire.
Proof.
  eapply (interns_iso _ _ id id id id).
  - apply interns_pair; apply intern_interns.
  - done.
  - done.
  - intros [c l] st. unfold wire_priority. cbn. destruct (intern c st) as [i st1]. by destruct (intern l st1).
  - intros p [i l] a. unfold priority_from_wire. cbn. repeat setoid_rewrite try_ok. naive_solver.
Qed.

Definition read_cve (p : list text) (c : WireCve) : Result (text * CveFacts) AdvisoriesError :=
  let? by_release := collect_results (priority_from_wire p) (wc_by_release c) in
  let? cve := pool_at p (wc_cve c) in
  let? priority := pool_maybe p (wc_priority c) in
  Ok (cve, mkCveFacts priority by_release).

Lemma cve_interns : Interns wire_cve read_cve.
Proof.
  eapply (interns_iso _ _ (fun '(c, f) => (c, (facts_priority f, facts_by_release f))) (fun '(c, (q, l)) => (c, mkCveFacts q l))
    (fun '(c, (q, l)) => mkWireCve c q l) (fun w => (wc_cve w, (wc_priority w, wc_by_release w)))).
  - apply interns_pair; [apply intern_interns|]. apply interns_pair; [apply maybe_interns|apply map_interning_interns, priority_interns].
  - by intros [? []].
  - by intros (? & ? & ?).
  - intros [c f] st. unfold wire_cve. cbn. destruct (intern c st) as [i st1]. destruct (maybe _ st1) as [j st2].
    by destruct (map_interning wire_priority _ st2).
  - intros p b a. unfold read_cve. cbn. repeat setoid_rewrite try_ok. split.
    + intros (l & Hl & c & Hc & q & Hq & [= <-]). exists (c, (q, l)). split; [|done]. found c Hc. exists (q, l). split; [|done]. found q Hq. by found l Hl.
    + intros (x & (c & Hc & y & (q & Hq & l & Hl & [= <-]) & [= <-]) & <-). found l Hl. found c Hc. by found q Hq.
Qed.

(** A loop that reads and then takes, as reading all and then taking all. *)
Lemma fold_results_collect {A B S E} (f : S -> B -> Result S E) (read : B -> Result A E) (ins : S -> A -> S) (P : A -> Prop) bs l s :
  (forall s b a, P a -> read b = Ok a -> f s b = Ok (ins s a)) -> Forall P l -> collect_results read bs = Ok l ->
  fold_results f s bs = Ok (foldl ins s l).
Proof.
  intros Hf. revert l s. induction bs as [|b bs IH]; intros l s Hp; cbn; [by intros [= <-]|].
  intros (a & Ha & (l' & Hl & [= <-])%try_ok)%try_ok. inversion Hp; subst. rewrite (Hf s b a) by done. cbn. by apply IH.
Qed.

Definition package_ok (p : Package) : Prop := keys_ascend (pkg_verdicts p).

Lemma take_verdict_reads p verdicts v cl : read_verdict p v = Ok cl -> take_verdict_from_wire p verdicts v = Ok (bt_insert (fst cl) (snd cl) verdicts).
Proof.
  unfold read_verdict, take_verdict_from_wire. intros (l & -> & (c & Hc & [= <-])%try_ok)%try_ok. cbn. by rewrite Hc.
Qed.

Lemma take_package_reads p releases w x : package_ok (snd (snd x)) -> read_package p w = Ok x ->
  take_package_from_wire p releases w = Ok (bt_entry (fst x) [] (bt_insert (fst (snd x)) (snd (snd x))) releases).
Proof.
  unfold read_package, take_package_from_wire. intros Hok (v & Hv & (l & Hl & (r & Hr & (n & Hn & [= <-])%try_ok)%try_ok)%try_ok)%try_ok.
  rewrite (fold_results_collect _ (read_verdict p) (fun m cl => bt_insert (fst cl) (snd cl) m) (fun _ => True) _ v).
  - cbn in Hok |- *. rewrite Hl, Hr, Hn. cbn. change (foldl _ [] v) with (bt_collect v). by rewrite bt_collect_ascending.
  - intros m b a _. apply take_verdict_reads.
  - by apply Forall_true.
  - done.
Qed.

Lemma take_cve_reads p cves w x : keys_ascend (facts_by_release (snd x)) -> read_cve p w = Ok x ->
  take_cve_from_wire p cves w = Ok (bt_insert (fst x) (snd x) cves).
Proof.
  unfold read_cve, take_cve_from_wire. intros Hok (l & -> & (c & Hc & (q & Hq & [= <-])%try_ok)%try_ok)%try_ok.
  cbn in *. rewrite Hc, Hq. cbn. by rewrite bt_collect_ascending.
Qed.

(** Releases taken apart into their packages and put together again. *)
Lemma flat_onto (m : BTreeMap text (BTreeMap text Package)) r done_ todo :
  keys_ascend (done_ ++ todo) -> done_ ++ todo <> [] -> Forall (fun rp => key_cmp (fst rp) r = Lt) m ->
  foldl (fun m x => bt_entry (fst x) [] (bt_insert (fst (snd x)) (snd (snd x))) m)
    (if done_ is [] then m else m ++ [(r, done_)]) ((fun np => (r, np)) <$> todo) = m ++ [(r, done_ ++ todo)].
Proof.
  revert done_. induction todo as [|[n pk] todo IH]; intros l Ha Hn Hm; cbn.
  - rewrite app_nil_r in *. by destruct l.
  - replace (bt_entry r [] (bt_insert n pk) (if l is [] then m else m ++ [(r, l)])) with (m ++ [(r, l ++ [(n, pk)])]).
    + specialize (IH (l ++ [(n, pk)])). rewrite <- app_assoc in IH. cbn in IH. destruct (l ++ [(n, pk)]) eqn:E; [by destruct l|].
      rewrite <- E in *. by apply IH.
    + unfold bt_entry. pose proof (ascending_app_below _ _ _ _ Ha) as Hb.
      destruct l as [|x l]; [by rewrite <- (app_nil_r m), bt_get_past, bt_insert_past, app_nil_r by done|].
      rewrite bt_get_past, bt_insert_past by done. cbn. rewrite !(cmp_refl str_cmp). cbn - [bt_insert]. by rewrite bt_insert_last.
Qed.

Lemma flat_releases_collect (m : BTreeMap text (BTreeMap text Package)) :
  keys_ascend m -> Forall (fun rp => keys_ascend (snd rp) /\ snd rp <> []) m ->
  foldl (fun m x => bt_entry (fst x) [] (bt_insert (fst (snd x)) (snd (snd x))) m) [] (flat_releases m) = m.
Proof.
  intros Ha Hp. cut (forall l, keys_ascend (l ++ m) ->
    foldl (fun m x => bt_entry (fst x) [] (bt_insert (fst (snd x)) (snd (snd x))) m) l (flat_releases m) = l ++ m); [by intros Hc; apply (Hc [])|].
  clear Ha. induction Hp as [|[r packages] m [Hpa Hpn] Hp IH]; intros l Ha; cbn; [by rewrite app_nil_r|].
  pose proof (ascending_app_below _ _ _ _ Ha) as Hb. rewrite foldl_app.
  pose proof (flat_onto l r [] packages Hpa Hpn Hb) as E. cbn in E. cbn in *. rewrite E.
  change ((r, packages) :: m) with ([(r, packages)] ++ m) in *. rewrite app_assoc in Ha |- *. by apply IH.
Qed.

(** A dataset as the builder leaves one: maps in order, no release without a package. *)
Definition advisories_ok (a : Advisories) : Prop :=
  keys_ascend (adv_releases a) /\ Forall (fun rp => keys_ascend (snd rp) /\ snd rp <> []) (adv_releases a) /\
  Forall (fun x => package_ok (snd (snd x))) (flat_releases (adv_releases a)) /\
  keys_ascend (adv_cves a) /\ Forall (fun cf => keys_ascend (facts_by_release (snd cf))) (adv_cves a).

Definition set_content_hash (h : text) (a : Advisories) : Advisories :=
  mkAdvisories (adv_distributor a) (adv_version a) h (adv_releases a) (adv_cves a).

Lemma to_wire_reads a : advisories_ok a -> pool_fits (w_pool (to_wire a)) -> from_wire (to_wire a) = Ok (set_content_hash [] a).
Proof.
  intros (Hr & Hrp & Hpk & Hc & Hcf). unfold to_wire, from_wire.
  destruct (map_interning_interns _ _ package_interns) as [_ Hsp Hip]. destruct (map_interning_interns _ _ cve_interns) as [Hgc _ Hic].
  specialize (Hip (flat_releases (adv_releases a)) interner_new). destruct (map_interning wire_package _ _) as [packages st]; cbn in *.
  specialize (Hic (adv_cves a) st). specialize (Hgc (adv_cves a) st). destruct (map_interning wire_cve _ _) as [cves st']; cbn in *.
  intros Hf. destruct Hip as [Hok Hp]; [done|by apply (pool_fits_prefix _ _ Hgc)|]. destruct (Hic Hok Hf) as [_ Hcs].
  rewrite (fold_results_collect _ _ _ _ _ _ _ (fun s b x => take_package_reads (pool st') s b x) Hpk); [|by apply (Hsp (pool st))].
  rewrite flat_releases_collect by done. cbn.
  rewrite (fold_results_collect _ _ _ _ _ _ _ (fun s b x => take_cve_reads (pool st') s b x) Hcf) by done. cbn.
  change (foldl _ [] (adv_cves a)) with (bt_collect (adv_cves a)). rewrite bt_collect_ascending by done.
  by destruct a as [? [] ? ? ?].
Qed.

Lemma strip_prefix_app p s : strip_prefix p (p ++ s) = Some s.
Proof. induction p as [|c p IH]; cbn; [done|]. by rewrite Z.eqb_refl. Qed.

Section ReadBack.
Context `{Bincode, Sha256, !BincodeLaws}.

Lemma to_bytes_hash h a : to_bytes (set_content_hash h a) = to_bytes a.
Proof. done. Qed.

Lemma from_to_bytes a bytes : advisories_ok a -> to_bytes a = Some bytes -> Z.of_nat (length bytes) <= MAX_BYTES ->
  from_bytes bytes = Ok (set_content_hash (adv_content_hash_of bytes) a).
Proof.
  intros Hok (body & Hb & E)%bind_Some Hlen. assert (bytes = MAGIC ++ u16_to_le_bytes FORMAT ++ body) as -> by congruence. unfold from_bytes. rewrite (proj2 (Z.ltb_ge _ _)) by done.
  rewrite strip_prefix_app. cbn - [MAGIC]. rewrite (bincode_reads_back _ _ Hb). cbn - [MAGIC]. rewrite to_wire_reads; [done|done|].
  apply bincode_pool in Hb. unfold pool_fits. rewrite !length_app in Hlen. unfold MAX_BYTES in Hlen. lia.
Qed.

Lemma finish_ok b a : drafts_ok b -> builder_finish b = Some a -> advisories_ok a.
Proof.
  intros (Ha & Hp & Hc & Hcf) (bytes & _ & [= <-])%bind_Some. split_and!; cbn; [by apply bt_map_ascending| | |done..].
  - apply bt_map_values with (P := fun m => keys_ascend m /\ m <> []). eapply Forall_impl; [exact Hp|]. intros [r m] [[Hm _] Hn]; cbn in *.
    split; [by apply bt_map_ascending|]. by destruct m.
  - apply Forall_forall. intros x. unfold flat_releases. intros (rp & ([n pk] & -> & Hn)%list_elem_of_fmap & Hrp)%list_elem_of_bind. cbn.
    apply list_elem_of_fmap in Hrp as ([r m] & -> & Hm). cbn in Hn. apply list_elem_of_fmap in Hn as ([n' d] & [= -> ->] & Hd).
    rewrite Forall_forall in Hp. apply Hp in Hm as [[_ Hds] _]. rewrite Forall_forall in Hds. by apply Hds in Hd as [_ Hv].
Qed.

(** C26: A dataset a feed was reduced to is read back from its file exactly as it was, its
    version and the digest in its name included: strings go through the pool and out of it
    unchanged whatever was interned before them, and no map loses or reorders an entry.  A
    file past the 64 MiB that the reader allows is the exception. *)
Theorem advisories_read_back d feed a : builder_finish (feed_all d feed) = Some a ->
  exists bytes, to_bytes a = Some bytes /\ (Z.of_nat (length bytes) <= MAX_BYTES -> from_bytes bytes = Ok a).
Proof.
  intros Hf. pose proof (finish_ok _ _ (feed_all_ok d feed) Hf) as Hok.
  unfold builder_finish in Hf. apply bind_Some in Hf as (bytes & Hb & [= <-]). exists bytes.
  split; [done|]. intros Hlen. rewrite (from_to_bytes _ _ Hok Hb Hlen). done.
Qed.
End ReadBack.

(** *** A file format of the kind, for examples *)

#[export] Instance WireStanding_eq_dec : EqDecision WireStanding.
Proof. solve_decision. Defined.
#[export] Instance WireStatus_eq_dec : EqDecision WireStatus.
Proof. solve_decision. Defined.
#[export] Instance WirePackage_eq_dec : EqDecision WirePackage.
Proof. solve_decision. Defined.
#[export] Instance WireCve_eq_dec : EqDecision WireCve.
Proof. solve_decision. Defined.
#[export] Instance Wire_eq_dec : EqDecision Wire.
Proof. solve_decision. Defined.

#[export] Instance FeedDistributor_countable : Countable FeedDistributor.
Proof. apply (inj_countable' (fun d => bool_decide (d = FeedUbuntu)) (fun b : bool => if b then FeedUbuntu else FeedDebian)). by intros []. Defined.
#[export] Instance Channel_countable : Countable Channel.
Proof. apply (inj_countable' (fun d => bool_decide (d = Archive)) (fun b : bool => if b then Archive else Esm)). by intros []. Defined.
#[export] Instance OpenKind_countable : Countable OpenKind.
Proof.
  apply (inj_countable' (fun k => match k with Needed => (true, true) | Deferred => (true, false) | Ignored => (false, true) | NeedsTriage => (false, false) end)
    (fun b : bool * bool => match b with (true, true) => Needed | (true, false) => Deferred | (false, true) => Ignored | (false, false) => NeedsTriage end)).
  by intros [].
Defined.
#[export] Instance WireStanding_countable : Countable WireStanding.
Proof.
  apply (inj_countable' (fun s => match s with WNotAffected r => inl r | WFixed v => inr (inl v) | WOpen k n => inr (inr (k, n)) end)
    (fun x => match x with inl r => WNotAffected r | inr (inl v) => WFixed v | inr (inr (k, n)) => WOpen k n end)).
  by intros [].
Defined.
#[export] Instance WireStatus_countable : Countable WireStatus.
Proof. apply (inj_countable' (fun s => (ws_channel s, ws_standing s, ws_advisory s)) (fun '(c, s, a) => mkWireStatus c s a)). by intros []. Defined.
#[export] Instance WirePackage_countable : Countable WirePackage.
Proof.
  apply (inj_countable' (fun w => (wp_release w, wp_package w, wp_lineage w, wp_verdicts w)) (fun '(r, p, l, v) => mkWirePackage r p l v)). by intros [].
Defined.
#[export] Instance WireCve_countable : Countable WireCve.
Proof. apply (inj_countable' (fun c => (wc_cve c, wc_priority c, wc_by_release c)) (fun '(c, p, l) => mkWireCve c p l)). by intros []. Defined.
#[export] Instance Wire_countable : Countable Wire.
Proof.
  apply (inj_countable' (fun w => (w_distributor w, w_version w, (w_pool w, w_packages w, w_cves w)))
    (fun '(d, v, (s, p, c)) => mkWire d v s p c)). by intros [].
Defined.

(** A number bit by bit, after a mark for each string. *)
Fixpoint bits_of (p : positive) : list Z :=
  match p with xH => [] | xO p => 0 :: bits_of p | xI p => 1 :: bits_of p end.

Fixpoint of_bits (l : list Z) : positive :=
  match l with
  | [] => xH
  | b :: l => if b =? 0 then xO (of_bits l) else if b =? 1 then xI (of_bits l) else of_bits l
  end.

Lemma of_bits_of p : of_bits (bits_of p) = p.
Proof. induction p as [p IH|p IH|]; cbn; by rewrite ?IH. Qed.

Lemma of_bits_marks n l : of_bits (replicate n 2 ++ l) = of_bits l.
Proof. by induction n. Qed.

#[export] Instance bit_code : Bincode := {
  bincode_serialize w :=
    let b := replicate (length (w_pool w)) 2 ++ bits_of (encode w) in
    if MAX_BYTES <? Z.of_nat (length b) then None else Some b;
  bincode_deserialize b := match decode (of_bits b) with Some w => Ok w | None => Err (lit "invalid") end;
}.

#[export] Instance bit_code_laws : BincodeLaws.
Proof.
  split; intros w b; cbn; case_match; try done; intros [= <-].
  - by rewrite of_bits_marks, of_bits_of, decode_encode.
  - rewrite length_app, length_replicate. lia.
Qed.

(** A sum in place of the digest. *)
#[export] Instance sum_digest : Sha256 := fun bytes => [foldr Z.add 0 bytes mod 256].

Definition sample_feed : list FeedEntry :=
  [ RecordVerdict (lit "12") (lit "a") (lit "C1") (mkAdvisoryStatus Archive (StillOpen NeedsTriage None) None);
    DateRecord (lit "2024-01-02T00:00:00");
    RecordVerdict (lit "12") (lit "a") (lit "C1") (mkAdvisoryStatus Archive (FixedIn (lit "1-2")) (Some (lit "D1")));
    RecordVerdict (lit "12") (lit "a") (lit "C1") (mkAdvisoryStatus Archive (NotAffected None) None);
    ListVersions (lit "12") (lit "a") [lit "1-10"; lit "1-1"];
    StatePriority None (lit "C1") (lit "low") ].

Lemma advisories_read_back_witness :
  exists a bytes, builder_finish (feed_all FeedDebian sample_feed) = Some a /\ to_bytes a = Some bytes /\ from_bytes bytes = Ok a /\
  statuses a (lit "12") (lit "a") (lit "C1") = [mkAdvisoryStatus Archive (FixedIn (lit "1-2")) (Some (lit "D1"))] /\
  lineage a (lit "12") (lit "a") = Some [lit "1-1"; lit "1-2"; lit "1-10"].
Proof.
  destruct (builder_finish (feed_all FeedDebian sample_feed)) as [a|] eqn:E; [|by vm_compute in E].
  exists a. destruct (advisories_read_back FeedDebian sample_feed a E) as (bytes & Hb & Hr). exists bytes.
  vm_compute in E. injection E as <-. vm_compute in Hb. injection Hb as <-. split_and!; [done|reflexivity| |reflexivity..].
  apply Hr. vm_compute. discriminate.
Defined.

Lemma feed_is_summarised_witness :
  exists a, builder_finish (feed_all FeedDebian sample_feed) = Some a /\
  strongest (recorded (lit "12") (lit "a") (lit "C1") sample_feed) (statuses a (lit "12") (lit "a") (lit "C1")).
Proof.
  destruct (builder_finish (feed_all FeedDebian sample_feed)) as [a|] eqn:E; [|by vm_compute in E]. exists a. split; [done|].
  refine (proj1 (feed_is_summarised FeedDebian sample_feed sample_feed a a _ _ E E (lit "12") (lit "a") (lit "C1"))); [|done].
  unfold sample_feed, entry_bytes, status_bytes, is_bytes. cbn. repeat constructor; lia.
Defined.

(** Between two open verdicts of a channel the first to arrive stands, so that the order of
    a feed decides whether a vulnerability is untriaged or will not be fixed. *)
Theorem arrival_decides_between_open :
  exists feed feed' a a', feed ≡ₚ feed' /\ builder_finish (feed_all FeedDebian feed) = Some a /\ builder_finish (feed_all FeedDebian feed') = Some a' /\
  statuses a (lit "12") (lit "a") (lit "C1") = [mkAdvisoryStatus Archive (StillOpen NeedsTriage None) None] /\
  statuses a' (lit "12") (lit "a") (lit "C1") = [mkAdvisoryStatus Archive (StillOpen Ignored None) None].
Proof.
  set (x k := RecordVerdict (lit "12") (lit "a") (lit "C1") (mkAdvisoryStatus Archive (StillOpen k None) None)).
  destruct (builder_finish (feed_all FeedDebian [x NeedsTriage; x Ignored])) as [a|] eqn:E; [|by vm_compute in E].
  destruct (builder_finish (feed_all FeedDebian [x Ignored; x NeedsTriage])) as [a'|] eqn:E'; [|by vm_compute in E'].
  exists [x NeedsTriage; x Ignored], [x Ignored; x NeedsTriage], a, a'. split_and!; [constructor|done|done|..].
  - rewrite (finish_statuses _ _ _ _ _ _ E). reflexivity.
  - rewrite (finish_statuses _ _ _ _ _ _ E'). reflexivity.
Qed.
