(* ===== verification/Backport.v ===== *)
(** * Whose build it is, and what its distributor has fixed in it

    [model/port/build.rs]: the build a banner names, with the release read off its
    revision.  [cve/packages.rs]: which source package a product is in a release; the
    shipped table is a parameter.  [cve/backport.rs]: a build placed among a distributor's
    advisories, and what they say of one vulnerability for it. *)

From Stdlib Require Import ZArith Lia String Sorting.Sorted.
From stdpp Require Import base numbers option list gmap.
From S2P Require Import Prelude Std Text Ordering Version Finding BTree Advisories.

Local Open Scope Z_scope.

(** ** Builds *)

Inductive Distributor :=
  | Debian | Ubuntu | Raspbian | RedHat | CentOs | Fedora | Amazon | Rocky | Alma | Oracle | Suse | Alpine | FreeBsd.

#[export] Instance Distributor_eq_dec : EqDecision Distributor.
Proof. solve_decision. Defined.

Definition distributor_label (d : Distributor) : text :=
  match d with
  | Debian => lit "Debian"
  | Ubuntu => lit "Ubuntu"
  | Raspbian => lit "Raspbian"
  | RedHat => lit "Red Hat"
  | CentOs => lit "CentOS"
  | Fedora => lit "Fedora"
  | Amazon => lit "Amazon Linux"
  | Rocky => lit "Rocky Linux"
  | Alma => lit "AlmaLinux"
  | Oracle => lit "Oracle Linux"
  | Suse => lit "SUSE"
  | Alpine => lit "Alpine"
  | FreeBsd => lit "FreeBSD"
  end.

(** [wire::distributor_name]. *)
Definition distributor_name (d : Distributor) : text :=
  match d with
  | Debian => lit "debian"
  | Ubuntu => lit "ubuntu"
  | Raspbian => lit "raspbian"
  | RedHat => lit "redhat"
  | CentOs => lit "centos"
  | Fedora => lit "fedora"
  | Amazon => lit "amazon"
  | Rocky => lit "rocky"
  | Alma => lit "almalinux"
  | Oracle => lit "oracle"
  | Suse => lit "suse"
  | Alpine => lit "alpine"
  | FreeBsd => lit "freebsd"
  end.

(** [Distributor::from_name]. *)
Definition distributor_from_name (name : text) : option Distributor :=
  let name := to_ascii_lowercase <$> trim name in
  let among (l : list string) := existsb (fun s => bool_decide (name = lit s)) l in
  if among ["debian"%string] then Some Debian
  else if among ["ubuntu"%string] then Some Ubuntu
  else if among ["raspbian"%string; "raspberry pi os"%string] then Some Raspbian
  else if among ["red hat"%string; "redhat"%string; "red hat enterprise linux"%string; "rhel"%string] then Some RedHat
  else if among ["centos"%string; "centos linux"%string; "centos stream"%string] then Some CentOs
  else if among ["fedora"%string] then Some Fedora
  else if among ["amazon"%string; "amazon linux"%string] then Some Amazon
  else if among ["rocky"%string; "rocky linux"%string] then Some Rocky
  else if among ["alma"%string; "almalinux"%string] then Some Alma
  else if among ["oracle"%string; "oracle linux"%string] then Some Oracle
  else if among ["suse"%string; "sles"%string; "opensuse"%string] then Some Suse
  else if among ["alpine"%string; "alpine linux"%string] then Some Alpine
  else if among ["freebsd"%string] then Some FreeBsd
  else None.

Definition uses_debian_revisions (d : Distributor) : bool := match d with Debian | Ubuntu | Raspbian => true | _ => false end.

(** The order derived: [Banner] below [Revision]. *)
Inductive ReleaseBasis := ByBanner | ByRevision.

#[export] Instance ReleaseBasis_eq_dec : EqDecision ReleaseBasis.
Proof. solve_decision. Defined.

Record BuildRelease := mkBuildRelease {
  rel_name : text;
  rel_basis : ReleaseBasis;
}.

#[export] Instance BuildRelease_eq_dec : EqDecision BuildRelease.
Proof. solve_decision. Defined.

Record Build := mkBuild {
  bd_distributor : Distributor;
  bd_revision : option text;
  bd_release : option BuildRelease;
}.

#[export] Instance Build_eq_dec : EqDecision Build.
Proof. solve_decision. Defined.

Definition build_new (d : Distributor) : Build := mkBuild d None None.

(** [iter.take_while(p)]. *)
Fixpoint take_while (p : Z -> bool) (s : text) : text :=
  match s with [] => [] | c :: s => if p c then c :: take_while p s else [] end.

(** [s.trim_start_matches('0')]. *)
Fixpoint trim_start_zeros (s : text) : text :=
  match s with c :: t => if c =? 48 then trim_start_zeros t else s | [] => [] end.

Definition non_empty (s : text) : option text := match s with [] => None | _ => Some s end.

(** [str::match_indices], from the left and without overlaps: for each occurrence the
    character in front of it and the text after. *)
Fixpoint matches_from (marker : text) (skip : nat) (before : option Z) (s : text) : list (option Z * text) :=
  match s with
  | [] => []
  | c :: t =>
    match skip with
    | S skip => matches_from marker skip (Some c) t
    | O =>
      match strip_prefix marker s with
      | Some rest => (before, rest) :: matches_from marker (length marker - 1) (Some c) t
      | None => matches_from marker 0 (Some c) t
      end
    end
  end.

Definition match_indices (s marker : text) : list (option Z * text) := matches_from marker 0 None s.

Definition debian_release_after (revision marker : text) : option text :=
  let digits := omap (fun '(before, rest) =>
    match before with
    | Some c => if (c =? 43) || (c =? 126) then non_empty (take_while is_ascii_digit rest) else None
    | None => None
    end) (match_indices revision marker) in
  last digits ≫= fun digits => non_empty (trim_start_zeros digits).

(** The shape is read byte by byte in the source, and has one byte to a character. *)
Definition ubuntu_release_at (rest : text) : option text :=
  match rest with
  | a :: b :: dot :: c :: d :: more =>
    let shaped := is_ascii_digit a && is_ascii_digit b && (dot =? 46) && is_ascii_digit c && is_ascii_digit d &&
      negb (starts_with is_ascii_digit more) in
    if shaped && (bool_decide ([c; d] = lit "04") || bool_decide ([c; d] = lit "10")) then Some [a; b; dot; c; d] else None
  | _ => None
  end.

Definition ubuntu_release_after (revision marker : text) : option text :=
  head (omap (fun '(_, rest) => ubuntu_release_at rest) (match_indices revision marker)).

Definition release_in_revision (d : Distributor) (revision : text) : option text :=
  match d with
  | Debian | Raspbian =>
    match debian_release_after revision (lit "deb") with
    | Some r => Some r
    | None => debian_release_after revision (lit "bpo")
    end
  | Ubuntu =>
    match ubuntu_release_after revision (lit "ubuntu0.") with
    | Some r => Some r
    | None => ubuntu_release_after revision (lit "~")
    end
  | _ => None
  end.

Definition basis_ltb (a b : ReleaseBasis) : bool := match a, b with ByBanner, ByRevision => true | _, _ => false end.

Definition with_release (release : BuildRelease) (b : Build) : Build :=
  mkBuild (bd_distributor b) (bd_revision b)
    match bd_release b with
    | None => Some release
    | Some held =>
      if bool_decide (rel_name held = rel_name release) then Some (if basis_ltb (rel_basis held) (rel_basis release) then release else held)
      else None
    end.

Definition with_revision (revision : text) (b : Build) : Build :=
  let stated := release_in_revision (bd_distributor b) revision in
  let b := mkBuild (bd_distributor b) (Some revision) (bd_release b) in
  match stated with
  | Some stated => with_release (mkBuildRelease stated ByRevision) b
  | None => b
  end.

Definition build_describe (b : Build) : text :=
  distributor_label (bd_distributor b) ++
  match bd_release b with Some r => 32 :: rel_name r | None => [] end ++
  match bd_revision b with Some r => 32 :: r | None => [] end.

Definition build_merge (self other : Build) : Build :=
  if bool_decide (bd_distributor other = bd_distributor self) then
    let self :=
      match bd_revision self, bd_revision other with
      | None, Some revision => with_revision revision self
      | _, _ => self
      end in
    match bd_release other with
    | Some release => with_release release self
    | None => self
    end
  else self.

Definition normalised_release (d : Distributor) (s : text) : option text :=
  let s := trim s in
  match d with
  | Debian | Raspbian =>
    let major := take_while is_ascii_digit s in
    let rest := drop (length major) s in
    if negb (is_empty_text major) && (is_empty_text rest || starts_with (Z.eqb 46) rest) then non_empty (trim_start_zeros major) else None
  | Ubuntu =>
    match s with
    | [a; b; dot; c; d] =>
      if is_ascii_digit a && is_ascii_digit b && (dot =? 46) && is_ascii_digit c && is_ascii_digit d then Some s else None
    | _ => None
    end
  | _ => non_empty s
  end.

(** ** Source packages *)

Record PackageRule := mkPackageRule {
  pr_release : option text;
  pr_series : option text;
  pr_package : text;
}.

Inductive PackageSpec := Always (package : text) | Rules (rules : list PackageRule).

Record ProductPackages := mkProductPackages {
  pp_ubuntu : option PackageSpec;
  pp_debian : option PackageSpec;
}.

(** [Product::at]. *)
Definition product_at (p : ProductPackages) (distributor : text) : option PackageSpec :=
  if bool_decide (distributor = lit "ubuntu") then pp_ubuntu p
  else if bool_decide (distributor = lit "debian") then pp_debian p
  else None.

Definition in_series (upstream series : text) : bool :=
  match strip_prefix series upstream with Some rest => negb (starts_with is_ascii_digit rest) | None => false end.

Definition rule_holds (r : PackageRule) (release upstream : text) : bool :=
  match pr_release r with None => true | Some x => bool_decide (x = release) end &&
  match pr_series r with None => true | Some series => in_series upstream series end.

Definition spec_package (s : PackageSpec) (release upstream : text) : option text :=
  match s with
  | Always package => Some package
  | Rules rules => pr_package <$> head (filter (fun r => rule_holds r release upstream = true) rules)
  end.

Definition spec_packages (s : PackageSpec) : list text :=
  match s with Always package => [package] | Rules rules => pr_package <$> rules end.

Definition source_package (document : BTreeMap text ProductPackages) (vendor_product distributor release upstream : text) : option text :=
  product ← bt_get vendor_product document;
  spec ← product_at product distributor;
  spec_package spec release upstream.

(** Every package a distributor has of the table. *)
Definition source_packages (document : BTreeMap text ProductPackages) (distributor : text) : list text :=
  omap (fun '(_, product) => product_at product distributor) document ≫= spec_packages.

(** ** Placement *)

Inductive ReleaseFrom := FromBanner | FromRevision | FromHost.

Inductive Unplaced := NoData | NotPackaged | ReleaseUnknown | NotCovered (package release : text).

Record Placement := mkPlacement {
  pl_advisories : Advisories;
  pl_release : text;
  pl_release_from : ReleaseFrom;
  pl_package : text;
  pl_installed : option text;
}.

Definition unplaced_describe (u : Unplaced) (distributor : text) : text :=
  match u with
  | NoData => lit "no " ++ distributor ++ lit " advisory data was loaded"
  | NotPackaged => distributor ++ lit "'s advisory data does not cover this software"
  | ReleaseUnknown => lit "the banner does not say which " ++ distributor ++ lit " release this is"
  | NotCovered package release => distributor ++ lit "'s advisory data does not cover " ++ package ++ lit " in release " ++ release
  end.

(** [str::strip_suffix] with a text. *)
Definition strip_text_suffix (suffix s : text) : option text := (@rev Z) <$> strip_prefix (rev suffix) (rev s).

(** The feed that speaks for a distributor's builds. *)
Definition feed_of (d : Distributor) : option text :=
  match d with
  | Ubuntu => Some (lit "ubuntu")
  | Debian | Raspbian => Some (lit "debian")
  | _ => None
  end.

(** The releases whose package, under its name there, ever carried a revision. *)
Definition releases_carrying (package_in : text -> option text) (a : Advisories) (revision : text) : list text :=
  foldl (fun found release =>
    match package_in release with
    | None => found
    | Some package =>
      foldl (fun found hv =>
        if bool_decide (fst hv = release) && negb (bool_decide (fst hv ∈ found)) then found ++ [fst hv] else found)
        found (builds_with_revision a package revision)
    end) [] (adv_release_names a).

(** The build a revision names: the lineage's, or its latest version with the revision in
    place of its own. *)
Definition installed_version (versions : list text) (revision : text) : option text :=
  match head (filter (fun version => dpkg_revision version = revision) versions) with
  | Some version => Some version
  | None =>
    latest ← last versions;
    stem ← strip_text_suffix (dpkg_revision latest) latest;
    Some (stem ++ revision)
  end.

Definition placement_of (document : BTreeMap text ProductPackages) (build : Build) (vendor_product upstream : text) (set : list Advisories)
    (host_release : option text) : Result Placement Unplaced :=
  match feed_of (bd_distributor build) with
  | None => Err NoData
  | Some distributor =>
    match head (filter (fun a => distributor_as_str (adv_distributor a) = distributor) set) with
    | None => Err NoData
    | Some advisories =>
      let package_in release := source_package document vendor_product distributor release upstream in
      let? (release, release_from) :=
        match bd_release build, bd_revision build with
        | Some release, _ => Ok (rel_name release, FromBanner)
        | None, None =>
          match host_release with Some release => Ok (release, FromHost) | None => Err ReleaseUnknown end
        | None, Some revision =>
          match releases_carrying package_in advisories revision with
          | [only] => Ok (only, FromRevision)
          | _ => Err ReleaseUnknown
          end
        end in
      match package_in release with
      | None => Err NotPackaged
      | Some package =>
        match lineage advisories release package with
        | None => Err (NotCovered package release)
        | Some versions =>
          Ok (mkPlacement advisories release release_from package (bd_revision build ≫= installed_version versions))
        end
      end
    end
  end.

(** ** Rulings *)

Record Fix := mkFix {
  fix_version : text;
  fix_advisory : option text;
}.

Inductive Withdrawal := WithdrawnFixed (version : text) | WithdrawnNotAffected (reason : option text).

Inductive Vulnerable := FixAvailable (fix_ : Fix) | EsmOnly (fix_ : Fix) | NoFix (kind : OpenKind) (note : option text).

Inductive Unsettled := PatchLevelHidden (fix_ : Fix) | Untriaged | NotTracked.

Inductive Ruling := RuledWithdrawn (w : Withdrawal) | RuledVulnerable (v : Vulnerable) | RuledUnsettled (u : Unsettled).

Definition fixed_in (l : list AdvisoryStatus) (c : Channel) : option Fix :=
  head (omap (fun s =>
    match standing s with FixedIn v => if decide (channel s = c) then Some (mkFix v (advisory s)) else None | _ => None end) l).

Definition judge_fix (installed : option text) (f : Fix) (esm : bool) : Ruling :=
  match installed with
  | Some installed =>
    match dpkg_cmp installed (fix_version f) with
    | Lt => RuledVulnerable (if esm then EsmOnly f else FixAvailable f)
    | _ => RuledWithdrawn (WithdrawnFixed (fix_version f))
    end
  | None => RuledUnsettled (PatchLevelHidden f)
  end.

Definition channel_rank (c : Channel) : Z := match c with Archive => 0 | Esm => 1 end.

(** [min_by_key]: the first of the least. *)
Fixpoint min_by_channel {A} (l : list (Channel * A)) : option (Channel * A) :=
  match l with
  | [] => None
  | x :: l => match min_by_channel l with Some y => if channel_rank (fst y) <? channel_rank (fst x) then Some y else Some x | None => Some x end
  end.

Definition rule_statuses (l : list AdvisoryStatus) (installed : option text) : Ruling :=
  match l with
  | [] => RuledUnsettled NotTracked
  | _ =>
    match head (omap (fun s => match standing s with NotAffected reason => Some reason | _ => None end) l) with
    | Some reason => RuledWithdrawn (WithdrawnNotAffected reason)
    | None =>
      match fixed_in l Archive with
      | Some f => judge_fix installed f false
      | None =>
        match fixed_in l Esm with
        | Some f => judge_fix installed f true
        | None =>
          match min_by_channel (omap (fun s => match standing s with StillOpen k n => Some (channel s, (k, n)) | _ => None end) l) with
          | Some (_, (NeedsTriage, _)) => RuledUnsettled Untriaged
          | Some (_, (kind, note)) => RuledVulnerable (NoFix kind note)
          | None => RuledUnsettled NotTracked
          end
        end
      end
    end
  end.

(** [Placement::rule]. *)
Definition placement_rule (p : Placement) (cve : text) : Ruling :=
  rule_statuses (statuses (pl_advisories p) (pl_release p) (pl_package p) cve) (pl_installed p).

(** ** Rulings rest on the feed *)

Lemma fixed_in_some l c f : fixed_in l c = Some f ->
  mkAdvisoryStatus c (FixedIn (fix_version f)) (fix_advisory f) ∈ l.
Proof.
  unfold fixed_in. induction l as [|[ch st ad] l IH]; cbn; [done|]. destruct st; cbn.
  - intros Hf. right. by apply IH.
  - destruct (decide (ch = c)) as [->|Hne]; cbn; [intros [= <-]; left|intros Hf; right; by apply IH].
  - intros Hf. right. by apply IH.
Qed.

Lemma fixed_in_none l c s v : fixed_in l c = None -> s ∈ l -> channel s = c -> standing s <> FixedIn v.
Proof.
  unfold fixed_in. intros Hf Hs <- E. assert (mkFix v (advisory s) ∈ omap (fun t =>
    match standing t with FixedIn v => if decide (channel t = channel s) then Some (mkFix v (advisory t)) else None | _ => None end) l) as Hin.
  { apply list_elem_of_omap. exists s. split; [done|]. by rewrite E, decide_True. }
  destruct (omap _ l); [by apply elem_of_nil in Hin|done].
Qed.

Lemma min_by_channel_in {A} (l : list (Channel * A)) x : min_by_channel l = Some x -> x ∈ l.
Proof.
  revert x. induction l as [|y l IH]; cbn; [done|]. intros x. destruct (min_by_channel l) as [z|]; [|intros [= ->]; left].
  case_match; intros [= <-]; [right; by apply IH|left].
Qed.

Lemma head_none {A} (l : list A) : head l = None <-> l = [].
Proof. by destruct l. Qed.

Lemma head_in {A} (l : list A) x : head l = Some x -> x ∈ l.
Proof. destruct l; [done|]. intros [= ->]. left. Qed.

(** What a ruling says of the verdicts on record [l] for its vulnerability. *)
Definition ruling_rests_on (l : list AdvisoryStatus) (installed : option text) (r : Ruling) : Prop :=
  let fix_in c v := exists s, s ∈ l /\ channel s = c /\ standing s = FixedIn v in
  let latest_in c f := (exists s, s ∈ l /\ channel s = c /\ standing s = FixedIn (fix_version f) /\ advisory s = fix_advisory f) /\
    forall v, fix_in c v -> dpkg_cmp v (fix_version f) <> Gt in
  match r with
  | RuledWithdrawn (WithdrawnNotAffected reason) => exists s, s ∈ l /\ standing s = NotAffected reason /\ forall v, ~ fix_in (channel s) v
  | RuledWithdrawn (WithdrawnFixed v) => exists i c, installed = Some i /\ fix_in c v /\ forall w, fix_in c w -> dpkg_cmp i w <> Lt
  | RuledVulnerable (FixAvailable f) => exists i, installed = Some i /\ latest_in Archive f /\ dpkg_cmp i (fix_version f) = Lt
  | RuledVulnerable (EsmOnly f) =>
      exists i, installed = Some i /\ latest_in Esm f /\ dpkg_cmp i (fix_version f) = Lt /\ forall v, ~ fix_in Archive v
  | RuledVulnerable (NoFix kind note) => (exists s, s ∈ l /\ standing s = StillOpen kind note) /\ kind <> NeedsTriage /\ forall c v, ~ fix_in c v
  | RuledUnsettled (PatchLevelHidden f) => installed = None /\ exists c, latest_in c f
  | RuledUnsettled Untriaged => (exists s note, s ∈ l /\ standing s = StillOpen NeedsTriage note) /\ forall c v, ~ fix_in c v
  | RuledUnsettled NotTracked => l = []
  end.

(** At or above what is at or above. *)
Lemma dpkg_at_or_above i f w : is_bytes i -> is_bytes f -> is_bytes w -> dpkg_cmp i f <> Lt -> dpkg_cmp w f <> Gt -> dpkg_cmp i w <> Lt.
Proof.
  intros Hi Hf Hw. rewrite !dpkg_cmp_key by done. intros H1 H2 H3.
  apply (cmp_le_trans dpkg_key_cmp (dpkg_version_key w) (dpkg_version_key f) (dpkg_version_key i)); [done| |by rewrite cmp_opp, H3].
  rewrite cmp_opp. by destruct (dpkg_key_cmp _ _).
Qed.

Section Rests.
Context (l held : list AdvisoryStatus) (Hb : Forall status_bytes l) (Hst : strongest l held).

Lemma strongest_fix s t v : s ∈ held -> t ∈ l -> channel t = channel s -> standing t = FixedIn v ->
  exists w, standing s = FixedIn w /\ dpkg_cmp v w <> Gt.
Proof.
  destruct Hst as (_ & _ & Hs). intros Hin Ht Ec Et. destruct (Hs s Hin) as [_ Hmax]. specialize (Hmax t Ht Ec).
  unfold outranks in Hmax. rewrite Et in Hmax. destruct (standing s) as [r|w|k n]; try done. exists w. split; [done|]. by destruct (dpkg_cmp v w).
Qed.

Lemma latest_fix c f : fixed_in held c = Some f ->
  (exists s, s ∈ l /\ channel s = c /\ standing s = FixedIn (fix_version f) /\ advisory s = fix_advisory f) /\
  forall v, (exists s, s ∈ l /\ channel s = c /\ standing s = FixedIn v) -> dpkg_cmp v (fix_version f) <> Gt.
Proof.
  intros Hf%fixed_in_some. split.
  - eexists. split; [exact (proj1 (proj2 (proj2 Hst) _ Hf))|done].
  - intros v (t & Ht & Ec & Et). by destruct (strongest_fix _ t v Hf Ht Ec Et) as (w & [= <-] & Hw).
Qed.

Lemma no_fix c v : fixed_in held c = None -> ~ exists s, s ∈ l /\ channel s = c /\ standing s = FixedIn v.
Proof.
  intros Hf (t & Ht & Ec & Et). destruct Hst as (_ & Hex & _). destruct (Hex t Ht) as (s & Hs & Es).
  destruct (strongest_fix s t v Hs Ht (eq_sym Es) Et) as (w & Ew & _). by apply (fixed_in_none held c s w Hf Hs (eq_trans Es Ec)).
Qed.

Lemma judge_fix_rests (installed : option text) c f (esm : bool) : (forall i : text, installed = Some i -> is_bytes i) ->
  fixed_in held c = Some f -> (if esm then c = Esm /\ fixed_in held Archive = None else c = Archive) ->
  ruling_rests_on l installed (judge_fix installed f esm).
Proof.
  intros Hi Hf Hc. pose proof (latest_fix c f Hf) as [Hex Hmax]. unfold judge_fix. destruct installed as [i|]; [|by cbn; eauto].
  destruct (dpkg_cmp i (fix_version f)) eqn:E; cbn.
  2: { destruct esm; cbn; exists i; [destruct Hc as [-> Ha]|subst c]; split_and!; eauto. intros v. by apply no_fix. }
  all: exists i, c; destruct Hex as (s & Hs & Ec & Es & _); split_and!; [done|by eauto|]; intros w Hw; pose proof (Hmax w Hw) as Hle;
    destruct Hw as (t & Ht & _ & Et); rewrite Forall_forall in Hb; pose proof (Hb _ Hs) as Hbs; pose proof (Hb _ Ht) as Hbt;
    unfold status_bytes in Hbs, Hbt; rewrite Es in Hbs; rewrite Et in Hbt;
    apply (dpkg_at_or_above i (fix_version f) w); auto; by rewrite E.
Qed.

End Rests.

Lemma rule_rests l held (installed : option text) : Forall status_bytes l -> strongest l held -> (forall i : text, installed = Some i -> is_bytes i) -> ruling_rests_on l installed (rule_statuses held installed).
Proof.
  intros Hb Hst Hi. unfold rule_statuses. destruct held as [|h rest] eqn:Eh.
  { cbn. destruct l as [|t l']; [done|]. destruct Hst as (_ & Hex & _). destruct (Hex t) as (s & Hs & _); [left|]. by apply elem_of_nil in Hs. }
  rewrite <- Eh in *. clear Eh h rest. destruct (head (omap _ held)) as [reason|] eqn:En.
  - apply head_in, list_elem_of_omap in En as (s & Hs & Es). destruct (standing s) as [r| |] eqn:E; simplify_eq. cbn. exists s.
    split_and!; [by apply Hst|done|]. intros v (t & Ht & Ec & Et). destruct (strongest_fix l held Hst s t v Hs Ht Ec Et) as (w & Ew & _). congruence.
  - destruct (fixed_in held Archive) as [f|] eqn:Ea; [by apply (judge_fix_rests l held Hb Hst installed Archive)|].
    destruct (fixed_in held Esm) as [f|] eqn:Ee; [by apply (judge_fix_rests l held Hb Hst installed Esm)|].
    assert (forall c v, ~ exists s, s ∈ l /\ channel s = c /\ standing s = FixedIn v) as Hno by (intros []; intros v; by apply (no_fix l held Hst)).
    destruct (min_by_channel _) as [[c [k n]]|] eqn:Em.
    + apply min_by_channel_in, list_elem_of_omap in Em as (s & Hs & Es). destruct (standing s) as [| |k' n'] eqn:E; simplify_eq.
      apply Hst in Hs as [Hs _]. destruct k; cbn; split_and!; eauto.
    + cbn. destruct l as [|t l'] eqn:El; [done|]. exfalso. destruct Hst as (_ & Hex & Hs). destruct (Hex t) as (s & Hin & _); [left|].
      destruct (Hs s Hin) as [Hsl _]. destruct (standing s) as [r|v|k n] eqn:E.
      * assert (r ∈ omap (fun s => match standing s with NotAffected reason => Some reason | _ => None end) held) as Hr.
        { apply list_elem_of_omap. exists s. by rewrite E. }
        apply head_none in En. rewrite En in Hr. by apply elem_of_nil in Hr.
      * by apply (Hno (channel s) v); eauto.
      * assert ((channel s, (k, n)) ∈ omap (fun s => match standing s with StillOpen k n => Some (channel s, (k, n)) | _ => None end) held) as Hr.
        { apply list_elem_of_omap. exists s. by rewrite E. }
        revert Em Hr. generalize (omap (fun s => match standing s with StillOpen k n => Some (channel s, (k, n)) | _ => None end) held).
        intros [|x xs] Em Hr; [by apply elem_of_nil in Hr|]. cbn in Em. repeat case_match; done.
Qed.

(** C11: Whatever a ruling says of a build, the feed said: a vulnerability is withdrawn as fixed
    only where the build is at or above every fix on record in one channel, and as never
    affecting the release only where no fix in that channel contradicts it; it is reported
    with the latest fix on record, which the build predates; it is called unfixed only where
    no fix is on record at all, and untracked only where nothing is. *)
Theorem rulings_rest_on_the_feed `{Bincode, Sha256} d feed a p cve :
  Forall entry_bytes feed -> builder_finish (feed_all d feed) = Some a -> pl_advisories p = a ->
  (forall i, pl_installed p = Some i -> is_bytes i) ->
  ruling_rests_on (recorded (pl_release p) (pl_package p) cve feed) (pl_installed p) (placement_rule p cve).
Proof.
  intros Hb Ha Hp Hi. unfold placement_rule. rewrite Hp, (finish_statuses _ _ _ _ _ _ Ha).
  pose proof (recorded_bytes feed (pl_release p) (pl_package p) cve Hb) as Hr.
  apply rule_rests; [done|by apply hold_all_strongest|done].
Qed.

Lemma rulings_rest_on_the_feed_witness :
  exists a, builder_finish (feed_all FeedDebian sample_feed) = Some a /\
  let p := mkPlacement a (lit "12") FromBanner (lit "a") (Some (lit "1-1")) in
  placement_rule p (lit "C1") = RuledVulnerable (FixAvailable (mkFix (lit "1-2") (Some (lit "D1")))) /\
  ruling_rests_on (recorded (lit "12") (lit "a") (lit "C1") sample_feed) (Some (lit "1-1")) (placement_rule p (lit "C1")).
Proof.
  destruct (builder_finish (feed_all FeedDebian sample_feed)) as [a|] eqn:E; [|by vm_compute in E].
  exists a. split; [done|]. split.
  - unfold placement_rule. cbn [pl_advisories pl_release pl_package pl_installed]. rewrite (finish_statuses _ _ _ _ _ _ E). reflexivity.
  - apply (rulings_rest_on_the_feed FeedDebian sample_feed a (mkPlacement a (lit "12") FromBanner (lit "a") (Some (lit "1-1")))); [|done|done|].
    + unfold sample_feed, entry_bytes, status_bytes, is_bytes. cbn. repeat constructor; lia.
    + intros i [= <-]. unfold is_bytes. repeat constructor; cbn; lia.
Defined.

(** *** Upgrades *)

Lemma judge_fix_newer i i' f esm r : is_bytes i -> is_bytes i' -> is_bytes (fix_version f) -> dpkg_cmp i i' <> Gt ->
  (judge_fix (Some i) f esm = RuledWithdrawn r -> judge_fix (Some i') f esm = RuledWithdrawn r).
Proof.
  intros Hi Hi' Hf Hle. unfold judge_fix. destruct (dpkg_cmp i (fix_version f)) eqn:E; [|by destruct esm|]; intros [= <-].
  all: assert (dpkg_cmp i' (fix_version f) <> Lt) as Hge by (
    rewrite !dpkg_cmp_key in * by done; rewrite cmp_opp; intros Hlt;
    apply (cmp_le_trans dpkg_key_cmp (dpkg_version_key (fix_version f)) (dpkg_version_key i) (dpkg_version_key i'));
    [by rewrite cmp_opp, E|done|by destruct (dpkg_key_cmp (dpkg_version_key (fix_version f)) (dpkg_version_key i'))]).
  all: by destruct (dpkg_cmp i' (fix_version f)).
Qed.

Lemma fixed_in_bytes l c f : Forall status_bytes l -> fixed_in l c = Some f -> is_bytes (fix_version f).
Proof. intros Hl Hf%fixed_in_some. rewrite Forall_forall in Hl. by apply Hl in Hf. Qed.

(** A later build of the same package is never read as more vulnerable: what was withdrawn
    for a build is withdrawn for one that dpkg orders after it, for the same reason. *)
Theorem upgrade_keeps_withdrawals p cve i i' w :
  Forall status_bytes (statuses (pl_advisories p) (pl_release p) (pl_package p) cve) -> is_bytes i -> is_bytes i' ->
  dpkg_cmp i i' <> Gt -> pl_installed p = Some i ->
  placement_rule p cve = RuledWithdrawn w ->
  placement_rule (mkPlacement (pl_advisories p) (pl_release p) (pl_release_from p) (pl_package p) (Some i')) cve = RuledWithdrawn w.
Proof.
  intros Hb Hi Hi' Hle Hp. unfold placement_rule. rewrite Hp. cbn. unfold rule_statuses.
  destruct (statuses _ _ _ _) as [|s l] eqn:El; [done|]. rewrite <- El in *. clear El s l.
  destruct (head _) as [reason|]; [done|].
  destruct (fixed_in _ Archive) as [f|] eqn:Ea; [apply judge_fix_newer; eauto using fixed_in_bytes|].
  destruct (fixed_in _ Esm) as [f|] eqn:Ee; [apply judge_fix_newer; eauto using fixed_in_bytes|].
  by destruct (min_by_channel _) as [[? [[] ?]]|].
Qed.

(** ** Placement rests on the build *)

Lemma releases_carrying_in package_in a revision r :
  r ∈ releases_carrying package_in a revision <->
  r ∈ adv_release_names a /\ exists package v, package_in r = Some package /\ (r, v) ∈ builds_with_revision a package revision.
Proof.
  unfold releases_carrying.
  assert (forall r0 l found, r ∈ foldl (fun found hv =>
    if bool_decide (fst hv = r0) && negb (bool_decide (fst hv ∈ found)) then found ++ [fst hv] else found) found (l : list (text * text)) <->
    r ∈ found \/ r = r0 /\ exists v, (r, v) ∈ l) as Hin.
  { intros r0 l. induction l as [|[h v] l IH]; intros found; cbn; [set_solver|]. rewrite IH.
    destruct (decide (h = r0)) as [->|Hne]; [rewrite bool_decide_true by done|rewrite bool_decide_false by done; cbn; set_solver].
    case_bool_decide; cbn; set_solver. }
  assert (forall l found, r ∈ foldl (fun found release =>
    match package_in release with
    | None => found
    | Some package => foldl (fun found hv =>
        if bool_decide (fst hv = release) && negb (bool_decide (fst hv ∈ found)) then found ++ [fst hv] else found)
        found (builds_with_revision a package revision)
    end) found l <-> r ∈ found \/ r ∈ l /\ exists package v, package_in r = Some package /\ (r, v) ∈ builds_with_revision a package revision) as H.
  { induction l as [|r0 l IH]; intros found; cbn; [set_solver|]. rewrite IH. destruct (package_in r0) as [package|] eqn:E.
    - rewrite Hin, elem_of_cons. split; [intros [[?|[-> [v Hv]]]|[? ?]]|intros [?|[[->|?] (p & v & Hp & Hv)]]]; eauto 10; simplify_eq; eauto 10.
    - rewrite elem_of_cons. split; [naive_solver|]. intros [?|[[->|?] (p & v & Hp & Hv)]]; simplify_eq; eauto 10. }
  rewrite H. set_solver.
Qed.

Lemma builds_with_revision_in a package revision r v : keys_ascend (adv_releases a) ->
  (r, v) ∈ builds_with_revision a package revision <-> exists l, lineage a r package = Some l /\ v ∈ l /\ dpkg_revision v = revision.
Proof.
  intros Ha. unfold builds_with_revision. rewrite elem_of_concat. split.
  - intros (l & ([r' packages] & Hr & Hl)%list_elem_of_omap & Hv). apply fmap_Some in Hl as (pk & Hpk & ->).
    apply list_elem_of_fmap in Hv as (v' & [= -> ->] & [Hv Hin]%list_elem_of_filter). exists (pkg_lineage pk). split; [|done].
    unfold lineage, adv_package. apply bt_get_in in Hr as ->; [|done]. cbn. by rewrite Hpk.
  - intros (l & Hl & Hin & Hv). unfold lineage, adv_package in Hl. apply fmap_Some in Hl as (pk & (packages & Hr & Hpk)%bind_Some & ->).
    eexists. split; [apply list_elem_of_omap; exists (r, packages); split; [by apply bt_get_in|by rewrite Hpk]|].
    apply list_elem_of_fmap. exists v. split; [done|]. by apply list_elem_of_filter.
Qed.

Lemma installed_listed versions revision v : v ∈ versions -> dpkg_revision v = revision ->
  exists i, installed_version versions revision = Some i /\ i ∈ versions /\ dpkg_revision i = revision.
Proof.
  intros Hv Hr. unfold installed_version. destruct (head (filter _ versions)) as [i|] eqn:E.
  - apply head_in, list_elem_of_filter in E as [? ?]. eauto.
  - apply head_none in E. assert (v ∈ filter (fun version => dpkg_revision version = revision) versions) as Hin by by apply list_elem_of_filter.
    rewrite E in Hin. by apply elem_of_nil in Hin.
Qed.

(** A build is placed among its own distributor's data, in the release its banner names; else
    in the only release whose package ever carried its revision; else, where the banner says
    neither, in the one its host's other services name.  The package is the release's own
    name for the software, and a revision the release's lineage lists is taken to be that
    build. *)
Theorem placement_rests_on_the_build document build vendor_product upstream set host_release p :
  Forall (fun a => keys_ascend (adv_releases a)) set ->
  placement_of document build vendor_product upstream set host_release = Ok p ->
  let a := pl_advisories p in
  let package_in r := source_package document vendor_product (distributor_as_str (adv_distributor a)) r upstream in
  a ∈ set /\ feed_of (bd_distributor build) = Some (distributor_as_str (adv_distributor a)) /\
  package_in (pl_release p) = Some (pl_package p) /\
  match pl_release_from p with
  | FromBanner => rel_name <$> bd_release build = Some (pl_release p)
  | FromHost => bd_release build = None /\ bd_revision build = None /\ host_release = Some (pl_release p)
  | FromRevision => bd_release build = None /\ exists revision, bd_revision build = Some revision /\
      forall r, r = pl_release p <-> exists package l v, package_in r = Some package /\ lineage a r package = Some l /\ v ∈ l /\ dpkg_revision v = revision
  end /\
  exists l, lineage a (pl_release p) (pl_package p) = Some l /\
  (bd_revision build = None -> pl_installed p = None) /\
  forall revision v, bd_revision build = Some revision -> v ∈ l -> dpkg_revision v = revision ->
    exists i, pl_installed p = Some i /\ i ∈ l /\ dpkg_revision i = revision.
Proof.
  intros Ha. unfold placement_of. destruct (feed_of _) as [distributor|] eqn:Ef; [|done].
  destruct (head (filter _ set)) as [a|] eqn:Es; [|done]. apply head_in, list_elem_of_filter in Es as [Ed Hin].
  rewrite Forall_forall in Ha. specialize (Ha a Hin). intros ([r from] & Hr & Hp)%try_ok.
  destruct (source_package _ _ _ r _) as [package|] eqn:Ep; [|done]. destruct (lineage a r package) as [l|] eqn:El; [|done].
  injection Hp as <-. cbn. rewrite Ed. split_and!; [done..| |].
  - destruct (bd_release build) as [rel|]; [by injection Hr as <- <-|]. destruct (bd_revision build) as [revision|].
    + destruct (releases_carrying _ _ _) as [|only [|? ?]] eqn:Ec; [done| |done]. injection Hr as <- <-. split; [done|]. exists revision.
      split; [done|]. intros r. rewrite <- list_elem_of_singleton, <- Ec, releases_carrying_in. setoid_rewrite builds_with_revision_in; [|done]. split.
      * intros (_ & pk & v & Hpk & l' & Hl' & Hv). eauto 10.
      * intros (pk & l' & v & Hpk & Hl' & Hv). split; [|eauto 10]. unfold lineage, adv_package in Hl'.
        apply fmap_Some in Hl' as (pk' & (packages & Hg & _)%bind_Some & _). apply bt_get_in in Hg; [|done].
        unfold adv_release_names. apply list_elem_of_fmap. by exists (r, packages).
    + destruct host_release; [|done]. by injection Hr as <- <-.
  - exists l. split_and!; [done|by intros ->|]. intros revision v -> Hv Hrev. cbn. by apply (installed_listed l revision v).
Qed.

(** *** Builds the lineage does not list *)

Lemma split_first_app c q x : split_first c (q ++ x) =
  match split_first c q with
  | Some (a, b) => Some (a, b ++ x)
  | None => (fun '(a, b) => (q ++ a, b)) <$> split_first c x
  end.
Proof.
  induction q as [|y q IH]; cbn; [by destruct (split_first c x) as [[]|]|]. destruct (y =? c); [done|]. rewrite IH.
  destruct (split_first c q) as [[]|]; [done|]. by destruct (split_first c x) as [[]|].
Qed.

Lemma split_last_app c q x : c ∉ x -> split_last c (q ++ c :: x) = Some (q, x).
Proof.
  intros Hx. assert (split_last c x = None) as Hn.
  { induction x as [|y x IH]; cbn; [done|]. rewrite IH by set_solver. destruct (Z.eqb_spec y c) as [->|]; [set_solver|done]. }
  induction q as [|y q IH]; cbn; [by rewrite Hn, Z.eqb_refl|]. by rewrite IH.
Qed.

(** The epoch and the upstream version of what comes before the last hyphen. *)
Definition stem_parts (q : text) : text * text :=
  match split_first 58 q with
  | Some (epoch, rest) => if negb (bool_decide (epoch = [])) && forallb is_ascii_digit epoch then (epoch, rest) else (lit "0", q)
  | None => (lit "0", q)
  end.

Lemma dpkg_parts_stem q x : 45 ∉ x -> dpkg_parts (q ++ 45 :: x) = (stem_parts q, x).
Proof.
  intros Hx. unfold dpkg_parts, stem_parts. rewrite split_first_app. destruct (split_first 58 q) as [[e u]|].
  - destruct (negb _ && _); by rewrite split_last_app.
  - cbn. destruct (split_first 58 x) as [[e u]|]; cbn; [|by rewrite split_last_app].
    replace (forallb is_ascii_digit (q ++ 45 :: e)) with false; [rewrite andb_false_r; by rewrite split_last_app|].
    rewrite forallb_app. cbn. by rewrite andb_false_r.
Qed.

Lemma strip_suffix_app q x : strip_text_suffix x (q ++ x) = Some q.
Proof. unfold strip_text_suffix. rewrite rev_app_distr, strip_prefix_app. cbn. by rewrite rev_involutive. Qed.

(** Of a revision the lineage does not list, the build is taken to be the release's latest
    version, its epoch and upstream version, with that revision: where the latest has a
    revision of its own. *)
Theorem unlisted_build_keeps_upstream (versions : list text) (q r revision : text) :
  last versions = Some (q ++ 45 :: r : text) -> 45 ∉ r -> 45 ∉ revision -> (forall v, v ∈ versions -> dpkg_revision v <> revision) ->
  exists i, installed_version versions revision = Some i /\
  dpkg_parts i = (fst (dpkg_parts (q ++ 45 :: r)), revision).
Proof.
  intros Hl Hr Hrev Hno. unfold installed_version.
  replace (head (filter _ versions)) with (@None text).
  - rewrite Hl. cbn - [strip_text_suffix]. unfold dpkg_revision. rewrite dpkg_parts_stem by done. cbn - [strip_text_suffix].
    assert (strip_text_suffix r (q ++ 45 :: r) = Some (q ++ [45])) as -> by (rewrite <- (strip_suffix_app (q ++ [45]) r), <- app_assoc; done). cbn.
    eexists. split; [done|]. rewrite <- app_assoc. by apply dpkg_parts_stem.
  - symmetry. apply head_none. destruct (filter _ versions) as [|v l] eqn:E; [done|].
    assert (v ∈ filter (fun version => dpkg_revision version = revision) versions) as [? ?]%list_elem_of_filter by (rewrite E; left). by destruct (Hno v).
Qed.

(** Where the latest has none, a version ending in 0 loses that digit: the build of revision
    [3] of a package at [1.0] is read as version [1.3], and as having every fix up to it. *)
Theorem native_version_misread :
  installed_version [lit "1.0"] (lit "3") = Some (lit "1.3") /\
  rule_statuses [mkAdvisoryStatus Archive (FixedIn (lit "1.2")) None] (installed_version [lit "1.0"] (lit "3")) =
    RuledWithdrawn (WithdrawnFixed (lit "1.2")) /\
  installed_version [lit "1.1"] (lit "3") = None.
Proof. repeat split; reflexivity. Qed.

(** A release a disagreement cleared is taken again from the next account of it, so a build
    can hold a release its own revision contradicts. *)
Theorem cleared_release_readmitted :
  let revised := with_revision (lit "2+deb12u3") (build_new Debian) in
  let account := mkBuild Debian None (Some (mkBuildRelease (lit "11") ByBanner)) in
  release_in_revision Debian (lit "2+deb12u3") = Some (lit "12") /\
  bd_release (build_merge revised account) = None /\
  build_merge (build_merge revised account) account = mkBuild Debian (Some (lit "2+deb12u3")) (Some (mkBuildRelease (lit "11") ByBanner)).
Proof. repeat split; reflexivity. Qed.

Definition sample_document : BTreeMap text ProductPackages := [(lit "v:p", mkProductPackages None (Some (Always (lit "a"))))].

Lemma placement_rests_on_the_build_witness :
  exists a p, builder_finish (feed_all FeedDebian sample_feed) = Some a /\
  placement_of sample_document (mkBuild Debian (Some (lit "1")) None) (lit "v:p") (lit "1") [a] None = Ok p /\
  pl_release p = lit "12" /\ pl_release_from p = FromRevision /\ pl_installed p = Some (lit "1-1") /\
  source_package sample_document (lit "v:p") (lit "debian") (pl_release p) (lit "1") = Some (pl_package p).
Proof.
  destruct (builder_finish (feed_all FeedDebian sample_feed)) as [a|] eqn:E; [|by vm_compute in E].
  destruct (placement_of sample_document (mkBuild Debian (Some (lit "1")) None) (lit "v:p") (lit "1") [a] None) as [p|u] eqn:Ep;
    [|exfalso; vm_compute in E; injection E as <-; by vm_compute in Ep].
  exists a, p. assert (Forall (fun a => keys_ascend (adv_releases a)) [a]) as Ha.
  { constructor; [|constructor]. exact (proj1 (finish_ok _ _ (feed_all_ok FeedDebian sample_feed) E)). }
  destruct (placement_rests_on_the_build _ _ _ _ _ _ _ Ha Ep) as (Hin & _ & Hpk & _). apply list_elem_of_singleton in Hin.
  split_and!; [done|done| | | |].
  4: rewrite Hin in Hpk; vm_compute in E; injection E as <-; exact Hpk.
  all: vm_compute in E; injection E as <-; vm_compute in Ep; injection Ep as <-; reflexivity.
Defined.
