(* ===== verification/Catalogue.v ===== *)
(** * The catalogue of vulnerabilities

    Of [cve.rs]: the entries of a catalogue and the pool they are interned in, the platform
    names (CPEs) they are matched with, and the version predicates they constrain those with.
    [cve/applicability.rs]: the overlay that says where a vulnerability lives, from its
    rows; [cve/exploited.rs]: the list of exploited ones.  TOML is read by a library, so the
    documents start here as what it gives. *)

From Stdlib Require Import ZArith Lia String.
From stdpp Require Import base numbers option list gmap.
From S2P Require Import Prelude Std Text Ordering Version Finding BTree Advisories.

Local Open Scope Z_scope.

(** ** Platform names *)

Record Cpe := mkCpe {
  cpe_vendor : text;
  cpe_product : text;
  cpe_version : text;
}.

Definition lower (s : text) : text := to_ascii_lowercase <$> s.

(** [formatted_fields]: the fields of the 2.3 form, unescaped; [field] is the one being
    read. *)
Fixpoint fields_from (body field : text) : list text :=
  match body with
  | [] => [field]
  | 92 :: c :: body => fields_from body (field ++ [c])
  | 92 :: [] => [field]
  | 58 :: body => field :: fields_from body []
  | c :: body => fields_from body (field ++ [c])
  end.

Definition formatted_fields (body : text) : list text := fields_from body [].

Definition cpe_of_fields (fields : list text) : option Cpe :=
  match fields with
  | _part :: vendor :: product :: rest =>
    let version := default [] (head rest) in
    let update := match rest with _ :: u :: _ => if bool_decide (u = []) || bool_decide (u = lit "*") || bool_decide (u = lit "-") then None else Some u | _ => None end in
    Some (mkCpe (lower vendor) (lower product) (match update with Some update => version ++ update | None => version end))
  | _ => None
  end.

(** [Cpe::parse]. *)
Definition cpe_parse (cpe : text) : option Cpe :=
  match strip_prefix (lit "cpe:2.3:") cpe with
  | Some body => cpe_of_fields (formatted_fields body)
  | None => body ← strip_prefix (lit "cpe:/") cpe; cpe_of_fields (split_by (Z.eqb 58) body)
  end.

(** ** Version predicates *)

Inductive VersionOp := OpLe | OpGe | OpEqEq | OpLt | OpGt | OpEq.

Definition op_text (op : VersionOp) : text :=
  match op with OpLe => lit "<=" | OpGe => lit ">=" | OpEqEq => lit "==" | OpLt => lit "<" | OpGt => lit ">" | OpEq => lit "=" end.

Definition op_holds (op : VersionOp) (ordering : comparison) : bool :=
  match op, ordering with
  | OpLt, Lt | OpGt, Gt | OpEqEq, Eq | OpEq, Eq => true
  | OpLe, Gt | OpGe, Lt => false
  | OpLe, _ | OpGe, _ => true
  | _, _ => false
  end.

(** The operators in the order they are tried. *)
Definition clause_parts (clause : text) : VersionOp * text :=
  default (OpEqEq, clause)
    (head (omap (fun op => (fun rest => (op, trim rest)) <$> strip_prefix (op_text op) clause) [OpLe; OpGe; OpEqEq; OpLt; OpGt; OpEq])).

Definition clause_holds (version clause : text) : bool :=
  let '(op, bound) := clause_parts clause in op_holds op (version_cmp version bound).

Definition version_matches (version predicate : text) : bool :=
  let predicate := trim predicate in
  if bool_decide (predicate = lit "*") then true
  else if bool_decide (version = []) || bool_decide (version = lit "-") || bool_decide (version = lit "*") then false
  else forallb (fun clause => clause_holds version (trim clause)) (split_by (Z.eqb 44) predicate).

(** ** Entries *)

(** An entry as a document states it. *)
Record DocumentEntry := mkDocumentEntry {
  de_cve : text;
  de_title : text;
  de_severity : text;
  de_vendor : text;
  de_product : text;
  de_affected : text;
  de_cwe : option Z;
  de_remediation : option text;
}.

(** An entry of the pool's indices. *)
Record CatalogueEntry := mkCatalogueEntry {
  ce_cve : Z;
  ce_title : Z;
  ce_severity : Z;
  ce_vendor : Z;
  ce_product : Z;
  ce_affected : Z;
  ce_cwe : option Z;
  ce_remediation : option Z;
}.

(** [Vulnerability], an entry's strings looked up: the shape of a document's. *)
Notation Vulnerability := DocumentEntry.

Record Catalogue := mkCatalogue {
  cat_id : text;
  cat_version : DetectionVersion;
  cat_content_hash : text;
  cat_pool : list text;
  cat_vulnerability : list CatalogueEntry;
}.

Definition intern_entry (e : DocumentEntry) (st : Interner) : CatalogueEntry * Interner :=
  let '(cve, st) := intern (de_cve e) st in
  let '(title, st) := intern (de_title e) st in
  let '(severity, st) := intern (de_severity e) st in
  let '(vendor, st) := intern (de_vendor e) st in
  let '(product, st) := intern (de_product e) st in
  let '(affected, st) := intern (de_affected e) st in
  let '(remediation, st) := maybe (de_remediation e) st in
  (mkCatalogueEntry cve title severity vendor product affected (de_cwe e) remediation, st).

Definition intern_all (entries : list DocumentEntry) : list text * list CatalogueEntry :=
  let '(interned, st) := map_interning intern_entry entries interner_new in (pool st, interned).

(** [Catalogue::view].  An index past the pool panics, here [None]. *)
Definition view (p : list text) (e : CatalogueEntry) : option Vulnerability :=
  let at_ (i : Z) : option text := p !! Z.to_nat i in
  cve ← at_ (ce_cve e);
  title ← at_ (ce_title e);
  severity ← at_ (ce_severity e);
  vendor ← at_ (ce_vendor e);
  product ← at_ (ce_product e);
  affected ← at_ (ce_affected e);
  remediation ← match ce_remediation e with None => Some None | Some i => Some <$> at_ i end;
  Some (mkDocumentEntry cve title severity vendor product affected (ce_cwe e) remediation).

(** *** Reading a document *)

Definition RESERVED_PREFIX : text := lit "zond:".

Inductive CatalogueError :=
  | CatalogueMalformed (error : text)
  | ReservedId (id : text)
  | CatalogueTooLarge (limit : Z)
  | UnreadableVersion (version : text).

(** What TOML gives of a catalogue. *)
Record CatalogueDocument := mkCatalogueDocument {
  cd_id : option text;
  cd_version : option text;
  cd_vulnerability : list DocumentEntry;
}.

Definition MAX_DOCUMENT_BYTES : Z := 16 * 1024 * 1024.

Section Reading.
Context `{Sha256}.
(** The library that reads TOML, and the document's bytes decoded, which a source that is
    not UTF-8 has none of. *)
Context (toml : list Z -> Result CatalogueDocument text).

(** [Catalogue::read], of a source of that many bytes. *)
Definition catalogue_read (source : list Z) : Result Catalogue CatalogueError :=
  if MAX_DOCUMENT_BYTES <? Z.of_nat (length source) then Err (CatalogueTooLarge MAX_DOCUMENT_BYTES)
  else
    let? document := map_err CatalogueMalformed (toml source) in
    match cd_id document with
    | None => Err (CatalogueMalformed (lit "the document names no 'id'"))
    | Some id =>
      if is_some (strip_prefix RESERVED_PREFIX id) then Err (ReservedId id)
      else
        match cd_version document with
        | None => Err (CatalogueMalformed (lit "the document names no 'version'"))
        | Some version =>
          let? parsed := map_err (fun _ => UnreadableVersion version) (version_from_str version) in
          let '(p, entries) := intern_all (cd_vulnerability document) in
          Ok (mkCatalogue id parsed (adv_content_hash_of source) p entries)
        end
    end.
End Reading.

(** ** Where a vulnerability lives *)

Inductive Applies := AppliesService | AppliesClient | AppliesLocal | AppliesConfiguration (requires : text).

#[export] Instance Applies_eq_dec : EqDecision Applies.
Proof. solve_decision. Defined.

Record Stated := mkStated {
  st_product : text;
  st_applies : Applies;
  st_reason : text;
}.

(** A row of the overlay as TOML gives it. *)
Record OverlayRow := mkOverlayRow {
  row_id : text;
  row_product : text;
  row_applies : text;
  row_requires : option text;
  row_reason : text;
}.

(** [is_cve_id]. *)
Definition is_cve_id (id : text) : bool :=
  match strip_prefix (lit "CVE-") id ≫= split_once (Z.eqb 45) with
  | None => false
  | Some (year, seq) =>
    (byte_len year =? 4)%nat && (4 <=? byte_len seq)%nat && forallb is_ascii_digit year && forallb is_ascii_digit seq
  end.

(** The [match] of [parse] on a row's class. *)
Definition row_class (at_ : text) (r : OverlayRow) : Result Applies text :=
  let requires := row_requires r ≫= fun v => if is_empty_text (trim v) then None else Some v in
  let says s := bool_decide (row_applies r = lit s) in
  match requires with
  | None =>
    if says "service"%string then Ok AppliesService
    else if says "client"%string then Ok AppliesClient
    else if says "local"%string then Ok AppliesLocal
    else if says "configuration"%string then Err (at_ ++ lit ": configuration needs requires")
    else Err (at_ ++ lit ": unknown applies value '" ++ row_applies r ++ lit "'")
  | Some requires =>
    if says "configuration"%string then Ok (AppliesConfiguration requires)
    else if says "service"%string || says "client"%string || says "local"%string then Err (at_ ++ lit ": requires is only for configuration")
    else Err (at_ ++ lit ": unknown applies value '" ++ row_applies r ++ lit "'")
  end.

(** One turn of the loop of [parse]. *)
Definition take_row (overlay : gmap text (list Stated)) (r : OverlayRow) : Result (gmap text (list Stated)) text :=
  let at_ := row_id r ++ lit " for " ++ row_product r in
  if negb (is_cve_id (row_id r)) then Err (at_ ++ lit ": not a CVE id")
  else if match split_once (Z.eqb 58) (row_product r) with None => true | Some (v, p) => is_empty_text v || is_empty_text p end
  then Err (at_ ++ lit ": the product is not vendor:product")
  else if is_empty_text (trim (row_reason r)) then Err (at_ ++ lit ": no reason given")
  else
    let? applies := row_class at_ r in
    let products := default [] (overlay !! row_id r : option (list Stated)) in
    if existsb (fun s => bool_decide (st_product s = row_product r)) products then Err (at_ ++ lit ": stated twice")
    else Ok (<[row_id r := products ++ [mkStated (row_product r) applies (row_reason r)]]> overlay).

Definition overlay_parse (rows : list OverlayRow) : Result (gmap text (list Stated)) text := fold_results take_row ∅ rows.

Definition applicability (overlay : gmap text (list Stated)) (cve vendor_product : text) : option Stated :=
  l ← (overlay !! cve : option (list Stated));
  head (filter (fun s => st_product s = vendor_product) l).

(** ** Exploited vulnerabilities *)

(** [cves] is a [BTreeSet]; nothing here depends on its order. *)
Record KnownExploited := mkKnownExploited {
  ke_id : text;
  ke_version : DetectionVersion;
  ke_content_hash : text;
  ke_cves : gset text;
}.

Definition checked_id (id : option text) : Result text CatalogueError :=
  match id ≫= fun id => if is_empty_text (trim id) then None else Some id with
  | None => Err (CatalogueMalformed (lit "the document names no 'id'"))
  | Some id => if is_some (strip_prefix RESERVED_PREFIX id) then Err (ReservedId id) else Ok id
  end.

Definition keep_cves (cves : list text) : gset text := list_to_set (filter (fun cve => is_some (reference_cve cve) = true) cves).

Definition ke_contains (k : KnownExploited) (cve : text) : bool := bool_decide (cve ∈ ke_cves k).

(** [KnownExploited::mark]. *)
Definition mark_exploited (k : KnownExploited) (cves : list text) : option Exploitation :=
  by_ ← ok (detection_id_new (ke_id k) (ke_version k) (ke_content_hash k));
  ok (exploitation_new by_ (filter (fun cve => ke_contains k cve = true) cves)).

(** What TOML gives of a list, and [KnownExploited::read] after it. *)
Section Lists.
Context `{Sha256} (toml : list Z -> Result (option text * option text * list text) text).

Definition exploited_read (source : list Z) : Result KnownExploited CatalogueError :=
  if MAX_DOCUMENT_BYTES <? Z.of_nat (length source) then Err (CatalogueTooLarge MAX_DOCUMENT_BYTES)
  else
    let? (id, version, cves) := map_err CatalogueMalformed (toml source) in
    let? id := checked_id id in
    match version with
    | None => Err (CatalogueMalformed (lit "the document names no 'version'"))
    | Some version =>
      let? parsed := map_err (fun _ => UnreadableVersion version) (version_from_str version) in
      Ok (mkKnownExploited id parsed (adv_content_hash_of source) (keep_cves cves))
    end.
End Lists.

(** ** What an entry says *)

Section Entries.
Context (overlay : gmap text (list Stated)).

Definition entry_matches (v : Vulnerability) (cpe : Cpe) : bool :=
  eq_ignore_ascii_case (de_vendor v) (cpe_vendor cpe) && eq_ignore_ascii_case (de_product v) (cpe_product cpe) &&
  version_matches (cpe_version cpe) (de_affected v).

Definition constrains_the_version (v : Vulnerability) : bool := negb (bool_decide (trim (de_affected v) = lit "*")).

Definition entry_applies (v : Vulnerability) : option Applies :=
  st_applies <$> applicability overlay (de_cve v) (de_vendor v ++ lit ":" ++ de_product v).

Definition entry_requires (v : Vulnerability) : option text :=
  match entry_applies v with Some (AppliesConfiguration requires) => Some requires | _ => None end.
End Entries.

(** ** A catalogue holds what its document stated *)

Definition read_entry (p : list text) (e : CatalogueEntry) : Result Vulnerability AdvisoriesError :=
  let? cve := pool_at p (ce_cve e) in
  let? title := pool_at p (ce_title e) in
  let? severity := pool_at p (ce_severity e) in
  let? vendor := pool_at p (ce_vendor e) in
  let? product := pool_at p (ce_product e) in
  let? affected := pool_at p (ce_affected e) in
  let? remediation := pool_maybe p (ce_remediation e) in
  Ok (mkDocumentEntry cve title severity vendor product affected (ce_cwe e) remediation).

Lemma pool_at_some p i (s : text) : pool_at p i = Ok s -> p !! Z.to_nat i = Some s.
Proof. apply pool_at_ok. Qed.

Lemma pool_maybe_some p i s : pool_maybe p i = Ok s ->
  match i with None => Some None | Some i => Some <$> (p !! Z.to_nat i : option text) end = Some s.
Proof. destruct i as [i|]; cbn; [|by intros [= <-]]. by intros (x & ->%pool_at_some & [= <-])%try_ok. Qed.

Lemma read_entry_view p e v : read_entry p e = Ok v -> view p e = Some v.
Proof.
  unfold read_entry, view. intros (a & ->%pool_at_some & (b & ->%pool_at_some & (c & ->%pool_at_some & (d & ->%pool_at_some &
    (f & ->%pool_at_some & (g & ->%pool_at_some & (h & Hh & [= <-])%try_ok)%try_ok)%try_ok)%try_ok)%try_ok)%try_ok)%try_ok.
  apply pool_maybe_some in Hh. cbn. by rewrite Hh.
Qed.

Lemma entry_interns : Interns intern_entry read_entry.
Proof.
  eapply (interns_iso _ _
    (fun e => (de_cve e, (de_title e, (de_severity e, (de_vendor e, (de_product e, (de_affected e, (de_cwe e, de_remediation e))))))))
    (fun '(a, (b, (c, (d, (f, (g, (w, r))))))) => mkDocumentEntry a b c d f g w r)
    (fun '(a, (b, (c, (d, (f, (g, (w, r))))))) => mkCatalogueEntry a b c d f g w r)
    (fun e => (ce_cve e, (ce_title e, (ce_severity e, (ce_vendor e, (ce_product e, (ce_affected e, (ce_cwe e, ce_remediation e))))))))).
  - do 6 (apply interns_pair; [apply intern_interns|]). apply interns_pair; [apply interns_ret|apply maybe_interns].
  - by intros [].
  - by intros (? & ? & ? & ? & ? & ? & ? & ?).
  - intros e st. unfold intern_entry. destruct (intern (de_cve e) st) as [a s1]. destruct (intern (de_title e) s1) as [b s2].
    destruct (intern (de_severity e) s2) as [c s3]. destruct (intern (de_vendor e) s3) as [d s4]. destruct (intern (de_product e) s4) as [f s5].
    destruct (intern (de_affected e) s5) as [g s6]. by destruct (maybe (de_remediation e) s6).
  - intros p e v. unfold read_entry. repeat setoid_rewrite try_ok. split.
    + intros (a & Ha & b & Hb & c & Hc & d & Hd & f & Hf & g & Hg & r & Hr & [= <-]).
      exists (a, (b, (c, (d, (f, (g, (ce_cwe e, r))))))). split; [|done]. found a Ha. eexists; split; [|done]. found b Hb. eexists; split; [|done].
      found c Hc. eexists; split; [|done]. found d Hd. eexists; split; [|done]. found f Hf. eexists; split; [|done]. found g Hg.
      eexists; split; [|done]. exists (ce_cwe e). split; [done|]. by found r Hr.
    + intros (x & (a & Ha & x1 & (b & Hb & x2 & (c & Hc & x3 & (d & Hd & x4 & (f & Hf & x5 & (g & Hg & x6 & (w & [= <-] & r & Hr & [= <-]) & [= <-]) & [= <-])
        & [= <-]) & [= <-]) & [= <-]) & [= <-]) & <-).
      found a Ha. found b Hb. found c Hc. found d Hd. found f Hf. found g Hg. by found r Hr.
Qed.

Lemma collect_views p es vs : collect_results (read_entry p) es = Ok vs -> mapM (view p) es = Some vs.
Proof.
  rewrite mapM_Some. revert vs. induction es as [|e es IH]; intros vs; [intros [= <-]; constructor|].
  intros (v & Hv & (l & Hl & [= <-])%try_ok)%try_ok. constructor; [by apply read_entry_view|by apply IH].
Qed.

(** Every entry of a document is looked up out of the catalogue's pool as it was stated. *)
Lemma views_of_document entries : let '(p, es) := intern_all entries in pool_fits p -> mapM (view p) es = Some entries.
Proof.
  unfold intern_all. destruct (map_interning_interns _ _ entry_interns) as [_ _ Hr]. specialize (Hr entries interner_new).
  destruct (map_interning intern_entry entries interner_new) as [es st]. cbn in *. intros Hf.
  apply collect_views. by apply Hr.
Qed.

(** ** Spellings of a platform name *)

(** A field quoted: at least the characters the form gives a meaning to. *)
Definition quote (q : Z -> bool) (s : text) : text := s ≫= fun c => if q c || (c =? 58) || (c =? 92) then [92; c] else [c].

Lemma fields_from_plain c body field : c <> 58 -> c <> 92 -> fields_from (c :: body) field = fields_from body (field ++ [c]).
Proof. intros H1 H2. cbn. repeat (case_match; subst; try done). Qed.

Lemma fields_from_quote q s rest field : fields_from (quote q s ++ rest) field = fields_from rest (field ++ s).
Proof.
  revert field. induction s as [|c s IH]; intros field; [cbn; by rewrite app_nil_r|].
  change (quote q (c :: s)) with ((if q c || (c =? 58) || (c =? 92) then [92; c] else [c]) ++ quote q s).
  destruct (q c || (c =? 58) || (c =? 92)) eqn:E.
  - cbn. by rewrite IH, <- app_assoc.
  - rewrite orb_false_iff, orb_false_iff, !Z.eqb_neq in E. destruct E as [[_ H1] H2]. cbn - [fields_from].
    by rewrite fields_from_plain, IH, <- app_assoc.
Qed.

Lemma formatted_fields_join q fields : fields <> [] -> formatted_fields (join [58] (quote q <$> fields)) = fields.
Proof.
  unfold formatted_fields. induction fields as [|f fields IH]; [done|]. intros _. destruct fields as [|g fields].
  - cbn. rewrite <- (app_nil_r (quote q f)), fields_from_quote. done.
  - change (join [58] (quote q <$> f :: g :: fields)) with (quote q f ++ 58 :: join [58] (quote q <$> g :: fields)).
    rewrite fields_from_quote. cbn. f_equal. by apply IH.
Qed.

Lemma strip_prefix_ne p s : strip_prefix (lit "cpe:2.3:") (lit "cpe:/" ++ s) = None /\ strip_prefix p (p ++ s) = Some s.
Proof. split; [done|apply strip_prefix_app]. Qed.

(** A platform in the 2.3 form, its fields quoted however its writer likes and its patch
    level in a field of its own, is the platform the URI form names with the patch level run
    on to the version, whatever else the 2.3 form goes on to say. *)
Theorem cpe_spellings_agree q part vendor product version update rest :
  Forall (Forall (fun c => c <> 58)) [part; vendor; product; version; update] -> update <> [] -> update <> lit "*" -> update <> lit "-" ->
  cpe_parse (lit "cpe:2.3:" ++ join [58] (quote q <$> part :: vendor :: product :: version :: update :: rest)) =
  cpe_parse (lit "cpe:/" ++ join [58] [part; vendor; product; version ++ update]) /\
  cpe_parse (lit "cpe:/" ++ join [58] [part; vendor; product; version ++ update]) = Some (mkCpe (lower vendor) (lower product) (version ++ update)).
Proof.
  intros Hc Hu Hs Hm.
  assert (cpe_parse (lit "cpe:/" ++ join [58] [part; vendor; product; version ++ update]) = Some (mkCpe (lower vendor) (lower product) (version ++ update))) as Huri.
  { unfold cpe_parse. rewrite (proj1 (strip_prefix_ne (lit "cpe:/") _)), strip_prefix_app. cbn - [join lit].
    rewrite split_by_join; [done|done|done|]. repeat setoid_rewrite Forall_cons in Hc. destruct Hc as (H1 & H2 & H3 & H4 & H5 & _).
    assert (forall s, Forall (fun c => c <> 58) s -> Forall (fun c => (58 =? c) = false) s) as Hk.
    { intros s H. eapply Forall_impl; [exact H|]. intros c Hne. apply Z.eqb_neq. congruence. }
    repeat (constructor; [apply Hk; auto|]); [|constructor]. apply Forall_app. auto. }
  split; [|done]. rewrite Huri. unfold cpe_parse. rewrite strip_prefix_app, formatted_fields_join by done. cbn - [lit].
  rewrite !bool_decide_false by done. done.
Qed.

Lemma cpe_spellings_agree_witness :
  cpe_parse (lit "cpe:2.3:a:OpenBSD:openssh:9.6:p1:*:*") = cpe_parse (lit "cpe:/a:OpenBSD:openssh:9.6p1").
Proof.
  apply (cpe_spellings_agree (fun _ => false) (lit "a") (lit "OpenBSD") (lit "openssh") (lit "9.6") (lit "p1") [lit "*"; lit "*"]).
  - repeat constructor; discriminate.
  - discriminate.
  - discriminate.
  - discriminate.
Defined.

(** ** Predicates *)

(** A bound as a predicate can carry one: no comma, no blank at an end, and not beginning as
    an operator goes on. *)
Definition bound_ok (s : text) : Prop :=
  s <> [] /\ Forall (fun c => c <> 44) s /\ starts_with is_whitespace s = false /\ ends_with is_whitespace s = false /\ starts_with (Z.eqb 61) s = false.

(** A clause written out, blanks included, and a predicate of several. *)
Definition clause_text (c : VersionOp * text) : text := 32 :: op_text (fst c) ++ 32 :: snd c.

Definition predicate_text (clauses : list (VersionOp * text)) : text := join [44] (clause_text <$> clauses).

Lemma ends_with_app pred a b : b <> [] -> ends_with pred (a ++ b) = ends_with pred b.
Proof. intros Hb. unfold ends_with. rewrite last_app. destruct (last b) eqn:E; [done|]. by apply last_None in E. Qed.

Lemma trim_space s : trim (32 :: s) = trim s.
Proof. done. Qed.

Lemma clause_trimmed op s : bound_ok s -> trim (op_text op ++ 32 :: s) = op_text op ++ 32 :: s.
Proof.
  intros (Hn & _ & _ & He & _). apply trim_id; [by destruct op|].
  rewrite ends_with_app by done. change (32 :: s) with ([32] ++ s). by rewrite ends_with_app.
Qed.

Lemma clause_parts_text op s : bound_ok s -> clause_parts (op_text op ++ 32 :: s) = (op, s).
Proof.
  intros (_ & _ & Hs & He & _). transitivity (op, trim s); [by destruct op|]. by rewrite trim_id.
Qed.

Lemma clause_text_holds v op s : bound_ok s -> clause_holds v (trim (clause_text (op, s))) = op_holds op (version_cmp v s).
Proof. intros Hb. unfold clause_text. rewrite trim_space. cbn [fst snd]. rewrite clause_trimmed by done. unfold clause_holds. by rewrite clause_parts_text. Qed.

Lemma op_text_no_comma op : Forall (fun c => (44 =? c) = false) (op_text op).
Proof. destruct op; repeat constructor. Qed.

Lemma clause_no_comma c : bound_ok (snd c) -> Forall (fun x => (44 =? x) = false) (clause_text c).
Proof.
  intros (_ & Hc & _). constructor; [done|]. apply Forall_app. split; [apply op_text_no_comma|]. constructor; [done|].
  eapply Forall_impl; [exact Hc|]. intros x Hx. apply Z.eqb_neq. congruence.
Qed.

Lemma predicate_ends clauses : clauses <> [] -> Forall (fun c => bound_ok (snd c)) clauses -> ends_with is_whitespace (predicate_text clauses) = false.
Proof.
  intros Hn Hb. induction Hb as [|c clauses Hc Hb IH]; [done|].
  assert (ends_with is_whitespace (clause_text c) = false) as Hw.
  { destruct Hc as (Hs & _ & _ & He & _). unfold clause_text. change (32 :: op_text (fst c) ++ 32 :: snd c) with ((32 :: op_text (fst c)) ++ [32] ++ snd c).
    by rewrite !ends_with_app. }
  destruct clauses as [|c' clauses]; [done|].
  change (predicate_text (c :: c' :: clauses)) with (clause_text c ++ [44] ++ predicate_text (c' :: clauses)).
  assert (predicate_text (c' :: clauses) <> []) by (destruct clauses; done). rewrite !ends_with_app by done. by apply IH.
Qed.

(** What is trimmed off a predicate is the blank in front of its first clause. *)
Lemma predicate_trimmed op s clauses : Forall (fun c => bound_ok (snd c)) ((op, s) :: clauses) ->
  trim (predicate_text ((op, s) :: clauses)) = join [44] ((op_text op ++ 32 :: s) :: (clause_text <$> clauses)).
Proof.
  intros Hb. assert (predicate_text ((op, s) :: clauses) = 32 :: join [44] ((op_text op ++ 32 :: s) :: (clause_text <$> clauses))) as E.
  { unfold predicate_text. by destruct clauses. }
  pose proof (predicate_ends ((op, s) :: clauses) ltac:(done) Hb) as He. rewrite E in He |- *. rewrite trim_space. apply trim_id.
  - destruct clauses; cbn; by destruct op.
  - change (32 :: ?x) with ([32] ++ x) in He. rewrite ends_with_app in He; [done|]. destruct clauses; by destruct op.
Qed.

(** A predicate of several clauses holds of a version where each clause's comparison does,
    and of no version that was never learned: however the clauses are spaced, and whatever
    their bounds are spelled with. *)
Theorem predicate_is_its_clauses version clauses : clauses <> [] -> Forall (fun c => bound_ok (snd c)) clauses ->
  version_matches version (predicate_text clauses) =
  negb (bool_decide (version ∈ [[]; lit "-"; lit "*"])) && forallb (fun c => op_holds (fst c) (version_cmp version (snd c))) clauses.
Proof.
  intros Hn Hb. destruct clauses as [|[op s] clauses]; [done|]. unfold version_matches. rewrite predicate_trimmed by done.
  rewrite bool_decide_false by (destruct clauses; by destruct op).
  assert (bool_decide (version = []) || bool_decide (version = lit "-") || bool_decide (version = lit "*") = bool_decide (version ∈ [[]; lit "-"; lit "*"])) as ->.
  { repeat case_bool_decide; subst; try done; exfalso; set_solver. }
  destruct (bool_decide (version ∈ _)); [done|]. cbn [negb andb].
  inversion Hb as [|? ? Hs Hrest]; subst. rewrite split_by_join; [|done|done|].
  - cbn. rewrite clause_trimmed by done. unfold clause_holds at 1. rewrite clause_parts_text by done. f_equal. clear - Hrest.
    induction Hrest as [|[op s] clauses Hs Hrest IH]; cbn - [clause_text]; [done|]. by rewrite clause_text_holds, IH.
  - constructor.
    + pose proof (clause_no_comma (op, s) Hs) as Hc. by inversion Hc.
    + apply Forall_fmap. eapply Forall_impl; [exact Hrest|]. intros c Hc. by apply clause_no_comma.
Qed.

Lemma predicate_is_its_clauses_witness :
  version_matches (lit "2.4.49") (predicate_text [(OpGe, lit "2.4.1"); (OpLt, lit "2.4.50")]) = true /\
  version_matches (lit "2.4.50") (lit ">=2.4.1,<2.4.50") = false.
Proof.
  split; [|reflexivity]. rewrite predicate_is_its_clauses; [reflexivity|discriminate|].
  repeat constructor; try discriminate; reflexivity.
Defined.

(** ** The overlay *)

(** What a set of rows states of each vulnerability and product, once. *)
Definition overlay_ok (overlay : gmap text (list Stated)) : Prop :=
  map_Forall (fun cve l => is_cve_id cve = true /\ NoDup (st_product <$> l)) overlay.

Lemma take_row_ok overlay r overlay' : overlay_ok overlay -> take_row overlay r = Ok overlay' -> overlay_ok overlay'.
Proof.
  intros Hok. unfold take_row. destruct (is_cve_id (row_id r)) eqn:Ei; [|done]. cbn [negb]. destruct (split_once _ (row_product r)) as [[v p]|]; [|done].
  destruct (is_empty_text v || is_empty_text p); [done|]. destruct (is_empty_text (trim (row_reason r))); [done|]. intros (applies & _ & E)%try_ok. destruct (existsb _ _) eqn:Ex; [done|]. injection E as <-.
  apply map_Forall_insert_2; [|done]. split; [done|]. rewrite fmap_app. apply NoDup_app. split_and!; [| |apply NoDup_singleton].
  - destruct (overlay !! row_id r : option (list Stated)) as [l|] eqn:El; cbn; [|constructor]. by apply (Hok _ _ El).
  - intros x Hp ->%list_elem_of_singleton. apply not_true_iff_false in Ex. apply Ex. apply list_elem_of_fmap in Hp as (s & Es & Hs).
    apply existsb_elem. exists s. split; [done|]. by apply bool_decide_true.
Qed.

(** An overlay read from rows answers for each vulnerability of a product what its one row
    said. *)
Lemma overlay_parse_ok rows overlay : overlay_parse rows = Ok overlay -> overlay_ok overlay.
Proof.
  unfold overlay_parse. assert (overlay_ok ∅) as Hok by apply map_Forall_empty. revert Hok. generalize (∅ : gmap text (list Stated)).
  induction rows as [|r rows IH]; cbn; intros m Hok; [by intros [= <-]|]. intros (m' & Hm & E)%try_ok. eapply IH; [|exact E]. by apply (take_row_ok m r).
Qed.
