(* ===== verification/Correlate.v ===== *)
(** * From a service to its known vulnerabilities

    Of [cve.rs]: a service's platform names judged against a catalogue, the distributor's
    advisories and the overlay ([judge]), each kind of claim made one finding, and the
    findings kept on the host's ports in place of the correlator's earlier ones. *)

From Stdlib Require Import ZArith Lia String Sorting.Sorted.
From stdpp Require Import base numbers option list gmap.
From S2P Require Import Prelude Std Text Ordering Version PortSet Finding BTree Advisories Backport Catalogue.

Local Open Scope Z_scope.

(** ** Verdicts *)

Inductive Verdict :=
  | VAffected | VFixAvailable | VEsmOnly | VNoFix | VNeedsSetting | VBuildUnchecked | VPatchLevelHidden | VUntriaged | VAnyVersion.

#[export] Instance Verdict_eq_dec : EqDecision Verdict.
Proof. solve_decision. Defined.

Definition verdict_rank (v : Verdict) : Z :=
  match v with
  | VAffected => 0 | VFixAvailable => 1 | VEsmOnly => 2 | VNoFix => 3 | VNeedsSetting => 4
  | VBuildUnchecked => 5 | VPatchLevelHidden => 6 | VUntriaged => 7 | VAnyVersion => 8
  end.

#[export] Instance verdict_key_order : OrderedKey Verdict.
Proof.
  refine {| key_cmp := fun a b => verdict_rank a ?= verdict_rank b; key_cmp_order := ranked_cmp_order verdict_rank |}.
  by intros [] []; intros E%Z.compare_eq.
Defined.

Definition verdict_key (v : Verdict) : text :=
  match v with
  | VAffected => lit "affected"
  | VFixAvailable => lit "fix-available"
  | VEsmOnly => lit "esm-only"
  | VNoFix => lit "no-fix"
  | VNeedsSetting => lit "needs-setting"
  | VBuildUnchecked => lit "build-unchecked"
  | VPatchLevelHidden => lit "patch-level-hidden"
  | VUntriaged => lit "untriaged"
  | VAnyVersion => lit "any-version"
  end.

Definition verdict_confidence (v : Verdict) : Confidence :=
  match v with VAffected | VFixAvailable | VEsmOnly | VNoFix => Probable | _ => Weak end.

(** [wire::severity]. *)
Definition severity_of (name : text) : option Severity :=
  if bool_decide (name = lit "info") then Some Info
  else if bool_decide (name = lit "low") then Some Low
  else if bool_decide (name = lit "medium") then Some Medium
  else if bool_decide (name = lit "high") then Some High
  else if bool_decide (name = lit "critical") then Some Critical
  else None.

Definition severity_rank (s : Severity) : Z := match s with Info => 0 | Low => 1 | Medium => 2 | High => 3 | Critical => 4 end.

Definition severity_cmp (a b : Severity) : comparison := severity_rank a ?= severity_rank b.

(** ** What is judged *)

Record Service := mkService {
  sv_product : option text;
  sv_build : option Build;
  sv_cpes : list text;
}.

Record Judged := mkJudged {
  jd_cpe : text;
  jd_parsed : Cpe;
  jd_product : option text;
  jd_build : option Build;
  jd_host_release : option text;
}.

(** [Judged::of]. *)
Definition judged_of (s : Service) (cpe : text) : option Judged :=
  parsed ← cpe_parse cpe;
  Some (mkJudged cpe parsed (sv_product s) (sv_build s) None).

Definition distributor_rank (d : Distributor) : Z :=
  match d with
  | Debian => 0 | Ubuntu => 1 | Raspbian => 2 | RedHat => 3 | CentOs => 4 | Fedora => 5 | Amazon => 6 | Rocky => 7
  | Alma => 8 | Oracle => 9 | Suse => 10 | Alpine => 11 | FreeBsd => 12
  end.

#[export] Instance distributor_key_order : OrderedKey Distributor.
Proof.
  refine {| key_cmp := fun a b => distributor_rank a ?= distributor_rank b; key_cmp_order := ranked_cmp_order distributor_rank |}.
  by intros [] []; intros E%Z.compare_eq.
Defined.

(** [Judged::on_host]: the release its host names for the distributor, where it names one
    only. *)
Definition on_host (releases : BTreeMap Distributor (BTreeMap text ())) (j : Judged) : Judged :=
  mkJudged (jd_cpe j) (jd_parsed j) (jd_product j) (jd_build j)
    (build ← jd_build j;
     named ← bt_get (bd_distributor build) releases;
     match named with [(only, _)] => Some only | _ => None end).

Definition vendor_product (j : Judged) : text := cpe_vendor (jd_parsed j) ++ lit ":" ++ cpe_product (jd_parsed j).

Inductive Why := WhyFixed | WhyNotAffected | WhyElsewhere.

Inductive Classified := ClassWithdrawn (why : Why) | ClassGrouped (verdict : Verdict) (ruling : option Ruling).

Record Ruled := mkRuled {
  ru_vulnerability : Vulnerability;
  ru_ruling : option Ruling;
}.

(** The verdict a ruling comes to, if it is not a withdrawal. *)
Definition verdict_of_ruling (r : Ruling) : Why + Verdict :=
  match r with
  | RuledWithdrawn (WithdrawnFixed _) => inl WhyFixed
  | RuledWithdrawn (WithdrawnNotAffected _) => inl WhyNotAffected
  | RuledVulnerable (FixAvailable _) => inr VFixAvailable
  | RuledVulnerable (EsmOnly _) => inr VEsmOnly
  | RuledVulnerable (NoFix _ _) => inr VNoFix
  | RuledUnsettled (PatchLevelHidden _) => inr VPatchLevelHidden
  | RuledUnsettled (Untriaged | NotTracked) => inr VUntriaged
  end.

(** [Verdict::of]. *)
Definition classify_entry (overlay : gmap text (list Stated)) (v : Vulnerability) (j : Judged) (placement : option (Result Placement Unplaced)) : Classified :=
  match entry_applies overlay v with
  | Some (AppliesClient | AppliesLocal) => ClassWithdrawn WhyElsewhere
  | applies =>
    let needs_setting := match applies with Some (AppliesConfiguration _) => true | _ => false end in
    let grouped verdict ruling := ClassGrouped (if needs_setting then VNeedsSetting else verdict) ruling in
    match placement with
    | Some (Ok placed) =>
      let ruling := placement_rule placed (de_cve v) in
      match verdict_of_ruling ruling with
      | inl why => ClassWithdrawn why
      | inr verdict => grouped verdict (Some ruling)
      end
    | _ =>
      grouped (match constrains_the_version v, jd_build j with
               | false, _ => VAnyVersion
               | true, None => VAffected
               | true, Some _ => VBuildUnchecked
               end) None
    end
  end.

(** *** Withdrawals *)

Record Withdrawn := mkWithdrawn {
  wd_fixed : Z;
  wd_not_affected : Z;
  wd_elsewhere : Z;
}.

Definition withdrawn_default : Withdrawn := mkWithdrawn 0 0 0.

Definition withdrawn_count (why : Why) (w : Withdrawn) : Withdrawn :=
  match why with
  | WhyFixed => mkWithdrawn (wd_fixed w + 1) (wd_not_affected w) (wd_elsewhere w)
  | WhyNotAffected => mkWithdrawn (wd_fixed w) (wd_not_affected w + 1) (wd_elsewhere w)
  | WhyElsewhere => mkWithdrawn (wd_fixed w) (wd_not_affected w) (wd_elsewhere w + 1)
  end.

Definition withdrawn_total (w : Withdrawn) : Z := wd_fixed w + wd_not_affected w + wd_elsewhere w.

Definition withdrawn_add (w other : Withdrawn) : Withdrawn :=
  mkWithdrawn (wd_fixed w + wd_fixed other) (wd_not_affected w + wd_not_affected other) (wd_elsewhere w + wd_elsewhere other).

(** ** Texts *)

Record JudgeContext := mkJudgeContext {
  cx_judged : Judged;
  cx_placement : option Placement;
  cx_unplaced : option Unplaced;
}.

(** [Context::distributor_label]. *)
Definition cx_distributor_label (c : JudgeContext) : text :=
  match jd_build (cx_judged c) with Some build => distributor_label (bd_distributor build) | None => lit "the distributor" end.

Definition cx_release (c : JudgeContext) : text :=
  match cx_placement c with
  | Some placed => pl_release placed
  | None =>
    match jd_build (cx_judged c) ≫= bd_release with
    | Some release => rel_name release
    | None => lit "unknown"
    end
  end.

Definition cx_package (c : JudgeContext) : text := match cx_placement c with Some placed => pl_package placed | None => lit "the package" end.

Definition cx_placed_as (c : JudgeContext) : text :=
  let distributor := cx_distributor_label c in
  match cx_placement c with
  | Some placed =>
    let inferred :=
      match pl_release_from placed with
      | FromBanner => []
      | FromRevision => lit ", the only release that shipped this build"
      | FromHost => lit ", the release the host's other services name"
      end in
    match pl_installed placed with
    | Some version => pl_package placed ++ lit " " ++ version ++ lit " on " ++ distributor ++ lit " " ++ pl_release placed ++ inferred
    | None => pl_package placed ++ lit " on " ++ distributor ++ lit " " ++ pl_release placed ++ inferred
    end
  | None => lit "This " ++ distributor ++ lit " build"
  end.

Definition cx_subject (c : JudgeContext) (verdict : Verdict) : text :=
  let j := cx_judged c in
  let parsed := jd_parsed j in
  let scope :=
    match jd_build j with
    | None => lit "upstream"
    | Some build =>
      let distributor := distributor_name (bd_distributor build) in
      let release :=
        match cx_placement c with
        | Some placed => Some (pl_release placed)
        | None => match bd_release build with Some release => Some (rel_name release) | None => jd_host_release j end
        end in
      match release with Some release => distributor ++ lit "-" ++ release | None => distributor end
    end in
  cpe_vendor parsed ++ lit ":" ++ cpe_product parsed ++ lit ":" ++ cpe_version parsed ++ lit "@" ++ scope ++ lit "/" ++ verdict_key verdict.

Definition show_nat (n : nat) : text := show_uint (Z.of_nat n).

(** [Withdrawn::describe]. *)
Definition withdrawn_describe (w : Withdrawn) (c : JudgeContext) : option text :=
  if withdrawn_total w =? 0 then None
  else
    let distributor := cx_distributor_label c in
    let parts :=
      (if 0 <? wd_fixed w then [show_uint (wd_fixed w) ++ (if wd_fixed w =? 1 then lit " is" else lit " are") ++ lit " fixed in this build"] else []) ++
      (if 0 <? wd_not_affected w then [show_uint (wd_not_affected w) ++ lit " never affected " ++ distributor ++ lit " " ++ cx_release c] else []) in
    let by_data :=
      match parts with
      | [] => []
      | _ => [lit "Of this release's other known vulnerabilities, " ++ join (lit " and ") parts ++ lit ", by " ++ distributor ++ lit "'s own data"]
      end in
    let elsewhere :=
      if 0 <? wd_elsewhere w then
        let one := wd_elsewhere w =? 1 in
        [show_uint (wd_elsewhere w) ++ lit " more " ++ (if one then lit "lives" else lit "live") ++ lit " in its client programs or " ++
         (if one then lit "needs" else lit "need") ++ lit " an account on the host"]
      else [] in
    Some (join (lit "; ") (by_data ++ elsewhere) ++ lit ". None of these is reported").

Definition MAX_NAMED_IN_EXCERPT : nat := 3.

Definition MAX_SUMMARY_BYTES : nat := 80.

Definition open_kinds (entries : list Ruled) : text :=
  let kinds := omap (fun e => match ru_ruling e with Some (RuledVulnerable (NoFix kind _)) => Some kind | _ => None end) entries in
  let ignored := length (filter (fun k => k = Ignored) kinds) in
  let other := length (filter (fun k => k <> Ignored) kinds) in
  match ignored, other with
  | O, _ => []
  | _, O => lit ": it has said it will not fix them in this release"
  | _, _ => lit ": it has said it will not fix " ++ show_nat ignored ++ lit " of them in this release, and " ++ show_nat other ++ lit " await a fix"
  end.

(** The tally of [priorities], in the order first met. *)
Fixpoint tally_one (priority : text) (counts : list (text * Z)) : list (text * Z) :=
  match counts with
  | [] => [(priority, 1)]
  | (p, n) :: counts => if bool_decide (p = priority) then (p, n + 1) :: counts else (p, n) :: tally_one priority counts
  end.

Definition priorities (c : JudgeContext) (entries : list Ruled) : option text :=
  placement ← cx_placement c;
  let counts := foldl (fun counts e =>
    match adv_priority (pl_advisories placement) (Some (pl_release placement)) (de_cve (ru_vulnerability e)) with
    | Some priority => tally_one priority counts
    | None => counts
    end) [] entries in
  match counts with
  | [] => None
  | _ => Some (cx_distributor_label c ++ lit "'s own priority for them: " ++ join (lit ", ") ((fun '(p, n) => show_uint n ++ lit " " ++ p) <$> counts))
  end.

Definition ruling_fix (e : Ruled) : option Fix :=
  match ru_ruling e with
  | Some (RuledVulnerable (FixAvailable f | EsmOnly f)) | Some (RuledUnsettled (PatchLevelHidden f)) => Some f
  | _ => None
  end.

(** [Iterator::max_by]: the last of the greatest. *)
Definition max_version (l : list text) : option text :=
  match l with [] => None | v :: l => Some (foldl (fun a b => match dpkg_cmp a b with Gt => a | _ => b end) v l) end.

Definition notices (fixes : list Fix) : list text :=
  foldl (fun l f =>
    match fix_advisory f with
    | Some notice => if negb (bool_decide (notice ∈ l)) && (length l <? MAX_NAMED_IN_EXCERPT)%nat then l ++ [notice] else l
    | None => l
    end) [] fixes.

Definition remediation_of (c : JudgeContext) (verdict : Verdict) (entries : list Ruled) : option text :=
  let distributor := cx_distributor_label c in
  let fixes := omap ruling_fix entries in
  let newest := max_version (fix_version <$> fixes) in
  let citing := match notices fixes with [] => [] | l => lit " (" ++ join (lit ", ") l ++ lit ")" end in
  let package := cx_package c in
  match verdict with
  | VFixAvailable => newest ← newest; Some (lit "Upgrade " ++ package ++ lit " to " ++ newest ++ lit " or later" ++ citing ++ lit ".")
  | VEsmOnly => newest ← newest;
      Some (lit "Enable Ubuntu Pro and upgrade " ++ package ++ lit " to " ++ newest ++ lit " or later" ++ citing ++
            lit ", or move to a supported Ubuntu release.")
  | VNoFix => Some (distributor ++ lit " has published no fix for release " ++ cx_release c ++ lit "; moving to a supported release is the remedy.")
  | VPatchLevelHidden => newest ← newest; Some (lit "Check that " ++ package ++ lit " is at " ++ newest ++ lit " or later" ++ citing ++ lit ".")
  | VBuildUnchecked => Some (lit "Compare the installed package with " ++ distributor ++ lit "'s security advisories for this release.")
  | _ => None
  end.

(** [Vec::contains] and push: each setting once, in the order met. *)
Definition distinct (l : list text) : list text := foldl (fun seen s => if bool_decide (s ∈ seen) then seen else seen ++ [s]) [] l.

Definition and_more (n : nat) : text := match (n - MAX_NAMED_IN_EXCERPT)%nat with O => [] | n => lit " and " ++ show_nat n ++ lit " more" end.

Definition exploited_in_the_wild (e : Exploitation) : text :=
  lit "Known exploited in the wild, by " ++ det_id (exploited_by e) ++ lit ": " ++
  join (lit ", ") (take MAX_NAMED_IN_EXCERPT (exploited_cves e)) ++ and_more (length (exploited_cves e)).

(** ** One finding for each kind of claim *)

Section Judging.
Context (overlay : gmap text (list Stated)) (document : BTreeMap text ProductPackages).

(** What the texts of a group say: how many, how bad, which. *)
Definition group_named (entries : list Ruled) : text :=
  join (lit ", ") ((fun e => de_cve (ru_vulnerability e)) <$> take MAX_NAMED_IN_EXCERPT entries).

Definition group_counted (entries : list Ruled) (wanted : Severity) : nat :=
  length (filter (fun e => severity_of (de_severity (ru_vulnerability e)) = Some wanted) entries).

Definition group_tally (entries : list Ruled) : text :=
  show_nat (group_counted entries Critical) ++ lit " critical and " ++ show_nat (group_counted entries High) ++ lit " high".

Definition group_known (entries : list Ruled) : text :=
  if (length entries =? 1)%nat then lit "1 known vulnerability" else show_nat (length entries) ++ lit " known vulnerabilities".

(** [cves], with the words for one and for many. *)
Definition group_cves (entries : list Ruled) (one many : string) : text :=
  if (length entries =? 1)%nat then lit "1 " ++ lit one else show_nat (length entries) ++ lit " " ++ lit many.

Definition software_of (j : Judged) (worst : Vulnerability) : text :=
  let product := default (de_product worst) (jd_product j) in
  if is_empty_text (cpe_version (jd_parsed j)) then product else product ++ lit " " ++ cpe_version (jd_parsed j).

(** The texts of a claim made from the version alone. *)
Definition version_texts (j : Judged) (checked : bool) (worst : Vulnerability) (entries : list Ruled) : text * text :=
  let cpe := jd_cpe j in
  let software := software_of j worst in
  let count := show_nat (length entries) in
  if (length entries =? 1)%nat then
    let excerpt :=
      if checked then cpe ++ lit " matches " ++ de_vendor worst ++ lit " " ++ de_product worst ++ lit " " ++ de_affected worst
      else cpe ++ lit " is " ++ de_vendor worst ++ lit " " ++ de_product worst ++
           lit ", which this entry names at any version: the version found was not checked against anything" in
    if (byte_len (de_title worst) <=? MAX_SUMMARY_BYTES)%nat then (de_title worst, excerpt)
    else (software ++ lit " has 1 known vulnerability", excerpt ++ lit ". " ++ de_title worst)
  else
    let excerpt :=
      if checked then cpe ++ lit " matches " ++ group_known entries ++ lit ", " ++ group_tally entries ++ lit ". The worst are " ++ group_named entries
      else cpe ++ lit " matches " ++ count ++
           lit " entries naming this software at any version: the version found was not checked against anything. They include " ++ group_named entries in
    (software ++ lit " has " ++ count ++ lit " known vulnerabilities", excerpt).

(** The [match] of [Catalogue::finding] on the verdict. *)
Definition group_texts (c : JudgeContext) (verdict : Verdict) (worst : Vulnerability) (entries : list Ruled) : option (text * text) :=
  let j := cx_judged c in
  let cpe := jd_cpe j in
  let software := software_of j worst in
  let known := group_known entries in
  let tally := group_tally entries in
  let named := group_named entries in
  let distributor := cx_distributor_label c in
  let placed := cx_placed_as c in
  match verdict with
  | VAffected => Some (version_texts j true worst entries)
  | VAnyVersion => Some (version_texts j false worst entries)
  | VBuildUnchecked =>
    build ← jd_build j;
    let why := match cx_unplaced c with Some u => unplaced_describe u distributor | None => lit "no " ++ distributor ++ lit " advisory data was loaded" end in
    Some (software ++ lit ": " ++ group_cves entries "upstream CVE" "upstream CVEs" ++ lit ", build unchecked",
          cpe ++ lit " matches " ++ known ++ lit " in the upstream release, " ++ tally ++ lit ". " ++ distributor ++
          lit " backports fixes without changing the upstream version, and whether this build (" ++ build_describe build ++
          lit ") still carries them was not checked: " ++ why ++ lit ". The worst are " ++ named)
  | VFixAvailable =>
    Some (software ++ lit ": " ++ group_cves entries "CVE fixed" "CVEs fixed" ++ lit " in a newer " ++ distributor ++ lit " build",
          placed ++ lit " predates the builds that fixed " ++ known ++ lit ", " ++ tally ++ lit ", by " ++ distributor ++
          lit "'s own data. The worst are " ++ named)
  | VEsmOnly =>
    Some (software ++ lit ": " ++ group_cves entries "CVE fixed" "CVEs fixed" ++ lit " only in Ubuntu Pro",
          placed ++ lit " carries " ++ known ++ lit ", " ++ tally ++
          lit ", fixed by Ubuntu only in its Expanded Security Maintenance pockets, which a machine receives with an Ubuntu Pro subscription. The build this host runs is not one of those. The worst are " ++ named)
  | VNoFix =>
    Some (software ++ lit ": " ++ group_cves entries "CVE with no fix" "CVEs with no fix" ++ lit " for " ++ distributor ++ lit " " ++ cx_release c,
          placed ++ lit " carries " ++ known ++ lit ", " ++ tally ++ lit ", not fixed by " ++ distributor ++ lit " in this release" ++
          open_kinds entries ++ lit ". The worst are " ++ named)
  | VNeedsSetting =>
    let settings := distinct (omap (fun e => entry_requires overlay (ru_vulnerability e)) entries) in
    Some (software ++ lit ": " ++ group_cves entries "CVE needs" "CVEs need" ++ lit " a non-default setting",
          cpe ++ lit " matches " ++ known ++ lit ", " ++ tally ++
          lit ", reaching the service only where it is set up in a way it is not by default: " ++
          join (lit "; ") (take MAX_NAMED_IN_EXCERPT settings) ++ and_more (length settings) ++ lit ". The worst are " ++ named)
  | VPatchLevelHidden =>
    Some (software ++ lit ": " ++ group_cves entries "CVE" "CVEs" ++ lit ", patch level not visible",
          placed ++ lit ": the banner does not say which build, and " ++ distributor ++ lit " has fixed " ++ known ++ lit ", " ++ tally ++
          lit ", in builds of it, which this one may predate or carry. The worst are " ++ named)
  | VUntriaged =>
    Some (software ++ lit ": " ++ group_cves entries "CVE" "CVEs" ++ lit " not triaged by " ++ distributor,
          placed ++ lit " matches " ++ known ++ lit " in the upstream release, " ++ tally ++ lit ", not yet judged for this release in " ++ distributor ++
          lit "'s data, or not recorded there. The worst are " ++ named)
  end.

Definition entry_cve (e : Ruled) : text := de_cve (ru_vulnerability e).

(** Every vulnerability cited, the exploited ones first. *)
Definition cite_all (exploitation : option Exploitation) (entries : list Ruled) (f : Finding Build) : Finding Build :=
  let listed e := match exploitation with Some marked => bool_decide (entry_cve e ∈ exploited_cves marked) | None => false end in
  foldl (fun f e => match reference_cve (entry_cve e) with Some r => with_reference r f | None => f end) f
    (filter (fun e => listed e = true) entries ++ filter (fun e => listed e = false) entries).

(** What a finding says of one vulnerability it says alone. *)
Definition cite_only (entries : list Ruled) (f : Finding Build) : Finding Build :=
  match entries with
  | [e] =>
    let f := match de_cwe (ru_vulnerability e) with Some cwe => with_reference (Cwe cwe) f | None => f end in
    match de_remediation (ru_vulnerability e) with Some r => set_remediation (Some r) f | None => f end
  | _ => f
  end.

(** What a finding records of the identification, and of the data consulted. *)
Definition dress_finding (c : JudgeContext) (verdict : Verdict) (excerpt : text) (f : Finding Build) : Finding Build :=
  let j := cx_judged c in
  let f := set_subject (Some (cx_subject c verdict)) (with_cpe (jd_cpe j) (with_excerpt (excerpt_new excerpt) f)) in
  let f := match jd_build j with Some build => set_build (Some build) f | None => f end in
  match cx_placement c ≫= fun p =>
    let a := pl_advisories p in ok (detection_id_new (distributor_id (adv_distributor a)) (adv_version a) (adv_content_hash a)) with
  | Some stamp => set_advised_by (Some stamp) f
  | None => f
  end.

(** [Catalogue::finding]. *)
Definition group_finding (cat : Catalogue) (c : JudgeContext) (verdict : Verdict) (entries : list Ruled) (note : option text)
    (exploited : option KnownExploited) : option (Finding Build) :=
  worst ← ru_vulnerability <$> head entries;
  severity ← severity_of (de_severity worst);
  detection ← ok (detection_id_new (cat_id cat) (cat_version cat) (cat_content_hash cat));
  texts ← group_texts c verdict worst entries;
  let '(title, excerpt) := (texts : text * text) in
  let exploitation := exploited ≫= fun list => mark_exploited list (entry_cve <$> entries) in
  let excerpt := join (lit ". ") (omap id [Some excerpt; exploited_in_the_wild <$> exploitation; priorities c entries; note]) in
  f ← ok (finding_new detection title severity (verdict_confidence verdict) ClassPassive);
  let f := dress_finding c verdict excerpt f in
  let f := cite_all exploitation entries f in
  let f := match exploitation with Some e => set_exploitation (Some e) f | None => f end in
  let f := cite_only entries f in
  Some (match remediation_of c verdict entries with Some r => set_remediation (Some r) f | None => f end).

(** ** Judging an identification *)

(** Worst first, and by identifier where two are equally bad. *)
Definition worse_first (a b : Vulnerability) : comparison :=
  then_cmp (option_cmp severity_cmp (severity_of (de_severity b)) (severity_of (de_severity a))) (str_cmp (de_cve a) (de_cve b)).

Definition matched_entries (views : list Vulnerability) (parsed : Cpe) : list Vulnerability :=
  dedup (fun a b => bool_decide (de_cve a = de_cve b))
    (sort_by (cmp_leb worse_first) (filter (fun v => entry_matches v parsed = true) views)).

Record Judgement := mkJudgement {
  jg_findings : list (Finding Build);
  jg_withdrawn : Withdrawn;
}.

Definition place_build (j : Judged) (matched : list Vulnerability) (advisories : list Advisories) : option (Result Placement Unplaced) :=
  match jd_build j, matched with
  | Some build, _ :: _ => Some (placement_of document build (vendor_product j) (cpe_version (jd_parsed j)) advisories (jd_host_release j))
  | _, _ => None
  end.

(** The loop over what matched. *)
Definition group_one (j : Judged) (placement : option (Result Placement Unplaced)) (st : BTreeMap Verdict (list Ruled) * Withdrawn) (v : Vulnerability) :
  BTreeMap Verdict (list Ruled) * Withdrawn :=
  let '(groups, withdrawn) := st in
  match classify_entry overlay v j placement with
  | ClassWithdrawn why => (groups, withdrawn_count why withdrawn)
  | ClassGrouped verdict ruling => (bt_entry verdict [] (fun l => l ++ [mkRuled v ruling]) groups, withdrawn)
  end.

Definition group_all (j : Judged) (placement : option (Result Placement Unplaced)) (matched : list Vulnerability) :
  BTreeMap Verdict (list Ruled) * Withdrawn := foldl (group_one j placement) ([], withdrawn_default) matched.

Definition context_of (j : Judged) (placement : option (Result Placement Unplaced)) : JudgeContext :=
  mkJudgeContext j
    (match placement with Some (Ok p) => Some p | _ => None end)
    (match placement with Some (Err u) => Some u | _ => None end).

(** The note goes to the first group, whether or not a finding comes of it. *)
Definition group_findings (cat : Catalogue) (c : JudgeContext) (groups : BTreeMap Verdict (list Ruled)) (note : option text)
    (exploited : option KnownExploited) : list (Finding Build) :=
  match groups with
  | [] => []
  | (verdict, entries) :: rest =>
    omap id (group_finding cat c verdict entries note exploited :: ((fun '(verdict, entries) => group_finding cat c verdict entries None exploited) <$> rest))
  end.

(** [Catalogue::judge], the catalogue's entries looked up. *)
Definition judge (cat : Catalogue) (views : list Vulnerability) (j : Judged) (advisories : list Advisories) (exploited : option KnownExploited) : Judgement :=
  let matched := matched_entries views (jd_parsed j) in
  let placement := place_build j matched advisories in
  let '(groups, withdrawn) := group_all j placement matched in
  let c := context_of j placement in
  mkJudgement (group_findings cat c groups (withdrawn_describe withdrawn c) exploited) withdrawn.

(** ** A host *)

Record HostPort := mkHostPort {
  hp_number : Z;
  hp_protocol : Protocol;
  hp_service : option Service;
  hp_findings : gmap ClaimId (Finding Build);
}.

Record PortJudgement := mkPortJudgement {
  pj_number : Z;
  pj_protocol : Protocol;
  pj_findings : list (Finding Build);
  pj_withdrawn : Withdrawn;
}.

(** The releases the host's services name, by distributor. *)
Definition host_releases (ports : list HostPort) : BTreeMap Distributor (BTreeMap text ()) :=
  foldl (fun releases build =>
    match bd_release build with
    | Some release => bt_entry (bd_distributor build) [] (bt_insert (rel_name release) tt) releases
    | None => releases
    end) [] (omap (fun p => hp_service p ≫= sv_build) ports).

Record Correlator := mkCorrelator {
  co_catalogue : Catalogue;
  co_advisories : list Advisories;
  co_exploited : KnownExploited;
}.

(** What a service's platform names come to, one after another. *)
Definition judge_service (co : Correlator) (views : list Vulnerability) (releases : BTreeMap Distributor (BTreeMap text ())) (service : Service) :
  list (Finding Build) * Withdrawn :=
  foldl (fun '(findings, withdrawn) j =>
    let g := judge (co_catalogue co) views (on_host releases j) (co_advisories co) (Some (co_exploited co)) in
    (findings ++ jg_findings g, withdrawn_add withdrawn (jg_withdrawn g))) ([], withdrawn_default) (omap (judged_of service) (sv_cpes service)).

Definition judge_port (co : Correlator) (views : list Vulnerability) (releases : BTreeMap Distributor (BTreeMap text ())) (p : HostPort) : option PortJudgement :=
  service ← hp_service p;
  let '(findings, withdrawn) := judge_service co views releases service in
  let held := existsb (fun f => drawn_by (cat_id (co_catalogue co)) f) (values (hp_findings p)) in
  if negb (length findings =? 0)%nat || held || (0 <? withdrawn_total withdrawn)
  then Some (mkPortJudgement (hp_number p) (hp_protocol p) findings withdrawn) else None.

(** [Correlator::judgements].  [None] is the panic of an entry out of its pool. *)
Definition judgements (co : Correlator) (ports : list HostPort) : option (list PortJudgement) :=
  views ← mapM (view (cat_pool (co_catalogue co))) (cat_vulnerability (co_catalogue co));
  Some (omap (judge_port co views (host_releases ports)) ports).

(** [Host::replace_port_correlations], on the port of that number and protocol. *)
Definition replace_port_correlations (d : text) (g : PortJudgement) (ports : list HostPort) : list HostPort :=
  (fun p => if bool_decide (hp_number p = pj_number g /\ hp_protocol p = pj_protocol g)
    then mkHostPort (hp_number p) (hp_protocol p) (hp_service p) (fst (replace_correlations (hp_findings p) d (pj_findings g))) else p) <$> ports.

(** [Correlator::correlate]. *)
Definition correlate (co : Correlator) (ports : list HostPort) : option (list HostPort) :=
  l ← judgements co ports;
  Some (foldl (fun ports g => replace_port_correlations (cat_id (co_catalogue co)) g ports) ports l).
End Judging.

(** ** Groups *)

Section Groups.
Context (overlay : gmap text (list Stated)) (j : Judged) (placement : option (Result Placement Unplaced)).






End Groups.

(** ** What is matched *)

#[export] Instance severity_order : CmpOrder severity_cmp.
Proof. apply (ranked_cmp_order severity_rank). Qed.

#[export] Instance worse_first_order : CmpOrder worse_first.
Proof.
  apply then_order.
  - apply (pullback_order (fun v => severity_of (de_severity v)) (fun a b => option_cmp severity_cmp b a)); [apply flip_order, _|done].
  - by apply (pullback_order de_cve str_cmp); [apply _|].
Qed.








(** ** What a finding cites *)



Lemma cite_fold l (f : Finding Build) :
  foldl (fun f e => match reference_cve (entry_cve e) with Some r => with_reference r f | None => f end) f l =
  set_references (add_references (references f) (omap (fun e => reference_cve (entry_cve e)) l)) f.
Proof.
  revert f. induction l as [|e l IH]; intros f; [by destruct f|]. cbn - [with_reference]. rewrite IH.
  destruct (reference_cve (entry_cve e)) as [r|]; [|done]. unfold with_reference. cbn. case_bool_decide; [done|]. by destruct f.
Qed.

Lemma cite_all_refs exploitation entries (f : Finding Build) : exists l,
  cite_all exploitation entries f = set_references (add_references (references f) l) f /\
  forall r, r ∈ l <-> exists e, e ∈ entries /\ reference_cve (entry_cve e) = Some r.
Proof.
  unfold cite_all. rewrite cite_fold. eexists. split; [done|]. intros r. rewrite list_elem_of_omap.
  split; intros (e & He & Er); exists e; (split; [|done]); rewrite elem_of_app, !list_elem_of_filter in *; [tauto|].
  destruct exploitation as [m|]; [|by right]. destruct (bool_decide (entry_cve e ∈ exploited_cves m)); tauto.
Qed.

Lemma cite_only_refs entries (f : Finding Build) : exists l m,
  cite_only entries f = set_remediation m (set_references (add_references (references f) l) f) /\ forall r, r ∈ l -> exists n, r = Cwe n.
Proof.
  unfold cite_only. destruct entries as [|e [|? ?]]; [exists [], (remediation f); split; [by destruct f|set_solver]| |exists [], (remediation f); split; [by destruct f|set_solver]].
  destruct (de_cwe (ru_vulnerability e)) as [n|].
  - exists [Cwe n], (match de_remediation (ru_vulnerability e) with Some r => Some r | None => remediation f end).
    split; [|intros r ->%list_elem_of_singleton; eauto]. unfold with_reference. cbn. case_bool_decide; destruct f, (de_remediation (ru_vulnerability e)); done.
  - exists [], (match de_remediation (ru_vulnerability e) with Some r => Some r | None => remediation f end).
    split; [|set_solver]. destruct f, (de_remediation (ru_vulnerability e)); done.
Qed.

Section FindingOf.
Context (overlay : gmap text (list Stated)) (cat : Catalogue) (c : JudgeContext) (verdict : Verdict) (entries : list Ruled)
  (note : option text) (exploited : option KnownExploited).

Lemma dress_says (f : Finding Build) excerpt : references f = [] -> cpes f = ∅ -> let g := dress_finding c verdict excerpt f in
  severity g = severity f /\ confidence g = confidence f /\ subject g = Some (cx_subject c verdict) /\
  cpes g = {[ jd_cpe (cx_judged c) ]} /\ detection g = detection f /\ references g = [].
Proof.
  intros Hr Hc. unfold dress_finding. destruct (jd_build (cx_judged c)), (cx_placement c ≫= _); cbn; rewrite Hc, Hr, (right_id_L ∅ (∪)); done.
Qed.

(** A group's finding cites the vulnerabilities of the group, as bad as its worst, by the
    platform name it was drawn from. *)
Lemma group_finding_says f : group_finding overlay cat c verdict entries note exploited = Some f ->
  (exists worst, head entries = Some worst /\ severity_of (de_severity (ru_vulnerability worst)) = Some (severity f)) /\
  confidence f = verdict_confidence verdict /\ subject f = Some (cx_subject c verdict) /\
  cpes f = {[ jd_cpe (cx_judged c) ]} /\ det_id (detection f) = cat_id cat /\
  forall id, Cve id ∈ references f <-> is_cve_shaped id = true /\ exists e, e ∈ entries /\ entry_cve e = id.
Proof.
  unfold group_finding. intros (worst & Hw & H)%bind_Some. apply fmap_Some in Hw as (e & He & ->).
  apply bind_Some in H as (sev & Hsev & H). apply bind_Some in H as (d & Hd & H). apply bind_Some in H as ([t x] & Ht & H).
  apply bind_Some in H as (g & Hg & [= <-]). unfold detection_id_new in Hd. destruct (blank (cat_id cat)); [done|]. injection Hd as <-.
  unfold finding_new in Hg. destruct (blank t); [done|]. injection Hg as <-.
  set (ex := exploited ≫= fun list => mark_exploited list (entry_cve <$> entries)).
  match goal with |- context [dress_finding c verdict ?x ?f0] => destruct (dress_says f0 x eq_refl eq_refl) as (E1 & E2 & E3 & E4 & E5 & E6);
    generalize dependent (dress_finding c verdict x f0) end. intros g E1 E2 E3 E4 E5 E6. cbn in *.
  destruct (cite_all_refs ex entries g) as (l & -> & Hl).
  match goal with |- context [cite_only entries ?h] => destruct (cite_only_refs entries h) as (k & m & -> & Hk) end.
  assert (forall id, Cve id ∈ add_references (add_references [] l) k <-> is_cve_shaped id = true /\ exists e, e ∈ entries /\ entry_cve e = id) as Hrefs.
  { intros id. rewrite !elem_of_add_references, Hl, elem_of_nil. unfold reference_cve. split.
    - intros [[[]|(e' & He' & E)]|(n & [= ])%Hk]. destruct (is_cve_shaped (entry_cve e')) eqn:Es; [|done]. injection E as <-. eauto.
    - intros (Hs & e' & He' & <-). left. right. exists e'. by rewrite Hs. }
  rewrite E6 in *. clear Hl Hk. generalize (remediation_of c verdict entries) ex. intros rem ex'.
  destruct ex', rem; cbn; rewrite ?E1, ?E6; split_and!; eauto; by rewrite E5.
Qed.
End FindingOf.




Lemma group_findings_from overlay cat c groups note exploited f : f ∈ group_findings overlay cat c groups note exploited ->
  exists verdict entries n, (verdict, entries) ∈ groups /\ group_finding overlay cat c verdict entries n exploited = Some f.
Proof.
  unfold group_findings. destruct groups as [|[v0 e0] rest]; [by intros ?%elem_of_nil|].
  intros (x & Hx & E)%list_elem_of_omap. cbn in E. subst x. apply elem_of_cons in Hx as [Hx|Hx].
  - exists v0, e0, note. split; [left|done].
  - apply list_elem_of_fmap in Hx as ([v e] & Hf & He). exists v, e, None. split; [by right|done].
Qed.






Section Judgements.
Context (overlay : gmap text (list Stated)) (document : BTreeMap text ProductPackages) (cat : Catalogue) (views : list Vulnerability)
  (j : Judged) (advisories : list Advisories) (exploited : option KnownExploited).

Let matched := matched_entries views (jd_parsed j).
Let placement := place_build document j matched advisories.


End Judgements.

(** ** A correlator replaces its own claims *)

Section Replacing.
Context (d : text).

(** What of a port's findings is the correlator's, and nothing else is under its name. *)
Definition own_claims (m : gmap ClaimId (Finding Build)) : Prop :=
  keyed m /\ forall c f, m !! c = Some f -> claim_detection c = d -> drawn_by d f = true.

Definition others (m : gmap ClaimId (Finding Build)) : gmap ClaimId (Finding Build) := filter (fun cf => drawn_by d (snd cf) = false) m.

Lemma drawn_claim (f : Finding Build) : drawn_by d f = true -> claim_detection (claim_id f) = d.
Proof. unfold drawn_by. rewrite andb_true_iff, bool_decide_eq_true. by intros [_ H]. Qed.

Lemma drawn_folded (a b : Finding Build) : drawn_by d a = true -> drawn_by d b = true -> drawn_by d (folded a b) = true.
Proof.
  unfold drawn_by, is_correlation. rewrite !andb_true_iff, !bool_decide_eq_true, !negb_true_iff, !bool_decide_eq_false. intros [Ha Hda] [Hb Hdb].
  split; [cbn; set_solver|]. cbn. unfold newer_of. by destruct (version_leb _ _).
Qed.

Lemma add_own m (f : Finding Build) : own_claims m -> drawn_by d f = true ->
  own_claims (fst (add_finding m f)) /\ forall c, claim_detection c <> d -> fst (add_finding m f) !! c = m !! c.
Proof.
  intros [Hk Ho] Hf. pose proof (drawn_claim f Hf) as Hc. split; [split; [by apply add_finding_keyed|]|].
  - intros c x. rewrite add_finding_lookup by done. case_decide as Hd; [subst c|apply Ho]. destruct (m !! claim_id f) as [y|] eqn:E.
    + intros [= <-] _. apply drawn_folded; [by apply (Ho (claim_id f))|done].
    + by destruct (_ <=? _)%nat; intros [= <-].
  - intros c Hne. rewrite add_finding_lookup by done. by rewrite decide_False by congruence.
Qed.

Lemma add_all_own m (l : list (Finding Build)) : own_claims m -> Forall (fun f => drawn_by d f = true) l ->
  own_claims (add_findings m l) /\ forall c, claim_detection c <> d -> add_findings m l !! c = m !! c.
Proof.
  intros Hm Hl. revert m Hm. induction Hl as [|f l Hf Hl IH]; intros m Hm; [done|].
  destruct (add_own m f Hm Hf) as [Hm' E]. destruct (IH _ Hm') as [H1 H2]. split; [done|]. intros c Hc. cbn. rewrite H2, E by done. done.
Qed.

Lemma others_lookup m c : own_claims m -> others m !! c = if decide (claim_detection c = d) then None else m !! c.
Proof.
  intros [Hk Ho]. unfold others. rewrite map_lookup_filter. destruct (m !! c) as [f|] eqn:E; cbn; [|by case_decide].
  destruct (decide (claim_detection c = d)) as [Hd|Hd].
  - rewrite (Ho c f E Hd). done.
  - destruct (drawn_by d f) eqn:Ef; [|done]. apply drawn_claim in Ef. rewrite (Hk c f E) in Ef. done.
Qed.

Lemma others_own m : own_claims m -> own_claims (others m).
Proof.
  intros Hm. split.
  - intros c f. unfold others. rewrite map_lookup_filter_Some. intros [E _]. by apply Hm.
  - intros c f. rewrite others_lookup by done. by case_decide.
Qed.

Lemma replace_own m (l : list (Finding Build)) : own_claims m -> Forall (fun f => drawn_by d f = true) l ->
  let m' := fst (replace_correlations m d l) in own_claims m' /\ others m' = others m /\ m' = add_findings (others m) l.
Proof.
  intros Hm Hl. cbn. change (filter _ m) with (others m). change (foldl _ (others m) l) with (add_findings (others m) l).
  destruct (add_all_own (others m) l (others_own m Hm) Hl) as [Ho E]. split_and!; [done| |done].
  apply map_eq. intros c. rewrite !others_lookup by done. case_decide as Hd; [done|]. rewrite E by done. by rewrite others_lookup, decide_False.
Qed.

(** Replacing twice is replacing once. *)
Lemma replace_twice m (l : list (Finding Build)) : own_claims m -> Forall (fun f => drawn_by d f = true) l ->
  fst (replace_correlations (fst (replace_correlations m d l)) d l) = fst (replace_correlations m d l).
Proof.
  intros Hm Hl. destruct (replace_own m l Hm Hl) as (Ho & Eo & E). destruct (replace_own _ l Ho Hl) as (_ & _ & ->). by rewrite Eo, <- E.
Qed.

(** With nothing to put in its place and nothing held, nothing changes. *)
Lemma replace_none m : own_claims m -> existsb (fun f => drawn_by d f) (values m) = false -> fst (replace_correlations m d []) = m.
Proof.
  intros Hm Hn. destruct (replace_own m [] Hm ltac:(constructor)) as (_ & _ & ->). cbn. apply map_eq. intros c. rewrite others_lookup by done.
  case_decide as Hd; [|done]. destruct (m !! c) as [f|] eqn:E; [|done]. exfalso.
  apply not_true_iff_false in Hn. apply Hn, existsb_elem. exists f. split; [|by apply (proj2 Hm c)].
  unfold values. apply list_elem_of_fmap. exists (c, f). split; [done|]. apply elem_of_sort_by. by apply elem_of_map_to_list.
Qed.
End Replacing.

Lemma own_claims_empty d : own_claims d ∅.
Proof. split; [apply map_Forall_empty|]. intros c f. by rewrite lookup_empty. Qed.

Definition port_key (p : HostPort) : Z * Protocol := (hp_number p, hp_protocol p).

Definition judgement_key (g : PortJudgement) : Z * Protocol := (pj_number g, pj_protocol g).

(** A port with one judgement's findings in place of the correlator's. *)
Definition settle_port (d : text) (p : HostPort) (g : option PortJudgement) : HostPort :=
  match g with
  | Some g => mkHostPort (hp_number p) (hp_protocol p) (hp_service p) (fst (replace_correlations (hp_findings p) d (pj_findings g)))
  | None => p
  end.

Lemma replace_port_settles d g ports :
  replace_port_correlations d g ports = (fun p => settle_port d p (if decide (port_key p = judgement_key g) then Some g else None)) <$> ports.
Proof.
  unfold replace_port_correlations. apply list_fmap_ext. intros _ p _. unfold port_key, judgement_key.
  destruct (decide (_ = _)) as [[= E1 E2]|Hne]; [by rewrite bool_decide_true|]. rewrite bool_decide_false; [done|]. intros [E1 E2]. congruence.
Qed.

(** The judgement of a key, where there is one. *)
Definition judgement_at (k : Z * Protocol) (gs : list PortJudgement) : option PortJudgement := head (filter (fun g => judgement_key g = k) gs).

Lemma settle_all d gs ports : NoDup (judgement_key <$> gs) ->
  foldl (fun ports g => replace_port_correlations d g ports) ports gs = (fun p => settle_port d p (judgement_at (port_key p) gs)) <$> ports.
Proof.
  revert ports. induction gs as [|g gs IH]; intros ports; cbn; [intros _; symmetry; by apply list_fmap_id|]. intros [Hg Hd]%NoDup_cons.
  rewrite IH by done. rewrite replace_port_settles, <- list_fmap_compose. apply list_fmap_ext. intros _ p _. cbn. unfold judgement_at.
  rewrite filter_cons. destruct (decide (port_key p = judgement_key g)) as [E|Hne].
  - rewrite (decide_True _ _ (eq_sym E)). cbn. change (port_key _) with (port_key p).
    replace (head (filter _ gs)) with (@None PortJudgement); [done|]. destruct (filter _ gs) as [|h l] eqn:Ef; [done|]. exfalso.
    assert (h ∈ filter (fun g => judgement_key g = port_key p) gs) as [Eh Hh]%list_elem_of_filter by (rewrite Ef; left).
    apply Hg. rewrite <- E, <- Eh. by apply list_elem_of_fmap_2.
  - by rewrite decide_False by congruence.
Qed.

Lemma judge_port_key overlay document co views releases p g : judge_port overlay document co views releases p = Some g -> judgement_key g = port_key p.
Proof.
  unfold judge_port. intros (s & _ & H)%bind_Some. destruct (judge_service _ _ _ _ _ _). case_match; [|done]. by injection H as <-.
Qed.

Lemma judgement_at_port (f : HostPort -> option PortJudgement) ports p : (forall p g, f p = Some g -> judgement_key g = port_key p) ->
  NoDup (port_key <$> ports) -> p ∈ ports -> judgement_at (port_key p) (omap f ports) = f p.
Proof.
  intros Hf Hd Hp. unfold judgement_at.
  assert (forall q g, q ∈ ports -> f q = Some g -> judgement_key g = port_key p -> q = p) as Huniq.
  { intros q g Hq Hg E. apply list_elem_of_lookup in Hq as [i Hi], Hp as [k Hk]. pose proof (Hf q g Hg) as Ek.
    assert (i = k) as ->; [|congruence]. apply (NoDup_lookup _ _ _ (port_key p) Hd); rewrite list_lookup_fmap; [rewrite Hi|by rewrite Hk].
    cbn. congruence. }
  destruct (filter _ (omap f ports)) as [|g l] eqn:E.
  - destruct (f p) as [g|] eqn:Eg; [|done]. exfalso.
    assert (g ∈ filter (fun g => judgement_key g = port_key p) (omap f ports)) as Hin.
    { apply list_elem_of_filter. split; [by apply Hf|]. apply list_elem_of_omap. eauto. }
    rewrite E in Hin. by apply elem_of_nil in Hin.
  - assert (g ∈ filter (fun g => judgement_key g = port_key p) (omap f ports)) as [Ek Hg]%list_elem_of_filter by (rewrite E; left).
    apply list_elem_of_omap in Hg as (q & Hq & Eq). by rewrite <- (Huniq q g Hq Eq Ek), Eq.
Qed.

Lemma omap_keys (f : HostPort -> option PortJudgement) ports : (forall p g, f p = Some g -> judgement_key g = port_key p) ->
  NoDup (port_key <$> ports) -> NoDup (judgement_key <$> omap f ports).
Proof.
  intros Hf. induction ports as [|p ports IH]; cbn; [constructor|]. intros [Hp Hd]%NoDup_cons. destruct (f p) as [g|] eqn:E; [|by apply IH].
  cbn. constructor; [|by apply IH]. rewrite (Hf p g E). intros (g' & Ek & Hg')%list_elem_of_fmap. apply list_elem_of_omap in Hg' as (q & Hq & Eq).
  apply Hp. rewrite Ek, (Hf q g' Eq). by apply list_elem_of_fmap_2.
Qed.

Lemma omap_fmap_same {A B} (f : A -> option B) (g : A -> A) (l : list A) : (forall x, x ∈ l -> f (g x) = f x) -> omap f (g <$> l) = omap f l.
Proof.
  induction l as [|x l IH]; intros E; [done|]. cbn. rewrite (E x) by left. rewrite IH; [done|]. intros y Hy. apply E. by right.
Qed.

Section Correlating.
Context (overlay : gmap text (list Stated)) (document : BTreeMap text ProductPackages) (co : Correlator).

Let d := cat_id (co_catalogue co).

(** A host as the engine has one: a port to a key, and under the correlator's name on each
    only what it drew. *)
Definition ports_ok (ports : list HostPort) : Prop := NoDup (port_key <$> ports) /\ Forall (fun p => own_claims d (hp_findings p)) ports.

Lemma correlate_settles ports views : mapM (view (cat_pool (co_catalogue co))) (cat_vulnerability (co_catalogue co)) = Some views -> ports_ok ports ->
  correlate overlay document co ports =
  Some ((fun p => settle_port d p (judge_port overlay document co views (host_releases ports) p)) <$> ports).
Proof.
  intros Hv [Hd _]. unfold correlate, judgements. rewrite Hv. cbn. f_equal.
  assert (forall p g, judge_port overlay document co views (host_releases ports) p = Some g -> judgement_key g = port_key p) as Hk by apply judge_port_key.
  rewrite settle_all by by apply omap_keys. apply list_fmap_ext. intros i p Hp. f_equal. apply judgement_at_port; [done|done|].
  by apply list_elem_of_lookup_2 in Hp.
Qed.

Lemma judge_service_drawn views releases service :
  Forall (fun f => drawn_by d f = true) (fst (judge_service overlay document co views releases service)).
Proof.
  unfold judge_service. generalize (omap (judged_of service) (sv_cpes service)). intros l.
  assert (Forall (fun f => drawn_by d f = true) (fst (@nil (Finding Build), withdrawn_default))) as H by constructor. revert H.
  generalize (@nil (Finding Build), withdrawn_default). induction l as [|j l IH]; intros [fs w] H; [done|]. apply IH. cbn in *. apply Forall_app. split; [done|].
  apply Forall_forall. intros f Hf. unfold judge in Hf. destruct (group_all _ _ _ _) as [groups wd]. cbn in Hf.
  apply group_findings_from in Hf as (verdict & entries & n & _ & Hf). apply group_finding_says in Hf as (_ & _ & _ & Hcpe & Hdet & _).
  unfold drawn_by, is_correlation. rewrite Hcpe, Hdet, bool_decide_false by set_solver. by rewrite bool_decide_true.
Qed.

(** A port's findings once it is correlated: what others found, and what its service comes
    to, in place of what the correlator had drawn. *)
Definition correlated (views : list Vulnerability) (releases : BTreeMap Distributor (BTreeMap text ())) (p : HostPort) : gmap ClaimId (Finding Build) :=
  match hp_service p with
  | Some s => add_findings (others d (hp_findings p)) (fst (judge_service overlay document co views releases s))
  | None => hp_findings p
  end.

Lemma settle_port_ok views releases p : own_claims d (hp_findings p) ->
  let p' := settle_port d p (judge_port overlay document co views releases p) in
  own_claims d (hp_findings p') /\ hp_service p' = hp_service p /\ port_key p' = port_key p /\ others d (hp_findings p') = others d (hp_findings p) /\
  hp_findings p' = correlated views releases p /\
  settle_port d p' (judge_port overlay document co views releases p') = p'.
Proof.
  intros Ho. unfold judge_port, correlated. destruct (hp_service p) as [s|] eqn:Es; cbn; [|by rewrite Es].
  pose proof (judge_service_drawn views releases s) as Hl. destruct (judge_service _ _ _ _ _ s) as [fs w] eqn:Ej. cbn in Hl.
  set (held p := existsb (fun f => drawn_by d f) (values (hp_findings p))). fold d.
  change (existsb (fun f => drawn_by d f) (values (hp_findings p))) with (held p).
  destruct (negb (length fs =? 0)%nat || held p || (0 <? withdrawn_total w)) eqn:E; cbn.
  - destruct (replace_own d (hp_findings p) fs Ho Hl) as (Ho' & Eo & _). split_and!; [done|done|done|done|done|]. rewrite Es. cbn. rewrite Ej.
    match goal with |- settle_port _ _ (if ?b then _ else _) = _ => destruct b end; [|done].
    unfold settle_port. cbn - [replace_correlations]. f_equal. exact (replace_twice d (hp_findings p) fs Ho Hl).
  - pose proof E as E'. rewrite !orb_false_iff, negb_false_iff in E'. destruct E' as [[En Eh] Ew]. apply Nat.eqb_eq, nil_length_inv in En. subst fs.
    pose proof (replace_none d (hp_findings p) Ho Eh) as Hn. destruct (replace_own d (hp_findings p) [] Ho Hl) as (_ & _ & Er). rewrite Hn in Er.
    split_and!; [done|done|done|done|done|]. rewrite Es. cbn. rewrite Ej. fold d.
    change (existsb (fun f => drawn_by d f) (values (hp_findings p))) with (held p). by rewrite E.
Qed.

(** C25: Correlating a host is idempotent.  Take a host whose ports have keys of their own
    and whose findings under the correlator's name are all ones it drew, that is, they name
    the platform they were drawn from; a finding under that name that does not (one read
    back from a file without its platforms, say) is folded into by a claim of the same
    identity, and is not covered here.  Each port with a service then holds what others
    found there and what its service comes to, added one by one and so only up to the 256
    findings a port may hold, in place of all the correlator had drawn before; the services
    and the others' findings are as they were; and correlating the host a second time, with
    the same data, changes nothing. *)
Theorem correlating_again_changes_nothing ports ports' : ports_ok ports -> correlate overlay document co ports = Some ports' ->
  correlate overlay document co ports' = Some ports' /\ ports_ok ports' /\
  exists views, mapM (view (cat_pool (co_catalogue co))) (cat_vulnerability (co_catalogue co)) = Some views /\
  Forall2 (fun p p' => port_key p' = port_key p /\ hp_service p' = hp_service p /\ others d (hp_findings p') = others d (hp_findings p) /\
    hp_findings p' = correlated views (host_releases ports) p) ports ports'.
Proof.
  intros Hok Hc. destruct (mapM (view (cat_pool (co_catalogue co))) (cat_vulnerability (co_catalogue co))) as [views|] eqn:Hv;
    [|unfold correlate, judgements in Hc; by rewrite Hv in Hc].
  rewrite (correlate_settles ports views Hv Hok) in Hc. injection Hc as <-. destruct Hok as [Hd Ho].
  set (releases := host_releases ports). set (settle p := settle_port d p (judge_port overlay document co views releases p)).
  assert (forall p, p ∈ ports -> own_claims d (hp_findings p)) as Ho' by by apply Forall_forall.
  assert (ports_ok (settle <$> ports)) as Hok'.
  { split.
    - rewrite <- list_fmap_compose. erewrite list_fmap_ext; [exact Hd|]. intros i p Hp. cbn.
      apply list_elem_of_lookup_2 in Hp. by apply (settle_port_ok views releases p), Ho'.
    - apply Forall_fmap, Forall_forall. intros p Hp. by apply (settle_port_ok views releases p), Ho'. }
  assert (host_releases (settle <$> ports) = releases) as Er.
  { unfold releases, host_releases. f_equal. apply omap_fmap_same.
    intros p Hp. unfold settle. by destruct (settle_port_ok views releases p (Ho' p Hp)) as (_ & -> & _). }
  split_and!; [|done|].
  - rewrite (correlate_settles _ views Hv Hok'), Er. f_equal. rewrite <- list_fmap_compose. apply list_fmap_ext. intros i p Hp.
    apply list_elem_of_lookup_2 in Hp. by apply (settle_port_ok views releases p), Ho'.
  - exists views. split; [done|]. apply Forall2_fmap_r, Forall_Forall2_diag, Forall_forall. intros p Hp.
    by destruct (settle_port_ok views releases p (Ho' p Hp)) as (_ & Hs & Hk & He & Hc & _).
Qed.
End Correlating.

(** ** Examples *)

Definition sample_entry (id title severity affected : string) : Vulnerability :=
  mkDocumentEntry (lit id) (lit title) (lit severity) (lit "apache") (lit "http_server") (lit affected) None None.

Definition sample_views : list Vulnerability :=
  [sample_entry "CVE-2021-0002" "A leak" "medium" "*"; sample_entry "CVE-2021-0001" "A traversal" "critical" ">=2.4.1,<2.4.50"].

Definition sample_catalogue : Catalogue :=
  let '(p, es) := intern_all sample_views in mkCatalogue (lit "test:feed") (mkVersion 1 0 0) (lit "00") p es.

Definition sample_judged : Judged := mkJudged (lit "cpe:/a:apache:http_server:2.4.49") (mkCpe (lit "apache") (lit "http_server") (lit "2.4.49")) None None None.

Definition sample_exploited : KnownExploited := mkKnownExploited (lit "test:kev") (mkVersion 1 0 0) (lit "00") {[ lit "CVE-2021-0001" ]}.


Definition sample_port : HostPort :=
  mkHostPort 80 Tcp (Some (mkService (Some (lit "Apache")) None [lit "cpe:/a:apache:http_server:2.4.49"])) ∅.

Lemma correlating_again_changes_nothing_witness :
  exists p', correlate ∅ [] (mkCorrelator sample_catalogue [] sample_exploited) [sample_port] = Some [p'] /\
  size (hp_findings p') = 2%nat /\ correlate ∅ [] (mkCorrelator sample_catalogue [] sample_exploited) [p'] = Some [p'].
Proof.
  assert ((fun ps : list HostPort => (fun p => size (hp_findings p)) <$> ps) <$> correlate ∅ [] (mkCorrelator sample_catalogue [] sample_exploited) [sample_port] = Some [2%nat]) as Hs
    by (vm_compute; reflexivity).
  assert (ports_ok (mkCorrelator sample_catalogue [] sample_exploited) [sample_port]) as Hok.
  { split; [apply NoDup_singleton|]. constructor; [apply own_claims_empty|constructor]. }
  pose proof (correlating_again_changes_nothing ∅ [] (mkCorrelator sample_catalogue [] sample_exploited) [sample_port]) as H.
  revert Hs H. generalize (correlate ∅ [] (mkCorrelator sample_catalogue [] sample_exploited) [sample_port]). intros [ports'|] Hs H; [|discriminate Hs].
  destruct (H ports' Hok eq_refl) as (Ha & _ & H2). destruct ports' as [|p' [|]]; try discriminate Hs. exists p'. injection Hs as Hs. auto.
Defined.

(** Entries of one identifier are adjacent after the sort only where they state the same
    severity.  Where they do not, the vulnerability is counted twice and cited once. *)
Theorem restated_severity_counts_twice :
  let views := [sample_entry "CVE-2021-0001" "A traversal" "critical" "<2.4.50"; sample_entry "CVE-2021-0003" "A leak" "high" "<2.4.50";
                sample_entry "CVE-2021-0001" "A traversal" "medium" ">=2.4.1"] in
  (fun f => (title f, references f)) <$> jg_findings (judge ∅ [] sample_catalogue views sample_judged [] None) =
  [(lit "http_server 2.4.49 has 3 known vulnerabilities", [Cve (lit "CVE-2021-0001"); Cve (lit "CVE-2021-0003")])].
Proof. vm_compute. reflexivity. Qed.
