(* ===== verification/Guard.v ===== *)
(** * Guards of a detection flow

    [src/src/detect/flow/expr.rs] and [eval.rs].  A step of a flow, or a finding it may
    emit, can be guarded by an expression over the variables bound so far.  The lexer and
    the recursive-descent parser are those of the source; the grammar its comment gives is
    stated as derivations, and the parser is shown to accept exactly the tokens it derives.

    A text is its code points.  The parser's depth counter is the recursion's measure: it
    is counted down from the bound.  The loops over [or] and [and] take as fuel the tokens
    that are left, of which each turn takes at least two. *)

From Stdlib Require Import ZArith Lia String.
From stdpp Require Import base countable numbers sets gmap option list.
From S2P Require Import Prelude Std Text Utf8 Ordering Version.

Local Open Scope Z_scope.

(** ** Definitions *)

Definition MAX_GUARD_DEPTH : nat := 64.

Inductive RelOp := OpEq | OpNe | OpLt | OpLe | OpGt | OpGe.

Inductive Operand := Var (name : text) | TextLit (value : text) | IntLit (value : Z).

Inductive Expr :=
  | Or (left right : Expr)
  | And (left right : Expr)
  | Not (inner : Expr)
  | Matched
  | Bound (name : text)
  | Unbound (name : text)
  | Compare (left : Operand) (op : RelOp) (right : Operand).

(** The names a guard reads. *)
Definition operand_vars (o : Operand) : gset text := match o with Var name => {[ name ]} | _ => ∅ end.

(** [Expr::referenced_vars]. *)
Fixpoint referenced_vars (e : Expr) : gset text :=
  match e with
  | Or a b | And a b => referenced_vars a ∪ referenced_vars b
  | Not inner => referenced_vars inner
  | Matched => ∅
  | Bound name | Unbound name => {[ name ]}
  | Compare a _ b => operand_vars a ∪ operand_vars b
  end.

Fixpoint uses_matched (e : Expr) : bool :=
  match e with
  | Matched => true
  | Or a b | And a b => uses_matched a || uses_matched b
  | Not inner => uses_matched inner
  | Bound _ | Unbound _ | Compare _ _ _ => false
  end.

(** What the parser wanted: the messages of [Expected]. *)
Inductive Wanted := ClosingParen | OpeningParen | VariableName | ComparisonOperator | AnOperand.

Inductive ParseError :=
  | GuardEmpty
  | UnexpectedChar (c : Z)
  | UnterminatedString
  | IntOverflow (digits : text)
  | Expected (what : Wanted)
  | Trailing
  | TooDeep.

(** *** Tokens *)

Inductive Token :=
  | TAnd | TOr | TNot | TMatched | TBound | TUnbound | TLParen | TRParen
  | TOp (op : RelOp)
  | TIdent (name : text)
  | TText (value : text)
  | TInt (value : Z).

#[export] Instance RelOp_eq_dec : EqDecision RelOp.
Proof. solve_decision. Defined.
#[export] Instance Token_eq_dec : EqDecision Token.
Proof. solve_decision. Defined.

Definition keyword (word : text) : Token :=
  if bool_decide (word = lit "and") then TAnd
  else if bool_decide (word = lit "or") then TOr
  else if bool_decide (word = lit "not") then TNot
  else if bool_decide (word = lit "matched") then TMatched
  else if bool_decide (word = lit "bound") then TBound
  else if bool_decide (word = lit "unbound") then TUnbound
  else TIdent word.

(** The characters up to the first that fails the test, and the rest. *)
Fixpoint span_while (pred : Z -> bool) (s : text) : text * text :=
  match s with
  | [] => ([], [])
  | c :: t => if pred c then (let '(a, b) := span_while pred t in (c :: a, b)) else ([], s)
  end.

Definition word_char (c : Z) : bool := is_ascii_alphanumeric c || (c =? 95).

(** The operator that [c] opens, given whether [=] follows. *)
Definition operator (c : Z) (two : bool) : option RelOp :=
  if c =? 60 then Some (if two then OpLe else OpLt)
  else if c =? 62 then Some (if two then OpGe else OpGt)
  else if (c =? 61) && two then Some OpEq
  else if (c =? 33) && two then Some OpNe
  else None.

(** One turn of the loop: the token at the front, if any, and what follows it. *)
Definition lex_one (c : Z) (rest : text) : Result (option Token * text) ParseError :=
  if is_whitespace c then Ok (None, rest)
  else if c =? 40 then Ok (Some TLParen, rest)
  else if c =? 41 then Ok (Some TRParen, rest)
  else if (c =? 60) || (c =? 62) || (c =? 61) || (c =? 33) then
    let two := match rest with c' :: _ => c' =? 61 | [] => false end in
    match operator c two with
    | Some op => Ok (Some (TOp op), if two then tail rest else rest)
    | None => Err (UnexpectedChar c)
    end
  else if (c =? 39) || (c =? 34) then
    let '(value, after) := span_while (fun x => negb (x =? c)) rest in
    match after with
    | [] => Err UnterminatedString
    | _ :: after => Ok (Some (TText value), after)
    end
  else if is_ascii_digit c then
    let '(digits, after) := span_while is_ascii_digit (c :: rest) in
    match parse_uint 63 digits with
    | Ok value => Ok (Some (TInt value), after)
    | Err _ => Err (IntOverflow digits)
    end
  else if is_ascii_alphabetic c || (c =? 95) then
    let '(word, after) := span_while word_char (c :: rest) in
    Ok (Some (keyword word), after)
  else Err (UnexpectedChar c).

Fixpoint lex_loop (fuel : nat) (s : text) (tokens : list Token) : Result (list Token) ParseError :=
  match s, fuel with
  | [], _ => Ok tokens
  | c :: rest, S fuel =>
      let? (token, rest) := lex_one c rest in
      lex_loop fuel rest (tokens ++ match token with Some t => [t] | None => [] end)
  | c :: _, O => Err (UnexpectedChar c)
  end.

Definition lex (input : text) : Result (list Token) ParseError := lex_loop (length input) input [].

(** *** The parser

    The tokens from [pos] on are the state; [advance] past the end stays there. *)

Definition parser (T : Type) : Type := list Token -> Result (T * list Token) ParseError.

Definition eat (expected : Token) (what : Wanted) (ts : list Token) : Result (list Token) ParseError :=
  match ts with
  | t :: rest => if bool_decide (t = expected) then Ok rest else Err (Expected what)
  | [] => Err (Expected what)
  end.

Definition operand : parser Operand := fun ts =>
  match ts with
  | TIdent name :: rest => Ok (Var name, rest)
  | TText value :: rest => Ok (TextLit value, rest)
  | TInt value :: rest => Ok (IntLit value, rest)
  | _ => Err (Expected AnOperand)
  end.

Definition comparison_expr : parser Expr := fun ts =>
  let? (a, rest) := operand ts in
  match rest with
  | TOp op :: rest =>
      let? (b, rest) := operand rest in
      Ok (Compare a op b, rest)
  | _ => Err (Expected ComparisonOperator)
  end.

Definition predicate_arg : parser text := fun ts =>
  let? rest := eat TLParen OpeningParen ts in
  match rest with
  | TIdent name :: rest =>
      let? rest := eat TRParen ClosingParen rest in
      Ok (name, rest)
  | _ => Err (Expected VariableName)
  end.

(** The loops of [or_expr] and [and_expr]: while [sep] is next, another operand. *)
Fixpoint chain (fuel : nat) (sep : Token) (join : Expr -> Expr -> Expr) (item : parser Expr) (a : Expr) (ts : list Token)
    : Result (Expr * list Token) ParseError :=
  match ts, fuel with
  | t :: rest, S fuel =>
      if bool_decide (t = sep) then
        let? (b, rest) := item rest in
        chain fuel sep join item (join a b) rest
      else Ok (a, ts)
  | _, _ => Ok (a, ts)
  end.

Definition chained (sep : Token) (join : Expr -> Expr -> Expr) (item : parser Expr) : parser Expr := fun ts =>
  let? (a, rest) := item ts in
  chain (length rest) sep join item a rest.

(** With [paren] for the expression a parenthesis opens. *)
Definition primary (paren : parser Expr) : parser Expr := fun ts =>
  match ts with
  | TLParen :: rest =>
      let? (inner, rest) := paren rest in
      let? rest := eat TRParen ClosingParen rest in
      Ok (inner, rest)
  | TMatched :: rest => Ok (Matched, rest)
  | TBound :: rest => let? (name, rest) := predicate_arg rest in Ok (Bound name, rest)
  | TUnbound :: rest => let? (name, rest) := predicate_arg rest in Ok (Unbound name, rest)
  | _ => comparison_expr ts
  end.

Definition not_expr (paren : parser Expr) : parser Expr := fun ts =>
  match ts with
  | TNot :: rest => let? (inner, rest) := primary paren rest in Ok (Not inner, rest)
  | _ => primary paren ts
  end.

Definition and_expr (paren : parser Expr) : parser Expr := chained TAnd And (not_expr paren).

(** [levels] is what [MAX_GUARD_DEPTH] leaves of the depth. *)
Fixpoint or_expr (levels : nat) : parser Expr := fun ts =>
  match levels with
  | O => Err TooDeep
  | S levels => chained TOr Or (and_expr (or_expr levels)) ts
  end.

Definition parse_tokens (ts : list Token) : Result Expr ParseError :=
  match ts with
  | [] => Err GuardEmpty
  | _ =>
      let? (e, rest) := or_expr MAX_GUARD_DEPTH ts in
      match rest with [] => Ok e | _ => Err Trailing end
  end.

(** [parse]. *)
Definition parse_guard (input : text) : Result Expr ParseError :=
  let? ts := lex input in
  parse_tokens ts.

(** *** What a guard means *)

Definition Env : Type := gmap text text.

Inductive Value := Number (n : Z) | Text (s : text).

(** [resolve]. *)
Definition resolve_operand (o : Operand) (env : Env) : option Value :=
  match o with
  | IntLit value => Some (Number value)
  | TextLit value => Some (Text value)
  | Var name => Text <$> env !! name
  end.

(** [i64::to_string]; a literal is never negative. *)
Definition value_text (v : Value) : text := match v with Number n => show_uint n | Text s => s end.

Definition value_equals (a b : Value) : bool :=
  match a, b with
  | Number x, Number y => x =? y
  | _, _ => bool_decide (value_text a = value_text b)
  end.

(** [version_cmp] reads the bytes of a text. *)
Definition value_order (a b : Value) : comparison :=
  match a, b with
  | Number x, Number y => x ?= y
  | _, _ => version_cmp (utf8_encode (value_text a)) (utf8_encode (value_text b))
  end.

Definition compare_operands (a : Operand) (op : RelOp) (b : Operand) (env : Env) : bool :=
  match resolve_operand a env, resolve_operand b env with
  | Some a, Some b =>
      match op with
      | OpEq => value_equals a b
      | OpNe => negb (value_equals a b)
      | OpLt => match value_order a b with Lt => true | _ => false end
      | OpLe => match value_order a b with Gt => false | _ => true end
      | OpGt => match value_order a b with Gt => true | _ => false end
      | OpGe => match value_order a b with Lt => false | _ => true end
      end
  | _, _ => false
  end.

Fixpoint eval (e : Expr) (env : Env) (matched : option bool) : bool :=
  match e with
  | Or a b => eval a env matched || eval b env matched
  | And a b => eval a env matched && eval b env matched
  | Not inner => negb (eval inner env matched)
  | Matched => default false matched
  | Bound name => bool_decide (is_Some (env !! name))
  | Unbound name => negb (bool_decide (is_Some (env !! name)))
  | Compare a op b => compare_operands a op b env
  end.

Definition guard_holds (when_ : option text) (env : Env) (matched : option bool) : bool :=
  match when_ with
  | None => true
  | Some source =>
      match parse_guard source with
      | Ok e => eval e env matched
      | Err _ => false
      end
  end.

Example guard_reads :
  parse_guard (lit "bound(version) and not version < '2.10' or matched") =
    Ok (Or (And (Bound (lit "version")) (Not (Compare (Var (lit "version")) OpLt (TextLit (lit "2.10"))))) Matched).
Proof. reflexivity. Qed.

(** ** The grammar *)

(** [{ ident | string | int }]. *)
Inductive operand_of : list Token -> Operand -> Prop :=
  | operand_ident name : operand_of [TIdent name] (Var name)
  | operand_text value : operand_of [TText value] (TextLit value)
  | operand_int value : operand_of [TInt value] (IntLit value).

(** [primary = "(" expr ")" | predicate | comparison], with [E] for [expr]. *)
Inductive primary_of (E : list Token -> Expr -> Prop) : list Token -> Expr -> Prop :=
  | primary_paren ts e : E ts e -> primary_of E (TLParen :: ts ++ [TRParen]) e
  | primary_matched : primary_of E [TMatched] Matched
  | primary_bound name : primary_of E [TBound; TLParen; TIdent name; TRParen] (Bound name)
  | primary_unbound name : primary_of E [TUnbound; TLParen; TIdent name; TRParen] (Unbound name)
  | primary_compare ts a op us b :
      operand_of ts a -> operand_of us b -> primary_of E (ts ++ TOp op :: us) (Compare a op b).

(** [not-expr = [ "not" ] primary]. *)
Inductive not_of (E : list Token -> Expr -> Prop) : list Token -> Expr -> Prop :=
  | not_plain ts e : primary_of E ts e -> not_of E ts e
  | not_negated ts e : primary_of E ts e -> not_of E (TNot :: ts) (Not e).

(** [item { sep item }], grouped to the left. *)
Inductive chain_of (sep : Token) (join : Expr -> Expr -> Expr) (I : list Token -> Expr -> Prop) : list Token -> Expr -> Prop :=
  | chain_one ts e : I ts e -> chain_of sep join I ts e
  | chain_more ts a us b : chain_of sep join I ts a -> I us b -> chain_of sep join I (ts ++ sep :: us) (join a b).

(** [expr] in [levels] levels: with at most [levels - 1] parentheses one within another, the
    innermost within [levels - 2]. *)
Fixpoint guard_of (levels : nat) : list Token -> Expr -> Prop :=
  match levels with
  | O => fun _ _ => False
  | S levels => chain_of TOr Or (chain_of TAnd And (not_of (guard_of levels)))
  end.

(** A parser takes from the front what the grammar derives; and takes it where what
    follows is not more of the same. *)
Definition sound {T} (p : parser T) (D : list Token -> T -> Prop) : Prop :=
  forall ts x rest, p ts = Ok (x, rest) -> exists used, ts = used ++ rest /\ used <> [] /\ D used x.

Definition complete {T} (follow : list Token -> Prop) (p : parser T) (D : list Token -> T -> Prop) : Prop :=
  forall used x rest, D used x -> follow rest -> p (used ++ rest) = Ok (x, rest).

Definition not_next (t : Token) (rest : list Token) : Prop := head rest <> Some t.

(** Takes apart a chain of fallible steps that succeeded. *)
Ltac inv_ok H :=
  unfold try_ in H;
  repeat match type of H with
  | match ?r with Ok _ => _ | Err _ => _ end = Ok _ => let E := fresh "E" in destruct r as [?|?] eqn:E; [|done]
  | match ?p with pair _ _ => _ end = Ok _ => destruct p
  | (let '(_, _) := ?p in _) = Ok _ => destruct p
  | Ok _ = Ok _ => injection H as H; subst
  | Err _ = Ok _ => done
  end.

Lemma eat_ok expected what ts rest : eat expected what ts = Ok rest <-> ts = expected :: rest.
Proof. destruct ts as [|t ts]; cbn; [done|]. case_bool_decide; naive_solver. Qed.

Lemma operand_sound : sound operand operand_of.
Proof.
  intros ts x rest Hp. destruct ts as [|[] ts]; try done; injection Hp as <- <-; eexists [_]; (split_and!; [done|done|constructor]).
Qed.

Lemma operand_complete : complete (fun _ => True) operand operand_of.
Proof. intros used x rest [] _; done. Qed.

Lemma predicate_arg_ok ts name rest : predicate_arg ts = Ok (name, rest) <-> ts = TLParen :: TIdent name :: TRParen :: rest.
Proof.
  unfold predicate_arg. split.
  - intros Hp. unfold try_ in Hp. destruct (eat TLParen OpeningParen ts) as [l|] eqn:E; [|done]. apply eat_ok in E as ->.
    destruct l as [|[] l]; try done. destruct (eat TRParen ClosingParen l) as [r|] eqn:E; [|done]. apply eat_ok in E as ->. by simplify_eq.
  - by intros ->.
Qed.

Lemma primary_sound paren D : sound paren D -> sound (primary paren) (primary_of D).
Proof.
  intros Hparen ts x rest Hp.
  assert (comparison_expr ts = Ok (x, rest) -> exists used, ts = used ++ rest /\ used <> [] /\ primary_of D used x) as Hcmp.
  { unfold comparison_expr, try_. destruct (operand ts) as [[a r1]|] eqn:E1; [|done]. destruct r1 as [|[] r1]; try done.
    destruct (operand r1) as [[b r2]|] eqn:E2; [|done]. intros [= <- <-].
    apply operand_sound in E1 as (u1 & -> & N1 & D1). apply operand_sound in E2 as (u2 & -> & N2 & D2).
    exists (u1 ++ TOp op :: u2). rewrite <- app_assoc. split_and!; [done|by destruct u1|by constructor]. }
  destruct ts as [|[] ts]; cbn in Hp; try (by apply Hcmp); unfold try_ in Hp.
  - injection Hp as <- <-. exists [TMatched]. split_and!; [done|done|constructor].
  - destruct (predicate_arg ts) as [[name r]|] eqn:E; [|done]. injection Hp as <- <-. apply predicate_arg_ok in E as ->.
    exists [TBound; TLParen; TIdent name; TRParen]. split_and!; [done|done|constructor].
  - destruct (predicate_arg ts) as [[name r]|] eqn:E; [|done]. injection Hp as <- <-. apply predicate_arg_ok in E as ->.
    exists [TUnbound; TLParen; TIdent name; TRParen]. split_and!; [done|done|constructor].
  - destruct (paren ts) as [[e r]|] eqn:E; [|done]. destruct (eat TRParen ClosingParen r) as [r'|] eqn:E'; [|done]. injection Hp as <- <-.
    apply eat_ok in E' as ->. apply Hparen in E as (used & -> & _ & He). exists (TLParen :: used ++ [TRParen]).
    split_and!; [cbn [app]; by rewrite <- app_assoc|done|by constructor].
Qed.

Lemma primary_complete paren D :
  complete (fun rest => not_next TOr rest /\ not_next TAnd rest) paren D -> complete (fun _ => True) (primary paren) (primary_of D).
Proof.
  intros Hparen used x rest Hd _. destruct Hd as [ts e He| |name|name|ts a op us b Ha Hb].
  - cbn [app]. unfold primary. rewrite <- app_assoc, (Hparen ts e ([TRParen] ++ rest)) by done. done.
  - done.
  - done.
  - done.
  - rewrite <- app_assoc. cbn [app].
    assert (comparison_expr (ts ++ TOp op :: us ++ rest) = Ok (Compare a op b, rest)) as Hc.
    { unfold comparison_expr. rewrite (operand_complete ts a _ Ha I). cbn. by rewrite (operand_complete us b _ Hb I). }
    by destruct Ha.
Qed.

Lemma not_sound paren D : sound paren D -> sound (not_expr paren) (not_of D).
Proof.
  intros Hparen ts x rest Hp. destruct (decide (head ts = Some TNot)) as [Hn|Hn].
  - destruct ts as [|t ts]; [done|]. injection Hn as ->. cbn in Hp. unfold try_ in Hp.
    destruct (primary paren ts) as [[e r]|] eqn:E; [|done]. injection Hp as <- <-.
    apply (primary_sound paren D Hparen) in E as (used & -> & _ & He). exists (TNot :: used). split_and!; [done|done|by constructor].
  - assert (not_expr paren ts = primary paren ts) as E by (destruct ts as [|[] ts]; done). rewrite E in Hp.
    apply (primary_sound paren D Hparen) in Hp as (used & -> & Hne & He). exists used. split_and!; [done|done|by constructor].
Qed.

Lemma not_complete paren D :
  complete (fun rest => not_next TOr rest /\ not_next TAnd rest) paren D -> complete (fun _ => True) (not_expr paren) (not_of D).
Proof.
  intros Hparen used x rest Hd _. destruct Hd as [ts e He|ts e He].
  - pose proof (primary_complete paren D Hparen ts e rest He I) as Hp.
    assert (not_expr paren (ts ++ rest) = primary paren (ts ++ rest)) as ->; [|done].
    destruct He as [| | | |? ? ? ? ? []]; done.
  - cbn. by rewrite (primary_complete paren D Hparen ts e rest He I).
Qed.

(** ** The parser accepts what the grammar derives *)

Section Chain.
Context (sep : Token) (join : Expr -> Expr -> Expr) (item : parser Expr) (D : list Token -> Expr -> Prop).
Context (follow : list Token -> Prop).

Lemma chain_sound fuel e ts x rest :
  sound item D -> chain fuel sep join item e ts = Ok (x, rest) ->
  exists used, ts = used ++ rest /\ forall front, chain_of sep join D front e -> chain_of sep join D (front ++ used) x.
Proof.
  intros Hitem. revert e ts. induction fuel as [|fuel IH]; intros e ts Hp.
  { destruct ts; injection Hp as <- <-; exists []; (split; [done|]); intros; by rewrite app_nil_r. }
  destruct ts as [|t ts]; cbn in Hp; [injection Hp as <- <-; exists []; split; [done|]; intros; by rewrite app_nil_r|].
  case_bool_decide as Ht; [|injection Hp as <- <-; exists []; split; [done|]; intros; by rewrite app_nil_r].
  unfold try_ in Hp. destruct (item ts) as [[b r]|] eqn:E; [|done]. apply Hitem in E as (u1 & -> & _ & Hb).
  apply IH in Hp as (u2 & -> & Hu). exists (sep :: u1 ++ u2). subst. split; [cbn; by rewrite <- app_assoc|].
  intros front Hf. specialize (Hu (front ++ sep :: u1)). rewrite <- app_assoc in Hu. apply Hu. by constructor.
Qed.

Lemma chained_sound : sound item D -> sound (chained sep join item) (chain_of sep join D).
Proof.
  intros Hitem ts x rest Hp. unfold chained, try_ in Hp. destruct (item ts) as [[e r]|] eqn:E; [|done].
  apply Hitem in E as (u1 & -> & Hne & He). apply chain_sound in Hp as (u2 & -> & Hu); [|done].
  exists (u1 ++ u2). rewrite <- app_assoc. split_and!; [done|by destruct u1|]. apply Hu. by constructor.
Qed.

(** More fuel than tokens changes nothing. *)
Lemma chain_fuel fuel fuel' e ts :
  sound item D -> (length ts <= fuel)%nat -> (length ts <= fuel')%nat ->
  chain fuel sep join item e ts = chain fuel' sep join item e ts.
Proof.
  intros Hitem. revert fuel' e ts. induction fuel as [|fuel IH]; intros fuel' e ts H1 H2.
  { destruct ts; [by destruct fuel'|cbn in H1; lia]. }
  destruct ts as [|t ts]; [by destruct fuel'|]. destruct fuel' as [|fuel']; [cbn in H2; lia|]. cbn.
  case_bool_decide; [|done]. unfold try_. destruct (item ts) as [[b r]|] eqn:E; [|done].
  apply Hitem in E as (u & -> & _ & _). cbn in H1, H2. rewrite length_app in *. apply IH; lia.
Qed.

(** What is derived is read, and the loop goes on from there. *)
Lemma chained_continues used e rest :
  sound item D -> complete follow item D -> (forall r, follow (sep :: r)) -> chain_of sep join D used e -> follow rest ->
  chained sep join item (used ++ rest) = chain (length rest) sep join item e rest.
Proof.
  intros Hs Hc Hsep Hd. revert rest. induction Hd as [ts e He|ts a us b Ha IH Hb]; intros rest Hf.
  { unfold chained. by rewrite (Hc ts e rest He Hf). }
  rewrite <- app_assoc. cbn [app]. rewrite IH by apply Hsep. cbn [length chain]. rewrite bool_decide_true by done.
  rewrite (Hc us b rest Hb Hf). cbn. apply chain_fuel; [done| |lia]. rewrite length_app. lia.
Qed.

Lemma chained_complete :
  sound item D -> complete follow item D -> (forall r, follow (sep :: r)) ->
  complete (fun rest => not_next sep rest /\ follow rest) (chained sep join item) (chain_of sep join D).
Proof.
  intros Hs Hc Hsep used x rest Hd [Hn Hf]. rewrite (chained_continues used x rest) by done.
  destruct rest as [|t rest]; [done|]. cbn. rewrite bool_decide_false; [done|]. intros ->. by apply Hn.
Qed.
End Chain.

Lemma or_expr_sound levels : sound (or_expr levels) (guard_of levels).
Proof. induction levels as [|levels IH]; [by intros ???|]. by apply chained_sound, chained_sound, not_sound. Qed.

Lemma or_expr_complete levels : complete (fun rest => not_next TOr rest /\ not_next TAnd rest) (or_expr levels) (guard_of levels).
Proof.
  induction levels as [|levels IH]; [by intros ???|].
  assert (complete (fun rest => not_next TAnd rest /\ True) (and_expr (or_expr levels)) (chain_of TAnd And (not_of (guard_of levels)))) as Hand.
  { apply chained_complete; [apply not_sound, or_expr_sound|by apply not_complete|done]. }
  intros used x rest Hd [H1 H2]. refine (chained_complete TOr Or _ _ _ _ Hand _ used x rest Hd _).
  - apply chained_sound, not_sound, or_expr_sound.
  - done.
  - done.
Qed.

Lemma parse_tokens_ok ts e : parse_tokens ts = Ok e <-> guard_of MAX_GUARD_DEPTH ts e.
Proof.
  unfold parse_tokens. split.
  - destruct ts as [|t ts]; [done|]. unfold try_. destruct (or_expr MAX_GUARD_DEPTH (t :: ts)) as [[x rest]|] eqn:E; [|done].
    destruct rest; [|done]. intros [= ->]. apply or_expr_sound in E as (used & Eu & _ & Hd). rewrite app_nil_r in Eu. by rewrite Eu.
  - intros Hd. pose proof (or_expr_complete MAX_GUARD_DEPTH ts e [] Hd) as Hp. rewrite app_nil_r in Hp. rewrite Hp by done.
    destruct ts; [|done]. pose proof (or_expr_complete MAX_GUARD_DEPTH [] e [] Hd ltac:(done)) as Hbad. done.
Qed.

(** ** The lexer *)

Lemma span_while_app pred s : let '(a, b) := span_while pred s in s = a ++ b.
Proof. induction s as [|c s IH]; [done|]. cbn. destruct (pred c); [|done]. destruct (span_while pred s) as [a b]. cbn. by rewrite IH. Qed.

Lemma span_while_all pred a b :
  Forall (fun c => pred c = true) a -> match b with c :: _ => pred c = false | [] => True end -> span_while pred (a ++ b) = (a, b).
Proof.
  induction 1 as [|c a Hc _ IH]; intros Hb; cbn.
  - destruct b as [|c b]; [done|]. cbn. by rewrite Hb.
  - rewrite Hc. by rewrite IH.
Qed.

Lemma lex_one_shrinks c rest token after : lex_one c rest = Ok (token, after) -> (length after <= length rest)%nat.
Proof.
  unfold lex_one. intros Hl.
  assert (forall pred s a b, span_while pred s = (a, b) -> (length b <= length s)%nat) as Hspan.
  { intros pred s a b E. pose proof (span_while_app pred s) as H. rewrite E in H. subst. rewrite length_app. lia. }
  repeat match type of Hl with
  | (if ?x then _ else _) = Ok _ => destruct x eqn:?
  end; try done; try (injection Hl as <- <-; lia).
  - destruct (operator c _); [|done]. injection Hl as <- <-. destruct rest as [|c' rest]; [done|]. destruct (c' =? 61); cbn; lia.
  - destruct (span_while _ rest) as [a b] eqn:E. apply Hspan in E. destruct b; [done|]. injection Hl as <- <-. cbn in E. lia.
  - cbn in Hl. match goal with H : is_ascii_digit c = true |- _ => rewrite H in Hl end. destruct (span_while is_ascii_digit rest) as [a b] eqn:E. apply Hspan in E.
    destruct (parse_uint _ _); [|done]. by injection Hl as <- <-.
  - assert (word_char c = true) as Hw by (unfold word_char, is_ascii_alphanumeric; destruct (is_ascii_alphabetic c); [done|]; cbn in *; lia).
    cbn in Hl. rewrite Hw in Hl. destruct (span_while word_char rest) as [a b] eqn:E. apply Hspan in E. by injection Hl as <- <-.
Qed.

Lemma lex_loop_fuel fuel fuel' s tokens :
  (length s <= fuel)%nat -> (length s <= fuel')%nat -> lex_loop fuel s tokens = lex_loop fuel' s tokens.
Proof.
  revert fuel' s tokens. induction fuel as [|fuel IH]; intros fuel' s tokens H1 H2.
  { destruct s; [by destruct fuel'|cbn in H1; lia]. }
  destruct s as [|c s]; [by destruct fuel'|]. destruct fuel' as [|fuel']; [cbn in H2; lia|]. cbn. unfold try_.
  destruct (lex_one c s) as [[t r]|] eqn:E; [|done]. apply lex_one_shrinks in E. cbn in H1, H2. apply IH; lia.
Qed.

(** [lex] from tokens already read. *)
Definition lex_from (s : text) (tokens : list Token) : Result (list Token) ParseError := lex_loop (length s) s tokens.

Lemma lex_from_step c rest tokens token after :
  lex_one c rest = Ok (token, after) ->
  lex_from (c :: rest) tokens = lex_from after (tokens ++ match token with Some t => [t] | None => [] end).
Proof.
  intros E. unfold lex_from. cbn. rewrite E. cbn. apply lex_loop_fuel; [|done]. by apply lex_one_shrinks in E.
Qed.

(** A token as it is written, the quote of a string one it does not hold. *)
Definition show_op (op : RelOp) : text :=
  match op with
  | OpEq => lit "==" | OpNe => lit "!=" | OpLt => lit "<" | OpLe => lit "<=" | OpGt => lit ">" | OpGe => lit ">="
  end.

Definition quote_of (value : text) : Z := if bool_decide (39 ∈ value) then 34 else 39.

Definition show_token (t : Token) : text :=
  match t with
  | TAnd => lit "and" | TOr => lit "or" | TNot => lit "not" | TMatched => lit "matched" | TBound => lit "bound"
  | TUnbound => lit "unbound" | TLParen => lit "(" | TRParen => lit ")"
  | TOp op => show_op op
  | TIdent name => name
  | TText value => quote_of value :: value ++ [quote_of value]
  | TInt value => show_uint value
  end.

(** A name a flow may bind, a string some quote can hold, an [i64] from zero up. *)
Definition is_name (name : text) : bool :=
  match name with
  | [] => false
  | c :: rest => (is_ascii_alphabetic c || (c =? 95)) && forallb word_char rest && bool_decide (keyword name = TIdent name)
  end.

Definition token_ok (t : Token) : bool :=
  match t with
  | TIdent name => is_name name
  | TText value => negb (bool_decide (39 ∈ value)) || negb (bool_decide (34 ∈ value))
  | TInt value => fitsb 63 value
  | _ => true
  end.

Lemma forallb_Forall {A} (pred : A -> bool) l : forallb pred l = true <-> Forall (fun x => pred x = true) l.
Proof. rewrite forallb_forall, Forall_forall. by setoid_rewrite list_elem_of_In. Qed.

(** The tests of the lexer a character fails, from its range. *)
Ltac not_special :=
  unfold is_whitespace, is_ascii_alphabetic, is_ascii_digit, in_range in *; lia.

Lemma lex_word c word rest :
  is_ascii_alphabetic c || (c =? 95) = true -> forallb word_char word = true ->
  lex_one c (word ++ 32 :: rest) = Ok (Some (keyword (c :: word)), 32 :: rest).
Proof.
  intros Hc Hw. unfold lex_one.
  assert (is_whitespace c = false) as -> by not_special. assert ((c =? 40) = false) as -> by not_special.
  assert ((c =? 41) = false) as -> by not_special. assert ((c =? 60) || (c =? 62) || (c =? 61) || (c =? 33) = false) as -> by not_special.
  assert ((c =? 39) || (c =? 34) = false) as -> by not_special. assert (is_ascii_digit c = false) as -> by not_special. rewrite Hc.
  assert (span_while word_char ((c :: word) ++ 32 :: rest) = (c :: word, 32 :: rest)) as Hs.
  { apply span_while_all; [|done]. constructor; [unfold word_char, is_ascii_alphanumeric; not_special|]. by apply forallb_Forall. }
  cbn [app] in Hs. by rewrite Hs.
Qed.

Lemma lex_digits n rest :
  fits 63 n -> exists c digits, show_uint n = c :: digits /\ lex_one c (digits ++ 32 :: rest) = Ok (Some (TInt n), 32 :: rest).
Proof.
  intros Hn. assert (0 <= n) by (unfold fits in Hn; lia). pose proof (show_uint_digits n ltac:(done)) as Hd.
  pose proof (parse_show_uint 63 n ltac:(lia) Hn) as Hp. destruct (show_uint n) as [|c digits] eqn:E; [by apply show_uint_nonempty in E|].
  exists c, digits. split; [done|]. pose proof Hd as Hd'. apply Forall_cons in Hd' as [Hc _]. unfold lex_one.
  assert (is_whitespace c = false) as -> by not_special. assert ((c =? 40) = false) as -> by not_special.
  assert ((c =? 41) = false) as -> by not_special. assert ((c =? 60) || (c =? 62) || (c =? 61) || (c =? 33) = false) as -> by not_special.
  assert ((c =? 39) || (c =? 34) = false) as -> by not_special. rewrite Hc.
  pose proof (span_while_all is_ascii_digit (c :: digits) (32 :: rest) Hd ltac:(done)) as Hs. cbn [app] in Hs. by rewrite Hs, Hp.
Qed.

Lemma lex_string value rest :
  token_ok (TText value) = true ->
  lex_one (quote_of value) (value ++ quote_of value :: 32 :: rest) = Ok (Some (TText value), 32 :: rest).
Proof.
  intros Hv. unfold lex_one. set (q := quote_of value).
  assert (Forall (fun c => negb (c =? q) = true) value /\ (q = 39 \/ q = 34)) as [Hall Hq].
  { unfold q, quote_of. cbn in Hv. case_bool_decide as H39; (split; [|by auto]); apply Forall_forall; intros c Hc;
      apply negb_true_iff, Z.eqb_neq; intros ->; [|done]. by rewrite bool_decide_true in Hv. }
  assert (is_whitespace q = false) as -> by (unfold is_whitespace, in_range; lia).
  assert ((q =? 40) = false) as -> by lia. assert ((q =? 41) = false) as -> by lia.
  assert ((q =? 60) || (q =? 62) || (q =? 61) || (q =? 33) = false) as -> by lia. assert ((q =? 39) || (q =? 34) = true) as -> by lia.
  rewrite (span_while_all _ value (q :: 32 :: rest)); [done|done|]. by rewrite Z.eqb_refl.
Qed.

(** A token written and a space are read as the token. *)
Lemma lex_token t rest tokens :
  token_ok t = true -> lex_from (show_token t ++ 32 :: rest) tokens = lex_from rest (tokens ++ [t]).
Proof.
  intros Ht.
  assert (exists c after, show_token t = c :: after /\ lex_one c (after ++ 32 :: rest) = Ok (Some t, 32 :: rest)) as (c & after & -> & E).
  { destruct t as [| | | | | | | |op|name|value|n]; cbn [show_token]; try (eexists _, _; split; [reflexivity|reflexivity]).
    - destruct op; eexists _, _; (split; [reflexivity|reflexivity]).
    - cbn in Ht. destruct name as [|c name]; [done|]. cbn in Ht. apply andb_true_iff in Ht as [[Hc Hn]%andb_true_iff Hk].
      exists c, name. split; [done|]. rewrite lex_word by done. apply bool_decide_eq_true in Hk. by rewrite Hk.
    - exists (quote_of value), (value ++ [quote_of value]). split; [done|]. rewrite <- app_assoc. by apply lex_string.
    - apply lex_digits. by apply fitsb_spec. }
  cbn [app]. rewrite (lex_from_step _ _ _ _ _ E), (lex_from_step 32 rest _ None rest) by done. by rewrite app_nil_r.
Qed.

Definition show_tokens (ts : list Token) : text := ts ≫= fun t => show_token t ++ [32].

Lemma lex_tokens ts tokens : Forall (fun t => token_ok t = true) ts -> lex_from (show_tokens ts) tokens = Ok (tokens ++ ts).
Proof.
  intros Hts. revert tokens. induction Hts as [|t ts Ht Hts IH]; intros tokens; [cbn; by rewrite app_nil_r|].
  unfold show_tokens in *. cbn [mbind list_bind]. rewrite <- app_assoc. cbn [app]. rewrite lex_token by done. rewrite IH.
  by rewrite <- app_assoc.
Qed.

(** ** Guards written out *)

Definition operand_token (o : Operand) : Token := match o with Var name => TIdent name | TextLit value => TText value | IntLit value => TInt value end.

Definition paren (ts : list Token) : list Token := TLParen :: ts ++ [TRParen].

Fixpoint tokens_of (e : Expr) : list Token :=
  match e with
  | Or a b => paren (tokens_of a) ++ TOr :: paren (tokens_of b)
  | And a b => paren (tokens_of a) ++ TAnd :: paren (tokens_of b)
  | Not a => TNot :: paren (tokens_of a)
  | Matched => [TMatched]
  | Bound name => [TBound; TLParen; TIdent name; TRParen]
  | Unbound name => [TUnbound; TLParen; TIdent name; TRParen]
  | Compare a op b => [operand_token a; TOp op; operand_token b]
  end.

Fixpoint nesting (e : Expr) : nat :=
  match e with
  | Or a b | And a b => S (Nat.max (nesting a) (nesting b))
  | Not a => S (nesting a)
  | _ => O
  end.

Definition expr_ok (e : Expr) : Prop := Forall (fun t => token_ok t = true) (tokens_of e).

Lemma chain_single sep join (D : list Token -> Expr -> Prop) ts e : D ts e -> chain_of sep join D ts e.
Proof. by constructor. Qed.

(** A primary is an expression. *)
Lemma guard_of_primary levels ts e : primary_of (guard_of levels) ts e -> guard_of (S levels) ts e.
Proof. intros Hp. by do 3 constructor. Qed.

Lemma primary_guard levels ts e : guard_of levels ts e -> primary_of (guard_of levels) (paren ts) e.
Proof. by constructor. Qed.

Lemma tokens_of_derived levels e : (nesting e < levels)%nat -> guard_of levels (tokens_of e) e.
Proof.
  revert levels. induction e as [a IHa b IHb|a IHa b IHb|a IHa| |name|name|a op b]; intros [|levels] Hn; cbn [nesting tokens_of] in *; try lia.
  - apply chain_more; [apply chain_one|]; apply chain_one, not_plain, primary_guard; [apply IHa|apply IHb]; lia.
  - apply chain_one. apply chain_more; [apply chain_one|]; apply not_plain, primary_guard; [apply IHa|apply IHb]; lia.
  - apply chain_one, chain_one, not_negated, primary_guard, IHa. lia.
  - apply guard_of_primary. constructor.
  - apply guard_of_primary. constructor.
  - apply guard_of_primary. constructor.
  - apply guard_of_primary. apply (primary_compare _ [operand_token a] a op [operand_token b] b); [by destruct a; constructor|by destruct b; constructor].
Qed.

Definition show_guard (e : Expr) : text := show_tokens (tokens_of e).

(** ** Properties *)

(** C8: the parser of guards is the grammar its documentation gives, to a depth.  A text is
    read as an expression exactly when its tokens derive that expression in sixty-four
    levels, of which the guard itself is the first and each parenthesis within the last one
    the next: sixty-three parentheses may nest and a sixty-fourth is refused, one fewer than
    the sixty-four the documentation of the bound and its error message give.  So no text
    has two readings, and none that the grammar gives one in those levels is refused. *)
Theorem guard_grammar (input : text) (e : Expr) :
  parse_guard input = Ok e <-> exists ts, lex input = Ok ts /\ guard_of MAX_GUARD_DEPTH ts e.
Proof.
  unfold parse_guard, try_. split.
  - destruct (lex input) as [ts|]; [|done]. intros Hp%parse_tokens_ok. by exists ts.
  - intros (ts & -> & Hd). by apply parse_tokens_ok.
Qed.

Definition nested_guard (n : nat) : text := repeat 40 n ++ lit "matched" ++ repeat 41 n.

(** The deepest parentheses that are read, and the first that are not. *)
Theorem sixty_four_parentheses_are_refused :
  parse_guard (nested_guard 63) = Ok Matched /\ parse_guard (nested_guard MAX_GUARD_DEPTH) = Err TooDeep.
Proof. split; vm_compute; reflexivity. Qed.

(** Every guard can be written.  An expression over names a flow may bind, strings
    that one of the quotes can hold and numbers of an [i64], nested at most sixty-three
    deep, is read back from the text that writes it out with parentheses. *)
Theorem guard_reads_back (e : Expr) :
  expr_ok e -> (nesting e < MAX_GUARD_DEPTH)%nat -> parse_guard (show_guard e) = Ok e.
Proof.
  intros He Hn. unfold parse_guard. pose proof (lex_tokens (tokens_of e) [] He) as Hl. unfold lex_from in Hl. unfold lex, show_guard.
  rewrite Hl. cbn [app try_]. by apply parse_tokens_ok, tokens_of_derived.
Qed.

Lemma guard_reads_back_witness :
  let e := And (Not (Or (Bound (lit "v")) Matched)) (Compare (Var (lit "v")) OpLe (TextLit (lit "it's"))) in
  parse_guard (show_guard e) = Ok e.
Proof.
  intros e. apply guard_reads_back; [|cbn; unfold MAX_GUARD_DEPTH; lia]. apply (bool_decide_unpack _). vm_compute. exact I.
Defined.

Lemma eval_agrees (e : Expr) (env env' : Env) (matched matched' : option bool) :
  (forall name, name ∈ referenced_vars e -> env !! name = env' !! name) -> (uses_matched e = true -> matched = matched') ->
  eval e env matched = eval e env' matched'.
Proof.
  intros Hv Hm. induction e as [a IHa b IHb|a IHa b IHb|a IHa| |name|name|a op b]; cbn - [union] in *.
  - rewrite orb_true_iff in Hm. rewrite IHa, IHb; [done|set_solver|tauto|set_solver|tauto].
  - rewrite orb_true_iff in Hm. rewrite IHa, IHb; [done|set_solver|tauto|set_solver|tauto].
  - by rewrite IHa.
  - by rewrite Hm.
  - by rewrite Hv by set_solver.
  - by rewrite Hv by set_solver.
  - assert (forall o, (forall name, name ∈ operand_vars o -> name ∈ operand_vars a ∪ operand_vars b) -> resolve_operand o env = resolve_operand o env') as Hr.
    { intros [name|?|?] Ho; cbn; [|done..]. rewrite Hv; [done|]. apply Ho. cbn. set_solver. }
    unfold compare_operands. rewrite !Hr by set_solver. done.
Qed.

(** A guard reads the variables it names and nothing else.  In environments that
    agree on those, and with one result of the match where the guard reads it, it holds
    in both or in neither; and a comparison on a variable that is not bound does not
    hold. *)
Theorem guard_reads_its_variables (e : Expr) (env env' : Env) (matched matched' : option bool) :
  (forall name, name ∈ referenced_vars e -> env !! name = env' !! name) ->
  (uses_matched e = true -> matched = matched') ->
  eval e env matched = eval e env' matched' /\
  (forall a op b name, e = Compare a op b -> a = Var name \/ b = Var name -> env !! name = None -> eval e env matched = false).
Proof.
  intros Hv Hm. split; [by apply eval_agrees|].
  intros a op b name -> Hab Hnone. cbn. unfold compare_operands. destruct Hab as [->| ->]; cbn; rewrite Hnone; cbn; [done|].
  by destruct (resolve_operand a env).
Qed.

Lemma guard_reads_its_variables_witness :
  let e := And (Bound (lit "v")) (Compare (Var (lit "v")) OpLt (TextLit (lit "2.10"))) in
  eval e {[ lit "v" := lit "2.9"; lit "x" := lit "1" ]} (Some true) = eval e {[ lit "v" := lit "2.9" ]} None /\
  eval e {[ lit "v" := lit "2.9" ]} None = true.
Proof.
  intros e. split; [|vm_compute; reflexivity].
  refine (proj1 (guard_reads_its_variables e {[ lit "v" := lit "2.9"; lit "x" := lit "1" ]} {[ lit "v" := lit "2.9" ]} (Some true) None _ _)).
  - intros name Hname. assert (name = lit "v") as ->; [|vm_compute; reflexivity]. unfold e in Hname. cbn - [union] in Hname. set_solver.
  - vm_compute. discriminate.
Defined.
