(* ===== verification/Template.v ===== *)
(** * Templates and payloads of a detection flow

    [interpolate] of [src/src/detect/flow/interp.rs], [template_vars] of [validate.rs] and
    [unescape] of [src/src/fingerprint/signature.rs].  A template is filled in from the
    variables bound so far, and the text that results is decoded into the bytes to send.
    The validator reads a template with a loop of its own; the two are shown to agree.

    The loops take the length of the template as fuel: each turn takes a brace at least. *)

From Stdlib Require Import ZArith Lia String.
From stdpp Require Import base countable numbers sets gmap option list.
From S2P Require Import Prelude Std Text Utf8 AddrText Guard.

Local Open Scope Z_scope.

(** ** Definitions *)

Definition LBRACE : Z := 123.
Definition RBRACE : Z := 125.
Definition BACKSLASH : Z := 92.

(** [rest.find(['{', '}'])]: what is before the brace, the brace and what follows. *)
Fixpoint find_brace (s : text) : option (text * Z * text) :=
  match s with
  | [] => None
  | c :: t =>
      if (c =? LBRACE) || (c =? RBRACE) then Some ([], c, t)
      else match find_brace t with Some (a, b, r) => Some (c :: a, b, r) | None => None end
  end.

(** [after.as_bytes().first() == Some(&this)]. *)
Definition doubled (this : Z) (after : text) : bool := match after with c :: _ => c =? this | [] => false end.

(** The loop of [interpolate]. *)
Fixpoint interpolate_loop (fuel : nat) (out rest : text) (env : Env) : option text :=
  match fuel with
  | O => None
  | S fuel =>
      match find_brace rest with
      | None => Some (out ++ rest)
      | Some (before, this, after) =>
          let out := out ++ before in
          if doubled this after then interpolate_loop fuel (out ++ [this]) (tail after) env
          else if this =? LBRACE then
            match split_once (Z.eqb RBRACE) after with
            | None => None
            | Some (name, rest) =>
                match env !! name with
                | None => None
                | Some value => interpolate_loop fuel (out ++ value) rest env
                end
            end
          else interpolate_loop fuel (out ++ [RBRACE]) after env
      end
  end.

Definition interpolate (template : text) (env : Env) : option text := interpolate_loop (S (length template)) [] template env.

(** The loop of [template_vars]. *)
Fixpoint template_vars_loop (fuel : nat) (vars : list text) (rest : text) : list text :=
  match fuel with
  | O => vars
  | S fuel =>
      match find_brace rest with
      | None => vars
      | Some (_, this, after) =>
          if doubled this after then template_vars_loop fuel vars (tail after)
          else if this =? LBRACE then
            match split_once (Z.eqb RBRACE) after with
            | None => vars
            | Some (name, rest) => template_vars_loop fuel (vars ++ [name]) rest
            end
          else template_vars_loop fuel vars after
      end
  end.

Definition template_vars (template : text) : list text := template_vars_loop (S (length template)) [] template.

(** [unescape]. *)
Fixpoint unescape (payload : text) : list Z :=
  match payload with
  | [] => []
  | c :: rest =>
      if negb (c =? BACKSLASH) then encode_char c ++ unescape rest
      else
        match rest with
        | [] => [92]
        | e :: rest =>
            if e =? 114 then 13 :: unescape rest
            else if e =? 110 then 10 :: unescape rest
            else if e =? 116 then 9 :: unescape rest
            else if e =? 48 then 0 :: unescape rest
            else if e =? 92 then 92 :: unescape rest
            else if e =? 120 then
              match rest with
              | h :: l :: rest =>
                  match to_digit 16 h, to_digit 16 l with
                  | Some hi, Some lo => hi * 16 + lo :: unescape rest
                  | _, _ => 92 :: 120 :: unescape rest
                  end
              | _ => [92; 120]
              end
            else 92 :: encode_char e ++ unescape rest
        end
  end.

Example interpolates :
  interpolate (lit "GET {path} {{x}} }") {[ lit "path" := lit "/a" ]} = Some (lit "GET /a {x} }") /\
  template_vars (lit "GET {path} {{x}} }") = [lit "path"] /\
  unescape (lit "\x00A\r\q\xg1B") = [0; 65; 13; 92; 113; 92; 120; 66].
Proof. split_and!; reflexivity. Qed.

(** ** What a template says *)

(** A template is literal text and variables, and may end in a brace that does not close. *)
Inductive piece := Fixed (s : text) | Hole (name : text).

Inductive reads : text -> list piece -> bool -> Prop :=
  | reads_end s : find_brace s = None -> reads s [Fixed s] true
  | reads_doubled s before this after ps closed :
      find_brace s = Some (before, this, after) -> doubled this after = true -> reads (tail after) ps closed ->
      reads s (Fixed (before ++ [this]) :: ps) closed
  | reads_variable s before after name rest ps closed :
      find_brace s = Some (before, LBRACE, after) -> doubled LBRACE after = false ->
      split_once (Z.eqb RBRACE) after = Some (name, rest) -> reads rest ps closed ->
      reads s (Fixed before :: Hole name :: ps) closed
  | reads_lone s before after ps closed :
      find_brace s = Some (before, RBRACE, after) -> doubled RBRACE after = false -> reads after ps closed ->
      reads s (Fixed (before ++ [RBRACE]) :: ps) closed
  | reads_unclosed s before after :
      find_brace s = Some (before, LBRACE, after) -> doubled LBRACE after = false ->
      split_once (Z.eqb RBRACE) after = None -> reads s [Fixed before] false.

Fixpoint piece_vars (ps : list piece) : list text :=
  match ps with [] => [] | Fixed _ :: ps => piece_vars ps | Hole name :: ps => name :: piece_vars ps end.

Fixpoint fill (ps : list piece) (env : Env) : option text :=
  match ps with
  | [] => Some []
  | Fixed s :: ps => app s <$> fill ps env
  | Hole name :: ps => match (env !! name : option text) with Some value => app value <$> fill ps env | None => None end
  end.

Lemma find_brace_split s before this after :
  find_brace s = Some (before, this, after) -> s = before ++ this :: after /\ (this = LBRACE \/ this = RBRACE).
Proof.
  revert before. induction s as [|c s IH]; intros before; cbn; [done|].
  destruct ((c =? LBRACE) || (c =? RBRACE)) eqn:E.
  - intros [= <- <- <-]. split; [done|]. unfold LBRACE, RBRACE in *. lia.
  - destruct (find_brace s) as [[[a b] r]|]; [|done]. intros [= <- <- <-]. destruct (IH a eq_refl) as [-> Hb]. done.
Qed.

Lemma split_once_shrinks pred s a b : split_once pred s = Some (a, b) -> (length b < length s)%nat.
Proof.
  revert a. induction s as [|c s IH]; intros a; cbn; [done|]. destruct (pred c); [intros [= <- <-]; lia|].
  destruct (split_once pred s) as [[x y]|] eqn:E; [|done]. intros [= <- <-]. specialize (IH x eq_refl). lia.
Qed.

Lemma tail_shrinks {A} (l : list A) : (length (tail l) <= length l)%nat.
Proof. destruct l; cbn; lia. Qed.

(** What is left after a turn. *)
Lemma find_brace_shrinks s before this after : find_brace s = Some (before, this, after) -> (length after < length s)%nat.
Proof. intros [-> _]%find_brace_split. rewrite length_app. cbn. lia. Qed.

Lemma template_reads fuel s : (length s < fuel)%nat -> exists ps closed, reads s ps closed.
Proof.
  revert s. induction fuel as [|fuel IH]; intros s Hs; [lia|].
  destruct (find_brace s) as [[[before this] after]|] eqn:E; [|by exists [Fixed s], true; constructor].
  pose proof (find_brace_shrinks _ _ _ _ E). destruct (find_brace_split _ _ _ _ E) as [_ Hthis].
  destruct (doubled this after) eqn:Ed.
  { destruct (IH (tail after)) as (ps & closed & Hr); [pose proof (tail_shrinks after); lia|]. eexists _, _. by eapply reads_doubled. }
  destruct Hthis as [->| ->].
  - destruct (split_once (Z.eqb RBRACE) after) as [[name rest]|] eqn:Es.
    + pose proof (split_once_shrinks _ _ _ _ Es). destruct (IH rest) as (ps & closed & Hr); [lia|]. eexists _, _. by eapply reads_variable.
    + eexists _, _. by eapply reads_unclosed.
  - destruct (IH after) as (ps & closed & Hr); [lia|]. eexists _, _. by eapply reads_lone.
Qed.

Lemma interpolate_reads s ps closed fuel out env :
  reads s ps closed -> (length s < fuel)%nat ->
  interpolate_loop fuel out s env = if closed then app out <$> fill ps env else None.
Proof.
  intros Hr. revert fuel out. induction Hr as [s E|s before this after ps closed E Ed Hr IH|s before after name rest ps closed E Ed Es Hr IH
    |s before after ps closed E Ed Hr IH|s before after E Ed Es]; intros [|fuel] out Hf; try lia; cbn [interpolate_loop]; rewrite E.
  - cbn. by rewrite app_nil_r.
  - rewrite Ed, IH by (pose proof (find_brace_shrinks _ _ _ _ E); pose proof (tail_shrinks after); lia). destruct closed; [|done]. cbn.
    destruct (fill ps env); cbn; [|done]. by rewrite <- !app_assoc.
  - rewrite Ed, Z.eqb_refl, Es. pose proof (find_brace_shrinks _ _ _ _ E). pose proof (split_once_shrinks _ _ _ _ Es). cbn.
    destruct (env !! name) as [value|]; cbn; [|by destruct closed]. rewrite IH by lia. destruct closed; [|done].
    destruct (fill ps env); cbn; [|done]. by rewrite <- !app_assoc.
  - rewrite Ed. change (RBRACE =? LBRACE) with false. cbn [fill]. rewrite IH by (pose proof (find_brace_shrinks _ _ _ _ E); lia).
    destruct closed; [|done]. destruct (fill ps env); cbn; [|done]. by rewrite <- !app_assoc.
  - by rewrite Ed, Z.eqb_refl, Es.
Qed.

Lemma template_vars_reads s ps closed fuel vars :
  reads s ps closed -> (length s < fuel)%nat -> template_vars_loop fuel vars s = vars ++ piece_vars ps.
Proof.
  intros Hr. revert fuel vars. induction Hr as [s E|s before this after ps closed E Ed Hr IH|s before after name rest ps closed E Ed Es Hr IH
    |s before after ps closed E Ed Hr IH|s before after E Ed Es]; intros [|fuel] vars Hf; try lia; cbn [template_vars_loop piece_vars]; rewrite E.
  - by rewrite app_nil_r.
  - rewrite Ed, IH by (pose proof (find_brace_shrinks _ _ _ _ E); pose proof (tail_shrinks after); lia). done.
  - rewrite Ed, Z.eqb_refl, Es. pose proof (find_brace_shrinks _ _ _ _ E). pose proof (split_once_shrinks _ _ _ _ Es).
    rewrite IH by lia. by rewrite <- app_assoc.
  - rewrite Ed. change (RBRACE =? LBRACE) with false. cbn. by rewrite IH by (pose proof (find_brace_shrinks _ _ _ _ E); lia).
  - by rewrite Ed, Z.eqb_refl, Es, app_nil_r.
Qed.

Lemma fill_some ps env : is_Some (fill ps env) <-> forall name, name ∈ piece_vars ps -> is_Some (env !! name).
Proof.
  induction ps as [|[s|name] ps IH]; cbn; [split; [set_solver|by eexists]|by rewrite fmap_is_Some|].
  destruct (env !! name) as [value|] eqn:E; cbn.
  - rewrite fmap_is_Some, IH. split; [|set_solver]. intros H n [->|Hn]%elem_of_cons; [by eexists|auto].
  - split; [by intros []|]. intros H. destruct (H name ltac:(by left)) as [v Hv]. by rewrite E in Hv.
Qed.

Lemma fill_ext ps env env' : (forall name, name ∈ piece_vars ps -> env !! name = env' !! name) -> fill ps env = fill ps env'.
Proof.
  induction ps as [|[s|name] ps IH]; cbn; intros H; [done|by rewrite IH|].
  rewrite H by set_solver. destruct (env' !! name); cbn; [|done]. by rewrite IH by set_solver.
Qed.

Lemma interpolate_fill template :
  exists ps (closed : bool), template_vars template = piece_vars ps /\ forall env, interpolate template env = if closed then fill ps env else None.
Proof.
  destruct (template_reads (S (length template)) template) as (ps & closed & Hr); [lia|]. exists ps, closed. split.
  - unfold template_vars. by rewrite (template_vars_reads _ _ _ _ _ Hr) by lia.
  - intros env. unfold interpolate. rewrite (interpolate_reads _ _ _ _ _ _ Hr) by lia. destruct closed; [|done]. by destruct (fill ps env).
Qed.

Definition all_empty (names : list text) : Env := list_to_map ((fun name : text => (name, [] : text)) <$> names).

(** Whether every brace of a template that opens a variable closes: it can be filled in
    once all its variables are bound. *)
Definition closes (template : text) : bool :=
  bool_decide (is_Some (interpolate template (all_empty (template_vars template)))).

Lemma all_bound (names : list text) (name : text) : name ∈ names -> is_Some (all_empty names !! name).
Proof.
  intros Hn. destruct (all_empty names !! name) eqn:E; [by eexists|]. apply not_elem_of_list_to_map in E.
  exfalso. apply E. rewrite <- list_fmap_compose. apply list_elem_of_fmap. by exists name.
Qed.

Lemma interpolate_some template env :
  is_Some (interpolate template env) <-> closes template = true /\ forall name, name ∈ template_vars template -> is_Some (env !! name).
Proof.
  unfold closes. destruct (interpolate_fill template) as (ps & closed & Hv & Hi). rewrite bool_decide_eq_true, !Hi, Hv.
  destruct closed; [|by split; [intros []|intros [[] _]]]. rewrite !fill_some. split; [|tauto]. intros H. split; [|done].
  intros name. apply all_bound.
Qed.

Lemma interpolate_ext template env env' :
  (forall name, name ∈ template_vars template -> env !! name = env' !! name) -> interpolate template env = interpolate template env'.
Proof.
  intros H. destruct (interpolate_fill template) as (ps & closed & Hv & Hi). rewrite !Hi. destruct closed; [|done].
  apply fill_ext. by rewrite <- Hv.
Qed.

(** ** Payloads *)

Definition hex_code (d : Z) : Z := if d <? 10 then 48 + d else 87 + d.

(** A byte as [\xHH]. *)
Definition hex_escape (b : Z) : text := [BACKSLASH; 120; hex_code (b / 16); hex_code (b mod 16)].

Lemma to_digit_hex d : 0 <= d < 16 -> to_digit 16 (hex_code d) = Some d.
Proof.
  intros Hd. assert (d ∈ seqZ 0 16) as Hin by (apply elem_of_seqZ; lia).
  cbn in Hin. repeat (apply elem_of_cons in Hin as [->|Hin]; [reflexivity|]). set_solver.
Qed.

Lemma unescape_hex b rest : 0 <= b < 256 -> unescape (hex_escape b ++ rest) = b :: unescape rest.
Proof.
  intros Hb. cbn [hex_escape app unescape]. cbn [Z.eqb negb]. change (BACKSLASH =? BACKSLASH) with true. cbn.
  rewrite !to_digit_hex by (pose proof (Z.mod_pos_bound b 16); pose proof (Z.div_pos b 16); pose proof (Z.div_lt_upper_bound b 16 16); lia).
  f_equal. pose proof (Z.div_mod b 16). lia.
Qed.

Lemma unescape_plain s : BACKSLASH ∉ s -> unescape s = utf8_encode s.
Proof.
  induction s as [|c s IH]; [done|]. intros [Hc Hs]%not_elem_of_cons. cbn [unescape]. rewrite (proj2 (Z.eqb_neq _ _)) by done. cbn [negb].
  by rewrite IH.
Qed.

(** ** Properties *)

(** the validator reads a template as the interpreter does.  A template is filled in
    exactly when every brace that opens a variable closes and every variable the
    validator lists is bound, and what it is filled in with depends on those alone. *)
Theorem templates_agree (template : text) (env env' : Env) :
  (is_Some (interpolate template env) <->
   closes template = true /\ forall name, name ∈ template_vars template -> is_Some (env !! name)) /\
  ((forall name, name ∈ template_vars template -> env !! name = env' !! name) -> interpolate template env = interpolate template env').
Proof. split; [apply interpolate_some|apply interpolate_ext]. Qed.

Lemma templates_agree_witness :
  interpolate (lit "GET {path} {{x}}") {[ lit "path" := lit "/"; lit "x" := lit "1" ]} =
  interpolate (lit "GET {path} {{x}}") {[ lit "path" := lit "/" ]}.
Proof.
  apply (templates_agree (lit "GET {path} {{x}}") {[ lit "path" := lit "/"; lit "x" := lit "1" ]} {[ lit "path" := lit "/" ]}).
  intros name Hn. assert (name = lit "path") as ->; [|vm_compute; reflexivity].
  change (template_vars _) with [lit "path"] in Hn. set_solver.
Defined.

(** Any bytes can be sent.  Written as [\xHH] each, before anything that follows,
    they are decoded to themselves; and text without a backslash is sent as it is. *)
Theorem any_payload_can_be_written (bytes : list Z) (s : text) :
  Forall (fun b => 0 <= b < 256) bytes -> BACKSLASH ∉ s ->
  unescape ((bytes ≫= hex_escape) ++ s) = bytes ++ utf8_encode s.
Proof.
  intros Hb Hs. induction Hb as [|b bytes Hb _ IH]; [by apply unescape_plain|]. cbn [mbind list_bind].
  rewrite <- app_assoc, unescape_hex by done. cbn. f_equal. exact IH.
Qed.

Lemma any_payload_can_be_written_witness :
  unescape (([0; 255; 162] ≫= hex_escape) ++ lit "INFO") = [0; 255; 162] ++ utf8_encode (lit "INFO").
Proof. apply any_payload_can_be_written; apply (bool_decide_unpack _); vm_compute; exact I. Defined.

(** An escape [\x] that two digits do not follow is not kept as it was written: the two
    characters after it are dropped. *)
Lemma malformed_escape_drops : unescape (lit "a\xg1b") = [97; 92; 120; 98] /\ unescape (lit "\x4") = [92; 120].
Proof. split; reflexivity. Qed.
