(* ===== verification/Flow.v ===== *)
(** * Detection flows

    [src/src/detect/flow/schema.rs], [validate.rs] and [interp.rs], with the manifest
    ([detect/manifest.rs]), what its parts become in the model ([detect/authoring.rs],
    [convert.rs]) and how exposed an address is ([Exposure] of [model/ip.rs]).  A flow is a
    short program: steps that send, match and bind, and findings they may emit.  The
    validator refuses an ill-formed one before it is shipped, the interpreter runs it.

    The socket is a probe: a state with the operations the interpreter calls.  Patterns are
    compiled and matched by a regular-expression library, the class [PatternEngine].  A
    [BTreeMap] of binds is the list of its entries in order; their keys are distinct. *)

From Stdlib Require Import ZArith Lia String.
From stdpp Require Import base countable numbers sets gmap option list.
From S2P Require Import Prelude Std Text Ordering IpRange AddrText Finding Guard Template.

Local Open Scope Z_scope.

(** ** Definitions *)

(** *** How exposed an address is *)

Inductive Exposure := Local | Internal | Internet.

(** The octet of an IPv4 address, the first being 0. *)
Definition octet_of (addr i : Z) : Z := Z.land (Z.shiftr addr (8 * (3 - i))) 255.

(** [Ipv4Addr::is_loopback], [is_private] and [is_link_local]. *)
Definition v4_is_loopback (addr : Z) : bool := octet_of addr 0 =? 127.
Definition v4_is_private (addr : Z) : bool :=
  (octet_of addr 0 =? 10) || ((octet_of addr 0 =? 172) && in_range 16 31 (octet_of addr 1)) ||
  ((octet_of addr 0 =? 192) && (octet_of addr 1 =? 168)).
Definition v4_is_link_local (addr : Z) : bool := (octet_of addr 0 =? 169) && (octet_of addr 1 =? 254).

Definition exposure_of_v4 (addr : Z) : Exposure :=
  if v4_is_loopback addr then Local
  else
    let carrier_nat := (octet_of addr 0 =? 100) && in_range 64 127 (octet_of addr 1) in
    let this_network := octet_of addr 0 =? 0 in
    if v4_is_private addr || v4_is_link_local addr || carrier_nat || this_network then Internal else Internet.

Definition octet6_of (addr i : Z) : Z := Z.land (Z.shiftr addr (8 * (15 - i))) 255.

Definition is_unique_local (addr : Z) : bool := Z.land (octet6_of addr 0) 0xfe =? 0xfc.

Definition exposure_of_v6 (addr : Z) : Exposure :=
  if addr =? 1 then Local
  else
    let link_local := (octet6_of addr 0 =? 0xfe) && (Z.land (octet6_of addr 1) 0xc0 =? 0x80) in
    if link_local || is_unique_local addr || (addr =? 0) then Internal else Internet.

(** [Exposure::of]; an address mapped into IPv6 is the IPv4 address it carries. *)
Definition exposure_of (ip : IpAddr) : Exposure :=
  match ip with
  | V4 a => exposure_of_v4 a
  | V6 a =>
      match to_canonical (V6 a) with
      | V4 mapped => exposure_of_v4 mapped
      | V6 _ => exposure_of_v6 a
      end
  end.

(** *** The manifest *)

Inductive Class := Derived | Passive | ActiveBenign | ActiveMutating | Exploit | Dos.

#[export] Instance Class_eq_dec : EqDecision Class.
Proof. solve_decision. Defined.

Inductive Speak := SpeakTarget.

Record GroupSpec := mkGroupSpec {
  gs_id : text;
  gs_summary : text;
}.

(** [Rule] of the manifest. *)
Record GateRule := mkGateRule {
  gate_service : option text;
  gate_services : list text;
  gate_port : option Z;
  gate_ports : list Z;
  gate_protocol : option text;
  gate_speaks : option text;
}.

Record CapabilitySpec := mkCapabilitySpec {
  cap_class : Class;
  cap_speak : option Speak;
  cap_resolve : bool;
  cap_max_bytes : option Z;
  cap_max_millis : option Z;
  cap_max_connections : option Z;
}.

Record DetectionManifest := mkManifest {
  dm_id : text;
  dm_version : text;
  dm_title : text;
  dm_group : option GroupSpec;
  dm_when : GateRule;
  dm_capabilities : CapabilitySpec;
}.

(** [Class::into_model]. *)
Definition class_into_model (c : Class) : DetectionClass :=
  match c with
  | Derived | Passive => ClassPassive
  | ActiveBenign => ClassActiveBenign
  | ActiveMutating => ClassActiveMutating
  | Exploit => ClassExploit
  | Dos => ClassDos
  end.

(** *** What a flow is written with

    The severities of the authoring format are those of the model, one for one. *)

Record SeverityByExposure := mkSeverityByExposure {
  at_internet : Severity;
  at_internal : option Severity;
  at_local : option Severity;
}.

Inductive SeveritySpec := Flat (s : Severity) | PerExposure (table : SeverityByExposure).

Definition severity_internal (t : SeverityByExposure) : Severity := default (at_internet t) (at_internal t).

Definition severity_local (t : SeverityByExposure) : Severity := default (severity_internal t) (at_local t).

Definition into_model_at (s : SeveritySpec) (e : Exposure) : Severity :=
  match s with
  | Flat s => s
  | PerExposure t => match e with Local => severity_local t | Internal => severity_internal t | Internet => at_internet t end
  end.

(** [GroupSpec::to_model] and [Reference::to_model]. *)
Definition group_to_model (g : GroupSpec) : option FindingGroup := ok (group_new (gs_id g) (gs_summary g)).

Definition reference_to_model (r : Reference) : option Reference := match r with Cve id => reference_cve id | r => Some r end.

(** [wire::confidence]. *)
Definition wire_confidence (name : text) : option Confidence :=
  if bool_decide (name = lit "heuristic") then Some Heuristic
  else if bool_decide (name = lit "weak") then Some Weak
  else if bool_decide (name = lit "probable") then Some Probable
  else if bool_decide (name = lit "strong") then Some Strong
  else if bool_decide (name = lit "certain") then Some Certain
  else None.

Record MatchDetail := mkMatchDetail {
  md_pattern : text;
  md_version_group : option Z;
  md_product : option text;
  md_vendor : option text;
}.

Inductive MatchSpec := Pattern (pattern : text) | Rule (detail : MatchDetail).

Definition spec_pattern (s : MatchSpec) : text := match s with Pattern p => p | Rule d => md_pattern d end.

Definition spec_version_group (s : MatchSpec) : option Z := match s with Pattern _ => None | Rule d => md_version_group d end.

Record ForEach := mkForEach {
  fe_var : text;
  fe_items : list text;
}.

Inductive OnNoMatch := NoMatchHalt | NoMatchContinue.

Record FindingSpec := mkFindingSpec {
  fs_when : option text;
  fs_severity : SeveritySpec;
  fs_title : option text;
  fs_summary : text;
  fs_detail : option text;
  fs_confidence : option text;
  fs_references : list Reference;
  fs_remediation : option text;
  fs_excerpt_from : option text;
}.

Record Step := mkStep {
  step_when : option text;
  step_for_each : option ForEach;
  step_send : option text;
  step_expect : list MatchSpec;
  step_until : option text;
  step_bind : list (text * MatchSpec);
  step_on_no_match : OnNoMatch;
  step_finding : list FindingSpec;
}.

Record FlowDetection := mkFlow {
  flow_detection : DetectionManifest;
  flow_step : list Step;
}.

Definition MAX_FLOW_STEPS : nat := 16.

Definition MAX_LOOP_ITEMS : nat := 64.

Definition SEED_VAR_HOST : text := lit "host".

Definition SEED_VAR_PORT : text := lit "port".

Definition SEED_VARS : list text := [SEED_VAR_HOST; SEED_VAR_PORT].

(** *** The validator *)

Definition RESERVED_ID_PREFIX : text := lit "zond:".

(** What a [passive] detection may not do, and where a variable or a guard is read: the
    words the source gives its errors. *)
Inductive Activity := ASpeak | AResolve | ASend | AForEach.

Inductive Place := PlaceGuard | PlaceSend | PlaceFindingGuard | PlaceSummary | PlaceTitle | PlaceDetail | PlaceExcerpt.

Inductive ValidationError :=
  | TooManySteps (count : nat)
  | EmptyLoop (step : nat)
  | LoopTooLong (step count : nat)
  | LoopVarShadows (step : nat) (var : text)
  | UnknownProtocol (protocol : text)
  | PassiveDoes (what : Activity)
  | SendWithoutSpeak
  | UndefinedVariable (step : nat) (var : text) (place : Place)
  | MatchedInStepGuard (step : nat)
  | MatchedWithoutExpect (step : nat)
  | GuardParseError (step : nat) (place : Place) (error : ParseError)
  | NoFindings
  | MalformedVersion (version : text)
  | EmptyDetectionId
  | EmptyDetectionTitle
  | HalfGroup
  | ReservedId (id : text)
  | ExpectWithoutSend (step : nat).

Definition is_none {A} (x : option A) : bool := negb (is_some x).

Definition push_if (b : bool) (e : ValidationError) : list ValidationError := if b then [e] else [].

Definition is_version_triple (version : text) : bool :=
  let parts := split_by (Z.eqb 46) version in
  (length parts =? 3)%nat && forallb (fun part => is_ok (parse_uint 16 part)) parts.

Definition check_identity (flow : FlowDetection) : list ValidationError :=
  let d := flow_detection flow in
  (if blank (dm_id d) then [EmptyDetectionId]
   else push_if (is_some (strip_prefix RESERVED_ID_PREFIX (dm_id d))) (ReservedId (dm_id d))) ++
  push_if (blank (dm_title d)) EmptyDetectionTitle ++
  match dm_group d with
  | Some g => push_if (blank (gs_id g) || blank (gs_summary g)) HalfGroup
  | None => []
  end ++
  push_if (negb (is_version_triple (dm_version d))) (MalformedVersion (dm_version d)).

Definition check_capabilities (flow : FlowDetection) : list ValidationError :=
  let caps := dm_capabilities (flow_detection flow) in
  let has_send := existsb (fun step => is_some (step_send step)) (flow_step flow) in
  let has_for_each := existsb (fun step => is_some (step_for_each step)) (flow_step flow) in
  if bool_decide (cap_class caps = Passive) then
    push_if (is_some (cap_speak caps)) (PassiveDoes ASpeak) ++ push_if (cap_resolve caps) (PassiveDoes AResolve) ++
    push_if has_send (PassiveDoes ASend) ++ push_if has_for_each (PassiveDoes AForEach)
  else push_if (has_send && is_none (cap_speak caps)) SendWithoutSpeak.

Definition check_protocol (flow : FlowDetection) : list ValidationError :=
  match gate_protocol (dm_when (flow_detection flow)) with
  | Some protocol =>
      push_if (negb (bool_decide (protocol = lit "tcp")) && negb (bool_decide (protocol = lit "udp"))) (UnknownProtocol protocol)
  | None => []
  end.

(** The names of a scope that [vars] reads outside it. *)
Definition undefined (index : nat) (place : Place) (scope : gset text) (vars : list text) : list ValidationError :=
  (fun var => UndefinedVariable index var place) <$> filter (fun var => var ∉ scope) vars.

(** A [BTreeSet], in order. *)
Definition sorted_vars (vars : gset text) : list text :=
  sort_by (fun a b => match str_cmp a b with Gt => false | _ => true end) (elements vars).

Definition check_template (index : nat) (template : text) (place : Place) (scope : gset text) : list ValidationError :=
  undefined index place scope (template_vars template).

(** The errors of a loop, and the variable it introduces. *)
Definition check_loop (index : nat) (step : Step) (persisted : gset text) : list ValidationError * option text :=
  match step_for_each step with
  | None => ([], None)
  | Some f =>
      (push_if (bool_decide (fe_items f = [])) (EmptyLoop index) ++
       push_if (MAX_LOOP_ITEMS <? length (fe_items f))%nat (LoopTooLong index (length (fe_items f))) ++
       push_if (bool_decide (fe_var f ∈ persisted) || bool_decide (fe_var f ∈ (step_bind step).*1)) (LoopVarShadows index (fe_var f)),
       Some (fe_var f))
  end.

Definition check_step_guard (index : nat) (step : Step) (scope : gset text) : list ValidationError :=
  match step_when step with
  | None => []
  | Some when_ =>
      match parse_guard when_ with
      | Err error => [GuardParseError index PlaceGuard error]
      | Ok guard => push_if (uses_matched guard) (MatchedInStepGuard index) ++
          undefined index PlaceGuard scope (sorted_vars (referenced_vars guard))
      end
  end.

Definition check_finding (index : nat) (step : Step) (f : FindingSpec) (scope : gset text) : list ValidationError :=
  match fs_when f with
  | None => []
  | Some when_ =>
      match parse_guard when_ with
      | Err error => [GuardParseError index PlaceFindingGuard error]
      | Ok guard => push_if (uses_matched guard && bool_decide (length (step_expect step) = 0%nat)) (MatchedWithoutExpect index) ++
          undefined index PlaceFindingGuard scope (sorted_vars (referenced_vars guard))
      end
  end ++
  check_template index (fs_summary f) PlaceSummary scope ++
  match fs_title f with Some title => check_template index title PlaceTitle scope | None => [] end ++
  match fs_detail f with Some detail => check_template index detail PlaceDetail scope | None => [] end ++
  match fs_excerpt_from f with
  | Some source => push_if (negb (bool_decide (source = lit "$response")) && negb (bool_decide (source ∈ scope))) (UndefinedVariable index source PlaceExcerpt)
  | None => []
  end.

(** One turn of the walk of [check_references]. *)
Definition check_step (index : nat) (step : Step) (persisted : gset text) : list ValidationError :=
  let '(errors, loop_var) := check_loop index step persisted in
  let gate_scope := persisted ∪ list_to_set (option_list loop_var) in
  let finding_scope := gate_scope ∪ list_to_set (step_bind step).*1 in
  errors ++ check_step_guard index step gate_scope ++
  match step_send step with Some send => check_template index send PlaceSend gate_scope | None => [] end ++
  (step_finding step ≫= fun f => check_finding index step f finding_scope).

(** What persists past a step. *)
Definition persist (step : Step) (persisted : gset text) : gset text :=
  match step_for_each step with None => persisted ∪ list_to_set (step_bind step).*1 | Some _ => persisted end.

Fixpoint check_steps (index : nat) (steps : list Step) (persisted : gset text) : list ValidationError :=
  match steps with
  | [] => []
  | step :: steps => check_step index step persisted ++ check_steps (S index) steps (persist step persisted)
  end.

Definition check_references (flow : FlowDetection) : list ValidationError := check_steps 0 (flow_step flow) (list_to_set SEED_VARS).

Definition check (flow : FlowDetection) : list ValidationError :=
  check_identity flow ++ check_capabilities flow ++ check_protocol flow ++
  push_if (MAX_FLOW_STEPS <? length (flow_step flow))%nat (TooManySteps (length (flow_step flow))) ++
  push_if (forallb (fun step => bool_decide (length (step_finding step) = 0%nat)) (flow_step flow)) NoFindings ++
  (imap (fun index step => push_if (negb (bool_decide (length (step_expect step) = 0%nat)) && is_none (step_send step)) (ExpectWithoutSend index)) (flow_step flow)
    ≫= id) ++
  check_references flow.

(** *** The interpreter *)

(** A regular-expression library, as [CompiledPattern] of [fingerprint/pattern.rs] uses it. *)
Class PatternEngine := {
  Compiled : Type;
  Captures : Type;
  compile_pattern : text -> option Compiled;
  captures : Compiled -> text -> option Captures;
  captured_name : Captures -> text -> option text;
  captured_index : Captures -> Z -> option text;
}.

(** The socket a flow speaks to. *)
Record Probe (P : Type) := mkProbe {
  plan : P -> Z -> P;
  reads_until : P -> option text -> P;
  speak : P -> list Z -> P * option (list Z);
}.
Arguments mkProbe {P}.
Arguments plan {P}.
Arguments reads_until {P}.
Arguments speak {P}.

Inductive Flow := FlowContinue | FlowHalt.

Record FlowSeed := mkFlowSeed {
  seed_host : text;
  seed_port : Z;
  seed_exposure : Exposure;
}.

(** [FlowSeed::new]. *)
Definition flow_seed_new (host : text) (port : Z) : FlowSeed :=
  mkFlowSeed host port (match parse_ip host with Ok ip => exposure_of ip | Err _ => Internet end).

(** [FlowSeed::seed], into an environment. *)
Definition seed_env (seed : FlowSeed) (env : Env) : Env := <[SEED_VAR_PORT := show_uint (seed_port seed)]> (<[SEED_VAR_HOST := seed_host seed]> env).

Definition exchanges (flow : FlowDetection) : Z :=
  let sends := foldr Nat.add 0%nat
    ((fun step => match step_for_each step with None => 1%nat | Some f => Nat.min (length (fe_items f)) MAX_LOOP_ITEMS end)
      <$> filter (fun step => is_some (step_send step) = true) (take MAX_FLOW_STEPS (flow_step flow))) in
  Z.min (Z.of_nat sends) (umax 32).

Section Interpreter.
Context `{PatternEngine} {Build : Type} `{EqDecision Build}.

(** [CompiledPattern::identify]: on a match, the group asked for. *)
Definition identify (compiled : Compiled) (s : text) (version_group : option Z) : option (option text) :=
  (fun c => version_group ≫= captured_index c) <$> captures compiled s.

(** [CompiledPattern::capture]. *)
Definition named_capture (compiled : Compiled) (s name : text) : option text := captures compiled s ≫= fun c => captured_name c name.

Definition spec_matches (spec : MatchSpec) (s : text) : bool :=
  match compile_pattern (spec_pattern spec) with
  | Some compiled => is_some (identify compiled s (spec_version_group spec))
  | None => false
  end.

(** [capture]. *)
Definition spec_capture (spec : MatchSpec) (s name : text) : option text :=
  match compile_pattern (spec_pattern spec) with
  | Some compiled =>
      match named_capture compiled s name with
      | Some value => Some value
      | None =>
          match spec_version_group spec with
          | Some group => match identify compiled s (Some group) with Some version => version | None => None end
          | None => None
          end
      end
  | None => None
  end.

(** Decoded byte for byte. *)
Definition latin1 (bytes : list Z) : text := bytes.

Definition on_no_match (step : Step) : Flow := match step_on_no_match step with NoMatchHalt => FlowHalt | NoMatchContinue => FlowContinue end.

Definition excerpt_source (spec : FindingSpec) (env : Env) (response : option text) : option text :=
  match fs_excerpt_from spec with
  | Some name => if bool_decide (name = lit "$response") then response else env !! name
  | None =>
      match fs_detail spec with
      | Some detail => interpolate detail env
      | None => response
      end
  end.

Definition build_finding (flow : FlowDetection) (content_hash : text) (seed : FlowSeed) (spec : FindingSpec) (env : Env) (response : option text)
    : option (Finding Build) :=
  let d := flow_detection flow in
  let version := match version_from_str (dm_version d) with Ok v => v | Err _ => mkVersion 0 0 0 end in
  match ok (detection_id_new (dm_id d) version content_hash) with
  | None => None
  | Some detection =>
      match interpolate (default (fs_summary spec) (fs_title spec)) env with
      | None => None
      | Some title =>
          let severity := into_model_at (fs_severity spec) (seed_exposure seed) in
          let confidence := default Certain (fs_confidence spec ≫= wire_confidence) in
          let class := class_into_model (cap_class (dm_capabilities d)) in
          match ok (finding_new detection title severity confidence class) with
          | None => None
          | Some finding =>
              let finding := match dm_group d ≫= group_to_model with Some g => set_group (Some g) finding | None => finding end in
              let finding := match excerpt_source spec env response with Some e => with_excerpt (excerpt_new e) finding | None => finding end in
              let finding := foldl (fun f r => match reference_to_model r with Some r => with_reference r f | None => f end) finding (fs_references spec) in
              Some (match fs_remediation spec with Some r => set_remediation (Some r) finding | None => finding end)
          end
      end
  end.


(** What a reply binds. *)
Definition bind_all (binds : list (text * MatchSpec)) (response : text) (env : Env) : Env :=
  foldl (fun env '(name, spec) => match spec_capture spec response name with Some value => <[name := value]> env | None => env end) env binds.

Section Run.
Context {P : Type} (pr : Probe P) (flow : FlowDetection) (content_hash : text) (seed : FlowSeed).

(** The environment, the probe and the findings as a step leaves them, and whether the
    flow goes on. *)
Definition run_step (step : Step) (env : Env) (p : P) (findings : list (Finding Build)) : Env * P * list (Finding Build) * Flow :=
  if negb (guard_holds (step_when step) env None) then (env, p, findings, FlowContinue)
  else
    let exchanged :=
      match step_send step with
      | Some send =>
          match interpolate send env with
          | Some s =>
              let p := reads_until pr p (step_until step) in
              let '(p, reply) := speak pr p (unescape s) in
              Some (p, latin1 <$> reply)
          | None => None
          end
      | None => Some (p, None)
      end in
    match exchanged with
    | None => (env, p, findings, on_no_match step)
    | Some (p, response) =>
        let env := match response with Some response => bind_all (step_bind step) response env | None => env end in
        let matched :=
          match response with
          | Some response => forallb (fun rule => spec_matches rule response) (step_expect step)
          | None => bool_decide (length (step_expect step) = 0%nat)
          end in
        match matched, step_on_no_match step with
        | false, NoMatchHalt => (env, p, findings, FlowHalt)
        | _, _ =>
            let emitted := omap (fun spec =>
              if guard_holds (fs_when spec) env (Some matched) then build_finding flow content_hash seed spec env response else None)
              (step_finding step) in
            (env, p, findings ++ emitted, FlowContinue)
        end
    end.

(** The items of a loop, each in an environment of its own. *)
Fixpoint run_items (step : Step) (var : text) (items : list text) (env : Env) (p : P) (findings : list (Finding Build))
    : P * list (Finding Build) * Flow :=
  match items with
  | [] => (p, findings, FlowContinue)
  | item :: items =>
      let '(_, p, findings, next) := run_step step (<[var := item]> env) p findings in
      match next with
      | FlowHalt => (p, findings, FlowHalt)
      | FlowContinue => run_items step var items env p findings
      end
  end.

Fixpoint run_steps (steps : list Step) (env : Env) (p : P) (findings : list (Finding Build)) : P * list (Finding Build) :=
  match steps with
  | [] => (p, findings)
  | step :: steps =>
      match step_for_each step with
      | Some f =>
          let '(p, findings, next) := run_items step (fe_var f) (take MAX_LOOP_ITEMS (fe_items f)) env p findings in
          match next with FlowHalt => (p, findings) | FlowContinue => run_steps steps env p findings end
      | None =>
          let '(env, p, findings, next) := run_step step env p findings in
          match next with FlowHalt => (p, findings) | FlowContinue => run_steps steps env p findings end
      end
  end.

(** [run], from variables already there: the probe as it is left, and the findings. *)
Definition run_from (env : Env) (p : P) : P * list (Finding Build) :=
  run_steps (take MAX_FLOW_STEPS (flow_step flow)) (seed_env seed env) (plan pr p (exchanges flow)) [].

(** [run]. *)
Definition run_flow (p : P) : P * list (Finding Build) := run_from ∅ p.
End Run.
End Interpreter.

(** ** How much a flow asks *)

(** A probe that counts the exchanges. *)
Definition metered {P} (pr : Probe P) : Probe (P * nat) :=
  mkProbe (fun '(p, n) k => (plan pr p k, n)) (fun '(p, n) until => (reads_until pr p until, n))
    (fun '(p, n) bytes => let '(p, reply) := speak pr p bytes in ((p, S n), reply)).

Section Metered.
Context `{PatternEngine} {Build : Type} `{EqDecision Build} {P : Type} (pr : Probe P).
Context (flow : FlowDetection) (content_hash : text) (seed : FlowSeed).
Local Notation run_step := (run_step (Build := Build) (metered pr) flow content_hash seed).
Local Notation run_items := (run_items (Build := Build) (metered pr) flow content_hash seed).
Local Notation run_steps := (run_steps (Build := Build) (metered pr) flow content_hash seed).

Definition sends (step : Step) : nat := if is_some (step_send step) then 1 else 0.

Lemma run_step_exchanges step env p findings :
  let '(_, p', _, _) := run_step step env p findings in (snd p' <= snd p + sends step)%nat.
Proof.
  unfold Flow.run_step, sends. destruct (negb _); [cbn; lia|]. destruct (step_send step) as [send|]; cbn [is_some].
  - destruct (interpolate send env) as [s|]; [|destruct p; cbn; lia]. destruct p as [p n]. cbn [metered reads_until speak].
    destruct (speak pr _ _) as [p' reply]. cbn. repeat case_match; simplify_eq; cbn; lia.
  - destruct (bool_decide _), (step_on_no_match step); cbn; lia.
Qed.

Lemma run_items_exchanges step var items env p findings :
  let '(p', _, _) := run_items step var items env p findings in (snd p' <= snd p + length items * sends step)%nat.
Proof.
  revert p findings. induction items as [|item items IH]; intros p findings; cbn; [lia|].
  pose proof (run_step_exchanges step (<[var := item]> env) p findings) as Hs.
  destruct (run_step _ _ _ _) as [[[env' p'] f'] []]; [|lia]. specialize (IH p' f'). destruct (run_items _ _ _ _ _ _) as [[p'' f''] next]. lia.
Qed.

Definition flow_turns (step : Step) : nat := match step_for_each step with None => 1 | Some f => Nat.min (length (fe_items f)) MAX_LOOP_ITEMS end.

Lemma run_steps_exchanges steps env p findings :
  let '(p', _) := run_steps steps env p findings in (snd p' <= snd p + foldr Nat.add 0 ((fun step => flow_turns step * sends step) <$> steps))%nat.
Proof.
  revert env p findings. induction steps as [|step steps IH]; intros env p findings; cbn; [lia|]. unfold flow_turns at 1.
  destruct (step_for_each step) as [f|].
  - pose proof (run_items_exchanges step (fe_var f) (take MAX_LOOP_ITEMS (fe_items f)) env p findings) as Hi. rewrite length_take in Hi.
    rewrite Nat.min_comm in Hi. destruct (run_items _ _ _ _ _ _) as [[p' f'] []]; [|lia].
    specialize (IH env p' f'). destruct (run_steps _ _ _ _). lia.
  - pose proof (run_step_exchanges step env p findings) as Hs. destruct (run_step _ _ _ _) as [[[env' p'] f'] []]; [|lia].
    specialize (IH env' p' f'). destruct (run_steps _ _ _ _). lia.
Qed.
End Metered.

Lemma planned_turns steps :
  foldr Nat.add 0%nat ((fun step => flow_turns step * sends step)%nat <$> steps) =
  foldr Nat.add 0%nat (flow_turns <$> filter (fun step => is_some (step_send step) = true) steps).
Proof.
  induction steps as [|step steps IH]; [done|]. rewrite filter_cons. case_decide as Hs; cbn; rewrite IH; unfold sends;
    [rewrite Hs|rewrite (not_true_is_false _ Hs)]; cbn; lia.
Qed.

Lemma turns_bound steps : (foldr Nat.add 0 (flow_turns <$> steps) <= length steps * MAX_LOOP_ITEMS)%nat.
Proof.
  induction steps as [|step steps IH]; [done|]. cbn [fmap list_fmap foldr length Nat.mul].
  assert (flow_turns step <= MAX_LOOP_ITEMS)%nat by (unfold flow_turns, MAX_LOOP_ITEMS; case_match; lia). lia.
Qed.

Lemma exchanges_sum flow :
  exchanges flow = Z.of_nat (foldr Nat.add 0%nat ((fun step => flow_turns step * sends step)%nat <$> take MAX_FLOW_STEPS (flow_step flow))) /\
  0 <= exchanges flow <= 1024.
Proof.
  rewrite planned_turns. pose proof (turns_bound (filter (fun step => is_some (step_send step) = true) (take MAX_FLOW_STEPS (flow_step flow)))) as Hb.
  assert (length (filter (fun step => is_some (step_send step) = true) (take MAX_FLOW_STEPS (flow_step flow))) <= 16)%nat.
  { etrans; [apply length_filter|]. rewrite length_take. unfold MAX_FLOW_STEPS. lia. }
  unfold exchanges. fold flow_turns. unfold MAX_LOOP_ITEMS in Hb. change (fun step => match step_for_each step with None => 1%nat | Some f => Nat.min (length (fe_items f)) MAX_LOOP_ITEMS end) with flow_turns. unfold umax. lia.
Qed.

(** ** What a validated flow reads *)

Lemma undefined_none index place scope vars : undefined index place scope vars = [] -> forall var, var ∈ vars -> var ∈ scope.
Proof.
  unfold undefined. intros Hu%fmap_nil_inv var Hv. destruct (decide (var ∈ scope)) as [|Hn]; [done|].
  assert (var ∈ filter (fun var => var ∉ scope) vars) as Hin by (by apply list_elem_of_filter). rewrite Hu in Hin. set_solver.
Qed.

Lemma push_if_none b e : push_if b e = [] <-> b = false.
Proof. by destruct b. Qed.

Lemma elem_of_sorted_vars name vars : name ∈ sorted_vars vars <-> name ∈ vars.
Proof. unfold sorted_vars. by rewrite elem_of_sort_by, elem_of_elements. Qed.


(** Every name a flow may bind. *)
Definition declared (flow : FlowDetection) : gset text :=
  list_to_set SEED_VARS ∪ list_to_set (flow_step flow ≫= fun step => option_list (fe_var <$> step_for_each step) ++ (step_bind step).*1).

Definition agree (D : gset text) (env env' : Env) : Prop := forall name, name ∈ D -> env !! name = env' !! name.

Lemma agree_insert D (env env' : Env) (name value : text) : agree D env env' -> agree D (<[name := value]> env) (<[name := value]> env').
Proof. unfold agree, Env in *. intros Ha x Hx. destruct (decide (x = name)) as [->|]; [by rewrite !lookup_insert_eq|rewrite !lookup_insert_ne by done; by apply Ha]. Qed.

(** A guard whose variables are in scope. *)
Definition guard_in (D : gset text) (when_ : option text) : Prop :=
  forall source, when_ = Some source -> exists e, parse_guard source = Ok e /\ forall name, name ∈ referenced_vars e -> name ∈ D.

Definition template_in (D : gset text) (template : text) : Prop := forall name, name ∈ template_vars template -> name ∈ D.

Lemma guard_agrees D when_ env env' matched : guard_in D when_ -> agree D env env' -> guard_holds when_ env matched = guard_holds when_ env' matched.
Proof.
  destruct when_ as [source|]; [|done]. intros Hw Ha. destruct (Hw source eq_refl) as (e & He & Hv). cbn. rewrite He.
  apply eval_agrees; [|done]. intros name Hn. by apply Ha, Hv.
Qed.

Lemma template_agrees D template env env' : template_in D template -> agree D env env' -> interpolate template env = interpolate template env'.
Proof. intros Ht Ha. apply interpolate_ext. intros name Hn. by apply Ha, Ht. Qed.

Lemma guard_in_mono D D' when_ : D ⊆ D' -> guard_in D when_ -> guard_in D' when_.
Proof. intros HD Hg source Hs. destruct (Hg source Hs) as (e & He & Hv). exists e. split; [done|]. intros name Hn. by apply HD, Hv. Qed.

Lemma template_in_mono D D' template : D ⊆ D' -> template_in D template -> template_in D' template.
Proof. intros HD Ht name Hn. by apply HD, Ht. Qed.

Record finding_in (D : gset text) (f : FindingSpec) : Prop := mkFindingIn {
  fi_when : guard_in D (fs_when f);
  fi_summary : template_in D (fs_summary f);
  fi_title : forall title, fs_title f = Some title -> template_in D title;
  fi_detail : forall detail, fs_detail f = Some detail -> template_in D detail;
  fi_excerpt : forall source, fs_excerpt_from f = Some source -> source = lit "$response" \/ source ∈ D;
}.

Lemma check_finding_in index step f scope : check_finding index step f scope = [] -> finding_in scope f.
Proof.
  unfold check_finding, check_template. rewrite !app_nil. intros (Hw & Hs & Ht & Hd & He). split.
  - intros source E. rewrite E in Hw. destruct (parse_guard source) as [e|]; [|done]. exists e. split; [done|].
    apply app_nil in Hw as [_ Hw]. intros name Hn. apply (undefined_none _ _ _ _ Hw). by apply elem_of_sorted_vars.
  - exact (undefined_none _ _ _ _ Hs).
  - intros title E. rewrite E in Ht. exact (undefined_none _ _ _ _ Ht).
  - intros detail E. rewrite E in Hd. exact (undefined_none _ _ _ _ Hd).
  - intros source E. rewrite E in He. apply push_if_none in He. repeat case_bool_decide; naive_solver.
Qed.

Record step_in (D : gset text) (step : Step) : Prop := mkStepIn {
  si_when : guard_in D (step_when step);
  si_send : forall send, step_send step = Some send -> template_in D send;
  si_finding : Forall (finding_in D) (step_finding step);
}.

Lemma finding_in_mono D D' f : D ⊆ D' -> finding_in D f -> finding_in D' f.
Proof.
  intros HD [H1 H2 H3 H4 H5]. split; [by eapply guard_in_mono|by eapply template_in_mono| | |].
  - intros title E. by eapply template_in_mono, H3.
  - intros detail E. by eapply template_in_mono, H4.
  - intros source E. destruct (H5 source E); [by left|right; by apply HD].
Qed.

Lemma check_step_in D index step persisted :
  check_step index step persisted = [] ->
  persisted ∪ list_to_set (option_list (fe_var <$> step_for_each step)) ∪ list_to_set (step_bind step).*1 ⊆ D -> step_in D step.
Proof.
  unfold check_step, check_loop. intros Hc HD.
  set (gate := persisted ∪ list_to_set (option_list (fe_var <$> step_for_each step))) in *.
  assert (check_step_guard index step gate = [] /\
    (match step_send step with Some send => check_template index send PlaceSend gate | None => [] end) = [] /\
    (step_finding step ≫= fun f => check_finding index step f (gate ∪ list_to_set (step_bind step).*1)) = []) as (Hg & Hs & Hf).
  { destruct (step_for_each step); cbn in *; rewrite !app_nil in Hc; naive_solver. }
  split.
  - apply (guard_in_mono gate); [set_solver|]. intros source E. unfold check_step_guard in Hg. rewrite E in Hg.
    destruct (parse_guard source) as [e|]; [|done]. exists e. split; [done|]. apply app_nil in Hg as [_ Hg].
    intros name Hn. apply (undefined_none _ _ _ _ Hg). by apply elem_of_sorted_vars.
  - intros send E. rewrite E in Hs. apply (template_in_mono gate); [set_solver|]. exact (undefined_none _ _ _ _ Hs).
  - clear Hc. induction (step_finding step) as [|f fs IH]; [done|]. cbn in Hf. apply app_nil in Hf as [Hf Hfs].
    constructor; [|by apply IH]. eapply finding_in_mono; [exact HD|]. by eapply check_finding_in.
Qed.

Lemma check_steps_in D index steps persisted :
  check_steps index steps persisted = [] -> persisted ⊆ D ->
  list_to_set (steps ≫= fun step => option_list (fe_var <$> step_for_each step) ++ (step_bind step).*1) ⊆ D ->
  Forall (step_in D) steps.
Proof.
  revert index persisted. induction steps as [|step steps IH]; intros index persisted Hc HD HS; [done|].
  cbn in Hc. apply app_nil in Hc as [Hc Hcs]. cbn in HS. rewrite !list_to_set_app_L in HS. constructor.
  - eapply check_step_in; [done|]. set_solver.
  - apply (IH (S index) (persist step persisted)); [done| |set_solver]. unfold persist. destruct (step_for_each step); set_solver.
Qed.

Lemma checked_flow_in flow : check flow = [] -> Forall (step_in (declared flow)) (flow_step flow).
Proof.
  unfold check. rewrite !app_nil. intros (_ & _ & _ & _ & _ & _ & Hr). apply (check_steps_in _ _ _ _ Hr); unfold declared; set_solver.
Qed.

Section Agreement.
Context `{PatternEngine} {Build : Type} `{EqDecision Build} {P : Type} (pr : Probe P).
Context (flow : FlowDetection) (content_hash : text) (seed : FlowSeed) (D : gset text).
Local Notation run_step := (run_step (Build := Build) pr flow content_hash seed).
Local Notation run_items := (run_items (Build := Build) pr flow content_hash seed).
Local Notation run_steps := (run_steps (Build := Build) pr flow content_hash seed).

Lemma bind_all_agrees binds response env env' : agree D env env' -> agree D (bind_all binds response env) (bind_all binds response env').
Proof.
  revert env env'. induction binds as [|[name spec] binds IH]; intros env env' Ha; [done|]. cbn. apply IH.
  destruct (spec_capture spec response name); [by apply agree_insert|done].
Qed.

Lemma build_finding_agrees spec env env' response :
  finding_in D spec -> agree D env env' ->
  build_finding (Build := Build) flow content_hash seed spec env response = build_finding flow content_hash seed spec env' response.
Proof.
  intros [_ Hs Ht Hd He] Ha. unfold build_finding.
  assert (interpolate (default (fs_summary spec) (fs_title spec)) env = interpolate (default (fs_summary spec) (fs_title spec)) env') as ->.
  { apply (template_agrees D); [|done]. destruct (fs_title spec) as [title|]; [by apply Ht|done]. }
  assert (excerpt_source spec env response = excerpt_source spec env' response) as ->; [|done].
  unfold excerpt_source. destruct (fs_excerpt_from spec) as [source|].
  - case_bool_decide as Hr; [done|]. destruct (He source eq_refl) as [->|Hin]; [done|]. by apply Ha.
  - destruct (fs_detail spec) as [detail|]; [|done]. apply (template_agrees D); [by apply Hd|done].
Qed.

Lemma run_step_agrees step env env' p findings :
  step_in D step -> agree D env env' ->
  let '(e1, p1, f1, n1) := run_step step env p findings in
  let '(e2, p2, f2, n2) := run_step step env' p findings in
  agree D e1 e2 /\ p1 = p2 /\ f1 = f2 /\ n1 = n2.
Proof.
  intros [Hw Hs Hf] Ha. unfold Flow.run_step. rewrite (guard_agrees D _ env env') by done. destruct (negb _); [done|].
  assert ((match step_send step with Some send => interpolate send env | None => None end) =
    (match step_send step with Some send => interpolate send env' | None => None end)) as Hi.
  { destruct (step_send step) as [send|]; [|done]. apply (template_agrees D); [by apply Hs|done]. }
  assert (forall response e1 e2 matched, agree D e1 e2 ->
    omap (fun spec => if guard_holds (fs_when spec) e1 matched then build_finding (Build := Build) flow content_hash seed spec e1 response else None) (step_finding step) =
    omap (fun spec => if guard_holds (fs_when spec) e2 matched then build_finding flow content_hash seed spec e2 response else None) (step_finding step)) as Hem.
  { intros response e1 e2 matched He. clear Hi. induction Hf as [|spec specs Hspec _ IH]; [done|]. cbn.
    rewrite (guard_agrees D _ e1 e2), (build_finding_agrees _ e1 e2) by (done || apply Hspec). by rewrite IH. }
  destruct (step_send step) as [send|].
  - rewrite Hi. destruct (interpolate send env') as [s|]; [|done]. destruct (speak pr _ _) as [p' [reply|]]; cbn [fmap option_fmap option_map].
    + pose proof (bind_all_agrees (step_bind step) (latin1 reply) env env' Ha) as Hb. rewrite (Hem _ _ _ _ Hb).
      destruct (forallb _ _), (step_on_no_match step); done.
    + rewrite (Hem _ _ _ _ Ha). destruct (bool_decide _), (step_on_no_match step); done.
  - rewrite (Hem _ _ _ _ Ha). destruct (bool_decide _), (step_on_no_match step); done.
Qed.

Lemma run_items_agrees step var items env env' p findings :
  step_in D step -> agree D env env' -> run_items step var items env p findings = run_items step var items env' p findings.
Proof.
  intros Hs Ha. revert p findings. induction items as [|item items IH]; intros p findings; [done|]. cbn.
  pose proof (run_step_agrees step _ _ p findings Hs (agree_insert D env env' var item Ha)) as Hr.
  destruct (run_step _ (<[var := item]> env) _ _) as [[[e1 p1] f1] n1], (run_step _ (<[var := item]> env') _ _) as [[[e2 p2] f2] n2].
  destruct Hr as (_ & -> & -> & ->). destruct n2; [apply IH|done].
Qed.

Lemma run_steps_agrees steps env env' p findings :
  Forall (step_in D) steps -> agree D env env' -> run_steps steps env p findings = run_steps steps env' p findings.
Proof.
  intros Hs. revert env env' p findings. induction Hs as [|step steps Hstep _ IH]; intros env env' p findings Ha; [done|]. cbn.
  destruct (step_for_each step) as [f|].
  - rewrite (run_items_agrees step _ _ env env') by done. destruct (run_items _ _ _ _ _ _) as [[p' f'] []]; [by apply IH|done].
  - pose proof (run_step_agrees step env env' p findings Hstep Ha) as Hr.
    destruct (run_step _ env _ _) as [[[e1 p1] f1] n1], (run_step _ env' _ _) as [[[e2 p2] f2] n2].
    destruct Hr as (He & -> & -> & ->). destruct n2; [by apply IH|done].
Qed.
End Agreement.

(** ** Whose findings they are *)

Lemma keep_bytes_bound n s : (byte_len (keep_bytes n s) <= n)%nat.
Proof. revert n. induction s as [|c s IH]; intros n; cbn; [lia|]. destruct (Nat.leb_spec (len_utf8 c) n); cbn; [|lia]. specialize (IH (n - len_utf8 c)%nat). unfold byte_len in IH. lia. Qed.

Lemma excerpt_new_bound s : (byte_len (excerpt_new s) <= MAX_EXCERPT_BYTES)%nat.
Proof. unfold excerpt_new. destruct (Nat.ltb_spec MAX_EXCERPT_BYTES (byte_len s)); [apply keep_bytes_bound|done]. Qed.

(** The version a manifest passes the validator with is the one it is read as. *)
Lemma version_triple_parses s : is_version_triple s = is_ok (version_from_str s).
Proof.
  unfold is_version_triple, version_from_str. destruct (split_by (Z.eqb 46) s) as [|a [|b [|c [|d l]]]]; cbn; try done;
    destruct (parse_uint 16 a); cbn; try done; destruct (parse_uint 16 b); cbn; try done; destruct (parse_uint 16 c); cbn; done.
Qed.

(** A finding a flow made, from one of its specifications. *)
Record made_by {Build} (flow : FlowDetection) (content_hash : text) (seed : FlowSeed) (f : Finding Build) : Prop := mkMadeBy {
  mb_id : det_id (detection f) = dm_id (flow_detection flow);
  mb_hash : det_content_hash (detection f) = content_hash;
  mb_version : forall v, version_from_str (dm_version (flow_detection flow)) = Ok v -> det_version (detection f) = v;
  mb_class : class f = class_into_model (cap_class (dm_capabilities (flow_detection flow)));
  mb_title : blank (title f) = false;
  mb_excerpt : (byte_len (excerpt f) <= MAX_EXCERPT_BYTES)%nat;
  mb_severity : exists step spec, step ∈ flow_step flow /\ spec ∈ step_finding step /\
    severity f = into_model_at (fs_severity spec) (seed_exposure seed);
}.

Section Provenance.
Context `{PatternEngine} {Build : Type} `{EqDecision Build} {P : Type} (pr : Probe P).
Context (flow : FlowDetection) (content_hash : text) (seed : FlowSeed).
Local Notation made := (made_by (Build := Build) flow content_hash seed).

Lemma build_finding_made step spec env response f :
  step ∈ flow_step flow -> spec ∈ step_finding step -> build_finding flow content_hash seed spec env response = Some f -> made f.
Proof.
  intros Hstep Hspec. unfold build_finding, detection_id_new, finding_new. destruct (blank (dm_id _)); [done|]. cbn [ok].
  destruct (interpolate _ env) as [t|]; [|done]. destruct (blank t) eqn:Ht; [done|]. cbn [ok]. intros [= <-].
  match goal with |- made (match fs_remediation spec with Some r => set_remediation (Some r) ?x | None => ?x end) => set (g := x) end.
  assert (made g) as Hg; [|by destruct (fs_remediation spec); [destruct Hg; split|]].
  unfold g. clear g. match goal with |- made (foldl _ ?x _) => set (g := x) end.
  assert (made g) as Hg.
  { unfold g. split; destruct (dm_group _ ≫= group_to_model), (excerpt_source spec env response); cbn; try done.
    all: try (by intros v ->). all: try apply excerpt_new_bound. all: try (unfold MAX_EXCERPT_BYTES; lia). all: by exists step, spec. }
  clearbody g. clear Ht. revert g Hg. induction (fs_references spec) as [|r refs IH]; intros g Hg; [done|]. cbn. apply IH.
  destruct (reference_to_model r) as [r'|]; [|done]. unfold with_reference. case_bool_decide; [done|]. destruct Hg; by split.
Qed.

Lemma run_step_made step env p findings :
  step ∈ flow_step flow -> Forall made findings -> let '(_, _, f, _) := run_step pr flow content_hash seed step env p findings in Forall made f.
Proof.
  intros Hstep Hf. unfold run_step.
  assert (forall response e matched, Forall made (omap (fun spec =>
    if guard_holds (fs_when spec) e matched then build_finding flow content_hash seed spec e response else None) (step_finding step))) as Hem.
  { intros response e matched. apply Forall_forall. intros f Hin. apply list_elem_of_omap in Hin as (spec & Hspec & Hb).
    destruct (guard_holds _ _ _); [|done]. by eapply build_finding_made. }
  destruct (negb _); [done|]. destruct (step_send step) as [send|].
  - destruct (interpolate send env) as [s|]; [|done]. destruct (speak pr _ _) as [p' reply].
    repeat case_match; simplify_eq; try done; apply Forall_app; split; done.
  - repeat case_match; simplify_eq; try done; apply Forall_app; split; done.
Qed.

Lemma run_items_made step var items env p findings :
  step ∈ flow_step flow -> Forall made findings -> let '(_, f, _) := run_items pr flow content_hash seed step var items env p findings in Forall made f.
Proof.
  intros Hstep. revert p findings. induction items as [|item items IH]; intros p findings Hf; [done|]. cbn.
  pose proof (run_step_made step (<[var := item]> env) p findings Hstep Hf) as Hr. destruct (run_step _ _ _ _ _ _ _) as [[[e p'] f'] []]; [by apply IH|done].
Qed.

Lemma run_steps_made steps env p findings :
  Forall (fun step => step ∈ flow_step flow) steps -> Forall made findings -> Forall made (snd (run_steps pr flow content_hash seed steps env p findings)).
Proof.
  intros Hs. revert env p findings. induction Hs as [|step steps Hstep _ IH]; intros env p findings Hf; [done|]. cbn.
  destruct (step_for_each step) as [f|].
  - pose proof (run_items_made step (fe_var f) (take MAX_LOOP_ITEMS (fe_items f)) env p findings Hstep Hf) as Hr.
    destruct (run_items _ _ _ _ _ _ _ _) as [[p' f'] []]; [by apply IH|done].
  - pose proof (run_step_made step env p findings Hstep Hf) as Hr. destruct (run_step _ _ _ _ _ _ _) as [[[e p'] f'] []]; [by apply IH|done].
Qed.
End Provenance.

(** ** Properties *)

(** A pattern that matches at the front, and captures what follows it. *)
#[export] Instance prefix_engine : PatternEngine := {|
  Compiled := text;
  Captures := text;
  compile_pattern := Some;
  captures := strip_prefix;
  captured_name := fun rest _ => Some rest;
  captured_index := fun rest _ => Some rest;
|}.

Definition no_gate : GateRule := mkGateRule None [] None [] (Some (lit "tcp")) None.

Definition sample_flow (class : Class) (steps : list Step) : FlowDetection :=
  mkFlow (mkManifest (lit "redis-unauth") (lit "1.2.3") (lit "Redis") None no_gate
    (mkCapabilitySpec class (if bool_decide (class = Passive) then None else Some SpeakTarget) false None None None)) steps.

Definition sample_spec (when_ summary : string) : FindingSpec :=
  mkFindingSpec (Some (lit when_)) (PerExposure (mkSeverityByExposure Critical None (Some Low))) None (lit summary) None None
    [Cwe 306; Cve (lit "not-a-cve")] None None.

Definition sample_step : Step :=
  mkStep None (Some (mkForEach (lit "cmd") [lit "INFO"; lit "PING"])) (Some (lit "{cmd}\r\n")) [Pattern (lit "+")] None
    [(lit "reply", Pattern (lit "+"))] NoMatchContinue [sample_spec "matched and reply != ''" "{host} answers {cmd} with {reply}"].

(** A socket that answers every payload with a plus sign and the payload, and keeps the
    bytes it was sent. *)
Definition echo_probe : Probe (list (list Z)) :=
  mkProbe (fun sent _ => sent) (fun sent _ => sent) (fun sent bytes => (sent ++ [bytes], Some (43 :: bytes))).

Definition sample_seed : FlowSeed := flow_seed_new (lit "10.0.0.7") 6379.

Example sample_runs :
  check (sample_flow ActiveBenign [sample_step]) = [] /\
  title <$> snd (run_flow (Build := unit) echo_probe (sample_flow ActiveBenign [sample_step]) (lit "hash") sample_seed []) =
    [lit "10.0.0.7 answers INFO with INFO" ++ [13; 10]; lit "10.0.0.7 answers PING with PING" ++ [13; 10]].
Proof. split; vm_compute; reflexivity. Qed.

(** C28: a flow asks no more than it announces.  Whatever the probe answers, the exchanges
    it makes are at most the number it was told before the first, and that is at most
    1024; and a flow that passes the validator as passive makes none. *)
Theorem exchanges_are_bounded `{PatternEngine} {Build} `{EqDecision Build} {P} (pr : Probe P) (flow : FlowDetection)
    (content_hash : text) (seed : FlowSeed) (p : P) :
  let made := snd (fst (run_flow (Build := Build) (metered pr) flow content_hash seed (p, 0%nat))) in
  Z.of_nat made <= exchanges flow <= 1024 /\
  (check flow = [] -> cap_class (dm_capabilities (flow_detection flow)) = Passive -> made = 0%nat).
Proof.
  intros made. destruct (exchanges_sum flow) as [Hsum Hbound].
  pose proof (run_steps_exchanges (Build := Build) pr flow content_hash seed (take MAX_FLOW_STEPS (flow_step flow)) (seed_env seed ∅)
    (plan (metered pr) (p, 0%nat) (exchanges flow)) []) as Hrun.
  unfold run_flow, run_from in made. destruct (run_steps _ _ _ _ _ _ _ _) as [p' f'] eqn:E. cbn [fst snd metered plan Nat.add] in made, Hrun. subst made.
  split; [lia|]. intros Hc Hclass. unfold check in Hc. rewrite !app_nil in Hc. destruct Hc as (_ & Hcap & _).
  unfold check_capabilities in Hcap. rewrite Hclass, bool_decide_true in Hcap by done. rewrite !app_nil, !push_if_none in Hcap.
  destruct Hcap as (_ & _ & Hsend & _). rewrite planned_turns in Hrun.
  assert (filter (fun step => is_some (step_send step) = true) (take MAX_FLOW_STEPS (flow_step flow)) = []) as Hnone.
  { destruct (filter _ _) as [|step l] eqn:Ef; [done|]. exfalso.
    assert (step ∈ filter (fun step => is_some (step_send step) = true) (take MAX_FLOW_STEPS (flow_step flow))) as Hin by (rewrite Ef; by left).
    apply list_elem_of_filter in Hin as [Hs Hin]. apply not_true_iff_false in Hsend. apply Hsend, existsb_exists. exists step.
    split; [|done]. apply list_elem_of_In. by apply subseteq_take in Hin. }
  rewrite Hnone in Hrun. cbn [fmap list_fmap foldr] in Hrun. lia.
Qed.

Lemma exchanges_are_bounded_witness :
  let x := mkFindingSpec None (Flat Info) None (lit "{host}") None None [] None None in
  let quiet := sample_flow Passive [mkStep None None None [] None [] NoMatchHalt [x]] in
  check quiet = [] /\ snd (fst (run_flow (Build := unit) (metered echo_probe) quiet (lit "h") sample_seed ([], 0%nat))) = 0%nat.
Proof.
  intros x quiet. assert (check quiet = []) as Hc by (vm_compute; reflexivity). split; [exact Hc|].
  exact (proj2 (exchanges_are_bounded (Build := unit) echo_probe quiet (lit "h") sample_seed []) Hc eq_refl).
Defined.

(** C2: a flow that passes the validator reads what it declares and nothing else.  Started
    with any variables already bound that are not its own, it sends the same bytes, is
    answered the same and emits the same findings: every name its guards, its templates
    and its excerpts read is a seed, a loop's variable or a bind of the flow. *)
Theorem validated_flow_is_closed `{PatternEngine} {Build} `{EqDecision Build} {P} (pr : Probe P) (flow : FlowDetection)
    (content_hash : text) (seed : FlowSeed) (env : Env) (p : P) :
  check flow = [] -> (forall name, name ∈ declared flow -> env !! name = None) ->
  run_from (Build := Build) pr flow content_hash seed env p = run_flow pr flow content_hash seed p.
Proof.
  intros Hc Henv. unfold run_flow, run_from. apply (run_steps_agrees pr flow content_hash seed (declared flow)).
  - apply Forall_take. by apply checked_flow_in.
  - unfold seed_env. do 2 apply agree_insert. intros name Hn. rewrite Henv by done. symmetry. apply lookup_empty.
Qed.

Lemma validated_flow_is_closed_witness :
  run_from (Build := unit) echo_probe (sample_flow ActiveBenign [sample_step]) (lit "h") sample_seed {[ lit "stray" := lit "x" ]} [] =
  run_flow echo_probe (sample_flow ActiveBenign [sample_step]) (lit "h") sample_seed [].
Proof.
  apply validated_flow_is_closed; [vm_compute; reflexivity|]. intros name Hn.
  destruct (decide (name = lit "stray")) as [->|Hne]; [|by apply lookup_singleton_None].
  exfalso. revert Hn. apply (bool_decide_unpack _). vm_compute. exact I.
Defined.

(** Every finding of a flow is that flow's.  It carries the flow's id, content hash
    and class, a title that is not blank, at most two kilobytes of excerpt, and the
    severity one of the flow's specifications gives at the exposure of the host; and the
    version stamped is the one written in the manifest, which the validator has made
    sure can be read. *)
Theorem flow_findings_are_its_own `{PatternEngine} {Build} `{EqDecision Build} {P} (pr : Probe P) (flow : FlowDetection)
    (content_hash : text) (seed : FlowSeed) (p : P) :
  Forall (made_by flow content_hash seed) (snd (run_flow (Build := Build) pr flow content_hash seed p)) /\
  (check flow = [] -> exists v, version_from_str (dm_version (flow_detection flow)) = Ok v /\
    Forall (fun f => det_version (detection f) = v) (snd (run_flow (Build := Build) pr flow content_hash seed p))).
Proof.
  assert (Forall (made_by flow content_hash seed) (snd (run_flow (Build := Build) pr flow content_hash seed p))) as Hm.
  { apply run_steps_made; [|done]. apply Forall_take, Forall_forall. done. }
  split; [done|]. intros Hc. unfold check in Hc. rewrite !app_nil in Hc. destruct Hc as (Hid & _).
  unfold check_identity in Hid. rewrite !app_nil in Hid. destruct Hid as (_ & _ & _ & Hv). apply push_if_none, negb_false_iff in Hv.
  rewrite version_triple_parses in Hv. destruct (version_from_str _) as [v|] eqn:E; [|done]. exists v. split; [done|].
  eapply Forall_impl; [exact Hm|]. intros f Hf. by apply Hf.
Qed.

Lemma flow_findings_are_its_own_witness :
  let flow := sample_flow ActiveBenign [sample_step] in
  exists v, version_from_str (lit "1.2.3") = Ok v /\ v = mkVersion 1 2 3 /\
    Forall (fun f => det_version (detection f) = v) (snd (run_flow (Build := unit) echo_probe flow (lit "h") sample_seed [])).
Proof.
  intros flow.
  destruct (proj2 (flow_findings_are_its_own (Build := unit) echo_probe flow (lit "h") sample_seed [])) as (v & Hv & Hall);
    [vm_compute; reflexivity|].
  exists v. split_and!; [exact Hv| |exact Hall]. vm_compute in Hv. injection Hv as <-. reflexivity.
Defined.

(** A brace that does not close passes the validator, and what it is written in is never
    filled in. *)
Lemma unclosed_brace_validates :
  let flow := sample_flow ActiveBenign [mkStep None None (Some (lit "PING {")) [] None [] NoMatchContinue
    [mkFindingSpec None (Flat High) None (lit "open {") None None [] None None]] in
  check flow = [] /\ snd (run_flow (Build := unit) echo_probe flow (lit "h") sample_seed []) = [] /\
  fst (run_flow (Build := unit) echo_probe flow (lit "h") sample_seed []) = [].
Proof. split_and!; vm_compute; reflexivity. Qed.
