(* ===== verification/Ledger.v ===== *)
(** * The ledger of outstanding probes

    [src/src/scanner/pacing/retry.rs] and [later] of
    [src/src/scanner/pacing/timer.rs].  A probe is armed when it is sent, resolved
    when a reply to one of its attempts arrives, and retried or retired when its
    timer fires.  Timers are never taken out of the heap: a record carries the
    generation of the one timer that counts, and the others are passed over when
    they fire.  The theorems say that this comes to one clock per probe.

    Durations and instants are nanoseconds.  Timeouts are scaled in [f64], which is
    an interface here with the laws its use relies on; the heap and its order among
    equal times, the largest instant of the platform and the measurements of a host
    are parameters too. *)

From Stdlib Require Import ZArith Lia.
From stdpp Require Import base numbers sets gmap option list.
From S2P Require Import Prelude Std IpRange.

Local Open Scope Z_scope.
Local Open Scope word_scope.

(** ** Definitions *)

Definition DURATION_MAX : Z := 2 ^ 64 * 10 ^ 9 - 1.

Definition duration_add (a b : Z) : Z := Z.min (a + b) DURATION_MAX.

Definition duration_clamp (x lo hi : Z) : Z := Z.min (Z.max x lo) hi.

(** What the schedule uses of [f64]. *)
Class Float64 (F : Type) := {
  (** [x <= 1.0], [x <= 0.0] and [x.min(1.0)]. *)
  f_le_one : F -> bool;
  f_le_zero : F -> bool;
  f_min_one : F -> F;
  (** [x.powi(n)]. *)
  f_powi : F -> Z -> F;
  (** [1.0 + (unit as f64 / (1 << 53) as f64) * spread]. *)
  f_spread : Z -> F -> F;
  (** [Duration::as_secs_f64], [x * y], [x > 0.0], and [Duration::try_from_secs_f64]. *)
  f_secs : Z -> F;
  f_times : F -> F -> F;
  f_above_zero : F -> bool;
  f_try_secs : F -> option Z;
}.

Definition saturating_mul {F} `{!Float64 F} (duration : Z) (factor : F) : Z :=
  let seconds := f_times (f_secs duration) factor in
  match f_try_secs seconds with Some d => d | None => if f_above_zero seconds then DURATION_MAX else 0 end.

(** *** Policy *)

Record SilentHostPolicy := mkSilentHostPolicy {
  sh_threshold : Z;
  sh_reduced_attempts : Z;
}.

Record RetryPolicy (F : Type) := mkRetryPolicy {
  max_attempts : Z;
  initial_rto : Z;
  min_rto : Z;
  max_rto : Z;
  backoff : F;
  rp_jitter : F;
  silent_host : option SilentHostPolicy;
  cross_host_estimate : bool;
}.
Arguments mkRetryPolicy {F}.
Arguments max_attempts {F}.
Arguments initial_rto {F}.
Arguments min_rto {F}.
Arguments max_rto {F}.
Arguments backoff {F}.
Arguments rp_jitter {F}.
Arguments silent_host {F}.
Arguments cross_host_estimate {F}.

(** *** Round trips *)

Definition MIN_HEADROOM_DIVISOR : Z := 4.

Record RttEstimator := mkRttEstimator {
  smoothed : option Z;
  variation : Z;
  est_seeded : bool;
}.

Definition estimator_default : RttEstimator := mkRttEstimator None 0 false.

(** [RttEstimator::record]. *)
Definition estimator_record (e : RttEstimator) (sample : Z) : RttEstimator :=
  match (if est_seeded e then None else smoothed e) with
  | None => mkRttEstimator (Some sample) (sample / 2) false
  | Some s =>
      let deviation := Z.abs (s - sample) in
      mkRttEstimator (Some ((s * 7 + sample) / 8)) ((variation e * 3 + deviation) / 4) false
  end.

(** [RttEstimator::timeout]. *)
Definition estimator_timeout (e : RttEstimator) : option Z :=
  (fun s => duration_add s (Z.max (variation e * 4) (s / MIN_HEADROOM_DIVISOR))) <$> smoothed e.

Definition estimator_is_empty (e : RttEstimator) : bool :=
  match smoothed e with None => true | Some _ => false end.

(** [RttEstimator::seed]. *)
Definition estimator_seed (e : RttEstimator) (rtt : Z) : RttEstimator :=
  if estimator_is_empty e then
    let e := estimator_record e rtt in mkRttEstimator (smoothed e) (variation e) true
  else e.

(** *** One probe *)

Definition MAX_TRACKED_ATTEMPTS : nat := 4.

Record Attempt (T : Type) := mkAttempt {
  a_token : T;
  a_sent_at : Z;
  a_witnessed : bool;
}.
Arguments mkAttempt {T}.
Arguments a_token {T}.
Arguments a_sent_at {T}.
Arguments a_witnessed {T}.

(** [Record] of the source. *)
Record ProbeRecord (T P : Type) := mkProbeRecord {
  r_payload : P;
  r_host : IpAddr;
  r_attempts : list (option (Attempt T));
  r_sends : Z;
  r_witnessed : Z;
  r_recorded : Z;
  r_budget : Z;
  r_generation : Z;
  r_deferred : bool;
}.
Arguments mkProbeRecord {T P}.
Arguments r_payload {T P}.
Arguments r_host {T P}.
Arguments r_attempts {T P}.
Arguments r_sends {T P}.
Arguments r_witnessed {T P}.
Arguments r_recorded {T P}.
Arguments r_budget {T P}.
Arguments r_generation {T P}.
Arguments r_deferred {T P}.

Record HostState := mkHostState {
  h_estimator : RttEstimator;
  h_outstanding : Z;
  h_answers : Z;
  h_silences : Z;
  h_exhausted_silently : Z;
}.

Definition hoststate_default : HostState := mkHostState estimator_default 0 0 0 0.

Record Timer (K : Type) := mkTimer {
  tm_due : Z;
  tm_key : K;
  tm_generation : Z;
}.
Arguments mkTimer {K}.
Arguments tm_due {K}.
Arguments tm_key {K}.
Arguments tm_generation {K}.

Inductive Due (K P : Type) :=
  | Retry (key : K) (attempt : Z)
  | Exhausted (key : K) (payload : P) (attempts witnessed : Z).
Arguments Retry {K P}.
Arguments Exhausted {K P}.

Record Resolution (P : Type) := mkResolution {
  res_payload : P;
  res_rtt : option Z;
  res_attempts : Z;
  res_answered_attempt : option Z;
}.
Arguments mkResolution {P}.

(** The heap of timers: [pop] takes one that is due no later than any other. *)
Class TimerHeap (K : Type) := {
  heap_pop : list (Timer K) -> option (Timer K * list (Timer K));
  heap_pop_empty : forall l, heap_pop l = None <-> l = [];
  heap_pop_min : forall l t rest,
    heap_pop l = Some (t, rest) -> l ≡ₚ t :: rest /\ Forall (fun u => tm_due t <= tm_due u) rest;
}.

Record ProbeLedger (F K T P : Type) `{Countable K} := mkProbeLedger {
  policy : RetryPolicy F;
  records : gmap K (ProbeRecord T P);
  timers : list (Timer K);
  hosts : gmap IpAddr HostState;
  global : RttEstimator;
  next_generation : Z;
  jitter : Z;
}.
Arguments mkProbeLedger {F K T P _ _}.
Arguments policy {F K T P _ _}.
Arguments records {F K T P _ _}.
Arguments timers {F K T P _ _}.
Arguments hosts {F K T P _ _}.
Arguments global {F K T P _ _}.
Arguments next_generation {F K T P _ _}.
Arguments jitter {F K T P _ _}.

(** *** Records *)

Section Records.
Context {T P : Type} `{EqDecision T}.

(** [Record::new]. *)
Definition record_new (host : IpAddr) (budget generation : Z) (payload : P) : ProbeRecord T P :=
  mkProbeRecord payload host (replicate MAX_TRACKED_ATTEMPTS None) 1 0 0 budget generation false.

Definition with_attempts (r : ProbeRecord T P) (attempts : list (option (Attempt T))) (witnessed recorded : Z)
    : ProbeRecord T P :=
  mkProbeRecord (r_payload r) (r_host r) attempts (r_sends r) witnessed recorded (r_budget r) (r_generation r) (r_deferred r).

(** [position(Option::is_none)]. *)
Fixpoint first_free (l : list (option (Attempt T))) : option nat :=
  match l with
  | [] => None
  | None :: _ => Some O
  | Some _ :: rest => S <$> first_free rest
  end.

Definition record_attempt (r : ProbeRecord T P) (token : T) (sent_at : Z) : ProbeRecord T P :=
  let recorded := sat_add 8 (r_recorded r) 1 in
  let fresh := mkAttempt token sent_at false in
  let newest := (MAX_TRACKED_ATTEMPTS - 1)%nat in
  match r_attempts r !! newest with
  | Some (Some _) =>
      (** [rotate_left(1)], and the last slot is the fresh one's. *)
      with_attempts r (<[newest := Some fresh]> (drop 1 (r_attempts r) ++ take 1 (r_attempts r))) (r_witnessed r) recorded
  | _ =>
      let slot := default newest (first_free (r_attempts r)) in
      with_attempts r (<[slot := Some fresh]> (r_attempts r)) (r_witnessed r) recorded
  end.

(** The attempts that are there, oldest first: [iter().flatten()]. *)
Definition tracked (r : ProbeRecord T P) : list (Attempt T) := omap id (r_attempts r).

(** The first attempt with this token is witnessed, unless it was. *)
Fixpoint witness_in (token : T) (l : list (option (Attempt T))) : option (list (option (Attempt T))) :=
  match l with
  | [] => None
  | None :: rest => cons None <$> witness_in token rest
  | Some a :: rest =>
      if bool_decide (a_token a = token) then
        (if a_witnessed a then None else Some (Some (mkAttempt (a_token a) (a_sent_at a) true) :: rest))
      else cons (Some a) <$> witness_in token rest
  end.

(** [Record::witness]. *)
Definition record_witness (r : ProbeRecord T P) (token : T) : ProbeRecord T P * bool :=
  match witness_in token (r_attempts r) with
  | Some attempts => (with_attempts r attempts (sat_add 8 (r_witnessed r) 1) (r_recorded r), true)
  | None => (r, false)
  end.

(** The first attempt with this token, with its place. *)
Fixpoint find_attempt (token : T) (slot : nat) (l : list (Attempt T)) : option (nat * Attempt T) :=
  match l with
  | [] => None
  | a :: rest => if bool_decide (a_token a = token) then Some (slot, a) else find_attempt token (S slot) rest
  end.

(** [Record::attempt_of]. *)
Definition attempt_of (r : ProbeRecord T P) (token : T) : option (Z * Z) :=
  let live := tracked r in
  (fun '(slot, a) =>
     let back_from_newest := Z.of_nat (length live - 1 - slot) in
     (sat_sub (r_recorded r) back_from_newest, a_sent_at a)) <$> find_attempt token 0 live.

(** [Record::unambiguous_sent_at]. *)
Definition unambiguous_sent_at (r : ProbeRecord T P) : option Z :=
  if negb (r_sends r =? 1) then None else a_sent_at <$> head (tracked r).
End Records.

(** *** The policy's arithmetic *)

Section Policy.
Context {F : Type} `{!Float64 F}.

(** [RetryPolicy::budget_for]. *)
Definition budget_for (p : RetryPolicy F) (host : option HostState) : Z :=
  match silent_host p, host with
  | Some rule, Some host =>
      if (h_answers host =? 0) && (sh_threshold rule <=? h_exhausted_silently host)
      then Z.min (sh_reduced_attempts rule) (max_attempts p)
      else max_attempts p
  | _, _ => max_attempts p
  end.

Definition scale (base : Z) (backoff : F) (attempt ceiling : Z) : Z :=
  if (attempt <=? 1) || f_le_one backoff then Z.min base ceiling
  else Z.min (saturating_mul base (f_powi backoff (attempt - 1))) ceiling.

(** [Jitter::next_u64]: the state and the number drawn. *)
Definition next_u64 (state : Z) : Z * Z :=
  let state := state +[64] 0x9E3779B97F4A7C15 in
  let z := state in
  let z := Z.lxor z (Z.shiftr z 30) *[64] 0xBF58476D1CE4E5B9 in
  let z := Z.lxor z (Z.shiftr z 27) *[64] 0x94D049BB133111EB in
  (state, Z.lxor z (Z.shiftr z 31)).

(** [Jitter::spread]. *)
Definition spread (state base : Z) (width : F) : Z * Z :=
  if f_le_zero width then (state, base)
  else
    let width := f_min_one width in
    let '(state, drawn) := next_u64 state in
    (state, saturating_mul base (f_spread (Z.shiftr drawn 11) width)).
End Policy.

(** *** [later] *)

Definition FAR_FUTURE : Z := 30 * 365 * 24 * 60 * 60 * 10 ^ 9.

Section Ledger.
(** The last instant the platform can name. *)
Context (instant_max : Z).

Definition later (from by_ : Z) : Z :=
  if from + by_ <=? instant_max then from + by_
  else if from + FAR_FUTURE <=? instant_max then from + FAR_FUTURE
  else from.

Context {F K T P : Type} `{!Float64 F} `{Countable K} `{EqDecision T} `{!TimerHeap K}.
Local Notation ledger := (ProbeLedger F K T P).

(** [ProbeLedger::seeded]; [new] draws the seed. *)
Definition ledger_seeded (p : RetryPolicy F) (seed : Z) : ledger :=
  mkProbeLedger p ∅ [] ∅ estimator_default 0 seed.

Definition with_records (l : ledger) (rs : gmap K (ProbeRecord T P)) : ledger :=
  mkProbeLedger (policy l) rs (timers l) (hosts l) (global l) (next_generation l) (jitter l).

Definition with_hosts (l : ledger) (hs : gmap IpAddr HostState) : ledger :=
  mkProbeLedger (policy l) (records l) (timers l) hs (global l) (next_generation l) (jitter l).

Definition with_timers (l : ledger) (ts : list (Timer K)) : ledger :=
  mkProbeLedger (policy l) (records l) ts (hosts l) (global l) (next_generation l) (jitter l).

Definition take_generation (l : ledger) : ledger * Z :=
  let generation := next_generation l +[32] 1 in
  (mkProbeLedger (policy l) (records l) (timers l) (hosts l) (global l) generation (jitter l), generation).

(** [hosts.entry(host).or_default()]. *)
Definition host_state (l : ledger) (host : IpAddr) : HostState := default hoststate_default (hosts l !! host).

Definition timeout_for (l : ledger) (host : IpAddr) (attempt : Z) : ledger * Z :=
  let p := policy l in
  let measured :=
    match hosts l !! host ≫= fun state => estimator_timeout (h_estimator state) with
    | Some t => Some t
    | None => if cross_host_estimate p then estimator_timeout (global l) else None
    end in
  let ceiling := Z.max (max_rto p) (min_rto p) in
  let base := duration_clamp (default (initial_rto p) measured) (min_rto p) ceiling in
  let scaled := scale base (backoff p) attempt ceiling in
  let '(state, timeout) := spread (jitter l) scaled (rp_jitter p) in
  (mkProbeLedger p (records l) (timers l) (hosts l) (global l) (next_generation l) state, timeout).

(** Sets a timer for [key], due after the timeout of [host] at this attempt. *)
Definition push_timer (l : ledger) (host : IpAddr) (key : K) (attempt generation now : Z) : ledger :=
  let '(l, timeout) := timeout_for l host attempt in
  with_timers l (mkTimer (later now timeout) key generation :: timers l).

Definition clocked (r : ProbeRecord T P) (generation : Z) (deferred : bool) : ProbeRecord T P :=
  mkProbeRecord (r_payload r) (r_host r) (r_attempts r) (r_sends r) (r_witnessed r) (r_recorded r) (r_budget r)
    generation deferred.

(** The record an arm leaves in place of one that is there. *)
Definition rearmed (r : ProbeRecord T P) (budget generation : Z) (payload : option P) : ProbeRecord T P :=
  mkProbeRecord (default (r_payload r) payload) (r_host r) (r_attempts r) (r_sends r) (r_witnessed r) (r_recorded r)
    budget generation false.

Definition arm_inner (l : ledger) (host : IpAddr) (key : K) (token : T) (payload : option P) (now : Z) : ledger :=
  let '(l, generation) := take_generation l in
  let state := host_state l host in
  let budget := budget_for (policy l) (Some state) in
  match records l !! key with
  | Some record =>
      let l := with_hosts l (<[host := state]> (hosts l)) in
      let record := record_attempt (rearmed record budget generation payload) token now in
      push_timer (with_records l (<[key := record]> (records l))) host key (r_sends record) generation now
  | None =>
      match payload with
      | None => with_hosts l (<[host := state]> (hosts l))
      | Some payload =>
          let state := mkHostState (h_estimator state) (h_outstanding state +[32] 1) (h_answers state) (h_silences state)
                         (h_exhausted_silently state) in
          let l := with_hosts l (<[host := state]> (hosts l)) in
          let record := record_attempt (record_new host budget generation payload) token now in
          push_timer (with_records l (<[key := record]> (records l))) host key (r_sends record) generation now
      end
  end.

Definition arm (l : ledger) (host : IpAddr) (key : K) (token : T) (payload : P) (now : Z) : ledger :=
  arm_inner l host key token (Some payload) now.

Definition rearm (l : ledger) (host : IpAddr) (key : K) (token : T) (now : Z) : ledger :=
  arm_inner l host key token None now.

(** The host of a probe that was answered. *)
Definition host_answered (s : HostState) (rtt : option Z) : HostState :=
  mkHostState (match rtt with Some rtt => estimator_record (h_estimator s) rtt | None => h_estimator s end)
    (sat_sub (h_outstanding s) 1) (sat_add 32 (h_answers s) 1) (h_silences s) (h_exhausted_silently s).

Definition resolve (l : ledger) (key : K) (token : option T) (now : Z) : ledger * option (Resolution P) :=
  match records l !! key with
  | None => (l, None)
  | Some record =>
      let attributed :=
        match token with
        | Some token => Some <$> attempt_of record token
        | None => Some ((fun sent_at => (1, sent_at)) <$> unambiguous_sent_at record)
        end in
      match attributed with
      | None => (l, None)
      | Some attributed =>
          let rtt := (fun sent_at => sat_sub now sent_at) <$> (snd <$> attributed) in
          let state := host_answered (host_state l (r_host record)) rtt in
          let global := match rtt with Some rtt => estimator_record (global l) rtt | None => global l end in
          (mkProbeLedger (policy l) (delete key (records l)) (timers l) (<[r_host record := state]> (hosts l)) global
             (next_generation l) (jitter l),
           Some (mkResolution (r_payload record) rtt (r_sends record) (fst <$> attributed)))
      end
  end.

Definition retire (l : ledger) (host : IpAddr) : ledger :=
  let s := host_state l host in
  let silently := if h_answers s =? 0 then sat_add 16 (h_exhausted_silently s) 1 else h_exhausted_silently s in
  with_hosts l (<[host := mkHostState (h_estimator s) (sat_sub (h_outstanding s) 1) (h_answers s) (h_silences s) silently]> (hosts l)).

(** A first attempt that went unanswered. *)
Definition count_silence (l : ledger) (record : ProbeRecord T P) : ledger :=
  if r_sends record =? 1 then
    let s := host_state l (r_host record) in
    with_hosts l (<[r_host record := mkHostState (h_estimator s) (h_outstanding s) (h_answers s)
                                       (sat_add 32 (h_silences s) 1) (h_exhausted_silently s)]> (hosts l))
  else l.

(** The count of sends is below the budget, a [u8], where a probe is sent again, so that it
    does not wrap. *)
Definition resent (r : ProbeRecord T P) (generation : Z) : ProbeRecord T P :=
  mkProbeRecord (r_payload r) (r_host r) (r_attempts r) (r_sends r + 1) (r_witnessed r) (r_recorded r) (r_budget r)
    generation (r_deferred r).

(** One timer that fired: the body of the loop of [drain_due]. *)
Definition fire (l : ledger) (timer : Timer K) (now : Z) : ledger * option (Due K P) :=
  match records l !! tm_key timer with
  | None => (l, None)
  | Some record =>
      if negb (r_generation record =? tm_generation timer) then (l, None)
      else
        let l := count_silence l record in
        if r_budget record <=? r_sends record then
          (retire (with_records l (delete (tm_key timer) (records l))) (r_host record),
           Some (Exhausted (tm_key timer) (r_payload record) (r_sends record) (r_witnessed record)))
        else
          let '(l, generation) := take_generation l in
          let record := resent record generation in
          let l := with_records l (<[tm_key timer := record]> (records l)) in
          (push_timer l (r_host record) (tm_key timer) (r_sends record) generation now,
           Some (Retry (tm_key timer) (r_sends record)))
  end.

(** The loop of [drain_due]: [None] when the fuel runs out. *)
Fixpoint drain_from (fuel : nat) (l : ledger) (now : Z) (out : list (Due K P)) : option (ledger * list (Due K P)) :=
  match fuel with
  | O => None
  | S fuel =>
      match heap_pop (timers l) with
      | None => Some (l, out)
      | Some (timer, rest) =>
          if now <? tm_due timer then Some (l, out)
          else
            let '(l, due) := fire (with_timers l rest) timer now in
            drain_from fuel l now (out ++ option_list due)
      end
  end.

(** How many more sends a record has. *)
Definition sends_left (r : ProbeRecord T P) : nat := Z.to_nat (r_budget r - r_sends r).

(** Every turn of the loop takes a timer for good or sends one of the sends left. *)
Definition sum_over (f : ProbeRecord T P -> nat) (rs : gmap K (ProbeRecord T P)) : nat :=
  map_fold (fun _ r n => (f r + n)%nat) 0%nat rs.

Definition drain_fuel (l : ledger) : nat := S (length (timers l) + sum_over sends_left (records l)).

Definition drain_due (l : ledger) (now : Z) (out : list (Due K P)) : option (ledger * list (Due K P)) :=
  drain_from (drain_fuel l) l now out.

Definition next_due (l : ledger) : option Z := tm_due ∘ fst <$> heap_pop (timers l).

Definition defer (l : ledger) (key : K) : ledger :=
  let '(l, generation) := take_generation l in
  match records l !! key with
  | Some record => with_records l (<[key := clocked record generation true]> (records l))
  | None => l
  end.

Definition resume (l : ledger) (key : K) (now : Z) : ledger :=
  match records l !! key with
  | None => l
  | Some record =>
      if negb (r_deferred record) then l
      else
        let '(l, timeout) := timeout_for l (r_host record) (r_sends record) in
        let '(l, generation) := take_generation l in
        let l := with_records l (<[key := clocked record generation false]> (records l)) in
        with_timers l (mkTimer (later now timeout) key generation :: timers l)
  end.

Definition drain_unresolved (l : ledger) : ledger * list K :=
  let forgotten s := mkHostState (h_estimator s) 0 (h_answers s) (h_silences s) (h_exhausted_silently s) in
  (mkProbeLedger (policy l) ∅ [] (forgotten <$> hosts l) (global l) (next_generation l) (jitter l),
   fst <$> map_to_list (records l)).

Definition ledger_witness (l : ledger) (key : K) (token : T) : ledger * bool :=
  match records l !! key with
  | None => (l, false)
  | Some record =>
      let '(record, seen) := record_witness record token in
      (with_records l (<[key := record]> (records l)), seen)
  end.

Definition ledger_len (l : ledger) : nat := size (records l).

Definition ledger_contains (l : ledger) (key : K) : bool :=
  match records l !! key with Some _ => true | None => false end.

Definition names_attempt (l : ledger) (key : K) (token : option T) : bool :=
  match records l !! key, token with
  | None, _ => false
  | Some record, Some token => match attempt_of record token with Some _ => true | None => false end
  | Some _, None => true
  end.

Definition host_has_answered (l : ledger) (host : IpAddr) : bool :=
  match hosts l !! host with Some s => 0 <? h_answers s | None => false end.

Definition ANSWERING_ONE_IN : Z := 10.

Definition host_is_answering (l : ledger) (host : IpAddr) : bool :=
  match hosts l !! host with
  | Some s => h_answers s + h_silences s <? h_answers s * ANSWERING_ONE_IN
  | None => false
  end.

Definition seed_host_rtt (l : ledger) (host : IpAddr) (rtt : Z) : ledger :=
  let s := host_state l host in
  let seeded := mkHostState (estimator_seed (h_estimator s) rtt) (h_outstanding s) (h_answers s) (h_silences s)
                  (h_exhausted_silently s) in
  mkProbeLedger (policy l) (records l) (timers l) (<[host := seeded]> (hosts l))
    (if cross_host_estimate (policy l) then estimator_seed (global l) rtt else global l) (next_generation l) (jitter l).

(** [median] and [resolves_the_link] are what the host's telemetry measured. *)
Definition seed_host (l : ledger) (host : IpAddr) (median : option Z) (resolves_the_link : bool) : ledger :=
  match median with
  | None => l
  | Some rtt =>
      let refused :=
        resolves_the_link &&
        match estimator_timeout (estimator_record estimator_default rtt) with
        | None => true
        | Some timeout => initial_rto (policy l) <=? timeout
        end in
      if refused then l else seed_host_rtt l host rtt
  end.

(** ** One clock per probe *)

(** The timers that would fire for this generation of a probe. *)
Definition timers_of (ts : list (Timer K)) (key : K) (generation : Z) : list (Timer K) :=
  filter (fun t => tm_key t = key /\ tm_generation t = generation) ts.

(** When the probe's timer fires. *)
Definition clock (l : ledger) (key : K) (r : ProbeRecord T P) : option Z :=
  tm_due <$> head (timers_of (timers l) key (r_generation r)).

Definition probes_on (rs : gmap K (ProbeRecord T P)) (host : IpAddr) : Z :=
  Z.of_nat (size (filter (fun kr : K * ProbeRecord T P => r_host (snd kr) = host) rs)).

Record record_ok (ts : list (Timer K)) (generations : Z) (key : K) (r : ProbeRecord T P) : Prop := {
  ro_clock : length (timers_of ts key (r_generation r)) = if r_deferred r then 0%nat else 1%nat;
  ro_generation : r_generation r <= generations;
  ro_sends : 1 <= r_sends r <= umax 8;
  ro_budget : r_budget r <= umax 8;
  ro_attempts : length (r_attempts r) = MAX_TRACKED_ATTEMPTS;
}.

(** A probe that is not deferred has exactly one timer that counts, and a host's
    outstanding probes are counted; [but] for some probes. *)
Record ledger_inv_but (but : K -> Prop) (l : ledger) : Prop := {
  inv_records : forall key r, records l !! key = Some r -> ~ but key -> record_ok (timers l) (next_generation l) key r;
  inv_timers : Forall (fun t => tm_generation t <= next_generation l) (timers l);
  inv_generation : 0 <= next_generation l <= umax 32;
  inv_outstanding : forall host, h_outstanding (host_state l host) = probes_on (records l) host;
  inv_size : Z.of_nat (size (records l)) <= next_generation l;
  inv_policy : max_attempts (policy l) <= umax 8;
}.

Definition ledger_inv : ledger -> Prop := ledger_inv_but (fun _ => False).

Lemma timers_of_cons_eq ts key g due :
  timers_of (mkTimer due key g :: ts) key g = mkTimer due key g :: timers_of ts key g.
Proof. apply filter_cons_True. done. Qed.

Lemma timers_of_cons_ne ts t key g :
  tm_key t <> key \/ tm_generation t <> g -> timers_of (t :: ts) key g = timers_of ts key g.
Proof. intros Hne. apply filter_cons_False. intros [E1 E2]. by destruct Hne. Qed.

Lemma timers_of_fresh ts key g :
  Forall (fun t => tm_generation t < g) ts -> timers_of ts key g = [].
Proof.
  intros Hts. unfold timers_of. induction Hts as [|t ts Ht _ IH]; [done|].
  rewrite filter_cons_False; [done|]. intros [_ E]. lia.
Qed.

Lemma timers_of_perm ts us key g : ts ≡ₚ us -> timers_of ts key g ≡ₚ timers_of us key g.
Proof. intros E. unfold timers_of. by rewrite E. Qed.

Lemma clock_perm ts us key g :
  ts ≡ₚ us -> (length (timers_of ts key g) <= 1)%nat -> head (timers_of ts key g) = head (timers_of us key g).
Proof.
  intros E%(timers_of_perm _ _ key g) Hle. destruct (timers_of ts key g) as [|a [|b l]]; cbn in Hle; [| |lia].
  - by apply Permutation_nil_l in E as <-.
  - by apply Permutation_singleton_l in E as ->.
Qed.

(** ** Counting the probes of a host *)

Lemma probes_on_new rs key r host :
  rs !! key = None -> probes_on (<[key := r]> rs) host = probes_on rs host + (if decide (r_host r = host) then 1 else 0).
Proof.
  intros Hk. unfold probes_on. destruct (decide (r_host r = host)) as [E|E].
  - rewrite map_filter_insert_True by done. rewrite map_size_insert_None; [lia|]. apply map_lookup_filter_None. by left.
  - rewrite map_filter_insert_False, delete_id by done. lia.
Qed.

Lemma probes_on_delete rs key r host :
  rs !! key = Some r -> probes_on (delete key rs) host = probes_on rs host - (if decide (r_host r = host) then 1 else 0).
Proof.
  intros Hk. rewrite <- (insert_delete_id rs key r Hk) at 2.
  rewrite probes_on_new by apply lookup_delete_eq. lia.
Qed.

Lemma probes_on_update rs key r r' host :
  rs !! key = Some r -> r_host r' = r_host r -> probes_on (<[key := r']> rs) host = probes_on rs host.
Proof.
  intros Hk Hh. rewrite <- insert_delete_eq, probes_on_new by apply lookup_delete_eq.
  rewrite (probes_on_delete rs key r) by done. rewrite Hh. lia.
Qed.

Lemma probes_on_nonneg rs host : 0 <= probes_on rs host.
Proof. unfold probes_on. lia. Qed.

Lemma probes_on_pos rs key r : rs !! key = Some r -> 1 <= probes_on rs (r_host r).
Proof.
  intros Hk. pose proof (probes_on_nonneg (delete key rs) (r_host r)) as H0.
  rewrite (probes_on_delete rs key r) in H0 by done. rewrite decide_True in H0 by done. lia.
Qed.

Lemma host_state_insert (l : ledger) hs host s host' :
  hosts l = <[host := s]> hs ->
  host_state l host' = if decide (host = host') then s else default hoststate_default (hs !! host').
Proof. intros E. unfold host_state. rewrite E, lookup_insert. by destruct (decide (host = host')). Qed.

Lemma sum_over_new f rs key r : rs !! key = None -> sum_over f (<[key := r]> rs) = (f r + sum_over f rs)%nat.
Proof. intros Hk. unfold sum_over. rewrite map_fold_insert_L; [done|intros; lia|done]. Qed.

Lemma sum_over_delete f rs key r : rs !! key = Some r -> sum_over f rs = (f r + sum_over f (delete key rs))%nat.
Proof. intros Hk. rewrite <- (insert_delete_id rs key r Hk) at 1. apply sum_over_new, lookup_delete_eq. Qed.

Lemma sum_over_update f rs key r r' :
  rs !! key = Some r -> (sum_over f (<[key := r']> rs) + f r = sum_over f rs + f r')%nat.
Proof.
  intros Hk. rewrite <- insert_delete_eq, sum_over_new by apply lookup_delete_eq. rewrite (sum_over_delete f rs key r Hk). lia.
Qed.

(** ** What each piece leaves alone *)

Lemma timeout_for_frame (l : ledger) host attempt :
  let l' := fst (timeout_for l host attempt) in
  policy l' = policy l /\ records l' = records l /\ timers l' = timers l /\ hosts l' = hosts l /\
  global l' = global l /\ next_generation l' = next_generation l.
Proof. unfold timeout_for. by destruct (spread _ _ _). Qed.

Lemma push_timer_frame (l : ledger) host key attempt g now :
  let l' := push_timer l host key attempt g now in
  policy l' = policy l /\ records l' = records l /\ hosts l' = hosts l /\ next_generation l' = next_generation l /\
  timers l' = mkTimer (later now (snd (timeout_for l host attempt))) key g :: timers l.
Proof.
  unfold push_timer. pose proof (timeout_for_frame l host attempt) as Hf. destruct (timeout_for l host attempt) as [l1 t].
  cbn in *. destruct Hf as (-> & -> & -> & -> & _ & ->). done.
Qed.

Lemma take_generation_small (l : ledger) :
  0 <= next_generation l < umax 32 -> snd (take_generation l) = next_generation l + 1.
Proof. intros Hg. cbn. unfold wrap, umax in *. apply Z.mod_small. lia. Qed.

Lemma record_attempt_length (r : ProbeRecord T P) token now :
  length (r_attempts r) = MAX_TRACKED_ATTEMPTS -> length (r_attempts (record_attempt r token now)) = MAX_TRACKED_ATTEMPTS.
Proof.
  intros Hl. unfold record_attempt. destruct (r_attempts r !! _) as [[|]|]; cbn [with_attempts r_attempts];
    rewrite length_insert; [|done|done]. rewrite length_app, length_drop, length_take, Hl. done.
Qed.

Lemma record_attempt_frame (r : ProbeRecord T P) token now :
  let r' := record_attempt r token now in
  r_host r' = r_host r /\ r_sends r' = r_sends r /\ r_budget r' = r_budget r /\ r_generation r' = r_generation r /\
  r_deferred r' = r_deferred r /\ r_payload r' = r_payload r.
Proof. unfold record_attempt. by destruct (r_attempts r !! _) as [[|]|]. Qed.

(** ** A clock started afresh *)

Lemma record_ok_later ts g t key r :
  record_ok ts g key r -> tm_key t <> key \/ g < tm_generation t -> g <= tm_generation t -> record_ok (t :: ts) (tm_generation t) key r.
Proof.
  intros [Hc Hg Hs Hb Ha] Hne Hle. split; [|lia|done|done|done].
  rewrite timers_of_cons_ne; [done|]. destruct Hne as [?|?]; [by left|right; lia].
Qed.

Lemma record_ok_mono ts g g' key r : record_ok ts g key r -> g <= g' -> record_ok ts g' key r.
Proof. intros [Hc Hg Hs Hb Ha] Hle. split; (done || lia). Qed.

Lemma inv_fresh_clock (l l' : ledger) key r' due :
  ledger_inv_but (fun k => k = key) l -> next_generation l < umax 32 ->
  next_generation l' = next_generation l + 1 ->
  records l' = <[key := r']> (records l) ->
  timers l' = (if r_deferred r' then timers l else mkTimer due key (next_generation l') :: timers l) ->
  r_generation r' = next_generation l' -> 1 <= r_sends r' <= umax 8 -> r_budget r' <= umax 8 ->
  length (r_attempts r') = MAX_TRACKED_ATTEMPTS ->
  (forall host, h_outstanding (host_state l' host) = probes_on (records l') host) ->
  policy l' = policy l ->
  ledger_inv l'.
Proof.
  intros [Hr Ht Hg _ Hsize Hpol] Hlt Hn Erec Etim Egen Hs Hb Ha Hout Epol.
  assert (Forall (fun t => tm_generation t < next_generation l') (timers l)) as Hts.
  { eapply Forall_impl; [exact Ht|]. cbn. lia. }
  split; [|rewrite Etim|lia|done| |by rewrite Epol].
  - intros k r. rewrite Erec, lookup_insert. case_decide as Ek.
    + intros [= <-] _. subst k. split; [|lia|done|done|done]. rewrite Etim, Egen.
      destruct (r_deferred r'); [by rewrite timers_of_fresh|]. by rewrite timers_of_cons_eq, timers_of_fresh.
    + intros Hk _. specialize (Hr k r Hk ltac:(congruence)). rewrite Etim. destruct (r_deferred r').
      * eapply record_ok_mono; [exact Hr|lia].
      * change (next_generation l') with (tm_generation (mkTimer due key (next_generation l'))) at 2.
        eapply record_ok_later; [exact Hr|by left|cbn; lia].
  - destruct (r_deferred r'); [|constructor; [cbn; lia|]]; (eapply Forall_impl; [exact Ht|]); cbn; lia.
  - rewrite Erec, Hn, map_size_insert. destruct (records l !! key); unfold id; lia.
Qed.

Lemma inv_but_weaken but (l : ledger) : ledger_inv l -> ledger_inv_but but l.
Proof. intros [H1 H2 H3 H4 H5 H6]. split; [|done..]. intros k r Hk _. apply H1; [done|tauto]. Qed.

Lemma probes_on_size rs host : probes_on rs host <= Z.of_nat (size rs).
Proof. unfold probes_on. apply Nat2Z.inj_le. rewrite map_size_filter. lia. Qed.

Lemma budget_for_fits (p : RetryPolicy F) host : budget_for p host <= max_attempts p.
Proof. unfold budget_for. repeat case_match; lia. Qed.

(** Only the count of generations and the hosts' measurements changed. *)
Lemma inv_frame (l l' : ledger) :
  ledger_inv l -> records l' = records l -> timers l' = timers l ->
  next_generation l <= next_generation l' <= umax 32 ->
  (forall host, h_outstanding (host_state l' host) = h_outstanding (host_state l host)) -> policy l' = policy l ->
  ledger_inv l'.
Proof.
  intros [Hr Ht Hg Hout Hsize Hpol] Er Et Hn Hh Hp. split; rewrite ?Er, ?Et, ?Hp; [| |lia| |lia|done].
  - intros k r Hk Hb. eapply record_ok_mono; [by apply Hr|lia].
  - eapply Forall_impl; [exact Ht|]. cbn. lia.
  - intros host. by rewrite Hh, Hout.
Qed.

(** ** Every operation keeps the invariant *)

Lemma arm_inner_inv (l : ledger) host key token payload now :
  ledger_inv l -> next_generation l < umax 32 ->
  let l' := arm_inner l host key token payload now in
  ledger_inv l' /\ next_generation l' = next_generation l + 1 /\ policy l' = policy l.
Proof.
  intros Hl Hlt. pose proof Hl as [Hr Ht Hg Hout Hsize Hpol]. unfold arm_inner.
  pose proof (take_generation_small l ltac:(lia)) as Eg. destruct (take_generation l) as [l1 g] eqn:E1.
  unfold take_generation in E1. injection E1 as <- <-. cbn [snd] in Eg. cbn [records policy hosts timers next_generation global jitter].
  set (s := host_state _ host). change (host_state l host) with s in *. rewrite Eg.
  assert (s = host_state l host) as Es by done.
  destruct (records l !! key) as [r|] eqn:Ek.
  - set (r' := record_attempt _ token now).
    match goal with |- context [push_timer ?x _ _ _ _ _] => set (l2 := x) end.
    pose proof (push_timer_frame l2 host key (r_sends r') (next_generation l + 1) now) as (Fp & Fr & Fh & Fn & Ft).
    pose proof (record_attempt_frame (rearmed r (budget_for (policy l) (Some s)) (next_generation l + 1) payload) token now)
      as (Rh & Rs & Rb & Rg & Rd & _). fold r' in Rh, Rs, Rb, Rg, Rd. cbn in Rh, Rs, Rb, Rg, Rd.
    specialize (Hr key r Ek ltac:(tauto)) as [_ _ Hs _ Ha].
    split; [|by rewrite Fn, Fp]. eapply (inv_fresh_clock l _ key r'); [by apply inv_but_weaken|done|by rewrite Fn|by rewrite Fr| |..].
    + rewrite Ft, Fn, Rd. done.
    + by rewrite Rg, Fn.
    + by rewrite Rs.
    + rewrite Rb. pose proof (budget_for_fits (policy l) (Some s)). lia.
    + by apply record_attempt_length.
    + intros h. rewrite (host_state_insert _ (hosts l) host s h) by done. rewrite Fr. cbn [records l2 with_records].
      rewrite (probes_on_update _ key r r') by done. rewrite <- Hout. by case_decide; subst.
    + done.
  - destruct payload as [payload|].
    + set (r' := record_attempt _ token now).
      match goal with |- context [push_timer ?x _ _ _ _ _] => set (l2 := x) end.
      pose proof (push_timer_frame l2 host key (r_sends r') (next_generation l + 1) now) as (Fp & Fr & Fh & Fn & Ft).
      pose proof (record_attempt_frame (record_new (T := T) host (budget_for (policy l) (Some s)) (next_generation l + 1) payload) token now)
        as (Rh & Rs & Rb & Rg & Rd & _).
      cbn [record_new r_host r_sends r_budget r_generation r_deferred] in Rh, Rs, Rb, Rg, Rd. fold r' in Rh, Rs, Rb, Rg, Rd.
      split; [|by rewrite Fn, Fp]. eapply (inv_fresh_clock l _ key r'); [by apply inv_but_weaken|done|by rewrite Fn|by rewrite Fr| |..].
      * rewrite Ft, Fn, Rd. done.
      * by rewrite Rg, Fn.
      * rewrite Rs. unfold umax. lia.
      * rewrite Rb. pose proof (budget_for_fits (policy l) (Some s)). lia.
      * by apply record_attempt_length.
      * intros h. rewrite Fr. cbn [records l2 with_records]. rewrite probes_on_new, Rh by done.
        erewrite (host_state_insert _ (hosts l) host _ h) by (rewrite Fh; done).
        case_decide as Eh; [|rewrite <- Hout; cbn; unfold host_state; lia]. subst h. cbn.
        rewrite Es, Hout. pose proof (probes_on_size (records l) host). pose proof (probes_on_nonneg (records l) host).
        unfold wrap. apply Z.mod_small. unfold umax in *. lia.
      * done.
    + split; [|done]. apply (inv_frame l); cbn; [done|done|done|lia| |done].
      intros h. erewrite (host_state_insert _ (hosts l) host s h) by done. by case_decide; subst.
Qed.

Lemma defer_inv (l : ledger) key :
  ledger_inv l -> next_generation l < umax 32 ->
  let l' := defer l key in
  ledger_inv l' /\ next_generation l' = next_generation l + 1 /\ policy l' = policy l.
Proof.
  intros Hl Hlt. pose proof Hl as [Hr Ht Hg Hout Hsize Hpol]. unfold defer.
  pose proof (take_generation_small l ltac:(lia)) as Eg. destruct (take_generation l) as [l1 g] eqn:E1.
  unfold take_generation in E1. injection E1 as <- <-. cbn [snd] in Eg. cbn [records]. rewrite Eg.
  destruct (records l !! key) as [r|] eqn:Ek.
  - split; [|done]. specialize (Hr key r Ek ltac:(tauto)) as [_ _ Hs Hb Ha].
    eapply (inv_fresh_clock l _ key (clocked r (next_generation l + 1) true) 0); try done; [by apply inv_but_weaken|].
    intros h. cbn. rewrite (probes_on_update _ key r) by done. apply Hout.
  - split; [|done]. apply (inv_frame l); cbn; try done. lia.
Qed.

Lemma resume_inv (l : ledger) key now :
  ledger_inv l -> next_generation l < umax 32 ->
  let l' := resume l key now in
  ledger_inv l' /\ next_generation l <= next_generation l' <= next_generation l + 1 /\ policy l' = policy l.
Proof.
  intros Hl Hlt. pose proof Hl as [Hr Ht Hg Hout Hsize Hpol]. unfold resume.
  destruct (records l !! key) as [r|] eqn:Ek; [|split; [done|split; [lia|done]]].
  destruct (r_deferred r); cbn [negb]; [|split; [done|split; [lia|done]]].
  pose proof (timeout_for_frame l (r_host r) (r_sends r)) as Hf.
  destruct (timeout_for l (r_host r) (r_sends r)) as [l1 timeout]. cbn in Hf. destruct Hf as (Fp & Fr & Ft & Fh & _ & Fn).
  pose proof (take_generation_small l1 ltac:(lia)) as Eg. destruct (take_generation l1) as [l2 g] eqn:E1.
  unfold take_generation in E1. injection E1 as <- <-. cbn [snd] in Eg. rewrite Eg, Fn. cbn.
  specialize (Hr key r Ek ltac:(tauto)) as [_ _ Hs Hb Ha]. split; [|split; [lia|done]].
  eapply (inv_fresh_clock l _ key (clocked r (next_generation l + 1) false)); cbn; try done.
  - by apply inv_but_weaken.
  - by rewrite Fr.
  - by rewrite Ft.
  - intros h. cbn. rewrite Fr, (probes_on_update _ key r) by done. unfold host_state. cbn. rewrite Fh. apply Hout.
Qed.

Lemma resolve_inv (l : ledger) key token now :
  ledger_inv l ->
  let l' := fst (resolve l key token now) in
  ledger_inv l' /\ next_generation l' = next_generation l /\ policy l' = policy l.
Proof.
  intros Hl. pose proof Hl as [Hr Ht Hg Hout Hsize Hpol]. unfold resolve.
  destruct (records l !! key) as [r|] eqn:Ek; [|done]. destruct (match token with Some _ => _ | None => _ end) as [a|]; [|done].
  cbn [fst next_generation policy]. split; [|done]. split; cbn; [|done|done| | |done].
  - intros k r' [_ Hk]%lookup_delete_Some Hb. by apply Hr.
  - intros h. erewrite (host_state_insert _ (hosts l) (r_host r) _ h) by done.
    rewrite (probes_on_delete _ key r) by done. case_decide as Eh; [|rewrite <- Hout; unfold host_state; lia].
    subst h. cbn [host_answered h_outstanding]. rewrite Hout. pose proof (probes_on_pos (records l) key r Ek). unfold sat_sub. lia.
  - rewrite map_size_delete_Some by eauto. lia.
Qed.

Lemma seed_host_rtt_inv (l : ledger) host rtt :
  ledger_inv l -> let l' := seed_host_rtt l host rtt in
  ledger_inv l' /\ next_generation l' = next_generation l /\ policy l' = policy l.
Proof.
  intros Hl. split; [|done]. apply (inv_frame l); cbn; try done; [destruct Hl as [_ _ Hg _ _ _]; lia|].
  intros h. erewrite (host_state_insert _ (hosts l) host _ h) by done. by case_decide; subst.
Qed.

Lemma witness_in_length (token : T) (a a' : list (option (Attempt T))) : witness_in token a = Some a' -> length a' = length a.
Proof.
  revert a'. induction a as [|[x|] a IH]; intros a'; cbn [witness_in]; [done| |].
  - case_bool_decide; [destruct (a_witnessed x); [done|by intros [= <-]]|]. destruct (witness_in token a); [|done].
    intros [= <-]. cbn. by rewrite IH.
  - destruct (witness_in token a); [|done]. intros [= <-]. cbn. by rewrite IH.
Qed.

Lemma witness_inv (l : ledger) key token :
  ledger_inv l -> let l' := fst (ledger_witness l key token) in
  ledger_inv l' /\ next_generation l' = next_generation l /\ policy l' = policy l.
Proof.
  intros Hl. pose proof Hl as [Hr Ht Hg Hout Hsize Hpol]. unfold ledger_witness, record_witness.
  destruct (records l !! key) as [r|] eqn:Ek; [|done].
  assert (forall r', r_host r' = r_host r -> r_generation r' = r_generation r -> r_deferred r' = r_deferred r ->
    r_sends r' = r_sends r -> r_budget r' = r_budget r -> length (r_attempts r') = length (r_attempts r) ->
    ledger_inv (with_records l (<[key := r']> (records l)))) as Hsame.
  { intros r' Eh Eg Ed Es Eb Ea. split; cbn; [|done|done| | |done].
    - intros k r1. rewrite lookup_insert. case_decide as E; [|by apply Hr]. intros [= <-] Hb. subst k.
      destruct (Hr key r Ek Hb) as [C1 C2 C3 C4 C5]. split; rewrite ?Eg, ?Ed, ?Es, ?Eb, ?Ea; done.
    - intros h. rewrite (probes_on_update _ key r) by done. apply Hout.
    - rewrite map_size_insert_Some by eauto. done. }
  destruct (witness_in token (r_attempts r)) as [a|] eqn:Ew; cbn [fst]; (split; [|done]); apply Hsame; try done.
  cbn. by apply witness_in_length in Ew.
Qed.

Lemma drain_unresolved_inv (l : ledger) :
  ledger_inv l -> let l' := fst (drain_unresolved l) in
  ledger_inv l' /\ next_generation l' = next_generation l /\ policy l' = policy l /\
  snd (drain_unresolved l) ≡ₚ elements (dom (records l)) /\ records l' = ∅.
Proof.
  intros [Hr Ht Hg Hout Hsize Hpol]. cbn. split_and!; [|done|done| |done].
  - split; cbn; [by intros ? ? ?%lookup_empty_Some|constructor|done| |rewrite map_size_empty; lia|done].
    intros h. unfold host_state, probes_on. cbn. rewrite lookup_fmap, map_filter_empty, map_size_empty.
    by destruct (hosts l !! h).
  - apply NoDup_Permutation; [apply NoDup_fst_map_to_list|apply NoDup_elements|].
    intros k. rewrite elem_of_elements, elem_of_dom, list_elem_of_fmap. split.
    + intros ([k' r] & -> & Hk%elem_of_map_to_list). by exists r.
    + intros [r Hk]. exists (k, r). split; [done|]. by apply elem_of_map_to_list.
Qed.

Lemma count_silence_frame (l : ledger) r :
  let l' := count_silence l r in
  policy l' = policy l /\ records l' = records l /\ timers l' = timers l /\ next_generation l' = next_generation l /\
  forall h, h_outstanding (host_state l' h) = h_outstanding (host_state l h).
Proof.
  unfold count_silence. destruct (r_sends r =? 1); [|done]. split_and!; try done. intros h.
  erewrite (host_state_insert _ (hosts l) (r_host r) _ h) by done. by case_decide; subst.
Qed.

(** ** A timer that fires *)

Section Firing.
Context (l : ledger) (t : Timer K) (rest : list (Timer K)) (now : Z).
Context (Hl : ledger_inv l) (Hpop : timers l ≡ₚ t :: rest).
Let l0 : ledger := with_timers l rest.

Lemma popped_other key g :
  tm_key t <> key \/ tm_generation t <> g -> timers_of rest key g ≡ₚ timers_of (timers l) key g.
Proof. intros Hne. rewrite (timers_of_perm _ _ key g Hpop). by rewrite timers_of_cons_ne. Qed.

Lemma popped_inv_but : ledger_inv_but (fun k => k = tm_key t /\ exists r, records l !! k = Some r /\ r_generation r = tm_generation t) l0.
Proof.
  destruct Hl as [Hr Ht Hg Hout Hsize Hpol]. split; cbn; [|by rewrite Hpop in Ht; apply Forall_inv_tail in Ht|done|done|done|done].
  intros k r Hk Hb. destruct (Hr k r Hk ltac:(tauto)) as [C1 C2 C3 C4 C5]. split; try done.
  rewrite popped_other; [done|]. destruct (decide (tm_key t = k)) as [E|]; [|by left]. right. intros E2. apply Hb. eauto.
Qed.

Lemma popped_clock key r :
  records l !! key = Some r -> tm_key t <> key \/ tm_generation t <> r_generation r ->
  head (timers_of rest key (r_generation r)) = head (timers_of (timers l) key (r_generation r)).
Proof.
  intros Hk Hne. destruct Hl as [Hr _ _ _ _ _]. destruct (Hr key r Hk ltac:(tauto)) as [C1 _ _ _ _].
  symmetry. rewrite (clock_perm (timers l) (t :: rest)); [by rewrite timers_of_cons_ne|done|]. rewrite C1. destruct (r_deferred r); lia.
Qed.

(** The timer of a probe that is gone or was armed again. *)
Lemma fire_stale :
  (forall r, records l !! tm_key t = Some r -> r_generation r <> tm_generation t) ->
  fire l0 t now = (l0, None) /\ ledger_inv l0 /\ forall key r, records l !! key = Some r -> clock l0 key r = clock l key r.
Proof.
  intros Hst. unfold fire. cbn [records l0 with_timers]. split_and!.
  - destruct (records l !! tm_key t) as [r|] eqn:Ek; [|done]. specialize (Hst r eq_refl).
    by rewrite (proj2 (Z.eqb_neq _ _) Hst).
  - destruct popped_inv_but as [Hr Ht Hg Hout Hsize Hpol]. split; try done. intros k r Hk _. apply Hr; [done|].
    intros [-> (r' & E & Eg)]. by apply (Hst r').
  - intros key r Hk. unfold clock. change (timers l0) with rest. rewrite popped_clock; [done|done|].
    destruct (decide (tm_key t = key)) as [E|]; [|by left]. right. subst key. intros E. by apply (Hst r).
Qed.

Context (record : ProbeRecord T P).
Context (Hrec : records l !! tm_key t = Some record) (Hgen : r_generation record = tm_generation t).

Lemma live_clock : clock l (tm_key t) record = Some (tm_due t) /\ r_deferred record = false.
Proof.
  destruct Hl as [Hr _ _ _ _ _]. destruct (Hr _ _ Hrec ltac:(tauto)) as [C1 _ _ _ _]. unfold clock.
  assert (timers_of (timers l) (tm_key t) (r_generation record) ≡ₚ t :: timers_of rest (tm_key t) (r_generation record)) as E.
  { rewrite (timers_of_perm _ _ _ _ Hpop). unfold timers_of. by rewrite filter_cons_True. }
  destruct (r_deferred record); [by rewrite E in C1|]. split; [|done].
  rewrite E in C1. cbn in C1. destruct (timers_of rest _ _) as [|]; [|done].
  by apply Permutation_singleton_r in E as ->.
Qed.

Lemma others_clock key r :
  records l !! key = Some r -> key <> tm_key t ->
  head (timers_of rest key (r_generation r)) = head (timers_of (timers l) key (r_generation r)).
Proof. intros Hk Hne. apply popped_clock; [done|]. by left. Qed.

(** The last send went unanswered: the probe is retired. *)
Lemma fire_exhausted :
  r_budget record <= r_sends record ->
  exists l1, fire l0 t now =
      (l1, Some (Exhausted (tm_key t) (r_payload record) (r_sends record) (r_witnessed record))) /\
    ledger_inv l1 /\ records l1 = delete (tm_key t) (records l) /\ timers l1 = rest /\
    next_generation l1 = next_generation l /\ policy l1 = policy l.
Proof.
  intros Hb. unfold fire. cbn [records l0 with_timers]. rewrite Hrec, Hgen, Z.eqb_refl. cbn [negb].
  rewrite (proj2 (Z.leb_le _ _) Hb). fold l0.
  pose proof (count_silence_frame l0 record) as (Fp & Fr & Ft & Fn & Fh). set (l1 := count_silence l0 record) in *.
  eexists. split; [reflexivity|]. destruct popped_inv_but as [Pr Pt Pg Pout Psize Ppol]. cbn in Pr, Pt, Pg, Pout, Psize, Ppol.
  assert (records (retire (with_records l1 (delete (tm_key t) (records l1))) (r_host record)) = delete (tm_key t) (records l)) as Er
    by (cbn; by rewrite Fr).
  split_and!; [|done|cbn; by rewrite Ft|cbn; by rewrite Fn|cbn; by rewrite Fp].
  split; rewrite ?Er; cbn; rewrite ?Ft, ?Fn, ?Fp; [|done|done| | |done].
  - intros k r [Hne Hk]%lookup_delete_Some _. apply Pr; [done|]. by intros [-> _].
  - intros h. rewrite (probes_on_delete _ _ record) by done.
    erewrite (host_state_insert _ (hosts l1) (r_host record) _ h) by done.
    case_decide as Eh; [subst h; cbn; unfold host_state at 1; cbn; fold (host_state l1 (r_host record))|].
    + rewrite Fh. change (host_state l0 (r_host record)) with (host_state l (r_host record)).
      destruct Hl as [_ _ _ Hout _ _]. rewrite Hout. pose proof (probes_on_pos (records l) _ record Hrec). unfold sat_sub. lia.
    + fold (host_state l1 h). rewrite Fh. change (host_state l0 h) with (host_state l h). destruct Hl as [_ _ _ Hout _ _]. rewrite Hout. lia.
  - rewrite map_size_delete_Some by eauto. cbn. lia.
Qed.

(** A send is left: the probe is sent again and its clock starts afresh. *)
Lemma fire_retry :
  r_sends record < r_budget record -> next_generation l < umax 32 ->
  exists l1 l2 h a, fire l0 t now = (l1, Some (Retry (tm_key t) (r_sends record + 1))) /\
    ledger_inv l1 /\ next_generation l1 = next_generation l + 1 /\
    records l1 = <[tm_key t := resent record (next_generation l1)]> (records l) /\
    policy l1 = policy l /\ policy l2 = policy l /\
    timers l1 = mkTimer (later now (snd (timeout_for l2 h a))) (tm_key t) (next_generation l1) :: rest.
Proof.
  intros Hb Hlt. unfold fire. cbn [records l0 with_timers]. rewrite Hrec, Hgen, Z.eqb_refl. cbn [negb].
  rewrite (proj2 (Z.leb_gt _ _) Hb). fold l0.
  pose proof (count_silence_frame l0 record) as (Fp & Fr & Ft & Fn & Fh). set (l1 := count_silence l0 record) in *.
  destruct popped_inv_but as [Pr Pt Pg Pout Psize Ppol]. cbn in Pr, Pt, Pg, Pout, Psize, Ppol.
  cbn in Fp, Fr, Ft, Fn. pose proof (take_generation_small l1 ltac:(lia)) as Eg. rewrite Fn in Eg.
  destruct (take_generation l1) as [l2 g] eqn:E2. unfold take_generation in E2. injection E2 as E2 Eg'. cbn [snd] in Eg. subst g.
  rewrite Eg in *. set (l3 := with_records l2 _).
  pose proof (push_timer_frame l3 (r_host record) (tm_key t) (r_sends record + 1) (next_generation l + 1) now) as (Gp & Gr & Gh & Gn & Gt).
  exists (push_timer l3 (r_host record) (tm_key t) (r_sends record + 1) (next_generation l + 1) now), l3, (r_host record), (r_sends record + 1).
  assert (next_generation l3 = next_generation l + 1) as G3 by (subst l3 l2; done).
  assert (records l3 = <[tm_key t := resent record (next_generation l + 1)]> (records l)) as R3 by (subst l3 l2; cbn; by rewrite Fr).
  assert (policy l3 = policy l) as P3 by (subst l3 l2; done). assert (timers l3 = rest) as T3 by (subst l3 l2; done).
  rewrite Gn, Gr, Gp, Gt, G3, R3, P3, T3. split_and!; try done.
  destruct Hl as [Hr Ht Hg Hout Hsize Hpol]. destruct (Hr _ _ Hrec ltac:(tauto)) as [C1 C2 C3 C4 C5].
  eapply (inv_fresh_clock l0 _ (tm_key t) (resent record (next_generation l + 1))); cbn [resent r_deferred r_generation r_sends r_budget r_attempts].
  - split; try done. intros k r Hk Hne. apply Pr; [done|]. by intros [? _].
  - done.
  - by rewrite Gn, G3.
  - by rewrite Gr, R3.
  - rewrite (proj2 live_clock), Gt, Gn, G3, T3. done.
  - by rewrite Gn, G3.
  - lia.
  - done.
  - done.
  - intros h. rewrite Gr, R3, (probes_on_update _ _ record) by done. unfold host_state. rewrite Gh.
    assert (hosts l3 = hosts l1) as -> by (subst l3 l2; done). fold (host_state l1 h). rewrite Fh. apply Hout.
  - by rewrite Gp, P3.
Qed.
End Firing.

(** ** Draining ends *)

Definition drain_measure (l : ledger) : nat := (length (timers l) + sum_over sends_left (records l))%nat.

Lemma fire_measure (l : ledger) t rest now :
  (drain_measure (fst (fire (with_timers l rest) t now)) < S (length rest) + sum_over sends_left (records l))%nat.
Proof.
  unfold fire, drain_measure. cbn [records with_timers]. destruct (records l !! tm_key t) as [r|] eqn:Ek; [|cbn; lia].
  destruct (negb _); [cbn; lia|].
  pose proof (count_silence_frame (with_timers l rest) r) as (_ & Fr & Ft & _ & _). set (l1 := count_silence _ r) in *.
  cbn in Fr, Ft. destruct (Z.leb_spec (r_budget r) (r_sends r)) as [Hb|Hb].
  - cbn. rewrite Fr, Ft, (sum_over_delete sends_left (records l) (tm_key t) r) by done. lia.
  - destruct (take_generation l1) as [l2 g] eqn:E2. unfold take_generation in E2. injection E2 as <- _. cbn [fst].
    match goal with |- context [push_timer ?x ?h ?k ?a ?g ?n] => pose proof (push_timer_frame x h k a g n) as (_ & -> & _ & _ & ->) end.
    cbn [records with_records timers length]. rewrite Fr, Ft.
    pose proof (sum_over_update sends_left (records l) (tm_key t) r (resent r g) Ek) as Hs.
    unfold sends_left in Hs at 2 4. cbn [resent r_budget r_sends] in Hs. lia.
Qed.

Lemma drain_from_returns fuel (l : ledger) now out :
  (drain_measure l < fuel)%nat -> exists r, drain_from fuel l now out = Some r.
Proof.
  revert l out. induction fuel as [|fuel IH]; intros l out Hf; [lia|]. cbn [drain_from].
  destruct (heap_pop (timers l)) as [[t rest]|] eqn:Ep; [|eauto]. destruct (now <? tm_due t); [eauto|].
  apply heap_pop_min in Ep as [Hperm _]. pose proof (fire_measure l t rest now) as Hm.
  destruct (fire (with_timers l rest) t now) as [l1 due]. cbn [fst] in Hm. apply IH.
  unfold drain_measure in Hf. rewrite Hperm in Hf. cbn [length] in Hf. lia.
Qed.

(** ** What a drain does *)

Definition fired (l : ledger) (now : Z) (key : K) (r : ProbeRecord T P) : bool :=
  match clock l key r with Some due => due <=? now | None => false end.

(** What is reported of a probe whose timer fired. *)
Definition due_event (key : K) (r : ProbeRecord T P) : Due K P :=
  if r_budget r <=? r_sends r then Exhausted key (r_payload r) (r_sends r) (r_witnessed r) else Retry key (r_sends r + 1).

Definition due_events (l : ledger) (now : Z) : list (Due K P) :=
  omap (fun '(key, r) => if fired l now key r then Some (due_event key r) else None) (map_to_list (records l)).

(** What a drain leaves of one probe. *)
Definition drained (l : ledger) (now : Z) (l' : ledger) (key : K) : Prop :=
  match records l !! key with
  | None => records l' !! key = None
  | Some r =>
      if fired l now key r then
        if r_budget r <=? r_sends r then records l' !! key = None
        else exists g due, records l' !! key = Some (resent r g) /\ clock l' key (resent r g) = Some due /\ now < due
      else records l' !! key = Some r /\ clock l' key r = clock l key r
  end.

(** A timeout moves a clock past [now]. *)
Definition clocks_move (p : RetryPolicy F) (now : Z) : Prop :=
  forall (l : ledger) host attempt, policy l = p -> now < later now (snd (timeout_for l host attempt)).

Definition event_of (l : ledger) (now : Z) (kr : K * ProbeRecord T P) : option (Due K P) :=
  if fired l now (fst kr) (snd kr) then Some (due_event (fst kr) (snd kr)) else None.

Lemma omap_ext_in {A B} (f g : A -> option B) (xs : list A) : (forall x, x ∈ xs -> f x = g x) -> omap f xs = omap g xs.
Proof.
  induction xs as [|x xs IH]; [done|]. intros Hx. cbn. rewrite <- Hx by set_solver. rewrite IH by set_solver. done.
Qed.

Lemma event_of_ext (l l1 : ledger) now (rs : gmap K (ProbeRecord T P)) :
  (forall key r, rs !! key = Some r -> clock l1 key r = clock l key r) ->
  omap (event_of l1 now) (map_to_list rs) = omap (event_of l now) (map_to_list rs).
Proof.
  intros Hc. apply omap_ext_in. intros [k r] Hk%elem_of_map_to_list. unfold event_of, fired. cbn. by rewrite Hc.
Qed.

Lemma due_events_split (l : ledger) now key r :
  records l !! key = Some r ->
  due_events l now ≡ₚ option_list (event_of l now (key, r)) ++ omap (event_of l now) (map_to_list (delete key (records l))).
Proof.
  intros Hk. assert (due_events l now = omap (event_of l now) (map_to_list (records l))) as ->.
  { apply omap_ext_in. by intros [k x] _. }
  rewrite <- (insert_delete_id (records l) key r Hk) at 1. rewrite map_to_list_insert by apply lookup_delete_eq.
  cbn. by destruct (event_of l now (key, r)).
Qed.

Lemma due_events_none (l : ledger) now :
  (forall key r, records l !! key = Some r -> fired l now key r = false) -> due_events l now = [].
Proof.
  intros Hf. unfold due_events. rewrite (omap_ext_in _ (fun _ => None)); [by induction (map_to_list (records l))|].
  intros [k r] Hk%elem_of_map_to_list. by rewrite Hf.
Qed.

Lemma clock_in (l : ledger) key r due :
  clock l key r = Some due -> exists t, t ∈ timers l /\ tm_due t = due /\ tm_key t = key /\ tm_generation t = r_generation r.
Proof.
  unfold clock. intros Hc. destruct (timers_of (timers l) key (r_generation r)) as [|t ts] eqn:E; [done|]. injection Hc as <-.
  assert (t ∈ timers_of (timers l) key (r_generation r)) as [[? ?] ?]%list_elem_of_filter by (rewrite E; left). eauto.
Qed.

Lemma due_events_alt (l : ledger) now : due_events l now = omap (event_of l now) (map_to_list (records l)).
Proof. apply omap_ext_in. by intros [k x] _. Qed.

Lemma drained_same (l l1 l' : ledger) now key :
  records l1 !! key = records l !! key ->
  (forall r, records l !! key = Some r -> clock l1 key r = clock l key r) ->
  drained l1 now l' key -> drained l now l' key.
Proof.
  intros Er Hc. unfold drained, fired. rewrite Er. destruct (records l !! key) as [r|]; [|done]. by rewrite Hc.
Qed.

(** How many generations a drain may still take. *)
Definition generations_room (l : ledger) : Z := next_generation l + Z.of_nat (sum_over sends_left (records l)).

(** What the rest of a drain does, from [l], with [events] to report. *)
Definition drains (l : ledger) (now : Z) (l' : ledger) (events : list (Due K P)) : Prop :=
  events ≡ₚ due_events l now /\ ledger_inv l' /\ policy l' = policy l /\ generations_room l' <= generations_room l /\
  forall key, drained l now l' key.

Lemma drains_nothing (l : ledger) now :
  ledger_inv l -> (forall t, t ∈ timers l -> now < tm_due t) -> drains l now l [].
Proof.
  intros Hl Hlate. assert (forall key r, fired l now key r = false) as Hf.
  { intros key r. unfold fired. destruct (clock l key r) as [due|] eqn:Ec; [|done].
    apply clock_in in Ec as (t & Hin & <- & _). apply Z.leb_gt. by apply Hlate. }
  split; [by rewrite due_events_none|]. split_and!; [done|done|lia|].
  intros key. unfold drained. destruct (records l !! key); [|done]. by rewrite Hf.
Qed.

Section Draining.
Context (l : ledger) (t : Timer K) (rest : list (Timer K)) (now : Z).
Context (Hl : ledger_inv l) (Hpop : timers l ≡ₚ t :: rest) (Hnow : tm_due t <= now).

Lemma drains_stale :
  (forall r, records l !! tm_key t = Some r -> r_generation r <> tm_generation t) ->
  exists l1, fire (with_timers l rest) t now = (l1, None) /\ ledger_inv l1 /\ policy l1 = policy l /\
    generations_room l1 = generations_room l /\ forall l' events, drains l1 now l' events -> drains l now l' events.
Proof.
  intros Hst. destruct (fire_stale l t rest now Hl Hpop Hst) as (Hf & Hl1 & Hc).
  exists (with_timers l rest). split_and!; try done. intros l' events (H1 & H2 & H3 & H4 & H5).
  split; [|split_and!; try done].
  - rewrite H1, !due_events_alt. cbn [records with_timers]. by rewrite (event_of_ext l).
  - intros key. eapply drained_same; [| |apply H5]; [done|]. intros r. apply Hc.
Qed.

Context (r : ProbeRecord T P) (Hk : records l !! tm_key t = Some r) (Hg : r_generation r = tm_generation t).

Lemma live_fired : fired l now (tm_key t) r = true.
Proof. unfold fired. destruct (live_clock l t rest Hl Hpop r Hk Hg) as [-> _]. by apply Z.leb_le. Qed.

Lemma drains_exhausted :
  r_budget r <= r_sends r ->
  exists l1, fire (with_timers l rest) t now = (l1, Some (due_event (tm_key t) r)) /\ ledger_inv l1 /\ policy l1 = policy l /\
    generations_room l1 <= generations_room l /\
    forall l' events, drains l1 now l' events -> drains l now l' (due_event (tm_key t) r :: events).
Proof.
  intros Hb. destruct (fire_exhausted l t rest now Hl Hpop r Hk Hg Hb) as (l1 & Hf & Hl1 & Er & Et & En & Ep).
  exists l1. unfold due_event. rewrite (proj2 (Z.leb_le _ _) Hb). split; [done|]. split; [done|]. split; [done|].
  assert (generations_room l1 <= generations_room l) as Hroom.
  { unfold generations_room. rewrite Er, En, (sum_over_delete sends_left (records l) _ r Hk). lia. }
  split; [done|]. intros l' events (H1 & H2 & H3 & H4 & H5).
  assert (forall key r', delete (tm_key t) (records l) !! key = Some r' -> clock l1 key r' = clock l key r') as Hc.
  { intros key r' [Hne Hk']%lookup_delete_Some. unfold clock. rewrite Et.
    by rewrite (others_clock l t rest Hl Hpop key r' Hk' (not_eq_sym Hne)). }
  split; [|split_and!; try done; [congruence|lia|]].
  - rewrite (due_events_split l now _ r Hk). unfold event_of at 1. cbn [fst snd]. rewrite live_fired.
    unfold due_event. rewrite (proj2 (Z.leb_le _ _) Hb). cbn. rewrite H1, due_events_alt, Er. by rewrite (event_of_ext l).
  - intros key. specialize (H5 key). destruct (decide (key = tm_key t)) as [->|Hne].
    + unfold drained in *. rewrite Er, lookup_delete_eq in H5. rewrite Hk, live_fired. by rewrite (proj2 (Z.leb_le _ _) Hb).
    + eapply drained_same; [| |exact H5]; [rewrite Er; by apply lookup_delete_ne|].
      intros r' Hr'. apply Hc. by apply lookup_delete_Some.
Qed.

Lemma drains_retry :
  r_sends r < r_budget r -> next_generation l < umax 32 -> clocks_move (policy l) now ->
  exists l1, fire (with_timers l rest) t now = (l1, Some (due_event (tm_key t) r)) /\ ledger_inv l1 /\ policy l1 = policy l /\
    generations_room l1 <= generations_room l /\
    forall l' events, drains l1 now l' events -> drains l now l' (due_event (tm_key t) r :: events).
Proof.
  intros Hb Hlt Hmove. destruct (fire_retry l t rest now Hl Hpop r Hk Hg Hb Hlt) as (l1 & l2 & h & a & Hf & Hl1 & En & Er & Ep & Ep2 & Et).
  specialize (Hmove l2 h a Ep2). set (due := later _ _) in *. set (r1 := resent r (next_generation l1)) in *.
  exists l1. unfold due_event. rewrite (proj2 (Z.leb_gt _ _) Hb). split; [done|]. split; [done|]. split; [done|].
  assert (generations_room l1 <= generations_room l) as Hroom.
  { unfold generations_room. rewrite Er, En. pose proof (sum_over_update sends_left (records l) (tm_key t) r r1 Hk) as Hs.
    unfold sends_left in Hs at 2 4. cbn [r1 resent r_budget r_sends] in Hs. lia. }
  split; [done|]. intros l' events (H1 & H2 & H3 & H4 & H5).
  assert (clock l1 (tm_key t) r1 = Some due) as Hc1.
  { unfold clock. rewrite Et. change (r_generation r1) with (next_generation l1). by rewrite timers_of_cons_eq. }
  assert (forall key r', records l !! key = Some r' -> key <> tm_key t -> clock l1 key r' = clock l key r') as Hc.
  { intros key r' Hk' Hne. unfold clock. rewrite Et, timers_of_cons_ne by (left; cbn; congruence).
    by rewrite (others_clock l t rest Hl Hpop key r' Hk' Hne). }
  assert (fired l1 now (tm_key t) r1 = false) as Hf1 by (unfold fired; rewrite Hc1; apply Z.leb_gt; lia).
  split; [|split_and!; try done; [congruence|lia|]].
  - rewrite (due_events_split l now _ r Hk). unfold event_of at 1. cbn [fst snd]. rewrite live_fired.
    unfold due_event. rewrite (proj2 (Z.leb_gt _ _) Hb). cbn.
    rewrite H1, (due_events_split l1 now (tm_key t) r1) by (rewrite Er; apply lookup_insert_eq).
    unfold event_of at 1. cbn [fst snd]. rewrite Hf1. cbn. rewrite Er, delete_insert_eq.
    rewrite (event_of_ext l); [done|]. intros key r' [Hne Hk']%lookup_delete_Some. apply Hc; [done|congruence].
  - intros key. specialize (H5 key). destruct (decide (key = tm_key t)) as [->|Hne].
    + unfold drained in *. rewrite Er, lookup_insert_eq, Hf1 in H5. rewrite Hk, live_fired, (proj2 (Z.leb_gt _ _) Hb).
      destruct H5 as [H5 H6]. exists (next_generation l1), due. rewrite Hc1 in H6. done.
    + eapply drained_same; [| |exact H5]; [rewrite Er; by apply lookup_insert_ne|]. intros r' Hr'. by apply Hc.
Qed.
End Draining.

(** The loop reports each probe whose clock had run out, once, and touches no other. *)
Lemma drain_from_spec fuel (l : ledger) now out l' out' :
  ledger_inv l -> generations_room l <= umax 32 -> clocks_move (policy l) now ->
  drain_from fuel l now out = Some (l', out') -> exists events, out' = out ++ events /\ drains l now l' events.
Proof.
  revert l out. induction fuel as [|fuel IH]; intros l out Hl Hroom Hmove; [done|]. cbn [drain_from].
  destruct (heap_pop (timers l)) as [[t rest]|] eqn:Ep.
  2: { apply heap_pop_empty in Ep. intros [= <- <-]. exists []. rewrite app_nil_r. split; [done|].
       apply drains_nothing; [done|]. rewrite Ep. by intros ? ?%elem_of_nil. }
  apply heap_pop_min in Ep as [Hperm Hmin]. destruct (Z.ltb_spec now (tm_due t)) as [Hlate|Hnow].
  { intros [= <- <-]. exists []. rewrite app_nil_r. split; [done|]. apply drains_nothing; [done|].
    intros u Hu. rewrite Hperm in Hu. apply elem_of_cons in Hu as [->|Hu]; [done|].
    rewrite Forall_forall in Hmin. specialize (Hmin u Hu). cbn in Hmin. lia. }
  assert (exists l1 due, fire (with_timers l rest) t now = (l1, due) /\ ledger_inv l1 /\ policy l1 = policy l /\
    generations_room l1 <= generations_room l /\
    forall l' events, drains l1 now l' events -> drains l now l' (option_list due ++ events)) as (l1 & due & -> & Hl1 & Hp & Hr & Hd).
  { destruct (records l !! tm_key t) as [r|] eqn:Ek.
    2: { destruct (drains_stale l t rest now Hl Hperm) as (l1 & H1 & H2 & H3 & H4 & H5); [congruence|].
         exists l1, None. split_and!; try done. lia. }
    destruct (decide (r_generation r = tm_generation t)) as [Eg|Eg].
    2: { destruct (drains_stale l t rest now Hl Hperm) as (l1 & H1 & H2 & H3 & H4 & H5); [congruence|].
         exists l1, None. split_and!; try done. lia. }
    destruct (Z.le_gt_cases (r_budget r) (r_sends r)) as [Hb|Hb].
    - destruct (drains_exhausted l t rest now Hl Hperm Hnow r Ek Eg Hb) as (l1 & H1). by exists l1, (Some (due_event (tm_key t) r)).
    - destruct (drains_retry l t rest now Hl Hperm Hnow r Ek Eg Hb) as (l1 & H1); [|done|by exists l1, (Some (due_event (tm_key t) r))].
      unfold generations_room in Hroom. rewrite (sum_over_delete sends_left _ _ r Ek) in Hroom.
      unfold sends_left in Hroom at 1. lia. }
  intros Hrun. destruct (IH l1 _ Hl1 ltac:(lia) ltac:(by rewrite Hp) Hrun) as (events & -> & He).
  exists (option_list due ++ events). split; [by rewrite app_assoc|]. by apply Hd.
Qed.

(** ** Timeouts move a clock *)

(** What the schedule relies on of [f64]: a duration above zero times a factor of at least
    one is above zero, and is a duration above zero where it is one at all. *)
Class Float64Laws := {
  (** Factors of at least one. *)
  f_big : F -> Prop;
  powi_big : forall x n, f_le_one x = false -> 1 <= n -> f_big (f_powi x n);
  spread_big : forall unit width, 0 <= unit -> f_le_zero width = false -> f_big (f_spread unit (f_min_one width));
  times_positive : forall duration factor, f_big factor -> 0 < duration ->
    match f_try_secs (f_times (f_secs duration) factor) with
    | Some d => 0 < d
    | None => f_above_zero (f_times (f_secs duration) factor) = true
    end;
}.

Lemma mul_positive `{!Float64Laws} duration factor : f_big factor -> 0 < duration -> 0 < saturating_mul duration factor.
Proof.
  intros Hf Hd. pose proof (times_positive duration factor Hf Hd) as Hp. unfold saturating_mul.
  destruct (f_try_secs _); [done|]. by rewrite Hp.
Qed.

Lemma drawn_nonneg state : 0 <= snd (next_u64 state).
Proof. apply Z.lxor_nonneg. by rewrite Z.shiftr_nonneg. Qed.

Section Moving.
Context `{!Float64Laws}.

Lemma timeout_positive (l : ledger) host attempt :
  0 < min_rto (policy l) -> 0 < snd (timeout_for l host attempt).
Proof using Type*.
  intros Hmin. unfold timeout_for.
  set (p := policy l) in *. set (measured := match _ with Some _ => _ | None => _ end).
  set (ceiling := Z.max (max_rto p) (min_rto p)). set (base := duration_clamp _ _ _).
  assert (0 < base) by (unfold base, duration_clamp, ceiling; lia).
  assert (0 < scale base (backoff p) attempt ceiling) as Hscaled.
  { unfold scale. destruct (Z.leb_spec attempt 1); [cbn; unfold ceiling; lia|]. destruct (f_le_one (backoff p)) eqn:E; cbn; [unfold ceiling; lia|].
    pose proof (mul_positive base _ (powi_big (backoff p) (attempt - 1) E ltac:(lia)) ltac:(done)). unfold ceiling. lia. }
  unfold spread. destruct (f_le_zero (rp_jitter p)) eqn:E; [done|].
  pose proof (drawn_nonneg (jitter l)) as Hd. destruct (next_u64 (jitter l)) as [st drawn]. cbn [snd] in *.
  apply mul_positive; [|done]. apply spread_big; [by apply Z.shiftr_nonneg|done].
Qed.

Lemma clocks_do_move (p : RetryPolicy F) now :
  0 < min_rto p -> now + FAR_FUTURE <= instant_max -> clocks_move p now.
Proof using Type*.
  intros Hmin Hfar l host attempt Hp. pose proof (timeout_positive l host attempt ltac:(by rewrite Hp)) as Ht.
  unfold later. destruct (_ <=? instant_max); [lia|]. rewrite (proj2 (Z.leb_le _ _) Hfar). unfold FAR_FUTURE. lia.
Qed.

Lemma drain_due_spec (l : ledger) now out :
  ledger_inv l -> generations_room l <= umax 32 -> 0 < min_rto (policy l) -> now + FAR_FUTURE <= instant_max ->
  exists l' events, drain_due l now out = Some (l', out ++ events) /\ drains l now l' events.
Proof using Type*.
  intros Hl Hroom Hmin Hfar. destruct (drain_from_returns (drain_fuel l) l now out) as [[l' out'] Hr]; [unfold drain_fuel, drain_measure; lia|].
  destruct (drain_from_spec (drain_fuel l) l now out l' out') as (events & -> & Hd); [done|done|by apply clocks_do_move|done|].
  by exists l', events.
Qed.
End Moving.

(** ** Every way of using a ledger *)

Inductive ledger_op :=
  | OpArm (host : IpAddr) (key : K) (token : T) (payload : P) (now : Z)
  | OpRearm (host : IpAddr) (key : K) (token : T) (now : Z)
  | OpResolve (key : K) (token : option T) (now : Z)
  | OpDrain (now : Z)
  | OpDefer (key : K)
  | OpResume (key : K) (now : Z)
  | OpWitness (key : K) (token : T)
  | OpSeed (host : IpAddr) (median : option Z) (resolves_the_link : bool)
  | OpStop.

Definition run_ledger_op (l : ledger) (op : ledger_op) : option ledger :=
  match op with
  | OpArm host key token payload now => Some (arm l host key token payload now)
  | OpRearm host key token now => Some (rearm l host key token now)
  | OpResolve key token now => Some (fst (resolve l key token now))
  | OpDrain now => fst <$> drain_due l now []
  | OpDefer key => Some (defer l key)
  | OpResume key now => Some (resume l key now)
  | OpWitness key token => Some (fst (ledger_witness l key token))
  | OpSeed host median link => Some (seed_host l host median link)
  | OpStop => Some (fst (drain_unresolved l))
  end.

Fixpoint run_ledger (l : ledger) (ops : list ledger_op) : option ledger :=
  match ops with
  | [] => Some l
  | op :: ops => l ← run_ledger_op l op; run_ledger l ops
  end.

(** A drain happens thirty years before the platform's last instant. *)
Definition timely (op : ledger_op) : Prop :=
  match op with OpDrain now => now + FAR_FUTURE <= instant_max | _ => True end.

Lemma sends_left_small ts g key r : record_ok ts g key r -> (sends_left r <= 254)%nat.
Proof. intros [_ _ Hs Hb _]. unfold sends_left, umax in *. lia. Qed.

Lemma room_update (l l' : ledger) key r' :
  ledger_inv l' -> records l' = <[key := r']> (records l) -> next_generation l' <= next_generation l + 1 ->
  generations_room l' <= generations_room l + 255.
Proof.
  intros Hl' Er Hg. unfold generations_room. rewrite Er.
  assert (sends_left r' <= 254)%nat as Hs.
  { destruct Hl' as [Hr _ _ _ _ _]. eapply sends_left_small, Hr; [|tauto]. rewrite Er. apply lookup_insert_eq. }
  destruct (records l !! key) as [r|] eqn:Ek.
  - pose proof (sum_over_update sends_left (records l) key r r' Ek). lia.
  - rewrite sum_over_new by done. lia.
Qed.

Lemma arm_inner_records (l : ledger) host key token payload now :
  records (arm_inner l host key token payload now) = records l \/
  exists r, records (arm_inner l host key token payload now) = <[key := r]> (records l).
Proof.
  unfold arm_inner. cbn [take_generation records].
  assert (forall l1 : ledger, forall h k a g n, records (push_timer l1 h k a g n) = records l1) as Hp.
  { intros l1 h k a g n. by pose proof (push_timer_frame l1 h k a g n) as (_ & -> & _). }
  destruct (records l !! key); [right; rewrite Hp; eauto|]. destruct payload; [right; rewrite Hp; eauto|by left].
Qed.

Section Running.
Context `{!Float64Laws}.

(** An operation keeps the invariant and takes a bounded number of generations. *)
Lemma run_op_inv (l : ledger) op :
  ledger_inv l -> generations_room l + 255 <= umax 32 -> 0 < min_rto (policy l) -> timely op ->
  exists l', run_ledger_op l op = Some l' /\ ledger_inv l' /\ policy l' = policy l /\
    generations_room l' <= generations_room l + 255.
Proof using Type*.
  intros Hl Hroom Hmin Htime. assert (next_generation l < umax 32) as Hlt by (unfold generations_room in Hroom; lia).
  assert (forall host key token payload now, exists l', Some (arm_inner l host key token payload now) = Some l' /\
    ledger_inv l' /\ policy l' = policy l /\ generations_room l' <= generations_room l + 255) as Harm.
  { intros host key token payload now. destruct (arm_inner_inv l host key token payload now Hl Hlt) as (H1 & H2 & H3).
    eexists. split_and!; [done|done|done|]. destruct (arm_inner_records l host key token payload now) as [E|[r E]].
    - unfold generations_room. rewrite E, H2. lia.
    - eapply room_update; [done|exact E|lia]. }
  assert (forall l', ledger_inv l' -> policy l' = policy l -> next_generation l' = next_generation l ->
    (sum_over sends_left (records l') <= sum_over sends_left (records l))%nat ->
    exists l1, Some l' = Some l1 /\ ledger_inv l1 /\ policy l1 = policy l /\ generations_room l1 <= generations_room l + 255) as Hless.
  { intros l' H1 H2 H3 H4. exists l'. split_and!; try done. unfold generations_room. lia. }
  destruct op as [host key token payload now|host key token now|key token now|now|key|key now|key token|host median link|];
    cbn [run_ledger_op]; [by apply Harm|by apply Harm|..].
  - destruct (resolve_inv l key token now Hl) as (H1 & H2 & H3). apply Hless; [done|done|done|].
    unfold resolve. destruct (records l !! key) as [r|] eqn:Ek; [|done]. destruct (match token with Some _ => _ | None => _ end); [|done].
    cbn. rewrite (sum_over_delete sends_left (records l) key r Ek). lia.
  - destruct (drain_due_spec l now []) as (l' & events & -> & _ & H1 & H2 & H3 & _); [done|lia|done|done|].
    exists l'. split_and!; [done|done|done|lia].
  - destruct (defer_inv l key Hl Hlt) as (H1 & H2 & H3). eexists. split_and!; [done|done|done|].
    unfold defer in *. cbn [take_generation records] in *. destruct (records l !! key) as [r|] eqn:Ek.
    + eapply (room_update _ _ key); [done|done|lia].
    + unfold generations_room in *. cbn in *. lia.
  - destruct (resume_inv l key now Hl Hlt) as (H1 & H2 & H3). eexists. split_and!; [done|done|done|].
    unfold resume in *. destruct (records l !! key) as [r|] eqn:Ek; [|lia]. destruct (r_deferred r) eqn:Ed; cbn [negb] in *; [|lia].
    pose proof (timeout_for_frame l (r_host r) (r_sends r)) as Hf.
    destruct (timeout_for l (r_host r) (r_sends r)) as [l1 timeout]. cbn in Hf. destruct Hf as (_ & Fr & _).
    eapply (room_update _ _ key); [done|cbn; by rewrite Fr|lia].
  - destruct (witness_inv l key token Hl) as (H1 & H2 & H3). apply Hless; [done|done|done|].
    unfold ledger_witness, record_witness. destruct (records l !! key) as [r|] eqn:Ek; [|done].
    destruct (witness_in token (r_attempts r)) as [a|]; cbn.
    + match goal with |- context [<[key := ?r']> _] => pose proof (sum_over_update sends_left (records l) key r r' Ek) as Hs end.
      unfold sends_left in Hs at 2 4. cbn in Hs. unfold sends_left in *. lia.
    + by rewrite insert_id.
  - unfold seed_host. destruct median as [rtt|]; [|by apply Hless]. destruct (link && _); [by apply Hless|].
    destruct (seed_host_rtt_inv l host rtt Hl) as (H1 & H2 & H3). by apply Hless.
  - destruct (drain_unresolved_inv l Hl) as (H1 & H2 & H3 & _). apply Hless; [done|done|done|]. cbn. unfold sum_over. rewrite map_fold_empty. lia.
Qed.

Lemma run_ledger_inv ops (l : ledger) :
  ledger_inv l -> generations_room l + 255 * Z.of_nat (length ops) <= umax 32 -> 0 < min_rto (policy l) -> Forall timely ops ->
  exists l', run_ledger l ops = Some l' /\ ledger_inv l' /\ policy l' = policy l.
Proof using Type*.
  revert l. induction ops as [|op ops IH]; intros l Hl Hroom Hmin Ht; cbn [run_ledger]; [by exists l|].
  apply Forall_cons in Ht as [Ht1 Ht]. cbn [length] in Hroom.
  destruct (run_op_inv l op Hl ltac:(lia) Hmin Ht1) as (l1 & -> & Hl1 & Hp & Hr). cbn [mbind option_bind].
  destruct (IH l1 Hl1 ltac:(lia) ltac:(by rewrite Hp) Ht) as (l' & -> & H1 & H2). exists l'. by rewrite H2.
Qed.
End Running.

Lemma seeded_inv (p : RetryPolicy F) seed : max_attempts p <= umax 8 -> ledger_inv (ledger_seeded p seed).
Proof.
  intros Hp. split; cbn; [by intros ? ? ?%lookup_empty_Some|constructor|unfold umax; lia| |rewrite map_size_empty; lia|done].
  intros h. unfold host_state, probes_on. cbn. by rewrite lookup_empty, map_filter_empty, map_size_empty.
Qed.

(** ** A probe nobody answers *)

Definition due_key (d : Due K P) : K := match d with Retry key _ => key | Exhausted key _ _ _ => key end.

Definition events_for (key : K) (events : list (Due K P)) : list (Due K P) := filter (fun d => due_key d = key) events.

Lemma events_for_omap (l : ledger) now key (krs : list (K * ProbeRecord T P)) :
  key ∉ krs.*1 -> events_for key (omap (event_of l now) krs) = [].
Proof.
  induction krs as [|[k r] krs IH]; [done|]. rewrite fmap_cons, not_elem_of_cons. intros [Hne Hin]. cbn [omap list_omap].
  unfold event_of at 1. cbn [fst snd]. destruct (fired l now k r); [|by apply IH]. unfold events_for in *.
  rewrite filter_cons_False; [by apply IH|]. unfold due_event. destruct (_ <=? _); cbn in *; congruence.
Qed.

Lemma events_for_own key r : events_for key [due_event key r] = [due_event key r].
Proof. unfold events_for. rewrite filter_cons_True, filter_nil; [done|]. unfold due_event. by destruct (_ <=? _). Qed.

(** A drain reports a probe at most once. *)
Lemma drains_events_for (l l' : ledger) now events key r :
  drains l now l' events -> records l !! key = Some r ->
  events_for key events = if fired l now key r then [due_event key r] else [].
Proof.
  intros [Hev _] Hk. rewrite (due_events_split l now key r Hk) in Hev.
  assert (events_for key events ≡ₚ events_for key (option_list (event_of l now (key, r)))) as Hp.
  { unfold events_for. rewrite Hev, filter_app. fold (events_for key (omap (event_of l now) (map_to_list (delete key (records l))))).
    rewrite events_for_omap; [by rewrite app_nil_r|]. intros ([k x] & Ek & Hx%elem_of_map_to_list)%list_elem_of_fmap.
    cbn in Ek. subst k. by rewrite lookup_delete_eq in Hx. }
  unfold event_of in Hp. cbn [fst snd] in Hp. destruct (fired l now key r); cbn [option_list] in Hp; [|by apply Permutation_nil_r in Hp].
  change (events_for key events ≡ₚ events_for key [due_event key r]) in Hp. rewrite events_for_own in Hp.
  by apply Permutation_singleton_r in Hp.
Qed.

(** Drains at these times, what each reported, and the ledger they leave. *)
Fixpoint drain_each (l : ledger) (nows : list Z) : option (ledger * list (list (Due K P))) :=
  match nows with
  | [] => Some (l, [])
  | now :: rest =>
      '(l, events) ← drain_due l now [];
      '(l, later_events) ← drain_each l rest;
      Some (l, events :: later_events)
  end.

(** Each drain comes when the probe's clock has run out. *)
Fixpoint awaited (key : K) (l : ledger) (nows : list Z) : Prop :=
  match nows with
  | [] => True
  | now :: rest =>
      now + FAR_FUTURE <= instant_max /\
      (forall r, records l !! key = Some r -> fired l now key r = true) /\
      forall l' events, drain_due l now [] = Some (l', events) -> awaited key l' rest
  end.

(** The sends after the first [sends], and the end. *)
Definition schedule (key : K) (r : ProbeRecord T P) (n : nat) : list (list (Due K P)) :=
  ((fun i => [Retry key (r_sends r + 1 + Z.of_nat i)]) <$> seq 0 n) ++
  [[Exhausted key (r_payload r) (r_sends r + Z.of_nat n) (r_witnessed r)]].

Lemma schedule_S key r g n : schedule key r (S n) = [Retry key (r_sends r + 1)] :: schedule key (resent r g) n.
Proof.
  unfold schedule. cbn [seq fmap list_fmap app resent r_sends r_payload r_witnessed].
  replace (r_sends r + 1 + Z.of_nat 0) with (r_sends r + 1) by lia.
  replace (r_sends r + Z.of_nat (S n)) with (r_sends r + 1 + Z.of_nat n) by lia.
  do 2 f_equal. rewrite <- fmap_S_seq, <- list_fmap_compose. apply list_fmap_ext. intros i x _. unfold compose.
  by replace (r_sends r + 1 + Z.of_nat (S x)) with (r_sends r + 1 + 1 + Z.of_nat x) by lia.
Qed.

Section Silent.
Context `{!Float64Laws}.

Lemma silent_schedule n (l : ledger) key r nows :
  ledger_inv l -> generations_room l <= umax 32 -> 0 < min_rto (policy l) ->
  records l !! key = Some r -> r_sends r + Z.of_nat n = Z.max (r_budget r) (r_sends r) ->
  length nows = S n -> awaited key l nows ->
  exists l' outs, drain_each l nows = Some (l', outs) /\ records l' !! key = None /\
    events_for key <$> outs = schedule key r n.
Proof using Type*.
  revert l r nows. induction n as [|n IH]; intros l r nows Hl Hroom Hmin Hk Hn Hlen Haw.
  - destruct nows as [|now [|]]; try done. destruct Haw as (Hfar & Hfire & _). cbn [drain_each].
    destruct (drain_due_spec l now [] Hl Hroom Hmin Hfar) as (l' & events & -> & Hd). cbn [mbind option_bind app].
    exists l', [events]. split; [done|]. pose proof (drains_events_for l l' now events key r Hd Hk) as He.
    rewrite (Hfire r Hk) in He. destruct Hd as (_ & _ & _ & _ & Hd). specialize (Hd key). unfold drained in Hd.
    rewrite Hk, (Hfire r Hk) in Hd. unfold due_event in He. rewrite (proj2 (Z.leb_le _ _)) in Hd, He by lia.
    split; [done|]. cbn. rewrite He. unfold schedule. cbn. do 3 f_equal. lia.
  - destruct nows as [|now nows]; [done|]. destruct Haw as (Hfar & Hfire & Hnext). cbn [drain_each length] in *.
    destruct (drain_due_spec l now [] Hl Hroom Hmin Hfar) as (l1 & events & E & Hd). rewrite E. cbn [mbind option_bind app].
    specialize (Hnext l1 events E). pose proof (drains_events_for l l1 now events key r Hd Hk) as He.
    rewrite (Hfire r Hk) in He. destruct Hd as (_ & Hl1 & Hp & Hroom1 & Hd). specialize (Hd key). unfold drained in Hd.
    rewrite Hk, (Hfire r Hk) in Hd. unfold due_event in He. rewrite (proj2 (Z.leb_gt _ _)) in Hd, He by lia.
    destruct Hd as (g & due & Hk1 & _ & _).
    destruct (IH l1 (resent r g) nows Hl1 ltac:(lia) ltac:(by rewrite Hp) Hk1) as (l' & outs & -> & Hgone & Hout);
      [cbn; lia|lia|done|]. cbn [mbind option_bind]. exists l', (events :: outs). split_and!; [done|done|].
    cbn [fmap list_fmap]. rewrite (schedule_S _ _ g). f_equal; [done|]. exact Hout.
Qed.
End Silent.
End Ledger.

(** ** Which attempt a reply answers *)

Section Attempts.
Context {T P : Type} `{EqDecision T}.

Definition record_attempts (r : ProbeRecord T P) (sent : list (T * Z)) : ProbeRecord T P :=
  fold_left (fun r '(token, at_) => record_attempt r token at_) sent r.

Definition attempt (s : T * Z) : Attempt T := mkAttempt (fst s) (snd s) false.

(** The attempts a record still tracks: the latest four. *)
Definition window (sent : list (T * Z)) : list (T * Z) := drop (length sent - MAX_TRACKED_ATTEMPTS) sent.

Definition tracks (r : ProbeRecord T P) (sent : list (T * Z)) : Prop :=
  r_attempts r = (Some ∘ attempt <$> window sent) ++ replicate (MAX_TRACKED_ATTEMPTS - length (window sent)) None /\
  r_recorded r = Z.min (Z.of_nat (length sent)) (umax 8).

Lemma length_window sent : length (window sent) = Nat.min MAX_TRACKED_ATTEMPTS (length sent).
Proof. unfold window. rewrite length_drop. lia. Qed.

Lemma first_free_app (l : list (Attempt T)) rest : first_free ((Some <$> l) ++ None :: rest) = Some (length l).
Proof. induction l as [|a l IH]; [done|]. cbn. by rewrite IH. Qed.

Lemma window_snoc sent s :
  window (sent ++ [s]) = (if (length sent <? MAX_TRACKED_ATTEMPTS)%nat then window sent else drop 1 (window sent)) ++ [s].
Proof.
  unfold window. rewrite length_app. cbn [length]. destruct (Nat.ltb_spec (length sent) MAX_TRACKED_ATTEMPTS) as [Hl|Hl].
  - replace (length sent + 1 - MAX_TRACKED_ATTEMPTS)%nat with 0%nat by lia.
    by replace (length sent - MAX_TRACKED_ATTEMPTS)%nat with 0%nat by lia.
  - rewrite drop_app_le by (unfold MAX_TRACKED_ATTEMPTS in *; lia). rewrite drop_drop. do 2 f_equal. lia.
Qed.

Lemma record_attempt_tracks r sent token at_ :
  tracks r sent -> tracks (record_attempt r token at_) (sent ++ [(token, at_)]).
Proof.
  intros [Ha Hr]. unfold tracks. rewrite window_snoc. pose proof (length_window sent) as Hw.
  assert (r_recorded (record_attempt r token at_) = Z.min (Z.of_nat (length (sent ++ [(token, at_)]))) (umax 8)) as Hrec.
  { rewrite length_app. unfold record_attempt. destruct (r_attempts r !! _) as [[|]|]; cbn [with_attempts r_recorded];
      rewrite Hr; unfold sat_add; cbn [length]; lia. }
  split; [|done]. unfold record_attempt. rewrite Ha.
  destruct (Nat.ltb_spec (length sent) MAX_TRACKED_ATTEMPTS) as [Hl|Hl].
  - replace (MAX_TRACKED_ATTEMPTS - length (window sent))%nat with (S (MAX_TRACKED_ATTEMPTS - length (window sent ++ [(token, at_)])))
      by (rewrite length_app; cbn [length]; lia). cbn [replicate]. set (n := (MAX_TRACKED_ATTEMPTS - length (window sent ++ [(token, at_)]))%nat).
    assert (((Some ∘ attempt <$> window sent) ++ None :: replicate n None) !! (MAX_TRACKED_ATTEMPTS - 1)%nat = Some None) as Hlk.
    { rewrite lookup_app_r by (rewrite length_fmap; lia). rewrite length_fmap.
      change (None :: replicate n None) with (replicate (S n) (@None (Attempt T))). apply lookup_replicate_2.
      subst n. rewrite length_app. cbn [length]. lia. }
    rewrite Hlk. cbn [with_attempts r_attempts]. rewrite list_fmap_compose, first_free_app. cbn [default]. unfold id.
    rewrite insert_app_r_alt by (rewrite length_fmap; lia). rewrite !length_fmap, Nat.sub_diag. cbn [insert list_insert].
    rewrite fmap_app. cbn [fmap list_fmap]. by rewrite <- app_assoc, <- list_fmap_compose.
  - replace (MAX_TRACKED_ATTEMPTS - length (window sent))%nat with 0%nat by lia. cbn [replicate]. rewrite app_nil_r.
    rewrite Nat.min_l in Hw by lia. by destruct (window sent) as [|w [|x [|y [|z [|]]]]].
Qed.

Lemma record_attempts_tracks r before sent : tracks r before -> tracks (record_attempts r sent) (before ++ sent).
Proof.
  revert r before. induction sent as [|[token at_] sent IH]; intros r before Hr; [by rewrite app_nil_r|].
  cbn [record_attempts fold_left]. change ((token, at_) :: sent) with ([(token, at_)] ++ sent). rewrite app_assoc.
  by apply IH, record_attempt_tracks.
Qed.

Lemma tracked_window r sent : tracks r sent -> tracked r = attempt <$> window sent.
Proof.
  intros [Ha _]. unfold tracked. rewrite Ha, omap_app.
  assert (forall n, omap id (replicate n (@None (Attempt T))) = []) as -> by (intros n; induction n as [|n IHn]; [done|exact IHn]).
  rewrite app_nil_r. clear Ha. induction (window sent) as [|s l IH]; [done|]. exact (f_equal (cons (attempt s)) IH).
Qed.

Lemma find_attempt_at (l : list (T * Z)) token at_ slot from :
  NoDup l.*1 -> l !! slot = Some (token, at_) ->
  find_attempt token from (attempt <$> l) = Some ((from + slot)%nat, attempt (token, at_)).
Proof.
  revert slot from. induction l as [|[t' a'] l IH]; intros slot from Hnd Hl; [done|]. cbn in Hnd. apply NoDup_cons in Hnd as [Hni Hnd].
  cbn [fmap list_fmap find_attempt attempt a_token fst]. destruct slot as [|slot].
  - injection Hl as <- <-. rewrite bool_decide_true by done. by rewrite Nat.add_0_r.
  - cbn in Hl. rewrite bool_decide_false; [rewrite (IH slot) by done; do 2 f_equal; lia|].
    intros ->. apply Hni. apply list_elem_of_fmap. exists (token, at_). split; [done|]. by eapply list_elem_of_lookup_2.
Qed.

Lemma find_attempt_none (l : list (T * Z)) token from : token ∉ l.*1 -> find_attempt token from (attempt <$> l) = None.
Proof.
  revert from. induction l as [|[t' a'] l IH]; intros from Hni; [done|]. cbn in Hni. apply not_elem_of_cons in Hni as [Hne Hni].
  cbn [fmap list_fmap find_attempt attempt a_token fst]. rewrite bool_decide_false by congruence. by apply IH.
Qed.

Lemma attempt_of_sent r sent token :
  tracks r sent -> NoDup sent.*1 -> Z.of_nat (length sent) <= umax 8 ->
  (forall i at_, sent !! i = Some (token, at_) ->
     attempt_of r token = if (i + MAX_TRACKED_ATTEMPTS <? length sent)%nat then None else Some (Z.of_nat i + 1, at_)) /\
  (token ∉ sent.*1 -> attempt_of r token = None).
Proof.
  intros Ht Hnd Hlen. unfold attempt_of. rewrite (tracked_window r sent Ht). pose proof (length_window sent) as Hw.
  set (k := (length sent - MAX_TRACKED_ATTEMPTS)%nat).
  assert (sent = take k sent ++ window sent) as Hsplit by (unfold window; fold k; by rewrite take_drop).
  assert (NoDup (take k sent).*1 /\ NoDup (window sent).*1 /\ forall t', t' ∈ (take k sent).*1 -> t' ∉ (window sent).*1) as (_ & Hndw & Hdis).
  { rewrite Hsplit, fmap_app in Hnd. apply NoDup_app in Hnd as (H1 & H2 & H3). done. }
  split.
  - intros i at_ Hi. destruct (Nat.ltb_spec (i + MAX_TRACKED_ATTEMPTS) (length sent)) as [Hold|Hnew].
    + rewrite find_attempt_none; [done|]. apply Hdis. apply list_elem_of_fmap. exists (token, at_). split; [done|].
      apply (list_elem_of_lookup_2 _ i). by rewrite lookup_take_lt by (subst k; lia).
    + rewrite (find_attempt_at (window sent) token at_ (i - k) 0); [|done|unfold window; fold k; rewrite lookup_drop].
      * cbn [fmap option_fmap option_map attempt a_sent_at snd]. rewrite length_fmap. f_equal. f_equal.
        destruct Ht as [_ ->]. rewrite Z.min_l by lia. apply lookup_lt_Some in Hi. unfold sat_sub. subst k. lia.
      * replace (k + (i - k))%nat with i; [done|]. subst k. lia.
  - intros Hni. rewrite find_attempt_none; [done|]. intros Hin. apply Hni. rewrite Hsplit, fmap_app. apply elem_of_app. by right.
Qed.

Lemma record_new_tracks host budget generation (payload : P) : tracks (record_new host budget generation payload) [].
Proof. done. Qed.
End Attempts.

(** ** Estimates *)

Definition estimate_in (lo hi : Z) (e : RttEstimator) : Prop :=
  match smoothed e with Some s => lo <= s <= hi | None => True end /\ 0 <= variation e <= hi.

Lemma estimator_record_in lo hi e sample :
  0 <= lo -> estimate_in lo hi e -> lo <= sample <= hi -> estimate_in lo hi (estimator_record e sample).
Proof.
  intros Hlo [Hs Hv] Hsample. unfold estimator_record, estimate_in.
  destruct (if est_seeded e then None else smoothed e) as [s|] eqn:E; cbn.
  - assert (smoothed e = Some s) as Es by (by destruct (est_seeded e)). rewrite Es in Hs.
    split; Z.to_euclidean_division_equations; lia.
  - split; [lia|]. Z.to_euclidean_division_equations. lia.
Qed.

(** ** The properties *)

Section Properties.
Context (instant_max : Z).
Context {F K T P : Type} `{!Float64 F} `{Countable K} `{EqDecision T} `{!TimerHeap K}.
Local Notation ledger := (ProbeLedger F K T P).

(** C3: a drain reports exactly the probes whose clock has run out, each once: a probe
    with sends left is sent again, with its attempt counted and a new clock beyond
    the present, and one with none left is retired.  No other probe and no other
    clock changes, and the timers of probes that were resolved or armed again since
    are passed over.  The policy's least timeout is not zero, the clock is far from its
    end, and the 32-bit generations have room for the probes in flight. *)
Theorem drain_due_exact (laws : Float64Laws (F := F)) (l : ledger) (now : Z) (out : list (Due K P)) :
  ledger_inv l -> generations_room l <= umax 32 -> 0 < min_rto (policy l) -> now + FAR_FUTURE <= instant_max ->
  exists l' events, drain_due instant_max l now out = Some (l', out ++ events) /\
    events ≡ₚ due_events l now /\ ledger_inv l' /\
    forall key,
      match records l !! key with
      | None => records l' !! key = None
      | Some r =>
          if fired l now key r then
            if r_budget r <=? r_sends r then records l' !! key = None
            else exists g due, records l' !! key = Some (resent r g) /\ clock l' key (resent r g) = Some due /\ now < due
          else records l' !! key = Some r /\ clock l' key r = clock l key r
      end.
Proof.
  intros Hl Hroom Hmin Hfar. destruct (drain_due_spec instant_max l now out Hl Hroom Hmin Hfar) as (l' & events & Hd & He & Hi & _ & _ & Hk).
  exists l', events. split_and!; [done|done|done|]. exact Hk.
Qed.

(** a drain ends, whatever the ledger holds and whatever the timeouts are, zero
    included: each turn of its loop takes a timer for good or uses up one of the
    sends that are left. *)
Theorem drain_due_returns (l : ledger) (now : Z) (out : list (Due K P)) :
  exists l' out', drain_due instant_max l now out = Some (l', out').
Proof.
  destruct (drain_from_returns instant_max (drain_fuel l) l now out) as [[l' out'] Hr]; [unfold drain_fuel, drain_measure; lia|eauto].
Qed.

(** C27: a probe has one clock.  After any operations on a new ledger, in any order,
    each probe that is outstanding and not deferred has a timer that counts, the
    ledger asks to be woken no later than that timer, and a host's outstanding
    probes are counted.  The operations are fewer than would take all the
    generations a [u32] numbers. *)
Theorem ledger_keeps_clocks (laws : Float64Laws (F := F)) (p : RetryPolicy F) (seed : Z) (ops : list ledger_op) :
  0 < min_rto p -> max_attempts p <= umax 8 -> 255 * Z.of_nat (length ops) <= umax 32 -> Forall (timely instant_max) ops ->
  exists l : ledger, run_ledger instant_max (ledger_seeded p seed) ops = Some l /\
    (forall key r, records l !! key = Some r -> r_deferred r = false ->
       exists due wake, clock l key r = Some due /\ next_due l = Some wake /\ wake <= due) /\
    (forall host, h_outstanding (host_state l host) = probes_on (records l) host) /\
    (forall key r, records l !! key = Some r -> 1 <= r_sends r <= umax 8).
Proof.
  intros Hmin Hmax Hops Ht. pose proof (seeded_inv (K := K) (T := T) (P := P) p seed Hmax) as H0.
  destruct (run_ledger_inv instant_max ops (ledger_seeded p seed) H0) as (l & Hr & Hl & _); [|done|done|].
  { unfold generations_room. cbn. unfold sum_over. rewrite map_fold_empty. lia. }
  exists l. destruct Hl as [Hrec _ _ Hout _ _]. split_and!; [done| |done|].
  - intros key r Hk Hd. destruct (Hrec key r Hk ltac:(tauto)) as [Hc _ _ _ _]. rewrite Hd in Hc.
    assert (exists due, clock l key r = Some due) as [due Ec].
    { unfold clock. destruct (timers_of (timers l) key (r_generation r)); [done|]. by eexists. }
    apply clock_in in Ec as Hin. destruct Hin as (t & Hin & <- & _ & _). unfold next_due.
    destruct (heap_pop (timers l)) as [[u rest]|] eqn:Ep; [|apply heap_pop_empty in Ep; rewrite Ep in Hin; by apply elem_of_nil in Hin].
    exists (tm_due t), (tm_due u). split_and!; [done|done|]. apply heap_pop_min in Ep as [Hperm Hmin'].
    rewrite Hperm in Hin. apply elem_of_cons in Hin as [->|Hin]; [lia|]. rewrite Forall_forall in Hmin'. by apply (Hmin' t).
  - intros key r Hk. by destruct (Hrec key r Hk ltac:(tauto)).
Qed.

(** C39: a probe nobody answers is sent through its budget and then given up, once.
    Drained each time its clock has run out, it is reported for a retry with the
    attempts that follow its last one, in order and without a gap, until its budget
    is spent, then once as exhausted with the sends it had, and is gone. *)
Theorem silent_probe_runs_its_budget (laws : Float64Laws (F := F)) (n : nat) (l : ledger) (key : K) (r : ProbeRecord T P) (nows : list Z) :
  ledger_inv l -> generations_room l <= umax 32 -> 0 < min_rto (policy l) ->
  records l !! key = Some r -> r_sends r + Z.of_nat n = Z.max (r_budget r) (r_sends r) ->
  length nows = S n -> awaited instant_max key l nows ->
  exists l' outs, drain_each instant_max l nows = Some (l', outs) /\ records l' !! key = None /\
    events_for key <$> outs =
      ((fun i => [Retry key (r_sends r + 1 + Z.of_nat i)]) <$> seq 0 n) ++
      [[Exhausted key (r_payload r) (r_sends r + Z.of_nat n) (r_witnessed r)]].
Proof. exact (silent_schedule instant_max n l key r nows). Qed.
End Properties.

(** A reply that names an attempt is put down to that attempt.  Of attempts with
    different tokens, one of the latest four is known by the number it was sent
    with and the time it was sent; an earlier one, or a token never sent, is
    nobody's. *)
Theorem attempt_ordinals {T P : Type} `{EqDecision T} (host : IpAddr) (budget generation : Z) (payload : P) (sent : list (T * Z)) (token : T) :
  NoDup sent.*1 -> Z.of_nat (length sent) <= umax 8 ->
  let r := record_attempts (record_new host budget generation payload) sent in
  (forall i at_, sent !! i = Some (token, at_) ->
     attempt_of r token = if (i + MAX_TRACKED_ATTEMPTS <? length sent)%nat then None else Some (Z.of_nat i + 1, at_)) /\
  (token ∉ sent.*1 -> attempt_of r token = None).
Proof. intros Hnd Hlen r. apply attempt_of_sent; [|done|done]. apply (record_attempts_tracks _ []), record_new_tracks. Qed.

Lemma attempt_ordinals_witness :
  attempt_of (record_attempts (record_new (T := Z) (V4 0xc0000201) 5 1 tt) [(11, 100); (12, 200); (13, 300); (14, 400); (15, 500)]) 13 =
    Some (3, 300) /\
  attempt_of (record_attempts (record_new (T := Z) (V4 0xc0000201) 5 1 tt) [(11, 100); (12, 200); (13, 300); (14, 400); (15, 500)]) 11 = None.
Proof.
  assert (NoDup [11; 12; 13; 14; 15]) as Hnd by (apply (bool_decide_unpack _); vm_compute; exact I).
  split.
  - exact (proj1 (attempt_ordinals (V4 0xc0000201) 5 1 tt [(11, 100); (12, 200); (13, 300); (14, 400); (15, 500)] 13 Hnd
      ltac:(unfold umax; cbn; lia)) 2%nat 300 eq_refl).
  - exact (proj1 (attempt_ordinals (V4 0xc0000201) 5 1 tt [(11, 100); (12, 200); (13, 300); (14, 400); (15, 500)] 11 Hnd
      ltac:(unfold umax; cbn; lia)) 0%nat 100 eq_refl).
Defined.

(** An estimate stays among its samples.  With every sample between [lo] and [hi],
    the smoothed round trip is between them too, the arithmetic never goes past
    eight times [hi], and the timeout is at least a quarter above the smoothed round
    trip and at most five times [hi]. *)
Theorem estimate_stays_in_range (lo hi : Z) (samples : list Z) :
  0 <= lo -> 8 * hi <= DURATION_MAX -> Forall (fun sample => lo <= sample <= hi) samples -> samples <> [] ->
  let e := fold_left estimator_record samples estimator_default in
  exists s t, smoothed e = Some s /\ lo <= s <= hi /\ s * 7 + hi <= DURATION_MAX /\ variation e * 3 + hi <= DURATION_MAX /\
    estimator_timeout e = Some t /\ s + s / 4 <= t <= 5 * hi.
Proof.
  intros Hlo Hmax Hall Hne e.
  assert (estimate_in lo hi e) as [Hs Hv].
  { subst e. assert (0 <= hi) by (destruct Hall as [|x l Hx _]; [done|lia]).
    assert (estimate_in lo hi estimator_default) as H0 by (split; [done|cbn; lia]). revert H0.
    generalize estimator_default. clear Hne. induction Hall as [|x l Hx _ IH]; intros e0 He0; [done|]. cbn.
    by apply IH, estimator_record_in. }
  assert (exists s, smoothed e = Some s) as [s Es].
  { subst e. destruct samples as [|x l _] using rev_ind; [done|]. rewrite fold_left_app. cbn. unfold estimator_record.
    destruct (if est_seeded _ then _ else _); cbn; eauto. }
  rewrite Es in Hs. unfold estimator_timeout. rewrite Es. eexists s, _. split_and!; [done|lia|lia|lia|lia|done| |];
    cbn; unfold duration_add, MIN_HEADROOM_DIVISOR; assert (s / 4 <= s) by (Z.to_euclidean_division_equations; lia); lia.
Qed.

Lemma estimate_stays_in_range_witness :
  exists s t, smoothed (fold_left estimator_record [100; 140; 90] estimator_default) = Some s /\ 90 <= s <= 140 /\
    s * 7 + 140 <= DURATION_MAX /\ variation (fold_left estimator_record [100; 140; 90] estimator_default) * 3 + 140 <= DURATION_MAX /\
    estimator_timeout (fold_left estimator_record [100; 140; 90] estimator_default) = Some t /\ s + s / 4 <= t <= 5 * 140.
Proof.
  apply (estimate_stays_in_range 90 140 [100; 140; 90]); [lia|unfold DURATION_MAX; lia|repeat constructor; lia|done].
Defined.

(** ** A ledger to try *)

(** Factors in thousandths, seconds in nanoseconds. *)
Definition milli : Float64 Z := {|
  f_le_one x := x <=? 1000;
  f_le_zero x := x <=? 0;
  f_min_one x := Z.min x 1000;
  f_powi x n := x ^ n / 1000 ^ (n - 1);
  f_spread unit width := 1000 + unit * width / 2 ^ 53;
  f_secs d := d;
  f_times x factor := x * factor / 1000;
  f_above_zero x := 0 <? x;
  f_try_secs x := if (0 <=? x) && (x <=? DURATION_MAX) then Some x else None;
|}.

Definition milli_laws : @Float64Laws Z milli.
Proof.
  refine (@Build_Float64Laws Z milli (fun x => 1000 <= x) _ _ _).
  - cbn. intros x n Hx Hn. apply Z.div_le_lower_bound; [apply Z.pow_pos_nonneg; lia|].
    replace (1000 ^ (n - 1) * 1000) with (1000 ^ n) by (rewrite Z.mul_comm, <- Z.pow_succ_r by lia; f_equal; lia).
    apply Z.pow_le_mono_l. lia.
  - cbn. intros unit width Hu Hw. assert (0 <= unit * Z.min width 1000 / 2 ^ 53); [|lia]. apply Z.div_pos; [nia|lia].
  - cbn. intros duration factor Hf Hd. assert (duration <= duration * factor / 1000) as H by (apply Z.div_le_lower_bound; [lia|nia]).
    destruct ((0 <=? _) && _); lia.
Defined.

(** A list as a heap. *)
Fixpoint take_min {K} (t : Timer K) (l : list (Timer K)) : Timer K * list (Timer K) :=
  match l with
  | [] => (t, [])
  | u :: l =>
      if tm_due u <? tm_due t
      then let '(m, rest) := take_min u l in (m, t :: rest)
      else let '(m, rest) := take_min t l in (m, u :: rest)
  end.

Lemma take_min_spec {K} (t : Timer K) l :
  let '(m, rest) := take_min t l in t :: l ≡ₚ m :: rest /\ Forall (fun u => tm_due m <= tm_due u) rest /\ tm_due m <= tm_due t.
Proof.
  revert t. induction l as [|u l IH]; intros t; cbn [take_min]; [split_and!; [done|constructor|lia]|].
  destruct (Z.ltb_spec (tm_due u) (tm_due t)) as [Hu|Hu].
  - specialize (IH u). destruct (take_min u l) as [m rest]. destruct IH as (H1 & H2 & H3). split_and!; [|constructor; [lia|done]|lia].
    rewrite H1. by rewrite Permutation_swap.
  - specialize (IH t). destruct (take_min t l) as [m rest]. destruct IH as (H1 & H2 & H3). split_and!; [|constructor; [lia|done]|lia].
    rewrite (Permutation_swap u t), H1. by rewrite Permutation_swap.
Qed.

Definition list_heap (K : Type) : TimerHeap K.
Proof.
  refine {| heap_pop := fun l => match l with [] => None | t :: l => Some (take_min t l) end |}.
  - by intros [|].
  - intros [|t l] m rest; [done|]. intros [= E]. pose proof (take_min_spec t l) as H. rewrite E in H. by destruct H as (? & ? & ?).
Defined.

#[local] Existing Instance milli.
#[local] Existing Instance milli_laws.
#[local] Existing Instance list_heap.

Definition sample_instant_max : Z := 2 ^ 63 * 10 ^ 9.

(** Three attempts, a fifth of a second at first, twice as long each time. *)
Definition sample_retry_policy : RetryPolicy Z :=
  mkRetryPolicy 3 200000000 25000000 2000000000 2000 200 (Some (mkSilentHostPolicy 5 1)) true.

Definition sample_ledger : ProbeLedger Z Z Z unit :=
  arm sample_instant_max (arm sample_instant_max (ledger_seeded sample_retry_policy 7) (V4 0xc0000201) 80 11 tt 0)
    (V4 0xc0000201) 443 12 tt 150000000.

Lemma sample_ledger_inv : ledger_inv sample_ledger.
Proof.
  unfold sample_ledger, arm. apply arm_inner_inv; [apply arm_inner_inv|]; [apply seeded_inv; vm_compute; discriminate|..];
    vm_compute; reflexivity.
Qed.

Lemma drain_due_exact_witness :
  exists l' events, drain_due sample_instant_max sample_ledger 260000000 [] = Some (l', [] ++ events) /\
    events ≡ₚ [Retry 80 2] /\ ledger_inv l'.
Proof.
  destruct (drain_due_exact sample_instant_max milli_laws sample_ledger 260000000 [] sample_ledger_inv)
    as (l' & events & H1 & H2 & H3 & _); [vm_compute; discriminate|vm_compute; reflexivity|vm_compute; discriminate|].
  exists l', events. split; [exact H1|]. split; [|exact H3]. rewrite H2. vm_compute. reflexivity.
Defined.

Lemma ledger_keeps_clocks_witness :
  exists l : ProbeLedger Z Z Z unit, run_ledger sample_instant_max (ledger_seeded sample_retry_policy 7)
      [OpArm (V4 1) 80 11 tt 0; OpDrain 900000000; OpDefer 80; OpResume 80 1000000000; OpResolve 80 (Some 99) 1100000000] = Some l /\
    (forall key r, records l !! key = Some r -> r_deferred r = false ->
       exists due wake, clock l key r = Some due /\ next_due l = Some wake /\ wake <= due) /\
    (forall host, h_outstanding (host_state l host) = probes_on (records l) host) /\
    (forall key r, records l !! key = Some r -> 1 <= r_sends r <= umax 8).
Proof.
  apply (ledger_keeps_clocks sample_instant_max milli_laws sample_retry_policy 7);
    [vm_compute; reflexivity|vm_compute; discriminate|vm_compute; discriminate|].
  repeat constructor. vm_compute. discriminate.
Defined.

(** [awaited], evaluated. *)
Fixpoint awaitedb (key : Z) (l : ProbeLedger Z Z Z unit) (nows : list Z) : bool :=
  match nows with
  | [] => true
  | now :: rest =>
      (now + FAR_FUTURE <=? sample_instant_max) &&
      match records l !! key with Some r => fired l now key r | None => true end &&
      match drain_due sample_instant_max l now [] with Some (l', _) => awaitedb key l' rest | None => true end
  end.

Lemma awaitedb_sound key nows l : awaitedb key l nows = true -> awaited sample_instant_max key l nows.
Proof.
  revert l. induction nows as [|now nows IH]; intros l; [done|]. cbn [awaitedb awaited].
  rewrite !andb_true_iff, Z.leb_le. intros [[H1 H2] H3]. split_and!; [done| |].
  - intros r Hr. by rewrite Hr in H2.
  - intros l' events E. rewrite E in H3. by apply IH.
Qed.

Lemma silent_probe_runs_its_budget_witness :
  exists l' outs, drain_each sample_instant_max sample_ledger [10 ^ 9; 3 * 10 ^ 9; 9 * 10 ^ 9] = Some (l', outs) /\
    records l' !! 443 = None /\ events_for 443 <$> outs = [[Retry 443 2]; [Retry 443 3]; [Exhausted 443 tt 3 0]].
Proof.
  destruct (records sample_ledger !! 443) as [r|] eqn:E; [|vm_compute in E; discriminate].
  assert (r_sends r = 1 /\ r_budget r = 3 /\ r_witnessed r = 0) as (E1 & E2 & E3).
  { assert ((fun r => (r_sends r, r_budget r, r_witnessed r)) <$> records sample_ledger !! 443 = Some (1, 3, 0)) as V
      by (vm_compute; reflexivity). rewrite E in V. by injection V. }
  pose proof (silent_probe_runs_its_budget sample_instant_max milli_laws 2 sample_ledger 443 r [10 ^ 9; 3 * 10 ^ 9; 9 * 10 ^ 9]
    sample_ledger_inv) as H. rewrite E1, E2, E3 in H. destruct (r_payload r).
  exact (H ltac:(vm_compute; discriminate) ltac:(vm_compute; reflexivity) E ltac:(reflexivity) ltac:(reflexivity)
    ltac:(apply awaitedb_sound; vm_compute; reflexivity)).
Defined.
