(* ===== verification/Deadline.v ===== *)
(** * When a scan stops waiting

    [src/src/scanner/pacing/timer.rs], [deadline.rs] and [rtt_window.rs].  A scan
    ends at its hard deadline, or once it has run long enough and heard nothing for
    longer than its recent round trips make likely.  The hard deadline moves out for
    the time a scan is held back, which overlapping holds must not count twice.

    Durations and instants are nanoseconds.  The clock is an argument wherever the
    code reads it, and the one product with an [f64] is a parameter.  Adding durations
    past [Duration::MAX], 2^64 seconds, aborts the program; the sums of recorded round
    trips are exact here, and nothing proved depends on their size. *)

From Stdlib Require Import ZArith Lia Sorted.
From stdpp Require Import base numbers sets option list gmap.
From S2P Require Import Prelude Std Ledger.

Local Open Scope Z_scope.

(** ** Definitions *)

Definition RECHECK_SOON : Z := 100 * 10 ^ 6.

(** [Duration::saturating_mul]. *)
Definition duration_mul (d n : Z) : Z := Z.min (d * n) DURATION_MAX.

(** *** Budgets *)

Record ScanBudget := mkScanBudget {
  sb_base : Z;
  sb_per_target : Z;
  sb_ceiling : Z;
}.

Definition with_base_at_least (b : ScanBudget) (minimum : Z) : ScanBudget :=
  mkScanBudget (Z.max (sb_base b) minimum) (sb_per_target b) (sb_ceiling b).

Definition with_per_target_at_least (b : ScanBudget) (minimum : Z) : ScanBudget :=
  mkScanBudget (sb_base b) (Z.max (sb_per_target b) minimum) (sb_ceiling b).

Definition unclamped (b : ScanBudget) (target_count : Z) : Z :=
  let target_count := if target_count <=? umax 32 then target_count else umax 32 in
  duration_add (sb_base b) (duration_mul (sb_per_target b) target_count).

Definition covering (b : ScanBudget) (target_count : Z) : ScanBudget :=
  mkScanBudget (sb_base b) (sb_per_target b) (Z.max (sb_ceiling b) (unclamped b target_count)).

Definition for_target_count (b : ScanBudget) (target_count : Z) : Z := Z.min (unclamped b target_count) (sb_ceiling b).

(** *** The window of round trips *)

Record RttWindow := mkRttWindow {
  w_samples : list Z;
  w_capacity : nat;
}.

Definition window_new (capacity : nat) : RttWindow := mkRttWindow [] capacity.

(** [RttWindow::record]. *)
Definition window_record (w : RttWindow) (rtt : Z) : RttWindow :=
  if (w_capacity w =? 0)%nat then w
  else
    let samples := w_samples w ++ [rtt] in
    mkRttWindow (if (w_capacity w <? length samples)%nat then tail samples else samples) (w_capacity w).

Definition sum (l : list Z) : Z := foldr Z.add 0 l.

Definition mean (w : RttWindow) : option Z :=
  match w_samples w with
  | [] => None
  | samples => Some (sum samples / Z.of_nat (length samples))
  end.

(** The loop of [RttWindow::jitter]. *)
Fixpoint jitter_from (previous : Z) (l : list Z) : Z :=
  match l with [] => 0 | current :: rest => Z.abs (current - previous) + jitter_from current rest end.

(** [RttWindow::jitter]. *)
Definition window_jitter (w : RttWindow) : option Z :=
  match w_samples w with
  | first :: second :: rest =>
      Some (jitter_from first (second :: rest) / Z.of_nat (length (w_samples w) - 1))
  | _ => None
  end.

Section Clock.
(** The platform's last instant, and [jitter.mul_f64(multiplier.max(0.0))]. *)
Context {F : Type} (instant_max : Z) (margin_of : Z -> F -> Z).
Local Notation later := (later instant_max).

Definition suggest_timeout (w : RttWindow) (multiplier : F) (floor ceiling : Z) : Z :=
  match mean w with
  | None => floor
  | Some mean =>
      let jitter := default 0 (window_jitter w) in
      duration_clamp (mean + margin_of jitter multiplier) floor (Z.max ceiling floor)
  end.

(** *** The timer *)

Record ScanTimer := mkScanTimer {
  started : Z;
  hard_deadline : Z;
  min_runtime : Z;
  last_activity : Z;
}.

Definition timer_new (now max_total_duration min_runtime_duration : Z) : ScanTimer :=
  mkScanTimer now (later now max_total_duration) (later now min_runtime_duration) now.

(** [ScanTimer::start]. *)
Definition timer_start (t : ScanTimer) (now : Z) : ScanTimer :=
  let setup := sat_sub now (started t) in
  mkScanTimer now (later (hard_deadline t) setup) (later (min_runtime t) setup) now.

(** [ScanTimer::mark_activity]. *)
Definition timer_mark_activity (t : ScanTimer) (now : Z) : ScanTimer :=
  mkScanTimer (started t) (hard_deadline t) (min_runtime t) now.

(** [now.duration_since(earlier)], which is zero for an earlier that is not. *)
Definition instant_since (now earlier : Z) : Z := sat_sub now earlier.

(** [ScanTimer::time_until_next_tick]. *)
Definition timer_next_tick (t : ScanTimer) (now max_silence : Z) : Z :=
  let since := instant_since now (last_activity t) in
  if since <=? max_silence then max_silence - since else RECHECK_SOON.

(** [ScanTimer::has_expired]. *)
Definition timer_has_expired (t : ScanTimer) (now max_silence : Z) : bool :=
  if hard_deadline t <? now then true
  else
    let since := instant_since now (last_activity t) in
    (min_runtime t <? now) && (max_silence <=? since).

(** [ScanTimer::extend]. *)
Definition timer_extend (t : ScanTimer) (by_ : Z) : ScanTimer :=
  mkScanTimer (started t) (later (hard_deadline t) by_) (min_runtime t) (last_activity t).

(** *** The deadline *)

Record AdaptiveDeadlineConfig := mkDeadlineConfig {
  max_budget : ScanBudget;
  min_budget : ScanBudget;
  cfg_silence_floor : Z;
  cfg_silence_ceiling : Z;
  cfg_jitter_multiplier : F;
  rtt_window_capacity : nat;
}.

Definition allowing_for (c : AdaptiveDeadlineConfig) (probe_lifetime : Z) : AdaptiveDeadlineConfig :=
  mkDeadlineConfig (with_base_at_least (max_budget c) probe_lifetime) (min_budget c) (cfg_silence_floor c)
    (cfg_silence_ceiling c) (cfg_jitter_multiplier c) (rtt_window_capacity c).

Definition allowing_pace_of (c : AdaptiveDeadlineConfig) (per_probe target_count : Z) : AdaptiveDeadlineConfig :=
  mkDeadlineConfig (covering (with_per_target_at_least (max_budget c) per_probe) target_count) (min_budget c)
    (cfg_silence_floor c) (cfg_silence_ceiling c) (cfg_jitter_multiplier c) (rtt_window_capacity c).

Record AdaptiveDeadline := mkAdaptiveDeadline {
  ad_timer : ScanTimer;
  ad_rtt_window : RttWindow;
  silence_floor : Z;
  silence_ceiling : Z;
  jitter_multiplier : F;
}.

Definition deadline_new (c : AdaptiveDeadlineConfig) (target_count now : Z) : AdaptiveDeadline :=
  mkAdaptiveDeadline
    (timer_new now (for_target_count (max_budget c) target_count) (for_target_count (min_budget c) target_count))
    (window_new (rtt_window_capacity c)) (cfg_silence_floor c) (cfg_silence_ceiling c)
    (cfg_jitter_multiplier c).

Definition with_timer (d : AdaptiveDeadline) (t : ScanTimer) : AdaptiveDeadline :=
  mkAdaptiveDeadline t (ad_rtt_window d) (silence_floor d) (silence_ceiling d) (jitter_multiplier d).

Definition deadline_start (d : AdaptiveDeadline) (now : Z) : AdaptiveDeadline := with_timer d (timer_start (ad_timer d) now).

Definition mark_activity (d : AdaptiveDeadline) (now : Z) : AdaptiveDeadline :=
  with_timer d (timer_mark_activity (ad_timer d) now).

Definition record_rtt (d : AdaptiveDeadline) (rtt : Z) : AdaptiveDeadline :=
  mkAdaptiveDeadline (ad_timer d) (window_record (ad_rtt_window d) rtt) (silence_floor d) (silence_ceiling d)
    (jitter_multiplier d).

Definition silence_tolerance (d : AdaptiveDeadline) : Z :=
  suggest_timeout (ad_rtt_window d) (jitter_multiplier d) (silence_floor d) (silence_ceiling d).

Definition allow_for_sending (d : AdaptiveDeadline) (spent : Z) : AdaptiveDeadline :=
  with_timer d (timer_extend (ad_timer d) spent).

Definition allow_for_holding (d : AdaptiveDeadline) (held : Z) : AdaptiveDeadline :=
  with_timer d (timer_extend (ad_timer d) held).

Definition has_expired (d : AdaptiveDeadline) (now : Z) : bool := timer_has_expired (ad_timer d) now (silence_tolerance d).

Definition hard_deadline_passed (d : AdaptiveDeadline) (now : Z) : bool := hard_deadline (ad_timer d) <? now.

Definition time_until_next_tick (d : AdaptiveDeadline) (now : Z) : Z :=
  timer_next_tick (ad_timer d) now (silence_tolerance d).

End Clock.
Arguments AdaptiveDeadlineConfig : clear implicits.
Arguments AdaptiveDeadline : clear implicits.

(** *** Holds *)

(** A [HeldAllowance] is the instant up to which holding has been allowed for. *)
Definition allowance_take (held now until : Z) : Z * Z :=
  let from := Z.max held now in
  (Z.max from until, sat_sub until from).

(** Holds one after another, and the time they are allowed. *)
Fixpoint held_takes (held : Z) (holds : list (Z * Z)) : Z :=
  match holds with
  | [] => 0
  | (now, until) :: rest =>
      let '(held, granted) := allowance_take held now until in
      granted + held_takes held rest
  end.

(** ** Holds are counted once *)

Definition held_at (holds : list (Z * Z)) (t : Z) : bool := existsb (fun '(now, until) => (now <=? t) && (t <? until)) holds.

Definition instants (from n : Z) (p : Z -> bool) : Z := Z.of_nat (length (filter (fun t => p t = true) (seqZ from n))).

Lemma instants_app from n m p : 0 <= n -> 0 <= m -> instants from (n + m) p = instants from n p + instants (from + n) m p.
Proof. intros Hn Hm. unfold instants. rewrite seqZ_app, filter_app, length_app by lia. lia. Qed.

Lemma instants_S from k p : instants from (Z.of_nat (S k)) p = instants from (Z.of_nat k) p + (if p (from + Z.of_nat k) then 1 else 0).
Proof.
  rewrite Nat2Z.inj_succ, <- Z.add_1_r, instants_app by lia. f_equal. unfold instants.
  rewrite seqZ_cons, seqZ_nil by lia. rewrite filter_cons, filter_nil. by destruct (p (from + Z.of_nat k)).
Qed.

Lemma instants_ext from n p q : (forall t, from <= t < from + n -> p t = q t) -> instants from n p = instants from n q.
Proof.
  destruct (Z.lt_ge_cases n 0) as [Hn|Hn]; [unfold instants; by rewrite seqZ_nil by lia|].
  rewrite <- (Z2Nat.id n Hn). generalize (Z.to_nat n). clear n Hn. intros k Hpq. induction k as [|k IH]; [done|].
  rewrite !instants_S, IH by (intros t Ht; apply Hpq; lia). by rewrite Hpq by lia.
Qed.

Lemma instants_range from n a b :
  0 <= n -> instants from n (fun t => (a <=? t) && (t <? b)) = Z.max 0 (Z.min b (from + n) - Z.max a from).
Proof.
  intros Hn. rewrite <- (Z2Nat.id n Hn). generalize (Z.to_nat n). clear n Hn. intros k. induction k as [|k IH].
  { unfold instants. rewrite seqZ_nil by lia. change (Z.of_nat (length (filter _ []))) with 0. lia. }
  rewrite instants_S, IH. destruct (Z.leb_spec a (from + Z.of_nat k)), (Z.ltb_spec (from + Z.of_nat k) b); cbn [andb]; lia.
Qed.

(** The time allowed from [held] on is the time some hold covers. *)
Lemma held_takes_instants holds held limit :
  StronglySorted Z.le holds.*1 -> Forall (fun hold => fst hold <= limit /\ snd hold <= limit) holds -> held <= limit ->
  held_takes held holds = instants held (limit - held) (held_at holds).
Proof.
  revert held. induction holds as [|[now until] holds IH]; intros held Hs Hl Hh.
  { cbn [held_takes]. rewrite (instants_ext _ _ _ (fun t => (1 <=? t) && (t <? 0))) by (intros; unfold held_at; cbn; lia).
    rewrite instants_range by lia. lia. }
  cbn in Hs. apply StronglySorted_inv in Hs as [Hs Hnow]. apply Forall_cons in Hl as [[H1 H2] Hl]. cbn in H1, H2.
  cbn [held_takes allowance_take]. set (held' := Z.max (Z.max held now) until).
  rewrite IH by (done || lia).
  replace (limit - held) with ((held' - held) + (limit - held')) by lia. rewrite instants_app by lia.
  replace (held + (held' - held)) with held' by lia. f_equal.
  - rewrite (instants_ext _ _ _ (fun t => (now <=? t) && (t <? until))).
    + rewrite instants_range by lia. unfold sat_sub. lia.
    + intros t Ht. unfold held_at. cbn [existsb]. destruct ((now <=? t) && (t <? until)) eqn:E; [done|]. cbn [orb].
      apply not_true_is_false. rewrite existsb_exists. intros ([n u] & Hin & Hnu). rewrite Forall_forall in Hnow.
      specialize (Hnow n). rewrite list_elem_of_fmap in Hnow. specialize (Hnow ltac:(exists (n, u); split; [done|by apply list_elem_of_In])).
      lia.
  - apply instants_ext. intros t Ht. unfold held_at. cbn [existsb].
    assert ((now <=? t) && (t <? until) = false) as -> by lia. done.
Qed.

(** time a scan is held back is allowed for once.  Over holds that begin one after
    another and may overlap, the allowances add up to the length of time, from the
    start, in which some hold was in force. *)
Theorem holds_counted_once (start limit : Z) (holds : list (Z * Z)) :
  StronglySorted Z.le holds.*1 -> Forall (fun hold => fst hold <= limit /\ snd hold <= limit) holds -> start <= limit ->
  held_takes start holds = instants start (limit - start) (held_at holds).
Proof. exact (held_takes_instants holds start limit). Qed.

Lemma holds_counted_once_witness :
  held_takes 5 [(0, 10); (7, 20); (8, 12); (30, 31)] = instants 5 (40 - 5) (held_at [(0, 10); (7, 20); (8, 12); (30, 31)]) /\
  held_takes 5 [(0, 10); (7, 20); (8, 12); (30, 31)] = 16.
Proof.
  split; [|reflexivity]. apply (holds_counted_once 5 40); 
    cbn; repeat first [apply SSorted_nil | apply SSorted_cons | apply Forall_nil_2 | apply Forall_cons_2]; cbn; lia.
Defined.

(** A paced scan's budget covers its pace: once widened for a pace over so many
    targets, the hard deadline allows each of that many targets, or fewer, its time,
    unless that is longer than a duration can be.  Past what a [u32] counts, it
    allows for [u32::MAX] of them. *)
Theorem pace_is_covered {F} (c : AdaptiveDeadlineConfig F) (per_probe target_count m : Z) :
  0 <= per_probe -> 0 <= m <= target_count -> 0 <= sb_base (max_budget c) ->
  for_target_count (max_budget (allowing_pace_of c per_probe target_count)) m >=
    Z.min (sb_base (max_budget c) + per_probe * Z.min m (umax 32)) DURATION_MAX.
Proof.
  intros Hp Hm Hb. cbn [allowing_pace_of max_budget covering for_target_count]. unfold for_target_count, unclamped, duration_add, duration_mul.
  cbn [with_per_target_at_least sb_base sb_per_target sb_ceiling covering]. set (q := Z.max (sb_per_target (max_budget c)) per_probe).
  unfold unclamped, duration_add, duration_mul. cbn [with_per_target_at_least sb_base sb_per_target]. fold q.
  assert (0 <= per_probe <= q) by lia.
  assert (forall x, (if x <=? umax 32 then x else umax 32) = Z.min x (umax 32)) as Hclamp by (intros x; destruct (Z.leb_spec x (umax 32)); lia).
  rewrite !Hclamp. assert (Z.min m (umax 32) <= Z.min target_count (umax 32)) by lia.
  assert (0 <= Z.min m (umax 32)) by (unfold umax; lia).
  assert (per_probe * Z.min m (umax 32) <= q * Z.min m (umax 32)) by nia.
  assert (q * Z.min m (umax 32) <= q * Z.min target_count (umax 32)) by nia. lia.
Qed.

Lemma pace_is_covered_witness :
  for_target_count (max_budget (allowing_pace_of
    (mkDeadlineConfig (mkScanBudget 1000 10 5000) (mkScanBudget 0 0 0) 1 2 4 8) 50 1000)) 400 >=
  Z.min (1000 + 50 * Z.min 400 (umax 32)) DURATION_MAX.
Proof.
  apply (pace_is_covered (mkDeadlineConfig (mkScanBudget 1000 10 5000) (mkScanBudget 0 0 0) 1 2 4 8)); cbn; lia.
Defined.

(** A scan that sleeps for its tick wakes when silence has lasted long enough.  With
    nothing heard meanwhile and the least running time behind it, it has expired at
    the end of the tick, and not before; and the tick is within the bounds on
    silence. *)
Theorem tick_meets_expiry {F} (margin_of : Z -> F -> Z) (d : AdaptiveDeadline F) (now later_ : Z) :
  let tick := time_until_next_tick margin_of d now in
  0 <= silence_floor d -> last_activity (ad_timer d) <= now <= later_ ->
  min_runtime (ad_timer d) < later_ <= hard_deadline (ad_timer d) ->
  now - last_activity (ad_timer d) <= silence_tolerance margin_of d ->
  0 <= tick <= Z.max (silence_ceiling d) (silence_floor d) /\
  has_expired margin_of d later_ = (now + tick <=? later_).
Proof.
  intros tick Hf Hnow Hrun Hquiet. subst tick. unfold time_until_next_tick, timer_next_tick, has_expired, timer_has_expired, instant_since, sat_sub.
  assert (0 <= silence_tolerance margin_of d <= Z.max (silence_ceiling d) (silence_floor d)) as Ht.
  { unfold silence_tolerance, suggest_timeout, duration_clamp. destruct (mean _); lia. }
  rewrite (proj2 (Z.leb_le _ _)) by lia. rewrite (proj2 (Z.ltb_ge _ _)) by lia. split; [lia|].
  rewrite (proj2 (Z.ltb_lt _ _)) by lia. cbn [andb]. lia.
Qed.

Lemma tick_meets_expiry_witness :
  0 <= 300 <= Z.max 800 100 /\
  has_expired Z.mul (mkAdaptiveDeadline (mkScanTimer 0 10000 50 1000) (mkRttWindow [100; 200; 300] 8) 100 800 2) 1400 =
    (1100 + 300 <=? 1400).
Proof.
  exact (tick_meets_expiry Z.mul
    (mkAdaptiveDeadline (mkScanTimer 0 10000 50 1000) (mkRttWindow [100; 200; 300] 8) 100 800 2) 1100 1400
    ltac:(cbn; lia) ltac:(cbn; lia) ltac:(cbn; lia) ltac:(vm_compute; discriminate)).
Defined.
