(* ===== verification/Congestion.v ===== *)
(** * How many probes may be outstanding

    [src/src/scanner/pacing/congestion.rs].  A window bounds the probes in flight: it
    grows on outcomes that say nothing against the target's capacity and is halved on
    those that do, and not again before a window's worth of packets has left.  Where
    silence may be an open port, a balance of silences against answers decides.

    The window is an [f64]; its arithmetic is the class [WindowFloat], and what the
    proofs use of IEEE 754 are the laws [WindowFloatLaws]. *)

From Stdlib Require Import ZArith Lia QArith Qround Qminmax.
From stdpp Require Import base numbers option list.
From S2P Require Import Prelude Std.

Local Open Scope Z_scope.

(** ** Definitions *)

Class WindowFloat (F : Type) := {
  (** [f64::from] of a [u32], [as usize], [<], [+], [.min] and [.max]. *)
  f_from : Z -> F;
  f_usize : F -> Z;
  f_lt : F -> F -> bool;
  f_add : F -> F -> F;
  f_min : F -> F -> F;
  f_max : F -> F -> F;
  (** [1.0 / x] and [x / 2.0]. *)
  f_recip : F -> F;
  f_half : F -> F;
}.

Definition SILENCE_WEIGHT : Z := 5.

Definition LOSS_EVIDENCE : Z := 12 * SILENCE_WEIGHT.

Record WindowLimits := mkWindowLimits {
  initial : Z;
  floor : Z;
  ceiling : Z;
  slow_start_threshold : Z;
}.

Definition fixed (capacity : Z) : WindowLimits := mkWindowLimits capacity capacity capacity capacity.

Definition adaptive (l : WindowLimits) : bool := floor l <? ceiling l.

Section Window.
Context `{FF : WindowFloat F}.

Record CongestionWindow := mkWindow {
  limits : WindowLimits;
  window : F;
  threshold : F;
  in_flight : Z;
  since_reduction : Z;
  epoch : Z;
  peak : Z;
  reductions : Z;
  silence_evidence : Z;
  admission_over : bool;
}.

Definition congestion_new (l : WindowLimits) : CongestionWindow :=
  let w := f_from (Z.min (Z.max (initial l) (floor l)) (Z.max (ceiling l) (floor l))) in
  mkWindow l w (f_from (slow_start_threshold l)) 0 0 0 (f_usize w) 0 0 false.

Definition capacity (w : CongestionWindow) : Z := Z.max (f_usize (window w)) 1.

Definition has_room (w : CongestionWindow) : bool := in_flight w <? capacity w.

(** [u32::saturating_add(1)]. *)
Definition inc32 (n : Z) : Z := Z.min (n + 1) (umax 32).

Definition record_send (w : CongestionWindow) : CongestionWindow :=
  mkWindow (limits w) (window w) (threshold w) (inc32 (in_flight w)) (inc32 (since_reduction w)) (epoch w) (peak w)
    (reductions w) (silence_evidence w) (admission_over w).

Definition record_resend (w : CongestionWindow) : CongestionWindow :=
  mkWindow (limits w) (window w) (threshold w) (in_flight w) (inc32 (since_reduction w)) (epoch w) (peak w)
    (reductions w) (silence_evidence w) (admission_over w).

Definition set_in_flight (w : CongestionWindow) (n : Z) : CongestionWindow :=
  mkWindow (limits w) (window w) (threshold w) n (since_reduction w) (epoch w) (peak w)
    (reductions w) (silence_evidence w) (admission_over w).

Definition release (w : CongestionWindow) : CongestionWindow := set_in_flight w (sat_sub (in_flight w) 1).

Definition release_all (w : CongestionWindow) : CongestionWindow := set_in_flight w 0.

Definition credit_in_flight (w : CongestionWindow) : Z := - SILENCE_WEIGHT * in_flight w.

(** The window with the balance it returns.  An outcome moves the balance by five at most, so
    that no number of probes a scan can send takes it out of an [i64]. *)
Definition observe_first_outcome (w : CongestionWindow) (silent : bool) : CongestionWindow * Z :=
  let step := if silent then SILENCE_WEIGHT else -1 in
  let evidence := Z.max (silence_evidence w + step) (credit_in_flight w) in
  (mkWindow (limits w) (window w) (threshold w) (in_flight w) (since_reduction w) (epoch w) (peak w)
     (reductions w) evidence (admission_over w), evidence).

Definition record_progress (w : CongestionWindow) : CongestionWindow :=
  if negb (adaptive (limits w)) then w
  else
    let step := if f_lt (window w) (threshold w) then f_from 1 else f_recip (window w) in
    let grown := f_min (f_add (window w) step) (f_from (ceiling (limits w))) in
    mkWindow (limits w) grown (threshold w) (in_flight w) (since_reduction w) (epoch w)
      (Z.max (peak w) (Z.max (f_usize grown) 1)) (reductions w) (silence_evidence w) (admission_over w).

Definition record_congestion (w : CongestionWindow) : CongestionWindow :=
  if negb (adaptive (limits w)) || (since_reduction w <? epoch w) then w
  else
    let cut := f_max (f_half (window w)) (f_from (floor (limits w))) in
    mkWindow (limits w) cut cut (in_flight w) 0 (wrap 32 (Z.max (f_usize cut) 1)) (peak w) (inc32 (reductions w))
      (credit_in_flight w) (admission_over w).

Definition record_answer (w : CongestionWindow) : CongestionWindow := record_progress (fst (observe_first_outcome w false)).

Definition record_loss (w : CongestionWindow) : CongestionWindow :=
  if negb (admission_over w) then record_congestion w else w.

Definition record_ambiguous_silence (w : CongestionWindow) : CongestionWindow :=
  if negb (admission_over w) then
    let '(w, evidence) := observe_first_outcome w true in
    if LOSS_EVIDENCE <? evidence then record_congestion w else w
  else w.

Definition stop_admitting (w : CongestionWindow) : CongestionWindow :=
  mkWindow (limits w) (window w) (threshold w) (in_flight w) (since_reduction w) (epoch w) (peak w)
    (reductions w) (silence_evidence w) true.

Record WindowSummary := mkWindowSummary {
  ws_capacity : Z;
  ws_peak : Z;
  ws_reductions : Z;
  ws_adaptive : bool;
  ws_at_floor : bool;
}.

Definition window_summary (w : CongestionWindow) : WindowSummary :=
  mkWindowSummary (capacity w) (peak w) (reductions w) (adaptive (limits w))
    (adaptive (limits w) && (capacity w <=? floor (limits w))).

(** The calls a scan makes. *)
Inductive signal :=
  | Sent | Resent | Released | ReleasedAll | Answered | Progressed | Congested | Lost | AmbiguousSilence | AdmissionOver.

Definition hear (w : CongestionWindow) (s : signal) : CongestionWindow :=
  match s with
  | Sent => record_send w
  | Resent => record_resend w
  | Released => release w
  | ReleasedAll => release_all w
  | Answered => record_answer w
  | Progressed => record_progress w
  | Congested => record_congestion w
  | Lost => record_loss w
  | AmbiguousSilence => record_ambiguous_silence w
  | AdmissionOver => stop_admitting w
  end.

Definition hear_all (w : CongestionWindow) (l : list signal) : CongestionWindow := foldl hear w l.
End Window.
Arguments CongestionWindow : clear implicits.

(** ** The arithmetic the window relies on *)

(** [f_le x y] says that neither is NaN and that [x <= y]. *)
Class WindowFloatLaws (F : Type) `{WindowFloat F} := {
  f_le : F -> F -> Prop;
  f_le_num : forall x y, f_le x y -> f_le x x /\ f_le y y;
  f_le_trans : forall x y z, f_le x y -> f_le y z -> f_le x z;
  f_le_from : forall n m, 0 <= n <= m -> m <= umax 32 -> f_le (f_from n) (f_from m);
  f_usize_from : forall n, 0 <= n <= umax 32 -> f_usize (f_from n) = n;
  f_usize_le : forall x y, f_le x y -> f_usize x <= f_usize y;
  (** [min] is the lesser and [max] the greater of two numbers. *)
  f_min_le : forall x y, f_le x x -> f_le y y -> f_le (f_min x y) y;
  f_le_min : forall x y z, f_le z x -> f_le z y -> f_le z (f_min x y);
  f_le_max : forall x y, f_le x x -> f_le y y -> f_le y (f_max x y);
  f_max_le : forall x y z, f_le x z -> f_le y z -> f_le (f_max x y) z;
  (** Rounding keeps a sum with a number from falling below the other, and a half of
      a number from zero up is a number no greater. *)
  f_add_one : forall x, f_le (f_from 0) x -> f_le x (f_add x (f_from 1));
  f_add_recip : forall x, f_le (f_from 0) x -> f_le x (f_add x (f_recip x));
  f_half_le : forall x, f_le (f_from 0) x -> f_le (f_half x) x;
}.

(** Exact arithmetic is an instance. *)
#[export] Instance Q_window : WindowFloat Q := {
  f_from := inject_Z;
  f_usize := fun x => Z.min (Z.max (Qfloor x) 0) (umax 64);
  f_lt := fun x y => negb (Qle_bool y x);
  f_add := fun x y => Qred (x + y);
  f_min := Qmin;
  f_max := Qmax;
  f_recip := Qinv;
  f_half := fun x => Qred (x / 2);
}.

#[export] Instance Q_window_laws : WindowFloatLaws Q.
Proof.
  refine {| f_le := Qle |}; cbn [f_from f_usize f_min f_max f_add f_recip f_half Q_window].
  - intros x y _. split; apply Qle_refl.
  - apply Qle_trans.
  - intros n m Hn _. rewrite <- Zle_Qle. lia.
  - intros n Hn. rewrite Qfloor_Z. unfold umax in *. lia.
  - intros x y Hxy%Qfloor_resp_le. lia.
  - intros x y _ _. apply Q.le_min_r.
  - intros x y z. apply Q.min_glb.
  - intros x y _ _. apply Q.le_max_r.
  - intros x y z. apply Q.max_lub.
  - intros x _. rewrite Qred_correct. rewrite <- (Qplus_0_r x) at 1.
    apply Qplus_le_compat; [apply Qle_refl|discriminate].
  - intros x Hx. rewrite Qred_correct. rewrite <- (Qplus_0_r x) at 1.
    apply Qplus_le_compat; [apply Qle_refl|by apply Qinv_le_0_compat].
  - intros x Hx. rewrite Qred_correct. apply Qle_shift_div_r; [done|].
    assert (x * 2 == x + x)%Q as -> by ring. rewrite <- (Qplus_0_r x) at 1.
    by apply Qplus_le_compat; [apply Qle_refl|].
Defined.

(** ** The window stays within its bounds *)

Section Bounds.
Context `{Laws : WindowFloatLaws F}.
Implicit Types w : CongestionWindow F.

Definition limits_wf (l : WindowLimits) : Prop :=
  0 <= initial l <= umax 32 /\ 0 <= floor l <= umax 32 /\ 0 <= ceiling l <= umax 32.

Record window_ok (l : WindowLimits) (w : CongestionWindow F) : Prop := mkOk {
  ok_limits : limits w = l;
  ok_floor : f_le (f_from (floor l)) (window w);
  ok_ceiling : f_le (window w) (f_from (Z.max (ceiling l) (floor l)));
  ok_in_flight : 0 <= in_flight w;
  ok_since : 0 <= since_reduction w;
  ok_epoch : epoch w <= umax 32;
  ok_reductions : 0 <= reductions w <= umax 32;
}.

Lemma from_refl n : 0 <= n <= umax 32 -> f_le (f_from n) (f_from n).
Proof. intros. apply f_le_from; lia. Qed.

Lemma new_ok l : limits_wf l -> window_ok l (congestion_new l).
Proof.
  intros (Hi & Hf & Hc). split; cbn; [done|apply f_le_from; lia|apply f_le_from; lia|lia|lia|unfold umax; lia|unfold umax; lia].
Qed.

Lemma ok_nonneg l w : limits_wf l -> window_ok l w -> f_le (f_from 0) (window w).
Proof. intros (Hi & Hf & Hc) Hw. eapply f_le_trans; [|apply Hw]. apply f_le_from; lia. Qed.

Lemma progress_window l w :
  limits_wf l -> window_ok l w ->
  f_le (window w) (window (record_progress w)) /\
  f_le (window (record_progress w)) (f_from (Z.max (ceiling l) (floor l))).
Proof.
  intros Hl Hw. unfold record_progress. rewrite (ok_limits l w Hw). pose proof Hl as (Hi & Hf & Hc).
  destruct (f_le_num _ _ (ok_ceiling l w Hw)) as [Hnum _].
  destruct (adaptive l) eqn:Ha; cbn [negb window]; [|split; [done|apply Hw]]. unfold adaptive in Ha.
  replace (Z.max (ceiling l) (floor l)) with (ceiling l) by lia. set (step := if f_lt _ _ then _ else _).
  assert (f_le (window w) (f_add (window w) step)) as Hgrow.
  { pose proof (ok_nonneg l w Hl Hw). subst step. destruct (f_lt _ _); [by apply f_add_one|by apply f_add_recip]. }
  split.
  - apply f_le_min; [done|]. pose proof (ok_ceiling l w Hw) as Hce. by replace (Z.max (ceiling l) (floor l)) with (ceiling l) in Hce by lia.
  - apply f_min_le; [by apply (f_le_num _ _ Hgrow)|apply from_refl; lia].
Qed.

Lemma congestion_window l w :
  limits_wf l -> window_ok l w ->
  f_le (f_from (floor l)) (window (record_congestion w)) /\ f_le (window (record_congestion w)) (window w).
Proof.
  intros Hl Hw. unfold record_congestion. rewrite (ok_limits l w Hw). pose proof Hl as (Hi & Hf & Hc).
  destruct (f_le_num _ _ (ok_ceiling l w Hw)) as [Hnum _].
  destruct (_ || _); cbn [window]; [split; [apply Hw|done]|]. pose proof (f_half_le _ (ok_nonneg l w Hl Hw)) as Hh.
  split; [apply f_le_max; [by apply (f_le_num _ _ Hh)|apply from_refl; lia]|apply f_max_le; [done|apply Hw]].
Qed.

(** What a call may change, once for every operation. *)
Lemma ok_change l w w' :
  window_ok l w -> limits w' = limits w -> f_le (f_from (floor l)) (window w') -> f_le (window w') (f_from (Z.max (ceiling l) (floor l))) ->
  0 <= in_flight w' -> 0 <= since_reduction w' -> epoch w' <= umax 32 -> 0 <= reductions w' <= umax 32 -> window_ok l w'.
Proof. intros Hw Hl. intros. split; [rewrite Hl; apply Hw|done..]. Qed.

Lemma progress_ok l w : limits_wf l -> window_ok l w -> window_ok l (record_progress w).
Proof.
  intros Hl Hw. destruct (progress_window l w Hl Hw) as [H1 H2].
  apply (ok_change l w); [done|unfold record_progress; by destruct (negb _)|by eapply f_le_trans; [apply Hw|]|done|..];
    unfold record_progress; destruct (negb _); apply Hw.
Qed.

Lemma congestion_ok l w : limits_wf l -> window_ok l w -> window_ok l (record_congestion w).
Proof.
  intros Hl Hw. destruct (congestion_window l w Hl Hw) as [H1 H2].
  apply (ok_change l w); [done|unfold record_congestion; by destruct (_ || _)|done|by eapply f_le_trans; [|apply Hw]|..];
    unfold record_congestion; destruct (_ || _); try apply Hw; cbn; [lia| |].
  - pose proof (Z.mod_pos_bound (Z.max (f_usize (f_max (f_half (window w)) (f_from (floor (limits w))))) 1) (2 ^ 32) ltac:(lia)).
    unfold wrap, umax. lia.
  - pose proof (ok_reductions l w Hw). unfold inc32, umax in *. lia.
Qed.

Lemma observe_ok l w silent : window_ok l w -> window_ok l (fst (observe_first_outcome w silent)).
Proof. intros Hw. apply (ok_change l w); [done|done|apply Hw..]. Qed.

Lemma hear_ok l w s : limits_wf l -> window_ok l w -> window_ok l (hear w s).
Proof.
  intros Hl Hw. pose proof (ok_in_flight l w Hw). pose proof (ok_since l w Hw).
  assert (0 <= umax 32) by (unfold umax; lia).
  destruct s; cbn [hear]; try (apply (ok_change l w); [done|done|apply Hw|apply Hw|cbn; unfold inc32, sat_sub; first [lia|apply Hw]..]).
  - by apply progress_ok, observe_ok.
  - by apply progress_ok.
  - by apply congestion_ok.
  - unfold record_loss. destruct (negb _); [by apply congestion_ok|done].
  - unfold record_ambiguous_silence. destruct (negb _); [|done]. pose proof (observe_ok l w true Hw) as Ho.
    destruct (observe_first_outcome w true) as [w' evidence]. destruct (_ <? _); [by apply congestion_ok|done].
Qed.

Lemma hear_all_ok l w signals : limits_wf l -> window_ok l w -> window_ok l (hear_all w signals).
Proof. intros Hl. revert w. induction signals as [|s signals IH]; intros w Hw; [done|]. by apply IH, hear_ok. Qed.

Lemma ok_capacity l w :
  limits_wf l -> window_ok l w -> Z.max (floor l) 1 <= capacity w <= Z.max (Z.max (ceiling l) (floor l)) 1.
Proof.
  intros (Hi & Hf & Hc) Hw. unfold capacity. pose proof (f_usize_le _ _ (ok_floor l w Hw)). pose proof (f_usize_le _ _ (ok_ceiling l w Hw)).
  rewrite !f_usize_from in * by lia. lia.
Qed.

(** *** What each call does to the capacity *)

Lemma capacity_le w w' : f_le (window w) (window w') -> capacity w <= capacity w'.
Proof. intros Hle%f_usize_le. unfold capacity. lia. Qed.

(** The greatest capacity over a run of calls. *)
Fixpoint highest w (signals : list signal) : Z :=
  match signals with [] => capacity w | s :: rest => Z.max (capacity w) (highest (hear w s) rest) end.

(** One call moves the window up or down or leaves it, and the peak with it. *)
Lemma hear_peak l w s :
  limits_wf l -> window_ok l w -> capacity w <= Z.max (peak w) 1 ->
  Z.max (peak (hear w s)) 1 = Z.max (Z.max (peak w) 1) (capacity (hear w s)).
Proof.
  intros Hl Hw Hp. assert (forall v, window_ok l v -> capacity v <= Z.max (peak v) 1 ->
    Z.max (peak (record_congestion v)) 1 = Z.max (Z.max (peak v) 1) (capacity (record_congestion v))) as Hcut.
  { intros v Hv Hq. pose proof (capacity_le _ _ (proj2 (congestion_window l v Hl Hv))) as Hle.
    assert (peak (record_congestion v) = peak v) as -> by (unfold record_congestion; by destruct (_ || _)). lia. }
  assert (forall v, window_ok l v -> capacity v <= Z.max (peak v) 1 ->
    Z.max (peak (record_progress v)) 1 = Z.max (Z.max (peak v) 1) (capacity (record_progress v))) as Hgrow.
  { intros v Hv Hq. unfold record_progress. destruct (negb _); [lia|]. unfold capacity. cbn. lia. }
  pose proof (observe_ok l w) as Ho.
  destruct s; cbn [hear]; try (unfold capacity in *; cbn; lia).
  - by apply (Hgrow (fst (observe_first_outcome w false))); [apply Ho|].
  - by apply Hgrow.
  - by apply Hcut.
  - unfold record_loss. destruct (negb _); [by apply Hcut|lia].
  - unfold record_ambiguous_silence. specialize (Ho true Hw). destruct (negb _); [|lia].
    assert (capacity (fst (observe_first_outcome w true)) <= Z.max (peak (fst (observe_first_outcome w true))) 1) as Hq by done.
    pose proof (Hcut _ Ho Hq) as Hc. cbn [observe_first_outcome fst] in *. destruct (_ <? _); [exact Hc|unfold capacity in *; cbn; lia].
Qed.

Lemma hear_all_peak l w signals :
  limits_wf l -> window_ok l w -> capacity w <= Z.max (peak w) 1 ->
  Z.max (peak (hear_all w signals)) 1 = Z.max (Z.max (peak w) 1) (highest w signals).
Proof.
  intros Hl. revert w. induction signals as [|s signals IH]; intros w Hw Hp; cbn [highest]; [cbn; lia|].
  pose proof (hear_peak l w s Hl Hw Hp) as Hs. change (hear_all w (s :: signals)) with (hear_all (hear w s) signals).
  rewrite IH by (try apply hear_ok; first [done|lia]). rewrite Hs.
  assert (capacity (hear w s) <= highest (hear w s) signals) by (destruct signals; cbn; lia). lia.
Qed.

Lemma hear_frozen w s : adaptive (limits w) = false -> adaptive (limits (hear w s)) = false /\ window (hear w s) = window w /\ reductions (hear w s) = reductions w.
Proof.
  intros Ha. destruct s; cbn; unfold record_answer, record_progress, record_loss, record_ambiguous_silence, record_congestion; cbn; rewrite ?Ha; cbn;
    repeat case_match; done.
Qed.

Lemma hear_all_frozen w signals :
  adaptive (limits w) = false -> window (hear_all w signals) = window w /\ reductions (hear_all w signals) = reductions w.
Proof.
  revert w. induction signals as [|s signals IH]; intros w Ha; [done|]. destruct (hear_frozen w s Ha) as (Ha' & Hw & Hr).
  destruct (IH _ Ha') as [Hw' Hr']. split; [by etrans|by etrans].
Qed.
End Bounds.

(** whatever a scan hears and in whatever order, the window stays within its limits:
    at least one probe and the floor, and at most the ceiling, or the floor where the
    two are crossed.  A window with no room between them neither moves nor is cut, and
    the reported peak is the greatest capacity there has been. *)
Theorem window_within_limits `{Laws : WindowFloatLaws F} (l : WindowLimits) (signals : list signal) :
  limits_wf l ->
  let fresh := congestion_new (F := F) l in
  let w := hear_all fresh signals in
  Z.max (floor l) 1 <= capacity w <= Z.max (Z.max (ceiling l) (floor l)) 1 /\
  (ceiling l <= floor l -> capacity w = Z.max (floor l) 1 /\ reductions w = 0) /\
  Z.max (ws_peak (window_summary w)) 1 = highest fresh signals.
Proof.
  intros Hl fresh w. pose proof (new_ok (F := F) l Hl) as Hn. pose proof (hear_all_ok l _ signals Hl Hn) as Hw.
  pose proof (ok_capacity l w Hl Hw) as Hcap. split_and!; [lia|lia| |].
  - intros Hc. split; [lia|]. apply (hear_all_frozen fresh signals). unfold adaptive. cbn. lia.
  - cbn [window_summary ws_peak]. unfold w. rewrite (hear_all_peak l fresh) by (first [done|unfold capacity; cbn; lia]).
    assert (capacity fresh <= highest fresh signals) by (destruct signals; cbn; lia). unfold fresh, capacity in *. cbn in *. lia.
Qed.

Lemma window_within_limits_witness :
  let signals := [Sent; Answered; Sent; Progressed; Congested; Progressed; Released] in
  let fresh := congestion_new (F := Q) (mkWindowLimits 8 4 10 9) in
  let w := hear_all fresh signals in
  4 <= capacity w <= 10 /\ highest fresh signals = 9 /\ ws_peak (window_summary w) = 9.
Proof.
  intros signals fresh w.
  destruct (window_within_limits (F := Q) (mkWindowLimits 8 4 10 9) signals) as (Hb & _ & Hp); [unfold limits_wf, umax; cbn; lia|].
  fold fresh in Hp. fold w in Hb, Hp. split; [exact Hb|]. split; reflexivity.
Defined.

(** ** Cuts *)

Section Cuts.
Context `{Laws : WindowFloatLaws F}.
Implicit Types w : CongestionWindow F.

#[export] Instance signal_eq_dec : EqDecision signal.
Proof. solve_decision. Defined.

(** Packets leaving the wire. *)
Definition packets (signals : list signal) : Z :=
  Z.of_nat (length (filter (fun s => s = Sent \/ s = Resent) signals)).

Lemma packets_cons s signals : packets (s :: signals) = match s with Sent | Resent => 1 | _ => 0 end + packets signals.
Proof. unfold packets. rewrite filter_cons. destruct s; case_decide as Hs; cbn; try lia; naive_solver. Qed.

(** A call cuts by way of [record_congestion]. *)
Lemma hear_cut w s :
  reductions (hear w s) = reductions w \/
  exists v, hear w s = record_congestion v /\ limits v = limits w /\ window v = window w /\ in_flight v = in_flight w /\
    since_reduction v = since_reduction w /\ epoch v = epoch w /\ reductions v = reductions w /\
    (s = Congested \/ s = Lost \/ s = AmbiguousSilence /\ LOSS_EVIDENCE < Z.max (silence_evidence w + SILENCE_WEIGHT) (credit_in_flight w)).
Proof.
  destruct s; try (by left); cbn [hear].
  - left. unfold record_answer, record_progress. by destruct (negb _).
  - left. unfold record_progress. by destruct (negb _).
  - right. exists w. split_and!; auto.
  - unfold record_loss. destruct (negb _); [|by left]. right. exists w. split_and!; auto.
  - unfold record_ambiguous_silence. destruct (negb _); [|by left]. cbn [observe_first_outcome].
    destruct (Z.ltb_spec LOSS_EVIDENCE (Z.max (silence_evidence w + SILENCE_WEIGHT) (credit_in_flight w))); [|by left].
    right. eexists. split; [reflexivity|]. cbn. split_and!; auto.
Qed.

Lemma congestion_noop w : since_reduction w < epoch w -> record_congestion w = w.
Proof. intros Hd. unfold record_congestion. rewrite (proj2 (Z.ltb_lt _ _) Hd). by rewrite orb_true_r. Qed.

(** Within the epoch a call neither cuts nor shrinks the window. *)
Lemma hear_damped l w s :
  limits_wf l -> window_ok l w -> since_reduction w < epoch w ->
  reductions (hear w s) = reductions w /\ capacity w <= capacity (hear w s) /\ epoch (hear w s) = epoch w /\
  since_reduction (hear w s) <= since_reduction w + match s with Sent | Resent => 1 | _ => 0 end.
Proof.
  intros Hl Hw Hd. assert (forall v, window_ok l v -> reductions (record_progress v) = reductions v /\ capacity v <= capacity (record_progress v) /\
    epoch (record_progress v) = epoch v /\ since_reduction (record_progress v) = since_reduction v) as Hp.
  { intros v Hv. split_and!; [| |unfold record_progress; by destruct (negb _)..].
    - unfold record_progress; by destruct (negb _).
    - apply capacity_le. by apply (progress_window l). }
  destruct s; cbn [hear]; try (cbn; unfold capacity, inc32; cbn; split_and!; lia).
  - destruct (Hp _ (observe_ok l w false Hw)) as (H1 & H2 & H3 & H4). unfold record_answer. rewrite H1, H3, H4. cbn. split_and!; [done|exact H2|done|lia].
  - destruct (Hp _ Hw) as (H1 & H2 & H3 & H4). rewrite H4. split_and!; [done|done|done|lia].
  - rewrite congestion_noop by done. split_and!; lia.
  - unfold record_loss. rewrite congestion_noop by done. destruct (negb _); split_and!; lia.
  - unfold record_ambiguous_silence. destruct (negb _); [|split_and!; lia]. cbn [observe_first_outcome].
    destruct (_ <? _); [rewrite congestion_noop by done|]; cbn; unfold capacity; cbn; split_and!; lia.
Qed.

Lemma hear_all_damped l w signals :
  limits_wf l -> window_ok l w -> since_reduction w + packets signals < epoch w ->
  reductions (hear_all w signals) = reductions w /\ capacity w <= capacity (hear_all w signals).
Proof.
  intros Hl. revert w. induction signals as [|s signals IH]; intros w Hw Hd; [cbn; split; [done|lia]|].
  rewrite packets_cons in Hd. assert (0 <= packets signals) by (unfold packets; lia).
  destruct (hear_damped l w s Hl Hw) as (H1 & H2 & H3 & H4); [destruct s; lia|].
  destruct (IH (hear w s)) as [H5 H6]; [by apply hear_ok|lia|]. cbn. unfold hear_all in *. split; [congruence|lia].
Qed.

(** A call that cuts starts an epoch of the new capacity. *)
Lemma cut_starts_epoch l w s :
  limits_wf l -> window_ok l w -> reductions w < reductions (hear w s) ->
  since_reduction (hear w s) = 0 /\ epoch (hear w s) = capacity (hear w s) /\
  silence_evidence (hear w s) = credit_in_flight (hear w s).
Proof.
  intros Hl Hw Hr. pose proof (ok_capacity l _ Hl (hear_ok l w s Hl Hw)) as Hcap.
  destruct (hear_cut w s) as [He|(v & He & Hlim & Hwin & Hfl & Hs & Hep & Hred & _)]; [lia|].
  rewrite He in *. unfold record_congestion in *. rewrite Hlim in *. destruct (_ || _); [lia|].
  cbn in *. unfold capacity, credit_in_flight in *. cbn in *. split_and!; [done| |done].
  destruct Hl as (Hi & Hf & Hc). unfold wrap. rewrite Z.mod_small; [done|]. unfold umax in *. lia.
Qed.

(** Without a call that says the target is outrun, the balance bounds the silences. *)
Lemma silences_uncut l w signals k :
  limits_wf l -> window_ok l w -> 0 <= k -> silence_evidence w <= SILENCE_WEIGHT * k ->
  k + Z.of_nat (length (filter (fun s => s = AmbiguousSilence) signals)) <= 12 ->
  Forall (fun s => s <> Congested /\ s <> Lost) signals ->
  reductions (hear_all w signals) = reductions w.
Proof.
  intros Hl. revert w k. induction signals as [|s signals IH]; intros w k Hw Hk He Hn Hs; [done|].
  apply Forall_cons in Hs as [[Hnc Hnl] Hs]. rewrite filter_cons in Hn.
  pose proof (hear_ok l w s Hl Hw) as Hok. assert (credit_in_flight w <= 0) as Hcredit.
  { pose proof (ok_in_flight l w Hw). unfold credit_in_flight, SILENCE_WEIGHT. lia. }
  assert (silence_evidence (hear w s) <= SILENCE_WEIGHT * (k + if decide (s = AmbiguousSilence) then 1 else 0) /\
    reductions (hear w s) = reductions w) as [He' Hr].
  { destruct s; try done; cbn [hear]; try (case_decide; [done|]; cbn; split; lia).
    - unfold record_answer, record_progress. cbn. unfold SILENCE_WEIGHT in *. case_decide; [done|]. destruct (negb _); cbn; split; lia.
    - unfold record_progress. case_decide; [done|]. destruct (negb _); cbn; split; lia.
    - rewrite decide_True in Hn by done. rewrite decide_True by done. cbn [length] in Hn. unfold record_ambiguous_silence. cbn [observe_first_outcome].
      unfold LOSS_EVIDENCE, SILENCE_WEIGHT in *. destruct (negb _); [|split; lia].
      rewrite (proj2 (Z.ltb_ge _ _)) by lia. cbn. split; lia. }
  change (hear_all w (s :: signals)) with (hear_all (hear w s) signals). rewrite <- Hr.
  refine (IH _ _ Hok _ He' _ Hs); case_decide; cbn in Hn; lia.
Qed.

(** In a run of silences the cut falls at the thirteenth. *)
Lemma silences_counted l w n k :
  limits_wf l -> window_ok l w -> adaptive l = true -> admission_over w = false -> epoch w <= since_reduction w ->
  reductions w < umax 32 -> 0 <= k <= 12 -> silence_evidence w = SILENCE_WEIGHT * k ->
  reductions (hear_all w (replicate n AmbiguousSilence)) = reductions w + if k + Z.of_nat n <=? 12 then 0 else 1.
Proof.
  intros Hl. revert w k. induction n as [|n IH]; intros w k Hw Ha Hadm Hep Hred Hk He.
  { cbn. rewrite (proj2 (Z.leb_le _ _)) by lia. lia. }
  change (hear_all w (replicate (S n) AmbiguousSilence)) with (hear_all (hear w AmbiguousSilence) (replicate n AmbiguousSilence)).
  pose proof (hear_ok l w AmbiguousSilence Hl Hw) as Hok. pose proof (ok_in_flight l w Hw).
  destruct (Z.le_gt_cases (k + 1) 12) as [Hk1|Hk1].
  - assert (hear w AmbiguousSilence = fst (observe_first_outcome w true)) as Hh.
    { cbn [hear]. unfold record_ambiguous_silence. rewrite Hadm. cbn [negb observe_first_outcome fst].
      unfold LOSS_EVIDENCE, SILENCE_WEIGHT, credit_in_flight in *. by rewrite (proj2 (Z.ltb_ge _ _)) by (unfold SILENCE_WEIGHT; lia). }
    rewrite Hh in *. rewrite (IH _ (k + 1)) by (first [done|lia|cbn; unfold credit_in_flight, SILENCE_WEIGHT in *; lia]).
    cbn [reductions fst observe_first_outcome]. f_equal. by replace (k + 1 + Z.of_nat n) with (k + Z.of_nat (S n)) by lia.
  - assert (reductions (hear w AmbiguousSilence) = reductions w + 1) as Hcut.
    { cbn [hear]. unfold record_ambiguous_silence. rewrite Hadm. cbn [negb observe_first_outcome].
      unfold LOSS_EVIDENCE, SILENCE_WEIGHT, credit_in_flight in *. rewrite (proj2 (Z.ltb_lt _ _)) by (unfold SILENCE_WEIGHT; lia).
      unfold record_congestion. cbn [limits since_reduction epoch]. rewrite (ok_limits l w Hw), Ha, (proj2 (Z.ltb_ge _ _)) by lia. cbn.
      unfold inc32. lia. }
    destruct (cut_starts_epoch l w AmbiguousSilence Hl Hw) as (H1 & H2 & _); [lia|].
    pose proof (ok_capacity l _ Hl Hok) as Hcap. destruct (hear_all_damped l _ (replicate n AmbiguousSilence) Hl Hok) as [Hr _].
    { rewrite H1, H2. assert (packets (replicate n AmbiguousSilence) = 0) as ->; [|lia].
      clear. induction n as [|n IH]; [done|]. cbn [replicate]. by rewrite packets_cons. }
    rewrite Hr, Hcut, (proj2 (Z.leb_gt _ _)) by lia. lia.
Qed.
End Cuts.

(** A window that is new, or that its last call has just cut. *)
Definition just_cut `{WindowFloat F} (l : WindowLimits) (before : list signal) : Prop :=
  forall earlier s, before = earlier ++ [s] ->
    reductions (hear_all (congestion_new (F := F) l) earlier) < reductions (hear_all (congestion_new (F := F) l) before).

Lemma hear_all_snoc `{WindowFloat F} (w : CongestionWindow F) signals s : hear_all w (signals ++ [s]) = hear (hear_all w signals) s.
Proof. unfold hear_all. by rewrite foldl_app. Qed.

(** C31: the window is cut at most once per window of packets.  After a call that cut it,
    it is not cut again and does not shrink until as many packets, retries included,
    have left as the window then holds, however many losses are reported. *)
Theorem one_cut_per_window `{Laws : WindowFloatLaws F} (l : WindowLimits) (before after : list signal) (s : signal) :
  let w := hear_all (congestion_new (F := F) l) before in
  limits_wf l -> reductions w < reductions (hear w s) -> packets after < capacity (hear w s) ->
  reductions (hear_all (hear w s) after) = reductions (hear w s) /\ capacity (hear w s) <= capacity (hear_all (hear w s) after).
Proof.
  intros w Hl Hr Hp. pose proof (hear_all_ok l _ before Hl (new_ok l Hl)) as Hw.
  destruct (cut_starts_epoch l w s Hl Hw Hr) as (H1 & H2 & _).
  apply (hear_all_damped l); [done|by apply hear_ok|lia].
Qed.

Lemma one_cut_per_window_witness :
  let w := hear_all (congestion_new (F := Q) (mkWindowLimits 16 2 64 32)) [Sent; Sent] in
  reductions (hear_all (hear w Lost) [Lost; Sent; Congested; Resent; Lost; Progressed]) = 1 /\ capacity (hear w Lost) = 8.
Proof.
  intros w. split; [|reflexivity].
  refine (proj1 (one_cut_per_window (F := Q) (mkWindowLimits 16 2 64 32) [Sent; Sent]
    [Lost; Sent; Congested; Resent; Lost; Progressed] Lost _ _ _)); [unfold limits_wf, umax; cbn; lia|reflexivity|reflexivity].
Defined.

(** Where silence may be an open port, twelve silences are never read as loss.  From
    a new window or from a cut on, with no call that reports loss outright, the
    window is not cut while no more than twelve ambiguous silences are heard, whatever
    else is; and in a run of silences from a new window, with any probes in flight, the
    thirteenth cuts it, once. *)
Theorem silence_needs_evidence `{Laws : WindowFloatLaws F} (l : WindowLimits) (before after : list signal) (k n : nat) :
  let fresh := congestion_new (F := F) l in
  let w := hear_all fresh before in
  limits_wf l -> just_cut (F := F) l before -> Forall (fun s => s <> Congested /\ s <> Lost) after ->
  (length (filter (fun s => s = AmbiguousSilence) after) <= 12)%nat ->
  reductions (hear_all w after) = reductions w /\
  (adaptive l = true ->
   reductions (hear_all fresh (replicate k Sent ++ replicate n AmbiguousSilence)) = if (n <=? 12)%nat then 0 else 1).
Proof.
  intros fresh w Hl Hcut Hs Hn. pose proof (new_ok (F := F) l Hl) as Hnew. split.
  - pose proof (hear_all_ok l fresh before Hl Hnew) as Hw. apply (silences_uncut l w after 0); [done|done|lia| |lia|done].
    destruct before as [|s before _] using rev_ind; [cbn; lia|]. specialize (Hcut before s eq_refl).
    unfold w in *. rewrite hear_all_snoc in *.
    destruct (cut_starts_epoch l _ s Hl (hear_all_ok l fresh before Hl Hnew) Hcut) as (_ & _ & ->).
    pose proof (ok_in_flight l _ Hw). unfold credit_in_flight, SILENCE_WEIGHT. lia.
  - intros Ha. unfold hear_all. rewrite foldl_app. fold (hear_all fresh (replicate k Sent)).
    assert (forall v, admission_over v = false -> epoch v = 0 -> silence_evidence v = 0 -> reductions v = 0 ->
      let v' := hear_all (F := F) v (replicate k Sent) in
      admission_over v' = false /\ epoch v' = 0 /\ silence_evidence v' = 0 /\ reductions v' = 0) as Hsent.
    { clear. induction k as [|k IH]; [done|]. intros v ? ? ? ?. by apply (IH (record_send v)). }
    destruct (Hsent fresh) as (H1 & H2 & H3 & H4); [done..|]. pose proof (hear_all_ok l fresh (replicate k Sent) Hl Hnew) as Hw.
    pose proof (ok_since l _ Hw). pose proof (silences_counted l (hear_all fresh (replicate k Sent)) n 0 Hl Hw Ha H1) as Hc.
    unfold hear_all in *. rewrite Hc by (unfold umax; lia). rewrite H4. destruct (Nat.leb_spec n 12), (Z.leb_spec (0 + Z.of_nat n) 12); lia.
Qed.

Lemma silence_needs_evidence_witness :
  let fresh := congestion_new (F := Q) (mkWindowLimits 16 2 64 32) in
  let w := hear_all fresh [Sent; Lost] in
  let after := replicate 12 AmbiguousSilence ++ [Answered; Sent] in
  reductions (hear_all w after) = 1 /\
  reductions (hear_all fresh (replicate 20 Sent ++ replicate 15 AmbiguousSilence)) = 1.
Proof.
  intros fresh w after.
  destruct (silence_needs_evidence (F := Q) (mkWindowLimits 16 2 64 32) [Sent; Lost] after 20 15) as [H1 H2].
  - unfold limits_wf, umax; cbn; lia.
  - intros earlier s He. change [Sent; Lost] with ([Sent] ++ [Lost]) in He. apply app_inj_tail in He as [<- <-]. reflexivity.
  - apply (bool_decide_unpack _). vm_compute. exact I.
  - apply Nat.leb_le. reflexivity.
  - split; [exact H1|]. exact (H2 eq_refl).
Defined.
