(* ===== verification/Packet.v ===== *)
(** * Reading what arrived off a wire

    What every reader of [src/src/protocols] stands on: slices of bytes that may be
    too short, the errors of [src/src/protocols/error.rs], the text of
    [src/src/protocols/text.rs], the sizes of [src/src/protocols/sizes.rs], and the walk
    over length-delimited records that the readers of announcements share. *)

From Stdlib Require Import ZArith Lia String.
From stdpp Require Import base numbers sets option list.
From S2P Require Import Prelude Std Text Intervals IpRange Utf8 AddrText.

Local Open Scope Z_scope.

(** ** Definitions *)

(** *** Slices

    Bytes are integers of eight bits.  Each method answers [None] where the slice is
    too short. *)

(** [slice::first_chunk]. *)
Definition first_chunk (n : nat) (bytes : list Z) : option (list Z) :=
  then_some (n <=? length bytes)%nat (take n bytes).

(** [slice::get] of a range. *)
Definition get_range (from to : nat) (bytes : list Z) : option (list Z) :=
  then_some ((from <=? to) && (to <=? length bytes))%nat (take (to - from) (drop from bytes)).

Definition get_from (from : nat) (bytes : list Z) : option (list Z) :=
  then_some (from <=? length bytes)%nat (drop from bytes).

(** [slice::split_first]. *)
Definition split_first_byte (bytes : list Z) : option (Z * list Z) :=
  match bytes with [] => None | b :: rest => Some (b, rest) end.

(** [slice::split_at_checked]. *)
Definition split_at_checked (n : nat) (bytes : list Z) : option (list Z * list Z) :=
  then_some (n <=? length bytes)%nat (take n bytes, drop n bytes).

(** [iter().rposition()]. *)
Fixpoint rposition_byte (pred : Z -> bool) (bytes : list Z) : option nat :=
  match bytes with
  | [] => None
  | b :: rest =>
      match rposition_byte pred rest with
      | Some i => Some (S i)
      | None => then_some (pred b) 0%nat
      end
  end.

(** [uN::from_be_bytes] and [uN::to_be_bytes]. *)
Definition from_be_bytes (bytes : list Z) : Z := from_be 8 bytes.

Definition to_be_bytes (w : nat) (n : Z) : list Z := to_be 8 w n.

(** *** Sizes *)

Definition DNS_HDR_LEN : nat := 12.
Definition ETH_HDR_LEN : nat := 14.
Definition SCTP_COMMON_HDR_LEN : nat := 12.
Definition SCTP_CHUNK_HDR_LEN : nat := 4.

(** *** Errors

    The texts built from a name are kept as what they say of it. *)

Inductive NameFault :=
  | EmptyLabel
  | LongLabel (label : text) (octets : nat)
  | LongName (octets : nat).

Inductive PacketError :=
  | TooLong (field : text) (actual limit : Z)
  | FamilyMismatch (src dst : IpAddr)
  | WrongFamily (protocol expected : text) (got : IpAddr)
  | MtuTooSmall (mtu minimum : nat)
  | HeaderHasOptions (options : nat)
  | OptionsTooLong (what : text) (options limit : nat)
  | OptionsMisaligned (what : text) (options : nat)
  | UnsupportedEtherType (ethertype : Z)
  | Unreadable (what detail : text)
  | UnexpectedMessage (expected got : text)
  | UnwritableName (name : text) (detail : NameFault)
  | Truncated (what : text) (needed got : nat).

#[export] Instance NameFault_eq_dec : EqDecision NameFault.
Proof. solve_decision. Defined.

#[export] Instance PacketError_eq_dec : EqDecision PacketError.
Proof. solve_decision. Defined.

Definition too_long (field : text) (header payload : Z) : PacketError :=
  TooLong field (sat_add 64 header payload) (umax 16).

Definition truncated (what : text) (needed got : nat) : PacketError := Truncated what needed got.

Definition LARGEST : nat := (15 - 5) * 4.

Definition check_options (what : text) (options : nat) : Result unit PacketError :=
  if negb (options mod 4 =? 0)%nat then Err (OptionsMisaligned what options)
  else if (LARGEST <? options)%nat then Err (OptionsTooLong what options LARGEST)
  else Ok ().

(** *** Text in a field *)

(** [text::field]. *)
Definition text_field (value : list Z) : option text :=
  last ← rposition_byte (fun byte => negb (byte =? 0)) value;
  utf8_decode (take (S last) value).

(** *** Records one after another

    [keep_first] of [lldp.rs] and of [cdp.rs]: the first value that could be read. *)

Definition keep_first_read {T} (field value : option T) : option T :=
  match field with None => value | Some _ => field end.

(** The records a walk of at most [more] meets; [next] splits one off the front. *)
Fixpoint records {R : Type} (next : list Z -> option (R * list Z)) (more : nat) (bytes : list Z) : list R :=
  match more with
  | O => []
  | S more =>
      match next bytes with
      | None => []
      | Some (r, rest) => r :: records next more rest
      end
  end.

(** The first record that [read] makes something of. *)
Fixpoint first_read {R T} (read : R -> option T) (rs : list R) : option T :=
  match rs with
  | [] => None
  | r :: rs => match read r with Some x => Some x | None => first_read read rs end
  end.

(** ** Bytes as numbers *)

Definition bytes_ok (bytes : list Z) : Prop := Forall (fits 8) bytes.

Lemma length_to_be_bytes w n : length (to_be_bytes w n) = w.
Proof. apply length_to_be. Qed.

Lemma to_be_bytes_ok w n : bytes_ok (to_be_bytes w n).
Proof. by apply to_be_fits. Qed.

Lemma from_to_be_bytes w n : fits (8 * Z.of_nat w) n -> from_be_bytes (to_be_bytes w n) = n.
Proof. intros Hn. apply from_to_be; [lia|]. mlia. Qed.

Lemma from_be_bytes_fits bytes : bytes_ok bytes -> fits (8 * Z.of_nat (length bytes)) (from_be_bytes bytes).
Proof. intros H. pose proof (from_be_bounds 8 bytes ltac:(lia) H). unfold from_be_bytes. mlia. Qed.

Lemma to_from_be_bytes bytes : bytes_ok bytes -> to_be_bytes (length bytes) (from_be_bytes bytes) = bytes.
Proof.
  unfold from_be_bytes, to_be_bytes. induction bytes as [|b bytes IH] using rev_ind; [done|].
  intros [Hb Hl%Forall_inv]%Forall_app. rewrite length_app, Nat.add_comm, from_be_snoc. cbn [length Nat.add to_be].
  change (2 ^ 8) with 256. rewrite Z.div_add_l, (Z.add_comm (_ * _)), Z.mod_add by done.
  rewrite Z.div_small, Z.mod_small, Z.add_0_r by mlia. by rewrite IH.
Qed.

Lemma to_be_bytes_2 n : to_be_bytes 2 n = [n / 256 mod 256; n mod 256].
Proof. reflexivity. Qed.

Lemma from_be_bytes_2 a b : from_be_bytes [a; b] = a * 256 + b.
Proof. unfold from_be_bytes, from_be. simpl fold_left. lia. Qed.

Lemma two_bytes n : fits 16 n -> exists a b, to_be_bytes 2 n = [a; b] /\ from_be_bytes [a; b] = n.
Proof.
  intros Hn. exists (n / 256 mod 256), (n mod 256). split; [done|].
  rewrite <- to_be_bytes_2. by apply from_to_be_bytes.
Qed.

(** Masking with a power of two tests a bit. *)
Lemma land_bit n x : 0 <= n -> negb (Z.land x (2 ^ n) =? 0) = Z.testbit x n.
Proof.
  intros Hn. destruct (Z.testbit x n) eqn:E.
  - apply negb_true_iff, Z.eqb_neq. intros E'. apply (f_equal (fun x => Z.testbit x n)) in E'.
    rewrite Z.land_spec, E, Z.pow2_bits_true, Z.bits_0 in E' by lia. done.
  - apply negb_false_iff, Z.eqb_eq. apply Z.bits_inj'. intros i Hi. rewrite Z.land_spec, Z.bits_0, Z.pow2_bits_eqb by lia.
    destruct (Z.eqb_spec n i) as [<-|]; [by rewrite E|by rewrite andb_false_r].
Qed.

Lemma split_exact n (bytes : list Z) : (n <= length bytes)%nat -> exists a b, bytes = a ++ b /\ length a = n.
Proof.
  intros Hn. exists (take n bytes), (drop n bytes). rewrite take_drop, length_take. split; [done|lia].
Qed.

(** ** Slices that are long enough *)

Lemma first_chunk_app n a b : length a = n -> first_chunk n (a ++ b) = Some a.
Proof.
  intros <-. unfold first_chunk. rewrite (proj2 (Nat.leb_le _ _)) by (rewrite length_app; lia).
  by rewrite take_app_length.
Qed.

Lemma first_chunk_Some n bytes a : first_chunk n bytes = Some a <-> length a = n /\ a `prefix_of` bytes.
Proof.
  split.
  - unfold first_chunk, then_some. destruct (Nat.leb_spec n (length bytes)); intros; simplify_eq.
    split; [rewrite length_take; lia|]. apply prefix_take.
  - intros (Hl & b & ->). by apply first_chunk_app.
Qed.

Lemma get_range_app a b c from to :
  length a = from -> (from + length b = to)%nat -> get_range from to (a ++ b ++ c) = Some b.
Proof.
  intros <- <-. unfold get_range. rewrite !length_app, !(proj2 (Nat.leb_le _ _)) by lia. cbn.
  f_equal. rewrite drop_app_length. replace (length a + length b - length a)%nat with (length b) by lia.
  by rewrite take_app_length.
Qed.

Lemma get_range_Some from to bytes b :
  get_range from to bytes = Some b ->
  exists a c, bytes = a ++ b ++ c /\ length a = from /\ (from + length b = to)%nat.
Proof.
  unfold get_range, then_some. destruct (Nat.leb_spec from to); [|done].
  destruct (Nat.leb_spec to (length bytes)); [|done]. cbn. intros [= <-].
  exists (take from bytes), (drop (to - from) (drop from bytes)).
  rewrite !take_drop, !length_take, length_drop. repeat split; lia.
Qed.

Lemma get_from_app a b from : length a = from -> get_from from (a ++ b) = Some b.
Proof.
  intros <-. unfold get_from. rewrite (proj2 (Nat.leb_le _ _)) by (rewrite length_app; lia).
  by rewrite drop_app_length.
Qed.

Lemma get_from_Some from bytes b :
  get_from from bytes = Some b -> exists a, bytes = a ++ b /\ length a = from.
Proof.
  unfold get_from, then_some. destruct (Nat.leb_spec from (length bytes)); intros; simplify_eq.
  exists (take from bytes). rewrite take_drop, length_take. split; [done|lia].
Qed.

Lemma split_at_checked_app n a b : length a = n -> split_at_checked n (a ++ b) = Some (a, b).
Proof.
  intros <-. unfold split_at_checked. rewrite (proj2 (Nat.leb_le _ _)) by (rewrite length_app; lia).
  by rewrite take_app_length, drop_app_length.
Qed.

Lemma split_at_checked_Some n bytes a b :
  split_at_checked n bytes = Some (a, b) -> bytes = a ++ b /\ length a = n.
Proof.
  unfold split_at_checked, then_some. destruct (Nat.leb_spec n (length bytes)); intros; simplify_eq.
  rewrite take_drop, length_take. split; [done|lia].
Qed.

(** ** Text out of padding *)

Lemma rposition_byte_app pred a b : rposition_byte pred b = None -> rposition_byte pred (a ++ b) = rposition_byte pred a.
Proof. intros H. induction a as [|x a IH]; [done|]. cbn. by rewrite IH. Qed.

Lemma rposition_byte_snoc pred a x : pred x = true -> rposition_byte pred (a ++ [x]) = Some (length a).
Proof. intros H. induction a as [|y a IH]; cbn; [by rewrite H|]. by rewrite IH. Qed.

Lemma rposition_byte_padding n : rposition_byte (fun byte => negb (byte =? 0)) (replicate n 0) = None.
Proof. induction n as [|n IH]; [done|]. cbn. by rewrite IH. Qed.

Lemma encode_char_last c : scalar c -> c <> 0 -> exists p b, encode_char c = p ++ [b] /\ b <> 0.
Proof.
  intros Hs Hc. pose proof (encode_char_nonempty c) as Hn. destruct (encode_char c) as [|b0 l0] eqn:E using rev_ind; [done|].
  exists l0, b0. split; [done|]. intros ->.
  assert (0 ∈ utf8_encode [c]) as Hin by (cbn; rewrite E; set_solver).
  apply (ascii_in_encode 0 [c]) in Hin; [|lia|by constructor]. apply list_elem_of_singleton in Hin. congruence.
Qed.

(** A text that does not end in a NUL is read out of any padding. *)
Lemma text_field_padded t c n : Forall scalar (t ++ [c]) -> c <> 0 ->
  text_field (utf8_encode (t ++ [c]) ++ replicate n 0) = Some (t ++ [c]).
Proof.
  intros Hs Hc. assert (scalar c) as Hsc by (apply Forall_app in Hs as [_ Hs]; by inversion Hs).
  destruct (encode_char_last c Hsc Hc) as (p & b & Hp & Hb).
  assert (utf8_encode (t ++ [c]) = (utf8_encode t ++ p) ++ [b]) as He.
  { unfold utf8_encode. rewrite bind_app. cbn. rewrite app_nil_r, Hp. apply app_assoc. }
  unfold text_field. rewrite rposition_byte_app by apply rposition_byte_padding.
  rewrite He, rposition_byte_snoc by (apply negb_true_iff; by apply Z.eqb_neq). cbn [mbind option_bind].
  replace (S (length (utf8_encode t ++ p))) with (length ((utf8_encode t ++ p) ++ [b])) by (rewrite (length_app _ [b]); cbn; lia).
  rewrite take_app_length, <- He. by apply utf8_decode_encode.
Qed.

Lemma length_encode_char c : length (encode_char c) = len_utf8 c.
Proof. unfold encode_char, len_utf8. by repeat case_match. Qed.

Lemma length_utf8_encode t : length (utf8_encode t) = byte_len t.
Proof.
  induction t as [|c t IH]; [done|]. unfold utf8_encode in *. by rewrite bind_cons, length_app, length_encode_char, IH.
Qed.

(** ** Walks over records *)

Section walk.
Context {R : Type} (next : list Z -> option (R * list Z)).

Lemma length_records more bytes : (length (records next more bytes) <= more)%nat.
Proof.
  revert bytes. induction more as [|more IH]; intros bytes; cbn; [lia|].
  destruct (next bytes) as [[r rest]|]; cbn; [|lia]. specialize (IH rest). lia.
Qed.

(** What a record splits off stays split off when more follows. *)
Context (next_app : forall a r rest b, next a = Some (r, rest) -> next (a ++ b) = Some (r, rest ++ b)).

Lemma records_prefix more a b : records next more a `prefix_of` records next more (a ++ b).
Proof.
  revert a. induction more as [|more IH]; intros a; cbn; [by exists []|].
  destruct (next a) as [[r rest]|] eqn:E; [|by eexists].
  rewrite (next_app _ _ _ b E). apply prefix_cons, IH.
Qed.

(** Records laid end to end are met in their order, as many as the walk has turns for. *)
Lemma records_concat (layout : R -> list Z) rs rest more :
  Forall (fun r => next (layout r) = Some (r, [])) rs -> next rest = None ->
  records next more ((rs ≫= layout) ++ rest) = take more rs.
Proof.
  intros Hrs Hrest. revert more. induction Hrs as [|r rs Hr Hrs IH]; intros more.
  - cbn. destruct more; cbn; [done|]. by rewrite Hrest.
  - destruct more as [|more]; [done|]. cbn. rewrite <- app_assoc, (next_app _ _ _ _ Hr), app_nil_l. cbn.
    f_equal. apply IH.
Qed.
End walk.

Lemma first_read_app {R T} (read : R -> option T) a b :
  first_read read (a ++ b) = keep_first_read (first_read read a) (first_read read b).
Proof. induction a as [|r a IH]; [done|]. cbn. destruct (read r); [done|]. apply IH. Qed.

(** A value once read is not taken back by what is read further. *)
Lemma first_read_prefix {R T} (read : R -> option T) a b x :
  a `prefix_of` b -> first_read read a = Some x -> first_read read b = Some x.
Proof. intros [c ->] H. by rewrite first_read_app, H. Qed.

Lemma first_read_Some {R T} (read : R -> option T) rs x :
  first_read read rs = Some x <->
  exists before r after, rs = before ++ r :: after /\ read r = Some x /\ Forall (fun q => read q = None) before.
Proof.
  split.
  - induction rs as [|r rs IH]; [done|]. cbn. destruct (read r) as [y|] eqn:E.
    + intros [= ->]. exists [], r, rs. repeat split; auto.
    + intros (before & q & after & -> & Hq & Hb)%IH. exists (r :: before), q, after. repeat split; auto.
  - intros (before & r & after & -> & Hr & Hb). induction Hb as [|q before Hq _ IH]; cbn; [by rewrite Hr|].
    by rewrite Hq.
Qed.
