(* ===== verification/Ethernet.v ===== *)
(** * Ethernet frames

    [src/src/protocols/ethernet.rs]: the header of a frame, the VLAN tags it is
    followed by, and the payload.  Reading is the exact inverse of the layout on the
    wire: every frame laid out is read back, and nothing else is read. *)

From Stdlib Require Import ZArith Lia String.
From stdpp Require Import base numbers sets option list.
From S2P Require Import Prelude Std Text Intervals IpRange Utf8 Mac AddrText Packet.

Local Open Scope Z_scope.

(** ** Definitions *)

Definition VLAN_TAG_LEN : nat := 4.

Definition MAX_VLAN_TAGS : nat := 2.

Definition MAX_PAYLOAD_LEN : Z := 1500.

Definition VLAN_TPIDS : list Z := [0x8100; 0x88A8; 0x9100].

Record VlanTag := mkVlanTag {
  tag_protocol : Z;
  tag_id : Z;
  tag_priority : Z;
  tag_drop_eligible : bool }.

#[export] Instance VlanTag_eq_dec : EqDecision VlanTag.
Proof. solve_decision. Defined.

(** [VlanTag::read]. *)
Definition tag_read (protocol : Z) (tci : list Z) : VlanTag :=
  let tci := from_be_bytes tci in
  mkVlanTag protocol (Z.land tci 0x0FFF) (wrap 8 (Z.shiftr tci 13)) (negb (Z.land tci 0x1000 =? 0)).

Record Frame := mkFrame {
  frame_bytes : list Z;
  frame_payload : list Z;
  frame_ethertype : Z;
  frame_tags : list VlanTag;
  frame_depth : nat }.

(** [None] is the panic of an index past the end. *)
Definition mac_at (bytes : list Z) (offset : nat) : option MacAddr := get_range offset (offset + 6) bytes.

Definition destination (f : Frame) : option MacAddr := mac_at (frame_bytes f) 0.

Definition source (f : Frame) : option MacAddr := mac_at (frame_bytes f) 6.

Definition vlans (f : Frame) : list VlanTag := take (frame_depth f) (frame_tags f).

Definition payload_length (f : Frame) : option nat :=
  then_some (frame_ethertype f <=? MAX_PAYLOAD_LEN) (Z.to_nat (frame_ethertype f)).

Definition payload_as_claimed (f : Frame) : option (list Z) :=
  match payload_length f with
  | Some length => get_range 0 length (frame_payload f)
  | None => Some (frame_payload f)
  end.

Definition short_of (frame_bytes : list Z) (needed : nat) : PacketError :=
  truncated (lit "an Ethernet frame") needed (length frame_bytes).

Definition ok_or {T E} (o : option T) (e : E) : Result T E :=
  match o with Some x => Ok x | None => Err e end.

(** Two bytes of the frame at an offset, as the parser takes them one by one. *)
Definition two_at (frame_bytes : list Z) (at_ needed : nat) : Result (list Z) PacketError :=
  let? a := ok_or (frame_bytes !! at_) (short_of frame_bytes needed) in
  let? b := ok_or (frame_bytes !! S at_) (short_of frame_bytes needed) in
  Ok [a; b].

(** The loop over the tags; [more] is [MAX_VLAN_TAGS] less the depth. *)
Fixpoint read_tags (more : nat) (frame_bytes : list Z) (tags : list VlanTag) (depth payload_offset : nat)
    (ethertype : Z) : Result (list VlanTag * nat * nat * Z) PacketError :=
  match more with
  | O => Ok (tags, depth, payload_offset, ethertype)
  | S more =>
      if bool_decide (ethertype ∈ VLAN_TPIDS) then
        let through_tag := (payload_offset + VLAN_TAG_LEN)%nat in
        let? tci := two_at frame_bytes payload_offset through_tag in
        let? inner := two_at frame_bytes (payload_offset + 2) through_tag in
        read_tags more frame_bytes (<[depth := tag_read ethertype tci]> tags) (S depth)
          through_tag (from_be_bytes inner)
      else Ok (tags, depth, payload_offset, ethertype)
  end.

(** [ethernet::parse]. *)
Definition ethernet_parse (frame_bytes : list Z) : Result Frame PacketError :=
  let? ethertype := two_at frame_bytes 12 ETH_HDR_LEN in
  let blank := mkVlanTag 0 0 0 false in
  let? (tags, depth, payload_offset, ethertype) :=
    read_tags MAX_VLAN_TAGS frame_bytes (replicate MAX_VLAN_TAGS blank) 0 ETH_HDR_LEN (from_be_bytes ethertype) in
  let? payload := ok_or (get_from payload_offset frame_bytes) (short_of frame_bytes payload_offset) in
  Ok (mkFrame frame_bytes payload ethertype tags depth).

(** ** The layout of a frame on the wire *)

Definition tci_of (t : VlanTag) : Z :=
  tag_priority t * 8192 + (if tag_drop_eligible t then 4096 else 0) + tag_id t.

Definition tag_layout (t : VlanTag) : list Z := to_be_bytes 2 (tag_protocol t) ++ to_be_bytes 2 (tci_of t).

Definition frame_layout (dst src : MacAddr) (tags : list VlanTag) (ethertype : Z) (payload : list Z) : list Z :=
  dst ++ src ++ (tags ≫= tag_layout) ++ to_be_bytes 2 ethertype ++ payload.

Definition tag_ok (t : VlanTag) : Prop :=
  tag_protocol t ∈ VLAN_TPIDS /\ fits 12 (tag_id t) /\ fits 3 (tag_priority t).

(** The tags a frame may carry before its ethertype: at most as many as are walked,
    and all of those there are. *)
Definition tags_ok (tags : list VlanTag) (ethertype : Z) : Prop :=
  Forall tag_ok tags /\ (length tags <= MAX_VLAN_TAGS)%nat /\ fits 16 ethertype /\
  (ethertype ∈ VLAN_TPIDS -> length tags = MAX_VLAN_TAGS).

Example tagged_frame :
  map_ok (fun f => (vlans f, frame_ethertype f, frame_payload f))
    (ethernet_parse ([1;2;3;4;5;6] ++ [7;8;9;10;11;12] ++ [0x81;0;0x70;0x28] ++ [8;0] ++ [99]))
  = Ok ([mkVlanTag 0x8100 40 3 true], 0x800, [99]).
Proof. vm_compute. reflexivity. Qed.

(** ** Tags read back *)

Lemma tpid_fits t : t ∈ VLAN_TPIDS -> fits 16 t.
Proof. intros H. repeat (apply elem_of_cons in H as [->|H]; [done|]). by apply not_elem_of_nil in H. Qed.

Lemma tci_read tci : fits 16 tci ->
  Z.land tci 0x0FFF = tci mod 4096 /\ wrap 8 (Z.shiftr tci 13) = tci / 8192 /\
  negb (Z.land tci 0x1000 =? 0) = Z.odd (tci / 4096).
Proof.
  intros H. repeat split.
  - apply (Z.land_ones tci 12). lia.
  - rewrite Z.shiftr_div_pow2 by lia. apply wrap_small. change (2 ^ 13) with 8192. change (2 ^ 8) with 256.
    split; [apply Z.div_pos; mlia|]. apply Z.div_lt_upper_bound; mlia.
  - change 4096 with (2 ^ 12). rewrite <- (Z.shiftr_div_pow2 tci 12), <- Z.testbit_odd by lia. by apply land_bit.
Qed.

Lemma tci_of_fits t : tag_ok t -> fits 16 (tci_of t).
Proof. intros (_ & Hi & Hp). unfold tci_of. destruct (tag_drop_eligible t); mlia. Qed.

Lemma tag_read_layout t : tag_ok t -> tag_read (tag_protocol t) (to_be_bytes 2 (tci_of t)) = t.
Proof.
  intros Ht. unfold tag_read. rewrite from_to_be_bytes by (by apply tci_of_fits).
  destruct (tci_read _ (tci_of_fits t Ht)) as (-> & -> & ->).
  destruct Ht as (_ & Hi & Hp), t as [p i q d]. cbn in *. unfold tci_of, fits, umax in *. cbn.
  pose proof (Zmod_odd ((q * 8192 + (if d then 4096 else 0) + i) / 4096)) as Ho.
  destruct (Z.odd _), d; f_equal; try done; Z.div_mod_to_equations; lia.
Qed.

Lemma tag_read_inv p tci : p ∈ VLAN_TPIDS -> fits 16 tci ->
  tag_ok (tag_read p (to_be_bytes 2 tci)) /\ tci_of (tag_read p (to_be_bytes 2 tci)) = tci.
Proof.
  intros Hp Hf. unfold tag_read. rewrite from_to_be_bytes by done.
  destruct (tci_read tci Hf) as (-> & -> & ->). unfold tag_ok, tci_of, fits, umax in *. cbn.
  pose proof (Zmod_odd (tci / 4096)) as Ho.
  destruct (Z.odd _); split_and!; try done; Z.div_mod_to_equations; lia.
Qed.

(** ** The walk over the tags, and the layout *)

Definition first_type (tags : list VlanTag) (ethertype : Z) : Z :=
  match tags with [] => ethertype | t :: _ => tag_protocol t end.

Fixpoint after_first (tags : list VlanTag) (ethertype : Z) : list Z :=
  match tags with
  | [] => []
  | t :: tags => to_be_bytes 2 (tci_of t) ++ to_be_bytes 2 (first_type tags ethertype) ++ after_first tags ethertype
  end.

Lemma layout_first tags ethertype :
  (tags ≫= tag_layout) ++ to_be_bytes 2 ethertype = to_be_bytes 2 (first_type tags ethertype) ++ after_first tags ethertype.
Proof.
  induction tags as [|t tags IH]; [done|]. rewrite bind_cons, <- app_assoc, IH. unfold tag_layout. by rewrite <- app_assoc.
Qed.

Lemma length_after_first tags ethertype : length (after_first tags ethertype) = (4 * length tags)%nat.
Proof.
  induction tags as [|t tags IH]; [done|]. cbn [after_first]. rewrite !length_app, !length_to_be_bytes, IH. cbn [length]. lia.
Qed.

Lemma first_type_fits tags ethertype : Forall tag_ok tags -> fits 16 ethertype -> fits 16 (first_type tags ethertype).
Proof. intros [|t l Ht _] He; [done|]. destruct Ht as [Ht _]. by apply tpid_fits. Qed.

Lemma two_at_app pre a b rest needed : two_at (pre ++ a :: b :: rest) (length pre) needed = Ok [a; b].
Proof.
  unfold two_at. rewrite list_lookup_middle by done. cbn.
  by rewrite (cons_middle a), app_assoc, list_lookup_middle by (rewrite length_app; cbn; lia).
Qed.

Lemma two_at_cases bytes at_ needed :
  (exists a b pre rest, bytes = pre ++ a :: b :: rest /\ length pre = at_ /\ two_at bytes at_ needed = Ok [a; b]) \/
  (length bytes <= S at_)%nat /\ two_at bytes at_ needed = Err (short_of bytes needed).
Proof.
  destruct (Nat.le_gt_cases (length bytes) (S at_)) as [Hl|Hl].
  - right. split; [done|]. unfold two_at. destruct (bytes !! at_) eqn:E; cbn; [|done].
    by rewrite lookup_ge_None_2 by lia.
  - left. destruct (split_exact at_ bytes ltac:(lia)) as (pre & rest & -> & <-).
    rewrite length_app in Hl. destruct rest as [|a [|b rest]]; cbn in Hl; [lia|lia|].
    exists a, b, pre, rest. by rewrite two_at_app.
Qed.

Lemma read_tags_layout tags : forall more pre l r ethertype payload,
  Forall tag_ok tags -> (length tags <= more <= length r)%nat -> fits 16 ethertype ->
  (ethertype ∈ VLAN_TPIDS -> length tags = more) ->
  read_tags more (pre ++ after_first tags ethertype ++ payload) (l ++ r) (length l) (length pre) (first_type tags ethertype)
  = Ok (l ++ tags ++ drop (length tags) r, (length l + length tags)%nat, (length pre + 4 * length tags)%nat, ethertype).
Proof.
  induction tags as [|t tags IH]; intros more pre l r ethertype payload Ht Hl He Hfull.
  - cbn [first_type after_first length drop app]. rewrite !Nat.add_0_r. destruct more as [|more]; [done|]. cbn.
    rewrite bool_decide_false; [done|]. intros H%Hfull. cbn in H. lia.
  - apply Forall_cons in Ht as [Ht Hts]. destruct more as [|more]; [cbn in Hl; lia|].
    destruct r as [|x r]; [cbn in Hl; lia|]. cbn [first_type read_tags after_first].
    rewrite bool_decide_true by apply Ht.
    destruct (two_bytes (tci_of t)) as (a & b & Hab & _); [by apply tci_of_fits|].
    destruct (two_bytes (first_type tags ethertype)) as (c & d & Hcd & Hn); [by apply first_type_fits|].
    rewrite Hab, Hcd. cbn [app]. rewrite two_at_app. cbn [try_].
    replace (pre ++ a :: b :: c :: d :: after_first tags ethertype ++ payload)
      with ((pre ++ [a; b]) ++ c :: d :: after_first tags ethertype ++ payload) by (by rewrite <- app_assoc).
    replace (length pre + 2)%nat with (length (pre ++ [a; b])) by (rewrite length_app; cbn; lia).
    rewrite two_at_app. cbn [try_]. rewrite Hn, <- Hab, tag_read_layout by done.
    replace (<[length l:=t]> (l ++ x :: r)) with ((l ++ [t]) ++ r)
      by (rewrite insert_app_r_alt, Nat.sub_diag, <- app_assoc by done; done).
    replace ((pre ++ to_be_bytes 2 (tci_of t)) ++ c :: d :: after_first tags ethertype ++ payload)
      with ((pre ++ [a; b; c; d]) ++ after_first tags ethertype ++ payload) by (rewrite Hab, <- !app_assoc; done).
    replace (S (length l)) with (length (l ++ [t])) by (rewrite length_app; cbn; lia).
    replace (length pre + VLAN_TAG_LEN)%nat with (length (pre ++ [a; b; c; d])) by (rewrite length_app; done).
    rewrite IH; [|done|cbn in Hl; lia|done|intros H%Hfull; cbn in H; lia].
    rewrite !length_app, <- !app_assoc. cbn [length app drop]. do 3 f_equal; [f_equal|]; lia.
Qed.

Lemma bytes_pair a b : fits 8 a -> fits 8 b ->
  fits 16 (from_be_bytes [a; b]) /\ to_be_bytes 2 (from_be_bytes [a; b]) = [a; b].
Proof.
  intros Ha Hb. assert (bytes_ok [a; b]) as H by (repeat constructor; mlia).
  split; [apply (from_be_bytes_fits _ H)|apply (to_from_be_bytes _ H)].
Qed.

Lemma pair_ok pre a b rest : bytes_ok (pre ++ a :: b :: rest) ->
  fits 16 (from_be_bytes [a; b]) /\ to_be_bytes 2 (from_be_bytes [a; b]) = [a; b].
Proof. intros [_ [Ha [Hb _]%Forall_cons]%Forall_cons]%Forall_app. by apply bytes_pair. Qed.

Lemma read_tags_inv more : forall bytes pre rest l r first tags depth offset ethertype,
  bytes = pre ++ rest -> bytes_ok bytes -> (more <= length r)%nat -> fits 16 first ->
  read_tags more bytes (l ++ r) (length l) (length pre) first = Ok (tags, depth, offset, ethertype) ->
  exists ts payload, tags = l ++ ts ++ drop (length ts) r /\ depth = (length l + length ts)%nat /\
    offset = (length pre + 4 * length ts)%nat /\ first_type ts ethertype = first /\
    rest = after_first ts ethertype ++ payload /\ Forall tag_ok ts /\ (length ts <= more)%nat /\
    fits 16 ethertype /\ (ethertype ∈ VLAN_TPIDS -> length ts = more).
Proof.
  induction more as [|more IH]; intros bytes pre rest l r first tags depth offset ethertype Hb Hok Hr Hf H.
  - injection H as <- <- <- <-. exists [], rest. cbn. rewrite !Nat.add_0_r. split_and!; auto.
  - cbn [read_tags] in H. destruct (bool_decide_reflect (first ∈ VLAN_TPIDS)) as [Hin|Hin].
    2:{ injection H as <- <- <- <-. exists [], rest. cbn. rewrite !Nat.add_0_r. split_and!; auto; [lia|done]. }
    destruct r as [|x r]; [cbn in Hr; lia|].
    destruct (two_at_cases bytes (length pre) (length pre + VLAN_TAG_LEN)) as [(a & b & p1 & r1 & Hb1 & Hl1 & E1)|[_ E1]];
      rewrite E1 in H; [cbn [try_] in H|done].
    destruct (two_at_cases bytes (length pre + 2) (length pre + VLAN_TAG_LEN)) as [(c & d & p2 & r2 & Hb2 & Hl2 & E2)|[_ E2]];
      rewrite E2 in H; [cbn [try_] in H|done]. clear E1 E2.
    assert (p1 = pre /\ rest = a :: b :: r1) as [-> ->] by (subst bytes; apply app_inj_1 in Hb1; naive_solver).
    assert (p2 = pre ++ [a; b] /\ r1 = c :: d :: r2) as [-> ->].
    { rewrite Hb1, (cons_middle a), (cons_middle b), !app_assoc in Hb2. apply app_inj_1 in Hb2 as [E1 E2];
        [|rewrite Hl2, !length_app; cbn; lia]. rewrite <- E1, <- E2, <- app_assoc. done. }
    destruct (pair_ok pre a b (c :: d :: r2)) as [Hfab Hab]; [by rewrite <- Hb1|].
    destruct (pair_ok (pre ++ [a; b]) c d r2) as [Hfcd Hcd]; [by rewrite <- Hb2|].
    replace (<[length l:=tag_read first [a; b]]> (l ++ x :: r)) with ((l ++ [tag_read first [a; b]]) ++ r) in H
      by (rewrite insert_app_r_alt, Nat.sub_diag, <- app_assoc by done; done).
    replace (S (length l)) with (length (l ++ [tag_read first [a; b]])) in H by (rewrite length_app; cbn; lia).
    replace (length pre + VLAN_TAG_LEN)%nat with (length (pre ++ [a; b; c; d])) in H by (rewrite length_app; done).
    apply (IH bytes (pre ++ [a; b; c; d]) r2) in H as (ts & payload & -> & -> & -> & Hfirst & -> & Hts & Hn & Het & Hfull);
      [|rewrite Hb1, <- app_assoc; done|done|cbn in Hr; lia|done].
    pose proof (tag_read_inv first (from_be_bytes [a; b]) Hin Hfab) as [Hok3 Htci]. rewrite Hab in Hok3, Htci.
    exists (tag_read first [a; b] :: ts), payload. rewrite !length_app, <- !app_assoc.
    cbn [app length drop first_type after_first]. rewrite Htci, Hfirst, Hab, Hcd.
    split_and!; try done; try lia.
    + by constructor.
    + intros Hx%Hfull. lia.
Qed.

Lemma read_tags_err more : forall bytes tags depth offset first e,
  read_tags more bytes tags depth offset first = Err e ->
  exists needed, e = short_of bytes needed /\ (length bytes < needed <= offset + 4 * more)%nat.
Proof.
  induction more as [|more IH]; intros bytes tags depth offset first e H; [done|].
  cbn [read_tags] in H. destruct (bool_decide _); [|done].
  destruct (two_at_cases bytes offset (offset + VLAN_TAG_LEN)) as [(a & b & p & r & _ & _ & E)|[Hl E]]; rewrite E in H.
  2:{ injection H as <-. eexists. split; [done|]. unfold VLAN_TAG_LEN. lia. }
  cbn [try_] in H.
  destruct (two_at_cases bytes (offset + 2) (offset + VLAN_TAG_LEN)) as [(c & d & p2 & r2 & _ & _ & E2)|[Hl E2]]; rewrite E2 in H.
  2:{ injection H as <-. eexists. split; [done|]. unfold VLAN_TAG_LEN. lia. }
  cbn [try_] in H. apply IH in H as (needed & -> & Hn). exists needed. split; [done|]. unfold VLAN_TAG_LEN in Hn. lia.
Qed.

Lemma read_tags_within more : forall bytes tags depth offset first tags' depth' offset' ethertype,
  (offset <= length bytes)%nat -> read_tags more bytes tags depth offset first = Ok (tags', depth', offset', ethertype) ->
  (offset' <= length bytes)%nat.
Proof.
  induction more as [|more IH]; intros bytes tags depth offset first tags' depth' offset' ethertype Ho H; [cbn in H; by simplify_eq|].
  cbn [read_tags] in H. destruct (bool_decide _); [|by simplify_eq].
  destruct (two_at_cases bytes offset (offset + VLAN_TAG_LEN)) as [(a & b & p & r & _ & _ & E)|[_ E]]; rewrite E in H; [|done].
  cbn [try_] in H.
  destruct (two_at_cases bytes (offset + 2) (offset + VLAN_TAG_LEN)) as [(c & d & p2 & r2 & Hb & Hl & E2)|[_ E2]]; rewrite E2 in H; [|done].
  cbn [try_] in H. apply IH in H; [done|]. rewrite Hb, length_app, Hl. cbn. unfold VLAN_TAG_LEN. lia.
Qed.

(** ** Frames *)

Lemma get_range_front a b n : length a = n -> get_range 0 n (a ++ b) = Some a.
Proof. intros <-. apply (get_range_app [] a b); done. Qed.

Lemma layout_shape dst src tags ethertype payload :
  frame_layout dst src tags ethertype payload =
  (dst ++ src ++ to_be_bytes 2 (first_type tags ethertype)) ++ after_first tags ethertype ++ payload.
Proof.
  unfold frame_layout. rewrite (app_assoc (tags ≫= tag_layout)), layout_first. by rewrite <- !app_assoc.
Qed.

Lemma parse_layout dst src tags ethertype payload :
  mac_ok dst -> mac_ok src -> tags_ok tags ethertype ->
  ethernet_parse (frame_layout dst src tags ethertype payload) =
  Ok (mkFrame (frame_layout dst src tags ethertype payload) payload ethertype
        (tags ++ drop (length tags) (replicate MAX_VLAN_TAGS (mkVlanTag 0 0 0 false))) (length tags)).
Proof.
  intros [Hd _] [Hs _] (Ht & Hl & He & Hfull). unfold ethernet_parse.
  destruct (two_bytes (first_type tags ethertype)) as (a & b & Hab & Hn); [by apply first_type_fits|].
  assert (length (dst ++ src) = 12%nat) as H12 by (rewrite length_app; lia).
  rewrite layout_shape, Hab at 1. rewrite (app_assoc dst), <- (app_assoc (dst ++ src)).
  change ([a; b] ++ after_first tags ethertype ++ payload) with (a :: b :: after_first tags ethertype ++ payload).
  rewrite <- H12 at 1. rewrite two_at_app. cbn [try_]. rewrite Hn.
  replace (frame_layout dst src tags ethertype payload) with ((dst ++ src ++ [a; b]) ++ after_first tags ethertype ++ payload)
    by (rewrite layout_shape, Hab; done).
  assert (length (dst ++ src ++ [a; b]) = ETH_HDR_LEN) as H14 by (rewrite !length_app, Hd, Hs; done).
  pose proof (read_tags_layout tags MAX_VLAN_TAGS (dst ++ src ++ [a; b]) [] (replicate MAX_VLAN_TAGS (mkVlanTag 0 0 0 false))
    ethertype payload Ht) as E. rewrite H14, app_nil_l in E. cbn [length] in E.
  rewrite E; [|split; [done|by rewrite length_replicate]|done|done]. clear E. cbn [try_ length Nat.add app].
  rewrite app_assoc, (get_from_app _ payload); [done|].
  by rewrite length_app, length_after_first, H14.
Qed.

Lemma parse_inv bytes f : bytes_ok bytes -> ethernet_parse bytes = Ok f ->
  exists dst src, mac_ok dst /\ mac_ok src /\ tags_ok (vlans f) (frame_ethertype f) /\
    frame_bytes f = bytes /\ bytes = frame_layout dst src (vlans f) (frame_ethertype f) (frame_payload f).
Proof.
  intros Hok H. unfold ethernet_parse in H.
  destruct (two_at_cases bytes 12 ETH_HDR_LEN) as [(a & b & pre & rest & Hb & Hl & E)|[_ E]]; rewrite E in H; [|done].
  cbn [try_] in H. clear E. destruct (pair_ok pre a b rest) as [Hf Hab]; [by rewrite <- Hb|].
  destruct (read_tags _ _ _ _ _ _) as [[[[tags depth] offset] ethertype]|] eqn:E; [|done]. cbn [try_] in H.
  replace ETH_HDR_LEN with (length (pre ++ [a; b])) in E by (rewrite length_app, Hl; done).
  apply (read_tags_inv MAX_VLAN_TAGS bytes (pre ++ [a; b]) rest [] (replicate MAX_VLAN_TAGS _)) in E
    as (ts & payload & -> & -> & -> & Hfirst & -> & Hts & Hn & Het & Hfull);
    [|by rewrite Hb, <- app_assoc|done|by rewrite length_replicate|done].
  destruct (get_from _ bytes) as [p|] eqn:Eg; [|done]. injection H as <-. cbn.
  unfold vlans. cbn. rewrite take_app_length.
  apply get_from_Some in Eg as (front & Hfront & Hlf).
  assert (p = payload) as ->.
  { rewrite Hfront in Hb. change (a :: b :: after_first ts ethertype ++ payload)
      with ([a; b] ++ after_first ts ethertype ++ payload) in Hb. rewrite !app_assoc in Hb.
    apply app_inj_1 in Hb as [_ ->]; [done|]. by rewrite Hlf, (length_app _ (after_first _ _)), length_after_first. }
  assert (Forall (fits 8) pre) as Hpre by (rewrite Hb in Hok; by apply Forall_app in Hok as [? _]).
  exists (take 6 pre), (drop 6 pre). unfold mac_ok, tags_ok. rewrite length_take, length_drop, Hl.
  split_and!; try done; [by apply Forall_take|by apply Forall_drop|].
  rewrite layout_shape, (app_assoc (take 6 pre)), take_drop, Hfirst, Hab, Hb, <- app_assoc. done.
Qed.

(** What is left of a frame cut short reads as the frame, with a shorter payload. *)
Lemma parse_extend bytes more f : bytes_ok bytes -> ethernet_parse bytes = Ok f ->
  ethernet_parse (bytes ++ more) =
  Ok (mkFrame (bytes ++ more) (frame_payload f ++ more) (frame_ethertype f)
        (vlans f ++ drop (length (vlans f)) (replicate MAX_VLAN_TAGS (mkVlanTag 0 0 0 false))) (length (vlans f))).
Proof.
  intros Hok H. destruct (parse_inv bytes f Hok H) as (dst & src & Hd & Hs & Ht & _ & ->).
  unfold frame_layout at 1 2. rewrite <- !app_assoc.
  apply (parse_layout dst src _ _ (frame_payload f ++ more) Hd Hs Ht).
Qed.

(** An Ethernet frame is its bytes, both ways.  A frame laid out with its addresses,
    up to two VLAN tags, an ethertype and a payload is read back as exactly those; any
    bytes that are read are the layout of what was read, so two frames that read alike
    are the same bytes; and bytes are refused only when they stop before the header or
    the tags they announce, with the size that was missing. *)
Theorem frame_is_its_layout :
  (forall (dst src : MacAddr) (tags : list VlanTag) (ethertype : Z) (payload : list Z),
     mac_ok dst -> mac_ok src -> tags_ok tags ethertype ->
     exists f, ethernet_parse (frame_layout dst src tags ethertype payload) = Ok f /\
       destination f = Some dst /\ source f = Some src /\ vlans f = tags /\
       frame_ethertype f = ethertype /\ frame_payload f = payload) /\
  (forall (bytes : list Z) (f : Frame), bytes_ok bytes -> ethernet_parse bytes = Ok f ->
     exists dst src, destination f = Some dst /\ source f = Some src /\ tags_ok (vlans f) (frame_ethertype f) /\
       bytes = frame_layout dst src (vlans f) (frame_ethertype f) (frame_payload f)) /\
  (forall (bytes : list Z) (e : PacketError), ethernet_parse bytes = Err e ->
     exists needed, e = Truncated (lit "an Ethernet frame") needed (length bytes) /\
       (length bytes < needed <= ETH_HDR_LEN + MAX_VLAN_TAGS * VLAN_TAG_LEN)%nat).
Proof.
  assert (forall dst src tags ethertype payload, mac_ok dst -> mac_ok src ->
    mac_at (frame_layout dst src tags ethertype payload) 0 = Some dst /\
    mac_at (frame_layout dst src tags ethertype payload) 6 = Some src) as Hmac.
  { intros dst src tags ethertype payload [Hd _] [Hs _]. unfold mac_at, frame_layout.
    split; [by apply get_range_front|]. apply get_range_app; [done|lia]. }
  split_and!.
  - intros dst src tags ethertype payload Hd Hs Ht. eexists. split; [by apply parse_layout|].
    destruct (Hmac dst src tags ethertype payload Hd Hs) as [H1 H2].
    unfold destination, source, vlans. cbn. split_and!; try done. by rewrite take_app_length.
  - intros bytes f Hok H. destruct (parse_inv bytes f Hok H) as (dst & src & Hd & Hs & Ht & Hf & Hb).
    destruct (Hmac dst src (vlans f) (frame_ethertype f) (frame_payload f) Hd Hs) as [H1 H2].
    exists dst, src. unfold destination, source. rewrite Hf, Hb. split_and!; done.
  - intros bytes e H. unfold ethernet_parse in H.
    destruct (two_at_cases bytes 12 ETH_HDR_LEN) as [(a & b & pre & rest & Hb & Hl & E)|[Hl E]]; rewrite E in H; cbn [try_] in H.
    2:{ injection H as <-. exists ETH_HDR_LEN. split; [done|]. unfold ETH_HDR_LEN in *. lia. }
    destruct (read_tags _ _ _ _ _ _) as [[[[tags depth] offset] ethertype]|e'] eqn:E'; cbn [try_] in H.
    2:{ injection H as ->. apply read_tags_err in E' as (needed & -> & Hn). exists needed. split; [done|]. unfold ETH_HDR_LEN, MAX_VLAN_TAGS, VLAN_TAG_LEN in *. lia. }
    apply read_tags_within in E'; [|rewrite Hb, length_app, Hl; unfold ETH_HDR_LEN; cbn; lia].
    unfold get_from in H. rewrite (proj2 (Nat.leb_le _ _)) in H by done. done.
Qed.

Lemma frame_is_its_layout_witness :
  let dst := [1; 2; 3; 4; 5; 6] in let src := [7; 8; 9; 10; 11; 12] in
  let tags := [mkVlanTag 0x88A8 7 1 false; mkVlanTag 0x8100 40 3 true] in
  (exists f, ethernet_parse (frame_layout dst src tags 0x8100 [99]) = Ok f /\ vlans f = tags) /\
  (exists f dst src, ethernet_parse (repeat 5 15) = Ok f /\ repeat 5 15 = frame_layout dst src [] 0x0505 [5]) /\
  (exists needed, ethernet_parse (repeat 1 12 ++ [0x81; 0; 1]) = Err (Truncated (lit "an Ethernet frame") needed 15) /\
     (15 < needed <= 22)%nat).
Proof.
  destruct frame_is_its_layout as (Hread & Hlayout & Herr). split_and!.
  - destruct (Hread [1; 2; 3; 4; 5; 6] [7; 8; 9; 10; 11; 12]
      [mkVlanTag 0x88A8 7 1 false; mkVlanTag 0x8100 40 3 true] 0x8100 [99]) as (f & Hf & _ & _ & Hv & _).
    + split; [done|repeat constructor; vm_compute; discriminate].
    + split; [done|repeat constructor; vm_compute; discriminate].
    + split_and!; [repeat constructor; vm_compute; try discriminate; set_solver|vm_compute; lia|split; vm_compute; discriminate|done].
    + eauto.
  - destruct (Hlayout (repeat 5 15) (mkFrame (repeat 5 15) [5] 0x0505 (replicate 2 (mkVlanTag 0 0 0 false)) 0))
      as (dst & src & _ & _ & _ & H).
    + repeat constructor; vm_compute; discriminate.
    + reflexivity.
    + exists (mkFrame (repeat 5 15) [5] 0x0505 (replicate 2 (mkVlanTag 0 0 0 false)) 0), dst, src. split; [reflexivity|exact H].
  - destruct (Herr (repeat 1 12 ++ [0x81; 0; 1]) (Truncated (lit "an Ethernet frame") 18 15)) as (needed & E & Hn); [reflexivity|].
    exists needed. split; [|exact Hn]. change 15%nat with (length (repeat 1 12 ++ [0x81; 0; 1])). rewrite <- E. reflexivity.
Defined.
