(* ===== verification/Lldp.v ===== *)
(** * LLDP advertisements

    [src/src/protocols/lldp.rs]: what a switch says of itself, as a walk over
    type-length-value records of which the first readable of each kind counts.  An
    advertisement laid out on the wire is read back field by field, and a frame cut
    short never says anything else than the frame it was cut from. *)

From Stdlib Require Import ZArith Lia String.
From stdpp Require Import base numbers sets option list.
From S2P Require Import Prelude Std Text Intervals IpRange Utf8 Mac AddrText Packet Ethernet.

Local Open Scope Z_scope.

(** ** Definitions *)

Definition ETHERTYPE : Z := 0x88CC.

Definition GROUP_ADDRESSES : list MacAddr :=
  [[0x01; 0x80; 0xC2; 0x00; 0x00; 0x0E]; [0x01; 0x80; 0xC2; 0x00; 0x00; 0x03]; [0x01; 0x80; 0xC2; 0x00; 0x00; 0x00]].

Definition MAX_TLVS : nat := 128.

Definition OUI_802_1 : list Z := [0x00; 0x80; 0xC2].

Definition SUBTYPE_PORT_VLAN : Z := 1.

Definition TLV_END : Z := 0.
Definition TLV_CHASSIS_ID : Z := 1.
Definition TLV_PORT_ID : Z := 2.
Definition TLV_TTL : Z := 3.
Definition TLV_PORT_DESCRIPTION : Z := 4.
Definition TLV_SYSTEM_NAME : Z := 5.
Definition TLV_SYSTEM_DESCRIPTION : Z := 6.
Definition TLV_CAPABILITIES : Z := 7.
Definition TLV_MANAGEMENT_ADDRESS : Z := 8.
Definition TLV_ORGANIZATIONALLY_SPECIFIC : Z := 127.

Definition CHASSIS_SUBTYPE_MAC : Z := 4.
Definition CHASSIS_SUBTYPE_NETWORK : Z := 5.
Definition PORT_SUBTYPE_MAC : Z := 3.
Definition PORT_SUBTYPE_NETWORK : Z := 4.

Definition AFN_IPV4 : Z := 1.
Definition AFN_IPV6 : Z := 2.

Inductive Identifier :=
  | IdMac (m : MacAddr)
  | IdNetwork (ip : IpAddr)
  | IdText (t : text)
  | IdOther (subtype : Z) (bytes : list Z).

Record Capabilities := mkCapabilities { caps_supported : Z; caps_enabled : Z }.

Record Advertisement := mkAdvertisement {
  chassis_id : option Identifier;
  port_id : option Identifier;
  ttl : option Z;
  system_name : option text;
  system_description : option text;
  port_description : option text;
  adv_capabilities : option Capabilities;
  management_address : option IpAddr;
  adv_port_vlan : option Z }.

#[export] Instance Identifier_eq_dec : EqDecision Identifier.
Proof. solve_decision. Defined.

#[export] Instance Capabilities_eq_dec : EqDecision Capabilities.
Proof. solve_decision. Defined.

#[export] Instance Advertisement_eq_dec : EqDecision Advertisement.
Proof. solve_decision. Defined.

Definition no_advertisement : Advertisement := mkAdvertisement None None None None None None None None None.

Definition addressed_to_a_bridge_group (dst : MacAddr) : bool := bool_decide (dst ∈ GROUP_ADDRESSES).

Definition address_of (family : Z) (address : list Z) : option IpAddr :=
  if family =? AFN_IPV4 then (fun bytes => V4 (from_be_bytes bytes)) <$> first_chunk 4 address
  else if family =? AFN_IPV6 then (fun bytes => V6 (from_be_bytes bytes)) <$> first_chunk 16 address
  else None.

Definition identifier (value : list Z) (mac network : Z) : option Identifier :=
  '(subtype, id) ← split_first_byte value;
  match id with
  | [] => None
  | _ =>
      if subtype =? mac then IdMac <$> first_chunk 6 id
      else if subtype =? network then
        '(family, address) ← split_first_byte id;
        IdNetwork <$> address_of family address
      else match text_field id with
           | Some name => Some (IdText name)
           | None => Some (IdOther subtype id)
           end
  end.

Definition capabilities (value : list Z) : option Capabilities :=
  bytes ← first_chunk 4 value;
  Some (mkCapabilities (from_be_bytes (take 2 bytes)) (from_be_bytes (drop 2 bytes))).

Definition management (value : list Z) : option IpAddr :=
  '(length, rest) ← split_first_byte value;
  string ← get_range 0 (Z.to_nat length) rest;
  '(family, address) ← split_first_byte string;
  address_of family address.

Definition port_vlan (value : list Z) : option Z :=
  '(oui, rest) ← split_at_checked (length OUI_802_1) value;
  if bool_decide (oui <> OUI_802_1) then None
  else
    '(subtype, vlan) ← split_first_byte rest;
    if negb (subtype =? SUBTYPE_PORT_VLAN) then None
    else from_be_bytes <$> first_chunk 2 vlan.

Definition next_tlv (bytes : list Z) : option (Z * list Z * list Z) :=
  header ← first_chunk 2 bytes;
  match header with
  | [h0; h1] =>
      let kind := Z.shiftr h0 1 in
      let length := Z.to_nat (from_be_bytes [Z.land h0 1; h1]) in
      value ← get_range 2 (2 + length) bytes;
      remainder ← get_from (2 + length) bytes;
      Some (kind, value, remainder)
  | _ => None
  end.

(** One record, kept if its field is still empty. *)
Definition keep_tlv (a : Advertisement) (kind : Z) (value : list Z) : Advertisement :=
  let '(mkAdvertisement ch po tl sn sd pd ca ma vl) := a in
  if kind =? TLV_CHASSIS_ID then
    mkAdvertisement (keep_first_read ch (identifier value CHASSIS_SUBTYPE_MAC CHASSIS_SUBTYPE_NETWORK)) po tl sn sd pd ca ma vl
  else if kind =? TLV_PORT_ID then
    mkAdvertisement ch (keep_first_read po (identifier value PORT_SUBTYPE_MAC PORT_SUBTYPE_NETWORK)) tl sn sd pd ca ma vl
  else if kind =? TLV_TTL then
    mkAdvertisement ch po (keep_first_read tl (from_be_bytes <$> first_chunk 2 value)) sn sd pd ca ma vl
  else if kind =? TLV_PORT_DESCRIPTION then
    mkAdvertisement ch po tl sn sd (keep_first_read pd (text_field value)) ca ma vl
  else if kind =? TLV_SYSTEM_NAME then
    mkAdvertisement ch po tl (keep_first_read sn (text_field value)) sd pd ca ma vl
  else if kind =? TLV_SYSTEM_DESCRIPTION then
    mkAdvertisement ch po tl sn (keep_first_read sd (text_field value)) pd ca ma vl
  else if kind =? TLV_CAPABILITIES then
    mkAdvertisement ch po tl sn sd pd (keep_first_read ca (capabilities value)) ma vl
  else if kind =? TLV_MANAGEMENT_ADDRESS then
    mkAdvertisement ch po tl sn sd pd ca (keep_first_read ma (management value)) vl
  else if kind =? TLV_ORGANIZATIONALLY_SPECIFIC then
    mkAdvertisement ch po tl sn sd pd ca ma (keep_first_read vl (port_vlan value))
  else a.

(** The loop of [lldp::parse]; [more] is [MAX_TLVS] less the records seen. *)
Fixpoint walk_tlvs (more : nat) (rest : list Z) (a : Advertisement) : Advertisement :=
  match more with
  | O => a
  | S more =>
      match next_tlv rest with
      | None => a
      | Some (kind, value, remainder) =>
          if kind =? TLV_END then a else walk_tlvs more remainder (keep_tlv a kind value)
      end
  end.

Definition read_something (a : Advertisement) : bool :=
  bool_decide (is_Some (chassis_id a)) || bool_decide (is_Some (port_id a)) || bool_decide (is_Some (ttl a)).

(** [lldp::parse]. *)
Definition lldp_parse (frame : Frame) : option Advertisement :=
  if negb (frame_ethertype frame =? ETHERTYPE) then None
  else
    let advertisement := walk_tlvs MAX_TLVS (frame_payload frame) no_advertisement in
    then_some (read_something advertisement) advertisement.

(** ** What a device says, and how it is laid out

    One thing a device may say of itself, the record that says it, and the one field
    of an advertisement that it fills. *)

Inductive Said :=
  | ChassisMac (m : MacAddr)
  | ChassisNetwork (ip : IpAddr)
  | ChassisText (subtype : Z) (t : text)
  | PortMac (m : MacAddr)
  | PortNetwork (ip : IpAddr)
  | PortText (subtype : Z) (t : text)
  | LivesFor (seconds : Z)
  | PortDescribed (t : text) (padding : nat)
  | SystemNamed (t : text) (padding : nat)
  | SystemDescribed (t : text) (padding : nat)
  | CanDo (c : Capabilities)
  | ManagedAt (ip : IpAddr) (rest : list Z)
  | PortOnVlan (id : Z) (rest : list Z)
  | Unspoken (kind : Z) (value : list Z).

Definition network_bytes (ip : IpAddr) : list Z :=
  match ip with V4 a => AFN_IPV4 :: to_be_bytes 4 a | V6 a => AFN_IPV6 :: to_be_bytes 16 a end.

Definition tlv_of (s : Said) : Z * list Z :=
  match s with
  | ChassisMac m => (TLV_CHASSIS_ID, CHASSIS_SUBTYPE_MAC :: m)
  | ChassisNetwork ip => (TLV_CHASSIS_ID, CHASSIS_SUBTYPE_NETWORK :: network_bytes ip)
  | ChassisText subtype t => (TLV_CHASSIS_ID, subtype :: utf8_encode t)
  | PortMac m => (TLV_PORT_ID, PORT_SUBTYPE_MAC :: m)
  | PortNetwork ip => (TLV_PORT_ID, PORT_SUBTYPE_NETWORK :: network_bytes ip)
  | PortText subtype t => (TLV_PORT_ID, subtype :: utf8_encode t)
  | LivesFor seconds => (TLV_TTL, to_be_bytes 2 seconds)
  | PortDescribed t n => (TLV_PORT_DESCRIPTION, utf8_encode t ++ replicate n 0)
  | SystemNamed t n => (TLV_SYSTEM_NAME, utf8_encode t ++ replicate n 0)
  | SystemDescribed t n => (TLV_SYSTEM_DESCRIPTION, utf8_encode t ++ replicate n 0)
  | CanDo c => (TLV_CAPABILITIES, to_be_bytes 2 (caps_supported c) ++ to_be_bytes 2 (caps_enabled c))
  | ManagedAt ip rest => (TLV_MANAGEMENT_ADDRESS, Z.of_nat (length (network_bytes ip)) :: network_bytes ip ++ rest)
  | PortOnVlan id rest => (TLV_ORGANIZATIONALLY_SPECIFIC, OUI_802_1 ++ SUBTYPE_PORT_VLAN :: to_be_bytes 2 id ++ rest)
  | Unspoken kind value => (kind, value)
  end.

Definition tlv_layout (tlv : Z * list Z) : list Z :=
  let n := Z.of_nat (length (snd tlv)) in
  [fst tlv * 2 + n / 256; n mod 256] ++ snd tlv.

(** A text that reads back: of Unicode scalar values, not empty, not ending in a NUL. *)
Definition text_ok (t : text) : Prop := exists s c, t = s ++ [c] /\ c <> 0 /\ Forall scalar t.

Definition said_ok (s : Said) : Prop :=
  (length (snd (tlv_of s)) < 512)%nat /\
  match s with
  | ChassisMac m | PortMac m => mac_ok m
  | ChassisNetwork ip | PortNetwork ip | ManagedAt ip _ => ip_fits ip
  | ChassisText subtype t => subtype <> CHASSIS_SUBTYPE_MAC /\ subtype <> CHASSIS_SUBTYPE_NETWORK /\ text_ok t
  | PortText subtype t => subtype <> PORT_SUBTYPE_MAC /\ subtype <> PORT_SUBTYPE_NETWORK /\ text_ok t
  | LivesFor n | PortOnVlan n _ => fits 16 n
  | PortDescribed t _ | SystemNamed t _ | SystemDescribed t _ => text_ok t
  | CanDo c => fits 16 (caps_supported c) /\ fits 16 (caps_enabled c)
  | Unspoken kind _ => 9 <= kind <= 126
  end.

Definition says (s : Said) : Advertisement :=
  match s with
  | ChassisMac m => mkAdvertisement (Some (IdMac m)) None None None None None None None None
  | ChassisNetwork ip => mkAdvertisement (Some (IdNetwork ip)) None None None None None None None None
  | ChassisText _ t => mkAdvertisement (Some (IdText t)) None None None None None None None None
  | PortMac m => mkAdvertisement None (Some (IdMac m)) None None None None None None None
  | PortNetwork ip => mkAdvertisement None (Some (IdNetwork ip)) None None None None None None None
  | PortText _ t => mkAdvertisement None (Some (IdText t)) None None None None None None None
  | LivesFor n => mkAdvertisement None None (Some n) None None None None None None
  | PortDescribed t _ => mkAdvertisement None None None None None (Some t) None None None
  | SystemNamed t _ => mkAdvertisement None None None (Some t) None None None None None
  | SystemDescribed t _ => mkAdvertisement None None None None (Some t) None None None None
  | CanDo c => mkAdvertisement None None None None None None (Some c) None None
  | ManagedAt ip _ => mkAdvertisement None None None None None None None (Some ip) None
  | PortOnVlan n _ => mkAdvertisement None None None None None None None None (Some n)
  | Unspoken _ _ => no_advertisement
  end.

(** The fields of the first, and of the second where the first has none. *)
Definition merge_adv (a b : Advertisement) : Advertisement :=
  mkAdvertisement (keep_first_read (chassis_id a) (chassis_id b)) (keep_first_read (port_id a) (port_id b))
    (keep_first_read (ttl a) (ttl b)) (keep_first_read (system_name a) (system_name b))
    (keep_first_read (system_description a) (system_description b)) (keep_first_read (port_description a) (port_description b))
    (keep_first_read (adv_capabilities a) (adv_capabilities b)) (keep_first_read (management_address a) (management_address b))
    (keep_first_read (adv_port_vlan a) (adv_port_vlan b)).

(** The first thing said of each kind. *)
Definition first_said (ss : list Said) : Advertisement := foldr (fun s a => merge_adv (says s) a) no_advertisement ss.

Definition kept {T} (o o' : option T) : Prop := forall x, o = Some x -> o' = Some x.

(** Everything [a] says, [b] says too. *)
Definition keeps_fields (a b : Advertisement) : Prop :=
  kept (chassis_id a) (chassis_id b) /\ kept (port_id a) (port_id b) /\ kept (ttl a) (ttl b) /\
  kept (system_name a) (system_name b) /\ kept (system_description a) (system_description b) /\
  kept (port_description a) (port_description b) /\ kept (adv_capabilities a) (adv_capabilities b) /\
  kept (management_address a) (management_address b) /\ kept (adv_port_vlan a) (adv_port_vlan b).

Example a_switch :
  lldp_parse (mkFrame [] ((tlv_layout (1, [4; 0; 0x1B; 0x2C; 0x3D; 0x4E; 0x5F])) ++ tlv_layout (3, [0; 120])
    ++ tlv_layout (5, lit "core" ++ [0; 0]) ++ [0; 0; 1; 2; 3]) ETHERTYPE [] 0)
  = Some (mkAdvertisement (Some (IdMac [0; 0x1B; 0x2C; 0x3D; 0x4E; 0x5F])) None (Some 120) (Some (lit "core"))
      None None None None None).
Proof. vm_compute. reflexivity. Qed.

(** ** One record *)

Lemma next_tlv_cons h0 h1 rest :
  next_tlv (h0 :: h1 :: rest) =
  let n := Z.to_nat (from_be_bytes [Z.land h0 1; h1]) in
  then_some (n <=? length rest)%nat (Z.shiftr h0 1, take n rest, drop n rest).
Proof.
  unfold next_tlv. change (h0 :: h1 :: rest) with ([h0; h1] ++ rest). rewrite first_chunk_app by done. cbn [mbind option_bind].
  cbv zeta. set (n := Z.to_nat _).
  destruct (Nat.leb_spec n (length rest)) as [H|H].
  - destruct (split_exact n rest H) as (v & r & -> & Hv).
    rewrite get_range_app by (try done; cbn; lia). cbn [mbind option_bind].
    rewrite app_assoc, get_from_app by (rewrite length_app; cbn; lia). cbn.
    by rewrite <- Hv, take_app_length, drop_app_length.
  - cbn [then_some]. unfold get_range. rewrite andb_comm, (proj2 (Nat.leb_gt _ _)) by (cbn; lia). done.
Qed.

Lemma next_tlv_Some bytes k v r : next_tlv bytes = Some (k, v, r) -> exists h0 h1, bytes = h0 :: h1 :: v ++ r.
Proof.
  destruct bytes as [|h0 [|h1 rest]]; [done|done|]. rewrite next_tlv_cons. cbv zeta. unfold then_some.
  case_match; [|done]. intros [= <- <- <-]. exists h0, h1. by rewrite take_drop.
Qed.

Lemma next_tlv_app a k v r b : next_tlv a = Some (k, v, r) -> next_tlv (a ++ b) = Some (k, v, r ++ b).
Proof.
  intros H. destruct (next_tlv_Some _ _ _ _ H) as (h0 & h1 & ->). cbn [app]. rewrite next_tlv_cons in *. cbv zeta in *.
  unfold then_some in *. destruct (Nat.leb_spec (Z.to_nat (from_be_bytes [Z.land h0 1; h1])) (length (v ++ r))) as [Hl|]; [|done].
  injection H as <- Hv Hr. rewrite (proj2 (Nat.leb_le _ _)) by (rewrite length_app; lia).
  rewrite take_app_le, drop_app_le by done. by rewrite Hv, Hr.
Qed.

Lemma next_tlv_layout tlv : 0 <= fst tlv <= 127 -> (length (snd tlv) < 512)%nat ->
  next_tlv (tlv_layout tlv) = Some (tlv, []).
Proof.
  intros Hk Hl. destruct tlv as [k v]. cbn in Hk, Hl. unfold tlv_layout. cbn [fst snd app].
  rewrite next_tlv_cons. cbv zeta. set (n := Z.of_nat (length v)).
  assert (0 <= n / 256 < 2) as Hq by (split; [apply Z.div_pos; lia|apply Z.div_lt_upper_bound; lia]).
  assert (Z.shiftr (k * 2 + n / 256) 1 = k) as ->.
  { rewrite Z.shiftr_div_pow2 by lia. change (2 ^ 1) with 2. Z.div_mod_to_equations. lia. }
  assert (Z.land (k * 2 + n / 256) 1 = n / 256) as ->.
  { rewrite land_1, Z.add_comm, Z.mod_add by lia. apply Z.mod_small. lia. }
  assert (Z.to_nat (from_be_bytes [n / 256; n mod 256]) = length v) as ->.
  { rewrite from_be_bytes_2. pose proof (Z.div_mod n 256). lia. }
  rewrite Nat.leb_refl. cbn. by rewrite take_ge, drop_ge by lia.
Qed.

(** ** The walk keeps the first of each kind *)

Definition live_tlv (bytes : list Z) : option (Z * list Z * list Z) :=
  match next_tlv bytes with
  | Some (kind, value, rest) => if kind =? TLV_END then None else Some (kind, value, rest)
  | None => None
  end.

Definition advertised (tlvs : list (Z * list Z)) : Advertisement :=
  foldr (fun tlv a => merge_adv (keep_tlv no_advertisement (fst tlv) (snd tlv)) a) no_advertisement tlvs.

Lemma live_tlv_app a r rest b : live_tlv a = Some (r, rest) -> live_tlv (a ++ b) = Some (r, rest ++ b).
Proof.
  unfold live_tlv. destruct (next_tlv a) as [[[k v] r']|] eqn:E; [|done]. rewrite (next_tlv_app _ _ _ _ b E).
  case_match; [done|]. by intros [= <- <-].
Qed.

Lemma keep_first_read_assoc {T} (a b c : option T) :
  keep_first_read (keep_first_read a b) c = keep_first_read a (keep_first_read b c).
Proof. by destruct a. Qed.

Lemma keep_first_read_None {T} (a : option T) : keep_first_read a None = a.
Proof. by destruct a. Qed.

Lemma merge_adv_assoc a b c : merge_adv (merge_adv a b) c = merge_adv a (merge_adv b c).
Proof. unfold merge_adv. cbn. by rewrite !keep_first_read_assoc. Qed.

Lemma merge_adv_none a : merge_adv a no_advertisement = a.
Proof. destruct a. unfold merge_adv. cbn. by rewrite !keep_first_read_None. Qed.

Lemma keep_tlv_merge a kind value : keep_tlv a kind value = merge_adv a (keep_tlv no_advertisement kind value).
Proof.
  destruct a. unfold keep_tlv, no_advertisement.
  repeat (case_match; [unfold merge_adv; cbn; by rewrite !keep_first_read_None|]).
  symmetry. apply (merge_adv_none (mkAdvertisement _ _ _ _ _ _ _ _ _)).
Qed.

Lemma walk_tlvs_advertised more rest a :
  walk_tlvs more rest a = merge_adv a (advertised (records live_tlv more rest)).
Proof.
  revert rest a. induction more as [|more IH]; intros rest a; cbn [walk_tlvs records]; [by rewrite merge_adv_none|].
  unfold live_tlv at 1. destruct (next_tlv rest) as [[[k v] r]|]; [|by rewrite merge_adv_none].
  destruct (k =? TLV_END); [by rewrite merge_adv_none|].
  rewrite IH, keep_tlv_merge, merge_adv_assoc. done.
Qed.

Lemma advertised_cons tlv rs : advertised (tlv :: rs) = merge_adv (keep_tlv no_advertisement (fst tlv) (snd tlv)) (advertised rs).
Proof. reflexivity. Qed.

Lemma advertised_app a b : advertised (a ++ b) = merge_adv (advertised a) (advertised b).
Proof.
  induction a as [|tlv a IH]; [cbn [app]; by destruct (advertised b) eqn:E|].
  cbn [app]. by rewrite !advertised_cons, IH, merge_adv_assoc.
Qed.

Lemma merge_adv_keeps a b : keeps_fields a (merge_adv a b).
Proof. unfold keeps_fields, kept, merge_adv. cbn. split_and!; by intros ? ->. Qed.

(** ** What is said is read *)

Lemma address_of_network ip rest : ip_fits ip ->
  (family ← head (network_bytes ip ++ rest); address_of family (tail (network_bytes ip ++ rest))) = Some ip.
Proof.
  destruct ip as [a|a]; intros Ha; unfold network_bytes, address_of; cbn [app head tail mbind option_bind].
  - change (AFN_IPV4 =? AFN_IPV4) with true. cbn iota. rewrite first_chunk_app by apply length_to_be_bytes.
    cbn [fmap option_fmap option_map]. by rewrite from_to_be_bytes.
  - change (AFN_IPV6 =? AFN_IPV4) with false. change (AFN_IPV6 =? AFN_IPV6) with true. cbn iota.
    rewrite first_chunk_app by apply length_to_be_bytes.
    cbn [fmap option_fmap option_map]. by rewrite from_to_be_bytes.
Qed.

Lemma text_field_ok t n : text_ok t -> text_field (utf8_encode t ++ replicate n 0) = Some t.
Proof. intros (s & c & -> & Hc & Hs). by apply text_field_padded. Qed.

Lemma identifier_mac m mac network : mac_ok m -> identifier (mac :: m) mac network = Some (IdMac m).
Proof.
  intros [Hm _]. unfold identifier. cbn [split_first_byte mbind option_bind]. rewrite Z.eqb_refl.
  rewrite (proj2 (first_chunk_Some 6 m m)) by done. by destruct m.
Qed.

Lemma identifier_network ip mac network : ip_fits ip -> mac <> network ->
  identifier (network :: network_bytes ip) mac network = Some (IdNetwork ip).
Proof.
  intros Hip Hn. unfold identifier. cbn [split_first_byte mbind option_bind].
  rewrite (proj2 (Z.eqb_neq network mac)), Z.eqb_refl by done.
  pose proof (address_of_network ip [] Hip) as H. rewrite app_nil_r in H.
  destruct (network_bytes ip) as [|f b] eqn:E; [by destruct ip|]. cbn in *. by rewrite H.
Qed.

Lemma identifier_text subtype t mac network : subtype <> mac -> subtype <> network -> text_ok t ->
  identifier (subtype :: utf8_encode t) mac network = Some (IdText t).
Proof.
  intros Hm Hn Ht. unfold identifier. cbn [split_first_byte mbind option_bind].
  rewrite !(proj2 (Z.eqb_neq _ _)) by done.
  pose proof (text_field_ok t 0 Ht) as H. cbn [replicate] in H. rewrite app_nil_r in H.
  destruct (utf8_encode t) as [|b l] eqn:E; [|by rewrite H].
  apply utf8_encode_nil in E as ->. destruct Ht as (s & c & Hs & _). by destruct s.
Qed.

Lemma tlv_says s : said_ok s -> keep_tlv no_advertisement (fst (tlv_of s)) (snd (tlv_of s)) = says s.
Proof.
  intros [Hl Hs].
  assert (forall t n, text_ok t -> keep_first_read None (text_field (utf8_encode t ++ replicate n 0)) = Some t) as Htext
    by (intros; by apply text_field_ok).
  destruct s as [m|ip|sub t|m|ip|sub t|n|t n|t n|t n|c|ip rest|n rest|k v]; cbn [tlv_of fst snd says] in *;
    unfold keep_tlv, no_advertisement; cbn - [identifier text_field capabilities management port_vlan first_chunk utf8_encode network_bytes to_be_bytes OUI_802_1];
    f_equal; try by apply Htext.
  - by apply identifier_mac.
  - by apply identifier_network.
  - apply identifier_text; tauto.
  - by apply identifier_mac.
  - by apply identifier_network.
  - apply identifier_text; tauto.
  - rewrite (proj2 (first_chunk_Some 2 _ (to_be_bytes 2 n))) by done. cbn [fmap option_fmap option_map keep_first_read]. by rewrite from_to_be_bytes.
  - destruct c as [a b], Hs as [Ha Hb]. cbn in Ha, Hb. unfold capabilities. cbn [caps_supported caps_enabled].
    rewrite (proj2 (first_chunk_Some 4 _ (to_be_bytes 2 a ++ to_be_bytes 2 b))) by done. cbn [mbind option_bind].
    rewrite take_app_length', drop_app_length' by done. by rewrite !from_to_be_bytes.
  - unfold management. cbn [split_first_byte mbind option_bind]. rewrite Nat2Z.id.
    rewrite (get_range_app [] (network_bytes ip) rest) by done. cbn [mbind option_bind].
    pose proof (address_of_network ip [] Hs) as H. rewrite app_nil_r in H.
    destruct (network_bytes ip) as [|f b] eqn:E; [by destruct ip|]. done.
  - unfold port_vlan. rewrite split_at_checked_app by done. cbn [mbind option_bind].
    rewrite bool_decide_false by auto. cbn [split_first_byte mbind option_bind].
    rewrite Z.eqb_refl. cbn [negb]. rewrite first_chunk_app by apply length_to_be_bytes. cbn [fmap option_fmap option_map keep_first_read]. by rewrite from_to_be_bytes.
  - repeat match goal with |- context [k =? ?x] => rewrite (proj2 (Z.eqb_neq k x)) by (unfold x; lia) end. done.
Qed.

Lemma tlv_kind s : said_ok s -> 1 <= fst (tlv_of s) <= 127.
Proof. intros [_ H]. destruct s; cbn in *; try (split; discriminate). lia. Qed.

Lemma live_tlv_layout s : said_ok s -> live_tlv (tlv_layout (tlv_of s)) = Some (tlv_of s, []).
Proof.
  intros Hs. pose proof (tlv_kind s Hs). unfold live_tlv. rewrite next_tlv_layout by (try apply Hs; lia).
  destruct (tlv_of s) as [k v]. cbn in *. by rewrite (proj2 (Z.eqb_neq k TLV_END)) by (unfold TLV_END; lia).
Qed.

Lemma first_said_advertised ss : Forall said_ok ss -> advertised (tlv_of <$> ss) = first_said ss.
Proof.
  intros H. induction H as [|s ss Hs _ IH]; [done|]. cbn [fmap list_fmap]. rewrite advertised_cons.
  cbn [first_said foldr]. rewrite tlv_says by done. by rewrite IH.
Qed.

(** Nothing more is read from the end record, from nothing, or from a torn record. *)
Lemma live_tlv_end rest : live_tlv (0 :: 0 :: rest) = None.
Proof. unfold live_tlv. rewrite next_tlv_cons. reflexivity. Qed.

Lemma read_something_keeps a b : keeps_fields a b -> read_something a = true -> read_something b = true.
Proof.
  intros (Hc & Hp & Ht & _). unfold read_something. rewrite !orb_true_iff, !bool_decide_eq_true.
  intros [[[x H]|[x H]]|[x H]]; [left; left|left; right|right]; eexists; eauto.
Qed.

(** A frame behind more tags than are walked is declined, whatever it holds. *)
Theorem overtagged_frame_is_declined (dst src : MacAddr) (t1 t2 t3 : VlanTag) (tags : list VlanTag) (payload : list Z) :
  mac_ok dst -> mac_ok src -> Forall tag_ok [t1; t2; t3] ->
  exists f, ethernet_parse (frame_layout dst src (t1 :: t2 :: t3 :: tags) ETHERTYPE payload) = Ok f /\ lldp_parse f = None.
Proof.
  intros Hd Hs Ht. assert (frame_layout dst src (t1 :: t2 :: t3 :: tags) ETHERTYPE payload =
    frame_layout dst src [t1; t2] (tag_protocol t3) (to_be_bytes 2 (tci_of t3) ++ (tags ≫= tag_layout) ++ to_be_bytes 2 ETHERTYPE ++ payload)) as ->.
  { unfold frame_layout. rewrite !bind_cons. unfold tag_layout at 3. cbn [mbind list_bind]. by rewrite app_nil_r, <- !app_assoc. }
  inversion Ht as [|? ? H1 Ht2]; subst. inversion Ht2 as [|? ? H2 Ht3]; subst. inversion Ht3 as [|? ? H3 _]; subst. destruct H3 as [H3 _].
  assert (tag_protocol t3 <> ETHERTYPE /\ fits 16 (tag_protocol t3)) as [Hne H16].
  { unfold VLAN_TPIDS in H3. rewrite !elem_of_cons, elem_of_nil in H3. destruct H3 as [->|[->|[->|[]]]]; split; done. }
  eexists. split; [apply parse_layout; [done|done|]|].
  - split; [apply Forall_cons_2; [done|]; apply Forall_cons_2; [done|apply Forall_nil_2]|]. split; [done|]. split; [done|]. done.
  - unfold lldp_parse. cbn [frame_ethertype]. by rewrite (proj2 (Z.eqb_neq _ _)).
Qed.

(** C34: What a device says in an LLDP frame is read back.  Whatever it says of itself, in any
    order and as often as it likes, in records laid out as the standard has them and with
    text in UTF-8 (records the parser cannot read are not covered), in a frame of the LLDP
    ethertype behind at most two VLAN tags (a frame behind more is declined), ended by the
    end record, by nothing or by anything that is no whole record: the advertisement read has
    in each field the first thing said of it among the first 128 records, text without its
    padding, and is read exactly when it names a chassis, a port or a lifetime. *)
Theorem advertisement_reads_back (dst src : MacAddr) (tags : list VlanTag) (ss : list Said) (rest : list Z) :
  mac_ok dst -> mac_ok src -> tags_ok tags ETHERTYPE -> Forall said_ok ss -> live_tlv rest = None ->
  exists f,
    ethernet_parse (frame_layout dst src tags ETHERTYPE ((ss ≫= fun s => tlv_layout (tlv_of s)) ++ rest)) = Ok f /\
    lldp_parse f = then_some (read_something (first_said (take MAX_TLVS ss))) (first_said (take MAX_TLVS ss)).
Proof.
  intros Hd Hs Ht Hss Hrest. eexists. split; [by apply parse_layout|].
  unfold lldp_parse. cbn [frame_ethertype frame_payload]. rewrite Z.eqb_refl. cbn [negb].
  assert (walk_tlvs MAX_TLVS ((ss ≫= fun s => tlv_layout (tlv_of s)) ++ rest) no_advertisement = first_said (take MAX_TLVS ss)) as ->; [|done].
  rewrite walk_tlvs_advertised.
  replace (ss ≫= fun s => tlv_layout (tlv_of s)) with ((tlv_of <$> ss) ≫= tlv_layout) by (apply list_fmap_bind).
  rewrite (records_concat live_tlv live_tlv_app); [|apply Forall_fmap; by eapply Forall_impl, live_tlv_layout|done].
  rewrite <- fmap_take, first_said_advertised by (by apply Forall_take). by destruct (first_said _).
Qed.

Lemma advertisement_reads_back_witness :
  let ss := [ChassisMac [0; 0x1B; 0x2C; 0x3D; 0x4E; 0x5F]; LivesFor 120; SystemNamed (lit "core") 3;
             SystemNamed (lit "other") 0; ManagedAt (V4 0xC6336402) [3; 0; 0; 0; 1; 0]; PortOnVlan 40 []] in
  exists f,
    ethernet_parse (frame_layout [1; 0x80; 0xC2; 0; 0; 0x0E] [0; 0x1B; 0x2C; 0x3D; 0x4E; 0x5F] [] ETHERTYPE
      ((ss ≫= fun s => tlv_layout (tlv_of s)) ++ [0; 0; 7; 7; 7])) = Ok f /\
    lldp_parse f = Some (mkAdvertisement (Some (IdMac [0; 0x1B; 0x2C; 0x3D; 0x4E; 0x5F])) None (Some 120)
      (Some (lit "core")) None None None (Some (V4 0xC6336402)) (Some 40)).
Proof.
  assert (forall s c, c <> 0 -> Forall scalar (s ++ [c]) -> text_ok (s ++ [c])) as Htext by (intros s c ? ?; by exists s, c).
  apply (advertisement_reads_back [1; 0x80; 0xC2; 0; 0; 0x0E] [0; 0x1B; 0x2C; 0x3D; 0x4E; 0x5F] []).
  - split; [done|repeat constructor; vm_compute; discriminate].
  - split; [done|repeat constructor; vm_compute; discriminate].
  - split_and!; [constructor|vm_compute; lia|split; vm_compute; discriminate|]. intros H. vm_compute in H. set_solver.
  - repeat (apply Forall_cons_2; [split; [apply Nat.ltb_lt; reflexivity|]|]);
      try apply Forall_nil; try (split; vm_compute; discriminate).
    + split; [done|repeat constructor; vm_compute; discriminate].
    + apply (Htext [99; 111; 114] 101); [done|]. repeat (apply Forall_cons_2; [left; lia|]). apply Forall_nil_2.
    + apply (Htext [111; 116; 104; 101] 114); [done|]. repeat (apply Forall_cons_2; [left; lia|]). apply Forall_nil_2.
  - apply live_tlv_end.
Defined.

(** A frame cut short says nothing else than the whole frame.  If the first bytes of
    a frame read as an Ethernet frame and that as an advertisement, then the frame with
    whatever follows them reads as an advertisement too, in which every field that was
    read has the same value: reading further adds fields and takes none back. *)
Theorem cut_frame_keeps_its_word (bytes more : list Z) (f : Frame) (a : Advertisement) :
  bytes_ok bytes -> ethernet_parse bytes = Ok f -> lldp_parse f = Some a ->
  exists f' a', ethernet_parse (bytes ++ more) = Ok f' /\ lldp_parse f' = Some a' /\ keeps_fields a a'.
Proof.
  intros Hok Hf Ha.
  destruct (records_prefix live_tlv live_tlv_app MAX_TLVS (frame_payload f) more) as [tail Htail].
  eexists _, (merge_adv a (advertised tail)). split; [by apply parse_extend|].
  unfold lldp_parse, then_some in *. cbn [frame_ethertype frame_payload]. destruct (negb _); [done|]. cbv zeta in *.
  rewrite !walk_tlvs_advertised in *.
  rewrite Htail, advertised_app, <- merge_adv_assoc.
  set (m := merge_adv no_advertisement _) in *. destruct (read_something m) eqn:E; [|done]. injection Ha as <-.
  pose proof (merge_adv_keeps m (advertised tail)) as Hk. rewrite (read_something_keeps m _ Hk E). split; [done|apply merge_adv_keeps].
Qed.

Lemma cut_frame_keeps_its_word_witness :
  let bytes := [1; 0x80; 0xC2; 0; 0; 0x0E] ++ [0; 0x1B; 0x2C; 0x3D; 0x4E; 0x5F] ++ [0x88; 0xCC]
               ++ tlv_layout (3, [0; 120]) ++ [10; 4; 99] in
  exists f' a', ethernet_parse (bytes ++ [111; 114; 101]) = Ok f' /\ lldp_parse f' = Some a' /\ ttl a' = Some 120.
Proof.
  intros bytes.
  destruct (cut_frame_keeps_its_word bytes [111; 114; 101]
    (mkFrame bytes (tlv_layout (3, [0; 120]) ++ [10; 4; 99]) ETHERTYPE (replicate 2 (mkVlanTag 0 0 0 false)) 0)
    (mkAdvertisement None None (Some 120) None None None None None None)) as (f' & a' & Hf & Ha & _ & _ & Ht & _).
  - repeat constructor; vm_compute; discriminate.
  - reflexivity.
  - reflexivity.
  - exists f', a'. split_and!; [done|done|]. by apply Ht.
Defined.
