(* ===== verification/Cdp.v ===== *)
(** * CDP announcements

    [src/src/protocols/cdp.rs]: what Cisco equipment says of itself, in an 802.3 frame
    whose type field is a length and whose payload is padded to the minimum of the
    medium.  An announcement laid out on the wire is read back field by field, whatever
    the padding holds. *)

From Stdlib Require Import ZArith Lia String.
From stdpp Require Import base numbers sets option list.
From S2P Require Import Prelude Std Text Intervals IpRange Utf8 Mac AddrText Packet Ethernet Lldp.

Local Open Scope Z_scope.

(** ** Definitions *)

Definition GROUP_ADDRESS : MacAddr := [0x01; 0x00; 0x0C; 0xCC; 0xCC; 0xCC].

Definition LLC_SNAP : list Z := [0xAA; 0xAA; 0x03].

Definition SNAP_HEADER : list Z := [0x00; 0x00; 0x0C; 0x20; 0x00].

Definition CDP_HDR_LEN : nat := 4.

Definition RECORD_HDR_LEN : nat := 4.

Definition MAX_RECORDS : nat := 128.

Definition RECORD_DEVICE_ID : Z := 0x0001.
Definition RECORD_ADDRESSES : Z := 0x0002.
Definition RECORD_PORT_ID : Z := 0x0003.
Definition RECORD_CAPABILITIES : Z := 0x0004.
Definition RECORD_SOFTWARE_VERSION : Z := 0x0005.
Definition RECORD_PLATFORM : Z := 0x0006.
Definition RECORD_NATIVE_VLAN : Z := 0x000A.
Definition RECORD_DUPLEX : Z := 0x000B.
Definition RECORD_MANAGEMENT_ADDRESSES : Z := 0x0016.

Definition PROTOCOL_TYPE_NLPID : Z := 1.
Definition NLPID_IPV4 : Z := 0xCC.
Definition PROTOCOL_TYPE_IEEE_802_2 : Z := 2.

(** [Capabilities] of this protocol is the 32 bits it carries. *)
Record Announcement := mkAnnouncement {
  device_id : option text;
  ann_port_id : option text;
  ann_capabilities : option Z;
  software_version : option text;
  platform : option text;
  native_vlan : option Z;
  full_duplex : option bool;
  ann_address : option IpAddr }.

#[export] Instance Announcement_eq_dec : EqDecision Announcement.
Proof. solve_decision. Defined.

Definition no_announcement : Announcement := mkAnnouncement None None None None None None None None.

Definition first_address (value : list Z) : option IpAddr :=
  rest ← get_from 4 value;
  '(protocol_type, rest) ← split_first_byte rest;
  '(protocol_length, rest) ← split_first_byte rest;
  '(protocol, rest) ← split_at_checked (Z.to_nat protocol_length) rest;
  count ← first_chunk 2 rest;
  let address_length := Z.to_nat (from_be_bytes count) in
  address ← get_range 2 (2 + address_length) rest;
  if (protocol_type =? PROTOCOL_TYPE_NLPID) && bool_decide (protocol = [NLPID_IPV4]) then
    (fun bytes => V4 (from_be_bytes bytes)) <$> first_chunk 4 address
  else if (protocol_type =? PROTOCOL_TYPE_IEEE_802_2) && (address_length =? 16)%nat then
    (fun bytes => V6 (from_be_bytes bytes)) <$> first_chunk 16 address
  else None.

Definition next_record (bytes : list Z) : option (Z * list Z * list Z) :=
  header ← first_chunk 4 bytes;
  let kind := from_be_bytes (take 2 header) in
  let length := Z.to_nat (from_be_bytes (drop 2 header)) in
  if (length <? RECORD_HDR_LEN)%nat then None
  else
    value ← get_range RECORD_HDR_LEN length bytes;
    remainder ← get_from length bytes;
    Some (kind, value, remainder).

(** One record, kept if its field is still empty. *)
Definition keep_record (a : Announcement) (kind : Z) (value : list Z) : Announcement :=
  let '(mkAnnouncement de po ca so pl vl du ad) := a in
  if kind =? RECORD_DEVICE_ID then
    mkAnnouncement (keep_first_read de (text_field value)) po ca so pl vl du ad
  else if kind =? RECORD_PORT_ID then
    mkAnnouncement de (keep_first_read po (text_field value)) ca so pl vl du ad
  else if kind =? RECORD_SOFTWARE_VERSION then
    mkAnnouncement de po ca (keep_first_read so (text_field value)) pl vl du ad
  else if kind =? RECORD_PLATFORM then
    mkAnnouncement de po ca so (keep_first_read pl (text_field value)) vl du ad
  else if kind =? RECORD_CAPABILITIES then
    mkAnnouncement de po (keep_first_read ca (from_be_bytes <$> first_chunk 4 value)) so pl vl du ad
  else if kind =? RECORD_NATIVE_VLAN then
    mkAnnouncement de po ca so pl (keep_first_read vl (from_be_bytes <$> first_chunk 2 value)) du ad
  else if kind =? RECORD_DUPLEX then
    mkAnnouncement de po ca so pl vl (keep_first_read du ((fun byte => negb (byte =? 0)) <$> head value)) ad
  else if (kind =? RECORD_ADDRESSES) || (kind =? RECORD_MANAGEMENT_ADDRESSES) then
    mkAnnouncement de po ca so pl vl du (keep_first_read ad (first_address value))
  else a.

(** The loop of [cdp::parse]; [more] is [MAX_RECORDS] less the records seen. *)
Fixpoint walk_records (more : nat) (rest : list Z) (a : Announcement) : Announcement :=
  match more with
  | O => a
  | S more =>
      match next_record rest with
      | None => a
      | Some (kind, value, remainder) => walk_records more remainder (keep_record a kind value)
      end
  end.

Definition names_itself (a : Announcement) : bool :=
  bool_decide (is_Some (device_id a)) || bool_decide (is_Some (ann_port_id a)) || bool_decide (is_Some (ann_capabilities a)).

(** [cdp::parse]. *)
Definition cdp_parse (frame : Frame) : option Announcement :=
  payload ← payload_as_claimed frame;
  '(llc, rest) ← split_at_checked (length LLC_SNAP) payload;
  if bool_decide (llc <> LLC_SNAP) then None
  else
    '(snap, rest) ← split_at_checked (length SNAP_HEADER) rest;
    if bool_decide (snap <> SNAP_HEADER) then None
    else
      rest ← get_from CDP_HDR_LEN rest;
      let announcement := walk_records MAX_RECORDS rest no_announcement in
      then_some (names_itself announcement) announcement.

(** ** What a device says, and how it is laid out *)

Inductive Told :=
  | DeviceNamed (t : text) (padding : nat)
  | PortNamed (t : text) (padding : nat)
  | Runs (software : text) (padding : nat)
  | IsA (model : text) (padding : nat)
  | CapableOf (bits : Z)
  | OnVlan (id : Z)
  | Duplex (full : bool)
  | At_ (management : bool) (count : Z) (ip : IpAddr) (rest : list Z)
  | Untold (kind : Z) (value : list Z).

(** The entry of an address record: its protocol, and the address after its length. *)
Definition address_entry (ip : IpAddr) : list Z :=
  match ip with
  | V4 a => [PROTOCOL_TYPE_NLPID; 1; NLPID_IPV4; 0; 4] ++ to_be_bytes 4 a
  | V6 a => [PROTOCOL_TYPE_IEEE_802_2; 8; 0xAA; 0xAA; 0x03; 0; 0; 0; 0x86; 0xDD; 0; 16] ++ to_be_bytes 16 a
  end.

Definition record_of (s : Told) : Z * list Z :=
  match s with
  | DeviceNamed t n => (RECORD_DEVICE_ID, utf8_encode t ++ replicate n 0)
  | PortNamed t n => (RECORD_PORT_ID, utf8_encode t ++ replicate n 0)
  | Runs t n => (RECORD_SOFTWARE_VERSION, utf8_encode t ++ replicate n 0)
  | IsA t n => (RECORD_PLATFORM, utf8_encode t ++ replicate n 0)
  | CapableOf bits => (RECORD_CAPABILITIES, to_be_bytes 4 bits)
  | OnVlan id => (RECORD_NATIVE_VLAN, to_be_bytes 2 id)
  | Duplex full => (RECORD_DUPLEX, [if full then 1 else 0])
  | At_ management count ip rest =>
      ((if management then RECORD_MANAGEMENT_ADDRESSES else RECORD_ADDRESSES),
       to_be_bytes 4 count ++ address_entry ip ++ rest)
  | Untold kind value => (kind, value)
  end.

Definition record_layout (r : Z * list Z) : list Z :=
  to_be_bytes 2 (fst r) ++ to_be_bytes 2 (4 + Z.of_nat (length (snd r))) ++ snd r.

Definition told_ok (s : Told) : Prop :=
  fits 16 (4 + Z.of_nat (length (snd (record_of s)))) /\
  match s with
  | DeviceNamed t _ | PortNamed t _ | Runs t _ | IsA t _ => text_ok t
  | CapableOf bits => fits 32 bits
  | OnVlan id => fits 16 id
  | Duplex _ => True
  | At_ _ _ ip _ => ip_fits ip
  | Untold kind _ => fits 16 kind /\ kind ∉ [1; 2; 3; 4; 5; 6; 10; 11; 22]
  end.

Definition tells (s : Told) : Announcement :=
  match s with
  | DeviceNamed t _ => mkAnnouncement (Some t) None None None None None None None
  | PortNamed t _ => mkAnnouncement None (Some t) None None None None None None
  | Runs t _ => mkAnnouncement None None None (Some t) None None None None
  | IsA t _ => mkAnnouncement None None None None (Some t) None None None
  | CapableOf bits => mkAnnouncement None None (Some bits) None None None None None
  | OnVlan id => mkAnnouncement None None None None None (Some id) None None
  | Duplex full => mkAnnouncement None None None None None None (Some full) None
  | At_ _ _ ip _ => mkAnnouncement None None None None None None None (Some ip)
  | Untold _ _ => no_announcement
  end.

Definition merge_ann (a b : Announcement) : Announcement :=
  mkAnnouncement (keep_first_read (device_id a) (device_id b)) (keep_first_read (ann_port_id a) (ann_port_id b))
    (keep_first_read (ann_capabilities a) (ann_capabilities b)) (keep_first_read (software_version a) (software_version b))
    (keep_first_read (platform a) (platform b)) (keep_first_read (native_vlan a) (native_vlan b))
    (keep_first_read (full_duplex a) (full_duplex b)) (keep_first_read (ann_address a) (ann_address b)).

(** The first thing told of each kind. *)
Definition first_told (ss : list Told) : Announcement := foldr (fun s a => merge_ann (tells s) a) no_announcement ss.

(** The payload of an announcement: the headers, four bytes of version, lifetime and
    checksum, the records, and what is left after the last whole one. *)
Definition cdp_layout (hdr : list Z) (ss : list Told) (torn : list Z) : list Z :=
  LLC_SNAP ++ SNAP_HEADER ++ hdr ++ (ss ≫= fun s => record_layout (record_of s)) ++ torn.

(** ** One record *)

Lemma next_record_cons k0 k1 l0 l1 rest :
  next_record (k0 :: k1 :: l0 :: l1 :: rest) =
  let n := Z.to_nat (from_be_bytes [l0; l1]) in
  then_some ((4 <=? n) && (n <=? 4 + length rest))%nat (from_be_bytes [k0; k1], take (n - 4) rest, drop (n - 4) rest).
Proof.
  unfold next_record. change (k0 :: k1 :: l0 :: l1 :: rest) with ([k0; k1; l0; l1] ++ rest).
  rewrite first_chunk_app by done. cbn [mbind option_bind take drop]. cbv zeta. set (n := Z.to_nat _).
  unfold RECORD_HDR_LEN. destruct (Nat.leb_spec 4 n) as [H4|H4]; [|by rewrite (proj2 (Nat.ltb_lt n 4))].
  rewrite (proj2 (Nat.ltb_ge n 4)) by done. cbn [andb].
  destruct (Nat.leb_spec n (4 + length rest)) as [H|H].
  - destruct (split_exact (n - 4) rest ltac:(lia)) as (v & r & -> & Hv).
    rewrite get_range_app by (try done; cbn; lia). cbn [mbind option_bind].
    rewrite app_assoc, get_from_app by (rewrite length_app; cbn; lia). cbn [mbind option_bind then_some].
    by rewrite <- Hv, take_app_length, drop_app_length.
  - cbn [then_some]. unfold get_range. rewrite andb_comm, (proj2 (Nat.leb_gt _ _)) by (rewrite length_app; cbn; lia). done.
Qed.

Lemma next_record_short bytes : (length bytes < 4)%nat -> next_record bytes = None.
Proof. intros H. unfold next_record, first_chunk. by rewrite (proj2 (Nat.leb_gt _ _)). Qed.

Lemma next_record_app a r rest b : next_record a = Some (r, rest) -> next_record (a ++ b) = Some (r, rest ++ b).
Proof.
  destruct (Nat.lt_ge_cases (length a) 4) as [Hl|Hl]; [by rewrite next_record_short|].
  destruct a as [|k0 [|k1 [|l0 [|l1 a]]]]; cbn in Hl; try lia. cbn [app]. rewrite !next_record_cons. cbv zeta.
  set (n := Z.to_nat _). unfold then_some. destruct (Nat.leb_spec 4 n) as [H4|]; [|done].
  destruct (Nat.leb_spec n (4 + length a)) as [Hn|]; [|done]. intros [= <- <-].
  rewrite (proj2 (Nat.leb_le _ _)) by (rewrite length_app; lia). cbn [andb].
  by rewrite take_app_le, drop_app_le by lia.
Qed.

Lemma next_record_layout r : fits 16 (fst r) -> fits 16 (4 + Z.of_nat (length (snd r))) ->
  next_record (record_layout r) = Some (r, []).
Proof.
  intros Hk Hl. destruct r as [k v]. cbn in Hk, Hl. unfold record_layout. cbn [fst snd].
  destruct (two_bytes k Hk) as (k0 & k1 & -> & Hkk). destruct (two_bytes _ Hl) as (l0 & l1 & -> & Hll).
  cbn [app]. rewrite next_record_cons, Hkk, Hll. cbv zeta.
  replace (Z.to_nat (4 + Z.of_nat (length v))) with (4 + length v)%nat by lia.
  rewrite !(proj2 (Nat.leb_le _ _)) by lia. cbn [andb then_some].
  replace (4 + length v - 4)%nat with (length v) by lia. by rewrite take_ge, drop_ge by lia.
Qed.

(** ** The walk keeps the first of each kind *)

Definition announced (rs : list (Z * list Z)) : Announcement :=
  foldr (fun r a => merge_ann (keep_record no_announcement (fst r) (snd r)) a) no_announcement rs.

Lemma merge_ann_assoc a b c : merge_ann (merge_ann a b) c = merge_ann a (merge_ann b c).
Proof. unfold merge_ann. cbn. by rewrite !keep_first_read_assoc. Qed.

Lemma merge_ann_none a : merge_ann a no_announcement = a.
Proof. destruct a. unfold merge_ann. cbn. by rewrite !keep_first_read_None. Qed.

Lemma keep_record_merge a kind value : keep_record a kind value = merge_ann a (keep_record no_announcement kind value).
Proof.
  destruct a. unfold keep_record, no_announcement.
  repeat (case_match; [unfold merge_ann; cbn; by rewrite !keep_first_read_None|]).
  symmetry. apply (merge_ann_none (mkAnnouncement _ _ _ _ _ _ _ _)).
Qed.

Lemma walk_records_announced more rest a :
  walk_records more rest a = merge_ann a (announced (records next_record more rest)).
Proof.
  revert rest a. induction more as [|more IH]; intros rest a; cbn [walk_records records]; [by rewrite merge_ann_none|].
  destruct (next_record rest) as [[[k v] r]|]; [|by rewrite merge_ann_none].
  rewrite IH, keep_record_merge, merge_ann_assoc. done.
Qed.

Lemma announced_cons r rs : announced (r :: rs) = merge_ann (keep_record no_announcement (fst r) (snd r)) (announced rs).
Proof. reflexivity. Qed.

(** ** What is told is read *)

Lemma first_address_entry count ip rest : ip_fits ip ->
  first_address (to_be_bytes 4 count ++ address_entry ip ++ rest) = Some ip.
Proof.
  intros Hip. unfold first_address. rewrite get_from_app by apply length_to_be_bytes. cbn [mbind option_bind].
  destruct ip as [a|a]; cbn [address_entry app split_first_byte mbind option_bind].
  - change (NLPID_IPV4 :: 0 :: 4 :: to_be_bytes 4 a ++ rest) with ([NLPID_IPV4] ++ 0 :: 4 :: to_be_bytes 4 a ++ rest).
    rewrite split_at_checked_app by done. cbn [mbind option_bind].
    change (0 :: 4 :: to_be_bytes 4 a ++ rest) with ([0; 4] ++ to_be_bytes 4 a ++ rest).
    rewrite first_chunk_app by done. cbn [mbind option_bind]. cbv zeta.
    rewrite get_range_app by done. cbn [mbind option_bind]. rewrite Z.eqb_refl, bool_decide_true by done. cbn [andb].
    rewrite (proj2 (first_chunk_Some 4 _ (to_be_bytes 4 a))) by done.
    cbn [fmap option_fmap option_map]. by rewrite from_to_be_bytes.
  - change (0xAA :: 0xAA :: 0x03 :: 0 :: 0 :: 0 :: 0x86 :: 0xDD :: 0 :: 16 :: to_be_bytes 16 a ++ rest)
      with ([0xAA; 0xAA; 0x03; 0; 0; 0; 0x86; 0xDD] ++ 0 :: 16 :: to_be_bytes 16 a ++ rest).
    rewrite split_at_checked_app by done. cbn [mbind option_bind].
    change (0 :: 16 :: to_be_bytes 16 a ++ rest) with ([0; 16] ++ to_be_bytes 16 a ++ rest).
    rewrite first_chunk_app by done. cbn [mbind option_bind]. cbv zeta.
    rewrite get_range_app by (rewrite ?length_to_be_bytes; done). cbn [mbind option_bind].
    rewrite (proj2 (first_chunk_Some 16 _ (to_be_bytes 16 a))) by (by rewrite length_to_be_bytes).
    cbn - [from_be_bytes to_be_bytes]. by rewrite from_to_be_bytes.
Qed.

Lemma record_tells s : told_ok s -> keep_record no_announcement (fst (record_of s)) (snd (record_of s)) = tells s.
Proof.
  intros [_ Hs].
  destruct s as [t n|t n|t n|t n|bits|id|full|mg count ip rest|k v]; cbn [record_of fst snd tells] in *;
    unfold keep_record, no_announcement;
    cbn - [text_field first_chunk first_address utf8_encode to_be_bytes address_entry];
    try (f_equal; by apply text_field_ok).
  - rewrite (proj2 (first_chunk_Some 4 _ (to_be_bytes 4 bits))) by done.
    cbn [fmap option_fmap option_map]. by rewrite from_to_be_bytes.
  - rewrite (proj2 (first_chunk_Some 2 _ (to_be_bytes 2 id))) by done.
    cbn [fmap option_fmap option_map]. by rewrite from_to_be_bytes.
  - by destruct full.
  - rewrite first_address_entry by done. by destruct mg.
  - destruct Hs as [_ Hk]. repeat (apply not_elem_of_cons in Hk as [? Hk]).
    repeat match goal with |- context [k =? ?x] => rewrite (proj2 (Z.eqb_neq k x)) by done end. done.
Qed.

Lemma record_kind s : told_ok s -> fits 16 (fst (record_of s)).
Proof.
  intros [_ H]. destruct s as [| | | | | | |[]|]; try (split; vm_compute; discriminate). apply H.
Qed.

Lemma first_told_announced ss : Forall told_ok ss -> announced (record_of <$> ss) = first_told ss.
Proof.
  intros H. induction H as [|s ss Hs _ IH]; [done|]. cbn [fmap list_fmap]. rewrite announced_cons.
  cbn [first_told foldr]. rewrite record_tells by done. by rewrite IH.
Qed.

Lemma length_type n tags : (n <= 1500)%nat -> Forall tag_ok tags -> (length tags <= MAX_VLAN_TAGS)%nat ->
  tags_ok tags (Z.of_nat n).
Proof.
  intros Hn Ht Hl. split_and!; [done|done|mlia|]. intros H. exfalso.
  repeat (apply elem_of_cons in H as [H|H]; [lia|]). by apply not_elem_of_nil in H.
Qed.

(** What a device says in a CDP frame is read back, and its padding is not.
    Whatever it says of itself, laid out as records behind the LLC and SNAP headers in
    a frame whose type field is the length of all that, and padded with any bytes at
    all: the announcement read has in each field the first thing said of it among the
    first 128 records, and is read exactly when it names a device, a port or
    capabilities.  Where the frame stops before the length it claims, nothing is read. *)
Theorem announcement_reads_back (dst src : MacAddr) (tags : list VlanTag) (hdr : list Z) (ss : list Told) (torn padding : list Z) :
  mac_ok dst -> mac_ok src -> Forall tag_ok tags -> (length tags <= MAX_VLAN_TAGS)%nat -> length hdr = 4%nat ->
  Forall told_ok ss -> next_record torn = None -> (length (cdp_layout hdr ss torn) <= 1500)%nat ->
  (exists f,
    ethernet_parse (frame_layout dst src tags (Z.of_nat (length (cdp_layout hdr ss torn))) (cdp_layout hdr ss torn ++ padding)) = Ok f /\
    cdp_parse f = then_some (names_itself (first_told (take MAX_RECORDS ss))) (first_told (take MAX_RECORDS ss))) /\
  (forall cut, (cut < length (cdp_layout hdr ss torn))%nat -> exists f,
    ethernet_parse (frame_layout dst src tags (Z.of_nat (length (cdp_layout hdr ss torn))) (take cut (cdp_layout hdr ss torn))) = Ok f /\
    cdp_parse f = None).
Proof.
  intros Hd Hs Ht Htl Hh Hss Htorn Hlen. pose proof (length_type _ tags Hlen Ht Htl) as Hty.
  set (body := cdp_layout hdr ss torn) in *. split.
  - eexists. split; [by apply parse_layout|]. unfold cdp_parse, payload_as_claimed, payload_length.
    cbn [frame_ethertype frame_payload]. rewrite (proj2 (Z.leb_le _ _)) by (unfold MAX_PAYLOAD_LEN; lia).
    cbn [then_some]. rewrite Nat2Z.id, get_range_front by done. cbn [mbind option_bind].
    unfold body, cdp_layout. rewrite split_at_checked_app by done. cbn [mbind option_bind]. rewrite bool_decide_false by auto.
    rewrite split_at_checked_app by done. cbn [mbind option_bind]. rewrite bool_decide_false by auto.
    rewrite get_from_app by done. cbn [mbind option_bind]. cbv zeta. rewrite walk_records_announced.
    replace (ss ≫= fun s => record_layout (record_of s)) with ((record_of <$> ss) ≫= record_layout) by (apply list_fmap_bind).
    rewrite (records_concat next_record next_record_app); [|apply Forall_fmap; eapply Forall_impl; [done|]|done].
    2:{ intros s Hs'. apply next_record_layout; [by apply record_kind|apply Hs']. }
    rewrite <- fmap_take, first_told_announced by (by apply Forall_take). by destruct (first_told _).
  - intros cut Hcut. eexists. split; [by apply parse_layout|]. unfold cdp_parse, payload_as_claimed, payload_length.
    cbn [frame_ethertype frame_payload]. rewrite (proj2 (Z.leb_le _ _)) by (unfold MAX_PAYLOAD_LEN; lia).
    cbn [then_some]. rewrite Nat2Z.id. unfold get_range.
    rewrite andb_comm, (proj2 (Nat.leb_gt _ _)) by (rewrite length_take; lia). done.
Qed.

Definition told_example : list Told :=
  [DeviceNamed [115; 119] 0; Duplex true; At_ false 1 (V4 0xC6336402) []; DeviceNamed [120] 2; OnVlan 40].

Lemma announcement_reads_back_witness :
  exists f,
    ethernet_parse (frame_layout GROUP_ADDRESS [0; 0x1B; 0x2C; 0x3D; 0x4E; 0x5F] []
      (Z.of_nat (length (cdp_layout [2; 0xB4; 0; 0] told_example [1; 2; 3])))
      (cdp_layout [2; 0xB4; 0; 0] told_example [1; 2; 3] ++ [0; 3; 0; 5; 88])) = Ok f /\
    cdp_parse f = Some (mkAnnouncement (Some [115; 119]) None None None None (Some 40) (Some true) (Some (V4 0xC6336402))).
Proof.
  assert (forall s c, c <> 0 -> Forall scalar (s ++ [c]) -> text_ok (s ++ [c])) as Htext by (intros s c ? ?; by exists s, c).
  destruct (announcement_reads_back GROUP_ADDRESS [0; 0x1B; 0x2C; 0x3D; 0x4E; 0x5F] [] [2; 0xB4; 0; 0]
    told_example [1; 2; 3] [0; 3; 0; 5; 88]) as [(f & Hf & Hc) _].
  - split; [done|repeat constructor; vm_compute; discriminate].
  - split; [done|repeat constructor; vm_compute; discriminate].
  - constructor.
  - vm_compute. lia.
  - done.
  - repeat (apply Forall_cons_2; [split; [split; vm_compute; discriminate|]|]);
      try apply Forall_nil_2; try (split; vm_compute; discriminate); try exact I.
    + apply (Htext [115] 119); [done|]. repeat (apply Forall_cons_2; [left; lia|]). apply Forall_nil_2.
    + apply (Htext [] 120); [done|]. repeat (apply Forall_cons_2; [left; lia|]). apply Forall_nil_2.
  - reflexivity.
  - apply Nat.leb_le. reflexivity.
  - exists f. split; [exact Hf|]. rewrite Hc. reflexivity.
Defined.
