(* ===== verification/Crc.v ===== *)
(** * The checksum of SCTP

    [crc32c] of [src/src/protocols/craft.rs].  The table it walks by bytes computes what
    dividing bit by bit computes, and damage to up to four neighbouring bytes always
    changes the result. *)

From Stdlib Require Import ZArith Lia String.
From stdpp Require Import base numbers option list.
From S2P Require Import Prelude Std Text Intervals IpRange Utf8 AddrText Packet.

Local Open Scope Z_scope.

(** ** Definitions *)

(** One turn of the inner loop of [CRC32C_TABLE]. *)
Definition crc_bit (crc : Z) : Z :=
  if negb (Z.land crc 1 =? 0) then Z.lxor (Z.shiftr crc 1) 0x82F63B78 else Z.shiftr crc 1.

(** The inner loop, [n] turns of it. *)
Fixpoint divide (n : nat) (crc : Z) : Z :=
  match n with O => crc | S n => crc_bit (divide n crc) end.

Definition table_entry (byte : Z) : Z := divide 8 byte.

Definition CRC32C_TABLE : list Z := table_entry <$> seqZ 0 256.

(** The body of the loop of [crc32c]; the index is a byte, so the table has it. *)
Definition crc_step (crc byte : Z) : Z :=
  Z.lxor (Z.shiftr crc 8) (default 0 (CRC32C_TABLE !! Z.to_nat (Z.land (Z.lxor crc byte) 0xFF))).

Definition crc32c (data : list Z) : Z := Z.lxor (fold_left crc_step data (umax 32)) (umax 32).

(** ** The division it stands for

    A byte is added to the low end of the remainder, and then eight bits are divided out
    one at a time. *)

Definition divide_byte (crc byte : Z) : Z := divide 8 (Z.lxor crc byte).

Definition crc_by_bits (data : list Z) : Z := Z.lxor (fold_left divide_byte data (umax 32)) (umax 32).

(** The standard check value. *)
Example crc_check : crc32c (lit "123456789") = 0xE3069283.
Proof. vm_compute. reflexivity. Qed.

(** ** Dividing is linear *)

Lemma crc_bit_odd crc : crc_bit crc = Z.lxor (Z.shiftr crc 1) (if Z.odd crc then 0x82F63B78 else 0).
Proof.
  unfold crc_bit. rewrite land_1, Zmod_odd. destruct (Z.odd crc); cbn; [done|]. by rewrite Z.lxor_0_r.
Qed.

Lemma lxor_swap a b c d : Z.lxor (Z.lxor a b) (Z.lxor c d) = Z.lxor (Z.lxor a c) (Z.lxor b d).
Proof. rewrite !Z.lxor_assoc. f_equal. rewrite <- !Z.lxor_assoc. f_equal. apply Z.lxor_comm. Qed.

Lemma crc_bit_lxor x y : crc_bit (Z.lxor x y) = Z.lxor (crc_bit x) (crc_bit y).
Proof.
  rewrite !crc_bit_odd, Z.shiftr_lxor, lxor_swap. f_equal.
  rewrite <- !Z.bit0_odd, Z.lxor_spec. by destruct (Z.testbit x 0), (Z.testbit y 0).
Qed.

Lemma divide_lxor n x y : divide n (Z.lxor x y) = Z.lxor (divide n x) (divide n y).
Proof. induction n as [|n IH]; [done|]. cbn. by rewrite IH, crc_bit_lxor. Qed.

(** Zero bits at the low end divide out to nothing. *)
Lemma crc_bit_even x : crc_bit (Z.shiftl x 1) = x.
Proof.
  rewrite crc_bit_odd, <- Z.bit0_odd, Z.shiftl_spec_low, Z.lxor_0_r by lia.
  by rewrite Z.shiftr_shiftl_l, Z.shiftl_0_r by lia.
Qed.

Lemma divide_shifted n x : divide n (Z.shiftl x (Z.of_nat n)) = x.
Proof.
  revert x. induction n as [|n IH]; intros x; [apply Z.shiftl_0_r|]. cbn [divide].
  replace (Z.of_nat (S n)) with (1 + Z.of_nat n) by lia. rewrite <- Z.shiftl_shiftl by lia.
  rewrite IH. apply crc_bit_even.
Qed.

Lemma crc_bit_fits x : fits 32 x -> fits 32 (crc_bit x).
Proof.
  intros Hx. rewrite crc_bit_odd. apply lxor_fits; [lia|by apply shiftr_fits|].
  destruct (Z.odd x); split; vm_compute; discriminate.
Qed.

Lemma divide_fits n x : fits 32 x -> fits 32 (divide n x).
Proof. intros Hx. induction n as [|n IH]; [done|]. cbn. by apply crc_bit_fits. Qed.

(** The top bit of the polynomial says whether it was added, so no bit is lost. *)
Lemma crc_bit_inj x y : fits 32 x -> fits 32 y -> crc_bit x = crc_bit y -> x = y.
Proof.
  intros Hx Hy E. assert (Z.odd x = Z.odd y) as Ho.
  { apply (f_equal (fun z => Z.testbit z 31)) in E. rewrite !crc_bit_odd, !Z.lxor_spec, !Z.shiftr_spec in E by lia.
    apply fits_testbit in Hx as [_ Hx], Hy as [_ Hy]; [|lia|lia]. change (31 + 1) with 32 in E.
    rewrite Hx, Hy in E by lia. by destruct (Z.odd x), (Z.odd y). }
  rewrite !crc_bit_odd, Ho in E. apply (f_equal (fun z => Z.lxor z (if Z.odd y then 0x82F63B78 else 0))) in E.
  rewrite !Z.lxor_assoc, !Z.lxor_nilpotent, !Z.lxor_0_r in E.
  rewrite (Z.div_mod x 2), (Z.div_mod y 2), !Zmod_odd, Ho by lia. rewrite <- !(Z.shiftr_div_pow2 _ 1) by lia. by rewrite E.
Qed.

Lemma divide_inj n x y : fits 32 x -> fits 32 y -> divide n x = divide n y -> x = y.
Proof.
  intros Hx Hy. induction n as [|n IH]; [done|]. cbn. intros E. apply IH, crc_bit_inj; [by apply divide_fits..|done].
Qed.

(** ** The table walks as the division does *)

Lemma table_lookup i : 0 <= i < 256 -> CRC32C_TABLE !! Z.to_nat i = Some (table_entry i).
Proof.
  intros Hi. unfold CRC32C_TABLE. rewrite list_lookup_fmap, lookup_seqZ_lt by lia.
  by rewrite Z2Nat.id, Z.add_0_l by lia.
Qed.

Lemma byte_split x : 0 <= x -> x = Z.lxor (Z.shiftl (Z.shiftr x 8) 8) (Z.land x 0xFF).
Proof.
  intros Hx. apply Z.bits_inj'. intros i Hi. rewrite Z.lxor_spec, Z.land_spec.
  change 0xFF with (Z.ones 8). rewrite Z.testbit_ones_nonneg by lia.
  destruct (Z.ltb_spec i 8).
  - rewrite Z.shiftl_spec_low by lia. by rewrite andb_true_r.
  - rewrite Z.shiftl_spec_high, Z.shiftr_spec, andb_false_r, xorb_false_r by lia. f_equal. lia.
Qed.

Lemma crc_step_divides crc byte : 0 <= crc -> fits 8 byte -> crc_step crc byte = divide_byte crc byte.
Proof.
  intros Hc Hb. unfold crc_step, divide_byte. assert (0 <= Z.lxor crc byte) as Hx by (apply Z.lxor_nonneg; mlia).
  assert (Z.shiftr crc 8 = Z.shiftr (Z.lxor crc byte) 8) as ->.
  { rewrite Z.shiftr_lxor, (Z.shiftr_div_pow2 byte) by lia. rewrite Z.div_small by mlia. by rewrite Z.lxor_0_r. }
  revert Hx. generalize (Z.lxor crc byte). clear. intros x Hx.
  assert (0 <= Z.land x 0xFF < 256) as Hl by (change 0xFF with (Z.ones 8); rewrite Z.land_ones by lia; apply Z.mod_pos_bound; lia).
  rewrite table_lookup by done. cbn [default]. rewrite (byte_split x Hx) at 3.
  rewrite divide_lxor. change 8 with (Z.of_nat 8) at 3. by rewrite divide_shifted.
Qed.

Lemma lxor_byte_fits crc byte : fits 32 crc -> fits 8 byte -> fits 32 (Z.lxor crc byte).
Proof. intros Hc Hb. apply lxor_fits; [lia|done|mlia]. Qed.

Lemma fold_divides data : bytes_ok data -> forall crc, fits 32 crc ->
  fold_left crc_step data crc = fold_left divide_byte data crc /\ fits 32 (fold_left divide_byte data crc).
Proof.
  induction 1 as [|b data Hb _ IH]; intros crc Hc; [done|]. cbn [fold_left]. rewrite crc_step_divides by (done || mlia).
  apply IH. unfold divide_byte. by apply divide_fits, lxor_byte_fits.
Qed.

Lemma umax_fits : fits 32 (umax 32).
Proof. split; vm_compute; discriminate. Qed.

Lemma crc32c_fits data : bytes_ok data -> fits 32 (crc32c data).
Proof.
  intros Hd. destruct (fold_divides data Hd (umax 32) umax_fits) as [E Hf]. unfold crc32c. rewrite E.
  apply lxor_fits; [lia|done|apply umax_fits].
Qed.

(** ** Damage *)

(** Bytes as a number, the first the least significant. *)
Fixpoint from_le (bytes : list Z) : Z :=
  match bytes with [] => 0 | b :: bytes => Z.lxor b (Z.shiftl (from_le bytes) 8) end.

Lemma divide_add m n x : divide m (divide n x) = divide (m + n) x.
Proof. induction m as [|m IH]; [done|]. cbn. by rewrite IH. Qed.

(** A run of bytes divides out as one number. *)
Lemma fold_divide_word data crc :
  fold_left divide_byte data crc = divide (8 * length data) (Z.lxor crc (from_le data)).
Proof.
  revert crc. induction data as [|b data IH]; intros crc; cbn [fold_left from_le]; [by rewrite Z.lxor_0_r|].
  rewrite IH. unfold divide_byte. cbn [length].
  rewrite <- (divide_shifted 8 (from_le data)) at 1. change (Z.of_nat 8) with 8.
  rewrite <- divide_lxor, divide_add, Z.lxor_assoc. f_equal. lia.
Qed.

Lemma from_le_bounds bytes : bytes_ok bytes -> 0 <= from_le bytes < 2 ^ (8 * Z.of_nat (length bytes)).
Proof.
  intros H. cut (fits (8 * Z.of_nat (length bytes)) (from_le bytes)); [unfold fits, umax; lia|].
  induction H as [|b bytes Hb _ IH]; [done|]. cbn [from_le length].
  apply lxor_fits; [lia| |].
  - unfold fits, umax in *. pose proof (Z.pow_le_mono_r 2 8 (8 * Z.of_nat (S (length bytes)))). lia.
  - rewrite Z.shiftl_mul_pow2 by lia. unfold fits, umax in *.
    replace (8 * Z.of_nat (S (length bytes))) with (8 * Z.of_nat (length bytes) + 8) by lia.
    rewrite Z.pow_add_r by lia. lia.
Qed.

Lemma from_le_inj a b : bytes_ok a -> bytes_ok b -> length a = length b -> from_le a = from_le b -> a = b.
Proof.
  intros Ha. revert b. induction Ha as [|x a Hx Ha IH]; intros [|y b] Hb Hl E; try done.
  apply Forall_cons in Hb as [Hy Hb]. injection Hl as Hl. cbn [from_le] in E.
  assert (forall c w, fits 8 c -> Z.land (Z.lxor c (Z.shiftl w 8)) (Z.ones 8) = c /\ Z.shiftr (Z.lxor c (Z.shiftl w 8)) 8 = w) as Hsplit.
  { intros c w Hc. split.
    - apply Z.bits_inj'. intros i Hi. rewrite Z.land_spec, Z.lxor_spec, Z.testbit_ones_nonneg by lia.
      destruct (Z.ltb_spec i 8); [by rewrite Z.shiftl_spec_low, xorb_false_r, andb_true_r by lia|].
      apply fits_testbit in Hc as [_ Hc]; [|lia]. by rewrite Hc, andb_false_r by lia.
    - rewrite Z.shiftr_lxor, Z.shiftr_shiftl_l, (Z.shiftr_div_pow2 c) by lia. rewrite Z.div_small by mlia.
      change (8 - 8) with 0. by rewrite Z.shiftl_0_r, Z.lxor_0_l. }
  destruct (Hsplit x (from_le a) Hx) as [H1 H2], (Hsplit y (from_le b) Hy) as [H3 H4].
  rewrite E in H1, H2. f_equal; [congruence|]. apply IH; [done|done|congruence].
Qed.

(** Equal bytes after it leave a difference of the remainder in place. *)
Lemma fold_divide_inj data x y : bytes_ok data -> fits 32 x -> fits 32 y ->
  fold_left divide_byte data x = fold_left divide_byte data y -> x = y.
Proof.
  intros Hd. revert x y. induction Hd as [|b data Hb _ IH]; intros x y Hx Hy E; [done|]. cbn [fold_left] in E. unfold divide_byte at 2 4 in E.
  apply IH in E; [|by apply divide_fits, lxor_byte_fits..].
  apply divide_inj in E; [|by apply lxor_byte_fits..].
  apply (f_equal (fun z => Z.lxor z b)) in E. by rewrite !Z.lxor_assoc, Z.lxor_nilpotent, !Z.lxor_0_r in E.
Qed.

(** C36: The checksum of an SCTP packet is the CRC it claims to be.  Walking the table by
    bytes computes the remainder of the division bit by bit, in 32 bits; and where two
    packets of the same length differ, and only within four neighbouring bytes, their
    checksums differ: such damage never goes unnoticed. *)
Theorem crc32c_divides_and_detects :
  (forall data : list Z, bytes_ok data -> crc32c data = crc_by_bits data /\ fits 32 (crc32c data)) /\
  (forall before a b after : list Z,
     bytes_ok before -> bytes_ok a -> bytes_ok b -> bytes_ok after ->
     length a = length b -> (length a <= 4)%nat -> a <> b ->
     crc32c (before ++ a ++ after) <> crc32c (before ++ b ++ after)).
Proof.
  pose proof umax_fits as Hmax. split.
  - intros data Hd. split; [|by apply crc32c_fits]. unfold crc32c, crc_by_bits.
    by rewrite (proj1 (fold_divides data Hd (umax 32) Hmax)).
  - intros before a b after Hbe Ha Hb Haf Hl H4 Hab E. unfold crc32c in E.
    apply (f_equal (fun z => Z.lxor z (umax 32))) in E. rewrite !Z.lxor_assoc, Z.lxor_nilpotent, !Z.lxor_0_r in E.
    rewrite !fold_left_app in E. destruct (fold_divides before Hbe (umax 32) Hmax) as [Ebe Hs]. rewrite Ebe in E.
    set (s := fold_left divide_byte before (umax 32)) in *.
    destruct (fold_divides a Ha s Hs) as [Ea Hfa], (fold_divides b Hb s Hs) as [Eb Hfb]. rewrite Ea, Eb in E.
    rewrite (proj1 (fold_divides after Haf _ Hfa)), (proj1 (fold_divides after Haf _ Hfb)) in E.
    apply fold_divide_inj in E; [|done..]. rewrite !fold_divide_word, <- Hl in E.
    assert (forall w, bytes_ok w -> (length w <= 4)%nat -> fits 32 (Z.lxor s (from_le w))) as Hw.
    { intros w Hok Hlen. apply lxor_fits; [lia|done|]. pose proof (from_le_bounds w Hok).
      pose proof (Z.pow_le_mono_r 2 (8 * Z.of_nat (length w)) 32). unfold fits, umax. lia. }
    apply divide_inj in E; [|apply Hw; [done|lia]..].
    apply Hab, from_le_inj; [done..|]. apply (f_equal (fun z => Z.lxor s z)) in E.
    by rewrite <- !Z.lxor_assoc, Z.lxor_nilpotent, !Z.lxor_0_l in E.
Qed.

Lemma crc32c_divides_and_detects_witness :
  crc32c (lit "123456789") = crc_by_bits (lit "123456789") /\
  crc32c ([1; 2] ++ [3; 4; 5; 6] ++ [7]) <> crc32c ([1; 2] ++ [3; 9; 0; 6] ++ [7]).
Proof.
  destruct crc32c_divides_and_detects as [Hd Hn]. split.
  - apply Hd. repeat constructor; vm_compute; discriminate.
  - apply Hn; try (repeat (apply Forall_cons_2; [split; vm_compute; discriminate|]); apply Forall_nil_2);
      [reflexivity|vm_compute; lia|discriminate].
Defined.
