(* ===== verification/Sctp.v ===== *)
(** * SCTP packets

    [src/src/protocols/sctp.rs], with the builder of [src/src/protocols/craft.rs] it
    writes through: the probes a scan sends, the chunks of what comes back, what of a
    probe an ICMP error quotes.  A packet written is read back with its checksum right,
    and any bytes at all are walked in a bounded number of chunks. *)

From Stdlib Require Import ZArith Lia String.
From stdpp Require Import base numbers sets option list.
From S2P Require Import Prelude Std Text Intervals IpRange Utf8 AddrText Packet Crc.

Local Open Scope Z_scope.

(** ** Definitions *)

(** *** The builder *)

Inductive Field (T : Type) : Type :=
  | Computed
  | Exact (value : T).
Arguments Computed {T}.
Arguments Exact {T} value.

Definition field_resolve {T} (f : Field T) (computed : T) : T :=
  match f with Computed => computed | Exact value => value end.

Record Sctp := mkSctp {
  source_port : Z;
  destination_port : Z;
  verification_tag : Z;
  sctp_checksum : Field Z;
  sctp_chunks : list Z }.

Definition sctp_new (source_port destination_port : Z) : Sctp := mkSctp source_port destination_port 0 Computed [].

Definition with_verification_tag (s : Sctp) (tag : Z) : Sctp :=
  mkSctp (source_port s) (destination_port s) tag (sctp_checksum s) (sctp_chunks s).

Definition with_chunks (s : Sctp) (chunks : list Z) : Sctp :=
  mkSctp (source_port s) (destination_port s) (verification_tag s) (sctp_checksum s) chunks.

Definition with_checksum (s : Sctp) (checksum : Z) : Sctp :=
  mkSctp (source_port s) (destination_port s) (verification_tag s) (Exact checksum) (sctp_chunks s).

(** [u32::to_le_bytes]. *)
Definition to_le_bytes (w : nat) (n : Z) : list Z := rev (to_be_bytes w n).

(** [bytes[from..].copy_from_slice]. *)
Definition copy_into (from : nat) (new bytes : list Z) : list Z :=
  take from bytes ++ new ++ drop (from + length new) bytes.

Definition write_sctp (header : Sctp) (payload : list Z) : list Z :=
  let bytes :=
    to_be_bytes 2 (source_port header) ++ to_be_bytes 2 (destination_port header)
    ++ to_be_bytes 4 (verification_tag header) ++ [0; 0; 0; 0] ++ sctp_chunks header ++ payload in
  let sum := field_resolve (sctp_checksum header) (crc32c bytes) in
  copy_into 8 (to_le_bytes 4 sum) bytes.

Definition sctp_to_bytes (s : Sctp) : list Z := write_sctp s [].

(** *** Chunks *)

Definition INIT : Z := 1.
Definition INIT_ACK : Z := 2.
Definition ABORT : Z := 6.
Definition COOKIE_ECHO : Z := 10.

Definition ADVERTISED_RWND : Z := 65535.
Definition OUTBOUND_STREAMS : Z := 10.
Definition INBOUND_STREAMS : Z := 65535.

Definition MAX_CHUNK_VALUE : nat := Z.to_nat (umax 16) - SCTP_CHUNK_HDR_LEN.

Definition round_up_to_4 (n : nat) : nat := Z.to_nat (Z.land (Z.of_nat n + 3) (Z.lnot 3)).

(** [Vec::resize] to a longer length. *)
Definition resize (n : nat) (bytes : list Z) : list Z := take n bytes ++ replicate (n - length bytes) 0.

Definition sctp_chunk (chunk_type flags : Z) (value : list Z) : Result (list Z) PacketError :=
  if (MAX_CHUNK_VALUE <? length value)%nat then
    Err (too_long (lit "an SCTP chunk length") (Z.of_nat SCTP_CHUNK_HDR_LEN) (Z.of_nat (length value)))
  else
    let length := (SCTP_CHUNK_HDR_LEN + length value)%nat in
    Ok (resize (round_up_to_4 length)
          ([chunk_type; flags] ++ to_be_bytes 2 (wrap 16 (Z.of_nat length)) ++ value)).

(** [init_chunk] and [cookie_echo_chunk] of what they draw at random; [None] is the
    panic of [expect]. *)
Definition init_chunk (initiate_tag initial_tsn : Z) : option (list Z) :=
  ok (sctp_chunk INIT 0 (to_be_bytes 4 initiate_tag ++ to_be_bytes 4 ADVERTISED_RWND ++ to_be_bytes 2 OUTBOUND_STREAMS
        ++ to_be_bytes 2 INBOUND_STREAMS ++ to_be_bytes 4 initial_tsn)).

Definition build_init_probe (src_port dst_port initiate_tag initial_tsn : Z) : option (list Z) :=
  (fun c => sctp_to_bytes (with_chunks (sctp_new src_port dst_port) c)) <$> init_chunk initiate_tag initial_tsn.

Definition COOKIE_LEN : nat := 32.

Definition cookie_echo_chunk (cookie : list Z) : option (list Z) := ok (sctp_chunk COOKIE_ECHO 0 cookie).

Definition build_cookie_echo_probe (src_port dst_port tag : Z) (cookie : list Z) : option (list Z) :=
  (fun c => sctp_to_bytes (with_chunks (with_verification_tag (sctp_new src_port dst_port) tag) c)) <$> cookie_echo_chunk cookie.

(** *** Reading *)

Record Segment := mkSegment { seg_header : list Z; seg_chunks : list Z }.

Definition seg_source_port (s : Segment) : Z := from_be_bytes (take 2 (seg_header s)).

Definition seg_destination_port (s : Segment) : Z := from_be_bytes (take 2 (drop 2 (seg_header s))).

Definition seg_verification_tag (s : Segment) : Z := from_be_bytes (take 4 (drop 4 (seg_header s))).

Record Chunk := mkChunk { chunk_type : Z; chunk_flags : Z; chunk_value : list Z }.

#[export] Instance Chunk_eq_dec : EqDecision Chunk.
Proof. solve_decision. Defined.

(** [Iterator::next] of [Chunks]. *)
Definition next_chunk (rest : list Z) : option (Chunk * list Z) :=
  match rest with
  | t :: f :: l0 :: l1 :: _ =>
      let n := Z.to_nat (from_be_bytes [l0; l1]) in
      if (n <? SCTP_CHUNK_HDR_LEN)%nat then None
      else
        let value_end := Nat.min n (length rest) in
        let value := take (value_end - SCTP_CHUNK_HDR_LEN) (drop SCTP_CHUNK_HDR_LEN rest) in
        let advance := Nat.min (round_up_to_4 n) (length rest) in
        Some (mkChunk t f value, drop advance rest)
  | _ => None
  end.

(** The chunks of a segment, to the end of the iterator: each takes at least one byte. *)
Definition chunks (s : Segment) : list Chunk := records next_chunk (length (seg_chunks s)) (seg_chunks s).

(** [sctp::parse]. *)
Definition sctp_parse (bytes : list Z) : Result Segment PacketError :=
  match split_at_checked SCTP_COMMON_HDR_LEN bytes with
  | Some (header, chunks) => Ok (mkSegment header chunks)
  | None => Err (truncated (lit "an SCTP packet") SCTP_COMMON_HDR_LEN (length bytes))
  end.

Inductive SctpReply := InitAck | Abort_.

#[export] Instance SctpReply_eq_dec : EqDecision SctpReply.
Proof. solve_decision. Defined.

Definition reply_of (c : Chunk) : option SctpReply :=
  if chunk_type c =? INIT_ACK then Some InitAck
  else if chunk_type c =? ABORT then Some Abort_
  else None.

(** The loop of [classify_probe_response] returns at the first chunk that decides. *)
Definition classify_probe_response (s : Segment) : option SctpReply := first_read reply_of (chunks s).

Definition echoed_nonce (reply : Segment) : Z := seg_verification_tag reply.

Record QuotedProbe := mkQuotedProbe { quoted_source : Z; quoted_destination : Z; quoted_tag : Z }.

Definition quoted_probe (quoted : list Z) : option QuotedProbe :=
  head ← first_chunk 8 quoted;
  Some (mkQuotedProbe (from_be_bytes (take 2 head)) (from_be_bytes (take 2 (drop 2 head))) (from_be_bytes (drop 4 head))).

Definition quoted_init_tag (quoted : list Z) : option Z :=
  head ← first_chunk 20 quoted;
  if bool_decide (head !! SCTP_COMMON_HDR_LEN = Some INIT) then Some (from_be_bytes (drop 16 head)) else None.

Example probe_read :
  (bytes ← build_init_probe 40000 5060 0xDEADBEEF 7;
   s ← ok (sctp_parse bytes);
   Some (seg_source_port s, chunk_type <$> chunks s, quoted_init_tag (take 20 bytes), quoted_init_tag (take 19 bytes)))
  = Some (40000, [INIT], Some 0xDEADBEEF, None).
Proof. vm_compute. reflexivity. Qed.

(** ** Rounding and padding *)

Lemma round_up_spec n : round_up_to_4 n = (4 * ((n + 3) / 4))%nat.
Proof.
  unfold round_up_to_4. rewrite <- (Z2Nat.id (Z.of_nat n + 3)) by lia.
  replace (Z.to_nat (Z.of_nat n + 3)) with (n + 3)%nat by lia. generalize (n + 3)%nat as m. intros m.
  assert (Z.land (Z.of_nat m) (Z.lnot 3) = Z.shiftl (Z.shiftr (Z.of_nat m) 2) 2) as ->.
  { change 3 with (Z.ones 2). rewrite <- Z.ldiff_land. apply Z.ldiff_ones_r. lia. }
  rewrite Z.shiftl_mul_pow2, Z.shiftr_div_pow2 by lia. change (2 ^ 2) with 4.
  rewrite Z2Nat.inj_mul by (try lia; apply Z.div_pos; lia). change (Z.to_nat 4) with 4%nat.
  replace 4 with (Z.of_nat 4) by done. rewrite <- Nat2Z.inj_div, Nat2Z.id. lia.
Qed.

Lemma round_up_bounds n : (n <= round_up_to_4 n < n + 4)%nat.
Proof.
  rewrite round_up_spec. pose proof (Nat.div_mod (n + 3) 4). pose proof (Nat.mod_upper_bound (n + 3) 4). lia.
Qed.

(** The bytes [sctp_chunk] writes: the header, the value, and less than four zeros. *)
Definition chunk_layout (c : Chunk) : list Z :=
  let n := (4 + length (chunk_value c))%nat in
  [chunk_type c; chunk_flags c] ++ to_be_bytes 2 (Z.of_nat n) ++ chunk_value c ++ replicate (round_up_to_4 n - n) 0.

Definition sctp_chunk_ok (c : Chunk) : Prop := (length (chunk_value c) <= MAX_CHUNK_VALUE)%nat.

Lemma max_chunk_value : Z.of_nat MAX_CHUNK_VALUE = 65531.
Proof. unfold MAX_CHUNK_VALUE, SCTP_CHUNK_HDR_LEN. rewrite Nat2Z.inj_sub, Z2Nat.id; [done|done|]. apply Nat2Z.inj_le. by rewrite Z2Nat.id. Qed.

Lemma chunk_length_fits c : sctp_chunk_ok c -> fits 16 (Z.of_nat (4 + length (chunk_value c))).
Proof. unfold sctp_chunk_ok. intros H. pose proof max_chunk_value. mlia. Qed.

Lemma chunk_writes c : sctp_chunk_ok c -> sctp_chunk (chunk_type c) (chunk_flags c) (chunk_value c) = Ok (chunk_layout c).
Proof.
  intros Hl. pose proof (chunk_length_fits c Hl) as Hf. unfold sctp_chunk, chunk_layout.
  rewrite (proj2 (Nat.ltb_ge _ _)) by done. unfold SCTP_CHUNK_HDR_LEN. cbv zeta. f_equal.
  rewrite wrap_small by mlia. set (n := (4 + length (chunk_value c))%nat) in *. unfold resize.
  assert (length ([chunk_type c; chunk_flags c] ++ to_be_bytes 2 (Z.of_nat n) ++ chunk_value c) = n) as E
    by (rewrite !length_app, length_to_be_bytes; cbn; lia).
  rewrite E, take_ge by (rewrite E; apply round_up_bounds). by rewrite <- !app_assoc.
Qed.

Lemma length_chunk_layout c : length (chunk_layout c) = round_up_to_4 (4 + length (chunk_value c)).
Proof.
  unfold chunk_layout. rewrite !length_app, length_to_be_bytes, length_replicate. cbn [length].
  pose proof (round_up_bounds (4 + length (chunk_value c))). lia.
Qed.

Lemma next_chunk_layout c rest : sctp_chunk_ok c -> next_chunk (chunk_layout c ++ rest) = Some (c, rest).
Proof.
  intros Hc. pose proof (chunk_length_fits c Hc) as Hf. pose proof (length_chunk_layout c) as Hl. unfold chunk_layout in *. cbv zeta in *.
  set (n := (4 + length (chunk_value c))%nat) in *. pose proof (round_up_bounds n) as Hr.
  assert (to_be_bytes 2 (Z.of_nat n) = [Z.of_nat n / 256 mod 256; Z.of_nat n mod 256]) as Eb by apply to_be_bytes_2.
  rewrite Eb in *. cbn [app] in *. set (pad := replicate _ 0) in *. unfold next_chunk.
  rewrite <- to_be_bytes_2, from_to_be_bytes, Nat2Z.id by done.
  rewrite (proj2 (Nat.ltb_ge n SCTP_CHUNK_HDR_LEN)) by (unfold SCTP_CHUNK_HDR_LEN; lia).
  cbn [length] in Hl |- *. rewrite length_app in Hl. rewrite !length_app.
  rewrite !Nat.min_l by lia. unfold SCTP_CHUNK_HDR_LEN. cbn [drop].
  replace (n - 4)%nat with (length (chunk_value c)) by lia. rewrite <- !app_assoc, drop_0, take_app_length.
  replace (round_up_to_4 n) with (4 + (length (chunk_value c ++ pad)))%nat by (rewrite length_app; lia). cbn [Nat.add drop].
  rewrite app_assoc, drop_app_length. by destruct c.
Qed.

Lemma records_layout cs more : Forall sctp_chunk_ok cs -> (length cs <= more)%nat ->
  records next_chunk more (cs ≫= chunk_layout) = cs.
Proof.
  intros H. revert more. induction H as [|c cs Hc _ IH]; intros more Hm; [by destruct more|].
  destruct more as [|more]; [cbn in Hm; lia|]. rewrite bind_cons. cbn [records].
  rewrite next_chunk_layout by done. f_equal. apply IH. cbn in Hm. lia.
Qed.

Lemma length_layouts cs : (length cs <= length (cs ≫= chunk_layout))%nat.
Proof.
  induction cs as [|c cs IH]; [done|]. rewrite bind_cons, length_app, length_chunk_layout.
  pose proof (round_up_bounds (4 + length (chunk_value c))). cbn [length]. lia.
Qed.

(** ** The walk ends *)

(** A chunk takes four bytes or what is left, whatever the bytes are. *)
Lemma next_chunk_shrinks rest c rest' : next_chunk rest = Some (c, rest') -> (length rest' + 4 <= length rest)%nat.
Proof.
  unfold next_chunk. destruct rest as [|t [|f [|l0 [|l1 rest]]]]; try done.
  set (n := Z.to_nat _). destruct (Nat.ltb_spec n SCTP_CHUNK_HDR_LEN) as [|Hn]; [done|]. intros [= _ <-].
  rewrite length_drop. pose proof (round_up_bounds n). unfold SCTP_CHUNK_HDR_LEN in Hn. cbn [length] in *. lia.
Qed.

(** The iterator is exhausted by then, and gives at most a chunk for each four bytes. *)
Lemma chunks_exhausted more rest : (length rest <= more)%nat ->
  records next_chunk more rest = records next_chunk (length rest) rest /\ (4 * length (records next_chunk more rest) <= length rest)%nat.
Proof.
  intros Hm. assert (forall m k r, (length r <= m)%nat -> (length r <= k)%nat -> records next_chunk m r = records next_chunk k r) as Heq.
  { induction m as [|m IH]; intros k r H1 H2.
    - destruct r; [|cbn in H1; lia]. by destruct k.
    - destruct k as [|k]; [destruct r; [done|cbn in H2; lia]|]. cbn [records].
      destruct (next_chunk r) as [[c r']|] eqn:E; [|done]. apply next_chunk_shrinks in E. f_equal. apply IH; lia. }
  split; [apply Heq; lia|]. clear Hm. revert rest. induction more as [|more IH]; intros rest; cbn [records length]; [lia|].
  destruct (next_chunk rest) as [[c r']|] eqn:E; cbn [length]; [|lia]. apply next_chunk_shrinks in E. specialize (IH r'). lia.
Qed.

(** ** Packets *)

Definition sctp_head (s : Sctp) : list Z :=
  to_be_bytes 2 (source_port s) ++ to_be_bytes 2 (destination_port s) ++ to_be_bytes 4 (verification_tag s).

Lemma copy_into_middle a b b' c n : length a = n -> length b = length b' -> copy_into n b' (a ++ b ++ c) = a ++ b' ++ c.
Proof.
  intros <- Hb. unfold copy_into. rewrite take_app_length. f_equal. f_equal.
  rewrite app_assoc, drop_app_length'; [done|]. rewrite length_app. lia.
Qed.

Lemma length_sctp_head s : length (sctp_head s) = 8%nat.
Proof. unfold sctp_head. by rewrite !length_app, !length_to_be_bytes. Qed.

Lemma length_to_le_bytes w n : length (to_le_bytes w n) = w.
Proof. unfold to_le_bytes. by rewrite length_rev, length_to_be_bytes. Qed.

Lemma sctp_bytes s :
  sctp_to_bytes s =
  sctp_head s ++ to_le_bytes 4 (field_resolve (sctp_checksum s) (crc32c (sctp_head s ++ [0; 0; 0; 0] ++ sctp_chunks s))) ++ sctp_chunks s.
Proof.
  unfold sctp_to_bytes, write_sctp. rewrite app_nil_r.
  replace (to_be_bytes 2 (source_port s) ++ _) with (sctp_head s ++ [0; 0; 0; 0] ++ sctp_chunks s)
    by (unfold sctp_head; by rewrite <- !app_assoc).
  cbv zeta. apply copy_into_middle; [apply length_sctp_head|by rewrite length_to_le_bytes].
Qed.

(** What [sctp_chunk] wrote, it wrote as laid out; what it refused was too long. *)
Lemma chunk_written c b : sctp_chunk (chunk_type c) (chunk_flags c) (chunk_value c) = Ok b ->
  sctp_chunk_ok c /\ b = chunk_layout c.
Proof.
  intros H. assert (sctp_chunk_ok c) as Hc.
  { unfold sctp_chunk in H. destruct (Nat.ltb_spec MAX_CHUNK_VALUE (length (chunk_value c))); [done|]. done. }
  split; [done|]. rewrite (chunk_writes c Hc) in H. by injection H.
Qed.

Lemma chunks_written cs bs :
  Forall2 (fun c b => sctp_chunk (chunk_type c) (chunk_flags c) (chunk_value c) = Ok b) cs bs ->
  Forall sctp_chunk_ok cs /\ concat bs = cs ≫= chunk_layout.
Proof.
  induction 1 as [|c b cs bs H _ [IH1 IH2]]; [done|]. apply chunk_written in H as [Hc ->].
  split; [by constructor|]. cbn [concat]. by rewrite IH2, bind_cons.
Qed.

Lemma head_fields s rest : fits 16 (source_port s) -> fits 16 (destination_port s) -> fits 32 (verification_tag s) ->
  from_be_bytes (take 2 (sctp_head s ++ rest)) = source_port s /\
  from_be_bytes (take 2 (drop 2 (sctp_head s ++ rest))) = destination_port s /\
  from_be_bytes (take 4 (drop 4 (sctp_head s ++ rest))) = verification_tag s.
Proof.
  intros H1 H2 H3. unfold sctp_head. rewrite <- !app_assoc. split_and!.
  - rewrite take_app_length' by (by rewrite length_to_be_bytes). by apply from_to_be_bytes.
  - rewrite drop_app_length' by (by rewrite length_to_be_bytes). rewrite take_app_length' by (by rewrite length_to_be_bytes).
    by apply from_to_be_bytes.
  - rewrite app_assoc, drop_app_length' by (by rewrite length_app, !length_to_be_bytes).
    rewrite take_app_length' by (by rewrite length_to_be_bytes). by apply from_to_be_bytes.
Qed.

(** C35: An SCTP packet is read back as it was built, with a checksum that is right.
    From the chunks a packet was given, written one by one: the packet reads with its
    ports, its tag and exactly those chunks, their values without the padding; the
    checksum in its bytes, read as the protocol has it, is that of the packet with the
    checksum field zeroed; and the packet answers a probe as its first deciding chunk
    does.  A quotation of at least its first eight bytes names its ports and its tag. *)
Theorem sctp_packet_reads_back (src dst tag : Z) (cs : list Chunk) (bs : list (list Z)) :
  fits 16 src -> fits 16 dst -> fits 32 tag -> bytes_ok (concat bs) ->
  Forall2 (fun c b => sctp_chunk (chunk_type c) (chunk_flags c) (chunk_value c) = Ok b) cs bs ->
  let bytes := sctp_to_bytes (with_chunks (with_verification_tag (sctp_new src dst) tag) (concat bs)) in
  (exists s, sctp_parse bytes = Ok s /\ seg_source_port s = src /\ seg_destination_port s = dst /\
     echoed_nonce s = tag /\ chunks s = cs /\ classify_probe_response s = first_read reply_of cs) /\
  from_be_bytes (rev (take 4 (drop 8 bytes))) = crc32c (copy_into 8 [0; 0; 0; 0] bytes) /\
  (forall n, (8 <= n)%nat -> quoted_probe (take n bytes) = Some (mkQuotedProbe src dst tag)).
Proof.
  intros Hs Hd Ht Hb Hcs bytes. destruct (chunks_written cs bs Hcs) as [Hok Hlay].
  set (p := with_chunks (with_verification_tag (sctp_new src dst) tag) (concat bs)) in *.
  set (sum := crc32c (sctp_head p ++ [0; 0; 0; 0] ++ concat bs)).
  assert (bytes = sctp_head p ++ to_le_bytes 4 sum ++ concat bs) as Eb by apply sctp_bytes.
  assert (fits 32 sum) as Hsum.
  { apply crc32c_fits. apply Forall_app_2; [|].
    { unfold sctp_head. apply Forall_app_2; [|apply Forall_app_2]; apply to_be_bytes_ok. }
    apply Forall_app_2; [|done]. repeat (apply Forall_cons_2; [split; vm_compute; discriminate|]). apply Forall_nil_2. }
  pose proof (length_sctp_head p) as Hh. pose proof (length_to_le_bytes 4 sum) as Hle.
  split_and!.
  - exists (mkSegment (sctp_head p ++ to_le_bytes 4 sum) (concat bs)).
    pose proof (head_fields p (to_le_bytes 4 sum) Hs Hd Ht) as (F1 & F2 & F3).
    assert (chunks (mkSegment (sctp_head p ++ to_le_bytes 4 sum) (concat bs)) = cs) as Hchunks.
    { unfold chunks. cbn [seg_chunks]. rewrite Hlay. apply records_layout; [done|apply length_layouts]. }
    unfold classify_probe_response. rewrite Hchunks. split_and!; try done.
    unfold sctp_parse. rewrite Eb, app_assoc, split_at_checked_app; [done|]. by rewrite length_app, Hh, Hle.
  - rewrite Eb, (copy_into_middle _ (to_le_bytes 4 sum)) by done. fold sum.
    rewrite drop_app_length', take_app_length' by done. unfold to_le_bytes. rewrite rev_involutive.
    by apply from_to_be_bytes.
  - intros n Hn. unfold quoted_probe. rewrite Eb.
    replace (take n (sctp_head p ++ to_le_bytes 4 sum ++ concat bs))
      with (sctp_head p ++ take (n - 8) (to_le_bytes 4 sum ++ concat bs)) by (rewrite (take_app_ge (sctp_head p)) by lia; by rewrite Hh).
    rewrite first_chunk_app by done. cbn [mbind option_bind].
    pose proof (head_fields p [] Hs Hd Ht) as (F1 & F2 & F3). rewrite !app_nil_r in *.
    rewrite take_ge in F3 by (rewrite length_drop; lia). rewrite F1, F2, F3. done.
Qed.

Lemma sctp_packet_reads_back_witness :
  let cs := [mkChunk 2 0 [1; 2; 3]; mkChunk 6 1 []] in
  let bs := [[2; 0; 0; 7; 1; 2; 3; 0]; [6; 1; 0; 4]] in
  let bytes := sctp_to_bytes (with_chunks (with_verification_tag (sctp_new 5060 40000) 0xDEADBEEF) (concat bs)) in
  exists s, sctp_parse bytes = Ok s /\ chunks s = cs /\ classify_probe_response s = Some InitAck.
Proof.
  intros cs bs.
  destruct (sctp_packet_reads_back 5060 40000 0xDEADBEEF cs bs) as [(s & Hs & _ & _ & _ & Hc & Hr) _].
  - split; vm_compute; discriminate.
  - split; vm_compute; discriminate.
  - split; vm_compute; discriminate.
  - repeat (apply Forall_cons_2; [split; vm_compute; discriminate|]). apply Forall_nil_2.
  - repeat (constructor; [vm_compute; reflexivity|]). constructor.
  - exists s. split_and!; [exact Hs|exact Hc|exact Hr].
Defined.

(** An INIT probe is recognised by its initiate tag in any quotation of twenty bytes. *)
Theorem init_probe_is_quoted (src dst tag tsn : Z) (n : nat) :
  fits 32 tag -> (20 <= n)%nat ->
  exists bytes, build_init_probe src dst tag tsn = Some bytes /\ quoted_init_tag (take n bytes) = Some tag.
Proof.
  intros Ht Hn. set (value := to_be_bytes 4 tag ++ to_be_bytes 4 ADVERTISED_RWND ++ to_be_bytes 2 OUTBOUND_STREAMS
    ++ to_be_bytes 2 INBOUND_STREAMS ++ to_be_bytes 4 tsn).
  assert (sctp_chunk INIT 0 value = Ok (chunk_layout (mkChunk INIT 0 value))) as Hc.
  { apply (chunk_writes (mkChunk INIT 0 value)). unfold sctp_chunk_ok. cbn [chunk_value].
    pose proof max_chunk_value. change (length value) with 16%nat. lia. }
  unfold build_init_probe, init_chunk. fold value. rewrite Hc. cbn [ok fmap option_fmap option_map]. eexists. split; [done|].
  unfold quoted_init_tag. rewrite sctp_bytes. set (sum := field_resolve _ _). cbn [sctp_chunks with_chunks].
  set (p := with_chunks _ _).
  assert (chunk_layout (mkChunk INIT 0 value) = [INIT; 0; 0; 20] ++ to_be_bytes 4 tag ++ drop 8 (chunk_layout (mkChunk INIT 0 value))) as Hl
    by done.
  rewrite Hl. clear Hl. rewrite !app_assoc. set (first := (((sctp_head p ++ _) ++ _) ++ to_be_bytes 4 tag)).
  assert (length first = 20%nat) as Hf.
  { unfold first. by rewrite !length_app, length_sctp_head, length_to_le_bytes, length_to_be_bytes. }
  rewrite take_app_ge by lia. rewrite Hf, first_chunk_app by done. cbn [mbind option_bind].
  unfold first. rewrite drop_app_length' by (by rewrite !length_app, length_sctp_head, length_to_le_bytes).
  rewrite bool_decide_true, from_to_be_bytes by done. done.
Qed.
