(* ===== verification/Dns.v ===== *)
(** * Reverse names and queries

    [src/src/protocols/dns.rs]: the name an address is looked up under, the address a
    name is about, and the bytes of a query.  Naming is one to one, and a query that is
    built reads back as the questions it was built from, inside the bounds of the
    protocol.  The reader of responses is [dns_parser]'s and is not modelled. *)

From Stdlib Require Import ZArith Lia String.
From stdpp Require Import base numbers sets option list.
From S2P Require Import Prelude Std Text Intervals IpRange Utf8 AddrText Packet.

Local Open Scope Z_scope.

(** ** Definitions *)

Definition IPV4_ARPA_SUFFIX : text := lit ".in-addr.arpa".

Definition IPV6_ARPA_SUFFIX : text := lit ".ip6.arpa".

Definition IPV6_NIBBLES : nat := 32.

(** [str::trim_end_matches] of a character. *)
Fixpoint trim_start_matches (c : Z) (s : text) : text :=
  match s with x :: t => if x =? c then trim_start_matches c t else s | [] => [] end.

Definition trim_end_matches (c : Z) (s : text) : text := rev (trim_start_matches c (rev s)).

(** [str::strip_suffix] of a text. *)
Definition strip_suffix_text (suffix s : text) : option text :=
  let n := (length s - length suffix)%nat in
  then_some (bool_decide (s = take n s ++ suffix)) (take n s).

(** [reverse_pointer_name]; the buffer's last dot is cut off before the zone is put on. *)
Definition reverse_pointer_name (ip : IpAddr) : text :=
  match ip with
  | V4 a =>
      match to_be_bytes 4 a with
      | [a; b; c; d] =>
          show_uint d ++ [DOT] ++ show_uint c ++ [DOT] ++ show_uint b ++ [DOT] ++ show_uint a ++ IPV4_ARPA_SUFFIX
      | _ => []
      end
  | V6 a =>
      let name := rev (to_be_bytes 16 a) ≫= fun byte =>
        show_lower_hex (Z.land byte 0x0F) ++ [DOT] ++ show_lower_hex (Z.shiftr byte 4) ++ [DOT] in
      take (length name - 1) name ++ IPV6_ARPA_SUFFIX
  end.

(** [octet] of [dns.rs]: as strict as what is written. *)
Definition label_octet (label : text) : option Z :=
  value ← ok (parse_uint 8 label);
  then_some (bool_decide (label = show_uint value)) value.

Definition parse_ipv4_pointer (prefix : text) : option IpAddr :=
  match split_by (Z.eqb DOT) prefix with
  | [d; c; b; a] =>
      a ← label_octet a; b ← label_octet b; c ← label_octet c; d ← label_octet d;
      Some (V4 (from_be_bytes [a; b; c; d]))
  | _ => None
  end.

Definition hex_nibble (label : text) : option Z :=
  match label with
  | [] => None
  | c :: rest => digit ← to_digit 16 c; match rest with [] => Some digit | _ => None end
  end.

(** [rchunks(2)], given the labels from the back. *)
Fixpoint rchunks_2 (back : list text) : list (list text) :=
  match back with
  | [] => []
  | [x] => [[x]]
  | x :: y :: back => [y; x] :: rchunks_2 back
  end.

(** The byte a pair of labels spells; a pair is whole, since their number is even. *)
Definition pair_byte (pair : list text) : option Z :=
  match pair with
  | [p0; p1] => low ← hex_nibble p0; high ← hex_nibble p1; Some (Z.lor (high <<[8] 4) low)
  | _ => None
  end.

Definition parse_ipv6_pointer (prefix : text) : option IpAddr :=
  let labels := split_by (Z.eqb DOT) prefix in
  if negb (length labels =? IPV6_NIBBLES)%nat then None
  else
    octets ← mapM pair_byte (rchunks_2 (rev labels));
    Some (V6 (from_be_bytes octets)).

Definition address_from_pointer_name (name : text) : option IpAddr :=
  let name := to_ascii_lowercase <$> trim_end_matches DOT name in
  match strip_suffix_text IPV4_ARPA_SUFFIX name with
  | Some prefix => parse_ipv4_pointer prefix
  | None =>
      match strip_suffix_text IPV6_ARPA_SUFFIX name with
      | Some prefix => parse_ipv6_pointer prefix
      | None => None
      end
  end.

(** *** Queries *)

Definition RECORD_PTR : Z := 12.

Definition CLASS_IN : Z := 1.

Definition FLAG_RECURSION_DESIRED : Z := 0x0100.

Definition MAX_LABEL_OCTETS : nat := 63.

Definition MAX_NAME_OCTETS : nat := 255.

(** The loop of [write_name] over the labels. *)
Fixpoint encode_labels (name : text) (labels : list text) (encoded : list Z) : Result (list Z) PacketError :=
  match labels with
  | [] => Ok encoded
  | label :: labels =>
      if (byte_len label =? 0)%nat then Err (UnwritableName name EmptyLabel)
      else if (MAX_LABEL_OCTETS <? byte_len label)%nat then Err (UnwritableName name (LongLabel label (byte_len label)))
      else encode_labels name labels (encoded ++ [wrap 8 (Z.of_nat (byte_len label))] ++ utf8_encode label)
  end.

(** [write_name]: the bytes [out] becomes. *)
Definition write_name (name : text) (out : list Z) : Result (list Z) PacketError :=
  let trimmed := trim_end_matches DOT name in
  let? encoded := encode_labels name (split_by (Z.eqb DOT) trimmed) [] in
  let encoded := encoded ++ [0] in
  if (MAX_NAME_OCTETS <? length encoded)%nat then Err (UnwritableName name (LongName (length encoded)))
  else Ok (out ++ encoded).

Fixpoint write_questions (questions : list (text * Z)) (bytes : list Z) : Result (list Z) PacketError :=
  match questions with
  | [] => Ok bytes
  | (name, kind) :: questions =>
      let? bytes := write_name name bytes in
      write_questions questions (bytes ++ to_be_bytes 2 kind ++ to_be_bytes 2 CLASS_IN)
  end.

Definition build_query (id : Z) (recursion_desired : bool) (questions : list (text * Z)) : Result (list Z) PacketError :=
  let flags := if recursion_desired then FLAG_RECURSION_DESIRED else 0 in
  write_questions questions
    (to_be_bytes 2 id ++ to_be_bytes 2 flags ++ to_be_bytes 2 (wrap 16 (Z.of_nat (length questions))) ++ repeat 0 6).

(** [None] is the panic of [expect]. *)
Definition build_ptr_packet (ip : IpAddr) (id : Z) : option (list Z) :=
  ok (build_query id true [(reverse_pointer_name ip, RECORD_PTR)]).

Example v4_name : reverse_pointer_name (V4 0xCB007101) = lit "1.113.0.203.in-addr.arpa".
Proof. vm_compute. reflexivity. Qed.

Example v6_name : reverse_pointer_name (V6 0x20010db8000000000000000000000001)
  = lit "1.0.0.0.0.0.0.0.0.0.0.0.0.0.0.0.0.0.0.0.0.0.0.0.8.b.d.0.1.0.0.2.ip6.arpa".
Proof. vm_compute. reflexivity. Qed.

Example any_case : address_from_pointer_name (lit "1.113.0.203.IN-ADDR.ARPA..") = Some (V4 0xCB007101).
Proof. vm_compute. reflexivity. Qed.

(** ** Pieces of names *)

Lemma strip_suffix_text_Some suffix s p : strip_suffix_text suffix s = Some p <-> s = p ++ suffix.
Proof.
  unfold strip_suffix_text, then_some. split.
  - destruct (bool_decide_reflect (s = take (length s - length suffix) s ++ suffix)) as [E|]; [|done].
    intros [= <-]. exact E.
  - intros ->. rewrite length_app. replace (length p + length suffix - length suffix)%nat with (length p) by lia.
    rewrite take_app_length. by rewrite bool_decide_true.
Qed.

Lemma zones_differ p q : p ++ IPV6_ARPA_SUFFIX <> q ++ IPV4_ARPA_SUFFIX.
Proof. intros E. apply (f_equal (@rev Z)) in E. rewrite !rev_app_distr in E. cbn in E. discriminate E. Qed.

Lemma join_split c s : join [c] (split_by (Z.eqb c) s) = s.
Proof.
  induction s as [|x s IH]; [done|]. cbn [split_by]. destruct (Z.eqb_spec c x) as [->|Hx].
  - destruct (split_by (Z.eqb x) s) as [|w ws] eqn:E; [by destruct s; cbn in E; repeat case_match|]. cbn. by rewrite <- IH.
  - destruct (split_by (Z.eqb c) s) as [|w ws] eqn:E; [cbn in IH; by rewrite <- IH|].
    destruct ws as [|v ws]; cbn in *; by rewrite <- IH.
Qed.

Lemma split_plain c s : Forall (Forall (fun x => (c =? x) = false)) (split_by (Z.eqb c) s).
Proof.
  induction s as [|x s IH]; [by repeat constructor|]. cbn [split_by]. destruct (c =? x) eqn:E; [by repeat constructor|].
  destruct (split_by (Z.eqb c) s) as [|w ws]; [by repeat constructor|]. apply Forall_cons in IH as [Hw Hws].
  by repeat constructor.
Qed.

Lemma trim_start_matches_id c s : starts_with (Z.eqb c) s = false -> trim_start_matches c s = s.
Proof. destruct s as [|x s]; [done|]. cbn. rewrite Z.eqb_sym. by intros ->. Qed.

Lemma zone_trimmed p zone : zone = IPV4_ARPA_SUFFIX \/ zone = IPV6_ARPA_SUFFIX ->
  trim_end_matches DOT (p ++ zone) = p ++ zone.
Proof.
  intros Hz. unfold trim_end_matches. rewrite trim_start_matches_id; [apply rev_involutive|].
  rewrite rev_app_distr. by destruct Hz as [-> | ->].
Qed.

(** ** Labels *)

Definition nibble_char (d : Z) : Z := if d <? 10 then 48 + d else 87 + d.

Lemma nibble_shown d : 0 <= d < 16 -> show_lower_hex d = [nibble_char d].
Proof.
  intros Hd. unfold show_lower_hex, nibble_char. cbn. rewrite Z.mod_small by lia. rewrite (proj2 (Z.ltb_lt d 16)) by lia. done.
Qed.

Lemma hex_nibble_shown d : 0 <= d < 16 -> hex_nibble [nibble_char d] = Some d.
Proof.
  intros Hd. unfold hex_nibble, nibble_char, to_digit, is_ascii_digit, in_range, then_some.
  destruct (Z.ltb_spec d 10).
  - rewrite !(proj2 (Z.leb_le _ _)) by lia. cbn [andb]. rewrite (proj2 (Z.ltb_lt _ _)) by lia. cbn. f_equal. lia.
  - rewrite (proj2 (Z.leb_gt (87 + d) 57)) by lia. rewrite andb_false_r, !(proj2 (Z.leb_le _ _)) by lia. cbn [andb].
    rewrite (proj2 (Z.ltb_lt _ _)) by lia. cbn. f_equal. lia.
Qed.

Definition lowered (c : Z) : Prop := to_ascii_lowercase c = c.

Lemma hex_nibble_read label d : hex_nibble label = Some d -> Forall lowered label ->
  0 <= d < 16 /\ label = [nibble_char d].
Proof.
  destruct label as [|c rest]; [done|]. cbn. unfold to_digit, then_some, is_ascii_digit, lowered, to_ascii_lowercase.
  intros H [Hc _]%Forall_cons. unfold nibble_char, in_range in *.
  destruct ((48 <=? c) && (c <=? 57)) eqn:E1.
  { destruct (Z.ltb_spec (c - 48) 16); cbn in H; [|done]. destruct rest; [|done]. injection H as <-.
    rewrite (proj2 (Z.ltb_lt (c - 48) 10)) by lia. split; [lia|]. f_equal. lia. }
  destruct ((97 <=? c) && (c <=? 122)) eqn:E2.
  { destruct (Z.ltb_spec (c - 87) 16); cbn in H; [|done]. destruct rest; [|done]. injection H as <-.
    rewrite (proj2 (Z.ltb_ge (c - 87) 10)) by lia. split; [lia|]. f_equal. lia. }
  destruct ((65 <=? c) && (c <=? 90)) eqn:E3; [exfalso; lia|]. done.
Qed.

Lemma label_octet_shown n : fits 8 n -> label_octet (show_uint n) = Some n.
Proof. intros Hn. unfold label_octet. rewrite parse_show_uint by (done || lia). cbn [ok mbind option_bind]. by rewrite bool_decide_true. Qed.

Lemma label_octet_read label n : label_octet label = Some n -> fits 8 n /\ label = show_uint n.
Proof.
  unfold label_octet. destruct (parse_uint 8 label) as [v|] eqn:E; [|done]. cbn [ok mbind option_bind]. unfold then_some.
  destruct (bool_decide_reflect (label = show_uint v)) as [->|]; [|done]. intros [= <-]. split; [|done].
  by apply parse_uint_fits in E.
Qed.

(** ** The labels of an address *)

Definition byte_labels (b : Z) : list text := [[nibble_char (b mod 16)]; [nibble_char (b / 16)]].

Definition labels_of (ip : IpAddr) : list text :=
  match ip with
  | V4 a => show_uint <$> rev (to_be_bytes 4 a)
  | V6 a => rev (to_be_bytes 16 a) ≫= byte_labels
  end.

Definition arpa_zone (ip : IpAddr) : text := match ip with V4 _ => IPV4_ARPA_SUFFIX | V6 _ => IPV6_ARPA_SUFFIX end.

Lemma nibbles_of b : fits 8 b ->
  0 <= b mod 16 < 16 /\ 0 <= b / 16 < 16 /\ Z.land b 0x0F = b mod 16 /\ Z.shiftr b 4 = b / 16 /\
  Z.lor ((b / 16) <<[8] 4) (b mod 16) = b.
Proof.
  intros Hb. unfold fits, umax in Hb. assert (0 <= b mod 16 < 16) as Hm by (apply Z.mod_pos_bound; lia).
  assert (0 <= b / 16 < 16) as Hd by (split; [apply Z.div_pos; lia|apply Z.div_lt_upper_bound; lia]).
  split_and!; try lia.
  - apply (Z.land_ones b 4). lia.
  - apply (Z.shiftr_div_pow2 b 4). lia.
  - rewrite wrap_small by (rewrite Z.shiftl_mul_pow2 by lia; lia). symmetry.
    change 16 with (2 ^ 4). rewrite <- (Z.shiftr_div_pow2 b 4), <- (Z.land_ones b 4) by lia.
    apply Z.bits_inj'. intros i Hi. rewrite Z.lor_spec, Z.land_spec, Z.testbit_ones_nonneg by lia.
    destruct (Z.ltb_spec i 4).
    + by rewrite Z.shiftl_spec_low, andb_true_r by lia.
    + rewrite Z.shiftl_spec_high, Z.shiftr_spec, andb_false_r, orb_false_r by lia. f_equal. lia.
Qed.

Lemma dotted_bind (ls : list text) : ls <> [] -> (ls ≫= fun l => l ++ [DOT]) = join [DOT] ls ++ [DOT].
Proof.
  induction ls as [|l ls IH]; [done|]. intros _. rewrite bind_cons. destruct ls as [|k ls]; [cbn; by rewrite app_nil_r|].
  rewrite IH by done. change (join [DOT] (l :: k :: ls)) with (l ++ [DOT] ++ join [DOT] (k :: ls)). by rewrite <- !app_assoc.
Qed.

Lemma name_spelled ip : ip_fits ip -> reverse_pointer_name ip = join [DOT] (labels_of ip) ++ arpa_zone ip.
Proof.
  destruct ip as [a|a]; intros Ha; unfold reverse_pointer_name, labels_of, arpa_zone.
  - pose proof (length_to_be_bytes 4 a) as Hl. destruct (to_be_bytes 4 a) as [|x [|y [|z [|w []]]]]; try done.
    cbn [rev app fmap list_fmap join]. by repeat (rewrite <- app_assoc; cbn [app]).
  - pose proof (to_be_bytes_ok 16 a) as Hok. pose proof (length_to_be_bytes 16 a) as Hl.
    set (bytes := rev (to_be_bytes 16 a)).
    assert (Forall (fits 8) bytes) as Hb by (by apply Forall_rev).
    assert ((bytes ≫= fun byte => show_lower_hex (Z.land byte 0x0F) ++ [DOT] ++ show_lower_hex (Z.shiftr byte 4) ++ [DOT])
      = (bytes ≫= byte_labels) ≫= fun l => l ++ [DOT]) as ->.
    { clear -Hb. induction Hb as [|b bytes Hb _ IH]; [done|]. rewrite !bind_cons, bind_app, <- IH. f_equal.
      destruct (nibbles_of b Hb) as (Hm & Hd & -> & -> & _). by rewrite !nibble_shown. }
    rewrite dotted_bind. 2:{ intros E. apply (f_equal length) in E. subst bytes.
      destruct (to_be_bytes 16 a) as [|x l]; [done|]. cbn [rev] in E. rewrite bind_app, length_app in E. cbn in E. lia. }
    cbv zeta. rewrite length_app. cbn [length]. by rewrite Nat.add_sub, take_app_length.
Qed.

Lemma labels_plain ip : ip_fits ip -> Forall (Forall (fun x => (DOT =? x) = false /\ lowered x)) (labels_of ip).
Proof.
  assert (forall d, 0 <= d < 16 -> (DOT =? nibble_char d) = false /\ lowered (nibble_char d)) as Hn.
  { intros d Hd. unfold nibble_char, lowered, to_ascii_lowercase, in_range, DOT.
    destruct (Z.ltb_spec d 10); (split; [apply Z.eqb_neq; lia|]); case_match eqn:E; lia. }
  destruct ip as [a|a]; intros Ha; unfold labels_of.
  - apply Forall_fmap, Forall_rev. apply (Forall_impl (fits 8)); [apply to_be_bytes_ok|]. intros n Hn'.
    apply show_uint_plain; [mlia|]. intros c Hc. unfold lowered, to_ascii_lowercase, in_range, DOT.
    split; [apply Z.eqb_neq; lia|]. case_match eqn:E; lia.
  - assert (Forall (fits 8) (rev (to_be_bytes 16 a))) as Hb by (apply Forall_rev, to_be_bytes_ok).
    induction Hb as [|b bytes Hb _ IH]; [constructor|]. rewrite bind_cons. apply Forall_app_2; [|done].
    destruct (nibbles_of b Hb) as (Hm & Hd & _). unfold byte_labels. repeat constructor; by apply Hn.
Qed.

Lemma labels_nonempty ip : labels_of ip <> [].
Proof.
  destruct ip as [a|a]; unfold labels_of.
  - pose proof (length_to_be_bytes 4 a) as Hl. intros E. apply (f_equal length) in E.
    rewrite length_fmap, length_rev, Hl in E. done.
  - pose proof (length_to_be_bytes 16 a) as Hl. destruct (to_be_bytes 16 a) as [|x l]; [done|].
    cbn [rev]. rewrite bind_app. intros [_ E]%app_eq_nil. done.
Qed.

(** ** Labels read back, and only they *)

Lemma rev_bind {A B} (f : A -> list B) l : rev (l ≫= f) = rev l ≫= fun x => rev (f x).
Proof.
  induction l as [|x l IH]; [done|]. rewrite bind_cons, rev_app_distr, IH. cbn [rev]. rewrite bind_app. cbn.
  by rewrite app_nil_r.
Qed.

Lemma pairs_read octets : bytes_ok octets ->
  mapM pair_byte (rchunks_2 (octets ≫= fun b => rev (byte_labels b))) = Some octets.
Proof.
  induction 1 as [|b octets Hb _ IH]; [done|]. set (f := fun b => rev (byte_labels b)) in *. rewrite bind_cons.
  change (f b) with [[nibble_char (b / 16)]; [nibble_char (b mod 16)]]. cbn [app rchunks_2 mapM].
  destruct (nibbles_of b Hb) as (Hm & Hd & _ & _ & E). cbn [pair_byte].
  rewrite !hex_nibble_shown by done. cbn [mbind option_bind]. rewrite E, IH. done.
Qed.

Lemma pairs_read_inv octets : forall back, mapM pair_byte (rchunks_2 back) = Some octets -> Forall (Forall lowered) back ->
  bytes_ok octets /\ back = octets ≫= fun b => rev (byte_labels b).
Proof.
  induction octets as [|b octets IH]; intros back H Hl.
  - destruct back as [|x [|y back]]; [by split; [constructor|]|done|].
    cbn [rchunks_2 mapM] in H. destruct (pair_byte [y; x]); [|done]. cbn in H. by destruct (mapM _ _).
  - destruct back as [|x [|y back]]; [done|done|]. cbn [rchunks_2 mapM] in H.
    destruct (pair_byte [y; x]) as [b'|] eqn:E; [|done]. cbn [mbind option_bind] in H.
    destruct (mapM pair_byte (rchunks_2 back)) as [o|] eqn:Eo; [|done]. cbn in H. injection H as -> ->.
    apply Forall_cons in Hl as [Hx [Hy Hl]%Forall_cons]. destruct (IH back Eo Hl) as [Hok ->].
    cbn [pair_byte] in E. destruct (hex_nibble y) as [lo|] eqn:Ey; [|done]. destruct (hex_nibble x) as [hi|] eqn:Ex; [|done].
    cbn [mbind option_bind] in E. injection E as <-.
    apply hex_nibble_read in Ey as [Hlo ->], Ex as [Hhi ->]; [|done|done].
    assert (Z.lor (hi <<[8] 4) lo = hi * 16 + lo) as ->.
    { assert (fits 8 (hi * 16 + lo)) as Hf by mlia. destruct (nibbles_of _ Hf) as (_ & _ & _ & _ & E).
      rewrite Z.div_add_l, Z.div_small, Z.add_0_r, (Z.add_comm (hi * 16)), Z.mod_add, Z.mod_small in E by lia. by rewrite E, Z.add_comm. }
    split; [constructor; [mlia|done]|]. rewrite bind_cons. cbn [byte_labels rev app].
    rewrite Z.div_add_l, Z.div_small, Z.add_0_r by lia. rewrite (Z.add_comm (hi * 16)), Z.mod_add, Z.mod_small by lia. done.
Qed.

Lemma read_v4 prefix ip : parse_ipv4_pointer prefix = Some ip <->
  exists a, ip = V4 a /\ fits 32 a /\ split_by (Z.eqb DOT) prefix = labels_of (V4 a).
Proof.
  unfold parse_ipv4_pointer. split.
  - destruct (split_by (Z.eqb DOT) prefix) as [|d [|c [|b [|a []]]]]; try done. intros H.
    destruct (label_octet a) as [a'|] eqn:Ea; [|done]. destruct (label_octet b) as [b'|] eqn:Eb; [|done].
    destruct (label_octet c) as [c'|] eqn:Ec; [|done]. destruct (label_octet d) as [d'|] eqn:Ed; [|done].
    cbn [mbind option_bind] in H. injection H as <-.
    apply label_octet_read in Ea as [Ha ->], Eb as [Hb ->], Ec as [Hc ->], Ed as [Hd ->].
    assert (bytes_ok [a'; b'; c'; d']) as Hok by (repeat (apply Forall_cons_2; [done|]); apply Forall_nil_2).
    exists (from_be_bytes [a'; b'; c'; d']). split_and!; [done|apply (from_be_bytes_fits _ Hok)|].
    unfold labels_of. pose proof (to_from_be_bytes _ Hok) as E. cbn [length] in E. by rewrite E.
  - intros (a & -> & Ha & ->). unfold labels_of. pose proof (from_to_be_bytes 4 a Ha) as E. pose proof (to_be_bytes_ok 4 a) as Hok.
    pose proof (length_to_be_bytes 4 a) as Hl. destruct (to_be_bytes 4 a) as [|x [|y [|z [|w []]]]]; try done.
    apply Forall_cons in Hok as [Hx [Hy [Hz [Hw _]%Forall_cons]%Forall_cons]%Forall_cons]. cbn [rev app fmap list_fmap].
    rewrite !label_octet_shown by done. cbn [mbind option_bind]. by rewrite E.
Qed.

Lemma read_v6 prefix ip : Forall lowered prefix -> parse_ipv6_pointer prefix = Some ip <->
  exists a, ip = V6 a /\ fits 128 a /\ split_by (Z.eqb DOT) prefix = labels_of (V6 a).
Proof.
  intros Hlow. unfold parse_ipv6_pointer. cbv zeta.
  assert (Forall (Forall lowered) (split_by (Z.eqb DOT) prefix)) as Hls.
  { clear -Hlow. induction Hlow as [|x s Hx _ IH]; [by repeat constructor|]. cbn [split_by].
    destruct (DOT =? x); [by repeat constructor|]. destruct (split_by (Z.eqb DOT) s) as [|w ws]; [by repeat constructor|].
    apply Forall_cons in IH as [Hw Hws]. by repeat constructor. }
  set (labels := split_by (Z.eqb DOT) prefix) in *. split.
  - destruct (Nat.eqb_spec (length labels) IPV6_NIBBLES) as [Hl|]; [|done]. cbn [negb].
    destruct (mapM pair_byte (rchunks_2 (rev labels))) as [octets|] eqn:E; [|done]. cbn [mbind option_bind]. intros [= <-].
    apply pairs_read_inv in E as [Hok E]; [|by apply Forall_rev].
    assert (length octets = 16%nat) as H16.
    { apply (f_equal length) in E. rewrite length_rev, Hl in E. clear -E. unfold IPV6_NIBBLES in E.
      assert (forall o, length (o ≫= fun b => rev (byte_labels b)) = (2 * length o)%nat) as Hlen
        by (induction o as [|b o IH]; [done|]; rewrite bind_cons, length_app, IH; cbn; lia).
      rewrite Hlen in E. lia. }
    exists (from_be_bytes octets). pose proof (from_be_bytes_fits _ Hok) as Hf. rewrite H16 in Hf. split_and!; [done|exact Hf|].
    unfold labels_of. rewrite <- H16, (to_from_be_bytes _ Hok). rewrite <- (rev_involutive labels), E, rev_bind.
    apply list_bind_ext; [|done]. intros b. apply rev_involutive.
  - intros (a & -> & Ha & E). rewrite E. unfold labels_of.
    assert (length (rev (to_be_bytes 16 a) ≫= byte_labels) = IPV6_NIBBLES) as ->.
    { assert (forall o, length (o ≫= byte_labels) = (2 * length o)%nat) as Hlen
        by (induction o as [|b o IH]; [done|]; rewrite bind_cons, length_app, IH; cbn; lia).
      by rewrite Hlen, length_rev, length_to_be_bytes. }
    rewrite Nat.eqb_refl. cbn [negb]. rewrite rev_bind, rev_involutive, pairs_read by apply to_be_bytes_ok.
    cbn [mbind option_bind]. by rewrite from_to_be_bytes.
Qed.

Lemma zone_lowered ip : Forall lowered (arpa_zone ip).
Proof. destruct ip; repeat (apply Forall_cons_2; [reflexivity|]); apply Forall_nil_2. Qed.

Lemma name_lowered ip : ip_fits ip -> Forall lowered (reverse_pointer_name ip).
Proof.
  intros H. rewrite name_spelled by done. apply Forall_app_2; [|apply zone_lowered].
  apply join_chars; [by constructor|]. eapply Forall_impl; [by apply labels_plain|].
  intros l Hl. eapply Forall_impl; [exact Hl|]. by intros x [_ Hx].
Qed.

Lemma lowercase_lowered s : Forall lowered (to_ascii_lowercase <$> s).
Proof.
  apply Forall_fmap, Forall_true. intros c. cbn. unfold lowered, to_ascii_lowercase, in_range.
  destruct ((65 <=? c) && (c <=? 90)) eqn:E; [|by rewrite E]. case_match eqn:E2; [lia|done].
Qed.

Lemma split_labels ip : ip_fits ip -> split_by (Z.eqb DOT) (join [DOT] (labels_of ip)) = labels_of ip.
Proof.
  intros H. apply split_by_join; [done|apply labels_nonempty|]. eapply Forall_impl; [by apply labels_plain|].
  intros l Hl. eapply Forall_impl; [exact Hl|]. by intros x [Hx _].
Qed.

Lemma address_from_spelled name ip :
  address_from_pointer_name name = Some ip <->
  ip_fits ip /\ to_ascii_lowercase <$> trim_end_matches DOT name = reverse_pointer_name ip.
Proof.
  unfold address_from_pointer_name. cbv zeta. pose proof (lowercase_lowered (trim_end_matches DOT name)) as Hlow.
  set (s := to_ascii_lowercase <$> trim_end_matches DOT name) in *. split.
  - destruct (strip_suffix_text IPV4_ARPA_SUFFIX s) as [p|] eqn:E4.
    + apply strip_suffix_text_Some in E4. intros (a & -> & Ha & Hs)%read_v4. split; [done|].
      rewrite name_spelled by done. by rewrite E4, <- Hs, join_split.
    + destruct (strip_suffix_text IPV6_ARPA_SUFFIX s) as [p|] eqn:E6; [|done].
      apply strip_suffix_text_Some in E6. rewrite E6 in Hlow. apply Forall_app in Hlow as [Hlow _].
      intros (a & -> & Ha & Hs)%read_v6; [|done]. split; [done|].
      rewrite name_spelled by done. by rewrite E6, <- Hs, join_split.
  - intros [Hip Hs]. pose proof (split_labels ip Hip) as Hsplit. rewrite name_spelled in Hs by done.
    destruct ip as [a|a]; cbn [arpa_zone] in Hs; rewrite Hs in *; clear Hs.
    + rewrite (proj2 (strip_suffix_text_Some _ _ _)) by done. apply read_v4. eauto.
    + destruct (strip_suffix_text IPV4_ARPA_SUFFIX _) as [q|] eqn:E.
      { apply strip_suffix_text_Some in E. by apply zones_differ in E. }
      rewrite (proj2 (strip_suffix_text_Some _ _ _)) by done. apply Forall_app in Hlow as [Hlow _].
      apply read_v6; [done|]. eauto.
Qed.

(** Reverse names are one to one with addresses.  A name is read as an address
    exactly when it is that address's name in some case and with any dots at its end,
    so that no second spelling (a sign, a leading zero, a longer label) refers to an
    address; and the name of every address is read back as it. *)
Theorem one_address_one_name :
  (forall (name : text) (ip : IpAddr),
     address_from_pointer_name name = Some ip <->
     ip_fits ip /\ to_ascii_lowercase <$> trim_end_matches DOT name = reverse_pointer_name ip) /\
  (forall (ip : IpAddr) (dots : nat), ip_fits ip ->
     address_from_pointer_name (reverse_pointer_name ip ++ replicate dots DOT) = Some ip).
Proof.
  split; [apply address_from_spelled|]. intros ip dots Hip. apply address_from_spelled. split; [done|].
  assert (trim_end_matches DOT (reverse_pointer_name ip ++ replicate dots DOT) = reverse_pointer_name ip) as ->.
  { unfold trim_end_matches. rewrite rev_app_distr, (rev_alt (replicate _ _)).
    change (rev_append (replicate dots DOT) []) with (reverse (replicate dots DOT)). rewrite reverse_replicate.
    assert (forall n l, trim_start_matches DOT (replicate n DOT ++ l) = trim_start_matches DOT l) as ->
      by (induction n as [|n IH]; intros l; [done|]; cbn; apply IH).
    rewrite name_spelled by done. apply (zone_trimmed (join [DOT] (labels_of ip)) (arpa_zone ip)). destruct ip; auto. }
  pose proof (name_lowered ip Hip) as Hl. induction Hl as [|c s Hc _ IH]; [done|]. cbn. by rewrite Hc, IH.
Qed.

Lemma one_address_one_name_witness :
  address_from_pointer_name (reverse_pointer_name (V6 0x20010db8000000000000000000000001) ++ replicate 2 DOT)
  = Some (V6 0x20010db8000000000000000000000001).
Proof. apply one_address_one_name. split; vm_compute; discriminate. Defined.

(** ** Queries read back

    A reader of questions as the protocol has them, without compression: labels of at
    most 63 bytes up to an empty one, then a type and a class. *)

Fixpoint read_labels (fuel : nat) (bytes : list Z) : option (list (list Z) * list Z) :=
  match fuel, bytes with
  | S fuel, n :: rest =>
      if n =? 0 then Some ([], rest)
      else if n <=? 63 then
        '(label, rest) ← split_at_checked (Z.to_nat n) rest;
        '(labels, rest) ← read_labels fuel rest;
        Some (label :: labels, rest)
      else None
  | _, _ => None
  end.

Fixpoint read_questions (count : nat) (bytes : list Z) : option (list (list (list Z) * Z * Z) * list Z) :=
  match count with
  | O => Some ([], bytes)
  | S count =>
      '(labels, rest) ← read_labels (length bytes) bytes;
      kind ← first_chunk 2 rest;
      class ← first_chunk 2 (drop 2 rest);
      '(questions, rest) ← read_questions count (drop 4 rest);
      Some ((labels, from_be_bytes kind, from_be_bytes class) :: questions, rest)
  end.

Definition name_labels (name : text) : list text := split_by (Z.eqb DOT) (trim_end_matches DOT name).

Definition wire_labels (labels : list text) : list Z :=
  labels ≫= fun l => Z.of_nat (byte_len l) :: utf8_encode l.

(** The names the protocol can carry. *)
Definition name_writable (name : text) : Prop :=
  Forall (fun l => (1 <= byte_len l <= MAX_LABEL_OCTETS)%nat) (name_labels name) /\
  (length (wire_labels (name_labels name)) + 1 <= MAX_NAME_OCTETS)%nat.

(** What a refusal says of the name it names is so. *)
Definition fault_holds (name : text) (fault : NameFault) : Prop :=
  match fault with
  | EmptyLabel => exists l, l ∈ name_labels name /\ byte_len l = 0%nat
  | LongLabel l n => l ∈ name_labels name /\ byte_len l = n /\ (MAX_LABEL_OCTETS < n)%nat
  | LongName n => length (wire_labels (name_labels name)) + 1 = n /\ MAX_NAME_OCTETS < n
  end%nat.

Lemma encode_labels_cases name labels encoded :
  (encode_labels name labels encoded = Ok (encoded ++ wire_labels labels) /\
   Forall (fun l => (1 <= byte_len l <= MAX_LABEL_OCTETS)%nat) labels) \/
  (exists fault, encode_labels name labels encoded = Err (UnwritableName name fault) /\
   match fault with
   | EmptyLabel => exists l, l ∈ labels /\ byte_len l = 0%nat
   | LongLabel l n => l ∈ labels /\ byte_len l = n /\ (MAX_LABEL_OCTETS < n)%nat
   | LongName _ => False
   end).
Proof.
  revert encoded. induction labels as [|l labels IH]; intros encoded; cbn [encode_labels].
  - left. split; [by rewrite app_nil_r|constructor].
  - destruct (Nat.eqb_spec (byte_len l) 0) as [H0|H0].
    { right. exists EmptyLabel. split; [done|]. exists l. split; [left|done]. }
    destruct (Nat.ltb_spec MAX_LABEL_OCTETS (byte_len l)) as [Hl|Hl].
    { right. exists (LongLabel l (byte_len l)). split; [done|]. split; [left|done]. }
    destruct (IH (encoded ++ [wrap 8 (Z.of_nat (byte_len l))] ++ utf8_encode l)) as [[E H]|(fault & E & H)].
    + left. split; [|by constructor; [lia|]]. rewrite E. unfold wire_labels. rewrite bind_cons, <- !app_assoc.
      rewrite wrap_small; [done|]. unfold MAX_LABEL_OCTETS in Hl. lia.
    + right. exists fault. split; [done|]. destruct fault.
      * destruct H as (k & Hk & ?). exists k. split; [by right|done].
      * destruct H as (Hk & ?). split; [by right|done].
      * done.
Qed.

Lemma write_name_cases name out :
  (write_name name out = Ok (out ++ wire_labels (name_labels name) ++ [0]) /\ name_writable name) \/
  (exists fault, write_name name out = Err (UnwritableName name fault) /\ fault_holds name fault).
Proof.
  unfold write_name, name_writable. cbv zeta. fold (name_labels name).
  destruct (encode_labels_cases name (name_labels name) []) as [[-> H]|(fault & -> & H)]; cbn [try_ app].
  - rewrite length_app. cbn [length]. destruct (Nat.ltb_spec MAX_NAME_OCTETS (length (wire_labels (name_labels name)) + 1)).
    + right. eexists. split; [done|]. done.
    + left. done.
  - right. exists fault. split; [done|]. by destruct fault.
Qed.

Lemma unwritable name fault : fault_holds name fault -> name_writable name -> False.
Proof.
  intros Hf [Hl Hn]. rewrite Forall_forall in Hl. destruct fault as [|l n|n]; cbn in Hf.
  - destruct Hf as (l & Hin & H0). specialize (Hl l Hin). lia.
  - destruct Hf as (Hin & Hb & Hlong). specialize (Hl l Hin). lia.
  - lia.
Qed.

Lemma read_labels_wire labels rest fuel :
  Forall (fun l => (1 <= byte_len l <= MAX_LABEL_OCTETS)%nat) labels -> (length labels < fuel)%nat ->
  read_labels fuel (wire_labels labels ++ 0 :: rest) = Some (utf8_encode <$> labels, rest).
Proof.
  intros H. revert fuel. induction H as [|l labels Hl _ IH]; intros fuel Hf; destruct fuel as [|fuel]; [cbn in Hf; lia|done|cbn in Hf; lia|].
  unfold wire_labels. rewrite bind_cons. cbn [app read_labels]. unfold MAX_LABEL_OCTETS in Hl.
  rewrite (proj2 (Z.eqb_neq _ _)), (proj2 (Z.leb_le _ _)), Nat2Z.id by lia.
  rewrite <- app_assoc, split_at_checked_app by apply length_utf8_encode. cbn [mbind option_bind].
  fold (wire_labels labels). rewrite IH by (cbn in Hf; lia). done.
Qed.

Definition question_wire (q : text * Z) : list Z :=
  wire_labels (name_labels (fst q)) ++ 0 :: to_be_bytes 2 (snd q) ++ to_be_bytes 2 CLASS_IN.

Lemma write_questions_cases qs bytes :
  (write_questions qs bytes = Ok (bytes ++ (qs ≫= question_wire)) /\ Forall (fun q => name_writable (fst q)) qs) \/
  (exists q fault, write_questions qs bytes = Err (UnwritableName (fst q) fault) /\ q ∈ qs /\ fault_holds (fst q) fault).
Proof.
  revert bytes. induction qs as [|[name kind] qs IH]; intros bytes; cbn [write_questions].
  - left. split; [by rewrite app_nil_r|constructor].
  - destruct (write_name_cases name bytes) as [[-> Hn]|(fault & -> & Hf)]; cbn [try_].
    2:{ right. exists (name, kind), fault. split_and!; [done|left|done]. }
    destruct (IH ((bytes ++ wire_labels (name_labels name) ++ [0]) ++ to_be_bytes 2 kind ++ to_be_bytes 2 CLASS_IN))
      as [[-> H]|(q & fault & -> & Hq & Hf)].
    + left. split; [|by constructor]. rewrite bind_cons. unfold question_wire at 2. cbn [fst snd].
      by rewrite <- !app_assoc.
    + right. exists q, fault. split_and!; [done|by right|done].
Qed.

Lemma labels_length labels : (length labels <= length (wire_labels labels))%nat.
Proof.
  induction labels as [|l labels IH]; [done|]. unfold wire_labels in *. rewrite bind_cons, length_app. cbn [length]. lia.
Qed.

Lemma read_questions_wire qs rest : Forall (fun q => name_writable (fst q)) qs -> Forall (fun q => fits 16 (snd q)) qs ->
  read_questions (length qs) ((qs ≫= question_wire) ++ rest)
  = Some ((fun q => (utf8_encode <$> name_labels (fst q), snd q, CLASS_IN)) <$> qs, rest).
Proof.
  intros Hn Hk. induction Hn as [|[name kind] qs [Hn _] _ IH]; [done|]. apply Forall_cons in Hk as [Hk Hks]. cbn [fst snd] in *.
  rewrite bind_cons, <- app_assoc. set (tail := (qs ≫= question_wire) ++ rest) in *.
  unfold question_wire. cbn [fst snd]. rewrite <- !app_assoc. cbn [length read_questions app]. rewrite <- !app_assoc.
  rewrite read_labels_wire by (done || (rewrite length_app; cbn [length]; pose proof (labels_length (name_labels name)); lia)).
  cbn [mbind option_bind]. rewrite first_chunk_app by apply length_to_be_bytes. cbn [mbind option_bind].
  replace (drop 2 (to_be_bytes 2 kind ++ to_be_bytes 2 CLASS_IN ++ tail)) with (to_be_bytes 2 CLASS_IN ++ tail)
    by (rewrite drop_app_length'; [done|by rewrite length_to_be_bytes]).
  rewrite first_chunk_app by apply length_to_be_bytes. cbn [mbind option_bind].
  replace (drop 4 (to_be_bytes 2 kind ++ to_be_bytes 2 CLASS_IN ++ tail)) with tail
    by (rewrite app_assoc, drop_app_length'; [done|by rewrite length_app, !length_to_be_bytes]).
  rewrite IH by done. cbn [mbind option_bind]. by rewrite !from_to_be_bytes.
Qed.

(** *** The query for a reverse name *)

Lemma reverse_labels ip : ip_fits ip ->
  name_labels (reverse_pointer_name ip)
  = labels_of ip ++ match ip with V4 _ => [lit "in-addr"; lit "arpa"] | V6 _ => [lit "ip6"; lit "arpa"] end.
Proof.
  intros H. unfold name_labels. rewrite name_spelled, zone_trimmed by (try done; destruct ip; auto).
  assert (forall ls tail, ls <> [] -> tail <> [] -> Forall (Forall (fun x => (DOT =? x) = false)) (ls ++ tail) ->
    split_by (Z.eqb DOT) (join [DOT] ls ++ [DOT] ++ join [DOT] tail) = ls ++ tail) as Hj.
  { intros ls tail Hls Htail Hp. rewrite <- (split_by_join (Z.eqb DOT) DOT (ls ++ tail)) by (try done; by destruct ls). f_equal.
    clear Hp. induction ls as [|l ls IH]; [done|]. destruct ls as [|k ls]; [by destruct tail|].
    change (join [DOT] (l :: k :: ls)) with (l ++ [DOT] ++ join [DOT] (k :: ls)).
    change (join [DOT] ((l :: k :: ls) ++ tail)) with (l ++ [DOT] ++ join [DOT] ((k :: ls) ++ tail)).
    rewrite <- IH by done. by rewrite <- !app_assoc. }
  assert (Forall (Forall (fun x => (DOT =? x) = false)) (labels_of ip)) as Hp.
  { eapply Forall_impl; [by apply labels_plain|]. intros l Hl. eapply Forall_impl; [exact Hl|]. by intros x [Hx _]. }
  destruct ip as [a|a].
  - apply (Hj (labels_of (V4 a)) [lit "in-addr"; lit "arpa"]); [apply labels_nonempty|done|].
    apply Forall_app_2; [done|]. repeat constructor.
  - apply (Hj (labels_of (V6 a)) [lit "ip6"; lit "arpa"]); [apply labels_nonempty|done|].
    apply Forall_app_2; [done|]. repeat constructor.
Qed.

Lemma wire_labels_app a b : wire_labels (a ++ b) = wire_labels a ++ wire_labels b.
Proof. apply bind_app. Qed.

Lemma length_wire_labels labels k : Forall (fun l => (byte_len l <= k)%nat) labels ->
  (length (wire_labels labels) <= (k + 1) * length labels)%nat.
Proof.
  induction 1 as [|l labels Hl _ IH]; [cbn; lia|]. unfold wire_labels in *. rewrite bind_cons, length_app.
  cbn [length]. rewrite length_utf8_encode. lia.
Qed.

Lemma reverse_name_writable ip : ip_fits ip -> name_writable (reverse_pointer_name ip).
Proof.
  intros H. unfold name_writable. rewrite reverse_labels by done. rewrite wire_labels_app, length_app.
  destruct ip as [a|a].
  - assert (Forall (fun l => (1 <= byte_len l <= 3)%nat) (labels_of (V4 a))) as Hl.
    { apply Forall_fmap, Forall_rev. apply (Forall_impl (fits 8)); [apply to_be_bytes_ok|]. intros n Hn.
      change (1 <= byte_len (show_uint n) <= 3)%nat. split; [|by apply octet_show]. pose proof (show_uint_nonempty n) as Hne.
      destruct (show_uint n) as [|c s]; [done|]. change (byte_len (c :: s)) with (len_utf8 c + byte_len s)%nat.
      assert (1 <= len_utf8 c)%nat by (unfold len_utf8; repeat case_match; lia). lia. }
    split.
    + apply Forall_app_2; [|repeat (apply Forall_cons_2; [vm_compute; lia|]); apply Forall_nil_2].
      eapply Forall_impl; [exact Hl|]. intros l Hb. cbn in *. unfold MAX_LABEL_OCTETS. lia.
    + pose proof (length_wire_labels (labels_of (V4 a)) 3) as Hw. assert (length (labels_of (V4 a)) = 4%nat) as H4 by done. rewrite H4 in Hw.
      change (length (wire_labels [lit "in-addr"; lit "arpa"])) with 13%nat. unfold MAX_NAME_OCTETS.
      specialize (Hw ltac:(eapply Forall_impl; [exact Hl|]; cbn; lia)). lia.
  - assert (Forall (fun l => (byte_len l = 1)%nat) (labels_of (V6 a)) /\ length (labels_of (V6 a)) = 32%nat) as [Hl H32].
    { cbn [labels_of]. pose proof (Forall_rev (to_be_bytes_ok 16 a)) as Hok.
      assert (length (rev (to_be_bytes 16 a)) = 16%nat) as H16 by (by rewrite length_rev, length_to_be_bytes).
      assert (forall bs, Forall (fits 8) bs -> Forall (fun l => (byte_len l = 1)%nat) (bs ≫= byte_labels) /\
        length (bs ≫= byte_labels) = (2 * length bs)%nat) as Hg.
      { induction 1 as [|b bs Hb _ [IH1 IH2]]; [done|]. rewrite bind_cons. split.
        - apply Forall_app_2; [|done]. destruct (nibbles_of b Hb) as (Hm & Hd & _). unfold byte_labels.
          repeat (apply Forall_cons_2; [|]); try apply Forall_nil_2; cbn; unfold len_utf8, nibble_char; repeat case_match; lia.
        - rewrite length_app, IH2. cbn. lia. }
      destruct (Hg _ Hok) as [? Hlen]. split; [done|]. rewrite Hlen. lia. }
    split.
    + apply Forall_app_2; [|repeat (apply Forall_cons_2; [vm_compute; lia|]); apply Forall_nil_2].
      eapply Forall_impl; [exact Hl|]. intros l Hb. cbn in *. unfold MAX_LABEL_OCTETS. lia.
    + pose proof (length_wire_labels (labels_of (V6 a)) 1) as Hw. rewrite H32 in Hw.
      change (length (wire_labels [lit "ip6"; lit "arpa"])) with 9%nat. unfold MAX_NAME_OCTETS.
      specialize (Hw ltac:(eapply Forall_impl; [exact Hl|]; cbn; lia)). lia.
Qed.

(** C38: A query that is built reads back as what it was built from, and it is built whenever
    it can be.  The names the protocol can carry (no empty label, labels of at most 63 bytes,
    255 on the wire) and no others are written, once all the dots at their end are taken off,
    so a name that ends in two dots is written, which the documentation has as an error.  The
    bytes then hold the identifier, the flags, the number of questions modulo 2^16 (so a
    query of 65536 says it has none) and no other section, and questions whose labels are the
    name's with their types in the internet class.  Otherwise the error names a name of the
    query and what is wrong with it.  The query for the reverse name of an address is always
    built. *)
Theorem query_reads_back (id : Z) (rd : bool) (questions : list (text * Z)) :
  fits 16 id -> Forall (fun q => fits 16 (snd q)) questions ->
  (forall bytes, build_query id rd questions = Ok bytes ->
     Forall (fun q => name_writable (fst q)) questions /\
     from_be_bytes (take 2 bytes) = id /\
     from_be_bytes (take 2 (drop 2 bytes)) = (if rd then FLAG_RECURSION_DESIRED else 0) /\
     from_be_bytes (take 2 (drop 4 bytes)) = wrap 16 (Z.of_nat (length questions)) /\
     take 6 (drop 6 bytes) = [0; 0; 0; 0; 0; 0] /\
     read_questions (length questions) (drop DNS_HDR_LEN bytes)
     = Some ((fun q => (utf8_encode <$> name_labels (fst q), snd q, CLASS_IN)) <$> questions, [])) /\
  (forall e, build_query id rd questions = Err e ->
     exists q fault, q ∈ questions /\ e = UnwritableName (fst q) fault /\ fault_holds (fst q) fault /\ ~ name_writable (fst q)) /\
  (forall ip, ip_fits ip -> exists bytes, build_ptr_packet ip id = Some bytes).
Proof.
  intros Hid Hk. unfold build_ptr_packet, build_query. split_and!.
  - intros bytes. set (flags := if rd then _ else _).
    set (count := wrap 16 (Z.of_nat (length questions))). assert (fits 16 count) as Hn by (apply wrap_fits; lia).
    set (header := to_be_bytes 2 id ++ to_be_bytes 2 flags ++ to_be_bytes 2 count ++ repeat 0 6).
    destruct (write_questions_cases questions header) as [[-> Hw]|(q & fault & -> & _)]; [|done].
    intros E. assert (header ++ (questions ≫= question_wire) = bytes) as <- by congruence. clear E.
    assert (fits 16 flags) as Hfl by (unfold flags; destruct rd; split; vm_compute; discriminate).
    split_and!; [done| | | | |].
    + unfold header. rewrite <- !app_assoc, take_app_length' by (by rewrite length_to_be_bytes). by apply from_to_be_bytes.
    + unfold header. rewrite <- !app_assoc, drop_app_length', take_app_length' by (by rewrite length_to_be_bytes).
      by apply from_to_be_bytes.
    + unfold header. rewrite <- !app_assoc, app_assoc.
      rewrite drop_app_length' by (by rewrite length_app, !length_to_be_bytes).
      rewrite take_app_length' by (by rewrite length_to_be_bytes). by apply from_to_be_bytes.
    + unfold header. rewrite <- !app_assoc, 2!app_assoc.
      rewrite drop_app_length' by (by rewrite !length_app, !length_to_be_bytes). by rewrite take_app_length'.
    + rewrite drop_app_length' by (unfold header; by rewrite !length_app, !length_to_be_bytes).
      rewrite <- (app_nil_r (questions ≫= question_wire)). by apply read_questions_wire.
  - intros e. destruct (write_questions_cases questions
      (to_be_bytes 2 id ++ to_be_bytes 2 (if rd then FLAG_RECURSION_DESIRED else 0)
       ++ to_be_bytes 2 (wrap 16 (Z.of_nat (length questions))) ++ repeat 0 6)) as [[-> _]|(q & fault & -> & Hq & Hf)]; [done|].
    intros [= <-]. exists q, fault. split_and!; [done|done|done|]. intros Hw. by eapply unwritable.
  - intros ip Hip. cbn [length].
    destruct (write_questions_cases [(reverse_pointer_name ip, RECORD_PTR)]
      (to_be_bytes 2 id ++ to_be_bytes 2 FLAG_RECURSION_DESIRED ++ to_be_bytes 2 (wrap 16 (Z.of_nat 1)) ++ repeat 0 6))
      as [[-> _]|(q & fault & -> & Hq & Hf)]; [by eexists|].
    apply list_elem_of_singleton in Hq as ->. exfalso. eapply unwritable; [exact Hf|]. by apply reverse_name_writable.
Qed.

(** Two dots at the end of a name are trimmed as one is; two before its last label are an
    error. *)
Theorem trailing_dots_are_trimmed :
  build_query 7 false [(lit "a..", 1)] = build_query 7 false [(lit "a", 1)] /\
  build_query 7 false [(lit "a..b", 1)] = Err (UnwritableName (lit "a..b") EmptyLabel).
Proof. split; vm_compute; reflexivity. Qed.

Lemma query_reads_back_witness :
  exists bytes, build_query 7 false [(lit "printer.local.", 12)] = Ok bytes /\
    read_questions 1 (drop DNS_HDR_LEN bytes) = Some ([([lit "printer"; lit "local"], 12, CLASS_IN)], []) /\
    (exists bytes, build_ptr_packet (V4 0xC0000201) 7 = Some bytes).
Proof.
  destruct (query_reads_back 7 false [(lit "printer.local.", 12)]) as (Hok & _ & Hptr).
  - split; vm_compute; discriminate.
  - apply Forall_cons_2; [split; vm_compute; discriminate|apply Forall_nil_2].
  - eexists. split; [vm_compute; reflexivity|]. split.
    + destruct (Hok _ ltac:(vm_compute; reflexivity)) as (_ & _ & _ & _ & _ & H). exact H.
    + apply Hptr. split; vm_compute; discriminate.
Defined.
