(* ===== verification/Netbios.v ===== *)
(** * NetBIOS name tables

    [src/src/protocols/netbios.rs]: the names a Windows machine registered, out of its
    answer to a node-status query.  A table laid out on the wire is read back name by
    name, and a table cut short of its names is refused whole. *)

From Stdlib Require Import ZArith Lia String.
From stdpp Require Import base numbers sets option list.
From S2P Require Import Prelude Std Text Intervals IpRange Utf8 AddrText Packet.

Local Open Scope Z_scope.

(** ** Definitions *)

(** *** [String::from_utf8_lossy]

    Bytes that are no character are replaced, as many at once as could have begun one. *)

Definition REPLACEMENT : Z := 0xFFFD.

Definition invalid_len (bytes : list Z) : nat :=
  match bytes with
  | b0 :: b1 :: rest =>
      if (in_range 0xE0 0xEF b0 || in_range 0xF0 0xF4 b0) && second_ok b0 b1 then
        match rest with
        | b2 :: _ => if in_range 0xF0 0xF4 b0 && is_cont b2 then 3 else 2
        | [] => 2
        end
      else 1
  | _ => 1
  end%nat.

(** Each turn takes at least one byte, so the length is fuel enough. *)
Fixpoint lossy_from (fuel : nat) (bytes : list Z) : text :=
  match bytes, fuel with
  | [], _ => []
  | _, O => []
  | _, S fuel =>
      match decode_char bytes with
      | Some (c, rest) => c :: lossy_from fuel rest
      | None => REPLACEMENT :: lossy_from fuel (drop (invalid_len bytes) bytes)
      end
  end.

Definition from_utf8_lossy (bytes : list Z) : text := lossy_from (length bytes) bytes.

(** *** The table *)

Definition SUFFIX_DOMAIN_CONTROLLERS : Z := 0x1C.

Definition SUFFIX_DOMAIN_MASTER_BROWSER : Z := 0x1B.

Definition FLAG_GROUP : Z := 0x8000.

Definition HEADER_BYTES : nat := 12.

Definition ENCODED_NAME_BYTES : nat := 34.

Definition ANSWER_FIXED_BYTES : nat := 2 + 2 + 4 + 2.

Definition ENTRY_BYTES : nat := 18.

Definition FLAG_RESPONSE : Z := 0x8000.

Record RegisteredName := mkRegistered { reg_name : text; reg_suffix : Z; reg_group : bool }.

Record NameTable := mkNameTable { nt_names : list RegisteredName; nt_unit_id : list Z }.

#[export] Instance RegisteredName_eq_dec : EqDecision RegisteredName.
Proof. solve_decision. Defined.

#[export] Instance NameTable_eq_dec : EqDecision NameTable.
Proof. solve_decision. Defined.

Definition domain_controller (t : NameTable) : bool :=
  existsb (fun entry =>
    ((reg_suffix entry =? SUFFIX_DOMAIN_CONTROLLERS) && reg_group entry)
    || ((reg_suffix entry =? SUFFIX_DOMAIN_MASTER_BROWSER) && negb (reg_group entry))) (nt_names t).

Definition workstation (t : NameTable) : option text :=
  reg_name <$> List.find (fun entry =>
    (reg_suffix entry =? 0x00) && negb (reg_group entry) && bool_decide (reg_name entry <> [])) (nt_names t).

Definition nt_domain (t : NameTable) : option text :=
  reg_name <$> List.find (fun entry =>
    (reg_suffix entry =? 0x00) && reg_group entry && bool_decide (reg_name entry <> [])) (nt_names t).

(** The body of the loop over the entries. *)
Definition read_name_entry (rdata : list Z) (index : nat) : option RegisteredName :=
  let at_ := (1 + index * ENTRY_BYTES)%nat in
  entry ← get_range at_ (at_ + ENTRY_BYTES) rdata;
  suffix ← entry !! 15%nat; f0 ← entry !! 16%nat; f1 ← entry !! 17%nat;
  let flags := from_be_bytes [f0; f1] in
  Some (mkRegistered (trim (from_utf8_lossy (take 15 entry))) suffix (negb (Z.land flags FLAG_GROUP =? 0))).

Definition node_status (datagram : list Z) : option NameTable :=
  f0 ← datagram !! 2%nat; f1 ← datagram !! 3%nat;
  if Z.land (from_be_bytes [f0; f1]) FLAG_RESPONSE =? 0 then None
  else
    a0 ← datagram !! 6%nat; a1 ← datagram !! 7%nat;
    if from_be_bytes [a0; a1] =? 0 then None
    else
      rdata ← get_from (HEADER_BYTES + ENCODED_NAME_BYTES + ANSWER_FIXED_BYTES) datagram;
      count ← head rdata;
      let count := Z.to_nat count in
      names ← mapM (read_name_entry rdata) (seq 0 count);
      let statistics := (1 + count * ENTRY_BYTES)%nat in
      let unit_id := default [0; 0; 0; 0; 0; 0] (get_range statistics (statistics + 6) rdata) in
      Some (mkNameTable names unit_id).

(** ** The layout of a response *)

(** One entry: a name with spaces around it to fifteen bytes, the suffix, the flags. *)
Record TableEntry := mkEntry { en_front : nat; en_name : text; en_back : nat; en_suffix : Z; en_flags : Z }.

Definition entry_layout (e : TableEntry) : list Z :=
  replicate (en_front e) 32 ++ utf8_encode (en_name e) ++ replicate (en_back e) 32
  ++ [en_suffix e] ++ to_be_bytes 2 (en_flags e).

Definition table_entry_ok (e : TableEntry) : Prop :=
  (en_front e + byte_len (en_name e) + en_back e = 15)%nat /\ Forall scalar (en_name e) /\ trim (en_name e) = en_name e /\
  fits 16 (en_flags e).

(** What an entry registers; a name is a group's by the top bit of its flags. *)
Definition registered (e : TableEntry) : RegisteredName :=
  mkRegistered (en_name e) (en_suffix e) (0x8000 <=? en_flags e).

(** The bytes before the table: identifier, flags, counts, the name asked about, and
    the type, class, lifetime and length of the answer. *)
Definition response_head (id : Z) (flags questions answers : Z) (rest : list Z) : list Z :=
  to_be_bytes 2 id ++ to_be_bytes 2 flags ++ to_be_bytes 2 questions ++ to_be_bytes 2 answers ++ rest.

Example two_names :
  node_status (response_head 1 0x8400 0 1 (repeat 0 48) ++ [2] ++ entry_layout (mkEntry 0 (lit "FILESERVER") 5 0x20 0x0400)
    ++ entry_layout (mkEntry 0 (lit "CORP") 11 0x1C 0x8400) ++ [1; 2; 3; 4; 5; 6; 7])
  = Some (mkNameTable [mkRegistered (lit "FILESERVER") 0x20 false; mkRegistered (lit "CORP") 0x1C true] [1; 2; 3; 4; 5; 6]).
Proof. vm_compute. reflexivity. Qed.

Example lossy : from_utf8_lossy [65; 0xE2; 0x82; 66; 0xFF; 0xF0; 0x9F; 0x98] = [65; REPLACEMENT; 66; REPLACEMENT; REPLACEMENT].
Proof. vm_compute. reflexivity. Qed.

(** ** Names *)

Lemma lossy_encode fuel t : Forall scalar t -> (length (utf8_encode t) <= fuel)%nat -> lossy_from fuel (utf8_encode t) = t.
Proof.
  intros Ht. revert fuel. induction Ht as [|c t Hc _ IH]; intros fuel Hf; [by destruct fuel|].
  assert (utf8_encode (c :: t) = encode_char c ++ utf8_encode t) as E by done. rewrite E in *.
  pose proof (encode_char_nonempty c) as Hne. rewrite length_app in Hf.
  destruct (encode_char c ++ utf8_encode t) as [|b bytes] eqn:Eb; [by apply app_eq_nil in Eb as [? _]|].
  destruct fuel as [|fuel]; [destruct (encode_char c); [done|cbn in Hf; lia]|]. cbn [lossy_from].
  rewrite <- Eb, decode_char_encode by done. f_equal. apply IH. destruct (encode_char c); [done|cbn in Hf; lia].
Qed.

Lemma spaces_encode n : utf8_encode (replicate n 32) = replicate n 32.
Proof. induction n as [|n IH]; [done|]. unfold utf8_encode in *. cbn [replicate]. by rewrite bind_cons, IH. Qed.

Lemma trim_start_spaces n s : trim_start (replicate n 32 ++ s) = trim_start s.
Proof. induction n as [|n IH]; [done|]. cbn. apply IH. Qed.

Lemma rev_spaces n : rev (replicate n 32) = replicate n 32.
Proof.
  rewrite rev_alt. change (rev_append (replicate n 32) []) with (reverse (replicate n 32)). apply reverse_replicate.
Qed.

(** Spaces around a trimmed name are all that is trimmed. *)
Lemma trim_padded m t n : trim t = t -> trim (replicate m 32 ++ t ++ replicate n 32) = t.
Proof.
  intros Ht. unfold trim in *. rewrite trim_start_spaces. destruct t as [|c t].
  { cbn [app]. rewrite <- (app_nil_r (replicate n 32)), trim_start_spaces. done. }
  assert (trim_start (c :: t) = c :: t) as Hs.
  { destruct (trim_start_suffix (c :: t)) as [p Hp], (trim_start_suffix (rev (trim_start (c :: t)))) as [q Hq].
    assert (length (rev (trim_start (rev (trim_start (c :: t))))) <= length (trim_start (c :: t)))%nat as Hle.
    { apply (f_equal length) in Hq. rewrite length_app, length_rev in Hq. rewrite length_rev. lia. }
    rewrite Ht in Hle. apply (f_equal length) in Hp as Hpl. rewrite length_app in Hpl.
    destruct p; [done|]. cbn [length] in *. lia. }
  assert (trim_start ((c :: t) ++ replicate n 32) = (c :: t) ++ replicate n 32) as ->.
  { cbn in Hs |- *. destruct (is_whitespace c); [|done]. exfalso.
    destruct (trim_start_suffix t) as [p Hp]. apply (f_equal length) in Hp, Hs. rewrite length_app in Hp. cbn in Hs. lia. }
  rewrite rev_app_distr, rev_spaces, trim_start_spaces. by rewrite Hs in Ht.
Qed.

Lemma length_entry_layout e : table_entry_ok e -> length (entry_layout e) = ENTRY_BYTES.
Proof.
  intros (Hl & _). unfold entry_layout. rewrite !length_app, !length_replicate, length_to_be_bytes, length_utf8_encode.
  cbn [length]. unfold ENTRY_BYTES. lia.
Qed.

Lemma high_bit flags : fits 16 flags -> negb (Z.land flags 0x8000 =? 0) = (0x8000 <=? flags).
Proof.
  intros Hf. pose proof (land_bit 15 flags ltac:(lia)) as E. change (2 ^ 15) with 0x8000 in E. rewrite E. clear E.
  rewrite Z.testbit_odd, Z.shiftr_div_pow2 by lia. change (2 ^ 15) with 0x8000.
  destruct (Z.leb_spec 0x8000 flags).
  - replace (flags / 0x8000) with 1; [done|]. apply (Z.div_unique_pos _ _ _ (flags - 0x8000)); mlia.
  - rewrite Z.div_small by mlia. done.
Qed.

Lemma length_entries es : Forall table_entry_ok es -> length (es ≫= entry_layout) = (length es * ENTRY_BYTES)%nat.
Proof.
  induction 1 as [|e es He _ IH]; [done|]. rewrite bind_cons, length_app, IH, length_entry_layout by done. cbn [length]. lia.
Qed.

Lemma read_entry_layout c es stats i e : Forall table_entry_ok es -> es !! i = Some e ->
  read_name_entry (c :: (es ≫= entry_layout) ++ stats) i = Some (registered e).
Proof.
  intros Hes Hi. pose proof (Forall_lookup_1 _ _ _ _ Hes Hi) as He. pose proof (length_entry_layout e He) as H18.
  rewrite <- (take_drop_middle es i e Hi), bind_app, bind_cons. unfold read_name_entry.
  rewrite <- !app_assoc.
  change (c :: (take i es ≫= entry_layout) ++ entry_layout e ++ (drop (S i) es ≫= entry_layout) ++ stats)
    with ((c :: (take i es ≫= entry_layout)) ++ entry_layout e ++ (drop (S i) es ≫= entry_layout) ++ stats).
  rewrite get_range_app; [|cbn [length]; rewrite length_entries by (by apply Forall_take);
    apply lookup_lt_Some in Hi; rewrite length_take; lia|lia].
  cbn [mbind option_bind]. destruct He as (Hl & Hs & Ht & Hf).
  set (name := replicate (en_front e) 32 ++ utf8_encode (en_name e) ++ replicate (en_back e) 32).
  assert (length name = 15%nat) as H15 by (unfold name; rewrite !length_app, !length_replicate, length_utf8_encode; lia).
  assert (entry_layout e = name ++ [en_suffix e; en_flags e / 256 mod 256; en_flags e mod 256]) as ->
    by (unfold entry_layout, name; by rewrite to_be_bytes_2, <- !app_assoc).
  rewrite !lookup_app_r, H15 by lia. cbn [Nat.sub lookup list_lookup mbind option_bind].
  rewrite take_app_length' by done. rewrite <- to_be_bytes_2, from_to_be_bytes by done.
  unfold registered, FLAG_GROUP. rewrite high_bit by done. do 2 f_equal.
  assert (name = utf8_encode (replicate (en_front e) 32 ++ en_name e ++ replicate (en_back e) 32)) as Hn.
  { unfold name, utf8_encode. rewrite !bind_app. pose proof spaces_encode as Hsp. unfold utf8_encode in Hsp. by rewrite !Hsp. }
  rewrite Hn. unfold from_utf8_lossy. rewrite lossy_encode; [by apply trim_padded| |lia].
  repeat apply Forall_app_2; try done; apply Forall_replicate; left; lia.
Qed.

(** ** Tables *)

(** A table that is read has the names it counts, and the bytes for them. *)
Lemma node_status_backed d t : node_status d = Some t ->
  exists count, d !! 56%nat = Some count /\ length (nt_names t) = Z.to_nat count /\
    (57 + Z.to_nat count * ENTRY_BYTES <= length d)%nat.
Proof.
  unfold node_status. intros H.
  destruct (d !! 2%nat) as [f0|]; [|done]. destruct (d !! 3%nat) as [f1|]; [|done]. cbn [mbind option_bind] in H.
  destruct (Z.land _ _ =? 0); [done|].
  destruct (d !! 6%nat) as [a0|]; [|done]. destruct (d !! 7%nat) as [a1|]; [|done]. cbn [mbind option_bind] in H.
  destruct (from_be_bytes [a0; a1] =? 0); [done|].
  destruct (get_from _ d) as [rdata|] eqn:Er; [|done]. apply get_from_Some in Er as (front & -> & Hfront). cbn [mbind option_bind] in H.
  destruct rdata as [|count rdata]; [done|]. cbn [head mbind option_bind] in H.
  destruct (mapM _ _) as [names|] eqn:Em; [|done]. cbn [mbind option_bind] in H. injection H as <-. cbn [nt_names].
  apply mapM_Some in Em. pose proof (Forall2_length _ _ _ Em) as Hlen. rewrite length_seq in Hlen.
  change (HEADER_BYTES + ENCODED_NAME_BYTES + ANSWER_FIXED_BYTES)%nat with 56%nat in Hfront.
  exists count. split_and!; [by rewrite list_lookup_middle by done|done|].
  rewrite length_app, Hfront. destruct (Z.to_nat count) as [|n] eqn:En; [cbn [length]; lia|].
  destruct (Forall2_lookup_l _ _ _ n n Em) as (y & _ & Hy); [rewrite lookup_seq; lia|].
  unfold read_name_entry in Hy. destruct (get_range _ _ (count :: rdata)) as [e|] eqn:Eg; [|done].
  apply get_range_Some in Eg as (a & c & Ha & Hla & Hlb). apply (f_equal length) in Ha. rewrite !length_app in Ha. lia.
Qed.

Lemma lookup_head id flags questions answers rest :
  let d := response_head id flags questions answers rest in
  d !! 2%nat = Some (flags / 256 mod 256) /\ d !! 3%nat = Some (flags mod 256) /\
  d !! 6%nat = Some (answers / 256 mod 256) /\ d !! 7%nat = Some (answers mod 256).
Proof. by unfold response_head; rewrite !to_be_bytes_2. Qed.

(** A NetBIOS name table is read back, and only whole.  Whatever names a machine
    registered, laid out in an answer to a node-status query: the table read has those
    names in that order, without the spaces around them, each with its suffix and
    whether it is a group's, and the adapter's address where the answer goes on that
    far and zeros where it does not.  The same answer cut anywhere before the end of
    its last name is refused; so is a query, and an answer that counts no answers. *)
Theorem name_table_reads_back (id flags questions answers : Z) (rest : list Z) (es : list TableEntry) (stats : list Z) :
  fits 16 flags -> fits 16 answers -> length rest = 48%nat -> (length es <= 255)%nat -> Forall table_entry_ok es ->
  let d := response_head id flags questions answers rest ++ Z.of_nat (length es) :: (es ≫= entry_layout) ++ stats in
  (node_status d =
   if (0x8000 <=? flags) && negb (answers =? 0) then
     Some (mkNameTable (registered <$> es) (if (6 <=? length stats)%nat then take 6 stats else [0; 0; 0; 0; 0; 0]))
   else None) /\
  (forall cut, (cut < 57 + length es * ENTRY_BYTES)%nat -> node_status (take cut d) = None).
Proof.
  intros Hf Ha Hr Hn Hes d.
  set (table := Z.of_nat (length es) :: (es ≫= entry_layout) ++ stats) in *.
  assert (length (response_head id flags questions answers rest) = 56%nat) as Hh
    by (unfold response_head; by rewrite !length_app, !length_to_be_bytes, Hr).
  split.
  - unfold node_status. destruct (lookup_head id flags questions answers rest) as (L2 & L3 & L6 & L7).
    unfold d. rewrite !lookup_app_l by lia. rewrite L2, L3, L6, L7. cbn [mbind option_bind].
    rewrite <- !to_be_bytes_2, !from_to_be_bytes by done.
    pose proof (high_bit flags Hf) as Hb. unfold FLAG_RESPONSE. destruct (Z.land flags 0x8000 =? 0); cbn [negb] in Hb;
      rewrite <- Hb; [done|]. cbn [andb]. destruct (answers =? 0); [done|]. cbn [negb].
    rewrite get_from_app by done. cbn [mbind option_bind].
    change (head table) with (Some (Z.of_nat (length es))). cbn [mbind option_bind]. rewrite Nat2Z.id.
    assert (mapM (read_name_entry table) (seq 0 (length es)) = Some (registered <$> es)) as ->.
    { apply mapM_Some, Forall2_same_length_lookup. split; [by rewrite length_seq, length_fmap|].
      intros i x y [-> Hi]%lookup_seq Hy. rewrite list_lookup_fmap in Hy.
      destruct (es !! i) as [e|] eqn:Ei; [|done]. injection Hy as <-. by apply read_entry_layout. }
    cbn [mbind option_bind]. do 2 f_equal.
    assert (length (Z.of_nat (length es) :: (es ≫= entry_layout)) = (1 + length es * ENTRY_BYTES)%nat) as Ht
      by (cbn [length]; by rewrite length_entries).
    change table with ((Z.of_nat (length es) :: (es ≫= entry_layout)) ++ stats).
    destruct (Nat.leb_spec 6 (length stats)) as [H6|H6].
    + destruct (split_exact 6 stats H6) as (u & w & -> & Hu). rewrite get_range_app by lia.
      cbn [default]. by rewrite take_app_length'.
    + unfold get_range. rewrite andb_comm, (proj2 (Nat.leb_gt _ _)) by (rewrite length_app, Ht; lia). done.
  - intros cut Hcut. destruct (node_status (take cut d)) as [t|] eqn:E; [|done]. exfalso.
    apply node_status_backed in E as (count & Hc & _ & Hl). rewrite length_take in Hl.
    assert (d !! 56%nat = Some (Z.of_nat (length es))) as Hd.
    { unfold d, table. rewrite lookup_app_r by lia. rewrite Hh. done. }
    apply lookup_take_Some in Hc as [Hc _]. assert (count = Z.of_nat (length es)) as -> by congruence.
    rewrite Nat2Z.id in Hl. lia.
Qed.

Lemma name_table_reads_back_witness :
  let es := [mkEntry 0 [70; 83] 13 0x20 0x0400; mkEntry 1 [67] 13 0x1C 0x8400] in
  let d := response_head 1 0x8400 0 1 (repeat 0 48) ++ 2 :: (es ≫= entry_layout) ++ [1; 2; 3] in
  node_status d = Some (mkNameTable [mkRegistered [70; 83] 0x20 false; mkRegistered [67] 0x1C true] [0; 0; 0; 0; 0; 0]) /\
  node_status (take 92 d) = None.
Proof.
  destruct (name_table_reads_back 1 0x8400 0 1 (repeat 0 48)
    [mkEntry 0 [70; 83] 13 0x20 0x0400; mkEntry 1 [67] 13 0x1C 0x8400] [1; 2; 3]) as [H1 H2].
  - split; vm_compute; discriminate.
  - split; vm_compute; discriminate.
  - reflexivity.
  - apply Nat.leb_le. reflexivity.
  - repeat (apply Forall_cons_2; [split_and!; [reflexivity| |reflexivity|split; vm_compute; discriminate]|]); try apply Forall_nil_2;
      repeat (apply Forall_cons_2; [left; cbn; lia|]); apply Forall_nil_2.
  - split; [exact H1|]. apply H2. apply Nat.ltb_lt. reflexivity.
Defined.
