(* ===== verification/Tls.v ===== *)
(** * TLS handshake probes

    [src/src/protocols/tls.rs], with the versions of [src/src/model/tls.rs]: the hello an
    enumeration sends and the first record that comes back.  A hello reads back as the
    offer it was built from, and a server's answer as the terms it chose, whatever else
    its record carries. *)

From Stdlib Require Import ZArith Lia String.
From stdpp Require Import base numbers sets option list.
From S2P Require Import Prelude Std Text Intervals IpRange Utf8 AddrText Packet.

Local Open Scope Z_scope.

(** ** Definitions *)

Definition CONTENT_HANDSHAKE : Z := 22.
Definition CONTENT_ALERT : Z := 21.

Definition CLIENT_HELLO : Z := 1.
Definition SERVER_HELLO : Z := 2.

Definition EXT_SERVER_NAME : Z := 0.
Definition EXT_SUPPORTED_GROUPS : Z := 10.
Definition EXT_EC_POINT_FORMATS : Z := 11.
Definition EXT_SIGNATURE_ALGORITHMS : Z := 13.
Definition EXT_SUPPORTED_VERSIONS : Z := 43.
Definition EXT_KEY_SHARE : Z := 51.

Definition HELLO_RETRY_RANDOM : list Z :=
  [0xCF; 0x21; 0xAD; 0x74; 0xE5; 0x9A; 0x61; 0x11; 0xBE; 0x1D; 0x8C; 0x02; 0x1E; 0x65; 0xB8; 0x91;
   0xC2; 0xA2; 0x11; 0x16; 0x7A; 0xBB; 0x8C; 0x5E; 0x07; 0x9E; 0x09; 0xE2; 0xC8; 0xA8; 0x33; 0x9C].

Definition RECORD_HEADER_LEN : nat := 5.

Definition HANDSHAKE_HEADER_LEN : nat := 4.

Definition MAX_RECORD_LEN : Z := 16384 + 2048.

Definition SUPPORTED_GROUPS : list Z := [0x001D; 0x0017; 0x0018; 0x0019; 0x0100; 0x0101; 0x0102].

Definition SIGNATURE_ALGORITHMS : list Z :=
  [0x0403; 0x0503; 0x0603; 0x0807; 0x0804; 0x0805; 0x0806; 0x0401; 0x0501; 0x0601; 0x0402; 0x0201; 0x0203; 0x0202].

Definition KEY_SHARE_GROUP : Z := 0x001D.
Definition KEY_SHARE_LEN : Z := 32.

Inductive TlsVersion := Ssl30 | Tls10 | Tls11 | Tls12 | Tls13.

#[export] Instance TlsVersion_eq_dec : EqDecision TlsVersion.
Proof. solve_decision. Defined.

Definition version_code (v : TlsVersion) : Z :=
  match v with Ssl30 => 0x0300 | Tls10 => 0x0301 | Tls11 => 0x0302 | Tls12 => 0x0303 | Tls13 => 0x0304 end.

Definition version_from_code (code : Z) : option TlsVersion :=
  if code =? 0x0300 then Some Ssl30
  else if code =? 0x0301 then Some Tls10
  else if code =? 0x0302 then Some Tls11
  else if code =? 0x0303 then Some Tls12
  else if code =? 0x0304 then Some Tls13
  else None.

(** A suite is offered by its number; the name is in bytes. *)
Record Offer := mkOffer { of_version : TlsVersion; of_suites : list Z; of_server_name : option (list Z) }.

Inductive ServerResponse :=
  | Hello (version : option TlsVersion) (suite : Z) (retry : bool)
  | Alert (level description : Z).

#[export] Instance ServerResponse_eq_dec : EqDecision ServerResponse.
Proof. solve_decision. Defined.

Definition accepted (r : ServerResponse) : bool := match r with Hello _ _ _ => true | Alert _ _ => false end.

(** *** The hello *)

(** [(len as u16).to_be_bytes()]. *)
Definition len_u16 (n : Z) : list Z := to_be_bytes 2 (wrap 16 n).

Definition lenZ (bytes : list Z) : Z := Z.of_nat (length bytes).

Definition push_extension (out : list Z) (number : Z) (value : list Z) : list Z :=
  out ++ to_be_bytes 2 number ++ len_u16 (lenZ value) ++ value.

Definition three_byte_len (len : Z) : list Z := drop 1 (to_be_bytes 4 (wrap 32 len)).

(** [extensions], of the key share it draws at random. *)
Definition extensions (offer : Offer) (share : list Z) : list Z :=
  let out :=
    match of_server_name offer with
    | Some name => push_extension [] EXT_SERVER_NAME (len_u16 (lenZ name + 3) ++ [0] ++ len_u16 (lenZ name) ++ name)
    | None => []
    end in
  let out := push_extension out EXT_SUPPORTED_GROUPS
    (len_u16 (lenZ SUPPORTED_GROUPS * 2) ++ (SUPPORTED_GROUPS ≫= to_be_bytes 2)) in
  let out := push_extension out EXT_EC_POINT_FORMATS [1; 0] in
  let out := push_extension out EXT_SIGNATURE_ALGORITHMS
    (len_u16 (lenZ SIGNATURE_ALGORITHMS * 2) ++ (SIGNATURE_ALGORITHMS ≫= to_be_bytes 2)) in
  if bool_decide (of_version offer = Tls13) then
    let out := push_extension out EXT_SUPPORTED_VERSIONS [2; 0x03; 0x04] in
    push_extension out EXT_KEY_SHARE
      (len_u16 (KEY_SHARE_LEN + 4) ++ to_be_bytes 2 KEY_SHARE_GROUP ++ len_u16 KEY_SHARE_LEN ++ share)
  else out.

(** [client_hello], of the random and the key share it draws. *)
Definition client_hello (offer : Offer) (random share : list Z) : list Z :=
  let legacy_version :=
    match of_version offer with Tls13 => version_code Tls12 | version => version_code version end in
  let body :=
    to_be_bytes 2 legacy_version ++ random ++ [0]
    ++ len_u16 (lenZ (of_suites offer) * 2) ++ (of_suites offer ≫= to_be_bytes 2) ++ [1; 0] in
  let body :=
    if bool_decide (of_version offer <> Ssl30) then
      let extensions := extensions offer share in
      body ++ len_u16 (lenZ extensions) ++ extensions
    else body in
  let handshake := [CLIENT_HELLO] ++ three_byte_len (lenZ body) ++ body in
  [CONTENT_HANDSHAKE] ++ to_be_bytes 2 (version_code Tls10) ++ len_u16 (lenZ handshake) ++ handshake.

(** *** The answer *)

Definition record_length (bytes : list Z) : option Z :=
  header ← first_chunk RECORD_HEADER_LEN bytes;
  let declared := from_be_bytes (drop 3 header) in
  then_some (declared <=? MAX_RECORD_LEN) (Z.of_nat RECORD_HEADER_LEN + declared).

Definition record_body (bytes : list Z) : option (Z * list Z) :=
  header ← first_chunk RECORD_HEADER_LEN bytes;
  let declared := Z.to_nat (from_be_bytes (drop 3 header)) in
  body ← get_from RECORD_HEADER_LEN bytes;
  content ← head header;
  body ← get_range 0 (Nat.min declared (length body)) body;
  Some (content, body).

Definition hello_message (body : list Z) : option (list Z) :=
  kind ← head body;
  if negb (kind =? SERVER_HELLO) then None
  else
    b1 ← body !! 1%nat; b2 ← body !! 2%nat; b3 ← body !! 3%nat;
    let declared := Z.to_nat (from_be_bytes [0; b1; b2; b3]) in
    rest ← get_from HANDSHAKE_HEADER_LEN body;
    get_range 0 declared rest.

(** The loop of [negotiated_version]; each turn takes four bytes at least, so the
    length is turns enough. *)
Fixpoint find_version (more : nat) (rest : list Z) : option TlsVersion :=
  match more with
  | O => None
  | S more =>
      match rest with
      | n0 :: n1 :: l0 :: l1 :: _ =>
          let number := from_be_bytes [n0; n1] in
          let len := Z.to_nat (from_be_bytes [l0; l1]) in
          value ← get_range 4 (4 + len) rest;
          if number =? EXT_SUPPORTED_VERSIONS then
            selected ← first_chunk 2 value;
            version_from_code (from_be_bytes selected)
          else
            rest ← get_from (4 + len) rest;
            find_version more rest
      | _ => None
      end
  end.

Definition negotiated_version (extensions : list Z) : option TlsVersion :=
  d0 ← head extensions; d1 ← extensions !! 1%nat;
  let declared := Z.to_nat (from_be_bytes [d0; d1]) in
  rest ← get_from 2 extensions;
  rest ← get_range 0 (Nat.min declared (length rest)) rest;
  find_version (length rest) rest.

Definition read_server_hello (body : list Z) : option ServerResponse :=
  message ← hello_message body;
  v0 ← head message; v1 ← message !! 1%nat;
  let legacy_version := from_be_bytes [v0; v1] in
  random ← get_range 2 34 message;
  let retry := bool_decide (random = HELLO_RETRY_RANDOM) in
  session_len ← message !! 34%nat;
  rest ← get_from (35 + Z.to_nat session_len) message;
  s0 ← head rest; s1 ← rest !! 1%nat;
  let suite := from_be_bytes [s0; s1] in
  let version :=
    match get_from 3 rest ≫= negotiated_version with
    | Some version => Some version
    | None => version_from_code legacy_version
    end in
  Some (Hello version suite retry).

Definition read_response (bytes : list Z) : option ServerResponse :=
  '(content, body) ← record_body bytes;
  if content =? CONTENT_ALERT then
    alert ← first_chunk 2 body;
    match alert with [level; description] => Some (Alert level description) | _ => None end
  else if content =? CONTENT_HANDSHAKE then read_server_hello body
  else None.

Definition server_hello_end (bytes : list Z) : option nat :=
  '(content, body) ← record_body bytes;
  if negb (content =? CONTENT_HANDSHAKE) then None
  else
    message ← hello_message body;
    Some (RECORD_HEADER_LEN + HANDSHAKE_HEADER_LEN + length message)%nat.

(** ** The layout of a server's hello *)

Definition ext_layout (e : Z * list Z) : list Z := to_be_bytes 2 (fst e) ++ to_be_bytes 2 (lenZ (snd e)) ++ snd e.

Definition ext_ok (e : Z * list Z) : Prop := fits 16 (fst e) /\ fits 16 (lenZ (snd e)).

(** A server's hello: its version field, random, session and suite; then nothing more,
    or a compression method and extensions. *)
Record Answer := mkAnswer {
  an_version : Z; an_random : list Z; an_session : list Z; an_suite : Z;
  an_rest : option (Z * list (Z * list Z)) }.

Definition message_layout (a : Answer) : list Z :=
  to_be_bytes 2 (an_version a) ++ an_random a ++ [lenZ (an_session a)] ++ an_session a ++ to_be_bytes 2 (an_suite a)
  ++ match an_rest a with
     | None => []
     | Some (compression, exts) => [compression] ++ to_be_bytes 2 (lenZ (exts ≫= ext_layout)) ++ (exts ≫= ext_layout)
     end.

Definition answer_ok (a : Answer) : Prop :=
  fits 16 (an_version a) /\ length (an_random a) = 32%nat /\ fits 8 (lenZ (an_session a)) /\ fits 16 (an_suite a) /\
  match an_rest a with
  | None => True
  | Some (_, exts) => Forall ext_ok exts /\ fits 16 (lenZ (exts ≫= ext_layout))
  end.

(** The record that carries it, with what the server put behind it in the record. *)
Definition hello_record (version : Z) (a : Answer) (coalesced : list Z) : list Z :=
  let body := [SERVER_HELLO] ++ to_be_bytes 3 (lenZ (message_layout a)) ++ message_layout a ++ coalesced in
  [CONTENT_HANDSHAKE] ++ to_be_bytes 2 version ++ to_be_bytes 2 (lenZ body) ++ body.

(** The first extension of a number. *)
Definition ext_value (number : Z) (exts : list (Z * list Z)) : option (list Z) :=
  snd <$> List.find (fun e => fst e =? number) exts.

(** The number its [supported_versions] extension names, where it was sent. *)
Definition selected_version (a : Answer) : option Z :=
  '(_, exts) ← an_rest a; value ← ext_value EXT_SUPPORTED_VERSIONS exts;
  from_be_bytes <$> first_chunk 2 value.

(** The version negotiated, as documented: that of the extension where it was sent, else of
    the version field, and none for a number no known version claims. *)
Definition documented_version (a : Answer) : option TlsVersion :=
  version_from_code (default (an_version a) (selected_version a)).

(** The number the extension names, where it was sent, is a known version's. *)
Definition version_known (a : Answer) : bool :=
  match selected_version a with Some code => bool_decide (version_from_code code <> None) | None => true end.

(** The version the answer comes to: the one its extension names, where it has the
    extension and the number is known; else the one of its version field. *)
Definition answer_version (a : Answer) : option TlsVersion :=
  let named :=
    '(_, exts) ← an_rest a; value ← ext_value EXT_SUPPORTED_VERSIONS exts;
    selected ← first_chunk 2 value; version_from_code (from_be_bytes selected) in
  match named with Some v => Some v | None => version_from_code (an_version a) end.

Example a_13_server :
  read_response (hello_record 0x0303 (mkAnswer 0x0303 (repeat 7 32) [1; 2; 3] 0x1301 (Some (0, [(51, [9; 9]); (43, [3; 4])]))) [11; 0; 0; 0])
  = Some (Hello (Some Tls13) 0x1301 false).
Proof. vm_compute. reflexivity. Qed.

(** ** Length-prefixed pieces *)

Lemma get_front a b n : length a = n -> get_range 0 n (a ++ b) = Some a.
Proof. intros <-. apply (get_range_app [] a b); done. Qed.

Lemma lenZ_app a b : lenZ (a ++ b) = lenZ a + lenZ b.
Proof. unfold lenZ. rewrite length_app. lia. Qed.

Lemma lenZ_to_be w n : lenZ (to_be_bytes w n) = Z.of_nat w.
Proof. unfold lenZ. by rewrite length_to_be_bytes. Qed.

Lemma lenZ_cons b l : lenZ (b :: l) = 1 + lenZ l.
Proof. unfold lenZ. cbn [length]. lia. Qed.

Lemma find_version_layout exts more : Forall ext_ok exts -> (length exts <= more)%nat ->
  find_version more (exts ≫= ext_layout) =
  (value ← ext_value EXT_SUPPORTED_VERSIONS exts; selected ← first_chunk 2 value; version_from_code (from_be_bytes selected)).
Proof.
  intros H. revert more. induction H as [|[k v] exts [Hk Hv] _ IH]; intros more Hm; [by destruct more|].
  destruct more as [|more]; [cbn in Hm; lia|]. cbn [fst snd] in *. rewrite bind_cons. unfold ext_layout at 1. cbn [fst snd].
  destruct (two_bytes k Hk) as (k0 & k1 & -> & Ek). destruct (two_bytes _ Hv) as (l0 & l1 & -> & El).
  set (tail := exts ≫= ext_layout) in *. rewrite <- !app_assoc. cbn [app find_version]. rewrite Ek, El.
  unfold lenZ. rewrite Nat2Z.id. change (k0 :: k1 :: l0 :: l1 :: v ++ tail) with ([k0; k1; l0; l1] ++ v ++ tail).
  rewrite get_range_app by done. cbn [mbind option_bind]. unfold ext_value. cbn [List.find fst].
  destruct (k =? EXT_SUPPORTED_VERSIONS); [done|]. rewrite app_assoc, get_from_app by done.
  cbn [mbind option_bind]. apply IH. cbn in Hm. lia.
Qed.

Lemma length_exts exts : (length exts <= length (exts ≫= ext_layout))%nat.
Proof.
  induction exts as [|e exts IH]; [done|]. rewrite bind_cons, length_app. unfold ext_layout at 1.
  rewrite !length_app, !length_to_be_bytes. cbn [length]. lia.
Qed.

Lemma negotiated_layout exts : Forall ext_ok exts -> fits 16 (lenZ (exts ≫= ext_layout)) ->
  negotiated_version (to_be_bytes 2 (lenZ (exts ≫= ext_layout)) ++ (exts ≫= ext_layout)) =
  (value ← ext_value EXT_SUPPORTED_VERSIONS exts; selected ← first_chunk 2 value; version_from_code (from_be_bytes selected)).
Proof.
  intros He Hl. unfold negotiated_version. destruct (two_bytes _ Hl) as (d0 & d1 & -> & Ed).
  cbn [app head mbind option_bind lookup list_lookup]. rewrite Ed. set (block := exts ≫= ext_layout) in *.
  change (d0 :: d1 :: block) with ([d0; d1] ++ block). rewrite get_from_app by done. cbn [mbind option_bind].
  unfold lenZ. rewrite Nat2Z.id, Nat.min_id. rewrite <- (app_nil_r block) at 2. rewrite get_front by done.
  cbn [mbind option_bind]. apply find_version_layout; [done|apply length_exts].
Qed.

Lemma three_bytes n : fits 24 n -> exists a b c, to_be_bytes 3 n = [a; b; c] /\ from_be_bytes [0; a; b; c] = n.
Proof.
  intros Hn. pose proof (from_to_be_bytes 3 n Hn) as E. pose proof (length_to_be_bytes 3 n) as Hl.
  destruct (to_be_bytes 3 n) as [|a [|b [|c []]]]; try done. exists a, b, c. split; [done|]. rewrite <- E. reflexivity.
Qed.

Lemma hello_message_layout msg rest : fits 24 (lenZ msg) ->
  hello_message ([SERVER_HELLO] ++ to_be_bytes 3 (lenZ msg) ++ msg ++ rest) = Some msg.
Proof.
  intros Hm. destruct (three_bytes _ Hm) as (a & b & c & -> & E). unfold hello_message.
  cbn [app head mbind option_bind lookup list_lookup]. rewrite Z.eqb_refl. cbn [negb]. rewrite E.
  change (SERVER_HELLO :: a :: b :: c :: msg ++ rest) with ([SERVER_HELLO; a; b; c] ++ msg ++ rest).
  rewrite get_from_app by done. cbn [mbind option_bind]. unfold lenZ. rewrite Nat2Z.id. by apply get_front.
Qed.

(** A hello that has not all arrived is not read. *)
Lemma hello_message_cut msg rest k : fits 24 (lenZ msg) -> (k < 4 + length msg)%nat ->
  hello_message (take k ([SERVER_HELLO] ++ to_be_bytes 3 (lenZ msg) ++ msg ++ rest)) = None.
Proof.
  intros Hm Hk. destruct (three_bytes _ Hm) as (a & b & c & -> & E). unfold hello_message.
  destruct k as [|[|[|[|k]]]]; try done.
  cbn [app take head mbind option_bind lookup list_lookup]. rewrite Z.eqb_refl. cbn [negb]. rewrite E.
  set (part := take k (msg ++ rest)). change (SERVER_HELLO :: a :: b :: c :: part) with ([SERVER_HELLO; a; b; c] ++ part).
  rewrite get_from_app by done. cbn [mbind option_bind]. unfold lenZ, get_range. rewrite Nat2Z.id, andb_comm.
  rewrite (proj2 (Nat.leb_gt _ _)); [done|]. unfold part. rewrite length_take. lia.
Qed.

Lemma read_message a body : answer_ok a -> hello_message body = Some (message_layout a) ->
  read_server_hello body = Some (Hello (answer_version a) (an_suite a) (bool_decide (an_random a = HELLO_RETRY_RANDOM))).
Proof.
  intros (Hv & Hr & Hs & Hsu & Hrest) Hm. unfold read_server_hello. rewrite Hm. cbn [mbind option_bind]. unfold message_layout.
  destruct (two_bytes _ Hv) as (v0 & v1 & -> & Ev). destruct (two_bytes _ Hsu) as (s0 & s1 & -> & Es).
  set (tail := match an_rest a with None => [] | Some _ => _ end). cbn [app head mbind option_bind].
  assert (forall a b (l : list Z), (a :: b :: l) !! 1%nat = Some b) as H1 by done. rewrite H1. cbn [mbind option_bind]. rewrite Ev.
  set (after := an_session a ++ s0 :: s1 :: tail).
  change (v0 :: v1 :: an_random a ++ lenZ (an_session a) :: after) with ([v0; v1] ++ an_random a ++ lenZ (an_session a) :: after).
  rewrite get_range_app by (rewrite ?Hr; done). cbn [mbind option_bind].
  rewrite app_assoc, list_lookup_middle by (by rewrite length_app, Hr). rewrite <- app_assoc.
  cbn [mbind option_bind]. unfold after.
  replace (Z.to_nat (lenZ (an_session a))) with (length (an_session a)) by (unfold lenZ; by rewrite Nat2Z.id).
  replace ([v0; v1] ++ an_random a ++ lenZ (an_session a) :: an_session a ++ s0 :: s1 :: tail)
    with (([v0; v1] ++ an_random a ++ lenZ (an_session a) :: an_session a) ++ s0 :: s1 :: tail) by (by rewrite <- !app_assoc).
  rewrite get_from_app by (rewrite !length_app, Hr; cbn; lia). cbn [mbind option_bind head]. rewrite H1. cbn [mbind option_bind]. rewrite Es.
  do 2 f_equal. unfold answer_version, tail. destruct (an_rest a) as [[comp exts]|]; [|done].
  destruct Hrest as [He Hl]. cbn [mbind option_bind app].
  change (s0 :: s1 :: comp :: ?x) with ([s0; s1; comp] ++ x). rewrite (get_from_app [s0; s1; comp]) by done. cbn [mbind option_bind].
  by rewrite negotiated_layout.
Qed.

Lemma record_body_layout content version body rest n : fits 16 (lenZ body) -> (5 <= n)%nat ->
  record_body (take n ([content] ++ to_be_bytes 2 version ++ to_be_bytes 2 (lenZ body) ++ body ++ rest))
  = Some (content, take (n - 5) body).
Proof.
  intros Hb Hn. set (header := [content] ++ to_be_bytes 2 version ++ to_be_bytes 2 (lenZ body)).
  replace ([content] ++ to_be_bytes 2 version ++ to_be_bytes 2 (lenZ body) ++ body ++ rest) with (header ++ body ++ rest)
    by (unfold header; by rewrite <- !app_assoc).
  assert (length header = 5%nat) as H5 by (unfold header; by rewrite !length_app, !length_to_be_bytes).
  unfold record_body, RECORD_HEADER_LEN. rewrite take_app_ge by lia. rewrite H5.
  rewrite first_chunk_app, get_from_app by done. cbn [mbind option_bind].
  assert (from_be_bytes (drop 3 header) = lenZ body) as ->.
  { unfold header. rewrite app_assoc, drop_app_length' by (by rewrite length_app, length_to_be_bytes). by apply from_to_be_bytes. }
  change (head header) with (Some content). cbn [mbind option_bind]. unfold lenZ. rewrite Nat2Z.id.
  set (part := take (n - 5) (body ++ rest)).
  assert (length part = Nat.min (n - 5) (length body + length rest)) as Hp by (unfold part; by rewrite length_take, length_app).
  unfold get_range. rewrite !(proj2 (Nat.leb_le _ _)) by lia. cbn [andb then_some mbind option_bind]. do 2 f_equal.
  rewrite drop_0, Nat.sub_0_r, Hp. unfold part. rewrite take_take.
  destruct (Nat.le_ge_cases (n - 5) (length body)).
  - replace (_ `min` (n - 5))%nat with (n - 5)%nat by lia. by rewrite take_app_le.
  - rewrite (take_ge body) by lia. replace (_ `min` (n - 5))%nat with (length body) by lia. by rewrite take_app_length.
Qed.

(** What is read is what is documented, but for a number nobody knows. *)
Lemma answer_version_documented a :
  answer_version a = if version_known a then documented_version a else version_from_code (an_version a).
Proof.
  unfold answer_version, version_known, documented_version, selected_version.
  destruct (an_rest a) as [[comp exts]|]; [|done]. cbn [mbind option_bind]. destruct (ext_value EXT_SUPPORTED_VERSIONS exts) as [value|]; [|done].
  cbn [mbind option_bind]. destruct (first_chunk 2 value) as [selected|]; [|done]. cbn [mbind option_bind fmap option_fmap option_map from_option].
  destruct (version_from_code (from_be_bytes selected)) eqn:E; [by rewrite bool_decide_true|by rewrite bool_decide_false by (intros []; done)].
Qed.

(** C37: A server's hello is read as the terms it chose, and only whole.  Whatever session,
    suite and extensions a server answers with, and whatever it puts behind its hello in the
    record and behind the record, the answer read has its suite and whether it is a retry,
    and the end found is that of the hello.  Its version is the one documented (that of the
    [supported_versions] extension where it was sent, else of the version field) unless the
    extension names a number no known version claims: documented to read as no version, it
    reads as the version field has it.  Cut anywhere before that end, no hello is read. *)
Theorem server_hello_reads_back (version : Z) (a : Answer) (coalesced after : list Z) :
  answer_ok a -> fits 16 (4 + lenZ (message_layout a) + lenZ coalesced) ->
  let bytes := hello_record version a coalesced ++ after in
  read_response bytes = Some (Hello (if version_known a then documented_version a else version_from_code (an_version a))
    (an_suite a) (bool_decide (an_random a = HELLO_RETRY_RANDOM))) /\
  server_hello_end bytes = Some (9 + length (message_layout a))%nat /\
  (forall n, (n < 9 + length (message_layout a))%nat -> read_response (take n bytes) = None /\ server_hello_end (take n bytes) = None).
Proof.
  intros Ha Hl bytes. rewrite <- answer_version_documented.
  set (body := [SERVER_HELLO] ++ to_be_bytes 3 (lenZ (message_layout a)) ++ message_layout a ++ coalesced).
  assert (lenZ body = 4 + lenZ (message_layout a) + lenZ coalesced) as Hb.
  { unfold body. rewrite !lenZ_app, lenZ_to_be, lenZ_cons. change (lenZ []) with 0. lia. }
  assert (fits 24 (lenZ (message_layout a))) as H24 by (unfold lenZ in *; mlia).
  assert (forall n, (5 <= n)%nat -> record_body (take n bytes) = Some (CONTENT_HANDSHAKE, take (n - 5) body)) as Hr.
  { intros n Hn. unfold bytes, hello_record. fold body. cbv zeta. rewrite <- !app_assoc. apply record_body_layout; [by rewrite Hb|done]. }
  assert (record_body bytes = Some (CONTENT_HANDSHAKE, body)) as Hwhole.
  { rewrite <- (take_ge bytes (5 + length bytes)) by lia. rewrite Hr, take_ge; [done| |lia].
    assert (length body <= length bytes)%nat by (unfold bytes, hello_record; fold body; cbv zeta; rewrite !length_app; lia). lia. }
  split_and!.
  - unfold read_response. rewrite Hwhole. cbn [mbind option_bind].
    change (CONTENT_HANDSHAKE =? CONTENT_ALERT) with false. rewrite Z.eqb_refl. cbn iota.
    apply read_message; [done|]. exact (hello_message_layout _ coalesced H24).
  - unfold server_hello_end. rewrite Hwhole. cbn [mbind option_bind]. rewrite Z.eqb_refl. cbn [negb].
    unfold body. rewrite hello_message_layout by done. done.
  - intros n Hn. destruct (Nat.le_gt_cases 5 n) as [H5|H5].
    + unfold read_response, server_hello_end. rewrite (Hr n H5). cbn [mbind option_bind]. rewrite Z.eqb_refl. cbn [negb].
      change (CONTENT_HANDSHAKE =? CONTENT_ALERT) with false. cbn iota. unfold read_server_hello, body.
      rewrite hello_message_cut by (done || lia). done.
    + unfold read_response, server_hello_end, record_body, first_chunk, RECORD_HEADER_LEN.
      rewrite (proj2 (Nat.leb_gt _ _)) by (rewrite length_take; lia). done.
Qed.

Definition answer_example : Answer :=
  mkAnswer 0x0303 (repeat 7 32) [1; 2; 3] 0x1301 (Some (0, [(51, [9; 9]); (43, [3; 4])])).

Lemma server_hello_reads_back_witness :
  read_response (hello_record 0x0303 answer_example [11; 0; 0; 0] ++ [23]) = Some (Hello (Some Tls13) 0x1301 false) /\
  read_response (take 40 (hello_record 0x0303 answer_example [11; 0; 0; 0] ++ [23])) = None.
Proof.
  destruct (server_hello_reads_back 0x0303 answer_example [11; 0; 0; 0] [23]) as (H1 & _ & H2).
  - split_and!; [split; vm_compute; discriminate|reflexivity|split; vm_compute; discriminate|split; vm_compute; discriminate|].
    split; [|split; vm_compute; discriminate].
    repeat (apply Forall_cons_2; [split; split; vm_compute; discriminate|]). apply Forall_nil_2.
  - split; vm_compute; discriminate.
  - split; [exact H1|]. apply (H2 40%nat). apply Nat.ltb_lt. reflexivity.
Defined.

(** A version nobody knows is reported as the version field says: a server that names
    only such a number (a draft of TLS 1.3, say) reads as TLS 1.2, and not as a version
    unknown. *)
Theorem unknown_version_reads_as_legacy (a : Answer) (compression : Z) (exts : list (Z * list Z)) (hi lo : Z) (rest : list Z) :
  an_rest a = Some (compression, exts) -> ext_value EXT_SUPPORTED_VERSIONS exts = Some (hi :: lo :: rest) ->
  version_from_code (from_be_bytes [hi; lo]) = None ->
  answer_version a = version_from_code (an_version a).
Proof.
  intros Hr He Hv. unfold answer_version. rewrite Hr. cbn [mbind option_bind]. rewrite He. cbn [mbind option_bind].
  change (hi :: lo :: rest) with ([hi; lo] ++ rest). rewrite first_chunk_app by done. cbn [mbind option_bind]. by rewrite Hv.
Qed.

Example draft_server :
  read_response (hello_record 0x0303 (mkAnswer 0x0303 (repeat 7 32) [] 0x1301 (Some (0, [(43, [0x7f; 0x1c])]))) [])
  = Some (Hello (Some Tls12) 0x1301 false).
Proof. vm_compute. reflexivity. Qed.

(** ** The hello, read as a server reads it *)

(** A piece behind its length, of [w] bytes. *)
Definition read_vec (w : nat) (bytes : list Z) : option (list Z * list Z) :=
  len ← first_chunk w bytes;
  split_at_checked (Z.to_nat (from_be_bytes len)) (drop w bytes).

Definition next_ext (bytes : list Z) : option (Z * list Z * list Z) :=
  number ← first_chunk 2 bytes;
  '(value, rest) ← read_vec 2 (drop 2 bytes);
  Some (from_be_bytes number, value, rest).

Fixpoint words (bytes : list Z) : list Z :=
  match bytes with a :: b :: rest => from_be_bytes [a; b] :: words rest | _ => [] end.

Record SeenHello := mkSeen {
  seen_version : Z; seen_random : list Z; seen_suites : list Z; seen_extensions : option (list (Z * list Z)) }.

(** Every length must count exactly what it stands before: nothing is left over after
    the record, the handshake message or the extensions. *)
Definition see_hello (bytes : list Z) : option SeenHello :=
  '(content, rest) ← split_first_byte bytes;
  '(handshake, over1) ← read_vec 2 (drop 2 rest);
  '(kind, rest) ← split_first_byte handshake;
  '(body, over2) ← read_vec 3 rest;
  version ← first_chunk 2 body;
  random ← get_range 2 34 body;
  '(session, rest) ← read_vec 1 (drop 34 body);
  '(suites, rest) ← read_vec 2 rest;
  '(compression, rest) ← read_vec 1 rest;
  '(exts, over3) ←
    match rest with
    | [] => Some (None, [])
    | _ => '(block, over) ← read_vec 2 rest; Some (Some (records next_ext (length block) block), over)
    end;
  if bool_decide (content = CONTENT_HANDSHAKE /\ kind = CLIENT_HELLO /\ session = [] /\ compression = [0] /\
                  over1 = [] /\ over2 = [] /\ over3 = [])
  then Some (mkSeen (from_be_bytes version) random (words suites) exts)
  else None.

(** What a hello says in its extensions. *)
Definition hello_exts (offer : Offer) (share : list Z) : list (Z * list Z) :=
  match of_server_name offer with
  | Some name => [(EXT_SERVER_NAME, to_be_bytes 2 (lenZ name + 3) ++ [0] ++ to_be_bytes 2 (lenZ name) ++ name)]
  | None => []
  end
  ++ [(EXT_SUPPORTED_GROUPS, to_be_bytes 2 14 ++ (SUPPORTED_GROUPS ≫= to_be_bytes 2)); (EXT_EC_POINT_FORMATS, [1; 0]);
      (EXT_SIGNATURE_ALGORITHMS, to_be_bytes 2 28 ++ (SIGNATURE_ALGORITHMS ≫= to_be_bytes 2))]
  ++ (if bool_decide (of_version offer = Tls13) then
        [(EXT_SUPPORTED_VERSIONS, [2; 3; 4]);
         (EXT_KEY_SHARE, to_be_bytes 2 36 ++ to_be_bytes 2 KEY_SHARE_GROUP ++ to_be_bytes 2 32 ++ share)]
      else []).

Lemma read_vec_app w v rest : fits (8 * Z.of_nat w) (lenZ v) -> read_vec w (to_be_bytes w (lenZ v) ++ v ++ rest) = Some (v, rest).
Proof.
  intros Hv. unfold read_vec. rewrite first_chunk_app by apply length_to_be_bytes. cbn [mbind option_bind].
  rewrite from_to_be_bytes by done. unfold lenZ. rewrite Nat2Z.id.
  rewrite drop_app_length' by (by rewrite length_to_be_bytes). by apply split_at_checked_app.
Qed.

Lemma read_vec_all w v : fits (8 * Z.of_nat w) (lenZ v) -> read_vec w (to_be_bytes w (lenZ v) ++ v) = Some (v, []).
Proof. intros Hv. rewrite <- (app_nil_r v) at 2. by apply read_vec_app. Qed.

Lemma next_ext_layout e rest : ext_ok e -> next_ext (ext_layout e ++ rest) = Some (e, rest).
Proof.
  intros [Hk Hv]. destruct e as [k v]. cbn [fst snd] in *. unfold next_ext, ext_layout. cbn [fst snd]. rewrite <- !app_assoc.
  rewrite first_chunk_app by apply length_to_be_bytes. cbn [mbind option_bind].
  rewrite drop_app_length' by (by rewrite length_to_be_bytes). rewrite read_vec_app by done. cbn [mbind option_bind].
  by rewrite from_to_be_bytes.
Qed.

Lemma records_exts exts more : Forall ext_ok exts -> (length exts <= more)%nat -> records next_ext more (exts ≫= ext_layout) = exts.
Proof.
  intros H. revert more. induction H as [|e exts He _ IH]; intros more Hm; [by destruct more|].
  destruct more as [|more]; [cbn in Hm; lia|]. rewrite bind_cons. cbn [records]. rewrite next_ext_layout by done.
  f_equal. apply IH. cbn in Hm. lia.
Qed.

Lemma words_bind ws : Forall (fits 16) ws -> words (ws ≫= to_be_bytes 2) = ws.
Proof.
  induction 1 as [|w ws Hw _ IH]; [done|]. rewrite bind_cons. destruct (two_bytes w Hw) as (a & b & -> & E).
  cbn [app words]. by rewrite E, IH.
Qed.

Lemma lenZ_words ws : lenZ (ws ≫= to_be_bytes 2) = lenZ ws * 2.
Proof. induction ws as [|w ws IH]; [done|]. rewrite bind_cons, lenZ_app, IH, lenZ_to_be, lenZ_cons. lia. Qed.

Lemma lenZ_nonneg l : 0 <= lenZ l.
Proof. unfold lenZ. lia. Qed.

Lemma push_extension_layout out k v : fits 16 (lenZ v) -> push_extension out k v = out ++ ext_layout (k, v).
Proof. intros Hv. unfold push_extension, ext_layout, len_u16. cbn [fst snd]. by rewrite wrap_small by mlia. Qed.

Definition name_len (offer : Offer) : Z := match of_server_name offer with Some name => lenZ name | None => 0 end.

Lemma push_all exts out : Forall ext_ok exts ->
  fold_left (fun out e => push_extension out (fst e) (snd e)) exts out = out ++ (exts ≫= ext_layout).
Proof.
  intros H. revert out. induction H as [|[k v] exts [_ He] _ IH]; intros out; [by rewrite app_nil_r|].
  cbn [fold_left fst snd]. rewrite push_extension_layout by done. rewrite IH, bind_cons. by rewrite <- app_assoc.
Qed.

Lemma lenZ_exts exts : lenZ (exts ≫= ext_layout) = foldr (fun e n => 4 + lenZ (snd e) + n) 0 exts.
Proof.
  induction exts as [|e exts IH]; [done|]. rewrite bind_cons, lenZ_app, IH. unfold ext_layout. rewrite !lenZ_app, !lenZ_to_be. cbn [foldr]. lia.
Qed.

Lemma hello_exts_sizes offer share : lenZ share = 32 ->
  foldr (fun e n => 4 + lenZ (snd e) + n) 0 (hello_exts offer share) <= name_len offer + 118 /\
  Forall (fun e => fits 16 (fst e) /\ lenZ (snd e) <= name_len offer + 38) (hello_exts offer share).
Proof.
  intros Hs. unfold hello_exts, name_len. pose proof lenZ_nonneg as Hz.
  assert (lenZ (SUPPORTED_GROUPS ≫= to_be_bytes 2) = 14) as Hg by done.
  assert (lenZ (SIGNATURE_ALGORITHMS ≫= to_be_bytes 2) = 28) as Ha by done.
  assert (forall n, lenZ (to_be_bytes 2 n) = 2) as H2 by (intros; apply lenZ_to_be).
  split.
  - destruct (of_server_name offer) as [name|], (bool_decide _); cbn [app foldr snd]; repeat first [rewrite Hg|rewrite Ha|rewrite H2|rewrite Hs|rewrite lenZ_app|rewrite lenZ_cons];
      change (lenZ []) with 0; lia.
  - destruct (of_server_name offer) as [name|]; [specialize (Hz name)|]; destruct (bool_decide _); cbn [app];
      repeat (apply Forall_cons_2; [split; [split; vm_compute; discriminate|]; cbn [snd]; repeat first [rewrite Hg|rewrite Ha|rewrite H2|rewrite Hs|rewrite lenZ_app|rewrite lenZ_cons];
        change (lenZ []) with 0; lia|]); apply Forall_nil_2.
Qed.

Lemma extensions_layout offer share : name_len offer <= 60000 -> lenZ share = 32 ->
  extensions offer share = hello_exts offer share ≫= ext_layout /\ Forall ext_ok (hello_exts offer share) /\
  lenZ (extensions offer share) <= name_len offer + 118.
Proof.
  intros Hn Hs. destruct (hello_exts_sizes offer share Hs) as [Hsum Hall].
  assert (Forall ext_ok (hello_exts offer share)) as Hok.
  { eapply Forall_impl; [exact Hall|]. intros [k v] [Hk Hv]. split; [done|]. cbn [snd] in *. pose proof (lenZ_nonneg v). mlia. }
  assert (extensions offer share = hello_exts offer share ≫= ext_layout) as E.
  { rewrite <- (app_nil_l (_ ≫= _)), <- push_all by done. unfold extensions, hello_exts, len_u16, name_len in *.
    destruct (of_server_name offer) as [name|]; [|by destruct (bool_decide _)].
    pose proof (lenZ_nonneg name). rewrite (wrap_small 16 (lenZ name + 3)), (wrap_small 16 (lenZ name)) by lia.
    by destruct (bool_decide _). }
  split_and!; [done|done|]. by rewrite E, lenZ_exts.
Qed.

(** The body of a hello, with its lengths as they are. *)
Definition hello_body (offer : Offer) (random share : list Z) : list Z :=
  to_be_bytes 2 (match of_version offer with Tls13 => version_code Tls12 | version => version_code version end)
  ++ random ++ to_be_bytes 1 (lenZ []) ++ [] ++ to_be_bytes 2 (lenZ (of_suites offer ≫= to_be_bytes 2))
  ++ (of_suites offer ≫= to_be_bytes 2) ++ to_be_bytes 1 (lenZ [0]) ++ [0]
  ++ (if bool_decide (of_version offer <> Ssl30) then
        to_be_bytes 2 (lenZ (extensions offer share)) ++ extensions offer share
      else []).

Definition hello_fits (offer : Offer) : Prop := lenZ (of_suites offer) * 2 + name_len offer <= 60000.

Lemma name_len_nonneg offer : 0 <= name_len offer.
Proof. unfold name_len. destruct (of_server_name offer); [apply lenZ_nonneg|done]. Qed.

Lemma hello_layout offer random share : hello_fits offer -> length random = 32%nat -> lenZ share = 32 ->
  let handshake := [CLIENT_HELLO] ++ to_be_bytes 3 (lenZ (hello_body offer random share)) ++ hello_body offer random share in
  client_hello offer random share = [CONTENT_HANDSHAKE; 3; 1] ++ to_be_bytes 2 (lenZ handshake) ++ handshake /\
  lenZ (hello_body offer random share) <= 60200.
Proof.
  intros Hf Hr Hs. unfold hello_fits in Hf. pose proof (name_len_nonneg offer) as Hn. pose proof (lenZ_nonneg (of_suites offer)) as Hsu.
  destruct (extensions_layout offer share ltac:(lia) Hs) as (_ & _ & He). pose proof (lenZ_nonneg (extensions offer share)) as He0.
  assert (lenZ random = 32) as HrZ by (unfold lenZ; lia).
  assert (lenZ (hello_body offer random share) <= 60200) as Hb.
  { unfold hello_body. rewrite !lenZ_app, !lenZ_to_be, lenZ_words. change (lenZ [0]) with 1. change (lenZ []) with 0.
    destruct (bool_decide _); rewrite ?lenZ_app, ?lenZ_to_be; change (lenZ []) with 0; lia. }
  split; [|done]. unfold client_hello, len_u16, three_byte_len. cbv zeta.
  rewrite (wrap_small 16 (lenZ (of_suites offer) * 2)), (wrap_small 16 (lenZ (extensions offer share))) by lia.
  match goal with |- context [drop 1 (to_be_bytes 4 (wrap 32 (lenZ ?b)))] => assert (b = hello_body offer random share) as -> end.
  { unfold hello_body. rewrite lenZ_words. change (to_be_bytes 1 (lenZ [0])) with [1]. change (to_be_bytes 1 (lenZ [])) with [0].
    destruct (bool_decide _); by rewrite <- ?app_assoc. }
  pose proof (lenZ_nonneg (hello_body offer random share)) as Hb0. rewrite (wrap_small 32) by lia.
  assert (drop 1 (to_be_bytes 4 (lenZ (hello_body offer random share))) = to_be_bytes 3 (lenZ (hello_body offer random share))) as -> by done.
  rewrite wrap_small; [done|]. rewrite !lenZ_app, lenZ_to_be. change (lenZ [CLIENT_HELLO]) with 1. lia.
Qed.

(** A client hello says what the offer asks for, in lengths that are right.  Read
    piece by piece, each behind the length that goes before it with nothing left over,
    a hello carries the random, no session, the suites offered in their order, and the
    extensions of the offer: the name asked for, the groups and the signature
    algorithms, and under TLS 1.3 alone the version and a key share, with the version
    field at TLS 1.2; under SSL 3.0 no extensions.  What the record says of its own
    length is all of it. *)
Theorem client_hello_reads_back (offer : Offer) (random share : list Z) :
  length random = 32%nat -> length share = 32%nat -> Forall (fits 16) (of_suites offer) -> hello_fits offer ->
  see_hello (client_hello offer random share) =
    Some (mkSeen (match of_version offer with Tls13 => version_code Tls12 | v => version_code v end) random (of_suites offer)
            (if bool_decide (of_version offer = Ssl30) then None else Some (hello_exts offer share))) /\
  (lenZ (client_hello offer random share) <= MAX_RECORD_LEN ->
   record_length (client_hello offer random share) = Some (lenZ (client_hello offer random share))).
Proof.
  intros Hr Hsh Hsu Hf. assert (lenZ share = 32) as Hs by (unfold lenZ; lia).
  destruct (hello_layout offer random share Hf Hr Hs) as [E Hb]. cbv zeta in E. rewrite E. clear E.
  set (body := hello_body offer random share) in *. pose proof (lenZ_nonneg body) as Hb0.
  set (handshake := [CLIENT_HELLO] ++ to_be_bytes 3 (lenZ body) ++ body).
  assert (lenZ handshake = 4 + lenZ body) as Hh.
  { unfold handshake. rewrite !lenZ_app, lenZ_to_be. change (lenZ [CLIENT_HELLO]) with 1. lia. }
  pose proof (name_len_nonneg offer) as Hn. pose proof (lenZ_nonneg (of_suites offer)) as Hsl. unfold hello_fits in Hf.
  destruct (extensions_layout offer share ltac:(lia) Hs) as (Eext & Hok & He). pose proof (lenZ_nonneg (extensions offer share)) as He0.
  split.
  - unfold see_hello. cbn [app split_first_byte mbind option_bind drop]. rewrite drop_0, read_vec_all by mlia. cbn [mbind option_bind].
    unfold handshake at 1. cbn [app split_first_byte mbind option_bind]. rewrite read_vec_all by mlia. cbn [mbind option_bind].
    unfold body at 1 2 3, hello_body. set (v := match of_version offer with Tls13 => _ | v => _ end).
    assert (fits 16 v) as Hv by (unfold v; destruct (of_version offer); split; vm_compute; discriminate).
    rewrite first_chunk_app by apply length_to_be_bytes. cbn [mbind option_bind].
    rewrite get_range_app by (rewrite ?length_to_be_bytes, ?Hr; done). cbn [mbind option_bind].
    rewrite (app_assoc (to_be_bytes 2 v) random), drop_app_length' by (by rewrite length_app, length_to_be_bytes, Hr).
    rewrite read_vec_app by done. cbn [mbind option_bind].
    rewrite read_vec_app by (rewrite lenZ_words; mlia). cbn [mbind option_bind].
    rewrite read_vec_app by done. cbn [mbind option_bind]. rewrite from_to_be_bytes, words_bind by done.
    destruct (bool_decide_reflect (of_version offer = Ssl30)) as [E|E].
    + rewrite bool_decide_false by auto. done.
    + rewrite bool_decide_true by done. rewrite read_vec_all by mlia. cbn [mbind option_bind].
      destruct (two_bytes (lenZ (extensions offer share))) as (x & y & -> & _); [mlia|]. cbn [app].
      rewrite Eext, records_exts by (done || apply length_exts). done.
  - intros Hmax. unfold record_length.
    replace ([CONTENT_HANDSHAKE; 3; 1] ++ to_be_bytes 2 (lenZ handshake) ++ handshake)
      with (([CONTENT_HANDSHAKE; 3; 1] ++ to_be_bytes 2 (lenZ handshake)) ++ handshake) in * by (by rewrite <- app_assoc).
    rewrite first_chunk_app by (by rewrite length_app, length_to_be_bytes). cbn [mbind option_bind].
    rewrite drop_app_length' by done. rewrite from_to_be_bytes by mlia.
    assert (lenZ (([CONTENT_HANDSHAKE; 3; 1] ++ to_be_bytes 2 (lenZ handshake)) ++ handshake) = 5 + lenZ handshake) as E5
      by (rewrite !lenZ_app, lenZ_to_be; change (lenZ [CONTENT_HANDSHAKE; 3; 1]) with 3; lia).
    rewrite E5 in *. rewrite (proj2 (Z.leb_le _ _)) by lia. done.
Qed.

Lemma client_hello_reads_back_witness :
  see_hello (client_hello (mkOffer Tls13 [0x1301; 0x1302] (Some (lit "a.example"))) (repeat 5 32) (repeat 6 32))
  = Some (mkSeen 0x0303 (repeat 5 32) [0x1301; 0x1302]
      (Some (hello_exts (mkOffer Tls13 [0x1301; 0x1302] (Some (lit "a.example"))) (repeat 6 32)))).
Proof.
  apply (client_hello_reads_back (mkOffer Tls13 [0x1301; 0x1302] (Some (lit "a.example"))) (repeat 5 32) (repeat 6 32)).
  - reflexivity.
  - reflexivity.
  - repeat (apply Forall_cons_2; [split; vm_compute; discriminate|]). apply Forall_nil_2.
  - vm_compute. discriminate.
Defined.
