(* ===== verification/Path.v ===== *)
(** * The route to a host

    [model/host/path.rs]: a [NetworkPath] is a list of hops in order of distance, one to a
    distance.  A hop is recorded where a binary search puts it, and takes the place of one
    already there only if it says more: an answer says more than silence, and between two
    that agree on that a measurement says more than an inference.  [hop_strength] is that
    ranking as a number; [hop_at] is what a path says of one distance, and everything below
    is stated of it. *)

From Stdlib Require Import ZArith Lia Sorting.Sorted.
From stdpp Require Import base numbers option list sorting.
From S2P Require Import Prelude Std IpRange.

Local Open Scope Z_scope.

(** ** Hops *)

Inductive Answer := Silent | Router (address : IpAddr) | Withheld.

#[export] Instance Answer_eq_dec : EqDecision Answer.
Proof. solve_decision. Defined.

Record Hop := mkHop {
  hop_distance : Z;
  hop_answer : Answer;
  hop_rtt : option Z;
  hop_inferred : bool;
}.

#[export] Instance Hop_eq_dec : EqDecision Hop.
Proof. solve_decision. Defined.

Definition hop_answered (distance : Z) (address : IpAddr) (rtt : option Z) : Hop := mkHop distance (Router address) rtt false.

Definition hop_silent (distance : Z) : Hop := mkHop distance Silent None false.

Definition hop_withheld (distance : Z) : Hop := mkHop distance Withheld None false.

(** A round trip belongs to the trace that measured it. *)
Definition as_inferred (h : Hop) : Hop := mkHop (hop_distance h) (hop_answer h) None true.

Definition hop_address (h : Hop) : option IpAddr :=
  match hop_answer h with Router address => Some address | Silent | Withheld => None end.

Definition is_withheld (h : Hop) : bool := bool_decide (hop_answer h = Withheld).

Definition is_answer (h : Hop) : bool := negb (bool_decide (hop_answer h = Silent)).

(** ** Paths *)

Notation NetworkPath := (list Hop).

(** Whether [hop] takes the place of [known], the two at one distance. *)
Definition hop_stronger (known hop : Hop) : bool :=
  match is_answer known, is_answer hop with
  | false, true => true
  | true, false => false
  | _, _ => hop_inferred known && negb (hop_inferred hop)
  end.

Definition path_record (path : NetworkPath) (hop : Hop) : NetworkPath :=
  match binary_search_by (fun known => hop_distance known ?= hop_distance hop) path with
  | Ok index =>
    match path !! index with
    | Some known => if hop_stronger known hop then <[index := hop]> path else path
    | None => path
    end
  | Err index => take index path ++ hop :: drop index path
  end.

Definition withhold_hop (keep : IpAddr -> bool) (h : Hop) : Hop :=
  match hop_answer h with
  | Router address => if keep address then h else mkHop (hop_distance h) Withheld None (hop_inferred h)
  | _ => h
  end.

Definition withheld_by (keep : IpAddr -> bool) (h : Hop) : bool :=
  match hop_answer h with Router address => negb (keep address) | _ => false end.

(** [NetworkPath::withhold]: the path, and whether an address went. *)
Definition path_withhold (keep : IpAddr -> bool) (path : NetworkPath) : NetworkPath * bool :=
  (withhold_hop keep <$> path, existsb (withheld_by keep) path).

Definition path_length (path : NetworkPath) : option Z := hop_distance <$> last path.

Definition path_at (path : NetworkPath) (distance : Z) : option IpAddr :=
  match binary_search_by (fun hop => hop_distance hop ?= distance) path with
  | Ok index => path !! index ≫= hop_address
  | Err _ => None
  end.

(** How [Host::merge] folds a path in: hop by hop. *)
Definition path_merge (path other : NetworkPath) : NetworkPath := foldl path_record path other.

(** ** What a path says of a distance *)

(** One hop to a distance, nearest first. *)
Definition path_ok (path : NetworkPath) : Prop := StronglySorted (fun a b => hop_distance a < hop_distance b) path.

Fixpoint hop_at (path : NetworkPath) (distance : Z) : option Hop :=
  match path with
  | [] => None
  | h :: path => if hop_distance h =? distance then Some h else hop_at path distance
  end.

(** The ranking of [hop_stronger] as a number. *)
Definition hop_strength (h : Hop) : Z := 2 * Z.b2z (is_answer h) + Z.b2z (negb (hop_inferred h)).

Definition stronger_of (known hop : Hop) : Hop := if hop_strength known <? hop_strength hop then hop else known.

Lemma hop_stronger_strength known hop : hop_stronger known hop = (hop_strength known <? hop_strength hop).
Proof. unfold hop_stronger, hop_strength. by destruct (is_answer known), (is_answer hop), (hop_inferred known), (hop_inferred hop). Qed.

Lemma hop_at_distance path d h : hop_at path d = Some h -> hop_distance h = d.
Proof. induction path as [|k path IH]; [done|]. cbn. case (Z.eqb_spec (hop_distance k) d); [by intros E [= <-]|]. by intros _ ?%IH. Qed.

Lemma hop_at_elem path d h : hop_at path d = Some h -> h ∈ path.
Proof.
  induction path as [|k path IH]; [done|]. cbn. rewrite elem_of_cons. case (Z.eqb_spec (hop_distance k) d); [intros _ [= <-]; by left|].
  intros _ ?%IH. by right.
Qed.

Lemma hop_at_none path d : hop_at path d = None <-> Forall (fun h => hop_distance h <> d) path.
Proof.
  induction path as [|k path IH]; [by split|]. cbn. rewrite Forall_cons, <- IH. case (Z.eqb_spec (hop_distance k) d); naive_solver.
Qed.

Lemma hop_at_app a b d : hop_at (a ++ b) d = match hop_at a d with Some h => Some h | None => hop_at b d end.
Proof. induction a as [|k a IH]; [done|]. cbn. by case (hop_distance k =? d). Qed.

Lemma hop_at_lookup path i h : path_ok path -> path !! i = Some h -> hop_at path (hop_distance h) = Some h.
Proof.
  intros Hs. revert i. induction Hs as [|k path Hs IH Hall]; intros i Hi; [done|]. destruct i as [|i]; cbn in *.
  - simplify_eq. by rewrite Z.eqb_refl.
  - rewrite (IH i Hi). case (Z.eqb_spec (hop_distance k) (hop_distance h)) as [E|]; [|done].
    pose proof (Forall_lookup_1 _ _ _ _ Hall Hi). cbn in *. lia.
Qed.

(** Two paths that say the same of every distance are the same. *)
Lemma path_ext p q : path_ok p -> path_ok q -> (forall d, hop_at p d = hop_at q d) -> p = q.
Proof.
  intros Hp. revert q. induction Hp as [|a p Hp IH Ha]; intros q Hq E.
  - destruct q as [|b q]; [done|]. specialize (E (hop_distance b)). cbn in E. by rewrite Z.eqb_refl in E.
  - destruct q as [|b q]; [specialize (E (hop_distance a)); cbn in E; by rewrite Z.eqb_refl in E|].
    apply StronglySorted_inv in Hq as [Hq Hb].
    assert (forall (c : Hop) r d, Forall (fun x => hop_distance c < hop_distance x) r -> d <= hop_distance c -> hop_at r d = None) as Hbelow.
    { intros c r d Hc Hd. apply hop_at_none. eapply Forall_impl; [exact Hc|]. cbn. intros. lia. }
    assert (a = b) as ->.
    { pose proof (E (hop_distance a)) as Ea. pose proof (E (hop_distance b)) as Eb. cbn in Ea, Eb. rewrite Z.eqb_refl in Ea, Eb.
      destruct (Z.eqb_spec (hop_distance b) (hop_distance a)) as [Eq|Ne]; [by injection Ea|].
      destruct (Z.eqb_spec (hop_distance a) (hop_distance b)) as [?|_]; [congruence|].
      destruct (Z.le_gt_cases (hop_distance a) (hop_distance b)) as [Hle|Hgt]; [by rewrite (Hbelow b q) in Ea by (done || lia)|].
      by rewrite (Hbelow a p) in Eb by (done || lia). }
    f_equal. apply IH; [done|]. intros d. specialize (E d). cbn in E. destruct (Z.eqb_spec (hop_distance b) d) as [Ed|]; [|done].
    rewrite (Hbelow b p), (Hbelow b q); [done|done|lia|done|lia].
Qed.

Lemma path_searchable path d : path_ok path -> searchable (fun h => hop_distance h ?= d) path.
Proof.
  intros Hs. eapply sorted_weaken; [|exact Hs]. intros a b _ _ Hab. cbn in Hab.
  destruct (Z.compare_spec (hop_distance a) d), (Z.compare_spec (hop_distance b) d); simpl; lia.
Qed.

(** ** Recording *)

(** What a search finds, in terms of [hop_at]. *)
Lemma path_search path d :
  path_ok path ->
  match binary_search_by (fun h => hop_distance h ?= d) path with
  | Ok i => exists h, path !! i = Some h /\ hop_distance h = d /\ hop_at path d = Some h
  | Err i => (i <= length path)%nat /\ hop_at path d = None /\
             Forall (fun h => hop_distance h < d) (take i path) /\ Forall (fun h => d < hop_distance h) (drop i path)
  end.
Proof.
  intros Hs. pose proof (binary_search_by_spec _ path (path_searchable path d Hs)) as H.
  destruct (binary_search_by _ path) as [i|i].
  - destruct H as (h & Hi & E%Z.compare_eq & _). exists h. split_and!; [done|done|]. rewrite <- E. by eapply hop_at_lookup.
  - destruct H as (Hlen & Hlt & Hgt).
    assert (Forall (fun h => hop_distance h < d) (take i path)) as Ht.
    { apply Forall_lookup. intros j h [Hj Hji]%lookup_take_Some. apply Z.compare_lt_iff. by apply (Hlt j). }
    assert (Forall (fun h => d < hop_distance h) (drop i path)) as Hd.
    { apply Forall_lookup. intros j h Hj. rewrite lookup_drop in Hj. apply Z.compare_gt_iff. apply (Hgt (i + j)%nat); [lia|done]. }
    split_and!; [done| |done|done]. apply hop_at_none. rewrite <- (take_drop i path). apply Forall_app.
    split; (eapply Forall_impl; [eassumption|]); cbn; lia.
Qed.

Lemma path_ok_middle a h b :
  path_ok (a ++ h :: b) <->
  Forall (fun x => hop_distance x < hop_distance h) a /\ Forall (fun x => hop_distance h < hop_distance x) b /\ path_ok (a ++ b).
Proof.
  unfold path_ok. rewrite !StronglySorted_app, StronglySorted_cons. setoid_rewrite elem_of_cons. rewrite !Forall_forall. naive_solver.
Qed.

Lemma path_record_spec path hop :
  path_ok path ->
  path_ok (path_record path hop) /\
  forall d, hop_at (path_record path hop) d =
    if d =? hop_distance hop then
      Some (match hop_at path d with Some known => stronger_of known hop | None => hop end)
    else hop_at path d.
Proof.
  intros Hs. unfold path_record. pose proof (path_search path (hop_distance hop) Hs) as H.
  destruct (binary_search_by _ path) as [i|i].
  - destruct H as (known & Hi & Ed & Hat). rewrite Hi. rewrite hop_stronger_strength.
    destruct (hop_strength known <? hop_strength hop) eqn:Est; cycle 1.
    { split; [done|]. intros d. destruct (Z.eqb_spec d (hop_distance hop)) as [->|]; [|done]. rewrite Hat. unfold stronger_of. by rewrite Est. }
    rewrite insert_take_drop by by eapply lookup_lt_Some. apply take_drop_middle in Hi. rewrite <- Hi in Hs.
    apply path_ok_middle in Hs as (Hb & Ha & Hrest). rewrite Ed in Hb, Ha. split; [by apply path_ok_middle|].
    intros d. rewrite hop_at_app. cbn. rewrite Z.eqb_sym. destruct (Z.eqb_spec d (hop_distance hop)) as [->|Hne].
    + rewrite Hat. unfold stronger_of. rewrite Est. rewrite (proj2 (hop_at_none _ _)); [done|]. eapply Forall_impl; [exact Hb|]. cbn. lia.
    + transitivity (hop_at (take i path ++ known :: drop (S i) path) d); [|by rewrite Hi]. rewrite hop_at_app. cbn. destruct (Z.eqb_spec (hop_distance known) d); [congruence|done].
  - destruct H as (Hlen & Hnone & Ht & Hd). split.
    + apply path_ok_middle. by rewrite take_drop.
    + intros d. rewrite hop_at_app. cbn. rewrite Z.eqb_sym. destruct (Z.eqb_spec d (hop_distance hop)) as [->|Hne].
      * rewrite Hnone. rewrite (proj2 (hop_at_none _ _)); [done|]. eapply Forall_impl; [exact Ht|]. cbn. lia.
      * rewrite <- hop_at_app. by rewrite take_drop.
Qed.

(** ** Folding two paths *)

(** What two accounts of one distance come to. *)
Definition stronger_opt (known hop : option Hop) : option Hop :=
  match known, hop with
  | Some known, Some hop => Some (stronger_of known hop)
  | Some h, None | None, Some h => Some h
  | None, None => None
  end.

Lemma path_merge_spec path other :
  path_ok path -> path_ok other ->
  path_ok (path_merge path other) /\ forall d, hop_at (path_merge path other) d = stronger_opt (hop_at path d) (hop_at other d).
Proof.
  intros Hp Ho. revert path Hp. induction Ho as [|h other Ho IH Hall]; intros path Hp; cbn.
  { split; [done|]. intros d. by destruct (hop_at path d). }
  destruct (path_record_spec path h Hp) as [Hok Hat]. destruct (IH _ Hok) as [Hok' Hat']. split; [done|].
  intros d. unfold path_merge in Hat'. rewrite Hat', Hat. rewrite (Z.eqb_sym (hop_distance h)). destruct (Z.eqb_spec d (hop_distance h)) as [->|]; [|done].
  rewrite (proj2 (hop_at_none other _)) by (eapply Forall_impl; [exact Hall|]; cbn; lia). by destruct (hop_at path _).
Qed.

Lemma path_withhold_ok keep path : path_ok path -> path_ok (fst (path_withhold keep path)).
Proof.
  intros Hp. cbn. apply sorted_fmap. eapply sorted_weaken; [|exact Hp]. intros a b _ _. unfold withhold_hop.
  destruct (hop_answer a), (hop_answer b); repeat case_match; done.
Qed.

(** No address the policy refuses is left, no distance goes, and what answered still did. *)
Lemma path_withhold_spec keep path :
  path_ok path ->
  Forall (fun h => forall a, hop_address h = Some a -> keep a = true) (fst (path_withhold keep path)) /\
  (forall d, hop_strength <$> hop_at (fst (path_withhold keep path)) d = hop_strength <$> hop_at path d) /\
  (snd (path_withhold keep path) = false <-> fst (path_withhold keep path) = path).
Proof.
  intros Hp. cbn. split_and!.
  - apply Forall_fmap, Forall_true. intros h a. cbn. unfold withhold_hop, hop_address. destruct (hop_answer h) as [|b|] eqn:E; cbn; rewrite ?E; try done.
    destruct (keep b) eqn:Ek; cbn; rewrite ?E; congruence.
  - intros d. clear Hp. induction path as [|h path IH]; [done|]. cbn.
    assert (hop_distance (withhold_hop keep h) = hop_distance h /\ hop_strength (withhold_hop keep h) = hop_strength h) as [-> Hst].
    { unfold withhold_hop. destruct (hop_answer h) eqn:E; [done| |done]. destruct (keep address); [done|]. unfold hop_strength, is_answer. cbn. by rewrite E. }
    destruct (_ =? d); [cbn; congruence|apply IH].
  - clear Hp. induction path as [|h path IH]; [done|]. cbn. rewrite orb_false_iff, IH. unfold withheld_by, withhold_hop.
    assert (false = false /\ withhold_hop keep <$> path = path <-> h :: (withhold_hop keep <$> path) = h :: path) as Hsame.
    { split; [intros [_ E1]; by f_equal|]. intros E1. by injection E1. }
    destruct (hop_answer h) as [|a|] eqn:E; [done| |done]. destruct (keep a); cbn; [done|].
    split; [by intros [? _]|]. intros E1. injection E1 as Eh _. by rewrite <- Eh in E.
Qed.

(** Whichever of two accounts of a route is folded into the other, each distance is left
    with the strongest hop either holds, and with the same hop unless two are equally strong. *)
Theorem path_merge_order_free path other :
  path_ok path -> path_ok other ->
  path_ok (path_merge path other) /\
  forall d, hop_strength <$> hop_at (path_merge path other) d = hop_strength <$> hop_at (path_merge other path) d /\
    (hop_strength <$> hop_at path d <> hop_strength <$> hop_at other d -> hop_at (path_merge path other) d = hop_at (path_merge other path) d).
Proof.
  intros Hp Ho. destruct (path_merge_spec path other Hp Ho) as [Hok Hat].
  destruct (path_merge_spec other path Ho Hp) as [_ Hat2]. split; [done|]. intros d. rewrite Hat, Hat2.
  destruct (hop_at path d) as [a|], (hop_at other d) as [b|]; cbn; [|done..]. unfold stronger_of.
  destruct (Z.ltb_spec (hop_strength a) (hop_strength b)), (Z.ltb_spec (hop_strength b) (hop_strength a)); split; try done; try lia; cbn; intros; f_equal; lia || (exfalso; apply H1; f_equal; lia).
Qed.

(** Two measured answers from one distance are equally strong, so the one heard first stands
    and the order they came in shows. *)
Example first_of_equal_hops_stands :
  let a := hop_answered 3 (V4 1) (Some 10) in
  let b := hop_answered 3 (V4 2) (Some 20) in
  path_at (path_record (path_record [] a) b) 3 = Some (V4 1) /\ path_at (path_record (path_record [] b) a) 3 = Some (V4 2).
Proof. done. Qed.
