(* ===== verification/Status.v ===== *)
(** * Verdicts and names

    The small types a host's record is made of: [model/host/status.rs] (whether a host is
    there and what says so), [model/host/protocol.rs] (which IP protocols its stack takes),
    [model/host/name.rs] (the names it gives for itself) and the roles and filters of
    [model/host.rs].  A verdict is promoted along its order and never lowered, so an order
    here is a number and [promote] is its maximum. *)

From Stdlib Require Import ZArith Lia.
From stdpp Require Import base numbers option list gmap.
From S2P Require Import Prelude Std Text Ordering IpRange.

Local Open Scope Z_scope.

(** ** Reachability *)

Inductive HostStatus := StatusUnknown | StatusDown | StatusBlocked | StatusUp.

#[export] Instance HostStatus_eq_dec : EqDecision HostStatus.
Proof. solve_decision. Defined.

(** The order derived for [HostStatus]. *)
Definition status_rank (s : HostStatus) : Z := match s with StatusUnknown => 0 | StatusDown => 1 | StatusBlocked => 2 | StatusUp => 3 end.

(** [if status > self.status { self.status = status; }]. *)
Definition promote {A} (rank : A -> Z) (held offered : A) : A := if rank held <? rank offered then offered else held.

Definition status_is_alive (s : HostStatus) : bool := match s with StatusUp | StatusBlocked => true | _ => false end.

Inductive StatusProtocol :=
  | PArp | PNdp | PIcmpEcho | PIcmpTimestamp | PIcmpUnreachable | PTcpSyn | PTcpConnect | PTcp | PDhcp | PUdp | PSctp
  | PCustom (name : text).

#[export] Instance StatusProtocol_eq_dec : EqDecision StatusProtocol.
Proof. solve_decision. Defined.

Inductive EvidenceSource := FromHost | Intermediary (address : IpAddr) | SourceWithheld.

#[export] Instance EvidenceSource_eq_dec : EqDecision EvidenceSource.
Proof. solve_decision. Defined.

Definition evidence_address (s : EvidenceSource) : option IpAddr :=
  match s with Intermediary address => Some address | FromHost | SourceWithheld => None end.

(** [EvidenceSource::withhold]. *)
Definition evidence_withhold (keep : IpAddr -> bool) (s : EvidenceSource) : EvidenceSource :=
  match s with Intermediary address => if keep address then s else SourceWithheld | _ => s end.

Record StatusReason := mkStatusReason {
  sr_protocol : StatusProtocol;
  sr_source : EvidenceSource;
  sr_details : option text;
}.

#[export] Instance StatusReason_eq_dec : EqDecision StatusReason.
Proof. solve_decision. Defined.

Definition reason_new (protocol : StatusProtocol) (details : text) : StatusReason := mkStatusReason protocol FromHost (Some details).

Definition reason_basic (protocol : StatusProtocol) : StatusReason := mkStatusReason protocol FromHost None.

Definition reason_from_source (source : IpAddr) (r : StatusReason) : StatusReason :=
  mkStatusReason (sr_protocol r) (Intermediary source) (sr_details r).

Definition reason_withhold (keep : IpAddr -> bool) (r : StatusReason) : StatusReason :=
  mkStatusReason (sr_protocol r) (evidence_withhold keep (sr_source r)) (sr_details r).

(** ** IP protocols *)

Inductive IpProtocolState := IpUnasked | IpOpenOrNoReply | IpBlocked | IpClosed | IpOpen.

#[export] Instance IpProtocolState_eq_dec : EqDecision IpProtocolState.
Proof. solve_decision. Defined.

Definition ip_protocol_rank (s : IpProtocolState) : Z :=
  match s with IpUnasked => 0 | IpOpenOrNoReply => 1 | IpBlocked => 2 | IpClosed => 3 | IpOpen => 4 end.

Definition ip_protocol_answers (s : IpProtocolState) : bool := match s with IpOpen | IpClosed => true | _ => false end.

(** ** Roles and filters *)

Inductive NetworkRole := RoleRouter | RoleDnsServer | RoleDhcpServer | RoleNtpServer | RoleSnmpAgent | RoleDomainController | RoleSwitch | RoleOrigin | RoleTarpit | RoleTruncated.

#[export] Instance NetworkRole_eq_dec : EqDecision NetworkRole.
Proof. solve_decision. Defined.

Inductive Filtering := InlineMiddlebox | StatefulFilter | PortTrustingAcl | StatelessFilter.

#[export] Instance Filtering_eq_dec : EqDecision Filtering.
Proof. solve_decision. Defined.

(** ** Names *)

Definition MAX_NAME_CHARS : nat := 255.

Inductive NameKind := NameHost | NameNetbiosHost | NameDomain | NameNetbiosDomain | NameForest.

#[export] Instance NameKind_eq_dec : EqDecision NameKind.
Proof. solve_decision. Defined.

Inductive NameSource := SourceNtlm | SourceLdap | SourceKerberos | SourceSmb | SourceNetbios | SourceL2tp.

#[export] Instance NameSource_eq_dec : EqDecision NameSource.
Proof. solve_decision. Defined.

Record HostName := mkHostName {
  hn_kind : NameKind;
  hn_source : NameSource;
  hn_name : text;
}.

#[export] Instance HostName_eq_dec : EqDecision HostName.
Proof. solve_decision. Defined.

(** [char::is_control]: the category [Cc]. *)
Definition is_control (c : Z) : bool := in_range 0 0x1f c || in_range 0x7f 0x9f c.

Definition host_name_new (kind : NameKind) (source : NameSource) (name : text) : option HostName :=
  let name := trim name in
  if negb (bool_decide (name = [])) && (length name <=? MAX_NAME_CHARS)%nat && negb (existsb is_control name)
  then Some (mkHostName kind source name) else None.

Definition name_kind_rank (k : NameKind) : Z :=
  match k with NameHost => 0 | NameNetbiosHost => 1 | NameDomain => 2 | NameNetbiosDomain => 3 | NameForest => 4 end.

Definition name_source_rank (s : NameSource) : Z :=
  match s with SourceNtlm => 0 | SourceLdap => 1 | SourceKerberos => 2 | SourceSmb => 3 | SourceNetbios => 4 | SourceL2tp => 5 end.

(** The order derived for [HostName]: by kind, then source, then the name. *)
Definition host_name_cmp (a b : HostName) : comparison :=
  then_cmp (name_kind_rank (hn_kind a) ?= name_kind_rank (hn_kind b))
    (then_cmp (name_source_rank (hn_source a) ?= name_source_rank (hn_source b)) (str_cmp (hn_name a) (hn_name b))).

Definition host_name_leb (a b : HostName) : bool := match host_name_cmp a b with Gt => false | _ => true end.

(** ** Countable, for the sets a host keeps *)

#[export] Instance NetworkRole_countable : Countable NetworkRole.
Proof.
  refine (inj_countable' (fun r => match r with
    | RoleRouter => 0 | RoleDnsServer => 1 | RoleDhcpServer => 2 | RoleNtpServer => 3 | RoleSnmpAgent => 4 | RoleDomainController => 5 | RoleSwitch => 6
    | RoleOrigin => 7 | RoleTarpit => 8 | RoleTruncated => 9 end)
    (fun n => match n with
    | 0 => RoleRouter | 1 => RoleDnsServer | 2 => RoleDhcpServer | 3 => RoleNtpServer | 4 => RoleSnmpAgent | 5 => RoleDomainController | 6 => RoleSwitch
    | 7 => RoleOrigin | 8 => RoleTarpit | _ => RoleTruncated end) _). by intros [].
Defined.

#[export] Instance Filtering_countable : Countable Filtering.
Proof.
  refine (inj_countable' (fun r => match r with InlineMiddlebox => 0 | StatefulFilter => 1 | PortTrustingAcl => 2 | StatelessFilter => 3 end)
    (fun n => match n with 0 => InlineMiddlebox | 1 => StatefulFilter | 2 => PortTrustingAcl | _ => StatelessFilter end) _). by intros [].
Defined.

#[export] Instance NameKind_countable : Countable NameKind.
Proof.
  refine (inj_countable' name_kind_rank
    (fun n => match n with 0 => NameHost | 1 => NameNetbiosHost | 2 => NameDomain | 3 => NameNetbiosDomain | _ => NameForest end) _). by intros [].
Defined.

#[export] Instance NameSource_countable : Countable NameSource.
Proof.
  refine (inj_countable' name_source_rank
    (fun n => match n with 0 => SourceNtlm | 1 => SourceLdap | 2 => SourceKerberos | 3 => SourceSmb | 4 => SourceNetbios | _ => SourceL2tp end) _).
  by intros [].
Defined.

#[export] Instance HostName_countable : Countable HostName.
Proof.
  refine (inj_countable' (fun n => (hn_kind n, hn_source n, hn_name n)) (fun '(k, s, n) => mkHostName k s n) _). by intros [].
Defined.

#[export] Instance StatusProtocol_countable : Countable StatusProtocol.
Proof.
  refine (inj_countable' (fun p => match p with
    | PArp => (0, []) | PNdp => (1, []) | PIcmpEcho => (2, []) | PIcmpTimestamp => (3, []) | PIcmpUnreachable => (4, []) | PTcpSyn => (5, [])
    | PTcpConnect => (6, []) | PTcp => (7, []) | PDhcp => (8, []) | PUdp => (9, []) | PSctp => (10, []) | PCustom n => (11, n) end)
    (fun '(k, n) => match k with
    | 0 => PArp | 1 => PNdp | 2 => PIcmpEcho | 3 => PIcmpTimestamp | 4 => PIcmpUnreachable | 5 => PTcpSyn
    | 6 => PTcpConnect | 7 => PTcp | 8 => PDhcp | 9 => PUdp | 10 => PSctp | _ => PCustom n end) _). by intros [].
Defined.

#[export] Instance EvidenceSource_countable : Countable EvidenceSource.
Proof.
  refine (inj_countable' (fun s => match s with FromHost => inl true | SourceWithheld => inl false | Intermediary a => inr a end)
    (fun s => match s with inl true => FromHost | inl false => SourceWithheld | inr a => Intermediary a end) _). by intros [].
Defined.

#[export] Instance StatusReason_countable : Countable StatusReason.
Proof.
  refine (inj_countable' (fun r => (sr_protocol r, sr_source r, sr_details r)) (fun '(p, s, d) => mkStatusReason p s d) _). by intros [].
Defined.

(** ** Laws *)

(** A verdict is the strongest offered, in whatever order they came. *)
Section Promote.
Context {A : Type} (rank : A -> Z) (rank_inj : forall a b, rank a = rank b -> a = b).

Lemma promote_rank a b : rank (promote rank a b) = Z.max (rank a) (rank b).
Proof. unfold promote. destruct (Z.ltb_spec (rank a) (rank b)); lia. Qed.

Lemma promote_comm a b : promote rank a b = promote rank b a.
Proof. apply rank_inj. rewrite !promote_rank. lia. Qed.

Lemma promote_assoc a b c : promote rank (promote rank a b) c = promote rank a (promote rank b c).
Proof. apply rank_inj. rewrite !promote_rank. lia. Qed.

Lemma promote_idem a : promote rank a a = a.
Proof. unfold promote. by rewrite Z.ltb_irrefl. Qed.
End Promote.

Lemma status_rank_inj a b : status_rank a = status_rank b -> a = b.
Proof. by destruct a, b. Qed.

Lemma ip_protocol_rank_inj a b : ip_protocol_rank a = ip_protocol_rank b -> a = b.
Proof. by destruct a, b. Qed.

(** A name held is trimmed, not empty, of bounded length and free of control characters. *)
Lemma host_name_new_ok kind source name n :
  host_name_new kind source name = Some n ->
  hn_name n = trim name /\ hn_name n <> [] /\ (length (hn_name n) <= MAX_NAME_CHARS)%nat /\ Forall (fun c => is_control c = false) (hn_name n).
Proof.
  unfold host_name_new. destruct (negb _ && _ && _) eqn:E; [|done]. intros [= <-]. cbn.
  apply andb_true_iff in E as [[E1 E2]%andb_true_iff E3]. apply negb_true_iff in E1, E3. apply bool_decide_eq_false in E1.
  split_and!; [done|done|by apply Nat.leb_le|]. apply Forall_forall. intros c Hc. destruct (is_control c) eqn:Ec; [|done].
  assert (existsb is_control (trim name) = true) as Hx; [|congruence]. apply existsb_elem. by exists c.
Qed.
