(* ===== verification/Hardware.v ===== *)
(** * The hardware behind an address

    [model/host/hardware.rs]: the hardware addresses a host has answered under, each with
    when it was last seen, and what a service said of the box.  The record holds sixty-four
    addresses; past that the one seen longest ago goes, and of two seen at once the lower.
    [latest] says what that leaves: the newest of a map's sightings by time and then by
    address, which is one set whatever order they came in.

    The clock is an argument, and so is the database of registered address blocks
    ([oui]), which is data compiled into the crate. *)

From Stdlib Require Import ZArith Lia Sorting.Sorted.
From stdpp Require Import base numbers option list gmap sorting.
From S2P Require Import Prelude Std Text Ordering Mac Finding.

Local Open Scope Z_scope.

Definition MAX_MACS_PER_HOST : nat := 64.

Record HardwareInfo := mkHardwareInfo {
  hw_macs : gmap MacAddr Z;
  hw_vendor : option text;
  hw_product : option text;
  hw_family : option text;
  hw_cpe23 : option text;
  hw_model : option text;
  hw_version : option text;
  hw_serial_number : option text;
}.

Definition set_macs (macs : gmap MacAddr Z) (h : HardwareInfo) : HardwareInfo :=
  mkHardwareInfo macs (hw_vendor h) (hw_product h) (hw_family h) (hw_cpe23 h) (hw_model h) (hw_version h) (hw_serial_number h).

Definition set_vendor (vendor : option text) (h : HardwareInfo) : HardwareInfo :=
  mkHardwareInfo (hw_macs h) vendor (hw_product h) (hw_family h) (hw_cpe23 h) (hw_model h) (hw_version h) (hw_serial_number h).

(** By when each was seen, and then by address: the key eviction takes the least of. *)
Definition sighting_cmp (a b : MacAddr * Z) : comparison := then_cmp (snd a ?= snd b) (str_cmp (fst a) (fst b)).

Definition sighting_leb (a b : MacAddr * Z) : bool := match sighting_cmp a b with Gt => false | _ => true end.

(** The sightings of a record, oldest first. *)
Definition oldest_first (macs : gmap MacAddr Z) : list (MacAddr * Z) := sort_by sighting_leb (map_to_list macs).

Fixpoint evict (fuel : nat) (macs : gmap MacAddr Z) : gmap MacAddr Z :=
  match fuel with
  | O => macs
  | S fuel =>
    if (MAX_MACS_PER_HOST <? size macs)%nat then
      match head (oldest_first macs) with
      | Some (oldest, _) => evict fuel (delete oldest macs)
      | None => macs
      end
    else macs
  end.

(** [evict_oldest_past_the_bound]: each turn takes one address out. *)
Definition evict_oldest (macs : gmap MacAddr Z) : gmap MacAddr Z := evict (size macs) macs.

Section Hardware.
(** [mac::vendor]. *)
Variable oui : MacAddr -> option text.

Definition hardware_new (now : Z) (mac : MacAddr) : HardwareInfo :=
  mkHardwareInfo {[ mac := now ]} (oui mac) None None None None None None.

Definition record_mac_seen_at (mac : MacAddr) (at_ : Z) (h : HardwareInfo) : HardwareInfo :=
  let is_new := bool_decide (hw_macs h !! mac = None) in
  let h' := set_macs (<[mac := at_]> (hw_macs h)) h in
  if is_new then
    let h' := set_macs (evict_oldest (hw_macs h')) h' in
    if is_some (hw_vendor h') then h' else set_vendor (oui mac) h'
  else h'.

Definition add_mac (now : Z) (mac : MacAddr) (h : HardwareInfo) : HardwareInfo := record_mac_seen_at mac now h.

(** [registered_vendor]: the newest address with a registered block answers; the sort is
    stable over the ascending addresses. *)
Definition registered_vendor (h : HardwareInfo) : option text :=
  let by_address := sort_by (fun a b => match str_cmp (fst a) (fst b) with Gt => false | _ => true end) (map_to_list (hw_macs h)) in
  let newest_first := sort_by (fun a b => snd b <=? snd a) by_address in
  head (omap (fun '(mac, _) => oui mac) newest_first).
End Hardware.

(** [most_recent_mac]: [max_by_key] keeps the last of the greatest, so the highest address
    of those seen last. *)
Definition most_recent_mac (h : HardwareInfo) : option MacAddr := fst <$> last (oldest_first (hw_macs h)).

Definition prune_stale_macs (cutoff : Z) (h : HardwareInfo) : HardwareInfo :=
  set_macs (filter (fun '(_, last_seen) => cutoff <= last_seen) (hw_macs h)) h.

Definition names_something (h : HardwareInfo) : bool :=
  is_some (hw_vendor h) || is_some (hw_product h) || is_some (hw_family h) || is_some (hw_cpe23 h) || is_some (hw_model h) ||
  is_some (hw_version h) || is_some (hw_serial_number h).

(** [HardwareInfo::described], of the fields of a [HardwareDescription]. *)
Definition described (vendor product family cpe23 model version serial_number : option text) : option HardwareInfo :=
  let built := mkHardwareInfo ∅ vendor product family cpe23 model version serial_number in
  if names_something built then Some built else None.

Definition names_more_than_a_vendor (h : HardwareInfo) : bool :=
  is_some (hw_product h) || is_some (hw_family h) || is_some (hw_cpe23 h) || is_some (hw_model h).

(** One address of the other record, folded in: the newer sighting stands. *)
Definition fold_sighting (macs : gmap MacAddr Z) (mac : MacAddr) (time : Z) : gmap MacAddr Z :=
  match macs !! mac with
  | Some t => if t <? time then <[mac := time]> macs else macs
  | None => <[mac := time]> macs
  end.

Definition hardware_merge (self other : HardwareInfo) : HardwareInfo :=
  let describes_a_box := names_more_than_a_vendor other in
  let macs := foldl (fun m '(mac, time) => fold_sighting m mac time) (hw_macs self) (map_to_list (hw_macs other)) in
  mkHardwareInfo (evict_oldest macs)
    (if negb (is_some (hw_vendor self)) || (is_some (hw_vendor other) && describes_a_box) then or_else (hw_vendor other) (hw_vendor self)
     else hw_vendor self)
    (or_else (hw_product self) (hw_product other))
    (or_else (hw_family self) (hw_family other))
    (or_else (hw_cpe23 self) (hw_cpe23 other))
    (or_else (hw_model self) (hw_model other))
    (or_else (hw_version self) (hw_version other))
    (or_else (hw_serial_number self) (hw_serial_number other)).

(** ** What eviction leaves *)

#[export] Instance sighting_order : CmpOrder sighting_cmp.
Proof. apply then_order; [apply (pullback_order snd Z.compare)|apply (pullback_order fst str_cmp)]; try apply _; done. Qed.

Lemma sighting_cmp_eq a b : sighting_cmp a b = Eq -> a = b.
Proof.
  unfold sighting_cmp. destruct a as [a t], b as [b u]. cbn. destruct (Z.compare_spec t u) as [->|?|?]; [|done..]. by intros ->%str_cmp_eq.
Qed.

Lemma sighting_leb_total a b : sighting_leb a b = true \/ sighting_leb b a = true.
Proof. unfold sighting_leb. rewrite (cmp_opp a b). destruct (sighting_cmp a b); auto. Qed.

Lemma sighting_leb_trans a b c : sighting_leb a b = true -> sighting_leb b c = true -> sighting_leb a c = true.
Proof.
  unfold sighting_leb. intros H1 H2. pose proof (cmp_le_trans sighting_cmp a b c) as Ht.
  destruct (sighting_cmp a b), (sighting_cmp b c), (sighting_cmp a c); try done; by (exfalso; apply Ht).
Qed.

Lemma elem_of_oldest_first m mac t : (mac, t) ∈ oldest_first m <-> m !! mac = Some t.
Proof. unfold oldest_first. rewrite elem_of_sort_by. apply elem_of_map_to_list. Qed.

(** The first is older than every other. *)
Lemma oldest_first_head m mac t :
  head (oldest_first m) = Some (mac, t) ->
  m !! mac = Some t /\ forall mac' t', m !! mac' = Some t' -> mac' <> mac -> sighting_cmp (mac, t) (mac', t') = Lt.
Proof.
  pose proof (sort_by_sorted sighting_leb sighting_leb_total sighting_leb_trans (map_to_list m)) as Hs.
  fold (oldest_first m) in Hs. intros Hh. split.
  - apply elem_of_oldest_first. destruct (oldest_first m); [done|]. injection Hh as ->. by left.
  - intros mac' t' Hm Hne. apply elem_of_oldest_first in Hm. destruct (oldest_first m) as [|x l]; [done|]. injection Hh as ->.
    apply elem_of_cons in Hm as [[= -> ->]|Hm]; [done|]. apply StronglySorted_inv in Hs as [_ Hall].
    pose proof (proj1 (Forall_forall _ _) Hall _ Hm) as Hle. unfold sighting_leb in Hle.
    destruct (sighting_cmp (mac, t) (mac', t')) eqn:E; [|done|done]. by apply sighting_cmp_eq in E as [= -> ->].
Qed.

(** [r] is what is left of [m] when the oldest make room. *)
Definition latest (m r : gmap MacAddr Z) : Prop :=
  r ⊆ m /\ size r = Nat.min MAX_MACS_PER_HOST (size m) /\
  forall mac t mac' t', r !! mac = Some t -> m !! mac' = Some t' -> r !! mac' = None -> sighting_cmp (mac', t') (mac, t) = Lt.

Lemma not_subseteq (m r r' : gmap MacAddr Z) : r ⊆ m -> r' ⊆ m -> ~ r ⊆ r' -> exists mac t, r !! mac = Some t /\ r' !! mac = None.
Proof.
  intros Hr Hr' Hn. destruct (decide (map_Exists (fun mac t => r' !! mac = None) r)) as [He|He].
  - destruct He as (mac & t & ? & ?). eauto.
  - exfalso. apply Hn. apply map_subseteq_spec. intros mac t Ht. destruct (r' !! mac) as [t'|] eqn:E.
    + eapply lookup_weaken in Ht, E; [|exact Hr'|exact Hr]. congruence.
    + exfalso. apply He. by exists mac, t.
Qed.

Lemma latest_unique m r r' : latest m r -> latest m r' -> r = r'.
Proof.
  intros (Hr & Hsz & Hold) (Hr' & Hsz' & Hold'). destruct (decide (r ⊆ r')) as [Hs|Hn].
  { apply map_subseteq_size_eq; [done|lia]. }
  destruct (decide (r' ⊆ r)) as [Hs|Hn'].
  { symmetry. apply map_subseteq_size_eq; [done|lia]. }
  destruct (not_subseteq m r r') as (a & ta & Ha & Ha'); [done..|]. destruct (not_subseteq m r' r) as (b & tb & Hb & Hb'); [done..|].
  assert (sighting_cmp (b, tb) (a, ta) = Lt) as H1 by (eapply Hold; [done| |done]; by eapply lookup_weaken).
  assert (sighting_cmp (a, ta) (b, tb) = Lt) as H2 by (eapply Hold'; [done| |done]; by eapply lookup_weaken).
  by rewrite cmp_opp, H1 in H2.
Qed.

Lemma latest_small m : (size m <= MAX_MACS_PER_HOST)%nat -> latest m m.
Proof. intros Hs. split_and!; [done|lia|]. intros. congruence. Qed.

Lemma evict_latest fuel m : (size m <= fuel)%nat -> latest m (evict fuel m).
Proof.
  revert m. induction fuel as [|fuel IH]; intros m Hf; [apply (latest_small m); unfold MAX_MACS_PER_HOST; lia|]. cbn [evict].
  destruct (Nat.ltb_spec MAX_MACS_PER_HOST (size m)) as [Hlt|Hle]; [|by apply latest_small].
  destruct (head (oldest_first m)) as [[o t]|] eqn:Eh.
  - apply oldest_first_head in Eh as [Ho Hmin]. pose proof (map_size_delete_Some o m) as Hd. rewrite Ho in Hd. specialize (Hd (mk_is_Some _ _ eq_refl)).
    destruct (IH (delete o m)) as (Hsub & Hsz & Hold); [lia|]. split_and!.
    + etrans; [exact Hsub|apply delete_subseteq].
    + rewrite Hsz, Hd. lia.
    + intros mac u mac' u' Hr Hm Hnone. destruct (decide (mac' = o)) as [->|Hne].
      * rewrite Hm in Ho. injection Ho as ->. eapply lookup_weaken in Hr; [|exact Hsub]. apply lookup_delete_Some in Hr as [Hne Hr].
        apply Hmin; congruence.
      * eapply Hold; [done| |done]. by rewrite lookup_delete_ne.
  - exfalso. destruct (oldest_first m) eqn:E; [|done]. assert (length (oldest_first m) = size m) as Hlen.
    { unfold oldest_first. by rewrite (sort_by_perm sighting_leb (map_to_list m)), length_map_to_list. }
    rewrite E in Hlen. cbn in Hlen. lia.
Qed.

Lemma evict_oldest_latest m : latest m (evict_oldest m).
Proof. by apply evict_latest. Qed.

Lemma evict_oldest_bound m : (size (evict_oldest m) <= MAX_MACS_PER_HOST)%nat.
Proof. destruct (evict_oldest_latest m) as (_ & -> & _). lia. Qed.

(** An address let go of before another arrives would have gone after it too. *)
Lemma evict_insert m mac t : m !! mac = None -> evict_oldest (<[mac := t]> (evict_oldest m)) = evict_oldest (<[mac := t]> m).
Proof.
  intros Hnew. set (e := evict_oldest m). destruct (evict_oldest_latest m) as (He & Hsz & Hold). fold e in He, Hsz, Hold.
  assert (e !! mac = None) as Hnew' by by eapply lookup_weaken_None.
  destruct (evict_oldest_latest (<[mac := t]> e)) as (Hr & Hrsz & Hrold). set (r := evict_oldest (<[mac := t]> e)) in *.
  apply (latest_unique (<[mac := t]> m)); [|apply evict_oldest_latest]. rewrite map_size_insert_None in Hrsz by done.
  split_and!.
  - etrans; [exact Hr|]. by apply insert_mono.
  - rewrite map_size_insert_None by done. lia.
  - intros a ta b tb Ha Hb Hnone. destruct (<[mac := t]> e !! b) as [tb'|] eqn:Eb.
    { assert (<[mac := t]> m !! b = Some tb') as Hb' by (eapply lookup_weaken; [exact Eb|by apply insert_mono]).
      rewrite Hb in Hb'. injection Hb' as <-. by eapply Hrold. }
    apply lookup_insert_None in Eb as [Eb Hne]. rewrite lookup_insert_ne in Hb by done.
    pose proof (lookup_weaken _ _ _ _ Ha Hr) as Hae. apply lookup_insert_Some in Hae as [[<- <-]|[_ Hae]]; [|by eapply Hold].
    assert (size m <= MAX_MACS_PER_HOST \/ MAX_MACS_PER_HOST < size m)%nat as [Hsm|Hbig] by lia.
    { assert (e = m) as Hem by (apply map_subseteq_size_eq; [done|lia]). congruence. }
    destruct (decide (e ⊆ r)) as [Her|Her].
    { exfalso. assert (<[mac := t]> e ⊆ r) as Hsub by (by apply insert_subseteq_l).
      apply map_subseteq_size in Hsub. rewrite map_size_insert_None in Hsub by done. lia. }
    destruct (not_subseteq (<[mac := t]> e) e r) as (z & tz & Hz & Hzr); [by apply insert_subseteq|done|done|].
    eapply (cmp_lt (cmp := sighting_cmp)); [by eapply Hold|]. eapply Hrold; [exact Ha| |exact Hzr].
    rewrite lookup_insert_ne; [done|]. intros ->. congruence.
Qed.

(** ** What a record of hardware holds *)

Definition hardware_ok (h : HardwareInfo) : Prop := (size (hw_macs h) <= MAX_MACS_PER_HOST)%nat.


Definition sightings_union (m n : gmap MacAddr Z) : gmap MacAddr Z := union_with (fun a b => Some (Z.max a b)) m n.

Lemma fold_sightings m n : foldl (fun m '(mac, time) => fold_sighting m mac time) m (map_to_list n) = sightings_union m n.
Proof.
  apply map_eq. intros k. unfold sightings_union. rewrite lookup_union_with.
  transitivity (union_with (fun a b => Some (Z.max a b)) (m !! k) (list_to_map (M := gmap MacAddr Z) (map_to_list n) !! k)); [|by rewrite list_to_map_to_list].
  pose proof (NoDup_fst_map_to_list n) as Hnd. revert m. generalize dependent (map_to_list n). intros l. induction l as [|[mac t] l IH]; intros Hnd m; cbn.
  { rewrite lookup_empty. by destruct (m !! k). }
  apply NoDup_cons in Hnd as [Hout Hnd]. rewrite (IH Hnd). destruct (decide (k = mac)) as [->|Hne].
  - rewrite (not_elem_of_list_to_map_1 l mac) by done. rewrite lookup_insert_eq. unfold fold_sighting. destruct (m !! mac) as [u|] eqn:E; cbn.
    + destruct (Z.ltb_spec u t); [rewrite lookup_insert_eq|rewrite E]; cbn; f_equal; lia.
    + by rewrite lookup_insert_eq.
  - rewrite lookup_insert_ne by done. f_equal. unfold fold_sighting. destruct (m !! mac); [destruct (_ <? _)|]; try done; by rewrite lookup_insert_ne.
Qed.

Lemma sightings_union_comm m n : sightings_union m n = sightings_union n m.
Proof.
  apply map_eq. intros k. unfold sightings_union. rewrite !lookup_union_with. destruct (m !! k), (n !! k); cbn; try done. f_equal. lia.
Qed.

Lemma hardware_merge_macs a b : hw_macs (hardware_merge a b) = evict_oldest (sightings_union (hw_macs a) (hw_macs b)).
Proof. cbn. by rewrite fold_sightings. Qed.

Lemma hardware_merge_ok a b : hardware_ok (hardware_merge a b).
Proof. unfold hardware_ok. rewrite hardware_merge_macs. apply evict_oldest_bound. Qed.

Section Sightings.
Variable oui : MacAddr -> option text.

Lemma record_mac_macs mac t h :
  hw_macs (record_mac_seen_at oui mac t h) =
  if bool_decide (hw_macs h !! mac = None) then evict_oldest (<[mac := t]> (hw_macs h)) else <[mac := t]> (hw_macs h).
Proof. unfold record_mac_seen_at. case_bool_decide; [|done]. by destruct (is_some _). Qed.

Lemma record_mac_ok mac t h : hardware_ok h -> hardware_ok (record_mac_seen_at oui mac t h).
Proof.
  unfold hardware_ok. rewrite record_mac_macs. case_bool_decide as E; [intros _; apply evict_oldest_bound|].
  rewrite map_size_insert_Some; [done|]. destruct (hw_macs h !! mac); [done|congruence].
Qed.

(** A record of distinct addresses keeps the newest of them, however they arrived. *)
Lemma record_all_macs l m h :
  NoDup l.*1 -> Forall (fun kv => m !! fst kv = None) l -> hw_macs h = evict_oldest m ->
  hw_macs (foldl (fun h '(mac, t) => record_mac_seen_at oui mac t h) h l) = evict_oldest (list_to_map l ∪ m).
Proof.
  revert m h. induction l as [|[mac t] l IH]; intros m h Hnd Hfresh Hm; cbn; [by rewrite (left_id_L ∅ union)|].
  apply NoDup_cons in Hnd as [Hout Hnd]. apply Forall_cons in Hfresh as [Hmac Hfresh]. cbn in Hmac.
  rewrite (IH (<[mac := t]> m)); [|done| |].
  - rewrite <- insert_union_l. f_equal. symmetry. apply insert_union_r. by apply not_elem_of_list_to_map_1.
  - apply Forall_forall. intros [k v] Hk. cbn. rewrite lookup_insert_ne; [by apply (proj1 (Forall_forall _ _) Hfresh (k, v))|].
    intros <-. apply Hout. apply list_elem_of_fmap. by exists (mac, v).
  - rewrite record_mac_macs, Hm, bool_decide_eq_true_2; [by apply evict_insert|].
    destruct (evict_oldest_latest m) as [Hsub _]. by eapply lookup_weaken_None.
Qed.

(** The addresses a record keeps do not depend on the order they were seen in, nor does a
    fold of two records' addresses on which is folded into which: the sixty-four newest
    sightings stand. *)
Theorem sightings_order_free l l' h a b :
  NoDup l.*1 -> Permutation l l' -> hardware_ok h -> Forall (fun kv => hw_macs h !! fst kv = None) l ->
  let all := foldl (fun h '(mac, t) => record_mac_seen_at oui mac t h) in
  hw_macs (all h l) = hw_macs (all h l') /\ latest (list_to_map l ∪ hw_macs h) (hw_macs (all h l)) /\
  hw_macs (hardware_merge a b) = hw_macs (hardware_merge b a) /\ latest (sightings_union (hw_macs a) (hw_macs b)) (hw_macs (hardware_merge a b)).
Proof.
  intros Hnd Hp Hok Hfresh all.
  assert (hw_macs h = evict_oldest (hw_macs h)) as He.
  { apply (latest_unique (hw_macs h)); [by apply latest_small|apply evict_oldest_latest]. }
  unfold all. rewrite (record_all_macs l (hw_macs h)), (record_all_macs l' (hw_macs h)); try done; [|by rewrite <- Hp|by rewrite <- Hp].
  rewrite !hardware_merge_macs, (sightings_union_comm (hw_macs b)). split_and!; try done; try apply evict_oldest_latest.
  by rewrite (list_to_map_proper l l').
Qed.
End Sightings.
