(* ===== verification/Telemetry.v ===== *)
(** * How far away a host is

    [model/host/telemetry.rs]: a window of round-trip samples, and the figures a report
    draws from it.  A [Duration] is its nanoseconds and an [Instant] a reading of the
    monotonic clock; the clock is an argument of whatever reads it. *)

From Stdlib Require Import ZArith Lia Sorting.Sorted.
From stdpp Require Import base numbers option list sorting.
From S2P Require Import Prelude Std Text Status.

Local Open Scope Z_scope.

Definition DEFAULT_RTT_SAMPLES : nat := 10.

Definition MIN_RTT_SAMPLES : nat := 1.

Inductive RttSource := Direct | SegmentWide | FirstToNeighbour.

#[export] Instance RttSource_eq_dec : EqDecision RttSource.
Proof. solve_decision. Defined.

Record RttSample := mkRttSample {
  rs_at : Z;
  rs_rtt : Z;
  rs_source : RttSource;
  rs_protocol : option StatusProtocol;
}.

#[export] Instance RttSample_eq_dec : EqDecision RttSample.
Proof. solve_decision. Defined.

(** Nanoseconds of the longest [Duration]: [u64::MAX] seconds and a bit less than one more. *)
Definition DURATION_MAX : Z := 2 ^ 64 * 10 ^ 9 - 1.

Definition duration_ok (d : Z) : Prop := 0 <= d <= DURATION_MAX.

(** [Duration::saturating_add]. *)
Definition duration_add (a b : Z) : Z := Z.min DURATION_MAX (a + b).

Definition median (samples : list Z) : option Z :=
  match samples with
  | [] => None
  | _ =>
    let samples := sort_z samples in
    let mid := Nat.div2 (length samples) in
    if Nat.odd (length samples) then samples !! mid
    else lower ← samples !! (mid - 1)%nat; upper ← samples !! mid; Some (lower + (upper - lower) / 2)
  end.

Definition resolves_the_link (s : RttSample) : bool := match rs_protocol s with Some PArp | Some PNdp => true | _ => false end.

Record HostTelemetry := mkTelemetry {
  tl_history : list RttSample;
  tl_max : nat;
  tl_hop_counter : option Z;
}.

Definition telemetry_new (max_samples : nat) : HostTelemetry := mkTelemetry [] (Nat.max max_samples MIN_RTT_SAMPLES) None.

Definition telemetry_default : HostTelemetry := telemetry_new DEFAULT_RTT_SAMPLES.

(** [while history.len() > max { history.pop_front(); }]. *)
Fixpoint trim_front (max : nat) (history : list RttSample) : list RttSample :=
  match history with
  | [] => []
  | _ :: rest => if (max <? length history)%nat then trim_front max rest else history
  end.

Definition set_max_samples (max_samples : nat) (t : HostTelemetry) : HostTelemetry :=
  let max := Nat.max max_samples MIN_RTT_SAMPLES in
  mkTelemetry (trim_front max (tl_history t)) max (tl_hop_counter t).

Definition is_direct (s : RttSample) : bool := bool_decide (rs_source s = Direct).

Definition has_direct (t : HostTelemetry) : bool := existsb is_direct (tl_history t).

Definition direct (t : HostTelemetry) : list Z := rs_rtt <$> filter (fun s => is_direct s = true) (tl_history t).

(** [Iterator::min] and [Iterator::max] of integers. *)
Definition min_of (l : list Z) : option Z := match l with [] => None | x :: l => Some (foldl Z.min x l) end.

Definition max_of (l : list Z) : option Z := match l with [] => None | x :: l => Some (foldl Z.max x l) end.

Definition tightest_bound (t : HostTelemetry) : option Z := min_of (rs_rtt <$> tl_history t).

Definition round_trips (t : HostTelemetry) : list Z :=
  if negb (has_direct t) then option_list (tightest_bound t)
  else
    let crossed := rs_rtt <$> filter (fun s => is_direct s && negb (resolves_the_link s) = true) (tl_history t) in
    match crossed with [] => direct t | _ => crossed end.

Definition push (s : RttSample) (t : HostTelemetry) : HostTelemetry :=
  if (tl_max t =? 0)%nat then t else mkTelemetry (trim_front (tl_max t) (tl_history t ++ [s])) (tl_max t) (tl_hop_counter t).

(** [add_rtt_at], under [add_rtt] and [add_rtt_from]. *)
Definition add_rtt_at (time rtt : Z) (protocol : option StatusProtocol) (t : HostTelemetry) : HostTelemetry :=
  push (mkRttSample time rtt Direct protocol) t.

Definition add_segment_wide_rtt (now rtt : Z) (protocol : option StatusProtocol) (t : HostTelemetry) : HostTelemetry :=
  push (mkRttSample now rtt SegmentWide protocol) t.

Definition add_first_to_neighbour_rtt_from (now rtt : Z) (protocol : StatusProtocol) (t : HostTelemetry) : HostTelemetry :=
  push (mkRttSample now rtt FirstToNeighbour (Some protocol)) t.

Definition restore_rtt (now rtt : Z) (source : RttSource) (protocol : option StatusProtocol) (t : HostTelemetry) : HostTelemetry :=
  push (mkRttSample now rtt source protocol) t.

Definition rtt_protocol (t : HostTelemetry) : option StatusProtocol :=
  match omap rs_protocol (tl_history t) with
  | [] => None
  | first :: named => if forallb (fun other => bool_decide (other = first)) named then Some first else None
  end.

Definition record_hop_counter (arrived : Z) (t : HostTelemetry) : HostTelemetry := mkTelemetry (tl_history t) (tl_max t) (Some arrived).

Definition min_rtt (t : HostTelemetry) : option Z := if has_direct t then min_of (direct t) else tightest_bound t.

Definition max_rtt (t : HostTelemetry) : option Z := if has_direct t then max_of (direct t) else tightest_bound t.

Definition median_rtt (t : HostTelemetry) : option Z := if negb (has_direct t) then tightest_bound t else median (direct t).

Definition median_round_trip (t : HostTelemetry) : option Z := median (round_trips t).

Definition round_trips_resolve_the_link (t : HostTelemetry) : bool :=
  let direct := filter (fun s => is_direct s = true) (tl_history t) in
  match direct with [] => false | _ => forallb resolves_the_link direct end.

(** The count is of a window that fits a [u32] and a sum that saturates. *)
Definition average_rtt (t : HostTelemetry) : option Z :=
  if negb (has_direct t) then tightest_bound t
  else
    let '(sum, count) := foldl (fun '(sum, count) rtt => (duration_add sum rtt, sat_add 32 count 1)) (0, 0) (direct t) in
    if 0 <? count then Some (sum / count) else None.

Definition jitter (t : HostTelemetry) : option Z :=
  match direct t with
  | [] => None
  | first :: rest =>
    let '(_, total, gaps) := foldl (fun '(previous, total, gaps) rtt => (rtt, duration_add total (Z.abs (rtt - previous)), sat_add 32 gaps 1)) (first, 0, 0) rest in
    if 0 <? gaps then Some (total / gaps) else None
  end.

Definition take_window (later t : HostTelemetry) : HostTelemetry :=
  match tl_history later with
  | [] => t
  | history => let max := Nat.max (tl_max t) (tl_max later) in mkTelemetry (trim_front max history) max (tl_hop_counter t)
  end.

Definition or_latest (offered held : option Z) : option Z := match offered with Some _ => offered | None => held end.

Definition telemetry_merge (t other : HostTelemetry) : HostTelemetry :=
  let hop_counter := or_latest (tl_hop_counter other) (tl_hop_counter t) in
  let max := if (tl_max t <? tl_max other)%nat then tl_max other else tl_max t in
  if (max =? 0)%nat then mkTelemetry (tl_history t) max hop_counter
  else
    let combined := sort_by (fun a b => rs_at a <=? rs_at b) (tl_history t ++ tl_history other) in
    mkTelemetry (drop (length combined - max) combined) max hop_counter.

(** ** What a window holds *)

(** A window of at least one, no fuller than it, oldest first. *)
Definition telemetry_ok (t : HostTelemetry) : Prop :=
  (1 <= tl_max t)%nat /\ (length (tl_history t) <= tl_max t)%nat /\ StronglySorted (fun a b => rs_at a <= rs_at b) (tl_history t).

Lemma trim_front_drop max history : trim_front max history = drop (length history - max) history.
Proof.
  induction history as [|s history IH]; [done|]. cbn [trim_front]. destruct (Nat.ltb_spec max (length (s :: history))) as [Hl|Hl].
  - rewrite IH. cbn [length] in *. replace (S (length history) - max)%nat with (S (length history - max)) by lia. done.
  - by replace (length (s :: history) - max)%nat with 0%nat by lia.
Qed.

Lemma trim_front_length max history : (length (trim_front max history) <= max)%nat.
Proof. rewrite trim_front_drop, length_drop. lia. Qed.

Lemma sorted_drop {A} (R : A -> A -> Prop) n l : StronglySorted R l -> StronglySorted R (drop n l).
Proof. intros Hs. rewrite <- (take_drop n l) in Hs. by apply StronglySorted_app in Hs as (_ & _ & ?). Qed.

Lemma push_ok s t : telemetry_ok t -> Forall (fun h => rs_at h <= rs_at s) (tl_history t) -> telemetry_ok (push s t).
Proof.
  intros (Hm & Hl & Hs) Hle. unfold push. destruct (Nat.eqb_spec (tl_max t) 0); [lia|]. split_and!; cbn; [done|apply trim_front_length|].
  rewrite trim_front_drop. apply sorted_drop, StronglySorted_app. split_and!; [|done|by repeat constructor].
  intros a b Ha ->%list_elem_of_singleton. by apply (proj1 (Forall_forall _ _) Hle).
Qed.

Lemma telemetry_new_ok n : telemetry_ok (telemetry_new n).
Proof. split_and!; cbn; [unfold MIN_RTT_SAMPLES; lia|lia|constructor]. Qed.

Lemma by_time_sorted l : StronglySorted (fun a b => rs_at a <= rs_at b) (sort_by (fun a b => rs_at a <=? rs_at b) l).
Proof. eapply sorted_weaken; [|apply (sort_by_sorted (fun a b : RttSample => rs_at a <=? rs_at b))]; cbn; intros *; lia. Qed.

Lemma telemetry_merge_ok t other : telemetry_ok t -> telemetry_ok (telemetry_merge t other).
Proof.
  intros (Hm & Hl & Hs). unfold telemetry_merge. set (max := if (tl_max t <? tl_max other)%nat then _ else _).
  assert (1 <= max)%nat as Hmax by (unfold max; destruct (_ <? _)%nat eqn:E; [apply Nat.ltb_lt in E; lia|done]).
  destruct (Nat.eqb_spec max 0); [lia|]. split_and!; cbn; [done|rewrite length_drop; lia|]. apply sorted_drop, by_time_sorted.
Qed.

Lemma take_window_ok later t : telemetry_ok t -> telemetry_ok later -> telemetry_ok (take_window later t).
Proof.
  intros (Hm & Hl & Hs) (Hm' & Hl' & Hs'). unfold take_window. destruct (tl_history later) as [|s h] eqn:E; [done|].
  split_and!; cbn [tl_max tl_history]; [lia|apply trim_front_length|]. rewrite trim_front_drop. by apply sorted_drop.
Qed.

(** ** The figures drawn from it *)

Lemma min_of_spec l x : min_of l = Some x -> x ∈ l /\ Forall (Z.le x) l.
Proof.
  destruct l as [|a l]; [done|]. cbn. intros [= <-]. revert a. induction l as [|b l IH]; intros a; cbn.
  - split; [by left|by repeat constructor].
  - destruct (IH (Z.min a b)) as [Hin [Hle Hall]%Forall_cons]. split.
    + apply elem_of_cons in Hin as [->|Hin]; [|by do 2 right]. destruct (Z.min_dec a b) as [->| ->]; [by left|right; by left].
    + repeat constructor; [lia|lia|done].
Qed.

Lemma max_of_spec l x : max_of l = Some x -> x ∈ l /\ Forall (fun y => y <= x) l.
Proof.
  destruct l as [|a l]; [done|]. cbn. intros [= <-]. revert a. induction l as [|b l IH]; intros a; cbn.
  - split; [by left|by repeat constructor].
  - destruct (IH (Z.max a b)) as [Hin [Hle Hall]%Forall_cons]. split.
    + apply elem_of_cons in Hin as [->|Hin]; [|by do 2 right]. destruct (Z.max_dec a b) as [->| ->]; [by left|right; by left].
    + repeat constructor; [lia|lia|done].
Qed.

Lemma median_some l : l <> [] -> exists x, median l = Some x.
Proof.
  intros Hne. unfold median. destruct l as [|a l]; [done|]. set (s := sort_z _).
  assert (length s = S (length l)) as Hlen by (unfold s, sort_z; by rewrite (sort_by_perm Z.leb)).
  pose proof (Nat.div2_decr (length s) (length l) ltac:(lia)) as Hmid.
  destruct (lookup_lt_is_Some_2 s (Nat.div2 (length s))) as [u Hu]; [lia|].
  destruct (lookup_lt_is_Some_2 s (Nat.div2 (length s) - 1)) as [d Hd]; [lia|].
  rewrite Hu, Hd. destruct (Nat.odd _); [by exists u|]. cbn. by eexists.
Qed.

Lemma median_between l x : median l = Some x -> exists lo hi, lo ∈ l /\ hi ∈ l /\ lo <= x <= hi.
Proof.
  unfold median. destruct l as [|a l]; [done|]. set (s := sort_z _). intros E.
  assert (forall i y, s !! i = Some y -> y ∈ a :: l) as Hin.
  { intros i y Hi%list_elem_of_lookup_2. by apply elem_of_sort_by in Hi. }
  destruct (Nat.odd _); [exists x, x; split_and!; [by eapply Hin|by eapply Hin|done..]|].
  destruct (s !! (_ - 1)%nat) as [d|] eqn:Ed; [|done]. destruct (s !! Nat.div2 _) as [u|] eqn:Eu; [|done]. cbn in E. injection E as <-.
  exists d, u. split; [by eapply Hin|]. split; [by eapply Hin|].
  assert (d <= u) as Hdu; [|pose proof (Z.div_mod (u - d) 2); pose proof (Z.mod_pos_bound (u - d) 2); lia].
  pose proof (sort_z_sorted (a :: l)) as Hs. destruct (decide (Nat.div2 (length s) - 1 = Nat.div2 (length s))%nat) as [Eq|Ne].
  - rewrite Eq, Eu in Ed. injection Ed as ->. done.
  - apply (StronglySorted_lookup Z.le s (Nat.div2 (length s) - 1) (Nat.div2 (length s)) d u); [done|clear - Ne; revert Ne; generalize (Nat.div2 (length s)); intros; lia|done|done].
Qed.

Lemma has_direct_direct t : has_direct t = true <-> direct t <> [].
Proof.
  unfold has_direct, direct. rewrite existsb_elem. split.
  - intros (s & Hs & Hd) E. apply fmap_nil_inv in E. assert (s ∈ filter (fun s => is_direct s = true) (tl_history t)) as Hx by by apply list_elem_of_filter.
    rewrite E in Hx. by apply elem_of_nil in Hx.
  - destruct (filter _ _) as [|s l] eqn:E; [done|]. intros _. exists s. assert (s ∈ s :: l) as Hs by by left. rewrite <- E in Hs.
    by apply list_elem_of_filter in Hs as [? ?].
Qed.

(** One reply to a probe of its own describes a host whatever else is in the window: the
    fastest and the slowest bound the typical, all three are drawn from replies of that
    kind, and without one they are the tightest bound there is. *)
Theorem figures_rest_on_direct_replies t :
  if has_direct t then
    exists lo mid hi, min_rtt t = Some lo /\ median_rtt t = Some mid /\ max_rtt t = Some hi /\
      lo <= mid <= hi /\ lo ∈ direct t /\ hi ∈ direct t /\ Forall (fun rtt => lo <= rtt <= hi) (direct t)
  else min_rtt t = tightest_bound t /\ median_rtt t = tightest_bound t /\ max_rtt t = tightest_bound t /\ jitter t = None.
Proof.
  unfold min_rtt, median_rtt, max_rtt. pose proof (has_direct_direct t) as Hd. destruct (has_direct t) eqn:E; cbn.
  - assert (direct t <> []) as Hne by by apply Hd. destruct (median_some _ Hne) as [mid Hmid].
    destruct (min_of (direct t)) as [lo|] eqn:Elo; [|by destruct (direct t)]. destruct (max_of (direct t)) as [hi|] eqn:Ehi; [|by destruct (direct t)].
    destruct (min_of_spec _ _ Elo) as [Hlo Hlos], (max_of_spec _ _ Ehi) as [Hhi Hhis].
    destruct (median_between _ _ Hmid) as (a & b & Ha & Hb & Hab). rewrite Forall_forall in Hlos, Hhis. exists lo, mid, hi.
    assert (lo <= a) by by apply Hlos. assert (b <= hi) by by apply Hhis.
    split_and!; try done; [lia|lia|]. apply Forall_forall. intros x Hx. split; [by apply Hlos|by apply Hhis].
  - split_and!; try done. unfold jitter. destruct (direct t) eqn:Ed; [done|]. by destruct Hd as [_ Hd]; discriminate Hd.
Qed.

(** ** Merging windows *)

(** The window a fold leaves is the newest samples of both, as many as the wider holds,
    oldest first. *)
Lemma telemetry_merge_newest t other :
  telemetry_ok t ->
  let r := telemetry_merge t other in
  tl_max r = Nat.max (tl_max t) (tl_max other) /\
  length (tl_history r) = Nat.min (tl_max r) (length (tl_history t) + length (tl_history other)) /\
  exists dropped, Permutation (dropped ++ tl_history r) (tl_history t ++ tl_history other) /\
    forall a b, a ∈ dropped -> b ∈ tl_history r -> rs_at a <= rs_at b.
Proof.
  intros (Hm & _ & _) r. subst r. unfold telemetry_merge. set (max := if (tl_max t <? tl_max other)%nat then _ else _).
  assert (max = Nat.max (tl_max t) (tl_max other)) as Emax by (unfold max; destruct (Nat.ltb_spec (tl_max t) (tl_max other)); lia).
  destruct (Nat.eqb_spec max 0); [lia|]. cbn. set (c := sort_by _ _).
  assert (Permutation c (tl_history t ++ tl_history other)) as Hp by apply sort_by_perm.
  split; [done|]. split.
  - rewrite length_drop, Hp, length_app. lia.
  - exists (take (length c - max) c). rewrite take_drop. split; [done|].
    pose proof (by_time_sorted (tl_history t ++ tl_history other)) as Hs.
    fold c in Hs. rewrite <- (take_drop (length c - max) c) in Hs. apply StronglySorted_app in Hs as (Hs & _ & _).
    intros a b Ha Hb. by apply Hs.
Qed.
