(* ===== verification/Os.v ===== *)
(** * What a host is running

    [model/host/os.rs]: an operating system as one technique identified it, how two
    identifications fold into one, and how the lines of evidence behind them are joined.
    A line is readings with [" | "] between them; joining two keeps each reading once, drops
    a reading another one extends, and stops taking readings at 512 bytes. *)

From Stdlib Require Import ZArith QArith Lia Sorting.Sorted.
From Stdlib Require Import String.
From stdpp Require Import base numbers option list gmap sorting.
From S2P Require Import Prelude Std Text Ordering AddrText Finding.

Local Open Scope Z_scope.

Definition MAX_CPES_PER_OS : nat := 50.

Definition HIGH_CONFIDENCE_ACCURACY : Z := 85.

Record OsFingerprint := mkOs {
  os_name : text;
  os_family : option text;
  os_device : option text;
  os_generation : option text;
  os_vendor : option text;
  os_accuracy : Z;
  os_kernel : option text;
  os_arch : option text;
  os_detail_accuracy : option Z;
  os_cpe : gset text;
  os_evidence_line : option text;
}.

Definition os_new (name : text) (accuracy : Z) : OsFingerprint :=
  mkOs name None None None None (Z.min accuracy 100) None None None ∅ None.

Definition os_add_cpe (cpe : text) (o : OsFingerprint) : OsFingerprint :=
  if (size (os_cpe o) <? MAX_CPES_PER_OS)%nat then
    mkOs (os_name o) (os_family o) (os_device o) (os_generation o) (os_vendor o) (os_accuracy o) (os_kernel o) (os_arch o)
      (os_detail_accuracy o) ({[ cpe ]} ∪ os_cpe o) (os_evidence_line o)
  else o.

Definition is_highly_confident (o : OsFingerprint) : bool := HIGH_CONFIDENCE_ACCURACY <=? os_accuracy o.

(** ** Lines of evidence *)

Definition SEPARATOR : text := lit " | ".

Definition MAX_EVIDENCE_LEN : nat := 512.

(** [str::split] by a text, from the left and without overlaps. *)
Fixpoint split_from (sep : text) (skip : nat) (part : text) (s : text) : list text :=
  match s with
  | [] => [part]
  | c :: t =>
    match skip with
    | S skip => split_from sep skip part t
    | O =>
      match strip_prefix sep s with
      | Some _ => part :: split_from sep (length sep - 1) [] t
      | None => split_from sep 0 (part ++ [c]) t
      end
    end
  end.

Definition split_text (sep s : text) : list text := split_from sep 0 [] s.

(** [kept.starts_with(part)]. *)
Definition starts_with_text (kept part : text) : bool := is_some (strip_prefix part kept).

(** One reading, taken up by those before it or taking up some of them. *)
Definition take_reading (parts : list text) (part : text) : list text :=
  if existsb (fun kept => starts_with_text kept part) parts then parts
  else filter (fun kept => negb (starts_with_text part kept) = true) parts ++ [part].

(** The readings there is room for, in turn. *)
Fixpoint fit_readings (length : nat) (parts : list text) : list text :=
  match parts with
  | [] => []
  | part :: parts =>
    let cost := (byte_len part + if (length =? 0)%nat then 0 else byte_len SEPARATOR)%nat in
    if (length + cost <=? MAX_EVIDENCE_LEN)%nat then part :: fit_readings (length + cost) parts else fit_readings length parts
  end.

Definition join_parts (readings : list text) : list text := fit_readings 0 (foldl take_reading [] readings).

Definition join_readings (existing incoming : text) : text :=
  join SEPARATOR (join_parts (split_text SEPARATOR existing ++ split_text SEPARATOR incoming)).

Definition join_evidence (existing incoming : option text) : option text :=
  match existing, incoming with
  | Some existing, Some incoming => Some (join_readings existing incoming)
  | existing, incoming => or_else existing incoming
  end.

(** ** Two identifications of one host *)

Definition text_leb (a b : text) : bool := match str_cmp a b with Gt => false | _ => true end.

(** The elements of a [BTreeSet<Arc<str>>] in order. *)
Definition in_order (s : gset text) : list text := sort_by text_leb (elements s).

(** [for cpe in other { if self.len() >= MAX { break; } self.insert(cpe); }]. *)
Fixpoint union_capped (cap : nat) (held : gset text) (offered : list text) : gset text :=
  match offered with
  | [] => held
  | x :: offered => if (cap <=? size held)%nat then held else union_capped cap ({[ x ]} ∪ held) offered
  end.

Definition os_merge (self other : OsFingerprint) : OsFingerprint :=
  let cpe := union_capped MAX_CPES_PER_OS (os_cpe self) (in_order (os_cpe other)) in
  if os_accuracy self <? os_accuracy other then
    mkOs (os_name other) (or_else (os_family other) (os_family self)) (or_else (os_device other) (os_device self))
      (or_else (os_generation other) (os_generation self)) (or_else (os_vendor other) (os_vendor self)) (os_accuracy other)
      (or_else (os_kernel other) (os_kernel self)) (or_else (os_arch other) (os_arch self))
      (or_else (os_detail_accuracy other) (os_detail_accuracy self)) cpe (or_else (os_evidence_line other) (os_evidence_line self))
  else if os_accuracy other =? os_accuracy self then
    mkOs (os_name self) (or_else (os_family self) (os_family other)) (or_else (os_device self) (os_device other))
      (or_else (os_generation self) (os_generation other)) (or_else (os_vendor self) (os_vendor other)) (os_accuracy self)
      (or_else (os_kernel self) (os_kernel other)) (or_else (os_arch self) (os_arch other))
      (or_else (os_detail_accuracy self) (os_detail_accuracy other)) cpe
      (if bool_decide (os_name self = os_name other) then join_evidence (os_evidence_line self) (os_evidence_line other)
       else or_else (os_evidence_line self) (os_evidence_line other))
  else
    mkOs (os_name self) (os_family self) (os_device self) (os_generation self) (os_vendor self) (os_accuracy self) (os_kernel self)
      (os_arch self) (os_detail_accuracy self) cpe (os_evidence_line self).

(** ** What one source concluded *)

Inductive OsSource := TcpStack | HardwareVendor | ServiceBanner | OsSnmpAgent | MdnsResponder | OsHostname.

#[export] Instance OsSource_eq_dec : EqDecision OsSource.
Proof. solve_decision. Defined.

Definition os_source_rank (s : OsSource) : Z :=
  match s with TcpStack => 0 | HardwareVendor => 1 | ServiceBanner => 2 | OsSnmpAgent => 3 | MdnsResponder => 4 | OsHostname => 5 end.

#[export] Instance OsSource_countable : Countable OsSource.
Proof.
  refine (inj_countable' os_source_rank
    (fun n => match n with 0 => TcpStack | 1 => HardwareVendor | 2 => ServiceBanner | 3 => OsSnmpAgent | 4 => MdnsResponder | _ => OsHostname end) _).
  by intros [].
Defined.

(** A finite [f32] is the rational it stands for. *)
Record OsEvidence := mkOsEvidence {
  oe_source : OsSource;
  oe_family : option text;
  oe_device : option text;
  oe_vendor : option text;
  oe_product : option text;
  oe_version : option text;
  oe_kernel : option text;
  oe_arch : option text;
  oe_cpe : option text;
  oe_confidence : Q;
  oe_evidence : text;
}.

Definition OsClaim : Type := OsSource * option text * option text * option text * option text * option text * option text.

Definition os_claim (e : OsEvidence) : OsClaim :=
  (oe_source e, oe_family e, oe_device e, oe_vendor e, oe_product e, oe_version e, oe_kernel e).

(** [f32::max]. *)
Definition f32_max (a b : Q) : Q := if Qle_bool b a then a else b.

Definition MAX_OS_EVIDENCE : nat := 8.

(** [Host::record_os_evidence], of the host's claims: the map, and whether it changed. *)
Definition record_os_evidence (held : gmap OsClaim OsEvidence) (e : OsEvidence) : gmap OsClaim OsEvidence * bool :=
  let claim := os_claim e in
  let full := (MAX_OS_EVIDENCE <=? size held)%nat in
  match held !! claim with
  | Some existing =>
    let joined := join_readings (oe_evidence existing) (oe_evidence e) in
    (<[claim := mkOsEvidence (oe_source existing) (oe_family existing) (oe_device existing) (oe_vendor existing) (oe_product existing)
         (oe_version existing) (oe_kernel existing) (oe_arch existing) (oe_cpe existing)
         (f32_max (oe_confidence existing) (oe_confidence e)) joined]> held,
     negb (bool_decide (joined = oe_evidence existing)))
  | None => if full then (held, false) else (<[claim := e]> held, true)
  end.

(** ** What a joined line holds *)

Lemma starts_with_text_spec kept part : starts_with_text kept part = true <-> part `prefix_of` kept.
Proof.
  unfold starts_with_text, is_some. revert part. induction kept as [|c kept IH]; intros [|p part]; cbn; try (split; [intros; by apply prefix_nil|done]).
  - split; [done|]. intros H. by apply prefix_nil_inv in H.
  - destruct (Z.eqb_spec p c) as [->|Hne].
    + rewrite IH. split; [apply prefix_cons|apply prefix_cons_inv_2].
    + split; [done|]. intros H%prefix_cons_inv_1. congruence.
Qed.

Definition covered (l : list text) (x : text) : Prop := exists k, k ∈ l /\ x `prefix_of` k.

(** No reading is there twice, and none begins another. *)
Definition free (l : list text) : Prop := NoDup l /\ forall a b, a ∈ l -> b ∈ l -> a `prefix_of` b -> a = b.

Lemma existsb_covered l x : existsb (fun kept => starts_with_text kept x) l = true <-> covered l x.
Proof. rewrite existsb_elem. unfold covered. by setoid_rewrite starts_with_text_spec. Qed.

(** One reading more: either it was said already, or it takes the place of what it extends. *)
Lemma take_reading_cases parts p :
  (covered parts p /\ take_reading parts p = parts) \/
  (~ covered parts p /\ take_reading parts p = filter (fun kept => ~ kept `prefix_of` p) parts ++ [p]).
Proof.
  unfold take_reading. destruct (existsb _ parts) eqn:E; [left|right].
  - split; [by apply existsb_covered|done].
  - split; [intros Hc%existsb_covered; congruence|]. f_equal. apply filter_same. intros x _. rewrite negb_true_iff.
    pose proof (starts_with_text_spec p x) as Hs. destruct (starts_with_text p x); naive_solver.
Qed.

Lemma take_reading_ok parts p :
  free parts ->
  free (take_reading parts p) /\ (forall x, covered parts x \/ x = p -> covered (take_reading parts p) x) /\
  (forall x, x ∈ take_reading parts p -> x ∈ parts \/ x = p).
Proof.
  intros [Hnd Hf]. destruct (take_reading_cases parts p) as [[Hc ->]|[Hc ->]].
  { split_and!; [by split| |by left]. by intros x [Hx| ->]. }
  split_and!.
  - split.
    + apply NoDup_app. split_and!; [by apply NoDup_filter| |apply NoDup_singleton]. intros x [Hx _]%list_elem_of_filter ->%list_elem_of_singleton. done.
    + intros a b Ha Hb Hab. rewrite elem_of_app, list_elem_of_filter, list_elem_of_singleton in Ha, Hb.
      destruct Ha as [[Ha Ha']| ->], Hb as [[Hb Hb']| ->]; [by apply Hf|done| |done]. exfalso. apply Hc. by exists b.
  - intros x [(k & Hk & Hx)| ->]; [|exists p; split; [apply elem_of_app; right; by left|done]].
    destruct (decide (k `prefix_of` p)) as [Hp|Hp].
    + exists p. split; [apply elem_of_app; right; by left|by etrans].
    + exists k. split; [|done]. apply elem_of_app. left. by apply list_elem_of_filter.
  - intros x. rewrite elem_of_app, list_elem_of_filter, list_elem_of_singleton. intros [[_ Hx]| ->]; auto.
Qed.

Lemma take_readings_ok l parts :
  free parts ->
  let r := foldl take_reading parts l in
  free r /\ (forall x, covered parts x \/ x ∈ l -> covered r x) /\ (forall x, x ∈ r -> x ∈ parts \/ x ∈ l).
Proof.
  revert parts. induction l as [|p l IH]; intros parts Hf; cbn.
  { split_and!; [done| |by left]. intros x [?|?%elem_of_nil]; done. }
  destruct (take_reading_ok parts p Hf) as (Hf' & Hc & Hin). destruct (IH _ Hf') as (Hr & Hrc & Hrin). split_and!; [done| |].
  - intros x. rewrite elem_of_cons. intros [Hx|[->|Hx]]; apply Hrc; auto.
  - intros x Hx. rewrite elem_of_cons. destruct (Hrin x Hx) as [[Hp| ->]%Hin|Hl]; auto.
Qed.

(** What was there and is not extended stays in front, in order. *)
Lemma take_readings_front l parts :
  exists kept more, foldl take_reading parts l = kept ++ more /\ sublist kept parts /\ Forall (fun x => x ∈ l) more.
Proof.
  induction l as [|p l IH] using rev_ind; cbn; [exists parts, []; by rewrite app_nil_r|].
  rewrite foldl_app. cbn. destruct IH as (kept & more & E & Hs & Hm). rewrite E.
  assert (forall q : list text, Forall (fun x => x ∈ l) q -> Forall (fun x => x ∈ l ++ [p]) q) as Hmono.
  { intros q Hq. eapply Forall_impl; [exact Hq|]. cbn. intros x Hx. apply elem_of_app. by left. }
  destruct (take_reading_cases (kept ++ more) p) as [[_ ->]|[_ ->]]; [exists kept, more; split_and!; auto|].
  rewrite filter_app, <- app_assoc. eexists _, _. split; [done|]. split; [by etrans; [apply sublist_filter|]|].
  apply Forall_app. split; [apply Hmono; apply Forall_forall; intros x [_ Hx]%list_elem_of_filter; by apply (proj1 (Forall_forall _ _) Hm)|]. constructor; [apply elem_of_app; right; by left|done].
Qed.

Lemma filter_true {A} (l : list A) : filter (fun _ => True) l = l.
Proof. induction l as [|x l IH]; [done|]. by rewrite filter_cons_True, IH. Qed.

Lemma take_readings_free a b : free (a ++ b) -> foldl take_reading a b = a ++ b.
Proof.
  revert a. induction b as [|p b IH]; intros a Hf; cbn; [by rewrite app_nil_r|].
  assert (free (a ++ [p] ++ b)) as Hf' by done. destruct Hf as [Hnd Hpre].
  destruct (take_reading_cases a p) as [[(k & Hk & Hp) _]|[_ ->]].
  - exfalso. apply NoDup_app in Hnd as (_ & Hnot & _). apply (Hnot k Hk). apply elem_of_cons. left. symmetry.
    apply Hpre; [apply elem_of_app; right; by left|apply elem_of_app; by left|done].
  - rewrite (filter_same _ (fun _ => True)), filter_true.
    + rewrite IH by by rewrite <- app_assoc. by rewrite <- app_assoc.
    + intros x Hx. split; [done|]. intros _ Hxp. assert (x = p) as ->; [|apply NoDup_app in Hnd as (_ & Hnot & _); apply (Hnot p Hx); by left].
      apply Hpre; [apply elem_of_app; by left|apply elem_of_app; right; by left|done].
Qed.

(** *** Room *)

Definition reading_cost (length : nat) (part : text) : nat := (byte_len part + if (length =? 0)%nat then 0 else byte_len SEPARATOR)%nat.

(** The bytes taken once all of [parts] are. *)
Fixpoint used (length : nat) (parts : list text) : nat :=
  match parts with [] => length | part :: parts => used (length + reading_cost length part) parts end.

Lemma fit_readings_cons n p ps :
  fit_readings n (p :: ps) = if (n + reading_cost n p <=? MAX_EVIDENCE_LEN)%nat then p :: fit_readings (n + reading_cost n p) ps else fit_readings n ps.
Proof. done. Qed.

Lemma reading_cost_mono m n p : (m <= n -> m + reading_cost m p <= n + reading_cost n p)%nat.
Proof. unfold reading_cost. destruct (Nat.eqb_spec m 0), (Nat.eqb_spec n 0); lia. Qed.

Lemma used_mono n parts : (n <= used n parts)%nat.
Proof. revert n. induction parts as [|p ps IH]; intros n; cbn; [done|]. etrans; [|apply IH]. lia. Qed.

Lemma fit_sublist n parts : sublist (fit_readings n parts) parts.
Proof.
  revert n. induction parts as [|p ps IH]; intros n; [done|]. rewrite fit_readings_cons. destruct (_ <=? _)%nat; [by apply sublist_skip|by apply sublist_cons].
Qed.

(** Less before and fewer readings: still room. *)
Lemma fit_weaken parts parts' m n : fit_readings n parts = parts -> sublist parts' parts -> (m <= n)%nat -> fit_readings m parts' = parts'.
Proof.
  intros Hf Hs. revert m n Hf. induction Hs as [|p l l' Hs IH|p l l' Hs IH]; intros m n Hf Hmn; [done| |].
  - rewrite fit_readings_cons in *. destruct (Nat.leb_spec (n + reading_cost n p) MAX_EVIDENCE_LEN) as [Hn|Hn].
    + pose proof (reading_cost_mono m n p Hmn) as Hc. rewrite (proj2 (Nat.leb_le _ _)) by lia. f_equal. injection Hf as Hf. by eapply IH.
    + exfalso. pose proof (sublist_length _ _ (fit_sublist n l')) as Hl. rewrite Hf in Hl. cbn in Hl. lia.
  - rewrite fit_readings_cons in Hf. destruct (Nat.leb_spec (n + reading_cost n p) MAX_EVIDENCE_LEN) as [Hn|Hn].
    + injection Hf as Hf. eapply IH; [exact Hf|]. lia.
    + exfalso. pose proof (sublist_length _ _ (fit_sublist n l')) as Hl. rewrite Hf in Hl. cbn in Hl. lia.
Qed.

Lemma fit_app n a b : fit_readings n a = a -> fit_readings n (a ++ b) = a ++ fit_readings (used n a) b.
Proof.
  revert n. induction a as [|p a IH]; intros n Hf; [done|]. cbn [app]. rewrite fit_readings_cons in *. cbn [used].
  destruct (Nat.leb_spec (n + reading_cost n p) MAX_EVIDENCE_LEN) as [Hn|Hn].
  - injection Hf as Hf. cbn. f_equal. by apply IH.
  - exfalso. pose proof (sublist_length _ _ (fit_sublist n a)) as Hl. rewrite Hf in Hl. cbn in Hl. lia.
Qed.

Lemma fit_again n parts : fit_readings n (fit_readings n parts) = fit_readings n parts.
Proof.
  revert n. induction parts as [|p ps IH]; intros n; [done|]. rewrite (fit_readings_cons n p). destruct (_ <=? _)%nat eqn:E; [|apply IH].
  rewrite fit_readings_cons, E. f_equal. apply IH.
Qed.

(** A reading there was no room for has none once the others are in. *)
Lemma fit_dropped n parts x :
  x ∈ parts -> x ∉ fit_readings n parts -> let total := used n (fit_readings n parts) in (MAX_EVIDENCE_LEN < total + reading_cost total x)%nat.
Proof.
  revert n. induction parts as [|p ps IH]; intros n Hin Hout; [by apply elem_of_nil in Hin|]. rewrite fit_readings_cons in *.
  destruct (Nat.leb_spec (n + reading_cost n p) MAX_EVIDENCE_LEN) as [Hn|Hn].
  - apply not_elem_of_cons in Hout as [Hne Hout]. apply elem_of_cons in Hin as [->|Hin]; [done|]. by apply IH.
  - apply elem_of_cons in Hin as [->|Hin]; [|by apply IH]. cbn. eapply Nat.lt_le_trans; [exact Hn|]. apply reading_cost_mono, used_mono.
Qed.

Lemma fit_none n parts : Forall (fun x => (MAX_EVIDENCE_LEN < n + reading_cost n x)%nat) parts -> fit_readings n parts = [].
Proof. induction 1 as [|p ps Hp _ IH]; [done|]. rewrite fit_readings_cons. by rewrite (proj2 (Nat.leb_gt _ _)). Qed.

Lemma byte_len_ge s : (length s <= byte_len s)%nat.
Proof. induction s as [|c s IH]; cbn; [done|]. fold (byte_len s). assert (1 <= len_utf8 c)%nat; [|lia]. unfold len_utf8. repeat case_match; lia. Qed.

(** The line is as long as its readings took, where none is empty. *)
Lemma join_used parts : Forall (fun p => p <> []) parts -> byte_len (join SEPARATOR parts) = used 0 parts.
Proof.
  intros Hne. destruct parts as [|p ps]; [done|]. apply Forall_cons in Hne as [Hp Hne].
  assert (forall ps p n, Forall (fun p => p <> []) ps -> p <> [] -> (n + byte_len (join SEPARATOR (p :: ps)))%nat = used (n + byte_len p) ps) as H.
  { clear. induction ps as [|q ps IH]; intros p n Hps Hp; [done|]. apply Forall_cons in Hps as [Hq Hps].
    change (join SEPARATOR (p :: q :: ps)) with (p ++ SEPARATOR ++ join SEPARATOR (q :: ps)). rewrite !byte_len_app. cbn [used].
    assert (0 < byte_len p)%nat as Hpos by (pose proof (byte_len_ge p); destruct p; [done|cbn in *; lia]).
    unfold reading_cost. rewrite (proj2 (Nat.eqb_neq _ _)) by lia.
    replace (n + byte_len p + (byte_len q + byte_len SEPARATOR))%nat with (n + byte_len p + byte_len SEPARATOR + byte_len q)%nat by lia.
    rewrite <- IH by done. lia. }
  specialize (H ps p 0%nat Hne Hp). cbn [Nat.add] in H. rewrite H. cbn [used]. f_equal. unfold reading_cost. cbn. lia.
Qed.

Lemma fit_used n parts : (n <= MAX_EVIDENCE_LEN)%nat -> (used n (fit_readings n parts) <= MAX_EVIDENCE_LEN)%nat.
Proof.
  revert n. induction parts as [|p ps IH]; intros n Hn; [done|]. rewrite fit_readings_cons.
  destruct (Nat.leb_spec (n + reading_cost n p) MAX_EVIDENCE_LEN); [by apply IH|by apply IH].
Qed.

(** *** The same readings again *)

(** A line as a join leaves it: each reading once, none the beginning of another, with room
    for all. *)
Definition settled_parts (parts : list text) : Prop := free parts /\ fit_readings 0 parts = parts.

(** Readings that extend nothing kept are added behind it. *)
Lemma take_readings_behind kept l :
  (forall p x, p ∈ l -> x ∈ kept -> x `prefix_of` p -> covered kept p) ->
  exists more, foldl take_reading kept l = kept ++ more /\ Forall (fun x => x ∈ l) more.
Proof.
  induction l as [|p l IH] using rev_ind; intros Hl; [exists []; by rewrite app_nil_r|].
  destruct IH as (m & E & Hm); [intros q x Hq; apply Hl, elem_of_app; by left|]. rewrite foldl_app, E. cbn.
  assert (Forall (fun x => x ∈ l ++ [p]) m) as Hm'.
  { eapply Forall_impl; [exact Hm|]. cbn. intros x Hx. apply elem_of_app. by left. }
  destruct (take_reading_cases (kept ++ m) p) as [[_ ->]|[Hnc ->]]; [by exists m|].
  rewrite filter_app, (filter_same _ (fun _ => True) kept), filter_true, <- app_assoc.
  - eexists. split; [done|]. apply Forall_app. split; [|repeat constructor; apply elem_of_app; right; by left]. apply Forall_forall.
    intros x [_ Hx]%list_elem_of_filter. by apply (proj1 (Forall_forall _ _) Hm').
  - intros x Hx. split; [done|]. intros _ Hxp. apply Hnc. destruct (Hl p x) as (k & Hk & Hpk); [apply elem_of_app; right; by left|done|done|].
    exists k. split; [apply elem_of_app; by left|done].
Qed.

Lemma join_parts_again existing incoming :
  settled_parts existing ->
  let kept := join_parts (existing ++ incoming) in
  settled_parts kept /\ join_parts (kept ++ incoming) = kept /\ (forall x, x ∈ kept -> x ∈ existing ++ incoming).
Proof.
  intros [Hf Hfit] kept. assert (foldl take_reading [] existing = existing) as Hex by by apply (take_readings_free []).
  destruct (take_readings_ok incoming existing Hf) as (HfK & Hcov & HinK).
  destruct (take_readings_front incoming existing) as (front & more & HK & Hsub & Hmore).
  set (all := foldl take_reading existing incoming) in *.
  assert (kept = fit_readings 0 all) as Hkept by (unfold kept, join_parts; by rewrite foldl_app, Hex).
  assert (sublist kept all) as Hks by (rewrite Hkept; apply fit_sublist).
  assert (forall x, x ∈ kept -> x ∈ all) as Hka by (intros x Hx; by eapply elem_of_sublist).
  assert (free kept) as Hfk.
  { destruct HfK as [Hnd Hpre]. split; [by eapply sublist_NoDup|]. intros a b Ha Hb. apply Hpre; by apply Hka. }
  assert (fit_readings 0 kept = kept) as Hagain by (rewrite Hkept; apply fit_again).
  split_and!; [by split| |intros x Hx; apply elem_of_app; by apply HinK, Hka].
  (* What the second pass adds was dropped by the first, and is dropped again. *)
  assert (forall x, x ∈ all -> x ∉ kept -> x ∈ incoming) as Hdropped.
  { intros x Hx Hout. rewrite HK in Hx. apply elem_of_app in Hx as [Hx|Hx]; [|by apply (proj1 (Forall_forall _ _) Hmore)].
    exfalso. apply Hout. rewrite Hkept, HK, fit_app by (eapply fit_weaken; [exact Hfit|done|done]). apply elem_of_app. by left. }
  assert (exists more', foldl take_reading kept incoming = kept ++ more' /\ Forall (fun x => x ∈ incoming) more') as (more' & HD & HDin).
  { apply take_readings_behind. intros p x Hp Hx Hxp. destruct (Hcov p (or_intror Hp)) as (k & Hk & Hpk).
    assert (x = k) as -> by (apply HfK; [by apply Hka|done|by etrans]). by exists k. }
  destruct (take_readings_ok incoming kept Hfk) as ([HndD HpreD] & HcovD & _). rewrite HD in HndD, HpreD, HcovD.
  assert (Forall (fun x => (MAX_EVIDENCE_LEN < used 0 kept + reading_cost (used 0 kept) x)%nat) more') as Hno.
  { apply Forall_forall. intros x Hx. pose proof (proj1 (Forall_forall _ _) HDin x Hx) as Hxin. cbn in Hxin.
    assert (forall k, k ∈ kept -> x <> k) as Hxk by (intros k Hk ->; apply NoDup_app in HndD as (_ & Hnot & _); by apply (Hnot k Hk)).
    destruct (Hcov x (or_intror Hxin)) as (k & Hk & Hxk'). assert (k ∉ kept) as Hknot.
    { intros Hkk. apply (Hxk k Hkk). apply HpreD; [apply elem_of_app; by right|apply elem_of_app; by left|done]. }
    assert (x = k) as ->.
    { destruct (HcovD k (or_intror (Hdropped k Hk Hknot))) as (k' & Hk' & Hkk').
      apply elem_of_app in Hk' as [Hk'|Hk']; [exfalso; apply Hknot; assert (k = k') as -> by (apply HfK; [done|by apply Hka|done]); done|].
      assert (x = k') as -> by (apply HpreD; [apply elem_of_app; by right|apply elem_of_app; by right|by etrans]). by apply (anti_symm prefix). }
    rewrite Hkept. apply fit_dropped; [done|by rewrite <- Hkept]. }
  assert (foldl take_reading [] kept = kept) as Ekk by by apply (take_readings_free []).
  unfold join_parts. rewrite foldl_app, Ekk, HD, fit_app, fit_none by done. by rewrite app_nil_r.
Qed.

(** *** As lines *)

(** A reading with no separator in it, nor the start of one at its end. *)
Definition whole (p : text) : Prop := split_text SEPARATOR (p ++ lit " |") = [p ++ lit " |"].

#[export] Instance whole_dec p : Decision (whole p).
Proof. unfold whole. apply _. Defined.

Lemma split_from_cons sep skip acc s : exists w ws, split_from sep skip acc s = w :: ws.
Proof.
  revert skip acc. induction s as [|c s IH]; intros skip acc; cbn [split_from]; [eauto|]. destruct skip; [|apply IH].
  destruct (strip_prefix sep (c :: s)); [eauto|apply IH].
Qed.

Lemma split_whole acc p rest :
  split_from SEPARATOR 0 acc (p ++ lit " |") = [acc ++ p ++ lit " |"] ->
  split_from SEPARATOR 0 acc (p ++ SEPARATOR ++ rest) = (acc ++ p) :: split_text SEPARATOR rest /\ split_from SEPARATOR 0 acc p = [acc ++ p].
Proof.
  revert acc. induction p as [|c p IH]; intros acc H; [by rewrite app_nil_r|].
  change ((c :: p) ++ lit " |") with (c :: (p ++ lit " |")) in H. cbn [app]. cbn [split_from] in *.
  destruct (strip_prefix SEPARATOR (c :: p ++ lit " |")) as [r|] eqn:E.
  { exfalso. destruct (split_from_cons SEPARATOR (length SEPARATOR - 1) [] (p ++ lit " |")) as (w & ws & Ew). rewrite Ew in H. done. }
  assert (strip_prefix SEPARATOR (c :: p ++ SEPARATOR ++ rest) = None /\ strip_prefix SEPARATOR (c :: p) = None) as [-> ->].
  { revert E. clear. destruct p as [|d [|e p]]; cbn; repeat case_match; try done. }
  destruct (IH (acc ++ [c])) as [-> ->]; [by rewrite <- app_assoc|]. by rewrite <- app_assoc.
Qed.

Lemma split_join parts : Forall whole parts -> parts <> [] -> split_text SEPARATOR (join SEPARATOR parts) = parts.
Proof.
  induction 1 as [|p ps Hp Hps IH]; intros Hne; [done|]. destruct ps as [|q ps].
  - destruct (split_whole [] p [] Hp) as [_ H]. exact H.
  - change (join SEPARATOR (p :: q :: ps)) with (p ++ SEPARATOR ++ join SEPARATOR (q :: ps)).
    destruct (split_whole [] p (join SEPARATOR (q :: ps)) Hp) as [H _]. unfold split_text at 1. rewrite H, IH by done. done.
Qed.

(** A line as a join leaves it, that reads back as its readings. *)
Definition settled (line : text) : Prop := settled_parts (split_text SEPARATOR line) /\ Forall whole (split_text SEPARATOR line).

Lemma fit_some p ps : (byte_len p <= MAX_EVIDENCE_LEN)%nat -> fit_readings 0 (p :: ps) <> [].
Proof. intros Hp. rewrite fit_readings_cons. unfold reading_cost. cbn [Nat.eqb]. by rewrite (proj2 (Nat.leb_le _ _)) by lia. Qed.

Lemma fit_bytes n parts p : fit_readings n parts = parts -> p ∈ parts -> (byte_len p <= MAX_EVIDENCE_LEN)%nat.
Proof.
  revert n. induction parts as [|q ps IH]; intros n Hf Hp; [by apply elem_of_nil in Hp|]. rewrite fit_readings_cons in Hf.
  destruct (Nat.leb_spec (n + reading_cost n q) MAX_EVIDENCE_LEN) as [Hn|Hn].
  - injection Hf as Hf. apply elem_of_cons in Hp as [->|Hp]; [unfold reading_cost in Hn; lia|by eapply IH].
  - exfalso. pose proof (sublist_length _ _ (fit_sublist n ps)) as Hl. rewrite Hf in Hl. cbn in Hl. lia.
Qed.

(** Joining a line leaves one no longer than the bound, in which no reading begins another;
    and joining the same line again changes nothing, so that an observation repeated is not
    new evidence. *)
Theorem repeated_reading_adds_nothing existing incoming :
  settled existing -> Forall (fun p => whole p /\ (byte_len p <= MAX_EVIDENCE_LEN)%nat) (split_text SEPARATOR incoming) ->
  let joined := join_readings existing incoming in
  settled joined /\ (byte_len joined <= MAX_EVIDENCE_LEN)%nat /\ join_readings joined incoming = joined.
Proof.
  intros [Hparts Hwhole] Hin joined. set (ex := split_text SEPARATOR existing) in *. set (inc := split_text SEPARATOR incoming) in *.
  destruct (join_parts_again ex inc Hparts) as (Hkept & Hagain & Hfrom). set (kept := join_parts (ex ++ inc)) in *.
  assert (forall x, x ∈ ex ++ inc -> whole x /\ (byte_len x <= MAX_EVIDENCE_LEN)%nat) as Hall.
  { intros x [Hx|Hx]%elem_of_app; [|by apply (proj1 (Forall_forall _ _) Hin)].
    split; [by apply (proj1 (Forall_forall _ _) Hwhole)|]. destruct Hparts as [_ Hf]. by eapply fit_bytes. }
  assert (Forall whole kept) as Hwk by (apply Forall_forall; intros x Hx; by apply Hall, Hfrom).
  assert (kept <> []) as Hne.
  { unfold kept, join_parts. destruct (take_readings_ok (ex ++ inc) []) as (_ & Hcov & Hsrc); [split; [constructor|by intros a b ?%elem_of_nil]|].
    destruct (foldl take_reading [] (ex ++ inc)) as [|p ps].
    - destruct (split_from_cons SEPARATOR 0 [] existing) as (w & ws & E). fold (split_text SEPARATOR existing) in E. fold ex in E.
      destruct (Hcov w) as (k & Hk & _); [right; rewrite E; by left|]. by apply elem_of_nil in Hk.
    - apply fit_some. destruct (Hsrc p) as [?%elem_of_nil|Hp]; [by left|done|by apply Hall]. }
  assert (split_text SEPARATOR joined = kept) as Hsplit by by apply split_join.
  split_and!.
  - split; by rewrite Hsplit.
  - unfold joined, join_readings. fold ex inc kept. destruct Hkept as [[Hnd Hpre] Hfit].
    destruct (decide ([] ∈ kept)) as [Hnil|Hnil].
    + assert (kept = [[]]) as ->; [|cbn; lia]. assert (forall x, x ∈ kept -> x = []) as Honly by (intros x Hx; symmetry; apply Hpre; [done|done|apply prefix_nil]).
      destruct kept as [|a [|b l]]; [done| |].
      * f_equal. apply Honly. by left.
      * exfalso. apply NoDup_cons in Hnd as [Hnd _]. apply Hnd. rewrite (Honly a) by by left. rewrite (Honly b) by (right; by left). by left.
    + rewrite join_used by (apply Forall_forall; intros x Hx ->; done). rewrite <- Hfit. apply fit_used. lia.
  - unfold join_readings at 1. fold inc. rewrite Hsplit, Hagain. done.
Qed.

(** A reading past the bound takes the place of the one it extends and is then let go of: the
    line loses both. *)
Example long_reading_loses_the_short_one :
  let long := lit "ttl=64" ++ replicate 512 65 in join_readings (lit "ttl=64 | mac=Dell") long = lit "mac=Dell".
Proof. vm_compute. reflexivity. Qed.
