(* ===== verification/TlsSupport.v ===== *)
(** * What a TLS endpoint accepts

    [TlsSupport] of [model/tls.rs]: for each protocol version the suites an enumeration found
    accepted, and why its walk stopped where it did not finish; and the fold of two
    enumerations of one endpoint.  A suite is its registered number.  [support_at] is what a
    record says of one version, and a fold takes each version whole from one of the two. *)

From Stdlib Require Import ZArith Lia Sorting.Sorted.
From stdpp Require Import base numbers option list gmap sorting.
From S2P Require Import Prelude Std Tls.

Local Open Scope Z_scope.

Inductive Interruption := Unanswered | Stopped | FileLimit.

#[export] Instance Interruption_eq_dec : EqDecision Interruption.
Proof. solve_decision. Defined.

Record VersionSupport := mkVersionSupport {
  vs_version : TlsVersion;
  vs_suites : list Z;
  vs_unrecognised : list Z;
}.

#[export] Instance VersionSupport_eq_dec : EqDecision VersionSupport.
Proof. solve_decision. Defined.

Record UnfinishedVersion := mkUnfinished {
  uf_version : TlsVersion;
  uf_interruption : Interruption;
}.

#[export] Instance UnfinishedVersion_eq_dec : EqDecision UnfinishedVersion.
Proof. solve_decision. Defined.

Record TlsSupport := mkTlsSupport {
  ts_versions : list VersionSupport;
  ts_unfinished : list UnfinishedVersion;
}.

#[export] Instance TlsSupport_eq_dec : EqDecision TlsSupport.
Proof. solve_decision. Defined.

Definition support_new : TlsSupport := mkTlsSupport [] [].

(** [derive(Ord)] on [TlsVersion]: oldest first, as the version numbers are. *)
Definition version_ltb (a b : TlsVersion) : bool := version_code a <? version_code b.

(** The insertion [record] and [record_unfinished] share: one entry to a version, oldest
    first. *)
Definition keep_by_version {A} (version : A -> TlsVersion) (l : list A) (x : A) : list A :=
  let at_ := partition_point (fun held => version_ltb (version held) (version x)) l in
  match l !! at_ with
  | Some held => if bool_decide (version held = version x) then <[at_ := x]> l else take at_ l ++ x :: drop at_ l
  | None => take at_ l ++ x :: drop at_ l
  end.

Definition support_record (s : TlsSupport) (v : VersionSupport) : TlsSupport :=
  mkTlsSupport (keep_by_version vs_version (ts_versions s) v) (ts_unfinished s).

Definition support_record_unfinished (s : TlsSupport) (u : UnfinishedVersion) : TlsSupport :=
  mkTlsSupport (ts_versions s) (keep_by_version uf_version (ts_unfinished s) u).

Definition support_is_empty (s : TlsSupport) : bool := match ts_versions s, ts_unfinished s with [], [] => true | _, _ => false end.

Definition accepts (s : TlsSupport) (v : TlsVersion) : bool := existsb (fun held => bool_decide (vs_version held = v)) (ts_versions s).

Definition support_floor (s : TlsSupport) : option TlsVersion := vs_version <$> head (ts_versions s).

Definition support_ceiling (s : TlsSupport) : option TlsVersion := vs_version <$> last (ts_versions s).

Definition support_is_complete (s : TlsSupport) : bool := match ts_unfinished s with [] => true | _ => false end.

Record Account := mkAccount {
  ac_finished : bool;
  ac_found : gset Z;
}.

(** [iter().find(|held| held.version == version)]. *)
Fixpoint find_version {A} (version : A -> TlsVersion) (v : TlsVersion) (l : list A) : option A :=
  match l with [] => None | x :: l => if bool_decide (version x = v) then Some x else find_version version v l end.

Definition account (s : TlsSupport) (v : TlsVersion) : Account :=
  mkAccount (negb (existsb (fun held => bool_decide (uf_version held = v)) (ts_unfinished s)))
    (default ∅ ((fun held => list_to_set (vs_suites held ++ vs_unrecognised held)) <$> find_version vs_version v (ts_versions s))).

Definition supersedes (self standing : Account) : bool :=
  let further :=
    match ac_finished self, ac_finished standing with
    | _, true => false
    | true, false => true
    | false, false => (size (ac_found standing) <? size (ac_found self))%nat
    end in
  further && bool_decide (ac_found standing ⊆ ac_found self).

(** The versions either record names, oldest first. *)
Definition named_versions (self other : TlsSupport) : list TlsVersion :=
  filter (fun v => v ∈ (vs_version <$> ts_versions self) ++ (uf_version <$> ts_unfinished self) ++
                       (vs_version <$> ts_versions other) ++ (uf_version <$> ts_unfinished other)) [Ssl30; Tls10; Tls11; Tls12; Tls13].

Definition support_merge (self other : TlsSupport) : TlsSupport :=
  if support_is_empty other then self
  else if support_is_empty self then other
  else
    let taken := filter (fun v => supersedes (account other v) (account self v) = true) (named_versions self other) in
    let s := mkTlsSupport (filter (fun held => vs_version held ∉ taken) (ts_versions self))
                          (filter (fun held => uf_version held ∉ taken) (ts_unfinished self)) in
    let s := foldl support_record s (filter (fun held => vs_version held ∈ taken) (ts_versions other)) in
    foldl support_record_unfinished s (filter (fun held => uf_version held ∈ taken) (ts_unfinished other)).

(** ** Lists with one entry to a version *)

Section ByVersion.
Context {A : Type} (version : A -> TlsVersion).

Definition by_version (l : list A) : Prop := StronglySorted (fun a b => version_code (version a) < version_code (version b)) l.

Lemma version_code_inj a b : version_code a = version_code b -> a = b.
Proof. by destruct a, b. Qed.

Lemma find_version_none v l : find_version version v l = None <-> Forall (fun x => version x <> v) l.
Proof.
  induction l as [|x l IH]; [done|]. cbn. rewrite Forall_cons, <- IH. case_bool_decide; [|naive_solver]. split; [done|]. by intros [? _].
Qed.

Lemma find_version_app v a b : find_version version v (a ++ b) = match find_version version v a with Some x => Some x | None => find_version version v b end.
Proof. induction a as [|x a IH]; [done|]. cbn. by case_bool_decide. Qed.

Lemma find_version_version v l x : find_version version v l = Some x -> version x = v.
Proof. induction l as [|y l IH]; [done|]. cbn. case_bool_decide; [by intros [= <-]|done]. Qed.

Lemma by_version_middle a x b :
  by_version (a ++ x :: b) <->
  Forall (fun y => version_code (version y) < version_code (version x)) a /\
  Forall (fun y => version_code (version x) < version_code (version y)) b /\ by_version (a ++ b).
Proof.
  unfold by_version. rewrite !StronglySorted_app, StronglySorted_cons. setoid_rewrite elem_of_cons. rewrite !Forall_forall. naive_solver.
Qed.

Lemma below_not_found v l : Forall (fun y => version_code (version y) < version_code v) l -> find_version version v l = None.
Proof. intros H. apply find_version_none. eapply Forall_impl; [exact H|]. cbn. intros y Hy Hv. rewrite Hv in Hy. lia. Qed.

Lemma above_not_found v l : Forall (fun y => version_code v < version_code (version y)) l -> find_version version v l = None.
Proof. intros H. apply find_version_none. eapply Forall_impl; [exact H|]. cbn. intros y Hy Hv. rewrite Hv in Hy. lia. Qed.

Lemma keep_by_version_spec l x :
  by_version l ->
  by_version (keep_by_version version l x) /\
  forall v, find_version version v (keep_by_version version l x) = if bool_decide (version x = v) then Some x else find_version version v l.
Proof.
  intros Hl. unfold keep_by_version. set (i := partition_point _ l).
  assert (StronglySorted (fun a b => version_ltb (version b) (version x) = true -> version_ltb (version a) (version x) = true) l) as Hp.
  { eapply sorted_weaken; [|exact Hl]. intros a b _ _. unfold version_ltb. cbn. lia. }
  destruct (partition_point_spec _ l Hp) as (Hi & Hlt & Hge). fold i in Hi, Hlt, Hge.
  assert (Forall (fun y => version_code (version y) < version_code (version x)) (take i l)) as Ht.
  { apply Forall_lookup. intros j y [Hj Hji]%lookup_take_Some. specialize (Hlt j y Hji Hj). unfold version_ltb in Hlt. lia. }
  assert (forall j y, (i <= j)%nat -> l !! j = Some y -> version_code (version x) <= version_code (version y)) as Hd.
  { intros j y Hj Hy. specialize (Hge j y Hj Hy). unfold version_ltb in Hge. lia. }
  assert (forall rest, (forall v, v <> version x -> find_version version v (take i l ++ rest) = find_version version v l) -> by_version (take i l ++ rest) ->
    Forall (fun y => version_code (version x) < version_code (version y)) rest ->
    by_version (take i l ++ x :: rest) /\
    forall v, find_version version v (take i l ++ x :: rest) = if bool_decide (version x = v) then Some x else find_version version v l) as Hdone.
  { intros rest Hsame Hord Hrest. split; [by apply by_version_middle|]. intros v. rewrite find_version_app. cbn. case_bool_decide as Hv.
    - subst v. by rewrite below_not_found.
    - rewrite <- find_version_app. by apply Hsame. }
  destruct (l !! i) as [held|] eqn:E; [case_bool_decide as Hv|].
  - rewrite insert_take_drop by by eapply lookup_lt_Some. pose proof (take_drop_middle l i held E) as Hsplit.
    pose proof Hl as Hl'. rewrite <- Hsplit in Hl'. apply by_version_middle in Hl' as (_ & Hafter & Hrest). rewrite Hv in Hafter.
    apply Hdone; [|done|done]. intros v Hne. transitivity (find_version version v (take i l ++ held :: drop (S i) l)); [|by rewrite Hsplit].
    rewrite !find_version_app. cbn. by rewrite bool_decide_eq_false_2 by congruence.
  - apply Hdone; rewrite ?take_drop; try done. apply Forall_lookup. intros j y Hj. rewrite lookup_drop in Hj.
    assert (version_code (version held) < version_code (version y) \/ y = held) as [Hy| ->].
    { destruct j as [|j]; [right; rewrite Nat.add_0_r in Hj; congruence|left]. by apply (StronglySorted_lookup _ _ i (i + S j)%nat held y Hl); [lia|..]. }
    + assert (version_code (version x) <= version_code (version held)) by (eapply Hd; [|exact E]; lia). lia.
    + assert (version_code (version x) <= version_code (version held)) by (eapply Hd; [|exact E]; lia).
      assert (version_code (version x) <> version_code (version held)) by (intros Hc%version_code_inj; congruence). lia.
  - apply Hdone; rewrite ?take_drop; try done. apply Forall_lookup. intros j y Hj. rewrite lookup_drop in Hj.
    apply lookup_ge_None in E. apply lookup_lt_Some in Hj. lia.
Qed.

Lemma keep_all_spec new l :
  by_version l -> NoDup (version <$> new) ->
  by_version (foldl (keep_by_version version) l new) /\
  forall v, find_version version v (foldl (keep_by_version version) l new) =
    match find_version version v new with Some x => Some x | None => find_version version v l end.
Proof.
  revert l. induction new as [|x new IH]; intros l Hl Hnd; [done|]. cbn in *. apply NoDup_cons in Hnd as [Hout Hnd].
  destruct (keep_by_version_spec l x Hl) as [Hl' Hf]. destruct (IH _ Hl' Hnd) as [Hr Hrf]. split; [done|]. intros v. rewrite Hrf, Hf.
  case_bool_decide as Hv; [|done]. subst v. rewrite (proj2 (find_version_none _ _)); [done|]. apply Forall_forall. intros y Hy E.
  apply Hout. rewrite <- E. by apply list_elem_of_fmap_2.
Qed.

Lemma filter_by_version (P : TlsVersion -> Prop) `{forall v, Decision (P v)} l :
  by_version l -> by_version (filter (fun x => P (version x)) l) /\
  forall v, find_version version v (filter (fun x => P (version x)) l) = if decide (P v) then find_version version v l else None.
Proof.
  induction 1 as [|x l Hl [IHs IHf] Hall]; [split; [constructor|]; intros v; by destruct (decide (P v))|].
  destruct (decide (P (version x))) as [HP|HP].
  - rewrite filter_cons_True by done. split.
    + constructor; [done|]. apply Forall_forall. intros y [_ Hy]%list_elem_of_filter. by apply (proj1 (Forall_forall _ _) Hall).
    + intros v. cbn. rewrite IHf. case_bool_decide as Hv; [subst; by rewrite !decide_True|done].
  - rewrite filter_cons_False by done. split; [done|]. intros v. rewrite IHf. cbn. case_bool_decide as Hv; [subst; by rewrite !decide_False|done].
Qed.

Lemma by_version_nodup l : by_version l -> NoDup (version <$> l).
Proof.
  induction 1 as [|x l Hl IH Hall]; cbn; [constructor|]. constructor; [|done]. intros (y & E & Hy)%list_elem_of_fmap.
  pose proof (proj1 (Forall_forall _ _) Hall y Hy) as Hlt. cbn in Hlt. rewrite E in Hlt. lia.
Qed.

Lemma existsb_version v l : existsb (fun held => bool_decide (version held = v)) l = match find_version version v l with Some _ => true | None => false end.
Proof. induction l as [|x l IH]; [done|]. cbn. by case_bool_decide. Qed.

Lemma find_version_some v l : (exists x, find_version version v l = Some x) <-> v ∈ version <$> l.
Proof.
  induction l as [|x l IH]; cbn; [rewrite elem_of_nil; naive_solver|]. rewrite elem_of_cons. case_bool_decide; naive_solver.
Qed.
End ByVersion.

(** ** Folding two enumerations *)

Definition support_ok (s : TlsSupport) : Prop := by_version vs_version (ts_versions s) /\ by_version uf_version (ts_unfinished s).

(** What a record says of a version: what was accepted, and how the walk was cut short. *)
Definition support_at (s : TlsSupport) (v : TlsVersion) : option VersionSupport * option UnfinishedVersion :=
  (find_version vs_version v (ts_versions s), find_version uf_version v (ts_unfinished s)).

Lemma account_at s v :
  account s v = mkAccount (match snd (support_at s v) with Some _ => false | None => true end)
    (default ∅ ((fun held => list_to_set (vs_suites held ++ vs_unrecognised held)) <$> fst (support_at s v))).
Proof. unfold account, support_at. cbn. rewrite existsb_version. by destruct (find_version uf_version v (ts_unfinished s)). Qed.

Lemma foldl_record l s : foldl support_record s l = mkTlsSupport (foldl (keep_by_version vs_version) (ts_versions s) l) (ts_unfinished s).
Proof. revert s. induction l as [|x l IH]; intros s; [by destruct s|]. cbn. by rewrite IH. Qed.

Lemma foldl_unfinished l s :
  foldl support_record_unfinished s l = mkTlsSupport (ts_versions s) (foldl (keep_by_version uf_version) (ts_unfinished s) l).
Proof. revert s. induction l as [|x l IH]; intros s; [by destruct s|]. cbn. by rewrite IH. Qed.

(** A version neither record names has nothing to take. *)
Lemma unnamed_version self other v :
  v ∉ named_versions self other -> support_at self v = (None, None) /\ support_at other v = (None, None).
Proof.
  intros Hn. assert (v ∈ [Ssl30; Tls10; Tls11; Tls12; Tls13]) as Hv by (destruct v; set_solver).
  assert (forall A (version : A -> TlsVersion) l, v ∉ version <$> l -> find_version version v l = None) as Hnone.
  { intros A version l Hl. destruct (find_version version v l) as [x|] eqn:E; [|done]. exfalso. apply Hl, find_version_some. by exists x. }
  unfold named_versions in Hn. rewrite list_elem_of_filter, !elem_of_app in Hn. unfold support_at. rewrite !Hnone by naive_solver. done.
Qed.

Lemma support_merge_spec self other :
  support_ok self -> support_ok other -> support_is_empty self = false -> support_is_empty other = false ->
  support_ok (support_merge self other) /\
  forall v, support_at (support_merge self other) v =
    if supersedes (account other v) (account self v) then support_at other v else support_at self v.
Proof.
  intros [Hs Hsu] [Ho Hou] Hne Hne'. unfold support_merge. rewrite Hne, Hne'. set (taken := filter _ (named_versions self other)).
  rewrite foldl_record, foldl_unfinished. cbn.
  destruct (filter_by_version vs_version (fun v => v ∉ taken) _ Hs) as [Hs1 Hs2], (filter_by_version uf_version (fun v => v ∉ taken) _ Hsu) as [Hu1 Hu2].
  destruct (filter_by_version vs_version (fun v => v ∈ taken) _ Ho) as [Ho1 Ho2], (filter_by_version uf_version (fun v => v ∈ taken) _ Hou) as [Hv1 Hv2].
  destruct (keep_all_spec vs_version _ _ Hs1 (by_version_nodup _ _ Ho1)) as [Hr Hrf], (keep_all_spec uf_version _ _ Hu1 (by_version_nodup _ _ Hv1)) as [Hq Hqf].
  split; [done|]. intros v. unfold support_at at 1. cbn. rewrite Hrf, Hqf, Hs2, Hu2, Ho2, Hv2.
  assert (v ∈ taken <-> v ∈ named_versions self other /\ supersedes (account other v) (account self v) = true) as Htaken.
  { unfold taken. rewrite list_elem_of_filter. tauto. }
  assert (v ∈ taken <-> supersedes (account other v) (account self v) = true) as Ht.
  { rewrite Htaken. split; [tauto|]. intros Hsup. split; [|done]. destruct (decide (v ∈ named_versions self other)) as [|Hn]; [done|].
    destruct (unnamed_version _ _ _ Hn) as [E1 E2]. rewrite !account_at, E1, E2 in Hsup. done. }
  destruct (supersedes (account other v) (account self v)) eqn:E.
  - rewrite !(decide_True (P := v ∈ taken)) by by apply Ht. rewrite !decide_False by (intros Hx; apply Hx, Ht; done).
    unfold support_at. by destruct (find_version vs_version v (ts_versions other)), (find_version uf_version v (ts_unfinished other)).
  - rewrite !(decide_False (P := v ∈ taken)) by (intros Hx%Ht; congruence). rewrite !decide_True by (intros Hx%Ht; congruence). done.
Qed.

Lemma by_version_ext {A} (version : A -> TlsVersion) p q :
  by_version version p -> by_version version q -> (forall v, find_version version v p = find_version version v q) -> p = q.
Proof.
  intros Hp. revert q. induction Hp as [|a p Hp IH Ha]; intros q Hq E.
  - destruct q as [|b q]; [done|]. specialize (E (version b)). cbn in E. by rewrite bool_decide_eq_true_2 in E.
  - destruct q as [|b q]; [specialize (E (version a)); cbn in E; by rewrite bool_decide_eq_true_2 in E|].
    apply StronglySorted_inv in Hq as [Hq Hb].
    assert (a = b) as ->.
    { pose proof (E (version a)) as Ea. pose proof (E (version b)) as Eb. cbn in Ea, Eb.
      rewrite (bool_decide_eq_true_2 (version a = version a)) in Ea by done. rewrite (bool_decide_eq_true_2 (version b = version b)) in Eb by done.
      destruct (decide (version a = version b)) as [Hv|Hv]; [rewrite bool_decide_eq_true_2 in Ea by done; congruence|].
      rewrite bool_decide_eq_false_2 in Ea by congruence. rewrite bool_decide_eq_false_2 in Eb by done.
      destruct (Z.lt_total (version_code (version a)) (version_code (version b))) as [Hlt|[Heq%version_code_inj|Hgt]]; [|done|].
      - rewrite (above_not_found version (version a) q) in Ea; [done|]. eapply Forall_impl; [exact Hb|]. cbn. lia.
      - rewrite (above_not_found version (version b) p) in Eb; [done|]. eapply Forall_impl; [exact Ha|]. cbn. lia. }
    f_equal. apply IH; [done|]. intros v. specialize (E v). cbn in E. case_bool_decide as Hv; [|done]. subst v.
    rewrite !above_not_found; [done|done|done].
Qed.

Lemma support_ext s s' : support_ok s -> support_ok s' -> (forall v, support_at s v = support_at s' v) -> s = s'.
Proof.
  intros [Hs Hu] [Hs' Hu'] E. destruct s as [vs us], s' as [vs' us']. cbn in *. f_equal.
  - apply (by_version_ext vs_version); [done|done|]. intros v. specialize (E v). unfold support_at in E. cbn in E. congruence.
  - apply (by_version_ext uf_version); [done|done|]. intros v. specialize (E v). unfold support_at in E. cbn in E. congruence.
Qed.

Lemma supersedes_irrefl a : supersedes a a = false.
Proof. unfold supersedes. destruct (ac_finished a); [done|]. by rewrite Nat.ltb_irrefl. Qed.

Lemma support_empty_iff s : support_is_empty s = true <-> s = support_new.
Proof. destruct s as [[] []]; cbn; naive_solver. Qed.

Lemma support_merge_ok self other : support_ok self -> support_ok other -> support_ok (support_merge self other).
Proof.
  intros Hs Ho. destruct (support_is_empty other) eqn:Eo; [unfold support_merge; by rewrite Eo|].
  destruct (support_is_empty self) eqn:Es; [unfold support_merge; by rewrite Eo, Es|]. by apply support_merge_spec.
Qed.

(** A fold takes each version whole from one enumeration or the other, never forgets a suite
    the first found nor that its walk finished, and where it leaves anything is not changed by
    the same enumeration again. *)
Theorem enumerations_fold_whole self other :
  support_ok self -> support_ok other ->
  let r := support_merge self other in
  support_ok r /\ (r <> support_new -> support_merge r other = r) /\
  forall v, (support_at r v = support_at self v \/ support_at r v = support_at other v) /\
    (self <> support_new -> ac_found (account self v) ⊆ ac_found (account r v) /\
                            (ac_finished (account self v) = true -> support_at r v = support_at self v)).
Proof.
  intros Hs Ho r. subst r. destruct (support_is_empty other) eqn:Eo.
  { unfold support_merge. rewrite Eo. split_and!; try done. intros v. split; [by left|done]. }
  destruct (support_is_empty self) eqn:Es.
  { assert (support_merge self other = other) as -> by (unfold support_merge; by rewrite Eo, Es). apply support_empty_iff in Es.
    destruct (support_merge_spec other other Ho Ho Eo Eo) as [Hok Hat]. split_and!; [done| |intros v; split; [by right|done]].
    intros _. apply support_ext; [done|done|]. intros v. rewrite Hat. by destruct (supersedes _ _). }
  destruct (support_merge_spec self other Hs Ho Es Eo) as [Hok Hat]. set (r := support_merge self other) in *.
  split_and!; [done| |].
  - intros Hne. assert (support_is_empty r = false) as Er by (destruct (support_is_empty r) eqn:Er; [by apply support_empty_iff in Er|done]).
    destruct (support_merge_spec r other Hok Ho Er Eo) as [Hok2 Hat2]. apply support_ext; [done|done|]. intros v. rewrite Hat2. rewrite (account_at r), Hat.
    destruct (supersedes (account other v) (account self v)) eqn:E.
    + rewrite <- (account_at other). by rewrite supersedes_irrefl.
    + rewrite <- (account_at self). by rewrite E.
  - intros v. rewrite (account_at r v), Hat. destruct (supersedes (account other v) (account self v)) eqn:E.
    + split; [by right|]. intros _. rewrite <- (account_at other). unfold supersedes in E. apply andb_true_iff in E as [E1 E2].
      apply bool_decide_eq_true in E2. split; [done|]. intros Hf. by rewrite Hf in E1; destruct (ac_finished (account other v)).
    + rewrite <- (account_at self). split; [by left|done].
Qed.

(** Two enumerations that both established something can leave a record that says nothing was
    asked: a walk cut short at one version gives way to one that saw it refused, and the
    version that one found accepted is the refusal of the first, which finished. *)
Example fold_leaves_nothing :
  let cut := support_record_unfinished support_new (mkUnfinished Tls10 Unanswered) in
  let later := support_record support_new (mkVersionSupport Tls12 [0xc02f] []) in
  support_is_empty cut = false /\ support_is_empty later = false /\ support_merge cut later = support_new /\
  accepts (support_merge later cut) Tls12 = true.
Proof. by vm_compute. Qed.
