(* ===== verification/Endpoint.v ===== *)
(** * One endpoint of a host

    [Port] of [model/port.rs] with what is on it: the service ([model/port/service.rs]), what
    TLS negotiated there ([Security] of [model/port/security.rs]) and the packet that settled
    its state ([model/port/discovery.rs]).  Each folds another account of itself in by its own
    rule; [port_merge] composes them. *)

From Stdlib Require Import ZArith Lia.
From stdpp Require Import base numbers option list gmap sorting.
From S2P Require Import Prelude Std Text Ordering IpRange PortSet Status Os Finding Backport TlsSupport.

Local Open Scope Z_scope.

(** ** Services *)

Definition MAX_CPES_PER_SERVICE : nat := MAX_CPES_PER_OS.

Record PortService := mkPortService {
  ps_name : text;
  ps_confidence : Z;
  ps_product : option text;
  ps_vendor : option text;
  ps_version : option text;
  ps_extrainfo : option text;
  ps_cpe : gset text;
  ps_build : option Build;
}.

Definition service_new (name : text) (confidence : Z) : PortService :=
  mkPortService name (Z.min confidence 100) None None None None ∅ None.

Definition is_inferred (s : PortService) : bool := ps_confidence s =? 0.

Definition service_add_cpe (cpe : text) (s : PortService) : PortService :=
  if (size (ps_cpe s) <? MAX_CPES_PER_SERVICE)%nat then
    mkPortService (ps_name s) (ps_confidence s) (ps_product s) (ps_vendor s) (ps_version s) (ps_extrainfo s) ({[ cpe ]} ∪ ps_cpe s) (ps_build s)
  else s.

(** Whose build it is, of two accounts. *)
Definition merge_builds (surer : bool) (held offered : option Build) : option Build :=
  match held, offered with
  | Some h, Some o => if bool_decide (bd_distributor h = bd_distributor o) then Some (build_merge h o) else if surer then Some o else Some h
  | held, offered => or_else held offered
  end.

Definition service_merge (self other : PortService) : PortService :=
  let surer := ps_confidence self <? ps_confidence other in
  let build := merge_builds surer (ps_build self) (ps_build other) in
  let cpe := union_capped MAX_CPES_PER_SERVICE (ps_cpe self) (in_order (ps_cpe other)) in
  if surer then
    mkPortService (ps_name other) (ps_confidence other) (or_else (ps_product other) (ps_product self)) (or_else (ps_vendor other) (ps_vendor self))
      (or_else (ps_version other) (ps_version self)) (or_else (ps_extrainfo other) (ps_extrainfo self)) cpe build
  else
    mkPortService (ps_name self) (ps_confidence self) (or_else (ps_product self) (ps_product other)) (or_else (ps_vendor self) (ps_vendor other))
      (or_else (ps_version self) (ps_version other)) (or_else (ps_extrainfo self) (ps_extrainfo other)) cpe build.

(** ** Transport security *)

Definition MAX_SANS_PER_CERTIFICATE : nat := 100.

Record CertificateInfo := mkCertificate {
  ct_common_name : text;
  ct_sans : list text;
  ct_issuer : text;
  ct_validity_start : Z;
  ct_validity_end : Z;
  ct_pubkey_type : text;
  ct_pubkey_bits : Z;
  ct_fingerprint_sha256 : text;
}.

Definition with_sans (sans : list text) (c : CertificateInfo) : CertificateInfo :=
  mkCertificate (ct_common_name c) (take MAX_SANS_PER_CERTIFICATE sans) (ct_issuer c) (ct_validity_start c) (ct_validity_end c)
    (ct_pubkey_type c) (ct_pubkey_bits c) (ct_fingerprint_sha256 c).

Record Security := mkSecurity {
  se_tls_version : option text;
  se_cipher_suite : option text;
  se_alpn : list text;
  se_certificate : option CertificateInfo;
  se_support : TlsSupport;
}.

(** [add_alpn], and the loop of [merge]. *)
Definition add_alpn (alpn : list text) (protocol : text) : list text := if bool_decide (protocol ∈ alpn) then alpn else alpn ++ [protocol].

Definition security_merge (self other : Security) : Security :=
  mkSecurity (or_else (se_tls_version self) (se_tls_version other)) (or_else (se_cipher_suite self) (se_cipher_suite other))
    (foldl add_alpn (se_alpn self) (se_alpn other)) (or_else (se_certificate self) (se_certificate other))
    (support_merge (se_support self) (se_support other)).

Definition is_cert_valid_at (target_time : Z) (s : Security) : bool :=
  match se_certificate s with
  | Some c => (ct_validity_start c <=? target_time) && (target_time <=? ct_validity_end c)
  | None => false
  end.

(** [SystemTime::checked_add] gives a time past the end of what one can hold, [TIME_MAX], as
    nothing. *)
Definition is_cert_expiring_at (TIME_MAX threshold at_ : Z) (s : Security) : bool :=
  match se_certificate s with
  | Some c =>
    if (at_ <? ct_validity_start c) || (ct_validity_end c <? at_) then false
    else if at_ + threshold <=? TIME_MAX then ct_validity_end c <? at_ + threshold else true
  | None => false
  end.

(** ** Ports *)

Inductive PortState := PortUnasked | ClosedOrNoReply | OpenOrNoReply | NoReply | PortBlocked | Reachable | PortClosed | PortOpen.

#[export] Instance PortState_eq_dec : EqDecision PortState.
Proof. solve_decision. Defined.

(** The order derived for [PortState]: least definitive first. *)
Definition port_state_rank (s : PortState) : Z :=
  match s with
  | PortUnasked => 0 | ClosedOrNoReply => 1 | OpenOrNoReply => 2 | NoReply => 3 | PortBlocked => 4 | Reachable => 5 | PortClosed => 6 | PortOpen => 7
  end.

Inductive ScanResponse :=
  | TcpSynAck | OverheardSynAck | TcpRst | ConnectionRefused | UdpResponse | SctpInitAck | SctpAbort | NoResponse | IcmpUnreachable
  | IcmpProhibited | CustomResponse (name : text).

Record Discovery := mkDiscovery {
  dc_reason : ScanResponse;
  dc_timestamp : Z;
  dc_rtt : option Z;
  dc_ttl : option Z;
  dc_source_ip : option IpAddr;
}.

Record Port := mkPort {
  pt_number : Z;
  pt_protocol : Protocol;
  pt_state : PortState;
  pt_service : option PortService;
  pt_security : option Security;
  pt_discovery : option Discovery;
  pt_findings : gmap ClaimId (Finding Build);
}.

Definition port_new (number : Z) (protocol : Protocol) (state : PortState) : Port := mkPort number protocol state None None None ∅.

Definition port_key (p : Port) : Z * Protocol := (pt_number p, pt_protocol p).

(** [std::cmp::max] gives the second of two equal. *)
Definition max_state (a b : PortState) : PortState := if port_state_rank b <? port_state_rank a then a else b.

Definition port_set_state (state : PortState) (p : Port) : Port :=
  mkPort (pt_number p) (pt_protocol p) (max_state (pt_state p) state) (pt_service p) (pt_security p) (pt_discovery p) (pt_findings p).

Definition set_findings (findings : gmap ClaimId (Finding Build)) (p : Port) : Port :=
  mkPort (pt_number p) (pt_protocol p) (pt_state p) (pt_service p) (pt_security p) (pt_discovery p) findings.

(** An optional part folded into one: merged where both are there. *)
Definition fold_part {A} (merge : A -> A -> A) (held offered : option A) : option A :=
  match offered with
  | Some o => match held with Some h => Some (merge h o) | None => Some o end
  | None => held
  end.

Definition is_some_discovery (d : option Discovery) : bool := match d with Some _ => true | None => false end.

Definition port_merge (self other : Port) : Port :=
  let previous_state := pt_state self in
  mkPort (pt_number self) (pt_protocol self) (max_state (pt_state self) (pt_state other))
    (fold_part service_merge (pt_service self) (pt_service other))
    (fold_part security_merge (pt_security self) (pt_security other))
    (if is_some_discovery (pt_discovery other) &&
        ((port_state_rank previous_state <? port_state_rank (pt_state other)) || negb (is_some_discovery (pt_discovery self)))
     then pt_discovery other else pt_discovery self)
    (add_findings (pt_findings self) (values (pt_findings other))).

(** ** What a port holds *)

Lemma port_state_rank_inj a b : port_state_rank a = port_state_rank b -> a = b.
Proof. by destruct a, b. Qed.

Lemma max_state_rank a b : port_state_rank (max_state a b) = Z.max (port_state_rank a) (port_state_rank b).
Proof. unfold max_state. destruct (Z.ltb_spec (port_state_rank b) (port_state_rank a)); lia. Qed.

Lemma max_state_comm a b : max_state a b = max_state b a.
Proof. apply port_state_rank_inj. rewrite !max_state_rank. lia. Qed.

(** Nothing is above open, so only an open port is. *)
Lemma max_state_open a b : max_state a b = PortOpen <-> a = PortOpen \/ b = PortOpen.
Proof. destruct a, b; cbn; naive_solver. Qed.

Lemma union_capped_size cap offered held : (size held <= cap)%nat -> (size (union_capped cap held offered) <= cap)%nat.
Proof.
  revert held. induction offered as [|x l IH]; intros held Hs; cbn; [done|]. destruct (Nat.leb_spec cap (size held)); [done|].
  apply IH. pose proof (size_union_alt {[ x ]} held). rewrite size_singleton in *. pose proof (subseteq_size (held ∖ {[ x ]}) held ltac:(set_solver)). lia.
Qed.

Lemma union_capped_subseteq cap offered held : held ⊆ union_capped cap held offered /\ union_capped cap held offered ⊆ held ∪ list_to_set offered.
Proof.
  revert held. induction offered as [|x l IH]; intros held; cbn; [set_solver|]. destruct (_ <=? _)%nat; [set_solver|].
  destruct (IH ({[ x ]} ∪ held)) as [H1 H2]. split; set_solver.
Qed.

(** With room for all, a capped union is the union. *)
Lemma union_capped_all cap offered held :
  (size (held ∪ list_to_set offered : gset text) <= cap)%nat -> union_capped cap held offered = held ∪ list_to_set offered.
Proof.
  revert held. induction offered as [|x l IH]; intros held Hs; cbn; [set_solver|]. destruct (Nat.leb_spec cap (size held)) as [Hf|Hf].
  - apply set_subseteq_size_eq; [set_solver|]. etrans; [exact Hs|done].
  - rewrite IH; [set_solver|]. etrans; [|exact Hs]. apply subseteq_size. cbn. set_solver.
Qed.

Definition service_ok (s : PortService) : Prop := (size (ps_cpe s) <= MAX_CPES_PER_SERVICE)%nat /\ 0 <= ps_confidence s <= 100.

Definition security_ok (s : Security) : Prop := NoDup (se_alpn s) /\ support_ok (se_support s).

(** Its parts are sound, its findings are under their claims, and no more than the ceiling. *)
Definition port_ok (p : Port) : Prop :=
  from_option service_ok True (pt_service p) /\ from_option security_ok True (pt_security p) /\
  keyed (pt_findings p) /\ (size (pt_findings p) <= MAX_FINDINGS_PER_SUBJECT)%nat.

Lemma service_merge_ok a b : service_ok a -> service_ok b -> service_ok (service_merge a b).
Proof. intros [Ha Ha'] [Hb Hb']. unfold service_merge, service_ok. destruct (_ <? _); cbn; (split; [by apply union_capped_size|done]). Qed.

Lemma add_alpn_nodup l alpn : NoDup alpn -> NoDup (foldl add_alpn alpn l).
Proof.
  revert alpn. induction l as [|x l IH]; intros alpn Hn; cbn; [done|]. apply IH. unfold add_alpn. case_bool_decide; [done|].
  apply NoDup_app. split_and!; [done| |apply NoDup_singleton]. by intros y Hy ->%list_elem_of_singleton.
Qed.

Lemma security_merge_ok a b : security_ok a -> security_ok b -> security_ok (security_merge a b).
Proof.
  intros [Ha Ha'] [Hb Hb']. split; cbn; [by apply add_alpn_nodup|]. by apply support_merge_ok.
Qed.

Lemma fold_part_ok {A} (P : A -> Prop) (merge : A -> A -> A) held offered :
  (forall a b, P a -> P b -> P (merge a b)) -> from_option P True held -> from_option P True offered -> from_option P True (fold_part merge held offered).
Proof. intros H. destruct held, offered; cbn; auto. Qed.

Lemma port_merge_ok a b : port_ok a -> port_ok b -> port_ok (port_merge a b).
Proof.
  intros (Ha1 & Ha2 & Ha3 & Ha4) (Hb1 & Hb2 & Hb3 & Hb4). split_and!; cbn.
  - apply fold_part_ok; [apply service_merge_ok|done|done].
  - apply fold_part_ok; [apply security_merge_ok|done|done].
  - by apply add_findings_ok.
  - by apply add_findings_ok.
Qed.

(** A fold of two accounts of an endpoint leaves the more definitive state of the two, and the
    packet that accounts for it where the account that reached it had one. *)
Lemma port_merge_state a b :
  pt_state (port_merge a b) = pt_state (port_merge b a) /\ port_key (port_merge a b) = port_key a /\
  (port_state_rank (pt_state a) < port_state_rank (pt_state b) -> is_some_discovery (pt_discovery b) = true ->
   pt_discovery (port_merge a b) = pt_discovery b).
Proof.
  split_and!; [apply max_state_comm|done|]. intros Hr Hd. cbn. rewrite Hd, (proj2 (Z.ltb_lt _ _)) by done. done.
Qed.
