(* ===== verification/Identity.v ===== *)
(** * The addresses and names a host is known by

    The part of [Host] ([model/host.rs]) that says which machine it is: the addresses it
    answers at and which of them leads, the name it resolved to, the names it gave for itself
    and those set aside for redaction.  Every collection here is filled by whoever answers a
    probe, so each has a ceiling; what a ceiling turns away is part of the behaviour.

    [ip_rank] is [identity_rank]: IPv4 leads, then IPv6 that is globally scoped, then the
    rest. *)

From Stdlib Require Import ZArith Lia Sorting.Sorted.
From stdpp Require Import base numbers option list gmap sorting.
From S2P Require Import Prelude Std Text Ordering IpRange Status Finding Os.

Local Open Scope Z_scope.

(** ** Addresses *)

Definition MAX_IPS : nat := 1024.

(** [octets()[0]] of an IPv6 address. *)
Definition first_octet_v6 (a : Z) : Z := Z.shiftr a 120.

Definition is_global_unicast (a : Z) : bool := in_range 0x20 0x3f (first_octet_v6 a).

Definition is_unique_local (a : Z) : bool := Z.land (first_octet_v6 a) 0xfe =? 0xfc.

Definition is_globally_scoped (a : Z) : bool := is_global_unicast a || is_unique_local a.

Definition ip_rank (ip : IpAddr) : Z := match ip with V4 _ => 0 | V6 v6 => if is_globally_scoped v6 then 1 else 2 end.

(** The order of a [BTreeSet<IpAddr>]: every IPv4 address before every IPv6 one. *)
Definition ip_leb (a b : IpAddr) : bool :=
  match a, b with V4 a, V4 b | V6 a, V6 b => a <=? b | V4 _, V6 _ => true | V6 _, V4 _ => false end.

Definition ascending (ips : gset IpAddr) : list IpAddr := sort_by ip_leb (elements ips).

(** [iter.max_by_key(identity_rank)]: the last of the greatest. *)
Definition max_by_rank (l : list IpAddr) : option IpAddr :=
  foldl (fun best x => match best with Some b => if ip_rank b <=? ip_rank x then Some x else Some b | None => Some x end) None l.

(** [iter.min_by_key(identity_rank)]: the first of the least. *)
Definition min_by_rank (l : list IpAddr) : option IpAddr :=
  foldl (fun best x => match best with Some b => if ip_rank x <? ip_rank b then Some x else Some b | None => Some x end) None l.

Record Addresses := mkAddresses {
  ad_primary : IpAddr;
  ad_ips : gset IpAddr;
}.

(** [Host::new]. *)
Definition addresses_new (primary : IpAddr) : Addresses := mkAddresses primary {[ primary ]}.

Definition admit_ip (ip : IpAddr) (a : Addresses) : Addresses * bool :=
  if (size (ad_ips a) <? MAX_IPS)%nat || bool_decide (ip ∈ ad_ips a) then
    (mkAddresses (ad_primary a) ({[ ip ]} ∪ ad_ips a), negb (bool_decide (ip ∈ ad_ips a)))
  else
    match max_by_rank (filter (fun held => held <> ad_primary a) (ascending (ad_ips a))) with
    | Some lowest =>
      if ip_rank ip <? ip_rank lowest then
        let ips := ad_ips a ∖ {[ lowest ]} in (mkAddresses (ad_primary a) ({[ ip ]} ∪ ips), negb (bool_decide (ip ∈ ips)))
      else (a, false)
    | None => (a, false)
    end.

Definition consider_primary_ip (candidate : IpAddr) (a : Addresses) : Addresses * bool :=
  let a := fst (admit_ip candidate a) in
  if negb (bool_decide (candidate ∈ ad_ips a)) then (a, false)
  else if ip_rank (ad_primary a) <=? ip_rank candidate then (a, false)
  else (mkAddresses candidate (ad_ips a), true).

(** [extend_ips] and [adopt_ips]. *)
Definition admit_all (ips : list IpAddr) (a : Addresses) : Addresses := foldl (fun a ip => fst (admit_ip ip a)) a ips.

Definition retain_ips (keep : IpAddr -> bool) (a : Addresses) : Addresses * bool :=
  if forallb keep (ascending (ad_ips a)) then (a, true)
  else
    let kept : gset IpAddr := filter (fun ip => keep ip = true) (ad_ips a) in
    match min_by_rank (ascending kept) with
    | None => (a, false)
    | Some best => (mkAddresses (if bool_decide (ad_primary a ∈ kept) then ad_primary a else best) kept, true)
    end.

(** The addresses of another record, folded in as [Host::merge] does. *)
Definition addresses_merge (self other : Addresses) : Addresses :=
  fst (consider_primary_ip (ad_primary other) (admit_all (ascending (ad_ips other)) self)).

(** *** What they hold *)

(** The leading address is one of them, and they are no more than the ceiling. *)
Definition addresses_ok (a : Addresses) : Prop := ad_primary a ∈ ad_ips a /\ (size (ad_ips a) <= MAX_IPS)%nat.

Lemma elem_of_ascending_ips ip ips : ip ∈ ascending ips <-> ip ∈ ips.
Proof. unfold ascending. rewrite elem_of_sort_by. apply elem_of_elements. Qed.

Lemma max_by_rank_spec l : match max_by_rank l with Some x => x ∈ l /\ Forall (fun y => ip_rank y <= ip_rank x) l | None => l = [] end.
Proof.
  unfold max_by_rank. induction l as [|x l IH] using rev_ind; [done|]. rewrite foldl_app. cbn. destruct (foldl _ None l) as [b|].
  - destruct IH as [Hb Hall]. destruct (Z.leb_spec (ip_rank b) (ip_rank x)) as [Hle|Hlt].
    + split; [apply elem_of_app; right; by left|]. apply Forall_app. split; [eapply Forall_impl; [exact Hall|]; cbn; intros; lia|by repeat constructor].
    + split; [apply elem_of_app; by left|]. apply Forall_app. split; [done|]. repeat constructor. lia.
  - subst. split; [by left|by repeat constructor].
Qed.

Lemma min_by_rank_spec l : match min_by_rank l with Some x => x ∈ l /\ Forall (fun y => ip_rank x <= ip_rank y) l | None => l = [] end.
Proof.
  unfold min_by_rank. induction l as [|x l IH] using rev_ind; [done|]. rewrite foldl_app. cbn. destruct (foldl _ None l) as [b|].
  - destruct IH as [Hb Hall]. destruct (Z.ltb_spec (ip_rank x) (ip_rank b)) as [Hle|Hlt].
    + split; [apply elem_of_app; right; by left|]. apply Forall_app. split; [eapply Forall_impl; [exact Hall|]; cbn; intros; lia|by repeat constructor].
    + split; [apply elem_of_app; by left|]. apply Forall_app. split; [done|]. repeat constructor. lia.
  - subst. split; [by left|by repeat constructor].
Qed.

Lemma size_insert {A} `{Countable A} (x : A) (s : gset A) : size ({[ x ]} ∪ s) = (if bool_decide (x ∈ s) then size s else S (size s)).
Proof.
  case_bool_decide as Hx; [by rewrite (subseteq_union_1_L {[ x ]} s) by set_solver|].
  rewrite size_union by set_solver. by rewrite size_singleton.
Qed.

(** What [admit_ip] does, with and without room. *)
Lemma admit_ip_cases ip a :
  addresses_ok a ->
  (((size (ad_ips a) < MAX_IPS)%nat \/ ip ∈ ad_ips a) /\ ad_ips (fst (admit_ip ip a)) = {[ ip ]} ∪ ad_ips a) \/
  (exists lowest, lowest ∈ ad_ips a /\ lowest <> ad_primary a /\ ip_rank ip < ip_rank lowest /\ ip ∉ ad_ips a /\
     (forall held, held ∈ ad_ips a -> held <> ad_primary a -> ip_rank held <= ip_rank lowest) /\
     ad_ips (fst (admit_ip ip a)) = {[ ip ]} ∪ ad_ips a ∖ {[ lowest ]}) \/
  (size (ad_ips a) = MAX_IPS /\ ip ∉ ad_ips a /\ (forall held, held ∈ ad_ips a -> held <> ad_primary a -> ip_rank held <= ip_rank ip) /\
     fst (admit_ip ip a) = a).
Proof.
  intros [Hp Hs]. unfold admit_ip. destruct (Nat.ltb_spec (size (ad_ips a)) MAX_IPS) as [Hr|Hr]; [left; cbn; auto|].
  case_bool_decide as Hin; [left; cbn; auto|]. cbn [orb]. right.
  pose proof (max_by_rank_spec (filter (fun held => held <> ad_primary a) (ascending (ad_ips a)))) as Hmax.
  destruct (max_by_rank _) as [lowest|].
  - destruct Hmax as [[Hne Hl%elem_of_ascending_ips]%list_elem_of_filter Hall].
    assert (forall held, held ∈ ad_ips a -> held <> ad_primary a -> ip_rank held <= ip_rank lowest) as Hlow.
    { intros held Hh Hn. apply (proj1 (Forall_forall _ _) Hall), list_elem_of_filter. split; [done|by apply elem_of_ascending_ips]. }
    destruct (Z.ltb_spec (ip_rank ip) (ip_rank lowest)); [left; exists lowest; done|].
    right. split_and!; [lia|done| |done]. intros held Hh Hn. specialize (Hlow held Hh Hn). lia.
  - right. split_and!; [lia|done| |done]. intros held Hh Hn. assert (held ∈ filter (fun held => held <> ad_primary a) (ascending (ad_ips a))) as Hx.
    { apply list_elem_of_filter. split; [done|by apply elem_of_ascending_ips]. } rewrite Hmax in Hx. by apply elem_of_nil in Hx.
Qed.

Lemma admit_ip_primary ip a : ad_primary (fst (admit_ip ip a)) = ad_primary a.
Proof. unfold admit_ip. destruct (_ || _); [done|]. destruct (max_by_rank _); [|done]. by destruct (_ <? _). Qed.

Lemma admit_ip_ok ip a : addresses_ok a -> addresses_ok (fst (admit_ip ip a)).
Proof.
  intros Ha. pose proof Ha as [Hp Hs]. split.
  - rewrite admit_ip_primary. destruct (admit_ip_cases ip a Ha) as [[_ ->]|[(l & Hl & Hne & _ & _ & _ & ->)|(_ & _ & _ & ->)]]; set_solver.
  - destruct (admit_ip_cases ip a Ha) as [[Hroom ->]|[(l & Hl & Hne & _ & Hin & _ & ->)|(_ & _ & _ & ->)]]; [| |done].
    + rewrite size_insert. case_bool_decide; [done|]. destruct Hroom; [lia|done].
    + rewrite size_insert, bool_decide_eq_false_2, size_difference, size_singleton by set_solver.
      assert (size ({[ l ]} : gset IpAddr) <= size (ad_ips a))%nat by (apply subseteq_size; set_solver). rewrite size_singleton in *. lia.
Qed.

Lemma admit_all_ok ips a : addresses_ok a -> addresses_ok (admit_all ips a) /\ ad_primary (admit_all ips a) = ad_primary a.
Proof.
  revert a. induction ips as [|ip ips IH]; intros a Ha; [done|]. cbn. destruct (IH _ (admit_ip_ok ip a Ha)) as [H1 H2].
  unfold admit_all in *. by rewrite H2, admit_ip_primary.
Qed.

(** With room for all of them, the addresses are the union. *)
Lemma admit_all_room ips a :
  addresses_ok a -> (size (ad_ips a ∪ list_to_set ips) <= MAX_IPS)%nat -> ad_ips (admit_all ips a) = ad_ips a ∪ list_to_set ips.
Proof.
  revert a. induction ips as [|ip ips IH]; intros a Ha Hroom; cbn; [set_solver|].
  assert (ad_ips (fst (admit_ip ip a)) = {[ ip ]} ∪ ad_ips a) as E.
  { assert ((size (ad_ips a) < MAX_IPS)%nat \/ ip ∈ ad_ips a) as Hr.
    { destruct (decide (ip ∈ ad_ips a)) as [|Hn]; [by right|left]. assert (size ({[ ip ]} ∪ ad_ips a) <= MAX_IPS)%nat as Hle.
      { etrans; [|exact Hroom]. apply subseteq_size. set_solver. } rewrite size_insert, bool_decide_eq_false_2 in Hle by done. lia. }
    destruct (admit_ip_cases ip a Ha) as [[_ E]|[(l & _ & _ & _ & Hn & _)|(Hs & Hn & _)]]; [done| |].
    - unfold admit_ip. destruct Hr as [Hr|Hr]; [by rewrite (proj2 (Nat.ltb_lt _ _))|done].
    - destruct Hr; [lia|done]. }
  unfold admit_all in IH. rewrite IH, E; [set_solver|by apply admit_ip_ok|]. rewrite E. etrans; [|exact Hroom]. apply subseteq_size. set_solver.
Qed.

Lemma consider_primary_ip_ok c a : addresses_ok a -> addresses_ok (fst (consider_primary_ip c a)).
Proof.
  intros Ha. pose proof (admit_ip_ok c a Ha) as [Hp Hs]. unfold consider_primary_ip. case_bool_decide as Hc; [|done].
  cbn [negb]. destruct (_ <=? _); split; done.
Qed.

Lemma retain_ips_ok keep a : addresses_ok a -> addresses_ok (fst (retain_ips keep a)).
Proof.
  intros [Hp Hs]. unfold retain_ips. destruct (forallb keep _); [done|].
  pose proof (min_by_rank_spec (ascending (filter (fun ip => keep ip = true) (ad_ips a)))) as Hmin. destruct (min_by_rank _) as [best|]; [|done].
  destruct Hmin as [Hb%elem_of_ascending_ips _]. split; cbn.
  - by case_bool_decide.
  - etrans; [|exact Hs]. apply subseteq_size. set_solver.
Qed.

Lemma addresses_merge_ok self other : addresses_ok self -> addresses_ok (addresses_merge self other).
Proof. intros Hs. apply consider_primary_ip_ok, admit_all_ok, Hs. Qed.

Lemma ascending_set ips : list_to_set (ascending ips) = ips.
Proof. apply set_eq. intros ip. rewrite elem_of_list_to_set. apply elem_of_ascending_ips. Qed.

(** With room, a fold of two records' addresses is their union, under the better of the two
    leading addresses; of two equally good the first leads. *)
Lemma addresses_merge_room self other :
  addresses_ok self -> addresses_ok other -> (size (ad_ips self ∪ ad_ips other) <= MAX_IPS)%nat ->
  addresses_merge self other =
  mkAddresses (if ip_rank (ad_primary other) <? ip_rank (ad_primary self) then ad_primary other else ad_primary self) (ad_ips self ∪ ad_ips other).
Proof.
  intros Hs Ho Hroom. unfold addresses_merge. destruct (admit_all_ok (ascending (ad_ips other)) self Hs) as [Hok Hp].
  assert (ad_ips (admit_all (ascending (ad_ips other)) self) = ad_ips self ∪ ad_ips other) as E.
  { rewrite admit_all_room by (rewrite ?ascending_set; done). by rewrite ascending_set. }
  assert (ad_primary other ∈ ad_ips self ∪ ad_ips other) as Hin by (destruct Ho; set_solver).
  unfold consider_primary_ip, admit_ip. rewrite E, (bool_decide_eq_true_2 _ Hin), orb_true_r. cbn [fst ad_ips ad_primary].
  assert ({[ ad_primary other ]} ∪ (ad_ips self ∪ ad_ips other) = ad_ips self ∪ ad_ips other) as -> by set_solver.
  rewrite (bool_decide_eq_true_2 _ Hin), Hp. cbn [negb].
  destruct (Z.leb_spec (ip_rank (ad_primary self)) (ip_rank (ad_primary other))), (Z.ltb_spec (ip_rank (ad_primary other)) (ip_rank (ad_primary self))); try lia; done.
Qed.

(** At the ceiling an address is let in for one that ranks below it, of those the lowest
    ranked, and the leading address is never the one to go: link-local addresses, however
    many, do not keep out one a person would use. *)
Theorem better_address_is_let_in ip a :
  addresses_ok a -> ip ∉ ad_ips a ->
  (exists held, held ∈ ad_ips a /\ held <> ad_primary a /\ ip_rank ip < ip_rank held) ->
  let a' := fst (admit_ip ip a) in
  addresses_ok a' /\ ip ∈ ad_ips a' /\ ad_primary a' = ad_primary a /\
  forall x, x ∈ ad_ips a -> x ∉ ad_ips a' ->
    ip_rank ip < ip_rank x /\ (forall held, held ∈ ad_ips a -> held <> ad_primary a -> ip_rank held <= ip_rank x) /\
    ad_ips a' = {[ ip ]} ∪ ad_ips a ∖ {[ x ]}.
Proof.
  intros Ha Hnew (held & Hh & Hne & Hlt) a'. subst a'. split; [by apply admit_ip_ok|]. rewrite admit_ip_primary.
  destruct (admit_ip_cases ip a Ha) as [[_ ->]|[(l & Hl & Hlne & Hr & _ & Hlow & ->)|(_ & _ & Hall & _)]].
  - split_and!; [set_solver|done|]. intros x Hx Hout. exfalso. apply Hout. set_solver.
  - split_and!; [set_solver|done|]. intros x Hx Hout. assert (x = l) as ->; [|done].
    destruct (decide (x = l)) as [|Hxl]; [done|]. exfalso. apply Hout. apply elem_of_union. right. set_solver.
  - specialize (Hall held Hh Hne). lia.
Qed.

(** ** Names *)

Definition MAX_NAMES : nat := 16.

Definition MAX_SET_ASIDE_NAMES : nat := 64.

Record Named := mkNamed {
  nm_hostname : option text;
  nm_names : gset HostName;
  nm_set_aside : gset text;
}.

Definition named_new : Named := mkNamed None ∅ ∅.

Definition set_hostname (hostname : option text) (n : Named) : Named := mkNamed hostname (nm_names n) (nm_set_aside n).

(** [Ok] is whether the name is new; [Err] hands it back. *)
Definition admit_name (name : HostName) (n : Named) : Named * Result bool HostName :=
  if (MAX_NAMES <=? size (nm_names n))%nat && negb (bool_decide (name ∈ nm_names n)) then (n, Err name)
  else (mkNamed (nm_hostname n) ({[ name ]} ∪ nm_names n) (nm_set_aside n), Ok (negb (bool_decide (name ∈ nm_names n)))).

(** [Host::record_name], less the time it stamps. *)
Definition record_name (name : HostName) (n : Named) : Named * bool :=
  let '(n, r) := admit_name name n in (n, match r with Ok is_new => is_new | Err _ => false end).

Definition states (n : Named) (name : text) : bool :=
  bool_decide (nm_hostname n = Some name) || existsb (fun held => bool_decide (hn_name held = name)) (elements (nm_names n)).

Definition set_aside (name : text) (n : Named) : Named :=
  if negb (states n name) && (size (nm_set_aside n) <? MAX_SET_ASIDE_NAMES)%nat && negb (bool_decide (name ∈ nm_set_aside n))
  then mkNamed (nm_hostname n) (nm_names n) ({[ name ]} ∪ nm_set_aside n) else n.

Definition names_in_order (names : gset HostName) : list HostName := sort_by host_name_leb (elements names).

Definition set_aside_names_of (account n : Named) : Named :=
  foldl (fun n name => set_aside name n) n
    (option_list (nm_hostname account) ++ (hn_name <$> names_in_order (nm_names account)) ++ in_order (nm_set_aside account)).

(** The name a record resolved to: one held stays, and the other is set aside. *)
Definition fold_hostname (self : Named) (hostname : option text) : Named :=
  match nm_hostname self, hostname with
  | None, offered => set_hostname offered self
  | Some _, Some offered => set_aside offered self
  | Some _, None => self
  end.

(** The names of another record, folded in as [Host::merge] does. *)
Definition named_merge (self other : Named) : Named :=
  let n := fold_hostname self (nm_hostname other) in
  let n := foldl (fun n name => let '(n, r) := admit_name name n in match r with Err turned_away => set_aside (hn_name turned_away) n | Ok _ => n end)
             n (names_in_order (nm_names other)) in
  foldl (fun n name => set_aside name n) n (in_order (nm_set_aside other)).

(** *** What they hold *)

Definition named_ok (n : Named) : Prop := (size (nm_names n) <= MAX_NAMES)%nat /\ (size (nm_set_aside n) <= MAX_SET_ASIDE_NAMES)%nat.

(** Every text the record may hold as a name of the host. *)
Definition known (n : Named) (name : text) : Prop := states n name = true \/ name ∈ nm_set_aside n.

Lemma states_spec n name : states n name = true <-> nm_hostname n = Some name \/ exists held, held ∈ nm_names n /\ hn_name held = name.
Proof.
  unfold states. rewrite orb_true_iff, bool_decide_eq_true, existsb_elem. setoid_rewrite elem_of_elements. setoid_rewrite bool_decide_eq_true. done.
Qed.

Lemma set_aside_ok name n : named_ok n -> named_ok (set_aside name n).
Proof.
  intros [H1 H2]. unfold set_aside. destruct (negb (states n name) && _ && _) eqn:E; [|done]. split; [done|]. cbn.
  apply andb_true_iff in E as [[_ E]%andb_true_iff _]. apply Nat.ltb_lt in E. rewrite size_insert. case_bool_decide; lia.
Qed.

Lemma admit_name_ok name n : named_ok n -> named_ok (fst (admit_name name n)).
Proof.
  intros [H1 H2]. unfold admit_name. destruct ((_ <=? _)%nat && _) eqn:E; [done|]. split; [|done]. cbn. rewrite size_insert. case_bool_decide; [done|].
  apply andb_false_iff in E as [E|E]; [apply Nat.leb_gt in E; lia|done].
Qed.

Lemma set_aside_all_ok names n : named_ok n -> named_ok (foldl (fun n name => set_aside name n) n names).
Proof. revert n. induction names as [|x l IH]; intros n Hn; [done|]. cbn. apply IH. by apply set_aside_ok. Qed.

Lemma named_merge_ok self other : named_ok self -> named_ok (named_merge self other).
Proof.
  intros Hs. unfold named_merge. apply set_aside_all_ok. set (start := fold_hostname self (nm_hostname other)).
  assert (named_ok start) as Hst.
  { unfold start, fold_hostname. destruct (nm_hostname self), (nm_hostname other); try done. by apply set_aside_ok. }
  clearbody start. generalize (names_in_order (nm_names other)). intros l. revert start Hst. induction l as [|x l IH]; intros n Hn; [done|]. cbn.
  apply IH. pose proof (admit_name_ok x n Hn) as Ha. destruct (admit_name x n) as [n' [b|t]]; [done|by apply set_aside_ok].
Qed.

(** A step that forgets no name, and stays within what there is room for. *)
Definition grows (room : gset text) (n n' : Named) : Prop :=
  (forall name, known n name -> known n' name) /\ (nm_set_aside n ⊆ room -> nm_set_aside n' ⊆ room).

#[local] Instance grows_preorder room : PreOrder (grows room).
Proof. split; [by intros n; split|]. intros a b c [H1 H2] [H3 H4]. split; eauto. Qed.

Lemma set_aside_grows room name n :
  name ∈ room -> grows room n (set_aside name n) /\ ((size room <= MAX_SET_ASIDE_NAMES)%nat -> nm_set_aside n ⊆ room -> known (set_aside name n) name).
Proof.
  intros Hroom. unfold set_aside. destruct (states n name) eqn:Es; cbn [negb andb].
  { split; [reflexivity|]. intros _ _. by left. }
  case_bool_decide as Hin; cbn [negb]; [rewrite andb_false_r; split; [reflexivity|]; intros _ _; by right|]. rewrite andb_true_r.
  destruct (Nat.ltb_spec (size (nm_set_aside n)) MAX_SET_ASIDE_NAMES) as [Hlt|Hge].
  - split; [split|].
    + intros x [Hx|Hx]; [left; by apply states_spec, states_spec in Hx|right; cbn; set_solver].
    + cbn. set_solver.
    + intros _ _. right. cbn. set_solver.
  - split; [reflexivity|]. intros Hs Hsub. exfalso. assert (size ({[ name ]} ∪ nm_set_aside n) <= size room)%nat as Hle by (apply subseteq_size; set_solver).
    rewrite size_insert, bool_decide_eq_false_2 in Hle by done. lia.
Qed.

Lemma admit_name_grows room name n :
  hn_name name ∈ room ->
  let n' := match admit_name name n with (n', Err turned_away) => set_aside (hn_name turned_away) n' | (n', Ok _) => n' end in
  grows room n n' /\ ((size room <= MAX_SET_ASIDE_NAMES)%nat -> nm_set_aside n ⊆ room -> known n' (hn_name name)).
Proof.
  intros Hroom. unfold admit_name. destruct ((_ <=? _)%nat && _); [by apply set_aside_grows|]. cbn. split; [split; [|done]|].
  - intros x [Hx|Hx]; [left|by right]. apply states_spec in Hx. apply states_spec. cbn. destruct Hx as [Hx|(h & Hh & E)]; [by left|right]. exists h. set_solver.
  - intros _ _. left. apply states_spec. right. exists name. cbn. set_solver.
Qed.

(** A fold of steps that each make a name known makes all of them known. *)
Lemma fold_grows {A : Type} (room : gset text) (name : A -> text) (step : Named -> A -> Named) l n :
  (forall x n, x ∈ l -> grows room n (step n x) /\ ((size room <= MAX_SET_ASIDE_NAMES)%nat -> nm_set_aside n ⊆ room -> known (step n x) (name x))) ->
  grows room n (foldl step n l) /\
  ((size room <= MAX_SET_ASIDE_NAMES)%nat -> nm_set_aside n ⊆ room -> forall x, x ∈ l -> known (foldl step n l) (name x)).
Proof.
  revert n. induction l as [|x l IH]; intros n Hstep; cbn; [split; [reflexivity|]; by intros _ _ x ?%elem_of_nil|].
  destruct (Hstep x n) as [Hg Hk]; [by left|]. destruct (IH (step n x)) as [Hg' Hk']; [intros y m Hy; apply Hstep; by right|].
  split; [by etrans|]. intros Hs Hsub y [->|Hy]%elem_of_cons; [apply Hg', Hk; done|]. apply Hk'; [done|by apply Hg|done].
Qed.

(** A name either record knew the host by is one the folded record states or sets aside, where
    those a record can set aside have room: redaction has it to mask. *)
Theorem folded_names_are_known self other :
  let room := nm_set_aside self ∪ list_to_set (option_list (nm_hostname other)) ∪ set_map hn_name (nm_names other) ∪ nm_set_aside other in
  (size room <= MAX_SET_ASIDE_NAMES)%nat ->
  forall name, known self name \/ known other name -> known (named_merge self other) name.
Proof.
  intros room Hsize. unfold named_merge. set (start := fold_hostname self (nm_hostname other)).
  assert (grows room self start /\ forall name, nm_hostname other = Some name -> known start name) as [Hst Hho].
  { unfold start, fold_hostname. destruct (nm_hostname self) as [h|] eqn:Eh, (nm_hostname other) as [o|] eqn:Eo.
    - destruct (set_aside_grows room o self) as [Hg Hk]; [unfold room; cbn; set_solver|]. split; [done|]. intros name [= <-]. apply Hk; [done|unfold room; set_solver].
    - split; [reflexivity|done].
    - split; [split; [|done]|].
      + intros x [Hx|Hx]; [left|by right]. apply states_spec in Hx. apply states_spec. right. destruct Hx as [Hx|Hx]; [congruence|done].
      + intros name [= <-]. left. apply states_spec. by left.
    - split; [|done]. split; [|done]. intros x [Hx|Hx]; [left|by right]. apply states_spec in Hx. apply states_spec. right. destruct Hx as [Hx|Hx]; [congruence|done]. }
  assert (nm_set_aside start ⊆ room) as Hsub by (apply Hst; unfold room; set_solver).
  destruct (fold_grows room hn_name
    (fun n name => let '(n, r) := admit_name name n in match r with Err turned_away => set_aside (hn_name turned_away) n | Ok _ => n end)
    (names_in_order (nm_names other)) start) as [Hg1 Hk1].
  { intros x n Hx. pose proof (admit_name_grows room x n) as H. unfold names_in_order in Hx.
    rewrite elem_of_sort_by, elem_of_elements in Hx. destruct H as [H1 H2]; [unfold room; set_solver|]. destruct (admit_name x n) as [n' [b|t]]; done. }
  set (mid := foldl _ start _) in *.
  destruct (fold_grows room id (fun n name => set_aside name n) (in_order (nm_set_aside other)) mid) as [Hg2 Hk2].
  { intros x n Hx. unfold in_order in Hx. rewrite elem_of_sort_by, elem_of_elements in Hx. apply set_aside_grows. unfold room. set_solver. }
  intros name [Hs|[Ho|Ho]].
  - apply Hg2, Hg1, Hst, Hs.
  - apply states_spec in Ho as [Ho|(h & Hh & <-)]; [by apply Hg2, Hg1, Hho|]. apply Hg2, Hk1; [done|done|].
    unfold names_in_order. by rewrite elem_of_sort_by, elem_of_elements.
  - apply (Hk2 Hsize); [by apply Hg1|]. unfold in_order. by rewrite elem_of_sort_by, elem_of_elements.
Qed.
