(* ===== verification/HostPorts.v ===== *)
(** * The ports of a host

    The part of [Host] ([model/host.rs]) that holds its ports: the map keyed on number and
    transport, the count of open ones kept beside it as they are recorded, the roles that
    recording gives a host ([NetworkRole::Tarpit] and [NetworkRole::Truncated]), and which
    ports were touched since a journal last asked. *)

From Stdlib Require Import ZArith Lia.
From stdpp Require Import base numbers option list gmap sorting.
From S2P Require Import Prelude Std Text Ordering PortSet Status Finding Backport Endpoint.

Local Open Scope Z_scope.

#[export] Instance Protocol_countable : Countable Protocol.
Proof.
  refine (inj_countable' (fun p => match p with Tcp => 0 | Udp => 1 | Sctp => 2 end)
    (fun n => match n with 0 => Tcp | 1 => Udp | _ => Sctp end) _). by intros [].
Defined.

(** [(u16::MAX as usize + 1) * Protocol::ALL.len()]. *)
Definition MAX_PORTS_PER_HOST : Z := (umax 16 + 1) * Z.of_nat (length Protocol_ALL).

Definition TARPIT_OPEN_PORTS : nat := 1000.

Record PortTable := mkPortTable {
  tb_ports : gmap (Z * Protocol) Port;
  tb_open : nat;
  tb_touched : option (gset (Z * Protocol));
  tb_roles : gset NetworkRole;
}.

Definition table_new : PortTable := mkPortTable ∅ 0 None ∅.

Definition is_open (p : Port) : bool := bool_decide (pt_state p = PortOpen).

(** [.values().filter(|port| port.state() == PortState::Open).count()]. *)
Definition count_open (ports : gmap (Z * Protocol) Port) : nat := size (filter (fun kv => is_open (snd kv) = true) ports).

Definition touch (key : Z * Protocol) (touched : option (gset (Z * Protocol))) : option (gset (Z * Protocol)) :=
  (fun t => {[ key ]} ∪ t) <$> touched.

(** [Host::add_port], less the time it stamps where it records. *)
Definition add_port (new_port : Port) (t : PortTable) : PortTable * bool :=
  let key := port_key new_port in
  let existing := tb_ports t !! key in
  if bool_decide (existing = None) && (MAX_PORTS_PER_HOST <=? Z.of_nat (size (tb_ports t))) then
    (mkPortTable (tb_ports t) (tb_open t) (tb_touched t) ({[ RoleTruncated ]} ∪ tb_roles t), false)
  else
    let was_open := match existing with Some port => is_open port | None => false end in
    let recorded := match existing with Some port => port_merge port new_port | None => new_port end in
    let ports := <[key := recorded]> (tb_ports t) in
    let touched := touch key (tb_touched t) in
    if negb was_open && is_open recorded then
      let open := S (tb_open t) in
      (mkPortTable ports open touched (if (TARPIT_OPEN_PORTS <=? open)%nat then {[ RoleTarpit ]} ∪ tb_roles t else tb_roles t), true)
    else (mkPortTable ports (tb_open t) touched (tb_roles t), true).

(** [Host::add_port_finding]. *)
Definition add_port_finding (key : Z * Protocol) (finding : Finding Build) (t : PortTable) : PortTable * option bool :=
  match tb_ports t !! key with
  | None => (t, None)
  | Some port =>
    let '(findings, new) := add_finding (pt_findings port) finding in
    (mkPortTable (<[key := set_findings findings port]> (tb_ports t)) (tb_open t) (touch key (tb_touched t)) (tb_roles t), Some new)
  end.

(** [Host::replace_port_correlations]: touched only where something changed. *)
Definition replace_port_correlations (key : Z * Protocol) (detection : text) (fresh : list (Finding Build)) (t : PortTable) : PortTable * option bool :=
  match tb_ports t !! key with
  | None => (t, None)
  | Some port =>
    let '(findings, changed) := replace_correlations (pt_findings port) detection fresh in
    (mkPortTable (<[key := set_findings findings port]> (tb_ports t)) (tb_open t)
       (if changed then touch key (tb_touched t) else tb_touched t) (tb_roles t), Some changed)
  end.

(** [Host::withhold_ports]. *)
Definition withhold_ports (ports : PortSet) (t : PortTable) : PortTable :=
  if portset_is_empty ports then t
  else
    let kept := filter (fun kv => negb (portset_contains ports (fst (fst kv)) (snd (fst kv))) = true) (tb_ports t) in
    mkPortTable kept (count_open kept) (tb_touched t) (tb_roles t).

Definition track_touched_ports (t : PortTable) : PortTable :=
  mkPortTable (tb_ports t) (tb_open t) (Some (default ∅ (tb_touched t))) (tb_roles t).

Definition take_touched_ports (t : PortTable) : PortTable * option (gset (Z * Protocol)) :=
  (mkPortTable (tb_ports t) (tb_open t) ((fun _ => ∅) <$> tb_touched t) (tb_roles t), tb_touched t).

(** [Host::with_only_ports], of its ports and their count. *)
Definition with_only_ports (keys : gset (Z * Protocol)) (t : PortTable) : PortTable :=
  if (size keys =? size (tb_ports t))%nat then mkPortTable (tb_ports t) (tb_open t) None (tb_roles t)
  else
    let ports := filter (fun kv => fst kv ∈ keys) (tb_ports t) in
    mkPortTable ports (count_open ports) None (tb_roles t).

(** The order of the keys of a [BTreeMap<(u16, Protocol), Port>]. *)
Definition protocol_rank (p : Protocol) : Z := match p with Tcp => 0 | Udp => 1 | Sctp => 2 end.

Definition port_key_leb (a b : Z * Protocol) : bool :=
  match then_cmp (fst a ?= fst b) (protocol_rank (snd a) ?= protocol_rank (snd b)) with Gt => false | _ => true end.

Definition ports_in_order (ports : gmap (Z * Protocol) Port) : list Port :=
  (sort_by (fun a b => port_key_leb (fst a) (fst b)) (map_to_list ports)).*2.

(** The ports and roles of another record, folded in as [Host::merge] does: the roles first. *)
Definition table_merge (self other : PortTable) : PortTable :=
  let t := mkPortTable (tb_ports self) (tb_open self) (tb_touched self) (tb_roles self ∪ tb_roles other) in
  foldl (fun t p => fst (add_port p t)) t (ports_in_order (tb_ports other)).

(** ** What a table holds *)

(** Every port is under its own number and transport, the count is that of the open ones, and
    a host with more open than is plausible is marked. *)
Definition table_ok (t : PortTable) : Prop :=
  map_Forall (fun k p => port_key p = k /\ fits 16 (fst k) /\ port_ok p) (tb_ports t) /\
  tb_open t = count_open (tb_ports t) /\
  ((TARPIT_OPEN_PORTS <= tb_open t)%nat -> RoleTarpit ∈ tb_roles t).

Lemma table_new_ok : table_ok table_new.
Proof. split_and!; [done|done|]. cbn. unfold TARPIT_OPEN_PORTS. lia. Qed.

(** The open ports, one more recorded. *)
Lemma count_open_insert ports k p :
  count_open (<[k := p]> ports) =
  match (match ports !! k with Some q => is_open q | None => false end), is_open p with
  | false, true => S (count_open ports)
  | true, false => pred (count_open ports)
  | _, _ => count_open ports
  end.
Proof.
  unfold count_open. destruct (is_open p) eqn:Ep.
  - rewrite map_filter_insert_True by done. destruct (ports !! k) as [q|] eqn:Ek; [destruct (is_open q) eqn:Eq|].
    + rewrite map_size_insert_Some; [done|]. exists q. by apply map_lookup_filter_Some.
    + rewrite map_size_insert_None; [done|]. apply map_lookup_filter_None. right. intros x Hx. rewrite Ek in Hx. injection Hx as <-. cbn. congruence.
    + rewrite map_size_insert_None; [done|]. apply map_lookup_filter_None. by left.
  - rewrite map_filter_insert_False by (cbn; congruence). rewrite map_filter_delete. destruct (ports !! k) as [q|] eqn:Ek; [destruct (is_open q) eqn:Eq|].
    + rewrite map_size_delete_Some; [done|]. exists q. by apply map_lookup_filter_Some.
    + rewrite map_size_delete_None; [done|]. apply map_lookup_filter_None. right. intros x Hx. rewrite Ek in Hx. injection Hx as <-. cbn. congruence.
    + rewrite map_size_delete_None; [done|]. apply map_lookup_filter_None. by left.
Qed.

Lemma is_open_merge p q : is_open (port_merge p q) = is_open p || is_open q.
Proof.
  unfold is_open. cbn. destruct (decide (pt_state p = PortOpen \/ pt_state q = PortOpen)) as [H|H].
  - rewrite bool_decide_eq_true_2 by by apply max_state_open. symmetry. apply orb_true_iff. rewrite !bool_decide_eq_true. done.
  - rewrite bool_decide_eq_false_2 by by rewrite max_state_open. symmetry. apply orb_false_iff. rewrite !bool_decide_eq_false. tauto.
Qed.

(** Distinct numbers below [n] are at most [n]. *)
Lemma bounded_length n (l : list Z) : NoDup l -> Forall (fun x => 0 <= x < n) l -> Z.of_nat (length l) <= Z.max 0 n.
Proof.
  intros Hnd Hb. assert (l ⊆+ seqZ 0 n) as Hs.
  { apply NoDup_submseteq; [done|]. intros x Hx. apply elem_of_seqZ. pose proof (proj1 (Forall_forall _ _) Hb x Hx). cbn in *. lia. }
  apply submseteq_length in Hs. rewrite length_seqZ in Hs. lia.
Qed.

Definition key_number (k : Z * Protocol) : Z := 3 * fst k + protocol_rank (snd k).

Lemma key_number_inj a b : key_number a = key_number b -> a = b.
Proof. destruct a as [n p], b as [m q]. unfold key_number. cbn. destruct p, q; cbn; intros; f_equal; lia. Qed.

(** The key space is exactly the ceiling, so a port not held always has room. *)
Lemma ports_have_room (ports : gmap (Z * Protocol) Port) k :
  map_Forall (fun k (_ : Port) => fits 16 (fst k)) ports -> fits 16 (fst k) -> ports !! k = None -> Z.of_nat (size ports) < MAX_PORTS_PER_HOST.
Proof.
  intros Hports Hk Hnone.
  assert (Z.of_nat (length (key_number <$> (k :: (map_to_list ports).*1))) <= Z.max 0 MAX_PORTS_PER_HOST) as Hle.
  { apply bounded_length.
    - apply NoDup_fmap_2_strong; [intros a b _ _; apply key_number_inj|]. apply NoDup_cons. split; [|apply NoDup_fst_map_to_list].
      intros ([k' p] & E & Hin)%list_elem_of_fmap. cbn in E. subst k'. apply elem_of_map_to_list in Hin. congruence.
    - apply Forall_fmap, Forall_forall. assert (forall x, fits 16 (fst x) -> 0 <= key_number x < MAX_PORTS_PER_HOST) as Hr.
      { intros [n p] [Hn1 Hn2]. change MAX_PORTS_PER_HOST with 196608. change (umax 16) with 65535 in Hn2. cbn in Hn1, Hn2.
        unfold key_number. cbn. destruct p; cbn [protocol_rank]; lia. }
      intros x [->|([k' p] & -> & Hin)%list_elem_of_fmap]%elem_of_cons; [by apply Hr|]. apply Hr. apply elem_of_map_to_list in Hin. by apply (Hports _ _ Hin). }
  rewrite length_fmap in Hle. cbn [length] in Hle. rewrite length_fmap, length_map_to_list in Hle. change MAX_PORTS_PER_HOST with 196608 in *. lia.
Qed.

(** What is recorded under a port's key, of what was there. *)
Definition record_port (existing : option Port) (new : Port) : Port := match existing with Some port => port_merge port new | None => new end.

Lemma add_port_ports p t :
  table_ok t -> port_ok p -> fits 16 (pt_number p) ->
  let t' := fst (add_port p t) in
  snd (add_port p t) = true /\ tb_ports t' = <[port_key p := record_port (tb_ports t !! port_key p) p]> (tb_ports t) /\
  tb_touched t' = touch (port_key p) (tb_touched t) /\ tb_roles t ⊆ tb_roles t' /\ tb_roles t' ⊆ {[ RoleTarpit ]} ∪ tb_roles t /\ table_ok t'.
Proof.
  intros (Hkeys & Hopen & Htar) Hp Hn. unfold add_port.
  assert (bool_decide (tb_ports t !! port_key p = None) && (MAX_PORTS_PER_HOST <=? Z.of_nat (size (tb_ports t))) = false) as ->.
  { case_bool_decide as E; [|done]. cbn [andb]. apply Z.leb_gt. apply (ports_have_room _ (port_key p)); [|done|done].
    intros k q Hk. by apply (Hkeys _ _ Hk). }
  set (existing := tb_ports t !! port_key p). set (recorded := match existing with Some port => port_merge port p | None => p end).
  assert (map_Forall (fun k p => port_key p = k /\ fits 16 (fst k) /\ port_ok p) (<[port_key p := recorded]> (tb_ports t))) as Hkeys'.
  { apply map_Forall_insert_2; [|done]. unfold recorded. destruct existing as [q|] eqn:E; [|done].
    destruct (Hkeys _ _ E) as (Hq1 & Hq2 & Hq3). split_and!; [by rewrite <- Hq1|done|by apply port_merge_ok]. }
  assert (count_open (<[port_key p := recorded]> (tb_ports t)) =
    if negb (match existing with Some port => is_open port | None => false end) && is_open recorded then S (tb_open t) else tb_open t) as Hcount.
  { rewrite count_open_insert, Hopen. fold existing. unfold recorded. destruct existing as [q|]; [rewrite is_open_merge; destruct (is_open q), (is_open p); done|].
    by destruct (is_open p). }
  destruct (negb _ && is_open recorded); cbn [fst snd tb_ports tb_open tb_touched tb_roles]; split_and!; try done.
  - destruct (TARPIT_OPEN_PORTS <=? S (tb_open t))%nat; set_solver.
  - destruct (TARPIT_OPEN_PORTS <=? S (tb_open t))%nat; set_solver.
  - split_and!; [done|done|]. cbn [tb_open tb_roles]. intros Ht. rewrite (proj2 (Nat.leb_le _ _)) by done. set_solver.
  - set_solver.
Qed.

Lemma count_open_same ports k p q : ports !! k = Some p -> is_open q = is_open p -> count_open (<[k := q]> ports) = count_open ports.
Proof. intros Hk E. rewrite count_open_insert, Hk, E. by destruct (is_open p). Qed.

Lemma set_findings_ok t k p findings roles touched :
  table_ok t -> tb_ports t !! k = Some p -> roles = tb_roles t -> keyed findings -> (size findings <= MAX_FINDINGS_PER_SUBJECT)%nat ->
  table_ok (mkPortTable (<[k := set_findings findings p]> (tb_ports t)) (tb_open t) touched roles).
Proof.
  intros (Hkeys & Hopen & Htar) Hk -> Hf Hs. destruct (Hkeys _ _ Hk) as (Hp1 & Hp2 & Hp3). split_and!; cbn; [|by rewrite (count_open_same _ _ p)|done].
  apply map_Forall_insert_2; [|done]. split_and!; [done|done|]. destruct Hp3 as (H1 & H2 & _ & _). by split_and!.
Qed.

Lemma add_port_finding_ok k f t : table_ok t -> table_ok (fst (add_port_finding k f t)).
Proof.
  intros Ht. unfold add_port_finding. destruct (tb_ports t !! k) as [p|] eqn:E; [|done]. pose proof Ht as (Hkeys & _). destruct (Hkeys _ _ E) as (_ & _ & _ & _ & Hf & Hs).
  pose proof (add_finding_keyed _ f Hf) as Hf'. pose proof (add_finding_size _ f Hs) as Hs'. destruct (add_finding (pt_findings p) f) as [m b].
  by apply set_findings_ok.
Qed.

Lemma replace_port_correlations_ok k d fresh t : table_ok t -> table_ok (fst (replace_port_correlations k d fresh t)).
Proof.
  intros Ht. unfold replace_port_correlations. destruct (tb_ports t !! k) as [p|] eqn:E; [|done].
  pose proof Ht as (Hkeys & _). destruct (Hkeys _ _ E) as (_ & _ & _ & _ & Hf & Hs). unfold replace_correlations.
  set (kept := filter _ (pt_findings p)).
  assert (keyed kept /\ (size kept <= MAX_FINDINGS_PER_SUBJECT)%nat) as [Hk1 Hk2].
  { split; [intros c x [Hx _]%map_lookup_filter_Some; by apply Hf|]. etrans; [|exact Hs]. apply map_subseteq_size, map_filter_subseteq. }
  destruct (add_findings_ok kept fresh Hk1 Hk2) as [Ha1 Ha2]. cbn. by apply set_findings_ok.
Qed.

Lemma filter_table_ok (P : (Z * Protocol) * Port -> Prop) `{!forall x, Decision (P x)} t touched :
  table_ok t -> table_ok (mkPortTable (filter P (tb_ports t)) (count_open (filter P (tb_ports t))) touched (tb_roles t)).
Proof.
  intros (Hkeys & Hopen & Htar). split_and!; cbn; [intros k p [Hk _]%map_lookup_filter_Some; by apply Hkeys|done|]. intros Hn. apply Htar. rewrite Hopen.
  etrans; [exact Hn|]. unfold count_open. apply map_subseteq_size. apply map_subseteq_spec. intros k p. rewrite !map_lookup_filter_Some. tauto.
Qed.

Lemma withhold_ports_ok ports t : table_ok t -> table_ok (withhold_ports ports t).
Proof. intros Ht. unfold withhold_ports. destruct (portset_is_empty ports); [done|]. by apply filter_table_ok. Qed.

Lemma with_only_ports_ok keys t : table_ok t -> table_ok (with_only_ports keys t).
Proof. intros Ht. unfold with_only_ports. destruct (_ =? _)%nat; [done|]. by apply filter_table_ok. Qed.

(** ** Folding two tables *)

Lemma ports_in_order_spec ports p :
  map_Forall (fun k p => port_key p = k) ports -> p ∈ ports_in_order ports <-> ports !! port_key p = Some p.
Proof.
  intros Hk. unfold ports_in_order. rewrite list_elem_of_fmap. split.
  - intros ([k q] & -> & Hin). rewrite elem_of_sort_by, elem_of_map_to_list in Hin. cbn. by rewrite (Hk _ _ Hin).
  - intros Hp. exists (port_key p, p). split; [done|]. by rewrite elem_of_sort_by, elem_of_map_to_list.
Qed.

Lemma ports_in_order_nodup ports : map_Forall (fun k p => port_key p = k) ports -> NoDup (port_key <$> ports_in_order ports).
Proof.
  intros Hk. unfold ports_in_order. set (l := sort_by _ _).
  assert (Permutation l (map_to_list ports)) as Hp by apply sort_by_perm.
  assert (port_key <$> l.*2 = l.*1) as ->.
  { rewrite <- list_fmap_compose. apply list_fmap_ext. intros i [k p] Hi. cbn. apply Hk, elem_of_map_to_list. rewrite <- Hp. by eapply list_elem_of_lookup_2. }
  rewrite Hp. apply NoDup_fst_map_to_list.
Qed.

(** What ports recorded in turn leave under each key. *)
Lemma add_ports_lookup l t :
  table_ok t -> Forall (fun p => port_ok p /\ fits 16 (pt_number p)) l -> NoDup (port_key <$> l) ->
  let t' := foldl (fun t p => fst (add_port p t)) t l in
  table_ok t' /\ tb_roles t ⊆ tb_roles t' /\ tb_roles t' ⊆ {[ RoleTarpit ]} ∪ tb_roles t /\
  tb_touched t' = (fun s => s ∪ list_to_set (port_key <$> l)) <$> tb_touched t /\
  (forall p, p ∈ l -> tb_ports t' !! port_key p = Some (record_port (tb_ports t !! port_key p) p)) /\
  (forall k, k ∉ port_key <$> l -> tb_ports t' !! k = tb_ports t !! k).
Proof.
  revert t. induction l as [|p l IH]; intros t Ht Hl Hnd; cbn.
  { split_and!; try done; [set_solver|destruct (tb_touched t) as [s|]; cbn; [f_equal; set_solver|done]|]. by intros p ?%elem_of_nil. }
  apply Forall_cons in Hl as [[Hp Hn] Hl]. apply NoDup_cons in Hnd as [Hout Hnd].
  destruct (add_port_ports p t Ht Hp Hn) as (_ & Hports & Htouch & Hr1 & Hr2 & Hok).
  destruct (IH _ Hok Hl Hnd) as (Hok' & Hr3 & Hr4 & Htouch' & Hin' & Hout'). split_and!; [done|set_solver|set_solver| | |].
  - rewrite Htouch', Htouch. destruct (tb_touched t) as [s|]; cbn; [|done]. f_equal. set_solver.
  - intros q [->|Hq]%elem_of_cons; [rewrite Hout', Hports by done; by rewrite lookup_insert_eq|]. rewrite (Hin' q Hq), Hports.
    rewrite lookup_insert_ne; [done|]. intros E. apply Hout. rewrite E. by apply list_elem_of_fmap_2.
  - intros k [Hne Hk]%not_elem_of_cons. rewrite Hout', Hports by done. by rewrite lookup_insert_ne.
Qed.

Lemma table_merge_spec self other :
  table_ok self -> table_ok other ->
  let t := table_merge self other in
  table_ok t /\ (forall k, tb_ports t !! k = fold_part port_merge (tb_ports self !! k) (tb_ports other !! k)) /\
  tb_roles self ∪ tb_roles other ⊆ tb_roles t /\ tb_roles t ⊆ {[ RoleTarpit ]} ∪ tb_roles self ∪ tb_roles other.
Proof.
  intros (Hs1 & Hs2 & Hs3) (Ho1 & Ho2 & Ho3). unfold table_merge. set (t0 := mkPortTable _ _ _ (_ ∪ _)).
  assert (table_ok t0) as Ht0 by (split_and!; cbn; [done|done|set_solver]).
  assert (map_Forall (fun k p => port_key p = k) (tb_ports other)) as Hk by (intros k p Hp; by apply (Ho1 _ _ Hp)).
  assert (Forall (fun p => port_ok p /\ fits 16 (pt_number p)) (ports_in_order (tb_ports other))) as Hl.
  { apply Forall_forall. intros p Hp%ports_in_order_spec; [|done]. destruct (Ho1 _ _ Hp) as (_ & H1 & H2). done. }
  destruct (add_ports_lookup _ t0 Ht0 Hl (ports_in_order_nodup _ Hk)) as (Hok & Hr1 & Hr2 & _ & Hin & Hout). split_and!; [done| |done|set_solver].
  intros k. destruct (tb_ports other !! k) as [q|] eqn:E; cbn.
  - assert (port_key q = k) as Eq by by apply Hk. subst k. rewrite Hin by by apply ports_in_order_spec. cbn.
    unfold record_port. by destruct (tb_ports self !! port_key q).
  - rewrite Hout; [done|]. intros (q & -> & Hq)%list_elem_of_fmap. apply ports_in_order_spec in Hq; [congruence|done].
Qed.

Lemma table_merge_open self other : table_ok self -> table_ok other -> tb_open (table_merge self other) = tb_open (table_merge other self).
Proof.
  intros Hs Ho. destruct (table_merge_spec self other Hs Ho) as ((_ & -> & _) & H1 & _), (table_merge_spec other self Ho Hs) as ((_ & -> & _) & H2 & _).
  unfold count_open. rewrite <- !size_dom. f_equal. apply set_eq. intros k. rewrite !elem_of_dom. unfold is_Some.
  setoid_rewrite map_lookup_filter_Some. rewrite H1, H2. destruct (tb_ports self !! k) as [p|], (tb_ports other !! k) as [q|]; cbn; try tauto.
  split; intros (x & [= <-] & Hx); cbn in Hx; eexists; (split; [done|]); cbn; rewrite is_open_merge in *; by rewrite orb_comm.
Qed.

(** ** What a journal is told *)

(** What changes a port while a scan runs. *)
Inductive PortEdit := RecordPort (p : Port) | FindOnPort (key : Z * Protocol) (f : Finding Build).

Definition edit_valid (e : PortEdit) : Prop := match e with RecordPort p => port_ok p /\ fits 16 (pt_number p) | FindOnPort _ _ => True end.

Definition apply_edit (t : PortTable) (e : PortEdit) : PortTable :=
  match e with RecordPort p => fst (add_port p t) | FindOnPort key f => fst (add_port_finding key f t) end.

(** The table is the old one but for the ports touched since, which it holds. *)
Definition tracks (old : gmap (Z * Protocol) Port) (t : PortTable) : Prop :=
  exists touched, tb_touched t = Some touched /\ touched ⊆ dom (tb_ports t) /\ forall k, k ∉ touched -> tb_ports t !! k = old !! k.

Lemma apply_edit_tracks old t e : table_ok t -> edit_valid e -> tracks old t -> table_ok (apply_edit t e) /\ tracks old (apply_edit t e).
Proof.
  intros Ht He (touched & Ets & Hsub & Hsame). destruct e as [p|key f]; cbn in *.
  - destruct (add_port_ports p t Ht) as (_ & Hports & Htouch & _ & _ & Hok); [apply He|apply He|]. split; [done|].
    exists ({[ port_key p ]} ∪ touched). rewrite Htouch, Ets, Hports. cbn. split_and!; [done|set_solver|]. intros k Hk.
    rewrite lookup_insert_ne by set_solver. apply Hsame. set_solver.
  - split; [by apply add_port_finding_ok|]. unfold add_port_finding. destruct (tb_ports t !! key) as [p|] eqn:E; [|by exists touched].
    destruct (add_finding _ f) as [m b]. exists ({[ key ]} ∪ touched). cbn. rewrite Ets. cbn. split_and!; [done|set_solver|].
    intros k Hk. rewrite lookup_insert_ne by set_solver. apply Hsame. set_solver.
Qed.

(** The ports of [keys] alone, where the host holds all of them. *)
Lemma with_only_ports_filter keys t : keys ⊆ dom (tb_ports t) -> tb_ports (with_only_ports keys t) = filter (fun kv => fst kv ∈ keys) (tb_ports t).
Proof.
  intros Hsub. unfold with_only_ports. destruct (Nat.eqb_spec (size keys) (size (tb_ports t))) as [E|]; [|done]. cbn.
  assert (keys = dom (tb_ports t)) as -> by (apply set_subseteq_size_eq; [done|by rewrite size_dom, E]). symmetry. apply map_eq. intros k.
  destruct (tb_ports t !! k) as [p|] eqn:Ek.
  - apply map_lookup_filter_Some. split; [done|]. cbn. by apply elem_of_dom.
  - apply map_lookup_filter_None. by left.
Qed.

(** The ports touched since a journal last asked are enough to write: put over the ports it
    had, they are the host's. *)
Theorem touched_ports_suffice t edits :
  table_ok t -> Forall edit_valid edits ->
  let old := fst (take_touched_ports (track_touched_ports t)) in
  let now := foldl apply_edit old edits in
  table_ok now /\
  exists touched, snd (take_touched_ports now) = Some touched /\ touched ⊆ dom (tb_ports now) /\
    tb_ports (with_only_ports touched now) ∪ tb_ports t = tb_ports now /\
    tb_open (with_only_ports touched now) = count_open (tb_ports (with_only_ports touched now)).
Proof.
  intros Ht Hv old now.
  assert (table_ok now /\ tracks (tb_ports t) now) as [Hok (touched & Ets & Hsub & Hsame)].
  { assert (table_ok old /\ tracks (tb_ports t) old) as Hstart by (split; [done|exists ∅; split_and!; [done|set_solver|done]]).
    clearbody old. unfold now. clear now Ht. revert old Hstart. induction Hv as [|e edits He Hv IH]; intros old [Ho1 Ho2]; [done|]. cbn.
    apply IH. by apply apply_edit_tracks. }
  split; [done|]. exists touched. cbn. split_and!; [done|done| |by apply with_only_ports_ok].
  rewrite with_only_ports_filter by done. apply map_eq. intros k. destruct (decide (k ∈ touched)) as [Hk|Hk].
  - pose proof (Hsub _ Hk) as Hd. apply elem_of_dom in Hd as [p Hp]. rewrite Hp. apply lookup_union_Some_l. by apply map_lookup_filter_Some.
  - rewrite lookup_union_r by (apply map_lookup_filter_None; right; by intros x _). by rewrite Hsame.
Qed.

(** A port withheld stays marked as touched, so that as many ports as were touched can be held
    without being those: the copy made for the journal then carries a port nothing touched. *)
Example withheld_port_miscounts :
  let port n := port_new n Tcp PortOpen in
  let old := track_touched_ports (fst (add_port (port 22) table_new)) in
  let t := foldl apply_edit old [RecordPort (port 80); RecordPort (port 443)] in
  let t := withhold_ports (from_ports [(443, Tcp)]) t in
  snd (take_touched_ports t) = Some {[ (80, Tcp); (443, Tcp) ]} /\
  tb_ports (with_only_ports {[ (80, Tcp); (443, Tcp) ]} t) !! (22, Tcp) = Some (port 22).
Proof. by vm_compute. Qed.
