(* ===== verification/Host.v ===== *)
(** * A host's record

    [Host] of [model/host.rs]: what a scan established about one machine.  Its addresses and
    names are those of [Identity], its ports, their count and its roles the table of
    [HostPorts]; the rest are its fields.  Every operation that changes a host is a definition
    here, with the clock an argument; [host_step] is any of them, and [host_ok] what all of
    them keep.  [host_merge] folds another record of the host in, each part by its own rule. *)

From Stdlib Require Import ZArith Lia Sorting.Sorted.
From stdpp Require Import base numbers option list gmap sorting.
From S2P Require Import Prelude Std Text Ordering IpRange PortSet Mac Scoped Finding Backport Status Path Hardware Telemetry Os Endpoint Identity HostPorts.

Local Open Scope Z_scope.

Record Host := mkHost {
  h_addresses : Addresses;
  h_named : Named;
  h_status : HostStatus;
  h_reasons : gset StatusReason;
  h_os : option OsFingerprint;
  h_os_evidence : gmap OsClaim OsEvidence;
  h_hardware : option HardwareInfo;
  h_zone : option Zone;
  h_telemetry : HostTelemetry;
  h_path : NetworkPath;
  h_table : PortTable;
  h_filtering : gset Filtering;
  h_ip_protocols : gmap Z IpProtocolState;
  h_findings : gmap ClaimId (Finding Build);
  h_first_seen : Z;
  h_last_seen : Z;
}.

Definition put_addresses (x : Addresses) (h : Host) : Host :=
  mkHost x (h_named h) (h_status h) (h_reasons h) (h_os h) (h_os_evidence h) (h_hardware h) (h_zone h) (h_telemetry h)
    (h_path h) (h_table h) (h_filtering h) (h_ip_protocols h) (h_findings h) (h_first_seen h) (h_last_seen h).

Definition put_named (x : Named) (h : Host) : Host :=
  mkHost (h_addresses h) x (h_status h) (h_reasons h) (h_os h) (h_os_evidence h) (h_hardware h) (h_zone h) (h_telemetry h)
    (h_path h) (h_table h) (h_filtering h) (h_ip_protocols h) (h_findings h) (h_first_seen h) (h_last_seen h).

Definition put_status (x : HostStatus) (h : Host) : Host :=
  mkHost (h_addresses h) (h_named h) x (h_reasons h) (h_os h) (h_os_evidence h) (h_hardware h) (h_zone h) (h_telemetry h)
    (h_path h) (h_table h) (h_filtering h) (h_ip_protocols h) (h_findings h) (h_first_seen h) (h_last_seen h).

Definition put_reasons (x : gset StatusReason) (h : Host) : Host :=
  mkHost (h_addresses h) (h_named h) (h_status h) x (h_os h) (h_os_evidence h) (h_hardware h) (h_zone h) (h_telemetry h)
    (h_path h) (h_table h) (h_filtering h) (h_ip_protocols h) (h_findings h) (h_first_seen h) (h_last_seen h).

Definition put_os (x : option OsFingerprint) (h : Host) : Host :=
  mkHost (h_addresses h) (h_named h) (h_status h) (h_reasons h) x (h_os_evidence h) (h_hardware h) (h_zone h) (h_telemetry h)
    (h_path h) (h_table h) (h_filtering h) (h_ip_protocols h) (h_findings h) (h_first_seen h) (h_last_seen h).

Definition put_os_evidence (x : gmap OsClaim OsEvidence) (h : Host) : Host :=
  mkHost (h_addresses h) (h_named h) (h_status h) (h_reasons h) (h_os h) x (h_hardware h) (h_zone h) (h_telemetry h)
    (h_path h) (h_table h) (h_filtering h) (h_ip_protocols h) (h_findings h) (h_first_seen h) (h_last_seen h).

Definition put_hardware (x : option HardwareInfo) (h : Host) : Host :=
  mkHost (h_addresses h) (h_named h) (h_status h) (h_reasons h) (h_os h) (h_os_evidence h) x (h_zone h) (h_telemetry h)
    (h_path h) (h_table h) (h_filtering h) (h_ip_protocols h) (h_findings h) (h_first_seen h) (h_last_seen h).

Definition put_zone (x : option Zone) (h : Host) : Host :=
  mkHost (h_addresses h) (h_named h) (h_status h) (h_reasons h) (h_os h) (h_os_evidence h) (h_hardware h) x (h_telemetry h)
    (h_path h) (h_table h) (h_filtering h) (h_ip_protocols h) (h_findings h) (h_first_seen h) (h_last_seen h).

Definition put_telemetry (x : HostTelemetry) (h : Host) : Host :=
  mkHost (h_addresses h) (h_named h) (h_status h) (h_reasons h) (h_os h) (h_os_evidence h) (h_hardware h) (h_zone h) x
    (h_path h) (h_table h) (h_filtering h) (h_ip_protocols h) (h_findings h) (h_first_seen h) (h_last_seen h).

Definition put_path (x : NetworkPath) (h : Host) : Host :=
  mkHost (h_addresses h) (h_named h) (h_status h) (h_reasons h) (h_os h) (h_os_evidence h) (h_hardware h) (h_zone h) (h_telemetry h)
    x (h_table h) (h_filtering h) (h_ip_protocols h) (h_findings h) (h_first_seen h) (h_last_seen h).

Definition put_table (x : PortTable) (h : Host) : Host :=
  mkHost (h_addresses h) (h_named h) (h_status h) (h_reasons h) (h_os h) (h_os_evidence h) (h_hardware h) (h_zone h) (h_telemetry h)
    (h_path h) x (h_filtering h) (h_ip_protocols h) (h_findings h) (h_first_seen h) (h_last_seen h).

Definition put_filtering (x : gset Filtering) (h : Host) : Host :=
  mkHost (h_addresses h) (h_named h) (h_status h) (h_reasons h) (h_os h) (h_os_evidence h) (h_hardware h) (h_zone h) (h_telemetry h)
    (h_path h) (h_table h) x (h_ip_protocols h) (h_findings h) (h_first_seen h) (h_last_seen h).

Definition put_ip_protocols (x : gmap Z IpProtocolState) (h : Host) : Host :=
  mkHost (h_addresses h) (h_named h) (h_status h) (h_reasons h) (h_os h) (h_os_evidence h) (h_hardware h) (h_zone h) (h_telemetry h)
    (h_path h) (h_table h) (h_filtering h) x (h_findings h) (h_first_seen h) (h_last_seen h).

Definition put_findings (x : gmap ClaimId (Finding Build)) (h : Host) : Host :=
  mkHost (h_addresses h) (h_named h) (h_status h) (h_reasons h) (h_os h) (h_os_evidence h) (h_hardware h) (h_zone h) (h_telemetry h)
    (h_path h) (h_table h) (h_filtering h) (h_ip_protocols h) x (h_first_seen h) (h_last_seen h).

Definition put_first_seen (x : Z) (h : Host) : Host :=
  mkHost (h_addresses h) (h_named h) (h_status h) (h_reasons h) (h_os h) (h_os_evidence h) (h_hardware h) (h_zone h) (h_telemetry h)
    (h_path h) (h_table h) (h_filtering h) (h_ip_protocols h) (h_findings h) x (h_last_seen h).

Definition put_last_seen (x : Z) (h : Host) : Host :=
  mkHost (h_addresses h) (h_named h) (h_status h) (h_reasons h) (h_os h) (h_os_evidence h) (h_hardware h) (h_zone h) (h_telemetry h)
    (h_path h) (h_table h) (h_filtering h) (h_ip_protocols h) (h_findings h) (h_first_seen h) x.

(** ** Operations *)

(** [self.last_seen = SystemTime::now()]. *)
Definition seen (now : Z) (h : Host) : Host := put_last_seen now h.

Definition host_new (now : Z) (primary : IpAddr) : Host :=
  mkHost (addresses_new primary) named_new StatusUnknown ∅ None ∅ None None telemetry_default
    [] table_new ∅ ∅ ∅ now now.

(** [Option::get_or_insert]. *)
Definition get_or_insert {A} (held : option A) (x : A) : option A := match held with Some _ => held | None => Some x end.

Definition host_set_zone (now : Z) (zone : Zone) (h : Host) : Host := seen now (put_zone (get_or_insert (h_zone h) zone) h).

Definition scoped_ip (h : Host) : ScopedIp :=
  match h_zone h with
  | Some zone => scoped_scoped (ad_primary (h_addresses h)) zone
  | None => scoped_unscoped (ad_primary (h_addresses h))
  end.

Definition host_record_hop_counter (arrived : Z) (h : Host) : Host := put_telemetry (record_hop_counter arrived (h_telemetry h)) h.

Definition host_record_hop (now : Z) (hop : Hop) (h : Host) : Host := seen now (put_path (path_record (h_path h) hop) h).

Definition restore_seen (first_seen last_seen : Z) (h : Host) : Host :=
  let '(first_seen, last_seen) := if first_seen <=? last_seen then (first_seen, last_seen) else (last_seen, first_seen) in
  put_last_seen last_seen (put_first_seen first_seen h).

Definition host_add_ip (now : Z) (ip : IpAddr) (h : Host) : Host * bool :=
  let '(a, is_new) := admit_ip ip (h_addresses h) in (seen now (put_addresses a h), is_new).

Definition host_consider_primary_ip (now : Z) (candidate : IpAddr) (h : Host) : Host * bool :=
  let '(a, changed) := consider_primary_ip candidate (h_addresses h) in (seen now (put_addresses a h), changed).

Definition host_extend_ips (now : Z) (ips : list IpAddr) (h : Host) : Host := seen now (put_addresses (admit_all ips (h_addresses h)) h).

Definition host_adopt_ips (ips : gset IpAddr) (h : Host) : Host := put_addresses (admit_all (ascending ips) (h_addresses h)) h.

Definition host_retain_ips (keep : IpAddr -> bool) (h : Host) : Host * bool :=
  let '(a, remains) := retain_ips keep (h_addresses h) in (put_addresses a h, remains).

Definition refused (keep : IpAddr -> bool) (r : StatusReason) : bool :=
  match evidence_address (sr_source r) with Some address => negb (keep address) | None => false end.

(** [withhold_intermediaries]: the reasons are rewritten only where one is refused. *)
Definition host_withhold_intermediaries (keep : IpAddr -> bool) (h : Host) : Host * bool :=
  let '(path, routers) := path_withhold keep (h_path h) in
  let senders := existsb (refused keep) (elements (h_reasons h)) in
  let reasons := if senders then set_map (reason_withhold keep) (h_reasons h) else h_reasons h in
  (put_reasons reasons (put_path path h), routers || senders).

Definition host_withhold_ports (ports : PortSet) (h : Host) : Host := put_table (withhold_ports ports (h_table h)) h.

Definition host_set_hostname (now : Z) (hostname : option text) (h : Host) : Host := seen now (put_named (set_hostname hostname (h_named h)) h).

Definition host_record_name (now : Z) (name : HostName) (h : Host) : Host * bool :=
  let '(n, is_new) := record_name name (h_named h) in (seen now (put_named n h), is_new).

Definition host_set_aside_names_of (account h : Host) : Host := put_named (set_aside_names_of (h_named account) (h_named h)) h.

Definition host_set_status (now : Z) (status : HostStatus) (h : Host) : Host := seen now (put_status (promote status_rank (h_status h) status) h).

Definition host_add_reason (now : Z) (reason : StatusReason) (h : Host) : Host := seen now (put_reasons ({[ reason ]} ∪ h_reasons h) h).

Definition record_evidence (now : Z) (status : HostStatus) (reason : StatusReason) (h : Host) : Host :=
  seen now (put_reasons ({[ reason ]} ∪ h_reasons h) (put_status (promote status_rank (h_status h) status) h)).

Definition host_record_os_evidence (e : OsEvidence) (h : Host) : Host * bool :=
  let '(held, changed) := record_os_evidence (h_os_evidence h) e in (put_os_evidence held h, changed).

Definition host_add_finding (f : Finding Build) (h : Host) : Host * bool :=
  let '(findings, new) := add_finding (h_findings h) f in (put_findings findings h, new).

Definition host_add_port_finding (key : Z * Protocol) (f : Finding Build) (h : Host) : Host * option bool :=
  let '(t, new) := add_port_finding key f (h_table h) in (put_table t h, new).

Definition host_replace_port_correlations (key : Z * Protocol) (detection : text) (fresh : list (Finding Build)) (h : Host) : Host * option bool :=
  let '(t, changed) := replace_port_correlations key detection fresh (h_table h) in (put_table t h, changed).

Definition host_set_os (now : Z) (os : option OsFingerprint) (h : Host) : Host := seen now (put_os os h).

Definition host_set_hardware (now : Z) (hardware : HardwareInfo) (h : Host) : Host := seen now (put_hardware (Some hardware) h).

Definition host_record_mac (oui : MacAddr -> option text) (now : Z) (mac : MacAddr) (h : Host) : Host :=
  seen now (put_hardware (Some (match h_hardware h with Some hw => add_mac oui now mac hw | None => hardware_new oui now mac end)) h).

(** [add_rtt], [add_rtt_from], [add_segment_wide_rtt], [add_segment_wide_rtt_from] and
    [add_first_to_neighbour_rtt_from] push a sample stamped [tick] on the monotonic clock;
    [restore_rtt] stamps no time on the host. *)
Definition host_push_rtt (now tick rtt : Z) (source : RttSource) (protocol : option StatusProtocol) (h : Host) : Host :=
  seen now (put_telemetry (push (mkRttSample tick rtt source protocol) (h_telemetry h)) h).

(** [add_rtts], each sample under the tick it was pushed at. *)
Definition host_add_rtts (now : Z) (rtts : list (Z * Z)) (h : Host) : Host :=
  seen now (put_telemetry (foldl (fun t '(tick, rtt) => add_rtt_at tick rtt None t) (h_telemetry h) rtts) h).

Definition host_restore_rtt (tick rtt : Z) (source : RttSource) (protocol : option StatusProtocol) (h : Host) : Host :=
  put_telemetry (restore_rtt tick rtt source protocol (h_telemetry h)) h.

Definition put_roles (roles : gset NetworkRole) (h : Host) : Host :=
  put_table (mkPortTable (tb_ports (h_table h)) (tb_open (h_table h)) (tb_touched (h_table h)) roles) h.

Definition host_add_network_role (now : Z) (role : NetworkRole) (h : Host) : Host * bool :=
  let roles := tb_roles (h_table h) in (seen now (put_roles ({[ role ]} ∪ roles) h), negb (bool_decide (role ∈ roles))).

Definition host_add_filtering (now : Z) (filtering : Filtering) (h : Host) : Host * bool :=
  (seen now (put_filtering ({[ filtering ]} ∪ h_filtering h) h), negb (bool_decide (filtering ∈ h_filtering h))).

(** What is recorded of a protocol number, and whether that changed it. *)
Definition record_ip_state (held : gmap Z IpProtocolState) (number : Z) (state : IpProtocolState) : gmap Z IpProtocolState * bool :=
  match held !! number with
  | Some known => if ip_protocol_rank known <? ip_protocol_rank state then (<[number := state]> held, true) else (held, false)
  | None => (<[number := state]> held, true)
  end.

Definition host_record_ip_protocol (now number : Z) (state : IpProtocolState) (h : Host) : Host * bool :=
  let '(held, recorded) := record_ip_state (h_ip_protocols h) number state in
  let h := put_ip_protocols held h in
  (if ip_protocol_answers state then seen now h else h, recorded).

Definition host_add_port (now : Z) (port : Port) (h : Host) : Host * bool :=
  let '(t, recorded) := add_port port (h_table h) in
  let h := put_table t h in (if recorded then seen now h else h, recorded).

Definition host_track_touched_ports (h : Host) : Host := put_table (track_touched_ports (h_table h)) h.

Definition host_take_touched_ports (h : Host) : Host * option (gset (Z * Protocol)) :=
  let '(t, touched) := take_touched_ports (h_table h) in (put_table t h, touched).

Definition host_with_only_ports (keys : gset (Z * Protocol)) (h : Host) : Host := put_table (with_only_ports keys (h_table h)) h.

(** ** Folding another record in *)

(** The values of the claims in the order of their keys; the order decides which are let in
    past the ceiling. *)
Definition os_claim_cmp (a b : OsClaim) : comparison :=
  let '(s, f, d, v, p, r, k) := a in
  let '(s', f', d', v', p', r', k') := b in
  first_ne [os_source_rank s ?= os_source_rank s'; option_cmp str_cmp f f'; option_cmp str_cmp d d'; option_cmp str_cmp v v';
            option_cmp str_cmp p p'; option_cmp str_cmp r r'; option_cmp str_cmp k k'].

Definition evidence_in_order (held : gmap OsClaim OsEvidence) : list OsEvidence :=
  (sort_by (fun a b => match os_claim_cmp (fst a) (fst b) with Gt => false | _ => true end) (map_to_list held)).*2.

Definition record_all_evidence (held : gmap OsClaim OsEvidence) (l : list OsEvidence) : gmap OsClaim OsEvidence :=
  foldl (fun held e => fst (record_os_evidence held e)) held l.

(** The order of the numbers does not matter: each is recorded under its own. *)
Definition record_all_states (held other : gmap Z IpProtocolState) : gmap Z IpProtocolState :=
  foldl (fun held '(number, state) => fst (record_ip_state held number state)) held (map_to_list other).

(** [Host::merge].  Each part is folded by its own operation; the times the operations stamp
    on the way are put right at the end. *)
Definition host_merge (self other : Host) : Host :=
  mkHost (addresses_merge (h_addresses self) (h_addresses other)) (named_merge (h_named self) (h_named other))
    (promote status_rank (h_status self) (h_status other)) (h_reasons self ∪ h_reasons other)
    (fold_part os_merge (h_os self) (h_os other)) (record_all_evidence (h_os_evidence self) (evidence_in_order (h_os_evidence other)))
    (fold_part hardware_merge (h_hardware self) (h_hardware other))
    (match h_zone other with Some zone => get_or_insert (h_zone self) zone | None => h_zone self end)
    (telemetry_merge (h_telemetry self) (h_telemetry other))
    (path_merge (h_path self) (h_path other)) (table_merge (h_table self) (h_table other)) (h_filtering self ∪ h_filtering other)
    (record_all_states (h_ip_protocols self) (h_ip_protocols other)) (add_findings (h_findings self) (values (h_findings other)))
    (Z.min (h_first_seen self) (h_first_seen other)) (Z.max (h_last_seen self) (h_last_seen other)).

Definition merge_later_account (self later : Host) : Host :=
  let h := host_merge self later in put_telemetry (take_window (h_telemetry later) (h_telemetry h)) h.

(** ** What every record keeps *)

Definition os_ok (o : OsFingerprint) : Prop := (size (os_cpe o) <= MAX_CPES_PER_OS)%nat /\ 0 <= os_accuracy o <= 100.

(** A record within its ceilings: what answers a probe chooses what goes into these, and none
    of them grows past its bound; the address it leads with is one it holds, its samples and
    hops are in order, and its ports are what their count says. *)
Definition record_ok (h : Host) : Prop :=
  addresses_ok (h_addresses h) /\ named_ok (h_named h) /\ from_option os_ok True (h_os h) /\
  (size (h_os_evidence h) <= MAX_OS_EVIDENCE)%nat /\ from_option hardware_ok True (h_hardware h) /\
  telemetry_ok (h_telemetry h) /\ path_ok (h_path h) /\ table_ok (h_table h) /\
  (keyed (h_findings h) /\ (size (h_findings h) <= MAX_FINDINGS_PER_SUBJECT)%nat).

(** Such a record that was not last seen before it was first. *)
Definition host_ok (h : Host) : Prop :=
  addresses_ok (h_addresses h) /\ named_ok (h_named h) /\ from_option os_ok True (h_os h) /\
  (size (h_os_evidence h) <= MAX_OS_EVIDENCE)%nat /\ from_option hardware_ok True (h_hardware h) /\
  telemetry_ok (h_telemetry h) /\ path_ok (h_path h) /\ table_ok (h_table h) /\
  (keyed (h_findings h) /\ (size (h_findings h) <= MAX_FINDINGS_PER_SUBJECT)%nat) /\ h_first_seen h <= h_last_seen h.

Lemma os_merge_ok a b : os_ok a -> os_ok b -> os_ok (os_merge a b).
Proof.
  intros [Ha Ha'] [Hb Hb']. unfold os_merge, os_ok. destruct (_ <? _); [|destruct (_ =? _)]; cbn; (split; [by apply union_capped_size|done]).
Qed.

(** The identity of the surer record stands, whichever is folded into which. *)
Lemma os_merge_accuracy a b : os_accuracy (os_merge a b) = Z.max (os_accuracy a) (os_accuracy b).
Proof. unfold os_merge. destruct (Z.ltb_spec (os_accuracy a) (os_accuracy b)); [|destruct (_ =? _)]; cbn; lia. Qed.

Lemma record_os_evidence_size held e : (size held <= MAX_OS_EVIDENCE)%nat -> (size (fst (record_os_evidence held e)) <= MAX_OS_EVIDENCE)%nat.
Proof.
  intros Hs. unfold record_os_evidence. destruct (held !! os_claim e) as [x|] eqn:E.
  - cbn [fst]. rewrite map_size_insert_Some; [done|by eexists].
  - destruct (Nat.leb_spec MAX_OS_EVIDENCE (size held)); [done|]. cbn [fst]. rewrite map_size_insert_None by done. lia.
Qed.

Lemma record_all_evidence_size l held : (size held <= MAX_OS_EVIDENCE)%nat -> (size (record_all_evidence held l) <= MAX_OS_EVIDENCE)%nat.
Proof. revert held. induction l as [|e l IH]; intros held Hs; [done|]. cbn. by apply IH, record_os_evidence_size. Qed.

Lemma record_name_ok name n : named_ok n -> named_ok (fst (record_name name n)).
Proof. intros Hn. pose proof (admit_name_ok name n Hn) as H. unfold record_name. by destruct (admit_name name n). Qed.

Lemma host_ok_record h : host_ok h <-> record_ok h /\ h_first_seen h <= h_last_seen h.
Proof. unfold host_ok, record_ok. tauto. Qed.

Lemma host_merge_record self other : record_ok self -> record_ok other -> record_ok (host_merge self other).
Proof.
  intros (Ha & Hn & Ho & He & Hh & Ht & Hp & Hb & [Hf1 Hf2]) (Ha' & Hn' & Ho' & He' & Hh' & Ht' & Hp' & Hb' & [Hf1' Hf2']).
  unfold record_ok. cbn [h_addresses h_named h_os h_os_evidence h_hardware h_telemetry h_path h_table h_findings h_first_seen h_last_seen host_merge].
  split_and!.
  - by apply addresses_merge_ok.
  - by apply named_merge_ok.
  - by apply fold_part_ok; [apply os_merge_ok|..].
  - by apply record_all_evidence_size.
  - by apply fold_part_ok; [intros; apply hardware_merge_ok|..].
  - by apply telemetry_merge_ok.
  - by apply path_merge_spec.
  - by apply table_merge_spec.
  - by apply add_findings_ok.
  - by apply add_findings_ok.
Qed.

Lemma host_merge_ok self other : host_ok self -> host_ok other -> host_ok (host_merge self other).
Proof. rewrite !host_ok_record. intros [H1 Hs] [H2 _]. split; [by apply host_merge_record|]. cbn. lia. Qed.

(** ** Steps *)

(** One operation on a host at time [now] on the wall clock, which may have been set back, and
    [tick] on the monotonic clock.  What a caller hands in whole is sound, and a sample is not
    older than those held. *)
Inductive host_step (oui : MacAddr -> option text) (now tick : Z) (h : Host) : Host -> Prop :=
  | StepZone zone : host_step oui now tick h (host_set_zone now zone h)
  | StepHopCounter arrived : host_step oui now tick h (host_record_hop_counter arrived h)
  | StepHop hop : host_step oui now tick h (host_record_hop now hop h)
  | StepRestoreSeen a b : host_step oui now tick h (restore_seen a b h)
  | StepAddIp ip : host_step oui now tick h (fst (host_add_ip now ip h))
  | StepConsider ip : host_step oui now tick h (fst (host_consider_primary_ip now ip h))
  | StepExtendIps ips : host_step oui now tick h (host_extend_ips now ips h)
  | StepAdoptIps ips : host_step oui now tick h (host_adopt_ips ips h)
  | StepRetainIps keep : host_step oui now tick h (fst (host_retain_ips keep h))
  | StepWithholdIntermediaries keep : host_step oui now tick h (fst (host_withhold_intermediaries keep h))
  | StepWithholdPorts ports : host_step oui now tick h (host_withhold_ports ports h)
  | StepHostname name : host_step oui now tick h (host_set_hostname now name h)
  | StepName name : host_step oui now tick h (fst (host_record_name now name h))
  | StepSetAside account : host_step oui now tick h (host_set_aside_names_of account h)
  | StepStatus status : host_step oui now tick h (host_set_status now status h)
  | StepReason reason : host_step oui now tick h (host_add_reason now reason h)
  | StepEvidence status reason : host_step oui now tick h (record_evidence now status reason h)
  | StepOsEvidence e : host_step oui now tick h (fst (host_record_os_evidence e h))
  | StepFinding f : host_step oui now tick h (fst (host_add_finding f h))
  | StepPortFinding key f : host_step oui now tick h (fst (host_add_port_finding key f h))
  | StepCorrelations key d fresh : host_step oui now tick h (fst (host_replace_port_correlations key d fresh h))
  | StepOs os : from_option os_ok True os -> host_step oui now tick h (host_set_os now os h)
  | StepHardware hw : hardware_ok hw -> host_step oui now tick h (host_set_hardware now hw h)
  | StepMac mac : host_step oui now tick h (host_record_mac oui now mac h)
  | StepRtt rtt source protocol : Forall (fun s => rs_at s <= tick) (tl_history (h_telemetry h)) ->
      host_step oui now tick h (host_push_rtt now tick rtt source protocol h)
  | StepRestoreRtt rtt source protocol : Forall (fun s => rs_at s <= tick) (tl_history (h_telemetry h)) ->
      host_step oui now tick h (host_restore_rtt tick rtt source protocol h)
  | StepRole role : host_step oui now tick h (fst (host_add_network_role now role h))
  | StepFiltering f : host_step oui now tick h (fst (host_add_filtering now f h))
  | StepIpProtocol number state : host_step oui now tick h (fst (host_record_ip_protocol now number state h))
  | StepPort p : port_ok p -> fits 16 (pt_number p) -> host_step oui now tick h (fst (host_add_port now p h))
  | StepTrack : host_step oui now tick h (host_track_touched_ports h)
  | StepTake : host_step oui now tick h (fst (host_take_touched_ports h))
  | StepOnlyPorts keys : host_step oui now tick h (host_with_only_ports keys h)
  | StepMerge other : record_ok other -> host_step oui now tick h (host_merge h other)
  | StepLater later : record_ok later -> host_step oui now tick h (merge_later_account h later).

(** A host a scan can hold: new, and then any steps, at any times. *)
Inductive host_reachable (oui : MacAddr -> option text) : Host -> Prop :=
  | ReachNew now primary : host_reachable oui (host_new now primary)
  | ReachStep now tick h h' : host_reachable oui h -> host_step oui now tick h h' -> host_reachable oui h'.

(** One made while the clock stayed past the time it was first seen at. *)
Inductive host_timely (oui : MacAddr -> option text) : Host -> Prop :=
  | TimelyNew now primary : host_timely oui (host_new now primary)
  | TimelyStep now tick h h' : host_timely oui h -> h_first_seen h <= now -> host_step oui now tick h h' -> host_timely oui h'.

(** Samples added together are samples added in turn. *)
Lemma add_rtts_in_turn now rtts h :
  rtts <> [] -> host_add_rtts now rtts h = foldl (fun h '(tick, rtt) => host_push_rtt now tick rtt Direct None h) h rtts.
Proof.
  assert (forall h, foldl (fun h '(tick, rtt) => host_push_rtt now tick rtt Direct None h) (seen now h) rtts = host_add_rtts now rtts h) as Hrun.
  { induction rtts as [|[tick rtt] rtts IH]; intros g; [by destruct g|]. cbn [foldl].
    change (host_push_rtt now tick rtt Direct None (seen now g)) with (seen now (host_push_rtt now tick rtt Direct None g)). by rewrite IH. }
  destruct rtts as [|[tick rtt] rtts]; [done|]. intros _. rewrite <- Hrun. done.
Qed.

Lemma host_new_ok now primary : host_ok (host_new now primary).
Proof.
  apply host_ok_record. split; [|cbn; lia]. split_and!; cbn; try done; try (unfold MAX_OS_EVIDENCE, MAX_FINDINGS_PER_SUBJECT; rewrite ?map_size_empty; lia).
  - split; cbn; [set_solver|]. rewrite size_singleton. unfold MAX_IPS. lia.
  - split; cbn; rewrite size_empty; unfold MAX_NAMES, MAX_SET_ASIDE_NAMES; lia.
  - apply telemetry_new_ok.
  - constructor.
  - apply table_new_ok.
Qed.

(** A step changes one part: the others are as they were. *)
Ltac host_parts := unfold record_ok; cbn - [size table_ok telemetry_ok path_ok addresses_ok named_ok keyed from_option] in *; split_and!; try done.

Lemma roles_grow_ok roles t : table_ok t -> table_ok (mkPortTable (tb_ports t) (tb_open t) (tb_touched t) (roles ∪ tb_roles t)).
Proof. intros (H1 & H2 & H3). split_and!; cbn; [done|done|]. intros H%H3. set_solver. Qed.

Lemma host_step_record oui now tick h h' : record_ok h -> host_step oui now tick h h' -> record_ok h'.
Proof.
  intros Hok Hstep. pose proof Hok as (Ha & Hn & Ho & He & Hh & Ht & Hp & Hb & [Hf1 Hf2]).
  destruct Hstep as [zone|arrived|hop|a b|ip|ip|ips|ips|keep|keep|ports|name|name|account|status|reason|status reason|e|f|key f|key d fresh
    |os Hos|hw Hhw|mac|rtt source protocol Hold|rtt source protocol Hold|role|f|number state|p Hpo Hnum| | |keys|other Hother|later Hlater].
  - host_parts.
  - host_parts.
  - host_parts. by apply path_record_spec.
  - unfold restore_seen. destruct (a <=? b); host_parts.
  - unfold host_add_ip. pose proof (admit_ip_ok ip _ Ha). destruct (admit_ip ip _). host_parts.
  - unfold host_consider_primary_ip. pose proof (consider_primary_ip_ok ip _ Ha). destruct (consider_primary_ip ip _). host_parts.
  - host_parts. by apply admit_all_ok.
  - host_parts. by apply admit_all_ok.
  - unfold host_retain_ips. pose proof (retain_ips_ok keep _ Ha). destruct (retain_ips keep _). host_parts.
  - unfold host_withhold_intermediaries. pose proof (path_withhold_ok keep _ Hp). destruct (path_withhold keep _). host_parts.
  - host_parts. by apply withhold_ports_ok.
  - host_parts.
  - unfold host_record_name. pose proof (record_name_ok name _ Hn). destruct (record_name name _). host_parts.
  - host_parts. by apply set_aside_all_ok.
  - host_parts.
  - host_parts.
  - host_parts.
  - unfold host_record_os_evidence. pose proof (record_os_evidence_size _ e He). destruct (record_os_evidence _ e). host_parts.
  - unfold host_add_finding. pose proof (add_finding_keyed _ f Hf1). pose proof (add_finding_size _ f Hf2). destruct (add_finding _ f). host_parts.
  - unfold host_add_port_finding. pose proof (add_port_finding_ok key f _ Hb). destruct (add_port_finding key f _). host_parts.
  - unfold host_replace_port_correlations. pose proof (replace_port_correlations_ok key d fresh _ Hb). destruct (replace_port_correlations key d fresh _). host_parts.
  - host_parts.
  - host_parts.
  - unfold host_record_mac. clear Hok. destruct (h_hardware h) as [hw|]; host_parts; cbn.
    + by apply record_mac_ok.
    + unfold hardware_ok. cbn. rewrite map_size_singleton. unfold MAX_MACS_PER_HOST. lia.
  - host_parts. by apply push_ok.
  - host_parts. by apply push_ok.
  - host_parts. by apply roles_grow_ok.
  - host_parts.
  - unfold host_record_ip_protocol. destruct (record_ip_state _ number state). destruct (ip_protocol_answers state); host_parts.
  - unfold host_add_port. destruct (add_port_ports p _ Hb Hpo Hnum) as (Hr & _ & _ & _ & _ & Hb'). destruct (add_port p _) as [t r]. cbn in Hr. subst r. host_parts.
  - host_parts.
  - host_parts.
  - host_parts. by apply with_only_ports_ok.
  - by apply host_merge_record.
  - pose proof (host_merge_record h later Hok Hlater) as (? & ? & ? & ? & ? & Htm & ? & ? & [? ?]). destruct Hlater as (_ & _ & _ & _ & _ & Htl & _).
    unfold merge_later_account. host_parts. by apply take_window_ok.
Qed.

(** A step stamps the clock, keeps the span, takes the span of two, or restores one in order. *)
Lemma host_step_span oui now tick h h' : h_first_seen h <= h_last_seen h -> h_first_seen h <= now -> host_step oui now tick h h' ->
  h_first_seen h' <= h_last_seen h'.
Proof.
  intros Hs Hnow [].
  4:{ unfold restore_seen. destruct (Z.leb_spec a b); cbn; lia. }
  all: unfold host_add_ip, host_consider_primary_ip, host_retain_ips, host_withhold_intermediaries, host_record_name,
    host_record_os_evidence, host_add_finding, host_add_port_finding, host_replace_port_correlations, host_record_ip_protocol, host_add_port;
    repeat case_match; cbn in *; lia.
Qed.

Lemma host_step_ok oui now tick h h' : host_ok h -> h_first_seen h <= now -> host_step oui now tick h h' -> host_ok h'.
Proof. rewrite !host_ok_record. intros [H1 H2] Hn Hs. split; [by eapply host_step_record|by eapply host_step_span]. Qed.

(** C17: every host a scan can hold, whatever operations made it, whatever the peers sent and
    however the wall clock was set meanwhile, is within every ceiling of its record, leads
    with an address it holds, counts its open ports right, marks itself a tarpit past a
    thousand of them, and keeps its samples (taken on a clock that is not set) and its hops
    in order. *)
Theorem reachable_hosts_are_sound oui h : host_reachable oui h -> record_ok h.
Proof. induction 1 as [now primary|now tick h h' _ IH Hstep]; [by apply host_ok_record, host_new_ok|by eapply host_step_record]. Qed.

(** Where the clock is never set back past the time a host was first seen at, the host was not
    last seen before it was first. *)
Theorem timely_hosts_have_a_span oui h : host_timely oui h -> host_ok h.
Proof. induction 1 as [now primary|now tick h h' _ IH Hnow Hstep]; [apply host_new_ok|by eapply host_step_ok]. Qed.

(** Where it is, the span is backwards: the time of a sighting is stamped as it is read. *)
Theorem clock_set_back_reverses_span oui : exists h, host_reachable oui h /\ h_last_seen h < h_first_seen h.
Proof.
  exists (fst (host_add_ip 3 (V4 2) (host_new 5 (V4 1)))). split; [|by vm_compute].
  eapply (ReachStep oui 3 0); [constructor|apply StepAddIp].
Qed.

(** ** One record, whichever way it is folded *)

Lemma record_all_states_lookup held other k :
  record_all_states held other !! k =
  match held !! k, other !! k with
  | Some a, Some b => Some (promote ip_protocol_rank a b)
  | Some s, None | None, Some s => Some s
  | None, None => None
  end.
Proof.
  unfold record_all_states. transitivity (match held !! k, list_to_map (M := gmap Z IpProtocolState) (map_to_list other) !! k with
    | Some a, Some b => Some (promote ip_protocol_rank a b) | Some s, None | None, Some s => Some s | None, None => None end); [|by rewrite list_to_map_to_list].
  pose proof (NoDup_fst_map_to_list other) as Hnd. generalize dependent (map_to_list other). intros l. revert held.
  induction l as [|[n s] l IH]; intros held Hnd; cbn; [by destruct (held !! k)|]. apply NoDup_cons in Hnd as [Hout Hnd]. rewrite (IH _ Hnd).
  destruct (decide (k = n)) as [->|Hne].
  - rewrite (not_elem_of_list_to_map_1 l n), lookup_insert_eq by done. unfold record_ip_state, promote.
    destruct (held !! n) as [a|] eqn:E; [destruct (_ <? _)|]; cbn; by rewrite ?lookup_insert_eq, ?E.
  - rewrite lookup_insert_ne by done. unfold record_ip_state. destruct (held !! n); [destruct (_ <? _)|]; cbn; by rewrite ?lookup_insert_ne.
Qed.

Lemma fold_part_comm {A B} (f : A -> B) (merge : A -> A -> A) (x y : option A) :
  (forall a b, f (merge a b) = f (merge b a)) -> f <$> fold_part merge x y = f <$> fold_part merge y x.
Proof. intros H. destruct x, y; cbn; try done. by rewrite H. Qed.

(** C33: folding two records of a host gives the same verdicts whichever is folded into which:
    the same status and reasons, the same state of every port and IP protocol and so the same
    count of open ports, the same hardware addresses, as strong a hop at every distance, as
    sure an operating system, the same span; and, where the addresses of both are no more
    than the 1024 a record holds, the same addresses under an address as good.  Past 1024 the
    addresses that stay depend on the order they came in. *)
Theorem fold_is_order_free a b :
  record_ok a -> record_ok b ->
  let ab := host_merge a b in
  let ba := host_merge b a in
  ((size (ad_ips (h_addresses a) ∪ ad_ips (h_addresses b)) <= MAX_IPS)%nat ->
   ad_ips (h_addresses ab) = ad_ips (h_addresses ba) /\ ip_rank (ad_primary (h_addresses ab)) = ip_rank (ad_primary (h_addresses ba)) /\
   (ip_rank (ad_primary (h_addresses a)) <> ip_rank (ad_primary (h_addresses b)) -> h_addresses ab = h_addresses ba)) /\
  h_status ab = h_status ba /\ h_reasons ab = h_reasons ba /\ h_filtering ab = h_filtering ba /\ h_ip_protocols ab = h_ip_protocols ba /\
  (hw_macs <$> h_hardware ab = hw_macs <$> h_hardware ba) /\ (os_accuracy <$> h_os ab = os_accuracy <$> h_os ba) /\
  (forall d, hop_strength <$> hop_at (h_path ab) d = hop_strength <$> hop_at (h_path ba) d) /\
  (forall k, pt_state <$> tb_ports (h_table ab) !! k = pt_state <$> tb_ports (h_table ba) !! k) /\ tb_open (h_table ab) = tb_open (h_table ba) /\
  h_first_seen ab = h_first_seen ba /\ h_last_seen ab = h_last_seen ba.
Proof.
  intros (Ha & _ & _ & _ & _ & _ & Hpa & Hta & _) (Hb & _ & _ & _ & _ & _ & Hpb & Htb & _).
  cbn [host_merge h_addresses h_status h_reasons h_filtering h_ip_protocols h_hardware h_os h_path h_table h_first_seen h_last_seen]. split_and!.
  - intros Hroom. split_and!.
    { rewrite !addresses_merge_room by (done || by rewrite (union_comm_L)). cbn. by rewrite union_comm_L. }
    { rewrite !addresses_merge_room by (done || by rewrite (union_comm_L)). cbn.
    destruct (Z.ltb_spec (ip_rank (ad_primary (h_addresses b))) (ip_rank (ad_primary (h_addresses a)))),
      (Z.ltb_spec (ip_rank (ad_primary (h_addresses a))) (ip_rank (ad_primary (h_addresses b)))); lia. }
    { intros Hne. rewrite !addresses_merge_room by (done || by rewrite (union_comm_L)). f_equal; [|by rewrite union_comm_L].
    destruct (Z.ltb_spec (ip_rank (ad_primary (h_addresses b))) (ip_rank (ad_primary (h_addresses a)))),
      (Z.ltb_spec (ip_rank (ad_primary (h_addresses a))) (ip_rank (ad_primary (h_addresses b)))); done || lia. }
  - apply promote_comm, status_rank_inj.
  - by rewrite union_comm_L.
  - by rewrite union_comm_L.
  - apply map_eq. intros k. rewrite !record_all_states_lookup. destruct (h_ip_protocols a !! k), (h_ip_protocols b !! k); try done.
    f_equal. apply promote_comm, ip_protocol_rank_inj.
  - apply fold_part_comm. intros x y. rewrite !hardware_merge_macs. by rewrite sightings_union_comm.
  - apply fold_part_comm. intros x y. rewrite !os_merge_accuracy. lia.
  - intros d. by apply path_merge_order_free.
  - intros k. destruct (table_merge_spec _ _ Hta Htb) as (_ & H1 & _), (table_merge_spec _ _ Htb Hta) as (_ & H2 & _). rewrite H1, H2.
    apply fold_part_comm. intros x y. apply port_merge_state.
  - by apply table_merge_open.
  - lia.
  - lia.
Qed.

(** ** Witnesses *)

Definition sample_port (n : Z) (s : PortState) : Port := port_new n Tcp s.

Lemma sample_port_ok n s : port_ok (sample_port n s).
Proof. split_and!; cbn; try done. by rewrite map_size_empty; unfold MAX_FINDINGS_PER_SUBJECT; lia. Qed.

Definition no_oui (m : MacAddr) : option text := None.

Definition sample_host : Host := fst (host_add_port 6 (sample_port 443 PortOpen) (host_new 5 (V4 1))).

Lemma sample_host_step : host_step no_oui 6 0 (host_new 5 (V4 1)) sample_host.
Proof. apply StepPort; [apply sample_port_ok|split; vm_compute; discriminate]. Qed.

Lemma sample_host_ok : host_ok sample_host.
Proof. apply (host_step_ok no_oui 6 0 (host_new 5 (V4 1))); [apply host_new_ok|cbn; lia|apply sample_host_step]. Qed.

Lemma reachable_hosts_are_sound_witness : record_ok sample_host.
Proof.
  apply (reachable_hosts_are_sound no_oui). eapply (ReachStep no_oui 6 0 (host_new 5 (V4 1))); [constructor|apply sample_host_step].
Defined.

Lemma fold_is_order_free_witness :
  let a := sample_host in
  let b := host_new 9 (V6 1) in
  ad_ips (h_addresses (host_merge a b)) = ad_ips (h_addresses (host_merge b a)) /\ h_status (host_merge a b) = h_status (host_merge b a) /\
  pt_state <$> tb_ports (h_table (host_merge a b)) !! (443, Tcp) = pt_state <$> tb_ports (h_table (host_merge b a)) !! (443, Tcp) /\
  tb_open (h_table (host_merge a b)) = tb_open (h_table (host_merge b a)) /\ h_first_seen (host_merge a b) = h_first_seen (host_merge b a).
Proof.
  intros a b. destruct (fold_is_order_free a b) as (Ha & Hs & _ & _ & _ & _ & _ & _ & Hp & Ho & Hf & _).
  - apply host_ok_record, sample_host_ok.
  - apply host_ok_record, host_new_ok.
  - split_and!; [apply Ha; vm_compute; lia|exact Hs|apply Hp|exact Ho|exact Hf].
Defined.
