(* ===== verification/Pairing.v ===== *)
(** * Deciding which record describes which host

    [diff/pairing.rs]: a record yields identity tokens under a policy, and two records with a
    token in common are one host.  Two questions are asked of the tokens.  [groups] folds
    records of any number of sources into one entry per host, by a union-find over the records;
    [components] pairs the records of two scans, by a flood fill that crosses from one side to
    the other.  [connected] is what each is to compute: the closure of sharing a token.

    A [HashSet] is walked in an order of its own, so the walk is a parameter: some permutation
    of the set.  What the functions return does not depend on it. *)

From Stdlib Require Import ZArith Lia Sorting.Sorted.
From Stdlib Require Import Relations.Relation_Operators Relations.Operators_Properties.
From stdpp Require Import base numbers option list gmap sorting relations.
From S2P Require Import Prelude Std Text IpRange Mac Scoped Hardware Identity Host.

(** ** Tokens *)

Inductive HostIdentity := PrimaryAddress | AnyAddress | ByHardware.

#[export] Instance HostIdentity_eq_dec : EqDecision HostIdentity.
Proof. solve_decision. Defined.

Inductive Token := TokenAddress (ip : IpAddr) (zone : option text) | TokenHardware (mac : MacAddr).

#[export] Instance IdentityToken_eq_dec : EqDecision Token.
Proof. solve_decision. Defined.

#[export] Instance IdentityToken_countable : Countable Token.
Proof.
  refine (inj_countable' (fun t => match t with TokenAddress ip zone => inl (ip, zone) | TokenHardware mac => inr (mac : list Z) end)
    (fun t => match t with inl (ip, zone) => TokenAddress ip zone | inr mac => TokenHardware mac end) _). by intros [].
Defined.

(** [Ipv4Addr::is_link_local], [169.254.0.0/16], and [(segments()[0] & 0xffc0) == 0xfe80]. *)
Definition is_link_local (ip : IpAddr) : bool :=
  match ip with
  | V4 v4 => Z.eqb (Z.shiftr v4 16) 0xa9fe
  | V6 v6 => Z.eqb (Z.land (Z.shiftr v6 112) 0xffc0) 0xfe80
  end.

Definition scope_of (ip : IpAddr) (zone : option text) : option text := if is_link_local ip then zone else None.

Definition tokens (h : Host) (identity : HostIdentity) : gset Token :=
  let zone := z_name <$> h_zone h in
  let of_ip ip := TokenAddress ip (scope_of ip zone) in
  let addresses : gset Token :=
    match identity with
    | PrimaryAddress => {[ of_ip (ad_primary (h_addresses h)) ]}
    | AnyAddress | ByHardware => set_map of_ip (ad_ips (h_addresses h))
    end in
  match identity, h_hardware h with
  | ByHardware, Some hardware => addresses ∪ set_map TokenHardware (dom (hw_macs hardware))
  | _, _ => addresses
  end.

(** ** Union-find *)

Record DisjointSet := mkDisjointSet {
  ds_parent : list nat;
  ds_size : list nat;
}.

Definition ds_new (len : nat) : DisjointSet := mkDisjointSet (seq 0 len) (replicate len 1).

(** [while parent[i] != i { parent[i] = parent[parent[i]]; i = parent[i]; }].  An index out of
    bounds would panic: [None]. *)
Fixpoint find_loop (fuel : nat) (parent : list nat) (i : nat) : option (list nat * nat) :=
  match fuel with
  | O => None
  | S fuel =>
    p ← parent !! i;
    if decide (p = i) then Some (parent, i)
    else grand ← parent !! p; find_loop fuel (<[i := grand]> parent) grand
  end.

(** A path visits no record twice, so as many turns as there are records are enough. *)
Definition find (ds : DisjointSet) (i : nat) : option (DisjointSet * nat) :=
  '(parent, root) ← find_loop (length (ds_parent ds)) (ds_parent ds) i; Some (mkDisjointSet parent (ds_size ds), root).

Definition ds_union (ds : DisjointSet) (a b : nat) : option DisjointSet :=
  '(ds, a) ← find ds a;
  '(ds, b) ← find ds b;
  if decide (a = b) then Some ds
  else
    size_a ← ds_size ds !! a;
    size_b ← ds_size ds !! b;
    let '(a, b) := if (size_a <? size_b)%nat then (b, a) else (a, b) in
    Some (mkDisjointSet (<[b := a]> (ds_parent ds)) (<[a := (size_a + size_b)%nat]> (ds_size ds))).

(** ** Groups *)

Section Groups.
(** The order a [HashSet] is walked in.  What the order changes is which of two holders of a
    token is named first, and the groups are the same whichever it is. *)
Variable walk : gset Token -> list Token.

(** One token of record [i]: joined to the first record that held it, or held first here. *)
Definition hold_token (i : nat) (st : DisjointSet * gmap Token nat) (token : Token) : option (DisjointSet * gmap Token nat) :=
  let '(sets, first_holder) := st in
  match first_holder !! token with
  | Some held => sets ← ds_union sets held i; Some (sets, first_holder)
  | None => Some (sets, <[token := i]> first_holder)
  end.

Fixpoint run_each {A S} (f : S -> A -> option S) (s : S) (l : list A) : option S :=
  match l with [] => Some s | x :: l => s ← f s x; run_each f s l end.

(** Every token of every record, in the order the two loops visit them. *)
Definition held_tokens (sets : list (gset Token)) : list (nat * Token) :=
  concat (imap (fun i set => (fun t => (i, t)) <$> walk set) sets).

(** The record's root, the groups by root and the roots in order of appearance. *)
Definition group_record (st : DisjointSet * gmap nat (list nat) * list nat) (i : nat) : option (DisjointSet * gmap nat (list nat) * list nat) :=
  let '(sets, grouped, order) := st in
  '(sets, root) ← find sets i;
  match grouped !! root with
  | Some members => Some (sets, <[root := members ++ [i]]> grouped, order)
  | None => Some (sets, <[root := [i]]> grouped, order ++ [root])
  end.

(** [groups], of the records' token sets. *)
Definition groups_of (sets : list (gset Token)) : option (list (list nat)) :=
  '(ds, _) ← run_each (fun st it => hold_token (fst it) st (snd it)) (ds_new (length sets), ∅) (held_tokens sets);
  '(_, grouped, order) ← run_each group_record (ds, ∅, []) (seq 0 (length sets));
  mapM (fun root => grouped !! root) order.

Definition groups (records : list Host) (identity : HostIdentity) : option (list (list nat)) :=
  groups_of ((fun h => tokens h identity) <$> records).
End Groups.

(** ** What a union-find holds *)

(** [r] is the root above [i], [k] parents up. *)
Inductive reaches (parent : list nat) : nat -> nat -> nat -> Prop :=
  | ReachesRoot r : parent !! r = Some r -> reaches parent r r 0
  | ReachesUp i j r k : parent !! i = Some j -> j <> i -> reaches parent j r k -> reaches parent i r (S k).

Lemma reaches_root parent i r k : reaches parent i r k -> parent !! r = Some r.
Proof. by induction 1. Qed.

Lemma reaches_det parent i r k r' k' : reaches parent i r k -> reaches parent i r' k' -> r = r' /\ k = k'.
Proof.
  intros H. revert r' k'. induction H as [r Hr|i j r k Hi Hne H IH]; intros r' k' H'.
  - inversion H' as [? Hr'|? j' ? ? Hj Hne Hreach]; subst; [done|congruence].
  - inversion H' as [? Hr'|? j' ? k2 Hj Hne' Hreach]; subst; [congruence|]. assert (j' = j) as -> by congruence. destruct (IH _ _ Hreach) as [-> ->]. done.
Qed.

Lemma reaches_here parent i r k : reaches parent i r k -> (i < length parent)%nat.
Proof. destruct 1; by eapply lookup_lt_Some. Qed.

(** Each record on the way up is a different one, so the way is shorter than the list. *)
Lemma reaches_short parent i r k : reaches parent i r k -> (k < length parent)%nat.
Proof.
  intros H. assert (exists l, length l = S k /\ NoDup l /\ forall x, x ∈ l -> exists m, (m <= k)%nat /\ reaches parent x r m) as (l & Hlen & Hnd & Hl).
  { induction H as [r Hr|i j r k Hi Hne H (l & Hlen & Hnd & Hl)].
    - exists [r]. split_and!; [done|apply NoDup_singleton|]. intros x ->%list_elem_of_singleton. exists 0%nat. split; [lia|by constructor].
    - exists (i :: l). split_and!; [by cbn; rewrite Hlen| |].
      + constructor; [|done]. intros Hin. destruct (Hl i Hin) as (m & Hm & Hr). destruct (reaches_det parent i r m r (S k) Hr) as [_ E]; [by econstructor|lia].
      + intros x [->|Hx]%elem_of_cons; [exists (S k); split; [lia|by econstructor]|]. destruct (Hl x Hx) as (m & Hm & Hr). exists m. split; [lia|done]. }
  assert (l ⊆+ seq 0 (length parent)) as Hs.
  { apply NoDup_submseteq; [done|]. intros x Hx. destruct (Hl x Hx) as (m & _ & Hr%reaches_here). apply elem_of_seq. lia. }
  apply submseteq_length in Hs. rewrite length_seq in Hs. lia.
Qed.

(** Pointing a record at its grandparent takes no record from its root, nor further from it. *)
Lemma halve_reaches parent i p g x r k :
  parent !! i = Some p -> p <> i -> parent !! p = Some g -> reaches parent x r k -> exists k', (k' <= k)%nat /\ reaches (<[i := g]> parent) x r k'.
Proof.
  intros Hi Hpi Hp H. induction H as [r Hr|x j r k Hx Hne H (k' & Hk' & H')].
  - exists 0%nat. split; [done|]. constructor. rewrite list_lookup_insert_ne; [done|]. intros ->. congruence.
  - destruct (decide (x = i)) as [->|Hxi]; cycle 1.
    { exists (S k'). split; [lia|]. econstructor; [|exact Hne|exact H']. by rewrite list_lookup_insert_ne. }
    assert (j = p) as -> by congruence. assert (i < length parent)%nat as Hlt by by eapply lookup_lt_Some.
    destruct (decide (g = p)) as [->|Hgp].
    { exists (S k'). split; [lia|]. econstructor; [by rewrite list_lookup_insert_eq|exact Hne|exact H']. }
    inversion H as [? Hrr|? g' ? m Hg Hgne Hgr]; subst; [congruence|]. assert (g' = g) as -> by congruence.
    assert (g <> i) as Hgi.
    { intros ->. destruct (reaches_det parent i r m r (S (S m)) Hgr) as [_ E]; [|lia]. econstructor; [exact Hi|done|by econstructor]. }
    inversion H' as [? Hrr|? g' ? m' Hg' Hgne' Hgr']; subst.
    + rewrite list_lookup_insert_ne in Hrr by done. congruence.
    + rewrite list_lookup_insert_ne in Hg' by done. assert (g' = g) as -> by congruence. exists (S m'). split; [lia|].
      econstructor; [by rewrite list_lookup_insert_eq|done|done].
Qed.

Lemma find_loop_spec fuel parent i r k :
  reaches parent i r k -> (k < fuel)%nat ->
  exists parent', find_loop fuel parent i = Some (parent', r) /\ length parent' = length parent /\
    forall x s m, reaches parent x s m -> exists m', reaches parent' x s m'.
Proof.
  revert parent i k. induction fuel as [|fuel IH]; intros parent i k H Hk; [lia|]. cbn. inversion H as [? Hr|? p ? m Hp Hne Hup]; subst.
  { rewrite Hr. cbn. rewrite decide_True by done. exists parent. split_and!; [done|done|]. eauto. }
  rewrite Hp. cbn. rewrite decide_False by done. assert (exists g, parent !! p = Some g) as [g Hg] by (destruct Hup; eauto). rewrite Hg. cbn.
  destruct (halve_reaches parent i p g i r (S m) Hp Hne Hg H) as (k' & Hk' & Hi').
  assert (exists m', (m' < fuel)%nat /\ reaches (<[i := g]> parent) g r m') as (m' & Hm' & Hgr).
  { inversion Hi' as [? Hr|? g' ? m' Hg' Hgne Hgr]; subst.
    - exfalso. apply reaches_root in H. congruence.
    - rewrite list_lookup_insert_eq in Hg' by by eapply lookup_lt_Some. injection Hg' as <-. exists m'. split; [lia|done]. }
  destruct (IH _ _ _ Hgr Hm') as (parent' & Hf & Hlen & Hall). exists parent'. split_and!; [done|by rewrite Hlen, length_insert|].
  intros x s q Hx. destruct (halve_reaches parent i p g x s q Hp Hne Hg Hx) as (q' & _ & Hx'). by eapply Hall.
Qed.

Definition root (ds : DisjointSet) (i r : nat) : Prop := exists k, reaches (ds_parent ds) i r k.

(** [n] records, each under a root. *)
Definition ds_ok (n : nat) (ds : DisjointSet) : Prop :=
  length (ds_parent ds) = n /\ length (ds_size ds) = n /\ forall i, (i < n)%nat -> exists r, root ds i r.

Definition same (ds : DisjointSet) (i j : nat) : Prop := exists r, root ds i r /\ root ds j r.

Lemma root_det ds i r r' : root ds i r -> root ds i r' -> r = r'.
Proof. intros [k H] [k' H']. by destruct (reaches_det _ _ _ _ _ _ H H'). Qed.

Lemma root_lt n ds i r : ds_ok n ds -> root ds i r -> (i < n)%nat /\ (r < n)%nat.
Proof. intros (Hn & _) [k H]. split; [apply reaches_here in H|apply reaches_root, lookup_lt_Some in H]; lia. Qed.

Lemma ds_find_spec n ds i :
  ds_ok n ds -> (i < n)%nat ->
  exists ds' r, find ds i = Some (ds', r) /\ ds_ok n ds' /\ root ds i r /\ forall x s, root ds x s <-> root ds' x s.
Proof.
  intros Hds Hi. pose proof Hds as (Hn & Hs & Hroots). destruct (Hroots i Hi) as [r [k Hr]]. pose proof (reaches_short _ _ _ _ Hr) as Hk.
  destruct (find_loop_spec _ _ _ _ _ Hr Hk) as (parent' & Hf & Hlen & Hall).
  assert (forall x s, root ds x s -> root (mkDisjointSet parent' (ds_size ds)) x s) as Hto by (intros x s [m Hm]; by apply (Hall x s m)).
  exists (mkDisjointSet parent' (ds_size ds)), r. unfold find. rewrite Hf. cbn. split_and!; [done| |by exists k|].
  - split_and!; cbn; [by rewrite Hlen|done|]. intros j Hj. destruct (Hroots j Hj) as [s Hj']. exists s. by apply Hto.
  - intros x s. split; [apply Hto|]. intros Hx. assert (x < n)%nat as Hxn by (destruct Hx as [m Hx%reaches_here]; cbn in Hx; lia).
    destruct (Hroots x Hxn) as [s' Hs']. by rewrite (root_det _ _ _ _ Hx (Hto _ _ Hs')).
Qed.

Lemma link_reaches parent a b x r k :
  parent !! a = Some a -> parent !! b = Some b -> a <> b -> reaches parent x r k ->
  reaches (<[b := a]> parent) x (if decide (r = b) then a else r) (if decide (r = b) then S k else k).
Proof.
  intros Ha Hb Hab. assert (b < length parent)%nat as Hlt by by eapply lookup_lt_Some.
  assert (reaches (<[b := a]> parent) a a 0) as Hra by (constructor; by rewrite list_lookup_insert_ne).
  induction 1 as [r Hr|x j r k Hx Hne H IH].
  - destruct (decide (r = b)) as [->|Hrb]; [econstructor; [by rewrite list_lookup_insert_eq|done|done]|]. constructor. by rewrite list_lookup_insert_ne.
  - assert (x <> b) as Hxb by congruence. destruct (decide (r = b)); (econstructor; [by rewrite list_lookup_insert_ne|done|done]).
Qed.

Lemma same_trans ds x y z : same ds x y -> same ds y z -> same ds x z.
Proof. intros (r & Hx & Hy) (r' & Hy' & Hz). rewrite (root_det _ _ _ _ Hy Hy') in *. by exists r'. Qed.

Lemma same_sym ds x y : same ds x y -> same ds y x.
Proof. intros (r & ? & ?). by exists r. Qed.

(** One root put under another: the records of the two are one, and no others. *)
Lemma link_spec n ds u v sizes :
  ds_ok n ds -> ds_parent ds !! u = Some u -> ds_parent ds !! v = Some v -> u <> v -> length sizes = n ->
  let ds' := mkDisjointSet (<[v := u]> (ds_parent ds)) sizes in
  ds_ok n ds' /\ forall x y, same ds' x y <-> same ds x y \/ (root ds x u /\ root ds y v) \/ (root ds x v /\ root ds y u).
Proof.
  intros Hds Hu Hv Huv Hsizes ds'. pose proof Hds as (Hn & Hs & Hroots).
  assert (forall x r, root ds x r -> root ds' x (if decide (r = v) then u else r)) as Hto.
  { intros x r [k Hk]. eexists. by apply (link_reaches _ u v x r k). }
  assert (forall x r, root ds x r -> r <> v -> root ds' x r) as Hother by (intros x r Hx%Hto Hr; by rewrite decide_False in Hx).
  assert (forall x, root ds x v -> root ds' x u) as Hmoved by (intros x Hx%Hto; by rewrite decide_True in Hx).
  assert (ds_ok n ds') as Hok.
  { split_and!; cbn; [by rewrite length_insert|done|]. intros i Hi. destruct (Hroots i Hi) as [r Hr]. eexists. by apply Hto. }
  split; [done|]. intros x y. split.
  - intros (s & Hx & Hy). destruct (root_lt _ _ _ _ Hok Hx) as [Hxn _], (root_lt _ _ _ _ Hok Hy) as [Hyn _].
    destruct (Hroots x Hxn) as [rx Hrx], (Hroots y Hyn) as [ry Hry].
    pose proof (root_det _ _ _ _ Hx (Hto _ _ Hrx)) as Ex. pose proof (root_det _ _ _ _ Hy (Hto _ _ Hry)) as Ey.
    destruct (decide (rx = v)) as [->|], (decide (ry = v)) as [->|]; subst; [left; by exists v|right; right; by subst|right; left; by subst|left; by exists ry].
  - intros [(r & Hx & Hy)|[[Hx Hy]|[Hx Hy]]].
    + destruct (decide (r = v)) as [->|Hr]; [exists u; split; by apply Hmoved|exists r; split; by apply Hother].
    + exists u. split; [by apply Hother|by apply Hmoved].
    + exists u. split; [by apply Hmoved|by apply Hother].
Qed.

Lemma ds_union_spec n ds a b :
  ds_ok n ds -> (a < n)%nat -> (b < n)%nat ->
  exists ds', ds_union ds a b = Some ds' /\ ds_ok n ds' /\
    forall x y, same ds' x y <-> same ds x y \/ (same ds x a /\ same ds b y) \/ (same ds x b /\ same ds a y).
Proof.
  intros Hds Ha Hb. destruct (ds_find_spec n ds a Hds Ha) as (ds1 & ra & Hf1 & Hds1 & Hra & H1).
  destruct (ds_find_spec n ds1 b Hds1 Hb) as (ds2 & rb & Hf2 & Hds2 & Hrb & H2).
  assert (forall x y, same ds2 x y <-> same ds x y) as Hsame by (intros x y; unfold same; setoid_rewrite H1; by setoid_rewrite H2).
  assert (root ds2 a ra) as Hra2 by by apply H2, H1. assert (root ds2 b rb) as Hrb2 by by apply H2.
  assert (forall x, root ds2 x ra <-> same ds2 x a) as Hxa.
  { intros x. split; [intros; by exists ra|]. intros (r & Hx & Hr). by rewrite (root_det _ _ _ _ Hr Hra2) in Hx. }
  assert (forall x, root ds2 x rb <-> same ds2 x b) as Hxb.
  { intros x. split; [intros; by exists rb|]. intros (r & Hx & Hr). by rewrite (root_det _ _ _ _ Hr Hrb2) in Hx. }
  unfold ds_union. rewrite Hf1. cbn - [Nat.ltb]. rewrite Hf2. cbn - [Nat.ltb]. setoid_rewrite <- Hsame. destruct (decide (ra = rb)) as [E|Hne].
  { exists ds2. split_and!; [done|done|]. intros x y. assert (same ds2 a b) as Hab by (exists rb; by rewrite <- E at 1).
    split; [by left|]. intros [?|[[? ?]|[? ?]]]; eauto using same_trans, same_sym. }
  destruct (root_lt _ _ _ _ Hds2 Hra2) as [_ Hran], (root_lt _ _ _ _ Hds2 Hrb2) as [_ Hrbn]. pose proof Hds2 as (Hn & Hs & Hroots).
  destruct (lookup_lt_is_Some_2 (ds_size ds2) ra) as [sa Hsa]; [lia|]. destruct (lookup_lt_is_Some_2 (ds_size ds2) rb) as [sb Hsb]; [lia|].
  rewrite Hsa, Hsb. cbn - [Nat.ltb].
  assert (ds_parent ds2 !! ra = Some ra) as Hpa by (destruct Hra2 as [? ?%reaches_root]; done).
  assert (ds_parent ds2 !! rb = Some rb) as Hpb by (destruct Hrb2 as [? ?%reaches_root]; done).
  destruct (sa <? sb)%nat; cbn; eexists; (split; [reflexivity|]).
  - destruct (link_spec n ds2 rb ra (<[rb := (sa + sb)%nat]> (ds_size ds2)) Hds2 Hpb Hpa) as [Hok Hl]; [done|by rewrite length_insert|]. split; [done|].
    intros x y. rewrite Hl, !Hxa, !Hxb. split; intros [?|[[? ?]|[? ?]]]; auto using same_sym.
  - destruct (link_spec n ds2 ra rb (<[ra := (sa + sb)%nat]> (ds_size ds2)) Hds2 Hpa Hpb) as [Hok Hl]; [done|by rewrite length_insert|]. split; [done|].
    intros x y. rewrite Hl, !Hxa, !Hxb. split; intros [?|[[? ?]|[? ?]]]; auto using same_sym.
Qed.

(** ** Records that share a token *)

(** Two records carry a token in common. *)
Definition shares (sets : list (gset Token)) (i j : nat) : Prop :=
  exists s s' t, sets !! i = Some s /\ sets !! j = Some s' /\ t ∈ s /\ t ∈ s'.

(** One host: a chain of records, each with a token in common with the next. *)
Definition connected (sets : list (gset Token)) : nat -> nat -> Prop := rtc (shares sets).

Lemma shares_sym sets i j : shares sets i j -> shares sets j i.
Proof. intros (s & s' & t & ? & ? & ? & ?). by exists s', s, t. Qed.

Lemma connected_sym sets i j : connected sets i j -> connected sets j i.
Proof. induction 1 as [|i k j Hik _ IH]; [done|]. eapply rtc_r; [exact IH|by apply shares_sym]. Qed.

(** ** Classes of a map, in order of their first members *)

Section Classes.
Variable rt : nat -> nat.

(** Of the first [m], the ones above which [r] stands. *)
Definition members (r m : nat) : list nat := filter (fun j => rt j = r) (seq 0 m).

(** Of the first [m], the ones no earlier one stands with. *)
Definition leaders (m : nat) : list nat := filter (fun i => members (rt i) i = []) (seq 0 m).

Definition classes (n : nat) : list (list nat) := (fun i => members (rt i) n) <$> leaders n.

Lemma elem_of_members r m j : j ∈ members r m <-> rt j = r /\ (j < m)%nat.
Proof. unfold members. rewrite list_elem_of_filter, elem_of_seq. intuition lia. Qed.

Lemma members_S r m : members r (S m) = members r m ++ (if decide (rt m = r) then [m] else []).
Proof. unfold members. rewrite seq_S, filter_app, filter_cons. done. Qed.

Lemma leaders_S m : leaders (S m) = leaders m ++ (if decide (members (rt m) m = []) then [m] else []).
Proof. unfold leaders. rewrite seq_S, filter_app, filter_cons. done. Qed.

Lemma elem_of_leaders m i : i ∈ leaders m <-> (i < m)%nat /\ forall j, (j < i)%nat -> rt j <> rt i.
Proof.
  unfold leaders. rewrite list_elem_of_filter, elem_of_seq. split.
  - intros [Hnil Hi]. split; [lia|]. intros j Hj E. assert (j ∈ members (rt i) i) as Hin by by apply elem_of_members. rewrite Hnil in Hin. by apply elem_of_nil in Hin.
  - intros [Hi Hj]. split; [|lia]. apply elem_of_nil_inv. intros j [E Hlt]%elem_of_members. by apply (Hj j).
Qed.

Lemma filter_seq_sorted (P : nat -> Prop) `{!forall x, Decision (P x)} a m : StronglySorted lt (filter P (seq a m)).
Proof.
  revert a. induction m as [|m IH]; intros a; [constructor|]. cbn [seq]. rewrite filter_cons. destruct (decide (P a)); [|apply IH].
  constructor; [apply IH|]. apply Forall_forall. intros x [_ Hx]%list_elem_of_filter. apply elem_of_seq in Hx. lia.
Qed.

(** The first of a class leads it. *)
Lemma members_first i n : i ∈ leaders n -> exists l, members (rt i) n = i :: l.
Proof.
  intros [Hi Hfirst]%elem_of_leaders. assert (i ∈ members (rt i) n) as Hin by by apply elem_of_members.
  pose proof (filter_seq_sorted (fun j => rt j = rt i) 0 n) as Hs. fold (members (rt i) n) in Hs. destruct (members (rt i) n) as [|j l] eqn:E; [by apply elem_of_nil in Hin|].
  assert (j ∈ members (rt i) n) as [Hj _]%elem_of_members by (rewrite E; by left). apply StronglySorted_inv in Hs as [_ Hl].
  apply elem_of_cons in Hin as [->|Hin]; [by exists l|]. rewrite Forall_forall in Hl. by destruct (Hfirst j (Hl i Hin)).
Qed.

(** Every record has a leader, the first of its class. *)
Lemma leader_of n j : (j < n)%nat -> exists i, i ∈ leaders n /\ rt i = rt j.
Proof.
  induction (lt_wf j) as [j _ IH]. intros Hj. destruct (decide (members (rt j) j = [])) as [E|Hne].
  - exists j. split; [|done]. apply list_elem_of_filter. rewrite elem_of_seq. split; [done|lia].
  - destruct (members (rt j) j) as [|k l] eqn:E; [done|]. assert (k ∈ members (rt j) j) as [Ek Hk]%elem_of_members by (rewrite E; by left).
    destruct (IH k Hk) as (i & Hi & Ei); [lia|]. exists i. split; [done|congruence].
Qed.

Lemma leaders_apart n i i' : i ∈ leaders n -> i' ∈ leaders n -> rt i = rt i' -> i = i'.
Proof.
  intros [_ Hi]%elem_of_leaders [_ Hi']%elem_of_leaders E. destruct (lt_eq_lt_dec i i') as [[Hlt|]|Hlt]; [by destruct (Hi' i Hlt)|done|by destruct (Hi i' Hlt)].
Qed.

Lemma classes_together n i j : (i < n)%nat -> (j < n)%nat -> (exists g, g ∈ classes n /\ i ∈ g /\ j ∈ g) <-> rt i = rt j.
Proof.
  intros Hi Hj. unfold classes. split.
  - intros (g & (k & -> & Hk)%list_elem_of_fmap & [E _]%elem_of_members & [E' _]%elem_of_members). congruence.
  - intros E. destruct (leader_of n i Hi) as (k & Hk & Ek). exists (members (rt k) n). split; [apply list_elem_of_fmap; eauto|].
    rewrite !elem_of_members. split; split; congruence.
Qed.

Lemma classes_cover n : Permutation (concat (classes n)) (seq 0 n).
Proof.
  apply NoDup_Permutation; [|apply NoDup_seq|].
  - assert (NoDup (leaders n)) as Hnd by apply NoDup_filter, NoDup_seq.
    assert (forall i i', i ∈ leaders n -> i' ∈ leaders n -> rt i = rt i' -> i = i') as Hapart by apply leaders_apart.
    unfold classes. induction Hnd as [|i l Hi Hnd IH]; cbn; [constructor|]. apply NoDup_app. split_and!.
    + apply NoDup_filter, NoDup_seq.
    + intros j [Ej _]%elem_of_members (g & (k & -> & Hk)%list_elem_of_fmap & [Ek _]%elem_of_members)%elem_of_concat.
      assert (i = k) as ->; [|done]. apply Hapart; [by left|by right|congruence].
    + apply IH. intros a b Ha Hb. apply Hapart; by right.
  - intros j. rewrite elem_of_concat, elem_of_seq. split.
    + intros (g & (k & -> & Hk)%list_elem_of_fmap & [_ Hj]%elem_of_members). lia.
    + intros [_ Hj]. destruct (classes_together n j j Hj Hj) as [_ (g & ? & ? & _)]; eauto.
Qed.

Lemma classes_heads n : head <$> classes n = Some <$> leaders n.
Proof.
  unfold classes. rewrite <- list_fmap_compose. apply list_fmap_ext. intros k i Hi. cbn. destruct (members_first i n) as [l ->]; [by eapply list_elem_of_lookup_2|done].
Qed.
End Classes.

(** Maps that tell the same records apart have the same classes. *)
Lemma classes_ext rt rt' n :
  (forall i j, (i < n)%nat -> (j < n)%nat -> rt i = rt j <-> rt' i = rt' j) -> classes rt n = classes rt' n.
Proof.
  intros Hsame. assert (forall i m, (i < n)%nat -> (m <= n)%nat -> members rt (rt i) m = members rt' (rt' i) m) as Hm.
  { intros i m Hi Hm. apply filter_same. intros j Hj%elem_of_seq. apply Hsame; lia. }
  assert (leaders rt n = leaders rt' n) as El.
  { apply filter_same. intros i Hi%elem_of_seq. rewrite Hm by lia. done. }
  unfold classes. rewrite El. apply list_fmap_ext. intros k i Hi%list_elem_of_lookup_2. apply elem_of_leaders in Hi as [Hi _]. by apply Hm.
Qed.

Section GroupsSpec.
Variable walk : gset Token -> list Token.
Hypothesis walk_all : forall s, Permutation (walk s) (elements s).

Lemma elem_of_held sets i t : (i, t) ∈ held_tokens walk sets <-> exists s, sets !! i = Some s /\ t ∈ s.
Proof.
  unfold held_tokens. rewrite elem_of_concat. setoid_rewrite elem_of_lookup_imap. split.
  - intros (l & (k & s & -> & Hs) & (t' & [= -> ->] & Ht)%list_elem_of_fmap). exists s. split; [done|]. rewrite walk_all in Ht. by apply elem_of_elements.
  - intros (s & Hs & Ht). eexists. split; [by exists i, s|]. apply list_elem_of_fmap. exists t. split; [done|]. rewrite walk_all. by apply elem_of_elements.
Qed.

(** What the loop over the tokens knows, having seen [seen]. *)
Definition joined (sets : list (gset Token)) (seen : list (nat * Token)) (st : DisjointSet * gmap Token nat) : Prop :=
  let '(ds, first_holder) := st in
  ds_ok (length sets) ds /\
  (forall t h, first_holder !! t = Some h -> (h, t) ∈ seen) /\
  (forall i t, (i, t) ∈ seen -> exists h, first_holder !! t = Some h /\ same ds h i) /\
  (forall x y, same ds x y -> connected sets x y).

Lemma ds_new_ok n : ds_ok n (ds_new n) /\ forall x y, same (ds_new n) x y -> x = y.
Proof.
  assert (forall i, (i < n)%nat -> ds_parent (ds_new n) !! i = Some i) as Hself by (intros i Hi; cbn; by apply lookup_seq).
  assert (forall i r, root (ds_new n) i r -> r = i) as Hroot.
  { intros i r [k H]. destruct H as [r _|i j r k Hi Hne _]; [done|]. cbn in Hi. apply lookup_seq in Hi as [-> _]. done. }
  split.
  - split_and!; cbn; [apply length_seq|apply length_replicate|]. intros i Hi. exists i, 0%nat. constructor. by apply Hself.
  - intros x y (r & Hx%Hroot & Hy%Hroot). congruence.
Qed.

Lemma hold_token_joined sets seen st i t :
  (i, t) ∈ held_tokens walk sets -> Forall (fun it => it ∈ held_tokens walk sets) seen -> joined sets seen st ->
  exists st', hold_token i st t = Some st' /\ joined sets (seen ++ [(i, t)]) st'.
Proof.
  destruct st as [ds fh]. intros Hin Hseen (Hds & Hfh & Hheld & Hsound).
  assert (forall i t, (i, t) ∈ held_tokens walk sets -> (i < length sets)%nat) as Hlt.
  { intros i' t' (s & Hs & _)%elem_of_held. by eapply lookup_lt_Some. }
  assert (i < length sets)%nat as Hi by by eapply Hlt. unfold hold_token. destruct (fh !! t) as [h|] eqn:Eh.
  - pose proof (proj1 (Forall_forall _ _) Hseen _ (Hfh _ _ Eh)) as Hh. cbn in Hh.
    destruct (ds_union_spec (length sets) ds h i Hds (Hlt _ _ Hh) Hi) as (ds' & -> & Hds' & Hsame). cbn. eexists. split; [done|].
    assert (same ds' h i) as Hhi.
    { apply Hsame. right. left. destruct Hds as (_ & _ & Hroots). destruct (Hroots _ (Hlt _ _ Hh)) as [r Hr], (Hroots _ Hi) as [r' Hr'].
      split; [by exists r|by exists r']. }
    assert (connected sets h i) as Hc.
    { apply rtc_once. apply elem_of_held in Hh as (s & ? & ?). apply elem_of_held in Hin as (s' & ? & ?). by exists s, s', t. }
    split_and!; [done| | |].
    + intros t' h' Ht'. apply elem_of_app. left. by apply Hfh.
    + intros i' t' [Ht'|[= -> ->]%list_elem_of_singleton]%elem_of_app; [|by exists h].
      destruct (Hheld _ _ Ht') as (h' & E & Hs). exists h'. split; [done|]. apply Hsame. by left.
    + intros x y [Hxy|[[Hx%Hsound Hy%Hsound]|[Hx%Hsound Hy%Hsound]]]%Hsame; [by apply Hsound| |].
      * transitivity h; [exact Hx|]. by transitivity i.
      * transitivity i; [exact Hx|]. transitivity h; [by apply connected_sym|exact Hy].
  - eexists. split; [done|]. split_and!; [done| | |done].
    + intros t' h' [[<- <-]|[Hne Ht']]%lookup_insert_Some; apply elem_of_app; [right; by left|left; by apply Hfh].
    + destruct Hds as (_ & _ & Hroots). destruct (Hroots i Hi) as [r Hr].
      intros i' t' [Ht'|[= -> ->]%list_elem_of_singleton]%elem_of_app; [|exists i; rewrite lookup_insert_eq; split; [done|by exists r]].
      destruct (Hheld _ _ Ht') as (h' & E & Hs). exists h'. rewrite lookup_insert_ne; [done|]. intros ->. congruence.
Qed.

Lemma hold_all_joined sets l seen st :
  Forall (fun it => it ∈ held_tokens walk sets) (seen ++ l) -> joined sets seen st ->
  exists st', run_each (fun st it => hold_token (fst it) st (snd it)) st l = Some st' /\ joined sets (seen ++ l) st'.
Proof.
  revert seen st. induction l as [|[i t] l IH]; intros seen st Hall Hst; cbn; [exists st; by rewrite app_nil_r|].
  pose proof Hall as [Hs [Hit _]%Forall_cons]%Forall_app. destruct (hold_token_joined sets seen st i t Hit Hs Hst) as (st' & -> & Hst'). cbn.
  destruct (IH (seen ++ [(i, t)]) st') as (st2 & -> & H2); [by rewrite <- app_assoc|done|]. exists st2. by rewrite <- app_assoc in H2.
Qed.

(** After every token, the sets of the union-find are the hosts. *)
Lemma hold_tokens_spec sets :
  exists ds fh, run_each (fun st it => hold_token (fst it) st (snd it)) (ds_new (length sets), ∅) (held_tokens walk sets) = Some (ds, fh) /\
    ds_ok (length sets) ds /\ forall i j, (i < length sets)%nat -> same ds i j <-> connected sets i j.
Proof.
  destruct (ds_new_ok (length sets)) as [Hnew Hid].
  destruct (hold_all_joined sets (held_tokens walk sets) [] (ds_new (length sets), ∅)) as ([ds fh] & E & Hds & Hfh & Hheld & Hsound).
  { by apply Forall_forall. }
  { split_and!; [done|done|by intros i t ?%elem_of_nil|]. intros x y ->%Hid. reflexivity. }
  exists ds, fh. split_and!; [done|done|]. intros i j Hi. split; [apply Hsound|]. intros Hc. induction Hc as [i|i k j (s & s' & t & Hs & Hs' & Ht & Ht') _ IH].
  - destruct Hds as (_ & _ & Hroots). destruct (Hroots i Hi) as [r Hr]. by exists r.
  - destruct (Hheld i t) as (h & Eh & H1); [apply elem_of_held; eauto|]. destruct (Hheld k t) as (h' & Eh' & H2); [apply elem_of_held; eauto|].
    rewrite Eh in Eh'. injection Eh' as <-. eapply same_trans; [by eapply same_trans; [apply same_sym|]|]. apply IH. by eapply lookup_lt_Some.
Qed.

Lemma run_each_app {A S} (f : S -> A -> option S) s l l' : run_each f s (l ++ l') = (s' ← run_each f s l; run_each f s' l').
Proof. revert s. induction l as [|x l IH]; intros s; cbn; [done|]. by destruct (f s x) as [s'|]; cbn. Qed.

(** The root above a record, read without moving anything. *)
Definition root_of (ds : DisjointSet) (i : nat) : nat := match find ds i with Some (_, r) => r | None => i end.

Lemma root_of_spec n ds i : ds_ok n ds -> (i < n)%nat -> root ds i (root_of ds i).
Proof. intros Hds Hi. unfold root_of. by destruct (ds_find_spec n ds i Hds Hi) as (ds' & r & -> & _ & Hr & _). Qed.

Lemma root_of_same n ds i j : ds_ok n ds -> (i < n)%nat -> (j < n)%nat -> root_of ds i = root_of ds j <-> same ds i j.
Proof.
  intros Hds Hi Hj. pose proof (root_of_spec n ds i Hds Hi) as Hri. pose proof (root_of_spec n ds j Hds Hj) as Hrj. split.
  - intros E. exists (root_of ds j). by rewrite <- E at 1.
  - intros (r & Hir & Hjr). by rewrite (root_det _ _ _ _ Hri Hir), (root_det _ _ _ _ Hrj Hjr).
Qed.

(** What the second loop has after [m] records. *)
Definition collected (n : nat) (ds : DisjointSet) (m : nat) (st : DisjointSet * gmap nat (list nat) * list nat) : Prop :=
  let '(sets, grouped, order) := st in
  ds_ok n sets /\ (forall x r, root ds x r <-> root sets x r) /\
  (forall r, grouped !! r = match members (root_of ds) r m with [] => None | l => Some l end) /\
  order = root_of ds <$> leaders (root_of ds) m.

Lemma group_record_collects n ds m st :
  ds_ok n ds -> (m < n)%nat -> collected n ds m st -> exists st', group_record st m = Some st' /\ collected n ds (S m) st'.
Proof.
  destruct st as [[sets grouped] order]. intros Hds Hm (Hok & Hroots & Hgrouped & ->). unfold group_record.
  destruct (ds_find_spec n sets m Hok Hm) as (sets' & r & -> & Hok' & Hr & Hr'). cbn.
  assert (r = root_of ds m) as -> by (eapply root_det; [exact Hr|]; by apply Hroots, (root_of_spec n)).
  assert (forall x s, root ds x s <-> root sets' x s) as Hroots' by (intros x s; by rewrite Hroots).
  assert (forall r, r <> root_of ds m -> members (root_of ds) r (S m) = members (root_of ds) r m) as Hother.
  { intros r' Hne. rewrite members_S, decide_False by done. by rewrite app_nil_r. }
  assert (members (root_of ds) (root_of ds m) (S m) = members (root_of ds) (root_of ds m) m ++ [m]) as Hhere by (rewrite members_S, decide_True; done).
  rewrite Hgrouped. destruct (members (root_of ds) (root_of ds m) m) as [|j l] eqn:E; eexists; (split; [done|]); (split_and!; [done|done| |]).
  - intros r. destruct (decide (r = root_of ds m)) as [->|Hne]; [by rewrite lookup_insert_eq, Hhere|]. rewrite lookup_insert_ne, Hother by done. apply Hgrouped.
  - rewrite leaders_S, decide_True by done. by rewrite fmap_app.
  - intros r. destruct (decide (r = root_of ds m)) as [->|Hne]; [by rewrite lookup_insert_eq, Hhere|]. rewrite lookup_insert_ne, Hother by done. apply Hgrouped.
  - rewrite leaders_S, decide_False; [by rewrite app_nil_r|]. by rewrite E.
Qed.

Lemma group_records_collect n ds m :
  ds_ok n ds -> (m <= n)%nat -> exists st, run_each group_record (ds, ∅, []) (seq 0 m) = Some st /\ collected n ds m st.
Proof.
  intros Hds. induction m as [|m IH]; intros Hm; [eexists; split; [done|]; split_and!; done|].
  destruct IH as (st & E & Hst); [lia|]. rewrite seq_S, run_each_app, E. cbn - [group_record].
  destruct (group_record_collects n ds m st Hds) as (st' & -> & Hst'); [lia|done|]. by exists st'.
Qed.

(** The groups are the classes of a map that tells hosts apart. *)
Lemma groups_classes sets :
  exists rt, groups_of walk sets = Some (classes rt (length sets)) /\
    forall i j, (i < length sets)%nat -> (j < length sets)%nat -> rt i = rt j <-> connected sets i j.
Proof.
  destruct (hold_tokens_spec sets) as (ds & fh & E & Hds & Hsame). exists (root_of ds). unfold groups_of. rewrite E. cbn - [group_record].
  destruct (group_records_collect (length sets) ds (length sets) Hds) as ([[sets' grouped] order] & -> & _ & _ & Hgrouped & ->); [done|]. cbn. split.
  - apply mapM_Some. unfold classes. rewrite Forall2_fmap. apply Forall_Forall2_diag, Forall_forall. intros i Hi. rewrite Hgrouped.
    by destruct (members_first (root_of ds) i (length sets) Hi) as [l ->].
  - intros i j Hi Hj. rewrite (root_of_same (length sets)) by done. by apply Hsame.
Qed.
End GroupsSpec.

(** ** What [groups] promises *)

(** Nothing rests on the order the sets of tokens happen to be walked in. *)
Lemma groups_walk_free walk walk' records identity :
  (forall s, Permutation (walk s) (elements s)) -> (forall s, Permutation (walk' s) (elements s)) ->
  groups walk records identity = groups walk' records identity.
Proof.
  intros Hwalk Hwalk'. unfold groups. destruct (groups_classes walk Hwalk ((fun h => tokens h identity) <$> records)) as (rt & -> & Hrt).
  destruct (groups_classes walk' Hwalk' ((fun h => tokens h identity) <$> records)) as (rt' & -> & Hrt'). f_equal. apply classes_ext.
  intros i j Hi Hj. by rewrite Hrt, Hrt'.
Qed.

(** C18: Records fold into one entry per host.  Whatever order the sets of tokens are walked in,
    the union-find returns, with no index out of bounds and no lookup that fails, the same
    groups: every record is in exactly one, none is empty, two records are in the same one just
    when a chain of records, each with a token in common with the next, leads from one to the
    other; a group is ascending, and the groups are ascending by their lowest record. *)
Theorem groups_are_hosts records identity :
  exists gs,
    (forall walk, (forall s, Permutation (walk s) (elements s)) -> groups walk records identity = Some gs) /\
    Permutation (concat gs) (seq 0 (length records)) /\
    Forall (fun g => g <> [] /\ StronglySorted lt g) gs /\
    (exists firsts, head <$> gs = Some <$> firsts /\ StronglySorted lt firsts) /\
    forall i j, (i < length records)%nat -> (j < length records)%nat ->
      (exists g, g ∈ gs /\ i ∈ g /\ j ∈ g) <-> connected ((fun h => tokens h identity) <$> records) i j.
Proof.
  assert (forall s : gset Token, Permutation (elements s) (elements s)) as Hid by done.
  destruct (groups_classes elements Hid ((fun h => tokens h identity) <$> records)) as (rt & E & Hrt). rewrite length_fmap in E, Hrt.
  exists (classes rt (length records)). split_and!.
  - intros walk Hwalk. by rewrite (groups_walk_free walk elements).
  - apply classes_cover.
  - apply Forall_forall. intros g (i & -> & Hi)%list_elem_of_fmap. split; [|apply filter_seq_sorted]. by destruct (members_first rt i _ Hi) as [l ->].
  - exists (leaders rt (length records)). split; [apply classes_heads|apply filter_seq_sorted].
  - intros i j Hi Hj. by rewrite classes_together, Hrt.
Qed.

(** Three records, of which the second has the address of each of the others. *)
Example bridged_records :
  let both := fst (host_add_ip 0 (V4 2) (host_new 0 (V4 1))) in
  let records := [host_new 0 (V4 1); host_new 0 (V4 3); both; host_new 0 (V4 2)] in
  groups elements records AnyAddress = Some [[0; 2; 3]; [1]] /\ groups elements records PrimaryAddress = Some [[0; 2]; [1]; [3]].
Proof. split; vm_compute; reflexivity. Qed.
