(* ===== verification/Flood.v ===== *)
(** * Pairing the records of two scans

    [components] of [diff/pairing.rs]: a baseline record and a current record are linked when
    they share a token, and each connected component of that bipartite graph is one host.  The
    components are found by a flood fill that crosses from one side to the other, taking each
    token's list out of the index of the far side as it is walked.  The tokens are those of
    [Pairing]; here two records of the same side stay two, unless the other side joins them. *)

From Stdlib Require Import ZArith Lia Sorting.Sorted.
From stdpp Require Import base numbers option list gmap sorting relations.
From S2P Require Import Prelude Std Text IpRange Mac Identity Host Pairing.

Record Component := mkComponent {
  cp_baseline : list nat;
  cp_current : list nat;
}.

(** One side of the fill: which records carry each token, which were reached, which wait. *)
Record Side := mkSide {
  sd_index : gmap Token (list nat);
  sd_seen : list bool;
  sd_queue : list nat;
}.

Definition index_token (m : gmap Token (list nat)) (it : nat * Token) : gmap Token (list nat) :=
  <[snd it := default [] (m !! snd it) ++ [fst it]]> m.

Section Fill.
Variable walk : gset Token -> list Token.

Definition token_index (toks : list (gset Token)) : gmap Token (list nat) := fold_left index_token (held_tokens walk toks) ∅.

(** [if !seen[j] { seen[j] = true; queue.push(j); }]. *)
Definition reach (sd : Side) (j : nat) : option Side :=
  seen ← sd_seen sd !! j;
  if (seen : bool) then Some sd else Some (mkSide (sd_index sd) (<[j := true]> (sd_seen sd)) (sd_queue sd ++ [j])).

(** [for j in index.remove(token).unwrap_or_default()]. *)
Definition reach_token (sd : Side) (token : Token) : option Side :=
  run_each reach (mkSide (delete token (sd_index sd)) (sd_seen sd) (sd_queue sd)) (default [] (sd_index sd !! token)).

(** A record out of the queue: into the component, and its tokens walked. *)
Definition visit (toks : list (gset Token)) (st : list nat * Side) (i : nat) : option (list nat * Side) :=
  let '(out, sd) := st in
  set ← toks !! i;
  sd ← run_each reach_token sd (walk set);
  Some (out ++ [i], sd).

(** [while let Some(i) = queue.pop()]: the walk pushes to the far side's queue alone. *)
Definition drain (toks : list (gset Token)) (out : list nat) (far : Side) (queue : list nat) : option (list nat * Side) :=
  run_each (visit toks) (out, far) (reverse queue).

Definition queued (sd : Side) (queue : list nat) : Side := mkSide (sd_index sd) (sd_seen sd) queue.

(** [while !baseline_queue.is_empty() || !current_queue.is_empty()]. *)
Fixpoint flood (fuel : nat) (baseline_toks current_toks : list (gset Token)) (component : Component) (b c : Side) : option (Component * Side * Side) :=
  match fuel with
  | O => None
  | S fuel =>
    match sd_queue b, sd_queue c with
    | [], [] => Some (component, b, c)
    | _, _ =>
      '(baseline, c) ← drain baseline_toks (cp_baseline component) c (sd_queue b);
      '(current, b) ← drain current_toks (cp_current component) (queued b []) (sd_queue c);
      flood fuel baseline_toks current_toks (mkComponent baseline current) b (queued c [])
    end
  end.

(** One turn of the outer loop.  Each turn of the inner one takes a baseline record nothing took
    before, so there are at most as many as there are records, and one to see it is over. *)
Definition open_component (baseline_toks current_toks : list (gset Token)) (st : list Component * Side * Side) (start : nat) : option (list Component * Side * Side) :=
  let '(components, b, c) := st in
  seen ← sd_seen b !! start;
  if (seen : bool) then Some st
  else
    let b := mkSide (sd_index b) (<[start := true]> (sd_seen b)) [start] in
    '(component, b, c) ← flood (S (length baseline_toks)) baseline_toks current_toks (mkComponent [] []) b (queued c []);
    Some (components ++ [mkComponent (sort_by Nat.leb (cp_baseline component)) (sort_by Nat.leb (cp_current component))], b, c).

Definition first_or_max (l : list nat) : Z := match l with i :: _ => Z.of_nat i | [] => 2 ^ 64 - 1 end.

Definition component_leb (x y : Component) : bool :=
  let bx := first_or_max (cp_baseline x) in
  let b := first_or_max (cp_baseline y) in
  (bx <? b)%Z || ((bx =? b)%Z && (first_or_max (cp_current x) <=? first_or_max (cp_current y))%Z).

(** The records of the current scan nothing reached. *)
Definition unreached (seen : list bool) : list nat := filter (fun j => seen !! j = Some false) (seq 0 (length seen)).

Definition components_of (baseline_toks current_toks : list (gset Token)) : option (list Component) :=
  let b := mkSide (token_index baseline_toks) (replicate (length baseline_toks) false) [] in
  let c := mkSide (token_index current_toks) (replicate (length current_toks) false) [] in
  '(components, _, c) ← run_each (open_component baseline_toks current_toks) ([], b, c) (seq 0 (length baseline_toks));
  Some (sort_by component_leb (components ++ ((fun j => mkComponent [] [j]) <$> unreached (sd_seen c)))).

Definition components (baseline current : list Host) (identity : HostIdentity) : option (list Component) :=
  components_of ((fun h => tokens h identity) <$> baseline) ((fun h => tokens h identity) <$> current).
End Fill.

(** ** What reaching records does *)

Definition seen (sd : Side) (j : nat) : Prop := sd_seen sd !! j = Some true.

Definition holds (toks : list (gset Token)) (j : nat) (t : Token) : Prop := exists s, toks !! j = Some s /\ t ∈ s.

(** [sd'] is [sd] with [new] reached, once each, and queued. *)
Definition fresh (sd : Side) (new : list nat) (sd' : Side) : Prop :=
  length (sd_seen sd') = length (sd_seen sd) /\ sd_queue sd' = sd_queue sd ++ new /\ NoDup new /\
  (forall j, j ∈ new -> ~ seen sd j) /\ (forall j, seen sd' j <-> seen sd j \/ j ∈ new).

Lemma fresh_refl sd : fresh sd [] sd.
Proof. split_and!; [done|by rewrite app_nil_r|constructor|by intros j ?%elem_of_nil|]. intros j. rewrite elem_of_nil. tauto. Qed.

Lemma fresh_trans sd new sd' new' sd'' : fresh sd new sd' -> fresh sd' new' sd'' -> fresh sd (new ++ new') sd''.
Proof.
  intros (Hl & Hq & Hnd & Hun & Hs) (Hl' & Hq' & Hnd' & Hun' & Hs'). split_and!.
  - by rewrite Hl', Hl.
  - by rewrite Hq', Hq, app_assoc.
  - apply NoDup_app. split_and!; [done| |done]. intros j Hj Hj'. apply (Hun' j Hj'). apply Hs. by right.
  - intros j [Hj|Hj]%elem_of_app; [by apply Hun|]. intros Hseen. apply (Hun' j Hj). apply Hs. by left.
  - intros j. rewrite Hs', Hs, elem_of_app. tauto.
Qed.

(** A loop whose every turn reaches the records [R] says reaches what [R] says of all of them. *)
Section Reaching.
Context {A S : Type} (side : S -> Side) (P : S -> Prop) (f : S -> A -> option S) (R : A -> nat -> Prop).

Definition reaches_all (asked : nat -> Prop) (s s' : S) : Prop :=
  P s' /\ exists new, fresh (side s) new (side s') /\ (forall j, j ∈ new -> asked j) /\ (forall j, asked j -> seen (side s') j).

Lemma fold_reaches l :
  (forall a s, a ∈ l -> P s -> exists s', f s a = Some s' /\ reaches_all (R a) s s') ->
  forall s, P s -> exists s', run_each f s l = Some s' /\ reaches_all (fun j => exists a, a ∈ l /\ R a j) s s'.
Proof.
  induction l as [|a l IH]; intros Hstep s Hs; cbn.
  { exists s. split; [done|]. split; [done|]. exists []. split_and!; [apply fresh_refl|by intros j ?%elem_of_nil|]. by intros j (a & ?%elem_of_nil & _). }
  destruct (Hstep a s) as (s1 & -> & H1 & new1 & Hf1 & Hn1 & Ha1); [by left|done|]. cbn.
  destruct (IH (fun a' s' Ha' => Hstep a' s' (list_elem_of_further _ _ _ Ha')) s1 H1) as (s2 & -> & H2 & new2 & Hf2 & Hn2 & Ha2).
  exists s2. split; [done|]. split; [done|]. exists (new1 ++ new2). split_and!; [by eapply fresh_trans| |].
  - intros j [Hj|Hj]%elem_of_app; [exists a; split; [by left|by apply Hn1]|]. destruct (Hn2 j Hj) as (a' & Ha' & Hr). exists a'. split; [by right|done].
  - intros j (a' & [->|Ha']%elem_of_cons & Hr); [|apply Ha2; eauto]. destruct Hf2 as (_ & _ & _ & _ & Hs2). apply Hs2. left. by apply Ha1.
Qed.
End Reaching.

Lemma reach_spec sd j :
  (j < length (sd_seen sd))%nat ->
  exists sd', reach sd j = Some sd' /\ sd_index sd' = sd_index sd /\ exists new, fresh sd new sd' /\ (forall k, k ∈ new -> k = j) /\ seen sd' j.
Proof.
  intros Hj. unfold reach. destruct (lookup_lt_is_Some_2 (sd_seen sd) j Hj) as [[] E]; rewrite E; cbn.
  - exists sd. split_and!; [done|done|]. exists []. split_and!; [apply fresh_refl|by intros k ?%elem_of_nil|done].
  - eexists. split_and!; [done|done|]. exists [j]. split_and!; [|by intros k ->%list_elem_of_singleton|unfold seen; cbn; by rewrite list_lookup_insert_eq].
    split_and!; cbn; [by rewrite length_insert|done|apply NoDup_singleton|intros k ->%list_elem_of_singleton Hk; unfold seen in Hk; congruence|].
    intros k. unfold seen. cbn. rewrite list_elem_of_singleton. destruct (decide (k = j)) as [->|Hne]; [rewrite list_lookup_insert_eq by done; tauto|].
    rewrite list_lookup_insert_ne by done. tauto.
Qed.

(** The index holds only carriers of a token, and every carrier not reached yet. *)
Definition indexed (toks : list (gset Token)) (sd : Side) : Prop :=
  length (sd_seen sd) = length toks /\
  (forall t j, j ∈ default [] (sd_index sd !! t) -> holds toks j t) /\
  (forall t j, holds toks j t -> seen sd j \/ j ∈ default [] (sd_index sd !! t)).

Lemma holds_lt toks j t : holds toks j t -> (j < length toks)%nat.
Proof. intros (s & Hs & _). by eapply lookup_lt_Some. Qed.

Lemma reach_token_spec toks sd t :
  indexed toks sd -> exists sd', reach_token sd t = Some sd' /\ reaches_all id (indexed toks) (fun j => holds toks j t) sd sd'.
Proof.
  intros (Hlen & Hback & Hall). unfold reach_token. set (sd0 := mkSide (delete t (sd_index sd)) _ _). set (js := default [] (sd_index sd !! t)).
  destruct (fold_reaches id (fun s => length (sd_seen s) = length toks /\ sd_index s = sd_index sd0) reach (fun j k => k = j) js) with (s := sd0)
    as (sd' & E & [Hlen' Hi] & new & Hfresh & Hnew & Hdone).
  { intros j s Hj%Hback%holds_lt [Hs Hsi]. destruct (reach_spec s j) as (s' & E & Hi & new & Hf & Hn & Hd); [by rewrite Hs|]. exists s'. split; [done|].
    pose proof Hf as (Hl & _). split; [split; [by rewrite Hl|congruence]|]. exists new. split_and!; [done|done|]. by intros k ->. }
  { done. }
  rewrite E. exists sd'. split; [done|]. assert (fresh sd new sd') as Hf by done. assert (forall j, holds toks j t -> seen sd' j) as Hcarriers.
  { intros j Hj. destruct (Hall t j Hj) as [Hs|Hin]; [destruct Hf as (_ & _ & _ & _ & Hs'); apply Hs'; by left|]. apply (Hdone j). by exists j. }
  split.
  - split_and!; [done| |].
    + intros t' j. rewrite Hi. cbn. destruct (decide (t = t')) as [->|Hne]; [rewrite lookup_delete_eq; cbn; by intros ?%elem_of_nil|].
      rewrite lookup_delete_ne by done. apply Hback.
    + intros t' j Hj. destruct (decide (t = t')) as [->|Hne]; [left; by apply Hcarriers|]. rewrite Hi. cbn. rewrite lookup_delete_ne by done.
      destruct (Hall t' j Hj) as [Hs|]; [left|by right]. destruct Hf as (_ & _ & _ & _ & Hs'). apply Hs'. by left.
  - exists new. split_and!; [done| |done]. intros j Hj. destruct (Hnew j Hj) as (k & Hk & ->). by apply Hback.
Qed.

(** ** The graph *)

(** A record of one side and a record of the other carry a token in common. *)
Definition linked (toks far : list (gset Token)) (i j : nat) : Prop := exists t, holds toks i t /\ holds far j t.

Lemma linked_sym toks far i j : linked toks far i j -> linked far toks j i.
Proof. intros (t & ? & ?). by exists t. Qed.

(** Baseline records are [inl], current ones [inr]. *)
Inductive link (baseline_toks current_toks : list (gset Token)) : nat + nat -> nat + nat -> Prop :=
  | LinkForward i j : linked baseline_toks current_toks i j -> link baseline_toks current_toks (inl i) (inr j)
  | LinkBack i j : linked baseline_toks current_toks i j -> link baseline_toks current_toks (inr j) (inl i).

(** One host to both scans: a chain of links, crossing from one to the other. *)
Definition one_host (baseline_toks current_toks : list (gset Token)) : nat + nat -> nat + nat -> Prop := rtc (link baseline_toks current_toks).

Lemma one_host_sym bt ct x y : one_host bt ct x y -> one_host bt ct y x.
Proof. induction 1 as [|x z y Hl _ IH]; [done|]. eapply rtc_r; [exact IH|]. destruct Hl; by constructor. Qed.

Section FillSpec.
Variable walk : gset Token -> list Token.
Hypothesis walk_all : forall s, Permutation (walk s) (elements s).

Lemma visited_in_order toks out sd l out' sd' : run_each (visit walk toks) (out, sd) l = Some (out', sd') -> out' = out ++ l.
Proof.
  revert out sd. induction l as [|i l IH]; intros out sd; cbn; [intros [= -> ->]; by rewrite app_nil_r|].
  destruct (toks !! i) as [s|]; [cbn|done]. destruct (run_each reach_token sd (walk s)) as [sd1|]; [cbn|done]. intros ->%IH. by rewrite <- app_assoc.
Qed.

(** A queue drained: its records are in the component, and what they are linked to is reached. *)
Lemma drain_spec toks far out sd queue :
  indexed far sd -> Forall (fun i => i < length toks)%nat queue ->
  exists sd' new, drain walk toks out sd queue = Some (out ++ reverse queue, sd') /\ indexed far sd' /\ fresh sd new sd' /\
    (forall j, j ∈ new -> exists i, i ∈ queue /\ linked toks far i j) /\ (forall i j, i ∈ queue -> linked toks far i j -> seen sd' j).
Proof.
  intros Hsd Hq. unfold drain.
  destruct (fold_reaches snd (fun st => indexed far (snd st)) (visit walk toks) (fun i j => linked toks far i j) (reverse queue)) with (s := (out, sd))
    as ([out' sd'] & E & Hsd' & new & Hf & Hn & Hd).
  { intros i [o s] Hi Hs. rewrite elem_of_reverse in Hi. cbn in Hs. rewrite Forall_forall in Hq. destruct (lookup_lt_is_Some_2 toks i (Hq i Hi)) as [set Eset]. cbn. rewrite Eset. cbn.
    destruct (fold_reaches id (indexed far) reach_token (fun t j => holds far j t) (walk set)) with (s := s) as (s' & -> & Hs' & new & Hf & Hn & Hd);
      [by intros t s' _ ?; apply reach_token_spec|done|]. cbn.
    eexists. split; [done|]. split; [done|]. exists new. split_and!; [done| |].
    - intros j Hj. destruct (Hn j Hj) as (t & Ht & Hjt). exists t. split; [|done]. exists set. split; [done|]. rewrite walk_all in Ht. by apply elem_of_elements.
    - intros j (t & (set' & Eset' & Ht) & Hjt). apply Hd. exists t. split; [|done]. rewrite walk_all. apply elem_of_elements. congruence. }
  { done. }
  pose proof (visited_in_order _ _ _ _ _ _ E) as ->. exists sd', new. split_and!; [done|done|done| |].
  - intros j Hj. destruct (Hn j Hj) as (i & Hi & Hl). rewrite elem_of_reverse in Hi. by exists i.
  - intros i j Hi Hl. apply (Hd j). exists i. by rewrite elem_of_reverse.
Qed.

(** One side of a component being filled: what was reached since [s0] is in the component or
    waits, once each, and [H] holds of it. *)
Definition waiting (toks : list (gset Token)) (s0 : Side) (H : nat -> Prop) (out : list nat) (sd : Side) : Prop :=
  indexed toks sd /\ (forall i, seen sd i <-> seen s0 i \/ i ∈ out ++ sd_queue sd) /\
  NoDup (out ++ sd_queue sd) /\ (forall i, i ∈ out ++ sd_queue sd -> (i < length toks)%nat /\ H i) /\ (forall i, seen s0 i -> i ∉ out ++ sd_queue sd).

(** What the records taken are linked to is reached. *)
Definition explored (toks far : list (gset Token)) (out : list nat) (sd : Side) : Prop :=
  forall i j, i ∈ out -> linked toks far i j -> seen sd j.

Lemma cross_spec toks far s0 f0 H H' out sd out' fd :
  waiting toks s0 H out sd -> waiting far f0 H' out' fd -> explored toks far out fd -> explored far toks out' sd ->
  (forall i j, H i -> linked toks far i j -> H' j) ->
  exists fd', drain walk toks out fd (sd_queue sd) = Some (out ++ reverse (sd_queue sd), fd') /\
    waiting toks s0 H (out ++ reverse (sd_queue sd)) (queued sd []) /\ waiting far f0 H' out' fd' /\
    explored toks far (out ++ reverse (sd_queue sd)) fd' /\ explored far toks out' (queued sd []).
Proof.
  intros (Hi & Hseen & Hnd & Hall & Hold) (Hi' & Hseen' & Hnd' & Hall' & Hold') Hex Hex' HH.
  destruct (drain_spec toks far out fd (sd_queue sd) Hi') as (fd' & new & E & Hind & Hf & Hnew & Hdone).
  { apply Forall_forall. intros i Hq. apply Hall, elem_of_app. by right. }
  destruct Hf as (_ & Hq' & Hndn & Hun & Hs'). assert (forall i, i ∈ out ++ reverse (sd_queue sd) <-> i ∈ out ++ sd_queue sd) as Hrev.
  { intros i. by rewrite !elem_of_app, elem_of_reverse. }
  exists fd'. split_and!; [done| | | |done].
  - split_and!; [done|..]; cbn; rewrite ?app_nil_r; [|by rewrite reverse_Permutation| |]; setoid_rewrite Hrev; done.
  - split_and!; [done|..]; rewrite Hq', ?app_assoc.
    + intros j. rewrite Hs', Hseen', (elem_of_app _ new). tauto.
    + apply NoDup_app. split_and!; [done| |done]. intros j Hj Hjn. apply (Hun j Hjn). apply Hseen'. by right.
    + intros j [Hj|Hj]%elem_of_app; [by apply Hall'|]. destruct (Hnew j Hj) as (i & Hiq & Hl). split; [destruct Hl as (t & _ & Ht); by eapply holds_lt|].
      eapply HH; [|exact Hl]. apply Hall, elem_of_app. by right.
    + intros j Hj [Hin|Hin]%elem_of_app; [by apply (Hold' j)|]. apply (Hun j Hin), Hseen'. by left.
  - intros i j [Hio|Hiq]%elem_of_app Hl; [apply Hs'; left; by apply (Hex i)|]. rewrite elem_of_reverse in Hiq. by apply (Hdone i).
Qed.

Section Component.
Variables bt ct : list (gset Token).
(** The sides as they stood before [start] was opened. *)
Variables b0 c0 : Side.
Variable start : nat.

Notation host := (one_host bt ct (inl start)).

Definition filling (baseline current : list nat) (b c : Side) : Prop :=
  waiting bt b0 (fun i => host (inl i)) baseline b /\ waiting ct c0 (fun j => host (inr j)) current c /\
  explored bt ct baseline c /\ explored ct bt current b.

Lemma cross_forward i j : host (inl i) -> linked bt ct i j -> host (inr j).
Proof. intros Hi Hl. eapply rtc_r; [exact Hi|]. by constructor. Qed.

Lemma cross_back j i : host (inr j) -> linked ct bt j i -> host (inl i).
Proof. intros Hj Hl%linked_sym. eapply rtc_r; [exact Hj|]. by constructor. Qed.

Lemma waiting_size toks s0 H out sd : waiting toks s0 H out sd -> (length out + length (sd_queue sd) <= length toks)%nat.
Proof.
  intros (_ & _ & Hnd & Hall & _). rewrite <- length_app, <- (length_seq (length toks) 0). apply submseteq_length, NoDup_submseteq; [done|].
  intros i Hi%Hall. apply elem_of_seq. lia.
Qed.

(** The fill ends, with both queues empty. *)
Lemma flood_spec fuel baseline current b c :
  filling baseline current b c -> sd_queue c = [] -> (length bt < fuel + length baseline)%nat ->
  exists baseline' current' b' c', flood walk fuel bt ct (mkComponent baseline current) b c = Some (mkComponent baseline' current', b', c') /\
    filling baseline' current' b' c' /\ sd_queue b' = [] /\ sd_queue c' = [] /\ forall i, i ∈ baseline ++ sd_queue b -> i ∈ baseline'.
Proof.
  revert baseline current b c. induction fuel as [|fuel IH]; intros baseline current b c (Hb & Hc & Hex & Hex') Hcq Hfuel.
  { apply waiting_size in Hb. lia. }
  cbn. rewrite Hcq. destruct (sd_queue b) as [|q qs] eqn:Ebq.
  { exists baseline, current, b, c. split_and!; [done|done|done|done|]. intros i. by rewrite app_nil_r. }
  rewrite <- Ebq. destruct (cross_spec bt ct b0 c0 _ _ baseline b current c Hb Hc Hex Hex' cross_forward) as (c1 & E1 & Hb1 & Hc1 & Hex1 & Hex1').
  rewrite E1. cbn.
  destruct (cross_spec ct bt c0 b0 _ _ current c1 _ (queued b []) Hc1 Hb1 Hex1' Hex1 cross_back) as (b2 & E2 & Hc2 & Hb2 & Hex2 & Hex2').
  rewrite E2. cbn. destruct (IH (baseline ++ reverse (sd_queue b)) (current ++ reverse (sd_queue c1)) b2 (queued c1 [])) as (bl & cl & b' & c' & E & Hfill & Hqb & Hqc & Hin).
  - by split_and!.
  - done.
  - rewrite length_app, length_reverse, Ebq. cbn. lia.
  - exists bl, cl, b', c'. split_and!; [done|done|done|done|]. intros i Hi. apply Hin. rewrite !elem_of_app, elem_of_reverse in *. tauto.
Qed.

(** Nothing reached before is linked to anything else: the fill takes the host of [start], whole. *)
Lemma filled_is_host baseline current b c :
  (forall i j, linked bt ct i j -> seen b0 i <-> seen c0 j) -> ~ seen b0 start -> start ∈ baseline ->
  filling baseline current b c -> sd_queue b = [] -> sd_queue c = [] ->
  (forall i, i ∈ baseline <-> host (inl i)) /\ (forall j, j ∈ current <-> host (inr j)).
Proof.
  intros Hclosed Hstart Hin ((_ & Hb & _ & Hallb & Holdb) & (_ & Hc & _ & Hallc & Holdc) & Hex & Hex') Hqb Hqc. rewrite Hqb, app_nil_r in *. rewrite Hqc, app_nil_r in *.
  assert (forall x, host x -> match x with inl i => i ∈ baseline | inr j => j ∈ current end) as Hto.
  { apply (rtc_ind_r (fun x => match x with inl i => i ∈ baseline | inr j => j ∈ current end) (inl start)); [done|]. intros x y _ Hl IH. destruct Hl as [i j Hl|i j Hl].
    - destruct (proj1 (Hc j) (Hex i j IH Hl)) as [Hold|]; [|done]. apply (Hclosed i j Hl) in Hold. by destruct (Holdb i).
    - destruct (proj1 (Hb i) (Hex' j i IH (linked_sym _ _ _ _ Hl))) as [Hold|]; [|done]. apply (Hclosed i j Hl) in Hold. by destruct (Holdc j). }
  split; [intros i; split; [apply Hallb|apply (Hto (inl i))]|intros j; split; [apply Hallc|apply (Hto (inr j))]].
Qed.
End Component.

(** ** The outer loop *)

Definition within (c : Component) (x : nat + nat) : Prop := match x with inl i => i ∈ cp_baseline c | inr j => j ∈ cp_current c end.

(** [c] holds the records that are one host with [x], in order. *)
Definition describes (bt ct : list (gset Token)) (c : Component) (x : nat + nat) : Prop :=
  StronglySorted lt (cp_baseline c) /\ StronglySorted lt (cp_current c) /\ forall y, within c y <-> one_host bt ct x y.

Lemma sort_nat_sorted l : NoDup l -> StronglySorted lt (sort_by Nat.leb l).
Proof.
  intros Hnd. assert (NoDup (sort_by Nat.leb l)) as Hnd' by by rewrite sort_by_perm.
  assert (StronglySorted (fun a b => Nat.leb a b = true) (sort_by Nat.leb l)) as Hs.
  { apply sort_by_sorted; intros *; rewrite ?Nat.leb_le; lia. }
  induction Hs as [|a m Hs IH Ha]; [constructor|]. apply NoDup_cons in Hnd' as [Hn Hnd']. constructor; [by apply IH|].
  apply Forall_forall. intros x Hx. pose proof (proj1 (Forall_forall _ _) Ha x Hx) as Hle%Nat.leb_le. destruct (decide (a = x)) as [->|]; [done|lia].
Qed.

(** What is known after [m] turns: the first record of each host, its component, and that they
    account for everything reached. *)
Definition opened (bt ct : list (gset Token)) (m : nat) (st : list Component * Side * Side) : Prop :=
  let '(components, b, c) := st in
  exists starts,
    indexed bt b /\ indexed ct c /\
    StronglySorted lt starts /\ (forall i, i ∈ starts <-> (i < m)%nat /\ forall j, (j < i)%nat -> ~ one_host bt ct (inl j) (inl i)) /\
    Forall2 (describes bt ct) components (inl <$> starts) /\ (forall i, (i < m)%nat -> seen b i) /\
    (forall i, seen b i <-> exists s, s ∈ starts /\ one_host bt ct (inl s) (inl i)) /\
    (forall j, seen c j <-> exists s, s ∈ starts /\ one_host bt ct (inl s) (inr j)).

Lemma start_filling bt ct b c start :
  indexed bt b -> indexed ct c -> sd_seen b !! start = Some false ->
  filling bt ct b c start [] [] (mkSide (sd_index b) (<[start := true]> (sd_seen b)) [start]) (queued c []).
Proof.
  intros (Hl & Hback & Hall) Hc Hs. assert (start < length (sd_seen b))%nat as Hlt by by eapply lookup_lt_Some.
  assert (forall i, seen (mkSide (sd_index b) (<[start := true]> (sd_seen b)) [start]) i <-> seen b i \/ i = start) as Hseen.
  { intros i. unfold seen. cbn. destruct (decide (i = start)) as [->|Hne]; [rewrite list_lookup_insert_eq by done; tauto|].
    rewrite list_lookup_insert_ne by done. tauto. }
  split_and!; [|split_and!; cbn; [done| |constructor|by intros j ?%elem_of_nil|by intros j _ ?%elem_of_nil]|by intros i j ?%elem_of_nil|by intros i j ?%elem_of_nil].
  - split_and!; cbn; [split_and!; cbn; [by rewrite length_insert|done|]| |apply NoDup_singleton| |].
    + intros t j Hj. destruct (Hall t j Hj) as [Hsj|]; [left; apply Hseen; by left|by right].
    + intros i. rewrite Hseen, list_elem_of_singleton. done.
    + intros i ->%list_elem_of_singleton. split; [lia|reflexivity].
    + intros i Hi ->%list_elem_of_singleton. unfold seen in Hi. congruence.
  - intros j. rewrite elem_of_nil. unfold seen. cbn. tauto.
Qed.

Lemma opened_closed bt ct m comps b c i j : opened bt ct m (comps, b, c) -> linked bt ct i j -> seen b i <-> seen c j.
Proof.
  intros (starts & _ & _ & _ & _ & _ & _ & Hb & Hc) Hl. rewrite Hb, Hc. split; intros (s & Hs & Hh); exists s; (split; [done|]); (eapply rtc_r; [exact Hh|]); by constructor.
Qed.

Lemma open_component_opened bt ct m st :
  (m < length bt)%nat -> opened bt ct m st -> exists st', open_component walk bt ct st m = Some st' /\ opened bt ct (S m) st'.
Proof.
  destruct st as [[comps b] c]. intros Hm Hopen. pose proof Hopen as (starts & Hb & Hc & Hsort & Hstarts & Hdesc & Hbelow & Hsb & Hsc).
  destruct (lookup_lt_is_Some_2 (sd_seen b) m) as [[] Es]; [by destruct Hb as (-> & _)|..]; cbn - [flood]; rewrite Es; cbn - [flood].
  - eexists. split; [done|]. exists starts. split_and!; [done|done|done| |done| |done|done].
    + intros i. rewrite Hstarts. split; intros [Hi Hf]; (split; [|done]); [lia|]. destruct (decide (i = m)) as [->|]; [|lia].
      apply Hsb in Es as (s & [Hs _]%Hstarts & Hh). by destruct (Hf s Hs).
    + intros i Hi. destruct (decide (i = m)) as [->|]; [done|]. apply Hbelow. lia.
  - destruct (flood_spec bt ct b c m (S (length bt)) [] [] _ _ (start_filling bt ct b c m Hb Hc Es)) as (bl & cl & b' & c' & -> & Hfill & Hqb & Hqc & Hin); [done|cbn; lia|].
    cbn - [sort_by]. assert (~ seen b m) as Hunseen by (unfold seen; congruence).
    destruct (filled_is_host bt ct b c m bl cl b' c') as [Hbl Hcl]; [by intros i j; eapply opened_closed|done|apply Hin; by left|done|done|done|].
    destruct Hfill as ((Hb' & Hsb' & Hndb & _ & _) & (Hc' & Hsc' & Hndc & _ & _) & _ & _). rewrite Hqb, app_nil_r in *. rewrite Hqc, app_nil_r in *.
    assert (forall j, (j < m)%nat -> ~ one_host bt ct (inl j) (inl m)) as Hfirst.
    { intros j (s & Hs & Hh)%Hbelow%Hsb Hjm. apply Hunseen, Hsb. exists s. split; [done|]. by transitivity (inl j : nat + nat). }
    eexists. split; [done|]. exists (starts ++ [m]). split_and!; [done|done| | | | | |].
    + apply StronglySorted_app_2; [|done|repeat constructor]. intros x y Hx ->%list_elem_of_singleton. by apply Hstarts.
    + intros i. rewrite elem_of_app, list_elem_of_singleton, Hstarts. split; [intros [[Hi Hf]| ->]; (split; [lia|done])|].
      intros [Hi Hf]. destruct (decide (i = m)); [by right|left; split; [lia|done]].
    + rewrite fmap_app. apply Forall2_app; [done|]. constructor; [|constructor].
      split_and!; [by apply sort_nat_sorted|by apply sort_nat_sorted|]. intros [i|j]; cbn [within cp_baseline cp_current]; rewrite elem_of_sort_by; [apply Hbl|apply Hcl].
    + intros i Hi. apply Hsb'. destruct (decide (i = m)) as [->|]; [right; apply Hbl; reflexivity|left; apply Hbelow; lia].
    + intros i. rewrite Hsb', Hsb, Hbl. setoid_rewrite elem_of_app. setoid_rewrite list_elem_of_singleton. naive_solver.
    + intros j. rewrite Hsc', Hsc, Hcl. setoid_rewrite elem_of_app. setoid_rewrite list_elem_of_singleton. naive_solver.
Qed.

Lemma elem_of_index l m t j : j ∈ default [] (fold_left index_token l m !! t) <-> j ∈ default [] (m !! t) \/ (j, t) ∈ l.
Proof.
  revert m. induction l as [|[i t'] l IH]; intros m; cbn [fold_left]; [rewrite elem_of_nil; tauto|]. rewrite IH, elem_of_cons. unfold index_token. cbn.
  destruct (decide (t' = t)) as [->|Hne]; [rewrite lookup_insert_eq|rewrite lookup_insert_ne by done].
  - cbn. rewrite elem_of_app, list_elem_of_singleton. naive_solver.
  - naive_solver.
Qed.

Lemma new_indexed toks : indexed toks (mkSide (token_index walk toks) (replicate (length toks) false) []).
Proof.
  assert (forall t j, j ∈ default [] (token_index walk toks !! t) <-> holds toks j t) as Hix.
  { intros t j. unfold token_index. rewrite elem_of_index, lookup_empty. cbn. rewrite elem_of_nil. unfold holds. rewrite <- (elem_of_held walk walk_all). tauto. }
  split_and!; cbn; [apply length_replicate|intros t j; apply Hix|intros t j Hj; right; by apply Hix].
Qed.

Lemma new_unseen ix n i : ~ seen (mkSide ix (replicate n false) []) i.
Proof. unfold seen. cbn. by intros [? _]%lookup_replicate_1. Qed.

Lemma open_components bt ct m :
  (m <= length bt)%nat ->
  exists st, run_each (open_component walk bt ct)
      ([], mkSide (token_index walk bt) (replicate (length bt) false) [], mkSide (token_index walk ct) (replicate (length ct) false) []) (seq 0 m) = Some st /\
    opened bt ct m st.
Proof.
  induction m as [|m IH]; intros Hm.
  - eexists. split; [done|]. exists []. split_and!; [apply new_indexed|apply new_indexed|constructor| |constructor|lia| |].
    + intros i. rewrite elem_of_nil. split; [done|]. lia.
    + intros i. split; [by intros ?%new_unseen|]. by intros (s & ?%elem_of_nil & _).
    + intros j. split; [by intros ?%new_unseen|]. by intros (s & ?%elem_of_nil & _).
  - destruct IH as (st & E & Hst); [lia|]. destruct (open_component_opened bt ct m st) as (st' & E' & Hst'); [lia|done|].
    exists st'. split; [|done]. rewrite seq_S, run_each_app, E. cbn - [open_component]. by rewrite E'.
Qed.
End FillSpec.

Lemma sort_by_sorted_id {A} (le : A -> A -> bool) l : StronglySorted (fun a b => le a b = true) l -> sort_by le l = l.
Proof.
  induction 1 as [|a l _ IH Ha]; [done|]. cbn. fold (sort_by le l). rewrite IH. destruct l as [|b l]; [done|]. cbn.
  apply Forall_cons in Ha as [-> _]. done.
Qed.

(** ** What [components] promises *)

Section Hosts.
Variables bt ct : list (gset Token).

Definition in_range (x : nat + nat) : Prop := match x with inl i => (i < length bt)%nat | inr j => (j < length ct)%nat end.

(** The hosts in the order the comparison lists them: those the baseline has, by their first
    record there, then those only the current scan has. *)
Definition host_order (reps : list (nat + nat)) : Prop :=
  exists starts rest, reps = (inl <$> starts) ++ (inr <$> rest) /\
    StronglySorted lt starts /\ (forall i, i ∈ starts <-> (i < length bt)%nat /\ forall j, (j < i)%nat -> ~ one_host bt ct (inl j) (inl i)) /\
    StronglySorted lt rest /\ (forall j, j ∈ rest <-> (j < length ct)%nat /\ forall i, ~ one_host bt ct (inl i) (inr j)).

Lemma one_host_in_range x y : one_host bt ct x y -> in_range x -> in_range y.
Proof. induction 1 as [|x z y Hl _ IH]; [done|]. intros _. apply IH. destruct Hl as [i j (t & Hi & Hj)|i j (t & Hi & Hj)]; by eapply holds_lt. Qed.

Lemma alone_is_host j y : (forall i, ~ one_host bt ct (inl i) (inr j)) -> one_host bt ct (inr j) y -> y = inr j.
Proof. intros Hno Hy. inversion Hy as [|? z ? Hl _]; subst; [done|]. inversion Hl as [|i ? Hl']; subst. destruct (Hno i). apply rtc_once. by constructor. Qed.

Lemma unreached_spec seen j : j ∈ unreached seen <-> seen !! j = Some false.
Proof. unfold unreached. rewrite list_elem_of_filter, elem_of_seq. split; [by intros [? _]|]. intros Hj. pose proof (lookup_lt_Some _ _ _ Hj). split; [done|lia]. Qed.

(** The component of a host's first record begins with it. *)
Lemma describes_first k s :
  describes bt ct k (inl s) -> (forall j, (j < s)%nat -> ~ one_host bt ct (inl j) (inl s)) -> exists l, cp_baseline k = s :: l.
Proof.
  intros (Hk & _ & Hw) Hf. assert (within k (inl s)) as Hin by (apply Hw; reflexivity). cbn in Hin.
  destruct (cp_baseline k) as [|a l] eqn:E; [by apply elem_of_nil in Hin|]. apply elem_of_cons in Hin as [->|Hin]; [by exists l|].
  apply StronglySorted_inv in Hk as [_ Ha]. rewrite Forall_forall in Ha. destruct (Hf a (Ha s Hin)). apply one_host_sym, Hw. cbn. rewrite E. by left.
Qed.

Lemma opened_first starts comps k :
  Forall2 (describes bt ct) comps (inl <$> starts) -> (forall s, s ∈ starts -> forall j, (j < s)%nat -> ~ one_host bt ct (inl j) (inl s)) ->
  k ∈ comps -> exists s l, s ∈ starts /\ cp_baseline k = s :: l.
Proof.
  intros Hdesc Hf [n Hn]%list_elem_of_lookup. destruct (Forall2_lookup_l _ _ _ _ _ Hdesc Hn) as (x & Hx & Hd).
  apply list_lookup_fmap_Some in Hx as (s & -> & Hs%list_elem_of_lookup_2). destruct (describes_first k s Hd (Hf s Hs)) as [l E]. by exists s, l.
Qed.

Lemma opened_sorted starts comps :
  Forall2 (describes bt ct) comps (inl <$> starts) -> StronglySorted lt starts ->
  (forall s, s ∈ starts -> forall j, (j < s)%nat -> ~ one_host bt ct (inl j) (inl s)) -> StronglySorted (fun x y => component_leb x y = true) comps.
Proof.
  revert starts. induction comps as [|k comps IH]; intros starts Hdesc Hsort Hf; [constructor|].
  destruct starts as [|s starts]; [by apply Forall2_cons_nil_inv in Hdesc|]. apply Forall2_cons in Hdesc as [Hk Hdesc]. apply StronglySorted_inv in Hsort as [Hsort Hs].
  assert (forall s', s' ∈ starts -> forall j, (j < s')%nat -> ~ one_host bt ct (inl j) (inl s')) as Hf' by (intros s' Hs'; apply Hf; by right).
  constructor; [by apply (IH starts)|]. apply Forall_forall. intros k' Hk'. destruct (describes_first k s Hk) as [l E]; [apply Hf; by left|].
  destruct (opened_first starts comps k' Hdesc Hf' Hk') as (s' & l' & Hs' & E'). rewrite Forall_forall in Hs. specialize (Hs s' Hs').
  unfold component_leb. rewrite E, E'. cbn [first_or_max]. apply orb_true_iff. left. apply Z.ltb_lt. lia.
Qed.

Lemma components_listed walk :
  (forall s, Permutation (walk s) (elements s)) -> (Z.of_nat (length bt) < 2 ^ 64)%Z ->
  exists cs reps, components_of walk bt ct = Some cs /\ host_order reps /\ Forall2 (describes bt ct) cs reps /\
    StronglySorted (fun x y => component_leb x y = true) cs /\ forall x, in_range x -> exists r, r ∈ reps /\ one_host bt ct r x.
Proof.
  intros Hwalk Hlen. unfold components_of. destruct (open_components walk Hwalk bt ct (length bt)) as ([[comps b] c] & -> & Hopen); [done|]. cbn - [sort_by].
  destruct Hopen as (starts & _ & Hc & Hsort & Hstarts & Hdesc & Hall & Hsb & Hsc). set (rest := unreached (sd_seen c)).
  assert (forall j, j ∈ rest <-> (j < length ct)%nat /\ forall i, ~ one_host bt ct (inl i) (inr j)) as Hrest.
  { intros j. unfold rest. rewrite unreached_spec. destruct Hc as (Hl & _). split.
    - intros Hj. split; [apply lookup_lt_Some in Hj; lia|]. intros i Hh. assert (in_range (inl i)) as Hi.
      { apply (one_host_in_range (inr j)); [by apply one_host_sym|]. cbn. apply lookup_lt_Some in Hj. lia. }
      apply Hall, Hsb in Hi as (s & Hs & Hi). assert (seen c j) as Hseen by (apply Hsc; exists s; split; [done|by transitivity (inl i : nat + nat)]).
      unfold seen in Hseen. congruence.
    - intros [Hj Hno]. destruct (lookup_lt_is_Some_2 (sd_seen c) j) as [[] E]; [lia| |done]. apply Hsc in E as (s & _ & Hh). by destruct (Hno s). }
  assert (StronglySorted (fun x y => component_leb x y = true) (comps ++ ((fun j => mkComponent [] [j]) <$> rest))) as Hsorted.
  { apply StronglySorted_app_2; [|by apply (opened_sorted starts); [..|intros s []%Hstarts]|].
    - intros k k' Hk (j & -> & Hj)%list_elem_of_fmap. destruct (opened_first starts comps k Hdesc) as (s & l & Hs & E); [by intros s []%Hstarts|done|].
      unfold component_leb. rewrite E. cbn [first_or_max cp_baseline]. apply Hstarts in Hs as [Hs _]. apply orb_true_iff. left. apply Z.ltb_lt. lia.
    - apply sorted_fmap. eapply sorted_weaken; [|apply filter_seq_sorted]. intros x y _ _ Hxy. unfold component_leb. cbn [first_or_max cp_baseline cp_current].
      apply orb_true_iff. right. apply andb_true_iff. rewrite Z.leb_le. split; [apply Z.eqb_refl|lia]. }
  exists (comps ++ ((fun j => mkComponent [] [j]) <$> rest)), ((inl <$> starts) ++ (inr <$> rest)). split_and!; [by rewrite sort_by_sorted_id| | |done|].
  - exists starts, rest. split_and!; [done|done|done|apply filter_seq_sorted|done].
  - apply Forall2_app; [done|]. rewrite Forall2_fmap. apply Forall_Forall2_diag, Forall_forall. intros j [Hj Hno]%Hrest.
    split_and!; cbn; [constructor|repeat constructor|]. intros y. split.
    + destruct y as [i|j']; cbn; [by intros ?%elem_of_nil|]. intros ->%list_elem_of_singleton. reflexivity.
    + intros ->%alone_is_host; [|done]. by left.
  - setoid_rewrite elem_of_app. intros [i|j] Hx; cbn in Hx.
    + apply Hall, Hsb in Hx as (s & Hs & Hh). exists (inl s). split; [left; by apply list_elem_of_fmap_2|done].
    + destruct (lookup_lt_is_Some_2 (sd_seen c) j) as [[] E]; [by destruct Hc as (-> & _)|..].
      * apply Hsc in E as (s & Hs & Hh). exists (inl s). split; [left; by apply list_elem_of_fmap_2|done].
      * exists (inr j). split; [right; apply list_elem_of_fmap_2; by apply unreached_spec|reflexivity].
Qed.

Lemma host_order_apart reps r r' : host_order reps -> r ∈ reps -> r' ∈ reps -> one_host bt ct r r' -> r = r'.
Proof.
  intros (starts & rest & -> & _ & Hstarts & _ & Hrest) Hr Hr' Hh. pose proof (one_host_sym _ _ _ _ Hh) as Hh'.
  apply elem_of_app in Hr as [(s & -> & Hs)%list_elem_of_fmap|(j & -> & Hj)%list_elem_of_fmap], Hr' as [(s' & -> & Hs')%list_elem_of_fmap|(j' & -> & Hj')%list_elem_of_fmap].
  - apply Hstarts in Hs as [_ Hs], Hs' as [_ Hs']. destruct (lt_eq_lt_dec s s') as [[Hlt|]|Hlt]; [by destruct (Hs' s Hlt)|by subst|by destruct (Hs s' Hlt)].
  - apply Hrest in Hj' as [_ Hno]. by destruct (Hno s).
  - apply Hrest in Hj as [_ Hno]. by destruct (Hno s').
  - apply Hrest in Hj as [_ Hno]. by apply alone_is_host in Hh.
Qed.

Lemma sorted_lt_nodup l : StronglySorted lt l -> NoDup l.
Proof. induction 1 as [|a l _ IH Ha]; constructor; [|done]. intros Hin. rewrite Forall_forall in Ha. specialize (Ha a Hin). lia. Qed.

Lemma sorted_lt_ext l l' : StronglySorted lt l -> StronglySorted lt l' -> (forall i, i ∈ l <-> i ∈ l') -> l = l'.
Proof.
  intros Hl Hl' Hi. assert (AntiSymm (=) lt) as Hanti by (intros x y; lia). apply (StronglySorted_unique lt); [done|done|].
  apply NoDup_Permutation; [by apply sorted_lt_nodup|by apply sorted_lt_nodup|done].
Qed.

Lemma host_order_unique reps reps' : host_order reps -> host_order reps' -> reps = reps'.
Proof.
  intros (starts & rest & -> & Hs & Hstarts & Hr & Hrest) (starts' & rest' & -> & Hs' & Hstarts' & Hr' & Hrest').
  assert (starts = starts') as -> by (apply sorted_lt_ext; [done|done|]; intros i; by rewrite Hstarts, Hstarts').
  assert (rest = rest') as -> by (apply sorted_lt_ext; [done|done|]; intros i; by rewrite Hrest, Hrest'). done.
Qed.

Lemma host_order_nodup reps : host_order reps -> NoDup reps.
Proof.
  intros (starts & rest & -> & Hs & _ & Hr & _). apply NoDup_app. split_and!.
  - apply NoDup_fmap_2; [intros ? ? [=]; done|by apply sorted_lt_nodup].
  - by intros x (s & -> & _)%list_elem_of_fmap (j & [=] & _)%list_elem_of_fmap.
  - apply NoDup_fmap_2; [intros ? ? [=]; done|by apply sorted_lt_nodup].
Qed.

Lemma describes_unique c c' r : describes bt ct c r -> describes bt ct c' r -> c = c'.
Proof.
  destruct c as [b c], c' as [b' c']. intros (Hb & Hc & Hw) (Hb' & Hc' & Hw'). cbn in *. f_equal; (apply sorted_lt_ext; [done|done|]); intros i.
  - change (i ∈ b) with (within (mkComponent b c) (inl i)). rewrite Hw. symmetry. apply (Hw' (inl i)).
  - change (i ∈ c) with (within (mkComponent b c) (inr i)). rewrite Hw. symmetry. apply (Hw' (inr i)).
Qed.
End Hosts.

(** Nothing rests on the order the sets of tokens happen to be walked in. *)
Lemma components_walk_free walk walk' bt ct :
  (forall s, Permutation (walk s) (elements s)) -> (forall s, Permutation (walk' s) (elements s)) -> (Z.of_nat (length bt) < 2 ^ 64)%Z ->
  components_of walk bt ct = components_of walk' bt ct.
Proof.
  intros Hwalk Hwalk' Hlen. destruct (components_listed bt ct walk Hwalk Hlen) as (cs & reps & -> & Hreps & Hdesc & _).
  destruct (components_listed bt ct walk' Hwalk' Hlen) as (cs' & reps' & -> & Hreps' & Hdesc' & _).
  rewrite (host_order_unique bt ct reps' reps Hreps' Hreps) in Hdesc'. f_equal. apply list_eq. intros k.
  destruct (cs !! k) as [c|] eqn:Ek; cycle 1.
  { apply lookup_ge_None in Ek. symmetry. apply lookup_ge_None. rewrite (Forall2_length _ _ _ Hdesc'). by rewrite <- (Forall2_length _ _ _ Hdesc). }
  destruct (Forall2_lookup_l _ _ _ _ _ Hdesc Ek) as (r & Hr & Hd). destruct (Forall2_lookup_r _ _ _ _ _ Hdesc' Hr) as (c' & -> & Hd').
  f_equal. by apply (describes_unique bt ct c c' r).
Qed.

(** C16: Two scans pair as one list of hosts.  Whatever order the sets of tokens are walked in,
    the flood fill ends and returns, with no index out of bounds, the same components: every
    record of either scan is in exactly one, two records are in the same one just when a chain
    of shared tokens that crosses from scan to scan leads from one to the other, both sides of
    a component are ascending, and the list is ascending by lowest baseline record and then by
    lowest current one. *)
Theorem components_are_hosts baseline current identity :
  (Z.of_nat (length baseline) < 2 ^ 64)%Z ->
  let bt := (fun h => tokens h identity) <$> baseline in
  let ct := (fun h => tokens h identity) <$> current in
  exists cs,
    (forall walk, (forall s, Permutation (walk s) (elements s)) -> components walk baseline current identity = Some cs) /\
    (forall x, in_range bt ct x -> exists c, c ∈ cs /\ within c x) /\
    (forall k k' c c' x, cs !! k = Some c -> cs !! k' = Some c' -> within c x -> within c' x -> k = k') /\
    (forall x y, in_range bt ct x -> (exists c, c ∈ cs /\ within c x /\ within c y) <-> one_host bt ct x y) /\
    Forall (fun c => StronglySorted lt (cp_baseline c) /\ StronglySorted lt (cp_current c)) cs /\
    StronglySorted (fun x y => component_leb x y = true) cs.
Proof.
  intros Hlen bt ct. assert (Z.of_nat (length bt) < 2 ^ 64)%Z as Hfits by (unfold bt; by rewrite length_fmap).
  assert (forall s : gset Token, Permutation (elements s) (elements s)) as Hid by done.
  destruct (components_listed bt ct elements Hid Hfits) as (cs & reps & E & Hreps & Hdesc & Hsorted & Hcover).
  exists cs. assert (forall x, in_range bt ct x -> exists c r, c ∈ cs /\ describes bt ct c r /\ one_host bt ct r x) as Hin.
  { intros x (r & [k Hr]%list_elem_of_lookup & Hh)%Hcover. destruct (Forall2_lookup_r _ _ _ _ _ Hdesc Hr) as (c & Hc%list_elem_of_lookup_2 & Hd). by exists c, r. }
  assert (forall c, c ∈ cs -> exists r, describes bt ct c r) as Hrep.
  { intros c [k Hk]%list_elem_of_lookup. destruct (Forall2_lookup_l _ _ _ _ _ Hdesc Hk) as (r & _ & Hd). by exists r. }
  split_and!; [| | | | |done].
  - intros walk Hwalk. unfold components. by rewrite (components_walk_free walk elements).
  - intros x (c & r & Hc & (_ & _ & Hw) & Hh)%Hin. exists c. split; [done|by apply Hw].
  - intros k k' c c' x Hk Hk' Hx Hx'. destruct (Forall2_lookup_l _ _ _ _ _ Hdesc Hk) as (r & Hr & _ & _ & Hw), (Forall2_lookup_l _ _ _ _ _ Hdesc Hk') as (r' & Hr' & _ & _ & Hw').
    apply Hw in Hx. apply Hw' in Hx'. assert (r = r') as <-.
    { apply (host_order_apart bt ct reps); [done|by eapply list_elem_of_lookup_2|by eapply list_elem_of_lookup_2|]. transitivity x; [done|by apply one_host_sym]. }
    eapply NoDup_lookup; [by apply (host_order_nodup bt ct reps)|done|done].
  - intros x y Hx. split.
    + intros (c & (r & _ & _ & Hw)%Hrep & Hcx%Hw & Hcy%Hw). transitivity r; [by apply one_host_sym|done].
    + intros Hxy. destruct (Hin x Hx) as (c & r & Hc & (_ & _ & Hw) & Hh). exists c. rewrite !Hw. split_and!; [done|done|by transitivity x].
  - apply Forall_forall. intros c (r & ? & ? & _)%Hrep. done.
Qed.

(** Two baseline records that share nothing, and a current one with the address of each. *)
Definition sample_baseline : list Host := [host_new 0 (V4 1); host_new 0 (V4 2); host_new 0 (V4 3)].
Definition sample_current : list Host :=
  [host_new 0 (V4 9); fst (host_add_ip 0 (V4 2) (host_new 0 (V4 1)))].

Lemma components_are_hosts_witness :
  components elements sample_baseline sample_current AnyAddress = Some [mkComponent [0; 1] [1]; mkComponent [2] []; mkComponent [] [0]].
Proof.
  destruct (components_are_hosts sample_baseline sample_current AnyAddress) as (cs & Hcs & _); [cbn; lia|].
  rewrite (Hcs elements (fun s => Permutation_refl _)). rewrite <- (Hcs elements (fun s => Permutation_refl _)). vm_compute. reflexivity.
Defined.
