(* ===== verification/Suites.v ===== *)
(** * Cipher suites and what is reported of them

    The registry of [model/tls.rs]: every suite the engine offers with the four parts that
    decide what it is worth, the faults read off the parts and the grade they come to; and on
    top of [TlsSupport], the findings drawn from what an endpoint accepts, where a record
    leaves a claim drawn from another one, and how it words it.  A suite is constructed by the
    registry alone, so that [TlsSupport] keeps its number and the suite is looked up here.  The
    version of the build and the digest of the registry, which stamp every finding, are
    parameters. *)

From Stdlib Require Import ZArith Lia Sorting.Sorted Strings.String.
From stdpp Require Import base numbers option list gmap.
From S2P Require Import Prelude Std Text Tls TlsSupport Finding Backport.

Local Open Scope Z_scope.

(** ** What a suite is made of *)

Inductive KeyExchange := KEcdhe | KDhe | KRsa | KEcdh | KAnonymous | KNegotiated.

Inductive Authentication := ARsa | AEcdsa | ADss | AAnonymous | ANegotiated.

Inductive BulkCipher :=
  | AesGcm (bits : Z) | AesCcm (bits : Z) (short_tag : bool) | ChaCha20Poly1305 | AesCbc (bits : Z) | CamelliaCbc (bits : Z)
  | TripleDes | Des | CRc4 | SeedCbc | IdeaCbc | CNull.

Inductive RecordMac := MAead | MMd5 | MSha1 | MSha256 | MSha384 | MNull.

Definition is_forward_secret (k : KeyExchange) : bool :=
  match k with KEcdhe | KDhe | KAnonymous | KNegotiated => true | KRsa | KEcdh => false end.

Definition is_aead (c : BulkCipher) : bool := match c with AesGcm _ | AesCcm _ _ | ChaCha20Poly1305 => true | _ => false end.

Definition is_cbc (c : BulkCipher) : bool :=
  match c with AesCbc _ | CamelliaCbc _ | TripleDes | Des | SeedCbc | IdeaCbc => true | _ => false end.

Definition has_64_bit_block (c : BulkCipher) : bool := match c with TripleDes | Des | IdeaCbc => true | _ => false end.

Inductive SuiteFault :=
  | NoForwardSecrecy | Sha1Mac | CbcMode | SmallBlock | FaultRc4 | Md5Mac | FaultExport | FaultAnonymous | NullCipher.

#[export] Instance SuiteFault_eq_dec : EqDecision SuiteFault.
Proof. solve_decision. Defined.

(** Least costly first. *)
Definition SuiteFault_ALL : list SuiteFault :=
  [NoForwardSecrecy; Sha1Mac; CbcMode; SmallBlock; FaultRc4; Md5Mac; FaultExport; FaultAnonymous; NullCipher].

Definition fault_summary (f : SuiteFault) : text :=
  match f with
  | NoForwardSecrecy => lit "the server's long-term key decrypts every session recorded under it"
  | Sha1Mac => lit "records are authenticated with HMAC-SHA-1"
  | CbcMode => lit "CBC with a separate MAC, the construction behind Lucky13 and BEAST"
  | SmallBlock => lit "a 64-bit block, which Sweet32 recovers plaintext from"
  | FaultRc4 => lit "RC4, prohibited by RFC 7465"
  | Md5Mac => lit "records are authenticated with HMAC-MD5"
  | FaultExport => lit "a deliberately shortened key, from the export era"
  | FaultAnonymous => lit "nothing authenticates the server"
  | NullCipher => lit "records are not encrypted"
  end.

Definition fault_severity (f : SuiteFault) : Severity :=
  match f with
  | NullCipher | FaultAnonymous | FaultExport => High
  | FaultRc4 | SmallBlock | Md5Mac => Medium
  | CbcMode | Sha1Mac | NoForwardSecrecy => Low
  end.

Definition is_disqualifying (f : SuiteFault) : bool :=
  match f with SmallBlock | FaultRc4 | Md5Mac | FaultExport | FaultAnonymous | NullCipher => true | _ => false end.

Inductive SuiteStrength := SuiteStrong | SuiteWeak | SuiteInsecure.

(** ** The registry *)

Record CipherSuite := mkSuite {
  cs_code : Z;
  cs_name : text;
  cs_kex : KeyExchange;
  cs_auth : Authentication;
  cs_cipher : BulkCipher;
  cs_mac : RecordMac;
  cs_export : bool;
}.

(** The two arms of [suite!]. *)
Definition suite (code : Z) (name : text) (kex : KeyExchange) (auth : Authentication) (cipher : BulkCipher) (mac : RecordMac) : CipherSuite :=
  mkSuite code name kex auth cipher mac false.

Definition export_suite (code : Z) (name : text) (kex : KeyExchange) (auth : Authentication) (cipher : BulkCipher) (mac : RecordMac) : CipherSuite :=
  mkSuite code name kex auth cipher mac true.

(** TLS 1.3 (RFC 8446 section B.4). *)
Definition tls13_suites : list CipherSuite :=
  [suite 0x1302 (lit "TLS_AES_256_GCM_SHA384") KNegotiated ANegotiated (AesGcm 256) MAead;
   suite 0x1303 (lit "TLS_CHACHA20_POLY1305_SHA256") KNegotiated ANegotiated ChaCha20Poly1305 MAead;
   suite 0x1301 (lit "TLS_AES_128_GCM_SHA256") KNegotiated ANegotiated (AesGcm 128) MAead;
   suite 0x1304 (lit "TLS_AES_128_CCM_SHA256") KNegotiated ANegotiated (AesCcm 128 false) MAead;
   suite 0x1305 (lit "TLS_AES_128_CCM_8_SHA256") KNegotiated ANegotiated (AesCcm 128 true) MAead].

(** ECDHE with AEAD (RFC 5289, RFC 7905). *)
Definition ecdhe_aead_suites : list CipherSuite :=
  [suite 0xC030 (lit "TLS_ECDHE_RSA_WITH_AES_256_GCM_SHA384") KEcdhe ARsa (AesGcm 256) MAead;
   suite 0xC02C (lit "TLS_ECDHE_ECDSA_WITH_AES_256_GCM_SHA384") KEcdhe AEcdsa (AesGcm 256) MAead;
   suite 0xC02F (lit "TLS_ECDHE_RSA_WITH_AES_128_GCM_SHA256") KEcdhe ARsa (AesGcm 128) MAead;
   suite 0xC02B (lit "TLS_ECDHE_ECDSA_WITH_AES_128_GCM_SHA256") KEcdhe AEcdsa (AesGcm 128) MAead;
   suite 0xCCA8 (lit "TLS_ECDHE_RSA_WITH_CHACHA20_POLY1305_SHA256") KEcdhe ARsa ChaCha20Poly1305 MAead;
   suite 0xCCA9 (lit "TLS_ECDHE_ECDSA_WITH_CHACHA20_POLY1305_SHA256") KEcdhe AEcdsa ChaCha20Poly1305 MAead].

(** DHE with AEAD (RFC 5288, RFC 7905). *)
Definition dhe_aead_suites : list CipherSuite :=
  [suite 0x009F (lit "TLS_DHE_RSA_WITH_AES_256_GCM_SHA384") KDhe ARsa (AesGcm 256) MAead;
   suite 0x009E (lit "TLS_DHE_RSA_WITH_AES_128_GCM_SHA256") KDhe ARsa (AesGcm 128) MAead;
   suite 0xCCAA (lit "TLS_DHE_RSA_WITH_CHACHA20_POLY1305_SHA256") KDhe ARsa ChaCha20Poly1305 MAead].

(** Static RSA with AEAD (RFC 5288). *)
Definition rsa_aead_suites : list CipherSuite :=
  [suite 0x009D (lit "TLS_RSA_WITH_AES_256_GCM_SHA384") KRsa ARsa (AesGcm 256) MAead;
   suite 0x009C (lit "TLS_RSA_WITH_AES_128_GCM_SHA256") KRsa ARsa (AesGcm 128) MAead].

(** ECDHE with CBC and a SHA-2 MAC (RFC 5289). *)
Definition ecdhe_sha2_suites : list CipherSuite :=
  [suite 0xC028 (lit "TLS_ECDHE_RSA_WITH_AES_256_CBC_SHA384") KEcdhe ARsa (AesCbc 256) MSha384;
   suite 0xC024 (lit "TLS_ECDHE_ECDSA_WITH_AES_256_CBC_SHA384") KEcdhe AEcdsa (AesCbc 256) MSha384;
   suite 0xC027 (lit "TLS_ECDHE_RSA_WITH_AES_128_CBC_SHA256") KEcdhe ARsa (AesCbc 128) MSha256;
   suite 0xC023 (lit "TLS_ECDHE_ECDSA_WITH_AES_128_CBC_SHA256") KEcdhe AEcdsa (AesCbc 128) MSha256].

(** DHE and static RSA with CBC and a SHA-2 MAC (RFC 5246). *)
Definition sha2_suites : list CipherSuite :=
  [suite 0x006B (lit "TLS_DHE_RSA_WITH_AES_256_CBC_SHA256") KDhe ARsa (AesCbc 256) MSha256;
   suite 0x0067 (lit "TLS_DHE_RSA_WITH_AES_128_CBC_SHA256") KDhe ARsa (AesCbc 128) MSha256;
   suite 0x003D (lit "TLS_RSA_WITH_AES_256_CBC_SHA256") KRsa ARsa (AesCbc 256) MSha256;
   suite 0x003C (lit "TLS_RSA_WITH_AES_128_CBC_SHA256") KRsa ARsa (AesCbc 128) MSha256;
   suite 0x006A (lit "TLS_DHE_DSS_WITH_AES_256_CBC_SHA256") KDhe ADss (AesCbc 256) MSha256;
   suite 0x0040 (lit "TLS_DHE_DSS_WITH_AES_128_CBC_SHA256") KDhe ADss (AesCbc 128) MSha256].

(** CBC with a SHA-1 MAC (RFC 5246, RFC 4492). *)
Definition sha1_suites : list CipherSuite :=
  [suite 0xC014 (lit "TLS_ECDHE_RSA_WITH_AES_256_CBC_SHA") KEcdhe ARsa (AesCbc 256) MSha1;
   suite 0xC00A (lit "TLS_ECDHE_ECDSA_WITH_AES_256_CBC_SHA") KEcdhe AEcdsa (AesCbc 256) MSha1;
   suite 0xC013 (lit "TLS_ECDHE_RSA_WITH_AES_128_CBC_SHA") KEcdhe ARsa (AesCbc 128) MSha1;
   suite 0xC009 (lit "TLS_ECDHE_ECDSA_WITH_AES_128_CBC_SHA") KEcdhe AEcdsa (AesCbc 128) MSha1;
   suite 0x0039 (lit "TLS_DHE_RSA_WITH_AES_256_CBC_SHA") KDhe ARsa (AesCbc 256) MSha1;
   suite 0x0033 (lit "TLS_DHE_RSA_WITH_AES_128_CBC_SHA") KDhe ARsa (AesCbc 128) MSha1;
   suite 0x0038 (lit "TLS_DHE_DSS_WITH_AES_256_CBC_SHA") KDhe ADss (AesCbc 256) MSha1;
   suite 0x0032 (lit "TLS_DHE_DSS_WITH_AES_128_CBC_SHA") KDhe ADss (AesCbc 128) MSha1;
   suite 0x0035 (lit "TLS_RSA_WITH_AES_256_CBC_SHA") KRsa ARsa (AesCbc 256) MSha1;
   suite 0x002F (lit "TLS_RSA_WITH_AES_128_CBC_SHA") KRsa ARsa (AesCbc 128) MSha1].

(** Static ECDH (RFC 4492). *)
Definition static_ecdh_suites : list CipherSuite :=
  [suite 0xC00F (lit "TLS_ECDH_RSA_WITH_AES_256_CBC_SHA") KEcdh ARsa (AesCbc 256) MSha1;
   suite 0xC00E (lit "TLS_ECDH_RSA_WITH_AES_128_CBC_SHA") KEcdh ARsa (AesCbc 128) MSha1;
   suite 0xC005 (lit "TLS_ECDH_ECDSA_WITH_AES_256_CBC_SHA") KEcdh AEcdsa (AesCbc 256) MSha1;
   suite 0xC004 (lit "TLS_ECDH_ECDSA_WITH_AES_128_CBC_SHA") KEcdh AEcdsa (AesCbc 128) MSha1].

(** Camellia and SEED (RFC 5932, RFC 4162). *)
Definition camellia_seed_suites : list CipherSuite :=
  [suite 0x0088 (lit "TLS_DHE_RSA_WITH_CAMELLIA_256_CBC_SHA") KDhe ARsa (CamelliaCbc 256) MSha1;
   suite 0x0084 (lit "TLS_RSA_WITH_CAMELLIA_256_CBC_SHA") KRsa ARsa (CamelliaCbc 256) MSha1;
   suite 0x0045 (lit "TLS_DHE_RSA_WITH_CAMELLIA_128_CBC_SHA") KDhe ARsa (CamelliaCbc 128) MSha1;
   suite 0x0041 (lit "TLS_RSA_WITH_CAMELLIA_128_CBC_SHA") KRsa ARsa (CamelliaCbc 128) MSha1;
   suite 0x0096 (lit "TLS_RSA_WITH_SEED_CBC_SHA") KRsa ARsa SeedCbc MSha1].

(** Triple DES (RFC 5246, RFC 4492). *)
Definition triple_des_suites : list CipherSuite :=
  [suite 0xC012 (lit "TLS_ECDHE_RSA_WITH_3DES_EDE_CBC_SHA") KEcdhe ARsa TripleDes MSha1;
   suite 0xC008 (lit "TLS_ECDHE_ECDSA_WITH_3DES_EDE_CBC_SHA") KEcdhe AEcdsa TripleDes MSha1;
   suite 0x0016 (lit "TLS_DHE_RSA_WITH_3DES_EDE_CBC_SHA") KDhe ARsa TripleDes MSha1;
   suite 0x0013 (lit "TLS_DHE_DSS_WITH_3DES_EDE_CBC_SHA") KDhe ADss TripleDes MSha1;
   suite 0x000A (lit "TLS_RSA_WITH_3DES_EDE_CBC_SHA") KRsa ARsa TripleDes MSha1;
   suite 0xC00D (lit "TLS_ECDH_RSA_WITH_3DES_EDE_CBC_SHA") KEcdh ARsa TripleDes MSha1;
   suite 0x0007 (lit "TLS_RSA_WITH_IDEA_CBC_SHA") KRsa ARsa IdeaCbc MSha1].

(** RC4 (RFC 7465 prohibits every one of these). *)
Definition rc4_suites : list CipherSuite :=
  [suite 0xC011 (lit "TLS_ECDHE_RSA_WITH_RC4_128_SHA") KEcdhe ARsa CRc4 MSha1;
   suite 0xC007 (lit "TLS_ECDHE_ECDSA_WITH_RC4_128_SHA") KEcdhe AEcdsa CRc4 MSha1;
   suite 0x0005 (lit "TLS_RSA_WITH_RC4_128_SHA") KRsa ARsa CRc4 MSha1;
   suite 0x0004 (lit "TLS_RSA_WITH_RC4_128_MD5") KRsa ARsa CRc4 MMd5;
   suite 0xC016 (lit "TLS_ECDH_anon_WITH_RC4_128_SHA") KAnonymous AAnonymous CRc4 MSha1;
   suite 0x0018 (lit "TLS_DH_anon_WITH_RC4_128_MD5") KAnonymous AAnonymous CRc4 MMd5].

(** Anonymous key exchange (RFC 5246 section A.5, RFC 4492). *)
Definition anonymous_suites : list CipherSuite :=
  [suite 0x006D (lit "TLS_DH_anon_WITH_AES_256_CBC_SHA256") KAnonymous AAnonymous (AesCbc 256) MSha256;
   suite 0x006C (lit "TLS_DH_anon_WITH_AES_128_CBC_SHA256") KAnonymous AAnonymous (AesCbc 128) MSha256;
   suite 0x003A (lit "TLS_DH_anon_WITH_AES_256_CBC_SHA") KAnonymous AAnonymous (AesCbc 256) MSha1;
   suite 0x0034 (lit "TLS_DH_anon_WITH_AES_128_CBC_SHA") KAnonymous AAnonymous (AesCbc 128) MSha1;
   suite 0xC019 (lit "TLS_ECDH_anon_WITH_AES_256_CBC_SHA") KAnonymous AAnonymous (AesCbc 256) MSha1;
   suite 0xC018 (lit "TLS_ECDH_anon_WITH_AES_128_CBC_SHA") KAnonymous AAnonymous (AesCbc 128) MSha1;
   suite 0x001B (lit "TLS_DH_anon_WITH_3DES_EDE_CBC_SHA") KAnonymous AAnonymous TripleDes MSha1;
   suite 0xC017 (lit "TLS_ECDH_anon_WITH_3DES_EDE_CBC_SHA") KAnonymous AAnonymous TripleDes MSha1].

(** No encryption (RFC 5246, RFC 4492). *)
Definition null_suites : list CipherSuite :=
  [suite 0x003B (lit "TLS_RSA_WITH_NULL_SHA256") KRsa ARsa CNull MSha256;
   suite 0x0002 (lit "TLS_RSA_WITH_NULL_SHA") KRsa ARsa CNull MSha1;
   suite 0x0001 (lit "TLS_RSA_WITH_NULL_MD5") KRsa ARsa CNull MMd5;
   suite 0xC010 (lit "TLS_ECDHE_RSA_WITH_NULL_SHA") KEcdhe ARsa CNull MSha1;
   suite 0xC006 (lit "TLS_ECDHE_ECDSA_WITH_NULL_SHA") KEcdhe AEcdsa CNull MSha1;
   suite 0xC001 (lit "TLS_ECDH_ECDSA_WITH_NULL_SHA") KEcdh AEcdsa CNull MSha1;
   suite 0xC00B (lit "TLS_ECDH_RSA_WITH_NULL_SHA") KEcdh ARsa CNull MSha1;
   suite 0xC015 (lit "TLS_ECDH_anon_WITH_NULL_SHA") KAnonymous AAnonymous CNull MSha1].

(** Export grade (RFC 4346 section A.5, withdrawn in RFC 5246). *)
Definition export_suites : list CipherSuite :=
  [export_suite 0x0003 (lit "TLS_RSA_EXPORT_WITH_RC4_40_MD5") KRsa ARsa CRc4 MMd5;
   export_suite 0x0006 (lit "TLS_RSA_EXPORT_WITH_RC2_CBC_40_MD5") KRsa ARsa Des MMd5;
   export_suite 0x0008 (lit "TLS_RSA_EXPORT_WITH_DES40_CBC_SHA") KRsa ARsa Des MSha1;
   export_suite 0x0014 (lit "TLS_DHE_RSA_EXPORT_WITH_DES40_CBC_SHA") KDhe ARsa Des MSha1;
   export_suite 0x0011 (lit "TLS_DHE_DSS_EXPORT_WITH_DES40_CBC_SHA") KDhe ADss Des MSha1;
   export_suite 0x0017 (lit "TLS_DH_anon_EXPORT_WITH_RC4_40_MD5") KAnonymous AAnonymous CRc4 MMd5;
   export_suite 0x0019 (lit "TLS_DH_anon_EXPORT_WITH_DES40_CBC_SHA") KAnonymous AAnonymous Des MSha1].

(** Single DES (RFC 4346 section A.5). *)
Definition des_suites : list CipherSuite :=
  [suite 0x0009 (lit "TLS_RSA_WITH_DES_CBC_SHA") KRsa ARsa Des MSha1;
   suite 0x0015 (lit "TLS_DHE_RSA_WITH_DES_CBC_SHA") KDhe ARsa Des MSha1;
   suite 0x0012 (lit "TLS_DHE_DSS_WITH_DES_CBC_SHA") KDhe ADss Des MSha1;
   suite 0x001A (lit "TLS_DH_anon_WITH_DES_CBC_SHA") KAnonymous AAnonymous Des MSha1].

Definition CipherSuite_ALL : list CipherSuite :=
  tls13_suites ++ ecdhe_aead_suites ++ dhe_aead_suites ++ rsa_aead_suites ++ ecdhe_sha2_suites ++ sha2_suites ++ sha1_suites ++ static_ecdh_suites ++ camellia_seed_suites ++ triple_des_suites ++ rc4_suites ++ anonymous_suites ++ null_suites ++ export_suites ++ des_suites.

Definition has_fault (s : CipherSuite) (f : SuiteFault) : bool :=
  match f with
  | NoForwardSecrecy => negb (is_forward_secret (cs_kex s))
  | Sha1Mac => match cs_mac s with MSha1 => true | _ => false end
  | CbcMode => is_cbc (cs_cipher s)
  | SmallBlock => has_64_bit_block (cs_cipher s)
  | FaultRc4 => match cs_cipher s with CRc4 => true | _ => false end
  | Md5Mac => match cs_mac s with MMd5 => true | _ => false end
  | FaultExport => cs_export s
  | FaultAnonymous => match cs_auth s with AAnonymous => true | _ => false end
  | NullCipher => match cs_cipher s with CNull => true | _ => false end
  end.

Definition suite_faults (s : CipherSuite) : list SuiteFault := filter (fun f => has_fault s f = true) SuiteFault_ALL.

(** The last of them that the suite has. *)
Definition worst_fault (s : CipherSuite) : option SuiteFault := last (suite_faults s).

Definition strength (s : CipherSuite) : SuiteStrength :=
  match worst_fault s with
  | None => SuiteStrong
  | Some f => if is_disqualifying f then SuiteInsecure else SuiteWeak
  end.

Definition is_offered_under (s : CipherSuite) (v : TlsVersion) : bool :=
  let tls13_suite := match cs_kex s with KNegotiated => true | _ => false end in
  match v with
  | Tls13 => tls13_suite
  | Ssl30 | Tls10 | Tls11 => negb tls13_suite && match cs_mac s with MMd5 | MSha1 | MNull => true | _ => false end
  | Tls12 => negb tls13_suite
  end.

Definition suite_from_code (code : Z) : option CipherSuite := head (filter (fun s => cs_code s = code) CipherSuite_ALL).

Definition offered_under (v : TlsVersion) : list CipherSuite := filter (fun s => is_offered_under s v = true) CipherSuite_ALL.

Definition TlsVersion_ALL : list TlsVersion := [Ssl30; Tls10; Tls11; Tls12; Tls13].

Definition MOST_OFFERED_UNDER_ONE_VERSION : nat :=
  foldl (fun most v => let offered := length (offered_under v) in if (most <? offered)%nat then offered else most) 0%nat TlsVersion_ALL.

(** ** What the registry keeps *)

Lemma fault_listed f : f ∈ SuiteFault_ALL.
Proof. destruct f; unfold SuiteFault_ALL; set_solver. Qed.

Lemma elem_of_suite_faults s f : f ∈ suite_faults s <-> has_fault s f = true.
Proof. unfold suite_faults. rewrite list_elem_of_filter. pose proof (fault_listed f). tauto. Qed.

(** The disqualifying faults are the costliest, so the worst tells. *)
Lemma worst_fault_disqualifies s :
  match worst_fault s with
  | None => suite_faults s = []
  | Some f => has_fault s f = true /\ (is_disqualifying f = false -> forall g, has_fault s g = true -> is_disqualifying g = false)
  end.
Proof.
  unfold worst_fault. destruct (last (suite_faults s)) as [f|] eqn:E; [|by apply last_None].
  split; [apply elem_of_suite_faults; by apply last_Some_elem_of|]. intros Hf g Hg%elem_of_suite_faults. revert E Hg. unfold suite_faults.
  change SuiteFault_ALL with ([NoForwardSecrecy; Sha1Mac; CbcMode] ++ [SmallBlock; FaultRc4; Md5Mac; FaultExport; FaultAnonymous; NullCipher]).
  rewrite filter_app, last_app. destruct (last (filter _ [SmallBlock; FaultRc4; _; _; _; _])) as [h|] eqn:Eh.
  - intros [= ->]. apply last_Some_elem_of, list_elem_of_filter in Eh as [_ Eh]. exfalso. revert Hf Eh. clear. destruct f; cbn; try done; set_solver.
  - apply last_None in Eh. rewrite Eh, app_nil_r. intros _ [_ Hg]%list_elem_of_filter. revert Hg. clear. destruct g; cbn; try done; set_solver.
Qed.

(** The grade is the faults': what has none is strong, what has a disqualifying one, whichever
    else it has, is insecure, and the rest is weak. *)
Theorem strength_is_its_faults s :
  (strength s = SuiteStrong <-> suite_faults s = []) /\
  (strength s = SuiteInsecure <-> exists f, has_fault s f = true /\ is_disqualifying f = true).
Proof.
  pose proof (worst_fault_disqualifies s) as Hw. unfold strength. destruct (worst_fault s) as [f|] eqn:E.
  - destruct Hw as [Hf Hw]. assert (suite_faults s <> []) as Hne by (intros Hn; apply elem_of_suite_faults in Hf; rewrite Hn in Hf; by apply elem_of_nil in Hf).
    destruct (is_disqualifying f) eqn:Ef; (split; [split; done|]); (split; [|]); try done; [intros _; by exists f|].
    intros (g & Hg & Hd). rewrite (Hw eq_refl g Hg) in Hd. done.
  - split; [done|]. split; [done|]. intros (g & Hg%elem_of_suite_faults & _). rewrite Hw in Hg. by apply elem_of_nil in Hg.
Qed.

(** Every number and every name is in the registry once, a number is the suite it was given
    to, and every suite is offered under TLS 1.2 or under TLS 1.3 and not under both. *)
Theorem registry_is_unambiguous :
  NoDup (cs_code <$> CipherSuite_ALL) /\ NoDup (cs_name <$> CipherSuite_ALL) /\
  (forall s, s ∈ CipherSuite_ALL -> fits 16 (cs_code s) /\ suite_from_code (cs_code s) = Some s /\ is_offered_under s Tls13 = negb (is_offered_under s Tls12)) /\
  forall v, (length (offered_under v) <= MOST_OFFERED_UNDER_ONE_VERSION)%nat.
Proof.
  assert (NoDup (cs_code <$> CipherSuite_ALL)) as Hcodes by (refine (bool_decide_eq_true_1 _ _); vm_compute; reflexivity). split_and!; [done| | |].
  - refine (bool_decide_eq_true_1 _ _). vm_compute. reflexivity.
  - intros s Hs. split_and!.
    + assert (forallb (fun s => fitsb 16 (cs_code s)) CipherSuite_ALL = true) as Hall by (vm_compute; reflexivity).
      rewrite forallb_forall in Hall. apply fitsb_spec, Hall. by apply list_elem_of_In.
    + unfold suite_from_code. apply list_elem_of_lookup in Hs as [i Hi]. rewrite (filter_unique _ _ i s); [done|done|done|].
      intros j y Hj Hy. eapply NoDup_lookup; [exact Hcodes| |]; rewrite list_lookup_fmap, ?Hi, ?Hj; cbn; [by rewrite Hy|done].
    + unfold is_offered_under. by rewrite negb_involutive.
  - intros v. assert (forallb (fun v => (length (offered_under v) <=? MOST_OFFERED_UNDER_ONE_VERSION)%nat) TlsVersion_ALL = true) as Hall by (vm_compute; reflexivity).
    rewrite forallb_forall in Hall. apply Nat.leb_le, Hall, list_elem_of_In. destruct v; unfold TlsVersion_ALL; set_solver.
Qed.

(** ** What is drawn from what an endpoint accepts *)

Inductive Standing := Upheld | Overturned | Unsettled.

#[export] Instance FindingStanding_eq_dec : EqDecision Standing.
Proof. solve_decision. Defined.

Definition version_name (v : TlsVersion) : text :=
  match v with
  | Ssl30 => lit "SSLv3" | Tls10 => lit "TLSv1.0" | Tls11 => lit "TLSv1.1" | Tls12 => lit "TLSv1.2" | Tls13 => lit "TLSv1.3"
  end.

Definition is_deprecated (v : TlsVersion) : bool := match v with Ssl30 | Tls10 | Tls11 => true | Tls12 | Tls13 => false end.

Definition version_severity (v : TlsVersion) : option Severity :=
  match v with Ssl30 => Some High | Tls10 | Tls11 => Some Medium | Tls12 | Tls13 => None end.

Definition deprecated_by (v : TlsVersion) : option text :=
  match v with Ssl30 => Some (lit "RFC 7568") | Tls10 | Tls11 => Some (lit "RFC 8996") | Tls12 | Tls13 => None end.

Definition DETECTION : text := lit "zond:tls".

Definition rfc_reference (document : text) : option Reference :=
  number ← strip_prefix (lit "RFC ") document; Some (Url (lit "https://www.rfc-editor.org/rfc/rfc" ++ number)).

Definition fault_reference (f : SuiteFault) : option Reference :=
  match f with
  | FaultRc4 => Some (Url (lit "https://www.rfc-editor.org/rfc/rfc7465"))
  | SmallBlock => reference_cve (lit "CVE-2016-2183")
  | _ => None
  end.

Definition deprecated_versions (s : TlsSupport) : list TlsVersion :=
  filter (fun v => is_deprecated v = true) (vs_version <$> ts_versions s).

(** The suites accepted under a version; one the registry does not hold cannot be among them. *)
Definition held_suites (held : VersionSupport) : list CipherSuite := omap suite_from_code (vs_suites held).

Definition support_faults (s : TlsSupport) : list SuiteFault :=
  filter (fun f => existsb (fun held => existsb (fun x => has_fault x f) (held_suites held)) (ts_versions s) = true) SuiteFault_ALL.

Definition push_new (l : list text) (x : text) : list text := if bool_decide (x ∈ l) then l else l ++ [x].

(** Each suite once, however many versions accept it. *)
Definition carriers (s : TlsSupport) (f : SuiteFault) : list text :=
  foldl push_new [] (cs_name <$> filter (fun x => has_fault x f = true) (ts_versions s ≫= held_suites)).

Definition with_optional_reference (r : option Reference) (f : Finding Build) : Finding Build :=
  match r with Some r => with_reference r f | None => f end.

Section Findings.
(** [CARGO_PKG_VERSION], and the digest of the registry. *)
Variable build_version : DetectionVersion.
Variable census : text.

Definition tls_detection : DetectionId := mkDetectionId DETECTION build_version census.

Definition version_finding (v : TlsVersion) : option (Finding Build) :=
  severity ← version_severity v;
  let withdrawn_by := default (lit "a published standard") (deprecated_by v) in
  match finding_new tls_detection (version_name v ++ lit " is still accepted") severity Certain ClassActiveBenign with
  | Err _ => None
  | Ok f =>
    Some (with_optional_reference (rfc_reference withdrawn_by)
      (with_excerpt (excerpt_new (lit "the endpoint answered a " ++ version_name v ++
         lit " hello by selecting a suite under it; " ++ withdrawn_by ++ lit " withdrew it")) f))
  end.

Definition fault_finding (carriers : list text) (fault : SuiteFault) : option (Finding Build) :=
  match finding_new tls_detection (lit "cipher suites accepted with " ++ fault_summary fault) (fault_severity fault) Certain ClassActiveBenign with
  | Err _ => None
  | Ok f =>
    Some (with_optional_reference (fault_reference fault)
      (with_excerpt (excerpt_new (show_uint (Z.of_nat (length carriers)) ++ lit " of the accepted suites carry this: " ++ join (lit ", ") carriers)) f))
  end.

(** [TlsSupport::findings]. *)
Definition support_findings (s : TlsSupport) : list (Finding Build) :=
  omap version_finding (deprecated_versions s) ++ omap (fun f => fault_finding (carriers s f) f) (support_faults s).

Definition claims (s : TlsSupport) : gset ClaimId := list_to_set (claim_id <$> support_findings s).

Definition accepting (held : VersionSupport) : TlsSupport := support_record support_new held.

Definition resting (s : TlsSupport) (claim : ClaimId) : list TlsVersion :=
  vs_version <$> filter (fun held => claim ∈ claims (accepting held)) (ts_versions s).

Definition leaves_open (s : TlsSupport) (v : TlsVersion) : bool :=
  support_is_empty s || existsb (fun held => bool_decide (uf_version held = v)) (ts_unfinished s).

(** [TlsSupport::standing]. *)
Definition support_standing (self : TlsSupport) (f : Finding Build) (basis : TlsSupport) : option Standing :=
  if negb (bool_decide (det_id (detection f) = DETECTION)) then None
  else
    let claim := claim_id f in
    match resting basis claim with
    | [] => None
    | rests_on =>
      if bool_decide (claim ∈ claims self) then Some Upheld
      else if existsb (leaves_open self) rests_on then Some Unsettled else Some Overturned
    end.

Definition drawn_excerpt (claim : ClaimId) (s : TlsSupport) : option text :=
  excerpt <$> head (filter (fun drawn => claim_id drawn = claim) (support_findings s)).

(** [TlsSupport::restate]. *)
Definition support_restate (self : TlsSupport) (f : Finding Build) (basis : TlsSupport) : option text :=
  let claim := claim_id f in
  standing ← support_standing self f basis;
  restated ←
    match standing with
    | Upheld => drawn_excerpt claim self
    | Unsettled => drawn_excerpt claim (mkTlsSupport (filter (fun held => leaves_open self (vs_version held) = true) (ts_versions basis)) [])
    | Overturned => None
    end;
  if bool_decide (drawn_excerpt claim basis = Some restated) then None else Some restated.

(** ** What the claims are *)

Definition version_claim (v : TlsVersion) : ClaimId := mkClaimId DETECTION (version_name v ++ lit " is still accepted").

(** The weakness with a number of its own is claimed under it. *)
Definition fault_claim (f : SuiteFault) : ClaimId :=
  mkClaimId DETECTION (match f with SmallBlock => lit "CVE-2016-2183" | _ => lit "cipher suites accepted with " ++ fault_summary f end).

Lemma version_finding_claim v : is_deprecated v = true -> exists f, version_finding v = Some f /\ claim_id f = version_claim v.
Proof. destruct v; try done; intros _; eexists; split; reflexivity. Qed.

Lemma fault_finding_claim l f : exists x, fault_finding l f = Some x /\ claim_id x = fault_claim f.
Proof. destruct f; eexists; split; reflexivity. Qed.

(** A version and a fault are claimed apart from every other. *)
Lemma claims_apart :
  (forall v w, version_claim v = version_claim w -> v = w) /\ (forall f g, fault_claim f = fault_claim g -> f = g) /\
  (forall v f, version_claim v <> fault_claim f).
Proof. split_and!; [intros [] []|intros [] []|intros [] []]; done. Qed.

Definition has_carrier (held : VersionSupport) (f : SuiteFault) : Prop := exists x, x ∈ held_suites held /\ has_fault x f = true.

Lemma elem_of_support_faults s f : f ∈ support_faults s <-> exists held, held ∈ ts_versions s /\ has_carrier held f.
Proof.
  unfold support_faults. rewrite list_elem_of_filter, existsb_elem. setoid_rewrite existsb_elem. pose proof (fault_listed f). unfold has_carrier. tauto.
Qed.

(** A version accepted draws the claim, alone or among others, where it is withdrawn, and a
    fault where it accepts a suite that has it. *)
Definition draws (held : VersionSupport) (c : ClaimId) : Prop :=
  (is_deprecated (vs_version held) = true /\ c = version_claim (vs_version held)) \/ exists f, has_carrier held f /\ c = fault_claim f.

Lemma elem_of_claims s c : c ∈ claims s <-> exists held, held ∈ ts_versions s /\ draws held c.
Proof.
  unfold claims, support_findings. rewrite elem_of_list_to_set, fmap_app, elem_of_app. split.
  - intros [(x & -> & (v & Hv & E)%list_elem_of_omap)%list_elem_of_fmap|(x & -> & (f & Hf & E)%list_elem_of_omap)%list_elem_of_fmap].
    + apply list_elem_of_filter in Hv as [Hd (held & -> & Hh)%list_elem_of_fmap]. exists held. split; [done|]. left. split; [done|].
      destruct (version_finding_claim _ Hd) as (y & E' & <-). congruence.
    + apply elem_of_support_faults in Hf as (held & Hh & Hc). exists held. split; [done|]. right. exists f. split; [done|].
      destruct (fault_finding_claim (carriers s f) f) as (y & E' & <-). congruence.
  - intros (held & Hh & [[Hd ->]|(f & Hf & ->)]).
    + left. destruct (version_finding_claim _ Hd) as (y & E & Ey). apply list_elem_of_fmap. exists y. split; [done|]. apply list_elem_of_omap.
      exists (vs_version held). split; [|done]. apply list_elem_of_filter. split; [done|]. by apply list_elem_of_fmap_2.
    + right. destruct (fault_finding_claim (carriers s f) f) as (y & E & Ey). apply list_elem_of_fmap. exists y. split; [done|]. apply list_elem_of_omap.
      exists f. split; [|done]. apply elem_of_support_faults. by exists held.
Qed.

(** A claim rests on the versions that draw it, and one that is drawn rests on some. *)
Lemma elem_of_resting s c v : v ∈ resting s c <-> exists held, held ∈ ts_versions s /\ vs_version held = v /\ draws held c.
Proof.
  assert (forall held, c ∈ claims (accepting held) <-> draws held c) as Halone.
  { intros held. rewrite elem_of_claims. cbn. setoid_rewrite list_elem_of_singleton. naive_solver. }
  unfold resting. rewrite list_elem_of_fmap. setoid_rewrite list_elem_of_filter. setoid_rewrite Halone. naive_solver.
Qed.

Lemma drawn_rests s c : c ∈ claims s <-> resting s c <> [].
Proof.
  rewrite elem_of_claims. split.
  - intros (held & Hh & Hd) E. assert (vs_version held ∈ resting s c) as Hin by (apply elem_of_resting; eauto). rewrite E in Hin. by apply elem_of_nil in Hin.
  - intros Hne. destruct (resting s c) as [|v l] eqn:E; [done|]. assert (v ∈ resting s c) as (held & Hh & _ & Hd)%elem_of_resting by (rewrite E; by left). eauto.
Qed.

(** *** One finding to a claim *)

Lemma omap_fmap_claims {A} (f : A -> option (Finding Build)) (c : A -> ClaimId) (l : list A) :
  (forall x, x ∈ l -> exists y, f x = Some y /\ claim_id y = c x) -> claim_id <$> omap f l = c <$> l.
Proof.
  induction l as [|x l IH]; intros H; [done|]. destruct (H x) as (y & Ey & Ec); [by left|]. cbn. rewrite Ey. cbn. rewrite Ec, IH; [done|].
  intros z Hz. apply H. by right.
Qed.

Lemma findings_claims s : claim_id <$> support_findings s = (version_claim <$> deprecated_versions s) ++ (fault_claim <$> support_faults s).
Proof.
  unfold support_findings. rewrite fmap_app. f_equal.
  - apply omap_fmap_claims. intros v [Hd _]%list_elem_of_filter. by apply version_finding_claim.
  - apply omap_fmap_claims. intros f _. apply fault_finding_claim.
Qed.

Lemma findings_nodup s : support_ok s -> NoDup (claim_id <$> support_findings s).
Proof.
  intros [Hs _]. destruct claims_apart as (Hv & Hf & Hvf). rewrite findings_claims. apply NoDup_app. split_and!.
  - apply NoDup_fmap_2_strong; [by intros ? ? _ _ ?%Hv|]. apply NoDup_filter, by_version_nodup, Hs.
  - intros c (v & -> & _)%list_elem_of_fmap (f & E & _)%list_elem_of_fmap. by apply (Hvf v f).
  - apply NoDup_fmap_2_strong; [by intros ? ? _ _ ?%Hf|]. apply NoDup_filter. refine (bool_decide_eq_true_1 _ _). vm_compute. reflexivity.
Qed.

(** *** Findings of a fold *)

Lemma find_version_in {A} (version : A -> TlsVersion) l x : by_version version l -> x ∈ l -> find_version version (version x) l = Some x.
Proof.
  induction 1 as [|y l Hl IH Hy]; [by intros ?%elem_of_nil|]. cbn. intros [->|Hx]%elem_of_cons; [by rewrite bool_decide_eq_true_2|].
  rewrite bool_decide_eq_false_2; [by apply IH|]. intros E. rewrite Forall_forall in Hy. specialize (Hy x Hx). rewrite E in Hy. lia.
Qed.

Lemma find_version_elem {A} (version : A -> TlsVersion) v (l : list A) x : find_version version v l = Some x -> x ∈ l /\ version x = v.
Proof. induction l as [|y l IH]; [done|]. cbn. case_bool_decide; [intros [= <-]; split; [by left|done]|]. intros [? ?]%IH. split; [by right|done]. Qed.

(** An enumeration as this build writes one: a version is there for a suite it was seen to
    accept, and the numbers kept apart are those the registry does not hold. *)
Definition support_read (s : TlsSupport) : Prop :=
  Forall (fun held => vs_suites held ++ vs_unrecognised held <> [] /\ Forall (fun c => is_Some (suite_from_code c)) (vs_suites held) /\
                      Forall (fun c => suite_from_code c = None) (vs_unrecognised held)) (ts_versions s).

(** A version that found all another found draws all it drew. *)
Lemma draws_mono held held' c :
  vs_version held = vs_version held' -> list_to_set (C := gset Z) (vs_suites held ++ vs_unrecognised held) ⊆ list_to_set (vs_suites held' ++ vs_unrecognised held') ->
  Forall (fun c => suite_from_code c = None) (vs_unrecognised held') -> draws held c -> draws held' c.
Proof.
  intros Ev Hsub Hun [[Hd ->]|(f & (x & Hx & Hf) & ->)]; [left; by rewrite <- Ev|]. right. exists f. split; [|done]. exists x. split; [|done].
  unfold held_suites in *. apply list_elem_of_omap in Hx as (code & Hc & E). apply list_elem_of_omap. exists code. split; [|done].
  assert (code ∈ vs_suites held' ++ vs_unrecognised held') as [|Hu]%elem_of_app; [|done|].
  - apply (elem_of_list_to_set (C := gset Z)), Hsub, elem_of_list_to_set, elem_of_app. by left.
  - rewrite Forall_forall in Hun. rewrite (Hun code Hu) in E. done.
Qed.

(** What is reported of an endpoint after two enumerations of it are folded: each thing once;
    nothing the record on hand reported is lost, and nothing is new that the other one did not
    report. *)
Theorem fold_keeps_claims a b :
  support_ok a -> support_ok b -> support_read a -> support_read b -> a <> support_new ->
  let r := support_merge a b in
  NoDup (claim_id <$> support_findings r) /\ claims a ⊆ claims r /\ claims r ⊆ claims a ∪ claims b.
Proof.
  intros Ha Hb Hra Hrb Hne r. destruct (enumerations_fold_whole a b Ha Hb) as (Hr & _ & Hfold). fold r in Hr, Hfold.
  assert (forall held, held ∈ ts_versions r -> held ∈ ts_versions a \/ held ∈ ts_versions b) as Hfrom.
  { intros held Hh. destruct Hr as [Hrv _]. pose proof (find_version_in vs_version _ _ Hrv Hh) as E.
    destruct (Hfold (vs_version held)) as [[Es|Es] _]; apply (f_equal fst) in Es; cbn in Es; rewrite E in Es; symmetry in Es; apply find_version_elem in Es; tauto. }
  split_and!; [by apply findings_nodup| |].
  - intros c (held & Hh & Hd)%elem_of_claims. destruct Ha as [Hav _]. pose proof (find_version_in vs_version _ _ Hav Hh) as E.
    destruct (Hfold (vs_version held)) as [_ Hkeep]. destruct (Hkeep Hne) as [Hfound _]. rewrite (account_at a), (account_at r) in Hfound. cbn in Hfound. rewrite E in Hfound. cbn in Hfound.
    pose proof (proj1 (Forall_forall _ _) Hra held Hh) as (Hsome & _ & _). destruct (find_version vs_version (vs_version held) (ts_versions r)) as [held'|] eqn:E'; cbn in Hfound.
    + apply find_version_elem in E' as [Hh' Ev]. apply elem_of_claims. exists held'. split; [done|]. eapply draws_mono; [by symmetry|exact Hfound| |exact Hd].
      destruct (Hfrom held' Hh') as [Hin|Hin]; [apply (proj1 (Forall_forall _ _) Hra held' Hin)|apply (proj1 (Forall_forall _ _) Hrb held' Hin)].
    + exfalso. destruct (vs_suites held ++ vs_unrecognised held) as [|code l]; [done|]. apply (elem_of_empty (C := gset Z) code), Hfound. cbn. set_solver.
  - intros c (held & Hh & Hd)%elem_of_claims. apply elem_of_union. rewrite !elem_of_claims. destruct (Hfrom held Hh); [left|right]; by exists held.
Qed.
End Findings.
