(* ===== verification/Posture.v ===== *)
(** * What is reported of a certificate

    [model/port/security.rs]: the findings drawn from a certificate's own posture, the names it
    covers, the finding that it does not answer to the name that was asked for, and where a
    record of an endpoint leaves a finding drawn from another record of it. *)

From Stdlib Require Import ZArith Lia Strings.String.
From stdpp Require Import base numbers option list gmap.
From S2P Require Import Prelude Std Text IpRange AddrText Dns Finding Backport Tls TlsSupport Endpoint Suites.

Local Open Scope Z_scope.

Definition CERTIFICATE_DETECTION : text := lit "zond:certificate".

(** ** Names *)

(** [s.strip_suffix('.').unwrap_or(s)]. *)
Definition without_dot (s : text) : text := default s (strip_suffix_text [46] s).

Definition dns_name_covers (pattern name : text) : bool :=
  let pattern := without_dot pattern in
  match strip_prefix (lit "*.") pattern with
  | Some parent =>
    match split_once (Z.eqb 46) name with
    | Some (label, rest) => negb (bool_decide (label = [])) && negb (bool_decide (parent = [])) && eq_ignore_ascii_case rest parent
    | None => false
    end
  | None => negb (bool_decide (pattern = [])) && eq_ignore_ascii_case pattern name
  end.

Definition covers (c : CertificateInfo) (name : text) : bool :=
  let name := without_dot name in
  match parse_ip name with
  | Ok address => existsb (fun san => match parse_ip san with Ok a => bool_decide (a = address) | Err _ => false end) (ct_sans c)
  | Err _ => existsb (fun san => match parse_ip san with Ok _ => false | Err _ => dns_name_covers san name end) (ct_sans c)
  end.

(** ** Findings *)

Section Findings.
(** [CARGO_PKG_VERSION], and the digest of the list of checks. *)
Variable build_version : DetectionVersion.
Variable census : text.

Definition certificate_detection : DetectionId := mkDetectionId CERTIFICATE_DETECTION build_version census.

(** [Finding::new] with what every one of these has, or nothing where the title is blank. *)
Definition posture_finding (title : text) (severity : Severity) (confidence : Confidence) (excerpt : text) (cwe : Z) : option (Finding Build) :=
  match finding_new certificate_detection title severity confidence ClassPassive with
  | Ok f => Some (with_reference (Cwe cwe) (with_excerpt (excerpt_new excerpt) f))
  | Err _ => None
  end.

Definition certificate_findings (at_ : Z) (c : CertificateInfo) : list (Finding Build) :=
  (if ct_validity_end c <? at_ then
     option_list (posture_finding (lit "TLS certificate has expired") Medium Certain
       (lit "the certificate for " ++ ct_common_name c ++ lit " is past its validity window") 324)
   else []) ++
  (if negb (bool_decide (ct_common_name c = [])) && eq_ignore_ascii_case (ct_issuer c) (ct_common_name c) then
     option_list (posture_finding (lit "TLS certificate is self-signed") Low Probable (lit "issuer and subject are both " ++ ct_common_name c) 295)
   else []) ++
  (if eq_ignore_ascii_case (ct_pubkey_type c) (lit "RSA") && (ct_pubkey_bits c <? 2048) then
     option_list (posture_finding (lit "TLS certificate uses a weak RSA key") Medium Certain
       (lit "the RSA public key is " ++ show_uint (ct_pubkey_bits c) ++ lit " bits, below the 2048-bit floor") 326)
   else []).

(** What a certificate does say, where it does not name the host. *)
Definition mismatch_excerpt (name : text) (c : CertificateInfo) : text :=
  if dns_name_covers (ct_common_name c) (without_dot name) then
    name ++ lit " is named only in the subject common name, which clients do not read"
  else
    match ct_sans c with
    | [] => lit "asked for " ++ name ++ lit "; the certificate lists no alternative names"
    | first :: rest =>
      let more :=
        match rest with
        | [] => []
        | [one] => lit " and " ++ one
        | _ => lit " and " ++ show_uint (Z.of_nat (length rest)) ++ lit " more"
        end in
      lit "asked for " ++ name ++ lit "; the certificate names " ++ first ++ more
    end.

Definition name_mismatch (name : text) (c : CertificateInfo) : option (Finding Build) :=
  if (MAX_SANS_PER_CERTIFICATE <=? length (ct_sans c))%nat || covers c name then None
  else posture_finding (lit "TLS certificate does not match the host name") Medium Certain (mismatch_excerpt name c) 297.
End Findings.

(** ** Where a record leaves a finding *)

(** A certificate with no fingerprint cannot be compared. *)
Definition comparable_fingerprint (s : Security) : option text :=
  certificate ← se_certificate s;
  if bool_decide (ct_fingerprint_sha256 certificate = []) then None else Some (ct_fingerprint_sha256 certificate).

Section Standing.
Variable build_version : DetectionVersion.
Variable suites_census : text.

Definition security_standing (self : Security) (f : Finding Build) (basis : Security) : option Standing :=
  if bool_decide (det_id (detection f) = CERTIFICATE_DETECTION) then
    then_ ← comparable_fingerprint basis;
    Some (match comparable_fingerprint self with
          | Some now => if bool_decide (now = then_) then Upheld else Overturned
          | None => Unsettled
          end)
  else support_standing build_version suites_census (se_support self) f (se_support basis).

Definition security_restate (self : Security) (f : Finding Build) (basis : Security) : option text :=
  if bool_decide (det_id (detection f) = CERTIFICATE_DETECTION) then None
  else support_restate build_version suites_census (se_support self) f (se_support basis).
End Standing.

(** ** What the claims are *)

Section Claims.
Variable build_version : DetectionVersion.
Variable census : text.

Definition posture_claim (title : text) : ClaimId := mkClaimId CERTIFICATE_DETECTION title.

Lemma posture_finding_claims title severity confidence excerpt cwe :
  (exists f, posture_finding build_version census title severity confidence excerpt cwe = Some f /\ claim_id f = posture_claim title) ->
  claim_id <$> option_list (posture_finding build_version census title severity confidence excerpt cwe) = [posture_claim title].
Proof. intros (f & -> & E). cbn. by rewrite E. Qed.

(** Of one certificate, each thing wrong with it is claimed once and apart from the others, the
    name it was asked by included; and it is reported for its names only where it covers none
    of that name and all its names were kept. *)
Theorem posture_is_claimed_apart at_ c name :
  NoDup (claim_id <$> certificate_findings build_version census at_ c ++ option_list (name_mismatch build_version census name c)) /\
  (is_Some (name_mismatch build_version census name c) <-> covers c name = false /\ (length (ct_sans c) < MAX_SANS_PER_CERTIFICATE)%nat).
Proof.
  split.
  - unfold certificate_findings, name_mismatch. rewrite !fmap_app.
    repeat case_match; rewrite ?posture_finding_claims by (eexists; split; reflexivity); cbn [fmap list_fmap option_list app];
      (refine (bool_decide_eq_true_1 _ _); vm_compute; reflexivity).
  - unfold name_mismatch. destruct (Nat.leb_spec MAX_SANS_PER_CERTIFICATE (length (ct_sans c))) as [Hl|Hl]; cbn [orb].
    + split; [by intros [? [=]]|]. intros [_ ?]. lia.
    + destruct (covers c name); [split; [by intros [? [=]]|by intros [? _]]|]. split; [done|]. intros _. by eexists.
Qed.
End Claims.
