(* ===== verification/DiffPort.v ===== *)
(** * What changed at an endpoint

    [diff/change.rs] and [diff/port.rs]: the building blocks of a comparison, and the
    comparison of the ports of one host in two scans, with the changes of a service, of
    transport security, of a certificate and of the findings. *)

From Stdlib Require Import ZArith Lia Sorting.Sorted.
From stdpp Require Import base numbers option list gmap.
From S2P Require Import Prelude Std Text Ordering IpRange PortSet Finding Backport Tls TlsSupport Os Endpoint HostPorts Suites Posture.

Local Open Scope Z_scope.

(** ** Changes and presence *)

Record Change (A : Type) := mkChange {
  ch_before : A;
  ch_after : A;
}.
Arguments mkChange {A}.
Arguments ch_before {A}.
Arguments ch_after {A}.

(** [Change::between]. *)
Definition change_between {A} `{EqDecision A} (before after : A) : option (Change A) :=
  if bool_decide (before = after) then None else Some (mkChange before after).

Inductive Coverage := Covered | CoverageWithheld | OutOfScope | Unreached | CoverageUnstated.

#[export] Instance Coverage_eq_dec : EqDecision Coverage.
Proof. solve_decision. Defined.

Definition is_covered (c : Coverage) : bool := match c with Covered => true | _ => false end.

Definition is_excluded (c : Coverage) : bool := match c with CoverageWithheld | OutOfScope => true | _ => false end.

Inductive Presence := PresentInBoth | PresenceAdded (before : Coverage) | PresenceRemoved (after : Coverage).

Definition is_in_both (p : Presence) : bool := match p with PresentInBoth => true | _ => false end.

Definition counterpart_coverage (p : Presence) : option Coverage :=
  match p with PresentInBoth => None | PresenceAdded before => Some before | PresenceRemoved after => Some after end.

Definition is_confirmed (p : Presence) : bool :=
  match counterpart_coverage p with None => true | Some coverage => is_covered coverage end.

(** ** Findings *)

Record Reassessment := mkReassessment {
  ra_finding : Finding Build;
  ra_severity : Change Severity;
}.

(** [map(|f| (f.claim_id(), f)).collect()]: the last of two under one claim stands. *)
Definition by_claim (l : list (Finding Build)) : gmap ClaimId (Finding Build) := foldl (fun m f => <[claim_id f := f]> m) ∅ l.

Definition entries (m : gmap ClaimId (Finding Build)) : list (ClaimId * Finding Build) :=
  sort_by (fun a b => claim_leb (fst a) (fst b)) (map_to_list m).

Definition findings_between (before after : list (Finding Build)) : list (Finding Build) * list (Finding Build) * list Reassessment :=
  let before := by_claim before in
  let after := by_claim after in
  let appeared := snd <$> filter (fun '(claim, _) => before !! claim = None) (entries after) in
  let resolved := snd <$> filter (fun '(claim, _) => after !! claim = None) (entries before) in
  let reassessed :=
    omap (fun '(claim, f) => was ← before !! claim; change ← change_between (severity was) (severity f); Some (mkReassessment f change)) (entries after) in
  (appeared, resolved, reassessed).

(** ** Services and transport security *)

Inductive ServiceChange :=
  | Identified (s : PortService) | Unidentified (s : PortService) | ServiceName (c : Change text) | ServiceProduct (c : Change (option text))
  | ServiceVendor (c : Change (option text)) | ServiceVersion (c : Change (option text)) | ServiceExtraInfo (c : Change (option text))
  | ServiceBuild (c : Change (option Build)) | ServiceCpes (gained lost : list text).

Inductive CertificateChange :=
  | Presented (c : CertificateInfo) | CertificateWithdrawn (c : CertificateInfo) | Rotated (before after : CertificateInfo)
  | Expiring (certificate : CertificateInfo) (remaining : Z) | Expired (certificate : CertificateInfo) (since : Z).

Inductive SecurityChange :=
  | ChangedTlsVersion (c : Change (option text)) | ChangedCipherSuite (c : Change (option text)) | ChangedAlpn (gained lost : list text)
  | ChangedCertificate (c : CertificateChange).

Inductive PortChange :=
  | ChangedState (c : Change PortState) | ChangedService (c : ServiceChange) | ChangedSecurity (c : SecurityChange)
  | ChangedFindings (appeared resolved unsettled : list (Finding Build)) (reassessed : list Reassessment).

(** [if let Some(change) = .. { changes.push(f(change)); }]. *)
Definition pushed {A B} (f : A -> B) (x : option A) : list B := option_list (f <$> x).

(** What one set has and the other has not, in order. *)
Definition set_change (before after : gset text) : list text * list text := (in_order (after ∖ before), in_order (before ∖ after)).

(** [if !gained.is_empty() || !lost.is_empty() { .. }]. *)
Definition pushed_sets {A B} (f : list A -> list A -> B) (p : list A * list A) : list B :=
  match p with ([], []) => [] | (gained, lost) => [f gained lost] end.

Definition identified (s : option PortService) : option PortService := s ≫= fun s => if is_inferred s then None else Some s.

Definition service_changes (before after : option PortService) : list ServiceChange :=
  match identified before, identified after with
  | None, None => []
  | None, Some after => [Identified after]
  | Some before, None => [Unidentified before]
  | Some before, Some after =>
    pushed ServiceName (change_between (ps_name before) (ps_name after)) ++
    pushed ServiceProduct (change_between (ps_product before) (ps_product after)) ++
    pushed ServiceVendor (change_between (ps_vendor before) (ps_vendor after)) ++
    pushed ServiceVersion (change_between (ps_version before) (ps_version after)) ++
    pushed ServiceExtraInfo (change_between (ps_extrainfo before) (ps_extrainfo after)) ++
    pushed ServiceBuild (change_between (ps_build before) (ps_build after)) ++
    pushed_sets ServiceCpes (set_change (ps_cpe before) (ps_cpe after))
  end.

Inductive Validity := Absent | NotYetValid | Valid | ValidityExpiring | ValidityExpired.

#[export] Instance Validity_eq_dec : EqDecision Validity.
Proof. solve_decision. Defined.

Record Clocks := mkClocks {
  ck_baseline : Z;
  ck_current : Z;
  ck_expiry_threshold : Z;
}.

Section Compare.
(** The last moment a [SystemTime] holds, and what stamps the findings drawn from suites. *)
Variable TIME_MAX : Z.
Variable build_version : DetectionVersion.
Variable suites_census : text.

Definition validity (security : option Security) (threshold at_ : Z) : Validity :=
  match security with
  | None => Absent
  | Some s =>
    match se_certificate s with
    | None => Absent
    | Some c =>
      if at_ <? ct_validity_start c then NotYetValid
      else if ct_validity_end c <? at_ then ValidityExpired
      else if is_cert_expiring_at TIME_MAX threshold at_ s then ValidityExpiring
      else Valid
    end
  end.

(** What the two certificates are, before either is dated. *)
Definition certificate_replaced (before after : option CertificateInfo) : list CertificateChange :=
  match before, after with
  | None, None => []
  | None, Some after => [Presented after]
  | Some before, None => [CertificateWithdrawn before]
  | Some before, Some after => if bool_decide (ct_fingerprint_sha256 before = ct_fingerprint_sha256 after) then [] else [Rotated before after]
  end.

Definition same_certificate (before after : option CertificateInfo) : bool :=
  match before, after with
  | Some before, Some after => bool_decide (ct_fingerprint_sha256 before = ct_fingerprint_sha256 after)
  | _, _ => false
  end.

Definition certificate_changes (before after : option Security) (clocks : Clocks) : list CertificateChange :=
  let before_cert := before ≫= se_certificate in
  let after_cert := after ≫= se_certificate in
  certificate_replaced before_cert after_cert ++
  match after_cert with
  | None => []
  | Some certificate =>
    let was := if same_certificate before_cert after_cert then validity after (ck_expiry_threshold clocks) (ck_baseline clocks) else Absent in
    match validity after (ck_expiry_threshold clocks) (ck_current clocks) with
    | ValidityExpiring =>
      if bool_decide (was = ValidityExpiring) then [] else [Expiring certificate (Z.max 0 (ct_validity_end certificate - ck_current clocks))]
    | ValidityExpired =>
      if bool_decide (was = ValidityExpired) then [] else [Expired certificate (Z.max 0 (ck_current clocks - ct_validity_end certificate))]
    | _ => []
    end
  end.

Definition security_changes (before after : option Security) (clocks : Clocks) : list SecurityChange :=
  pushed ChangedTlsVersion (change_between (before ≫= se_tls_version) (after ≫= se_tls_version)) ++
  pushed ChangedCipherSuite (change_between (before ≫= se_cipher_suite) (after ≫= se_cipher_suite)) ++
  pushed_sets ChangedAlpn (set_change (list_to_set (default [] (se_alpn <$> before))) (list_to_set (default [] (se_alpn <$> after)))) ++
  (ChangedCertificate <$> certificate_changes before after clocks).

(** ** A finding that is gone *)

Definition backs (f : Finding Build) (s : PortService) : bool := negb (bool_decide (cpes f ∩ ps_cpe s = ∅)).

(** [stated.is_some_and(|stated| then.is_none_or(|then| stated != then))]. *)
Definition differs (stated then_ : option text) : bool :=
  match stated with Some x => match then_ with Some y => negb (bool_decide (x = y)) | None => true end | None => false end.

Definition correlation_standing (f : Finding Build) (basis : PortService) (now : option PortService) : option Standing :=
  if negb (backs f basis) then None
  else
    match identified now with
    | None => Some Unsettled
    | Some now =>
      if backs f now then Some Upheld
      else if negb (bool_decide (ps_name now = ps_name basis)) || differs (ps_product now) (ps_product basis) || differs (ps_version now) (ps_version basis)
      then Some Overturned else Some Unsettled
    end.

Definition no_security : Security := mkSecurity None None [] None support_new.

Definition port_standing (f : Finding Build) (before after : Port) : option Standing :=
  if is_correlation f then basis ← pt_service before; correlation_standing f basis (pt_service after)
  else basis ← pt_security before; security_standing build_version suites_census (default no_security (pt_security after)) f basis.

Definition is_unsettled (before after : Port) (f : Finding Build) : bool := bool_decide (port_standing f before after = Some Unsettled).

Definition port_changes_between (before after : Port) (clocks : Clocks) : list PortChange :=
  pushed ChangedState (change_between (pt_state before) (pt_state after)) ++
  (ChangedService <$> service_changes (pt_service before) (pt_service after)) ++
  (ChangedSecurity <$> security_changes (pt_security before) (pt_security after) clocks) ++
  let '(appeared, gone, reassessed) := findings_between (values (pt_findings before)) (values (pt_findings after)) in
  let unsettled := filter (fun f => is_unsettled before after f = true) gone in
  let resolved := filter (fun f => is_unsettled before after f = false) gone in
  match appeared, resolved, unsettled, reassessed with
  | [], [], [], [] => []
  | _, _, _, _ => [ChangedFindings appeared resolved unsettled reassessed]
  end.

(** ** The ports of a host *)

Record PortDelta := mkPortDelta {
  pd_key : Z * Protocol;
  pd_presence : Presence;
  pd_baseline : option Port;
  pd_current : option Port;
  pd_changes : list PortChange;
}.

Definition state_is_open (p : option Port) : bool := match p with Some p => bool_decide (pt_state p = PortOpen) | None => false end.

Definition is_opened (d : PortDelta) : bool := state_is_open (pd_current d) && negb (state_is_open (pd_baseline d)).

Definition is_closed (d : PortDelta) : bool := state_is_open (pd_baseline d) && negb (state_is_open (pd_current d)).

Definition was_asked (p : Port) : bool := negb (bool_decide (pt_state p = PortUnasked)).

(** The ports that were asked about, by number and transport. *)
Definition asked_ports (ports : list Port) : gmap (Z * Protocol) Port :=
  foldl (fun m p => <[port_key p := p]> m) ∅ (filter (fun p => was_asked p = true) ports).

Definition unasked_keys (ports : list Port) : gset (Z * Protocol) :=
  list_to_set (port_key <$> filter (fun p => was_asked p = false) ports).

(** [PresenceFor::coverage]. *)
Definition endpoint_coverage (scope : Z * Protocol -> Coverage) (unreached : gset (Z * Protocol)) (key : Z * Protocol) : Coverage :=
  if bool_decide (key ∈ unreached) then Unreached else scope key.

(** One endpoint; [None] is [unreachable!]. *)
Definition compare_port (baseline_scope current_scope : Z * Protocol -> Coverage) (baseline_unreached current_unreached : gset (Z * Protocol)) (clocks : Clocks)
    (key : Z * Protocol) (before after : option Port) : option PortDelta :=
  match before, after with
  | Some b, Some a =>
    match port_changes_between b a clocks with [] => None | changes => Some (mkPortDelta key PresentInBoth before after changes) end
  | Some _, None => Some (mkPortDelta key (PresenceRemoved (endpoint_coverage current_scope current_unreached key)) before after [])
  | None, Some _ => Some (mkPortDelta key (PresenceAdded (endpoint_coverage baseline_scope baseline_unreached key)) before after [])
  | None, None => None
  end.

Definition keys_in_order (s : gset (Z * Protocol)) : list (Z * Protocol) := sort_by port_key_leb (elements s).

Definition compare_ports (baseline_scope current_scope : Z * Protocol -> Coverage) (baseline current : list Port) (clocks : Clocks) : list PortDelta :=
  let b := asked_ports baseline in
  let c := asked_ports current in
  omap (fun key => compare_port baseline_scope current_scope (unasked_keys baseline) (unasked_keys current) clocks key (b !! key) (c !! key))
    (keys_in_order (dom b ∪ dom c)).
End Compare.

(** ** What a comparison of two ports tells *)

Lemma change_between_none {A} `{EqDecision A} (x y : A) : change_between x y = None <-> x = y.
Proof. unfold change_between. case_bool_decide; naive_solver. Qed.

Lemma pushed_nil {A B} (f : A -> B) (x : option A) : pushed f x = [] <-> x = None.
Proof. by destruct x. Qed.

Lemma pushed_change_nil {A B} `{EqDecision A} (f : Change A -> B) (x y : A) : pushed f (change_between x y) = [] <-> x = y.
Proof. by rewrite pushed_nil, change_between_none. Qed.

Lemma elem_of_texts_in_order s x : x ∈ in_order s <-> x ∈ s.
Proof. unfold in_order. by rewrite elem_of_sort_by, elem_of_elements. Qed.

Lemma in_order_nil s : in_order s = [] <-> s = ∅.
Proof.
  split; [|by intros ->]. intros E. apply elem_of_equiv_empty_L. intros x Hx%elem_of_texts_in_order. rewrite E in Hx. by apply elem_of_nil in Hx.
Qed.

Lemma pushed_sets_nil {B} (f : list text -> list text -> B) x y : pushed_sets f (set_change x y) = [] <-> x = y.
Proof.
  unfold set_change. assert (forall p : list text * list text, pushed_sets f p = [] <-> p = ([], [])) as -> by (intros [[] []]; cbn; naive_solver).
  split; [|intros ->; by rewrite difference_diag_L]. intros [= H1%in_order_nil H2%in_order_nil].
  apply set_eq. intros t. pose proof (elem_of_difference y x t) as E1. pose proof (elem_of_difference x y t) as E2. rewrite H1, elem_of_empty in E1. rewrite H2, elem_of_empty in E2.
  split; intros Ht; [destruct (decide (t ∈ y))|destruct (decide (t ∈ x))]; try done; exfalso; tauto.
Qed.

Lemma fmap_nil_iff {A B} (f : A -> B) (l : list A) : f <$> l = [] <-> l = [].
Proof. by destruct l. Qed.

(** *** Findings *)

Lemma elem_of_entries m c f : (c, f) ∈ entries m <-> m !! c = Some f.
Proof. unfold entries. by rewrite elem_of_sort_by, elem_of_map_to_list. Qed.

Lemma values_entries m : values m = snd <$> entries m.
Proof. done. Qed.

(** A map filled from a list under keys that are all different holds just the list. *)
Lemma lookup_filled {K A} `{Countable K} (key : A -> K) (l : list A) (m : gmap K A) k x :
  NoDup (key <$> l) ->
  foldl (fun m x => <[key x := x]> m) m l !! k = Some x <-> (x ∈ l /\ key x = k) \/ (k ∉ key <$> l /\ m !! k = Some x).
Proof.
  revert m. induction l as [|y l IH]; intros m; cbn; [intros _; pose proof (not_elem_of_nil x); pose proof (not_elem_of_nil k); tauto|].
  intros [Hy Hn]%NoDup_cons. rewrite IH by done. setoid_rewrite elem_of_cons. destruct (decide (key y = k)) as [<-|Hne].
  - rewrite lookup_insert_eq. split; [intros [[? ?]|[? [= ->]]]; tauto|]. intros [[[->|Hx] E]|[Hk _]]; [tauto|tauto|]. destruct Hk. by left.
  - rewrite lookup_insert_ne by done. split; [intros [?|[? ?]]; [tauto|right; split; [|done]; intros [|]; congruence]|].
    intros [[[->|Hx] E]|[Hk E]]; tauto.
Qed.

(** Findings under their own claims are read back from their list. *)
Lemma by_claim_values m : keyed m -> by_claim (values m) = m.
Proof.
  intros Hk. assert (claim_id <$> values m = (entries m).*1) as Ek.
  { rewrite values_entries, <- list_fmap_compose. apply list_fmap_ext. intros i [c f] E%list_elem_of_lookup_2. apply elem_of_entries in E. by apply Hk. }
  assert (NoDup (claim_id <$> values m)) as Hnd by (rewrite Ek; unfold entries; rewrite sort_by_perm; apply NoDup_fst_map_to_list).
  apply map_eq. intros c. apply option_eq. intros f. unfold by_claim. rewrite lookup_filled, lookup_empty by done. rewrite values_entries. split.
  - intros [[([d g] & -> & Hg%elem_of_entries)%list_elem_of_fmap <-]|[_ [=]]]. cbn. by rewrite (Hk d g Hg).
  - intros E. left. split; [|by apply Hk]. apply list_elem_of_fmap. exists (c, f). split; [done|]. by apply elem_of_entries.
Qed.

Lemma filter_nil_iff {A} (P : A -> Prop) `{!forall x, Decision (P x)} (l : list A) : filter P l = [] <-> forall x, x ∈ l -> ~ P x.
Proof.
  split; [|apply filter_none]. intros E x Hx Hp. assert (x ∈ filter P l) as Hin by by apply list_elem_of_filter. rewrite E in Hin. by apply elem_of_nil in Hin.
Qed.

Lemma omap_nil_iff {A B} (f : A -> option B) (l : list A) : omap f l = [] <-> forall x, x ∈ l -> f x = None.
Proof.
  induction l as [|x l IH]; cbn; [split; [by intros _ x ?%elem_of_nil|done]|]. destruct (f x) as [y|] eqn:E.
  - split; [done|]. intros H. rewrite H in E by by left. done.
  - rewrite IH. setoid_rewrite elem_of_cons. naive_solver.
Qed.

(** Nothing appeared, went or was reassessed just when the claims and their severities are the
    same. *)
Lemma findings_between_nil m m' :
  keyed m -> keyed m' -> findings_between (values m) (values m') = ([], [], []) <-> severity <$> m = severity <$> m'.
Proof.
  intros Hm Hm'. unfold findings_between. rewrite !by_claim_values by done. split.
  - intros [= H1%fmap_nil_iff H2%fmap_nil_iff H3]. rewrite filter_nil_iff in H1, H2. rewrite omap_nil_iff in H3.
    apply map_eq. intros c. rewrite !lookup_fmap. destruct (m !! c) as [f|] eqn:E, (m' !! c) as [f'|] eqn:E'; cbn; [| | |done].
    + specialize (H3 (c, f')). rewrite elem_of_entries in H3. specialize (H3 E'). cbn in H3. rewrite E in H3. cbn in H3.
      destruct (change_between (severity f) (severity f')) eqn:Ec; [done|]. apply change_between_none in Ec. by rewrite Ec.
    + exfalso. apply (H2 (c, f)); [by apply elem_of_entries|done].
    + exfalso. apply (H1 (c, f')); [by apply elem_of_entries|done].
  - intros Es. assert (forall c, severity <$> m !! c = severity <$> m' !! c) as Hc by (intros c; rewrite <- !lookup_fmap; by rewrite Es). f_equal; [f_equal|].
    + apply fmap_nil_iff, filter_nil_iff. intros [c f] Hin%elem_of_entries E. specialize (Hc c). rewrite Hin, E in Hc. done.
    + apply fmap_nil_iff, filter_nil_iff. intros [c f] Hin%elem_of_entries E. specialize (Hc c). rewrite Hin, E in Hc. done.
    + apply omap_nil_iff. intros [c f] Hin%elem_of_entries. specialize (Hc c). rewrite Hin in Hc. destruct (m !! c) as [g|]; [|done]. cbn in *.
      injection Hc as Hc. rewrite Hc. assert (change_between (severity f) (severity f) = None) as -> by by apply change_between_none. done.
Qed.

Lemma and_iff_under (P Q R : Prop) : (P -> Q <-> R) -> (P /\ Q) <-> (P /\ R).
Proof. tauto. Qed.

(** *** What of a port a comparison reads *)

Definition told_service (s : option PortService) : option (text * option text * option text * option text * option text * option Build * gset text) :=
  s ← identified s; Some (ps_name s, ps_product s, ps_vendor s, ps_version s, ps_extrainfo s, ps_build s, ps_cpe s).

Definition told_security (s : option Security) : option text * option text * gset text * option text :=
  (s ≫= se_tls_version, s ≫= se_cipher_suite, list_to_set (default [] (se_alpn <$> s)), ct_fingerprint_sha256 <$> (s ≫= se_certificate)).

Definition told_port (p : Port) : PortState * _ * _ * gmap ClaimId Severity :=
  (pt_state p, told_service (pt_service p), told_security (pt_security p), severity <$> pt_findings p).

Lemma service_changes_nil b a : service_changes b a = [] <-> told_service b = told_service a.
Proof.
  unfold service_changes, told_service. destruct (identified b) as [s|], (identified a) as [s'|]; cbn - [pushed_sets set_change]; [|done..].
  rewrite !app_nil, !pushed_change_nil.
  rewrite pushed_sets_nil. split; [by intros (-> & -> & -> & -> & -> & -> & ->)|by intros [= -> -> -> -> -> -> ->]].
Qed.

Section Told.
Variable TIME_MAX : Z.
Variable build_version : DetectionVersion.
Variable suites_census : text.

(** A certificate that both scans saw is past its end, or near it, at the second of them only. *)
Definition crossed (s : option Security) (clocks : Clocks) : bool :=
  let now := validity TIME_MAX s (ck_expiry_threshold clocks) (ck_current clocks) in
  bool_decide (now = ValidityExpiring \/ now = ValidityExpired) && negb (bool_decide (validity TIME_MAX s (ck_expiry_threshold clocks) (ck_baseline clocks) = now)).

Lemma certificate_replaced_nil b a : certificate_replaced b a = [] <-> ct_fingerprint_sha256 <$> b = ct_fingerprint_sha256 <$> a.
Proof. destruct b, a; cbn; [case_bool_decide|..]; split; congruence. Qed.

Lemma certificate_changes_nil b a clocks :
  certificate_changes TIME_MAX b a clocks = [] <->
  ct_fingerprint_sha256 <$> (b ≫= se_certificate) = ct_fingerprint_sha256 <$> (a ≫= se_certificate) /\ crossed a clocks = false.
Proof.
  unfold certificate_changes. rewrite app_nil, certificate_replaced_nil. apply and_iff_under.
  intros Ef. unfold crossed. destruct a as [a|]; cbn in *; [|done]. destruct (se_certificate a) as [c|] eqn:Ec; cbn in *; [|done].
  destruct (b ≫= se_certificate) as [d|]; [|done]. cbn in Ef. injection Ef as Ef. cbn. rewrite (bool_decide_eq_true_2 _ Ef). cbn.
  repeat case_match; repeat case_bool_decide; subst; naive_solver.
Qed.

Lemma security_changes_nil b a clocks :
  security_changes TIME_MAX b a clocks = [] <-> told_security b = told_security a /\ crossed a clocks = false.
Proof.
  unfold security_changes, told_security. rewrite !app_nil, !pushed_change_nil, pushed_sets_nil, fmap_nil_iff, certificate_changes_nil.
  split; [by intros (-> & -> & -> & -> & ->)|by intros [[= -> -> -> ->] ->]].
Qed.

(** The findings that are gone are told apart, and none is dropped. *)
Lemma gone_told b a (gone : list (Finding Build)) :
  filter (fun f => is_unsettled build_version suites_census b a f = false) gone = [] /\
  filter (fun f => is_unsettled build_version suites_census b a f = true) gone = [] <-> gone = [].
Proof.
  split; [|by intros ->]. intros [H1 H2]. destruct gone as [|f l]; [done|]. rewrite filter_nil_iff in H1, H2.
  specialize (H1 f ltac:(by left)). specialize (H2 f ltac:(by left)). by destruct (is_unsettled build_version suites_census b a f).
Qed.

(** Two records of an endpoint have nothing between them just when their state, the service
    they name, what they negotiated, the certificate, and the findings with their severity are
    the same, and the certificate did not come to its end between the scans. *)
Theorem no_change_is_no_difference b a clocks :
  port_ok b -> port_ok a ->
  port_changes_between TIME_MAX build_version suites_census b a clocks = [] <-> told_port b = told_port a /\ crossed (pt_security a) clocks = false.
Proof.
  intros (_ & _ & Hb & _) (_ & _ & Ha & _). pose proof (findings_between_nil _ _ Hb Ha) as Hf. unfold port_changes_between.
  rewrite !app_nil, pushed_change_nil, !fmap_nil_iff, service_changes_nil, security_changes_nil. unfold told_port.
  destruct (findings_between (values (pt_findings b)) (values (pt_findings a))) as [[appeared gone] reassessed] eqn:Ef.
  pose proof (gone_told b a gone) as Hg.
  assert (([], [], []) = (appeared, gone, reassessed) <->
    match appeared, filter (fun f => is_unsettled build_version suites_census b a f = false) gone,
      filter (fun f => is_unsettled build_version suites_census b a f = true) gone, reassessed with
    | [], [], [], [] => [] | _, _, _, _ =>
      [ChangedFindings appeared (filter (fun f => is_unsettled build_version suites_census b a f = false) gone)
         (filter (fun f => is_unsettled build_version suites_census b a f = true) gone) reassessed] end = []) as <-.
  { split; [by intros [= <- <- <-]|]. repeat case_match; try done. intros _. f_equal. f_equal. symmetry. by apply Hg. }
  split.
  - intros (-> & -> & (-> & ->) & E). split; [|done]. f_equal. apply Hf. congruence.
  - intros [[[[-> ->]%pair_eq ->]%pair_eq E]%pair_eq ->]. split_and!; try done. apply Hf in E. congruence.
Qed.
(** A change that time makes: the same certificate is near its end or past it at the second
    clock and was not at the first. *)
Definition by_time (c : PortChange) : bool :=
  match c with ChangedSecurity (ChangedCertificate (Expiring _ _ | Expired _ _)) => true | _ => false end.

Lemma certificate_self s clocks : Forall (fun c => by_time (ChangedSecurity (ChangedCertificate c)) = true) (certificate_changes TIME_MAX s s clocks).
Proof.
  unfold certificate_changes. rewrite (proj2 (certificate_replaced_nil _ _)) by done. cbn [app].
  repeat case_match; repeat constructor.
Qed.

(** Between a record and itself there is only that. *)
Lemma port_self p clocks : port_ok p -> Forall (fun c => by_time c = true) (port_changes_between TIME_MAX build_version suites_census p p clocks).
Proof.
  intros (_ & _ & Hf & _). unfold port_changes_between, security_changes.
  rewrite (proj2 (findings_between_nil _ _ Hf Hf)) by done. rewrite !filter_nil.
  rewrite !(proj2 (pushed_change_nil _ _ _)), (proj2 (service_changes_nil _ _)), (proj2 (pushed_sets_nil _ _ _)) by done.
  cbn [app fmap list_fmap]. rewrite app_nil_r. apply Forall_fmap, Forall_fmap. exact (certificate_self _ _).
Qed.
End Told.

(** *** The ports of a host *)

Lemma asked_ports_lookup l k p : NoDup (port_key <$> l) -> asked_ports l !! k = Some p <-> p ∈ l /\ port_key p = k /\ was_asked p = true.
Proof.
  intros Hn. unfold asked_ports. rewrite lookup_filled, lookup_empty, list_elem_of_filter.
  - split; [intros [?|[_ [=]]]|]; tauto.
  - eapply sublist_NoDup; [exact Hn|]. apply fmap_sublist, sublist_filter.
Qed.

Lemma port_key_leb_le a b : port_key_leb a b = true <-> fst a < fst b \/ fst a = fst b /\ protocol_rank (snd a) <= protocol_rank (snd b).
Proof. unfold port_key_leb, then_cmp. repeat case_match; rewrite ?Z.compare_lt_iff, ?Z.compare_gt_iff, ?Z.compare_eq_iff in *; split; intros; try done; try lia. Qed.

Lemma keys_in_order_sorted s : StronglySorted (fun a b => port_key_leb a b = true) (keys_in_order s).
Proof. apply sort_by_sorted; intros *; rewrite !port_key_leb_le; lia. Qed.

Lemma keys_in_order_nodup s : NoDup (keys_in_order s).
Proof. unfold keys_in_order. rewrite sort_by_perm. apply NoDup_elements. Qed.

Lemma elem_of_keys_in_order s k : k ∈ keys_in_order s <-> k ∈ s.
Proof. unfold keys_in_order. by rewrite elem_of_sort_by, elem_of_elements. Qed.

(** What is kept of a list under the key it is found at has the keys in the order of the
    list. *)
Lemma omap_keys_sublist {A B} (f : A -> option B) (key : B -> A) (l : list A) :
  (forall x y, f x = Some y -> key y = x) -> (key <$> omap f l) `sublist_of` l.
Proof. intros H. induction l as [|x l IH]; cbn; [done|]. destruct (f x) eqn:E; cbn; [rewrite (H _ _ E)|]; by constructor. Qed.

Lemma sorted_sublist {A} (R : A -> A -> Prop) (l k : list A) : l `sublist_of` k -> StronglySorted R k -> StronglySorted R l.
Proof.
  induction 1 as [|x l k Hs IH|x l k Hs IH]; [done| |]; intros H; inversion H as [|? ? Hk Hx]; subst; [|by apply IH].
  constructor; [by apply IH|]. rewrite Forall_forall in *. intros y Hy. apply Hx. by eapply elem_of_sublist.
Qed.

Lemma sorted_distinct {A} (R : A -> A -> Prop) (l : list A) : StronglySorted R l -> NoDup l -> StronglySorted (fun x y => R x y /\ x <> y) l.
Proof.
  induction 1 as [|x l Hl IH Hx]; [constructor|]. intros [Hn Hd]%NoDup_cons. constructor; [by apply IH|]. rewrite Forall_forall in *. intros y Hy.
  split; [by apply Hx|]. by intros ->.
Qed.

Section Ports.
Variable TIME_MAX : Z.
Variable build_version : DetectionVersion.
Variable suites_census : text.
Variable baseline_scope current_scope : Z * Protocol -> Coverage.

Local Abbreviation one := (compare_port TIME_MAX build_version suites_census baseline_scope current_scope).
Local Abbreviation all := (compare_ports TIME_MAX build_version suites_census baseline_scope current_scope).

Lemma compare_port_key bu cu clocks k b a d :
  one bu cu clocks k b a = Some d -> pd_key d = k /\ pd_baseline d = b /\ pd_current d = a /\ is_in_both (pd_presence d) = match b, a with Some _, Some _ => true | _, _ => false end.
Proof.
  unfold compare_port. destruct b as [b|], a as [a|]; [destruct (port_changes_between _ _ _ _ _ _)|..]; try discriminate;
    intros [= <-]; cbn; split_and!; reflexivity.
Qed.

(** What is said of the two records of one endpoint. *)
Definition unchanged (clocks : Clocks) (b a : option Port) : Prop :=
  told_port <$> b = told_port <$> a /\ match a with Some p => crossed TIME_MAX (pt_security p) clocks = false | None => True end.

Lemma compare_port_none bu cu clocks k b a :
  from_option port_ok True b -> from_option port_ok True a -> one bu cu clocks k b a = None <-> unchanged clocks b a.
Proof.
  intros Hb Ha. unfold compare_port, unchanged. destruct b as [b|], a as [a|]; cbn; [|naive_solver..].
  pose proof (no_change_is_no_difference TIME_MAX build_version suites_census b a clocks Hb Ha) as H.
  destruct (port_changes_between _ _ _ _ _ _); [|split; [done|intros [E%(inj Some) Hc]; by pose proof (proj2 H (conj E Hc))]].
  split; [|done]. intros _. destruct (proj1 H eq_refl) as [-> ?]. done.
Qed.

Lemma asked_ok l k : NoDup (port_key <$> l) -> Forall port_ok l -> from_option port_ok True (asked_ports l !! k).
Proof.
  intros Hn Hl. destruct (asked_ports l !! k) as [p|] eqn:E; [|done]. apply asked_ports_lookup in E as [Hp _]; [|done].
  rewrite Forall_forall in Hl. by apply Hl.
Qed.

(** The deltas of two sets of ports are in the order of number and transport, one to an
    endpoint; an endpoint has one exactly where the records of it differ or its certificate
    came to its end, ports that were never asked about not counting as records; and each
    carries the two records it is of. *)
Theorem ports_are_compared baseline current clocks :
  NoDup (port_key <$> baseline) -> NoDup (port_key <$> current) -> Forall port_ok baseline -> Forall port_ok current ->
  let r := all baseline current clocks in
  StronglySorted (fun x y => port_key_leb x y = true /\ x <> y) (pd_key <$> r) /\
  (forall k, k ∈ pd_key <$> r <-> ~ unchanged clocks (asked_ports baseline !! k) (asked_ports current !! k)) /\
  (forall d, d ∈ r -> pd_baseline d = asked_ports baseline !! pd_key d /\ pd_current d = asked_ports current !! pd_key d).
Proof.
  intros Hnb Hnc Hb Hc r. unfold r, compare_ports.
  set (f := fun key => one _ _ _ key (asked_ports baseline !! key) (asked_ports current !! key)).
  assert (forall k d, f k = Some d -> pd_key d = k) as Hkey by (intros k d E; apply compare_port_key in E; tauto).
  split_and!.
  - eapply sorted_sublist; [by apply omap_keys_sublist|]. apply sorted_distinct; [apply keys_in_order_sorted|apply keys_in_order_nodup].
  - intros k. pose proof (compare_port_none (unasked_keys baseline) (unasked_keys current) clocks k _ _ (asked_ok baseline k Hnb Hb) (asked_ok current k Hnc Hc)) as Hnone.
    rewrite <- Hnone. fold (f k). split.
    + intros (d & -> & (k' & Hk & E)%list_elem_of_omap)%list_elem_of_fmap. rewrite (Hkey _ _ E). congruence.
    + intros Hd. destruct (f k) as [d|] eqn:E; [|done]. apply list_elem_of_fmap. exists d. split; [symmetry; eauto|]. apply list_elem_of_omap. exists k. split; [|done].
      apply elem_of_keys_in_order, elem_of_union. rewrite !elem_of_dom. unfold f, compare_port in E.
      destruct (asked_ports baseline !! k); [left; by eexists|]. destruct (asked_ports current !! k); [right; by eexists|done].
  - intros d (k & Hk & E)%list_elem_of_omap. apply compare_port_key in E as (-> & -> & -> & _). done.
Qed.

(** A scan held against itself changed nothing. *)
Corollary ports_unchanged ports clocks :
  NoDup (port_key <$> ports) -> Forall port_ok ports -> ck_baseline clocks = ck_current clocks -> all ports ports clocks = [].
Proof.
  intros Hn Ho Ec. destruct (ports_are_compared ports ports clocks Hn Hn Ho Ho) as (_ & Hin & _).
  apply (fmap_nil_iff pd_key). destruct (pd_key <$> _) as [|k l]; [done|]. destruct (proj1 (Hin k) ltac:(by left)). split; [done|].
  destruct (asked_ports ports !! k) as [p|]; [|done]. unfold crossed. rewrite Ec. set (now := validity _ _ _ _). rewrite (bool_decide_eq_true_2 (now = now)) by done. apply andb_false_r.
Qed.
(** Asked again at another time, it shows what time alone changed. *)
Corollary ports_by_time ports clocks : NoDup (port_key <$> ports) -> Forall port_ok ports ->
  Forall (fun d => pd_presence d = PresentInBoth /\ pd_baseline d = pd_current d /\ Forall (fun c => by_time c = true) (pd_changes d)) (all ports ports clocks).
Proof.
  intros Hn Ho. apply Forall_forall. intros d (k & _ & E)%list_elem_of_omap. pose proof (asked_ok ports k Hn Ho) as Hk. unfold compare_port in E.
  destruct (asked_ports ports !! k) as [p|]; [|done]. cbn in Hk. pose proof (port_self TIME_MAX build_version suites_census p clocks Hk) as Hc.
  destruct (port_changes_between _ _ _ _ _ _); [done|]. by injection E as <-.
Qed.
End Ports.
