(* ===== verification/Report.v ===== *)
(** * What a scan reports

    [report.rs]: what a phase covered ([PortScope], [TargetScope]), the phases of a report and
    what they left open, the hosts a report holds, keyed on the address each is reported under,
    and the assembly of a report from phases and hosts, or from two reports.

    The parts of a phase that its settings, its counters and its attachments are take no part
    in any of this and are left out of [ScanPhase]. *)

From Stdlib Require Import ZArith Lia Sorting.Sorted.
From stdpp Require Import base numbers option list gmap.
From S2P Require Import Prelude Std Text Ordering Intervals IpRange IpSet PortSet Target Exclusion Scoped Retention Status Identity Endpoint HostPorts Host.

Local Open Scope Z_scope.

(** ** The ground of a phase *)

Inductive PortScope := ScopeUnstated | ScopeNoPorts | ScopeEvery (ports : PortSet) | ScopeMixed (ports : PortSet).

#[export] Instance PortScope_eq_dec : EqDecision PortScope.
Proof. solve_decision. Defined.

Definition scope_ports (s : PortScope) : option PortSet :=
  match s with ScopeUnstated | ScopeNoPorts => None | ScopeEvery ports | ScopeMixed ports => Some ports end.

(** [PortScope::covers]. *)
Definition scope_covers (s : PortScope) (port : Z) (protocol : Protocol) : option bool :=
  match s with
  | ScopeUnstated => None
  | ScopeNoPorts => Some false
  | ScopeEvery ports => Some (portset_contains ports port protocol)
  | ScopeMixed ports => if portset_contains ports port protocol then None else Some false
  end.

(** [PortScope::of]. *)
Definition scope_of_units (units : list PortSet) : PortScope :=
  match units with
  | [] => ScopeNoPorts
  | first :: rest =>
    let '(agreed, united) := fold_left (fun '(agreed, united) ports => (agreed && bool_decide (ports = first), union united ports)) rest (true, first) in
    if portset_is_empty united then ScopeNoPorts else if agreed then ScopeEvery united else ScopeMixed united
  end.

Record TargetScope := mkTargetScope {
  sc_ranges : list IpRange;
  sc_links : list Zone;
  sc_listened : list Zone;
  sc_addresses : Z;
  sc_probes : option Z;
  sc_ports : PortScope;
  sc_protocols : list Protocol;
  sc_excluded : list IpRange;
  sc_withheld : Z;
}.

Definition ip_set_ranges (ips : IpSet) : list IpRange := (RV4 <$> ips_v4 ips) ++ (RV6 <$> ips_v6 ips).

(** The set narrowed, and the scope. *)
Definition from_ip_set (ips : IpSet) (exclusions : Exclusions) : IpSet * TargetScope :=
  let '(ips, withheld) := withhold exclusions ips in
  let ips := canonicalize ips in
  (ips, mkTargetScope (ip_set_ranges ips) [] [] (ipset_len ips) None ScopeNoPorts [] (exclusions_ranges exclusions) withheld).

Definition listening_on (links : list Zone) (exclusions : Exclusions) : TargetScope :=
  mkTargetScope [] [] links 0 None ScopeNoPorts [] (exclusions_ranges exclusions) 0.

(** [sort_by_key(|range| (range.start_addr(), range.end_addr()))]. *)
Definition ends_leb (a b : IpRange) : bool :=
  if bool_decide (range_start a = range_start b) then ip_leb (range_end a) (range_end b) else ip_leb (range_start a) (range_start b).

(** [if !protocols.contains(&protocol) { protocols.push(protocol); }]. *)
Definition push_protocol (l : list Protocol) (p : Protocol) : list Protocol := if bool_decide (p ∈ l) then l else l ++ [p].

Definition from_target_map (targets : TargetMap) (exclusions : Exclusions) : TargetMap * TargetScope :=
  let '(targets, withheld) := withhold_targets exclusions targets in
  let ranges := units targets ≫= (fun unit => ip_set_ranges (ts_ips unit)) in
  let protocols := fold_left push_protocol (units targets ≫= (fun unit => (portset_iter (ts_ports unit)).*2)) [] in
  (targets,
   mkTargetScope (dedup (fun a b => bool_decide (a = b)) (sort_by ends_leb ranges)) [] []
     (match gross_ips targets with Ok n => n | Err _ => 0 end) (match gross_targets targets with Ok n => Some n | Err _ => None end)
     (scope_of_units (ts_ports <$> units targets)) (sort_by (fun a b => protocol_rank a <=? protocol_rank b) protocols)
     (exclusions_ranges exclusions) withheld).

Definition swept (s : TargetScope) (zone : option Zone) : bool :=
  match zone with
  | None => false
  | Some zone => existsb (fun link => bool_decide (z_name link = z_name zone)) (sc_links s)
  end.

Definition put_links (links : list Zone) (s : TargetScope) : TargetScope :=
  mkTargetScope (sc_ranges s) links (sc_listened s) (sc_addresses s) (sc_probes s) (sc_ports s) (sc_protocols s) (sc_excluded s) (sc_withheld s).

Definition record_sweeps (links : list Zone) (s : TargetScope) : TargetScope :=
  fold_left (fun s link => if swept s (Some link) then s else put_links (sc_links s ++ [link]) s) links s.

Definition record_withheld (machines neighbours : list IpAddr) (s : TargetScope) : TargetScope :=
  let excluded := canonicalize (fold_left insert_range (sc_excluded s) ipset_new) in
  let beyond : gset IpAddr := list_to_set neighbours ∪ list_to_set (filter (fun a => contains excluded a = false) machines) in
  let excluded := canonicalize (ipset_extend excluded (machines ++ neighbours)) in
  mkTargetScope (sc_ranges s) (sc_links s) (sc_listened s) (sc_addresses s) (sc_probes s) (sc_ports s) (sc_protocols s) (ip_set_ranges excluded)
    (sc_withheld s + Z.of_nat (size beyond)).

(** ** Phases *)

Inductive ScannerKind :=
  | KLocal | KPassive | KRouted | KRoutedSctp | KSynPort | KTcpPort | KConnect | KConnectUdp | KUdpPort | KSctpPort | KOsEcho | KOsSeries | KOsSnmp | KIdle
  | KComposite | KService | KDetection | KJournal | KResolver.

Record Refusal := mkRefusal {
  rf_scanner : ScannerKind;
  rf_reason : text;
}.

Record ScannerFailure := mkScannerFailure {
  sf_scanner : ScannerKind;
  sf_reason : text;
  sf_at : Z;
  sf_cut_short : bool;
}.

Definition narrows_coverage (f : ScannerFailure) : bool := match sf_scanner f with KJournal | KResolver => false | _ => true end.

Inductive StopReason := StopAborted | StopAllResponded | StopAttemptsSpent | StopDeadlineExpired | StopStreamClosed | StopTimedOut.

Inductive Pass := PassServices | PassDetections | PassTls | PassOs | PassTraceroute | PassFilters | PassIpProtocols.

#[export] Instance Pass_eq_dec : EqDecision Pass.
Proof. solve_decision. Defined.

(** The order derived for [Pass]. *)
Definition pass_rank (p : Pass) : Z :=
  match p with
  | PassServices => 0 | PassDetections => 1 | PassTls => 2 | PassOs => 3 | PassTraceroute => 4 | PassFilters => 5 | PassIpProtocols => 6
  end.

(** [passes.sort_unstable(); passes.dedup();]. *)
Definition passes_in_order (l : list Pass) : list Pass := dedup (fun a b => bool_decide (a = b)) (sort_by (fun a b => pass_rank a <=? pass_rank b) l).

Record PhaseOrigin := mkPhaseOrigin {
  po_label : option text;
  po_engine_version : text;
}.

#[export] Instance PhaseOrigin_eq_dec : EqDecision PhaseOrigin.
Proof. solve_decision. Defined.

Record ScanPhase := mkScanPhase {
  ph_kind : ScanKind;
  ph_started_at : Z;
  ph_elapsed : Z;
  ph_targets : TargetScope;
  ph_failures : list ScannerFailure;
  ph_refusals : list Refusal;
  ph_unroutable : list IpAddr;
  ph_timed_out : list IpAddr;
  ph_undecided : list IpRange;
  ph_silent : list IpRange;
  ph_stopped : option StopReason;
  ph_passes_cut : list Pass;
  ph_unreached : Z;
  ph_unheard_probes : Z;
  ph_origin : option PhaseOrigin;
  ph_open : bool;
}.

(** [ScanPhase::from_parts], of parts that are the fields. *)
Definition phase_from_parts (p : ScanPhase) : ScanPhase :=
  mkScanPhase (ph_kind p) (ph_started_at p) (ph_elapsed p) (ph_targets p) (ph_failures p) (ph_refusals p) (ph_unroutable p) (ph_timed_out p) (ph_undecided p)
    (ph_silent p) (ph_stopped p) (passes_in_order (ph_passes_cut p)) (ph_unreached p) (ph_unheard_probes p) (ph_origin p) (ph_open p).

Definition attribute (origin : PhaseOrigin) (p : ScanPhase) : ScanPhase :=
  mkScanPhase (ph_kind p) (ph_started_at p) (ph_elapsed p) (ph_targets p) (ph_failures p) (ph_refusals p) (ph_unroutable p) (ph_timed_out p) (ph_undecided p)
    (ph_silent p) (ph_stopped p) (ph_passes_cut p) (ph_unreached p) (ph_unheard_probes p) (Some origin) (ph_open p).

(** ** What nothing was heard from *)

(** [Unheard::reading]. *)
Definition unheard_reading (pending : bool) (phases : list ScanPhase) : IpSet :=
  canonicalize
    (fold_left
       (fun unheard phase =>
          let unheard := fold_left insert_range (ph_silent phase) unheard in
          if bool_decide (ph_kind phase = PortScan) && (pending || negb (ph_open phase)) then fold_left insert_range (ph_undecided phase) unheard else unheard)
       phases ipset_new).

Definition unheard_of : list ScanPhase -> IpSet := unheard_reading true.

Definition unheard_decided : list ScanPhase -> IpSet := unheard_reading false.

Definition host_ips (h : Host) : gset IpAddr := ad_ips (h_addresses h).

(** [Unheard::drops]. *)
Definition drops (unheard : IpSet) (h : Host) : bool :=
  bool_decide (h_status h = StatusUnknown) && existsb (contains unheard) (ascending (host_ips h)).

(** ** Reports *)

(** What two keys of a report are compared by. *)
Definition HostKey : Type := IpAddr * option (option Z * option text).

Definition host_key (s : ScopedIp) : HostKey := (si_addr s, zone_identity <$> si_zone s).

Definition ip_cmp (a b : IpAddr) : comparison :=
  match a, b with V4 a, V4 b | V6 a, V6 b => a ?= b | V4 _, V6 _ => Lt | V6 _, V4 _ => Gt end.

Definition zone_cmp (a b : option Z * option text) : comparison := then_cmp (option_cmp Z.compare (fst a) (fst b)) (option_cmp str_cmp (snd a) (snd b)).

Definition host_key_cmp (a b : HostKey) : comparison := then_cmp (ip_cmp (fst a) (fst b)) (option_cmp zone_cmp (snd a) (snd b)).

Definition host_key_leb (a b : HostKey) : bool := match host_key_cmp a b with Gt => false | _ => true end.

Record ScanReport := mkScanReport {
  rp_engine_version : text;
  rp_phases : list ScanPhase;
  rp_hosts : gmap HostKey Host;
}.

(** The pairs of the map in its order, and its hosts. *)
Definition host_entries (m : gmap HostKey Host) : list (HostKey * Host) := sort_by (fun a b => host_key_leb (fst a) (fst b)) (map_to_list m).

Definition report_hosts (r : ScanReport) : list Host := (host_entries (rp_hosts r)).*2.

(** [index]. *)
Definition index_host (m : gmap HostKey Host) (h : Host) : gmap HostKey Host :=
  let key := host_key (scoped_ip h) in
  match m !! key with Some existing => <[key := host_merge existing h]> m | None => <[key := h]> m end.

Definition index_hosts (hosts : list Host) : gmap HostKey Host := fold_left index_host hosts ∅.

Definition forget_the_silent (r : ScanReport) : ScanReport :=
  let unheard := unheard_of (rp_phases r) in
  if ipset_is_empty unheard then r
  else mkScanReport (rp_engine_version r) (rp_phases r) (filter (fun '(_, host) => drops unheard host = false) (rp_hosts r)).

(** [ScanReport::attributed], which [recorded] and [from_phases] are, and [new] for one phase. *)
Definition attributed (engine_version : text) (phases : list ScanPhase) (hosts : list Host) : ScanReport :=
  forget_the_silent (mkScanReport engine_version phases (index_hosts hosts)).

(** [ScanReport::fold]. *)
Definition fold_entry (fold : Host -> Host -> Host) (m : gmap HostKey Host) (kh : HostKey * Host) : gmap HostKey Host :=
  match m !! fst kh with Some existing => <[fst kh := fold existing (snd kh)]> m | None => <[fst kh := snd kh]> m end.

Definition report_fold (fold : Host -> Host -> Host) (self other : ScanReport) : ScanReport :=
  forget_the_silent
    (mkScanReport (rp_engine_version self) (rp_phases self ++ rp_phases other)
       (fold_left (fold_entry fold) (host_entries (rp_hosts other)) (rp_hosts self))).

Definition report_merge : ScanReport -> ScanReport -> ScanReport := report_fold host_merge.

Definition merge_later_copy : ScanReport -> ScanReport -> ScanReport := report_fold merge_later_account.

(** [ScanReport::host]: the first at or after the bare address, where it is at it. *)
Definition report_host (r : ScanReport) (ip : IpAddr) : option Host :=
  entry ← head (filter (fun kh => host_key_leb (ip, None) (fst kh) = true) (host_entries (rp_hosts r)));
  if bool_decide (fst (fst entry) = ip) then Some (snd entry) else None.

Definition host_scoped (r : ScanReport) (ip : ScopedIp) : option Host := rp_hosts r !! host_key ip.

Definition report_is_merged (r : ScanReport) : bool := existsb (fun phase => bool_decide (is_Some (ph_origin phase))) (rp_phases r).

(** ** When *)

(** [iter.max()] and [iter.min()]. *)
Definition max_of (l : list Z) : option Z := match l with [] => None | x :: l => Some (fold_left Z.max l x) end.

Definition min_of (l : list Z) : option Z := match l with [] => None | x :: l => Some (fold_left Z.min l x) end.

Section Clock.
(** The clock, and the last moment it can read. *)
Variable now TIME_MAX : Z.

Definition report_started_at (r : ScanReport) : Z := default now (min_of (ph_started_at <$> rp_phases r)).

Definition phase_end (p : ScanPhase) : Z := if ph_started_at p + ph_elapsed p <=? TIME_MAX then ph_started_at p + ph_elapsed p else ph_started_at p.

Definition finished_at (r : ScanReport) : Z := default now (max_of (phase_end <$> rp_phases r)).

Definition observed_at (r : ScanReport) : Z :=
  if negb (bool_decide (rp_phases r = [])) then finished_at r else default now (max_of (h_last_seen <$> report_hosts r)).
End Clock.

(** ** What was left *)

(** A phase and the ones after it. *)
Fixpoint with_later (l : list ScanPhase) : list (ScanPhase * list ScanPhase) :=
  match l with [] => [] | phase :: later => (phase, later) :: with_later later end.

(** [later.kind == phase.kind && later.origin == phase.origin]. *)
Definition same_account (phase later : ScanPhase) : bool := bool_decide (ph_kind later = ph_kind phase) && bool_decide (ph_origin later = ph_origin phase).

Definition left_open (r : ScanReport) : bool :=
  existsb (fun '(phase, later) => ph_open phase && negb (existsb (fun l => same_account phase l && negb (ph_open l)) later)) (with_later (rp_phases r)).

(** No later phase of the account took up what a phase left. *)
Definition not_taken_up (pl : ScanPhase * list ScanPhase) : bool := negb (existsb (same_account (fst pl)) (snd pl)).

Definition passes_cut (r : ScanReport) : list Pass :=
  passes_in_order (filter (fun pl => not_taken_up pl = true) (with_later (rp_phases r)) ≫= (fun pl => ph_passes_cut (fst pl))).

Definition report_unreached (r : ScanReport) : Z :=
  fold_left (sat_add 128)
    ((fun pl => ph_unreached (fst pl)) <$> filter (fun pl => ((0 <? ph_unreached (fst pl)) && not_taken_up pl) = true) (with_later (rp_phases r))) 0.

(** [append]. *)
Definition ipset_append (into from : IpSet) : IpSet := fold_left push_v6_range (ips_v6 from) (fold_left push_v4_range (ips_v4 from) into).

(** [listed_within]. *)
Definition listed_within (hosts : list Host) (within : IpSet) : IpSet :=
  if ipset_is_empty within then ipset_new
  else fold_left (fun listed a => if contains within a then ipset_insert listed a else listed) (hosts ≫= (fun h => ascending (host_ips h))) ipset_new.

(** One phase of [ScanReport::undecided]: what is open, and what is decided. *)
Definition phase_decides (st : IpSet * IpSet) (phase : ScanPhase) : IpSet * IpSet :=
  let '(open, decided) := st in
  let left := fold_left insert_range (ph_undecided phase) ipset_new in
  let walked := subtract (fold_left insert_range (sc_ranges (ph_targets phase)) ipset_new) left in
  (ipset_append open left, ipset_extend (ipset_append decided walked) (ph_unroutable phase)).

Definition is_alive (h : Host) : bool := status_is_alive (h_status h).

Definition report_undecided (r : ScanReport) : list IpRange :=
  let '(open, decided) := fold_left phase_decides (rp_phases r) (ipset_new, ipset_new) in
  if ipset_is_empty open then []
  else
    let open := canonicalize (subtract open decided) in
    let alive := listed_within (filter (fun h => is_alive h = true) (report_hosts r)) open in
    ip_set_ranges (canonicalize (subtract open alive)).

(** What a phase walked, merged. *)
Definition phase_walked (phase : ScanPhase) : IpSet := canonicalize (fold_left insert_range (sc_ranges (ph_targets phase)) ipset_new).

Definition report_timed_out (r : ScanReport) : list IpAddr :=
  let left :=
    filter
      (fun ki =>
         existsb (fun other => bool_decide (ph_kind other = fst ki) && contains (phase_walked other) (snd ki) && negb (bool_decide (snd ki ∈ ph_timed_out other)))
           (rp_phases r) = false)
      (rp_phases r ≫= (fun phase => pair (ph_kind phase) <$> ph_timed_out phase)) in
  dedup (fun a b => bool_decide (a = b)) (sort_by ip_leb left.*2).

Definition host_ports (h : Host) : list Port := ports_in_order (tb_ports (h_table h)).

Definition left_ports_unasked (r : ScanReport) : bool :=
  let unasked := filter (fun h => existsb (fun p => bool_decide (pt_state p = PortUnasked)) (host_ports h) = true) (report_hosts r) in
  match unasked with
  | [] => false
  | _ =>
    let unroutable : gset IpAddr := list_to_set (rp_phases r ≫= ph_unroutable) in
    existsb (fun h => existsb (fun ip => negb (bool_decide (ip ∈ unroutable))) (ascending (host_ips h))) unasked
  end.

Definition is_partial (r : ScanReport) : bool :=
  existsb (fun phase => existsb narrows_coverage (ph_failures phase) || negb (is_nil (ph_refusals phase))) (rp_phases r) ||
  negb (is_nil (report_timed_out r)) || negb (is_nil (report_undecided r)) || left_ports_unasked r || (0 <? report_unreached r) ||
  negb (is_nil (passes_cut r)) || left_open r.

(** ** Counts *)

Record FamilyCounts := mkFamilyCounts {
  fc_ipv4 : nat;
  fc_ipv6 : nat;
  fc_dual_stack : nat;
}.

Record ScanSummary := mkScanSummary {
  su_hosts_total : nat;
  su_hosts_alive : nat;
  su_hosts_by_status : list (HostStatus * nat);
  su_ports_total : nat;
  su_ports_open : nat;
  su_ports_by_state : list (PortState * nat);
  su_services_identified : nat;
  su_hosts_by_family : FamilyCounts;
}.

(** A map from a few values to counts, in their order: [*map.entry(x).or_default() += 1]. *)
Fixpoint count_in {A} (rank : A -> Z) (x : A) (m : list (A * nat)) : list (A * nat) :=
  match m with
  | [] => [(x, 1%nat)]
  | (y, n) :: rest =>
    match rank x ?= rank y with Lt => (x, 1%nat) :: m | Eq => (y, S n) :: rest | Gt => (y, n) :: count_in rank x rest end
  end.

Definition bit (b : bool) : nat := if b then 1%nat else 0%nat.

Definition is_ipv4 (ip : IpAddr) : bool := match ip with V4 _ => true | V6 _ => false end.

Definition count_port (s : ScanSummary) (p : Port) : ScanSummary :=
  mkScanSummary (su_hosts_total s) (su_hosts_alive s) (su_hosts_by_status s) (S (su_ports_total s))
    (su_ports_open s + bit (bool_decide (pt_state p = PortOpen))) (count_in port_state_rank (pt_state p) (su_ports_by_state s))
    (su_services_identified s + bit (match pt_service p with Some service => negb (is_inferred service) | None => false end)) (su_hosts_by_family s).

Definition count_host (s : ScanSummary) (h : Host) : ScanSummary :=
  let v4 := existsb is_ipv4 (ascending (host_ips h)) in
  let v6 := existsb (fun ip => negb (is_ipv4 ip)) (ascending (host_ips h)) in
  let f := su_hosts_by_family s in
  fold_left count_port (host_ports h)
    (mkScanSummary (S (su_hosts_total s)) (su_hosts_alive s + bit (is_alive h)) (count_in status_rank (h_status h) (su_hosts_by_status s)) (su_ports_total s)
       (su_ports_open s) (su_ports_by_state s) (su_services_identified s)
       (mkFamilyCounts (fc_ipv4 f + bit v4) (fc_ipv6 f + bit v6) (fc_dual_stack f + bit (v4 && v6)))).

Definition no_counts : ScanSummary := mkScanSummary 0 0 [] 0 0 [] 0 (mkFamilyCounts 0 0 0).

Definition summary (r : ScanReport) : ScanSummary := fold_left count_host (report_hosts r) no_counts.

(** ** The hosts that answered, as targets *)

Definition push_alive (ips : IpSet) (h : Host) : IpSet :=
  match ad_primary (h_addresses h) with
  | V4 v4 => match v4_new v4 v4 with Ok range => push_v4_range ips range | Err _ => ips end
  | V6 v6 =>
    let zone := if is_unicast_link_local v6 then h_zone h ≫= z_index else None in
    match v6_scoped v6 v6 zone with Ok range => push_v6_range ips range | Err _ => ips end
  end.

Definition alive_targets (r : ScanReport) (ports : PortSet) : TargetMap :=
  let ips := canonicalize (fold_left push_alive (filter (fun h => is_alive h = true) (report_hosts r)) ipset_new) in
  if ipset_is_empty ips then mkTargetMap [] else add_unit (mkTargetMap []) (targetset_new ips ports).

(** ** The hosts of a report *)

Lemma empty_contains s ip : ipset_is_empty s = true -> contains s ip = false.
Proof. destruct s as [[|] [|] [] []], ip; done. Qed.

Lemma merge_key self other :
  host_ok self -> host_key (scoped_ip other) = host_key (scoped_ip self) -> host_key (scoped_ip (host_merge self other)) = host_key (scoped_ip self).
Proof.
  intros (Ha & _) Hk. assert (forall h, fst (host_key (scoped_ip h)) = ad_primary (h_addresses h)) as Hfst by (intros h; unfold scoped_ip; by destruct (h_zone h)).
  assert (ad_primary (h_addresses other) = ad_primary (h_addresses self)) as Hp by (rewrite <- !Hfst; by rewrite Hk).
  assert (ad_primary (h_addresses (host_merge self other)) = ad_primary (h_addresses self)) as Hm.
  { cbn. unfold addresses_merge, consider_primary_ip. destruct (admit_all_ok (ascending (ad_ips (h_addresses other))) _ Ha) as [Hok E].
    destruct (bool_decide _); cbn; [|by rewrite admit_ip_primary]. rewrite Hp, admit_ip_primary, E, Z.leb_refl. cbn. by rewrite admit_ip_primary. }
  unfold scoped_ip in Hk |- *. rewrite Hm. cbn [h_zone host_merge].
  destruct (h_zone self) as [z|], (h_zone other) as [z'|]; cbn [get_or_insert]; try done. cbn in Hk |- *. by rewrite Hp in Hk.
Qed.

Lemma later_key self later : host_key (scoped_ip (merge_later_account self later)) = host_key (scoped_ip (host_merge self later)).
Proof. done. Qed.

Lemma later_ok self later : host_ok self -> host_ok later -> host_ok (merge_later_account self later).
Proof. intros Hs Hl. apply (host_step_ok (fun _ => None) (h_first_seen self) 0 self); [done|lia|]. constructor. by apply host_ok_record. Qed.

(** What folds one record of a host into another. *)
Class HostFold (fold : Host -> Host -> Host) : Prop := {
  fold_ok self other : host_ok self -> host_ok other -> host_ok (fold self other);
  fold_key self other : host_ok self -> host_key (scoped_ip other) = host_key (scoped_ip self) -> host_key (scoped_ip (fold self other)) = host_key (scoped_ip self);
  fold_status self other : h_status (fold self other) = promote status_rank (h_status self) (h_status other);
}.

#[export] Instance host_merge_folds : HostFold host_merge.
Proof. split; [apply host_merge_ok|apply merge_key|done]. Qed.

#[export] Instance merge_later_folds : HostFold merge_later_account.
Proof. split; [apply later_ok|intros; rewrite later_key; by apply merge_key|done]. Qed.

(** Every host is sound and under the key of the address it is reported under. *)
Definition hosts_ok (m : gmap HostKey Host) : Prop := map_Forall (fun k h => host_key (scoped_ip h) = k /\ host_ok h) m.

Lemma fold_entry_ok fold m k h : HostFold fold -> hosts_ok m -> host_key (scoped_ip h) = k -> host_ok h -> hosts_ok (fold_entry fold m (k, h)).
Proof.
  intros Hf Hm Hk Hh. unfold fold_entry. cbn [fst snd]. destruct (m !! k) as [e|] eqn:E; (apply map_Forall_insert_2; [|done]); [|done].
  destruct (Hm _ _ E) as [Hek Heo]. split; [rewrite <- Hek; apply fold_key; [done|congruence]|by apply fold_ok].
Qed.

Lemma index_host_is_fold m h : index_host m h = fold_entry host_merge m (host_key (scoped_ip h), h).
Proof. done. Qed.

Lemma index_hosts_ok hosts : Forall host_ok hosts -> hosts_ok (index_hosts hosts).
Proof.
  unfold index_hosts. assert (hosts_ok ∅) as H0 by apply map_Forall_empty. revert H0. generalize (∅ : gmap HostKey Host).
  induction hosts as [|h hosts IH]; intros m Hm Hh; [done|]. apply Forall_cons in Hh as [Hh Hr]. cbn. apply IH; [|done].
  rewrite index_host_is_fold. apply fold_entry_ok; [apply _|done..].
Qed.

Lemma elem_of_host_entries m k h : (k, h) ∈ host_entries m <-> m !! k = Some h.
Proof. unfold host_entries. by rewrite elem_of_sort_by, elem_of_map_to_list. Qed.

Lemma elem_of_report_hosts r h : h ∈ report_hosts r <-> exists k, rp_hosts r !! k = Some h.
Proof.
  unfold report_hosts. rewrite list_elem_of_fmap. split.
  - intros ([k h'] & -> & Hin%elem_of_host_entries). by exists k.
  - intros [k E]. exists (k, h). split; [done|]. by apply elem_of_host_entries.
Qed.

Lemma host_entries_nodup m : NoDup (host_entries m).*1.
Proof. unfold host_entries. rewrite sort_by_perm. apply NoDup_fst_map_to_list. Qed.

(** What is under a key after the entries of a map are folded into another. *)
Lemma fold_entries_lookup fold l m k :
  NoDup l.*1 ->
  fold_left (fold_entry fold) l m !! k =
  match list_to_map (M := gmap HostKey Host) l !! k with
  | Some h => Some (match m !! k with Some e => fold e h | None => h end)
  | None => m !! k
  end.
Proof.
  revert m. induction l as [|[j h] l IH]; intros m; cbn; [by rewrite lookup_empty|]. intros [Hj Hn]%NoDup_cons. rewrite IH by done.
  assert (forall k, fold_entry fold m (j, h) !! k = if decide (k = j) then Some (match m !! j with Some e => fold e h | None => h end) else m !! k) as Hl.
  { intros i. unfold fold_entry. cbn. destruct (m !! j); (destruct (decide (i = j)) as [->|]; [by rewrite lookup_insert_eq|by rewrite lookup_insert_ne]). }
  rewrite Hl. destruct (decide (k = j)) as [->|Hne].
  - rewrite lookup_insert_eq. by rewrite (not_elem_of_list_to_map_1 l j).
  - by rewrite lookup_insert_ne.
Qed.

Lemma host_entries_map m : list_to_map (host_entries m) = m.
Proof.
  apply map_eq. intros k. destruct (m !! k) as [h|] eqn:E.
  - apply elem_of_list_to_map_1; [apply host_entries_nodup|by apply elem_of_host_entries].
  - apply not_elem_of_list_to_map_1. intros ([j h] & -> & Hin%elem_of_host_entries)%list_elem_of_fmap. cbn in E. congruence.
Qed.

Lemma fold_hosts_lookup fold m m' k :
  fold_left (fold_entry fold) (host_entries m') m !! k =
  match m' !! k with Some h => Some (match m !! k with Some e => fold e h | None => h end) | None => m !! k end.
Proof. rewrite fold_entries_lookup by apply host_entries_nodup. by rewrite host_entries_map. Qed.

Lemma forget_lookup r k : rp_hosts (forget_the_silent r) !! k = (h ← rp_hosts r !! k; if drops (unheard_of (rp_phases r)) h then None else Some h).
Proof.
  unfold forget_the_silent. destruct (ipset_is_empty _) eqn:E; cbn.
  - destruct (rp_hosts r !! k) as [h|]; [|done]. cbn. unfold drops. assert (existsb (contains (unheard_of (rp_phases r))) (ascending (host_ips h)) = false) as ->.
    { apply not_true_iff_false. intros (x & _ & Hx)%existsb_exists. by rewrite empty_contains in Hx. } by rewrite andb_false_r.
  - rewrite map_lookup_filter. destruct (rp_hosts r !! k) as [h|]; [|done]. cbn. destruct (drops _ h) eqn:Ed; [rewrite option_guard_False|rewrite option_guard_True]; done.
Qed.

Lemma forget_phases r : rp_phases (forget_the_silent r) = rp_phases r.
Proof. unfold forget_the_silent. by destruct (ipset_is_empty _). Qed.

(** Sound hosts under their own keys, none of them a record nothing was heard from at an
    address some phase found silent. *)
Definition report_ok (r : ScanReport) : Prop :=
  hosts_ok (rp_hosts r) /\ map_Forall (fun _ h => drops (unheard_of (rp_phases r)) h = false) (rp_hosts r).

(** A report as the engine puts one together. *)
Inductive assembled : ScanReport -> Prop :=
  | AssembledFrom engine_version phases hosts : Forall host_ok hosts -> assembled (attributed engine_version phases hosts)
  | AssembledMerge self other : assembled self -> assembled other -> assembled (report_merge self other)
  | AssembledLater self later : assembled self -> assembled later -> assembled (merge_later_copy self later).

Lemma forget_ok r : hosts_ok (rp_hosts r) -> report_ok (forget_the_silent r).
Proof.
  intros H. split; intros k h; rewrite forget_lookup; destruct (rp_hosts r !! k) as [h'|] eqn:E; cbn; try done; destruct (drops _ h') eqn:Ed; try done; intros [= <-].
  - by apply H.
  - by rewrite forget_phases.
Qed.

Lemma report_fold_ok fold a b : HostFold fold -> hosts_ok (rp_hosts a) -> hosts_ok (rp_hosts b) -> report_ok (report_fold fold a b).
Proof.
  intros Hf Ha Hb. apply forget_ok. intros k h. cbn. rewrite fold_hosts_lookup. destruct (rp_hosts b !! k) as [h'|] eqn:Eb; [|apply Ha].
  intros [= <-]. destruct (Hb _ _ Eb) as [Hk Ho]. destruct (rp_hosts a !! k) as [e|] eqn:Ea; [|done]. destruct (Ha _ _ Ea) as [Hek Heo].
  split; [rewrite <- Hek; apply fold_key; [done|congruence]|by apply fold_ok].
Qed.

Lemma assembled_ok r : assembled r -> report_ok r.
Proof.
  induction 1 as [v phases hosts Hh|self other _ [Hs _] _ [Ho _]|self later _ [Hs _] _ [Hl _]];
    [apply forget_ok; by apply index_hosts_ok|by apply report_fold_ok; [apply _|..]..].
Qed.

Lemma not_unknown_rank s : s <> StatusUnknown <-> 0 < status_rank s.
Proof. destruct s; cbn; split; (done || lia || by intros ?). Qed.

(** Two reports folded: a host that either heard of is there, no less alive than either says;
    what both have is folded together; and what neither has is not there. *)
Theorem fold_keeps_what_was_heard fold a b k : HostFold fold ->
  let r := report_fold fold a b in
  (forall h, rp_hosts a !! k = Some h \/ rp_hosts b !! k = Some h -> h_status h <> StatusUnknown ->
     exists h', rp_hosts r !! k = Some h' /\ status_rank (h_status h) <= status_rank (h_status h')) /\
  (forall h', rp_hosts r !! k = Some h' ->
     match rp_hosts a !! k, rp_hosts b !! k with
     | Some x, Some y => h' = fold x y
     | Some x, None | None, Some x => h' = x
     | None, None => False
     end) /\
  rp_phases r = rp_phases a ++ rp_phases b.
Proof.
  intros Hf r. unfold r, report_fold. rewrite forget_phases. split_and!; [| |done].
  - intros h Hh Hs. rewrite forget_lookup. cbn. rewrite fold_hosts_lookup.
    assert (exists x, (match rp_hosts b !! k with Some y => Some (match rp_hosts a !! k with Some e => fold e y | None => y end) | None => rp_hosts a !! k end) = Some x /\
      status_rank (h_status h) <= status_rank (h_status x)) as (x & -> & Hx).
    { destruct (rp_hosts b !! k) as [y|], (rp_hosts a !! k) as [e|]; destruct Hh as [Hh|Hh]; try done; injection Hh as <-; eexists; (split; [done|]);
        rewrite ?fold_status, ?promote_rank; lia. }
    cbn. exists x. split; [|done]. unfold drops. rewrite bool_decide_eq_false_2; [done|]. apply not_unknown_rank. apply not_unknown_rank in Hs. lia.
  - intros h'. rewrite forget_lookup. cbn. rewrite fold_hosts_lookup. destruct (rp_hosts b !! k) as [y|], (rp_hosts a !! k) as [e|]; cbn; try done;
      destruct (drops _ _); try done; by intros [= <-].
Qed.

(** ** What is undecided *)

Definition in_ranges (l : list IpRange) (ip : IpAddr) : Prop := exists r, r ∈ l /\ range_contains r ip = true.

Lemma in_ranges_nil ip : ~ in_ranges [] ip.
Proof. by intros (r & ?%elem_of_nil & _). Qed.

Lemma insert_ranges_member l s ip :
  ipset_ok s -> Forall range_ok l ->
  ipset_ok (fold_left insert_range l s) /\ (member (fold_left insert_range l s) ip <-> member s ip \/ in_ranges l ip).
Proof.
  intros Hs Hl. destruct (insert_ranges_spec l s Hs Hl) as [Hok Hh]. split; [done|]. unfold member, in_ranges. setoid_rewrite Hh. split.
  - intros (zone & [H|(r & Hr & _ & Hc)]); [left; by exists zone|right; by exists r].
  - intros [[zone H]|(r & Hr & Hc)]; [exists zone; by left|exists (range_zone r); right; by exists r].
Qed.

Lemma new_member ip : ~ member ipset_new ip.
Proof. intros [zone H]. by apply new_holds_nothing in H. Qed.

Lemma from_ranges_member l ip : Forall range_ok l -> ipset_ok (fold_left insert_range l ipset_new) /\ (member (fold_left insert_range l ipset_new) ip <-> in_ranges l ip).
Proof. intros Hl. destruct (insert_ranges_member l ipset_new ip ipset_new_ok Hl) as [H1 H2]. split; [done|]. rewrite H2. pose proof (new_member ip). tauto. Qed.

Lemma append_is_insert into from : ipset_append into from = fold_left insert_range (ip_set_ranges from) into.
Proof.
  unfold ipset_append, ip_set_ranges. rewrite fold_left_app. revert into. induction (ips_v4 from) as [|r l IH]; intros into; cbn; [|apply IH].
  revert into. induction (ips_v6 from) as [|r l IH]; intros into; cbn; [done|apply IH].
Qed.

Lemma ip_set_ranges_ok s : ipset_ok s -> Forall range_ok (ip_set_ranges s).
Proof. intros (H4 & H6 & _). unfold ip_set_ranges. apply Forall_app. split; apply Forall_fmap; (eapply Forall_impl; [eassumption|]); done. Qed.

Lemma ip_set_ranges_member s ip : in_ranges (ip_set_ranges s) ip <-> member s ip.
Proof.
  unfold in_ranges, ip_set_ranges. setoid_rewrite elem_of_app. destruct ip as [x|x].
  - rewrite member_den_v4. split.
    + intros (r & [(v & -> & Hv)%list_elem_of_fmap|(v & -> & Hv)%list_elem_of_fmap] & Hc); [|done]. exists v. apply v4_contains_spec in Hc. done.
    + intros (v & Hv & _ & Hc). exists (RV4 v). split; [left; by apply list_elem_of_fmap_2|]. by apply v4_contains_spec.
  - split.
    + intros (r & [(v & -> & Hv)%list_elem_of_fmap|(v & -> & Hv)%list_elem_of_fmap] & Hc); [done|]. exists (v6_zone v), v. apply v6_contains_spec in Hc. done.
    + intros (zone & v & Hv & _ & Hc). exists (RV6 v). split; [right; by apply list_elem_of_fmap_2|]. by apply v6_contains_spec.
Qed.

Lemma append_member into from ip :
  ipset_ok into -> ipset_ok from -> ipset_ok (ipset_append into from) /\ (member (ipset_append into from) ip <-> member into ip \/ member from ip).
Proof.
  intros Hi Hf. rewrite append_is_insert. destruct (insert_ranges_member (ip_set_ranges from) into ip Hi (ip_set_ranges_ok _ Hf)) as [H1 H2].
  split; [done|]. by rewrite H2, ip_set_ranges_member.
Qed.

Lemma set_extend_member ips s ip : ipset_ok s -> Forall ip_fits ips -> ipset_ok (ipset_extend s ips) /\ (member (ipset_extend s ips) ip <-> member s ip \/ ip ∈ ips).
Proof.
  intros Hs Hi. destruct (extend_spec ips s Hs Hi) as [H1 H2]. split; [done|]. unfold member. setoid_rewrite H2. split.
  - intros (zone & [H|[_ H]]); [left; by exists zone|by right].
  - intros [[zone H]|H]; [exists zone; by left|exists None; by right].
Qed.

(** The addresses a phase records are addresses. *)
Definition phase_ok (p : ScanPhase) : Prop :=
  Forall range_ok (sc_ranges (ph_targets p)) /\ Forall range_ok (sc_excluded (ph_targets p)) /\ Forall range_ok (ph_undecided p) /\ Forall range_ok (ph_silent p) /\
  Forall ip_fits (ph_unroutable p).

Definition host_fits (h : Host) : Prop := forall ip, ip ∈ host_ips h -> ip_fits ip.

Definition report_fits (r : ScanReport) : Prop := Forall phase_ok (rp_phases r) /\ Forall host_fits (report_hosts r).

(** A phase settles an address it walked and did not leave undecided, and one it could not
    reach. *)
Definition decides (p : ScanPhase) (ip : IpAddr) : Prop :=
  (in_ranges (sc_ranges (ph_targets p)) ip /\ ~ in_ranges (ph_undecided p) ip) \/ ip ∈ ph_unroutable p.

Lemma phases_decide phases st ip :
  Forall phase_ok phases -> ipset_ok (fst st) -> ipset_ok (snd st) ->
  let r := fold_left phase_decides phases st in
  ipset_ok (fst r) /\ ipset_ok (snd r) /\ (member (fst r) ip <-> member (fst st) ip \/ exists p, p ∈ phases /\ in_ranges (ph_undecided p) ip) /\
  (member (snd r) ip <-> member (snd st) ip \/ exists p, p ∈ phases /\ decides p ip).
Proof.
  revert st. induction phases as [|p phases IH]; intros [open decided] Hp Ho Hd; cbn in Ho, Hd.
  { cbn. split_and!; try done; (split; [tauto|]); intros [?|(p & ?%elem_of_nil & _)]; done. }
  apply Forall_cons in Hp as [(Hw & _ & Hu & _ & Hr) Hp]. cbn [fold_left].
  destruct (from_ranges_member (ph_undecided p) ip Hu) as [Hlo Hlm]. destruct (from_ranges_member (sc_ranges (ph_targets p)) ip Hw) as [Hwo Hwm].
  set (left := fold_left insert_range (ph_undecided p) ipset_new) in *. set (walked := fold_left insert_range (sc_ranges (ph_targets p)) ipset_new) in *.
  assert (phase_decides (open, decided) p = (ipset_append open left, ipset_extend (ipset_append decided (subtract walked left)) (ph_unroutable p))) as -> by done.
  pose proof (subtract_ok walked left Hwo Hlo) as Hso. destruct (append_member open left ip Ho Hlo) as [Hoo Hom].
  destruct (append_member decided (subtract walked left) ip Hd Hso) as [Hdo Hdm]. destruct (set_extend_member (ph_unroutable p) _ ip Hdo Hr) as [Heo Hem].
  destruct (IH (ipset_append open left, ipset_extend (ipset_append decided (subtract walked left)) (ph_unroutable p)) Hp Hoo Heo) as (H1 & H2 & H3 & H4).
  split_and!; try done.
  - rewrite H3. cbn. rewrite Hom, Hlm. setoid_rewrite elem_of_cons. split; [intros [[|]|(q & ? & ?)]|intros [|(q & [->|] & ?)]]; try tauto; eauto.
  - rewrite H4. cbn. rewrite Hem, Hdm, subtract_member, Hwm, Hlm by done. unfold decides. setoid_rewrite elem_of_cons.
    split; [intros [[[|]|]|(q & ? & ?)]|intros [|(q & [->|] & [|])]]; try tauto; eauto 6.
Qed.

Lemma filter_Forall {A} (P Q : A -> Prop) `{!forall x, Decision (P x)} (l : list A) : Forall Q l -> Forall Q (filter P l).
Proof. rewrite !Forall_forall. intros HQ x [_ Hx]%list_elem_of_filter. by apply HQ. Qed.

Lemma listed_within_member hosts within ip :
  ipset_ok within -> Forall host_fits hosts ->
  ipset_ok (listed_within hosts within) /\ (member (listed_within hosts within) ip <-> member within ip /\ exists h, h ∈ hosts /\ ip ∈ host_ips h).
Proof.
  intros Hw Hh. unfold listed_within. destruct (ipset_is_empty within) eqn:E.
  { split; [apply ipset_new_ok|]. pose proof (empty_no_member within E ip). pose proof (new_member ip). tauto. }
  set (l := hosts ≫= _). assert (forall a, a ∈ l <-> exists h, h ∈ hosts /\ a ∈ host_ips h) as Hl.
  { intros a. unfold l. rewrite list_elem_of_bind. unfold ascending. setoid_rewrite elem_of_sort_by. setoid_rewrite elem_of_elements. naive_solver. }
  assert (Forall ip_fits l) as Hf by (apply Forall_forall; intros a (h & Hin & Ha)%Hl; rewrite Forall_forall in Hh; by apply (Hh h)).
  assert (fold_left (fun listed a => if contains within a then ipset_insert listed a else listed) l ipset_new = ipset_extend ipset_new (filter (fun a => contains within a = true) l)) as ->.
  { unfold ipset_extend. generalize ipset_new. clear. induction l as [|a l IH]; intros s; [done|]. cbn [fold_left]. rewrite IH.
    destruct (contains within a) eqn:E; [rewrite filter_cons_True by done|rewrite filter_cons_False by (by rewrite E)]; done. }
  destruct (set_extend_member (filter (fun a => contains within a = true) l) ipset_new ip ipset_new_ok) as [H1 H2]; [by apply filter_Forall|].
  split; [done|]. rewrite H2, list_elem_of_filter, Hl, contains_member by done. pose proof (new_member ip). tauto.
Qed.

(** C14: The addresses a report has no verdict on are exactly the ones some phase left undecided
    and none settled, by walking them to an end or finding them out of reach, and at which no
    live host is listed. *)
Theorem undecided_exact r ip :
  report_fits r ->
  in_ranges (report_undecided r) ip <->
  (exists p, p ∈ rp_phases r /\ in_ranges (ph_undecided p) ip) /\ ~ (exists p, p ∈ rp_phases r /\ decides p ip) /\
  ~ (exists h, h ∈ report_hosts r /\ is_alive h = true /\ ip ∈ host_ips h).
Proof.
  intros [Hp Hh]. unfold report_undecided. destruct (phases_decide (rp_phases r) (ipset_new, ipset_new) ip Hp ipset_new_ok ipset_new_ok) as (Ho & Hd & Hom & Hdm).
  destruct (fold_left phase_decides (rp_phases r) (ipset_new, ipset_new)) as [open decided]. cbn in Ho, Hd, Hom, Hdm. pose proof (new_member ip) as Hnew.
  destruct (ipset_is_empty open) eqn:E.
  { pose proof (empty_no_member open E ip). pose proof (in_ranges_nil ip). tauto. }
  pose proof (subtract_ok open decided Ho Hd) as Hso. destruct (canonicalize_canon _ Hso) as [Hco _].
  assert (Forall host_fits (filter (fun h => is_alive h = true) (report_hosts r))) as Hal by by apply filter_Forall.
  destruct (listed_within_member _ _ ip Hco Hal) as [Hlo Hlm]. set (listed := listed_within _ _) in *.
  rewrite ip_set_ranges_member, canonicalize_member, subtract_member, Hlm, canonicalize_member, subtract_member, Hom, Hdm by (done || by apply subtract_ok).
  setoid_rewrite list_elem_of_filter. split; [|naive_solver]. intros [[H1 H2] H3]. split_and!; [tauto|tauto|]. intros (h & ? & ? & ?). apply H3. split; [tauto|]. by exists h.
Qed.

(** *** The phases a comparison reads *)

Definition names_silent (phases : list ScanPhase) (ip : IpAddr) : Prop :=
  exists p, p ∈ phases /\ (in_ranges (ph_silent p) ip \/ (ph_kind p = PortScan /\ in_ranges (ph_undecided p) ip)).

(** What is dropped for silence is what nothing was heard from, wherever it was asked. *)
Lemma unheard_member phases ip : Forall phase_ok phases -> contains (unheard_of phases) ip = true <-> names_silent phases ip.
Proof.
  intros Hp. unfold unheard_of, unheard_reading, names_silent.
  assert (forall l s, Forall phase_ok l -> ipset_ok s ->
    let t := fold_left (fun unheard phase => let unheard := fold_left insert_range (ph_silent phase) unheard in
      if bool_decide (ph_kind phase = PortScan) && (true || negb (ph_open phase)) then fold_left insert_range (ph_undecided phase) unheard else unheard) l s in
    ipset_ok t /\ (member t ip <-> member s ip \/ exists p, p ∈ l /\ (in_ranges (ph_silent p) ip \/ (ph_kind p = PortScan /\ in_ranges (ph_undecided p) ip)))) as Hl.
  { induction l as [|p l IH]; intros s Hl Hs; [cbn; split; [done|]; split; [tauto|]; intros [|(p & ?%elem_of_nil & _)]; done|].
    apply Forall_cons in Hl as [(_ & _ & Hu & Hsil & _) Hl]. destruct (insert_ranges_member _ _ ip Hs Hsil) as [H1 H2]. destruct (insert_ranges_member _ _ ip H1 Hu) as [H3 H4].
    cbn [fold_left]. setoid_rewrite elem_of_cons. case_bool_decide as Hk; cbn [andb orb]; [destruct (IH _ Hl H3) as [H5 H6]|destruct (IH _ Hl H1) as [H5 H6]]; (split; [done|]); rewrite H6, ?H4, H2.
    - split; [intros [[[|]|]|(q & ? & ?)]|intros [|(q & [->|] & ?)]]; try tauto; eauto 7.
    - split; [intros [[|]|(q & ? & ?)]|intros [|(q & [->|] & ?)]]; try tauto; eauto 7. }
  destruct (Hl phases ipset_new Hp ipset_new_ok) as [H1 H2]. destruct (canonicalize_canon _ H1) as [H3 _]. rewrite contains_member, canonicalize_member, H2 by done.
  pose proof (new_member ip). tauto.
Qed.

(** C13: However a report is put together, from the hosts of a scan or from other reports, every
    host in it is sound and is under the address it is reported under, and none is a record
    nothing was heard from at an address a phase found silent. *)
Theorem assembled_reports_are_sound r :
  assembled r -> Forall phase_ok (rp_phases r) ->
  hosts_ok (rp_hosts r) /\
  forall h ip, h ∈ report_hosts r -> ip ∈ host_ips h -> names_silent (rp_phases r) ip -> h_status h <> StatusUnknown.
Proof.
  intros [Hh Hd]%assembled_ok Hp. split; [done|]. intros h ip [k E]%elem_of_report_hosts Hip Hsil Hu. specialize (Hd k h E). cbn in Hd.
  unfold drops in Hd. rewrite bool_decide_eq_true_2 in Hd by done. cbn in Hd. apply not_true_iff_false in Hd. apply Hd, existsb_exists. exists ip.
  split; [|by apply unheard_member]. apply list_elem_of_In. unfold ascending. by rewrite elem_of_sort_by, elem_of_elements.
Qed.

(** *** Counts *)

(** How many a map of counts gives a value. *)
Definition counted {A} `{EqDecision A} (x : A) (m : list (A * nat)) : nat := sum_list (filter (fun e => fst e = x) m).*2.

#[local] Arguments counted : simpl never.

Lemma count_in_counted {A} `{EqDecision A} (rank : A -> Z) x y m :
  (forall a b, rank a = rank b -> a = b) -> counted y (count_in rank x m) = (counted y m + bit (bool_decide (x = y)))%nat.
Proof.
  intros Hinj. unfold counted. induction m as [|[z n] m IH]; cbn [count_in].
  - rewrite filter_cons. cbn. case_bool_decide; destruct (decide (x = y)); done.
  - destruct (Z.compare_spec (rank x) (rank z)) as [E|E|E].
    + apply Hinj in E as ->. rewrite !filter_cons. cbn. case_bool_decide; destruct (decide (z = y)); try done; cbn; lia.
    + rewrite (filter_cons _ (x, 1%nat)). cbn [fst]. case_bool_decide; destruct (decide (x = y)); try done; cbn; lia.
    + rewrite !(filter_cons _ (z, n)). cbn [fst]. destruct (decide (z = y)); cbn; rewrite IH; lia.
Qed.

Definition how_many {A} (f : A -> bool) (l : list A) : nat := length (filter (fun x => f x = true) l).

#[local] Arguments how_many : simpl never.

Lemma how_many_cons {A} (f : A -> bool) x l : how_many f (x :: l) = (bit (f x) + how_many f l)%nat.
Proof. unfold how_many. rewrite filter_cons. destruct (f x); destruct (decide _); done. Qed.

Lemma how_many_app {A} (f : A -> bool) l k : how_many f (l ++ k) = (how_many f l + how_many f k)%nat.
Proof. unfold how_many. rewrite filter_app, length_app. done. Qed.

Lemma count_ports l s st :
  let r := fold_left count_port l s in
  su_hosts_total r = su_hosts_total s /\ su_hosts_alive r = su_hosts_alive s /\ su_hosts_by_status r = su_hosts_by_status s /\
  su_ports_total r = (su_ports_total s + length l)%nat /\ su_ports_open r = (su_ports_open s + how_many is_open l)%nat /\
  counted st (su_ports_by_state r) = (counted st (su_ports_by_state s) + how_many (fun p => bool_decide (pt_state p = st)) l)%nat.
Proof.
  revert s. induction l as [|p l IH]; intros s; cbn [fold_left]; [cbn; split_and!; try done; lia|].
  destruct (IH (count_port s p)) as (-> & -> & -> & -> & -> & ->). cbn. rewrite !how_many_cons, count_in_counted by (by intros [] []). split_and!; try done; unfold is_open; lia.
Qed.

(** The counts of a report are those of what it holds: its hosts, the live ones and those of
    each status; the ports of all its hosts, the open ones and those of each state. *)
Theorem summary_counts r hs ps :
  let s := summary r in
  let ports := report_hosts r ≫= host_ports in
  su_hosts_total s = size (rp_hosts r) /\ su_hosts_alive s = how_many is_alive (report_hosts r) /\
  counted hs (su_hosts_by_status s) = how_many (fun h => bool_decide (h_status h = hs)) (report_hosts r) /\
  su_ports_total s = length ports /\ su_ports_open s = how_many is_open ports /\
  counted ps (su_ports_by_state s) = how_many (fun p => bool_decide (pt_state p = ps)) ports.
Proof.
  assert (length (report_hosts r) = size (rp_hosts r)) as <-.
  { unfold report_hosts, host_entries. rewrite length_fmap, (Permutation_length (sort_by_perm _ _)). apply length_map_to_list. }
  assert (forall l s, let t := fold_left count_host l s in
    su_hosts_total t = (su_hosts_total s + length l)%nat /\ su_hosts_alive t = (su_hosts_alive s + how_many is_alive l)%nat /\
    counted hs (su_hosts_by_status t) = (counted hs (su_hosts_by_status s) + how_many (fun h => bool_decide (h_status h = hs)) l)%nat /\
    su_ports_total t = (su_ports_total s + length (l ≫= host_ports))%nat /\ su_ports_open t = (su_ports_open s + how_many is_open (l ≫= host_ports))%nat /\
    counted ps (su_ports_by_state t) = (counted ps (su_ports_by_state s) + how_many (fun p => bool_decide (pt_state p = ps)) (l ≫= host_ports))%nat) as Hl.
  { induction l as [|h l IH]; intros s; cbn [fold_left]; [cbn; split_and!; try done; lia|].
    destruct (IH (count_host s h)) as (-> & -> & -> & -> & -> & ->). unfold count_host.
    set (s' := mkScanSummary _ _ _ _ _ _ _ _). destruct (count_ports (host_ports h) s' ps) as (-> & -> & -> & -> & -> & ->). cbn.
    rewrite !how_many_cons, !how_many_app, !length_app, (count_in_counted status_rank) by apply status_rank_inj. split_and!; try done; cbn; lia. }
  exact (Hl (report_hosts r) no_counts).
Qed.

(** *** Targets of the next phase *)

(** The interface an address of a host has to be reached through. *)
Definition target_zone (h : Host) : option Z :=
  match ad_primary (h_addresses h) with
  | V4 _ => None
  | V6 v6 => if is_unicast_link_local v6 then option_filter (fun index => negb (index =? 0)) (h_zone h ≫= z_index) else None
  end.

Definition target_fits (h : Host) : Prop := ip_fits (ad_primary (h_addresses h)) /\ zone_ok (target_zone h).

Lemma push_alive_spec ips h :
  ipset_ok ips -> target_fits h ->
  ipset_ok (push_alive ips h) /\
  forall ip zone, holds_at (push_alive ips h) ip zone <-> holds_at ips ip zone \/ (ip = ad_primary (h_addresses h) /\ zone = target_zone h).
Proof.
  intros Hi [Hf Hz]. unfold push_alive, target_zone in *. destruct (ad_primary (h_addresses h)) as [a|a]; cbn in Hf.
  - unfold v4_new. rewrite Z.leb_refl. destruct (push_v4_range_spec ips (v4_single a) Hi) as [H1 H2]; [by apply v4_single_ok|]. split; [done|].
    intros ip zone. rewrite (H2 ip zone). destruct ip as [x|x]; cbn [range_contains]; [|clear; split; intros [H|[H1 H2]]; try done; by left].
    rewrite v4_contains_spec. cbn. split; (intros [H|[H1' H2']]; [by left|right]); [split; [f_equal; lia|done]|]. injection H1' as ->. split; [done|lia].
  - unfold v6_scoped. rewrite Z.leb_refl.
    set (zone' := option_filter (fun index => negb (index =? 0)) (if is_unicast_link_local a then h_zone h ≫= z_index else None)).
    assert ((if is_unicast_link_local a then option_filter (fun index => negb (index =? 0)) (h_zone h ≫= z_index) else None) = zone') as Ez by (unfold zone'; by destruct (is_unicast_link_local a)).
    rewrite Ez in *. clearbody zone'. destruct (push_v6_range_spec ips (mkIpv6Range a a zone') Hi) as [H1 H2].
    { unfold v6_ok. cbn. split_and!; try done; unfold fits in Hf; lia. }
    split; [done|]. intros ip zone. rewrite (H2 ip zone). destruct ip as [x|x]; cbn [range_contains]; [clear; split; intros [H|[H1 H2]]; try done; by left|].
    rewrite v6_contains_spec. cbn. split; (intros [H|[H1' H2']]; [by left|right]); [split; [f_equal; lia|done]|]. injection H1' as ->. split; [done|lia].
Qed.

(** The targets made of a report are one unit of the ports asked for, at the leading address
    of each live host and no other address, on the interface it was found on where it needs
    one; and no unit where nothing is alive. *)
Theorem alive_targets_exact r ports :
  Forall target_fits (report_hosts r) ->
  match units (alive_targets r ports) with
  | [] => forall h, h ∈ report_hosts r -> is_alive h = false
  | [u] => ts_ports u = ports /\
      forall ip zone, holds_at (ts_ips u) ip zone <-> exists h, h ∈ report_hosts r /\ is_alive h = true /\ ip = ad_primary (h_addresses h) /\ zone = target_zone h
  | _ => False
  end.
Proof.
  intros Hf. assert (forall l s, Forall target_fits l -> ipset_ok s -> ipset_ok (fold_left push_alive l s) /\
    forall ip zone, holds_at (fold_left push_alive l s) ip zone <-> holds_at s ip zone \/ exists h, h ∈ l /\ ip = ad_primary (h_addresses h) /\ zone = target_zone h) as Hl.
  { induction l as [|h l IH]; intros s Hl Hs; [cbn; split; [done|]; intros; split; [by left|]; intros [|(h & ?%elem_of_nil & _)]; done|].
    apply Forall_cons in Hl as [Hh Hl]. destruct (push_alive_spec s h Hs Hh) as [H1 H2]. destruct (IH _ Hl H1) as [H3 H4]. cbn. split; [done|].
    intros ip zone. rewrite H4, H2. setoid_rewrite elem_of_cons. split; [intros [[|]|(q & ? & ?)]|intros [|(q & [->|] & ?)]]; try tauto; eauto. }
  unfold alive_targets. set (alive := filter _ (report_hosts r)). assert (Forall target_fits alive) as Ha by by apply filter_Forall.
  destruct (Hl alive ipset_new Ha ipset_new_ok) as [Ho Hh]. set (s := fold_left push_alive alive ipset_new) in *. destruct (canonicalize_canon s Ho) as [Hco Hcc].
  destruct (ipset_is_empty (canonicalize s)) eqn:E; cbn.
  - intros h Hin. destruct (is_alive h) eqn:Eh; [|done]. exfalso. apply (empty_no_member _ E (ad_primary (h_addresses h))). exists (target_zone h).
    rewrite canonicalize_holds_at, Hh by done. right. exists h. split; [|done]. by apply list_elem_of_filter.
  - split; [done|]. intros ip zone. rewrite !canonicalize_holds_at, Hh by done. pose proof (new_holds_nothing ip zone). unfold alive. setoid_rewrite list_elem_of_filter.
    split; [intros [|(h & ? & ?)]|intros (h & ? & ? & ?)]; try tauto; [exists h; tauto|right; exists h; tauto].
Qed.

(** ** A report, put together *)

(** A sweep of addresses 0 to 9 that found address 3 alive, could not reach 4 and had no verdict
    on 3 to 6. *)
Definition sample_sweep : ScanPhase :=
  mkScanPhase Retention.Discovery 0 1 (mkTargetScope [RV4 (mkIpv4Range 0 9)] [] [] 10 None ScopeNoPorts [] [] 0) [] [] [V4 4] [] [RV4 (mkIpv4Range 3 6)] [RV4 (mkIpv4Range 8 8)] None [] 0 0 None
    false.

Definition sample_report : ScanReport := attributed [] [sample_sweep] [host_set_status 1 StatusUp (host_new 0 (V4 3)); host_new 0 (V4 8)].

Lemma sample_sweep_ok : phase_ok sample_sweep.
Proof. unfold phase_ok. cbn. split_and!; repeat (apply Forall_nil_2 || apply Forall_cons_2); cbn; unfold v4_ok, fits, umax; cbn; lia. Qed.

Lemma sample_report_assembled : assembled sample_report.
Proof.
  apply AssembledFrom. apply Forall_cons_2; [|apply Forall_cons_2; [apply host_new_ok|apply Forall_nil_2]].
  apply (host_step_ok (fun _ => None) 1 0 (host_new 0 (V4 3))); [apply host_new_ok|cbn; lia|apply StepStatus].
Qed.

Lemma undecided_exact_witness : report_undecided sample_report = [RV4 (mkIpv4Range 5 6)] /\ exists p, p ∈ rp_phases sample_report /\ in_ranges (ph_undecided p) (V4 5).
Proof.
  split; [vm_compute; reflexivity|]. refine (proj1 (proj1 (undecided_exact sample_report (V4 5) _) _)).
  - split; [constructor; [apply sample_sweep_ok|constructor]|]. apply Forall_forall. intros h Hh ip Hip. assert (report_hosts sample_report = [host_set_status 1 StatusUp (host_new 0 (V4 3))]) as E by (vm_compute; reflexivity).
    rewrite E in Hh. apply list_elem_of_singleton in Hh as ->. assert (ip = V4 3) as -> by (by apply (elem_of_singleton (C := gset IpAddr))). by vm_compute.
  - exists (RV4 (mkIpv4Range 5 6)). split; [|reflexivity]. assert (report_undecided sample_report = [RV4 (mkIpv4Range 5 6)]) as -> by (vm_compute; reflexivity). by left.
Defined.

Lemma assembled_reports_are_sound_witness : size (rp_hosts sample_report) = 1%nat /\ hosts_ok (rp_hosts sample_report).
Proof.
  split; [vm_compute; reflexivity|]. apply (assembled_reports_are_sound sample_report sample_report_assembled). constructor; [apply sample_sweep_ok|constructor].
Defined.
