(* ===== verification/Scope.v ===== *)
(** * What a report says it looked at

    [diff/scope.rs]: the scopes of a report's phases, gathered into the answer a comparison
    needs, whether a host, an address or an endpoint was covered. *)

From Stdlib Require Import ZArith Lia.
From stdpp Require Import base numbers option list gmap.
From S2P Require Import Prelude Std Text IpRange IpSet PortSet Target Exclusion Scoped Retention Status Identity Host Report DiffPort.

Local Open Scope Z_scope.

Record ScopeIndex := mkScopeIndex {
  si_covered : IpSet;
  si_undecided : IpSet;
  si_withheld : IpSet;
  si_stated : bool;
  si_ports : list PortScope;
  si_scopes : list TargetScope;
}.

(** [ScopeIndex::of]. *)
Definition scope_index (r : ScanReport) : ScopeIndex :=
  let scopes := ph_targets <$> rp_phases r in
  let covered := canonicalize (fold_left (fun s scope => fold_left insert_range (sc_ranges scope) s) scopes ipset_new) in
  let withheld := canonicalize (fold_left (fun s scope => fold_left insert_range (sc_excluded scope) s) scopes ipset_new) in
  let undecided := canonicalize (fold_left insert_range (report_undecided r) ipset_new) in
  let stated := negb (ipset_is_empty covered) || negb (ipset_is_empty withheld) || existsb (fun scope => negb (is_nil (sc_links scope))) scopes in
  mkScopeIndex covered undecided withheld stated (sc_ports <$> scopes) scopes.

Definition scope_address (x : ScopeIndex) (ip : IpAddr) : Coverage :=
  if contains (si_undecided x) ip then Unreached
  else if contains (si_covered x) ip then Covered
  else if contains (si_withheld x) ip then CoverageWithheld
  else if si_stated x then OutOfScope
  else CoverageUnstated.

(** The addresses of [of_host], with the best answer so far. *)
Fixpoint best_address (x : ScopeIndex) (best : Coverage) (ips : list IpAddr) : Coverage :=
  match ips with
  | [] => best
  | ip :: rest =>
    match scope_address x ip with
    | Covered => Covered
    | CoverageWithheld => best_address x CoverageWithheld rest
    | OutOfScope => best_address x (if bool_decide (best = CoverageWithheld) then best else OutOfScope) rest
    | _ => best_address x best rest
    end
  end.

Definition scope_of_host (x : ScopeIndex) (h : Host) : Coverage :=
  if existsb (fun scope => swept scope (h_zone h)) (si_scopes x) then Covered else best_address x CoverageUnstated (ascending (host_ips h)).

(** The phases of [endpoint], with what was met so far. *)
Fixpoint best_endpoint (port : Z) (protocol : Protocol) (stated cannot_say : bool) (ports : list PortScope) : Coverage :=
  match ports with
  | [] => if cannot_say then CoverageUnstated else if stated then OutOfScope else CoverageUnstated
  | scope :: rest =>
    match scope_covers scope port protocol with
    | Some true => Covered
    | Some false => best_endpoint port protocol true cannot_say rest
    | None => best_endpoint port protocol stated true rest
    end
  end.

Definition scope_endpoint (x : ScopeIndex) (address : Coverage) (port : Z) (protocol : Protocol) : Coverage :=
  if is_excluded address || bool_decide (address = Unreached) then address else best_endpoint port protocol false false (si_ports x).

(** ** What the answers mean *)

Definition walks (p : ScanPhase) (ip : IpAddr) : Prop := in_ranges (sc_ranges (ph_targets p)) ip.

Definition forbids (p : ScanPhase) (ip : IpAddr) : Prop := in_ranges (sc_excluded (ph_targets p)) ip.

(** The report names some ground: addresses it walked, addresses it was forbidden, a link. *)
Definition names_ground (r : ScanReport) : Prop :=
  exists p, p ∈ rp_phases r /\ (sc_ranges (ph_targets p) <> [] \/ sc_excluded (ph_targets p) <> [] \/ sc_links (ph_targets p) <> []).

Lemma gathered_spec (f : TargetScope -> list IpRange) l s ip :
  Forall (fun scope => Forall range_ok (f scope)) l -> ipset_ok s ->
  let t := fold_left (fun s scope => fold_left insert_range (f scope) s) l s in
  ipset_ok t /\ (member t ip <-> member s ip \/ exists scope, scope ∈ l /\ in_ranges (f scope) ip).
Proof.
  revert s. induction l as [|scope l IH]; intros s Hl Hs; [cbn; split; [done|]; split; [by left|]; intros [|(x & ?%elem_of_nil & _)]; done|].
  apply Forall_cons in Hl as [Hf Hl]. destruct (insert_ranges_member (f scope) s ip Hs Hf) as [H1 H2]. destruct (IH _ Hl H1) as [H3 H4].
  cbn. split; [done|]. rewrite H4, H2. setoid_rewrite elem_of_cons. split; [intros [[|]|(q & ? & ?)]|intros [|(q & [->|] & ?)]]; try tauto; eauto.
Qed.

Lemma phases_gathered (f : TargetScope -> list IpRange) r ip :
  Forall (fun p => Forall range_ok (f (ph_targets p))) (rp_phases r) ->
  contains (canonicalize (fold_left (fun s scope => fold_left insert_range (f scope) s) (ph_targets <$> rp_phases r) ipset_new)) ip = true <->
  exists p, p ∈ rp_phases r /\ in_ranges (f (ph_targets p)) ip.
Proof.
  intros Hf. destruct (gathered_spec f (ph_targets <$> rp_phases r) ipset_new ip) as [H1 H2]; [by apply Forall_fmap|apply ipset_new_ok|].
  destruct (canonicalize_canon _ H1) as [H3 _]. rewrite contains_member, canonicalize_member, H2 by done. setoid_rewrite list_elem_of_fmap. pose proof (new_member ip).
  split; [intros [|(scope & (p & -> & Hp) & Hin)]; [tauto|eauto]|]. intros (p & Hp & Hin). right. exists (ph_targets p). split; [by exists p|done].
Qed.

Lemma report_undecided_ok r : report_fits r -> Forall range_ok (report_undecided r).
Proof.
  intros [Hp Hh]. unfold report_undecided.
  destruct (phases_decide (rp_phases r) (ipset_new, ipset_new) (V4 0) Hp ipset_new_ok ipset_new_ok) as (Ho & Hd & _).
  destruct (fold_left phase_decides (rp_phases r) (ipset_new, ipset_new)) as [open decided]. cbn in Ho, Hd. destruct (ipset_is_empty open); [constructor|].
  apply ip_set_ranges_ok. pose proof (subtract_ok open decided Ho Hd) as Hso. destruct (canonicalize_canon _ Hso) as [Hco _].
  destruct (listed_within_member (filter (fun h => is_alive h = true) (report_hosts r)) _ (V4 0) Hco) as [Hlo _]; [by apply filter_Forall|].
  by destruct (canonicalize_canon _ (subtract_ok _ _ Hco Hlo)).
Qed.

(** A set is empty just when it has no range, and merging keeps that. *)
Lemma gathered_empty (f : TargetScope -> list IpRange) r :
  Forall (fun p => Forall range_ok (f (ph_targets p))) (rp_phases r) ->
  ipset_is_empty (canonicalize (fold_left (fun s scope => fold_left insert_range (f scope) s) (ph_targets <$> rp_phases r) ipset_new)) = false <->
  exists p, p ∈ rp_phases r /\ f (ph_targets p) <> [].
Proof.
  intros Hf. split.
  - intros E. destruct (decide (Forall (fun p => f (ph_targets p) = []) (rp_phases r))) as [Hall|Hn].
    + exfalso. revert E. assert (fold_left (fun s scope => fold_left insert_range (f scope) s) (ph_targets <$> rp_phases r) ipset_new = ipset_new) as ->; [|done].
      clear Hf. revert Hall. generalize (rp_phases r). induction 1 as [|p l Hp Hl IH]; [done|]. cbn. rewrite Hp. done.
    + apply not_Forall_Exists in Hn; [|apply _]. apply Exists_exists in Hn as (p & Hp & Hne). by exists p.
  - intros (p & Hp & Hne). apply not_true_iff_false. intros E. rewrite Forall_forall in Hf. pose proof (Hf p Hp) as Hfp. destruct (f (ph_targets p)) as [|x l] eqn:Ex; [done|].
    apply Forall_cons in Hfp as [Hx _]. assert (exists ip, range_contains x ip = true) as (ip & Hip).
    { destruct x as [x|x]; [exists (V4 (v4_start x))|exists (V6 (v6_start x))]; cbn; [apply v4_contains_spec; unfold range_ok, v4_ok in Hx; lia|apply v6_contains_spec; unfold range_ok, v6_ok in Hx; lia]. }
    pose proof (phases_gathered f r ip ltac:(by apply Forall_forall)) as Hg. rewrite empty_contains in Hg by done.
    enough (false = true) by done. apply Hg. exists p. split; [done|]. exists x. rewrite Ex. split; [by left|done].
Qed.

(** What a comparison takes a report to say of an address is what its phases recorded: that
    nothing was decided there; that some phase walked it; that it was walked by none and
    forbidden to one; that the report names ground and not this; or that it names none. *)
Theorem coverage_of_address r ip :
  report_fits r ->
  let walked := exists p, p ∈ rp_phases r /\ walks p ip in
  let forbidden := exists p, p ∈ rp_phases r /\ forbids p ip in
  let open := in_ranges (report_undecided r) ip in
  match scope_address (scope_index r) ip with
  | Unreached => open
  | Covered => ~ open /\ walked
  | CoverageWithheld => ~ open /\ ~ walked /\ forbidden
  | OutOfScope => ~ open /\ ~ walked /\ ~ forbidden /\ names_ground r
  | CoverageUnstated => ~ open /\ ~ walked /\ ~ forbidden /\ ~ names_ground r
  end.
Proof.
  intros Hr walked forbidden open. pose proof Hr as [Hp _]. unfold scope_address, scope_index. cbn [si_undecided si_covered si_withheld si_stated].
  assert (Forall (fun p => Forall range_ok (sc_ranges (ph_targets p))) (rp_phases r)) as Hw by (eapply Forall_impl; [exact Hp|]; by intros p (? & _)).
  assert (Forall (fun p => Forall range_ok (sc_excluded (ph_targets p))) (rp_phases r)) as He by (eapply Forall_impl; [exact Hp|]; by intros p (_ & ? & _)).
  pose proof (phases_gathered sc_ranges r ip Hw) as Ew. pose proof (phases_gathered sc_excluded r ip He) as Ee.
  pose proof (gathered_empty sc_ranges r Hw) as Nw. pose proof (gathered_empty sc_excluded r He) as Ne.
  set (covered := canonicalize _) in Ew, Nw |- *. set (withheld := canonicalize _) in Ee, Ne |- *.
  assert (contains (canonicalize (fold_left insert_range (report_undecided r) ipset_new)) ip = true <-> open) as Eu.
  { destruct (from_ranges_member (report_undecided r) ip (report_undecided_ok r Hr)) as [H1 H2]. destruct (canonicalize_canon _ H1) as [H3 _].
    rewrite contains_member, canonicalize_member by done. exact H2. }
  destruct (contains (canonicalize _) ip); [by apply Eu|]. assert (~ open) as Hno by (intros H; by apply Eu in H).
  destruct (contains covered ip); [split; [done|]; by apply Ew|]. assert (~ walked) as Hnw by (intros H; by apply Ew in H).
  destruct (contains withheld ip); [split_and!; [done..|]; by apply Ee|]. assert (~ forbidden) as Hnf by (intros H; by apply Ee in H).
  assert (negb (ipset_is_empty covered) || negb (ipset_is_empty withheld) || existsb (fun scope => negb (is_nil (sc_links scope))) (ph_targets <$> rp_phases r) = true <-> names_ground r) as Es.
  { rewrite !orb_true_iff, !negb_true_iff, Nw, Ne, existsb_elem. unfold names_ground. setoid_rewrite list_elem_of_fmap. setoid_rewrite negb_true_iff.
    assert (forall A (l : list A), is_nil l = false <-> l <> []) as Hnil by (by intros A []). setoid_rewrite Hnil. split.
    - intros [[(p & ? & ?)|(p & ? & ?)]|(scope & (p & -> & ?) & ?)]; exists p; tauto.
    - intros (p & ? & [|[|]]); [left; left; by exists p|left; right; by exists p|right; exists (ph_targets p); split; [by exists p|done]]. }
  match goal with |- context [if ?b then _ else _] => destruct b end; split_and!; try done; [by apply Es|]. intros H. by apply Es in H.
Qed.

Lemma best_address_covered x best ips : best <> Covered -> best_address x best ips = Covered <-> exists ip, ip ∈ ips /\ scope_address x ip = Covered.
Proof.
  revert best. induction ips as [|ip ips IH]; intros best Hb; cbn; [split; [done|]; by intros (ip & ?%elem_of_nil & _)|].
  setoid_rewrite elem_of_cons. destruct (scope_address x ip) eqn:E; [split; [|done]; intros _; exists ip; tauto|..]; rewrite IH;
    try (repeat case_bool_decide; congruence); (split; [intros (q & ? & ?); eauto|intros (q & [->|] & ?); [congruence|eauto]]).
Qed.

Lemma best_endpoint_covered port protocol stated cannot_say l :
  best_endpoint port protocol stated cannot_say l = Covered <-> exists s, s ∈ l /\ scope_covers s port protocol = Some true.
Proof.
  revert stated cannot_say. induction l as [|s l IH]; intros stated cannot_say; cbn; [split; [by destruct stated, cannot_say|]; by intros (s & ?%elem_of_nil & _)|].
  setoid_rewrite elem_of_cons. destruct (scope_covers s port protocol) as [[]|] eqn:E; [split; [|done]; intros _; exists s; tauto|..]; rewrite IH;
    (split; [intros (q & ? & ?); eauto|intros (q & [->|] & ?); [congruence|eauto]]).
Qed.

(** A host is covered where a phase swept the link it was found on, or an address it is known
    at is covered; an endpoint where some phase walked its port for all its addresses, unless
    the host is known not to have been asked. *)
Theorem coverage_of_host r h port protocol :
  let x := scope_index r in
  (scope_of_host x h = Covered <->
   (exists p, p ∈ rp_phases r /\ swept (ph_targets p) (h_zone h) = true) \/ exists ip, ip ∈ host_ips h /\ scope_address x ip = Covered) /\
  (scope_endpoint x (scope_of_host x h) port protocol = Covered <->
   is_excluded (scope_of_host x h) = false /\ scope_of_host x h <> Unreached /\
   exists p, p ∈ rp_phases r /\ scope_covers (sc_ports (ph_targets p)) port protocol = Some true).
Proof.
  intros x. split.
  - unfold scope_of_host. destruct (existsb _ _) eqn:E.
    + split; [|done]. intros _. left. apply existsb_elem in E as (scope & (p & -> & Hp)%list_elem_of_fmap & Hs). by exists p.
    + rewrite best_address_covered by done. unfold ascending. setoid_rewrite elem_of_sort_by. setoid_rewrite elem_of_elements. split; [by right|]. intros [(p & Hp & Hs)|]; [|done].
      exfalso. apply not_true_iff_false in E. apply E, existsb_elem. exists (ph_targets p). split; [|done]. apply list_elem_of_fmap. by exists p.
  - unfold scope_endpoint. generalize (scope_of_host x h). intros a.
    assert (best_endpoint port protocol false false (si_ports x) = Covered <-> exists p, p ∈ rp_phases r /\ scope_covers (sc_ports (ph_targets p)) port protocol = Some true) as Hb.
    { rewrite best_endpoint_covered. unfold x. cbn. setoid_rewrite list_elem_of_fmap. setoid_rewrite list_elem_of_fmap. split.
      - intros (s & (scope & -> & (p & -> & Hp)) & Hs). by exists p.
      - intros (p & Hp & Hs). exists (sc_ports (ph_targets p)). split; [|done]. exists (ph_targets p). split; [done|]. by exists p. }
    destruct (is_excluded a) eqn:Ex; cbn [orb]; [split; [intros ->; done|intros [[=] _]]|].
    case_bool_decide as Eu; [split; [intros ->; done|intros (_ & H & _); done]|]. rewrite Hb. tauto.
Qed.

(** ** Where the answers go further than the record *)

Definition sample_scope (first last : Z) (ports : PortScope) : TargetScope :=
  mkTargetScope [RV4 (mkIpv4Range first last)] [] [] (last - first + 1) None ports [Tcp] [] 0.

Definition sample_phase (kind : ScanKind) (scope : TargetScope) (undecided : list IpRange) : ScanPhase :=
  mkScanPhase kind 0 1 scope [] [] [] [] undecided [] None [] 0 0 None false.

(** A port scan of addresses 0 to 9 on port 80 that reached no verdict on address 5. *)
Definition sample_stopped : ScanReport :=
  attributed [] [sample_phase PortScan (sample_scope 0 9 (ScopeEvery (from_ports [(80, Tcp)]))) [RV4 (mkIpv4Range 5 5)]] [].

(** An address nothing was decided at answers [Unreached], and its endpoints with it; a host
    whose every address is such a one does not, and its endpoints are taken for asked.  A
    comparison goes by the host. *)
Theorem undecided_host_reads_as_asked :
  let x := scope_index sample_stopped in
  let h := host_new 0 (V4 5) in
  (forall ip, ip ∈ host_ips h -> scope_address x ip = Unreached) /\ scope_endpoint x (scope_address x (V4 5)) 80 Tcp = Unreached /\
  scope_of_host x h = CoverageUnstated /\ scope_endpoint x (scope_of_host x h) 80 Tcp = Covered.
Proof.
  intros x h. split_and!; try (vm_compute; reflexivity). intros ip Hip. assert (ip = V4 5) as -> by (by apply (elem_of_singleton (C := gset IpAddr))). vm_compute. reflexivity.
Qed.

(** A sweep of addresses 0 to 9, and a scan of port 80 at addresses 20 to 29. *)
Definition sample_two_grounds : ScanReport :=
  attributed []
    [sample_phase Discovery (sample_scope 0 9 ScopeNoPorts) []; sample_phase PortScan (sample_scope 20 29 (ScopeEvery (from_ports [(80, Tcp)]))) []] [].

(** The address of one phase and the port of another make an endpoint that no phase walked, and
    that is taken for covered. *)
Theorem ground_of_two_phases_reads_as_covered :
  let x := scope_index sample_two_grounds in
  scope_endpoint x (scope_of_host x (host_new 0 (V4 5))) 80 Tcp = Covered /\
  Forall (fun p => walks p (V4 5) -> scope_covers (sc_ports (ph_targets p)) 80 Tcp = Some false)
    (rp_phases sample_two_grounds).
Proof.
  split; [vm_compute; reflexivity|]. repeat constructor; try done.
  intros (r & ->%list_elem_of_singleton & Hc). by cbn in Hc.
Qed.
