(* ===== verification/DiffHost.v ===== *)
(** * What changed about one host

    [diff/host.rs]: the changes between two records of a host, and the delta of one machine as
    two scans describe it, with the deltas of its ports. *)

From Stdlib Require Import ZArith Lia Sorting.Sorted.
From stdpp Require Import base numbers option list gmap.
From S2P Require Import Prelude Std Text Ordering IpRange PortSet Mac Finding Backport Status Hardware Os Identity Endpoint HostPorts Host Report DiffPort Scope.

Local Open Scope Z_scope.

Record IpProtocolChange := mkIpProtocolChange {
  ic_protocol : Z;
  ic_state : Change IpProtocolState;
}.

Inductive HostChange :=
  | ChangedStatus (c : Change HostStatus) | ChangedHostname (c : Change (option text)) | ChangedNames (gained lost : list HostName)
  | ChangedAddresses (gained lost : list IpAddr) | ChangedOs (c : Change (option OsFingerprint)) | ChangedMacs (gained lost : list MacAddr)
  | ChangedVendor (c : Change (option text)) | ChangedRoles (gained lost : list NetworkRole) | ChangedFiltering (gained lost : list Filtering)
  | ChangedIpProtocols (changed : list IpProtocolChange)
  | ChangedHostFindings (appeared resolved : list (Finding Build)) (reassessed : list Reassessment).

(** The orders derived for [NetworkRole] and [Filtering], and that of [[u8; 6]]. *)
Definition role_rank (r : NetworkRole) : Z :=
  match r with
  | RoleRouter => 0 | RoleDnsServer => 1 | RoleDhcpServer => 2 | RoleNtpServer => 3 | RoleSnmpAgent => 4 | RoleDomainController => 5 | RoleSwitch => 6
  | RoleOrigin => 7 | RoleTarpit => 8 | RoleTruncated => 9
  end.

Definition filtering_rank (f : Filtering) : Z := match f with InlineMiddlebox => 0 | StatefulFilter => 1 | PortTrustingAcl => 2 | StatelessFilter => 3 end.

Definition mac_leb (a b : MacAddr) : bool := match str_cmp a b with Gt => false | _ => true end.

(** [difference]: what one set has and the other has not, in the order of the set. *)
Definition set_difference {A} `{Countable A} (leb : A -> A -> bool) (before after : gset A) : list A * list A :=
  (sort_by leb (elements (after ∖ before)), sort_by leb (elements (before ∖ after))).

Definition same_system (before after : option OsFingerprint) : bool :=
  match before, after with
  | None, None => true
  | Some before, Some after =>
    bool_decide (os_name before = os_name after) && bool_decide (os_family before = os_family after) && bool_decide (os_device before = os_device after) &&
    bool_decide (os_generation before = os_generation after) && bool_decide (os_vendor before = os_vendor after) && bool_decide (os_kernel before = os_kernel after) &&
    bool_decide (os_arch before = os_arch after) && bool_decide (os_cpe before = os_cpe after)
  | _, _ => false
  end.

Definition is_established (s : IpProtocolState) : bool := negb (bool_decide (s = IpUnasked)).

Definition established (h : Host) (number : Z) : option IpProtocolState :=
  state ← h_ip_protocols h !! number; if is_established state then Some state else None.

Definition ip_protocols_between (before after : Host) : list IpProtocolChange :=
  omap
    (fun number =>
       was ← established before number; now ← established after number; state ← change_between was now; Some (mkIpProtocolChange number state))
    (sort_by Z.leb (elements (dom (h_ip_protocols before)))).

(** The hardware addresses of a record. *)
Definition host_macs (h : Host) : gset MacAddr := match h_hardware h with Some hardware => dom (hw_macs hardware) | None => ∅ end.

Definition seen_on_link (h : Host) : bool := negb (bool_decide (host_macs h = ∅)).

Definition vendor_of (h : Host) : option text := h_hardware h ≫= hw_vendor.

(** Of the names of the earlier record, those in a protocol the later one heard names in. *)
Definition comparable_names (before after : Host) : gset HostName :=
  let heard : gset NameSource := set_map hn_source (nm_names (h_named after)) in
  filter (fun name => hn_source name ∈ heard) (nm_names (h_named before)).

Definition os_change (before after : Host) : option (Change (option OsFingerprint)) :=
  now ← h_os after; if same_system (h_os before) (Some now) then None else Some (mkChange (h_os before) (Some now)).

Definition vendor_change (before after : Host) : option (Change (option text)) :=
  now ← vendor_of after; if bool_decide (vendor_of before = Some now) then None else Some (mkChange (vendor_of before) (Some now)).

Definition changes_between (before after : Host) : list HostChange :=
  pushed ChangedStatus (change_between (h_status before) (h_status after)) ++
  pushed ChangedHostname (change_between (nm_hostname (h_named before)) (nm_hostname (h_named after))) ++
  pushed_sets ChangedNames (set_difference host_name_leb (comparable_names before after) (nm_names (h_named after))) ++
  pushed_sets ChangedAddresses (set_difference ip_leb (host_ips before) (host_ips after)) ++
  pushed ChangedOs (os_change before after) ++
  (if seen_on_link before && seen_on_link after then pushed_sets ChangedMacs (set_difference mac_leb (host_macs before) (host_macs after)) else []) ++
  pushed ChangedVendor (vendor_change before after) ++
  pushed_sets ChangedRoles (set_difference (fun a b => role_rank a <=? role_rank b) (tb_roles (h_table before)) (tb_roles (h_table after))) ++
  pushed_sets ChangedFiltering (set_difference (fun a b => filtering_rank a <=? filtering_rank b) (h_filtering before) (h_filtering after)) ++
  match ip_protocols_between before after with [] => [] | changed => [ChangedIpProtocols changed] end ++
  match findings_between (values (h_findings before)) (values (h_findings after)) with
  | ([], [], []) => []
  | (appeared, resolved, reassessed) => [ChangedHostFindings appeared resolved reassessed]
  end.

Record HostDelta := mkHostDelta {
  hd_address : IpAddr;
  hd_presence : Presence;
  hd_baseline : option Host;
  hd_current : option Host;
  hd_baseline_records : nat;
  hd_current_records : nat;
  hd_changes : list HostChange;
  hd_ports : list PortDelta;
}.

Definition is_regrouped (d : HostDelta) : bool := (1 <? hd_baseline_records d)%nat || (1 <? hd_current_records d)%nat.

Definition delta_is_empty (d : HostDelta) : bool :=
  is_in_both (hd_presence d) && match hd_changes d with [] => true | _ => false end && match hd_ports d with [] => true | _ => false end.

Section Compare.
Variable TIME_MAX : Z.
Variable build_version : DetectionVersion.
Variable suites_census : text.

Definition collect_ports (h : option Host) : list Port := default [] (host_ports <$> h).

(** [compare]; [None] is a panic, where neither side has a record. *)
Definition compare_hosts (baseline current : option Host) (baseline_records current_records : nat) (baseline_scope current_scope : ScopeIndex) (address : IpAddr)
    (clocks : Clocks) : option HostDelta :=
  known ← match current with Some h => Some h | None => baseline end;
  known_before ← match baseline with Some h => Some h | None => current end;
  let baseline_coverage := scope_of_host baseline_scope known in
  let current_coverage := scope_of_host current_scope known_before in
  presence ← match baseline, current with
             | Some _, Some _ => Some PresentInBoth
             | None, Some _ => Some (PresenceAdded baseline_coverage)
             | Some _, None => Some (PresenceRemoved current_coverage)
             | None, None => None
             end;
  let changes := match baseline, current with Some before, Some after => changes_between before after | _, _ => [] end in
  let ports :=
    compare_ports TIME_MAX build_version suites_census (fun key => scope_endpoint baseline_scope baseline_coverage (fst key) (snd key))
      (fun key => scope_endpoint current_scope current_coverage (fst key) (snd key)) (collect_ports baseline) (collect_ports current) clocks in
  Some (mkHostDelta address presence baseline current baseline_records current_records changes ports).
End Compare.

(** ** What a comparison of two records tells *)

Lemma sorted_elements_nil {A} `{Countable A} (leb : A -> A -> bool) (s : gset A) : sort_by leb (elements s) = [] <-> s = ∅.
Proof.
  split; [|by intros ->]. intros E. apply elem_of_equiv_empty_L. intros x Hx. apply elem_of_elements, (elem_of_sort_by leb) in Hx. rewrite E in Hx. by apply elem_of_nil in Hx.
Qed.

Lemma differences_nil {A} `{Countable A} (x y : gset A) : y ∖ x = ∅ /\ x ∖ y = ∅ <-> x = y.
Proof.
  split; [|intros ->; by rewrite difference_diag_L]. intros [H1 H2]. apply set_eq. intros t. pose proof (elem_of_difference y x t) as E1. pose proof (elem_of_difference x y t) as E2.
  rewrite H1, elem_of_empty in E1. rewrite H2, elem_of_empty in E2. split; intros Ht; [destruct (decide (t ∈ y))|destruct (decide (t ∈ x))]; try done; exfalso; tauto.
Qed.

Lemma pushed_difference_nil {A B} `{Countable A} (f : list A -> list A -> B) leb (x y : gset A) : pushed_sets f (set_difference leb x y) = [] <-> x = y.
Proof.
  assert (forall p : list A * list A, pushed_sets f p = [] <-> p = ([], [])) as -> by (intros [[] []]; cbn; naive_solver).
  unfold set_difference. rewrite pair_eq, !sorted_elements_nil. apply differences_nil.
Qed.

Lemma same_system_spec (before : option OsFingerprint) now :
  same_system before (Some now) = true <->
  exists was, before = Some was /\ os_name was = os_name now /\ os_family was = os_family now /\ os_device was = os_device now /\
    os_generation was = os_generation now /\ os_vendor was = os_vendor now /\ os_kernel was = os_kernel now /\ os_arch was = os_arch now /\ os_cpe was = os_cpe now.
Proof.
  destruct before as [was|]; cbn; [|split; [done|]; by intros (? & [=] & _)]. rewrite !andb_true_iff, !bool_decide_eq_true.
  split; [intros; exists was; tauto|]. intros (w & [= <-] & H). tauto.
Qed.

(** What two records of a host agree on where nothing is reported between them: the verdicts,
    and what both scans were in a place to see. *)
Definition agree (before after : Host) : Prop :=
  h_status before = h_status after /\ nm_hostname (h_named before) = nm_hostname (h_named after) /\
  comparable_names before after = nm_names (h_named after) /\ host_ips before = host_ips after /\
  (forall now, h_os after = Some now -> same_system (h_os before) (Some now) = true) /\
  (host_macs before <> ∅ -> host_macs after <> ∅ -> host_macs before = host_macs after) /\
  (forall now, vendor_of after = Some now -> vendor_of before = Some now) /\
  tb_roles (h_table before) = tb_roles (h_table after) /\ h_filtering before = h_filtering after /\
  (forall n was now, established before n = Some was -> established after n = Some now -> was = now) /\
  severity <$> h_findings before = severity <$> h_findings after.

Lemma os_change_none b a : os_change b a = None <-> forall now, h_os a = Some now -> same_system (h_os b) (Some now) = true.
Proof. unfold os_change. destruct (h_os a) as [now|]; cbn; [destruct (same_system _ _) eqn:E|]; split; intros H; try done; [by intros ? [= <-]|]. by rewrite (H now eq_refl) in E. Qed.

Lemma vendor_change_none b a : vendor_change b a = None <-> forall now, vendor_of a = Some now -> vendor_of b = Some now.
Proof. unfold vendor_change. destruct (vendor_of a) as [now|]; cbn; [case_bool_decide as E|]; split; intros H; try done; [by intros ? [= <-]|]. destruct E. by apply H. Qed.

Lemma macs_nil b a :
  (if seen_on_link b && seen_on_link a then pushed_sets ChangedMacs (set_difference mac_leb (host_macs b) (host_macs a)) else []) = [] <->
  (host_macs b <> ∅ -> host_macs a <> ∅ -> host_macs b = host_macs a).
Proof.
  unfold seen_on_link. do 2 case_bool_decide; cbn [negb andb]; try tauto. rewrite pushed_difference_nil. tauto.
Qed.

Lemma ip_protocols_nil b a :
  ip_protocols_between b a = [] <-> forall n was now, established b n = Some was -> established a n = Some now -> was = now.
Proof.
  unfold ip_protocols_between. rewrite omap_nil_iff. split.
  - intros H n was now Eb Ea. specialize (H n). rewrite elem_of_sort_by, elem_of_elements, elem_of_dom, Eb, Ea in H. cbn in H.
    assert (is_Some (h_ip_protocols b !! n)) as Hn by (unfold established in Eb; destruct (h_ip_protocols b !! n); [by eexists|done]). specialize (H Hn).
    destruct (change_between was now) eqn:E; [done|]. by apply change_between_none.
  - intros H n _. destruct (established b n) as [was|] eqn:Eb; [|done]. destruct (established a n) as [now|] eqn:Ea; [|done]. cbn.
    assert (change_between was now = None) as -> by (apply change_between_none; by apply (H n)). done.
Qed.

(** Nothing is reported between two records of a host exactly when they agree. *)
Lemma no_host_change b a : keyed (h_findings b) -> keyed (h_findings a) -> changes_between b a = [] <-> agree b a.
Proof.
  intros Hb Ha. unfold changes_between, agree.
  rewrite !app_nil, !pushed_change_nil, !pushed_difference_nil, !pushed_nil, os_change_none, vendor_change_none, macs_nil.
  assert (match ip_protocols_between b a with [] => [] | changed => [ChangedIpProtocols changed] end = [] <-> ip_protocols_between b a = []) as -> by (by destruct (ip_protocols_between b a)).
  rewrite ip_protocols_nil, <- (findings_between_nil _ _ Hb Ha).
  destruct (findings_between (values (h_findings b)) (values (h_findings a))) as [[[] []] []]; intuition congruence.
Qed.

Lemma agree_refl h : agree h h.
Proof.
  split_and!; try done; [| |by intros n was now -> [= ->]].
  - unfold comparable_names. apply set_eq. intros x. rewrite elem_of_filter. split; [tauto|]. intros Hx. split; [|done]. apply elem_of_map. by exists x.
  - intros now E. rewrite E. apply same_system_spec. by exists now.
Qed.
