(* ===== verification/Diff.v ===== *)
(** * Two scans of a network, compared

    [diff.rs] and [diff/significance.rs]: the comparison of two reports, record by record of
    the hosts they share, its summary, and how much each change is worth. *)

From Stdlib Require Import ZArith Lia Sorting.Sorted.
From stdpp Require Import base numbers option list gmap.
From S2P Require Import Prelude Std Text Ordering IpRange IpSet PortSet Scoped Finding Backport Correlate Retention Status Identity Endpoint HostPorts Host Pairing Flood Report DiffPort Scope DiffHost.

Local Open Scope Z_scope.

Definition DEFAULT_EXPIRY_THRESHOLD : Z := 30 * 24 * 60 * 60 * 10 ^ 9.

Record DiffOptions := mkDiffOptions {
  do_identity : HostIdentity;
  do_expiry_threshold : Z;
  do_as_of : option Z;
}.

Record Provenance := mkProvenance {
  pv_engine_version : text;
  pv_at : Z;
  pv_hosts : nat;
  pv_kinds : list ScanKind;
  pv_scope_stated : bool;
}.

Record ScanDiff := mkScanDiff {
  df_baseline : Provenance;
  df_current : Provenance;
  df_hosts : list HostDelta;
}.

(** ** The comparison *)

Definition silent_in (baseline current : ScanReport) : IpSet :=
  canonicalize (fold_left (fun quiet phase => fold_left insert_range (ph_silent phase) quiet) (rp_phases baseline ++ rp_phases current) ipset_new).

Definition heard (quiet : IpSet) (h : Host) : bool :=
  negb (bool_decide (h_status h = StatusUnknown)) || negb (existsb (contains quiet) (ascending (host_ips h))).

Definition heard_hosts (quiet : IpSet) (r : ScanReport) : list Host := filter (fun h => heard quiet h = true) (report_hosts r).

(** One more record of a host. *)
Definition merge_at (hosts : list Host) (h : Host) (index : nat) : option Host := other ← hosts !! index; Some (host_merge h other).

(** [merged]; [None] is an index out of bounds. *)
Definition merged_records (hosts : list Host) (indices : list nat) : option (option Host) :=
  match indices with
  | [] => Some None
  | first :: rest => h ← hosts !! first; h ← run_each (merge_at hosts) h rest; Some (Some h)
  end.

Section Compare.
Variable TIME_MAX : Z.
Variable build_version : DetectionVersion.
Variable suites_census : text.
(** The order a set of tokens is walked in, and the clock where it is read. *)
Variable walk : gset Token -> list Token.
Variable now_baseline now_current : Z.

Definition compare_component (baseline_hosts current_hosts : list Host) (baseline_scope current_scope : ScopeIndex) (clocks : Clocks) (c : Component) : option HostDelta :=
  before ← merged_records baseline_hosts (cp_baseline c);
  after ← merged_records current_hosts (cp_current c);
  known ← match after with Some h => Some h | None => before end;
  compare_hosts TIME_MAX build_version suites_census before after (length (cp_baseline c)) (length (cp_current c)) baseline_scope current_scope
    (ad_primary (h_addresses known)) clocks.

Definition diff_clocks (baseline current : ScanReport) (options : DiffOptions) : Clocks :=
  mkClocks (observed_at now_baseline TIME_MAX baseline) (default (observed_at now_current TIME_MAX current) (do_as_of options)) (do_expiry_threshold options).

Definition provenance (r : ScanReport) (at_ : Z) (hosts : nat) (scope : ScopeIndex) : Provenance :=
  mkProvenance (rp_engine_version r) at_ hosts (ph_kind <$> rp_phases r) (si_stated scope).

(** [ScanDiff::compare]; [None] is a panic. *)
Definition scan_diff (baseline current : ScanReport) (options : DiffOptions) : option ScanDiff :=
  let quiet := silent_in baseline current in
  let baseline_hosts := heard_hosts quiet baseline in
  let current_hosts := heard_hosts quiet current in
  let baseline_scope := scope_index baseline in
  let current_scope := scope_index current in
  let clocks := diff_clocks baseline current options in
  components ← components walk baseline_hosts current_hosts (do_identity options);
  deltas ← mapM (compare_component baseline_hosts current_hosts baseline_scope current_scope clocks) components;
  Some
    (mkScanDiff (provenance baseline (ck_baseline clocks) (length baseline_hosts) baseline_scope)
       (provenance current (ck_current clocks) (length current_hosts) current_scope)
       (sort_by (fun a b => ip_leb (hd_address a) (hd_address b)) (filter (fun d => delta_is_empty d = false) deltas))).
End Compare.

(** ** Counts *)

Record Confirmed := mkConfirmed {
  cf_total : nat;
  cf_confirmed : nat;
}.

Definition confirm (c : Confirmed) (p : Presence) : Confirmed := mkConfirmed (S (cf_total c)) (cf_confirmed c + bit (is_confirmed p)).

Record DiffSummary := mkDiffSummary {
  ds_hosts_added : Confirmed;
  ds_hosts_removed : Confirmed;
  ds_hosts_changed : nat;
  ds_ports_opened : Confirmed;
  ds_ports_closed : Confirmed;
  ds_ports_changed : nat;
  ds_services_changed : nat;
  ds_certificates_rotated : nat;
  ds_certificates_expiring : nat;
  ds_certificates_expired : nat;
}.

Definition no_changes : DiffSummary := mkDiffSummary (mkConfirmed 0 0) (mkConfirmed 0 0) 0 (mkConfirmed 0 0) (mkConfirmed 0 0) 0 0 0 0 0.

Definition is_service (c : PortChange) : bool := match c with ChangedService _ => true | _ => false end.

Definition is_rotated (c : PortChange) : bool := match c with ChangedSecurity (ChangedCertificate (Rotated _ _)) => true | _ => false end.

Definition is_expiring (c : PortChange) : bool := match c with ChangedSecurity (ChangedCertificate (Expiring _ _)) => true | _ => false end.

Definition is_expired (c : PortChange) : bool := match c with ChangedSecurity (ChangedCertificate (Expired _ _)) => true | _ => false end.

(** [if !list.is_empty()]. *)
Definition some {A} (l : list A) : bool := match l with [] => false | _ => true end.

(** One port of the loop. *)
Definition count_port_delta (s : DiffSummary) (d : PortDelta) : DiffSummary :=
  mkDiffSummary (ds_hosts_added s) (ds_hosts_removed s) (ds_hosts_changed s)
    (if is_opened d then confirm (ds_ports_opened s) (pd_presence d) else ds_ports_opened s)
    (if is_closed d then confirm (ds_ports_closed s) (pd_presence d) else ds_ports_closed s)
    (ds_ports_changed s + bit (is_in_both (pd_presence d) && some (pd_changes d)))
    (ds_services_changed s + bit (existsb is_service (pd_changes d)))
    (ds_certificates_rotated s + how_many is_rotated (pd_changes d)) (ds_certificates_expiring s + how_many is_expiring (pd_changes d))
    (ds_certificates_expired s + how_many is_expired (pd_changes d)).

(** One host of the loop, before its ports. *)
Definition count_presence (s : DiffSummary) (d : HostDelta) : DiffSummary :=
  let with_hosts added removed changed :=
    mkDiffSummary added removed changed (ds_ports_opened s) (ds_ports_closed s) (ds_ports_changed s) (ds_services_changed s) (ds_certificates_rotated s)
      (ds_certificates_expiring s) (ds_certificates_expired s) in
  match hd_presence d with
  | PresenceAdded _ => with_hosts (confirm (ds_hosts_added s) (hd_presence d)) (ds_hosts_removed s) (ds_hosts_changed s)
  | PresenceRemoved _ => with_hosts (ds_hosts_added s) (confirm (ds_hosts_removed s) (hd_presence d)) (ds_hosts_changed s)
  | PresentInBoth => with_hosts (ds_hosts_added s) (ds_hosts_removed s) (ds_hosts_changed s + bit (some (hd_changes d) || some (hd_ports d)))%nat
  end.

Definition diff_summary (d : ScanDiff) : DiffSummary :=
  fold_left (fun s host => fold_left count_port_delta (hd_ports host) (count_presence s host)) (df_hosts d) no_changes.

(** ** Significance *)

Inductive Significance := Routine | Notable | Urgent.

#[export] Instance Significance_eq_dec : EqDecision Significance.
Proof. solve_decision. Defined.

Definition significance_rank (s : Significance) : Z := match s with Routine => 0 | Notable => 1 | Urgent => 2 end.

Definition max_significance (a b : Significance) : Significance := if significance_rank b <=? significance_rank a then a else b.

Definition of_severity (s : Severity) : Significance := match s with Info | Low => Routine | Medium => Notable | High | Critical => Urgent end.

Definition answers (s : HostStatus) : bool := match s with StatusUp | StatusBlocked => true | _ => false end.

Definition of_state (c : Change PortState) : Significance :=
  match bool_decide (ch_before c = PortOpen), bool_decide (ch_after c = PortOpen) with
  | false, true => Urgent
  | true, false => Notable
  | _, _ => Routine
  end.

Definition of_service (c : ServiceChange) : Significance := match c with ServiceName _ | ServiceVersion _ | ServiceBuild _ => Notable | _ => Routine end.

Definition of_security (c : SecurityChange) : Significance :=
  match c with
  | ChangedTlsVersion _ => Notable
  | ChangedCipherSuite _ | ChangedAlpn _ _ => Routine
  | ChangedCertificate (Expired _ _) => Urgent
  | ChangedCertificate (Expiring _ _ | Presented _ | CertificateWithdrawn _) => Notable
  | ChangedCertificate (Rotated _ _) => Routine
  end.

Definition of_findings (appeared : list (Finding Build)) (reassessed : list Reassessment) : Significance :=
  let raised := filter (fun shift => (severity_rank (ch_before (ra_severity shift)) <? severity_rank (ch_after (ra_severity shift))) = true) reassessed in
  fold_left max_significance (((fun f => of_severity (severity f)) <$> appeared) ++ ((fun shift => of_severity (ch_after (ra_severity shift))) <$> raised)) Routine.

Definition host_change_significance (c : HostChange) : Significance :=
  match c with
  | ChangedStatus status => if eqb (answers (ch_before status)) (answers (ch_after status)) then Routine else Notable
  | ChangedOs _ | ChangedMacs _ _ | ChangedNames _ _ | ChangedRoles _ _ | ChangedFiltering _ _ | ChangedIpProtocols _ => Notable
  | ChangedHostname _ | ChangedAddresses _ _ | ChangedVendor _ => Routine
  | ChangedHostFindings appeared _ reassessed => of_findings appeared reassessed
  end.

Definition port_change_significance (c : PortChange) : Significance :=
  match c with
  | ChangedState state => of_state state
  | ChangedService service => of_service service
  | ChangedSecurity security => of_security security
  | ChangedFindings appeared _ _ reassessed => of_findings appeared reassessed
  end.

Definition port_significance (d : PortDelta) : Significance :=
  let presence :=
    if negb (is_confirmed (pd_presence d)) then Routine else if is_opened d then Urgent else if is_closed d then Notable else Routine in
  fold_left max_significance (port_change_significance <$> pd_changes d) presence.

Definition host_significance (d : HostDelta) : Significance :=
  let presence :=
    match hd_presence d with
    | PresentInBoth => Routine
    | presence => if negb (is_confirmed presence) then Routine else Notable
    end in
  let own := fold_left max_significance (host_change_significance <$> hd_changes d) presence in
  fold_left max_significance (port_significance <$> hd_ports d) own.

Definition diff_significance (d : ScanDiff) : Significance := fold_left max_significance (host_significance <$> df_hosts d) Routine.

(** ** The comparison ends *)

Lemma run_merges hosts l h :
  (forall i, i ∈ l -> (i < length hosts)%nat) -> exists h', run_each (merge_at hosts) h l = Some h' /\ (Forall record_ok hosts -> record_ok h -> record_ok h').
Proof.
  revert h. induction l as [|i l IH]; intros h Hl; cbn [run_each]; [by exists h|]. destruct (lookup_lt_is_Some_2 hosts i) as [o Eo]; [apply Hl; by left|].
  assert (merge_at hosts h i = Some (host_merge h o)) as -> by (unfold merge_at; by rewrite Eo). cbn. destruct (IH (host_merge h o)) as (h' & -> & Hok); [intros j Hj; apply Hl; by right|]. exists h'. split; [done|]. intros Hh Hho. apply Hok; [done|].
  apply host_merge_record; [done|]. rewrite Forall_forall in Hh. apply Hh. by eapply list_elem_of_lookup_2.
Qed.

Lemma merged_records_some hosts l :
  (forall i, i ∈ l -> (i < length hosts)%nat) ->
  exists o, merged_records hosts l = Some o /\ (l <> [] -> is_Some o) /\ (Forall record_ok hosts -> from_option record_ok True o).
Proof.
  destruct l as [|i l]; intros Hl; cbn; [by exists None|]. destruct (lookup_lt_is_Some_2 hosts i) as [h Eh]; [apply Hl; by left|]. rewrite Eh. cbn.
  destruct (run_merges hosts l h) as (h' & -> & Hok); [intros j Hj; apply Hl; by right|]. exists (Some h'). split_and!; [done|by eexists|].
  intros Hh. apply Hok; [done|]. rewrite Forall_forall in Hh. apply Hh. by eapply list_elem_of_lookup_2.
Qed.

(** The components of two lists of hosts: records that are there, some on one side. *)
Lemma components_records walk baseline current identity :
  (forall s, Permutation (walk s) (elements s)) -> Z.of_nat (length baseline) < 2 ^ 64 ->
  exists cs, components walk baseline current identity = Some cs /\
    forall c, c ∈ cs -> exists r, describes ((fun h => tokens h identity) <$> baseline) ((fun h => tokens h identity) <$> current) c r /\ within c r /\
      (forall i, i ∈ cp_baseline c -> (i < length baseline)%nat) /\ (forall j, j ∈ cp_current c -> (j < length current)%nat).
Proof.
  intros Hw Hl. unfold components. set (bt := _ <$> baseline). set (ct := _ <$> current).
  destruct (components_listed bt ct walk Hw) as (cs & reps & -> & Hreps & Hdesc & _); [unfold bt; by rewrite length_fmap|].
  exists cs. split; [done|]. intros c [k Hk]%list_elem_of_lookup. destruct (Forall2_lookup_l _ _ _ _ _ Hdesc Hk) as (r & Hr%list_elem_of_lookup_2 & Hd). exists r.
  pose proof Hd as (_ & _ & Hin). assert (in_range bt ct r) as Hrange.
  { destruct Hreps as (starts & rest & -> & _ & Hs & _ & Hrest). apply elem_of_app in Hr as [(i & -> & Hi)%list_elem_of_fmap|(j & -> & Hj)%list_elem_of_fmap]; cbn; [by apply Hs|by apply Hrest]. }
  assert (forall y, within c y -> in_range bt ct y) as Hall by (intros y Hy%Hin; by apply (one_host_in_range bt ct r)).
  split_and!; [done|by apply Hin|..]; intros i Hi; [specialize (Hall (inl i) Hi)|specialize (Hall (inr i) Hi)]; cbn in Hall; unfold bt, ct in Hall; by rewrite length_fmap in Hall.
Qed.

Section Compared.
Variable TIME_MAX : Z.
Variable build_version : DetectionVersion.
Variable suites_census : text.
Variable walk : gset Token -> list Token.
Hypothesis walk_is_set : forall s, Permutation (walk s) (elements s).

Lemma compare_hosts_some b a nb na bs cs address clocks :
  is_Some b \/ is_Some a -> exists d, compare_hosts TIME_MAX build_version suites_census b a nb na bs cs address clocks = Some d /\ hd_address d = address.
Proof. intros H. unfold compare_hosts. destruct b as [b|], a as [a|]; cbn; try (eexists; split; reflexivity). by destruct H as [[? ?]|[? ?]]. Qed.

Lemma compare_component_some bh ch bs cs clocks c r :
  within c r -> (forall i, i ∈ cp_baseline c -> (i < length bh)%nat) -> (forall j, j ∈ cp_current c -> (j < length ch)%nat) ->
  exists d, compare_component TIME_MAX build_version suites_census bh ch bs cs clocks c = Some d.
Proof.
  intros Hr Hb Hc. unfold compare_component. destruct (merged_records_some bh _ Hb) as (b & -> & Hbn & _). destruct (merged_records_some ch _ Hc) as (a & -> & Han & _). cbn.
  assert (is_Some b \/ is_Some a) as Hsome.
  { destruct r as [i|j]; cbn in Hr; [left; apply Hbn|right; apply Han]; intros E; rewrite E in Hr; by apply elem_of_nil in Hr. }
  assert (exists known, match a with Some h => Some h | None => b end = Some known) as (known & ->) by (destruct a; [by eexists|]; destruct Hsome as [|[? [=]]]; done).
  cbn. destruct (compare_hosts_some b a (length (cp_baseline c)) (length (cp_current c)) bs cs (ad_primary (h_addresses known)) clocks Hsome) as (d & -> & _). by exists d.
Qed.

Lemma mapM_some {A B} (f : A -> option B) l : (forall x, x ∈ l -> is_Some (f x)) -> exists k, mapM f l = Some k.
Proof.
  induction l as [|x l IH]; intros H; [by exists []|]. destruct (H x) as [y Ey]; [by left|]. destruct IH as [k Ek]; [intros z Hz; apply H; by right|].
  exists (y :: k). cbn. by rewrite Ey; cbn; rewrite Ek.
Qed.

Lemma ip_leb_total a b : ip_leb a b = true \/ ip_leb b a = true.
Proof. destruct a, b; cbn; rewrite ?Z.leb_le; lia || tauto. Qed.

Lemma ip_leb_trans a b c : ip_leb a b = true -> ip_leb b c = true -> ip_leb a c = true.
Proof. destruct a, b, c; cbn; rewrite ?Z.leb_le; try done; lia. Qed.

(** What a comparison is made of. *)
Lemma scan_diff_some now_baseline now_current baseline current options :
  Z.of_nat (size (rp_hosts baseline)) < 2 ^ 64 ->
  let bh := heard_hosts (silent_in baseline current) baseline in
  let ch := heard_hosts (silent_in baseline current) current in
  let clocks := diff_clocks TIME_MAX now_baseline now_current baseline current options in
  exists cs deltas d,
    scan_diff TIME_MAX build_version suites_census walk now_baseline now_current baseline current options = Some d /\
    (forall c, c ∈ cs -> exists r, describes ((fun h => tokens h (do_identity options)) <$> bh) ((fun h => tokens h (do_identity options)) <$> ch) c r /\ within c r /\
      (forall i, i ∈ cp_baseline c -> (i < length bh)%nat) /\ (forall j, j ∈ cp_current c -> (j < length ch)%nat)) /\
    mapM (compare_component TIME_MAX build_version suites_census bh ch (scope_index baseline) (scope_index current) clocks) cs = Some deltas /\
    d = mkScanDiff (provenance baseline (ck_baseline clocks) (length bh) (scope_index baseline)) (provenance current (ck_current clocks) (length ch) (scope_index current))
      (sort_by (fun a b => ip_leb (hd_address a) (hd_address b)) (filter (fun d => delta_is_empty d = false) deltas)).
Proof.
  intros Hsize bh ch clocks. unfold scan_diff. fold bh ch clocks. assert (Z.of_nat (length bh) < 2 ^ 64) as Hl.
  { assert (length bh <= length (report_hosts baseline))%nat by apply length_filter. assert (length (report_hosts baseline) = size (rp_hosts baseline)); [|lia].
    unfold report_hosts, host_entries. rewrite length_fmap, (Permutation_length (sort_by_perm _ _)). apply length_map_to_list. }
  destruct (components_records walk bh ch (do_identity options) walk_is_set Hl) as (cs & Ecs & Hcs).
  destruct (mapM_some (compare_component TIME_MAX build_version suites_census bh ch (scope_index baseline) (scope_index current) clocks) cs) as (deltas & Ed).
  { intros c (r & _ & Hr & Hb & Hc)%Hcs. destruct (compare_component_some bh ch (scope_index baseline) (scope_index current) clocks c r Hr Hb Hc) as [d E]. by eexists. }
  exists cs, deltas. eexists. split_and!; [|exact Hcs|exact Ed|reflexivity]. rewrite Ecs. cbn. by rewrite Ed.
Qed.

(** C15: A comparison of two reports always returns, whatever order the sets of identity tokens
    are walked in: every component has a record, every index is in bounds; the hosts it lists
    are by ascending address, and each of them differs. *)
Theorem comparison_returns now_baseline now_current baseline current options :
  Z.of_nat (size (rp_hosts baseline)) < 2 ^ 64 ->
  exists d, scan_diff TIME_MAX build_version suites_census walk now_baseline now_current baseline current options = Some d /\
    StronglySorted (fun a b => ip_leb (hd_address a) (hd_address b) = true) (df_hosts d) /\ Forall (fun h => delta_is_empty h = false) (df_hosts d).
Proof.
  intros Hsize. destruct (scan_diff_some now_baseline now_current baseline current options Hsize) as (cs & deltas & d & -> & _ & _ & ->).
  eexists. split; [done|]. cbn. split.
  - apply (sort_by_sorted (fun a b => ip_leb (hd_address a) (hd_address b))); intros *; [apply ip_leb_total|apply ip_leb_trans].
  - apply Forall_forall. intros h [Hh _]%elem_of_sort_by%list_elem_of_filter. done.
Qed.

(** ** A report held against itself *)

Lemma tokens_some h identity : record_ok h -> exists t, t ∈ tokens h identity.
Proof.
  intros ([Hp _] & _). set (ip := ad_primary (h_addresses h)). exists (TokenAddress ip (scope_of ip (z_name <$> h_zone h))). unfold tokens.
  assert (TokenAddress ip (scope_of ip (z_name <$> h_zone h)) ∈ (set_map (fun ip => TokenAddress ip (scope_of ip (z_name <$> h_zone h))) (ad_ips (h_addresses h)) : gset Token)) as Hall.
  { apply elem_of_map. by exists ip. }
  destruct identity; cbn; [by apply elem_of_singleton|done|]. destruct (h_hardware h); [apply elem_of_union; by left|done].
Qed.

Lemma self_component hosts identity c r :
  Forall record_ok hosts -> describes ((fun h => tokens h identity) <$> hosts) ((fun h => tokens h identity) <$> hosts) c r ->
  (forall i, i ∈ cp_baseline c -> (i < length hosts)%nat) -> (forall j, j ∈ cp_current c -> (j < length hosts)%nat) -> cp_baseline c = cp_current c.
Proof.
  intros Hh (Hb & Hc & Hin) Hbl Hcl. set (bt := _ <$> hosts) in *. assert (forall i, (i < length hosts)%nat -> linked bt bt i i) as Hlink.
  { intros i Hi. destruct (lookup_lt_is_Some_2 hosts i Hi) as [h Eh]. rewrite Forall_forall in Hh. destruct (tokens_some h identity) as [t Ht].
    { apply Hh. by eapply list_elem_of_lookup_2. } exists t. assert (holds bt i t) as H by (exists (tokens h identity); split; [|done]; unfold bt; by rewrite list_lookup_fmap, Eh). done. }
  assert (forall i, (i < length hosts)%nat -> one_host bt bt r (inl i) <-> one_host bt bt r (inr i)) as Hiff.
  { intros i Hi. pose proof (Hlink i Hi) as Hli. split; intros H; (eapply rtc_r; [exact H|]); by constructor. }
  apply sorted_lt_ext; [done|done|]. intros i. split; intros Hi.
  - pose proof (Hbl i Hi) as Hlt. change (within c (inr i)). apply Hin, Hiff; [done|]. by apply Hin.
  - pose proof (Hcl i Hi) as Hlt. change (within c (inl i)). apply Hin, Hiff; [done|]. by apply Hin.
Qed.

Lemma host_ports_ok h : record_ok h -> NoDup (port_key <$> host_ports h) /\ Forall port_ok (host_ports h).
Proof.
  intros (_ & _ & _ & _ & _ & _ & _ & (Hall & _) & _). unfold host_ports, ports_in_order. set (l := sort_by _ _).
  assert (forall k p, (k, p) ∈ l -> port_key p = k /\ port_ok p) as Hl.
  { intros k p Hin. unfold l in Hin. rewrite elem_of_sort_by, elem_of_map_to_list in Hin. destruct (Hall _ _ Hin) as (? & _ & ?). done. }
  split.
  - assert (port_key <$> l.*2 = l.*1) as ->; [|unfold l; rewrite sort_by_perm; apply NoDup_fst_map_to_list].
    rewrite <- list_fmap_compose. apply list_fmap_ext. intros i [k p] E%list_elem_of_lookup_2. by apply Hl.
  - apply Forall_fmap, Forall_forall. intros [k p] Hin. by apply (Hl k p).
Qed.

(** What a host shows against itself: only what time changed, and nothing at one time. *)
Definition changed_by_time (d : HostDelta) : Prop :=
  hd_presence d = PresentInBoth /\ hd_changes d = [] /\
  Forall (fun p => pd_presence p = PresentInBoth /\ pd_baseline p = pd_current p /\ Forall (fun c => by_time c = true) (pd_changes p)) (hd_ports d).

Lemma self_delta h n m bs cs address clocks d :
  record_ok h -> compare_hosts TIME_MAX build_version suites_census (Some h) (Some h) n m bs cs address clocks = Some d ->
  changed_by_time d /\ (ck_baseline clocks = ck_current clocks -> delta_is_empty d = true).
Proof.
  intros Hh. unfold compare_hosts. cbn - [changes_between compare_ports]. intros [= <-]. unfold changed_by_time, delta_is_empty. cbn - [changes_between compare_ports].
  assert (changes_between h h = []) as ->. { destruct Hh as (_ & _ & _ & _ & _ & _ & _ & _ & [Hk _]). apply no_host_change; [done|done|apply agree_refl]. }
  destruct (host_ports_ok h Hh) as [Hn Ho]. split; [|intros Hc; by rewrite ports_unchanged]. split_and!; [done|done|by apply ports_by_time].
Qed.

Lemma observed_at_clock now now' r : rp_phases r <> [] \/ report_hosts r <> [] -> observed_at now TIME_MAX r = observed_at now' TIME_MAX r.
Proof.
  unfold observed_at. case_bool_decide as E; cbn; [|intros _].
  - intros [|]; [done|]. by destruct (report_hosts r).
  - unfold finished_at. by destruct (rp_phases r).
Qed.

(** C12: A report of sound records compared with itself shows what time alone changed, by
    whichever identity its hosts are matched.  Each host listed is in both, with no change of
    its own, and each of its ports listed is one record on both sides, whose only changes are
    that its certificate is near its end or past it at the second clock.  So where the options
    name no moment to judge certificates at ([as_of]), no host is listed.  The report has
    fewer than 2^64 records. *)
Theorem comparison_with_itself now_baseline now_current r options :
  map_Forall (fun _ => record_ok) (rp_hosts r) -> Z.of_nat (size (rp_hosts r)) < 2 ^ 64 ->
  exists d, scan_diff TIME_MAX build_version suites_census walk now_baseline now_current r r options = Some d /\
    Forall changed_by_time (df_hosts d) /\ (do_as_of options = None -> df_hosts d = []).
Proof.
  intros Hr Hsize. destruct (scan_diff_some now_baseline now_current r r options Hsize) as (cs & deltas & d & -> & Hcs & Hdeltas & ->).
  eexists. split; [done|]. cbn. set (bh := heard_hosts _ r) in *.
  assert (Forall record_ok bh) as Hbh.
  { apply filter_Forall, Forall_forall. intros h [k E]%elem_of_report_hosts. by apply Hr in E. }
  assert (forall d, d ∈ deltas -> changed_by_time d /\ (do_as_of options = None -> delta_is_empty d = true)) as Hall.
  { intros d Hd. apply mapM_Some_1 in Hdeltas. apply list_elem_of_lookup in Hd as [k Hk]. destruct (Forall2_lookup_r _ _ _ _ _ Hdeltas Hk) as (c & Hc & E).
    apply list_elem_of_lookup_2 in Hc. destruct (Hcs c Hc) as (x & Hdesc & Hx & Hb & Hcur). pose proof (self_component bh _ c x Hbh Hdesc Hb Hcur) as Eq.
    unfold compare_component in E. rewrite <- Eq in E. destruct (merged_records_some bh _ Hb) as (o & Em & Hsome & Hok). rewrite Em in E. cbn in E.
    assert (cp_baseline c <> []) as Hne by (destruct x; cbn in Hx; rewrite <- ?Eq in Hx; intros E0; rewrite E0 in Hx; by apply elem_of_nil in Hx).
    destruct (Hsome Hne) as [h ->]. cbn [mbind option_bind] in E. destruct (self_delta _ _ _ _ _ _ _ _ (Hok Hbh) E) as [Ht He]. split; [done|]. intros Has. apply He.
    cbn. rewrite Has. cbn. apply observed_at_clock. right. intros E0. assert (bh = []) as Ebh by (unfold bh, heard_hosts; by rewrite E0).
    destruct (cp_baseline c) as [|i l]; [done|]. specialize (Hb i ltac:(by left)). rewrite Ebh in Hb. cbn in Hb. lia. }
  split.
  - apply Forall_forall. intros d Hd. rewrite elem_of_sort_by in Hd. apply list_elem_of_filter in Hd as [_ Hd]. by apply Hall.
  - intros Has. assert (filter (fun d => delta_is_empty d = false) deltas = []) as ->; [|done]. apply filter_nil_iff. intros d Hd.
    apply not_false_iff_true. by apply Hall.
Qed.
End Compared.

(** ** Counts of a comparison *)

Lemma count_ports_hosts l s :
  let r := fold_left count_port_delta l s in
  ds_hosts_added r = ds_hosts_added s /\ ds_hosts_removed r = ds_hosts_removed s /\ ds_hosts_changed r = ds_hosts_changed s.
Proof. revert s. induction l as [|d l IH]; intros s; [done|]. cbn [fold_left]. destruct (IH (count_port_delta s d)) as (-> & -> & ->). done. Qed.

(** Every host a comparison lists is counted once: as one that came, one that went, or one that
    changed; and no more of them are confirmed than there are. *)
Theorem summary_accounts_for_hosts d :
  Forall (fun h => delta_is_empty h = false) (df_hosts d) ->
  let s := diff_summary d in
  (cf_total (ds_hosts_added s) + cf_total (ds_hosts_removed s) + ds_hosts_changed s = length (df_hosts d))%nat /\
  (cf_confirmed (ds_hosts_added s) <= cf_total (ds_hosts_added s))%nat /\ (cf_confirmed (ds_hosts_removed s) <= cf_total (ds_hosts_removed s))%nat.
Proof.
  unfold diff_summary. generalize (df_hosts d). intros l Hl.
  assert (forall s, let r := fold_left (fun s host => fold_left count_port_delta (hd_ports host) (count_presence s host)) l s in
    (cf_total (ds_hosts_added r) + cf_total (ds_hosts_removed r) + ds_hosts_changed r =
     cf_total (ds_hosts_added s) + cf_total (ds_hosts_removed s) + ds_hosts_changed s + length l)%nat /\
    (cf_confirmed (ds_hosts_added s) <= cf_total (ds_hosts_added s) -> cf_confirmed (ds_hosts_added r) <= cf_total (ds_hosts_added r))%nat /\
    (cf_confirmed (ds_hosts_removed s) <= cf_total (ds_hosts_removed s) -> cf_confirmed (ds_hosts_removed r) <= cf_total (ds_hosts_removed r))%nat) as H.
  { induction Hl as [|h l Hh Hl IH]; intros s; cbn [fold_left]; [cbn; split_and!; [lia|done|done]|].
    destruct (IH (fold_left count_port_delta (hd_ports h) (count_presence s h))) as (E & H1 & H2). destruct (count_ports_hosts (hd_ports h) (count_presence s h)) as (Ea & Er & Ec).
    rewrite Ea, Er, Ec in E. rewrite Ea in H1. rewrite Er in H2. rewrite E. cbn [length].
    unfold delta_is_empty in Hh. unfold count_presence in *. destruct (hd_presence h) as [|before|after]; cbn in *; [|destruct (is_covered before)|destruct (is_covered after)]; cbn in *;
      (split_and!; [|intros; first [apply H1|apply H2]; lia|intros; first [apply H2|apply H1]; lia]); try lia.
    destruct (hd_changes h), (hd_ports h); try done; cbn; lia. }
  destruct (H no_changes) as (E & H1 & H2). cbn in E. split_and!; [exact E|apply H1; cbn; lia|apply H2; cbn; lia].
Qed.

(** ** What is urgent *)

Lemma fold_significance l s : fold_left max_significance l s = Urgent <-> s = Urgent \/ Urgent ∈ l.
Proof.
  revert s. induction l as [|x l IH]; intros s; cbn; [split; [by left|]; intros [|?%elem_of_nil]; done|]. rewrite IH, elem_of_cons.
  assert (max_significance s x = Urgent <-> s = Urgent \/ Urgent = x) as -> by (destruct s, x; cbn; naive_solver). tauto.
Qed.

Lemma urgent_among {A} (f : A -> Significance) (l : list A) : Urgent ∈ f <$> l <-> exists x, x ∈ l /\ f x = Urgent.
Proof. rewrite list_elem_of_fmap. split; intros (x & ? & ?); exists x; done. Qed.

(** A comparison is urgent exactly where something in it is: a finding of a host, a port that
    was shown to have opened, or a change at a port that is urgent itself; nothing that the other
    scan cannot be shown to have looked for raises it. *)
Theorem urgent_has_a_cause d :
  diff_significance d = Urgent <->
  exists h, h ∈ df_hosts d /\
    ((exists c, c ∈ hd_changes h /\ host_change_significance c = Urgent) \/
     exists p, p ∈ hd_ports h /\
       ((is_confirmed (pd_presence p) = true /\ is_opened p = true) \/ exists c, c ∈ pd_changes p /\ port_change_significance c = Urgent)).
Proof.
  unfold diff_significance. rewrite fold_significance, urgent_among.
  assert (forall p, port_significance p = Urgent <-> (is_confirmed (pd_presence p) = true /\ is_opened p = true) \/ exists c, c ∈ pd_changes p /\ port_change_significance c = Urgent) as Hp.
  { intros p. unfold port_significance. rewrite fold_significance, urgent_among. destruct (is_confirmed (pd_presence p)), (is_opened p), (is_closed p); cbn; intuition congruence. }
  assert (forall h, host_significance h = Urgent <-> (exists c, c ∈ hd_changes h /\ host_change_significance c = Urgent) \/ exists p, p ∈ hd_ports h /\ port_significance p = Urgent) as Hh.
  { intros h. unfold host_significance. rewrite !fold_significance, !urgent_among. destruct (hd_presence h) as [|c|c]; cbn; [|destruct (is_covered c)..]; cbn; intuition congruence. }
  setoid_rewrite Hh. setoid_rewrite Hp. split; [|by right]. intros [[=]|H]. exact H.
Qed.

(** ** A comparison, run *)

Definition sample_seen : ScanReport := attributed [] [sample_phase Retention.Discovery (sample_scope 0 9 ScopeNoPorts) []] [sample_host; host_new 5 (V4 2)].

Definition sample_options : DiffOptions := mkDiffOptions AnyAddress DEFAULT_EXPIRY_THRESHOLD None.

Definition sample_version : DetectionVersion := mkVersion 1 0 0.

Lemma sample_seen_ok : map_Forall (fun _ => record_ok) (rp_hosts sample_seen).
Proof.
  assert (hosts_ok (rp_hosts sample_seen)) as H; [|intros k h E; apply host_ok_record; by apply H in E as [_ E]].
  apply assembled_ok. apply AssembledFrom. apply Forall_cons_2; [|apply Forall_cons_2; [apply host_new_ok|apply Forall_nil_2]].
  apply sample_host_ok.
Qed.

Lemma comparison_returns_witness :
  exists d, scan_diff (2 ^ 70) sample_version [] elements 0 0 sample_stopped sample_seen sample_options = Some d /\
    StronglySorted (fun a b => ip_leb (hd_address a) (hd_address b) = true) (df_hosts d) /\ Forall (fun h => delta_is_empty h = false) (df_hosts d).
Proof.
  apply (comparison_returns (2 ^ 70) sample_version [] elements (fun s => Permutation_refl _) 0 0 sample_stopped sample_seen sample_options). vm_compute. reflexivity.
Defined.

(** Asked at its own time, and long after. *)
Definition sample_later : DiffOptions := mkDiffOptions AnyAddress DEFAULT_EXPIRY_THRESHOLD (Some (2 ^ 65)).

Lemma comparison_with_itself_witness :
  (exists d, scan_diff (2 ^ 70) sample_version [] elements 0 0 sample_seen sample_seen sample_options = Some d /\ df_hosts d = []) /\
  exists d, scan_diff (2 ^ 70) sample_version [] elements 0 0 sample_seen sample_seen sample_later = Some d /\ Forall changed_by_time (df_hosts d).
Proof.
  split.
  - destruct (comparison_with_itself (2 ^ 70) sample_version [] elements (fun s => Permutation_refl _) 0 0 sample_seen sample_options) as (d & H1 & _ & H2);
      [apply sample_seen_ok|vm_compute; reflexivity|]. exists d. split; [exact H1|]. apply H2. reflexivity.
  - destruct (comparison_with_itself (2 ^ 70) sample_version [] elements (fun s => Permutation_refl _) 0 0 sample_seen sample_later) as (d & H1 & H2 & _);
      [apply sample_seen_ok|vm_compute; reflexivity|]. exists d. split; [exact H1|exact H2].
Defined.
